(* ===== verification/_CoqProject ===== *)
-Q . S2P
Prelude.v
MailLines.v
MailAddr.v
MailHeader.v
SmtpData.v
HttpParse.v
Json.v
DlEngine.v
Store.v
StoreSpec.v
StoreTables.v
StoreQueue.v
Reply.v
Config.v
Prog.v
SmtpReply.v
SmtpParse.v
SmtpWorld.v
MemHost.v
SmtpQueue.v
SmtpQueueSpec.v
SmtpDurable.v
SmtpForward.v
SmtpSession.v
SmtpSessionSpec.v
SmtpServer.v
SmtpLoop.v
SmtpOut.v
SmtpDialogue.v
SmtpOutSpec.v
SmtpDialogueSpec.v
SmtpSend.v
SmtpEnds.v
SmtpRelay.v
OutboxAuth.v
OutboxPolicy.v
OutboxDeliver.v
OutboxDeliverSpec.v
OutboxSubmit.v
OutboxSubmitSpec.v
OutboxMain.v
OutboxMainSpec.v
Dkim.v
DkimSpec.v
AuthDns.v
AuthDnsSpec.v
AuthResults.v
AuthResultsSpec.v
Admin.v
Http.v
AdminSpec.v
HttpSpec.v
MailStore.v
MailStoreSpec.v
MailAuth.v
MailAuthSpec.v
MailUid.v
MailUidSpec.v
MailHdrs.v
MailHdrsSpec.v
MailBox.v
MemMail.v
MailBoxSpec.v
MailScanSpec.v
ImapdNet.v
Pop3.v
MemNet.v
Pop3Spec.v
Pop3MailSpec.v
Pop3QuitSpec.v
Ingest.v
IngestSpec.v
ImapdPeer.v
Imapd.v
ImapdSpec.v
Mime.v
MimeSpec.v
MailRemove.v
ImapSearch.v
ImapSearchSpec.v
