(* ===== verification/Prelude.v ===== *)
(** * Verification of visage

    visage (src/README.md) is a mail-alias relay in C: it accepts mail for aliases
    over SMTP, rewrites it, keeps it in a durable queue, forwards it through a
    relay, and routes replies back through per-sender reverse addresses. Beside the
    relay stands the outbox, a submission server that takes mail from logged-in
    users, signs it and delivers it to the MX of each recipient, and imapd, the
    mailbox server on a maildir. This development models the first two programs, from
    the bytes of a message to their event loops, the SMTP client they share, and of the
    third the mail store, the POP3 and ingest sessions, the MIME structure, the SEARCH language and the event
    loop, and proves
    what makes them correct. Source names are under src/src/.

    ** The program and the files

    - mail.c: [MailLines] (CRLF normalisation in place, dot-stuffing, the
      control-byte test), [MailAddr] (address syntax), [MailHeader] (header
      scanning, get, set, remove, and the rewriting of a message before it is
      forwarded).
    - the DATA scanner of smtp_in.c and the DATA framing of smtp_out.c:
      [SmtpData].
    - http_parse.c: [HttpParse]. json.c: [Json].
    - store.c, the tables of domains, aliases, reply tokens, log, counter and
      queue: [Store] is the code, one definition per function; [StoreSpec] the
      type discipline of the columns, which every operation keeps; [StoreTables]
      the meaning of the alias, reply, log and counter operations; [StoreQueue]
      that of the queue, crashes included. The datalog engine underneath is a
      submodule outside the tree: [DlEngine] is the interface the store uses, its
      laws, and a concrete engine that satisfies them.
    - reply.c: [Reply]. The readers of config.c and config.h the mail path uses,
      and the backoff and relay choice of smtp_out.c: [Config].
    - smtp_in.c: [SmtpParse] (argument, SIZE and spool-name syntax), [SmtpWorld]
      (the state the handlers share, the monad, the machine as the class [Host]),
      [SmtpQueue] (delivery, retry, enqueue, spool sweep), [SmtpForward] (alias
      and reply forwarding), [SmtpSession] (connections, commands, DATA, PROXY,
      TLS start), [SmtpServer] (listeners, HTTP slots, limits, deadlines),
      [SmtpLoop] (one turn of [server_poll], startup). Their theorems are in
      [SmtpQueueSpec], [SmtpDurable], [SmtpForward], [SmtpSessionSpec],
      [SmtpServer] and [SmtpLoop]. [MemHost] is a concrete machine, on which the
      whole server runs by computation.
    - smtp_out.c: [SmtpReply] (reply codes and classes, the capability search,
      base64, commands), [SmtpOut] (the connection: TLS setup, buffered reads,
      bounded writes, replies, connecting), [SmtpDialogue] (the dialogue and the
      attempt loop). [SmtpOutSpec] is the protocol as a transition system over the
      trace of a connection, [SmtpDialogueSpec] the refinement, [SmtpSend] the
      properties of the attempt loop, [SmtpEnds] termination over a finite
      network, [SmtpRelay] the theorems and the link to the queue of smtp_in.c.
    - outbox_auth.c: [OutboxAuth]. outbox.h and the pure parts of outbox_submit.c
      and outbox_main.c: [OutboxPolicy]. outbox_deliver.c: [OutboxDeliver], with
      [OutboxDeliverSpec]. outbox_submit.c: [OutboxSubmit], with
      [OutboxSubmitSpec]. outbox_main.c: [OutboxMain], with [OutboxMainSpec].
    - dkim.c: [Dkim], with [DkimSpec]. The vendored mbedtls is the class [Mbed],
      with its laws [MbedLaws] and a small instance that satisfies them.
    - auth_results.c: [AuthDns] is its DNS client (names, replies, queries, reply
      cache, resolver; the system calls are the class [AuthSys]), with
      [AuthDnsSpec]; [AuthResults] is SPF, DKIM and DMARC evaluation and the
      Authentication-Results field, with [AuthResultsSpec].
    - admin.c: [Admin] is the admin API, from the request line to the response, with
      [AdminSpec]. http.c: [Http] is its connections and their callbacks, with
      [HttpSpec].
    - imap_maildir.c: [MailStore] (flag letters, uid sets, base64, list patterns,
      names and paths, subscriptions), [MailAuth] (credential file, lockout, and the
      PLAIN split of imapd_imap.c), [MailUid] (hash tables and the uidlist file),
      [MailHdrs] (header blocks and the header cache file), [MailBox] (scan, view
      operations, delivery, moves, folder list), [MailRemove] (removing a folder),
      [Mime] (BODYSTRUCTURE, part numbers, the walk over the parts), with
      [MailStoreSpec], [MailAuthSpec], [MailUidSpec], [MailHdrsSpec],
      [MailBoxSpec], [MailScanSpec] and [MimeSpec]. Files are the class [MailFs] with its laws; [MemMail] is a
      file system in memory that satisfies them.
    - imapd_tls.c and the connection fields of imapd.h: [ImapdNet] (the states of
      STARTTLS, queueing and flushing replies; the network is a class, with the
      concrete one of [MemNet]). pop3d.c: [Pop3], with [Pop3Spec] (streaming),
      [Pop3MailSpec] (commands) and [Pop3QuitSpec] (QUIT and whole rounds).
      imapd_ingest.c: [Ingest], with [IngestSpec]. imapd.c: [Imapd] (configuration and
      the loop over the three kinds of connection; IMAP sessions are a class with the
      laws the loop relies on), with [ImapdPeer] (no handler changes the peer) and
      [ImapdSpec]. The SEARCH language of imapd_imap.c: [ImapSearch] (tokenizer, parser,
      match), with [ImapSearchSpec].
    - [Prog] is the state monad of the client and the outbox: a program returns
      [None] while it still runs; [wp] is its weakest precondition.

    ** How state and effects are modelled

    A byte is a [Z] in [0, 256), a C string or buffer a list of bytes; [c_str]
    cuts a buffer at its NUL where the code hands it to a string function. Machine
    integers are [Z] with the wrap-around written out ([u32], [u64], [i32]).
    Capacities are arguments where a function takes one. The store is a value that
    operations take and return with the C return code. The handlers of smtp_in.c
    are functions of a state monad over [World]: the store, the list of reply
    marks, the machine, and a ghost list of the relay attempts made. A connection
    is a record with the fields of [Conn] and a ghost list of the replies queued.
    The client runs over [Out]: the network ([Net]: resolver, sockets, clock and the
    vendored TLS library), the TLS globals, the connection, the status text and a
    ghost trace of what was connected, sent and read. The outbox has two threads
    that share the queue under a lock: the poll thread runs over [Box], the worker
    over [Worker] (the client's state, the MX cache and a ghost log of outcomes).
    [sys_step] interleaves queue operations of the poll thread with the worker's
    passes in any order; [daemon_step] puts the real poll loop in, with the worker's
    steps between its turns.
    Whatever lies outside (clock, files, sockets, TLS, [poll], [accept] and, for the
    loop, the callbacks of the admin server) is a field of the class [Host] or [Mux], so a
    theorem holds for everything they may return; so are, for the servers, DKIM
    signing, the Authentication-Results builder and the MX lookup, which [Dkim],
    [AuthResults] and [AuthDns] model on their own; [HostLaws] is assumed only where
    files matter, [DlLaws] for the store, and [DlHealthy] (no engine call fails)
    only where a theorem says so.

    ** What is proved

    - Acceptance: a 250 means that a delivery is committed (queue row and body)
      for every recipient, and no handler loses a committed delivery
      ([accepted_means_committed]); the sweep never touches mail in flight
      ([spool_gc_safe]); a status change survives a crash at any engine write
      ([queue_set_status_crash_safe]); message ids are never reused
      ([next_msgid_unique]).
    - Delivery: one attempt has one outcome and never leaves a row "delivering"
      ([queue_deliver_one_correct]); retries end ([queue_retries_bounded]); the due
      walk, the cached due time and the recovery at startup are exact.
    - Sessions: an invariant over every reachable connection state
      ([session_invariant]) and over the loop ([event_loop_invariant],
      [connection_limits], [poll_timeout_sound]); the exact decision on a recipient
      ([rcpt_decision]).
    - Messages: transparency of DATA ([smtp_data_transparent]), independence of
      chunking ([data_scan_resumable], [http_parse_probe_incremental]), the exact
      result of rewriting and its safety ([mail_sanitize_for_forward_spec],
      [mail_sanitize_no_spoof]), header get after set, address syntax and its
      injection safety, reverse addresses and their removal, JSON escaping and
      lookup, SIZE and spool names without wrap-around.
    - The client: the dialogue refines the protocol ([smtp_dialogue_refines]);
      SMTP_OK means a server took sender, recipient and body on that connection
      ([smtp_ok_means_accepted], and for the queue [delivered_means_accepted]);
      credentials and mandatory-TLS mail stay on verified channels
      ([credentials_confined]); a permanent failure has a cause, a complete reply or a
      certificate that does not verify, attempts are bounded and paced, and every delivery ends over a finite network
      ([permanent_failure_has_cause], [delivery_attempts_bounded],
      [delivery_ends]); the capability search equals a reference.
    - The outbox: whatever clients do, only mail that satisfies the submission
      policy, from a session that gave a password of the table (or, with an unknown
      user, the dummy password), is queued, and sessions and connection limits are kept
      ([submission_policy]); the reply to a message tells what became of it
      ([submission_decided]); every accepted recipient has exactly one outcome or
      is open in one job ([accepted_recipients_kept], [daemon_refines_delivery]);
      the queue keeps its caps; a stop drains it ([shutdown_drains]); the worker
      never oversleeps a due job; credential check and lockout, exactly; only
      configurations with numbers in range start the daemon ([configure_typed]).
    - DKIM: a signature the code makes verifies ([dkim_round_trip]); it is one
      field of bounded size and without line breaks ([dkim_sign_bounds]); the
      streamed canonicalisation equals the canonical form ([canonicalisation_exact]).
    - DNS: no reply makes a parser read outside it ([dns_replies_safe]); the echo of a
      query is recognised ([dns_question_round_trip]); cached or fresh, a reply
      answers the question ([query_answers_question]); MX hosts are in order
      ([mx_hosts_in_order]).
    - Authentication: SPF ends within 11 questions ([spf_bounded]) and matches address
      ranges exactly ([spf_range_exact]); a pass has its cause in the message and in
      DNS, as a reader of the bytes of the field finds it ([auth_pass_sound]); the field is a single field ([auth_field_single]).
    - The admin API: without the token nothing changes and nothing is learned
      ([admin_auth_gate]); adding and removing aliases and replaying a message do
      exactly what they say ([admin_alias_exact], [admin_replay_exact]); every request
      gets one well-framed response ([admin_response_framed]) that does not depend on
      the pieces it arrived in ([http_request_pieces]); a callback never finds a freed
      connection ([http_slots_live]) and loses no committed delivery
      ([http_keeps_commitments]).
    - The mail store: a scan gives every file one uid, the known ones theirs, in
      order, and buries exactly the names without a file ([mbox_scan_uids]); merging a session's rows with the file keeps uids and
      names unique and never rewinds ([uidlist_merge_safe]), through hash tables that
      are maps ([base_hash_is_map], [uidlist_merge_refines]); the uidlist and the
      header cache read back what was written ([uidlist_round_trip],
      [hdrs_round_trip]); flag changes, expunging and delivery do exactly what they
      say, a delivery all or nothing ([mbox_store_exact], [mbox_expunge_exact],
      [deliver_complete_or_absent]); patterns, sets, names and the credential file
      have exact descriptions ([wildmat_exact], [seqset_exact],
      [mbox_dir_isolated], [passwd_set_exact]); a folder is removed as a whole or
      reported ([delete_reports]).
    - MIME: the walk over the parts is a tree of nested, ordered spans
      ([mime_iterate_tree]), with nothing left out ([spans_complete]); its part
      numbers are those of BODY[section] when no part is empty
      ([mime_ids_resolve]); BODYSTRUCTURE always ends and stays on one line
      ([bodystructure_one_line]).
    - POP3: the only way into a mailbox is a password check ([pop3_auth_gate]); in
      every state and on any input a round returns and touches nothing outside the
      session's mailbox ([pop3_round_confined]); no command but QUIT loses a message of
      the view or changes it, except that one may move to the name its own base and
      \Seen make, and QUIT takes exactly the marked messages ([pop3_keeps_mail], [pop3_quit_exact]);
      what RETR and TOP send decodes to the message ([pop3_retr_round_trip]).
    - Ingest: a 250 at the end of a message means that every recipient has its copy
      ([ingest_acknowledged_means_stored]); on any input a session keeps its invariant
      and returns ([ingest_session_invariant]). The loop of imapd keeps the limits on
      connections and the invariants of the POP3 and ingest sessions, and destroys the
      connections that are done ([imapd_loop_invariant]).
    - SEARCH: the substring search is exact ([ci_strstr_exact]), a program finds what its
      text says, within the 64 levels of the code and apart from groups, dates in leap
      years and stars among uids ([search_program_exact]), the parser ends ([parse_fuel]), and the
      header cache answers as the files would ([search_cache_exact]).
    - Store: column types after any operations, and what each operation does to
      its table, with the refusals.

    Some lemmas record behaviour the code surely does not intend:
    [Json.json_value_hides_key], [StoreTables.revmap_future_row_expires],
    [Reply.comment_hides_reverse], [SmtpServer.poll_timeout_wraps],
    [SmtpSessionSpec.pipelined_body_waits],
    [SmtpSessionSpec.vanished_alias_is_accepted], [SmtpLoop.stalled_peer_spins],
    [OutboxAuth.dummy_password_authenticates], [SmtpRelay.verify_init_ignores_ca],
    [SmtpRelay.endless_reply_runs], [OutboxDeliverSpec.internal_relay_never_delivers],
    [DkimSpec.altered_body_verifies], [DkimSpec.repeated_field_fails],
    [DkimSpec.empty_body_is_crlf], [AuthResultsSpec.literal_domain_writes_results],
    [AuthResultsSpec.signature_below_field_fails],
    [AuthResultsSpec.subdomain_policy_taken], [AuthResultsSpec.key_with_tags],
    [AuthResultsSpec.truncated_txt_accepted], [AdminSpec.bracketed_alias_never_resolves],
    [MailStoreSpec.percent_dot_should_match], [MailStoreSpec.sixteenth_letter_lost],
    [MailStoreSpec.uid_star_matches_nothing], [MailAuthSpec.imapd_dummy_password],
    [Pop3Spec.slow_reader_cut], [Pop3MailSpec.zero_is_parsed],
    [Pop3QuitSpec.pump_leaves_input], [IngestSpec.ingest_pipelined_body_waits],
    [ImapdSpec.imapd_stalled_peer_spins], [ImapdSpec.max_msg_wraps],
    [MailRemove.dot_file_loses_messages], [MimeSpec.empty_part_renumbered],
    [MimeSpec.single_has_no_part_1], [MimeSpec.bodystructure_unparenthesised],
    [MimeSpec.type_not_escaped], [MimeSpec.delimiter_inside_a_line],
    [MimeSpec.semicolon_inside_quotes], [MimeSpec.slash_behind_semicolon],
    [MimeSpec.bodystructure_recursion_unbounded], [ImapSearchSpec.group_key_lost],
    [ImapSearchSpec.leap_year_dates_late], [ImapSearchSpec.not_resets_depth],
    [ImapSearchSpec.negative_size_wraps].

    ** Fuel and bounds

    Loops over a string are structural or take the length of what is left as fuel,
    and each iteration consumes a byte. [crlf_rewrite_loop] counts bytes down.
    Buffer growth takes 64 doublings, which exceed [size_t]. [commands_loop] has one
    round more than there are bytes, enough unless TLS input is drained inside it.
    [tls_advance] and [drain_loop], which recurse through each other for as long as
    the TLS layer has records, take their depth and count as arguments: theorems
    hold for every value of them. [queue_redrive] has the batch limit of the code.
    The client's reads take fuel for continuation lines, which the code does not
    bound; over a network that delivers finitely many bytes ([FiniteNet]) more fuel
    than bytes is enough, and the runs return ([delivery_ends]). SPF evaluation takes
    [SPF_FUEL], one more than its budget of terms ([spf_bounded]). [worker_loop] takes
    the number of rounds; after a shutdown one round per remaining attempt of each
    job is enough ([shutdown_drains]). A POP3 round has one step more than there are
    bytes of input, a pump five more than bytes of the file, and both are enough
    ([pop3_round_confined], [pop3_retr_round_trip]); the same holds for an
    ingest round. The drains over TLS go on for as long as there are records and take the
    number of reads; without TLS a turn of imapd returns ([imapd_loop_invariant]).
    Reaping has one step more than there are connections, which is enough
    ([reap_exact]). The loops over the parts of a body have one step more than there are
    bytes, which is enough ([spans_complete]); the walk has the depth of the code, and
    BODYSTRUCTURE, which the code does not bound, one level more than there are bytes
    ([bodystructure_one_line]).

    ** What is not modelled, and why

    Allocation is taken to succeed (NULL returns of malloc and their branches are
    left out), and pointers are not NULL except where the source tests data that may
    be. Signals, opening listeners and creating threads are left out. The hash of mbedtls is taken
    to succeed. Inbound TLS is a parameter; the Dhall loader calls a submodule; the
    IMAP sessions (imapd_imap.c, apart from the PLAIN split and the SEARCH language) and
    jmapd are not modelled; the embedded files of the admin interface, which the build generates, are parameters; vendored mbedtls and the absent submodules are outside the program. *)

From stdpp Require Export base numbers list strings gmap.
From Stdlib Require Export ZArith Lia.
From Stdlib Require Ascii String.
From Stdlib Require Strings.Byte.

#[global] Open Scope Z_scope.

(** ** Bytes

    A byte is a [Z] in [0, 256); a C [char] is represented by its unsigned
    value.  The notation ["c"%chr] denotes the code of an ASCII character and
    reduces to a literal, so that [lia] decides character-class arithmetic. *)

Abbreviation bytes := (list Z) (only parsing).

Definition chr_parse (l : list Init.Byte.byte) : option Z :=
  match l with [b] => Some (Z.of_N (Stdlib.Strings.Byte.to_N b)) | _ => None end.

Definition chr_print (_ : Z) : option (list Init.Byte.byte) := None.

Declare Scope chr_scope.
Delimit Scope chr_scope with chr.
String Notation Z chr_parse chr_print : chr_scope.

(** The bytes of an ASCII string literal. *)
Definition bs (s : string) : bytes :=
  map (fun a => Z.of_N (Ascii.N_of_ascii a)) (String.list_ascii_of_string s).

Abbreviation NUL := 0 (only parsing).
Abbreviation TAB := 9 (only parsing).
Abbreviation LF := 10 (only parsing).
Abbreviation CR := 13 (only parsing).
Abbreviation SP := 32 (only parsing).
Abbreviation DQUOTE := 34 (only parsing).
Abbreviation BACKSLASH := 92 (only parsing).
Abbreviation CRLF := [13; 10] (only parsing).

Definition is_byte (c : Z) : bool := (0 <=? c) && (c <? 256).

Definition bytes_ok (s : bytes) : Prop := Forall (fun c => is_byte c = true) s.

(** [c] is one of the two line-ending bytes / one of the two blanks the mail
    grammar calls WSP. *)
Definition is_eol (c : Z) : bool := (c =? CR) || (c =? LF).
Definition is_wsp (c : Z) : bool := (c =? SP) || (c =? TAB).

(** ASCII lower-casing of one byte, as every case-insensitive comparison of
    the program performs it. *)
Definition tolower (c : Z) : Z :=
  if ("A"%chr <=? c) && (c <=? "Z"%chr) then c + 32 else c.

Definition lower (s : bytes) : bytes := map tolower s.

Definition is_digit (c : Z) : bool := ("0"%chr <=? c) && (c <=? "9"%chr).

(** The number [ds] denotes when [v] has been read before it. *)
Definition dec_value (v : Z) (ds : bytes) : Z := foldl (fun v c => v * 10 + (c - "0"%chr)) v ds.

(** Case-insensitive equality of two byte ranges of the same length. *)
Fixpoint ieq (a b : bytes) : bool :=
  match a, b with
  | [], [] => true
  | x :: a', y :: b' => (tolower x =? tolower y) && ieq a' b'
  | _, _ => false
  end.

(** Equality of two byte ranges ([memcmp]/[strcmp] returning 0). *)
Fixpoint beq (a b : bytes) : bool :=
  match a, b with
  | [], [] => true
  | x :: a', y :: b' => (x =? y) && beq a' b'
  | _, _ => false
  end.

(** [strncmp(s, p, strlen(p)) == 0]: the remainder of [s] after prefix [p]. *)
Fixpoint strip_prefix (p s : bytes) : option bytes :=
  match p, s with
  | [], _ => Some s
  | x :: p', y :: s' => if x =? y then strip_prefix p' s' else None
  | _ :: _, [] => None
  end.

(** The C string test [!s[0]]. *)
Definition is_nil (s : bytes) : bool := match s with [] => true | _ => false end.

(** ** Scanning *)

(** [while (i < len && p(s[i])) i++]: what the loop passes over, and the rest. *)
Fixpoint take_while (p : Z -> bool) (s : bytes) : bytes :=
  match s with
  | [] => []
  | c :: s' => if p c then c :: take_while p s' else []
  end.

Fixpoint drop_while (p : Z -> bool) (s : bytes) : bytes :=
  match s with
  | [] => []
  | c :: s' => if p c then drop_while p s' else s
  end.

(** The C string a buffer holds: the bytes before the first NUL. *)
Definition c_str (s : bytes) : bytes := take_while (fun c => negb (c =? 0)) s.

(** [while (end > start && p(end[-1])) end--]. *)
Definition trim_end (p : Z -> bool) (s : bytes) : bytes :=
  reverse (drop_while p (reverse s)).

Definition trim (p : Z -> bool) (s : bytes) : bytes :=
  trim_end p (drop_while p s).

(** [strchr(s, c)] / [memchr]: the bytes before the first [c] and those after. *)
Fixpoint cut (c : Z) (s : bytes) : option (bytes * bytes) :=
  match s with
  | [] => None
  | x :: s' =>
      if x =? c then Some ([], s')
      else match cut c s' with
           | Some (a, b) => Some (x :: a, b)
           | None => None
           end
  end.

Definition has (c : Z) (s : bytes) : bool := existsb (Z.eqb c) s.

(** [if (i < len && s[i] == c) i++]. *)
Definition eat (c : Z) (s : bytes) : bytes * bytes :=
  match s with
  | x :: s' => if x =? c then ([x], s') else ([], s)
  | [] => ([], [])
  end.

Definition last_byte (s : bytes) : option Z := last s.

(** ** Automation *)

Create HintDb visage.
Create Rewrite HintDb visage.

(** Case split on the first boolean test, option or list scrutinised in the
    goal, keeping the equation. *)
Ltac split_match :=
  match goal with
  | |- context [if ?b then _ else _] => destruct b eqn:?
  | |- context [match ?x with _ => _ end] => destruct x eqn:?
  end.

Ltac split_match_in H :=
  match type of H with
  | context [if ?b then _ else _] => destruct b eqn:?
  | context [match ?x with _ => _ end] => destruct x eqn:?
  end.

(** Boolean reasoning on character classes. *)
Ltac chars := unfold is_eol, is_wsp, is_byte in *; lia.

(** ** Lemmas on scanning *)

Lemma take_drop_while p s : take_while p s ++ drop_while p s = s.
Proof. induction s as [|c s IH]; simpl; [done|]. destruct (p c); simpl; congruence. Qed.

Lemma take_while_all p s : Forall (fun c => p c = true) (take_while p s).
Proof.
  induction s as [|c s IH]; simpl; [constructor|].
  destruct (p c) eqn:E; [by constructor | constructor].
Qed.

(** The rest of a scan is empty or starts with a byte that stopped it. *)
Lemma drop_while_head p s :
  drop_while p s = [] \/ exists c s', drop_while p s = c :: s' /\ p c = false.
Proof.
  induction s as [|c s IH]; simpl; [by left|].
  destruct (p c) eqn:E; [done | right; eauto].
Qed.

Lemma take_while_app_all p a b :
  Forall (fun c => p c = true) a -> take_while p (a ++ b) = a ++ take_while p b.
Proof. induction 1 as [|c a Hc _ IH]; simpl; [done|]. by rewrite Hc, IH. Qed.

Lemma drop_while_app_all p a b :
  Forall (fun c => p c = true) a -> drop_while p (a ++ b) = drop_while p b.
Proof. induction 1 as [|c a Hc _ IH]; simpl; [done|]. by rewrite Hc, IH. Qed.

Lemma take_while_stop p c s : p c = false -> take_while p (c :: s) = [].
Proof. simpl. by intros ->. Qed.

Lemma drop_while_stop p c s : p c = false -> drop_while p (c :: s) = c :: s.
Proof. simpl. by intros ->. Qed.

Lemma take_while_id p s : Forall (fun c => p c = true) s -> take_while p s = s.
Proof. induction 1 as [|c s Hc _ IH]; simpl; [done|]. by rewrite Hc, IH. Qed.

Lemma drop_while_nil p s : Forall (fun c => p c = true) s -> drop_while p s = [].
Proof. induction 1 as [|c s Hc _ IH]; simpl; [done|]. by rewrite Hc. Qed.

Lemma drop_while_length p s : (length (drop_while p s) <= length s)%nat.
Proof. induction s as [|c s IH]; simpl; [done|]. destruct (p c); simpl; lia. Qed.

Lemma eat_app c s : (eat c s).1 ++ (eat c s).2 = s.
Proof. destruct s as [|x s]; simpl; [done|]. by destruct (x =? c). Qed.

Lemma eat_length c s : (length (eat c s).2 <= length s)%nat.
Proof. destruct s as [|x s]; simpl; [done|]. destruct (x =? c); simpl; lia. Qed.

Lemma cut_spec c s :
  match cut c s with
  | Some (a, b) => s = a ++ c :: b /\ c ∉ a
  | None => c ∉ s
  end.
Proof.
  induction s as [|x s IH]; simpl; [set_solver|].
  destruct (Z.eqb_spec x c) as [->|Hx]; [set_solver|].
  destruct (cut c s) as [[a b]|]; [destruct IH as [-> Ha]|]; set_solver.
Qed.

Lemma cut_app c a b : c ∉ a -> cut c (a ++ c :: b) = Some (a, b).
Proof.
  induction a as [|x a IH]; simpl; intros Hc; [by rewrite Z.eqb_refl|].
  destruct (Z.eqb_spec x c) as [->|Hx]; [set_solver|].
  rewrite IH; [done | set_solver].
Qed.

Lemma cut_none c s : c ∉ s -> cut c s = None.
Proof.
  induction s as [|x s IH]; simpl; intros Hc; [done|].
  destruct (Z.eqb_spec x c) as [->|Hx]; [set_solver|].
  rewrite IH; [done | set_solver].
Qed.

Lemma has_spec c s : has c s = true <-> c ∈ s.
Proof.
  unfold has. rewrite existsb_exists. split.
  - intros (x & Hx & ->%Z.eqb_eq). by apply list_elem_of_In.
  - intros Hc. exists c. split; [by apply list_elem_of_In | apply Z.eqb_refl].
Qed.

Lemma has_false c s : has c s = false <-> c ∉ s.
Proof. rewrite <- has_spec. by destruct (has c s). Qed.

(** ** Lemmas on comparison *)

Lemma beq_spec a b : beq a b = true <-> a = b.
Proof.
  revert b; induction a as [|x a IH]; intros [|y b]; simpl; try done.
  rewrite andb_true_iff, Z.eqb_eq, IH. split; [intros [-> ->]; done |by intros [= -> ->]].
Qed.

Lemma beq_refl a : beq a a = true.
Proof. by apply beq_spec. Qed.

Lemma ieq_spec a b : ieq a b = true <-> lower a = lower b.
Proof.
  revert b; induction a as [|x a IH]; intros [|y b]; simpl; try done.
  rewrite andb_true_iff, Z.eqb_eq, IH. split; [intros [-> ->]; done |by intros [= -> ->]].
Qed.

Lemma ieq_refl a : ieq a a = true.
Proof. by apply ieq_spec. Qed.

Lemma ieq_length a b : ieq a b = true -> length a = length b.
Proof. rewrite ieq_spec. unfold lower. intros H%(f_equal length). by rewrite !length_map in H. Qed.

Lemma tolower_idem c : tolower (tolower c) = tolower c.
Proof.
  unfold tolower. destruct (("A"%chr <=? c) && (c <=? "Z"%chr)) eqn:E; [|by rewrite E].
  split_match; lia.
Qed.

Lemma lower_idem s : lower (lower s) = lower s.
Proof. unfold lower. rewrite map_map. apply map_ext, tolower_idem. Qed.

Lemma lower_app a b : lower (a ++ b) = lower a ++ lower b.
Proof. apply map_app. Qed.

Lemma strip_prefix_spec p s r : strip_prefix p s = Some r <-> s = p ++ r.
Proof.
  revert s; induction p as [|x p IH]; intros s; simpl; [naive_solver|].
  destruct s as [|y s]; [naive_solver|].
  destruct (Z.eqb_spec x y) as [->|Hxy]; [rewrite IH|]; naive_solver.
Qed.

Lemma strip_prefix_app p r : strip_prefix p (p ++ r) = Some r.
Proof. by apply strip_prefix_spec. Qed.

(** A property of every byte of a list decided by a boolean function. *)
Lemma forallb_Forall (p : Z -> bool) s :
  forallb p s = true <-> Forall (fun c => p c = true) s.
Proof. rewrite forallb_forall, Forall_forall. setoid_rewrite list_elem_of_In. done. Qed.

Lemma last_split (s : bytes) z : last s = Some z -> s = take (length s - 1) s ++ [z].
Proof.
  destruct s as [|c s _] using rev_ind; [done|]. rewrite last_snoc. intros [= ->].
  rewrite length_app, Nat.add_sub, take_app_length. done.
Qed.

Lemma last_cons_some (c d : Z) s : last (c :: d :: s) = last (d :: s).
Proof. done. Qed.

Lemma trim_id p s :
  (forall c, head s = Some c -> p c = false) ->
  (forall c, last s = Some c -> p c = false) -> trim p s = s.
Proof.
  intros Hh Hl. unfold trim, trim_end.
  assert (drop_while p s = s) as ->.
  { destruct s as [|c s]; [done|]. by apply drop_while_stop, Hh. }
  destruct s as [|c s _] using rev_ind; [done|]. rewrite last_snoc in Hl.
  rewrite reverse_snoc, drop_while_stop by auto. by rewrite reverse_cons, reverse_involutive.
Qed.

(** Trimming removes a prefix and a suffix of trimmed bytes. *)
Lemma trim_split p s : exists a b, s = a ++ trim p s ++ b /\ Forall (fun c => p c = true) a.
Proof.
  exists (take_while p s), (reverse (take_while p (reverse (drop_while p s)))).
  split; [|apply take_while_all]. unfold trim, trim_end.
  rewrite <- reverse_app, take_drop_while, reverse_involutive. symmetry. apply take_drop_while.
Qed.

(** Induction on the length of a byte string. *)
Lemma bytes_len_ind (P : bytes -> Prop) :
  (forall s, (forall t, (length t < length s)%nat -> P t) -> P s) -> forall s, P s.
Proof.
  intros H s. remember (length s) as n eqn:Hn. revert s Hn.
  induction n as [n IH] using lt_wf_ind. intros s ->. apply H.
  intros t Ht. by apply (IH (length t)).
Qed.

(** ** Machine integers *)

Definition INT_MAX : Z := 2147483647.
Definition UINT32_MAX : Z := 4294967295.
Definition UINT64_MAX : Z := 18446744073709551615.
Definition SIZE_MAX : Z := 18446744073709551615.

(** Wrap-around of unsigned 32- and 64-bit arithmetic. *)
Definition u32 (z : Z) : Z := z mod 2 ^ 32.
Definition u64 (z : Z) : Z := z mod 2 ^ 64.

(** The value an out-of-range integer takes when converted to [int]. *)
Definition i32 (z : Z) : Z := (z + 2 ^ 31) mod 2 ^ 32 - 2 ^ 31.

Abbreviation len s := (Z.of_nat (length s)).

Lemma u32_small z : 0 <= z <= UINT32_MAX -> u32 z = z.
Proof. unfold u32, UINT32_MAX. intros. apply Z.mod_small. lia. Qed.

Lemma u32_range z : 0 <= u32 z <= UINT32_MAX.
Proof. unfold u32, UINT32_MAX. pose proof (Z.mod_pos_bound z (2 ^ 32)). lia. Qed.

(** ** Error codes of visage.h *)

Definition VISAGE_OK : Z := 0.
Definition VISAGE_ERR : Z := -1.
Definition VISAGE_ENOMEM : Z := -2.
Definition VISAGE_EPARAM : Z := -3.
Definition VISAGE_ECONF : Z := -4.
Definition VISAGE_ESTORE : Z := -5.

#[export] Hint Resolve take_while_all : visage.
#[export] Hint Rewrite beq_refl ieq_refl Z.eqb_refl : visage.

Lemma c_str_id s : Forall (fun c => 32 <= c) s -> c_str s = s.
Proof.
  induction 1 as [|c s Hc _ IH]; [done|]. unfold c_str in *. cbn [take_while].
  destruct (Z.eqb_spec c 0); [lia|]. cbn [negb]. by rewrite IH.
Qed.

Lemma c_str_no_nul s : 0 ∉ c_str s.
Proof.
  intros Hin. unfold c_str in Hin. pose proof (take_while_all (fun c => negb (c =? 0)) s) as H.
  rewrite Forall_forall in H. apply H in Hin. done.
Qed.

Lemma c_str_clean s : 0 ∉ s -> c_str s = s.
Proof.
  unfold c_str. induction s as [|x s IH]; intros Hs; cbn; [done|]. apply not_elem_of_cons in Hs as [Hx Hs].
  destruct (Z.eqb_spec x 0) as [->|]; [done|]. cbn. by rewrite IH.
Qed.

Lemma trim_end_id p (s : bytes) : (forall c, last s = Some c -> p c = false) -> trim_end p s = s.
Proof.
  intros Hs. unfold trim_end. assert (Hr : s = reverse (reverse s)) by (by rewrite reverse_involutive).
  destruct (reverse s) as [|c t]; [by rewrite Hr|]. rewrite drop_while_stop; [done|]. apply Hs. by rewrite Hr, last_reverse.
Qed.
