(* ===== verification/MailLines.v ===== *)
(** * Line endings and dot-stuffing (src/src/mail.c)

    CRLF normalisation ([crlf_newlen], [crlf_rewrite], [mail_normalize_crlf]),
    dot-stuffing and unstuffing ([mail_stuff_dots], [mail_unstuff_dots]) and the
    control-byte gate ([mail_data_has_ctl]).

    [crlf_rewrite] works in place, from the back of the buffer to its front.
    It is modelled with explicit reads and writes that return [None] outside
    the buffer, so that its correctness theorem also shows that it stays in
    bounds. *)

From S2P Require Import Prelude.

(** ** CRLF normalisation *)

(** Length of the normalised text: an existing CRLF pair counts 2, and so does
    a bare CR or LF. *)
Fixpoint crlf_newlen (buf : bytes) : nat :=
  match buf with
  | [] => 0
  | c :: t =>
      if c =? CR then
        match t with
        | x :: t' => if x =? LF then 2 + crlf_newlen t' else 2 + crlf_newlen t
        | [] => 2
        end
      else if c =? LF then 2 + crlf_newlen t
      else 1 + crlf_newlen t
  end.

(** [buf[i]] and [buf[i] = x]; [None] is an access outside the buffer. *)
Definition rd (buf : bytes) (i : nat) : option Z := buf !! i.
Definition wr (buf : bytes) (i : nat) (x : Z) : option bytes :=
  if (i <? length buf)%nat then Some (<[i := x]> buf) else None.

(** The loop of [crlf_rewrite]: [i] is the read cursor, [w] the write cursor. *)
Fixpoint crlf_rewrite_loop (fuel : nat) (buf : bytes) (i w : nat) : option bytes :=
  match fuel with
  | O => Some buf
  | S fuel' =>
      if (i =? 0)%nat then Some buf
      else
        c ← rd buf (i - 1);
        if c =? LF then
          has_cr ← (if (2 <=? i)%nat then x ← rd buf (i - 2); Some (x =? CR)
                    else Some false);
          buf1 ← wr buf (w - 1) LF;
          buf2 ← wr buf1 (w - 2) CR;
          crlf_rewrite_loop fuel' buf2 (i - (if has_cr : bool then 2 else 1)) (w - 2)
        else if c =? CR then
          buf1 ← wr buf (w - 1) LF;
          buf2 ← wr buf1 (w - 2) CR;
          crlf_rewrite_loop fuel' buf2 (i - 1) (w - 2)
        else
          buf1 ← wr buf (w - 1) c;
          crlf_rewrite_loop fuel' buf1 (i - 1) (w - 1)
  end.

(** Every iteration lowers [i], so [len] iterations are enough. *)
Definition crlf_rewrite (buf : bytes) (ilen newlen : nat) : option bytes :=
  crlf_rewrite_loop ilen buf ilen newlen.

(** [mail_normalize_crlf(buf, len)]: the return value and the buffer after the
    call. [buf] is the whole allocation, of which the first [ilen] bytes hold
    the text. *)
Definition mail_normalize_crlf (buf : bytes) (ilen : nat) : option (Z * bytes) :=
  let newlen := crlf_newlen (take ilen buf) in
  if Z.of_nat newlen >? INT_MAX then Some (-1, buf)
  else buf' ← crlf_rewrite buf ilen newlen; Some (Z.of_nat newlen, buf').

(** ** Dot-stuffing *)

(** The loop of [mail_unstuff_dots]; its write cursor never passes its read
    cursor, so the loop is a function of the bytes still to be read. *)
Fixpoint unstuff_loop (at_line_start : bool) (s : bytes) : bytes :=
  match s with
  | [] => []
  | c :: t =>
      if at_line_start && (c =? "."%chr) then unstuff_loop false t
      else c :: unstuff_loop ((c =? LF) || (c =? CR)) t
  end.

Definition mail_unstuff_dots (buf : bytes) : bytes := unstuff_loop true buf.

(** First pass of [mail_stuff_dots]: the number of dots to insert. *)
Fixpoint stuff_extra (at_line_start : bool) (s : bytes) : nat :=
  match s with
  | [] => 0
  | c :: t =>
      (if at_line_start && (c =? "."%chr) then 1 else 0)
      + stuff_extra ((c =? LF) || (c =? CR)) t
  end.

(** Second pass: the bytes written to the output buffer. *)
Fixpoint stuff_loop (at_line_start : bool) (s : bytes) : bytes :=
  match s with
  | [] => []
  | c :: t =>
      (if at_line_start && (c =? "."%chr) then ["."%chr] else [])
      ++ c :: stuff_loop ((c =? LF) || (c =? CR)) t
  end.

Definition mail_stuff_dots (inp : bytes) : bytes := stuff_loop true inp.

(** ** Control-byte gate *)

Definition is_ctl (c : Z) : bool :=
  (c =? 0) || (c =? 127) ||
  ((c <? 32) && negb (c =? TAB) && negb (c =? LF) && negb (c =? CR)).

Definition mail_data_has_ctl (buf : bytes) : bool := existsb is_ctl buf.

(** ** Reference definitions *)

(** The normalised text, read left to right. *)
Fixpoint crlf_norm (s : bytes) : bytes :=
  match s with
  | [] => []
  | c :: t =>
      if c =? CR then
        match t with
        | x :: t' => if x =? LF then CR :: LF :: crlf_norm t' else CR :: LF :: crlf_norm t
        | [] => CRLF
        end
      else if c =? LF then CR :: LF :: crlf_norm t
      else c :: crlf_norm t
  end.

(** Every line ending of [s] is a CRLF pair. *)
Fixpoint crlf_ok (s : bytes) : bool :=
  match s with
  | [] => true
  | c :: t =>
      if c =? CR then match t with x :: t' => (x =? LF) && crlf_ok t' | [] => false end
      else if c =? LF then false
      else crlf_ok t
  end.

(** ** Lemmas *)

Lemma crlf_newlen_spec s : crlf_newlen s = length (crlf_norm s).
Proof.
  induction s as [[|c [|x t]] IH] using bytes_len_ind; [done| |].
  - simpl. destruct (c =? CR); [done|]. by destruct (c =? LF).
  - pose proof (IH t ltac:(simpl; lia)). pose proof (IH (x :: t) ltac:(simpl; lia)).
    cbn [crlf_newlen crlf_norm] in *. repeat split_match; simpl in *; lia.
Qed.

Lemma crlf_norm_length s : (length s <= length (crlf_norm s) <= 2 * length s)%nat.
Proof.
  induction s as [[|c [|x t]] IH] using bytes_len_ind; [done| |].
  - simpl. destruct (c =? CR); [simpl; lia|]. destruct (c =? LF); simpl; lia.
  - pose proof (IH t ltac:(simpl; lia)). pose proof (IH (x :: t) ltac:(simpl; lia)).
    cbn [crlf_norm] in *. repeat split_match; simpl in *; lia.
Qed.

(** Normalisation distributes over a split that does not separate a CRLF. *)
Lemma crlf_norm_app s t :
  last s <> Some CR \/ head t <> Some LF ->
  crlf_norm (s ++ t) = crlf_norm s ++ crlf_norm t.
Proof.
  induction s as [[|c [|x s]] IH] using bytes_len_ind; intros Hsplit; [done| |].
  - destruct (Z.eqb_spec c CR) as [->|Hc].
    + simpl. destruct t as [|y t]; [done|].
      destruct (Z.eqb_spec y LF) as [->|Hy]; [|done]. by destruct Hsplit.
    + simpl. apply Z.eqb_neq in Hc. rewrite Hc. by destruct (c =? LF).
  - pose proof (IH s ltac:(simpl; lia)) as IH1.
    pose proof (IH (x :: s) ltac:(simpl; lia) Hsplit) as IH2.
    cbn [app crlf_norm] in *. destruct (c =? CR).
    + destruct (Z.eqb_spec x LF) as [->|Hx].
      * rewrite IH1; [done|]. destruct s; [|done].
        left; simpl; congruence.
      * by rewrite IH2.
    + by destruct (c =? LF); rewrite IH2.
Qed.

Lemma crlf_norm_ok s : crlf_ok (crlf_norm s) = true.
Proof.
  induction s as [[|c [|x t]] IH] using bytes_len_ind; [done| |].
  - simpl. destruct (c =? CR) eqn:E1; [done|]. destruct (c =? LF) eqn:E2; [done|].
    simpl. by rewrite E1, E2.
  - pose proof (IH t ltac:(simpl; lia)). pose proof (IH (x :: t) ltac:(simpl; lia)).
    cbn [crlf_norm] in *.
    destruct (c =? CR) eqn:E1; [by destruct (x =? LF)|].
    destruct (c =? LF) eqn:E2; [done|]. cbn [crlf_ok]. by rewrite E1, E2.
Qed.

Lemma crlf_ok_fixed s : crlf_ok s = true -> crlf_norm s = s.
Proof.
  induction s as [[|c [|x t]] IH] using bytes_len_ind; intros Hok; [done| |].
  - simpl in *. destruct (c =? CR); [done|]. by destruct (c =? LF).
  - pose proof (IH t ltac:(simpl; lia)) as IH1. pose proof (IH (x :: t) ltac:(simpl; lia)) as IH2.
    cbn [crlf_ok crlf_norm] in *. destruct (Z.eqb_spec c CR) as [->|Hc].
    + apply andb_true_iff in Hok as [Hx Hok]. rewrite Hx. apply Z.eqb_eq in Hx as ->.
      by rewrite IH1.
    + destruct (c =? LF); [done|]. by rewrite IH2.
Qed.

(** In a normalised text a CR is followed by LF, and the text after a line
    ending is normalised. *)
Lemma crlf_ok_cr a r : crlf_ok (a ++ CR :: r) = true -> head r = Some LF.
Proof.
  induction a as [[|c [|x a]] IH] using bytes_len_ind; cbn [app crlf_ok].
  - destruct r as [|y r]; [done|]. simpl. intros [->%Z.eqb_eq _]%andb_true_iff. done.
  - destruct (c =? CR); [done|]. destruct (c =? LF); [done|].
    apply (IH []). simpl. lia.
  - destruct (c =? CR).
    + intros [_ H]%andb_true_iff. apply (IH a); [simpl; lia | done].
    + destruct (c =? LF); [done|]. apply (IH (x :: a)). simpl. lia.
Qed.

Lemma crlf_ok_lf a r : crlf_ok (a ++ LF :: r) = true -> crlf_ok r = true.
Proof.
  induction a as [[|c [|x a]] IH] using bytes_len_ind; cbn [app crlf_ok].
  - done.
  - destruct (c =? CR); [by intros [_ H]%andb_true_iff|]. destruct (c =? LF); [done|].
    apply (IH []). simpl. lia.
  - destruct (c =? CR).
    + intros [_ H]%andb_true_iff. apply (IH a); [simpl; lia | done].
    + destruct (c =? LF); [done|]. apply (IH (x :: a)). simpl. lia.
Qed.

(** Writing just below the gap's upper end shrinks the gap by one byte. *)
Lemma wr_gap pre gap fin v n :
  gap <> [] -> n = (length pre + length gap - 1)%nat ->
  wr (pre ++ gap ++ fin) n v = Some (pre ++ take (length gap - 1) gap ++ v :: fin).
Proof.
  intros Hgap ->. destruct gap as [|z gap _] using rev_ind; [done|].
  unfold wr. rewrite !length_app. cbn [length].
  rewrite (proj2 (Nat.ltb_lt _ _)) by lia.
  replace (length pre + (length gap + 1) - 1)%nat with (length pre + length gap)%nat by lia.
  replace (length gap + 1 - 1)%nat with (length gap) by lia.
  rewrite take_app_length, insert_app_r, <- app_assoc.
  replace (length gap) with (length gap + 0)%nat at 1 by lia.
  by rewrite insert_app_r.
Qed.

Lemma wr_gap_crlf pre gap fin w :
  (2 <= length gap)%nat -> w = (length pre + length gap)%nat ->
  (buf1 ← wr (pre ++ gap ++ fin) (w - 1) LF; wr buf1 (w - 2) CR)
  = Some (pre ++ take (length gap - 2) gap ++ CR :: LF :: fin).
Proof.
  intros Hgap ->. rewrite wr_gap by (destruct gap; simpl in *; first [done | lia]). simpl.
  rewrite wr_gap; rewrite ?length_take; try lia.
  - rewrite take_take. do 4 f_equal. lia.
  - intros H%(f_equal length). rewrite length_take in H. simpl in H. lia.
Qed.

Lemma rd_mid pre c r n : n = length pre -> rd (pre ++ c :: r) n = Some c.
Proof. intros ->. by apply list_lookup_middle. Qed.

Lemma crlf_norm_snoc_pair pre : crlf_norm (pre ++ CRLF) = crlf_norm pre ++ CRLF.
Proof. apply crlf_norm_app. by right. Qed.

Lemma crlf_norm_snoc_lf pre :
  last pre <> Some CR -> crlf_norm (pre ++ [LF]) = crlf_norm pre ++ CRLF.
Proof. intros H. rewrite crlf_norm_app; auto. Qed.

Lemma crlf_norm_snoc_cr pre : crlf_norm (pre ++ [CR]) = crlf_norm pre ++ CRLF.
Proof. apply crlf_norm_app. by right. Qed.

Lemma crlf_norm_snoc pre c :
  is_eol c = false -> crlf_norm (pre ++ [c]) = crlf_norm pre ++ [c].
Proof.
  intros Hc. rewrite crlf_norm_app by (right; simpl; intros [= ->]; done).
  simpl. unfold is_eol in Hc. by destruct (c =? CR), (c =? LF).
Qed.

(** The lookbehind of the LF branch. *)
Lemma crlf_lookbehind pre r i :
  i = (length pre + 1)%nat ->
  (if (2 <=? i)%nat then x ← rd (pre ++ r) (i - 2); Some (x =? CR) else Some false)
  = Some (bool_decide (last pre = Some CR)).
Proof.
  intros ->. destruct pre as [|x pre _] using rev_ind; [done|].
  rewrite length_app. cbn [length]. rewrite (proj2 (Nat.leb_le _ _)) by lia.
  rewrite <- app_assoc. cbn [app]. rewrite rd_mid by lia. simpl. rewrite last_snoc.
  f_equal. destruct (Z.eqb_spec x CR), (bool_decide_reflect (Some x = Some CR)); congruence.
Qed.

(** The statement of the loop's invariant: [pre] is unread, [mid] is the gap
    between the two cursors, [fin] is written. *)
Definition rewrite_inv (n : nat) : Prop := forall pre mid fin,
  (length pre <= n)%nat ->
  length (crlf_norm pre) = (length pre + length mid)%nat ->
  crlf_rewrite_loop n (pre ++ mid ++ fin) (length pre) (length pre + length mid)
  = Some (crlf_norm pre ++ fin).

(** Writing a CRLF at the top of a gap and going on keeps the invariant. *)
Lemma rewrite_inv_crlf n pre gap fin i w :
  rewrite_inv n -> (length pre <= n)%nat -> i = length pre ->
  w = (length pre + length gap)%nat ->
  (length (crlf_norm pre) + 2 = length pre + length gap)%nat ->
  (buf1 ← wr (pre ++ gap ++ fin) (w - 1) LF;
   buf2 ← wr buf1 (w - 2) CR;
   crlf_rewrite_loop n buf2 i (w - 2)) = Some (crlf_norm pre ++ CR :: LF :: fin).
Proof.
  intros IH Hn -> -> Hlen. pose proof (crlf_norm_length pre) as Hpre.
  assert (Hgap : (2 <= length gap)%nat) by lia.
  pose proof (wr_gap_crlf pre gap fin _ Hgap eq_refl) as Hwr.
  destruct (wr _ _ LF) as [b1|]; [|discriminate].
  cbn [mbind option_bind] in *. rewrite Hwr. cbn [mbind option_bind].
  rewrite <- IH with (mid := take (length gap - 2) gap);
    rewrite ?length_take; try lia.
  f_equal; lia.
Qed.

Lemma crlf_rewrite_loop_inv n : rewrite_inv n.
Proof.
  induction n as [|n IH]; intros pre mid fin Hn Hlen.
  { destruct pre; [|simpl in Hn; lia]. destruct mid; [done | discriminate]. }
  destruct pre as [|c pre _] using rev_ind.
  { destruct mid; [done|discriminate]. }
  cbn [crlf_rewrite_loop]. rewrite length_app in *. cbn [length] in *.
  rewrite (proj2 (Nat.eqb_neq _ _)) by lia. rewrite <- app_assoc. cbn [app].
  rewrite (rd_mid pre c (mid ++ fin) (length pre + 1 - 1)) by lia.
  cbn [mbind option_bind]. pose proof (crlf_norm_length pre) as Hpre.
  change (pre ++ c :: mid ++ fin) with (pre ++ (c :: mid) ++ fin).
  destruct (Z.eqb_spec c LF) as [->|HnLF]; [|destruct (Z.eqb_spec c CR) as [->|HnCR]].
  - rewrite crlf_lookbehind by done. cbn [mbind option_bind].
    case_bool_decide as Hcr.
    + destruct pre as [|x pre _] using rev_ind; [done|].
      rewrite last_snoc in Hcr. injection Hcr as ->. rewrite <- !app_assoc in *. cbn [app] in *.
      rewrite crlf_norm_snoc_pair, !length_app in *. cbn [length] in *.
      refine (eq_trans (rewrite_inv_crlf n pre (CR :: LF :: mid) fin _ _ IH _ _ _ _) _);
        rewrite <- ?app_assoc; cbn [length]; try done; lia.
    + rewrite crlf_norm_snoc_lf, length_app in * by done. cbn [length] in *.
      refine (eq_trans (rewrite_inv_crlf n pre (LF :: mid) fin _ _ IH _ _ _ _) _);
        rewrite <- ?app_assoc; cbn [length]; try done; lia.
  - rewrite crlf_norm_snoc_cr, length_app in *. cbn [length] in *.
    refine (eq_trans (rewrite_inv_crlf n pre (CR :: mid) fin _ _ IH _ _ _ _) _);
        rewrite <- ?app_assoc; cbn [length]; try done; lia.
  - rewrite crlf_norm_snoc, length_app in * by chars. cbn [length] in *.
    rewrite wr_gap by (cbn [length]; first [done | lia]). cbn [mbind option_bind].
    rewrite <- app_assoc. cbn [app].
    rewrite <- IH with (mid := take (length (c :: mid) - 1) (c :: mid));
      rewrite ?length_take; cbn [length]; try lia.
    f_equal; lia.
Qed.

Lemma crlf_rewrite_spec inp pad :
  (length (crlf_norm inp) <= length inp + length pad)%nat ->
  crlf_rewrite (inp ++ pad) (length inp) (crlf_newlen inp)
  = Some (crlf_norm inp ++ drop (length (crlf_norm inp) - length inp) pad).
Proof.
  intros Hcap. unfold crlf_rewrite. rewrite crlf_newlen_spec.
  pose proof (crlf_norm_length inp) as Hl.
  set (k := (length (crlf_norm inp) - length inp)%nat).
  rewrite <- (take_drop k pad) at 1.
  replace (length (crlf_norm inp)) with (length inp + length (take k pad))%nat at 1
    by (rewrite length_take; lia).
  apply crlf_rewrite_loop_inv; [done|]. rewrite length_take. lia.
Qed.

(** Where the line-start flag of the dot loops stands after reading [s]. *)
Fixpoint als_after (als : bool) (s : bytes) : bool :=
  match s with
  | [] => als
  | c :: t => als_after ((c =? LF) || (c =? CR)) t
  end.

Lemma unstuff_stuff_app als s r :
  unstuff_loop als (stuff_loop als s ++ r) = s ++ unstuff_loop (als_after als s) r.
Proof.
  revert als. induction s as [|c s IH]; intros als; [done|]. cbn [stuff_loop als_after].
  destruct (als && (c =? "."%chr)) eqn:E.
  - apply andb_true_iff in E as [-> ->%Z.eqb_eq]. cbn [app unstuff_loop].
    by rewrite <- IH.
  - cbn [app unstuff_loop]. rewrite E. by rewrite IH.
Qed.

Lemma stuff_loop_length als s :
  length (stuff_loop als s) = (length s + stuff_extra als s)%nat.
Proof.
  revert als. induction s as [|c s IH]; intros als; [done|]. cbn [stuff_loop stuff_extra].
  rewrite length_app. cbn [length]. rewrite IH. destruct (als && _); simpl; lia.
Qed.

(** ** Properties *)

(** On an allocation of at least twice the text's length, as its contract
    asks, [mail_normalize_crlf] never reads or writes outside the buffer.  It
    leaves in the first bytes exactly the left-to-right normalisation of the
    text, in which every line ending is a CRLF pair and which a second call does
    not change, and returns its length; when that length does not fit an [int]
    it returns -1 and leaves the buffer as it was. *)
Theorem mail_normalize_crlf_correct (inp pad : bytes)
  (Hcap : (length inp <= length pad)%nat) :
  mail_normalize_crlf (inp ++ pad) (length inp)
  = Some (if len (crlf_norm inp) >? INT_MAX then (-1, inp ++ pad)
          else (len (crlf_norm inp),
                crlf_norm inp ++ drop (length (crlf_norm inp) - length inp) pad)) /\
  crlf_ok (crlf_norm inp) = true /\ crlf_norm (crlf_norm inp) = crlf_norm inp.
Proof.
  pose proof (crlf_norm_length inp) as Hl.
  split; [|split; [apply crlf_norm_ok | apply crlf_ok_fixed, crlf_norm_ok]].
  unfold mail_normalize_crlf. rewrite take_app_length, crlf_newlen_spec.
  destruct (len (crlf_norm inp) >? INT_MAX); [done|].
  by rewrite <- crlf_newlen_spec, crlf_rewrite_spec, crlf_newlen_spec by lia.
Qed.

Lemma mail_normalize_crlf_correct_witness :
  mail_normalize_crlf ((bs "ab" ++ [LF] ++ bs "cd" ++ [CR]) ++ repeat 0 6) 6
  = Some (8, bs "ab" ++ CRLF ++ bs "cd" ++ CRLF ++ repeat 0 4).
Proof.
  apply (mail_normalize_crlf_correct (bs "ab" ++ [LF] ++ bs "cd" ++ [CR]) (repeat 0 6)).
  simpl; lia.
Defined.

(** Dot-stuffing followed by unstuffing is the identity on every message,
    whatever its line endings, and the stuffed text fills exactly the
    [inlen + extra] bytes that [mail_stuff_dots] allocates for it. *)
Theorem stuff_unstuff_roundtrip (msg : bytes) :
  mail_unstuff_dots (mail_stuff_dots msg) = msg /\
  length (mail_stuff_dots msg) = (length msg + stuff_extra true msg)%nat.
Proof.
  unfold mail_unstuff_dots, mail_stuff_dots. split; [|apply stuff_loop_length].
  rewrite <- (app_nil_r (stuff_loop true msg)), unstuff_stuff_app. apply app_nil_r.
Qed.
