(* ===== verification/MailAddr.v ===== *)
(** * Address parsing (src/src/mail.c)

    [mail_addr_parse] and its helpers.  A NUL-terminated string is the list of
    its bytes before the NUL; a range [start, end) is the list of its bytes. *)

From S2P Require Import Prelude.

(** ** Character classes *)

Definition is_alpha (c : Z) : bool :=
  ("a"%chr <=? c) && (c <=? "z"%chr) || ("A"%chr <=? c) && (c <=? "Z"%chr).
Definition is_digit (c : Z) : bool := ("0"%chr <=? c) && (c <=? "9"%chr).

Definition is_atext (c : Z) : bool :=
  is_alpha c || is_digit c ||
  existsb (Z.eqb c) (bs "!#$%&'*+-/=?^_`{|}~").

Definition is_printable (c : Z) : bool := (32 <=? c) && (c <=? 126).

(** ** Dot-atoms and domains *)

(** The loop of [dot_atom_ok]. *)
Fixpoint dot_atom_loop (prev_dot : bool) (s : bytes) : bool :=
  match s with
  | [] => true
  | c :: t =>
      if c =? "."%chr then if prev_dot then false else dot_atom_loop true t
      else if negb (is_atext c) then false
      else dot_atom_loop false t
  end.

Definition dot_atom_ok (s : bytes) : bool :=
  match s, last s with
  | c :: _, Some z =>
      if (c =? "."%chr) || (z =? "."%chr) then false else dot_atom_loop false s
  | _, _ => false
  end.

(** The bytes between the brackets of a domain literal. *)
Definition literal_byte (c : Z) : bool :=
  negb ((c <? 33) || (c >? 126)) &&
  negb ((c =? "["%chr) || (c =? "]"%chr) || (c =? "@"%chr)).

Definition domain_ok (s : bytes) : bool :=
  match s with
  | [] => false
  | c :: t =>
      if c =? "["%chr then
        if (length s <? 3)%nat then false
        else match last s with
             | Some z => if negb (z =? "]"%chr) then false
                         else forallb literal_byte (take (length t - 1) t)
             | None => false
             end
      else if has "@"%chr s then false
      else dot_atom_ok s
  end.

(** ** Quoted local parts *)

(** The loop of [quoted_local_ok], from the byte after the opening quote: the
    bytes up to the closing quote and those after it. *)
Fixpoint quoted_scan (saw_content : bool) (s : bytes) : option (bytes * bytes) :=
  match s with
  | [] => None
  | c :: t =>
      if c =? BACKSLASH then
        match t with
        | [] => None
        | d :: t' =>
            if negb (is_printable d) then None
            else '(q, r) ← quoted_scan true t'; Some (c :: d :: q, r)
        end
      else if c =? DQUOTE then if saw_content then Some ([], t) else None
      else if negb (is_printable c) then None
      else '(q, r) ← quoted_scan true t; Some (c :: q, r)
  end.

(** [quoted_local_ok(start, end, &at)]: the local part (quotes included) and
    the bytes after the ['@'] that must follow its closing quote. *)
Definition quoted_local_ok (s : bytes) : option (bytes * bytes) :=
  match s with
  | [] => None
  | open :: t =>
      '(q, r) ← quoted_scan false t;
      match r with
      | a :: rest => if a =? "@"%chr then Some (open :: q ++ [DQUOTE], rest) else None
      | [] => None
      end
  end.

(** ** Parsing *)

(** The loop that rejects ['<'] and ['>'] outside a quoted string. *)
Fixpoint angle_free (inq : bool) (s : bytes) : bool :=
  match s with
  | [] => true
  | c :: t =>
      if inq then
        if c =? DQUOTE then angle_free false t
        else if c =? BACKSLASH then
          match t with _ :: t' => angle_free true t' | [] => true end
        else angle_free true t
      else if c =? DQUOTE then angle_free true t
      else if (c =? "<"%chr) || (c =? ">"%chr) then false
      else angle_free false t
  end.

(** The address inside the optional outer angle brackets. *)
Definition strip_angles (s : bytes) : option bytes :=
  match s with
  | [] => None
  | c :: t =>
      if c =? "<"%chr then
        match last s with
        | Some z =>
            if negb (z =? ">"%chr) then None
            else let inner := take (length t - 1) t in
                 match inner with [] => None | _ => Some inner end
        | None => None
        end
      else Some s
  end.

(** The split of the bare address into local part and domain. *)
Definition split_local (s : bytes) : option (bytes * bytes) :=
  match s with
  | [] => None
  | c :: _ =>
      if c =? DQUOTE then quoted_local_ok s
      else
        '(l, d) ← cut "@"%chr s;
        if has "@"%chr d then None
        else if negb (dot_atom_ok l) then None
        else Some (l, d)
  end.

(** [mail_addr_parse]: [Some (local, domain)] when it returns 0. *)
Definition mail_addr_parse (s : bytes) : option (bytes * bytes) :=
  let t := trim is_wsp s in
  inner ← strip_angles t;
  if negb (angle_free false inner) then None
  else
    '(l, d) ← split_local inner;
    if negb (domain_ok d) then None else Some (l, d).

Example addr_plain : mail_addr_parse (bs " <a.b@example.org> ") = Some (bs "a.b", bs "example.org").
Proof. reflexivity. Qed.
Example addr_literal : mail_addr_parse (bs "x@[127.0.0.1]") = Some (bs "x", bs "[127.0.0.1]").
Proof. reflexivity. Qed.
Example addr_quoted :
  mail_addr_parse ([DQUOTE] ++ bs "a b<" ++ [DQUOTE] ++ bs "@d")
  = Some ([DQUOTE] ++ bs "a b<" ++ [DQUOTE], bs "d").
Proof. reflexivity. Qed.
Example addr_bad : map mail_addr_parse [bs "a@@b"; bs "a@b."; bs "<a@b"; bs "@b"; bs "a@"; bs "a..b@c"]
  = [None; None; None; None; None; None].
Proof. reflexivity. Qed.

(** ** Lemmas *)

Lemma atext_graph c : is_atext c = true -> 33 <= c <= 126.
Proof.
  unfold is_atext, is_alpha, is_digit. simpl.
  repeat setoid_rewrite orb_true_iff. rewrite !Z.eqb_eq. lia.
Qed.

(** Bytes a dot-atom or a domain literal can hold. *)
Definition graph (c : Z) : Prop := 33 <= c <= 126 /\ c <> "@"%chr /\ c <> "<"%chr /\ c <> ">"%chr.

Lemma atext_special c :
  is_atext c = true ->
  c <> "@"%chr /\ c <> "<"%chr /\ c <> ">"%chr /\ c <> DQUOTE.
Proof. intros H. repeat split; intros ->; done. Qed.

Lemma dot_atom_graph b s : dot_atom_loop b s = true -> Forall graph s.
Proof.
  revert b. induction s as [|c s IH]; intros b; cbn [dot_atom_loop]; [constructor|].
  destruct (Z.eqb_spec c "."%chr) as [->|Hc].
  - destruct b; [done|]. intros H%IH. constructor; [|done]. unfold graph. lia.
  - destruct (is_atext c) eqn:Ha; [|done]. cbn [negb]. intros H%IH. constructor; [|done].
    pose proof (atext_graph c Ha). pose proof (atext_special c Ha). unfold graph. lia.
Qed.

Lemma dot_atom_ok_inv s :
  dot_atom_ok s = true ->
  Forall graph s /\ (exists c t, s = c :: t /\ is_atext c = true) /\
  (exists z, last s = Some z /\ graph z).
Proof.
  unfold dot_atom_ok. destruct s as [|c t]; [done|].
  destruct (last (c :: t)) as [z|] eqn:Hz; [|done].
  destruct (Z.eqb_spec c "."%chr) as [|Hc]; [done|].
  destruct (z =? "."%chr); [done|]. cbn [orb]. intros Hl.
  pose proof (dot_atom_graph _ _ Hl) as Hg. split; [done|]. split.
  - exists c, t. split; [done|]. cbn [dot_atom_loop] in Hl. apply Z.eqb_neq in Hc. rewrite Hc in Hl.
    by destruct (is_atext c).
  - exists z. split; [done|]. rewrite Forall_forall in Hg. apply Hg. by apply last_Some_elem_of.
Qed.

Lemma domain_ok_inv d :
  domain_ok d = true ->
  Forall (fun c => 33 <= c <= 126) d /\ ("@"%chr ∉ d) /\
  (exists z, last d = Some z /\ is_wsp z = false).
Proof.
  unfold domain_ok. destruct d as [|c t]; [done|].
  destruct (Z.eqb_spec c "["%chr) as [->|Hc].
  - destruct (Nat.ltb_spec (length ("["%chr :: t)) 3) as [|Hlen]; [done|].
    destruct (last ("["%chr :: t)) as [z|] eqn:Hz; [|done].
    destruct (Z.eqb_spec z "]"%chr) as [->|]; [|done]. cbn [negb].
    rewrite forallb_Forall. intros Hl.
    destruct t as [|x t]; [simpl in Hlen; lia|].
    rewrite last_cons_some in Hz. apply last_split in Hz as Ht.
    assert (Hall : Forall (fun c => 33 <= c <= 126 /\ c <> "@"%chr) ("["%chr :: x :: t)).
    { constructor; [lia|]. rewrite Ht. apply Forall_app. split; [|repeat constructor; lia].
      eapply Forall_impl; [exact Hl|]. unfold literal_byte. intros ?. lia. }
    split; [by eapply Forall_impl; [exact Hall | intros ? []]|]. split.
    + intros Hin. rewrite Forall_forall in Hall. by apply Hall in Hin as [_ []].
    + by exists "]"%chr.
  - destruct (has "@"%chr (c :: t)) eqn:Hat; [done|]. apply has_false in Hat.
    intros (Hg & _ & z & Hz & Hzg)%dot_atom_ok_inv. split; [|split; [done|]].
    + eapply Forall_impl; [exact Hg|]. by intros ? [].
    + exists z. split; [done|]. destruct Hzg. chars.
Qed.

Lemma quoted_scan_inv saw s q r :
  quoted_scan saw s = Some (q, r) ->
  s = q ++ DQUOTE :: r /\ Forall (fun c => is_printable c = true) q /\ (saw = false -> q <> []).
Proof.
  revert saw q. induction s as [s IH] using bytes_len_ind. intros saw q.
  destruct s as [|c t]; [done|]. cbn [quoted_scan].
  destruct (Z.eqb_spec c BACKSLASH) as [->|Hc].
  - destruct t as [|d t]; [done|]. destruct (is_printable d) eqn:Hd; [|done]. cbn [negb].
    destruct (quoted_scan true t) as [[q' r']|] eqn:E; [|done]. intros [= <- <-].
    apply IH in E as (-> & Hq & _); [|simpl; lia]. by repeat constructor.
  - destruct (Z.eqb_spec c DQUOTE) as [->|Hq]; [destruct saw; [|done]|].
    + intros [= <- <-]. by repeat constructor.
    + destruct (is_printable c) eqn:Hp; [|done]. cbn [negb].
      destruct (quoted_scan true t) as [[q' r']|] eqn:E; [|done]. intros [= <- <-].
      apply IH in E as (-> & Hq' & _); [|simpl; lia]. by repeat constructor.
Qed.

(** The local part of a bare address: a dot-atom, or a non-empty quoted string
    of printable bytes. *)
Definition local_ok (l : bytes) : Prop :=
  dot_atom_ok l = true \/
  (exists q, l = DQUOTE :: q ++ [DQUOTE] /\ q <> [] /\ Forall (fun c => is_printable c = true) q).

Lemma split_local_inv s l d :
  split_local s = Some (l, d) -> s = l ++ "@"%chr :: d /\ local_ok l.
Proof.
  unfold split_local. destruct s as [|c t]; [done|].
  destruct (Z.eqb_spec c DQUOTE) as [->|Hc].
  - unfold quoted_local_ok. destruct (quoted_scan false t) as [[q r]|] eqn:E; [|done].
    apply quoted_scan_inv in E as (-> & Hq & Hne). cbn [mbind option_bind].
    destruct r as [|a rest]; [done|]. destruct (Z.eqb_spec a "@"%chr) as [->|]; [|done].
    intros [= <- <-]. split; [cbn [app]; by rewrite <- app_assoc|]. right. exists q. auto.
  - pose proof (cut_spec "@"%chr (c :: t)) as Hcut.
    destruct (cut "@"%chr (c :: t)) as [[l' d']|]; [|done]. cbn [mbind option_bind].
    destruct (has "@"%chr d'); [done|]. destruct (dot_atom_ok l') eqn:Hl; [|done].
    intros [= <- <-]. split; [apply Hcut | by left].
Qed.

Lemma local_ok_inv l :
  local_ok l ->
  Forall (fun c => is_printable c = true) l /\
  (exists c t, l = c :: t /\ is_wsp c = false /\ c <> "<"%chr).
Proof.
  intros [Hl|(q & -> & _ & Hq)].
  - apply dot_atom_ok_inv in Hl as (Hg & (c & t & -> & Hc) & _). split.
    + eapply Forall_impl; [exact Hg|]. unfold graph, is_printable. intros ?. lia.
    + exists c, t. pose proof (atext_graph c Hc). pose proof (atext_special c Hc).
      repeat split; try chars; lia.
  - split; [constructor; [done|]; apply Forall_app; by repeat constructor|].
    exists DQUOTE, (q ++ [DQUOTE]). done.
Qed.

Lemma strip_angles_bracket inner :
  inner <> [] -> strip_angles ("<"%chr :: inner ++ [">"%chr]) = Some inner.
Proof.
  intros Hne. unfold strip_angles. rewrite app_comm_cons, last_snoc. simpl Z.eqb. cbn [negb].
  rewrite length_app, Nat.add_sub, take_app_length. by destruct inner.
Qed.

(** A bare address is its own trimmed form, has no outer brackets, and its
    bracketed form is trimmed too. *)
Lemma bare_addr_strip l d :
  local_ok l -> domain_ok d = true ->
  strip_angles (trim is_wsp (l ++ "@"%chr :: d)) = Some (l ++ "@"%chr :: d) /\
  strip_angles (trim is_wsp ("<"%chr :: (l ++ "@"%chr :: d) ++ [">"%chr]))
  = Some (l ++ "@"%chr :: d).
Proof.
  intros (_ & c & t & -> & Hw & Hc)%local_ok_inv (_ & _ & z & Hz & Hzw)%domain_ok_inv.
  split.
  - rewrite trim_id.
    + simpl. apply Z.eqb_neq in Hc. by rewrite Hc.
    + by intros ? [= <-].
    + intros z'. rewrite last_app. cbn [last]. destruct d; [done|]. cbn [last] in *.
      rewrite Hz. by intros [= <-].
  - rewrite trim_id.
    + by apply strip_angles_bracket.
    + by intros ? [= <-].
    + intros z'. rewrite app_comm_cons, last_snoc. by intros [= <-].
Qed.

Lemma mail_addr_parse_inv s l d :
  mail_addr_parse s = Some (l, d) ->
  strip_angles (trim is_wsp s) = Some (l ++ "@"%chr :: d) /\
  angle_free false (l ++ "@"%chr :: d) = true /\
  split_local (l ++ "@"%chr :: d) = Some (l, d) /\ local_ok l /\ domain_ok d = true.
Proof.
  unfold mail_addr_parse. destruct (strip_angles (trim is_wsp s)) as [inner|]; [|done].
  cbn [mbind option_bind]. destruct (angle_free false inner) eqn:Ha; [|done]. cbn [negb].
  destruct (split_local inner) as [[l' d']|] eqn:Hs; [|done]. cbn [mbind option_bind].
  destruct (domain_ok d') eqn:Hd; [|done]. intros [= <- <-].
  apply split_local_inv in Hs as Hi. destruct Hi as [-> Hl]. auto.
Qed.

(** ** Properties *)

(** An accepted address is injection-free.  Whatever the input bytes, the
    local part and the domain [mail_addr_parse] returns are not empty and hold
    only printable ASCII (so no CR, LF, NUL or other control byte and no 8-bit
    byte), the domain holds no blank and no ['@'], and a local part that is not
    a quoted string is a dot-atom, which holds neither ['@'] nor an angle
    bracket. *)
Theorem mail_addr_parse_safe (s l d : bytes) (H : mail_addr_parse s = Some (l, d)) :
  l <> [] /\ d <> [] /\
  Forall (fun c => is_printable c = true) l /\
  Forall (fun c => 33 <= c <= 126) d /\ ("@"%chr ∉ d) /\
  (head l = Some DQUOTE \/ Forall graph l).
Proof.
  apply mail_addr_parse_inv in H as (_ & _ & _ & Hl & Hd).
  apply local_ok_inv in Hl as Hinv. destruct Hinv as (Hp & c & t & -> & _).
  apply domain_ok_inv in Hd as (Hg & Hat & z & Hz & _).
  repeat split; try done; [by destruct d|].
  destruct Hl as [(Hgl & _)%dot_atom_ok_inv|(q & Hq & _)]; [by right|].
  left. by injection Hq as ->.
Qed.

Lemma mail_addr_parse_safe_witness :
  "@"%chr ∉ bs "example.org" /\ mail_addr_parse (bs "<a@example.org>") = Some (bs "a", bs "example.org").
Proof.
  split; [|reflexivity].
  apply (mail_addr_parse_safe (bs "<a@example.org>") (bs "a") (bs "example.org")). reflexivity.
Defined.

(** Parsing and printing agree.  The two halves of an accepted address,
    joined with ['@'], parse back to the same halves, bare as well as between
    angle brackets; in particular parsing is idempotent through its output. *)
Theorem mail_addr_parse_roundtrip (s l d : bytes) (H : mail_addr_parse s = Some (l, d)) :
  mail_addr_parse (l ++ "@"%chr :: d) = Some (l, d) /\
  mail_addr_parse ("<"%chr :: (l ++ "@"%chr :: d) ++ [">"%chr]) = Some (l, d).
Proof.
  apply mail_addr_parse_inv in H as (_ & Ha & Hs & Hl & Hd).
  destruct (bare_addr_strip l d Hl Hd) as [H1 H2].
  unfold mail_addr_parse. rewrite H1, H2. cbn [mbind option_bind].
  rewrite Ha, Hs. cbn [negb mbind option_bind]. by rewrite Hd.
Qed.

Lemma mail_addr_parse_roundtrip_witness :
  mail_addr_parse (bs "<x.y@[::1]>") = Some (bs "x.y", bs "[::1]").
Proof.
  apply (mail_addr_parse_roundtrip (bs " x.y@[::1]") (bs "x.y") (bs "[::1]")). reflexivity.
Defined.
