(* ===== verification/MailHeader.v ===== *)
(** * Header manipulation and the forward-sanitise pipeline (src/src/mail.c)

    The header scanner ([skip_line], [header_end], [scan_header]), the lookup,
    replacement and removal of headers, and [mail_sanitize_for_forward].

    An index range [[i, j)] of a message is the list of its bytes: a scanner
    that advances an index from [i] to [j] is a function from the bytes at [i]
    on to the bytes it passes over and the bytes at [j] on. *)

From S2P Require Import Prelude MailLines.

(** ** The scanner *)

Definition not_eol (c : Z) : bool := negb (is_eol c).

(** [if (msg[j] == '\r') j++; if (msg[j] == '\n') j++;] *)
Definition line_break (s : bytes) : bytes * bytes :=
  let '(a, s1) := eat CR s in
  let '(b, s2) := eat LF s1 in
  (a ++ b, s2).

Definition skip_line (s : bytes) : bytes * bytes :=
  let '(e, r) := line_break (drop_while not_eol s) in
  (take_while not_eol s ++ e, r).

Definition starts_wsp (s : bytes) : bool :=
  match s with c :: _ => is_wsp c | [] => false end.

(** [header_end]: one line, then every folded continuation line. *)
Fixpoint header_end_loop (fuel : nat) (s : bytes) : bytes * bytes :=
  match fuel with
  | O => ([], s)
  | S fuel' =>
      let '(l, j) := skip_line s in
      if starts_wsp j
      then let '(l', r) := header_end_loop fuel' j in (l ++ l', r)
      else (l, j)
  end.

Definition header_end (s : bytes) : bytes * bytes := header_end_loop (S (length s)) s.

Definition name_byte (c : Z) : bool := negb (c =? ":"%chr) && not_eol c.

(** [scan_header]: the field name ([None] for a line without a colon), the
    bytes of the header and the bytes after it. *)
Definition scan_header (s : bytes) : option bytes * bytes * bytes :=
  match drop_while name_byte s with
  | c :: v =>
      if c =? ":"%chr then
        let '(hv, rest) := header_end v in
        (Some (take_while name_byte s), take_while name_byte s ++ c :: hv, rest)
      else let '(l, r) := skip_line s in (None, l, r)
  | [] => let '(l, r) := skip_line s in (None, l, r)
  end.

Definition starts_eol (s : bytes) : bool :=
  match s with c :: _ => is_eol c | [] => false end.

(** Does the scanned header carry the field name [name]? *)
Definition is_named (name : bytes) (n : option bytes) : bool :=
  match n with Some m => ieq m name | None => false end.

(** ** Lookup *)

(** The loop of [extract_value]: a line break with the blanks after it becomes
    one space. *)
Fixpoint unfold_loop (fuel : nat) (s : bytes) : bytes :=
  match fuel with
  | O => []
  | S fuel' =>
      match s with
      | [] => []
      | c :: t =>
          if is_eol c
          then SP :: unfold_loop fuel' (drop_while is_wsp (line_break s).2)
          else c :: unfold_loop fuel' t
      end
  end.

(** [extract_value]: at most [outsz - 1] bytes are kept, then trailing blanks
    are cut. *)
Definition extract_value (v : bytes) (outsz : nat) : bytes :=
  trim_end is_wsp
    (take (outsz - 1) (unfold_loop (S (length v)) (drop_while is_wsp v))).

(** The bytes of a header after its name and colon. *)
Definition header_value (name raw : bytes) : bytes := drop (S (length name)) raw.

Fixpoint header_get_loop (fuel : nat) (s name : bytes) (outsz : nat) : option bytes :=
  match fuel with
  | O => None
  | S fuel' =>
      match s with
      | [] => None
      | _ =>
          if starts_eol s then None
          else
            let '(n, h, rest) := scan_header s in
            if is_named name n then Some (extract_value (header_value name h) outsz)
            else header_get_loop fuel' rest name outsz
      end
  end.

(** [mail_header_get]: [Some value] when it returns 0. *)
Definition mail_header_get (msg name : bytes) (outsz : nat) : option bytes :=
  if (length name =? 0)%nat || (outsz =? 0)%nat then None
  else header_get_loop (S (length msg)) msg name outsz.

(** ** Replacement *)

(** The scan of [mail_header_set]: [found] is the message before and after the
    first header of that name; the last component splits the message at
    [insert_pos]. *)
Fixpoint header_set_scan (fuel : nat) (pre s name : bytes) (found : option (bytes * bytes))
  : option (bytes * bytes) * (bytes * bytes) :=
  match fuel with
  | O => (found, (pre, s))
  | S fuel' =>
      match s with
      | [] => (found, (pre, s))
      | _ =>
          if starts_eol s then (found, (pre, s))
          else
            let '(n, h, rest) := scan_header s in
            let found' :=
              if is_named name n then match found with
                                      | None => Some (pre, rest)
                                      | Some _ => found
                                      end
              else found in
            header_set_scan fuel' (pre ++ h) rest name found'
      end
  end.

Definition header_line (name value : bytes) : bytes :=
  name ++ [":"%chr; SP] ++ value ++ CRLF.

Definition ends_eol (s : bytes) : bool :=
  match last s with Some c => is_eol c | None => false end.

(** [mail_header_set]: the new message when it returns 0. *)
Definition mail_header_set (msg name value : bytes) : option bytes :=
  if (length name =? 0)%nat then None
  else if has ":"%chr name || has CR name || has LF name then None
  else if has CR value || has LF value then None
  else
    let '(found, (pre, post)) := header_set_scan (S (length msg)) [] msg name None in
    match found with
    | Some (before, after) => Some (before ++ header_line name value ++ after)
    | None =>
        let need_nl := (length post =? 0)%nat && (0 <? length msg)%nat && negb (ends_eol msg) in
        Some (pre ++ (if need_nl then CRLF else []) ++ header_line name value ++ post)
    end.

(** ** Removal *)

(** First pass of [mail_header_remove]: how many headers match. *)
Fixpoint header_count_loop (fuel : nat) (s name : bytes) : nat :=
  match fuel with
  | O => 0
  | S fuel' =>
      match s with
      | [] => 0
      | _ =>
          if starts_eol s then 0
          else
            let '(n, h, rest) := scan_header s in
            (if is_named name n then 1 else 0) + header_count_loop fuel' rest name
      end
  end.

(** Second pass: the bytes copied to the new message. *)
Fixpoint header_remove_loop (fuel : nat) (s name : bytes) : bytes :=
  match fuel with
  | O => s
  | S fuel' =>
      match s with
      | [] => []
      | _ =>
          if starts_eol s then s
          else
            let '(n, h, rest) := scan_header s in
            (if is_named name n then [] else h) ++ header_remove_loop fuel' rest name
      end
  end.

Definition mail_header_remove (msg name : bytes) : option bytes :=
  if (length name =? 0)%nat then None
  else if (header_count_loop (S (length msg)) msg name =? 0)%nat then Some msg
  else Some (header_remove_loop (S (length msg)) msg name).

(** ** The forward-sanitise pipeline *)

Record MailRewrite := {
  rw_received : option bytes;
  rw_return_path : option bytes;
  rw_from : option bytes;
  rw_sender : option bytes;
  rw_reply_to : option bytes;
}.

Definition contains_crlf (s : option bytes) : bool :=
  match s with Some v => has CR v || has LF v | None => false end.

(** Remove every occurrence, then append the one trusted value. *)
Definition rewrite_header (name : bytes) (value : option bytes) (msg : bytes) : option bytes :=
  match value with
  | Some v => m ← mail_header_remove msg name; mail_header_set m name v
  | None => Some msg
  end.

(** [mail_sanitize_for_forward]: [Some out] when it returns 0. *)
Definition mail_sanitize_for_forward (inp : bytes) (rw : MailRewrite) : option bytes :=
  if contains_crlf (rw_received rw) || contains_crlf (rw_return_path rw) ||
     contains_crlf (rw_from rw) || contains_crlf (rw_sender rw) ||
     contains_crlf (rw_reply_to rw) then None
  else if len inp >? (SIZE_MAX - 1) / 2 then None
  else
    buf ← crlf_rewrite (inp ++ repeat 0 (length inp + 1)) (length inp) (crlf_newlen inp);
    let cur := take (crlf_newlen inp) buf in
    cur ← rewrite_header (bs "Return-Path") (rw_return_path rw) cur;
    cur ← rewrite_header (bs "From") (rw_from rw) cur;
    cur ← rewrite_header (bs "Sender") (rw_sender rw) cur;
    cur ← rewrite_header (bs "Reply-To") (rw_reply_to rw) cur;
    cur ← mail_header_remove cur (bs "DKIM-Signature");
    match rw_received rw with
    | Some v => Some (bs "Received: " ++ v ++ CRLF ++ cur)
    | None => Some cur
    end.

(** ** Reference view of a message: its header fields and the rest

    The rest starts at the blank line that ends the header block, and is empty
    when there is none. *)

Record field := Field { f_name : option bytes; f_raw : bytes }.

Definition named (name : bytes) (f : field) : bool := is_named name (f_name f).

Fixpoint parse_fields_loop (fuel : nat) (s : bytes) : list field * bytes :=
  match fuel with
  | O => ([], s)
  | S fuel' =>
      match s with
      | [] => ([], [])
      | _ =>
          if starts_eol s then ([], s)
          else
            let '(n, h, rest) := scan_header s in
            let '(fs, tl) := parse_fields_loop fuel' rest in
            (Field n h :: fs, tl)
      end
  end.

Definition parse_fields (s : bytes) : list field * bytes := parse_fields_loop (S (length s)) s.
Definition fields (s : bytes) : list field := (parse_fields s).1.
Definition body (s : bytes) : bytes := (parse_fields s).2.

Definition flatten (fs : list field) (tl : bytes) : bytes := concat (map f_raw fs) ++ tl.

(** ** Scanner lemmas *)

Lemma line_break_app s : (line_break s).1 ++ (line_break s).2 = s.
Proof.
  unfold line_break. pose proof (eat_app CR s) as H1.
  destruct (eat CR s) as [a s1]. pose proof (eat_app LF s1) as H2.
  destruct (eat LF s1) as [b s2]. simpl in *. by rewrite <- app_assoc, H2.
Qed.

Lemma skip_line_app s : (skip_line s).1 ++ (skip_line s).2 = s.
Proof.
  unfold skip_line. pose proof (line_break_app (drop_while not_eol s)) as H.
  destruct (line_break _) as [e r]. simpl in *. rewrite <- app_assoc, H. apply take_drop_while.
Qed.

Lemma skip_line_progress s : s <> [] -> (skip_line s).1 <> [].
Proof.
  intros Hs. unfold skip_line. destruct s as [|c t]; [done|]. cbn [take_while drop_while].
  destruct (not_eol c) eqn:E; [by destruct (line_break _)|].
  unfold line_break. cbn [eat]. unfold not_eol, is_eol in E.
  destruct (c =? CR) eqn:E1; [by destruct (eat LF t)|].
  cbn [eat]. destruct (c =? LF) eqn:E2; [done|]. done.
Qed.

Lemma skip_line_shorter s l j :
  skip_line s = (l, j) -> starts_wsp j = true -> (length j < length s)%nat.
Proof.
  intros E Hj. pose proof (skip_line_app s) as Happ. pose proof (skip_line_progress s) as Hp.
  rewrite E in *. simpl in *. subst s. rewrite length_app.
  destruct l; [|simpl; lia]. destruct j; [done|]. by destruct Hp.
Qed.

(** The shapes of a line and of what follows it. *)
Lemma skip_line_inv s l r :
  skip_line s = (l, r) ->
  exists b e, l = b ++ e /\ Forall (fun c => not_eol c = true) b /\
    ((e = [] /\ r = []) \/ e = [LF] \/ e = CRLF \/ (e = [CR] /\ head r <> Some LF)).
Proof.
  unfold skip_line. pose proof (take_while_all not_eol s) as Hb.
  destruct (drop_while_head not_eol s) as [->|(c & t & -> & Hc)].
  - intros [= <- <-]. exists (take_while not_eol s), []. auto.
  - unfold line_break. cbn [eat]. unfold not_eol, is_eol in Hc.
    destruct (Z.eqb_spec c CR) as [->|].
    + destruct t as [|x t]; cbn [eat].
      * intros [= <- <-]. eexists _, _. split; [done|]. split; [done|]. right; right; right. done.
      * destruct (Z.eqb_spec x LF) as [->|Hx]; intros [= <- <-]; eexists _, _;
          (split; [done|]); (split; [done|]); [by auto|].
        right; right; right. split; [done|]. simpl. congruence.
    + cbn [eat]. destruct (Z.eqb_spec c LF) as [->|]; [|done].
      intros [= <- <-]. eexists _, _. split; [done|]. auto.
Qed.

(** A line of a given shape is read whatever follows it. *)
Lemma skip_line_shape b e r :
  Forall (fun c => not_eol c = true) b ->
  ((e = [] /\ r = []) \/ e = [LF] \/ e = CRLF \/ (e = [CR] /\ head r <> Some LF)) ->
  skip_line (b ++ e ++ r) = (b ++ e, r).
Proof.
  intros Hb He. unfold skip_line. rewrite take_while_app_all, drop_while_app_all by done.
  destruct He as [[-> ->]|[->|[->|[-> Hr]]]]; cbn; rewrite ?app_nil_r; try done.
  destruct r as [|x r]; [done|]. cbn. by destruct (Z.eqb_spec x LF) as [->|].
Qed.

(** A line that ends with LF, or that is followed by the same byte, is read the
    same in front of any other text. *)
Lemma skip_line_stable l r r' :
  skip_line (l ++ r) = (l, r) ->
  last l = Some LF \/ (r <> [] /\ head r = head r') ->
  skip_line (l ++ r') = (l, r').
Proof.
  intros H Hl. apply skip_line_inv in H as (b & e & -> & Hb & He).
  rewrite <- app_assoc. apply skip_line_shape; [done|].
  destruct He as [[-> ->]|[->|[->|[-> Hr]]]]; auto.
  - destruct Hl as [Hl|[? _]]; [|done]. rewrite app_nil_r in Hl.
    apply last_Some_elem_of in Hl. rewrite Forall_forall in Hb. by apply Hb in Hl.
  - destruct Hl as [Hl|[_ Hh]]; [by rewrite last_snoc in Hl|].
    right; right; right. split; [done|]. by rewrite <- Hh.
Qed.

Lemma header_end_fuel n m s :
  (length s < n)%nat -> (length s < m)%nat -> header_end_loop n s = header_end_loop m s.
Proof.
  revert m s. induction n as [|n IH]; intros [|m] s Hn Hm; try lia.
  cbn [header_end_loop]. destruct (skip_line s) as [l j] eqn:E.
  destruct (starts_wsp j) eqn:Hj; [|done].
  pose proof (skip_line_shorter _ _ _ E Hj). by rewrite (IH m j) by lia.
Qed.

(** The fuel of [header_end] is enough: the loop's own equation holds. *)
Lemma header_end_eq s :
  header_end s =
  let '(l, j) := skip_line s in
  if starts_wsp j then let '(l', r) := header_end j in (l ++ l', r) else (l, j).
Proof.
  unfold header_end at 1. cbn [header_end_loop].
  destruct (skip_line s) as [l j] eqn:E. destruct (starts_wsp j) eqn:Hj; [|done].
  pose proof (skip_line_shorter _ _ _ E Hj).
  unfold header_end. by rewrite (header_end_fuel (length s) (S (length j))) by lia.
Qed.

Lemma header_end_app s : (header_end s).1 ++ (header_end s).2 = s.
Proof.
  induction s as [s IH] using bytes_len_ind. rewrite header_end_eq.
  pose proof (skip_line_app s) as Happ. destruct (skip_line s) as [l j] eqn:E. simpl in *.
  destruct (starts_wsp j) eqn:Hj; [|done].
  pose proof (IH j (skip_line_shorter _ _ _ E Hj)) as IHj.
  destruct (header_end j) as [l' r]. simpl in *. by rewrite <- app_assoc, IHj.
Qed.

Lemma header_end_progress s : s <> [] -> (header_end s).1 <> [].
Proof.
  intros Hs. rewrite header_end_eq. pose proof (skip_line_progress s Hs) as Hp.
  destruct (skip_line s) as [l j]. simpl in *. destruct (starts_wsp j); [|done].
  destruct (header_end j) as [l' r]. simpl. by destruct l.
Qed.

(** After a header no continuation line follows. *)
Lemma header_end_no_fold s : starts_wsp (header_end s).2 = false.
Proof.
  induction s as [s IH] using bytes_len_ind. rewrite header_end_eq.
  destruct (skip_line s) as [l j] eqn:E. destruct (starts_wsp j) eqn:Hj; [|done].
  pose proof (IH j (skip_line_shorter _ _ _ E Hj)) as IHj. by destruct (header_end j).
Qed.

(** [same_front l r r']: what follows [l] can change from [r] to [r'] without
    changing where the last line of [l] ends. *)
Definition same_front (l r r' : bytes) : Prop :=
  last l = Some LF \/ (r <> [] /\ head r = head r').

Lemma same_front_suffix a b r r' : b <> [] -> same_front (a ++ b) r r' -> same_front b r r'.
Proof.
  intros Hb [H|H]; [left|by right]. rewrite last_app in H.
  destruct b as [|c b _] using rev_ind; [done|]. by rewrite last_snoc in *.
Qed.

Lemma header_end_stable v r r' :
  header_end (v ++ r) = (v, r) -> same_front v r r' -> starts_wsp r' = false ->
  header_end (v ++ r') = (v, r').
Proof.
  induction v as [v IH] using bytes_len_ind. intros H Hf Hr'.
  rewrite header_end_eq in H. pose proof (skip_line_progress (v ++ r)) as Hp.
  pose proof (skip_line_app (v ++ r)) as Happ.
  destruct (skip_line (v ++ r)) as [l j] eqn:E. simpl in *. rewrite header_end_eq.
  destruct (starts_wsp j) eqn:Hj.
  - pose proof (header_end_app j) as Hja. pose proof (header_end_progress j) as Hjp.
    destruct (header_end j) as [l' r0] eqn:Ej. injection H as <- ->. simpl in *.
    assert (Hl' : l' <> []) by (apply Hjp; by destruct j).
    assert (Hl : l <> []) by (apply Hp; rewrite <- Happ; by destruct l, j).
    rewrite <- Hja, <- app_assoc in E.
    assert (E' : skip_line (l ++ l' ++ r') = (l, l' ++ r')).
    { apply (skip_line_stable l (l' ++ r)); [done|]. right. by destruct l'. }
    rewrite <- app_assoc, E'. assert (starts_wsp (l' ++ r') = true) as ->.
    { rewrite <- Hja in Hj. by destruct l'. }
    rewrite (IH l'); [done | rewrite length_app; destruct l; simpl in *; [done|lia]
      | by rewrite Hja | by apply (same_front_suffix l) | done].
  - injection H as -> ->. rewrite (skip_line_stable v r r') by done. by rewrite Hr'.
Qed.

(** Text without a line break. *)
Definition clean (s : bytes) : Prop := Forall (fun c => not_eol c = true) s.

Lemma clean_app a b : clean a -> clean b -> clean (a ++ b).
Proof. intros. by apply Forall_app. Qed.

Lemma clean_sub p s : clean s -> clean (take_while p s) /\ clean (drop_while p s).
Proof. intros Hs. apply Forall_app. by rewrite take_drop_while. Qed.

Lemma clean_const s : forallb not_eol s = true -> clean s.
Proof. intros H%forallb_Forall. exact H. Qed.

Lemma clean_trim p s : clean s -> clean (trim_end p s).
Proof.
  intros Hs. unfold trim_end, clean. rewrite Forall_reverse. apply clean_sub. unfold clean. by rewrite Forall_reverse.
Qed.

Lemma unfold_clean fuel : forall s, clean (unfold_loop fuel s).
Proof.
  induction fuel as [|fuel IH]; intros [|c t]; cbn [unfold_loop]; try constructor.
  destruct (is_eol c) eqn:Hc; constructor; try apply IH; [done|]. unfold not_eol. by rewrite Hc.
Qed.

(** No header value the program looks up holds a line break. *)
Lemma header_get_clean msg name sz v : mail_header_get msg name sz = Some v -> clean v.
Proof.
  unfold mail_header_get. destruct (_ || _); [done|]. generalize (S (length msg)). intros fuel. revert msg.
  induction fuel as [|fuel IH]; intros msg; cbn [header_get_loop]; [done|]. destruct msg as [|c msg]; [done|].
  destruct (starts_eol _); [done|]. destruct (scan_header (c :: msg)) as [[n h] rest]. destruct (is_named name n); [|apply IH].
  intros [= <-]. unfold extract_value. apply clean_trim. apply Forall_take, unfold_clean.
Qed.

Lemma name_byte_not_eol c : name_byte c = true -> not_eol c = true.
Proof. unfold name_byte. by intros [_ ?]%andb_true_iff. Qed.

(** The shapes of a scanned header. *)
Lemma scan_header_inv s n h r :
  scan_header s = (n, h, r) ->
  h ++ r = s /\
  match n with
  | Some m => exists hv, h = m ++ ":"%chr :: hv /\ Forall (fun c => name_byte c = true) m /\
                header_end (hv ++ r) = (hv, r)
  | None => skip_line s = (h, r) /\ (forall c t, drop_while name_byte s = c :: t -> c <> ":"%chr)
  end.
Proof.
  unfold scan_header. pose proof (take_drop_while name_byte s) as Hs.
  pose proof (skip_line_app s) as Hsk.
  destruct (drop_while_head name_byte s) as [E|(c & v & E & Hc)]; rewrite E in *.
  - destruct (skip_line s) as [l j] eqn:El. intros [= <- <- <-]. done.
  - destruct (Z.eqb_spec c ":"%chr) as [->|Hne].
    + pose proof (header_end_app v) as Hv. destruct (header_end v) as [hv rest] eqn:Ev.
      simpl in Hv. intros [= <- <- <-]. rewrite <- app_assoc. cbn [app]. rewrite Hv.
      split; [done|]. exists hv. repeat split; [apply take_while_all|]. by rewrite Hv.
    + destruct (skip_line s) as [l j] eqn:El. intros [= <- <- <-].
      split; [done|]. split; [done|]. by intros ? ? [= <- <-].
Qed.

Lemma scan_header_some m hv r :
  Forall (fun c => name_byte c = true) m -> header_end (hv ++ r) = (hv, r) ->
  scan_header ((m ++ ":"%chr :: hv) ++ r) = (Some m, m ++ ":"%chr :: hv, r).
Proof.
  intros Hm Hv. rewrite <- app_assoc. unfold scan_header.
  rewrite drop_while_app_all, take_while_app_all by done. cbn [app drop_while take_while].
  change (name_byte ":"%chr) with false. cbv iota. rewrite Z.eqb_refl, app_nil_r. by rewrite Hv.
Qed.

Lemma scan_header_none s h r :
  skip_line s = (h, r) -> (forall c t, drop_while name_byte s = c :: t -> c <> ":"%chr) ->
  scan_header s = (None, h, r).
Proof.
  intros Hs Hd. unfold scan_header. destruct (drop_while name_byte s) as [|c t]; [by rewrite Hs|].
  destruct (Z.eqb_spec c ":"%chr) as [->|]; [by destruct (Hd ":"%chr t)|]. by rewrite Hs.
Qed.

Lemma scan_header_app s n h r : scan_header s = (n, h, r) -> h ++ r = s.
Proof. by intros []%scan_header_inv. Qed.

Lemma scan_header_progress s n h r : scan_header s = (n, h, r) -> s <> [] -> h <> [].
Proof.
  intros H Hs. apply scan_header_inv in H as [_ H]. destruct n as [m|].
  - destruct H as (hv & -> & _). by destruct m.
  - destruct H as [E _]. pose proof (skip_line_progress s Hs) as Hp. by rewrite E in Hp.
Qed.

(** What [drop_while name_byte] stops at is decided within a line. *)
Lemma drop_name_line b e r :
  Forall (fun c => not_eol c = true) b ->
  e = [LF] \/ e = CRLF \/ e = [CR] ->
  exists k t, drop_while name_byte (b ++ e ++ r) = k :: t ++ r /\
              (forall r', drop_while name_byte (b ++ e ++ r') = k :: t ++ r').
Proof.
  intros Hb He. induction Hb as [|c b Hc _ IH].
  - destruct He as [->|[->| ->]]; [exists LF, [] | exists CR, [LF] | exists CR, []]; done.
  - destruct IH as (k & t & H1 & H2). cbn [app drop_while]. destruct (name_byte c) eqn:E; [eauto|].
    exists c, (b ++ e). rewrite <- !app_assoc. split; [done|]. intros r'. by rewrite <- app_assoc.
Qed.

Lemma scan_header_stable n h r r' :
  scan_header (h ++ r) = (n, h, r) -> same_front h r r' ->
  (n <> None -> starts_wsp r' = false) -> scan_header (h ++ r') = (n, h, r').
Proof.
  intros H Hf Hr'. apply scan_header_inv in H as [_ H]. destruct n as [m|].
  - destruct H as (hv & -> & Hm & Hv). apply scan_header_some; [done|].
    apply (header_end_stable hv r); [done| |by apply Hr'].
    destruct hv as [|z hv].
    + destruct Hf as [Hl|Hh]; [by rewrite last_snoc in Hl | by right].
    + apply (same_front_suffix (m ++ [":"%chr])); [done|]. by rewrite <- app_assoc.
  - destruct H as [Hs Hd]. apply scan_header_none; [by apply (skip_line_stable h r)|].
    apply skip_line_inv in Hs as (b & e & -> & Hb & He).
    assert (He' : e = [LF] \/ e = CRLF \/ e = [CR]).
    { destruct He as [[-> ->]|[->|[->|[-> _]]]]; auto. exfalso.
      destruct Hf as [Hl|[? _]]; [|done]. rewrite app_nil_r in Hl.
      apply last_Some_elem_of in Hl. rewrite Forall_forall in Hb. by apply Hb in Hl. }
    destruct (drop_name_line b e r Hb He') as (k & t & H1 & H2).
    rewrite <- app_assoc in Hd |- *. rewrite H2. intros c t' [= <- <-]. by apply (Hd k (t ++ r)).
Qed.

(** ** The loops in terms of the reference view *)

Lemma scan_header_shorter s n h r :
  scan_header s = (n, h, r) -> s <> [] -> (length r < length s)%nat.
Proof.
  intros H Hs. pose proof (scan_header_progress _ _ _ _ H Hs).
  apply scan_header_app in H as <-. rewrite length_app. destruct h; simpl; [done|lia].
Qed.

Lemma parse_fields_fuel n m s :
  (length s < n)%nat -> (length s < m)%nat -> parse_fields_loop n s = parse_fields_loop m s.
Proof.
  revert m s. induction n as [|n IH]; intros [|m] s Hn Hm; try lia.
  cbn [parse_fields_loop]. destruct s as [|c s]; [done|].
  destruct (starts_eol (c :: s)); [done|].
  destruct (scan_header (c :: s)) as [[nm h] r] eqn:E.
  pose proof (scan_header_shorter _ _ _ _ E ltac:(done)). by rewrite (IH m r) by lia.
Qed.

Lemma parse_fields_eq s :
  parse_fields s =
  match s with
  | [] => ([], [])
  | _ => if starts_eol s then ([], s)
         else let '(n, h, rest) := scan_header s in
              let '(fs, tl) := parse_fields rest in (Field n h :: fs, tl)
  end.
Proof.
  unfold parse_fields at 1. cbn [parse_fields_loop]. destruct s as [|c s]; [done|].
  destruct (starts_eol (c :: s)); [done|].
  destruct (scan_header (c :: s)) as [[nm h] r] eqn:E.
  pose proof (scan_header_shorter _ _ _ _ E ltac:(done)).
  unfold parse_fields. by rewrite (parse_fields_fuel _ (S (length r)) r) by lia.
Qed.

(** Induction along the header scan of a message. *)
Lemma header_ind (P : bytes -> Prop) :
  P [] -> (forall s, starts_eol s = true -> P s) ->
  (forall s n h r, s <> [] -> starts_eol s = false -> scan_header s = (n, h, r) -> P r -> P s) ->
  forall s, P s.
Proof.
  intros H0 H1 H2 s. induction s as [s IH] using bytes_len_ind.
  destruct s as [|c s]; [done|]. destruct (starts_eol (c :: s)) eqn:E; [by apply H1|].
  destruct (scan_header (c :: s)) as [[n h] r] eqn:Es.
  eapply H2; eauto. apply IH. by apply (scan_header_shorter _ n h).
Qed.

(** Unfolds one step of a header loop and of [parse_fields] at a header. *)
Ltac header_step s Hs He Es :=
  rewrite (parse_fields_eq s); destruct s; [done|]; rewrite He, Es.

Lemma header_count_spec s fuel name :
  (length s < fuel)%nat ->
  header_count_loop fuel s name = length (List.filter (named name) (fields s)).
Proof.
  revert fuel. unfold fields. induction s as [|s He|s n h r Hs He Es IH] using header_ind;
    intros [|fuel] Hf; try lia; cbn [header_count_loop].
  - done.
  - rewrite parse_fields_eq. destruct s; [done|]. by rewrite He.
  - pose proof (scan_header_shorter _ _ _ _ Es Hs). header_step s Hs He Es.
    rewrite IH by (simpl in *; lia). destruct (parse_fields r) as [fs tl]. simpl.
    unfold named at 2. simpl. by destruct (is_named name n).
Qed.

Lemma header_remove_spec s fuel name :
  (length s < fuel)%nat ->
  header_remove_loop fuel s name
  = flatten (List.filter (fun f => negb (named name f)) (fields s)) (body s).
Proof.
  revert fuel. unfold fields, body. induction s as [|s He|s n h r Hs He Es IH] using header_ind;
    intros [|fuel] Hf; try lia; cbn [header_remove_loop].
  - done.
  - rewrite parse_fields_eq. destruct s; [done|]. by rewrite He.
  - pose proof (scan_header_shorter _ _ _ _ Es Hs). header_step s Hs He Es.
    rewrite IH by (simpl in *; lia). destruct (parse_fields r) as [fs tl]. simpl.
    unfold named at 2. simpl. destruct (is_named name n); [done|].
    unfold flatten. simpl. by rewrite app_assoc.
Qed.

Lemma parse_flatten s : flatten (fields s) (body s) = s.
Proof.
  unfold fields, body. induction s as [|s He|s n h r Hs He Es IH] using header_ind.
  - done.
  - rewrite parse_fields_eq. destruct s; [done|]. by rewrite He.
  - header_step s Hs He Es. destruct (parse_fields r) as [fs tl]. simpl in *.
    unfold flatten in *. simpl. rewrite <- app_assoc, IH. by apply scan_header_app in Es.
Qed.

(** The scan of [mail_header_set] when no header has that name. *)
Lemma header_set_scan_absent s fuel pre name found :
  (length s < fuel)%nat -> List.filter (named name) (fields s) = [] ->
  header_set_scan fuel pre s name found
  = (found, (pre ++ concat (map f_raw (fields s)), body s)).
Proof.
  revert fuel pre. unfold fields, body.
  induction s as [|s He|s n h r Hs He Es IH] using header_ind;
    intros [|fuel] pre Hf Hn; try lia; cbn [header_set_scan].
  - simpl. by rewrite app_nil_r.
  - rewrite parse_fields_eq. destruct s; [done|]. rewrite He. simpl. by rewrite app_nil_r.
  - pose proof (scan_header_shorter _ _ _ _ Es Hs). revert Hn. header_step s Hs He Es.
    destruct (parse_fields r) as [fs tl] eqn:Er. cbn [fst snd List.filter]. unfold named at 1. cbn [f_name].
    destruct (is_named name n); [done|]. intros Hn.
    rewrite IH by (simpl in *; (lia || done)). simpl. by rewrite app_assoc.
Qed.

(** ** Well-formed sequences of fields

    [chain fs tl]: the fields [fs] followed by [tl] are exactly what scanning
    their concatenation gives. *)

Definition seg (f : field) : Prop :=
  f_raw f <> [] /\ starts_eol (f_raw f) = false /\
  scan_header (f_raw f) = (f_name f, f_raw f, []).

Fixpoint chain (fs : list field) (tl : bytes) : Prop :=
  match fs with
  | [] => tl = [] \/ starts_eol tl = true
  | f :: fs' =>
      seg f /\
      (last (f_raw f) = Some LF \/ (flatten fs' tl = [] /\ ends_eol (f_raw f) = false)) /\
      (f_name f <> None -> starts_wsp (flatten fs' tl) = false) /\
      chain fs' tl
  end.

Lemma flatten_cons f fs tl : flatten (f :: fs) tl = f_raw f ++ flatten fs tl.
Proof. unfold flatten. simpl. by rewrite app_assoc. Qed.

Lemma flatten_app fs gs tl : flatten (fs ++ gs) tl = flatten fs (flatten gs tl).
Proof. unfold flatten. by rewrite map_app, concat_app, app_assoc. Qed.

Lemma seg_scan f r :
  seg f -> (last (f_raw f) = Some LF \/ r = []) ->
  (f_name f <> None -> starts_wsp r = false) ->
  scan_header (f_raw f ++ r) = (f_name f, f_raw f, r).
Proof.
  intros (_ & _ & H) [Hl| ->] Hw; [|by rewrite app_nil_r].
  apply (scan_header_stable _ _ []); [by rewrite app_nil_r | by left | done].
Qed.

Lemma parse_chain fs tl : chain fs tl -> parse_fields (flatten fs tl) = (fs, tl).
Proof.
  induction fs as [|f fs IH]; cbn [chain].
  - intros [->|H]; [done|]. unfold flatten. simpl. rewrite parse_fields_eq.
    destruct tl; [done|]. by rewrite H.
  - intros (Hs & Hl & Hw & Hc). rewrite flatten_cons, parse_fields_eq.
    rewrite (seg_scan f _ Hs) by (done || naive_solver).
    rewrite (IH Hc). destruct Hs as (Hne & He & _), f as [n [|c h]]; [done|].
    simpl in *. by rewrite He.
Qed.

Lemma starts_eol_app h r : h <> [] -> starts_eol (h ++ r) = starts_eol h.
Proof. by destruct h. Qed.

(** In a normalised text a line followed by more text ends with LF. *)
Lemma skip_line_crlf s l r :
  crlf_ok s = true -> skip_line s = (l, r) ->
  (last l = Some LF \/ (r = [] /\ ends_eol l = false)) /\ crlf_ok r = true.
Proof.
  intros Hok Hs. pose proof (skip_line_app s) as Happ. rewrite Hs in Happ. simpl in Happ.
  apply skip_line_inv in Hs as (b & e & -> & Hb & [[-> ->]|[->|[->|[-> Hr]]]]).
  - split; [|done]. right. split; [done|]. rewrite app_nil_r. unfold ends_eol.
    destruct (last b) as [z|] eqn:Hz; [|done]. apply last_Some_elem_of in Hz.
    rewrite Forall_forall in Hb. apply Hb in Hz. unfold not_eol in Hz. by destruct (is_eol z).
  - rewrite last_snoc. split; [by left|]. subst s. rewrite <- app_assoc in Hok.
    by apply crlf_ok_lf in Hok.
  - split; [left; by rewrite last_app|]. subst s. rewrite <- app_assoc in Hok.
    cbn [app] in Hok. replace (b ++ CR :: LF :: r) with ((b ++ [CR]) ++ LF :: r) in Hok
      by (by rewrite <- app_assoc). by apply crlf_ok_lf in Hok.
  - subst s. rewrite <- app_assoc in Hok. by apply crlf_ok_cr in Hok.
Qed.

Lemma last_app_r (a b : bytes) : b <> [] -> last (a ++ b) = last b.
Proof. intros Hb. destruct b as [|c b _] using rev_ind; [done|]. by rewrite app_assoc, !last_snoc. Qed.

Lemma ends_eol_app_r a b : b <> [] -> ends_eol (a ++ b) = ends_eol b.
Proof. intros Hb. unfold ends_eol. by rewrite last_app_r. Qed.

Lemma header_end_crlf s v r :
  crlf_ok s = true -> header_end s = (v, r) ->
  (last v = Some LF \/ (r = [] /\ ends_eol v = false)) /\ crlf_ok r = true.
Proof.
  revert v r. induction s as [s IH] using bytes_len_ind. intros v r Hok H.
  rewrite header_end_eq in H. destruct (skip_line s) as [l j] eqn:E.
  destruct (skip_line_crlf _ _ _ Hok E) as [Hl Hj]. destruct (starts_wsp j) eqn:Hw.
  - pose proof (header_end_progress j) as Hp. destruct (header_end j) as [l' r'] eqn:Ej.
    injection H as <- <-. assert (Hl' : l' <> []) by (apply Hp; by destruct j).
    rewrite last_app_r, ends_eol_app_r by done.
    by apply (IH j (skip_line_shorter _ _ _ E Hw)).
  - injection H as <- <-. done.
Qed.

Lemma scan_header_crlf s n h r :
  crlf_ok s = true -> s <> [] -> scan_header s = (n, h, r) ->
  (last h = Some LF \/ (r = [] /\ ends_eol h = false)) /\ crlf_ok r = true.
Proof.
  intros Hok Hs H. apply scan_header_inv in H as [<- H]. destruct n as [m|].
  - destruct H as (hv & -> & Hm & Hv).
    assert (Hsuf : crlf_ok (hv ++ r) = true).
    { revert Hok. rewrite <- app_assoc. clear -Hm. induction Hm as [|c m Hc _ IH]; [done|].
      apply name_byte_not_eol in Hc. unfold not_eol, is_eol in Hc. cbn [app crlf_ok].
      destruct (c =? CR); [done|]. by destruct (c =? LF). }
    destruct (header_end_crlf _ _ _ Hsuf Hv) as [Hl Hr]. split; [|done].
    destruct hv as [|z hv].
    + right. split; [by destruct Hl as [|[]]|]. unfold ends_eol. by rewrite last_snoc.
    + replace (m ++ ":"%chr :: z :: hv) with ((m ++ [":"%chr]) ++ z :: hv) by (by rewrite <- app_assoc).
      by rewrite last_app_r, ends_eol_app_r.
  - destruct H as [H _]. by apply (skip_line_crlf _ _ _ Hok).
Qed.

(** The fields of a normalised message form a chain. *)
Lemma chain_parse s : crlf_ok s = true -> chain (fields s) (body s).
Proof.
  unfold fields, body. induction s as [|s He|s n h r Hs He Es IH] using header_ind; intros Hok.
  - by left.
  - rewrite parse_fields_eq. destruct s; [done|]. rewrite He. by right.
  - destruct (scan_header_crlf _ _ _ _ Hok Hs Es) as [Hl Hr].
    pose proof (scan_header_progress _ _ _ _ Es Hs) as Hh.
    pose proof (scan_header_app _ _ _ _ Es) as Happ.
    pose proof (parse_flatten r) as Hfl. unfold fields, body in Hfl.
    assert (Heh : starts_eol h = false) by (by rewrite <- Happ, starts_eol_app in He).
    pose proof Es as Es'. rewrite <- Happ in Es'.
    header_step s Hs He Es. destruct (parse_fields r) as [fs tl]. simpl in *.
    rewrite Hfl. repeat split; simpl; try done.
    + clear Es. rename Es' into Es. destruct Hl as [Hl|[-> Hl]]; [|by rewrite app_nil_r in Es].
      rewrite <- (app_nil_r h) at 1. by apply (scan_header_stable _ _ r); [| left |].
    + intros Hn. apply scan_header_inv in Es as [_ Es]. destruct n as [m|]; [|done].
      destruct Es as (hv & _ & _ & Hv). pose proof (header_end_no_fold (hv ++ r)) as Hnf.
      by rewrite Hv in Hnf.
    + by apply IH.
Qed.

(** ** Editing a chain *)

Definition new_field (name value : bytes) : field := Field (Some name) (header_line name value).

(** The last field gets a line break when it has none. *)
Fixpoint complete (fs : list field) : list field :=
  match fs with
  | [] => []
  | [f] => [if ends_eol (f_raw f) then f else Field (f_name f) (f_raw f ++ CRLF)]
  | f :: fs' => f :: complete fs'
  end.

Definition without (name : bytes) (fs : list field) : list field :=
  List.filter (fun f => negb (named name f)) fs.

Lemma starts_wsp_app h r : h <> [] -> starts_wsp (h ++ r) = starts_wsp h.
Proof. by destruct h. Qed.

Lemma named_some name f : named name f = true -> f_name f <> None.
Proof. unfold named. by destruct (f_name f). Qed.

Lemma chain_empty fs tl : chain fs tl -> flatten fs tl = [] -> fs = [].
Proof.
  destruct fs as [|f fs]; [done|]. cbn [chain]. intros ((Hne & _) & _). rewrite flatten_cons.
  by intros [? _]%app_eq_nil.
Qed.

Lemma without_front name fs tl :
  chain fs tl -> starts_wsp (flatten fs tl) = false ->
  starts_wsp (flatten (without name fs) tl) = false.
Proof.
  induction fs as [|f fs IH]; [done|]. cbn [chain without List.filter].
  intros (Hs & _ & Hw & Hc). rewrite flatten_cons, starts_wsp_app by apply Hs. intros Hf.
  destruct (named name f) eqn:E; simpl.
  - apply (IH Hc), Hw, (named_some name), E.
  - by rewrite flatten_cons, starts_wsp_app by apply Hs.
Qed.

Lemma chain_without name fs tl : chain fs tl -> chain (without name fs) tl.
Proof.
  induction fs as [|f fs IH]; [done|]. cbn [chain without List.filter].
  intros (Hs & Hl & Hw & Hc). destruct (named name f) eqn:E; simpl; [by apply IH|].
  split; [done|]. split; [|split; [|by apply IH]].
  - destruct Hl as [|[Hn ?]]; [by left|right]. split; [|done].
    pose proof (chain_empty _ _ Hc Hn) as ->. done.
  - intros Hn. by apply without_front, Hw.
Qed.

Lemma chain_extend fs gs gs' tl :
  chain (fs ++ gs) tl -> Forall (fun f => last (f_raw f) = Some LF) fs ->
  chain gs' tl -> starts_wsp (flatten gs' tl) = false -> chain (fs ++ gs') tl.
Proof.
  induction fs as [|f fs IH]; [done|]. intros Hc Hl Hg Hw. inversion_clear Hl.
  destruct Hc as (Hs & _ & Hn & Hc). split; [done|]. split; [by left|].
  split; [|by apply IH]. destruct fs as [|f' fs]; [done|].
  simpl in *. destruct Hc as ((Hne & _) & _). rewrite flatten_cons, starts_wsp_app in * by done.
  done.
Qed.

Lemma chain_lf fs gs tl :
  chain (fs ++ gs) tl -> flatten gs tl <> [] -> Forall (fun f => last (f_raw f) = Some LF) fs.
Proof.
  induction fs as [|f fs IH]; [done|]. intros (_ & [Hl|[Hn _]] & _ & Hc) Hg.
  - constructor; auto.
  - destruct Hg. rewrite flatten_app in Hn. unfold flatten at 1 in Hn.
    by apply app_eq_nil in Hn as [_ ?].
Qed.

(** *** A field completed with a line break *)

Lemma skip_line_complete s l :
  skip_line s = (l, []) -> ends_eol l = false -> skip_line (l ++ CRLF) = (l ++ CRLF, []).
Proof.
  intros H He. apply skip_line_inv in H as (b & e & -> & Hb & [[-> _]|[->|[->|[-> _]]]]).
  - rewrite app_nil_r. apply (skip_line_shape b CRLF []); auto.
  - unfold ends_eol in He. by rewrite last_snoc in He.
  - by rewrite ends_eol_app_r in He.
  - unfold ends_eol in He. by rewrite last_snoc in He.
Qed.

Lemma header_end_complete v :
  header_end v = (v, []) -> ends_eol v = false -> header_end (v ++ CRLF) = (v ++ CRLF, []).
Proof.
  induction v as [v IH] using bytes_len_ind. rewrite !header_end_eq.
  pose proof (skip_line_app v) as Happ. destruct (skip_line v) as [l j] eqn:E.
  simpl in Happ. destruct (starts_wsp j) eqn:Hj; intros H He.
  - assert (Hlj : j <> []) by (by destruct j).
    assert (Ej : header_end j = (j, [])).
    { pose proof (header_end_app j) as Hja. destruct (header_end j) as [l' r] eqn:Er.
      injection H as _ ->. by rewrite app_nil_r in Hja; simpl in Hja; subst. }
    pose proof (skip_line_shorter _ _ _ E Hj) as Hlt. rewrite <- Happ in He, E |- *.
    rewrite ends_eol_app_r in He by done. rewrite <- app_assoc.
    rewrite (skip_line_stable l j (j ++ CRLF) E) by (right; by destruct j).
    rewrite starts_wsp_app, Hj by done. by rewrite (IH j Hlt Ej He).
  - injection H as -> ->. by rewrite (skip_line_complete v v E He).
Qed.

Lemma drop_name_tail a r : drop_while name_byte a <> [] ->
  drop_while name_byte (a ++ r) = drop_while name_byte a ++ r.
Proof. induction a as [|c a IH]; [done|]. simpl. by destruct (name_byte c). Qed.

Lemma scan_header_complete n h :
  h <> [] -> scan_header h = (n, h, []) -> ends_eol h = false ->
  scan_header (h ++ CRLF) = (n, h ++ CRLF, []).
Proof.
  intros Hh H He. apply scan_header_inv in H as [_ H]. destruct n as [m|].
  - destruct H as (hv & -> & Hm & Hv). rewrite app_nil_r in Hv.
    replace ((m ++ ":"%chr :: hv) ++ CRLF) with ((m ++ ":"%chr :: hv ++ CRLF) ++ [])
      by (by rewrite app_nil_r, <- app_assoc).
    rewrite scan_header_some; [by rewrite app_nil_r | done |].
    rewrite app_nil_r. apply header_end_complete; [done|].
    destruct hv as [|z hv]; [done|]. revert He.
    replace (m ++ ":"%chr :: z :: hv) with ((m ++ [":"%chr]) ++ z :: hv) by (by rewrite <- app_assoc).
    by rewrite ends_eol_app_r.
  - destruct H as [Hs Hd]. apply scan_header_none; [by apply (skip_line_complete h)|].
    intros c t. destruct (drop_while name_byte h) as [|k t'] eqn:E.
    + rewrite drop_while_app_all; [by intros [= <- _]|].
      pose proof (take_drop_while name_byte h) as Ht. rewrite E, app_nil_r in Ht.
      rewrite <- Ht. apply take_while_all.
    + rewrite drop_name_tail by (by rewrite E). rewrite E. intros [= <- _]. by apply (Hd k t').
Qed.

Lemma chain_complete fs tl : chain fs tl -> chain (complete fs) tl.
Proof.
  induction fs as [|f [|g fs] IH]; [done| |].
  - intros Hch. cbn [complete]. destruct (ends_eol (f_raw f)) eqn:He; [done|].
    destruct Hch as (Hs & Hl & Hw & Hc). destruct Hl as [Hl|[Hn _]]; [by unfold ends_eol in He; rewrite Hl in He|].
    unfold flatten in Hn. simpl in Hn. subst tl. cbn [chain f_raw f_name].
    split; [|split; [left; by rewrite last_app_r | done]].
    destruct Hs as (Hne & Hse & Hsc). repeat split; cbn [f_raw f_name].
    + by destruct (f_raw f).
    + by rewrite starts_eol_app.
    + by apply scan_header_complete.
  - intros (Hs & Hl & Hw & Hc). change (complete (f :: g :: fs)) with (f :: complete (g :: fs)).
    assert (Hlf : last (f_raw f) = Some LF).
    { destruct Hl as [|[Hn _]]; [done|]. by apply chain_empty in Hn. }
    split; [done|]. split; [by left|]. split; [|by apply IH].
    intros Hn. specialize (Hw Hn). destruct Hc as ((Hne & _) & _). revert Hw.
    destruct fs as [|f' fs]; [cbn [complete]; destruct (ends_eol (f_raw g)) |
      change (complete (g :: f' :: fs)) with (g :: complete (f' :: fs))];
      rewrite !flatten_cons; cbn [f_raw]; rewrite <- ?app_assoc, !starts_wsp_app by done; done.
Qed.

Lemma complete_lf fs tl :
  chain fs tl -> Forall (fun f => last (f_raw f) = Some LF) (complete fs).
Proof.
  induction fs as [|f [|g fs] IH]; [constructor| |].
  - intros (Hs & Hl & Hw & Hc). cbn [complete]. constructor; [|done].
    destruct (ends_eol (f_raw f)) eqn:He; [by destruct Hl as [|[_ ?]]; congruence|].
    simpl. by rewrite last_app_r.
  - intros (Hs & Hl & Hw & Hc). change (complete (f :: g :: fs)) with (f :: complete (g :: fs)).
    constructor; [|by apply IH]. destruct Hl as [|[Hn _]]; [done|]. by apply chain_empty in Hn.
Qed.

(** What [mail_header_set] inserts before a header it appends. *)
Lemma flatten_complete fs tl :
  chain fs tl ->
  flatten (complete fs) tl =
  concat (map f_raw fs) ++
  (if (length tl =? 0)%nat && (0 <? length (flatten fs tl))%nat && negb (ends_eol (flatten fs tl))
   then CRLF else []) ++ tl.
Proof.
  induction fs as [|f [|g fs] IH].
  - intros _. destruct tl; done.
  - intros ((Hne & _) & Hl & _). cbn [complete map concat]. rewrite !flatten_cons.
    unfold flatten in *. cbn [map concat app] in *. rewrite app_nil_r.
    destruct tl as [|c tl].
    + rewrite !app_nil_r.
      assert ((0 <? length (f_raw f))%nat = true) as -> by (by destruct (f_raw f)).
      by destruct (ends_eol (f_raw f)); cbn [f_raw negb andb Nat.eqb length]; rewrite ?app_nil_r.
    + destruct Hl as [Hl|[? _]]; [|done]. unfold ends_eol at 1. by rewrite Hl.
  - intros (Hs & Hl & Hw & Hc). change (complete (f :: g :: fs)) with (f :: complete (g :: fs)).
    rewrite flatten_cons, (IH Hc), (flatten_cons f). change (map f_raw (f :: g :: fs)) with (f_raw f :: map f_raw (g :: fs)).
    cbn [concat]. rewrite <- (app_assoc (f_raw f)). f_equal. f_equal. f_equal.
    assert (Hne : flatten (g :: fs) tl <> []) by (intros Hn; by apply chain_empty in Hn).
    rewrite (ends_eol_app_r (f_raw f)) by done.
    destruct (flatten (g :: fs) tl) eqn:E; [done|]. rewrite length_app. simpl length.
    destruct (f_raw f); [|done]. done.
Qed.

(** *** Well-formed header names and the field [mail_header_set] writes *)

Definition name_ok (name : bytes) : Prop :=
  name <> [] /\ starts_wsp name = false /\ Forall (fun c => name_byte c = true) name.

Definition value_ok (v : bytes) : Prop := has CR v = false /\ has LF v = false.

Lemma value_not_eol v : value_ok v -> Forall (fun c => not_eol c = true) v.
Proof.
  intros [H1%has_false H2%has_false]. rewrite Forall_forall. intros c Hc. unfold not_eol, is_eol.
  destruct (Z.eqb_spec c CR) as [->|]; [done|]. by destruct (Z.eqb_spec c LF) as [->|].
Qed.

Lemma header_end_line v r :
  Forall (fun c => not_eol c = true) v -> starts_wsp r = false ->
  header_end ((v ++ CRLF) ++ r) = (v ++ CRLF, r).
Proof.
  intros Hv Hr. rewrite header_end_eq, <- app_assoc, skip_line_shape by auto. by rewrite Hr.
Qed.

Lemma header_line_scan name v r :
  Forall (fun c => name_byte c = true) name -> value_ok v -> starts_wsp r = false ->
  scan_header (header_line name v ++ r) = (Some name, header_line name v, r).
Proof.
  intros Hn Hv Hr.
  change (header_line name v) with (name ++ ":"%chr :: (SP :: v) ++ CRLF).
  apply scan_header_some; [done|]. apply header_end_line; [|done].
  constructor; [done|by apply value_not_eol].
Qed.

Lemma header_line_last name v : last (header_line name v) = Some LF.
Proof. unfold header_line. by rewrite !last_app_r by (by destruct v). Qed.

Lemma new_field_seg name v : name_ok name -> value_ok v -> seg (new_field name v).
Proof.
  intros (Hne & Hw & Hn) Hv. unfold seg, new_field. cbn [f_raw f_name].
  split; [by destruct name|]. split.
  - unfold header_line. rewrite starts_eol_app by done. destruct name as [|c name]; [done|].
    inversion_clear Hn as [|? ? Hc _]. apply name_byte_not_eol in Hc. unfold not_eol in Hc.
    simpl. by destruct (is_eol c).
  - rewrite <- (app_nil_r (header_line name v)) at 1. by apply header_line_scan.
Qed.

Lemma chain_new name v fs tl :
  name_ok name -> value_ok v -> chain fs tl -> starts_wsp (flatten fs tl) = false ->
  chain (new_field name v :: fs) tl.
Proof.
  intros Hn Hv Hc Hw. split; [by apply new_field_seg|]. split; [left; apply header_line_last|].
  done.
Qed.

Lemma new_field_front name v fs tl :
  name_ok name -> starts_wsp (flatten (new_field name v :: fs) tl) = false.
Proof.
  intros (Hne & Hw & _). rewrite flatten_cons. unfold new_field, header_line. cbn [f_raw].
  rewrite <- app_assoc. by rewrite starts_wsp_app.
Qed.

Lemma tail_front tl : tl = [] \/ starts_eol tl = true -> starts_wsp tl = false.
Proof.
  intros [->|H]; [done|]. destruct tl as [|c tl]; [done|]. simpl in *.
  unfold is_eol in H. unfold is_wsp. destruct (Z.eqb_spec c CR) as [->|]; [done|].
  by destruct (Z.eqb_spec c LF) as [->|].
Qed.

Lemma chain_tail fs tl : chain fs tl -> tl = [] \/ starts_eol tl = true.
Proof. induction fs as [|f fs IH]; [done|]. intros (_ & _ & _ & Hc). by apply IH. Qed.

Lemma chain_append name v fs tl :
  name_ok name -> value_ok v -> chain fs tl -> chain (complete fs ++ [new_field name v]) tl.
Proof.
  intros Hn Hv Hc. apply (chain_extend _ []).
  - rewrite app_nil_r. by apply chain_complete.
  - by apply (complete_lf _ tl).
  - apply chain_new; try done; [by apply (chain_tail fs)|]. by apply tail_front, (chain_tail fs).
  - by apply new_field_front.
Qed.

(** *** The operations on a chain *)

Lemma name_ok_guard name :
  name_ok name -> (length name =? 0)%nat = false /\
  (has ":"%chr name || has CR name || has LF name) = false.
Proof.
  intros (Hne & _ & Hn). split; [by destruct name|]. rewrite Forall_forall in Hn.
  rewrite !orb_false_iff, !has_false.
  repeat split; intros H; apply Hn in H; done.
Qed.

Lemma value_ok_guard v : value_ok v -> (has CR v || has LF v) = false.
Proof. by intros [-> ->]. Qed.

Lemma remove_chain name fs tl :
  name <> [] -> chain fs tl ->
  mail_header_remove (flatten fs tl) name = Some (flatten (without name fs) tl).
Proof.
  intros Hn Hc. pose proof (parse_chain _ _ Hc) as Hp. unfold mail_header_remove.
  assert ((length name =? 0)%nat = false) as -> by (by destruct name).
  rewrite header_count_spec, header_remove_spec by lia. unfold fields, body. rewrite Hp. simpl.
  destruct (Nat.eqb_spec (length (List.filter (named name) fs)) 0) as [H0|]; [|done].
  do 2 f_equal. clear Hc Hp. induction fs as [|f fs IH]; [done|]. simpl in *.
  destruct (named name f); [done|]. simpl. by rewrite <- IH.
Qed.

Lemma set_chain_absent name v fs tl :
  name_ok name -> value_ok v -> chain fs tl -> List.filter (named name) fs = [] ->
  mail_header_set (flatten fs tl) name v
  = Some (flatten (complete fs ++ [new_field name v]) tl).
Proof.
  intros Hn Hv Hc Hf. pose proof (parse_chain _ _ Hc) as Hp. unfold mail_header_set.
  destruct (name_ok_guard _ Hn) as [-> ->]. rewrite (value_ok_guard _ Hv).
  rewrite header_set_scan_absent by (unfold fields; rewrite ?Hp; (lia || done)).
  unfold fields, body. rewrite Hp. cbn [fst snd].
  rewrite flatten_app, (flatten_cons (new_field name v)). f_equal.
  pose proof (flatten_complete _ _ Hc) as Hfc.
  change (flatten [] tl) with tl. unfold flatten at 3. cbn [new_field f_raw].
  unfold flatten at 1 in Hfc. rewrite app_assoc in Hfc. apply app_inv_tail in Hfc.
  by rewrite Hfc, <- !app_assoc.
Qed.

(** *** The pipeline on the fields of a message *)

Definition set_field (name : bytes) (v : option bytes) (fs : list field) : list field :=
  match v with
  | Some v => complete (without name fs) ++ [new_field name v]
  | None => fs
  end.

(** What the forwarded message should contain. *)
Definition sanitized (rw : MailRewrite) (fs : list field) : list field :=
  without (bs "DKIM-Signature")
    (set_field (bs "Reply-To") (rw_reply_to rw)
      (set_field (bs "Sender") (rw_sender rw)
        (set_field (bs "From") (rw_from rw)
          (set_field (bs "Return-Path") (rw_return_path rw) fs)))).

Definition received_line (rw : MailRewrite) : bytes :=
  match rw_received rw with Some v => header_line (bs "Received") v | None => [] end.

(** The headers the caller rewrites, with their trusted values. *)
Definition rewritten (rw : MailRewrite) : list (bytes * bytes) :=
  omap (fun '(n, v) => v ← v; Some (n, v))
    [(bs "Return-Path", rw_return_path rw); (bs "From", rw_from rw);
     (bs "Sender", rw_sender rw); (bs "Reply-To", rw_reply_to rw)].

Definition opt_value_ok (v : option bytes) : Prop := contains_crlf v = false.

Lemma opt_value_some v : opt_value_ok (Some v) -> value_ok v.
Proof. unfold opt_value_ok. simpl. by intros []%orb_false_iff. Qed.

Lemma without_none name fs : List.filter (named name) (without name fs) = [].
Proof.
  induction fs as [|f fs IH]; [done|]. simpl. destruct (named name f) eqn:E; [done|].
  simpl. by rewrite E.
Qed.

Lemma named_unique a b f : named a f = true -> named b f = true -> lower a = lower b.
Proof.
  unfold named, is_named. destruct (f_name f) as [m|]; [|done].
  intros H1%ieq_spec H2%ieq_spec. congruence.
Qed.

Lemma without_other a b fs :
  lower a <> lower b -> List.filter (named a) (without b fs) = List.filter (named a) fs.
Proof.
  intros Hab. induction fs as [|f fs IH]; [done|]. simpl.
  destruct (named b f) eqn:Eb; simpl; rewrite IH; destruct (named a f) eqn:Ea; try done.
  by destruct (Hab (named_unique _ _ _ Ea Eb)).
Qed.

(** Completing the last field changes it only when it lacks its line break. *)
Lemma complete_cases fs :
  complete fs = fs \/
  (exists fs0 f, fs = fs0 ++ [f] /\ ends_eol (f_raw f) = false /\
     complete fs = fs0 ++ [Field (f_name f) (f_raw f ++ CRLF)]).
Proof.
  induction fs as [|f [|g fs] IH]; [by left| |].
  - cbn [complete]. destruct (ends_eol (f_raw f)) eqn:E; [by left|right]. by exists [], f.
  - change (complete (f :: g :: fs)) with (f :: complete (g :: fs)).
    destruct IH as [->|(fs0 & h & -> & He & ->)]; [by left|right]. by exists (f :: fs0), h.
Qed.

Lemma complete_new name v fs :
  List.filter (named name) fs = [new_field name v] ->
  List.filter (named name) (complete fs) = [new_field name v].
Proof.
  destruct (complete_cases fs) as [->|(fs0 & f & -> & He & ->)]; [done|].
  rewrite !List.filter_app. simpl. unfold named at 2 4. cbn [f_name].
  destruct (is_named name (f_name f)); [|done]. intros H.
  destruct (List.filter _ fs0) as [|g l]; simpl in H; [|by destruct l].
  injection H as ->. unfold new_field, ends_eol in He. cbn [f_raw] in He.
  by rewrite header_line_last in He.
Qed.

Lemma set_field_new name v fs : List.filter (named name) (set_field name (Some v) fs) = [new_field name v].
Proof.
  unfold set_field. rewrite List.filter_app. simpl. unfold named at 2, is_named. cbn [f_name new_field].
  assert (ieq name name = true) as -> by (by apply ieq_spec).
  pose proof (without_none name fs) as Hn.
  destruct (complete_cases (without name fs)) as [->|(fs0 & f & E & _ & ->)]; [by rewrite Hn|].
  rewrite E, List.filter_app in Hn. apply app_eq_nil in Hn as [H1 H2].
  rewrite List.filter_app, H1. simpl in *. revert H2. unfold named. simpl. by destruct (is_named _ _).
Qed.

(** A later edit keeps the one value an earlier edit wrote. *)
Lemma set_field_keep name v b w fs :
  lower name <> lower b ->
  List.filter (named name) fs = [new_field name v] ->
  List.filter (named name) (set_field b w fs) = [new_field name v].
Proof.
  intros Hab H. destruct w as [w|]; [|done]. unfold set_field. rewrite List.filter_app.
  rewrite (complete_new name v) by (by rewrite without_other). simpl.
  destruct (named name (new_field b w)) eqn:E; [|done]. unfold named in E. simpl in E.
  by apply ieq_spec in E.
Qed.

Lemma set_field_chain name v fs tl :
  name_ok name -> opt_value_ok v -> chain fs tl -> chain (set_field name v fs) tl.
Proof.
  intros Hn Hv Hc. destruct v as [v|]; [|done]. apply chain_append; [done| |].
  - by apply opt_value_some.
  - by apply chain_without.
Qed.

Lemma rewrite_header_chain name v fs tl :
  name_ok name -> opt_value_ok v -> chain fs tl ->
  rewrite_header name v (flatten fs tl) = Some (flatten (set_field name v fs) tl).
Proof.
  intros Hn Hv Hc. destruct v as [v|]; [|done]. unfold rewrite_header.
  rewrite remove_chain by (done || apply Hn). simpl.
  apply set_chain_absent; [done | by apply opt_value_some | by apply chain_without | apply without_none].
Qed.

Ltac name_ok := repeat split; try done; repeat constructor.

Lemma sanitized_chain rw fs tl :
  opt_value_ok (rw_return_path rw) -> opt_value_ok (rw_from rw) ->
  opt_value_ok (rw_sender rw) -> opt_value_ok (rw_reply_to rw) ->
  chain fs tl -> chain (sanitized rw fs) tl.
Proof.
  intros H1 H2 H3 H4 Hc. unfold sanitized. apply chain_without.
  repeat (apply set_field_chain; [name_ok | done |]). done.
Qed.

Lemma sanitize_eq inp rw :
  opt_value_ok (rw_received rw) -> opt_value_ok (rw_return_path rw) ->
  opt_value_ok (rw_from rw) -> opt_value_ok (rw_sender rw) -> opt_value_ok (rw_reply_to rw) ->
  len inp <= (SIZE_MAX - 1) / 2 ->
  mail_sanitize_for_forward inp rw =
  Some (received_line rw ++
        flatten (sanitized rw (fields (crlf_norm inp))) (body (crlf_norm inp))).
Proof.
  intros H0 H1 H2 H3 H4 Hlen. unfold mail_sanitize_for_forward.
  rewrite H0, H1, H2, H3, H4. cbn [orb].
  destruct (Z.gtb_spec (len inp) ((SIZE_MAX - 1) / 2)); [lia|].
  pose proof (crlf_norm_length inp) as Hl.
  rewrite crlf_rewrite_spec by (rewrite repeat_length; lia). cbn [mbind option_bind].
  rewrite crlf_newlen_spec, take_app_length, <- (parse_flatten (crlf_norm inp)) at 1.
  pose proof (chain_parse _ (crlf_norm_ok inp)) as Hc.
  do 4 (erewrite rewrite_header_chain; [cbn [mbind option_bind] | name_ok | done |
         repeat (apply set_field_chain; [name_ok | done |]); exact Hc]).
  rewrite remove_chain; [cbn [mbind option_bind] | done |
    repeat (apply set_field_chain; [name_ok | done |]); exact Hc].
  unfold received_line. destruct (rw_received rw) as [v|]; [|done].
  unfold header_line. change (bs "Received" ++ [":"%chr; SP] ++ v ++ CRLF) with (bs "Received: " ++ v ++ CRLF).
  by rewrite <- !app_assoc.
Qed.

(** A header whose name starts like a folded line is also read as one line and
    its continuations. *)
Lemma header_end_named s m h r :
  scan_header s = (Some m, h, r) -> header_end s = (h, r).
Proof.
  intros H. apply scan_header_inv in H as [<- (hv & -> & Hm & Hv)].
  rewrite <- app_assoc. cbn [app]. rewrite header_end_eq in Hv |- *.
  assert (Hsk : forall l j, skip_line (hv ++ r) = (l, j) ->
            skip_line (m ++ ":"%chr :: hv ++ r) = (m ++ ":"%chr :: l, j)).
  { intros l j E. pose proof (skip_line_app (hv ++ r)) as Ha. rewrite E in Ha. simpl in Ha.
    rewrite <- Ha. apply skip_line_inv in E as (b & e & -> & Hb & He).
    replace (m ++ ":"%chr :: (b ++ e) ++ j) with ((m ++ ":"%chr :: b) ++ e ++ j)
      by (by rewrite <- !app_assoc).
    rewrite skip_line_shape; [by rewrite <- app_assoc | | done].
    apply Forall_app. split; [|by constructor]. apply (Forall_impl _ _ _ Hm), name_byte_not_eol. }
  destruct (skip_line (hv ++ r)) as [l j]. rewrite (Hsk l j eq_refl).
  destruct (starts_wsp j); [|by injection Hv as -> ->].
  destruct (header_end j) as [l' r']. injection Hv as <- ->. by rewrite <- app_assoc.
Qed.

(** A header put in front of a message takes over its leading continuation
    lines; no other header is affected. *)
Lemma swallow_fields name s :
  starts_wsp name = false -> name <> [] ->
  starts_wsp s = true ->
  List.filter (named name) (fields (header_end s).2) = List.filter (named name) (fields s) /\
  body (header_end s).2 = body s.
Proof.
  intros Hn Hne. induction s as [|s He|s n h r Hs He Es IH] using header_ind; intros Hw; [done| |].
  - exfalso. destruct s as [|c s]; [done|]. simpl in *. pose proof (tail_front (c :: s)) as Ht.
    simpl in Ht. rewrite Ht in Hw; [done|by right].
  - assert (Hnn : named name (Field n h) = false).
    { unfold named, is_named. cbn [f_name]. destruct n as [m|]; [|done].
      apply scan_header_inv in Es as [<- (hv & -> & Hm & _)].
      destruct (ieq m name) eqn:E; [|done]. apply ieq_spec in E. exfalso.
      destruct m as [|c m]; [by destruct name|]. destruct name as [|d name]; [done|].
      injection E as E _. simpl in Hw, Hn. unfold is_wsp in *. unfold tolower in E.
      revert E. repeat case_match; lia. }
    assert (Hf : List.filter (named name) (fields s) = List.filter (named name) (fields r) /\
                 body s = body r).
    { unfold fields, body. clear IH Hw. header_step s Hs He Es.
      destruct (parse_fields r) as [fs tl]. simpl. by rewrite Hnn. }
    destruct Hf as [-> ->]. destruct n as [m|]; [by rewrite (header_end_named _ _ _ _ Es)|].
    apply scan_header_inv in Es as [_ [Es _]]. rewrite header_end_eq, Es.
    destruct (starts_wsp r) eqn:Hr; [|done]. destruct (IH eq_refl) as [<- <-].
    by destruct (header_end r).
Qed.

Lemma received_fields v name s :
  value_ok v -> starts_wsp name = false -> name <> [] -> lower name <> lower (bs "Received") ->
  List.filter (named name) (fields (header_line (bs "Received") v ++ s))
  = List.filter (named name) (fields s) /\
  body (header_line (bs "Received") v ++ s) = body s.
Proof.
  intros Hv Hw Hne Hr.
  assert (Hsc : exists h r, scan_header (header_line (bs "Received") v ++ s)
                            = (Some (bs "Received"), h, r) /\
            r = if starts_wsp s then (header_end s).2 else s).
  { destruct (starts_wsp s) eqn:Es.
    - pose proof (header_end_app s) as Ha. destruct (header_end s) as [l r] eqn:El. simpl in Ha.
      exists (bs "Received" ++ ":"%chr :: (SP :: v ++ CRLF) ++ l), r. split; [|done].
      rewrite <- Ha.
      replace (header_line (bs "Received") v ++ l ++ r)
        with ((bs "Received" ++ ":"%chr :: (SP :: v ++ CRLF) ++ l) ++ r)
        by (unfold header_line; rewrite <- !app_assoc; cbn [app]; by rewrite <- !app_assoc).
      apply scan_header_some; [name_ok|]. rewrite <- app_assoc, Ha, header_end_eq.
      change (SP :: v ++ CRLF) with ((SP :: v) ++ CRLF). rewrite <- app_assoc, skip_line_shape;
        [by rewrite Es, El | constructor; [done|by apply value_not_eol] | auto].
    - exists (header_line (bs "Received") v), s. split; [|done]. apply header_line_scan; [name_ok|done|done]. }
  destruct Hsc as (h & r & Hsc & Hrr).
  assert (Hp : parse_fields (header_line (bs "Received") v ++ s)
               = (Field (Some (bs "Received")) h :: fields r, body r)).
  { rewrite parse_fields_eq. unfold header_line in *. cbn [bs] in *.
    rewrite Hsc. unfold fields, body. simpl. by destruct (parse_fields r). }
  unfold fields at 1, body at 1. rewrite Hp. cbn [fst snd List.filter].
  assert (named name (Field (Some (bs "Received")) h) = false) as ->.
  { unfold named. cbn [f_name is_named]. destruct (ieq _ name) eqn:E; [|done]. by apply ieq_spec in E. }
  rewrite Hrr. destruct (starts_wsp s) eqn:Es; [|done]. by apply swallow_fields.
Qed.

(** *** Lookup and replacement on the fields *)

Lemma header_get_spec s fuel name outsz :
  (length s < fuel)%nat ->
  header_get_loop fuel s name outsz
  = (fun f => extract_value (header_value name (f_raw f)) outsz)
      <$> List.find (named name) (fields s).
Proof.
  revert fuel. unfold fields. induction s as [|s He|s n h r Hs He Es IH] using header_ind;
    intros [|fuel] Hf; try lia; cbn [header_get_loop].
  - done.
  - rewrite parse_fields_eq. destruct s; [done|]. by rewrite He.
  - pose proof (scan_header_shorter _ _ _ _ Es Hs). header_step s Hs He Es.
    rewrite IH by (simpl in *; lia). destruct (parse_fields r) as [fs tl]. simpl.
    unfold named at 2. simpl. by destruct (is_named name n).
Qed.

Lemma set_scan_found fuel pre s name x : (header_set_scan fuel pre s name (Some x)).1 = Some x.
Proof.
  revert pre s. induction fuel as [|fuel IH]; intros pre s; [done|]. cbn [header_set_scan].
  destruct s as [|c s]; [done|]. destruct (starts_eol _); [done|].
  destruct (scan_header _) as [[n h] r]. destruct (is_named name n); apply IH.
Qed.

Lemma header_set_scan_present s fuel pre name fs1 f fs2 :
  (length s < fuel)%nat -> fields s = fs1 ++ f :: fs2 ->
  List.filter (named name) fs1 = [] -> named name f = true ->
  (header_set_scan fuel pre s name None).1
  = Some (pre ++ concat (map f_raw fs1), flatten fs2 (body s)).
Proof.
  revert fuel pre fs1. induction s as [|s He|s n h r Hs He Es IH] using header_ind;
    intros [|fuel] pre fs1 Hf Hp H1 H2; try lia; cbn [header_set_scan].
  - by destruct fs1.
  - unfold fields in Hp. rewrite parse_fields_eq in Hp. destruct s; [by destruct fs1|].
    rewrite He in Hp. by destruct fs1.
  - pose proof (scan_header_shorter _ _ _ _ Es Hs) as Hlt. pose proof (parse_flatten r) as Hr.
    revert Hp. unfold fields, body in *. header_step s Hs He Es.
    destruct (parse_fields r) as [fs tl] eqn:Er. cbn [fst snd] in *.
    destruct fs1 as [|g fs1]; intros [= Hg ->]; subst; cbn [List.filter] in H1.
    + unfold named in H2. cbn [f_name] in H2. rewrite H2, set_scan_found. cbn. by rewrite app_nil_r.
    + destruct (named name (Field n h)) eqn:E; [done|]. unfold named in E. cbn [f_name] in E.
      rewrite E. rewrite (IH fuel (pre ++ h) fs1) by (simpl in *; (lia || done)).
      cbn [map concat f_raw]. by rewrite <- app_assoc.
Qed.

(** The first field of that name replaced, or a new field at the end. *)
Fixpoint replace_first (name value : bytes) (fs : list field) : option (list field) :=
  match fs with
  | [] => None
  | f :: fs' =>
      if named name f then Some (new_field name value :: fs')
      else cons f <$> replace_first name value fs'
  end.

Definition set_first (name value : bytes) (fs : list field) : list field :=
  match replace_first name value fs with
  | Some fs' => fs'
  | None => complete fs ++ [new_field name value]
  end.

Lemma replace_first_spec name v fs :
  match replace_first name v fs with
  | Some fs' => exists fs1 f fs2, fs = fs1 ++ f :: fs2 /\ fs' = fs1 ++ new_field name v :: fs2 /\
                  List.filter (named name) fs1 = [] /\ named name f = true
  | None => List.filter (named name) fs = []
  end.
Proof.
  induction fs as [|f fs IH]; [done|]. cbn [replace_first].
  destruct (named name f) eqn:E; [by exists [], f, fs|].
  destruct (replace_first name v fs) as [fs'|]; cbn.
  - destruct IH as (fs1 & g & fs2 & -> & -> & H1 & H2). exists (f :: fs1), g, fs2. simpl. by rewrite E.
  - by rewrite E.
Qed.

Lemma find_first (p : field -> bool) fs1 f fs2 :
  List.filter p fs1 = [] -> p f = true -> List.find p (fs1 ++ f :: fs2) = Some f.
Proof.
  intros H1 H2. induction fs1 as [|g fs1 IH]; simpl in *; [by rewrite H2|].
  destruct (p g); [done|]. by apply IH.
Qed.

Lemma set_chain name v fs tl :
  name_ok name -> value_ok v -> chain fs tl ->
  mail_header_set (flatten fs tl) name v = Some (flatten (set_first name v fs) tl) /\
  chain (set_first name v fs) tl.
Proof.
  intros Hn Hv Hc. pose proof (replace_first_spec name v fs) as Hr. unfold set_first.
  destruct (replace_first name v fs) as [fs'|].
  - destruct Hr as (fs1 & f & fs2 & -> & -> & H1 & H2). pose proof (parse_chain _ _ Hc) as Hp.
    assert (Hcf : chain (f :: fs2) tl) by (clear -Hc; induction fs1; [done|]; apply IHfs1, Hc).
    split.
    + unfold mail_header_set. destruct (name_ok_guard _ Hn) as [-> ->]. rewrite (value_ok_guard _ Hv).
      pose proof (header_set_scan_present (flatten (fs1 ++ f :: fs2) tl)
        (S (length (flatten (fs1 ++ f :: fs2) tl))) [] name fs1 f fs2 ltac:(lia)) as Hs.
      unfold fields, body in Hs. rewrite Hp in Hs. specialize (Hs eq_refl H1 H2).
      destruct (header_set_scan _ _ _ _ _) as [found [pre post]]. simpl in Hs. rewrite Hs.
      f_equal. rewrite flatten_app, (flatten_cons (new_field _ _)). reflexivity.
    + apply (chain_extend _ (f :: fs2)); [done | | | by apply new_field_front].
      * apply (chain_lf _ (f :: fs2) tl); [done|]. intros E. by apply chain_empty in E.
      * destruct Hcf as (_ & _ & Hw & Hcf). apply chain_new; try done.
        by apply Hw, (named_some name).
  - split; [by apply set_chain_absent | by apply chain_append].
Qed.

Lemma trim_end_all p (s t : bytes) : Forall (fun c => p c = true) t -> trim_end p (s ++ t) = trim_end p s.
Proof.
  intros Ht. induction t as [|c t IH] using rev_ind; [by rewrite app_nil_r|].
  apply Forall_app in Ht as [Ht Hc]. inversion_clear Hc.
  rewrite app_assoc. unfold trim_end. rewrite reverse_app. simpl. rewrite H. by apply IH.
Qed.

Lemma extract_header_line name v outsz :
  value_ok v -> (length v < outsz)%nat ->
  extract_value (header_value name (header_line name v)) outsz = trim is_wsp v.
Proof.
  intros Hv Hsz. unfold header_value, header_line.
  replace (drop (S (length name)) _) with (SP :: v ++ CRLF).
  2:{ induction name; [done|]. simpl. done. }
  unfold extract_value, trim. cbn [drop_while]. change (is_wsp SP) with true. cbv iota.
  pose proof (value_not_eol _ Hv) as Hne.
  assert (Hd : drop_while is_wsp (v ++ CRLF) = drop_while is_wsp v ++ CRLF).
  { clear. induction v as [|c v IH]; [done|]. simpl. by destruct (is_wsp c). }
  assert (Hne' : Forall (fun c => not_eol c = true) (drop_while is_wsp v)).
  { pose proof (take_drop_while is_wsp v) as E. rewrite <- E in Hne. by apply Forall_app in Hne as [_ ?]. }
  assert (Hu : forall w fuel, Forall (fun c => not_eol c = true) w -> (length w + 2 <= fuel)%nat ->
                 unfold_loop fuel (w ++ CRLF) = w ++ [SP]).
  { clear. induction w as [|c w IH]; intros [|fuel] Hw Hf; simpl in Hf; try lia.
    - destruct fuel; [lia|]. done.
    - inversion_clear Hw as [|? ? Hc Hw']. cbn [app unfold_loop]. unfold not_eol in Hc.
      destruct (is_eol c); [done|]. rewrite IH by (done || lia). done. }
  assert (Hle : (length (drop_while is_wsp v) <= length v)%nat).
  { rewrite <- (take_drop_while is_wsp v) at 2. rewrite length_app. lia. }
  rewrite Hd, Hu by (done || (simpl; rewrite ?length_app; simpl; lia)).
  rewrite take_app. rewrite take_ge by lia. apply trim_end_all.
  apply Forall_take. repeat constructor.
Qed.

(** C33: The whole forward-sanitise pipeline, on every input: it fails exactly
    when a trusted value carries CR or LF or the size test refuses the message.
    Otherwise the output is the caller's Received line, then the header fields of
    the CRLF-normalised input in their order, less every field of a rewritten
    name and every DKIM-Signature, then the trusted values, then the body byte
    for byte. *)
Theorem mail_sanitize_for_forward_spec (inp : bytes) (rw : MailRewrite) :
  mail_sanitize_for_forward inp rw =
  if contains_crlf (rw_received rw) || contains_crlf (rw_return_path rw) ||
     contains_crlf (rw_from rw) || contains_crlf (rw_sender rw) ||
     contains_crlf (rw_reply_to rw) || (len inp >? (SIZE_MAX - 1) / 2)
  then None
  else Some (received_line rw ++
             flatten (sanitized rw (fields (crlf_norm inp))) (body (crlf_norm inp))).
Proof.
  destruct (_ || (len inp >? _)) eqn:E.
  - unfold mail_sanitize_for_forward. apply orb_true_iff in E as [->|E]; [done|].
    rewrite E. by destruct (_ || _).
  - rewrite !orb_false_iff in E. destruct E as [[[[[H0 H1] H2] H3] H4] H5].
    apply sanitize_eq; try done. lia.
Qed.

(** No spoofed or stale header survives forwarding. Whatever the input
    bytes (bare CR or LF, folded lines, mixed case, duplicates, no blank line),
    when sanitising succeeds the output, scanned again, has exactly one field for
    each rewritten header and it is the caller's, has no DKIM-Signature field,
    and has the body of the normalised input. *)
Theorem mail_sanitize_no_spoof (inp : bytes) (rw : MailRewrite) (out : bytes)
  (H : mail_sanitize_for_forward inp rw = Some out) :
  (forall name v, (name, v) ∈ rewritten rw ->
     List.filter (named name) (fields out) = [new_field name v]) /\
  List.filter (named (bs "DKIM-Signature")) (fields out) = [] /\
  body out = body (crlf_norm inp).
Proof.
  assert (Hg : opt_value_ok (rw_received rw) /\ opt_value_ok (rw_return_path rw) /\
               opt_value_ok (rw_from rw) /\ opt_value_ok (rw_sender rw) /\
               opt_value_ok (rw_reply_to rw) /\ len inp <= (SIZE_MAX - 1) / 2).
  { unfold mail_sanitize_for_forward in H. revert H.
    destruct (_ || contains_crlf (rw_reply_to rw)) eqn:E; [done|].
    destruct (Z.gtb_spec (len inp) ((SIZE_MAX - 1) / 2)); [done|].
    rewrite !orb_false_iff in E. unfold opt_value_ok. naive_solver. }
  destruct Hg as (H0 & H1 & H2 & H3 & H4 & Hlen).
  rewrite sanitize_eq in H by done. injection H as <-.
  pose proof (chain_parse _ (crlf_norm_ok inp)) as Hc.
  pose proof (parse_chain _ _ (sanitized_chain rw _ _ H1 H2 H3 H4 Hc)) as Hp.
  set (s := flatten (sanitized _ _) _) in *.
  assert (Hf : forall name, name_ok name -> lower name <> lower (bs "Received") ->
    List.filter (named name) (fields (received_line rw ++ s))
    = List.filter (named name) (sanitized rw (fields (crlf_norm inp))) /\
    body (received_line rw ++ s) = body (crlf_norm inp)).
  { intros name (Hne & Hw & _) Hr. replace (sanitized _ _) with (fields s) by (unfold fields; by rewrite Hp).
    replace (body (crlf_norm inp)) with (body s) by (unfold body at 1; by rewrite Hp).
    unfold received_line. destruct (rw_received rw) as [v|]; [|done].
    apply received_fields; try done. by apply opt_value_some. }
  split; [|split].
  - intros name v Hin. unfold rewritten in Hin. apply list_elem_of_omap in Hin as ([n o] & Hin & Ho).
    destruct o as [v'|]; [|done]. injection Ho as -> ->.
    repeat (apply elem_of_cons in Hin as [Hv|Hin]; [injection Hv as -> Hv|]); [..|by apply elem_of_nil in Hin];
      (etransitivity; [apply Hf; [name_ok|done] |]); unfold sanitized; rewrite <- ?Hv;
      rewrite without_other by done; repeat (apply set_field_keep; [done|]);
      apply set_field_new.
  - etransitivity; [apply Hf; [name_ok|done]|]. apply without_none.
  - apply (Hf (bs "From")); [name_ok|done].
Qed.

Lemma mail_sanitize_no_spoof_witness :
  let rw := {| rw_received := Some (bs "by visage"); rw_return_path := None;
               rw_from := Some (bs "<r@x>"); rw_sender := None; rw_reply_to := None |} in
  let inp := bs " folded" ++ [LF] ++ bs "FROM: evil" ++ [CR] ++ bs "from: evil" ++ [LF; LF] ++ bs "hi" in
  let out := bs "Received: by visage" ++ CRLF ++ bs " folded" ++ CRLF ++ bs "From: <r@x>" ++ CRLF
             ++ CRLF ++ bs "hi" in
  mail_sanitize_for_forward inp rw = Some out /\
  List.filter (named (bs "From")) (fields out) = [new_field (bs "From") (bs "<r@x>")].
Proof.
  intros rw inp out. split; [by vm_compute|].
  apply (mail_sanitize_no_spoof inp rw out); [by vm_compute|]. vm_compute. constructor.
Defined.

(** Setting a header and looking it up again. On a normalised message, for
    a well-formed name and a value without CR or LF, [mail_header_set] succeeds;
    it replaces the first field of that name (or appends one before the blank
    line, completing an unterminated last line), keeps every other field and the
    body, and [mail_header_get] with a large enough buffer then returns the
    value, trimmed. *)
Theorem mail_header_set_get (msg name v : bytes) (outsz : nat)
  (Hmsg : crlf_ok msg = true) (Hn : name_ok name) (Hv : value_ok v) (Hsz : (length v < outsz)%nat) :
  exists msg', mail_header_set msg name v = Some msg' /\
    parse_fields msg' = (set_first name v (fields msg), body msg) /\
    mail_header_get msg' name outsz = Some (trim is_wsp v).
Proof.
  destruct (set_chain name v _ _ Hn Hv (chain_parse _ Hmsg)) as [Hs Hc].
  rewrite parse_flatten in Hs. eexists. split; [exact Hs|].
  pose proof (parse_chain _ _ Hc) as Hp. split; [done|].
  unfold mail_header_get. destruct (name_ok_guard _ Hn) as [-> _].
  destruct (Nat.eqb_spec outsz 0) as [|]; [lia|]. cbn [orb].
  rewrite header_get_spec by lia. unfold fields at 1. rewrite Hp. cbn [fst].
  assert (Hnew : named name (new_field name v) = true) by (by apply ieq_spec).
  assert (Hfd : List.find (named name) (set_first name v (fields msg)) = Some (new_field name v)).
  { unfold set_first. pose proof (replace_first_spec name v (fields msg)) as Hr.
    destruct (replace_first _ _ _) as [fs'|].
    - destruct Hr as (fs1 & f & fs2 & _ & -> & H1 & _). by apply find_first.
    - apply find_first; [|done].
      destruct (complete_cases (fields msg)) as [->|(fs0 & f & E & _ & ->)]; [done|].
      rewrite E in Hr. rewrite List.filter_app in Hr |- *. apply app_eq_nil in Hr as [-> Hr].
      revert Hr. simpl. unfold named. simpl. by destruct (is_named _ _). }
  rewrite Hfd. simpl. by rewrite extract_header_line.
Qed.

Lemma mail_header_set_get_witness :
  exists msg', mail_header_set (bs "A: b" ++ CRLF ++ CRLF ++ bs "x") (bs "To") (bs " me ") = Some msg' /\
    parse_fields msg' = (set_first (bs "To") (bs " me ") (fields (bs "A: b" ++ CRLF ++ CRLF ++ bs "x")),
                         body (bs "A: b" ++ CRLF ++ CRLF ++ bs "x")) /\
    mail_header_get msg' (bs "To") 80 = Some (bs "me").
Proof.
  apply (mail_header_set_get _ (bs "To") (bs " me ") 80); [done | name_ok | done | simpl; lia].
Defined.
