(* ===== verification/SmtpData.v ===== *)
(** * The SMTP DATA phase (src/src/smtp_in.c, src/src/smtp_out.c)

    The resumable end-of-message scan of the receiver ([data_scan]) and the
    framing of the sender (of [smtp_send_data]).  The scan is modelled on the bytes
    from its resume offset on: [ls] is [line_start], [cur] the bytes of the
    current line already passed ([buf[line_start..i)]) and [rest] the bytes
    [buf[i..len)]. *)

From S2P Require Import Prelude MailLines.

(** ** The receiver's scan *)

(** How the loop of [data_scan] ends. *)
Inductive loop_end :=
  | LoopFound (msg_end term_len : nat)   (** [return 1] *)
  | LoopLimit                            (** [return -1] inside the loop *)
  | LoopEnd (line_start : nat) (trailing_cr : bool). (** the loop ran out of bytes *)

(** A line whose content is a single dot. *)
Definition is_dot_line (content : bytes) : bool :=
  match content with [c] => c =? "."%chr | _ => false end.

(** The content of a line ended by LF: without the CR of a CRLF. *)
Definition line_content (cur : bytes) : bytes :=
  match last cur with
  | Some c => if c =? CR then take (length cur - 1) cur else cur
  | None => cur
  end.

Fixpoint data_scan_loop (line_max : Z) (ls : nat) (cur rest : bytes) : loop_end :=
  match rest with
  | [] => LoopEnd ls false
  | ch :: rest' =>
      let next := (ls + length cur + 1)%nat in
      if ch =? LF then
        let content := line_content cur in
        if len content >? line_max then LoopLimit
        else if is_dot_line content then LoopFound ls (length cur + 1)
        else data_scan_loop line_max next [] rest'
      else if ch =? CR then
        if (match rest' with x :: _ => x =? LF | [] => false end)
        then data_scan_loop line_max ls (cur ++ [ch]) rest'
        else if len cur >? line_max then LoopLimit
        else if is_dot_line cur then LoopFound ls (length cur + 1)
        else if (match rest' with [] => true | _ => false end) then LoopEnd ls true
        else data_scan_loop line_max next [] rest'
      else data_scan_loop line_max ls (cur ++ [ch]) rest'
  end.

Inductive scan_result :=
  | ScanFound (msg_end term_len : nat)
  | ScanMore (scan_pos : nat)
  | ScanLimit.

Definition data_scan (buf : bytes) (max_line max_total : Z) (scan_pos : nat) : scan_result :=
  let line_max := max_line + 1 in
  match data_scan_loop line_max scan_pos [] (drop scan_pos buf) with
  | LoopFound e t => ScanFound e t
  | LoopLimit => ScanLimit
  | LoopEnd ls trailing_cr =>
      if len buf >? max_total then ScanLimit
      else if negb trailing_cr && (len buf - Z.of_nat ls >? line_max) then ScanLimit
      else ScanMore ls
  end.

(** ** The sender's framing *)

(** What [smtp_send_data] puts on the wire for a body. *)
Definition data_frame (body : bytes) : bytes :=
  mail_stuff_dots body ++ [CR; LF; "."%chr; CR; LF].

(** ** Lemmas on the scan *)

(** Bytes that are not line endings are passed over. *)
Lemma scan_plain lm ls cur s r :
  Forall (fun c => is_eol c = false) s ->
  data_scan_loop lm ls cur (s ++ r) = data_scan_loop lm ls (cur ++ s) r.
Proof.
  intros Hs. revert cur. induction Hs as [|c s Hc _ IH]; intros cur.
  - by rewrite app_nil_r.
  - unfold is_eol in Hc. apply orb_false_iff in Hc as [HCR HLF].
    cbn [app data_scan_loop]. rewrite HLF, HCR, IH, <- app_assoc. done.
Qed.

Definition plain (s : bytes) : Prop := Forall (fun c => is_eol c = false) s.

(** What a scan that ran out of bytes says about the line it stopped in. *)
Lemma scan_end_split lm rest ls cur p tr r :
  plain cur \/ (exists cur' rest', cur = cur' ++ [CR] /\ rest = LF :: rest') ->
  data_scan_loop lm ls cur rest = LoopEnd p tr ->
  (ls <= p <= ls + length (cur ++ rest))%nat /\
  data_scan_loop lm ls cur (rest ++ r)
  = data_scan_loop lm p [] (drop (p - ls) (cur ++ rest) ++ r).
Proof.
  revert ls cur. induction rest as [|ch rest IH]; intros ls cur Hcur Hend.
  - injection Hend as <- <-. destruct Hcur as [Hcur|(?&?&_&?)]; [|discriminate].
    rewrite !app_nil_r, Nat.sub_diag, drop_0. split; [lia|]. by rewrite (scan_plain lm ls [] cur r).
  - cbn [data_scan_loop] in Hend. cbn [app data_scan_loop]. rewrite length_app. cbn [length].
    set (next := (ls + length cur + 1)%nat) in *.
    assert (Hnext : data_scan_loop lm next [] rest = LoopEnd p tr ->
      (ls <= p <= ls + (length cur + S (length rest)))%nat /\
      data_scan_loop lm next [] (rest ++ r)
      = data_scan_loop lm p [] (drop (p - ls) (cur ++ ch :: rest) ++ r)).
    { intros Hp. apply IH in Hp as [Hle ->]; [|by left; constructor].
      cbn [app] in Hle |- *. split; [lia|].
      replace (p - ls)%nat with (length cur + S (p - next))%nat by lia.
      by rewrite drop_app_add. }
    destruct (Z.eqb_spec ch LF) as [->|HLF].
    + destruct (_ >? lm); [done|]. destruct (is_dot_line _); [done|]. by apply Hnext.
    + destruct Hcur as [Hcur|(?&?&_&[= ? ?])]; [|congruence].
      destruct (Z.eqb_spec ch CR) as [->|HCR].
      * destruct rest as [|x rest].
        { destruct (_ >? lm) eqn:E1; [done|]. destruct (is_dot_line cur) eqn:E2; [done|].
          injection Hend as <- <-. split; [lia|].
          rewrite Nat.sub_diag, drop_0, <- app_assoc, (scan_plain lm ls []) by done.
          cbn [app data_scan_loop]. by rewrite E1, E2. }
        cbn [app]. destruct (Z.eqb_spec x LF) as [->|Hx].
        { apply IH in Hend as [Hle Heq]; [|right; eauto].
          rewrite <- app_assoc in Hle, Heq. rewrite length_app in Hle. cbn [app length] in *.
          split; [lia | done]. }
        destruct (_ >? lm); [done|]. destruct (is_dot_line _); [done|]. by apply Hnext.
      * apply IH in Hend as [Hle Heq].
        { rewrite <- app_assoc in Hle, Heq. rewrite length_app in Hle. cbn [app length] in *.
          split; [lia | done]. }
        left. apply Forall_app. split; [done|]. constructor; [chars | constructor].
Qed.

(** Scanning on from the resume offset gives what a scan from the start gives. *)
Lemma data_scan_resume ml mt buf1 buf2 q p :
  (q <= length buf1)%nat ->
  data_scan buf1 ml mt q = ScanMore p ->
  (q <= p <= length buf1)%nat /\
  data_scan (buf1 ++ buf2) ml mt p = data_scan (buf1 ++ buf2) ml mt q.
Proof.
  unfold data_scan. intros Hq H.
  destruct (data_scan_loop _ q [] (drop q buf1)) as [| |ls tr] eqn:E; try done.
  destruct (_ >? mt); [done|]. destruct (_ && _); [done|]. injection H as ->.
  apply (scan_end_split _ _ _ _ _ _ buf2) in E as [Hle Heq]; [|by left; constructor].
  cbn [app] in Hle, Heq. rewrite length_drop in Hle. split; [lia|].
  rewrite !drop_app_le by lia.
  rewrite drop_drop in Heq. replace (q + (p - q))%nat with p in Heq by lia.
  by rewrite Heq.
Qed.

(** ** Chunked input *)

(** The receiver appends each chunk and scans from the saved offset ... *)
Fixpoint scan_chunks (ml mt : Z) (buf : bytes) (pos : nat) (chunks : list bytes) : scan_result :=
  match chunks with
  | [] => ScanMore pos
  | ch :: rest =>
      match data_scan (buf ++ ch) ml mt pos with
      | ScanMore p => scan_chunks ml mt (buf ++ ch) p rest
      | r => r
      end
  end.

(** ... a receiver without a saved offset would scan from the start each time. *)
Fixpoint rescan_chunks (ml mt : Z) (buf : bytes) (pos : nat) (chunks : list bytes) : scan_result :=
  match chunks with
  | [] => ScanMore pos
  | ch :: rest =>
      match data_scan (buf ++ ch) ml mt 0 with
      | ScanMore p => rescan_chunks ml mt (buf ++ ch) p rest
      | r => r
      end
  end.

Lemma scan_chunks_rescan ml mt chunks buf pos :
  (pos <= length buf)%nat ->
  (forall ch, data_scan (buf ++ ch) ml mt pos = data_scan (buf ++ ch) ml mt 0) ->
  scan_chunks ml mt buf pos chunks = rescan_chunks ml mt buf pos chunks.
Proof.
  revert buf pos. induction chunks as [|ch rest IH]; intros buf pos Hpos Heq; [done|].
  cbn [scan_chunks rescan_chunks]. rewrite Heq.
  destruct (data_scan (buf ++ ch) ml mt 0) as [| p |] eqn:E; try done.
  pose proof (data_scan_resume ml mt (buf ++ ch) [] 0 p ltac:(lia) E) as [Hle _].
  apply IH; [lia|]. intros chp.
  by destruct (data_scan_resume ml mt (buf ++ ch) chp 0 p ltac:(lia) E).
Qed.

(** Resuming the DATA scan at its saved offset, chunk after chunk, gives
    exactly the verdict (terminator position, limit error or resume offset) that
    re-scanning the whole accumulated buffer after every chunk would give,
    however the bytes are split. *)
Theorem data_scan_resumable (max_line max_total : Z) (chunks : list bytes) :
  scan_chunks max_line max_total [] 0 chunks = rescan_chunks max_line max_total [] 0 chunks.
Proof. by apply scan_chunks_rescan. Qed.

(** ** Transparency of the framing *)

(** No line of [s] (no run of bytes between line endings) is longer than
    [limit]; [n] bytes of the current line have been seen. *)
Fixpoint lines_fit (limit n : Z) (s : bytes) : bool :=
  match s with
  | [] => n <=? limit
  | c :: t => if is_eol c then (n <=? limit) && lines_fit limit 0 t
              else lines_fit limit (n + 1) t
  end.

(** A prefix of a stuffed line: it can not become the line ".". *)
Definition safe_line (cur : bytes) : Prop :=
  plain cur /\
  match cur with
  | c :: d :: _ => c <> "."%chr \/ d = "."%chr
  | [c] => c <> "."%chr
  | [] => True
  end.

Lemma safe_line_snoc cur c :
  safe_line cur -> cur <> [] -> is_eol c = false -> safe_line (cur ++ [c]).
Proof.
  intros [Hp Hs] Hne Hc. split.
  - apply Forall_app. split; [done | by repeat constructor].
  - destruct cur as [|x [|y cur]]; [done | by left | done].
Qed.

Lemma safe_line_not_dot cur : safe_line cur -> is_dot_line cur = false.
Proof. intros [_ H]. destruct cur as [|x [|y cur]]; try done. by apply Z.eqb_neq. Qed.

Lemma plain_content cur : plain cur -> line_content cur = cur.
Proof.
  intros Hp. unfold line_content. destruct cur as [|c cur _] using rev_ind; [done|].
  rewrite last_snoc. apply Forall_app in Hp as [_ Hc]. inversion Hc; subst.
  destruct (Z.eqb_spec c CR); [chars | done].
Qed.

Lemma content_cr cur : line_content (cur ++ [CR]) = cur.
Proof.
  unfold line_content. rewrite last_snoc. simpl. rewrite length_app. simpl.
  rewrite Nat.add_sub. apply take_app_length.
Qed.

(** A safe line that fits and ends with CRLF, LF or a bare CR is passed over. *)
Lemma scan_line_lf lm ls cur r :
  safe_line cur -> len cur <= lm ->
  data_scan_loop lm ls cur (LF :: r) = data_scan_loop lm (ls + length cur + 1) [] r.
Proof.
  intros Hs Hl. cbn [data_scan_loop]. simpl Z.eqb. cbv iota.
  rewrite plain_content by apply Hs. rewrite safe_line_not_dot by done.
  by destruct (Z.gtb_spec (len cur) lm); [lia|].
Qed.

Lemma scan_line_crlf lm ls cur r :
  safe_line cur -> len cur <= lm ->
  data_scan_loop lm ls cur (CR :: LF :: r) = data_scan_loop lm (ls + length cur + 2) [] r.
Proof.
  intros Hs Hl. cbn [data_scan_loop]. simpl Z.eqb. cbv iota.
  rewrite content_cr, safe_line_not_dot, length_app by done.
  destruct (Z.gtb_spec (len cur) lm); [lia|]. f_equal. simpl. lia.
Qed.

Lemma scan_line_cr lm ls cur r :
  safe_line cur -> len cur <= lm -> r <> [] -> head r <> Some LF ->
  data_scan_loop lm ls cur (CR :: r) = data_scan_loop lm (ls + length cur + 1) [] r.
Proof.
  intros Hs Hl Hr Hh. cbn [data_scan_loop]. simpl Z.eqb. cbv iota.
  destruct r as [|x r]; [done|]. destruct (Z.eqb_spec x LF) as [->|]; [done|].
  rewrite safe_line_not_dot by done. by destruct (Z.gtb_spec (len cur) lm); [lia|].
Qed.

Abbreviation end_of_data := [CR; LF; "."%chr; CR; LF].

Lemma lines_fit_bound limit n s : lines_fit limit n s = true -> n <= limit.
Proof.
  revert n. induction s as [|c s IH]; intros n; cbn [lines_fit]; [lia|].
  destruct (is_eol c); [lia|]. intros H%IH. lia.
Qed.

(** The bytes after a bare CR of a stuffed text do not start with LF. *)
Lemma stuff_head_not_lf t extra :
  head t <> Some LF -> head (stuff_loop true t ++ end_of_data ++ extra) <> Some LF.
Proof.
  destruct t as [|c t]; [done|]. intros Hc. cbn [stuff_loop andb].
  destruct (c =? "."%chr); [done|]. simpl. intros [= ->]. done.
Qed.

(** The scan of a stuffed text ends at the terminator that follows it.  [als]
    is the sender's line-start flag, [cur] the receiver's current line, [n] the
    unstuffed length of that line. *)
Lemma scan_stuffed ml extra m als cur n ls :
  safe_line cur -> (cur = [] <-> als = true) -> 0 <= n -> len cur <= n + 1 ->
  lines_fit ml n m = true ->
  data_scan_loop (ml + 1) ls cur (stuff_loop als m ++ end_of_data ++ extra)
  = LoopFound (ls + length cur + length (stuff_loop als m) + 2) 3.
Proof.
  revert als cur n ls. induction m as [m IH] using bytes_len_ind.
  intros als cur n ls Hsafe Hals Hn0 Hlen Hfit. pose proof (lines_fit_bound _ _ _ Hfit) as Hn.
  destruct m as [|c t].
  { cbn [stuff_loop app]. rewrite scan_line_crlf by (done || lia).
    cbn [data_scan_loop length app]. simpl Z.eqb. cbv iota.
    destruct (Z.gtb_spec (len (line_content ["."%chr; CR])) (ml + 1)) as [Hgt|].
    { unfold line_content in Hgt. simpl in Hgt. lia. }
    simpl. f_equal; lia. }
  assert (Hnil : safe_line []) by (split; [constructor | done]).
  cbn [stuff_loop lines_fit] in *. destruct (is_eol c) eqn:Hc.
  - apply andb_true_iff in Hfit as [_ Hfit].
    rewrite (proj2 (andb_false_iff _ _)) by (right; chars). cbn [app length].
    destruct (Z.eqb_spec c LF) as [->|HLF].
    + rewrite scan_line_lf by (done || lia). cbn [orb].
      rewrite (IH t) with (n := 0); [|simpl; lia |done..|simpl; lia |done].
      f_equal. simpl. lia.
    + assert (c = CR) as -> by chars. simpl Z.eqb. cbn [orb].
      destruct (decide (head t = Some LF)) as [Ht|Ht].
      * destruct t as [|x t]; [done|]. injection Ht as ->. cbn [stuff_loop andb app length].
        simpl Z.eqb. cbn [orb app]. rewrite scan_line_crlf by (done || lia).
        cbn [lines_fit] in Hfit. simpl is_eol in Hfit. apply andb_true_iff in Hfit as [_ Hfit].
        rewrite (IH t) with (n := 0); [|simpl; lia |done..|simpl; lia |done].
        f_equal. simpl. lia.
      * rewrite scan_line_cr; [|done|lia| |by apply stuff_head_not_lf].
        { rewrite (IH t) with (n := 0); [|simpl; lia |done..|simpl; lia |done].
          f_equal. simpl. lia. }
        destruct (stuff_loop true t); done.
  - assert (Heol : (c =? LF) || (c =? CR) = false) by chars. rewrite Heol.
    destruct (als && (c =? "."%chr)) eqn:Hdot.
    + apply andb_true_iff in Hdot as [-> ->%Z.eqb_eq].
      rewrite (proj2 Hals eq_refl) in *. cbn [app length data_scan_loop]. simpl Z.eqb. cbv iota.
      rewrite (IH t) with (n := n + 1); [|simpl; lia | by split; repeat constructor; right
        | done | lia | simpl; lia | done].
      f_equal. simpl. lia.
    + cbn [app length data_scan_loop]. rewrite (proj1 (orb_false_elim _ _ Heol)),
        (proj2 (orb_false_elim _ _ Heol)).
      rewrite (IH t) with (n := n + 1); try (simpl; lia); try done.
      * rewrite length_app. f_equal. simpl. lia.
      * destruct als; [|apply safe_line_snoc; [done | by rewrite Hals | done]].
        rewrite (proj2 Hals eq_refl) in *. split; [by repeat constructor|].
        by apply Z.eqb_neq.
      * by destruct cur.
      * rewrite length_app. simpl. lia.
Qed.

(** C32: Transparency of the DATA phase.  For a body whose lines respect the
    receiver's limit, the receiver's scan of what [smtp_send_data] writes
    (followed by any pipelined bytes) finds the end of the message exactly at
    the sender's terminator, never inside the body; unstuffing the bytes before
    it gives the body followed by the one CRLF the sender adds, and the bytes
    after it are the pipelined ones. *)
Theorem smtp_data_transparent (body extra : bytes) (max_line max_total : Z)
  (Hfit : lines_fit max_line 0 body = true) :
  let wire := data_frame body ++ extra in
  let msg_end := (length (mail_stuff_dots body) + 2)%nat in
  data_scan wire max_line max_total 0 = ScanFound msg_end 3 /\
  mail_unstuff_dots (take msg_end wire) = body ++ CRLF /\
  drop (msg_end + 3) wire = extra.
Proof.
  assert (Hw : data_frame body ++ extra
               = (mail_stuff_dots body ++ CRLF) ++ ["."%chr; CR; LF] ++ extra).
  { unfold data_frame. by rewrite <- !app_assoc. }
  assert (Hl : (length (mail_stuff_dots body) + 2)%nat
               = length (mail_stuff_dots body ++ CRLF)) by (rewrite length_app; done).
  split; [|split].
  - unfold data_scan, data_frame, mail_stuff_dots. rewrite drop_0, <- app_assoc.
    rewrite (scan_stuffed max_line extra body true [] 0 0);
      [done | by split; [constructor|] | done | done | simpl; lia | done].
  - cbn zeta. rewrite Hw, Hl, take_app_length. unfold mail_unstuff_dots, mail_stuff_dots.
    rewrite unstuff_stuff_app. by destruct (als_after true body).
  - cbn zeta. by rewrite Hw, Hl, drop_app_add.
Qed.

Lemma smtp_data_transparent_witness :
  data_scan (data_frame (bs ".hi" ++ CRLF ++ bs ".") ++ bs "QUIT") 998 100 0
  = ScanFound 10 3.
Proof. apply (smtp_data_transparent (bs ".hi" ++ CRLF ++ bs ".") (bs "QUIT") 998 100). reflexivity. Defined.
