(* ===== verification/HttpParse.v ===== *)
(** * Incremental HTTP request framing (src/src/http_parse.c)

    The request probe of the admin server and the helpers it is built from. The
    server calls the probe on everything received so far, after each read, so
    its verdict on a prefix has to agree with its verdict on more bytes. *)

From S2P Require Import Prelude.

Definition HTTP_MAX_REQ : Z := 65536.

(** [HTTP_PARSE_NEED_MORE], [HTTP_PARSE_DONE] with [*header_end] and
    [*body_len], [HTTP_PARSE_ERR]. *)
Inductive verdict := NeedMore | Done (header_end : nat) (body_len : Z) | Err.

(** [http_ci_eq]: equal over exactly [n] bytes, ignoring ASCII case. *)
Fixpoint http_ci_eq (a b : bytes) (n : nat) : bool :=
  match n with
  | O => true
  | S n' =>
      match a, b with
      | ca :: a', cb :: b' => (tolower ca =? tolower cb) && http_ci_eq a' b' n'
      | _, _ => false
      end
  end.

(** [http_find_header_end]: [None] for SIZE_MAX. *)
Fixpoint http_find_header_end (buf : bytes) : option nat :=
  match buf with
  | a :: t =>
      match t with
      | b :: c :: d :: _ =>
          if (a =? CR) && (b =? LF) && (c =? CR) && (d =? LF) then Some 4%nat
          else S <$> http_find_header_end t
      | _ => None
      end
  | [] => None
  end.

Definition line_byte (c : Z) : bool := negb (is_eol c).

(** The loop of [http_header_value]: one line per step, then the bytes of its
    line break. [Some None] when the value does not fit [outsz]. *)
Fixpoint header_value_loop (fuel : nat) (s name : bytes) (outsz : nat) : option bytes :=
  match fuel with
  | O => None
  | S fuel' =>
      match s with
      | [] => None
      | _ =>
          let line := take_while line_byte s in
          let nl := length name in
          if (nl <? length line)%nat && http_ci_eq s name nl && (nth nl s 0 =? ":"%chr) then
            let v := trim_end is_wsp (drop_while is_wsp (drop (S nl) line)) in
            if (outsz <? length v + 1)%nat then None else Some v
          else header_value_loop fuel' (drop_while is_eol (drop (S (length line)) s)) name outsz
      end
  end.

Definition http_header_value (block name : bytes) (outsz : nat) : option bytes :=
  header_value_loop (S (length block)) block name outsz.

(** ** strtoul(cl, &endp, 10) *)

(** [isspace] in the C locale. *)
Definition is_space (c : Z) : bool := (c =? SP) || ((9 <=? c) && (c <=? 13)).
(** [None] when no conversion is done ([endp == cl]); ULONG_MAX on overflow; a
    minus sign negates in unsigned long. *)
Definition strtoul (s : bytes) : option Z :=
  let s := drop_while is_space s in
  let '(neg, s) :=
    match s with
    | c :: t => if c =? "-"%chr then (true, t) else if c =? "+"%chr then (false, t) else (false, s)
    | [] => (false, s)
    end in
  match take_while is_digit s with
  | [] => None
  | ds =>
      let v := dec_value 0 ds in
      Some (if v >? UINT64_MAX then UINT64_MAX else if neg then u64 (- v) else v)
  end.

(** [http_parse_probe] on the bytes received so far. *)
Definition http_parse_probe (buf : bytes) (cap : Z) : verdict :=
  match http_find_header_end buf with
  | None => if cap <=? len buf then Err else NeedMore
  | Some he =>
      match http_header_value (take he buf) (bs "Content-Length") 32 with
      | Some cl =>
          match strtoul cl with
          | Some v =>
              if v >? cap then Err
              else if v <=? len buf - Z.of_nat he then Done he v
              else if cap <=? len buf then Err
              else NeedMore
          | None => Done he 0
          end
      | None => Done he 0
      end
  end.

(** ** Lemmas *)

Lemma find_header_end_eq a b c d t :
  http_find_header_end (a :: b :: c :: d :: t)
  = if (a =? CR) && (b =? LF) && (c =? CR) && (d =? LF) then Some 4%nat
    else S <$> http_find_header_end (b :: c :: d :: t).
Proof. done. Qed.

Lemma find_header_end_app buf ext he :
  http_find_header_end buf = Some he -> http_find_header_end (buf ++ ext) = Some he.
Proof.
  revert he. induction buf as [|a t IH]; intros he H; [done|].
  destruct t as [|b [|c [|d t]]]; try done. cbn [app]. rewrite find_header_end_eq in *.
  destruct (_ && _); [done|].
  destruct (http_find_header_end (b :: c :: d :: t)) as [k|]; [|done].
  specialize (IH k eq_refl). cbn [app] in IH. by rewrite IH.
Qed.

Lemma find_header_end_spec buf he :
  http_find_header_end buf = Some he ->
  (4 <= he <= length buf)%nat /\ take 4 (drop (he - 4) buf) = [CR; LF; CR; LF].
Proof.
  revert he. induction buf as [|a t IH]; intros he H; [done|].
  destruct t as [|b [|c [|d t]]]; try done. rewrite find_header_end_eq in H.
  destruct ((a =? CR) && (b =? LF) && (c =? CR) && (d =? LF)) eqn:E.
  - injection H as <-. split; [simpl; lia|].
    rewrite !andb_true_iff, !Z.eqb_eq in E. destruct E as [[[-> ->] ->] ->]. done.
  - destruct (http_find_header_end (b :: c :: d :: t)) as [k|]; [|done].
    injection H as <-. destruct (IH k eq_refl) as [H1 H2]. split; [simpl in *; lia|].
    replace (S k - 4)%nat with (S (k - 4)) by lia. done.
Qed.

Lemma dec_value_nonneg ds : Forall (fun c => is_digit c = true) ds -> 0 <= dec_value 0 ds.
Proof.
  unfold dec_value. assert (H : forall z, 0 <= z -> Forall (fun c => is_digit c = true) ds ->
    0 <= foldl (fun v c => v * 10 + (c - "0"%chr)) z ds); [|by apply H].
  induction ds as [|c ds IH]; intros z Hz Hd; [done|]. inversion_clear Hd as [|? ? Hc Hd'].
  simpl. apply IH; [|done]. unfold is_digit in Hc. lia.
Qed.

Lemma strtoul_nonneg s v : strtoul s = Some v -> 0 <= v.
Proof.
  unfold strtoul. destruct (match drop_while is_space s with [] => _ | _ => _ end) as [neg s'].
  pose proof (take_while_all is_digit s') as Hd. destruct (take_while is_digit s') as [|c ds]; [done|].
  pose proof (dec_value_nonneg _ Hd).
  intros [= <-]. destruct (_ >? _); [unfold UINT64_MAX; lia|]. destruct neg; [|done].
  unfold u64. apply Z.mod_pos_bound. lia.
Qed.

Lemma http_probe_mono (buf ext : bytes) (cap : Z)
  (Hcap : 0 <= cap) :
  match http_parse_probe buf cap with
  | Done he bl =>
      http_parse_probe (buf ++ ext) cap = Done he bl /\
      Z.of_nat he + bl <= len buf /\ 0 <= bl <= cap /\
      take 4 (drop (he - 4) buf) = [CR; LF; CR; LF]
  | NeedMore => len buf < cap
  | Err => len buf < cap -> http_parse_probe (buf ++ ext) cap = Err
  end.
Proof.
  unfold http_parse_probe. destruct (http_find_header_end buf) as [he|] eqn:He.
  2:{ destruct (Z.leb_spec cap (len buf)); [lia|done]. }
  rewrite (find_header_end_app _ ext he He).
  destruct (find_header_end_spec _ _ He) as [Hle Hterm]. rewrite take_app_le by lia.
  assert (Hlen : len (buf ++ ext) = len buf + len ext) by (rewrite length_app; lia).
  destruct (http_header_value (take he buf) (bs "Content-Length") 32) as [cl|]; [|split; [done|]; repeat split; (done || lia)].
  destruct (strtoul cl) as [v|] eqn:Hv; [|split; [done|]; repeat split; (done || lia)].
  apply strtoul_nonneg in Hv. destruct (Z.gtb_spec v cap); [done|].
  destruct (Z.leb_spec v (len buf - Z.of_nat he)).
  - destruct (Z.leb_spec v (len (buf ++ ext) - Z.of_nat he)); [|lia]. repeat split; (done || lia).
  - destruct (Z.leb_spec cap (len buf)); [lia|done].
Qed.

(** The framing verdict does not depend on how the bytes arrive. Once the
    probe has accepted a request it accepts it with the same header end and body
    length on every longer buffer; once it has rejected one below the cap it
    rejects every longer buffer; an accepted request lies inside the buffer, its
    header block ends with the blank line and its declared body fits the cap;
    and while the probe asks for more there is room left. *)
Theorem http_parse_probe_incremental (buf ext : bytes) (cap : Z)
  (Hcap : 0 <= cap) :
  match http_parse_probe buf cap with
  | Done he bl =>
      http_parse_probe (buf ++ ext) cap = Done he bl /\
      Z.of_nat he + bl <= len buf /\ 0 <= bl <= cap /\
      take 4 (drop (he - 4) buf) = [CR; LF; CR; LF]
  | NeedMore => len buf < cap
  | Err => len buf < cap -> http_parse_probe (buf ++ ext) cap = Err
  end.
Proof. by apply http_probe_mono. Qed.

Lemma http_parse_probe_incremental_witness :
  http_parse_probe (bs "POST /" ++ CRLF ++ bs "content-length: 3" ++ CRLF ++ CRLF ++ bs "abc" ++ bs "next") 100
  = Done 29 3.
Proof.
  pose proof (http_parse_probe_incremental
    (bs "POST /" ++ CRLF ++ bs "content-length: 3" ++ CRLF ++ CRLF ++ bs "abc") (bs "next") 100 ltac:(lia)) as H.
  change (http_parse_probe (bs "POST /" ++ CRLF ++ bs "content-length: 3" ++ CRLF ++ CRLF ++ bs "abc") 100)
    with (Done 29 3) in H. apply H.
Defined.
