(* ===== verification/Json.v ===== *)
(** * JSON helpers (src/src/json.c, src/src/json.h)

    UTF-8 validation, string escaping, the growing builder, and the two lookups
    the admin endpoints use on request bodies. A C string is the list of its
    bytes without the terminating NUL. The substitution counter of [json_escape]
    is the last component of its result. *)

From S2P Require Import Prelude.

(** The bytes of [utf8_replacement], U+FFFD. *)
Definition utf8_replacement : bytes := [239; 191; 189].

(** ** UTF-8 *)

(** The loop of [utf8_seq] over the [n - 1] continuation bytes; [None] when one
    is not a continuation byte. *)
Fixpoint utf8_cont (p : bytes) (n : nat) (cp : Z) {struct n} : option Z :=
  match n with
  | O => Some cp
  | S n' =>
      match p with
      | c :: p' =>
          if negb (Z.land c 192 =? 128) then None
          else utf8_cont p' n' (Z.lor (Z.shiftl cp 6) (Z.land c 63))
      | [] => None
      end
  end.

(** [utf8_seq p avail] with [avail = length p]. *)
Definition utf8_seq (p : bytes) : nat :=
  match p with
  | [] => 0
  | c0 :: p' =>
      if c0 <? 128 then 1
      else
        let lead :=
          if (194 <=? c0) && (c0 <=? 223) then Some (2%nat, Z.land c0 31)
          else if (224 <=? c0) && (c0 <=? 239) then Some (3%nat, Z.land c0 15)
          else if (240 <=? c0) && (c0 <=? 244) then Some (4%nat, Z.land c0 7)
          else None in
        match lead with
        | None => 0
        | Some (n, cp) =>
            if (length p <? n)%nat then 0
            else match utf8_cont p' (n - 1) cp with
                 | None => 0
                 | Some cp =>
                     if (n =? 3)%nat && ((cp <? 2048) || ((55296 <=? cp) && (cp <=? 57343))) then 0
                     else if (n =? 4)%nat && ((cp <? 65536) || (cp >? 1114111)) then 0
                     else n
                 end
        end
  end.

Definition is_cont (c : Z) : bool := Z.land c 192 =? 128.

(** [for (i = 1; i < n && i < avail; i++) if not a continuation byte break;] *)
Fixpoint cont_run (p : bytes) (n : nat) : nat :=
  match n, p with
  | S n', c :: p' => if is_cont c then S (cont_run p' n') else 0
  | _, _ => 0
  end.

Definition utf8_bad_len (p : bytes) : nat :=
  match utf8_seq p with
  | S n => S n
  | O =>
      match p with
      | [] => 0
      | c0 :: p' =>
          if (c0 <? 194) || (c0 >? 244) then 1
          else
            let n := if c0 <=? 223 then 2%nat else if c0 <=? 239 then 3%nat else 4%nat in
            S (cont_run p' (n - 1))
      end
  end.

(** ** Escaping *)

Definition hex_digit (d : Z) : Z := if d <? 10 then "0"%chr + d else "a"%chr + (d - 10).

(** The six-byte form [snprintf] writes for a control byte: backslash, u and
    four hex digits. *)
Definition u_escape (c : Z) : bytes :=
  [BACKSLASH; "u"%chr; "0"%chr; "0"%chr; hex_digit (c / 16); hex_digit (c mod 16)].

(** The letter of a two-byte escape. *)
Definition short_escape (c : Z) : option Z :=
  if c =? DQUOTE then Some DQUOTE
  else if c =? BACKSLASH then Some BACKSLASH
  else if c =? 8 then Some "b"%chr
  else if c =? 12 then Some "f"%chr
  else if c =? LF then Some "n"%chr
  else if c =? CR then Some "r"%chr
  else if c =? TAB then Some "t"%chr
  else None.

(** One step of the loop: the bytes emitted, the bytes consumed and the
    substitutions made. *)
Definition escape_step (s : bytes) : bytes * nat * nat :=
  match s with
  | [] => ([], 0%nat, 0%nat)
  | c :: _ =>
      match short_escape c with
      | Some e => ([BACKSLASH; e], 1%nat, 0%nat)
      | None =>
          if c <? 32 then (u_escape c, 1%nat, 0%nat)
          else if c <? 128 then ([c], 1%nat, 0%nat)
          else match utf8_seq s with
               | O => (utf8_replacement, utf8_bad_len s, 1%nat)
               | n => (take n s, n, 0%nat)
               end
      end
  end.

(** The loop of [json_escape] with [o] bytes written so far. *)
Fixpoint escape_loop (fuel : nat) (s : bytes) (o outsz : nat) : option (bytes * nat) :=
  match fuel with
  | O => None
  | S fuel' =>
      match s with
      | [] => Some ([], 0%nat)
      | _ =>
          let '(piece, n, bad) := escape_step s in
          if (outsz <? o + length piece + 1)%nat then None
          else
            match escape_loop fuel' (drop n s) (o + length piece) outsz with
            | Some (out, b) => Some (piece ++ out, (bad + b)%nat)
            | None => None
            end
      end
  end.

(** [json_escape]: the escaped bytes and the number of substitutions. *)
Definition json_escape (s : bytes) (outsz : nat) : option (bytes * nat) :=
  escape_loop (S (length s)) s 0 outsz.

(** ** The builder *)

Record JsonBuilder := MkJb { jb_buf : option bytes; jb_cap : Z; jb_err : bool }.

Definition jb_len (b : JsonBuilder) : Z := len (default [] (jb_buf b)).

Definition jsonb_init : JsonBuilder := MkJb None 0 false.

(** [while (nc < need) { if (nc > SIZE_MAX / 2) fail; nc *= 2; }] *)
Fixpoint grow_cap (fuel : nat) (nc need : Z) : option Z :=
  match fuel with
  | O => None
  | S fuel' =>
      if nc <? need then
        if nc >? SIZE_MAX / 2 then None else grow_cap fuel' (nc * 2) need
      else Some nc
  end.

(** [jsonb_grow]: the builder and whether it failed. 64 doublings pass
    SIZE_MAX. *)
Definition jsonb_grow (b : JsonBuilder) (extra : Z) : JsonBuilder * bool :=
  if jb_err b then (b, true)
  else if jb_len b + extra + 1 >? jb_cap b then
    match grow_cap 65 (if jb_cap b =? 0 then 64 else jb_cap b) (jb_len b + extra + 1) with
    | None => (MkJb (jb_buf b) (jb_cap b) true, true)
    | Some nc => (MkJb (Some (default [] (jb_buf b))) nc (jb_err b), false)
    end
  else (b, false).

Definition jsonb_raw (b : JsonBuilder) (s : bytes) : JsonBuilder * bool :=
  let '(b, failed) := jsonb_grow b (len s) in
  if failed then (b, true)
  else (MkJb (Some (default [] (jb_buf b) ++ s)) (jb_cap b) (jb_err b), false).

Definition jsonb_begin_object (b : JsonBuilder) := jsonb_raw b (bs "{").
Definition jsonb_end_object (b : JsonBuilder) := jsonb_raw b (bs "}").
Definition jsonb_begin_array (b : JsonBuilder) := jsonb_raw b (bs "[").
Definition jsonb_end_array (b : JsonBuilder) := jsonb_raw b (bs "]").
Definition jsonb_comma (b : JsonBuilder) := jsonb_raw b (bs ",").

Definition set_err (b : JsonBuilder) : JsonBuilder := MkJb (jb_buf b) (jb_cap b) true.

(** The opening quote, the escaped text and [close], any error made sticky. *)
Definition jsonb_quoted (b : JsonBuilder) (s close : bytes) : JsonBuilder * bool :=
  match json_escape s (length s * 6 + 3) with
  | None => (set_err b, true)
  | Some (esc, _) =>
      let '(b, f) := jsonb_raw b [DQUOTE] in
      if f then (set_err b, true) else
      let '(b, f) := jsonb_raw b (c_str esc) in
      if f then (set_err b, true) else
      let '(b, f) := jsonb_raw b close in
      if f then (set_err b, true) else (b, false)
  end.

(** A NULL key sets the error. *)
Definition jsonb_key (b : JsonBuilder) (key : option bytes) : JsonBuilder * bool :=
  match key with
  | None => (set_err b, true)
  | Some k => jsonb_quoted b k [DQUOTE; ":"%chr]
  end.

(** A NULL value is the empty string. *)
Definition jsonb_str (b : JsonBuilder) (val : option bytes) : JsonBuilder * bool :=
  jsonb_quoted b (default [] val) [DQUOTE].

(** ["%u"] *)
Fixpoint dec_digits (fuel : nat) (v : Z) (acc : bytes) : bytes :=
  match fuel with
  | O => acc
  | S fuel' =>
      let acc := ("0"%chr + v mod 10) :: acc in
      if v <? 10 then acc else dec_digits fuel' (v / 10) acc
  end.

Definition print_u32 (v : Z) : bytes := dec_digits 10 v [].

Definition jsonb_u32 (b : JsonBuilder) (v : Z) : JsonBuilder * bool :=
  let tmp := print_u32 v in
  if (16 <=? length tmp)%nat then (set_err b, true) else jsonb_raw b tmp.

Definition jsonb_bool (b : JsonBuilder) (v : bool) : JsonBuilder * bool :=
  jsonb_raw b (if v then bs "true" else bs "false").

(** The reset builder and the detached bytes, [None] on a sticky error. *)
Definition jsonb_detach (b : JsonBuilder) : JsonBuilder * option bytes :=
  if jb_err b then (MkJb None 0 false, None)
  else (MkJb None 0 false, Some (default [] (jb_buf b))).

(** ** Lookups in a request body *)

Definition hex_val (c : Z) : option Z :=
  if ("0"%chr <=? c) && (c <=? "9"%chr) then Some (c - "0"%chr)
  else if ("a"%chr <=? c) && (c <=? "f"%chr) then Some (c - "a"%chr + 10)
  else if ("A"%chr <=? c) && (c <=? "F"%chr) then Some (c - "A"%chr + 10)
  else None.

(** [json_append_unicode]: the bytes appended with [o] already written. *)
Definition json_append_unicode (h : bytes) (o outsz : nat) : option bytes :=
  cp ← foldl (fun cp c => cp ← cp; d ← hex_val c; Some (Z.lor (Z.shiftl cp 4) d)) (Some 0) (take 4 h);
  let piece :=
    if cp <? 128 then [cp]
    else if cp <? 2048 then [Z.lor 192 (Z.shiftr cp 6); Z.lor 128 (Z.land cp 63)]
    else [Z.lor 224 (Z.shiftr cp 12); Z.lor 128 (Z.land (Z.shiftr cp 6) 63); Z.lor 128 (Z.land cp 63)] in
  if (outsz <? o + length piece + 1)%nat then None else Some piece.

(** The byte a one-letter escape stands for. *)
Definition unescape (c : Z) : option Z :=
  if (c =? DQUOTE) || (c =? BACKSLASH) || (c =? "/"%chr) then Some c
  else if c =? "b"%chr then Some 8
  else if c =? "f"%chr then Some 12
  else if c =? "n"%chr then Some LF
  else if c =? "r"%chr then Some CR
  else if c =? "t"%chr then Some TAB
  else None.

(** The value loop of [json_obj_get_str] with [out] written so far. *)
Fixpoint value_loop (fuel : nat) (q out : bytes) (outsz : nat) : option bytes :=
  match fuel with
  | O => None
  | S fuel' =>
      match q with
      | [] => None
      | c :: q' =>
          if c =? DQUOTE then Some out
          else if c =? BACKSLASH then
            match q' with
            | [] => None
            | e :: r =>
                if e =? "u"%chr then
                  if (4 <=? length r)%nat then
                    match json_append_unicode r (length out) outsz with
                    | None => None
                    | Some piece => value_loop fuel' (drop 4 r) (out ++ piece) outsz
                    end
                  else None
                else
                  match unescape e with
                  | None => None
                  | Some x =>
                      if (outsz <? length out + 1 + 1)%nat then None
                      else value_loop fuel' r (out ++ [x]) outsz
                  end
            end
          else if (outsz <? length out + 1 + 1)%nat then None
          else value_loop fuel' q' (out ++ [c]) outsz
      end
  end.

Definition json_space (c : Z) : bool := (c =? SP) || (c =? TAB) || (c =? LF) || (c =? CR).

(** The part both lookups share: find the next quoted string, and when it is the
    key continue with [found] on what follows it. *)
Fixpoint key_loop {A} (fuel : nat) (p key : bytes) (found : bytes -> option A) : option A :=
  match fuel with
  | O => None
  | S fuel' =>
      match p with
      | [] => None
      | _ =>
          match cut DQUOTE p with
          | None => None
          | Some (_, ks) =>
              match cut DQUOTE ks with
              | None => None
              | Some (k, rest) =>
                  if beq k key then found rest else key_loop fuel' rest key found
              end
          end
      end
  end.

Definition str_value (outsz : nat) (q : bytes) : option bytes :=
  match drop_while json_space q with
  | c :: q =>
      if c =? ":"%chr then
        match drop_while json_space q with
        | c :: q => if c =? DQUOTE then value_loop (S (length q)) q [] outsz else None
        | [] => None
        end
      else None
  | [] => None
  end.

(** [json_obj_get_str]: [Some value] when it returns 0. *)
Definition json_obj_get_str (json key : bytes) (outsz : nat) : option bytes :=
  if (outsz =? 0)%nat then None
  else key_loop (S (length json)) json key (str_value outsz).

(** The digit loop, with the overflow test. *)
Fixpoint u32_loop (q : bytes) (v : Z) : option Z :=
  match q with
  | c :: q' =>
      if is_digit c then
        let d := c - "0"%chr in
        if v >? (UINT32_MAX - d) / 10 then None else u32_loop q' (v * 10 + d)
      else Some v
  | [] => Some v
  end.

Definition u32_value (q : bytes) : option Z :=
  match drop_while json_space q with
  | c :: q =>
      if c =? ":"%chr then
        match drop_while json_space q with
        | c :: q' => if is_digit c then u32_loop (c :: q') 0 else None
        | [] => None
        end
      else None
  | [] => None
  end.

Definition json_obj_get_u32 (json key : bytes) : option Z :=
  key_loop (S (length json)) json key u32_value.

(** ** UTF-8 against the table of RFC 3629, section 4 *)

Definition in_range (lo hi c : Z) : bool := (lo <=? c) && (c <=? hi).
Definition tail (c : Z) : bool := in_range 128 191 c.

(** The length of the well-formed sequence [p] starts with, 0 when none. *)
Definition rfc_seq (p : bytes) : nat :=
  match p with
  | [] => 0
  | a :: p1 =>
      if in_range 0 127 a then 1 else
      match p1 with
      | [] => 0
      | b :: p2 =>
          if in_range 194 223 a && tail b then 2 else
          match p2 with
          | [] => 0
          | c :: p3 =>
              if ((a =? 224) && in_range 160 191 b && tail c) ||
                 (in_range 225 236 a && tail b && tail c) ||
                 ((a =? 237) && in_range 128 159 b && tail c) ||
                 (in_range 238 239 a && tail b && tail c) then 3 else
              match p3 with
              | [] => 0
              | d :: _ =>
                  if ((a =? 240) && in_range 144 191 b && tail c && tail d) ||
                     (in_range 241 243 a && tail b && tail c && tail d) ||
                     ((a =? 244) && in_range 128 143 b && tail c && tail d) then 4 else 0
              end
          end
      end
  end.

Lemma byte_cases (P : Z -> bool) :
  forallb P (map Z.of_nat (seq 0 256)) = true -> forall c, is_byte c = true -> P c = true.
Proof.
  rewrite forallb_forall. intros H c Hc. apply H, List.in_map_iff. exists (Z.to_nat c).
  unfold is_byte in Hc. split; [lia|]. apply List.in_seq. lia.
Qed.

Lemma is_cont_tail c : is_byte c = true -> (Z.land c 192 =? 128) = tail c.
Proof.
  intros Hc. apply Bool.eqb_prop. revert c Hc.
  apply (byte_cases (fun c => Bool.eqb (Z.land c 192 =? 128) (tail c))). by vm_compute.
Qed.

Lemma shift6_or a b : 0 <= b < 64 -> Z.lor (Z.shiftl a 6) b = a * 64 + b.
Proof.
  intros Hb. assert (Hz : Z.land (Z.shiftl a 6) b = 0).
  { apply Z.bits_inj'. intros n Hn. rewrite Z.land_spec, Z.shiftl_spec, Z.bits_0 by done.
    destruct (Z.ltb_spec n 6); [by rewrite Z.testbit_neg_r by lia|].
    rewrite <- (Z.mod_small b (2 ^ 6)) by (simpl; lia). rewrite Z.mod_pow2_bits_high by lia.
    apply andb_false_r. }
  rewrite <- Z.lxor_lor, <- Z.add_nocarry_lxor, Z.shiftl_mul_pow2 by (done || lia). done.
Qed.

Lemma land_low c k : 0 <= k -> Z.land c (2 ^ k - 1) = c mod 2 ^ k.
Proof. intros Hk. rewrite <- Z.land_ones by done. by rewrite Z.ones_equiv, Z.sub_1_r. Qed.

Lemma cont_step cp c :
  is_byte c = true -> tail c = true -> Z.lor (Z.shiftl cp 6) (Z.land c 63) = cp * 64 + (c - 128).
Proof.
  intros _ Hc. unfold tail, in_range in Hc. change 63 with (2 ^ 6 - 1). rewrite land_low by lia. change (2 ^ 6) with 64.
  rewrite shift6_or by (apply Z.mod_pos_bound; lia). f_equal.
  replace c with (c - 128 + 2 * 64) at 1 by lia. rewrite Z.mod_add by lia. apply Z.mod_small. lia.
Qed.

Lemma lead_mod c base k :
  base mod 2 ^ k = 0 -> 0 <= c - base < 2 ^ k -> 0 <= k -> Z.land c (2 ^ k - 1) = c - base.
Proof.
  intros Hb Hc Hk. rewrite land_low by done. apply Z.mod_divide in Hb as [q ->]; [|lia].
  replace c with (c - q * 2 ^ k + q * 2 ^ k) at 1 by lia. rewrite Z.mod_add by lia.
  by apply Z.mod_small.
Qed.

(** One continuation byte of [utf8_cont]. *)
Lemma utf8_cont_cons c p n cp :
  is_byte c = true ->
  utf8_cont (c :: p) (S n) cp = if tail c then utf8_cont p n (cp * 64 + (c - 128)) else None.
Proof.
  intros Hc. cbn [utf8_cont]. rewrite is_cont_tail by done. destruct (tail c) eqn:Ht; [|done].
  cbn [negb]. by rewrite cont_step.
Qed.

Lemma utf8_seq_rfc p : Forall (fun c => is_byte c = true) p -> utf8_seq p = rfc_seq p.
Proof.
  intros Hp. destruct p as [|a p1]; [done|]. inversion_clear Hp as [|? ? Ha H1].
  unfold utf8_seq, rfc_seq. unfold is_byte in Ha.
  destruct (Z.ltb_spec a 128).
  { assert (in_range 0 127 a = true) as -> by (unfold in_range; lia). done. }
  assert (in_range 0 127 a = false) as -> by (unfold in_range; lia).
  destruct ((194 <=? a) && (a <=? 223)) eqn:E2.
  { assert (in_range 194 223 a = true) as -> by done.
    destruct p1 as [|b p2]; [done|]. inversion_clear H1 as [|? ? Hb H2].
    change (2 - 1)%nat with 1%nat. change (length (a :: b :: p2) <? 2)%nat with false.
    cbv iota. rewrite utf8_cont_cons by done. cbn [utf8_cont].
    destruct (tail b); [reflexivity|]. cbn [andb].
    destruct p2 as [|c p3]; [done|].
    replace (_ || _) with false by (unfold in_range in *; lia).
    destruct p3 as [|d p4]; [done|]. by replace (_ || _) with false by (unfold in_range in *; lia). }
  destruct ((224 <=? a) && (a <=? 239)) eqn:E3.
  { assert (in_range 194 223 a = false) as -> by (unfold in_range; lia). cbn [andb].
    destruct p1 as [|b [|c p3]]; [done|done|]. inversion_clear H1 as [|? ? Hb H2].
    inversion_clear H2 as [|? ? Hc H3].
    change (length (a :: b :: c :: p3) <? 3)%nat with false. cbv iota.
    change (3 - 1)%nat with 2%nat. rewrite !utf8_cont_cons by done. cbn [utf8_cont].
    change (Z.land a 15) with (Z.land a (2 ^ 4 - 1)). rewrite (lead_mod a 224) by (done || lia).
    unfold tail, in_range in *. destruct ((128 <=? b) && (b <=? 191)) eqn:Eb;
      [destruct ((128 <=? c) && (c <=? 191)) eqn:Ec|]; cbn [Nat.eqb andb].
    - match goal with |- (if ?x then _ else _) = (if ?y then _ else _) => assert (Hxy : y = negb x) by lia end.
      rewrite Hxy. match goal with |- (if ?x then _ else _) = _ => destruct x end; [|reflexivity].
      cbn [negb].
      destruct p3 as [|d p4]; [done|]. by replace (_ || _) with false by lia.
    - replace (_ || _) with false by lia.
      destruct p3 as [|d p4]; [done|]. by replace (_ || _) with false by lia.
    - replace (_ || _) with false by lia.
      destruct p3 as [|d p4]; [done|]. by replace (_ || _) with false by lia. }
  destruct ((240 <=? a) && (a <=? 244)) eqn:E4.
  { assert (in_range 194 223 a = false) as -> by (unfold in_range; lia). cbn [andb].
    destruct p1 as [|b [|c [|d p4]]]; [done|done| |].
    { by replace (_ || _) with false by (unfold in_range; lia). }
    inversion_clear H1 as [|? ? Hb H2]. inversion_clear H2 as [|? ? Hc H3]. inversion_clear H3 as [|? ? Hd H4].
    change (length (a :: b :: c :: d :: p4) <? 4)%nat with false. cbv iota.
    change (4 - 1)%nat with 3%nat. rewrite !utf8_cont_cons by done. cbn [utf8_cont].
    change (Z.land a 7) with (Z.land a (2 ^ 3 - 1)). rewrite (lead_mod a 240) by (done || lia).
    unfold tail, in_range in *.
    replace (_ || _ || _ || _) with false by lia.
    destruct ((128 <=? b) && (b <=? 191)) eqn:Eb;
      [destruct ((128 <=? c) && (c <=? 191)) eqn:Ec;
         [destruct ((128 <=? d) && (d <=? 191)) eqn:Ed|]|]; cbn [Nat.eqb andb].
    - match goal with |- (if ?x then _ else _) = (if ?y then _ else _) => assert (Hxy : y = negb x) by lia end.
      rewrite Hxy. by match goal with |- (if ?x then _ else _) = _ => destruct x end.
    - by replace (_ || _ || _) with false by lia.
    - by replace (_ || _ || _) with false by lia.
    - by replace (_ || _ || _) with false by lia. }
  unfold in_range. destruct p1 as [|b p2]; [done|]. replace (_ && _) with false by lia.
  destruct p2 as [|c p3]; [done|]. replace (_ || _) with false by lia.
  destruct p3 as [|d p4]; [done|]. by replace (_ || _) with false by lia.
Qed.

(** ** Escaping and reading back *)

(** Concatenations of well-formed sequences. *)
Inductive valid_utf8 : bytes -> Prop :=
| valid_nil : valid_utf8 []
| valid_cons p q : p <> [] -> rfc_seq p = length p -> valid_utf8 q -> valid_utf8 (p ++ q).

(** The length of the first well-formed sequence or ill-formed subpart. *)
Definition chunk_len (s : bytes) : nat :=
  match utf8_seq s with O => utf8_bad_len s | n => n end.

(** What the first chunk becomes. *)
Definition clean_chunk (s : bytes) : bytes :=
  match utf8_seq s with O => utf8_replacement | n => take n s end.

(** The text with every ill-formed subpart replaced by U+FFFD. *)
Fixpoint clean_loop (fuel : nat) (s : bytes) : bytes :=
  match fuel with
  | O => []
  | S fuel' =>
      match s with
      | [] => []
      | _ => clean_chunk s ++ clean_loop fuel' (drop (chunk_len s) s)
      end
  end.

Definition utf8_clean (s : bytes) : bytes := clean_loop (S (length s)) s.

Lemma cont_run_le p n : (cont_run p n <= length p)%nat.
Proof.
  revert n. induction p as [|c p IH]; intros [|n]; simpl; try lia.
  destruct (is_cont c); [|lia]. specialize (IH n). lia.
Qed.

Lemma utf8_seq_le p : (utf8_seq p <= length p)%nat.
Proof.
  destruct p as [|c p]; [done|]. unfold utf8_seq. destruct (c <? 128); [simpl; lia|].
  destruct (if _ && _ then _ else _) as [[n cp]|]; [|simpl; lia].
  destruct (Nat.ltb_spec (length (c :: p)) n); [simpl; lia|]. repeat case_match; lia.
Qed.

Lemma utf8_seq_ascii c p : c < 128 -> utf8_seq (c :: p) = 1%nat.
Proof. intros Hc. unfold utf8_seq. by destruct (Z.ltb_spec c 128); [|lia]. Qed.

Lemma chunk_len_bounds s : s <> [] -> (1 <= chunk_len s <= length s)%nat.
Proof.
  intros Hs. unfold chunk_len. pose proof (utf8_seq_le s). destruct (utf8_seq s) as [|n] eqn:E; [|lia].
  unfold utf8_bad_len. rewrite E. destruct s as [|c p]; [done|]. simpl length.
  destruct (_ || _); [lia|]. pose proof (cont_run_le p ((if c <=? 223 then 2 else if c <=? 239 then 3 else 4) - 1)). lia.
Qed.

Lemma value_loop_fuel n m q out outsz :
  (length q < n)%nat -> (length q < m)%nat -> value_loop n q out outsz = value_loop m q out outsz.
Proof.
  revert m q out. induction n as [|n IH]; intros [|m] q out Hn Hm; try lia.
  cbn [value_loop]. destruct q as [|c q]; [done|]. simpl in Hn, Hm.
  destruct (c =? DQUOTE); [done|]. destruct (c =? BACKSLASH).
  - destruct q as [|e r]; [done|]. simpl in Hn, Hm. destruct (e =? "u"%chr).
    + destruct (4 <=? length r)%nat; [|done]. destruct (json_append_unicode _ _ _); [|done].
      apply IH; rewrite length_drop; lia.
    + destruct (unescape e); [|done]. destruct (_ <? _)%nat; [done|]. apply IH; lia.
  - destruct (_ <? _)%nat; [done|]. apply IH; lia.
Qed.

(** Bytes copied as they are. *)
Lemma value_loop_copy p q out outsz fuel :
  Forall (fun c => c <> DQUOTE /\ c <> BACKSLASH) p -> (length (p ++ q) < fuel)%nat ->
  (length out + length p + 1 <= outsz)%nat ->
  value_loop fuel (p ++ q) out outsz = value_loop (S (length q)) q (out ++ p) outsz.
Proof.
  revert fuel out. induction p as [|c p IH]; intros fuel out Hp Hf Ho.
  - rewrite app_nil_r. apply value_loop_fuel; simpl in *; lia.
  - inversion_clear Hp as [|? ? [H1 H2] Hp']. destruct fuel as [|fuel]; [lia|]. cbn [app value_loop].
    simpl in Hf, Ho. destruct (Z.eqb_spec c DQUOTE); [done|]. destruct (Z.eqb_spec c BACKSLASH); [done|].
    destruct (Nat.ltb_spec outsz (length out + 1 + 1)); [lia|].
    rewrite IH; [by rewrite <- app_assoc|done|lia|rewrite length_app; simpl; lia].
Qed.

Lemma value_loop_short c e q out outsz fuel :
  short_escape c = Some e -> (length q + 2 < fuel)%nat -> (length out + 2 <= outsz)%nat ->
  value_loop fuel (BACKSLASH :: e :: q) out outsz = value_loop (S (length q)) q (out ++ [c]) outsz.
Proof.
  intros He Hf Ho. destruct fuel as [|fuel]; [lia|]. set (R := value_loop (S (length q)) _ _ _).
  cbn [value_loop].
  change (BACKSLASH =? DQUOTE) with false. change (BACKSLASH =? BACKSLASH) with true. cbv iota.
  assert (Hu : (e =? "u"%chr) = false /\ unescape e = Some c).
  { unfold short_escape in He.
    repeat (match type of He with (if ?b then _ else _) = _ =>
      destruct b eqn:Hb; [apply Z.eqb_eq in Hb as ->; injection He as <-; by split|]; clear Hb end). done. }
  destruct Hu as [-> ->]. destruct (Nat.ltb_spec outsz (length out + 1 + 1)); [lia|].
  subst R. apply value_loop_fuel; lia.
Qed.

Lemma value_loop_control c q out outsz fuel :
  0 <= c < 32 -> (length q + 6 < fuel)%nat -> (length out + 2 <= outsz)%nat ->
  value_loop fuel (u_escape c ++ q) out outsz = value_loop (S (length q)) q (out ++ [c]) outsz.
Proof.
  intros Hc Hf Ho. destruct fuel as [|fuel]; [lia|]. set (R := value_loop (S (length q)) _ _ _).
  unfold u_escape. cbn [app value_loop].
  change (BACKSLASH =? DQUOTE) with false. change (BACKSLASH =? BACKSLASH) with true.
  change ("u"%chr =? "u"%chr) with true. cbv iota. cbn [length].
  change (4 <=? S (S (S (S (length q)))))%nat with true. cbv iota.
  assert (Hun : json_append_unicode ("0"%chr :: "0"%chr :: hex_digit (c / 16) :: hex_digit (c mod 16) :: q) (length out) outsz
                = Some [c]).
  { unfold json_append_unicode. match goal with |- context [take 4 ?l] =>
      change (take 4 l) with ["0"%chr; "0"%chr; hex_digit (c / 16); hex_digit (c mod 16)] end.
    assert (Hcp : foldl (fun cp c => cp ← cp; d ← hex_val c; Some (Z.lor (Z.shiftl cp 4) d)) (Some 0)
              ["0"%chr; "0"%chr; hex_digit (c / 16); hex_digit (c mod 16)] = Some c).
    { pose proof (byte_cases (fun c => implb (c <? 32) (bool_decide (foldl (fun cp c => cp ← cp; d ← hex_val c; Some (Z.lor (Z.shiftl cp 4) d)) (Some 0)
              ["0"%chr; "0"%chr; hex_digit (c / 16); hex_digit (c mod 16)] = Some c)))) as H.
      specialize (H ltac:(by vm_compute) c ltac:(unfold is_byte; lia)). cbv beta in H.
      destruct (Z.ltb_spec c 32); [|lia]. by apply bool_decide_eq_true in H. }
    rewrite Hcp. cbn [mbind option_bind]. destruct (Z.ltb_spec c 128); [|lia]. simpl length.
    by destruct (Nat.ltb_spec outsz (length out + 1 + 1)); [lia|]. }
  rewrite Hun. cbn [drop]. subst R. apply value_loop_fuel; lia.
Qed.

Lemma rfc_seq_high a p n : in_range 0 127 a = false -> rfc_seq (a :: p) = n -> (n <> 0)%nat ->
  Forall (fun c => 128 <= c) (take n (a :: p)).
Proof.
  intros Ha H Hn. unfold rfc_seq in H. rewrite Ha in H.
  destruct p as [|b p]; [by subst|]. destruct (in_range 194 223 a && tail b) eqn:E2.
  { subst n. unfold tail, in_range in *. repeat constructor; lia. }
  destruct p as [|c p]; [by subst|]. destruct (_ || _) eqn:E3 in H.
  { subst n. unfold tail, in_range in *. repeat constructor; lia. }
  destruct p as [|d p]; [by subst|]. destruct (_ || _) eqn:E4 in H; [|by subst].
  subst n. unfold tail, in_range in *. repeat constructor; lia.
Qed.

Lemma rfc_seq_app p q : rfc_seq p <> 0%nat -> rfc_seq (p ++ q) = rfc_seq p.
Proof.
  intros Hp. destruct p as [|a p]; [done|]. cbn [app rfc_seq] in *. destruct (in_range 0 127 a); [done|].
  destruct p as [|b p]; [done|]. cbn [app]. destruct (_ && _); [done|].
  destruct p as [|c p]; [done|]. cbn [app]. destruct (_ || _); [done|].
  destruct p as [|d p]; [done|]. done.
Qed.

Lemma rfc_seq_take p : rfc_seq (take (rfc_seq p) p) = rfc_seq p.
Proof.
  destruct p as [|a p]; [done|]. unfold rfc_seq at 2 3. cbv beta iota.
  destruct (in_range 0 127 a) eqn:E1; [by cbn; rewrite E1|].
  destruct p as [|b p]; [reflexivity|].
  destruct (in_range 194 223 a && tail b) eqn:E2; [by cbn; rewrite E1, E2|].
  destruct p as [|c p]; [reflexivity|].
  match goal with |- context [if ?x then 3%nat else _] => destruct x eqn:E3 end; [by cbn; rewrite E1, E2, E3|].
  destruct p as [|d p]; [reflexivity|].
  match goal with |- context [if ?x then 4%nat else _] => destruct x eqn:E4 end; [|reflexivity].
  cbn. by rewrite E1, E2, E3, E4.
Qed.

Lemma rfc_seq_le p : (rfc_seq p <= length p)%nat.
Proof.
  destruct p as [|a p]; [done|]. unfold rfc_seq. destruct (in_range 0 127 a); [simpl; lia|].
  destruct p as [|b p]; [simpl; lia|]. destruct (_ && _); [simpl; lia|].
  destruct p as [|c p]; [simpl; lia|]. destruct (_ || _); [simpl; lia|].
  destruct p as [|d p]; [simpl; lia|]. destruct (_ || _); simpl; lia.
Qed.

(** One step of the escape loop. *)
Lemma escape_step_spec s :
  s <> [] -> bytes_ok s ->
  let '(piece, n, bad) := escape_step s in
  n = chunk_len s /\
  (bad = if (utf8_seq s =? 0)%nat then 1%nat else 0%nat) /\
  (length piece <= 6 * n)%nat /\
  Forall (fun c => 32 <= c) piece /\ valid_utf8 piece /\
  (forall fuel q out outsz, (length (piece ++ q) < fuel)%nat ->
     (length out + length (clean_chunk s) + 1 <= outsz)%nat ->
     value_loop fuel (piece ++ q) out outsz = value_loop (S (length q)) q (out ++ clean_chunk s) outsz).
Proof.
  intros Hs Hb. destruct s as [|c s]; [done|]. pose proof Hb as Hb'. inversion_clear Hb' as [|? ? Hc _].
  assert (Hascii : forall l, Forall (fun c => 0 <= c < 128) l -> valid_utf8 l).
  { induction l as [|x l IH]; intros Hl; [constructor|]. inversion_clear Hl.
    apply (valid_cons [x] l); [done| |by apply IH]. unfold rfc_seq, in_range. by destruct (_ && _) eqn:?; [|lia]. }
  unfold is_byte in Hc.
  assert (Hlow : c < 128 -> chunk_len (c :: s) = 1%nat /\ clean_chunk (c :: s) = [c] /\
                 utf8_seq (c :: s) = 1%nat).
  { intros Hl. unfold chunk_len, clean_chunk. rewrite utf8_seq_ascii by done. by destruct s. }
  unfold escape_step. destruct (short_escape c) as [e|] eqn:He.
  - assert (Hce : c < 128 /\ 32 <= e < 128).
    { unfold short_escape in He. repeat (match type of He with (if ?b then _ else _) = _ =>
        destruct b eqn:Hb0; [apply Z.eqb_eq in Hb0; injection He as <-; lia|]; clear Hb0 end). done. }
    destruct (Hlow ltac:(lia)) as (-> & -> & ->).
    split; [done|]. split; [done|]. split; [simpl; lia|]. split; [repeat constructor; lia|].
    split; [apply Hascii; repeat constructor; lia|].
    intros fuel q out outsz Hf Ho. apply value_loop_short; [done|simpl in Hf; lia|simpl in Ho; lia].
  - destruct (Z.ltb_spec c 32).
    + destruct (Hlow ltac:(lia)) as (-> & -> & ->).
      assert (Hh : forall d, 0 <= d < 16 -> 32 <= hex_digit d < 128).
      { intros d Hd. unfold hex_digit. destruct (Z.ltb_spec d 10); lia. }
      pose proof (Hh (c / 16)) as H1. pose proof (Hh (c mod 16)) as H2.
      assert (0 <= c / 16 < 16) by (split; [apply Z.div_pos|apply Z.div_lt_upper_bound]; lia).
      assert (0 <= c mod 16 < 16) by (apply Z.mod_pos_bound; lia).
      split; [done|]. split; [done|]. split; [simpl; lia|]. split; [repeat constructor; lia|].
      split; [apply Hascii; repeat constructor; lia|].
      intros fuel q out outsz Hf Ho. apply value_loop_control; [lia|simpl in Hf; lia|simpl in Ho; lia].
    + destruct (Z.ltb_spec c 128).
      * destruct (Hlow ltac:(lia)) as (-> & -> & ->).
        split; [done|]. split; [done|]. split; [simpl; lia|]. split; [repeat constructor; lia|].
        split; [apply Hascii; repeat constructor; lia|].
        intros fuel q out outsz Hf Ho. apply value_loop_copy; [|done|done]. repeat constructor; intros ->; done.
      * pose proof (chunk_len_bounds (c :: s) ltac:(done)) as Hn. unfold clean_chunk, chunk_len in *.
        pose proof (utf8_seq_rfc (c :: s) Hb) as Hr. destruct (utf8_seq (c :: s)) as [|n] eqn:Eu.
        -- split; [done|]. split; [done|]. split; [simpl; lia|]. split; [repeat constructor; lia|].
           split; [apply (valid_cons utf8_replacement []); [done|done|constructor]|].
           intros fuel q out outsz Hf Ho. apply value_loop_copy; [|done|done]. by repeat constructor.
        -- pose proof (utf8_seq_le (c :: s)) as Hle. rewrite Eu in Hle.
           assert (Hhigh : Forall (fun x => 128 <= x) (take (S n) (c :: s))).
           { apply rfc_seq_high; [unfold in_range; lia|done|done]. }
           split; [done|]. split; [done|]. split; [rewrite length_take; lia|].
           split; [apply (Forall_impl _ _ _ Hhigh); lia|]. split.
           ++ rewrite <- (app_nil_r (take (S n) (c :: s))). apply valid_cons; [done| |constructor].
              pose proof (rfc_seq_take (c :: s)) as Ht. rewrite <- Hr in Ht. rewrite Ht, length_take. lia.
           ++ intros fuel q out outsz Hf Ho. apply value_loop_copy; [|done|done].
              apply (Forall_impl _ _ _ Hhigh). intros x Hx. lia.
Qed.

Lemma valid_app a b : valid_utf8 a -> valid_utf8 b -> valid_utf8 (a ++ b).
Proof. induction 1 as [|p q Hp Hr _ IH]; intros Hb; [done|]. rewrite <- app_assoc. constructor; auto. Qed.

Lemma clean_loop_fuel n m s :
  (length s < n)%nat -> (length s < m)%nat -> clean_loop n s = clean_loop m s.
Proof.
  revert m s. induction n as [|n IH]; intros [|m] s Hn Hm; try lia. cbn [clean_loop].
  destruct s as [|c s]; [done|]. f_equal. pose proof (chunk_len_bounds (c :: s) ltac:(done)).
  apply IH; rewrite length_drop; simpl in *; lia.
Qed.

Lemma utf8_clean_eq s :
  s <> [] -> utf8_clean s = clean_chunk s ++ utf8_clean (drop (chunk_len s) s).
Proof.
  intros Hs. pose proof (chunk_len_bounds s Hs). unfold utf8_clean at 1. cbn [clean_loop].
  destruct s as [|c s]; [done|]. f_equal. unfold utf8_clean. apply clean_loop_fuel; rewrite ?length_drop; simpl in *; lia.
Qed.

(** Induction on a text by its chunks. *)
Lemma chunk_ind (P : bytes -> Prop) :
  P [] -> (forall s, s <> [] -> P (drop (chunk_len s) s) -> P s) -> forall s, P s.
Proof.
  intros H0 H1 s. induction s as [s IH] using bytes_len_ind. destruct s as [|c s]; [done|].
  apply H1; [done|]. apply IH. pose proof (chunk_len_bounds (c :: s) ltac:(done)).
  rewrite length_drop. simpl in *. lia.
Qed.

Lemma valid_clean s : bytes_ok s -> valid_utf8 (utf8_clean s).
Proof.
  induction s as [|s Hs IH] using chunk_ind; intros Hb; [constructor|].
  rewrite utf8_clean_eq by done. assert (Hd : bytes_ok (drop (chunk_len s) s)) by (by apply Forall_drop).
  specialize (IH Hd). unfold clean_chunk. rewrite utf8_seq_rfc by done.
  pose proof (rfc_seq_take s) as Ht. pose proof (rfc_seq_le s) as Hl.
  destruct (rfc_seq s) as [|n] eqn:E; [by apply valid_cons|].
  apply valid_cons; [destruct s; [done|]; done | rewrite Ht, length_take; lia | done].
Qed.

Lemma clean_valid s : bytes_ok s -> valid_utf8 s -> utf8_clean s = s.
Proof.
  intros Hb Hv. induction Hv as [|p q Hp Hr Hq IH]; [done|].
  apply Forall_app in Hb as Hpq. destruct Hpq as [_ Hbq].
  assert (Hseq : utf8_seq (p ++ q) = length p).
  { rewrite utf8_seq_rfc, rfc_seq_app by (done || rewrite Hr; destruct p; done). done. }
  assert (Hc : chunk_len (p ++ q) = length p /\ clean_chunk (p ++ q) = p).
  { unfold chunk_len, clean_chunk. rewrite Hseq. destruct p as [|c p]; [done|]. cbn [length].
    split; [done|]. change (S (length p)) with (length (c :: p)). apply take_app_length. }
  destruct Hc as [Hc1 Hc2]. rewrite utf8_clean_eq by (by destruct p). rewrite Hc1, Hc2, drop_app_length.
  by rewrite (IH Hbq).
Qed.

Lemma escape_loop_total fuel s o outsz :
  (length s < fuel)%nat -> bytes_ok s -> (o + 6 * length s + 1 <= outsz)%nat ->
  exists r, escape_loop fuel s o outsz = Some r.
Proof.
  revert fuel o. induction s as [|s Hs IH] using chunk_ind; intros [|fuel] o Hf Hb Ho; try lia; cbn [escape_loop].
  - by eexists.
  - pose proof (escape_step_spec s Hs Hb) as Hst. pose proof (chunk_len_bounds s Hs) as Hn.
    destruct (escape_step s) as [[piece n] bad]. destruct Hst as (-> & _ & Hl & _).
    destruct (IH fuel (o + length piece)%nat) as [[out b] E];
      [rewrite length_drop; lia | by apply Forall_drop | rewrite length_drop; lia |].
    destruct s as [|c s]; [done|]. destruct (Nat.ltb_spec outsz (o + length piece + 1)); [simpl in *; lia|].
    rewrite E. by eexists.
Qed.

Lemma escape_loop_sound fuel s o outsz esc bad :
  escape_loop fuel s o outsz = Some (esc, bad) -> bytes_ok s ->
  (length esc <= 6 * length s)%nat /\ (s <> [] -> o + length esc + 1 <= outsz)%nat /\
  Forall (fun c => 32 <= c) esc /\ valid_utf8 esc /\ (bad = 0%nat -> utf8_clean s = s) /\
  (forall f q out osz, (length (esc ++ q) < f)%nat -> (length out + length (utf8_clean s) + 1 <= osz)%nat ->
     value_loop f (esc ++ q) out osz = value_loop (S (length q)) q (out ++ utf8_clean s) osz).
Proof.
  revert fuel o esc bad. induction s as [|s Hs IH] using chunk_ind; intros [|fuel] o esc bad H Hb; try done;
    cbn [escape_loop] in H.
  - injection H as <- <-. split; [simpl; lia|]. split; [done|]. split; [constructor|]. split; [constructor|].
    split; [done|]. intros f q out osz Hf Ho. change (utf8_clean []) with (@nil Z). rewrite app_nil_r. apply value_loop_fuel; simpl in *; lia.
  - pose proof (escape_step_spec s Hs Hb) as Hst. pose proof (chunk_len_bounds s Hs) as Hn.
    destruct (escape_step s) as [[piece n] b0]. destruct Hst as (-> & Hb0 & Hl & H32 & Hv & Hdec).
    assert (Hcase : exists out b, (o + length piece + 1 <= outsz)%nat /\
      escape_loop fuel (drop (chunk_len s) s) (o + length piece) outsz = Some (out, b) /\
      esc = piece ++ out /\ bad = (b0 + b)%nat).
    { destruct s as [|c s]; [done|]. destruct (Nat.ltb_spec outsz (o + length piece + 1)); [done|].
      destruct (escape_loop _ _ _ _) as [[out b]|] eqn:E; [|done]. injection H as <- <-. by exists out, b. }
    clear H. destruct Hcase as (out & b & Hfit & E & -> & ->).
    assert (Hbd : bytes_ok (drop (chunk_len s) s)) by (by apply Forall_drop).
    destruct (IH _ _ _ _ E Hbd) as (I1 & I2 & I3 & I4 & I5 & I6).
    rewrite length_drop in I1. rewrite length_app.
    split; [lia|]. split; [|split; [by apply Forall_app|split; [by apply valid_app|split]]].
    + intros _. destruct (drop (chunk_len s) s) as [|x l] eqn:Ed; [|specialize (I2 ltac:(done)); lia].
      destruct fuel; [done|]. cbn in E. injection E as <- <-. simpl. lia.
    + intros Hz. rewrite utf8_clean_eq by done. rewrite I5 by lia. unfold clean_chunk, chunk_len.
      destruct (utf8_seq s); [simpl in Hb0; lia|]. apply take_drop.
    + intros f q out' osz Hf Ho. rewrite utf8_clean_eq in Ho by done. rewrite length_app in Ho.
      rewrite <- app_assoc in Hf |- *. rewrite Hdec by (done || lia).
      rewrite I6 by (rewrite ?length_app in *; lia).
      rewrite (utf8_clean_eq s) by done. by rewrite <- app_assoc.
Qed.

(** JSON escaping. For any bytes, [6 * len + 1] bytes of room are always
    enough (the builder allocates [6 * len + 3]), and no result ever needs more
    than the room given. The escaped text has no control character, is
    well-formed UTF-8 by the table of RFC 3629, and the string lookup decodes it
    back to the input with every ill-formed subpart replaced by U+FFFD; the input
    itself when it was well-formed or when no substitution was counted. *)
Theorem json_escape_correct (s : bytes) (outsz : nat) (Hs : bytes_ok s) :
  ((6 * length s + 1 <= outsz)%nat -> json_escape s outsz <> None) /\
  (forall esc bad, json_escape s outsz = Some (esc, bad) ->
     (s <> [] -> length esc + 1 <= outsz)%nat /\
     Forall (fun c => 32 <= c) esc /\ valid_utf8 esc /\
     (bad = 0%nat \/ valid_utf8 s -> utf8_clean s = s) /\
     forall rest osz, (length (utf8_clean s) + 1 <= osz)%nat ->
       value_loop (S (length (esc ++ DQUOTE :: rest))) (esc ++ DQUOTE :: rest) [] osz = Some (utf8_clean s)).
Proof.
  split.
  - intros Ho. destruct (escape_loop_total (S (length s)) s 0 outsz) as [r Hr]; [lia|done|lia|].
    unfold json_escape. by rewrite Hr.
  - intros esc bad H. destruct (escape_loop_sound _ _ _ _ _ _ H Hs) as (H1 & H2 & H3 & H4 & H5 & H6).
    split; [done|]. split; [done|]. split; [done|]. split; [intros [?|?]; [by apply H5|by apply clean_valid]|].
    intros rest osz Ho. rewrite H6 by (simpl; lia). done.
Qed.

Lemma json_escape_correct_witness :
  json_escape [DQUOTE; 195; 169; 128; LF] 31 = Some ([BACKSLASH; DQUOTE; 195; 169; 239; 191; 189; BACKSLASH; "n"%chr], 1%nat) /\
  value_loop 11 ([BACKSLASH; DQUOTE; 195; 169; 239; 191; 189; BACKSLASH; "n"%chr] ++ [DQUOTE]) [] 99
  = Some [DQUOTE; 195; 169; 239; 191; 189; LF].
Proof.
  split; [reflexivity|].
  refine (proj2 (proj2 (proj2 (proj2 (proj2 (json_escape_correct [DQUOTE; 195; 169; 128; LF] 31 _) _ _ eq_refl)))) [] 99%nat _).
  - by repeat constructor.
  - vm_compute. lia.
Defined.

(** ** The builder *)

Lemma grow_cap_some fuel nc need :
  1 <= nc -> need <= nc * 2 ^ Z.of_nat fuel -> need <= SIZE_MAX / 2 + 1 ->
  exists nc', grow_cap (S fuel) nc need = Some nc' /\ need <= nc'.
Proof.
  revert nc. induction fuel as [|fuel IH]; intros nc Hnc Hneed Hmax; cbn [grow_cap].
  - destruct (Z.ltb_spec nc need); [simpl in *; lia|]. eauto.
  - destruct (Z.ltb_spec nc need); [|eauto]. destruct (Z.gtb_spec nc (SIZE_MAX / 2)); [lia|].
    apply IH; [lia| |done]. replace (Z.of_nat (S fuel)) with (1 + Z.of_nat fuel) in Hneed by lia.
    rewrite Z.pow_add_r in Hneed by lia. lia.
Qed.

(** A builder with no error and a sane capacity. *)
Definition jb_ok (b : JsonBuilder) : Prop := jb_err b = false /\ 0 <= jb_cap b.

Lemma jsonb_raw_ok b s :
  jb_ok b -> jb_len b + len s + 1 <= SIZE_MAX / 2 ->
  exists b', jsonb_raw b s = (b', false) /\ jb_ok b' /\
    default [] (jb_buf b') = default [] (jb_buf b) ++ s /\ jb_len b' = jb_len b + len s.
Proof.
  intros [He Hc] Hl. unfold jsonb_raw, jsonb_grow. rewrite He.
  assert (Hlen : len (default [] (jb_buf b) ++ s) = jb_len b + len s).
  { unfold jb_len. rewrite length_app. lia. }
  destruct (Z.gtb_spec (jb_len b + len s + 1) (jb_cap b)).
  - destruct (grow_cap_some 64 (if jb_cap b =? 0 then 64 else jb_cap b) (jb_len b + len s + 1)) as (nc & -> & Hnc).
    + destruct (Z.eqb_spec (jb_cap b) 0); lia.
    + change (2 ^ Z.of_nat 64) with 18446744073709551616. change (SIZE_MAX / 2) with 9223372036854775807 in Hl.
      destruct (Z.eqb_spec (jb_cap b) 0); lia.
    + lia.
    + eexists. split; [done|]. cbn [jb_buf jb_cap jb_err default]. split; [split; [done|simpl; unfold jb_len in *; lia]|].
      done.
  - eexists. split; [done|]. done.
Qed.

(** Keys the lookups can find: printable ASCII without quote or backslash. *)
Definition plain_byte (c : Z) : bool := (32 <=? c) && (c <? 128) && negb (c =? DQUOTE) && negb (c =? BACKSLASH).
Definition plain (k : bytes) : Prop := Forall (fun c => plain_byte c = true) k.

Lemma plain_escape k o outsz fuel :
  plain k -> (length k < fuel)%nat -> (o + length k + 1 <= outsz)%nat ->
  escape_loop fuel k o outsz = Some (k, 0%nat).
Proof.
  revert fuel o. induction k as [|c k IH]; intros [|fuel] o Hk Hf Ho; simpl in Hf, Ho; try lia; [done|].
  inversion_clear Hk as [|? ? Hc Hk']. cbn [escape_loop].
  assert (Hst : escape_step (c :: k) = ([c], 1%nat, 0%nat)).
  { unfold escape_step, short_escape. unfold plain_byte in Hc.
    repeat (match goal with |- context [c =? ?x] => destruct (Z.eqb_spec c x); [subst; done|] end).
    destruct (Z.ltb_spec c 32); [lia|]. by destruct (Z.ltb_spec c 128); [|lia]. }
  rewrite Hst. simpl length. destruct (Nat.ltb_spec outsz (o + 1 + 1)); [lia|].
  cbn [drop]. by rewrite IH by (done || lia).
Qed.

(** Runs the next [jsonb_raw] of a goal. *)
Ltac run_raw :=
  match goal with
  | |- context [jsonb_raw ?b ?s] =>
      let H := fresh "Hraw" in let b' := fresh "b" in let H1 := fresh "Hok" in
      let H2 := fresh "Hbuf" in let H3 := fresh "Hlen" in
      destruct (jsonb_raw_ok b s) as (b' & H & H1 & H2 & H3); [done | simpl in *; lia |];
      rewrite H; clear H; cbn beta iota zeta
  end.

Lemma jsonb_quoted_ok b s close :
  jb_ok b -> bytes_ok s -> jb_len b + 6 * len s + len close + 2 <= SIZE_MAX / 2 ->
  exists b' esc bad, jsonb_quoted b s close = (b', false) /\ jb_ok b' /\
    json_escape s (length s * 6 + 3) = Some (esc, bad) /\
    default [] (jb_buf b') = default [] (jb_buf b) ++ DQUOTE :: esc ++ close /\
    jb_len b' <= jb_len b + 6 * len s + len close + 1.
Proof.
  intros Hb Hs Hl. unfold jsonb_quoted.
  destruct (escape_loop_total (S (length s)) s 0 (length s * 6 + 3)) as [[esc bad] He]; [lia|done|lia|].
  destruct (escape_loop_sound _ _ _ _ _ _ He Hs) as (H1 & _ & H3 & _).
  unfold json_escape in *. rewrite He, c_str_id by done.
  run_raw. run_raw. run_raw. eexists _, esc, bad. split; [done|]. split; [done|]. split; [done|].
  split; [by rewrite Hbuf1, Hbuf0, Hbuf, <- !app_assoc|]. simpl in *. lia.
Qed.

(** A one-member object, as the endpoints build them. *)
Definition build_obj (k : bytes) (put : JsonBuilder -> JsonBuilder * bool) : option bytes :=
  let '(b, _) := jsonb_begin_object jsonb_init in
  let '(b, _) := jsonb_key b (Some k) in
  let '(b, _) := put b in
  let '(b, _) := jsonb_end_object b in
  (jsonb_detach b).2.

Lemma build_obj_eq k put (val : bytes) :
  plain k -> len k <= 1000000 ->
  (forall b, jb_ok b -> jb_len b <= 10000000 -> exists b' f, put b = (b', f) /\ jb_ok b' /\
     default [] (jb_buf b') = default [] (jb_buf b) ++ val /\ jb_len b' + 2 <= SIZE_MAX / 2) ->
  build_obj k put = Some ("{"%chr :: DQUOTE :: k ++ DQUOTE :: ":"%chr :: val ++ bs "}").
Proof.
  intros Hk Hl Hput. unfold build_obj, jsonb_begin_object, jsonb_end_object, jsonb_key.
  change (SIZE_MAX / 2) with 9223372036854775807 in *.
  assert (Hi : jb_ok jsonb_init) by (split; simpl; (done || lia)).
  assert (Hl0 : jb_len jsonb_init = 0) by done.
  destruct (jsonb_raw_ok jsonb_init (bs "{")) as (b1 & -> & Hok1 & Hb1 & Hl1); [done|by vm_compute|].
  assert (Hkb : bytes_ok k).
  { apply (Forall_impl _ _ _ Hk). intros c Hc. unfold plain_byte, is_byte in *. lia. }
  change (len (bs "{")) with 1 in Hl1.
  destruct (jsonb_quoted_ok b1 k [DQUOTE; ":"%chr]) as (b2 & esc & bad & -> & Hok2 & He & Hb2 & Hl2);
    [done|done|change (SIZE_MAX / 2) with 9223372036854775807; simpl; lia|].
  unfold json_escape in He. rewrite plain_escape in He by (done || lia). injection He as <- _.
  change (len [DQUOTE; ":"%chr]) with 2 in Hl2.
  destruct (Hput b2) as (b3 & f & -> & Hok3 & Hb3 & Hl3); [done|lia|].
  destruct (jsonb_raw_ok b3 (bs "}")) as (b4 & -> & [Herr _] & Hb4 & Hl4);
    [done|change (SIZE_MAX / 2) with 9223372036854775807; change (len (bs "}")) with 1; lia|].
  unfold jsonb_detach. rewrite Herr. cbn [snd]. rewrite Hb4, Hb3, Hb2, Hb1.
  simpl. by rewrite <- !app_assoc.
Qed.

Lemma plain_no_quote k : plain k -> DQUOTE ∉ k.
Proof. unfold plain. intros Hk Hin. rewrite Forall_forall in Hk. by apply Hk in Hin. Qed.

Lemma key_loop_first {A} k rest (found : bytes -> option A) fuel :
  plain k -> key_loop (S fuel) ("{"%chr :: DQUOTE :: k ++ DQUOTE :: rest) k found = found rest.
Proof.
  intros Hk. cbn [key_loop cut]. change ("{"%chr =? DQUOTE) with false. change (DQUOTE =? DQUOTE) with true.
  cbv iota. rewrite cut_app by (by apply plain_no_quote). by rewrite (proj2 (beq_spec k k)).
Qed.

(** A string built into an object is read back. For any plain key, the
    object the builder makes for a byte string is found by [json_obj_get_str]
    under that key, and the value is the string with ill-formed UTF-8 replaced,
    whenever the output buffer has room for it and its NUL. *)
Theorem json_str_roundtrip (k v : bytes) (outsz : nat)
  (Hk : plain k) (Hkl : len k <= 1000000) (Hv : bytes_ok v) (Hvl : len v <= 1000000000)
  (Hout : (length (utf8_clean v) < outsz)%nat) :
  exists doc, build_obj k (fun b => jsonb_str b (Some v)) = Some doc /\
    json_obj_get_str doc k outsz = Some (utf8_clean v).
Proof.
  destruct (escape_loop_total (S (length v)) v 0 (length v * 6 + 3)) as [[esc bad] He]; [lia|done|lia|].
  eexists. split.
  - apply (build_obj_eq k _ (DQUOTE :: esc ++ [DQUOTE])); [done|done|]. intros b Hb Hbl.
    destruct (jsonb_quoted_ok b v [DQUOTE]) as (b' & esc' & bad' & Hq & Hok & He' & Hbuf & Hl);
      [done|done|change (SIZE_MAX / 2) with 9223372036854775807; simpl; lia|].
    unfold json_escape in He'. rewrite He in He'. injection He' as <- <-.
    exists b', false. split; [done|]. split; [done|]. split; [done|].
    change (SIZE_MAX / 2) with 9223372036854775807. change (len [DQUOTE]) with 1 in Hl. lia.
  - unfold json_obj_get_str. destruct (Nat.eqb_spec outsz 0); [lia|].
    rewrite key_loop_first by done. unfold str_value.
    cbn [drop_while]. change (json_space ":"%chr) with false. cbv iota.
    change (":"%chr =? ":"%chr) with true. cbv iota. cbn [app drop_while].
    change (json_space DQUOTE) with false. cbv iota. change (DQUOTE =? DQUOTE) with true. cbv iota.
    destruct (escape_loop_sound _ _ _ _ _ _ He Hv) as (_ & _ & _ & _ & _ & Hdec).
    rewrite <- app_assoc. rewrite Hdec by (simpl; lia). done.
Qed.

Lemma json_str_roundtrip_witness :
  exists doc, build_obj (bs "alias") (fun b => jsonb_str b (Some (bs "a@b"))) = Some doc /\
    json_obj_get_str doc (bs "alias") 512 = Some (bs "a@b").
Proof.
  apply (json_str_roundtrip (bs "alias") (bs "a@b") 512); try (by repeat constructor); vm_compute; lia.
Defined.

(** ** Decimal numbers *)

Definition digits (ds : bytes) : Prop := Forall (fun c => is_digit c = true) ds.

Lemma dec_value_mono ds v : digits ds -> 0 <= v -> v <= dec_value v ds.
Proof.
  intros Hd. revert v. induction Hd as [|c ds Hc _ IH]; intros v Hv; [done|].
  unfold is_digit in Hc. cbn [dec_value foldl]. transitivity (v * 10 + (c - "0"%chr)); [lia|].
  apply IH. lia.
Qed.

(** The overflow test of the loop is exact. *)
Lemma u32_loop_exact ds rest v :
  digits ds -> (forall c, head rest = Some c -> is_digit c = false) -> 0 <= v <= UINT32_MAX ->
  u32_loop (ds ++ rest) v = if dec_value v ds <=? UINT32_MAX then Some (dec_value v ds) else None.
Proof.
  intros Hd Hr. revert v. induction Hd as [|c ds Hc Hd IH]; intros v Hv.
  - cbn [app dec_value foldl]. destruct (Z.leb_spec v UINT32_MAX); [|lia].
    destruct rest as [|c rest]; [done|]. cbn [u32_loop]. by rewrite Hr.
  - cbn [app u32_loop]. rewrite Hc. unfold is_digit in Hc. cbn [dec_value foldl]. fold (dec_value (v * 10 + (c - "0"%chr)) ds).
    pose proof (dec_value_mono ds (v * 10 + (c - "0"%chr)) Hd ltac:(lia)) as Hm.
    destruct (Z.gtb_spec v ((UINT32_MAX - (c - "0"%chr)) / 10)) as [Hgt|Hle].
    + destruct (Z.leb_spec (dec_value (v * 10 + (c - "0"%chr)) ds) UINT32_MAX); [|done].
      exfalso. assert ((UINT32_MAX - (c - "0"%chr)) / 10 >= v); [|lia].
      apply Z.le_ge, Z.div_le_lower_bound; lia.
    + assert (10 * v <= UINT32_MAX - (c - "0"%chr)).
      { transitivity (10 * ((UINT32_MAX - (c - "0"%chr)) / 10)); [lia|]. apply Z.mul_div_le. lia. }
      apply IH. lia.
Qed.

Lemma dec_digits_digits fuel v acc : digits acc -> digits (dec_digits fuel v acc).
Proof.
  revert v acc. induction fuel as [|fuel IH]; intros v acc Ha; [done|]. cbn [dec_digits].
  assert (Hd : digits (("0"%chr + v mod 10) :: acc)).
  { constructor; [|done]. unfold is_digit. pose proof (Z.mod_pos_bound v 10 ltac:(lia)). apply andb_true_iff. rewrite !Z.leb_le. lia. }
  destruct (v <? 10); [done|]. by apply IH.
Qed.

Lemma dec_digits_spec fuel v acc :
  0 <= v < 10 ^ Z.of_nat fuel -> (0 < fuel)%nat ->
  exists ds, dec_digits fuel v acc = ds ++ acc /\ digits ds /\ ds <> [] /\ (length ds <= fuel)%nat /\
    forall z, dec_value z ds = z * 10 ^ len ds + v.
Proof.
  revert v acc. induction fuel as [|fuel IH]; intros v acc Hv Hf; [lia|]. cbn [dec_digits].
  assert (Hdig : is_digit ("0"%chr + v mod 10) = true).
  { unfold is_digit. pose proof (Z.mod_pos_bound v 10). lia. }
  destruct (Z.ltb_spec v 10) as [Hlt|Hge].
  - exists ["0"%chr + v mod 10]. split; [done|]. split; [by repeat constructor|]. split; [done|].
    split; [simpl; lia|]. intros z. rewrite Z.mod_small by lia. simpl. lia.
  - destruct (IH (v / 10) (("0"%chr + v mod 10) :: acc)) as (ds & E & Hd & Hne & Hl & Hval).
    + split; [apply Z.div_pos; lia|]. apply Z.div_lt_upper_bound; [lia|].
      replace (Z.of_nat (S fuel)) with (1 + Z.of_nat fuel) in Hv by lia. rewrite Z.pow_add_r in Hv by lia. lia.
    + destruct fuel; [|lia]. simpl in Hv. lia.
    + exists (ds ++ ["0"%chr + v mod 10]). split; [by rewrite E, <- app_assoc|].
      split; [apply Forall_app; split; [done|by repeat constructor]|]. split; [by destruct ds|].
      rewrite length_app. split; [simpl; lia|]. intros z. unfold dec_value in *. rewrite foldl_app. cbn [foldl].
      rewrite Hval. rewrite Nat2Z.inj_add, Z.pow_add_r by lia. change (10 ^ Z.of_nat (length [_])) with 10.
      pose proof (Z.div_mod v 10 ltac:(lia)). lia.
Qed.

(** 32-bit numbers. For any plain key, the number lookup on an object whose
    value is a digit string returns exactly its value when that fits 32 bits and
    fails otherwise, for any number of digits; and a number the builder prints is
    read back as itself. *)
Theorem json_u32_exact (k ds : bytes) (v : Z)
  (Hk : plain k) (Hkl : len k <= 1000000) (Hds : digits ds) (Hne : ds <> []) (Hv : 0 <= v <= UINT32_MAX) :
  json_obj_get_u32 ("{"%chr :: DQUOTE :: k ++ DQUOTE :: ":"%chr :: ds ++ bs "}") k
    = (if dec_value 0 ds <=? UINT32_MAX then Some (dec_value 0 ds) else None) /\
  (exists doc, build_obj k (fun b => jsonb_u32 b v) = Some doc /\ json_obj_get_u32 doc k = Some v).
Proof.
  assert (Hget : forall ds, digits ds -> ds <> [] ->
    json_obj_get_u32 ("{"%chr :: DQUOTE :: k ++ DQUOTE :: ":"%chr :: ds ++ bs "}") k
    = (if dec_value 0 ds <=? UINT32_MAX then Some (dec_value 0 ds) else None)).
  { clear ds Hds Hne. intros ds Hds Hne. unfold json_obj_get_u32. rewrite key_loop_first by done.
    unfold u32_value. cbn [drop_while]. change (json_space ":"%chr) with false. cbv iota.
    change (":"%chr =? ":"%chr) with true. cbv iota. destruct ds as [|c ds]; [done|].
    inversion Hds as [|? ? Hc Hds']. subst. cbn [app drop_while].
    assert (json_space c = false) as -> by (unfold is_digit, json_space in *; lia). rewrite Hc.
    apply (u32_loop_exact (c :: ds) (bs "}") 0); [done| |unfold UINT32_MAX; lia].
    by intros c' [= <-]. }
  split; [by apply Hget|].
  destruct (dec_digits_spec 10 v []) as (pd & Hp & Hpd & Hpn & Hpl & Hpv);
    [unfold UINT32_MAX in Hv; simpl; lia|lia|].
  rewrite app_nil_r in Hp. change (dec_digits 10 v []) with (print_u32 v) in Hp.
  eexists. split.
  - apply (build_obj_eq k _ pd); [done|done|]. intros b Hb Hbl. unfold jsonb_u32. rewrite Hp.
    destruct (Nat.leb_spec 16 (length pd)); [lia|].
    destruct (jsonb_raw_ok b pd) as (b' & Hr & Hok & Hbuf & Hl);
      [done|change (SIZE_MAX / 2) with 9223372036854775807; lia|].
    exists b', false. split; [done|]. split; [done|]. split; [done|].
    change (SIZE_MAX / 2) with 9223372036854775807. lia.
  - rewrite Hget by done. rewrite Hpv, Z.mul_0_l, Z.add_0_l. by destruct (Z.leb_spec v UINT32_MAX); [|lia].
Qed.

Lemma json_u32_exact_witness :
  json_obj_get_u32 (bs "{" ++ DQUOTE :: bs "msgid" ++ DQUOTE :: bs ":4294967296}") (bs "msgid") = None.
Proof.
  refine (proj1 (json_u32_exact (bs "msgid") (bs "4294967296") 7 _ _ _ _ _));
    first [by repeat constructor | done | vm_compute; (lia || split; congruence)].
Defined.

(** The lookups pair quotes without tracking whether a string is a key: a value
    equal to the key, earlier in the object, hides the key. *)
Lemma json_value_hides_key :
  json_obj_get_str (bs "{" ++ DQUOTE :: bs "destination" ++ DQUOTE :: bs ":" ++ DQUOTE :: bs "alias" ++
    DQUOTE :: bs "," ++ DQUOTE :: bs "alias" ++ DQUOTE :: bs ":" ++ DQUOTE :: bs "a@b" ++ DQUOTE :: bs "}")
    (bs "alias") 512 = None.
Proof. reflexivity. Qed.
