(* ===== verification/DlEngine.v ===== *)
(** * The fact engine behind the store, as an interface

    [src/src/store.c] keeps its data in the embedded datalog engine [<dl.h>], a
    git submodule outside this tree. The engine is a parameter: [DlEngine] lists
    the calls the store makes, [DlLaws] what the store relies on (interning is
    1-based, deduplicating and append-only; a relation is a set of rows; a prefix
    walk visits exactly the matching rows, once each, in lexicographic order; a
    failed write leaves its row in either state and touches no other row), and
    [DlHealthy] that no call fails. [MemEngine] is a concrete in-memory engine
    that satisfies them; [traced] records the database after every durable write,
    which is where a crash can leave it. *)

From Stdlib Require Import Sorting.Sorted.
From S2P Require Import Prelude.

Inductive Rel := RDomain | RAlias | RRevmap | RLog | RMeta | RQueue.

#[global] Instance Rel_eq_dec : EqDecision Rel.
Proof. solve_decision. Defined.

Abbreviation row := (list Z).

Class DlEngine := {
  dl_db : Type;
  (** the new handle state and the symbol id, 0 on failure *)
  dl_intern_str : dl_db -> bytes -> dl_db * Z;
  (** [None] for NULL *)
  dl_intern_str_of : dl_db -> Z -> option bytes;
  (** the new state and the return code, negative on failure *)
  dl_add_fact : dl_db -> Rel -> row -> dl_db * Z;
  dl_delete_fact : dl_db -> Rel -> row -> dl_db * Z;
  (** the rows a prefix walk visits, and whether it ran to the end without an
      engine error *)
  dl_rows : dl_db -> Rel -> row -> list row * bool;
  (** bulk load from the file at this path *)
  dl_load_facts : dl_db -> Rel -> bytes -> dl_db * Z;
  (** abstract view: is this row in the relation? *)
  dl_has : dl_db -> Rel -> row -> Prop;
}.

(** Lexicographic order on rows of integers. *)
Fixpoint row_leb (a b : row) : bool :=
  match a, b with
  | [], _ => true
  | _ :: _, [] => false
  | x :: a', y :: b' => (x <? y) || ((x =? y) && row_leb a' b')
  end.

Definition row_le (a b : row) : Prop := row_leb a b = true.

(** What a write of [row] to relation [r] leaves of every other row. *)
Definition same_but {E : DlEngine} (db db' : dl_db) (r : Rel) (x : row) : Prop :=
  forall r' y, (r', y) <> (r, x) -> dl_has db' r' y <-> dl_has db r' y.

Class DlLaws (E : DlEngine) := {
  intern_has db s r x : dl_has (dl_intern_str db s).1 r x <-> dl_has db r x;
  intern_nonneg db s : 0 <= (dl_intern_str db s).2;
  intern_str_of db s :
    (dl_intern_str db s).2 <> 0 ->
    dl_intern_str_of (dl_intern_str db s).1 (dl_intern_str db s).2 = Some s;
  intern_keep db s i t :
    dl_intern_str_of db i = Some t -> dl_intern_str_of (dl_intern_str db s).1 i = Some t;
  str_of_inj db i j s :
    dl_intern_str_of db i = Some s -> dl_intern_str_of db j = Some s -> i = j;
  add_str_of db r x i : dl_intern_str_of (dl_add_fact db r x).1 i = dl_intern_str_of db i;
  del_str_of db r x i : dl_intern_str_of (dl_delete_fact db r x).1 i = dl_intern_str_of db i;
  add_same db r x : same_but db (dl_add_fact db r x).1 r x;
  add_keeps db r x : dl_has db r x -> dl_has (dl_add_fact db r x).1 r x;
  add_ok db r x : 0 <= (dl_add_fact db r x).2 -> dl_has (dl_add_fact db r x).1 r x;
  del_same db r x : same_but db (dl_delete_fact db r x).1 r x;
  del_sub db r x : dl_has (dl_delete_fact db r x).1 r x -> dl_has db r x;
  del_ok db r x : 0 <= (dl_delete_fact db r x).2 -> ~ dl_has (dl_delete_fact db r x).1 r x;
  rows_exact db r p :
    (dl_rows db r p).2 = true ->
    forall x, x ∈ (dl_rows db r p).1 <-> (dl_has db r x /\ take (length p) x = p);
  rows_nodup db r p : NoDup (dl_rows db r p).1;
  rows_sorted db r p : StronglySorted row_le (dl_rows db r p).1;
}.

Class DlHealthy (E : DlEngine) := {
  intern_healthy db s : (dl_intern_str db s).2 <> 0;
  add_healthy db r x : 0 <= (dl_add_fact db r x).2;
  del_healthy db r x : 0 <= (dl_delete_fact db r x).2;
  rows_healthy db r p : (dl_rows db r p).2 = true;
}.

(** ** Walks

    [dl_prefix db rel leading cb a]: the callback is run on each row until it
    asks to stop; the result is the number of rows handed to it, or -1 on an
    engine error, and the callback's context. *)

Fixpoint walk {A} (cb : A -> row -> A * bool) (rows : list row) (n : Z) (a : A) : Z * A :=
  match rows with
  | [] => (n, a)
  | x :: rows' =>
      let '(a', stop) := cb a x in
      if stop then (n + 1, a') else walk cb rows' (n + 1) a'
  end.

Definition dl_prefix {E : DlEngine} {A} (db : dl_db) (r : Rel) (leading : row)
    (cb : A -> row -> A * bool) (a : A) : Z * A :=
  let '(rows, ok) := dl_rows db r leading in
  let '(n, a') := walk cb rows 0 a in
  (if ok then n else -1, a').

(** A callback that never stops folds over the rows. *)
Lemma walk_fold {A} (f : A -> row -> A) rows n a :
  walk (fun a x => (f a x, false)) rows n a = (n + Z.of_nat (length rows), foldl f a rows).
Proof.
  revert n a. induction rows as [|x rows IH]; intros n a; simpl; [f_equal; lia|].
  rewrite IH. f_equal. lia.
Qed.

Lemma walk_ext {A} (f g : A -> row -> A * bool) rows n a :
  (forall a x, f a x = g a x) -> walk f rows n a = walk g rows n a.
Proof.
  intros Hfg. revert n a. induction rows as [|x rows IH]; intros n a; simpl; [done|].
  rewrite Hfg. destruct (g a x) as [a' []]; [done|]. apply IH.
Qed.

Lemma dl_prefix_fold {E : DlEngine} {A} db r p (f : A -> row -> A) a :
  dl_prefix db r p (fun a x => (f a x, false)) a
  = (if (dl_rows db r p).2 then Z.of_nat (length (dl_rows db r p).1) else -1,
     foldl f a (dl_rows db r p).1).
Proof.
  unfold dl_prefix. destruct (dl_rows db r p) as [rows ok]. by rewrite walk_fold.
Qed.

(** ** Recording the states a crash can leave *)

(** A handle that also remembers the database after each durable write, latest
    first. *)
Definition traced (E : DlEngine) : DlEngine := {|
  dl_db := (@dl_db E * list (@dl_db E))%type;
  dl_intern_str '(db, h) s := let '(db', i) := dl_intern_str db s in ((db', h), i);
  dl_intern_str_of '(db, _) i := dl_intern_str_of db i;
  dl_add_fact '(db, h) r x := let '(db', rc) := dl_add_fact db r x in ((db', db' :: h), rc);
  dl_delete_fact '(db, h) r x := let '(db', rc) := dl_delete_fact db r x in ((db', db' :: h), rc);
  dl_rows '(db, _) r p := dl_rows db r p;
  dl_load_facts '(db, h) r p := let '(db', rc) := dl_load_facts db r p in ((db', db' :: h), rc);
  dl_has '(db, _) r x := dl_has db r x;
|}.

(** ** A concrete engine *)

Record mem_db := Mem { mem_strs : list bytes; mem_rows : Rel -> list row }.

Definition rel_eqb (a b : Rel) : bool := bool_decide (a = b).
Definition row_eqb (a b : row) : bool := bool_decide (a = b).

Definition mem_set (db : mem_db) (r : Rel) (rows : list row) : mem_db :=
  Mem (mem_strs db) (fun r' => if rel_eqb r' r then rows else mem_rows db r').

Fixpoint str_index (s : bytes) (l : list bytes) (i : Z) : Z :=
  match l with
  | [] => 0
  | x :: l' => if beq x s then i else str_index s l' (i + 1)
  end.

Definition mem_intern (db : mem_db) (s : bytes) : mem_db * Z :=
  let i := str_index s (mem_strs db) 1 in
  if i =? 0 then (Mem (mem_strs db ++ [s]) (mem_rows db), Z.of_nat (length (mem_strs db)) + 1)
  else (db, i).

Definition mem_str_of (db : mem_db) (i : Z) : option bytes :=
  if i <=? 0 then None
  else s ← mem_strs db !! Z.to_nat (i - 1);
       if str_index s (mem_strs db) 1 =? i then Some s else None.

Fixpoint row_insert (x : row) (l : list row) : list row :=
  match l with
  | [] => [x]
  | y :: l' => if row_eqb x y then l else if row_leb x y then x :: l else y :: row_insert x l'
  end.

Definition is_row_prefix (p x : row) : bool := row_eqb (take (length p) x) p.

(** The matching rows, sorted and without duplicates. *)
Definition mem_walk (db : mem_db) (r : Rel) (p : row) : list row :=
  List.filter (is_row_prefix p) (foldr row_insert [] (mem_rows db r)).

Definition MemEngine : DlEngine := {|
  dl_db := mem_db;
  dl_intern_str := mem_intern;
  dl_intern_str_of := mem_str_of;
  dl_add_fact db r x := (mem_set db r (x :: mem_rows db r), 0);
  dl_delete_fact db r x := (mem_set db r (List.filter (fun y => negb (row_eqb x y)) (mem_rows db r)), 0);
  dl_rows db r p := (mem_walk db r p, true);
  dl_load_facts db r path := (db, 0);
  dl_has db r x := x ∈ mem_rows db r;
|}.

Definition mem_empty : mem_db := Mem [] (fun _ => []).

Lemma rel_eqb_true a b : rel_eqb a b = true <-> a = b.
Proof. unfold rel_eqb. by rewrite bool_decide_eq_true. Qed.

Lemma row_eqb_true a b : row_eqb a b = true <-> a = b.
Proof. unfold row_eqb. by rewrite bool_decide_eq_true. Qed.

Lemma filter_In {A} (p : A -> bool) l x : x ∈ List.filter p l <-> x ∈ l /\ p x = true.
Proof. rewrite !list_elem_of_In. apply List.filter_In. Qed.

Lemma row_insert_elem x y l : y ∈ row_insert x l <-> y = x \/ y ∈ l.
Proof.
  induction l as [|z l IH]; simpl.
  - by rewrite !elem_of_cons.
  - destruct (row_eqb x z) eqn:E.
    + apply row_eqb_true in E as ->. rewrite elem_of_cons. naive_solver.
    + destruct (row_leb x z); rewrite !elem_of_cons; [done|]. rewrite IH. naive_solver.
Qed.

Lemma row_leb_total a b : row_leb a b = false -> row_leb b a = true.
Proof.
  revert b. induction a as [|x a IH]; intros [|y b]; simpl; try done.
  intros [H1 H2]%orb_false_iff. apply Z.ltb_ge in H1.
  destruct (Z.ltb_spec y x); [done|]. assert (x = y) as -> by lia.
  rewrite Z.eqb_refl in *. simpl in *. by apply IH.
Qed.

Lemma row_leb_trans a b c : row_leb a b = true -> row_leb b c = true -> row_leb a c = true.
Proof.
  revert b c. induction a as [|x a IH]; intros [|y b] [|z c]; simpl; try done.
  rewrite !orb_true_iff, !andb_true_iff, !Z.ltb_lt, !Z.eqb_eq.
  intros [H|[-> H]] [H'|[-> H']]; try (left; lia). right. split; [done|]. by apply (IH b).
Qed.

Lemma row_leb_antisym a b : row_leb a b = true -> row_leb b a = true -> a = b.
Proof.
  revert b. induction a as [|x a IH]; intros [|y b]; simpl; try done.
  rewrite !orb_true_iff, !andb_true_iff, !Z.ltb_lt, !Z.eqb_eq.
  intros [H|[-> H]] [H'|[E H']]; try lia. f_equal. by apply IH.
Qed.

Lemma row_insert_sorted x l : StronglySorted row_le l -> StronglySorted row_le (row_insert x l).
Proof.
  induction 1 as [|y l Hs IH Hh]; simpl; [by repeat constructor|].
  destruct (row_eqb x y); [by constructor|]. destruct (row_leb x y) eqn:E.
  - constructor; [by constructor|]. constructor; [done|].
    apply (Forall_impl _ _ _ Hh). intros z. by apply row_leb_trans.
  - apply row_leb_total in E. constructor; [done|]. apply Forall_forall. intros z.
    rewrite row_insert_elem. intros [->|Hz]; [done|]. rewrite Forall_forall in Hh. auto.
Qed.

Lemma row_insert_nodup x l : StronglySorted row_le l -> NoDup l -> NoDup (row_insert x l).
Proof.
  induction 1 as [|y l Hs IH Hh]; simpl; intros Hn; [apply NoDup_singleton|].
  apply NoDup_cons in Hn as [Hy Hn]. destruct (row_eqb x y) eqn:Exy; [by constructor|].
  assert (Hxy : x <> y) by (intros ->; by rewrite (proj2 (row_eqb_true y y)) in Exy).
  destruct (row_leb x y) eqn:E.
  - constructor; [|by constructor]. rewrite elem_of_cons. intros [?|Hx]; [done|].
    rewrite Forall_forall in Hh. by destruct (Hxy (row_leb_antisym _ _ E (Hh x Hx))).
  - constructor; [|by apply IH]. rewrite row_insert_elem. intros [?|?]; congruence.
Qed.

Lemma mem_sort_facts l :
  StronglySorted row_le (foldr row_insert [] l) /\ NoDup (foldr row_insert [] l) /\
  (forall x, x ∈ foldr row_insert [] l <-> x ∈ l).
Proof.
  induction l as [|y l (IH1 & IH2 & IH3)]; simpl; [by repeat constructor|].
  split; [by apply row_insert_sorted|]. split; [by apply row_insert_nodup|].
  intros x. by rewrite row_insert_elem, elem_of_cons, IH3.
Qed.

Lemma filter_sorted p l : StronglySorted row_le l -> StronglySorted row_le (List.filter p l).
Proof.
  induction 1 as [|y l Hs IH Hh]; simpl; [constructor|]. destruct (p y); [|done].
  constructor; [done|]. apply Forall_forall. intros z [Hz _]%filter_In.
  rewrite Forall_forall in Hh. auto.
Qed.

Lemma filter_nodup {A} (p : A -> bool) l : NoDup l -> NoDup (List.filter p l).
Proof. rewrite !NoDup_ListNoDup. apply List.NoDup_filter. Qed.

Lemma str_index_spec s l i :
  0 < i ->
  match str_index s l i with
  | Z0 => s ∉ l
  | j => i <= j /\ l !! Z.to_nat (j - i) = Some s
  end.
Proof.
  revert i. induction l as [|x l IH]; intros i Hi; simpl; [apply not_elem_of_nil|].
  destruct (beq x s) eqn:E.
  - apply beq_spec in E as ->. destruct i; try lia. split; [lia|]. by rewrite Z.sub_diag.
  - assert (x <> s) by (intros ->; by rewrite (proj2 (beq_spec s s)) in E).
    specialize (IH (i + 1) ltac:(lia)). destruct (str_index s l (i + 1)) as [|j|j]; try (destruct IH; lia).
    + rewrite not_elem_of_cons. done.
    + destruct IH as [Hj Hl]. split; [lia|].
      replace (Z.to_nat (Z.pos j - i)) with (S (Z.to_nat (Z.pos j - (i + 1)))) by lia. done.
Qed.

Lemma str_index_app s l t i :
  0 < i -> str_index s (l ++ [t]) i =
  if str_index s l i =? 0 then (if beq t s then i + Z.of_nat (length l) else 0) else str_index s l i.
Proof.
  revert i. induction l as [|x l IH]; intros i Hi; simpl.
  - destruct (beq t s); [|done]. lia.
  - destruct (beq x s); [by destruct (Z.eqb_spec i 0); [lia|]|].
    rewrite IH by lia. destruct (_ =? 0); [|done]. destruct (beq t s); lia.
Qed.

Lemma mem_str_of_some db i s :
  mem_str_of db i = Some s <-> 0 < i /\ str_index s (mem_strs db) 1 = i.
Proof.
  unfold mem_str_of. pose proof (str_index_spec s (mem_strs db) 1 ltac:(lia)) as Hs. split.
  - destruct (Z.leb_spec i 0); [done|]. destruct (mem_strs db !! _) as [t|]; [|done]. simpl.
    destruct (Z.eqb_spec (str_index t (mem_strs db) 1) i); [|done]. by intros [= <-].
  - intros [Hi E]. destruct (Z.leb_spec i 0); [lia|]. rewrite E in Hs.
    destruct i as [|j|j]; try lia. destruct Hs as [_ ->]. simpl. by rewrite E, Z.eqb_refl.
Qed.

Lemma mem_set_has db r rows r' x :
  x ∈ mem_rows (mem_set db r rows) r' <-> x ∈ (if rel_eqb r' r then rows else mem_rows db r').
Proof. done. Qed.

#[global] Instance MemLaws : DlLaws MemEngine.
Proof.
  split; cbn [MemEngine dl_db dl_intern_str dl_intern_str_of dl_add_fact dl_delete_fact dl_rows dl_has fst snd].
  - intros db s r x. unfold mem_intern. by destruct (_ =? 0).
  - intros db s. unfold mem_intern. pose proof (str_index_spec s (mem_strs db) 1 ltac:(lia)) as Hs.
    destruct (Z.eqb_spec (str_index s (mem_strs db) 1) 0); simpl; [lia|].
    destruct (str_index _ _ _); [done|destruct Hs; lia..].
  - intros db s _. apply mem_str_of_some. unfold mem_intern.
    pose proof (str_index_spec s (mem_strs db) 1 ltac:(lia)) as Hs.
    destruct (Z.eqb_spec (str_index s (mem_strs db) 1) 0) as [E|E]; cbn [fst snd mem_strs].
    + split; [lia|]. rewrite str_index_app, E by lia. simpl. rewrite (proj2 (beq_spec s s)) by done. lia.
    + destruct (str_index _ _ _); [done| |]; destruct Hs; (split; [lia|done]).
  - intros db s i t. rewrite !mem_str_of_some. intros [Hi Ht]. split; [done|]. unfold mem_intern.
    destruct (_ =? 0); [|done]. cbn [fst mem_strs]. rewrite str_index_app, Ht by lia.
    by destruct (Z.eqb_spec i 0); [lia|].
  - intros db i j s. rewrite !mem_str_of_some. intros [_ <-] [_ <-]. done.
  - done.
  - done.
  - intros db r x r' y Hne. cbn [dl_has MemEngine]. rewrite mem_set_has. destruct (rel_eqb r' r) eqn:E; [|done].
    apply rel_eqb_true in E as ->. rewrite elem_of_cons. split; [|by right].
    intros [->|?]; [|done]. by destruct Hne.
  - intros db r x H. rewrite mem_set_has, (proj2 (rel_eqb_true r r)) by done. by right.
  - intros db r x _. rewrite mem_set_has, (proj2 (rel_eqb_true r r)) by done. by left.
  - intros db r x r' y Hne. cbn [dl_has MemEngine]. rewrite mem_set_has. destruct (rel_eqb r' r) eqn:E; [|done].
    apply rel_eqb_true in E as ->. rewrite filter_In. split; [by intros []|]. intros Hy. split; [done|].
    destruct (row_eqb x y) eqn:Ex; [|done]. apply row_eqb_true in Ex as ->. by destruct Hne.
  - intros db r x. rewrite mem_set_has, (proj2 (rel_eqb_true r r)) by done. by intros []%filter_In.
  - intros db r x _. rewrite mem_set_has, (proj2 (rel_eqb_true r r)), filter_In by done.
    rewrite (proj2 (row_eqb_true x x)) by done. by intros [].
  - intros db r p _ x. unfold mem_walk. rewrite filter_In. destruct (mem_sort_facts (mem_rows db r)) as (_ & _ & ->).
    unfold is_row_prefix. by rewrite row_eqb_true.
  - intros db r p. apply filter_nodup, mem_sort_facts.
  - intros db r p. apply filter_sorted, mem_sort_facts.
Qed.

#[global] Instance MemHealthy : DlHealthy MemEngine.
Proof.
  split; cbn [MemEngine dl_intern_str dl_add_fact dl_delete_fact dl_rows fst snd]; try done.
  intros db s. unfold mem_intern. destruct (Z.eqb_spec (str_index s (mem_strs db) 1) 0); simpl; lia.
Qed.
