(* ===== verification/Store.v ===== *)
(** * The store (src/src/store.c, src/src/store.h)

    Every operation of the store over the fact engine of [DlEngine]. The handle
    [Store] carries the database and the cached soonest due time. Return codes
    are the [VISAGE_*] constants. [time(NULL)] is an argument. *)

From Stdlib Require Import Sorting.Sorted.
From S2P Require Import Prelude DlEngine.

(** ** Constants *)

Definition REVMAP_TTL_SEC : Z := 30 * 24 * 3600.
Definition LOG_RETENTION_SEC : Z := 30 * 24 * 3600.
Definition META_KEY_NEXT_MSGID : bytes := bs "next_msgid".
Definition QUEUE_STATUS_QUEUED : bytes := bs "queued".
Definition QUEUE_STATUS_DELIVERING : bytes := bs "delivering".
Definition META_MAX_ROWS : nat := 16.
Definition QUEUE_SET_MAX_ROWS : nat := 16.

(** Column [i] of a row. *)
Definition col (cols : row) (i : nat) : Z := nth i cols 0.


(** ** Helpers *)

(** [split_addr]: [local@domain] split at the first '@', both parts lowered;
    [None] for VISAGE_EPARAM. *)
Definition split_addr (addr : bytes) : option (bytes * bytes) :=
  match cut "@"%chr addr with
  | None => None
  | Some (l, d) =>
      if is_nil l then None
      else if is_nil d then None
      else Some (lower l, lower d)
  end.

Section Store.
Context {E : DlEngine}.

Record Store := MkStore {
  db : dl_db;
  next_due : Z;
  next_due_dirty : bool;
}.

Definition with_db (s : Store) (d : dl_db) : Store := MkStore d (next_due s) (next_due_dirty s).

(** [dl_intern_str], [dl_add_fact] and [dl_delete_fact] on the handle. *)
Definition intern (s : Store) (x : bytes) : Store * Z :=
  let '(d, i) := dl_intern_str (db s) x in (with_db s d, i).

Definition add_fact (s : Store) (r : Rel) (cols : row) : Store * Z :=
  let '(d, rc) := dl_add_fact (db s) r cols in (with_db s d, rc).

Definition delete_fact (s : Store) (r : Rel) (cols : row) : Store * Z :=
  let '(d, rc) := dl_delete_fact (db s) r cols in (with_db s d, rc).

(** [for (i...) (void)dl_delete_fact(...)] over a list of rows. *)
Definition delete_rows (s : Store) (r : Rel) (rows : list row) : Store :=
  foldl (fun s x => (delete_fact s r x).1) s rows.

(** ** Walk callbacks *)

Definition count_cb (c : Z) (cols : row) : Z * bool := (c + 1, false).

Record DestCollectCtx := { dc_arr : list bytes; dc_cap : nat; dc_err : bool }.

Definition dest_collect_cb (d : dl_db) (c : DestCollectCtx) (cols : row) : DestCollectCtx * bool :=
  let fail := ({| dc_arr := dc_arr c; dc_cap := dc_cap c; dc_err := true |}, true) in
  if (dc_cap c <=? length (dc_arr c))%nat then fail
  else match dl_intern_str_of d (col cols 2) with
       | None => fail
       | Some x => ({| dc_arr := dc_arr c ++ [x]; dc_cap := dc_cap c; dc_err := dc_err c |}, false)
       end.

Record RevmapCtx := { rc_sender : Z; rc_alias_addr : Z; rc_created_ts : Z; rc_found : bool }.

Definition revmap_cb (c : RevmapCtx) (cols : row) : RevmapCtx * bool :=
  (if rc_found c then c
   else {| rc_sender := col cols 1; rc_alias_addr := col cols 2;
           rc_created_ts := col cols 3; rc_found := true |}, false).

(** The values read so far, at most [META_MAX_ROWS]. *)
Definition meta_read_cb (c : list Z) (cols : row) : list Z * bool :=
  (if (length c <? META_MAX_ROWS)%nat then c ++ [col cols 1] else c, false).

(** The rows read so far, at most [QUEUE_SET_MAX_ROWS]. *)
Definition queue_read_cb (c : list row) (cols : row) : list row * bool :=
  (if (length c <? QUEUE_SET_MAX_ROWS)%nat then c ++ [cols] else c, false).

(** Collect-then-mutate sweeps collect every row. *)
Definition revmap_expire_cb (c : list row) (cols : row) : list row * bool := (c ++ [cols], false).
Definition log_expire_cb (c : list row) (cols : row) : list row * bool := (c ++ [cols], false).

(** ** Aliases and domains *)

Definition alias_add_impl (s : Store) (alias dest : bytes) : Store * Z :=
  if is_nil alias || is_nil dest then (s, VISAGE_EPARAM)
  else match split_addr alias with
       | None => (s, VISAGE_EPARAM)
       | Some (local, domain) =>
           let '(s, d_id) := intern s domain in
           let '(s, l_id) := intern s local in
           let '(s, dest_id) := intern s dest in
           if (d_id =? 0) || (l_id =? 0) || (dest_id =? 0) then (s, VISAGE_ENOMEM)
           else
             let '(s, rc) := add_fact s RAlias [d_id; l_id; dest_id] in
             if rc <? 0 then (s, VISAGE_ESTORE) else (s, VISAGE_OK)
       end.

Definition store_alias_add (s : Store) (alias dest : bytes) : Store * Z :=
  alias_add_impl s alias dest.

Definition store_alias_rm (s : Store) (alias dest : bytes) : Store * Z :=
  match split_addr alias with
  | None => (s, VISAGE_EPARAM)
  | Some (local, domain) =>
      let '(s, d_id) := intern s domain in
      let '(s, l_id) := intern s local in
      let '(s, dest_id) := intern s dest in
      if (d_id =? 0) || (l_id =? 0) || (dest_id =? 0) then (s, VISAGE_ENOMEM)
      else
        let '(s, rc) := delete_fact s RAlias [d_id; l_id; dest_id] in
        if rc <? 0 then (s, VISAGE_ESTORE) else (s, VISAGE_OK)
  end.

Definition store_alias_load_bulk (s : Store) (csv_path : bytes) : Store * Z :=
  if is_nil csv_path then (s, VISAGE_EPARAM)
  else let '(d, rc) := dl_load_facts (db s) RAlias csv_path in
       if rc <? 0 then (with_db s d, VISAGE_ESTORE) else (with_db s d, VISAGE_OK).

(** [cfg->domains] and [cfg->aliases] (alias, destinations); a NULL alias is
    [None]. *)
Fixpoint seed_domains (s : Store) (ds : list bytes) : Store * Z :=
  match ds with
  | [] => (s, VISAGE_OK)
  | d :: ds' =>
      if is_nil d then seed_domains s ds'
      else
        let '(s, d_id) := intern s d in
        if d_id =? 0 then (s, VISAGE_ENOMEM)
        else
          let '(s, rc) := add_fact s RDomain [d_id] in
          if rc <? 0 then (s, VISAGE_ESTORE) else seed_domains s ds'
  end.

Fixpoint seed_dests (s : Store) (alias : bytes) (dests : list bytes) : Store * Z :=
  match dests with
  | [] => (s, VISAGE_OK)
  | d :: dests' =>
      let '(s, rc) := alias_add_impl s alias d in
      if rc =? VISAGE_OK then seed_dests s alias dests' else (s, rc)
  end.

Fixpoint seed_alias_list (s : Store) (als : list (option bytes * list bytes)) : Store * Z :=
  match als with
  | [] => (s, VISAGE_OK)
  | (None, _) :: als' => seed_alias_list s als'
  | (Some a, dests) :: als' =>
      let '(s, rc) := seed_dests s a dests in
      if rc =? VISAGE_OK then seed_alias_list s als' else (s, rc)
  end.

Definition store_seed_aliases (s : Store) (domains : list bytes)
    (aliases : list (option bytes * list bytes)) : Store * Z :=
  let '(s, rc) := seed_domains s domains in
  if rc =? VISAGE_OK then seed_alias_list s aliases else (s, rc).

(** [store_resolve]: the return code and the destinations. *)
Definition store_resolve (s : Store) (alias : bytes) : Store * Z * list bytes :=
  match split_addr alias with
  | None => (s, VISAGE_EPARAM, [])
  | Some (local, domain) =>
      let '(s, d_id) := intern s domain in
      let '(s, l_id) := intern s local in
      if (d_id =? 0) || (l_id =? 0) then (s, VISAGE_ENOMEM, [])
      else
        let '(n, _) := dl_prefix (db s) RAlias [d_id; l_id] count_cb 0 in
        if n <? 0 then (s, VISAGE_ESTORE, [])
        else if n =? 0 then (s, VISAGE_OK, [])
        else
          let '(n2, dc) := dl_prefix (db s) RAlias [d_id; l_id] (dest_collect_cb (db s))
                             {| dc_arr := []; dc_cap := Z.to_nat n; dc_err := false |} in
          if (n2 <? 0) || dc_err dc
          then (s, if dc_err dc then VISAGE_ENOMEM else VISAGE_ESTORE, [])
          else (s, VISAGE_OK, dc_arr dc)
  end.

Definition store_alias_count (s : Store) : Z := (dl_prefix (db s) RAlias [] count_cb 0).1.

(** The pairs collected so far and the error flag. *)
Definition alias_list_cb (d : dl_db) (c : list (bytes * bytes) * bool) (cols : row)
  : (list (bytes * bytes) * bool) * bool :=
  match dl_intern_str_of d (col cols 0), dl_intern_str_of d (col cols 1),
        dl_intern_str_of d (col cols 2) with
  | Some dom, Some loc, Some dst => ((c.1 ++ [(loc ++ "@"%chr :: dom, dst)], c.2), false)
  | _, _, _ => ((c.1, true), true)
  end.

Definition store_alias_list_all (s : Store) : Z * list (bytes * bytes) :=
  let '(rows, (l, err)) := dl_prefix (db s) RAlias [] (alias_list_cb (db s)) ([], false) in
  if (rows <? 0) || err then (if err then VISAGE_ENOMEM else VISAGE_ESTORE, [])
  else (VISAGE_OK, l).

(** ** The reverse-alias reply map *)

Definition store_revmap_add_at (s : Store) (token sender alias_addr : bytes) (created_ts : Z)
  : Store * Z :=
  if is_nil token || is_nil sender || is_nil alias_addr then (s, VISAGE_EPARAM)
  else
    let '(s, t) := intern s token in
    let '(s, sn) := intern s sender in
    let '(s, a) := intern s alias_addr in
    if (t =? 0) || (sn =? 0) || (a =? 0) then (s, VISAGE_ENOMEM)
    else
      let '(s, rc) := add_fact s RRevmap [t; sn; a; created_ts] in
      if rc <? 0 then (s, VISAGE_ESTORE) else (s, VISAGE_OK).

Definition store_revmap_add (s : Store) (now : Z) (token sender alias_addr : bytes) : Store * Z :=
  store_revmap_add_at s token sender alias_addr (u32 now).

Definition store_revmap_load_bulk (s : Store) (csv_path : bytes) : Store * Z :=
  if is_nil csv_path then (s, VISAGE_EPARAM)
  else let '(d, rc) := dl_load_facts (db s) RRevmap csv_path in
       if rc <? 0 then (with_db s d, VISAGE_ESTORE) else (with_db s d, VISAGE_OK).

(** [(now - created_ts) >= REVMAP_TTL_SEC] on u32. *)
Definition revmap_expired (now created_ts : Z) : bool := REVMAP_TTL_SEC <=? u32 (now - created_ts).

Definition store_revmap_expire (s : Store) (now : Z) : Store * Z :=
  let '(n, rows) := dl_prefix (db s) RRevmap [] revmap_expire_cb [] in
  if n <? 0 then (s, VISAGE_ESTORE)
  else
    (foldl (fun s x => if revmap_expired now (col x 3) then (delete_fact s RRevmap x).1 else s) s rows,
     VISAGE_OK).

(** [store_revmap_resolve]: the code and the pair (sender, alias_addr), both
    NULL when [None]. *)
Definition store_revmap_resolve (s : Store) (time_now : Z) (token : bytes)
  : Store * Z * option (bytes * bytes) :=
  if is_nil token then (s, VISAGE_OK, None)
  else
    let '(s, tok_id) := intern s token in
    if tok_id =? 0 then (s, VISAGE_ENOMEM, None)
    else
      let '(n, rc) := dl_prefix (db s) RRevmap [tok_id] revmap_cb
                        {| rc_sender := 0; rc_alias_addr := 0; rc_created_ts := 0; rc_found := false |} in
      if n <? 0 then (s, VISAGE_ESTORE, None)
      else if n =? 0 then (s, VISAGE_OK, None)
      else
        let now := u32 time_now in
        if revmap_expired now (rc_created_ts rc) then (s, VISAGE_OK, None)
        else match dl_intern_str_of (db s) (rc_sender rc), dl_intern_str_of (db s) (rc_alias_addr rc) with
             | Some sn, Some al => (s, VISAGE_OK, Some (sn, al))
             | _, _ => (s, VISAGE_ESTORE, None)
             end.

(** ** Message ids and the log *)

Definition store_next_msgid (s : Store) : Store * Z :=
  let '(s, key) := intern s META_KEY_NEXT_MSGID in
  if key =? 0 then (s, 0)
  else
    let '(n, vals) := dl_prefix (db s) RMeta [key] meta_read_cb [] in
    if n <? 0 then (s, 0)
    else
      let cur := foldl (fun cur v => if v >? cur then v else cur) 0 vals in
      let next := u32 (cur + 1) in
      if next =? 0 then (s, 0)
      else
        let '(s, rc) := add_fact s RMeta [key; next] in
        if rc <? 0 then (s, 0)
        else (delete_rows s RMeta (map (fun v => [key; v]) vals), next).

Definition store_log_add (s : Store) (msgid ts dir : Z) (local remote status : bytes) : Store * Z :=
  if is_nil remote || is_nil status then (s, VISAGE_EPARAM)
  else
    let '(s, l) := intern s local in
    let '(s, r) := intern s remote in
    let '(s, st) := intern s status in
    if (l =? 0) || (r =? 0) || (st =? 0) then (s, VISAGE_ENOMEM)
    else
      let '(s, rc) := add_fact s RLog [msgid; ts; dir; l; r; st] in
      if rc <? 0 then (s, VISAGE_ESTORE) else (s, VISAGE_OK).

(** [age >= 0 && (uint32_t)age >= LOG_RETENTION_SEC] with a signed age. *)
Definition log_expired (now ts : Z) : bool :=
  (0 <=? now - ts) && (LOG_RETENTION_SEC <=? u32 (now - ts)).

Definition store_log_expire (s : Store) (now : Z) : Store * Z :=
  let '(n, rows) := dl_prefix (db s) RLog [] log_expire_cb [] in
  if n <? 0 then (s, VISAGE_ESTORE)
  else
    (foldl (fun s x => if log_expired now (col x 1) then (delete_fact s RLog x).1 else s) s rows,
     VISAGE_OK).

Definition store_log_count (s : Store) : Z := (dl_prefix (db s) RLog [] count_cb 0).1.

(** [log_collect_cb] and [log_skip_cb]: rows left to skip, rows collected, room,
    error flag. *)
Record LogCollectCtx := { lc_skip : nat; lc_rows : list row; lc_cap : nat; lc_err : bool }.

Definition log_skip_cb (c : LogCollectCtx) (cols : row) : LogCollectCtx * bool :=
  match lc_skip c with
  | S k => ({| lc_skip := k; lc_rows := lc_rows c; lc_cap := lc_cap c; lc_err := lc_err c |}, false)
  | O =>
      if (lc_cap c <=? length (lc_rows c))%nat
      then ({| lc_skip := O; lc_rows := lc_rows c; lc_cap := lc_cap c; lc_err := true |}, true)
      else ({| lc_skip := O; lc_rows := lc_rows c ++ [cols]; lc_cap := lc_cap c; lc_err := lc_err c |}, false)
  end.

Record StoreLogEntry := {
  le_msgid : Z; le_ts : Z; le_dir : Z; le_local : bytes; le_remote : bytes; le_status : bytes }.

Definition log_entry (d : dl_db) (x : row) : StoreLogEntry := {|
  le_msgid := col x 0; le_ts := col x 1; le_dir := col x 2;
  le_local := default [] (dl_intern_str_of d (col x 3));
  le_remote := default [] (dl_intern_str_of d (col x 4));
  le_status := default [] (dl_intern_str_of d (col x 5)) |}.

Definition store_log_recent (s : Store) (max : nat) : Z * list StoreLogEntry :=
  let total := store_log_count s in
  if total <? 0 then (VISAGE_ESTORE, [])
  else
    let total := Z.to_nat total in
    let want := if (total <=? max)%nat then total else max in
    if (want =? 0)%nat then (VISAGE_OK, [])
    else
      let '(n, c) := dl_prefix (db s) RLog [] log_skip_cb
                       {| lc_skip := total - want; lc_rows := []; lc_cap := want; lc_err := false |} in
      if (n <? 0) || lc_err c || negb (length (lc_rows c) =? want)%nat then (VISAGE_ESTORE, [])
      else (VISAGE_OK, map (log_entry (db s)) (lc_rows c)).

(** ** The durable delivery queue *)

Definition store_queue_add (s : Store) (msgid k : Z) (from to : bytes) : Store * Z :=
  if is_nil to then (s, VISAGE_EPARAM)
  else
    let '(s, f) := intern s from in
    let '(s, t) := intern s to in
    let '(s, q) := intern s QUEUE_STATUS_QUEUED in
    if (f =? 0) || (t =? 0) || (q =? 0) then (s, VISAGE_ENOMEM)
    else
      let '(s, rc) := add_fact s RQueue [msgid; k; f; t; 0; 0; q] in
      if rc <? 0 then (s, VISAGE_ESTORE)
      else (MkStore (db s) 0 false, VISAGE_OK).

(** Index of the first row equal to [next]. *)
Fixpoint find_row (next : row) (rows : list row) : option nat :=
  match rows with
  | [] => None
  | x :: rows' => if row_eqb next x then Some 0%nat else S <$> find_row next rows'
  end.

(** The rows to delete when row [match] already is the wanted one. *)
Fixpoint remove_nth (i : nat) (rows : list row) : list row :=
  match rows, i with
  | [], _ => []
  | _ :: rows', O => rows'
  | x :: rows', S i' => x :: remove_nth i' rows'
  end.

Definition store_queue_set_status (s : Store) (msgid k : Z) (status : bytes) (attempts next_ts : Z)
  : Store * Z :=
  if is_nil status then (s, VISAGE_EPARAM)
  else
    let s := MkStore (db s) (next_due s) true in
    let '(s, st) := intern s status in
    if st =? 0 then (s, VISAGE_ENOMEM)
    else
      let '(n, rows) := dl_prefix (db s) RQueue [msgid; k] queue_read_cb [] in
      if n <? 0 then (s, VISAGE_ESTORE)
      else match rows with
           | [] => (s, VISAGE_ESTORE)
           | x0 :: _ =>
               let next := [msgid; k; col x0 2; col x0 3; attempts; next_ts; st] in
               match find_row next rows with
               | Some i => (delete_rows s RQueue (remove_nth i rows), VISAGE_OK)
               | None =>
                   let '(s, rc) := add_fact s RQueue next in
                   if rc <? 0 then (s, VISAGE_ESTORE)
                   else (delete_rows s RQueue rows, VISAGE_OK)
               end
           end.

Definition store_queue_delete (s : Store) (msgid k : Z) : Store * Z :=
  let '(n, rows) := dl_prefix (db s) RQueue [msgid; k] queue_read_cb [] in
  if n <? 0 then (s, VISAGE_ESTORE)
  else (delete_rows s RQueue rows, VISAGE_OK).

(** [queue_due_cb] with the caller's callback [cb] and its context. *)
Definition queue_due_cb {U} (d : dl_db) (now queued_id : Z)
    (cb : Z -> Z -> bytes -> bytes -> Z -> U -> U * bool) (c : U * bool) (cols : row)
  : (U * bool) * bool :=
  if negb (col cols 6 =? queued_id) then (c, false)
  else if col cols 5 >? now then (c, false)
  else match dl_intern_str_of d (col cols 2), dl_intern_str_of d (col cols 3) with
       | Some from, Some to =>
           let '(u, stop) := cb (col cols 0) (col cols 1) from to (col cols 4) c.1 in
           ((u, c.2), stop)
       | _, _ => ((c.1, true), true)
       end.

Definition store_queue_due {U} (s : Store) (now : Z)
    (cb : Z -> Z -> bytes -> bytes -> Z -> U -> U * bool) (user : U) : Store * Z * U :=
  let '(s, queued_id) := intern s QUEUE_STATUS_QUEUED in
  if queued_id =? 0 then (s, VISAGE_ENOMEM, user)
  else
    let '(n, (u, err)) := dl_prefix (db s) RQueue [] (queue_due_cb (db s) now queued_id cb) (user, false) in
    (s, if (n <? 0) || err then VISAGE_ESTORE else VISAGE_OK, u).

Definition queue_count_cb (status_id : Z) (c : Z) (cols : row) : Z * bool :=
  (if col cols 6 =? status_id then c + 1 else c, false).

Definition store_queue_count_by_status (s : Store) (status : bytes) : Store * Z :=
  if is_nil status then (s, -1)
  else
    let '(s, id) := intern s status in
    if id =? 0 then (s, -1)
    else
      let '(n, c) := dl_prefix (db s) RQueue [] (queue_count_cb id) 0 in
      (s, if n <? 0 then -1 else c).

Definition delivering_collect_cb (delivering_id : Z) (c : list (Z * Z * Z)) (cols : row)
  : list (Z * Z * Z) * bool :=
  (if col cols 6 =? delivering_id then c ++ [(col cols 0, col cols 1, col cols 4)] else c, false).

Fixpoint reset_items (s : Store) (items : list (Z * Z * Z)) : Store * Z :=
  match items with
  | [] => (s, VISAGE_OK)
  | (msgid, k, attempts) :: items' =>
      let '(s, rc) := store_queue_set_status s msgid k QUEUE_STATUS_QUEUED attempts 0 in
      if rc =? VISAGE_OK then reset_items s items' else (s, rc)
  end.

Definition store_queue_reset_delivering (s : Store) : Store * Z :=
  let '(s, id) := intern s QUEUE_STATUS_DELIVERING in
  if id =? 0 then (s, VISAGE_ENOMEM)
  else
    let '(n, items) := dl_prefix (db s) RQueue [] (delivering_collect_cb id) [] in
    if n <? 0 then (s, VISAGE_ESTORE) else reset_items s items.

Definition next_due_cb (queued_id : Z) (m : Z) (cols : row) : Z * bool :=
  (if (col cols 6 =? queued_id) && (col cols 5 <? m) then col cols 5 else m, false).

Definition store_queue_next_due (s : Store) : Store * Z :=
  if negb (next_due_dirty s) then (s, next_due s)
  else
    let '(s, queued_id) := intern s QUEUE_STATUS_QUEUED in
    if queued_id =? 0 then (s, UINT32_MAX)
    else
      let '(n, m) := dl_prefix (db s) RQueue [] (next_due_cb queued_id) UINT32_MAX in
      if n <? 0 then (s, UINT32_MAX) else (MkStore (db s) m false, m).

(** [strcmp(st, "queued") == 0 || strcmp(st, "delivering") == 0] *)
Definition is_active (st : bytes) : bool := beq st (bs "queued") || beq st (bs "delivering").

Fixpoint active_status (d : dl_db) (rows : list row) : option bytes :=
  match rows with
  | [] => None
  | x :: rows' =>
      match dl_intern_str_of d (col x 6) with
      | Some st => if is_active st then Some st else active_status d rows'
      | None => active_status d rows'
      end
  end.

(** [store_queue_status]: the status copied into a buffer of [sz] bytes, when it
    returns VISAGE_OK. *)
Definition store_queue_status (s : Store) (msgid k : Z) (sz : nat) : Z * option bytes :=
  if (sz =? 0)%nat then (VISAGE_EPARAM, None)
  else
    let put st := if (sz <? length st + 1)%nat then (VISAGE_ESTORE, None) else (VISAGE_OK, Some st) in
    let '(n, rows) := dl_prefix (db s) RQueue [msgid; k] queue_read_cb [] in
    if n <? 0 then (VISAGE_ESTORE, None)
    else match rows with
         | [] => (VISAGE_ESTORE, None)
         | x0 :: _ =>
             match active_status (db s) rows with
             | Some st => put st
             | None => match dl_intern_str_of (db s) (col x0 6) with
                       | None => (VISAGE_ESTORE, None)
                       | Some st => put st
                       end
             end
         end.

Definition queue_msgid_cb {U} (d : dl_db) (cb : Z -> bytes -> bytes -> bytes -> U -> U * bool)
    (c : U * bool) (cols : row) : (U * bool) * bool :=
  match dl_intern_str_of d (col cols 2), dl_intern_str_of d (col cols 3),
        dl_intern_str_of d (col cols 6) with
  | Some from, Some to, Some status =>
      let '(u, stop) := cb (col cols 1) from to status c.1 in ((u, c.2), stop)
  | _, _, _ => ((c.1, true), true)
  end.

Definition store_queue_walk_msgid {U} (s : Store) (msgid : Z)
    (cb : Z -> bytes -> bytes -> bytes -> U -> U * bool) (user : U) : Z * U :=
  let '(n, (u, err)) := dl_prefix (db s) RQueue [msgid] (queue_msgid_cb (db s) cb) (user, false) in
  (if (n <? 0) || err then (if err then VISAGE_ENOMEM else VISAGE_ESTORE) else VISAGE_OK, u).

(** [store_open] on an engine whose schema is declared: nothing cached yet. *)
Definition store_open (d : dl_db) : Store := MkStore d UINT32_MAX true.

End Store.
