(* ===== verification/StoreSpec.v ===== *)
(** * What the store promises

    The column-type invariant of the schema and its preservation by every
    operation; the alias table, the reply map, the message counter and the log
    as abstract relations over strings, which the operations implement. *)

From Stdlib Require Import Sorting.Sorted.
From S2P Require Import Prelude DlEngine Store.

(** ** The int/sym discipline *)

Inductive coltype := Sym | Raw.

(** The schema table of [store.h]. *)
Definition schema (r : Rel) : list coltype :=
  match r with
  | RDomain => [Sym]
  | RAlias => [Sym; Sym; Sym]
  | RRevmap => [Sym; Sym; Sym; Raw]
  | RLog => [Raw; Raw; Raw; Sym; Sym; Sym]
  | RMeta => [Sym; Raw]
  | RQueue => [Raw; Raw; Sym; Sym; Raw; Raw; Sym]
  end.

Definition is_u32 (z : Z) : Prop := 0 <= z <= UINT32_MAX.

Section Spec.
Context {E : DlEngine} {L : DlLaws E}.
Implicit Types (d : dl_db) (s : Store).

Definition col_ok d (t : coltype) (v : Z) : Prop :=
  match t with Sym => is_Some (dl_intern_str_of d v) | Raw => is_u32 v end.

Definition well_typed d (r : Rel) (x : row) : Prop := Forall2 (col_ok d) (schema r) x.

Definition store_wf d : Prop := forall r x, dl_has d r x -> well_typed d r x.

(** [ext d d']: the same facts, and every symbol of [d] is one of [d']. *)
Definition ext d d' : Prop :=
  (forall r x, dl_has d' r x <-> dl_has d r x) /\
  (forall i t, dl_intern_str_of d i = Some t -> dl_intern_str_of d' i = Some t).

#[global] Instance ext_preorder : PreOrder ext.
Proof.
  split.
  - intros d. done.
  - intros d1 d2 d3 [F1 S1] [F2 S2]. split; [|by auto]. intros r x. by rewrite F2, F1.
Qed.

Lemma intern_ext s x : ext (db s) (db (intern s x).1).
Proof.
  unfold intern. pose proof (intern_has (db s) x) as H1. pose proof (intern_keep (db s) x) as H2.
  destruct (dl_intern_str (db s) x) as [d i]. split; [apply H1|apply H2].
Qed.

Lemma intern_some s x : (intern s x).2 <> 0 -> dl_intern_str_of (db (intern s x).1) (intern s x).2 = Some x.
Proof.
  unfold intern. pose proof (intern_str_of (db s) x) as H.
  by destruct (dl_intern_str (db s) x) as [d i].
Qed.

Lemma intern_cache s x :
  next_due (intern s x).1 = next_due s /\ next_due_dirty (intern s x).1 = next_due_dirty s.
Proof. unfold intern. by destruct (dl_intern_str (db s) x). Qed.

(** Runs [intern] in the goal or a hypothesis, keeping what it promises. *)
Lemma intern_run s x :
  exists s' i, intern s x = (s', i) /\ ext (db s) (db s') /\
    (i <> 0 -> dl_intern_str_of (db s') i = Some x) /\ (DlHealthy E -> i <> 0) /\
    next_due s' = next_due s /\ next_due_dirty s' = next_due_dirty s.
Proof.
  exists (intern s x).1, (intern s x).2. destruct (intern s x) as [s' i] eqn:Hi.
  pose proof (intern_ext s x). pose proof (intern_some s x). pose proof (intern_cache s x).
  rewrite Hi in *. split; [done|]. split; [done|]. split; [done|]. split; [|done]. intros Hh. pose proof (intern_healthy (db s) x).
  unfold intern in Hi. destruct (dl_intern_str (db s) x). by simplify_eq.
Qed.

Lemma well_typed_mono d d' r x :
  (forall i t, dl_intern_str_of d i = Some t -> dl_intern_str_of d' i = Some t) ->
  well_typed d r x -> well_typed d' r x.
Proof.
  intros Hs Hx. apply (Forall2_impl _ _ _ _ Hx). intros [] v; [|done]. intros [t Ht]. exists t. auto.
Qed.

Lemma ext_wf d d' : ext d d' -> store_wf d -> store_wf d'.
Proof.
  intros [F S] Hwf r x Hx. apply (well_typed_mono d); [done|]. by apply Hwf, F.
Qed.

(** *** Single writes *)

Lemma add_has_inv d r x r' y :
  dl_has (dl_add_fact d r x).1 r' y -> dl_has d r' y \/ (r' = r /\ y = x).
Proof.
  intros H. destruct (decide ((r', y) = (r, x))) as [[= -> ->]|Hne]; [by right|].
  left. by apply (add_same d r x r' y Hne).
Qed.

Lemma add_has_keep d r x r' y : dl_has d r' y -> dl_has (dl_add_fact d r x).1 r' y.
Proof.
  intros H. destruct (decide ((r', y) = (r, x))) as [[= -> ->]|Hne]; [by apply add_keeps|].
  by apply (add_same d r x r' y Hne).
Qed.

Lemma del_has_inv d r x r' y : dl_has (dl_delete_fact d r x).1 r' y -> dl_has d r' y.
Proof.
  intros H. destruct (decide ((r', y) = (r, x))) as [[= -> ->]|Hne]; [by apply (del_sub d)|].
  by apply (del_same d r x r' y Hne).
Qed.

Lemma del_has_keep d r x r' y :
  (r', y) <> (r, x) -> dl_has d r' y -> dl_has (dl_delete_fact d r x).1 r' y.
Proof. intros Hne. by apply del_same. Qed.

Lemma add_fact_db s r x :
  db (add_fact s r x).1 = (dl_add_fact (db s) r x).1 /\
  (add_fact s r x).2 = (dl_add_fact (db s) r x).2 /\
  next_due (add_fact s r x).1 = next_due s /\
  next_due_dirty (add_fact s r x).1 = next_due_dirty s.
Proof. unfold add_fact. by destruct (dl_add_fact (db s) r x). Qed.

Lemma delete_fact_db s r x :
  db (delete_fact s r x).1 = (dl_delete_fact (db s) r x).1 /\
  (delete_fact s r x).2 = (dl_delete_fact (db s) r x).2 /\
  next_due (delete_fact s r x).1 = next_due s /\
  next_due_dirty (delete_fact s r x).1 = next_due_dirty s.
Proof. unfold delete_fact. by destruct (dl_delete_fact (db s) r x). Qed.

Lemma add_wf s r x :
  store_wf (db s) -> well_typed (db s) r x -> store_wf (db (add_fact s r x).1).
Proof.
  intros Hwf Hx r' y. destruct (add_fact_db s r x) as (-> & _). intros H.
  apply (well_typed_mono (db s)); [intros i t; by rewrite add_str_of|].
  apply add_has_inv in H as [H|[-> ->]]; [by apply Hwf|done].
Qed.

Lemma del_wf s r x : store_wf (db s) -> store_wf (db (delete_fact s r x).1).
Proof.
  intros Hwf r' y. destruct (delete_fact_db s r x) as (-> & _). intros H.
  apply (well_typed_mono (db s)); [intros i t; by rewrite del_str_of|].
  by apply Hwf, (del_has_inv _ r x).
Qed.

(** *** Runs of deletes *)

(** A fold that deletes some rows of one relation. *)
Definition delete_if (p : row -> bool) (r : Rel) s (rows : list row) : Store :=
  foldl (fun s x => if p x then (delete_fact s r x).1 else s) s rows.

Lemma delete_if_spec p r s rows :
  (forall r' y, dl_has (db (delete_if p r s rows)) r' y -> dl_has (db s) r' y) /\
  (forall r' y, dl_has (db s) r' y -> (r' = r -> y ∉ rows \/ p y = false) ->
     dl_has (db (delete_if p r s rows)) r' y) /\
  (forall i, dl_intern_str_of (db (delete_if p r s rows)) i = dl_intern_str_of (db s) i) /\
  next_due (delete_if p r s rows) = next_due s /\
  next_due_dirty (delete_if p r s rows) = next_due_dirty s.
Proof.
  revert s. induction rows as [|x rows IH]; intros s; [done|]. cbn [delete_if foldl].
  destruct (IH (if p x then (delete_fact s r x).1 else s)) as (I1 & I2 & I3 & I4 & I5).
  unfold delete_if in *. destruct (delete_fact_db s r x) as (Hd & _ & Hn1 & Hn2).
  destruct (p x) eqn:Hp.
  - rewrite I4, I5. split; [|split; [|split; [|done]]].
    + intros r' y H. apply I1 in H. rewrite Hd in H. by apply del_has_inv in H.
    + intros r' y H Hy. apply I2.
      * rewrite Hd. apply del_has_keep; [|done]. intros [= -> ->].
        destruct (Hy eq_refl) as [Hn|?]; [|congruence]. apply Hn. by left.
      * intros Hr. destruct (Hy Hr) as [Hn|?]; [|by right]. left. by apply not_elem_of_cons in Hn as [_ ?].
    + intros i. rewrite I3, Hd. apply del_str_of.
  - split; [done|]. split; [|done]. intros r' y H Hy. apply I2; [done|].
    intros Hr. destruct (Hy Hr) as [Hn|?]; [|by right]. left. by apply not_elem_of_cons in Hn as [_ ?].
Qed.

Lemma delete_if_gone {H : DlHealthy E} p r s rows y :
  y ∈ rows -> p y = true -> ~ dl_has (db (delete_if p r s rows)) r y.
Proof.
  revert s. induction rows as [|x rows IH]; intros s Hy Hp; [by apply elem_of_nil in Hy|].
  apply elem_of_cons in Hy as [<-|Hy]; [|by apply IH]. cbn [delete_if foldl]. rewrite Hp.
  intros Hh. destruct (delete_if_spec p r (delete_fact s r y).1 rows) as (I1 & _).
  apply I1 in Hh. destruct (delete_fact_db s r y) as (Hd & _). rewrite Hd in Hh.
  by apply (del_ok (db s) r y (del_healthy _ _ _)) in Hh.
Qed.

Lemma delete_if_wf p r s rows : store_wf (db s) -> store_wf (db (delete_if p r s rows)).
Proof.
  intros Hwf r' y Hy. destruct (delete_if_spec p r s rows) as (I1 & _ & I3 & _).
  apply (well_typed_mono (db s)); [intros i t; by rewrite I3|]. by apply Hwf, I1.
Qed.

Lemma delete_rows_if r s rows : delete_rows s r rows = delete_if (fun _ => true) r s rows.
Proof. done. Qed.

(** ** Walks that only collect *)

Lemma foldl_snoc {A} (acc l : list A) : foldl (fun c x => c ++ [x]) acc l = acc ++ l.
Proof.
  revert acc. induction l as [|x l IH]; intros acc; simpl; [by rewrite app_nil_r|].
  by rewrite IH, <- app_assoc.
Qed.

(** Collecting at most [m] images. *)
Lemma foldl_bounded {A B} (f : A -> B) (m : nat) (acc : list B) (l : list A) :
  (length acc <= m)%nat ->
  foldl (fun c x => if (length c <? m)%nat then c ++ [f x] else c) acc l
  = acc ++ take (m - length acc) (map f l).
Proof.
  revert acc. induction l as [|x l IH]; intros acc Hm; simpl; [by rewrite take_nil, app_nil_r|].
  destruct (Nat.ltb_spec (length acc) m).
  - rewrite IH by (rewrite length_app; simpl; lia). rewrite length_app, <- app_assoc. simpl.
    replace (m - length acc)%nat with (S (m - (length acc + 1)))%nat by lia. done.
  - rewrite IH by done. by replace (m - length acc)%nat with 0%nat by lia.
Qed.

Lemma foldl_filter {A B} (p : A -> bool) (f : A -> B) (acc : list B) (l : list A) :
  foldl (fun c x => if p x then c ++ [f x] else c) acc l = acc ++ map f (List.filter p l).
Proof.
  revert acc. induction l as [|x l IH]; intros acc; simpl; [by rewrite app_nil_r|].
  rewrite IH. destruct (p x); [by rewrite <- app_assoc|done].
Qed.

Lemma collect_prefix d r p :
  dl_prefix d r p (fun c x => (c ++ [x], false)) []
  = (if (dl_rows d r p).2 then Z.of_nat (length (dl_rows d r p).1) else -1, (dl_rows d r p).1).
Proof. rewrite (dl_prefix_fold d r p (fun c x => c ++ [x])). by rewrite foldl_snoc. Qed.

Lemma queue_read_prefix d p :
  dl_prefix d RQueue p queue_read_cb []
  = (if (dl_rows d RQueue p).2 then Z.of_nat (length (dl_rows d RQueue p).1) else -1,
     take QUEUE_SET_MAX_ROWS (dl_rows d RQueue p).1).
Proof.
  etransitivity; [apply dl_prefix_fold|]. f_equal.
  etransitivity; [apply (foldl_bounded (fun x => x)); simpl; lia|]. by rewrite map_id.
Qed.

Lemma meta_read_prefix d p :
  dl_prefix d RMeta p meta_read_cb []
  = (if (dl_rows d RMeta p).2 then Z.of_nat (length (dl_rows d RMeta p).1) else -1,
     take META_MAX_ROWS (map (fun x => col x 1) (dl_rows d RMeta p).1)).
Proof.
  etransitivity; [apply dl_prefix_fold|]. f_equal.
  apply (foldl_bounded (fun x => col x 1) META_MAX_ROWS []). simpl; lia.
Qed.

Lemma count_prefix d r p :
  (dl_prefix d r p count_cb 0).1
  = if (dl_rows d r p).2 then Z.of_nat (length (dl_rows d r p).1) else -1.
Proof. by rewrite (dl_prefix_fold d r p (fun c _ => c + 1)). Qed.

Lemma dl_prefix_eq {A} d r p (cb : A -> row -> A * bool) a :
  dl_prefix d r p cb a
  = (if (dl_rows d r p).2 then (walk cb (dl_rows d r p).1 0 a).1 else -1,
     (walk cb (dl_rows d r p).1 0 a).2).
Proof.
  unfold dl_prefix. destruct (dl_rows d r p) as [rows ok]. simpl. by destruct (walk cb rows 0 a).
Qed.

Lemma rows_failed d r p : (dl_rows d r p).2 = false -> ~ DlHealthy E.
Proof. intros Hf H. by rewrite rows_healthy in Hf. Qed.

(** A successful walk only sees facts. *)
Lemma rows_has d r p x : (dl_rows d r p).2 = true -> x ∈ (dl_rows d r p).1 -> dl_has d r x.
Proof. intros Hok Hx. by apply (rows_exact d r p Hok x). Qed.

Lemma sym_ok d i t : dl_intern_str_of d i = Some t -> col_ok d Sym i.
Proof. intros H. by exists t. Qed.

(** ** Running an operation on the recording engine *)

Definition lift (h : list dl_db) s : @Store (traced E) :=
  @MkStore (traced E) (db s, h) (next_due s) (next_due_dirty s).

Lemma intern_lift h s x :
  @intern (traced E) (lift h s) x = (lift h (intern s x).1, (intern s x).2).
Proof. unfold intern, lift. simpl. by destruct (dl_intern_str (db s) x). Qed.

Lemma add_lift h s r x :
  @add_fact (traced E) (lift h s) r x
  = (lift (db (add_fact s r x).1 :: h) (add_fact s r x).1, (add_fact s r x).2).
Proof. unfold add_fact, lift. simpl. by destruct (dl_add_fact (db s) r x). Qed.

(** The databases a run of deletes passes through, latest first. *)
Fixpoint del_trace (r : Rel) s (rows : list row) : list dl_db :=
  match rows with
  | [] => []
  | x :: rows' => del_trace r (delete_fact s r x).1 rows' ++ [db (delete_fact s r x).1]
  end.

Lemma delete_rows_lift h r s rows :
  @delete_rows (traced E) (lift h s) r rows = lift (del_trace r s rows ++ h) (delete_rows s r rows).
Proof.
  revert h s. induction rows as [|x rows IH]; intros h s; [done|].
  cbn [delete_rows foldl del_trace].
  assert (Hd : (@delete_fact (traced E) (lift h s) r x).1
               = lift (db (delete_fact s r x).1 :: h) (delete_fact s r x).1).
  { unfold delete_fact, lift. simpl. by destruct (dl_delete_fact (db s) r x). }
  rewrite Hd. unfold delete_rows in IH. rewrite IH. by rewrite <- app_assoc.
Qed.

Lemma del_trace_inv r s rows d :
  d ∈ del_trace r s rows -> exists rows', rows' ⊆ rows /\ d = db (delete_rows s r rows').
Proof.
  revert s. induction rows as [|x rows IH]; intros s Hd; [by apply elem_of_nil in Hd|].
  cbn [del_trace] in Hd. apply elem_of_app in Hd as [Hd|Hd%list_elem_of_singleton].
  - apply IH in Hd as (rows' & Hs & ->). exists (x :: rows'). split; [|done].
    intros y [->|Hy]%elem_of_cons; [by left|right; auto].
  - exists [x]. split; [|done]. intros y [->|[]%elem_of_nil]%elem_of_cons. by left.
Qed.

End Spec.

(** [step_intern H]: name the result of the next [intern] in the goal. *)
Ltac step_intern :=
  match goal with
  | |- context [intern ?s ?x] =>
      let s' := fresh "s" in let i := fresh "i" in let He := fresh "Hext" in
      let Hi := fresh "Hstr" in let Hz := fresh "Hnz" in let Hc1 := fresh "Hc" in let Hc2 := fresh "Hc" in
      let Hrun := fresh "Hrun" in
      destruct (intern_run s x) as (s' & i & Hrun & He & Hi & Hz & Hc1 & Hc2);
      rewrite Hrun; clear Hrun; cbn beta iota zeta
  end.

Ltac col_solve :=
  repeat constructor; simpl; try done;
  try (eapply sym_ok; eauto; fail);
  try (unfold is_u32, UINT32_MAX in *; lia).

(** After a chain of [intern]s: the composed extension, and every id kept. *)
Ltac ext_chain :=
  repeat match goal with
  | H1 : ext ?a ?b, H2 : ext ?b ?c |- _ =>
      lazymatch goal with
      | _ : ext a c |- _ => fail
      | _ => pose proof (transitivity H1 H2)
      end
  end.

(** Every [ext] fact as its two halves, so that [eauto] finds the symbols. *)
Ltac ids_tac Hb :=
  rewrite ?orb_false_iff, ?Z.eqb_neq in Hb; destruct_and?;
  repeat match goal with H : ext _ _ |- _ => destruct H end.

Section Types.
Context {E : DlEngine} {L : DlLaws E}.
Implicit Types (d : dl_db) (s : Store).

(** ** Every operation keeps the column types *)

Inductive store_op :=
| OAliasAdd (alias dest : bytes)
| OAliasRm (alias dest : bytes)
| OSeed (domains : list bytes) (aliases : list (option bytes * list bytes))
| OResolve (alias : bytes)
| ORevmapAdd (token sender alias_addr : bytes) (created_ts : Z)
| ORevmapExpire (now : Z)
| ORevmapResolve (now : Z) (token : bytes)
| ONextMsgid
| OLogAdd (msgid ts dir : Z) (local remote status : bytes)
| OLogExpire (now : Z)
| OQueueAdd (msgid k : Z) (from to : bytes)
| OQueueSetStatus (msgid k : Z) (status : bytes) (attempts next_ts : Z)
| OQueueDelete (msgid k : Z)
| OQueueCount (status : bytes)
| OQueueReset
| OQueueNextDue.

(** The state an operation leaves, whatever it returns. *)
Definition run_op s (o : store_op) : Store :=
  match o with
  | OAliasAdd a t => (store_alias_add s a t).1
  | OAliasRm a t => (store_alias_rm s a t).1
  | OSeed ds als => (store_seed_aliases s ds als).1
  | OResolve a => (store_resolve s a).1.1
  | ORevmapAdd t sn a ts => (store_revmap_add_at s t sn a ts).1
  | ORevmapExpire now => (store_revmap_expire s now).1
  | ORevmapResolve now t => (store_revmap_resolve s now t).1.1
  | ONextMsgid => (store_next_msgid s).1
  | OLogAdd m ts dir l r st => (store_log_add s m ts dir l r st).1
  | OLogExpire now => (store_log_expire s now).1
  | OQueueAdd m k f t => (store_queue_add s m k f t).1
  | OQueueSetStatus m k st a nt => (store_queue_set_status s m k st a nt).1
  | OQueueDelete m k => (store_queue_delete s m k).1
  | OQueueCount st => (store_queue_count_by_status s st).1
  | OQueueReset => (store_queue_reset_delivering s).1
  | OQueueNextDue => (store_queue_next_due s).1
  end.

(** The integers a caller passes are [uint32_t]. *)
Definition op_u32 (o : store_op) : Prop :=
  match o with
  | ORevmapAdd _ _ _ ts => is_u32 ts
  | OLogAdd m ts dir _ _ _ => is_u32 m /\ is_u32 ts /\ is_u32 dir
  | OQueueAdd m k _ _ => is_u32 m /\ is_u32 k
  | OQueueSetStatus m k _ a nt => is_u32 m /\ is_u32 k /\ is_u32 a /\ is_u32 nt
  | _ => True
  end.

(** A write whose row is well typed, with either return code. *)
Lemma add_ret_wf s r x (k1 k2 : Store -> Store) :
  store_wf (db s) -> well_typed (db s) r x ->
  (forall s', store_wf (db s') -> store_wf (db (k1 s')) /\ store_wf (db (k2 s'))) ->
  forall e1 e2 : Z,
  store_wf (db (let '(s', rc) := add_fact s r x in
                if rc <? 0 then (k1 s', e1) else (k2 s', e2)).1).
Proof.
  intros Hwf Hx Hk e1 e2. pose proof (add_wf s r x Hwf Hx) as H.
  destruct (add_fact s r x) as [s' c]. destruct (Hk s' H). by destruct (c <? 0).
Qed.

Lemma alias_add_wf s a t : store_wf (db s) -> store_wf (db (alias_add_impl s a t).1).
Proof.
  intros Hwf. unfold alias_add_impl. destruct (_ || _); [done|].
  destruct (split_addr a) as [[l dm]|]; [|done]. do 3 step_intern. ext_chain.
  assert (Hwf' : store_wf (db s2)) by (by apply (ext_wf (db s))).
  destruct (_ || _) eqn:Hb; [done|]. ids_tac Hb.
  apply (add_ret_wf _ _ _ id id); [done|col_solve|done].
Qed.

Lemma seed_wf s ds als : store_wf (db s) -> store_wf (db (store_seed_aliases s ds als).1).
Proof.
  assert (Hd : forall s, store_wf (db s) -> store_wf (db (seed_domains s ds).1)).
  { induction ds as [|d ds IH]; intros s0 Hwf; [done|]. cbn [seed_domains].
    destruct (is_nil d); [by apply IH|]. step_intern. ext_chain.
    assert (Hwf' : store_wf (db s1)) by (by apply (ext_wf (db s0))).
    destruct (i =? 0) eqn:Hb; [done|]. ids_tac Hb.
    pose proof (add_wf s1 RDomain [i] Hwf' ltac:(col_solve)).
    destruct (add_fact _ _ _) as [s2 rc]. destruct (rc <? 0); [done|]. by apply IH. }
  assert (Ht : forall a l s, store_wf (db s) -> store_wf (db (seed_dests s a l).1)).
  { intros a l. induction l as [|t l IH]; intros s0 Hwf; [done|]. cbn [seed_dests].
    pose proof (alias_add_wf s0 a t Hwf). destruct (alias_add_impl s0 a t) as [s1 rc].
    destruct (rc =? VISAGE_OK); [by apply IH|done]. }
  assert (Ha : forall s, store_wf (db s) -> store_wf (db (seed_alias_list s als).1)).
  { induction als as [|[[a|] l] als IH]; intros s0 Hwf; cbn [seed_alias_list]; [done| |by apply IH].
    pose proof (Ht a l s0 Hwf). destruct (seed_dests s0 a l) as [s1 rc].
    destruct (rc =? VISAGE_OK); [by apply IH|done]. }
  intros Hwf. unfold store_seed_aliases. specialize (Hd s Hwf).
  destruct (seed_domains s ds) as [s1 rc]. destruct (rc =? VISAGE_OK); [by apply Ha|done].
Qed.

Lemma set_status_wf s m k st a nt :
  is_u32 m -> is_u32 k -> is_u32 a -> is_u32 nt ->
  store_wf (db s) -> store_wf (db (store_queue_set_status s m k st a nt).1).
Proof.
  intros Hm Hk Ha Hnt Hwf. unfold store_queue_set_status. destruct (is_nil st); [done|].
  set (s0 := MkStore _ _ true). step_intern.
  assert (Hwf' : store_wf (db s1)) by (by apply (ext_wf (db s0))).
  destruct (i =? 0) eqn:Hb; [done|]. rewrite queue_read_prefix.
  destruct (dl_rows (db s1) RQueue [m; k]) as [rows ok] eqn:Er. cbn [fst snd].
  destruct ok; [|done]. destruct (Z.ltb_spec (Z.of_nat (length rows)) 0); [lia|].
  destruct (take QUEUE_SET_MAX_ROWS rows) as [|x0 rows'] eqn:Et; [done|].
  assert (Hx0 : well_typed (db s1) RQueue x0).
  { apply Hwf', (rows_has _ _ [m; k]); rewrite Er; [done|]. simpl.
    apply (subseteq_take QUEUE_SET_MAX_ROWS). rewrite Et. by left. }
  assert (Hnext : well_typed (db s1) RQueue [m; k; col x0 2; col x0 3; a; nt; i]).
  { apply Z.eqb_neq in Hb. unfold well_typed in *. simpl in Hx0.
    repeat match goal with H : Forall2 _ (_ :: _) _ |- _ => inversion_clear H end.
    unfold col. simpl. col_solve. }
  destruct (find_row _ _); [cbn [fst]; rewrite delete_rows_if; by apply delete_if_wf|].
  pose proof (add_wf s1 RQueue _ Hwf' Hnext). destruct (add_fact _ _ _) as [s2 rc].
  destruct (rc <? 0); [done|]. cbn [fst]. rewrite delete_rows_if. by apply delete_if_wf.
Qed.


Lemma reset_items_wf items s :
  (forall m k a, (m, k, a) ∈ items -> is_u32 m /\ is_u32 k /\ is_u32 a) ->
  store_wf (db s) -> store_wf (db (reset_items s items).1).
Proof.
  revert s. induction items as [|[[m k] a] items IH]; intros s Hi Hwf; [done|]. cbn [reset_items].
  destruct (Hi m k a ltac:(by left)) as (Hm & Hk & Ha).
  pose proof (set_status_wf s m k QUEUE_STATUS_QUEUED a 0 Hm Hk Ha ltac:(done) Hwf).
  destruct (store_queue_set_status _ _ _ _ _ _) as [s1 rc]. destruct (rc =? VISAGE_OK); [|done].
  apply IH; [|done]. intros m' k' a' Hin. apply Hi. by right.
Qed.

(** The items [store_queue_reset_delivering] collects. *)
Definition delivering_items (id : Z) (rows : list row) : list (Z * Z * Z) :=
  map (fun x => (col x 0, col x 1, col x 4)) (List.filter (fun x => col x 6 =? id) rows).

Lemma delivering_prefix d id :
  dl_prefix d RQueue [] (delivering_collect_cb id) []
  = (if (dl_rows d RQueue []).2 then Z.of_nat (length (dl_rows d RQueue []).1) else -1,
     delivering_items id (dl_rows d RQueue []).1).
Proof.
  etransitivity; [apply dl_prefix_fold|]. f_equal.
  apply (foldl_filter (fun x => col x 6 =? id) (fun x => (col x 0, col x 1, col x 4)) []).
Qed.

Lemma queue_row_cols d x :
  well_typed d RQueue x ->
  exists m k f t a nt st, x = [m; k; f; t; a; nt; st] /\ is_u32 m /\ is_u32 k /\
    is_Some (dl_intern_str_of d f) /\ is_Some (dl_intern_str_of d t) /\
    is_u32 a /\ is_u32 nt /\ is_Some (dl_intern_str_of d st).
Proof.
  unfold well_typed. simpl. intros H.
  repeat match goal with H : Forall2 _ (_ :: _) _ |- _ => inversion_clear H end.
  match goal with H : Forall2 _ [] _ |- _ => inversion_clear H end.
  eexists _, _, _, _, _, _, _. done.
Qed.

Lemma delivering_items_u32 d id :
  store_wf d -> (dl_rows d RQueue []).2 = true ->
  forall m k a, (m, k, a) ∈ delivering_items id (dl_rows d RQueue []).1 ->
    is_u32 m /\ is_u32 k /\ is_u32 a.
Proof.
  intros Hwf Hok m k a H. unfold delivering_items in H.
  apply list_elem_of_In, List.in_map_iff in H as (x & [= <- <- <-] & [Hx _]%List.filter_In).
  apply list_elem_of_In in Hx. apply (rows_has _ _ _ _ Hok), Hwf, queue_row_cols in Hx.
  destruct Hx as (m & k & f & t & a & nt & st & -> & ?). unfold col. simpl. naive_solver.
Qed.

Lemma next_msgid_wf s : store_wf (db s) -> store_wf (db (store_next_msgid s).1).
Proof.
  intros Hwf. unfold store_next_msgid. step_intern.
  assert (Hwf' : store_wf (db s0)) by (by apply (ext_wf (db s))).
  destruct (i =? 0) eqn:Hb; [done|]. apply Z.eqb_neq in Hb. rewrite meta_read_prefix.
  destruct (_ <? 0); [done|]. set (next := u32 _). destruct (next =? 0); [done|].
  assert (is_u32 next) by apply u32_range.
  pose proof (add_wf s0 RMeta [i; next] Hwf' ltac:(col_solve)).
  destruct (add_fact _ _ _) as [s1 rc]. destruct (rc <? 0); [done|].
  cbn [fst]. rewrite delete_rows_if. by apply delete_if_wf.
Qed.

Lemma run_op_wf s (o : store_op) : store_wf (db s) -> op_u32 o -> store_wf (db (run_op s o)).
Proof.
  intros Hwf Hu.  destruct o; cbn [run_op op_u32] in *.
  - by apply alias_add_wf.
  - unfold store_alias_rm. destruct (split_addr alias) as [[l dm]|]; [|done]. do 3 step_intern.
    ext_chain. assert (Hwf' : store_wf (db s2)) by (by apply (ext_wf (db s))).
    destruct (_ || _); [done|]. pose proof (del_wf s2 RAlias [i; i0; i1] Hwf').
    destruct (delete_fact _ _ _) as [s3 rc]. by destruct (rc <? 0).
  - by apply seed_wf.
  - unfold store_resolve. destruct (split_addr alias) as [[l dm]|]; [|done]. do 2 step_intern.
    ext_chain. assert (Hwf' : store_wf (db s1)) by (by apply (ext_wf (db s))).
    destruct (_ || _); [done|]. destruct (dl_prefix _ _ _ count_cb _) as [n c].
    destruct (n <? 0); [done|]. destruct (n =? 0); [done|].
    destruct (dl_prefix _ _ _ _ _) as [n2 dc]. by destruct (_ || _).
  - unfold store_revmap_add_at. destruct (_ || _); [done|]. do 3 step_intern. ext_chain.
    assert (Hwf' : store_wf (db s2)) by (by apply (ext_wf (db s))).
    destruct (_ || _) eqn:Hb; [done|]. ids_tac Hb.
    apply (add_ret_wf _ _ _ id id); [done|col_solve|done].
  - unfold store_revmap_expire, revmap_expire_cb. rewrite collect_prefix.
    destruct (_ <? 0); [done|].
    apply (delete_if_wf (fun x => revmap_expired now (col x 3)) RRevmap), Hwf.
  - unfold store_revmap_resolve. destruct (is_nil token); [done|]. step_intern.
    assert (Hwf' : store_wf (db s0)) by (by apply (ext_wf (db s))).
    destruct (i =? 0); [done|]. destruct (dl_prefix _ _ _ _ _) as [n rc].
    destruct (n <? 0); [done|]. destruct (n =? 0); [done|]. destruct (revmap_expired _ _); [done|].
    by repeat case_match.
  - by apply next_msgid_wf.
  - destruct Hu as (Hm & Ht & Hd). unfold store_log_add. destruct (_ || _); [done|]. do 3 step_intern.
    ext_chain. assert (Hwf' : store_wf (db s2)) by (by apply (ext_wf (db s))).
    destruct (_ || _) eqn:Hb; [done|]. ids_tac Hb.
    apply (add_ret_wf _ _ _ id id); [done|col_solve|done].
  - unfold store_log_expire, log_expire_cb. rewrite collect_prefix.
    destruct (_ <? 0); [done|].
    apply (delete_if_wf (fun x => log_expired now (col x 1)) RLog), Hwf.
  - destruct Hu as (Hm & Hk). unfold store_queue_add. destruct (is_nil to); [done|]. do 3 step_intern.
    ext_chain. assert (Hwf' : store_wf (db s2)) by (by apply (ext_wf (db s))).
    destruct (_ || _) eqn:Hb; [done|]. ids_tac Hb.
    apply (add_ret_wf s2 RQueue _ id (fun s => MkStore (db s) 0 false)); [done|col_solve|done].
  - destruct Hu as (Hm & Hk & Ha & Hn). by apply set_status_wf.
  - unfold store_queue_delete. destruct (dl_prefix _ _ _ _ _) as [n rows]. destruct (n <? 0); [done|].
    cbn [fst]. rewrite delete_rows_if. by apply delete_if_wf.
  - unfold store_queue_count_by_status. destruct (is_nil status); [done|]. step_intern.
    assert (Hwf' : store_wf (db s0)) by (by apply (ext_wf (db s))).
    destruct (i =? 0); [done|]. by destruct (dl_prefix _ _ _ _ _).
  - unfold store_queue_reset_delivering. step_intern.
    assert (Hwf' : store_wf (db s0)) by (by apply (ext_wf (db s))).
    destruct (i =? 0); [done|]. rewrite delivering_prefix.
    destruct (dl_rows (db s0) RQueue []).2 eqn:Hok; [|done].
    destruct (_ <? 0); [done|]. apply reset_items_wf; [|done]. by apply delivering_items_u32.
  - unfold store_queue_next_due. destruct (negb _); [done|]. step_intern.
    assert (Hwf' : store_wf (db s0)) by (by apply (ext_wf (db s))).
    destruct (i =? 0); [done|]. destruct (dl_prefix _ _ _ _ _) as [n m]. by destruct (n <? 0).
Qed.

(** C35: The int/sym discipline. After any sequence of store operations, on
    every path and with engine failures at any call, each relation has its
    schema's arity, every string column is an interned symbol and every integer
    column a raw u32. *)
Theorem store_types_preserved s (ops : list store_op)
  (Hwf : store_wf (db s)) (Hu : Forall op_u32 ops) : store_wf (db (foldl run_op s ops)).
Proof.
  revert s Hwf. induction Hu as [|o ops Ho _ IH]; intros s Hwf; [done|].
  apply IH. by apply run_op_wf.
Qed.

End Types.

Lemma store_types_preserved_witness :
  let ops := [OQueueAdd 7 0 (bs "a@x") (bs "b@y"); OQueueSetStatus 7 0 (bs "delivering") 1 60] in
  let s := foldl run_op (@store_open MemEngine mem_empty) ops in
  store_wf (db s) /\ dl_has (db s) RQueue [7; 0; 1; 2; 1; 60; 4].
Proof.
  intros ops s. split.
  - apply (store_types_preserved (@store_open MemEngine mem_empty) ops).
    + intros r x Hx. by apply elem_of_nil in Hx.
    + repeat constructor; unfold is_u32, UINT32_MAX; lia.
  - vm_compute. constructor.
Defined.
