(* ===== verification/StoreTables.v ===== *)
(** * The alias table, the reply map, the message counter and the log

    Abstract relations over strings ([alias_fact], [revmap_fact], [log_fact],
    [meta_fact]) and what the operations of [Store.v] do to them. *)

From Stdlib Require Import Sorting.Sorted.
From S2P Require Import Prelude DlEngine Store StoreSpec.

Lemma cut_lower s :
  cut "@"%chr (lower s) = (fun p => (lower p.1, lower p.2)) <$> cut "@"%chr s.
Proof.
  induction s as [|c s IH]; [done|]. cbn [lower map cut].
  assert (Hc : (tolower c =? "@"%chr) = (c =? "@"%chr)).
  { unfold tolower. destruct (_ && _) eqn:Hu; [|done]. apply andb_true_iff in Hu. lia. }
  fold (lower s). rewrite Hc. destruct (c =? "@"%chr); [done|]. rewrite IH. by destruct (cut _ s) as [[a b]|].
Qed.

Lemma split_addr_lower s : split_addr (lower s) = split_addr s.
Proof.
  unfold split_addr. rewrite cut_lower. destruct (cut _ s) as [[l d]|]; [|done]. simpl.
  destruct l as [|x l]; [done|]. destruct d as [|y d]; [done|].
  cbn [fst snd]. rewrite !lower_idem. done.
Qed.

Section Tables.
Context {E : DlEngine} {L : DlLaws E}.
Implicit Types (d : dl_db) (s : Store).

Definition sym d (i : Z) (t : bytes) : Prop := dl_intern_str_of d i = Some t.

(** ** Aliases *)

Definition alias_fact d (dom loc dst : bytes) : Prop :=
  exists i j k, sym d i dom /\ sym d j loc /\ sym d k dst /\ dl_has d RAlias [i; j; k].

Lemma alias_row_inv d x :
  store_wf d -> dl_has d RAlias x ->
  exists i j k a b c, x = [i; j; k] /\ sym d i a /\ sym d j b /\ sym d k c.
Proof.
  intros Hwf Hx. specialize (Hwf _ _ Hx). unfold well_typed in Hwf. simpl in Hwf.
  repeat match goal with H : Forall2 _ (_ :: _) _ |- _ => inversion_clear H end.
  match goal with H : Forall2 _ [] _ |- _ => inversion_clear H end. simpl in *.
  repeat match goal with H : is_Some _ |- _ => destruct H end. eexists _, _, _, _, _, _. done.
Qed.

(** With the symbols known, an alias fact is one row. *)
Lemma alias_fact_row d i j k a b c :
  sym d i a -> sym d j b -> sym d k c -> alias_fact d a b c <-> dl_has d RAlias [i; j; k].
Proof.
  intros Hi Hj Hk. split; [|by exists i, j, k].
  intros (i' & j' & k' & Hi' & Hj' & Hk' & H).
  by rewrite (str_of_inj d i i' a), (str_of_inj d j j' b), (str_of_inj d k k' c).
Qed.

Lemma alias_fact_ext d d' a b c :
  ext d d' -> store_wf d -> alias_fact d' a b c <-> alias_fact d a b c.
Proof.
  intros [F S] Hwf. split.
  - intros (i & j & k & Hi & Hj & Hk & H). apply F in H.
    destruct (alias_row_inv d _ Hwf H) as (i' & j' & k' & a' & b' & c' & [= <- <- <-] & Ha & Hb & Hc).
    pose proof (S _ _ Ha). pose proof (S _ _ Hb). pose proof (S _ _ Hc). unfold sym in *.
    exists i, j, k. naive_solver congruence.
  - intros (i & j & k & Hi & Hj & Hk & H). exists i, j, k. unfold sym in *. rewrite F. auto.
Qed.

Lemma alias_fact_add d i j k a b c :
  sym d i a -> sym d j b -> sym d k c -> 0 <= (dl_add_fact d RAlias [i; j; k]).2 ->
  forall a' b' c', alias_fact (dl_add_fact d RAlias [i; j; k]).1 a' b' c'
    <-> (alias_fact d a' b' c' \/ (a', b', c') = (a, b, c)).
Proof.
  intros Hi Hj Hk Hrc a' b' c'. unfold alias_fact, sym. setoid_rewrite add_str_of. split.
  - intros (i' & j' & k' & Hi' & Hj' & Hk' & H). apply add_has_inv in H as [H|[_ [= -> -> ->]]].
    + left. by exists i', j', k'.
    + right. unfold sym in *. congruence.
  - intros [(i' & j' & k' & Hi' & Hj' & Hk' & H)|[= -> -> ->]].
    + exists i', j', k'. repeat split; try done. by apply add_has_keep.
    + exists i, j, k. repeat split; try done. by apply add_ok.
Qed.

Lemma alias_fact_del d i j k a b c :
  sym d i a -> sym d j b -> sym d k c -> 0 <= (dl_delete_fact d RAlias [i; j; k]).2 ->
  forall a' b' c', alias_fact (dl_delete_fact d RAlias [i; j; k]).1 a' b' c'
    <-> (alias_fact d a' b' c' /\ (a', b', c') <> (a, b, c)).
Proof.
  intros Hi Hj Hk Hrc a' b' c'. unfold alias_fact, sym. setoid_rewrite del_str_of. split.
  - intros (i' & j' & k' & Hi' & Hj' & Hk' & H). pose proof (del_has_inv _ _ _ _ _ H) as H'. split.
    + by exists i', j', k'.
    + intros [= -> -> ->]. unfold sym in *.
      rewrite (str_of_inj d i' i a), (str_of_inj d j' j b), (str_of_inj d k' k c) in H by done.
      by apply (del_ok d _ _ Hrc) in H.
  - intros [(i' & j' & k' & Hi' & Hj' & Hk' & H) Hne]. exists i', j', k'. repeat split; try done.
    apply del_has_keep; [|done]. intros [= -> -> ->]. apply Hne. unfold sym in *. congruence.
Qed.

(** Adding and removing an alias. When [store_alias_add] returns VISAGE_OK
    the alias table is the old one plus the lowered local part and domain with
    the destination as given; when [store_alias_rm] returns VISAGE_OK it is the
    old one less exactly that fact (absent or not). An address without '@', with
    an empty part, or an empty argument to add, is VISAGE_EPARAM and nothing
    changes. *)
Lemma alias_add_rm_refines s (alias dest : bytes) (Hwf : store_wf (db s)) :
  (match split_addr alias with
   | None => store_alias_add s alias dest = (s, VISAGE_EPARAM) /\
             store_alias_rm s alias dest = (s, VISAGE_EPARAM)
   | Some (loc, dom) =>
       ((store_alias_add s alias dest).2 = VISAGE_OK ->
        forall a b c, alias_fact (db (store_alias_add s alias dest).1) a b c
          <-> (alias_fact (db s) a b c \/ (a, b, c) = (dom, loc, dest))) /\
       ((store_alias_rm s alias dest).2 = VISAGE_OK ->
        forall a b c, alias_fact (db (store_alias_rm s alias dest).1) a b c
          <-> (alias_fact (db s) a b c /\ (a, b, c) <> (dom, loc, dest)))
   end) /\
  (is_nil dest = true -> store_alias_add s alias dest = (s, VISAGE_EPARAM)).
Proof.
  split.
  - unfold store_alias_add, alias_add_impl, store_alias_rm.
    destruct (split_addr alias) as [[loc dom]|]; [|by destruct (_ || _)].
    split.
    + destruct (_ || _); [done|]. do 3 step_intern. ext_chain.
      destruct (_ || _) eqn:Hb; [done|]. assert (ext (db s) (db s2)) as Hx by done. ids_tac Hb.
      destruct (add_fact_db s2 RAlias [i; i0; i1]) as (Hd & Hr & _).
      destruct (add_fact s2 _ _) as [s3 rc]. cbn [fst snd] in *.
      destruct (Z.ltb_spec rc 0); [done|]. intros _ a b c. cbn [fst]. rewrite Hd.
      rewrite (alias_fact_add _ i i0 i1 dom loc dest) by (unfold sym; eauto; lia).
      by rewrite (alias_fact_ext (db s) (db s2)).
    + do 3 step_intern. ext_chain.
      destruct (_ || _) eqn:Hb; [done|]. assert (ext (db s) (db s2)) as Hx by done. ids_tac Hb.
      destruct (delete_fact_db s2 RAlias [i; i0; i1]) as (Hd & Hr & _).
      destruct (delete_fact s2 _ _) as [s3 rc]. cbn [fst snd] in *.
      destruct (Z.ltb_spec rc 0); [done|]. intros _ a b c. cbn [fst]. rewrite Hd.
      rewrite (alias_fact_del _ i i0 i1 dom loc dest) by (unfold sym; eauto; lia).
      by rewrite (alias_fact_ext (db s) (db s2)).
  - intros Hn. unfold store_alias_add, alias_add_impl. rewrite Hn. by rewrite orb_true_r.
Qed.


(** On a healthy engine both succeed on a well-formed address. *)
Lemma alias_ops_ok {Hh : DlHealthy E} s (alias dest loc dom : bytes) :
  split_addr alias = Some (loc, dom) ->
  (is_nil dest = false -> (store_alias_add s alias dest).2 = VISAGE_OK) /\ (store_alias_rm s alias dest).2 = VISAGE_OK.
Proof.
  intros Hsp. assert (Hne : is_nil alias = false) by (by destruct alias).
  unfold store_alias_add, alias_add_impl, store_alias_rm. rewrite Hsp, Hne. split.
  - intros ->. cbn [orb]. do 3 step_intern. specialize (Hnz Hh). specialize (Hnz0 Hh). specialize (Hnz1 Hh).
    destruct (_ || _) eqn:Hb; [lia|]. destruct (add_fact_db s2 RAlias [i; i0; i1]) as (_ & Hr & _).
    destruct (add_fact s2 _ _) as [s3 rc]. cbn [fst snd] in *. subst rc.
    pose proof (add_healthy (db s2) RAlias [i; i0; i1]). by destruct (Z.ltb_spec (dl_add_fact (db s2) RAlias [i; i0; i1]).2 0); [lia|].
  - do 3 step_intern. specialize (Hnz Hh). specialize (Hnz0 Hh). specialize (Hnz1 Hh).
    destruct (_ || _) eqn:Hb; [lia|]. destruct (delete_fact_db s2 RAlias [i; i0; i1]) as (_ & Hr & _).
    destruct (delete_fact s2 _ _) as [s3 rc]. cbn [fst snd] in *. subst rc.
    pose proof (del_healthy (db s2) RAlias [i; i0; i1]). by destruct (Z.ltb_spec (dl_delete_fact (db s2) RAlias [i; i0; i1]).2 0); [lia|].
Qed.

(** The second walk of [store_resolve] collects the destination of every row. *)
Lemma dest_collect_walk d rows n c :
  (forall x, x ∈ rows -> is_Some (dl_intern_str_of d (col x 2))) ->
  (length (dc_arr c) + length rows <= dc_cap c)%nat ->
  walk (dest_collect_cb d) rows n c =
  (n + Z.of_nat (length rows),
   {| dc_arr := dc_arr c ++ omap (fun x => dl_intern_str_of d (col x 2)) rows;
      dc_cap := dc_cap c; dc_err := dc_err c |}).
Proof.
  revert n c. induction rows as [|x rows IH]; intros n c Hs Hc.
  - simpl. rewrite app_nil_r, Z.add_0_r. by destruct c.
  - cbn [walk omap list_omap]. unfold dest_collect_cb at 1. simpl in Hc.
    destruct (Nat.leb_spec (dc_cap c) (length (dc_arr c))); [lia|].
    destruct (Hs x ltac:(by left)) as [t Ht]. rewrite Ht. cbn beta iota zeta.
    rewrite IH; cbn [dc_arr dc_cap dc_err]; [|intros y Hy; apply Hs; by right|].
    + f_equal; [simpl; lia|]. by rewrite <- app_assoc.
    + rewrite length_app. simpl. lia.
Qed.

Lemma omap_nodup {A B} (f : A -> option B) (l : list A) :
  NoDup l -> (forall x y b, x ∈ l -> y ∈ l -> f x = Some b -> f y = Some b -> x = y) ->
  NoDup (omap f l).
Proof.
  induction 1 as [|x l Hx Hn IH]; intros Hinj; simpl; [constructor|].
  assert (IH' : NoDup (omap f l)) by (apply IH; intros; apply (Hinj x0 y b); (done || by right)).
  destruct (f x) as [b|] eqn:Ef; [|done]. constructor; [|done].
  rewrite list_elem_of_omap. intros (y & Hy & Hfy). apply Hx.
  rewrite (Hinj x y b); [done|by left|by right|done|done].
Qed.

Lemma resolve_spec s (alias loc dom : bytes) :
  store_wf (db s) -> split_addr alias = Some (loc, dom) ->
  let '(s', rc, ds) := store_resolve s alias in
  ext (db s) (db s') /\
  (rc = VISAGE_OK -> NoDup ds /\ forall x, x ∈ ds <-> alias_fact (db s) dom loc x) /\
  (rc <> VISAGE_OK -> ds = [] /\ ~ DlHealthy E).
Proof.
  intros Hwf Hsp. unfold store_resolve. rewrite Hsp. do 2 step_intern.
  assert (X : ext (db s) (db s1)) by (by etrans). pose proof (ext_wf _ _ X Hwf) as Hwf1.
  destruct ((i =? 0) || (i0 =? 0)) eqn:Hb.
  { split; [done|]. split; [done|]. intros _. split; [done|]. intros H.
    specialize (Hnz H). specialize (Hnz0 H). lia. }
  assert (Hi : sym (db s1) i dom) by (unfold sym; destruct Hext0 as [_ K]; apply K, Hstr; lia).
  assert (Hj : sym (db s1) i0 loc) by (unfold sym; apply Hstr0; lia).
  pose proof (count_prefix (db s1) RAlias [i; i0]) as Hcnt.
  destruct (dl_prefix (db s1) RAlias [i; i0] count_cb 0) as [n c]. cbn [fst] in Hcnt. subst n. rewrite dl_prefix_eq.
  pose proof (rows_failed (db s1) RAlias [i; i0]) as Hfail.
  pose proof (rows_exact (db s1) RAlias [i; i0]) as Hex.
  pose proof (rows_nodup (db s1) RAlias [i; i0]) as Hnd.
  destruct (dl_rows (db s1) RAlias [i; i0]) as [rows ok]. cbn [fst snd] in *.
  destruct ok; cbn [Z.ltb Z.compare]; [|split; [done|split; [done|intros _; auto]]].
  specialize (Hex eq_refl). destruct (Z.ltb_spec (Z.of_nat (length rows)) 0); [lia|].
  assert (Hrow : forall x, x ∈ rows -> exists k t, x = [i; i0; k] /\ sym (db s1) k t).
  { intros x Hx. apply Hex in Hx as [Hx Hp].
    destruct (alias_row_inv _ _ Hwf1 Hx) as (i' & j' & k' & a & b & t & -> & _ & _ & Ht).
    simpl in Hp. injection Hp as -> ->. eauto. }
  assert (Hmem : forall x, alias_fact (db s) dom loc x <-> exists k, sym (db s1) k x /\ [i; i0; k] ∈ rows).
  { intros x. rewrite <- (alias_fact_ext (db s) (db s1)) by done. split.
    - intros (i' & j' & k & Hi' & Hj' & Hk & Hh). exists k. split; [done|]. apply Hex.
      by rewrite (str_of_inj (db s1) i i' dom), (str_of_inj (db s1) i0 j' loc).
    - intros (k & Hk & Hh). apply Hex in Hh as [Hh _]. by exists i, i0, k. }
  destruct (Z.eqb_spec (Z.of_nat (length rows)) 0) as [Hz|Hz].
  { split; [done|]. split; [|done]. intros _. split; [constructor|]. intros x. rewrite Hmem.
    destruct rows; [|simpl in Hz; lia]. split; [by intros ?%elem_of_nil|].
    by intros (k & _ & ?%elem_of_nil). }
  rewrite dest_collect_walk; cbn [dc_arr dc_cap dc_err fst snd]; [| |simpl; lia].
  2:{ intros x Hx. destruct (Hrow x Hx) as (k & t & -> & Ht). by exists t. }
  destruct (Z.ltb_spec (0 + Z.of_nat (length rows)) 0); [lia|]. cbn [orb app].
  split; [done|]. split; [|done]. intros _. split.
  - apply omap_nodup; [done|]. intros x y b Hx Hy.
    destruct (Hrow x Hx) as (k & t & -> & _), (Hrow y Hy) as (k' & t' & -> & _).
    unfold col. simpl. intros H1 H2. by rewrite (str_of_inj (db s1) k k' b).
  - intros x. rewrite Hmem, list_elem_of_omap. split.
    + intros (y & Hy & Hs). destruct (Hrow y Hy) as (k & t & -> & _). by exists k.
    + intros (k & Hk & Hy). by exists [i; i0; k].
Qed.

(** Resolving an alias. On a well-typed store, [store_resolve] returns
    VISAGE_EPARAM exactly for a malformed address; otherwise, when it returns
    VISAGE_OK, the destination list has no duplicate and holds exactly the
    destinations of that alias, whatever the case of the address; the tables are
    unchanged; and on a healthy engine it always returns VISAGE_OK. *)
Theorem store_resolve_correct s (alias : bytes) (Hwf : store_wf (db s)) :
  let '(s', rc, ds) := store_resolve s alias in
  match split_addr alias with
  | None => (s', rc, ds) = (s, VISAGE_EPARAM, [])
  | Some (loc, dom) =>
      (rc = VISAGE_OK -> NoDup ds /\ forall x, x ∈ ds <-> alias_fact (db s) dom loc x) /\
      (DlHealthy E -> rc = VISAGE_OK)
  end /\
  (forall r x, dl_has (db s') r x <-> dl_has (db s) r x) /\
  split_addr (lower alias) = split_addr alias.
Proof.
  assert (Hlow : split_addr (lower alias) = split_addr alias) by apply split_addr_lower.
  destruct (split_addr alias) as [[loc dom]|] eqn:Hsp.
  - pose proof (resolve_spec s alias loc dom Hwf Hsp) as H.
    destruct (store_resolve s alias) as [[s' rc] ds]. destruct H as ([F _] & H1 & H2).
    split; [|done]. split; [done|]. intros Hh.
    destruct (Z.eq_dec rc VISAGE_OK) as [|Hne]; [done|]. by destruct (H2 Hne).
  - unfold store_resolve. rewrite Hsp. done.
Qed.


(** ** The reply map *)

Definition revmap_fact d (tok sn al : bytes) (ts : Z) : Prop :=
  exists i j k, sym d i tok /\ sym d j sn /\ sym d k al /\ dl_has d RRevmap [i; j; k; ts].

Lemma revmap_row_inv d x :
  store_wf d -> dl_has d RRevmap x ->
  exists i j k ts a b c, x = [i; j; k; ts] /\ sym d i a /\ sym d j b /\ sym d k c /\ is_u32 ts.
Proof.
  intros Hwf Hx. specialize (Hwf _ _ Hx). unfold well_typed in Hwf. simpl in Hwf.
  repeat match goal with H : Forall2 _ (_ :: _) _ |- _ => inversion_clear H end.
  match goal with H : Forall2 _ [] _ |- _ => inversion_clear H end. simpl in *.
  repeat match goal with H : is_Some _ |- _ => destruct H end. eexists _, _, _, _, _, _, _. done.
Qed.

Lemma revmap_fact_ext d d' a b c ts :
  ext d d' -> store_wf d -> revmap_fact d' a b c ts <-> revmap_fact d a b c ts.
Proof.
  intros [F S] Hwf. split.
  - intros (i & j & k & Hi & Hj & Hk & H). apply F in H.
    destruct (revmap_row_inv d _ Hwf H) as (i' & j' & k' & ts' & a' & b' & c' & [= <- <- <- <-] & Ha & Hb & Hc & _).
    pose proof (S _ _ Ha). pose proof (S _ _ Hb). pose proof (S _ _ Hc). unfold sym in *.
    exists i, j, k. naive_solver congruence.
  - intros (i & j & k & Hi & Hj & Hk & H). exists i, j, k. unfold sym in *. rewrite F. auto.
Qed.

Lemma revmap_fact_add d i j k ts a b c :
  sym d i a -> sym d j b -> sym d k c -> 0 <= (dl_add_fact d RRevmap [i; j; k; ts]).2 ->
  forall a' b' c' ts', revmap_fact (dl_add_fact d RRevmap [i; j; k; ts]).1 a' b' c' ts'
    <-> (revmap_fact d a' b' c' ts' \/ (a', b', c', ts') = (a, b, c, ts)).
Proof.
  intros Hi Hj Hk Hrc a' b' c' ts'. unfold revmap_fact, sym. setoid_rewrite add_str_of. split.
  - intros (i' & j' & k' & Hi' & Hj' & Hk' & H). apply add_has_inv in H as [H|[_ [= -> -> -> ->]]].
    + left. by exists i', j', k'.
    + right. unfold sym in *. congruence.
  - intros [(i' & j' & k' & Hi' & Hj' & Hk' & H)|[= -> -> -> ->]].
    + exists i', j', k'. repeat split; try done. by apply add_has_keep.
    + exists i, j, k. repeat split; try done. by apply add_ok.
Qed.

Lemma revmap_cb_found rows c : rc_found c = true -> foldl (fun c x => (revmap_cb c x).1) c rows = c.
Proof.
  intros Hc. induction rows as [|x rows IH]; [done|]. simpl. unfold revmap_cb. by rewrite Hc.
Qed.

Lemma revmap_prefix d p :
  let c0 := {| rc_sender := 0; rc_alias_addr := 0; rc_created_ts := 0; rc_found := false |} in
  dl_prefix d RRevmap p revmap_cb c0
  = (if (dl_rows d RRevmap p).2 then Z.of_nat (length (dl_rows d RRevmap p).1) else -1,
     match (dl_rows d RRevmap p).1 with
     | [] => c0
     | x :: _ => {| rc_sender := col x 1; rc_alias_addr := col x 2; rc_created_ts := col x 3;
                    rc_found := true |}
     end).
Proof.
  intros c0. etransitivity; [apply (dl_prefix_fold d RRevmap p (fun c x => (revmap_cb c x).1))|].
  f_equal. destruct (dl_rows d RRevmap p).1 as [|x rows]; [done|].
  exact (revmap_cb_found rows {| rc_sender := col x 1; rc_alias_addr := col x 2;
           rc_created_ts := col x 3; rc_found := true |} eq_refl).
Qed.

(** What a lookup of a nonempty token returns. *)
Lemma revmap_resolve_spec s now (tok : bytes) :
  store_wf (db s) -> is_nil tok = false ->
  let '(s', rc, r) := store_revmap_resolve s now tok in
  ext (db s) (db s') /\
  match r with
  | Some (sn, al) => rc = VISAGE_OK /\ exists ts, revmap_fact (db s) tok sn al ts /\ revmap_expired (u32 now) ts = false
  | None =>
      (rc = VISAGE_OK /\ forall sn al ts, ~ revmap_fact (db s) tok sn al ts) \/
      (rc = VISAGE_OK /\ exists sn al ts, revmap_fact (db s) tok sn al ts /\ revmap_expired (u32 now) ts = true) \/
      (rc <> VISAGE_OK /\ ~ DlHealthy E)
  end.
Proof.
  intros Hwf Htok. unfold store_revmap_resolve. rewrite Htok. step_intern.
  pose proof (ext_wf _ _ Hext Hwf) as Hwf1.
  destruct (Z.eqb_spec i 0) as [Hb|Hb]; [split; [done|]; right; right; split; [done|]; naive_solver|].
  specialize (Hstr Hb). rewrite revmap_prefix.
  pose proof (rows_failed (db s0) RRevmap [i]) as Hfail.
  pose proof (rows_exact (db s0) RRevmap [i]) as Hex.
  destruct (dl_rows (db s0) RRevmap [i]) as [rows ok]. cbn [fst snd] in *.
  destruct ok; cbn [Z.ltb Z.compare]; [|split; [done|]; right; right; auto].
  specialize (Hex eq_refl). destruct (Z.ltb_spec (Z.of_nat (length rows)) 0); [lia|].
  destruct rows as [|x rows]; cbn [length Z.of_nat Z.eqb].
  { split; [done|]. left. split; [done|]. intros sn al ts. rewrite <- (revmap_fact_ext (db s) (db s0)) by done.
    intros (i' & j & k & Hi & _ & _ & Hh). rewrite (str_of_inj (db s0) i' i tok) in Hh by done.
    assert (Hin : [i; j; k; ts] ∈ @nil row) by (by apply Hex). by apply elem_of_nil in Hin. }
  destruct (proj1 (Hex x) ltac:(by left)) as [Hx Hp].
  destruct (revmap_row_inv _ _ Hwf1 Hx) as (i' & j & k & ts & a & sn & al & -> & Ha & Hsn & Hal & _).
  simpl in Hp. injection Hp as ->. unfold sym in Ha. rewrite Hstr in Ha. injection Ha as <-.
  assert (Hf : revmap_fact (db s) tok sn al ts).
  { apply (revmap_fact_ext (db s) (db s0)); [done..|]. by exists i, j, k. }
  cbn [rc_created_ts rc_sender rc_alias_addr]. change (col [i; j; k; ts] 3) with ts.
  change (col [i; j; k; ts] 1) with j. change (col [i; j; k; ts] 2) with k.
  destruct (revmap_expired (u32 now) ts) eqn:Hexp.
  - split; [done|]. right; left. eauto 6.
  - unfold sym in Hsn, Hal. rewrite Hsn, Hal. split; [done|]. eauto.
Qed.

Lemma revmap_roundtrip {Hh : DlHealthy E} s (tok sn al : bytes) (ts now : Z)
  (Hwf : store_wf (db s)) (Hts : is_u32 ts)
  (Hne : is_nil tok = false /\ is_nil sn = false /\ is_nil al = false)
  (Hfresh : forall sn' al' ts', ~ revmap_fact (db s) tok sn' al' ts') :
  exists s1 s2, store_revmap_add_at s tok sn al ts = (s1, VISAGE_OK) /\
    store_revmap_resolve s1 now tok
    = (s2, VISAGE_OK, if u32 (u32 now - ts) <? REVMAP_TTL_SEC then Some (sn, al) else None) /\
    (forall tok' sn' al', (store_revmap_resolve s1 now tok').2 = Some (sn', al') ->
       exists ts', (revmap_fact (db s) tok' sn' al' ts' \/ (tok', sn', al', ts') = (tok, sn, al, ts)) /\
         u32 (u32 now - ts') < REVMAP_TTL_SEC).
Proof.
  destruct Hne as (Ht & Hs & Ha). unfold store_revmap_add_at. rewrite Ht, Hs, Ha. cbn [orb].
  do 3 step_intern. ext_chain. assert (ext (db s) (db s2)) as Hx by done.
  pose proof (ext_wf _ _ Hx Hwf) as Hwf2.
  destruct (_ || _) eqn:Hb; [naive_solver lia|]. ids_tac Hb.
  pose proof (add_wf s2 RRevmap [i; i0; i1; ts] Hwf2 ltac:(col_solve)) as Hwf3.
  destruct (add_fact_db s2 RRevmap [i; i0; i1; ts]) as (Hd & Hr & _).
  pose proof (add_healthy (db s2) RRevmap [i; i0; i1; ts]) as Hok.
  assert (Hf : forall a b c t, revmap_fact (dl_add_fact (db s2) RRevmap [i; i0; i1; ts]).1 a b c t
             <-> (revmap_fact (db s) a b c t \/ (a, b, c, t) = (tok, sn, al, ts))).
  { intros a b c t. rewrite (revmap_fact_add _ i i0 i1 ts tok sn al) by (unfold sym; eauto).
    by rewrite (revmap_fact_ext (db s) (db s2)). }
  destruct (add_fact s2 _ _) as [s3 rc]. cbn [fst snd] in *. rewrite <- Hd in Hf.
  destruct (Z.ltb_spec rc 0); [lia|].
  pose proof (fun tok' Hn => revmap_resolve_spec s3 now tok' Hwf3 Hn) as Hres.
  assert (Hage : forall t, revmap_expired (u32 now) t = negb (u32 (u32 now - t) <? REVMAP_TTL_SEC)).
  { intros t. unfold revmap_expired. lia. }
  exists s3. destruct (store_revmap_resolve s3 now tok) as [[s4 rc4] r4] eqn:E4.
  exists s4. split; [done|]. split.
  - pose proof (Hres tok Ht) as Hr4. rewrite E4 in Hr4. destruct Hr4 as [_ Hr4].
    assert (Hself : revmap_fact (db s3) tok sn al ts) by (apply Hf; by right).
    destruct r4 as [[sn' al']|].
    + destruct Hr4 as (-> & t & Hft & He). apply Hf in Hft as [Hft|[= -> -> ->]]; [by destruct (Hfresh _ _ _ Hft)|].
      rewrite Hage in He. by destruct (_ <? _).
    + destruct Hr4 as [[_ Hr5]|[(-> & sn' & al' & t & Hft & He)|[_ Hr5]]]; [by destruct (Hr5 sn al ts)| |done].
      apply Hf in Hft as [Hft|[= -> -> ->]]; [by destruct (Hfresh _ _ _ Hft)|].
      rewrite Hage in He. by destruct (_ <? _).
  - intros tok' sn' al' Hq. destruct (is_nil tok') eqn:Hn.
    + unfold store_revmap_resolve in Hq. by rewrite Hn in Hq.
    + pose proof (Hres tok' Hn) as Hr5. destruct (store_revmap_resolve s3 now tok') as [[s5 rc5] r5].
      simpl in Hq. subst r5. destruct Hr5 as (_ & _ & t & Hft & He). exists t. split; [by apply Hf|].
      rewrite Hage in He. lia.
Qed.

(** The reply map, end to end. Recording a fresh token and looking it up
    returns the recorded pair while the row is younger than the TTL and nothing
    once it is not; a lookup never returns a pair that was not recorded, nor one
    that has expired. *)
Theorem revmap_add_resolve {Hh : DlHealthy E} s (tok sn al : bytes) (ts now : Z)
  (Hwf : store_wf (db s)) (Hts : is_u32 ts)
  (Hne : is_nil tok = false /\ is_nil sn = false /\ is_nil al = false)
  (Hfresh : forall sn' al' ts', ~ revmap_fact (db s) tok sn' al' ts') :
  exists s1 s2, store_revmap_add_at s tok sn al ts = (s1, VISAGE_OK) /\
    store_revmap_resolve s1 now tok
    = (s2, VISAGE_OK, if u32 (u32 now - ts) <? REVMAP_TTL_SEC then Some (sn, al) else None) /\
    (forall tok' sn' al', (store_revmap_resolve s1 now tok').2 = Some (sn', al') ->
       exists ts', (revmap_fact (db s) tok' sn' al' ts' \/ (tok', sn', al', ts') = (tok, sn, al, ts)) /\
         u32 (u32 now - ts') < REVMAP_TTL_SEC).
Proof. by apply revmap_roundtrip. Qed.


(** ** The sweeps *)

(** What a collect-then-delete sweep over a whole relation leaves. *)
Lemma sweep_spec (p : row -> bool) r s rows ok :
  dl_rows (db s) r [] = (rows, ok) -> ok = true ->
  (forall x, dl_has (db (delete_if p r s rows)) r x -> dl_has (db s) r x) /\
  (forall x, dl_has (db s) r x -> p x = false -> dl_has (db (delete_if p r s rows)) r x) /\
  (DlHealthy E -> forall x, dl_has (db (delete_if p r s rows)) r x -> p x = false) /\
  (forall r' x, r' <> r -> dl_has (db (delete_if p r s rows)) r' x <-> dl_has (db s) r' x).
Proof.
  intros Hr Hok. pose proof (rows_exact (db s) r []) as Hex. rewrite Hr in Hex. cbn [fst snd] in Hex.
  specialize (Hex Hok). destruct (delete_if_spec p r s rows) as (I1 & I2 & I3 & _).
  split; [auto|]. split; [|split].
  - intros x Hx Hp. apply I2; [done|]. by right.
  - intros Hh x Hx. destruct (p x) eqn:Hp; [|done]. exfalso.
    apply (delete_if_gone p r s rows x); [|done|done]. apply Hex. split; [by apply I1|done].
  - intros r' x Hne. split; [apply I1|]. intros Hx. by apply I2.
Qed.

Lemma revmap_expire_eq s now :
  store_revmap_expire s now =
  if (dl_rows (db s) RRevmap []).2
  then (delete_if (fun x => revmap_expired now (col x 3)) RRevmap s (dl_rows (db s) RRevmap []).1, VISAGE_OK)
  else (s, VISAGE_ESTORE).
Proof.
  unfold store_revmap_expire, revmap_expire_cb. rewrite collect_prefix.
  destruct (dl_rows (db s) RRevmap []).2; [|done].
  by destruct (Z.ltb_spec (Z.of_nat (length (dl_rows (db s) RRevmap []).1)) 0); [lia|].
Qed.

Lemma log_expire_eq s now :
  store_log_expire s now =
  if (dl_rows (db s) RLog []).2
  then (delete_if (fun x => log_expired now (col x 1)) RLog s (dl_rows (db s) RLog []).1, VISAGE_OK)
  else (s, VISAGE_ESTORE).
Proof.
  unfold store_log_expire, log_expire_cb. rewrite collect_prefix.
  destruct (dl_rows (db s) RLog []).2; [|done].
  by destruct (Z.ltb_spec (Z.of_nat (length (dl_rows (db s) RLog []).1)) 0); [lia|].
Qed.

(** Both hourly sweeps. When a sweep returns VISAGE_OK it never deletes a
    row that is still inside its window and touches no other relation; on a
    healthy engine it returns VISAGE_OK and no row past its window is left. The
    log window is on the signed age, so a log row from the future stays; the
    reply-map window is on the u32 difference. *)
Theorem sweeps_correct s (now : Z) (Hnow : is_u32 now) (Hwf : store_wf (db s)) :
  let '(s1, rc1) := store_log_expire s now in
  let '(s2, rc2) := store_revmap_expire s now in
  (rc1 = VISAGE_OK ->
     (forall x, dl_has (db s) RLog x -> now - col x 1 < LOG_RETENTION_SEC -> dl_has (db s1) RLog x) /\
     (DlHealthy E -> forall x, dl_has (db s1) RLog x ->
        dl_has (db s) RLog x /\ now - col x 1 < LOG_RETENTION_SEC) /\
     (forall r x, r <> RLog -> dl_has (db s1) r x <-> dl_has (db s) r x)) /\
  (rc2 = VISAGE_OK ->
     (forall x, dl_has (db s) RRevmap x -> (now - col x 3) mod 2 ^ 32 < REVMAP_TTL_SEC ->
        dl_has (db s2) RRevmap x) /\
     (DlHealthy E -> forall x, dl_has (db s2) RRevmap x ->
        dl_has (db s) RRevmap x /\ (now - col x 3) mod 2 ^ 32 < REVMAP_TTL_SEC) /\
     (forall r x, r <> RRevmap -> dl_has (db s2) r x <-> dl_has (db s) r x)) /\
  (DlHealthy E -> rc1 = VISAGE_OK /\ rc2 = VISAGE_OK).
Proof.
  rewrite log_expire_eq, revmap_expire_eq.
  pose proof (rows_failed (db s) RLog []) as F1. pose proof (rows_failed (db s) RRevmap []) as F2.
  destruct (dl_rows (db s) RLog []) as [rows1 ok1] eqn:E1.
  destruct (dl_rows (db s) RRevmap []) as [rows2 ok2] eqn:E2. cbn [fst snd] in *.
  pose proof (sweep_spec (fun x => log_expired now (col x 1)) RLog s rows1 ok1 E1) as S1.
  pose proof (sweep_spec (fun x => revmap_expired now (col x 3)) RRevmap s rows2 ok2 E2) as S2.
  assert (Hlog : forall x, dl_has (db s) RLog x -> log_expired now (col x 1) = negb (now - col x 1 <? LOG_RETENTION_SEC)).
  { intros x Hx. apply Hwf in Hx. unfold well_typed in Hx. simpl in Hx.
    inversion_clear Hx as [|? ? ? ? _ Hx']. inversion_clear Hx' as [|? v ? l Hv Hx'']. unfold col. simpl in *.
    unfold log_expired, is_u32, u32, UINT32_MAX, LOG_RETENTION_SEC in *.
    destruct (Z.leb_spec 0 (now - v)); [rewrite Z.mod_small by lia|]; lia. }
  assert (Hrev : forall x, revmap_expired now (col x 3) = negb ((now - col x 3) mod 2 ^ 32 <? REVMAP_TTL_SEC)).
  { intros x. unfold revmap_expired, u32. lia. }
  destruct ok1, ok2; (split; [|split; [|intros Hh; split; try done; exfalso; first [by apply (F1 eq_refl) | by apply (F2 eq_refl)]]]); try done; intros _.
  all: try (destruct (S1 eq_refl) as (A1 & A2 & A3 & A4); split; [|split; [|done]];
    [intros x Hx Hlt; apply A2; [done|]; rewrite Hlog by done; lia
    |intros Hh x Hx; pose proof (A3 Hh x Hx) as Hf; apply A1 in Hx; rewrite Hlog in Hf by done; split; [done|lia]]).
  all: destruct (S2 eq_refl) as (A1 & A2 & A3 & A4); split; [|split; [|done]];
    [intros x Hx Hlt; apply A2; [done|]; rewrite Hrev; lia
    |intros Hh x Hx; pose proof (A3 Hh x Hx) as Hf; apply A1 in Hx; rewrite Hrev in Hf; split; [done|lia]].
Qed.

(** ** Message ids *)

Definition meta_fact d (v : Z) : Prop :=
  exists i, sym d i META_KEY_NEXT_MSGID /\ dl_has d RMeta [i; v].

Lemma fold_max vals : forall c,
  let m := foldl (fun cur v => if v >? cur then v else cur) c vals in
  c <= m /\ (forall v, v ∈ vals -> v <= m) /\ (m = c \/ m ∈ vals).
Proof.
  induction vals as [|x vals IH]; intros c; simpl.
  - split; [lia|]. split; [by intros v ?%elem_of_nil|by left].
  - destruct (IH (if x >? c then x else c)) as (I1 & I2 & I3).
    destruct (Z.gtb_spec x c).
    + split; [lia|]. split; [|right; rewrite elem_of_cons; destruct I3 as [->|]; auto].
      intros v [->|Hv]%elem_of_cons; [lia|auto].
    + split; [lia|]. split; [|destruct I3; [by left|right; by right]].
      intros v [->|Hv]%elem_of_cons; [lia|auto].
Qed.


Lemma meta_row_inv d x :
  store_wf d -> dl_has d RMeta x -> exists i v a, x = [i; v] /\ sym d i a /\ is_u32 v.
Proof.
  intros Hwf Hx. specialize (Hwf _ _ Hx). unfold well_typed in Hwf. simpl in Hwf.
  repeat match goal with H : Forall2 _ (_ :: _) _ |- _ => inversion_clear H end.
  match goal with H : Forall2 _ [] _ |- _ => inversion_clear H end. simpl in *.
  repeat match goal with H : is_Some _ |- _ => destruct H end. eexists _, _, _. done.
Qed.

Lemma meta_fact_ext d d' v : ext d d' -> store_wf d -> meta_fact d' v <-> meta_fact d v.
Proof.
  intros [F S] Hwf. split.
  - intros (i & Hi & H). apply F in H. exists i. split; [|done]. specialize (Hwf _ _ H).
    unfold well_typed in Hwf. simpl in Hwf. inversion_clear Hwf as [|? ? ? ? Hi' _]. destruct Hi' as [t Ht].
    pose proof (S _ _ Ht) as Ht'. unfold sym in *. congruence.
  - intros (i & Hi & H). exists i. unfold sym in *. rewrite F. auto.
Qed.

(** The values read for the counter are exactly its facts, at most
    [META_MAX_ROWS] of them by hypothesis. *)
Lemma meta_values d key :
  store_wf d -> sym d key META_KEY_NEXT_MSGID -> (dl_rows d RMeta [key]).2 = true ->
  (exists vs, (length vs <= META_MAX_ROWS)%nat /\ forall v, meta_fact d v -> v ∈ vs) ->
  forall v, v ∈ take META_MAX_ROWS (map (fun x => col x 1) (dl_rows d RMeta [key]).1) <-> meta_fact d v.
Proof.
  intros Hwf Hk Hok (vs & Hlen & Hvs) v.
  pose proof (rows_exact d RMeta [key] Hok) as Hex. pose proof (rows_nodup d RMeta [key]) as Hnd.
  destruct (dl_rows d RMeta [key]) as [rows ok]. cbn [fst snd] in *.
  assert (Hrow : forall x, x ∈ rows -> exists w, x = [key; w] /\ dl_has d RMeta [key; w]).
  { intros x Hx. apply Hex in Hx as [Hx Hp].
    destruct (meta_row_inv _ _ Hwf Hx) as (i & w & a & -> & _ & _). simpl in Hp. injection Hp as ->. eauto. }
  assert (Hval : forall w, w ∈ map (fun x => col x 1) rows <-> meta_fact d w).
  { intros w. rewrite list_elem_of_In, List.in_map_iff. split.
    - intros (x & <- & Hx%list_elem_of_In). destruct (Hrow x Hx) as (u & -> & Hh). by exists key.
    - intros (i & Hi & Hh). exists [key; w]. split; [done|]. apply list_elem_of_In, Hex.
      split; [|done]. by rewrite (str_of_inj d key i META_KEY_NEXT_MSGID). }
  assert (Hnm : NoDup (map (fun x => col x 1) rows)).
  { clear -Hnd Hrow. induction Hnd as [|x rows Hx Hn IH]; simpl; [constructor|].
    constructor; [|apply IH; intros y Hy; apply Hrow; by right].
    rewrite list_elem_of_In, List.in_map_iff. intros (y & Hy & Hin%list_elem_of_In).
    destruct (Hrow x ltac:(by left)) as (u & -> & _), (Hrow y ltac:(by right)) as (w & -> & _).
    unfold col in Hy. simpl in Hy. by subst. }
  rewrite take_ge; [apply Hval|]. transitivity (length vs); [|done].
  apply (submseteq_length). apply NoDup_submseteq; [done|]. intros w Hw. by apply Hvs, Hval.
Qed.

Lemma next_msgid_spec s (Hwf : store_wf (db s))
  (Hrows : exists vs, (length vs <= META_MAX_ROWS)%nat /\ forall v, meta_fact (db s) v -> v ∈ vs) :
  let '(s', m) := store_next_msgid s in
  let crash_states := (db (@store_next_msgid (traced E) (lift [] s)).1).2 in
  (m <> 0 ->
     is_u32 m /\ (forall v, meta_fact (db s) v -> v < m) /\
     meta_fact (db s') m /\ (forall v, meta_fact (db s') v -> v <= m) /\
     (forall d, d ∈ crash_states -> meta_fact d m)) /\
  (forall d v, d ∈ crash_states -> meta_fact (db s) v -> exists w, meta_fact d w /\ v <= w) /\
  (DlHealthy E -> (forall v, meta_fact (db s) v -> v < UINT32_MAX) -> m <> 0).
Proof.
  unfold store_next_msgid. rewrite intern_lift. step_intern. cbn [fst snd].
  pose proof (ext_wf _ _ Hext Hwf) as Hwf1.
  assert (Hm : forall v, meta_fact (db s0) v <-> meta_fact (db s) v) by (intros; by apply meta_fact_ext).
  destruct (Z.eqb_spec i 0) as [Hi|Hi].
  { split; [done|]. split; [by intros d v ?%elem_of_nil|naive_solver]. }
  specialize (Hstr Hi). cbn [lift db].
  change (@dl_prefix (traced E) (list Z) (db s0, []) RMeta [i] meta_read_cb [])
    with (dl_prefix (db s0) RMeta [i] meta_read_cb []).
  rewrite meta_read_prefix. pose proof (rows_failed (db s0) RMeta [i]) as Hfail.
  destruct (dl_rows (db s0) RMeta [i]).2 eqn:Hok; cbn [Z.ltb Z.compare].
  2:{ split; [done|]. split; [by intros d v ?%elem_of_nil|]. intros Hh. by destruct (Hfail eq_refl). }
  destruct (Z.ltb_spec (Z.of_nat (length (dl_rows (db s0) RMeta [i]).1)) 0); [lia|].
  assert (Hv : forall v, v ∈ take META_MAX_ROWS (map (fun x => col x 1) (dl_rows (db s0) RMeta [i]).1)
                 <-> meta_fact (db s) v).
  { intros v. rewrite <- Hm. apply meta_values; try done. setoid_rewrite Hm. done. }
  set (vals := take _ _) in *. pose proof (fold_max vals 0) as Hmax. cbv zeta in Hmax.
  set (cur := foldl _ 0 vals) in *. destruct Hmax as (Hge0 & Hcm & Hcin).
  assert (Hu : forall v, meta_fact (db s) v -> is_u32 v).
  { intros v Hf. apply Hm in Hf as (j & _ & Hf). apply Hwf1 in Hf. unfold well_typed in Hf. simpl in Hf.
    inversion_clear Hf as [|? ? ? ? _ Hf']. by inversion_clear Hf'. }
  assert (Hcu : is_u32 cur).
  { destruct Hcin as [->|Hcin]; [done|]. by apply Hu, Hv. }
  assert (Hnext : cur < UINT32_MAX -> u32 (cur + 1) = cur + 1).
  { intros. apply u32_small. unfold is_u32 in Hcu. lia. }
  destruct (Z.eqb_spec (u32 (cur + 1)) 0) as [Hz|Hz].
  { split; [done|]. split; [by intros d v ?%elem_of_nil|]. intros _ Hlt.
    assert (cur < UINT32_MAX) by (destruct Hcin as [->|Hcin]; [done|]; by apply Hlt, Hv).
    rewrite Hnext in Hz by done. unfold is_u32 in Hcu. lia. }
  assert (Hlt : cur < UINT32_MAX).
  { destruct (Z.eq_dec cur UINT32_MAX) as [Heq|]; [|unfold is_u32 in Hcu; lia]. by rewrite Heq in Hz. }
  rewrite Hnext in * by done. rewrite add_lift.
  destruct (add_fact_db s0 RMeta [i; cur + 1]) as (Hd & Hr & _).
  assert (Hah : DlHealthy E -> 0 <= (dl_add_fact (db s0) RMeta [i; cur + 1]).2) by (intros; apply add_healthy).
  rewrite <- Hr in Hah.
  pose proof (add_ok (db s0) RMeta [i; cur + 1]) as Hao. rewrite <- Hr in Hao.
  destruct (add_fact s0 RMeta [i; cur + 1]) as [s1 rc]. cbn [fst snd] in *.
  assert (Hkeep : forall v, meta_fact (db s) v -> meta_fact (db s1) v).
  { intros v (j & Hj & Hf)%Hm. exists j. rewrite Hd. unfold sym. rewrite add_str_of.
    split; [done|]. by apply add_has_keep. }
  destruct (Z.ltb_spec rc 0) as [Hrc|Hrc].
  { split; [done|]. split; [|intros Hh; specialize (Hah Hh); lia].
    intros d v Hdv Hf. apply list_elem_of_singleton in Hdv as ->. exists v. split; [by apply Hkeep|lia]. }
  cbn [fst]. rewrite delete_rows_lift. cbn [lift db snd].
  set (rows := map _ vals).
  assert (Hsurv : forall rows', rows' ⊆ rows -> meta_fact (db (delete_rows s1 RMeta rows')) (cur + 1)).
  { intros rows' Hsub. rewrite delete_rows_if.
    destruct (delete_if_spec (fun _ => true) RMeta s1 rows') as (_ & I2 & I3 & _).
    exists i. split; [unfold sym; rewrite I3, Hd, add_str_of; done|]. apply I2; [rewrite Hd; apply Hao; lia|].
    intros _. left. intros Hin%Hsub. unfold rows in Hin.
    apply list_elem_of_In, List.in_map_iff in Hin as (w & [= Hw] & Hin%list_elem_of_In).
    specialize (Hcm w Hin). lia. }
  assert (Htr : forall d, d ∈ del_trace RMeta s1 rows ++ [db s1] -> meta_fact d (cur + 1)).
  { intros d [(rows' & Hs & ->)%del_trace_inv| ->%list_elem_of_singleton]%elem_of_app; [by apply Hsurv|].
    apply (Hsurv []). intros x Hx. by apply elem_of_nil in Hx. }
  split; [|split; [|intros _ _; unfold is_u32 in Hcu; lia]].
  - intros _. split; [unfold is_u32 in *; lia|]. split; [|split; [by apply Hsurv|split; [|done]]].
    + intros v Hf. apply Hv, Hcm in Hf. lia.
    + intros v (j & Hj & Hf). rewrite delete_rows_if in *.
      destruct (delete_if_spec (fun _ => true) RMeta s1 rows) as (I1 & _ & I3 & _).
      apply I1 in Hf. unfold sym in Hj. rewrite I3, Hd, add_str_of in Hj. rewrite Hd in Hf.
      apply add_has_inv in Hf as [Hf|[_ [= -> ->]]]; [|lia].
      assert (Hv' : v ∈ vals) by (apply Hv, Hm; by exists j). apply Hcm in Hv'. lia.
  - intros d v Hdv Hf. exists (cur + 1). split; [by apply Htr|]. apply Hv, Hcm in Hf. lia.
Qed.

(** Message ids are never reused, crashes included. When [store_next_msgid]
    returns [m <> 0], [m] is above every value stored for the counter, it is the
    largest stored afterwards, and it is already stored in every database a crash
    can leave once it has been written. Whatever the call returns, a crash inside
    it never lowers the counter. On a healthy engine it returns 0 only when the
    32-bit counter is exhausted. At most [META_MAX_ROWS] rows may be stored for
    the counter, which is what the read loop collects. *)
Theorem next_msgid_unique s (Hwf : store_wf (db s))
  (Hrows : exists vs, (length vs <= META_MAX_ROWS)%nat /\ forall v, meta_fact (db s) v -> v ∈ vs) :
  let '(s', m) := store_next_msgid s in
  let crash_states := (db (@store_next_msgid (traced E) (lift [] s)).1).2 in
  (m <> 0 ->
     is_u32 m /\ (forall v, meta_fact (db s) v -> v < m) /\
     meta_fact (db s') m /\ (forall v, meta_fact (db s') v -> v <= m) /\
     (forall d, d ∈ crash_states -> meta_fact d m)) /\
  (forall d v, d ∈ crash_states -> meta_fact (db s) v -> exists w, meta_fact d w /\ v <= w) /\
  (DlHealthy E -> (forall v, meta_fact (db s) v -> v < UINT32_MAX) -> m <> 0).
Proof. by apply next_msgid_spec. Qed.

(** ** The log listing *)

Lemma log_skip_walk rows n c :
  (length (lc_rows c) + length rows <= lc_skip c + lc_cap c)%nat -> (length (lc_rows c) <= lc_cap c)%nat ->
  walk log_skip_cb rows n c =
  (n + Z.of_nat (length rows),
   {| lc_skip := lc_skip c - length rows; lc_rows := lc_rows c ++ drop (lc_skip c) rows;
      lc_cap := lc_cap c; lc_err := lc_err c |}).
Proof.
  revert n c. induction rows as [|x rows IH]; intros n c Hc Hl; cbn [walk].
  - rewrite drop_nil, app_nil_r, Nat.sub_0_r, Z.add_0_r. by destruct c.
  - unfold log_skip_cb at 1. simpl in Hc. destruct (lc_skip c) as [|k] eqn:Ek.
    + destruct (Nat.leb_spec (lc_cap c) (length (lc_rows c))); [lia|].
      cbn beta iota zeta. rewrite IH; cbn [lc_rows lc_cap lc_skip lc_err]; rewrite ?length_app; simpl; try lia.
      f_equal; [lia|]. by rewrite <- app_assoc.
    + cbn beta iota zeta. rewrite IH; cbn [lc_rows lc_cap lc_skip lc_err]; simpl; try lia.
      f_equal. lia.
Qed.

Lemma sorted_drop (R : row -> row -> Prop) k l : StronglySorted R l -> StronglySorted R (drop k l).
Proof.
  revert k. induction l as [|x l IH]; intros [|k] H; simpl; try done. inversion_clear H. by apply IH.
Qed.

Lemma log_row_cons d x : store_wf d -> dl_has d RLog x -> exists a x', x = a :: x'.
Proof.
  intros Hwf Hx. apply Hwf in Hx. unfold well_typed in Hx. simpl in Hx. inversion_clear Hx. eauto.
Qed.

(** The log listing. When the engine walk succeeds [store_log_recent]
    returns exactly the last [max] log rows in the engine's order (all of them
    when there are fewer), which is increasing by message id, newest last; on an
    engine error it returns VISAGE_ESTORE and nothing. *)
Theorem log_recent_correct s (max : nat) (Hwf : store_wf (db s)) :
  store_log_recent s max =
    (if (dl_rows (db s) RLog []).2
     then (VISAGE_OK, map (log_entry (db s))
             (drop (length (dl_rows (db s) RLog []).1 - max) (dl_rows (db s) RLog []).1))
     else (VISAGE_ESTORE, [])) /\
  StronglySorted (fun a b => le_msgid a <= le_msgid b) (store_log_recent s max).2.
Proof.
  pose proof (rows_sorted (db s) RLog []) as Hs. unfold store_log_recent, store_log_count.
  pose proof (rows_exact (db s) RLog []) as Hex.
  rewrite count_prefix, dl_prefix_eq. destruct (dl_rows (db s) RLog []) as [rows ok]. cbn [fst snd] in *.
  destruct ok; [|split; [done|constructor]]. specialize (Hex eq_refl).
  assert (Hcons : Forall (fun x => exists a x', x = a :: x') rows).
  { apply Forall_forall. intros x Hx. by apply Hex in Hx as [Hx%(log_row_cons _ _ Hwf) _]. }
  destruct (Z.ltb_spec (Z.of_nat (length rows)) 0); [lia|]. rewrite Nat2Z.id.
  set (want := if (length rows <=? max)%nat then _ else _).
  assert (Hw : want = Nat.min (length rows) max) by (unfold want; destruct (Nat.leb_spec (length rows) max); lia).
  assert (Hmap : StronglySorted (fun a b => le_msgid a <= le_msgid b)
                   (map (log_entry (db s)) (drop (length rows - max) rows))).
  { apply (sorted_drop _ (length rows - max)) in Hs.
    apply (Forall_drop _ (length rows - max)) in Hcons. clear -Hs Hcons.
    induction Hs as [|x l Hl IH Hf]; simpl; [constructor|]. apply Forall_cons in Hcons as [(a & x' & ->) Hc].
    constructor; [by apply IH|]. apply Forall_map, Forall_forall. intros y Hy.
    rewrite Forall_forall in Hf, Hc. specialize (Hf y Hy). destruct (Hc y Hy) as (b & y' & ->).
    unfold log_entry, col, row_le in *. simpl in *. lia. }
  cbv zeta. destruct (Nat.eqb_spec want 0) as [H0|H0].
  - assert (Hd : drop (length rows - max) rows = []) by (apply drop_ge; lia).
    rewrite Hd in *. done.
  - rewrite log_skip_walk by (simpl; lia). cbn [fst snd lc_err lc_rows lc_skip lc_cap app].
    replace (length rows - want)%nat with (length rows - max)%nat by lia. rewrite length_drop.
    destruct (Z.ltb_spec (0 + Z.of_nat (length rows)) 0); [lia|].
    destruct (Nat.eqb_spec (length rows - (length rows - max)) want); [|lia]. done.
Qed.

End Tables.

(** ** Witnesses *)

Definition mem0 : @Store MemEngine := @store_open MemEngine mem_empty.

Lemma mem0_wf : store_wf (db mem0).
Proof. intros r x Hx. by apply elem_of_nil in Hx. Qed.

(** A store with one alias, one log row and one reply token. *)
Definition mem1 : @Store MemEngine :=
  let s := run_op mem0 (OAliasAdd (bs "me@x.org") (bs "you@y")) in
  let s := run_op s (OLogAdd 1 1000 0 (bs "me@x.org") (bs "you@y") (bs "ok")) in
  run_op s (ORevmapAdd (bs "tok") (bs "s@z") (bs "me@x.org") 1000).

Lemma mem1_wf : store_wf (db mem1).
Proof.
  do 3 (apply run_op_wf; [|repeat split; unfold is_u32, UINT32_MAX; lia]). apply mem0_wf.
Qed.

Lemma alias_add_rm_refines_witness :
  alias_fact (db (store_alias_add mem0 (bs "Me@X.org") (bs "you@y")).1) (bs "x.org") (bs "me") (bs "you@y").
Proof.
  apply (proj1 (proj1 (alias_add_rm_refines mem0 (bs "Me@X.org") (bs "you@y") mem0_wf)) eq_refl).
  by right.
Defined.

Lemma store_resolve_correct_witness : bs "you@y" ∈ (store_resolve mem1 (bs "ME@X.ORG")).2.
Proof.
  pose proof (store_resolve_correct mem1 (bs "ME@X.ORG") mem1_wf) as H.
  assert (Hrc : (store_resolve mem1 (bs "ME@X.ORG")).1.2 = VISAGE_OK) by reflexivity.
  destruct (store_resolve mem1 (bs "ME@X.ORG")) as [[s' rc] ds]. simpl in Hrc. subst rc.
  apply (proj1 (proj1 H) eq_refl). exists 1, 2, 3. repeat split. vm_compute. constructor.
Defined.

Lemma revmap_add_resolve_witness :
  exists s1 s2, store_revmap_add_at mem1 (bs "t2") (bs "s@z") (bs "me@x.org") 5000 = (s1, VISAGE_OK) /\
    store_revmap_resolve s1 6000 (bs "t2") = (s2, VISAGE_OK, Some (bs "s@z", bs "me@x.org")).
Proof.
  destruct (revmap_add_resolve mem1 (bs "t2") (bs "s@z") (bs "me@x.org") 5000 6000 mem1_wf)
    as (s1 & s2 & H1 & H2 & _); [unfold is_u32, UINT32_MAX; lia | done | | by exists s1, s2].
  intros sn al ts (i & j & k & Hi & _ & _ & Hh).
  vm_compute in Hh. apply elem_of_cons in Hh as [[= -> -> -> ->]|Hh]; [done|by apply elem_of_nil in Hh].
Defined.

Lemma sweeps_correct_witness :
  let '(s1, rc1) := store_log_expire mem1 2593000 in rc1 = VISAGE_OK /\ forall x, ~ dl_has (db s1) RLog x.
Proof.
  pose proof (sweeps_correct mem1 2593000 ltac:(unfold is_u32, UINT32_MAX; lia) mem1_wf) as H.
  destruct (store_log_expire mem1 2593000) as [s1 rc1], (store_revmap_expire mem1 2593000) as [s2 rc2].
  destruct H as (H1 & _ & H3). destruct (H3 _) as [-> _]. split; [done|]. intros x Hx.
  destruct (H1 eq_refl) as (_ & H2 & _). apply (H2 _) in Hx as [Hx Ht].
  vm_compute in Hx. apply elem_of_cons in Hx as [->|Hx]; [|by apply elem_of_nil in Hx].
  by vm_compute in Ht.
Defined.

Lemma next_msgid_unique_witness :
  (store_next_msgid mem1).2 = 1 /\ is_u32 1.
Proof.
  pose proof (next_msgid_unique mem1 mem1_wf) as H.
  assert (Hr : (store_next_msgid mem1).2 = 1) by reflexivity. split; [done|].
  destruct (store_next_msgid mem1) as [s' m]. simpl in Hr. subst m.
  apply H; [|done]. exists []. split; [simpl; lia|]. intros v (i & _ & Hv). by apply elem_of_nil in Hv.
Defined.

Lemma log_recent_correct_witness : map le_msgid (store_log_recent mem1 5).2 = [1].
Proof. by rewrite (proj1 (log_recent_correct mem1 5 mem1_wf)). Defined.

(** A reply token whose creation time is one second ahead of the clock (the
    clock was stepped back) is past its window at once: the u32 difference
    wraps. *)
Lemma revmap_future_row_expires :
  let s := run_op mem0 (ORevmapAdd (bs "tok") (bs "s@z") (bs "me@x.org") 1001) in
  (store_revmap_resolve s 1000 (bs "tok")).2 = None /\
  mem_rows (db (store_revmap_expire s 1000).1) RRevmap = [].
Proof. split; reflexivity. Qed.
