(* ===== verification/StoreQueue.v ===== *)
(** * The delivery queue of the store

    What [store_queue_set_status] leaves in the queue, on success and at a crash
    between two durable writes; the cached soonest due time; the due walk; and
    the recovery of deliveries a crash left in progress. *)

From Stdlib Require Import Sorting.Sorted.
From S2P Require Import Prelude DlEngine Store StoreSpec.

Section Queue.
Context {E : DlEngine} {L : DlLaws E}.
Implicit Types (d : dl_db) (s : Store).

(** The rows of delivery (msgid, k). *)
Definition qrow d (m k : Z) (x : row) : Prop := dl_has d RQueue x /\ take 2 x = [m; k].

(** At most [QUEUE_SET_MAX_ROWS] rows, what the read callback collects. *)
Definition few_rows d (m k : Z) : Prop :=
  exists l : list row, (length l <= QUEUE_SET_MAX_ROWS)%nat /\ forall x, qrow d m k x -> x ∈ l.

Lemma qrow_ext d d' m k x : ext d d' -> qrow d' m k x <-> qrow d m k x.
Proof. intros [F _]. unfold qrow. by rewrite F. Qed.

(** The rows [store_queue_set_status] and [store_queue_delete] read. *)
Definition read_rows d (m k : Z) : list row := take QUEUE_SET_MAX_ROWS (dl_rows d RQueue [m; k]).1.

Lemma read_rows_sound d m k x :
  (dl_rows d RQueue [m; k]).2 = true -> x ∈ read_rows d m k -> qrow d m k x.
Proof.
  intros Hok Hx. apply (rows_exact d RQueue [m; k] Hok). by apply (subseteq_take QUEUE_SET_MAX_ROWS).
Qed.

Lemma read_rows_complete d m k :
  (dl_rows d RQueue [m; k]).2 = true -> few_rows d m k ->
  forall x, x ∈ read_rows d m k <-> qrow d m k x.
Proof.
  intros Hok (l & Hlen & Hl) x. unfold read_rows. rewrite take_ge.
  - apply (rows_exact d RQueue [m; k] Hok).
  - transitivity (length l); [|done]. apply submseteq_length, NoDup_submseteq; [apply rows_nodup|].
    intros y Hy. by apply Hl, (rows_exact d RQueue [m; k] Hok).
Qed.

Lemma read_rows_nonempty d m k x :
  (dl_rows d RQueue [m; k]).2 = true -> qrow d m k x -> read_rows d m k <> [].
Proof.
  intros Hok Hx. apply (rows_exact d RQueue [m; k] Hok) in Hx. unfold read_rows.
  by destruct (dl_rows d RQueue [m; k]).1; [apply elem_of_nil in Hx|].
Qed.

Lemma read_rows_nodup d m k : NoDup (read_rows d m k).
Proof. eapply sublist_NoDup; [apply rows_nodup|apply sublist_take]. Qed.

Lemma find_row_spec next rows :
  match find_row next rows with
  | Some i => rows !! i = Some next
  | None => next ∉ rows
  end.
Proof.
  induction rows as [|x rows IH]; [apply not_elem_of_nil|]. cbn [find_row].
  destruct (row_eqb next x) eqn:Ex; [by apply row_eqb_true in Ex as ->|].
  destruct (find_row next rows); simpl; [done|]. apply not_elem_of_cons. split; [|done].
  intros ->. by rewrite (proj2 (row_eqb_true x x)) in Ex.
Qed.

Lemma remove_nth_spec i rows next :
  NoDup rows -> rows !! i = Some next ->
  forall x, x ∈ remove_nth i rows <-> x ∈ rows /\ x <> next.
Proof.
  revert i. induction rows as [|y rows IH]; intros [|i] Hn Hi x; try done.
  - injection Hi as ->. apply NoDup_cons in Hn as [Hy Hn]. simpl. rewrite elem_of_cons. naive_solver.
  - apply NoDup_cons in Hn as [Hy Hn]. simpl in *. rewrite !elem_of_cons, (IH i Hn Hi).
    apply list_elem_of_lookup_2 in Hi. naive_solver.
Qed.

(** The part of [store_queue_set_status] after interning, on one list of rows. *)
Lemma set_status_eq s m k st a nt :
  is_nil st = false ->
  exists s1 i, intern (MkStore (db s) (next_due s) true) st = (s1, i) /\
    ext (db s) (db s1) /\ (i <> 0 -> dl_intern_str_of (db s1) i = Some st) /\ (DlHealthy E -> i <> 0) /\
    next_due_dirty s1 = true /\
    store_queue_set_status s m k st a nt =
    if i =? 0 then (s1, VISAGE_ENOMEM)
    else if (dl_rows (db s1) RQueue [m; k]).2 then
      match read_rows (db s1) m k with
      | [] => (s1, VISAGE_ESTORE)
      | x0 :: _ =>
          let next := [m; k; col x0 2; col x0 3; a; nt; i] in
          match find_row next (read_rows (db s1) m k) with
          | Some j => (delete_rows s1 RQueue (remove_nth j (read_rows (db s1) m k)), VISAGE_OK)
          | None =>
              let '(s2, rc) := add_fact s1 RQueue next in
              if rc <? 0 then (s2, VISAGE_ESTORE)
              else (delete_rows s2 RQueue (read_rows (db s1) m k), VISAGE_OK)
          end
      end
    else (s1, VISAGE_ESTORE).
Proof.
  intros Hst. destruct (intern_run (MkStore (db s) (next_due s) true) st)
    as (s1 & i & Hi & He & Hs & Hz & _ & Hd). exists s1, i.
  split; [done|]. split; [done|]. split; [done|]. split; [done|]. split; [done|].
  unfold store_queue_set_status. rewrite Hst, Hi. destruct (i =? 0); [done|].
  rewrite queue_read_prefix. unfold read_rows.
  destruct (dl_rows (db s1) RQueue [m; k]) as [rows ok]. cbn [fst snd].
  destruct ok; [|done]. destruct (Z.ltb_spec (Z.of_nat (length rows)) 0); [lia|].
  by destruct (take QUEUE_SET_MAX_ROWS rows).
Qed.

(** The write sequence of a transition, from the rows it read to the target
    row. *)
Definition settle s (rows : list row) (next : row) : Store :=
  match find_row next rows with
  | Some j => delete_rows s RQueue (remove_nth j rows)
  | None => delete_rows (add_fact s RQueue next).1 RQueue rows
  end.

Lemma settle_str_of s rows next i :
  dl_intern_str_of (db (settle s rows next)) i = dl_intern_str_of (db s) i.
Proof.
  unfold settle. destruct (find_row next rows); rewrite delete_rows_if.
  - apply delete_if_spec.
  - destruct (delete_if_spec (fun _ => true) RQueue (add_fact s RQueue next).1 rows) as (_ & _ & -> & _).
    destruct (add_fact_db s RQueue next) as (-> & _). apply add_str_of.
Qed.

Lemma settle_spec {Hh : DlHealthy E} s rows next (P : row -> Prop) :
  NoDup rows -> (forall x, x ∈ rows <-> (dl_has (db s) RQueue x /\ P x)) -> P next ->
  (forall x, dl_has (db (settle s rows next)) RQueue x /\ P x <-> x = next) /\
  (forall r x, (r = RQueue -> ~ P x) -> dl_has (db (settle s rows next)) r x <-> dl_has (db s) r x).
Proof.
  intros Hnd Hrows Hp. unfold settle. pose proof (find_row_spec next rows) as Hf.
  destruct (find_row next rows) as [j|].
  - rewrite delete_rows_if. set (dr := remove_nth j rows).
    pose proof (remove_nth_spec j rows next Hnd Hf) as Hdr. fold dr in Hdr.
    destruct (delete_if_spec (fun _ => true) RQueue s dr) as (I1 & I2 & _).
    apply list_elem_of_lookup_2 in Hf. split.
    + intros x. split.
      * intros [Hx Px]. destruct (decide (x = next)) as [|Hne]; [done|]. exfalso.
        apply (delete_if_gone (fun _ => true) RQueue s dr x); [|done|done].
        apply Hdr. split; [|done]. apply Hrows. split; [by apply I1|done].
      * intros ->. split; [|done]. apply I2; [by apply Hrows|]. intros _. left. rewrite Hdr. naive_solver.
    + intros r x Hx. split; [apply I1|]. intros Hh'. apply I2; [done|]. intros Hr. left.
      rewrite Hdr, Hrows. naive_solver.
  - rewrite delete_rows_if. destruct (add_fact_db s RQueue next) as (Hd & _).
    destruct (delete_if_spec (fun _ => true) RQueue (add_fact s RQueue next).1 rows) as (I1 & I2 & _).
    split.
    + intros x. split.
      * intros [Hx Px]. destruct (decide (x = next)) as [|Hne]; [done|]. exfalso.
        apply (delete_if_gone (fun _ => true) RQueue (add_fact s RQueue next).1 rows x); [|done|done].
        apply Hrows. split; [|done]. apply I1 in Hx. rewrite Hd in Hx.
        apply add_has_inv in Hx as [|[_ ?]]; [done|]. congruence.
      * intros ->. split; [|done]. apply I2; [rewrite Hd; by apply add_ok, add_healthy|]. by left.
    + intros r x Hx. split.
      * intros Hh'. apply I1 in Hh'. rewrite Hd in Hh'. apply add_has_inv in Hh' as [|[-> ->]]; [done|].
        by destruct (Hx eq_refl).
      * intros Hh'. apply I2; [rewrite Hd; by apply add_has_keep|]. intros Hr. left. rewrite Hrows. naive_solver.
Qed.

Lemma set_status_spec {Hh : DlHealthy E} s (m k a nt : Z) (st : bytes)
  (Hne : is_nil st = false) (Hfew : few_rows (db s) m k) :
  let '(s', rc) := store_queue_set_status s m k st a nt in
  (forall i t, dl_intern_str_of (db s) i = Some t -> dl_intern_str_of (db s') i = Some t) /\
  ((forall x, ~ qrow (db s) m k x) ->
     rc = VISAGE_ESTORE /\ forall r x, dl_has (db s') r x <-> dl_has (db s) r x) /\
  ((exists x, qrow (db s) m k x) ->
     rc = VISAGE_OK /\
     (exists x0 i, qrow (db s) m k x0 /\ dl_intern_str_of (db s') i = Some st /\
        forall x, qrow (db s') m k x <-> x = [m; k; col x0 2; col x0 3; a; nt; i]) /\
     (forall r x, (r = RQueue -> take 2 x <> [m; k]) -> dl_has (db s') r x <-> dl_has (db s) r x)).
Proof.
  destruct (set_status_eq s m k st a nt Hne) as (s1 & i & _ & He & Hs & Hz & _ & ->).
  specialize (Hz Hh). specialize (Hs Hz). destruct (Z.eqb_spec i 0); [done|]. rewrite rows_healthy.
  assert (Hfew1 : few_rows (db s1) m k).
  { destruct Hfew as (l & Hl & Hin). exists l. split; [done|]. intros x Hx. apply Hin. by apply (qrow_ext _ _ _ _ _ He). }
  pose proof (read_rows_complete (db s1) m k (rows_healthy _ _ _) Hfew1) as Hread.
  pose proof (read_rows_nodup (db s1) m k) as Hnd.
  assert (Hq : forall x, x ∈ read_rows (db s1) m k <-> qrow (db s) m k x) by (intros; by rewrite Hread, (qrow_ext _ _ _ _ _ He)).
  destruct (read_rows (db s1) m k) as [|x0 rows] eqn:Erows.
  { split; [apply He|]. split; [|intros (x & Hx); apply Hq in Hx; by apply elem_of_nil in Hx].
    intros _. split; [done|]. apply He. }
  cbv zeta. set (next := [m; k; _; _; a; nt; i]).
  assert (Hx0 : qrow (db s) m k x0) by (apply Hq; by left).
  destruct (settle_spec s1 (x0 :: rows) next (fun x => take 2 x = [m; k]) Hnd Hread eq_refl) as [S1 S2].
  pose proof (settle_str_of s1 (x0 :: rows) next) as S3. unfold settle in S1, S2, S3.
  assert (Hfin : forall s', (forall x, dl_has (db s') RQueue x /\ take 2 x = [m; k] <-> x = next) ->
     (forall r x, (r = RQueue -> take 2 x <> [m; k]) -> dl_has (db s') r x <-> dl_has (db s1) r x) ->
     (forall j, dl_intern_str_of (db s') j = dl_intern_str_of (db s1) j) ->
     (forall j t, dl_intern_str_of (db s) j = Some t -> dl_intern_str_of (db s') j = Some t) /\
     ((forall x, ~ qrow (db s) m k x) -> VISAGE_OK = VISAGE_ESTORE /\ forall r x, dl_has (db s') r x <-> dl_has (db s) r x) /\
     ((exists x, qrow (db s) m k x) -> VISAGE_OK = VISAGE_OK /\
       (exists x0 i, qrow (db s) m k x0 /\ dl_intern_str_of (db s') i = Some st /\
          forall x, qrow (db s') m k x <-> x = [m; k; col x0 2; col x0 3; a; nt; i]) /\
       (forall r x, (r = RQueue -> take 2 x <> [m; k]) -> dl_has (db s') r x <-> dl_has (db s) r x))).
  { intros s' T1 T2 T3. split; [intros j t Hj; rewrite T3; by apply He|]. split; [intros H0; by destruct (H0 x0)|]. intros _. split; [done|]. split.
    - exists x0, i. rewrite T3. done.
    - intros r x Hr. rewrite T2 by done. apply He. }
  destruct (find_row next (x0 :: rows)); [by apply Hfin|].
  pose proof (add_healthy (db s1) RQueue next) as Hok. destruct (add_fact_db s1 RQueue next) as (_ & Hr & _).
  destruct (add_fact s1 RQueue next) as [s2 rc]. cbn [fst snd] in *. rewrite <- Hr in Hok.
  destruct (Z.ltb_spec rc 0); [lia|]. by apply Hfin.
Qed.

(** A status transition. On a healthy engine, with at most
    [QUEUE_SET_MAX_ROWS] rows for the delivery: an empty status is VISAGE_EPARAM;
    an unknown delivery is VISAGE_ESTORE and no fact changes; otherwise the call
    returns VISAGE_OK and leaves exactly one row for the delivery, with the new
    status, attempts and due time and with the envelope of one of its old rows,
    even when a crash had left duplicates. No other delivery and no other
    relation changes. *)
Theorem queue_set_status_correct {Hh : DlHealthy E} s (m k a nt : Z) (st : bytes)
  (Hne : is_nil st = false) (Hfew : few_rows (db s) m k) :
  let '(s', rc) := store_queue_set_status s m k st a nt in
  ((forall x, ~ qrow (db s) m k x) ->
     rc = VISAGE_ESTORE /\ forall r x, dl_has (db s') r x <-> dl_has (db s) r x) /\
  ((exists x, qrow (db s) m k x) ->
     rc = VISAGE_OK /\
     (exists x0 i, qrow (db s) m k x0 /\ dl_intern_str_of (db s') i = Some st /\
        forall x, qrow (db s') m k x <-> x = [m; k; col x0 2; col x0 3; a; nt; i]) /\
     (forall r x, (r = RQueue -> take 2 x <> [m; k]) -> dl_has (db s') r x <-> dl_has (db s) r x)).
Proof.
  pose proof (set_status_spec s m k a nt st Hne Hfew) as H.
  destruct (store_queue_set_status s m k st a nt) as [s' rc]. apply H.
Qed.

(** The databases a crash can leave inside a transition. *)
Definition set_status_crashes s (m k : Z) (st : bytes) (a nt : Z) : list dl_db :=
  (db (@store_queue_set_status (traced E) (lift [] s) m k st a nt).1).2.

Lemma set_status_crashes_inv s m k st a nt d :
  d ∈ set_status_crashes s m k st a nt ->
  exists s1 i x0, ext (db s) (db s1) /\ dl_intern_str_of (db s1) i = Some st /\
    (dl_rows (db s1) RQueue [m; k]).2 = true /\ head (read_rows (db s1) m k) = Some x0 /\
    let next := [m; k; col x0 2; col x0 3; a; nt; i] in
    (next ∈ read_rows (db s1) m k /\ (exists rows', next ∉ rows' /\ d = db (delete_rows s1 RQueue rows')))
    \/ d = db (add_fact s1 RQueue next).1
    \/ (0 <= (add_fact s1 RQueue next).2 /\
        exists rows', next ∉ rows' /\ d = db (delete_rows (add_fact s1 RQueue next).1 RQueue rows')).
Proof.
  unfold set_status_crashes, store_queue_set_status. destruct (is_nil st); [by intros ?%elem_of_nil|].
  set (s0 := MkStore (db s) (next_due s) true).
  change (@MkStore (traced E) (db (lift [] s)) (next_due (lift [] s)) true) with (lift [] s0).
  rewrite intern_lift. destruct (intern_run s0 st) as (s1 & i & -> & He & Hs & _). cbn [fst snd].
  destruct (Z.eqb_spec i 0); [by intros ?%elem_of_nil|]. cbn [lift db].
  change (@dl_prefix (traced E) (list row) (db s1, []) RQueue [m; k] queue_read_cb [])
    with (dl_prefix (db s1) RQueue [m; k] queue_read_cb []).
  rewrite queue_read_prefix. fold (read_rows (db s1) m k).
  destruct (dl_rows (db s1) RQueue [m; k]).2 eqn:Hok; cbn [Z.ltb Z.compare]; [|by intros ?%elem_of_nil].
  destruct (Z.ltb_spec (Z.of_nat (length (dl_rows (db s1) RQueue [m; k]).1)) 0); [lia|].
  pose proof (read_rows_nodup (db s1) m k) as Hnd.
  destruct (read_rows (db s1) m k) as [|x0 rows] eqn:Er; [by intros ?%elem_of_nil|].
  intros Hd. exists s1, i, x0. rewrite Er. split; [done|]. split; [auto|]. split; [done|]. split; [done|].
  revert Hd. cbv zeta. set (next := [m; k; _; _; a; nt; i]).
  pose proof (find_row_spec next (x0 :: rows)) as Hf. destruct (find_row next (x0 :: rows)) as [j|].
  - rewrite delete_rows_lift. cbn [lift db fst snd]. rewrite app_nil_r.
    intros (rows' & Hsub & ->)%del_trace_inv. left. split; [by apply list_elem_of_lookup_2 in Hf|].
    exists rows'. split; [|done]. intros Hin%Hsub. by apply (remove_nth_spec j _ next Hnd Hf) in Hin as [_ []].
  - rewrite add_lift. destruct (add_fact s1 RQueue next) as [s2 rc]. cbn [fst snd].
    destruct (Z.ltb_spec rc 0) as [Hrc|Hrc].
    + intros ->%list_elem_of_singleton. by right; left.
    + cbn [fst]. rewrite delete_rows_lift. cbn [lift db snd].
      intros [(rows' & Hsub & ->)%del_trace_inv| ->%list_elem_of_singleton]%elem_of_app; [|by right; left].
      right; right. split; [done|]. exists rows'. split; [|done]. by intros Hin%Hsub.
Qed.

(** C12: No crash loses a delivery. Each engine write is durable on its own, so a
    crash can leave the database after any prefix of the writes of
    [store_queue_set_status]. Whatever the engine calls return, each of those
    databases still has a row for the delivery, with the envelope of one of its
    old rows, and the row is an old one or carries the new status. *)
Theorem queue_set_status_crash_safe s (m k a nt : Z) (st : bytes) (x : row)
  (Hx : qrow (db s) m k x) :
  forall d, d ∈ set_status_crashes s m k st a nt ->
  exists y x0, qrow d m k y /\ qrow (db s) m k x0 /\
    col y 2 = col x0 2 /\ col y 3 = col x0 3 /\
    (y = x0 \/ (dl_intern_str_of d (col y 6) = Some st /\ col y 4 = a /\ col y 5 = nt)).
Proof.
  intros d Hd. apply set_status_crashes_inv in Hd as (s1 & i & x0 & He & Hs & Hok & Hhd & Hd).
  set (next := [m; k; col x0 2; col x0 3; a; nt; i]) in Hd. cbv zeta in Hd.
  assert (Hx0 : qrow (db s) m k x0).
  { apply (qrow_ext _ _ _ _ _ He), read_rows_sound; [done|]. apply head_Some_elem_of in Hhd. done. }
  destruct (add_fact_db s1 RQueue next) as (Hda & Hra & _).
  assert (Hsurv : forall s2 rows', dl_has (db s2) RQueue next -> next ∉ rows' ->
            dl_has (db (delete_rows s2 RQueue rows')) RQueue next).
  { intros s2 rows' H2 Hn. rewrite delete_rows_if.
    destruct (delete_if_spec (fun _ => true) RQueue s2 rows') as (_ & I2 & _). apply I2; [done|]. by left. }
  destruct Hd as [(Hin & rows' & Hn & ->)|[->|(Hrc & rows' & Hn & ->)]].
  - apply read_rows_sound in Hin as Hq; [|done]. exists next, next.
    split; [split; [by apply Hsurv; [apply Hq|]|done]|].
    split; [by apply (qrow_ext _ _ _ _ _ He)|]. auto.
  - exists x0, x0. split; [|by auto]. split; [|apply Hx0]. rewrite Hda. apply add_has_keep, He, Hx0.
  - exists next, x0. split; [split; [|done]|].
    + apply Hsurv; [|done]. rewrite Hda. apply add_ok. by rewrite <- Hra.
    + split; [done|]. split; [done|]. split; [done|]. right. split; [|done].
      rewrite delete_rows_if. destruct (delete_if_spec (fun _ => true) RQueue (add_fact s1 RQueue next).1 rows') as (_ & _ & -> & _).
      rewrite Hda, add_str_of. done.
Qed.

(** ** The cached soonest due time *)

(** Row [x] is a delivery with status [st]. *)
Definition has_status d (st : bytes) (x : row) : Prop :=
  dl_has d RQueue x /\ dl_intern_str_of d (col x 6) = Some st.

(** [m] is the soonest [next_ts] of the queued deliveries, UINT32_MAX when there
    is none (or none is earlier). *)
Definition soonest d (m : Z) : Prop :=
  (forall x, has_status d QUEUE_STATUS_QUEUED x -> m <= col x 5) /\
  m <= UINT32_MAX /\
  (m = UINT32_MAX \/ exists x, has_status d QUEUE_STATUS_QUEUED x /\ col x 5 = m).

Definition cache_ok s : Prop := next_due_dirty s = false -> soonest (db s) (next_due s).

Lemma has_status_ext d d' st x :
  ext d d' -> store_wf d -> has_status d' st x <-> has_status d st x.
Proof.
  intros [F S] Hwf. unfold has_status. rewrite F. split; intros [Hx Hs]; (split; [done|]); [|by apply S].
  pose proof (queue_row_cols d x (Hwf _ _ Hx)) as (m & k & f & t & a & nt & q & -> & _ & _ & _ & _ & _ & _ & [u Hu]).
  change (col [m; k; f; t; a; nt; q] 6) with q in *. pose proof (S _ _ Hu). congruence.
Qed.

Lemma soonest_ext d d' m : ext d d' -> store_wf d -> soonest d' m <-> soonest d m.
Proof. intros He Hwf. unfold soonest. by setoid_rewrite (has_status_ext d d' _ _ He Hwf). Qed.

Lemma next_due_fold (q : Z) (rows : list row) (c : Z) :
  let m := foldl (fun m x => if (col x 6 =? q) && (col x 5 <? m) then col x 5 else m) c rows in
  m <= c /\ (forall x, x ∈ rows -> col x 6 = q -> m <= col x 5) /\
  (m = c \/ exists x, x ∈ rows /\ col x 6 = q /\ col x 5 = m).
Proof.
  revert c. induction rows as [|x rows IH]; intros c; simpl.
  - split; [lia|]. split; [by intros x ?%elem_of_nil|by left].
  - set (c' := if (col x 6 =? q) && (col x 5 <? c) then col x 5 else c). assert (Hc' : c' <= c) by (unfold c'; destruct (_ && _) eqn:?; lia).
    destruct (IH c') as (I1 & I2 & I3). split; [lia|]. split.
    + intros y [->|Hy]%elem_of_cons Hq; [|by apply I2]. transitivity c'; [done|].
      unfold c'. destruct (_ && _) eqn:Hb; [lia|]. apply andb_false_iff in Hb. lia.
    + destruct I3 as [Hm|(y & Hy & ?)]; [|right; exists y; split; [by right|done]].
      rewrite Hm. unfold c'. destruct (_ && _) eqn:Hb; [|by left].
      right. exists x. split; [by left|]. apply andb_true_iff in Hb. lia.
Qed.

Lemma next_due_spec {Hh : DlHealthy E} s :
  store_wf (db s) -> cache_ok s ->
  let '(s', m) := store_queue_next_due s in
  ext (db s) (db s') /\ soonest (db s) m /\ next_due_dirty s' = false /\ next_due s' = m.
Proof.
  intros Hwf Hc. unfold store_queue_next_due. destruct (next_due_dirty s) eqn:Hd; cbn [negb].
  2:{ split; [done|]. split; [by apply Hc|done]. }
  step_intern. destruct (Z.eqb_spec i 0); [naive_solver|].
  rewrite (dl_prefix_fold (db s0) RQueue [] (fun m x => if (col x 6 =? i) && (col x 5 <? m) then col x 5 else m)).
  rewrite rows_healthy. destruct (Z.ltb_spec (Z.of_nat (length (dl_rows (db s0) RQueue []).1)) 0); [lia|].
  split; [done|]. split; [|done]. cbn [db].
  apply (soonest_ext (db s) (db s0)); [done..|]. specialize (Hstr ltac:(done)).
  pose proof (rows_exact (db s0) RQueue [] (rows_healthy _ _ _)) as Hex.
  destruct (next_due_fold i (dl_rows (db s0) RQueue []).1 UINT32_MAX) as (N1 & N2 & N3).
  split; [|split; [done|]].
  - intros x [Hx Hs]. apply N2; [by apply Hex|]. by apply (str_of_inj (db s0) _ _ QUEUE_STATUS_QUEUED).
  - destruct N3 as [|(x & Hx & Hq & Hm)]; [by left|right]. exists x. split; [|done].
    split; [by apply Hex|]. by rewrite Hq.
Qed.

(** [quiet s s']: the queue facts, the known symbols and the cache are as they
    were. *)
Definition quiet s s' : Prop :=
  (forall x, dl_has (db s') RQueue x <-> dl_has (db s) RQueue x) /\
  (forall i t, dl_intern_str_of (db s) i = Some t -> dl_intern_str_of (db s') i = Some t) /\
  next_due s' = next_due s /\ next_due_dirty s' = next_due_dirty s.

#[global] Instance quiet_preorder : PreOrder quiet.
Proof.
  split; [done|]. intros s1 s2 s3 (F1 & S1 & A1 & B1) (F2 & S2 & A2 & B2).
  split; [intros x; by rewrite F2, F1|]. split; [auto|]. split; congruence.
Qed.

Lemma intern_quiet s x : quiet s (intern s x).1.
Proof.
  destruct (intern_run s x) as (s' & i & -> & [F S] & _ & _ & Hc & Hd). cbn [fst].
  split; [apply F|]. done.
Qed.

Lemma add_quiet s r x : r <> RQueue -> quiet s (add_fact s r x).1.
Proof.
  intros Hr. destruct (add_fact_db s r x) as (Hd & _ & H1 & H2).
  split; [|split; [|done]].
  - intros y. rewrite Hd. apply add_same. congruence.
  - intros i t. by rewrite Hd, add_str_of.
Qed.

Lemma delete_if_quiet p r s rows : r <> RQueue -> quiet s (delete_if p r s rows).
Proof.
  intros Hr. destruct (delete_if_spec p r s rows) as (I1 & I2 & I3 & H1 & H2).
  split; [|split; [|done]].
  - intros y. split; [apply I1|]. intros Hy. apply I2; congruence.
  - intros i t. by rewrite I3.
Qed.

Lemma quiet_cache s s' : quiet s s' -> store_wf (db s) -> cache_ok s -> cache_ok s'.
Proof.
  intros (F & S & A & B) Hwf Hc Hd. rewrite B in Hd. specialize (Hc Hd). rewrite A.
  assert (Hst : forall st x, has_status (db s') st x <-> has_status (db s) st x).
  { intros st x. unfold has_status. rewrite F. split; intros [Hx Hs]; (split; [done|]); [|by apply S].
    pose proof (queue_row_cols (db s) x (Hwf _ _ Hx)) as (m & k & f & t & a & nt & q & -> & _ & _ & _ & _ & _ & _ & [u Hu]).
    change (col [m; k; f; t; a; nt; q] 6) with q in *. pose proof (S _ _ Hu). congruence. }
  unfold soonest in *. by setoid_rewrite Hst.
Qed.

(** Names the next [intern], keeping only that it is quiet. *)
Ltac quiet_intern :=
  match goal with
  | |- context [intern ?s ?x] =>
      let Hq := fresh "Hq" in
      pose proof (intern_quiet s x) as Hq; destruct (intern s x) as [? ?];
      cbn [fst snd] in *; cbn beta iota zeta
  end.

Ltac quiet_add :=
  match goal with
  | |- context [add_fact ?s ?r ?x] =>
      let Hq := fresh "Hq" in
      pose proof (add_quiet s r x ltac:(done)) as Hq; destruct (add_fact s r x) as [? ?];
      cbn [fst snd] in *; cbn beta iota zeta
  end.

(** Closes a [quiet] goal by chaining the steps in the context. *)
Ltac quiet_chain := repeat (done || (etransitivity; [eassumption|])).

Lemma alias_add_quiet s a t : quiet s (alias_add_impl s a t).1.
Proof.
  unfold alias_add_impl. destruct (_ || _); [done|]. destruct (split_addr a) as [[l dm]|]; [|done].
  do 3 quiet_intern. destruct (_ || _); [quiet_chain|]. quiet_add. destruct (_ <? 0); quiet_chain.
Qed.

Lemma seed_quiet s ds als : quiet s (store_seed_aliases s ds als).1.
Proof.
  assert (Hd : forall s, quiet s (seed_domains s ds).1).
  { induction ds as [|d ds IH]; intros s0; [done|]. cbn [seed_domains].
    destruct (is_nil d); [apply IH|]. quiet_intern. destruct (_ =? 0); [done|].
    quiet_add. destruct (_ <? 0); [quiet_chain|]. etransitivity; [eassumption|].
    etransitivity; [eassumption|]. apply IH. }
  assert (Ht : forall a l s, quiet s (seed_dests s a l).1).
  { intros a l. induction l as [|t l IH]; intros s0; [done|]. cbn [seed_dests].
    pose proof (alias_add_quiet s0 a t). destruct (alias_add_impl s0 a t) as [s1 rc].
    destruct (rc =? VISAGE_OK); [|done]. etransitivity; [eassumption|]. apply IH. }
  assert (Ha : forall s, quiet s (seed_alias_list s als).1).
  { induction als as [|[[a|] l] als IH]; intros s0; cbn [seed_alias_list]; [done| |apply IH].
    pose proof (Ht a l s0). destruct (seed_dests s0 a l) as [s1 rc].
    destruct (rc =? VISAGE_OK); [|done]. etransitivity; [eassumption|]. apply IH. }
  unfold store_seed_aliases. specialize (Hd s). destruct (seed_domains s ds) as [s1 rc].
  destruct (rc =? VISAGE_OK); [|done]. etransitivity; [eassumption|]. apply Ha.
Qed.

(** Does the operation write the queue or its cache? *)
Definition writes_queue (o : store_op) : bool :=
  match o with
  | OQueueAdd _ _ _ _ | OQueueSetStatus _ _ _ _ _ | OQueueDelete _ _ | OQueueReset
  | OQueueNextDue => true
  | _ => false
  end.

Lemma run_op_quiet s o : writes_queue o = false -> quiet s (run_op s o).
Proof.
  destruct o; cbn [writes_queue run_op]; intros Hw; try done.
  - apply alias_add_quiet.
  - unfold store_alias_rm. destruct (split_addr alias) as [[l dm]|]; [|done].
    do 3 quiet_intern. destruct (_ || _); [quiet_chain|].
    pose proof (delete_if_quiet (fun _ => true) RAlias s2 [[z; z0; z1]] ltac:(done)) as Hd.
    cbn [delete_if foldl] in Hd. destruct (delete_fact _ _ _) as [s3 rc]. destruct (rc <? 0); quiet_chain.
  - apply seed_quiet.
  - unfold store_resolve. destruct (split_addr alias) as [[l dm]|]; [|done]. do 2 quiet_intern.
    destruct (_ || _); [quiet_chain|]. destruct (dl_prefix _ _ _ count_cb _) as [n c].
    destruct (n <? 0); [quiet_chain|]. destruct (n =? 0); [quiet_chain|].
    destruct (dl_prefix _ _ _ _ _) as [n2 dc]. destruct (_ || _); quiet_chain.
  - unfold store_revmap_add_at. destruct (_ || _); [done|]. do 3 quiet_intern.
    destruct (_ || _); [quiet_chain|]. quiet_add. destruct (_ <? 0); quiet_chain.
  - unfold store_revmap_expire, revmap_expire_cb. rewrite collect_prefix. destruct (_ <? 0); [done|].
    by apply (delete_if_quiet (fun x => revmap_expired now (col x 3)) RRevmap).
  - unfold store_revmap_resolve. destruct (is_nil token); [done|]. quiet_intern.
    destruct (_ =? 0); [done|]. destruct (dl_prefix _ _ _ _ _) as [n rc].
    by repeat case_match.
  - unfold store_next_msgid. quiet_intern. destruct (_ =? 0); [done|].
    destruct (dl_prefix _ _ _ _ _) as [n vals]. destruct (n <? 0); [done|]. destruct (_ =? 0); [done|].
    quiet_add. destruct (_ <? 0); [quiet_chain|]. cbn [fst]. rewrite delete_rows_if.
    etransitivity; [|by apply delete_if_quiet]. quiet_chain.
  - unfold store_log_add. destruct (_ || _); [done|]. do 3 quiet_intern.
    destruct (_ || _); [quiet_chain|]. quiet_add. destruct (_ <? 0); quiet_chain.
  - unfold store_log_expire, log_expire_cb. rewrite collect_prefix. destruct (_ <? 0); [done|].
    by apply (delete_if_quiet (fun x => log_expired now (col x 1)) RLog).
  - unfold store_queue_count_by_status. destruct (is_nil status); [done|]. quiet_intern.
    destruct (_ =? 0); [done|]. by destruct (dl_prefix _ _ _ _ _).
Qed.

(** *** The operations that write the queue *)

Lemma set_status_cache s m k st a nt :
  cache_ok s -> cache_ok (store_queue_set_status s m k st a nt).1.
Proof.
  intros Hc. destruct (is_nil st) eqn:Hst.
  { unfold store_queue_set_status. by rewrite Hst. }
  destruct (set_status_eq s m k st a nt Hst) as (s1 & i & _ & _ & _ & _ & Hd & ->).
  assert (Hdirty : forall s', next_due_dirty s' = true -> cache_ok s') by (intros s' H' H2; congruence).
  assert (Hdel : forall s' rows, next_due_dirty s' = true -> next_due_dirty (delete_rows s' RQueue rows) = true).
  { intros s' rows H'. rewrite delete_rows_if. by destruct (delete_if_spec (fun _ => true) RQueue s' rows) as (_ & _ & _ & _ & ->). }
  destruct (i =? 0); [by apply Hdirty|]. destruct (dl_rows _ _ _).2; [|by apply Hdirty].
  destruct (read_rows (db s1) m k) as [|x0 rows]; [by apply Hdirty|]. cbv zeta.
  destruct (find_row _ _); [by apply Hdirty, Hdel|].
  destruct (add_fact_db s1 RQueue [m; k; col x0 2; col x0 3; a; nt; i]) as (_ & _ & _ & Hd2).
  destruct (add_fact s1 _ _) as [s2 rc]. simpl in Hd2. rewrite Hd in Hd2.
  destruct (rc <? 0); [by apply Hdirty|by apply Hdirty, Hdel].
Qed.

Lemma reset_items_cache items s : cache_ok s -> cache_ok (reset_items s items).1.
Proof.
  revert s. induction items as [|[[m k] a] items IH]; intros s Hc; [done|]. cbn [reset_items].
  pose proof (set_status_cache s m k QUEUE_STATUS_QUEUED a 0 Hc).
  destruct (store_queue_set_status _ _ _ _ _ _) as [s1 rc]. destruct (rc =? VISAGE_OK); [by apply IH|done].
Qed.

Lemma queue_add_cache {Hh : DlHealthy E} s m k f t :
  store_wf (db s) -> cache_ok s -> cache_ok (store_queue_add s m k f t).1.
Proof.
  intros Hwf Hc. unfold store_queue_add. destruct (is_nil t); [done|]. do 3 step_intern. ext_chain.
  assert (Hwf' : store_wf (db s2)) by (by apply (ext_wf (db s))).
  destruct (_ || _) eqn:Hb; [naive_solver lia|].
  assert (Hq : dl_intern_str_of (db s2) i1 = Some QUEUE_STATUS_QUEUED) by (apply Hstr1; lia).
  destruct (add_fact_db s2 RQueue [m; k; i; i0; 0; 0; i1]) as (Hd & Hr & _).
  pose proof (add_healthy (db s2) RQueue [m; k; i; i0; 0; 0; i1]) as Hok. rewrite <- Hr in Hok.
  destruct (add_fact s2 _ _) as [s3 rc]. cbn [fst snd] in *. destruct (Z.ltb_spec rc 0); [lia|].
  intros _. cbn [fst db next_due]. rewrite Hd. split; [|split; [done|right]].
  - intros x [Hx _]. apply add_has_inv in Hx as [Hx|[_ ->]]; [|done].
    destruct (queue_row_cols _ _ (Hwf' _ _ Hx)) as (? & ? & ? & ? & ? & nt & ? & -> & _ & _ & _ & _ & _ & [Hnt _] & _).
    done.
  - exists [m; k; i; i0; 0; 0; i1]. split; [|done]. split; [apply add_ok; by rewrite <- Hr|].
    by rewrite add_str_of.
Qed.

Lemma queue_delete_cache s m k :
  (forall x, qrow (db s) m k x -> ~ has_status (db s) QUEUE_STATUS_QUEUED x) ->
  cache_ok s -> cache_ok (store_queue_delete s m k).1.
Proof.
  intros Hno Hc. unfold store_queue_delete. rewrite queue_read_prefix. fold (read_rows (db s) m k).
  destruct (dl_rows (db s) RQueue [m; k]).2 eqn:Hok; [|done].
  destruct (_ <? 0); [done|]. cbn [fst]. rewrite delete_rows_if.
  destruct (delete_if_spec (fun _ => true) RQueue s (read_rows (db s) m k)) as (I1 & I2 & I3 & H1 & H2).
  intros Hd. rewrite H2 in Hd. rewrite H1. specialize (Hc Hd).
  assert (Hst : forall x, has_status (db (delete_if (fun _ => true) RQueue s (read_rows (db s) m k))) QUEUE_STATUS_QUEUED x
                  <-> has_status (db s) QUEUE_STATUS_QUEUED x).
  { intros x. unfold has_status. rewrite I3. split; intros [Hx Hs]; (split; [|done]); [by apply I1|].
    apply I2; [done|]. intros _. left. intros Hin. apply (read_rows_sound _ _ _ _ Hok) in Hin.
    by destruct (Hno x Hin). }
  unfold soonest in *. by setoid_rewrite Hst.
Qed.

(** *** Reachable stores *)

(** The sweep only deletes terminal deliveries. *)
Definition delete_ok s (o : store_op) : Prop :=
  match o with
  | OQueueDelete m k => forall x, qrow (db s) m k x -> ~ has_status (db s) QUEUE_STATUS_QUEUED x
  | _ => True
  end.

Inductive reachable : Store -> Prop :=
| reach_open d : store_wf d -> reachable (store_open d)
| reach_step s o : reachable s -> op_u32 o -> delete_ok s o -> reachable (run_op s o).

Lemma run_op_cache {Hh : DlHealthy E} s o :
  store_wf (db s) -> delete_ok s o -> cache_ok s -> cache_ok (run_op s o).
Proof.
  intros Hwf Hdel Hc. destruct (writes_queue o) eqn:Hw.
  2:{ apply (quiet_cache s); [by apply run_op_quiet|done..]. }
  destruct o; try done; cbn [run_op].
  - by apply queue_add_cache.
  - by apply set_status_cache.
  - by apply queue_delete_cache.
  - unfold store_queue_reset_delivering.
    pose proof (intern_quiet s QUEUE_STATUS_DELIVERING) as Hq.
    destruct (intern s QUEUE_STATUS_DELIVERING) as [s0 i]. cbn [fst] in Hq.
    pose proof (quiet_cache _ _ Hq Hwf Hc). destruct (i =? 0); [done|].
    rewrite delivering_prefix. destruct (dl_rows _ _ _).2; [|done]. destruct (_ <? 0); [done|].
    by apply reset_items_cache.
  - pose proof (next_due_spec s Hwf Hc) as H. destruct (store_queue_next_due s) as [s' m].
    destruct H as (He & Hs & _ & Hn). intros _. cbn [fst]. rewrite Hn. by apply (soonest_ext (db s)).
Qed.

Lemma reachable_inv {Hh : DlHealthy E} s : reachable s -> store_wf (db s) /\ cache_ok s.
Proof.
  induction 1 as [d Hd|s o _ [Hwf Hc] Hu Hdel]; [done|]. split; [by apply run_op_wf|by apply run_op_cache].
Qed.

(** The cached soonest due time is always right. In every store reached
    from [store_open] by any sequence of operations (queue deletes only of
    deliveries that are not queued, as the sweep does), [store_queue_next_due]
    returns the smallest [next_ts] of the queued rows, or UINT32_MAX, whether it
    answers from the cache or walks. *)
Theorem next_due_correct {Hh : DlHealthy E} s (Hs : reachable s) :
  soonest (db s) (store_queue_next_due s).2.
Proof.
  destruct (reachable_inv s Hs) as [Hwf Hc]. pose proof (next_due_spec s Hwf Hc) as H.
  destruct (store_queue_next_due s) as [s' m]. apply H.
Qed.

(** ** Recovery after a crash *)

(** Does the delivery of row [x] occur among the collected items? *)
Definition in_items (items : list (Z * Z * Z)) (x : row) : Prop :=
  exists m k a, (m, k, a) ∈ items /\ take 2 x = [m; k].

Lemma reset_items_spec {Hh : DlHealthy E} items s :
  (forall m k, few_rows (db s) m k) ->
  (forall m k a, (m, k, a) ∈ items -> exists x, qrow (db s) m k x) ->
  let '(s', rc) := reset_items s items in
  rc = VISAGE_OK /\
  (forall i t, dl_intern_str_of (db s) i = Some t -> dl_intern_str_of (db s') i = Some t) /\
  (forall m k x, qrow (db s) m k x -> exists y, qrow (db s') m k y) /\
  (forall x, dl_has (db s') RQueue x -> (dl_has (db s) RQueue x /\ ~ in_items items x) \/
     dl_intern_str_of (db s') (col x 6) = Some QUEUE_STATUS_QUEUED) /\
  (forall x, dl_has (db s) RQueue x -> ~ in_items items x -> dl_has (db s') RQueue x).
Proof.
  revert s. induction items as [|[[m k] a] items IH]; intros s Hfew Hin.
  { split; [done|]. split; [done|]. split; [intros m k x Hx; by exists x|]. split; [|done].
    intros x Hx. left. split; [done|]. intros (? & ? & ? & Hn & _). by apply elem_of_nil in Hn. }
  cbn [reset_items].
  pose proof (set_status_spec s m k a 0 QUEUE_STATUS_QUEUED eq_refl (Hfew m k)) as H.
  destruct (store_queue_set_status s m k QUEUE_STATUS_QUEUED a 0) as [s1 rc].
  destruct H as (Hstr & _ & H). destruct (H (Hin m k a ltac:(by left))) as (-> & (x0 & i & _ & Hi & Hone) & Hoth).
  change (VISAGE_OK =? VISAGE_OK) with true. cbv iota. set (next := [m; k; _; _; a; 0; i]) in *.
  assert (Hkey : forall m' k' x, (m', k') <> (m, k) -> qrow (db s1) m' k' x <-> qrow (db s) m' k' x).
  { intros m' k' x Hne. unfold qrow. split; intros [Hx Ht]; (split; [|done]); apply Hoth; try done;
      intros _; rewrite Ht; congruence. }
  assert (Hsome : forall m' k' x, qrow (db s) m' k' x -> exists y, qrow (db s1) m' k' y).
  { intros m' k' x Hx. destruct (decide ((m', k') = (m, k))) as [[= -> ->]|Hne].
    - exists next. by apply Hone.
    - exists x. by apply Hkey. }
  assert (Hfew1 : forall m' k', few_rows (db s1) m' k').
  { intros m' k'. destruct (decide ((m', k') = (m, k))) as [[= -> ->]|Hne].
    - exists [next]. split; [simpl; unfold QUEUE_SET_MAX_ROWS; lia|]. intros x Hx. apply Hone in Hx as ->. by left.
    - destruct (Hfew m' k') as (l & Hl & Hsub). exists l. split; [done|]. intros x Hx. by apply Hsub, Hkey. }
  assert (Hin1 : forall m' k' a', (m', k', a') ∈ items -> exists x, qrow (db s1) m' k' x).
  { intros m' k' a' Hi'. destruct (Hin m' k' a' ltac:(by right)) as (x & Hx). by apply (Hsome _ _ x). }
  specialize (IH s1 Hfew1 Hin1). destruct (reset_items s1 items) as [s' rc].
  destruct IH as (-> & I1 & I2 & I3 & I4). split; [done|]. split; [auto|]. split; [|split].
  - intros m' k' x Hx. apply Hsome in Hx as (y & Hy). by apply I2 in Hy.
  - intros x Hx. destruct (I3 x Hx) as [[Hx1 Hni]|]; [|by right].
    destruct (decide (take 2 x = [m; k])) as [Ht|Ht].
    + right. assert (x = next) as -> by (apply Hone; by split). by apply I1.
    + left. split; [by apply (Hoth RQueue x)|]. intros (m' & k' & a' & [[= -> -> ->]|Hi']%elem_of_cons & Ht'); [done|].
      apply Hni. by exists m', k', a'.
  - intros x Hx Hni. apply I4; [|intros (m' & k' & a' & Hi' & Ht'); apply Hni; exists m', k', a'; split; [by right|done]].
    apply Hoth; [|done]. intros _ Ht. apply Hni. exists m, k, a. split; [by left|done].
Qed.

(** Recovery loses nothing and leaves nothing in progress. On a healthy
    engine, with at most [QUEUE_SET_MAX_ROWS] rows per delivery,
    [store_queue_reset_delivering] returns VISAGE_OK; no row is "delivering"
    afterwards; every delivery that had a row still has one; and every row of a
    delivery that was not in progress is untouched. *)
Theorem queue_reset_correct {Hh : DlHealthy E} s
  (Hwf : store_wf (db s)) (Hfew : forall m k, few_rows (db s) m k) :
  let '(s', rc) := store_queue_reset_delivering s in
  rc = VISAGE_OK /\
  (forall x, ~ has_status (db s') QUEUE_STATUS_DELIVERING x) /\
  (forall m k x, qrow (db s) m k x -> exists y, qrow (db s') m k y) /\
  (forall x, dl_has (db s) RQueue x ->
     (forall y, has_status (db s) QUEUE_STATUS_DELIVERING y -> take 2 y <> take 2 x) ->
     dl_has (db s') RQueue x).
Proof.
  unfold store_queue_reset_delivering. step_intern. destruct (Z.eqb_spec i 0); [naive_solver|].
  specialize (Hstr ltac:(done)). rewrite delivering_prefix, rows_healthy.
  destruct (Z.ltb_spec (Z.of_nat (length (dl_rows (db s0) RQueue []).1)) 0); [lia|].
  pose proof (ext_wf _ _ Hext Hwf) as Hwf0.
  pose proof (rows_exact (db s0) RQueue [] (rows_healthy _ _ _)) as Hex.
  set (items := delivering_items i _).
  assert (Hit : forall m k a, (m, k, a) ∈ items <->
            exists x, has_status (db s0) QUEUE_STATUS_DELIVERING x /\ take 2 x = [m; k] /\ col x 4 = a).
  { intros m k a. unfold items, delivering_items. rewrite list_elem_of_In, List.in_map_iff. split.
    - intros (x & [= <- <- <-] & [Hx Hq]%List.filter_In). apply list_elem_of_In, Hex in Hx as [Hx _].
      exists x. apply Z.eqb_eq in Hq. split; [split; [done|by rewrite Hq]|].
      by destruct (queue_row_cols _ _ (Hwf0 _ _ Hx)) as (? & ? & ? & ? & ? & ? & ? & -> & _).
    - intros (x & [Hx Hs] & Ht & Ha). exists x. split.
      + destruct (queue_row_cols _ _ (Hwf0 _ _ Hx)) as (? & ? & ? & ? & ? & ? & ? & -> & _).
        simpl in Ht. unfold col in *. simpl in *. congruence.
      + apply List.filter_In. split; [by apply list_elem_of_In, Hex|].
        apply Z.eqb_eq. by apply (str_of_inj (db s0) _ _ QUEUE_STATUS_DELIVERING). }
  assert (Hq0 : forall m k x, qrow (db s0) m k x <-> qrow (db s) m k x) by (intros; by apply qrow_ext).
  assert (Hfew0 : forall m k, few_rows (db s0) m k).
  { intros m k. destruct (Hfew m k) as (l & Hl & Hsub). exists l. split; [done|]. intros x Hx. by apply Hsub, Hq0. }
  assert (Hin0 : forall m k a, (m, k, a) ∈ items -> exists x, qrow (db s0) m k x).
  { intros m k a (x & [Hx _] & Ht & _)%Hit. by exists x. }
  pose proof (reset_items_spec items s0 Hfew0 Hin0) as H1. destruct (reset_items s0 items) as [s' rc].
  destruct H1 as (-> & I1 & I2 & I3 & I4). split; [done|]. split; [|split].
  - intros x [Hx Hs]. destruct (I3 x Hx) as [[Hx0 Hni]|Hs']; [|by rewrite Hs in Hs'].
    apply Hni. destruct (queue_row_cols _ _ (Hwf0 _ _ Hx0)) as (m & k & f & t & a & nt & q & -> & _ & _ & _ & _ & _ & _ & [u Hu]).
    exists m, k, a. split; [|done]. apply Hit. exists [m; k; f; t; a; nt; q].
    split; [|done]. split; [done|].
    change (col [m; k; f; t; a; nt; q] 6) with q in *. pose proof (I1 _ _ Hu). congruence.
  - intros m k x Hx. apply (I2 m k x). by apply Hq0.
  - intros x Hx Hno. apply I4; [by apply Hext|]. intros (m & k & a & Hi & Ht).
    apply Hit in Hi as (y & Hy & Hty & _). apply (has_status_ext _ _ _ _ Hext Hwf) in Hy.
    apply (Hno y Hy). congruence.
Qed.

(** ** Reads *)

(** The call [store_queue_due] makes for a row, if it is due. *)
Definition due_call d (now queued_id : Z) (x : row) : option (Z * Z * bytes * bytes * Z) :=
  if (col x 6 =? queued_id) && (col x 5 <=? now) then
    f ← dl_intern_str_of d (col x 2); t ← dl_intern_str_of d (col x 3);
    Some (col x 0, col x 1, f, t, col x 4)
  else None.

Definition apply_call {U} (g : Z -> Z -> bytes -> bytes -> Z -> U -> U) (u : U)
    (c : Z * Z * bytes * bytes * Z) : U :=
  let '(m, k, f, t, a) := c in g m k f t a u.

Lemma due_walk {U} (g : Z -> Z -> bytes -> bytes -> Z -> U -> U) d now q rows n u e :
  (forall x, x ∈ rows -> well_typed d RQueue x) ->
  walk (queue_due_cb d now q (fun m k f t a u => (g m k f t a u, false))) rows n (u, e)
  = (n + Z.of_nat (length rows), (foldl (apply_call g) u (omap (due_call d now q) rows), e)).
Proof.
  revert n u. induction rows as [|x rows IH]; intros n u Hw; cbn [walk omap list_omap].
  - simpl. by rewrite Z.add_0_r.
  - destruct (queue_row_cols _ _ (Hw x ltac:(by left)))
      as (m & k & f & t & a & nt & st & -> & _ & _ & [uf Hf] & [ut Ht] & _ & _ & _).
    unfold queue_due_cb at 1, due_call at 1.
    change (col [m; k; f; t; a; nt; st] 6) with st. change (col [m; k; f; t; a; nt; st] 5) with nt.
    change (col [m; k; f; t; a; nt; st] 2) with f. change (col [m; k; f; t; a; nt; st] 3) with t.
    rewrite Hf, Ht. cbn [mbind option_bind]. specialize (IH (n + 1)).
    assert (Hn : n + Z.of_nat (length (([m; k; f; t; a; nt; st] : row) :: rows)) = n + 1 + Z.of_nat (length rows))
      by (simpl; lia).
    rewrite Hn. destruct (st =? q); cbn [negb andb]; [|apply IH; intros y Hy; apply Hw; by right].
    destruct (Z.gtb_spec nt now), (Z.leb_spec nt now); try lia; cbn beta iota zeta;
      cbn [fst snd foldl]; apply IH; intros y Hy; apply Hw; by right.
Qed.

(** The re-drive walk. On a healthy engine and a well-typed store,
    [store_queue_due] with a callback that never stops returns VISAGE_OK and
    calls it exactly for the rows that are queued and due, with the row's keys,
    attempts and envelope strings. *)
Theorem queue_due_correct {U} {Hh : DlHealthy E} (g : Z -> Z -> bytes -> bytes -> Z -> U -> U)
  s (now : Z) (u0 : U) (Hwf : store_wf (db s)) :
  let '(s', rc, u) := store_queue_due s now (fun m k f t a u => (g m k f t a u, false)) u0 in
  rc = VISAGE_OK /\
  exists calls, u = foldl (apply_call g) u0 calls /\
    forall m k f t a, (m, k, f, t, a) ∈ calls <->
      (exists x, has_status (db s) QUEUE_STATUS_QUEUED x /\ col x 5 <= now /\
         col x 0 = m /\ col x 1 = k /\ col x 4 = a /\
         dl_intern_str_of (db s) (col x 2) = Some f /\ dl_intern_str_of (db s) (col x 3) = Some t).
Proof.
  unfold store_queue_due. step_intern. destruct (Z.eqb_spec i 0); [naive_solver|].
  specialize (Hstr ltac:(done)). pose proof (ext_wf _ _ Hext Hwf) as Hwf0.
  pose proof (rows_exact (db s0) RQueue [] (rows_healthy _ _ _)) as Hex.
  rewrite dl_prefix_eq, due_walk, rows_healthy.
  2:{ intros x Hx. by apply Hwf0, Hex. }
  cbn [fst snd]. destruct (Z.ltb_spec (0 + Z.of_nat (length (dl_rows (db s0) RQueue []).1)) 0); [lia|].
  split; [done|]. eexists. split; [done|]. intros m k f t a. rewrite list_elem_of_omap.
  setoid_rewrite <- (has_status_ext _ _ QUEUE_STATUS_QUEUED _ Hext Hwf). split.
  - intros (x & Hx & Hcall). apply Hex in Hx as [Hx _]. exists x. unfold due_call in Hcall.
    destruct (_ && _) eqn:Hb; [|done]. apply andb_true_iff in Hb as [Hq Ht].
    destruct (queue_row_cols _ _ (Hwf _ _ (proj1 (proj1 Hext _ _) Hx)))
      as (m' & k' & f' & t' & a' & nt & st & -> & _ & _ & [uf Hf] & [ut Ht'] & _ & _ & _).
    unfold col in *. simpl in *. apply (proj2 Hext) in Hf as Hf0. apply (proj2 Hext) in Ht' as Ht0.
    rewrite Hf0, Ht0 in Hcall. injection Hcall as <- <- <- <- <-.
    split; [split; [done|]; by apply Z.eqb_eq in Hq as ->|]. repeat split; try done. lia.
  - intros (x & [Hx Hs] & Hnt & <- & <- & <- & Hf & Ht). exists x. split; [by apply Hex|].
    unfold due_call. rewrite (str_of_inj (db s0) (col x 6) i QUEUE_STATUS_QUEUED), Z.eqb_refl by done.
    destruct (Z.leb_spec (col x 5) now); [|lia]. simpl.
    apply (proj2 Hext) in Hf as ->. by apply (proj2 Hext) in Ht as ->.
Qed.

Lemma active_status_spec d rows :
  match active_status d rows with
  | Some st => is_active st = true /\ exists x, x ∈ rows /\ dl_intern_str_of d (col x 6) = Some st
  | None => forall x st, x ∈ rows -> dl_intern_str_of d (col x 6) = Some st -> is_active st = false
  end.
Proof.
  induction rows as [|x rows IH]; cbn [active_status]; [by intros x st ?%elem_of_nil|].
  destruct (dl_intern_str_of d (col x 6)) as [st|] eqn:Hs; [destruct (is_active st) eqn:Ha|].
  - split; [done|]. exists x. split; [by left|done].
  - destruct (active_status d rows) as [st'|].
    + destruct IH as (H1 & y & Hy & H2). split; [done|]. exists y. split; [by right|done].
    + intros y st' [->|Hy]%elem_of_cons H; [congruence|by apply (IH y)].
  - destruct (active_status d rows) as [st'|].
    + destruct IH as (H1 & y & Hy & H2). split; [done|]. exists y. split; [by right|done].
    + intros y st' [->|Hy]%elem_of_cons H; [congruence|by apply (IH y)].
Qed.

Lemma queue_status_spec s (m k : Z) (sz : nat) (rc : Z) (st : bytes)
  (Hfew : few_rows (db s) m k) (Hr : store_queue_status s m k sz = (rc, Some st)) :
  rc = VISAGE_OK /\ (length st < sz)%nat /\
  (exists x, qrow (db s) m k x /\ dl_intern_str_of (db s) (col x 6) = Some st) /\
  (is_active st = false -> forall x st', qrow (db s) m k x ->
     dl_intern_str_of (db s) (col x 6) = Some st' -> is_active st' = false).
Proof.
  revert Hr. unfold store_queue_status. destruct (sz =? 0)%nat; [done|].
  rewrite queue_read_prefix. fold (read_rows (db s) m k).
  pose proof (read_rows_complete (db s) m k) as Hread.
  destruct (dl_rows (db s) RQueue [m; k]).2; [|done]. specialize (Hread eq_refl Hfew).
  destruct (Z.ltb_spec (Z.of_nat (length (dl_rows (db s) RQueue [m; k]).1)) 0); [lia|].
  pose proof (active_status_spec (db s) (read_rows (db s) m k)) as Ha.
  destruct (read_rows (db s) m k) as [|x0 rows]; [done|].
  destruct (active_status (db s) (x0 :: rows)) as [sa|].
  - destruct Ha as (Ha1 & x & Hx & Ha2). destruct (Nat.ltb_spec sz (length sa + 1)); [done|].
    intros [= <- ->]. split; [done|]. split; [lia|]. split; [|congruence].
    exists x. split; [by apply Hread|done].
  - destruct (dl_intern_str_of (db s) (col x0 6)) as [s0|] eqn:Hs0; [|done].
    destruct (Nat.ltb_spec sz (length s0 + 1)); [done|]. intros [= <- ->].
    split; [done|]. split; [lia|]. split; [exists x0; split; [apply Hread; by left|done]|].
    intros _ x st' Hx. apply Ha. by apply Hread.
Qed.

(** The spool sweep cannot mistake a live delivery for a finished one. When
    [store_queue_status] reports a status it is that of a row of the delivery and
    fits the buffer with its NUL; and it reports a status other than "queued" or
    "delivering" only when no row of the delivery is in one of those states, even
    with the duplicates a crash can leave. *)
Theorem queue_status_sound s (m k : Z) (sz : nat) (rc : Z) (st : bytes)
  (Hfew : few_rows (db s) m k) (Hr : store_queue_status s m k sz = (rc, Some st)) :
  rc = VISAGE_OK /\ (length st < sz)%nat /\
  (exists x, qrow (db s) m k x /\ dl_intern_str_of (db s) (col x 6) = Some st) /\
  (is_active st = false -> forall x st', qrow (db s) m k x ->
     dl_intern_str_of (db s) (col x 6) = Some st' -> is_active st' = false).
Proof. by apply queue_status_spec. Qed.

End Queue.

(** ** Witnesses *)

Definition mem_q : @Store MemEngine :=
  foldl run_op (@store_open MemEngine mem_empty)
    [OQueueAdd 7 0 (bs "a@x") (bs "b@y"); OQueueAdd 7 1 (bs "a@x") (bs "c@z");
     OQueueSetStatus 7 1 (bs "delivering") 1 50].

Lemma mem_q_wf : store_wf (db mem_q).
Proof.
  unfold mem_q. cbn [foldl]. do 3 (apply run_op_wf; [|repeat split; unfold is_u32, UINT32_MAX; lia]).
  intros r x Hx. by apply elem_of_nil in Hx.
Qed.

Lemma mem_q_rows : mem_rows (db mem_q) RQueue = [[7; 1; 1; 4; 1; 50; 5]; [7; 0; 1; 2; 0; 0; 3]].
Proof. reflexivity. Qed.

Lemma mem_q_few m k : few_rows (db mem_q) m k.
Proof.
  exists (mem_rows (db mem_q) RQueue). rewrite mem_q_rows. split; [simpl; unfold QUEUE_SET_MAX_ROWS; lia|].
  intros x [Hx _]. change (x ∈ mem_rows (db mem_q) RQueue) in Hx. by rewrite mem_q_rows in Hx.
Qed.

Lemma queue_set_status_correct_witness :
  let '(s', rc) := store_queue_set_status mem_q 7 0 (bs "delivered") 1 0 in
  rc = VISAGE_OK /\ ~ qrow (db s') 7 0 [7; 0; 1; 2; 0; 0; 3].
Proof.
  pose proof (queue_set_status_correct mem_q 7 0 1 0 (bs "delivered") eq_refl (mem_q_few 7 0)) as H.
  destruct (store_queue_set_status mem_q 7 0 (bs "delivered") 1 0) as [s' rc].
  destruct H as [_ H]. destruct H as (Hrc & (x0 & i & _ & _ & Hone) & _).
  - exists [7; 0; 1; 2; 0; 0; 3]. split; [vm_compute; do 2 constructor|done].
  - split; [done|]. intros Hx. by apply Hone in Hx.
Defined.

Lemma queue_set_status_crash_safe_witness :
  length (set_status_crashes mem_q 7 0 (bs "delivered") 1 0) = 2%nat /\
  forall d, d ∈ set_status_crashes mem_q 7 0 (bs "delivered") 1 0 -> exists y, qrow d 7 0 y.
Proof.
  split; [reflexivity|]. intros d Hd.
  destruct (queue_set_status_crash_safe mem_q 7 0 1 0 (bs "delivered") [7; 0; 1; 2; 0; 0; 3]
    ltac:(split; [vm_compute; do 2 constructor|done]) d Hd) as (y & _ & Hy & _). by exists y.
Defined.

Lemma next_due_correct_witness : soonest (db mem_q) 0.
Proof.
  apply (next_due_correct mem_q). unfold mem_q. cbn [foldl].
  do 3 (apply reach_step; [|repeat split; unfold is_u32, UINT32_MAX; lia|done]).
  apply reach_open. intros r x Hx. by apply elem_of_nil in Hx.
Defined.

Lemma queue_reset_correct_witness :
  (store_queue_reset_delivering mem_q).2 = VISAGE_OK.
Proof.
  pose proof (queue_reset_correct mem_q mem_q_wf mem_q_few) as H.
  destruct (store_queue_reset_delivering mem_q) as [s' rc]. apply H.
Defined.

Lemma queue_due_correct_witness :
  (store_queue_due mem_q 10 (fun m k f t a u => (S u, false)) 0%nat).1.2 = VISAGE_OK.
Proof.
  pose proof (queue_due_correct (fun m k f t a u => S u) mem_q 10 0%nat mem_q_wf) as H.
  destruct (store_queue_due _ _ _ _) as [[s' rc] u]. apply H.
Defined.

Lemma queue_status_sound_witness :
  store_queue_status mem_q 7 1 16 = (VISAGE_OK, Some (bs "delivering")) /\
  exists x, qrow (db mem_q) 7 1 x.
Proof.
  split; [reflexivity|].
  destruct (queue_status_sound mem_q 7 1 16 VISAGE_OK (bs "delivering") (mem_q_few 7 1) eq_refl)
    as (_ & _ & (x & Hx & _) & _). by exists x.
Defined.
