(* ===== verification/Reply.v ===== *)
(** * Reverse-alias replies (src/src/reply.c)

    Token minting, the reverse address, routing an inbound reply through the
    reply map, the rewritten headers of a forward, and the removal of the reverse
    address from To and Cc on the way out. Reads of /dev/urandom are an argument:
    the list of results the successive [read] calls return. *)

From S2P Require Import Prelude MailLines MailHeader DlEngine Store StoreSpec StoreTables.

(** [cfg->reply]; a NULL string is [None]. *)
Record ReplyConfig := { rc_prefix : option bytes; rc_separator : option bytes }.

(** ** Tokens *)

(** What one [read] returns; of [RData] at most the bytes asked for arrive. *)
Inductive read_result := REintr | RError | REof | RData (d : bytes).

(** The loop of [urandom16]; [None] when it fails (or the list ends, which no
    caller observes). *)
Fixpoint urandom16_loop (reads : list read_result) (got : bytes) : option bytes :=
  if (16 <=? length got)%nat then Some got
  else match reads with
       | [] => None
       | REintr :: rs => urandom16_loop rs got
       | RError :: _ => None
       | REof :: _ => None
       | RData d :: rs => urandom16_loop rs (got ++ take (16 - length got) d)
       end.

(** [urandom16]; [fd_ok] tells whether the open succeeded. *)
Definition urandom16 (fd_ok : bool) (reads : list read_result) : option bytes :=
  if fd_ok then urandom16_loop reads [] else None.

Definition hexdig (d : Z) : Z := nth (Z.to_nat d) (bs "0123456789abcdef") 0.

(** [reply_token_gen]: the code and the token written. *)
Definition reply_token_gen (fd_ok : bool) (reads : list read_result) (outsz : nat) : Z * option bytes :=
  if (outsz <? 33)%nat then (VISAGE_EPARAM, None)
  else match urandom16 fd_ok reads with
       | None => (VISAGE_ERR, None)
       | Some b =>
           let nonzero := existsb (fun x => negb (x =? 0)) b in
           let b := if nonzero then b else 1 :: drop 1 b in
           (VISAGE_OK, Some (concat (map (fun x => [hexdig (Z.shiftr x 4); hexdig (Z.land x 15)]) b)))
       end.

(** ** The reverse address *)

Definition nonnull (s : option bytes) : bytes := default [] s.

(** [reply_make_reverse]. *)
Definition reply_make_reverse (cfg : ReplyConfig) (token alias_addr : bytes) (outsz : nat)
  : Z * option bytes :=
  if is_nil token then (VISAGE_EPARAM, None)
  else
    let prefix := nonnull (rc_prefix cfg) in
    let sep := nonnull (rc_separator cfg) in
    match cut "@"%chr alias_addr with
    | None => (VISAGE_EPARAM, None)
    | Some (l, dom) =>
        if is_nil l || is_nil dom then (VISAGE_EPARAM, None)
        else
          let total := (length prefix + length sep + length token + 1 + length dom)%nat in
          if (outsz <? total + 1)%nat then (VISAGE_ERR, None)
          else (VISAGE_OK, Some (prefix ++ sep ++ token ++ "@"%chr :: dom))
    end.

(** [reply_token_extract]: [Some token] when it returns 1. *)
Definition reply_token_extract (cfg : ReplyConfig) (rcpt : bytes) : option bytes :=
  p ← strip_prefix (nonnull (rc_prefix cfg)) rcpt;
  p ← strip_prefix (nonnull (rc_separator cfg)) p;
  match cut "@"%chr p with
  | None => None
  | Some (t, dom) => if is_nil t || is_nil dom then None else Some t
  end.

(** [reply_route_inbound]: 1 with the pair, 0, or a negative code. *)
Definition reply_route_inbound {E : DlEngine} (s : Store) (now : Z) (cfg : ReplyConfig) (rcpt : bytes)
  : Store * Z * option (bytes * bytes) :=
  match reply_token_extract cfg rcpt with
  | None => (s, 0, None)
  | Some token =>
      let '(s, rc, found) := store_revmap_resolve s now token in
      if negb (rc =? VISAGE_OK) then (s, rc, None)
      else match found with
           | None => (s, 0, None)
           | Some p => (s, 1, Some p)
           end
  end.

(** ** The rewritten headers *)

Definition reply_from_rewrite (sender reverse : bytes) : bytes :=
  DQUOTE :: sender ++ [DQUOTE; SP; "<"%chr] ++ reverse ++ [">"%chr].

Definition reply_rewrite_build (sender alias_addr reverse : bytes) : MailRewrite := {|
  rw_received := None;
  rw_return_path := Some alias_addr;
  rw_from := Some (reply_from_rewrite sender reverse);
  rw_sender := Some alias_addr;
  rw_reply_to := Some reverse |}.

(** ** Address lists *)

(** The flags of the scanners, of which at most one is set: outside, in a quoted
    string, in a comment, in angle brackets, in a domain literal. *)
Inductive mode := MOut | MQuote | MComment | MAngle | MLiteral.

(** The scan of [mailbox_matches] from index [i]: [ang_s], and [ang_e] once an
    angle form was closed. *)
Fixpoint angle_scan (s : bytes) (i : nat) (m : mode) (ang_s : nat) (ang_e : option nat)
  : nat * option nat :=
  match s with
  | [] => (ang_s, ang_e)
  | ch :: t =>
      match m with
      | MQuote =>
          if (ch =? BACKSLASH) then
            match t with
            | _ :: t' => angle_scan t' (i + 2) MQuote ang_s ang_e
            | [] => (ang_s, ang_e)
            end
          else angle_scan t (i + 1) (if ch =? DQUOTE then MOut else MQuote) ang_s ang_e
      | MComment => angle_scan t (i + 1) (if ch =? ")"%chr then MOut else MComment) ang_s ang_e
      | MAngle =>
          if ch =? ">"%chr then angle_scan t (i + 1) MOut ang_s (Some i)
          else angle_scan t (i + 1) MAngle ang_s ang_e
      | _ =>
          if ch =? DQUOTE then angle_scan t (i + 1) MQuote ang_s ang_e
          else if ch =? "("%chr then angle_scan t (i + 1) MComment ang_s ang_e
          else if ch =? "<"%chr then angle_scan t (i + 1) MAngle (i + 1) ang_e
          else angle_scan t (i + 1) MOut ang_s ang_e
      end
  end.

(** The last blank-delimited token. *)
Definition last_token (s : bytes) : bytes :=
  reverse (take_while (fun c => negb (is_wsp c)) (reverse s)).

(** [mailbox_matches] on the element [e]. When a later unclosed '<' left [ang_s]
    past [ang_e] the length [e0 - s0] wraps and cannot equal [tlen]. *)
Definition mailbox_matches (e target : bytes) : bool :=
  match angle_scan e 0 MOut 0 None with
  | (ang_s, Some ang_e) =>
      if (ang_e <? ang_s)%nat then false
      else ieq (trim is_wsp (take (ang_e - ang_s) (drop ang_s e))) target
  | (_, None) => ieq (last_token (trim_end is_wsp e)) target
  end.

(** What [scan_address] reports: the group colon if any, the matching ';' if the
    group is closed, and the index just past the element. *)
Record scan_result := { sr_colon : option nat; sr_semi : option nat; sr_end : nat }.

Fixpoint scan_loop (s : bytes) (i : nat) (m : mode) (depth : nat) (colon : option nat) : scan_result :=
  match s with
  | [] => {| sr_colon := colon; sr_semi := None; sr_end := i |}
  | ch :: t =>
      match m with
      | MQuote =>
          if ch =? BACKSLASH then
            match t with
            | _ :: t' => scan_loop t' (i + 2) MQuote depth colon
            | [] => {| sr_colon := colon; sr_semi := None; sr_end := i + 1 |}
            end
          else scan_loop t (i + 1) (if ch =? DQUOTE then MOut else MQuote) depth colon
      | MComment => scan_loop t (i + 1) (if ch =? ")"%chr then MOut else MComment) depth colon
      | MAngle => scan_loop t (i + 1) (if ch =? ">"%chr then MOut else MAngle) depth colon
      | MLiteral => scan_loop t (i + 1) (if ch =? "]"%chr then MOut else MLiteral) depth colon
      | MOut =>
          if ch =? DQUOTE then scan_loop t (i + 1) MQuote depth colon
          else if ch =? "("%chr then scan_loop t (i + 1) MComment depth colon
          else if ch =? "<"%chr then scan_loop t (i + 1) MAngle depth colon
          else if ch =? "["%chr then scan_loop t (i + 1) MLiteral depth colon
          else if ch =? ":"%chr then
            scan_loop t (i + 1) MOut (S depth) (if (depth =? 0)%nat then Some i else colon)
          else if ch =? ";"%chr then
            match depth with
            | 1%nat => {| sr_colon := colon; sr_semi := Some i; sr_end := i + 1 |}
            | _ => scan_loop t (i + 1) MOut (depth - 1) colon
            end
          else if ch =? ","%chr then
            if (depth =? 0)%nat then {| sr_colon := colon; sr_semi := None; sr_end := i |}
            else scan_loop t (i + 1) MOut depth colon
          else scan_loop t (i + 1) MOut depth colon
      end
  end.

Definition scan_address (s : bytes) : scan_result := scan_loop s 0 MOut 0 None.

(** [ob_put_elem]: a trimmed element after a separator. *)
Definition ob_put_elem (o e : bytes) : bytes :=
  let t := trim is_wsp e in
  if is_nil t then o else (if is_nil o then [] else o ++ bs ", ") ++ t.

Definition list_sep (c : Z) : bool := (c =? ","%chr) || is_wsp c.

(** [addr_list_process] on the list [s], the output and the match flag so far.
    A group body is processed by the same function on a fresh output. *)
Fixpoint addr_list_process (fuel : nat) (s target o : bytes) (matched : bool) : bytes * bool :=
  match fuel with
  | O => (o, matched)
  | S fuel' =>
      match drop_while list_sep s with
      | [] => (o, matched)
      | s =>
          let r := scan_address s in
          let elem := take (sr_end r) s in
          let rest := drop (sr_end r) s in
          match sr_colon r with
          | None =>
              if mailbox_matches elem target
              then addr_list_process fuel' rest target o true
              else addr_list_process fuel' rest target (ob_put_elem o elem) matched
          | Some colon =>
              match sr_semi r with
              | Some semi =>
                  if is_nil (drop_while is_wsp (take colon s))
                  then addr_list_process fuel' rest target (ob_put_elem o elem) matched
                  else
                    let '(body, body_matched) :=
                      addr_list_process fuel' (take (semi - (colon + 1)) (drop (colon + 1) s))
                        target [] false in
                    if is_nil body then
                      if body_matched then addr_list_process fuel' rest target o true
                      else addr_list_process fuel' rest target (ob_put_elem o elem) matched
                    else
                      let o := (if is_nil o then [] else o ++ bs ", ") ++ take (colon + 1) s ++
                               [SP] ++ body ++ drop semi elem in
                      addr_list_process fuel' rest target o (matched || body_matched)
              | None => addr_list_process fuel' rest target (ob_put_elem o elem) matched
              end
          end
      end
  end.

(** [addr_list_strip]: [Some list] when it returns 1. *)
Definition addr_list_strip (l target : bytes) : option bytes :=
  let '(o, matched) := addr_list_process (S (length l)) l target [] false in
  if matched then Some o else None.

(** One round of [reply_strip_reverse]; a failed edit leaves the message. *)
Definition strip_one (msg reverse name : bytes) : bytes :=
  match mail_header_get msg name (length msg + 1) with
  | None => msg
  | Some val =>
      match addr_list_strip (c_str val) reverse with
      | None => msg
      | Some stripped =>
          default msg (if is_nil stripped then mail_header_remove msg name
                       else mail_header_set msg name stripped)
      end
  end.

(** [reply_strip_reverse]. *)
Definition reply_strip_reverse (msg reverse : bytes) : Z * bytes :=
  if is_nil reverse then (VISAGE_EPARAM, msg)
  else (VISAGE_OK, strip_one (strip_one msg reverse (bs "To")) reverse (bs "Cc")).

(** ** Lemmas *)

Definition read_ok (r : read_result) : Prop := match r with RData d => bytes_ok d | _ => True end.

Lemma urandom16_spec fd_ok reads b :
  Forall read_ok reads -> urandom16 fd_ok reads = Some b -> length b = 16%nat /\ bytes_ok b.
Proof.
  unfold urandom16. destruct fd_ok; [|done]. intros Hr.
  assert (H : forall got, (length got <= 16)%nat -> bytes_ok got -> urandom16_loop reads got = Some b ->
            length b = 16%nat /\ bytes_ok b); [|apply H; [simpl; lia|constructor]].
  induction Hr as [|r reads Hr _ IH]; intros got Hl Hg; cbn [urandom16_loop];
    destruct (Nat.leb_spec 16 (length got)); try (intros [= <-]; split; [lia|done]); try done.
  destruct r; try done; [by apply IH|]. apply IH.
  - rewrite length_app, length_take. lia.
  - apply Forall_app. split; [done|]. by apply Forall_take.
Qed.

(** The value of a hex digit, and the bytes a hex string denotes. *)
Definition unhexdig (c : Z) : Z := if c <=? "9"%chr then c - "0"%chr else c - "a"%chr + 10.

Fixpoint unhex (s : bytes) : bytes :=
  match s with
  | h :: l :: t => (unhexdig h * 16 + unhexdig l) :: unhex t
  | _ => []
  end.

Definition is_lower_hex (c : Z) : bool := is_digit c || (("a"%chr <=? c) && (c <=? "f"%chr)).

Lemma byte_hex x :
  is_byte x = true ->
  let h := hexdig (Z.shiftr x 4) in let l := hexdig (Z.land x 15) in
  is_lower_hex h = true /\ is_lower_hex l = true /\ unhexdig h * 16 + unhexdig l = x.
Proof.
  intros Hx. cbv zeta.
  pose proof (forallb_forall (fun x => is_lower_hex (hexdig (Z.shiftr x 4)) && is_lower_hex (hexdig (Z.land x 15)) &&
    (unhexdig (hexdig (Z.shiftr x 4)) * 16 + unhexdig (hexdig (Z.land x 15)) =? x)) (map Z.of_nat (seq 0 256))) as H.
  destruct H as [H _]. specialize (H ltac:(by vm_compute) x).
  rewrite !andb_true_iff, Z.eqb_eq in H. apply and_assoc. apply H, List.in_map_iff. exists (Z.to_nat x).
  unfold is_byte in Hx. split; [lia|]. apply List.in_seq. lia.
Qed.

Definition hex_of (b : bytes) : bytes :=
  concat (map (fun x => [hexdig (Z.shiftr x 4); hexdig (Z.land x 15)]) b).

Lemma hex_of_spec b :
  bytes_ok b -> length (hex_of b) = (2 * length b)%nat /\
  Forall (fun c => is_lower_hex c = true) (hex_of b) /\ unhex (hex_of b) = b.
Proof.
  unfold hex_of. induction 1 as [|x b Hx _ (IH1 & IH2 & IH3)]; [done|].
  destruct (byte_hex x Hx) as (H1 & H2 & H3). simpl. rewrite IH1, H3.
  split; [lia|]. split; [by repeat constructor|]. by f_equal.
Qed.

(** Reply tokens. Whatever the reads return (interrupted, short, failed), a
    token is produced only from 16 bytes actually read, and failure is reported
    instead of a weaker token; a token is 32 lowercase hex digits, is never all
    '0', has no '@' and no NUL, and, the all-zero draw apart, determines the 16
    bytes, so distinct draws give distinct tokens. *)
Theorem reply_token_gen_correct (fd_ok : bool) (reads : list read_result) (outsz : nat)
  (Hreads : Forall read_ok reads) :
  match reply_token_gen fd_ok reads outsz with
  | (rc, Some tok) =>
      rc = VISAGE_OK /\ (length tok < outsz)%nat /\ length tok = 32%nat /\
      Forall (fun c => is_lower_hex c = true) tok /\ tok <> repeat "0"%chr 32 /\
      exists b, urandom16 fd_ok reads = Some b /\ length b = 16%nat /\
        (b <> repeat 0 16 -> unhex tok = b)
  | (rc, None) => rc <> VISAGE_OK /\ ((outsz < 33)%nat \/ urandom16 fd_ok reads = None)
  end.
Proof.
  unfold reply_token_gen. destruct (Nat.ltb_spec outsz 33); [auto|].
  destruct (urandom16 fd_ok reads) as [b|] eqn:Eb; [|auto].
  destruct (urandom16_spec fd_ok reads b Hreads Eb) as [Hl Hb].
  set (b' := if existsb (fun x => negb (x =? 0)) b then b else 1 :: drop 1 b).
  assert (Hb' : bytes_ok b' /\ length b' = 16%nat /\ b' <> repeat 0 16 /\ (b <> repeat 0 16 -> b' = b)).
  { unfold b'. destruct (existsb _ b) eqn:Ex.
    - split; [done|]. split; [done|]. split; [|done]. intros ->. done.
    - assert (Hz : b = repeat 0 16).
      { rewrite <- Hl. clear -Ex. induction b as [|x b IH]; [done|]. simpl in *.
        apply orb_false_iff in Ex as [Hx Hr]. destruct (Z.eqb_spec x 0) as [->|]; [|done]. f_equal. auto. }
      rewrite Hz. by repeat constructor. }
  destruct Hb' as (H1 & H2 & H3 & H4). destruct (hex_of_spec b' H1) as (G1 & G2 & G3).
  fold (hex_of b'). rewrite H2 in G1.
  split; [done|]. split; [lia|]. split; [done|]. split; [done|]. split.
  - intros E. apply H3. rewrite <- G3, E. done.
  - exists b. split; [done|]. split; [done|]. intros Hne. by rewrite G3, H4.
Qed.

Lemma reply_token_gen_correct_witness :
  reply_token_gen true [REintr; RData (repeat 0 10); RData (repeat 0 10)] 33
    = (VISAGE_OK, Some (bs "01000000000000000000000000000000")) /\
  bs "01000000000000000000000000000000" <> repeat "0"%chr 32.
Proof.
  split; [reflexivity|].
  refine (proj1 (proj2 (proj2 (proj2 (proj2
    (reply_token_gen_correct true [REintr; RData (repeat 0 10); RData (repeat 0 10)] 33 _)))))).
  by repeat constructor.
Defined.

(** ** The reverse address *)

Lemma token_extract_make cfg token al outsz rev :
  "@"%chr ∉ token -> reply_make_reverse cfg token al outsz = (VISAGE_OK, Some rev) ->
  reply_token_extract cfg rev = Some token /\ (length rev < outsz)%nat.
Proof.
  intros Ht. unfold reply_make_reverse, reply_token_extract. destruct token as [|c token]; [done|].
  cbn [is_nil]. destruct (cut "@"%chr al) as [[l dom]|]; [|done]. destruct (is_nil l); [done|].
  destruct (is_nil dom) eqn:Hd; [done|]. cbn [orb].
  destruct (Nat.ltb_spec outsz (length (nonnull (rc_prefix cfg)) + length (nonnull (rc_separator cfg)) + length (c :: token) + 1 + length dom + 1)); [done|].
  intros [= <-]. rewrite strip_prefix_app. cbn [mbind option_bind]. rewrite strip_prefix_app. cbn [mbind option_bind].
  change (c :: token ++ "@"%chr :: dom) with ((c :: token) ++ "@"%chr :: dom).
  rewrite cut_app by done. cbn [is_nil orb]. rewrite Hd. split; [done|].
  rewrite !length_app. simpl in *. rewrite ?length_app. simpl. lia.
Qed.

(** C34: A reply finds its way back. For any prefix and separator, a token without
    '@' and an alias address with both parts, when the buffer has room the
    reverse address is built; after the token is recorded, routing an inbound
    message for that address returns the recorded sender and alias while the
    token is younger than the TTL, and "not a reply" afterwards. *)
Theorem reply_route_roundtrip {E : DlEngine} {L : DlLaws E} {Hh : DlHealthy E} (s : Store)
  (cfg : ReplyConfig) (token sn al l dom : bytes) (ts now : Z) (outsz : nat)
  (Hwf : store_wf (db s)) (Hts : is_u32 ts)
  (Htok : token <> [] /\ "@"%chr ∉ token) (Hsn : sn <> [])
  (Hal : cut "@"%chr al = Some (l, dom)) (Hparts : l <> [] /\ dom <> [])
  (Hroom : (length (nonnull (rc_prefix cfg)) + length (nonnull (rc_separator cfg)) +
            length token + length dom + 2 <= outsz)%nat)
  (Hfresh : forall sn' al' ts', ~ revmap_fact (db s) token sn' al' ts') :
  exists rev s1 s2,
    reply_make_reverse cfg token al outsz = (VISAGE_OK, Some rev) /\
    store_revmap_add_at s token sn al ts = (s1, VISAGE_OK) /\
    reply_route_inbound s1 now cfg rev =
      (if u32 (u32 now - ts) <? REVMAP_TTL_SEC then (s2, 1, Some (sn, al)) else (s2, 0, None)).
Proof.
  destruct Htok as [Ht Hat], Hparts as [Hl Hd].
  assert (Hmk : exists rev, reply_make_reverse cfg token al outsz = (VISAGE_OK, Some rev)).
  { unfold reply_make_reverse. destruct token as [|c token]; [done|]. cbn [is_nil]. rewrite Hal.
    destruct l; [done|]. destruct dom; [done|]. cbn [is_nil orb].
    destruct (Nat.ltb_spec outsz (length (nonnull (rc_prefix cfg)) + length (nonnull (rc_separator cfg)) + length (c :: token) + 1 + length (z0 :: dom) + 1)); [lia|].
    eauto. }
  destruct Hmk as [rev Hmk]. destruct (token_extract_make _ _ _ _ _ Hat Hmk) as [Hex _].
  destruct (revmap_roundtrip s token sn al ts now Hwf Hts) as (s1 & s2 & H1 & H2 & _).
  - split; [by destruct token|]. split; [by destruct sn|]. destruct al; [done|]. done.
  - done.
  - exists rev, s1, s2. split; [done|]. split; [done|]. unfold reply_route_inbound. rewrite Hex, H2.
    change (VISAGE_OK =? VISAGE_OK) with true. cbn [negb]. by destruct (_ <? _).
Qed.

Lemma reply_route_roundtrip_witness :
  exists rev s1 s2,
    reply_make_reverse {| rc_prefix := Some (bs "reply"); rc_separator := Some (bs "+") |} (bs "00ff") (bs "me@x.org") 64
      = (VISAGE_OK, Some rev) /\
    store_revmap_add_at mem1 (bs "00ff") (bs "s@z") (bs "me@x.org") 5000 = (s1, VISAGE_OK) /\
    reply_route_inbound s1 6000 {| rc_prefix := Some (bs "reply"); rc_separator := Some (bs "+") |} rev
      = (s2, 1, Some (bs "s@z", bs "me@x.org")).
Proof.
  apply (reply_route_roundtrip mem1 {| rc_prefix := Some (bs "reply"); rc_separator := Some (bs "+") |}
    (bs "00ff") (bs "s@z") (bs "me@x.org") (bs "me") (bs "x.org") 5000 6000 64 mem1_wf); try done.
  - split; [done|]. set_solver.
  - vm_compute. lia.
  - intros sn al ts (i & j & k & Hi & _ & _ & Hf).
    vm_compute in Hf. apply elem_of_cons in Hf as [[= -> -> -> ->]|Hf]; [done|by apply elem_of_nil in Hf].
Defined.

(** ** Address lists *)

(** The flags at the end of [e], when nothing structural lies outside quotes,
    comments, angle brackets and domain literals. *)
Fixpoint elem_scan (e : bytes) (m : mode) : option mode :=
  match e with
  | [] => Some m
  | ch :: t =>
      match m with
      | MQuote =>
          if ch =? BACKSLASH then match t with _ :: t' => elem_scan t' MQuote | [] => None end
          else elem_scan t (if ch =? DQUOTE then MOut else MQuote)
      | MComment => elem_scan t (if ch =? ")"%chr then MOut else MComment)
      | MAngle => elem_scan t (if ch =? ">"%chr then MOut else MAngle)
      | MLiteral => elem_scan t (if ch =? "]"%chr then MOut else MLiteral)
      | MOut =>
          if ch =? DQUOTE then elem_scan t MQuote
          else if ch =? "("%chr then elem_scan t MComment
          else if ch =? "<"%chr then elem_scan t MAngle
          else if ch =? "["%chr then elem_scan t MLiteral
          else if (ch =? ":"%chr) || (ch =? ";"%chr) || (ch =? ","%chr) then None
          else elem_scan t MOut
      end
  end.

(** A mailbox of a list: nonempty, no blanks around it, quotes and brackets
    closed, no separator or group punctuation outside them. *)
Definition mailbox_ok (e : bytes) : Prop :=
  e <> [] /\ trim is_wsp e = e /\ elem_scan e MOut = Some MOut.

Fixpoint join (es : list bytes) : bytes :=
  match es with
  | [] => []
  | [e] => e
  | e :: es' => e ++ bs ", " ++ join es'
  end.

(** Appending a list of survivors to what is already in the output. *)
Definition join_onto (o : bytes) (es : list bytes) : bytes :=
  match es with
  | [] => o
  | _ => if is_nil o then join es else o ++ bs ", " ++ join es
  end.

Lemma scan_elem e m r i :
  elem_scan e m = Some MOut ->
  scan_loop (e ++ r) i m 0 None = scan_loop r (i + length e) MOut 0 None.
Proof.
  revert m i. induction e as [e IH] using bytes_len_ind. intros m i H.
  destruct e as [|ch t]; cbn [elem_scan] in H; [injection H as ->; by rewrite Nat.add_0_r|].
  assert (Hs : forall m', elem_scan t m' = Some MOut ->
            scan_loop (t ++ r) (i + 1) m' 0 None = scan_loop r (i + length (ch :: t)) MOut 0 None).
  { intros m' Hm. rewrite (IH t) by (done || simpl; lia). f_equal. simpl. lia. }
  cbn [app scan_loop]. destruct m; try (by apply Hs).
  - repeat (match type of H with (if ?b then _ else _) = _ => destruct b eqn:?; [by apply Hs|] end).
    destruct (ch =? ":"%chr); [done|]. destruct (ch =? ";"%chr); [done|].
    destruct (ch =? ","%chr); [done|]. by apply Hs.
  - destruct (ch =? BACKSLASH); [|by apply Hs]. destruct t as [|x t']; [done|]. cbn [app].
    rewrite (IH t') by (done || simpl; lia). f_equal. simpl. lia.
Qed.

Lemma elem_head e : mailbox_ok e -> exists c t, e = c :: t /\ list_sep c = false.
Proof.
  intros (Hne & Ht & Hs). destruct e as [|c t]; [done|]. exists c, t. split; [done|].
  unfold list_sep. destruct (Z.eqb_spec c ","%chr) as [->|]; [done|]. cbn [orb].
  destruct (is_wsp c) eqn:Hw; [|done]. exfalso. unfold trim in Ht. cbn [drop_while] in Ht. rewrite Hw in Ht.
  assert (Hl : (length (trim_end is_wsp (drop_while is_wsp t)) <= length t)%nat).
  { assert (Hd : forall l, (length (drop_while is_wsp l) <= length l)%nat).
    { induction l as [|x l IH]; simpl; [lia|]. destruct (is_wsp x); simpl; lia. }
    unfold trim_end. rewrite length_reverse. etransitivity; [apply Hd|]. rewrite length_reverse. apply Hd. }
  rewrite Ht in Hl. simpl in Hl. lia.
Qed.

(** One mailbox of the list. *)
Lemma process_mailbox fuel e r target o matched :
  mailbox_ok e -> (r = [] \/ exists r', r = ","%chr :: r') ->
  addr_list_process (S fuel) (e ++ r) target o matched =
  if mailbox_matches e target then addr_list_process fuel r target o true
  else addr_list_process fuel r target (join_onto o [e]) matched.
Proof.
  intros He Hr. pose proof He as (Hne & Ht & Hs).
  assert (Hscan : scan_address (e ++ r) = {| sr_colon := None; sr_semi := None; sr_end := length e |}).
  { unfold scan_address. rewrite scan_elem by done. by destruct Hr as [->|[r' ->]]. }
  assert (Ho : ob_put_elem o e = join_onto o [e]).
  { unfold ob_put_elem, join_onto. rewrite Ht. cbn [join]. destruct e; [done|]. cbn [is_nil].
    destruct (is_nil o); [done|]. by rewrite <- app_assoc. }
  destruct (elem_head e He) as (c & t & -> & Hc). cbn [addr_list_process app drop_while]. rewrite Hc.
  change (c :: t ++ r) with ((c :: t) ++ r). rewrite Hscan. cbn [sr_colon sr_semi sr_end].
  by rewrite take_app_length, drop_app_length, Ho.
Qed.

Lemma join_onto_cons o e es :
  e <> [] -> join_onto (join_onto o [e]) es = join_onto o (e :: es).
Proof.
  intros He. unfold join_onto. destruct es as [|e' es]; [done|]. cbn [join].
  destruct o as [|c o]; cbn [is_nil].
  - by destruct e.
  - cbn [app is_nil]. by rewrite <- !app_assoc.
Qed.

Lemma join_length es : Forall mailbox_ok es -> (length es <= length (join es))%nat.
Proof.
  induction 1 as [|e es He _ IH]; [done|]. destruct He as (Hne & _). cbn [join].
  destruct es as [|e' es]; [destruct e; simpl in *; [done|lia]|].
  rewrite !length_app. destruct e; [done|]. simpl in *. lia.
Qed.

Lemma process_join es : Forall mailbox_ok es -> forall fuel target o matched,
  (length es < fuel)%nat ->
  addr_list_process fuel (join es) target o matched
  = (join_onto o (List.filter (fun e => negb (mailbox_matches e target)) es),
     matched || existsb (fun e => mailbox_matches e target) es).
Proof.
  induction 1 as [|e es He Hes IH]; intros [|fuel] target o matched Hf; simpl in Hf; try lia.
  - cbn. by rewrite orb_false_r.
  - assert (Hrest : exists r, join (e :: es) = e ++ r /\ (r = [] \/ exists r', r = ","%chr :: r') /\
              forall o m, addr_list_process fuel r target o m = addr_list_process fuel (join es) target o m).
    { cbn [join]. destruct es as [|e' es]; [exists []; rewrite app_nil_r; auto|].
      exists (bs ", " ++ join (e' :: es)). split; [done|]. split; [by right; eexists|].
      intros o' m'. destruct fuel as [|fuel]; [done|]. cbn [addr_list_process]. done. }
    destruct Hrest as (r & -> & Hr & Hskip). rewrite process_mailbox by done. rewrite !Hskip, !IH by lia.
    cbn [List.filter existsb]. destruct (mailbox_matches e target); cbn [negb orb].
    + by rewrite orb_true_r.
    + by rewrite join_onto_cons by apply He.
Qed.

(** *** Which mailboxes match *)

(** A byte that opens nothing. *)
Definition plain_char (c : Z) : bool := negb ((c =? DQUOTE) || (c =? "("%chr) || (c =? "<"%chr)).

Lemma angle_scan_plain d r i a e :
  Forall (fun c => plain_char c = true) d ->
  angle_scan (d ++ r) i MOut a e = angle_scan r (i + length d) MOut a e.
Proof.
  intros Hd. revert i. induction Hd as [|c d Hc _ IH]; intros i; [by rewrite Nat.add_0_r|].
  cbn [app angle_scan]. unfold plain_char in Hc.
  destruct (c =? DQUOTE); [done|]. destruct (c =? "("%chr); [done|]. destruct (c =? "<"%chr); [done|].
  rewrite IH. f_equal. simpl. lia.
Qed.

Lemma angle_scan_close b r i a e :
  ">"%chr ∉ b ->
  angle_scan (b ++ ">"%chr :: r) i MAngle a e = angle_scan r (i + length b + 1) MOut a (Some (i + length b)%nat).
Proof.
  revert i. induction b as [|c b IH]; intros i Hb; cbn [app angle_scan].
  - change (">"%chr =? ">"%chr) with true. cbv iota. by rewrite Nat.add_0_r.
  - apply not_elem_of_cons in Hb as [Hc Hb]. destruct (Z.eqb_spec c ">"%chr); [congruence|].
    rewrite IH by done. f_equal; [|f_equal]; simpl; lia.
Qed.

Lemma matches_bare a target :
  Forall (fun c => plain_char c = true) a -> Forall (fun c => is_wsp c = false) a ->
  mailbox_matches a target = ieq a target.
Proof.
  intros Hp Hw. unfold mailbox_matches.
  pose proof (angle_scan_plain a [] 0 0 None Hp) as Hs. rewrite app_nil_r in Hs. rewrite Hs. cbn [angle_scan].
  assert (Hte : trim_end is_wsp a = a).
  { unfold trim_end. assert (Hd : forall l, Forall (fun c => is_wsp c = false) l -> drop_while is_wsp l = l).
    { intros l Hl. destruct Hl as [|c l Hc]; [done|]. cbn. by rewrite Hc. }
    rewrite Hd by (by apply Forall_reverse). apply reverse_involutive. }
  rewrite Hte. unfold last_token.
  assert (Htw : forall l, Forall (fun c => is_wsp c = false) l -> take_while (fun c => negb (is_wsp c)) l = l).
  { induction 1 as [|c l Hc _ IH]; [done|]. cbn. rewrite Hc. cbn. by rewrite IH. }
  rewrite Htw by (by apply Forall_reverse). by rewrite reverse_involutive.
Qed.

Lemma matches_angle disp a target :
  Forall (fun c => plain_char c = true) disp -> ">"%chr ∉ a ->
  mailbox_matches (disp ++ "<"%chr :: a ++ [">"%chr]) target = ieq (trim is_wsp a) target.
Proof.
  intros Hd Ha. unfold mailbox_matches. rewrite angle_scan_plain by done. cbn [angle_scan].
  change ("<"%chr =? DQUOTE) with false. change ("<"%chr =? "("%chr) with false.
  change ("<"%chr =? "<"%chr) with true. cbv iota. rewrite angle_scan_close by done. cbn [angle_scan].
  destruct (Nat.ltb_spec (0 + length disp + 1 + length a) (0 + length disp + 1)); [lia|].
  replace (0 + length disp + 1 + length a - (0 + length disp + 1))%nat with (length a) by lia.
  replace (0 + length disp + 1)%nat with (length disp + 1)%nat by lia.
  rewrite drop_app, (drop_ge disp) by lia.
  replace (length disp + 1 - length disp)%nat with 1%nat by lia. cbn [drop app].
  by rewrite drop_0, take_app_length.
Qed.

(** *** Stripping a header *)

Lemma value_ok_app a b : value_ok (a ++ b) <-> value_ok a /\ value_ok b.
Proof. unfold value_ok. rewrite !has_false. set_solver. Qed.

Lemma value_ok_join es : value_ok (join es) <-> Forall value_ok es.
Proof.
  induction es as [|e es IH]; [done|]. rewrite Forall_cons, <- IH. cbn [join].
  destruct es as [|e' es]; [by split; [intros|intros []]|]. rewrite !value_ok_app.
  split; [naive_solver|]. intros [? ?]. done.
Qed.

Lemma process_join_strip es target :
  Forall mailbox_ok es ->
  addr_list_strip (join es) target =
  if existsb (fun e => mailbox_matches e target) es
  then Some (join (List.filter (fun e => negb (mailbox_matches e target)) es)) else None.
Proof.
  intros Hes. unfold addr_list_strip. pose proof (join_length es Hes).
  rewrite process_join by (done || lia). cbn [orb]. destruct (existsb _ es); [|done]. f_equal.
  unfold join_onto. by destruct (List.filter _ es).
Qed.

(** The reverse address does not leak. For a normalised message whose To (or
    Cc) value is a list of well-formed mailboxes, [reply_strip_reverse]'s step
    keeps every other field and the body, and leaves in that header exactly the
    mailboxes whose address is not the reverse address, in order; with none left
    the header is removed, and with none to strip the message is unchanged. A
    bare address matches exactly when it equals the reverse address ignoring
    case, and an address in angle brackets when its trimmed text does. *)
Theorem strip_one_correct (msg reverse name : bytes) (es : list bytes)
  (Hmsg : crlf_ok msg = true) (Hname : name_ok name)
  (Hval : mail_header_get msg name (length msg + 1) = Some (join es))
  (Hes : Forall mailbox_ok es) (Hclean : value_ok (join es) /\ NUL ∉ join es) :
  let survivors := List.filter (fun e => negb (mailbox_matches e reverse)) es in
  strip_one msg reverse name =
    (if existsb (fun e => mailbox_matches e reverse) es
     then flatten (match survivors with
                   | [] => without name (fields msg)
                   | _ => set_first name (join survivors) (fields msg)
                   end) (body msg)
     else msg) /\
  (forall a, Forall (fun c => plain_char c = true) a -> Forall (fun c => is_wsp c = false) a ->
     mailbox_matches a reverse = ieq a reverse) /\
  (forall disp a, Forall (fun c => plain_char c = true) disp -> ">"%chr ∉ a ->
     mailbox_matches (disp ++ "<"%chr :: a ++ [">"%chr]) reverse = ieq (trim is_wsp a) reverse).
Proof.
  cbv zeta. split; [|split; [intros; by apply matches_bare|intros; by apply matches_angle]].
  destruct Hclean as [Hv Hnul]. unfold strip_one. rewrite Hval.
  assert (Hc : c_str (join es) = join es).
  { unfold c_str. rewrite <- (app_nil_r (join es)) at 1. rewrite take_while_app_all; [by cbn; rewrite app_nil_r|].
    apply Forall_forall. intros c Hin. destruct (Z.eqb_spec c 0) as [->|]; [done|done]. }
  rewrite Hc, process_join_strip by done. destruct (existsb _ es); [|done].
  pose proof (chain_parse _ Hmsg) as Hch.
  set (surv := List.filter (fun e => negb (mailbox_matches e reverse)) es).
  assert (Hsv : Forall value_ok surv /\ Forall mailbox_ok surv).
  { apply value_ok_join in Hv. rewrite !Forall_forall in *. split; intros e [He _]%filter_In; auto. }
  destruct surv as [|e surv'] eqn:Es.
  - cbn [join is_nil]. rewrite <- (parse_flatten msg) at 2. rewrite remove_chain by (apply Hname || done). done.
  - assert (is_nil (join (e :: surv')) = false) as ->.
    { destruct Hsv as [_ Hm]. inversion_clear Hm as [|? ? [Hne _] _]. cbn [join].
      destruct surv'; [by destruct e|]. by destruct e. }
    destruct (set_chain name (join (e :: surv')) _ _ Hname (proj2 (value_ok_join _) (proj1 Hsv)) Hch) as [Hset _].
    rewrite parse_flatten in Hset. by rewrite Hset.
Qed.

Lemma strip_one_correct_witness :
  let msg := bs "To: Bob <r+1@x>, ann@y" ++ CRLF ++ bs "Subject: s" ++ CRLF ++ CRLF ++ bs "hi" in
  strip_one msg (bs "R+1@x") (bs "To") = bs "To: ann@y" ++ CRLF ++ bs "Subject: s" ++ CRLF ++ CRLF ++ bs "hi".
Proof.
  intros msg.
  refine (eq_trans (proj1 (strip_one_correct msg (bs "R+1@x") (bs "To") [bs "Bob <r+1@x>"; bs "ann@y"] _ _ _ _ _)) _).
  - reflexivity.
  - name_ok.
  - reflexivity.
  - by repeat constructor.
  - split; [by split|]. set_solver.
  - reflexivity.
Defined.

(** A bare address followed by a comment is not recognised: the last
    blank-delimited token is the comment. *)
Lemma comment_hides_reverse :
  addr_list_strip (bs "reply+00ff@x.org (Me)") (bs "reply+00ff@x.org") = None.
Proof. reflexivity. Qed.
