(* ===== verification/Config.v ===== *)
(** * The configuration record (src/src/config.h) and its pure readers

    The fields of [Config] the mail path reads, with [config_dkim_find] and
    [config_alias_read_only] (src/src/config.c), and the relay choice and the
    backoff cadence of src/src/smtp_out.c. Strings the loader may leave NULL are
    options. The Dhall loader itself is not modelled. *)

From S2P Require Import Prelude MailLines MailHeader DlEngine Store StoreSpec StoreTables Reply.

Record ConfigListen := { cl_port : Z; cl_proxy_from : list bytes }.

Record ConfigLimits := {
  lim_message : Z; lim_line : Z; lim_rcpts : Z; lim_cmd_timeout : Z; lim_data_timeout : Z }.

Record ConfigRelay := {
  rl_host : option bytes; rl_port : Z;
  rl_auth_enabled : bool; rl_username : option bytes; rl_password : option bytes;
  rl_retries : Z; rl_tls : option bytes; rl_max_attempts : Z; rl_tls_ca : option bytes }.

Record ConfigStorage := { sg_path : bytes; sg_spool : bytes; sg_retention_days : Z }.

Record ConfigAlias := { ca_alias : option bytes; ca_destinations : list bytes }.

Record ConfigDkim := { dk_domain : option bytes; dk_selector : bytes; dk_private_key : bytes }.

Record Config := {
  hostname : option bytes;
  domains : list (option bytes);
  listen : ConfigListen;
  limits : ConfigLimits;
  relay : ConfigRelay;
  reply_relay : ConfigRelay;
  storage : ConfigStorage;
  reply : ReplyConfig;
  catch_all : option bytes;
  aliases : list ConfigAlias;
  dkim : list ConfigDkim }.

(** [strcasecmp(a, b) == 0] against a possibly NULL field. *)
Definition field_ieq (a : option bytes) (b : bytes) : bool :=
  match a with Some x => ieq x b | None => false end.

Fixpoint config_dkim_find (dk : list ConfigDkim) (domain : bytes) : option ConfigDkim :=
  match dk with
  | [] => None
  | d :: dk' => if field_ieq (dk_domain d) domain then Some d else config_dkim_find dk' domain
  end.

Fixpoint config_alias_read_only (als : list ConfigAlias) (alias : bytes) : bool :=
  match als with
  | [] => false
  | a :: als' => if field_ieq (ca_alias a) alias then true else config_alias_read_only als' alias
  end.

Definition smtp_relay_for (cfg : Config) (is_reply : bool) : ConfigRelay :=
  if is_reply then reply_relay cfg else relay cfg.

(** [smtp_backoff_sec] on u32: the subtraction wraps at attempt 0. *)
Definition smtp_backoff_sec (attempt : Z) : Z :=
  let exp := u32 (attempt - 1) in
  if exp >=? 12 then 3600 else Z.shiftl 1 exp.

(** [s && s[0]]. *)
Definition nonempty (s : option bytes) : option bytes :=
  match s with Some (c :: t) => Some (c :: t) | _ => None end.

(** The name the server announces. *)
Definition host_name (cfg : Config) : bytes := default (bs "localhost") (nonempty (hostname cfg)).

(** ** Lemmas *)

Lemma backoff_range a : 1 <= smtp_backoff_sec a <= 3600.
Proof.
  unfold smtp_backoff_sec. pose proof (u32_range (a - 1)). destruct (Z.geb_spec (u32 (a - 1)) 12); [lia|].
  rewrite Z.shiftl_1_l. split.
  - pose proof (Z.pow_pos_nonneg 2 (u32 (a - 1))). lia.
  - transitivity (2 ^ 11); [|lia]. apply Z.pow_le_mono_r; lia.
Qed.

(** The cadence doubles up to its cap. *)
Lemma backoff_step a : 1 <= a < UINT32_MAX ->
  smtp_backoff_sec (a + 1) = Z.min (if a <? 12 then 2 * smtp_backoff_sec a else 3600) 3600.
Proof.
  intros Ha. unfold smtp_backoff_sec. rewrite !u32_small by (unfold UINT32_MAX in *; lia).
  replace (a + 1 - 1) with (Z.succ (a - 1)) by lia.
  destruct (Z.geb_spec (a - 1) 12), (Z.geb_spec (Z.succ (a - 1)) 12), (Z.ltb_spec a 12); try lia.
  rewrite !Z.shiftl_1_l, Z.pow_succ_r by lia.
  assert (2 ^ (a - 1) <= 2 ^ 10) by (apply Z.pow_le_mono_r; lia). lia.
Qed.
