(* ===== verification/Prog.v ===== *)
(** * Programs with state that may not end

    [prog S A] is a computation on a state [S]: it ends with a value, or ([None])
    it is still running when its fuel is used up, in which case the state is the
    one it has reached. [wp m Q s] says that the run of [m] from [s] satisfies [Q],
    a predicate on the state it reaches and the value, if any. The SMTP client and
    the outbox sessions are written in it. *)

From S2P Require Import Prelude.

Definition prog (S A : Type) : Type := S -> S * option A.

#[export] Instance prog_ret S : MRet (prog S) := fun A a s => (s, Some a).
#[export] Instance prog_bind S : MBind (prog S) := fun A B f m s =>
  match m s with (s', Some a) => f a s' | (s', None) => (s', None) end.

(** Still running. *)
Definition running {S A} : prog S A := fun s => (s, None).

Definition gets {S A} (f : S -> A) : prog S A := fun s => (s, Some (f s)).
Definition modify {S} (f : S -> S) : prog S unit := fun s => (f s, Some tt).

Definition wp {S A} (m : prog S A) (Q : S -> option A -> Prop) (s : S) : Prop := Q (m s).1 (m s).2.

Section Rules.
Context {S : Type}.

Lemma wp_ret {A} (a : A) Q (s : S) : Q s (Some a) -> wp (mret a) Q s.
Proof. done. Qed.

Lemma wp_running {A} Q (s : S) : Q s None -> wp (@running S A) Q s.
Proof. done. Qed.

Lemma wp_bind {A B} (m : prog S A) (f : A -> prog S B) Q s :
  wp m (fun s' o => match o with Some a => wp (f a) Q s' | None => Q s' None end) s ->
  wp (m ≫= f) Q s.
Proof. unfold wp, mbind, prog_bind. by destruct (m s) as [s' [a|]]. Qed.

Lemma wp_gets {A} (f : S -> A) Q s : Q s (Some (f s)) -> wp (gets f) Q s.
Proof. done. Qed.

Lemma wp_modify (f : S -> S) Q s : Q (f s) (Some tt) -> wp (modify f) Q s.
Proof. done. Qed.

Lemma wp_mono {A} (m : prog S A) (P Q : S -> option A -> Prop) s :
  wp m P s -> (forall s' o, P s' o -> Q s' o) -> wp m Q s.
Proof. unfold wp. auto. Qed.

Lemma wp_and {A} (m : prog S A) (P Q : S -> option A -> Prop) s :
  wp m P s -> wp m Q s -> wp m (fun s' o => P s' o /\ Q s' o) s.
Proof. done. Qed.

Lemma wp_use {A} (m : prog S A) (Q : S -> option A -> Prop) s s' o :
  wp m Q s -> m s = (s', o) -> Q s' o.
Proof. unfold wp. intros H Hm. by rewrite Hm in H. Qed.

End Rules.

(** One step of a [wp] goal along the monad. *)
Ltac wp_step :=
  match goal with
  | |- wp (mret _) _ _ => apply wp_ret
  | |- wp running _ _ => apply wp_running
  | |- wp (_ ≫= _) _ _ => apply wp_bind
  | |- wp (gets _) _ _ => apply wp_gets
  | |- wp (modify _) _ _ => apply wp_modify
  end; cbn beta match.

Ltac wp_steps := repeat wp_step.
