(* ===== verification/SmtpReply.v ===== *)
(** * SMTP replies and small codecs (src/src/smtp_out.c, src/src/smtp.h)

    The status vocabulary, reply codes and their classes, the search for a
    capability in an EHLO reply, the base64 encoder of AUTH PLAIN, and the address
    commands. A reply line or a C string is the list of its bytes; a buffer of
    [sz] bytes that [snprintf] fills keeps [sz - 1] of them. *)

From S2P Require Import Prelude.

Definition SMTP_MAX_LINE : nat := 1000.
Definition SMTP_MAX_REPLY : nat := 16384.
Definition SMTP_MAX_CRED_LEN : nat := 4096.
Definition SMTP_DEFAULT_TIMEOUT : Z := 60.
Definition SMTP_WRITE_CHUNK : nat := 65536.

Definition SMTP_OK : Z := 0.
Definition SMTP_TEMPFAIL : Z := 1.
Definition SMTP_PERMFAIL : Z := 2.
Definition SMTP_ERROR : Z := 3.

Definition smtp_status_str (status : Z) : bytes :=
  if status =? SMTP_OK then bs "ok"
  else if status =? SMTP_TEMPFAIL then bs "tempfail"
  else if status =? SMTP_PERMFAIL then bs "permfail"
  else if status =? SMTP_ERROR then bs "error"
  else bs "unknown".

(** The byte at an offset, NUL past the end (where the C string ends). *)
Definition at0 (s : bytes) (i : nat) : Z := default 0 (s !! i).

(** [smtp_reply_code]; [Some code] when it returns 0. *)
Definition smtp_reply_code (line : bytes) : option Z :=
  if negb (is_digit (at0 line 0)) then None
  else if negb (is_digit (at0 line 1)) then None
  else if negb (is_digit (at0 line 2)) then None
  else Some ((at0 line 0 - "0"%chr) * 100 + (at0 line 1 - "0"%chr) * 10 + (at0 line 2 - "0"%chr)).

Definition smtp_class (code : Z) : Z :=
  if (code >=? 200) && (code <? 400) then SMTP_OK
  else if (code >=? 400) && (code <? 500) then SMTP_TEMPFAIL
  else if (code >=? 500) && (code <? 600) then SMTP_PERMFAIL
  else SMTP_ERROR.

Definition smtp_auth_class (code : Z) : Z :=
  if code =? 235 then SMTP_OK
  else if (code >=? 400) && (code <? 500) then SMTP_TEMPFAIL
  else if (code >=? 500) && (code <? 600) then SMTP_PERMFAIL
  else SMTP_ERROR.

(** [timeout_ms]: seconds to the timeout of [poll], -1 for none. *)
Definition timeout_ms (seconds : Z) : Z :=
  if seconds =? 0 then -1
  else
    let ms := u64 (seconds * 1000) in
    if ms >? 2147483647 then 2147483647 else ms.

Definition smtp_tls_valid (tls : option bytes) : Z :=
  match tls with
  | None => -1
  | Some t =>
      if beq t (bs "none") then 0
      else if beq t (bs "starttls") then 0
      else if beq t (bs "starttls-verify") then 0
      else if beq t (bs "implicit") then 0
      else -1
  end.

Definition has_crlf (s : bytes) : bool := has CR s || has LF s.

(** [snprintf(out, outsz, "%s", msg)] into a buffer that held [out]. *)
Definition set_status (out : bytes) (outsz : nat) (msg : bytes) : bytes :=
  if (outsz =? 0)%nat then out else take (outsz - 1) (c_str msg).

(** ** Base64 *)

Definition b64_tab : bytes := bs "ABCDEFGHIJKLMNOPQRSTUVWXYZabcdefghijklmnopqrstuvwxyz0123456789+/".

(** [b64_tab[(v >> sh) & 0x3f]]. *)
Definition b64_digit (v sh : Z) : Z := at0 b64_tab (Z.to_nat (Z.land (Z.shiftr v sh) 63)).

Fixpoint b64_encode_loop (p : bytes) : bytes :=
  match p with
  | a :: b :: c :: t =>
      let v := Z.lor (Z.lor (Z.shiftl a 16) (Z.shiftl b 8)) c in
      b64_digit v 18 :: b64_digit v 12 :: b64_digit v 6 :: b64_digit v 0 :: b64_encode_loop t
  | [a; b] =>
      let v := Z.lor (Z.shiftl a 16) (Z.shiftl b 8) in
      [b64_digit v 18; b64_digit v 12; b64_digit v 6; "="%chr]
  | [a] => let v := Z.shiftl a 16 in [b64_digit v 18; b64_digit v 12; "="%chr; "="%chr]
  | [] => []
  end.

(** [smtp_b64_encode]: the encoded text when it returns 0. *)
Definition smtp_b64_encode (inp : bytes) (outsz : Z) : option bytes :=
  if len inp >? SIZE_MAX / 2 then None
  else
    let req := (len inp + 2) / 3 * 4 + 1 in
    if outsz <? req then None else Some (b64_encode_loop inp).

(** ** Capabilities *)

Definition is_blank (c : Z) : bool := (c =? SP) || (c =? TAB) || (c =? CR).

(** The tokens of the text between [p] and [line_end]; each round drops at least
    one byte, so its length is enough fuel. *)
Fixpoint cap_tokens (fuel : nat) (s cap : bytes) : bool :=
  match fuel, s with
  | O, _ | _, [] => false
  | S fuel', _ =>
      let s := drop_while is_blank s in
      let tok := take_while (fun c => negb (is_blank c)) s in
      let rest := drop_while (fun c => negb (is_blank c)) s in
      if negb (length tok =? length cap)%nat then cap_tokens fuel' rest cap
      else if ieq tok cap then true
      else cap_tokens fuel' rest cap
  end.

(** One line, without its LF. *)
Definition cap_line (line cap : bytes) : bool :=
  if (length line <? 4)%nat then false
  else if negb (is_digit (at0 line 0) && is_digit (at0 line 1) && is_digit (at0 line 2)) then false
  else if negb (at0 line 3 =? SP) && negb (at0 line 3 =? "-"%chr) then false
  else cap_tokens (length (drop 4 line)) (drop 4 line) cap.

(** The lines of a reply; each consumes a byte. *)
Fixpoint cap_lines (fuel : nat) (s cap : bytes) : bool :=
  match fuel, s with
  | O, _ | _, [] => false
  | S fuel', _ =>
      let line := take_while (fun c => negb (c =? LF)) s in
      let rest := drop_while (fun c => negb (c =? LF)) s in
      if cap_line line cap then true else cap_lines fuel' (drop 1 rest) cap
  end.

Definition smtp_reply_has_cap (reply cap : bytes) : bool :=
  if (length cap =? 0)%nat then false else cap_lines (length reply) reply cap.

(** [reply_first_text]. *)
Definition reply_first_text (reply out : bytes) (outsz : nat) : bytes :=
  if (outsz =? 0)%nat then out
  else if (length reply <? 4)%nat then []
  else take (outsz - 1) (drop 4 (take_while (fun c => negb ((c =? LF) || (c =? CR))) reply)).

(** ** Commands *)

(** [build_addr_cmd]: [None] when the command does not fit. *)
Definition build_addr_cmd (bufsz : nat) (verb addr : bytes) : option bytes :=
  let s := verb ++ "<"%chr :: addr ++ ">"%chr :: CRLF in
  if (bufsz <=? length s)%nat then None else Some s.

(** ** What a capability search means

    The reference reads the reply as lines and the text of a line as words. *)

(** The maximal runs of bytes that are not separators, [w] being read before [s]. *)
Fixpoint runs (sep : Z -> bool) (w s : bytes) : list bytes :=
  match s with
  | [] => match w with [] => [] | _ => [w] end
  | c :: t =>
      if sep c then match w with [] => runs sep [] t | _ => w :: runs sep [] t end
      else runs sep (w ++ [c]) t
  end.

Definition words (s : bytes) : list bytes := runs is_blank [] s.
Definition lines (s : bytes) : list bytes := runs (Z.eqb LF) [] s.

(** A reply line: three digits and a separator. *)
Definition reply_prefix (line : bytes) : bool :=
  match line with
  | a :: b :: c :: d :: _ => is_digit a && is_digit b && is_digit c && ((d =? SP) || (d =? "-"%chr))
  | _ => false
  end.

Lemma runs_word sep w tok r : Forall (fun c => sep c = false) tok -> runs sep w (tok ++ r) = runs sep (w ++ tok) r.
Proof.
  intros Ht. revert w. induction Ht as [|c tok Hc _ IH]; intros w; cbn [app runs]; [by rewrite app_nil_r|].
  by rewrite Hc, IH, <- app_assoc.
Qed.

Lemma runs_seps sep a r : Forall (fun c => sep c = true) a -> runs sep [] (a ++ r) = runs sep [] r.
Proof. induction 1 as [|c a Hc _ IH]; cbn [app runs]; [done|]. by rewrite Hc. Qed.

Lemma runs_end sep w r : w <> [] -> (forall c r', r = c :: r' -> sep c = true) -> runs sep w r = w :: runs sep [] r.
Proof.
  intros Hw Hr. destruct r as [|c r]; cbn [runs]; [by destruct w|]. rewrite (Hr c r eq_refl). by destruct w.
Qed.

(** One run, as the loops of the code split it off. *)
Lemma runs_step sep s :
  let s1 := drop_while sep s in
  let tok := take_while (fun c => negb (sep c)) s1 in
  let rest := drop_while (fun c => negb (sep c)) s1 in
  runs sep [] s = match tok with [] => [] | _ => tok :: runs sep [] rest end.
Proof.
  cbv zeta. rewrite <- (take_drop_while sep s) at 1. rewrite runs_seps by apply take_while_all.
  set (s1 := drop_while sep s). rewrite <- (take_drop_while (fun c => negb (sep c)) s1) at 1.
  rewrite runs_word by (eapply Forall_impl; [apply take_while_all|]; cbn; intros c; by destruct (sep c)).
  cbn [app]. set (tok := take_while _ s1). set (rest := drop_while _ s1).
  destruct tok as [|c0 tok0] eqn:Htok.
  - assert (s1 = rest) as Hs1.
    { pose proof (take_drop_while (fun c => negb (sep c)) s1) as H. fold tok rest in H. by rewrite Htok in H. }
    destruct (drop_while_head sep s) as [Hn|(c & r & Hc & Hsep)]; fold s1 in Hs1; [|exfalso].
    + rewrite <- Hs1. subst s1. by rewrite Hn.
    + subst tok. subst s1. rewrite Hc in Htok. cbn in Htok. by rewrite Hsep in Htok.
  - apply runs_end; [done|]. intros d r Hr. subst rest.
    destruct (drop_while_head (fun c => negb (sep c)) s1) as [Hn|(d' & r' & Hd & Hsep)]; [congruence|].
    rewrite Hd in Hr. injection Hr as <- <-. by apply negb_false_iff.
Qed.

Lemma cap_tokens_words fuel s cap : cap <> [] -> (length s <= fuel)%nat ->
  cap_tokens fuel s cap = existsb (fun w => ieq w cap) (words s).
Proof.
  intros Hcap. revert s. induction fuel as [|fuel IH]; intros s Hl; [destruct s; [done|cbn in Hl; lia]|].
  destruct s as [|x s0]; [done|]. set (s := x :: s0) in *. unfold words. rewrite runs_step.
  change (cap_tokens (S fuel) s cap) with
    (let s1 := drop_while is_blank s in
     let tok := take_while (fun c => negb (is_blank c)) s1 in
     let rest := drop_while (fun c => negb (is_blank c)) s1 in
     if negb (length tok =? length cap)%nat then cap_tokens fuel rest cap
     else if ieq tok cap then true else cap_tokens fuel rest cap).
  cbv zeta. pose proof (drop_while_length is_blank s) as H1.
  set (s1 := drop_while is_blank s) in *.
  pose proof (f_equal length (take_drop_while (fun c => negb (is_blank c)) s1)) as H2. rewrite length_app in H2.
  set (tok := take_while _ s1) in *. set (rest := drop_while _ s1) in *.
  destruct tok as [|c0 tok0] eqn:Htok.
  - assert (rest = []) as ->.
    { subst rest. pose proof (drop_while_head is_blank s) as Hh. fold s1 in Hh.
      destruct Hh as [Hn|(c & r & Hc & Hsep)].
      - by rewrite Hn.
      - exfalso. subst tok. fold s1 in Hc. rewrite Hc in Htok. cbn in Htok. by rewrite Hsep in Htok. }
    destruct cap as [|y cap]; [done|]. cbn. by destruct fuel.
  - cbn [existsb length] in *. rewrite (IH rest) by lia. fold (words rest).
    destruct (Nat.eqb_spec (S (length tok0)) (length cap)) as [He|He]; cbn [negb].
    + by destruct (ieq _ cap).
    + destruct (ieq (c0 :: tok0) cap) eqn:Hi; [|done]. apply ieq_length in Hi. cbn in Hi. lia.
Qed.

Lemma cap_line_eq line cap : cap <> [] ->
  cap_line line cap = reply_prefix line && existsb (fun w => ieq w cap) (words (drop 4 line)).
Proof.
  intros Hcap. unfold cap_line. destruct line as [|a [|b [|c [|d t]]]]; try done.
  cbn [length Nat.ltb Nat.leb at0 default from_option id lookup list_lookup drop reply_prefix].
  unfold at0. cbn [default from_option id lookup list_lookup]. rewrite cap_tokens_words by done.
  destruct (is_digit a), (is_digit b), (is_digit c); cbn [andb negb]; try done.
  by destruct (d =? SP), (d =? "-"%chr).
Qed.

Lemma cap_line_nil cap : cap_line [] cap = false.
Proof. done. Qed.

Lemma cap_lines_eq fuel s cap : cap <> [] -> (length s <= fuel)%nat ->
  cap_lines fuel s cap = existsb (fun line => cap_line line cap) (lines s).
Proof.
  intros Hcap. revert s. induction fuel as [|fuel IH]; intros s Hl; [destruct s; [done|cbn in Hl; lia]|].
  destruct s as [|x s0]; [done|]. set (s := x :: s0) in *.
  change (cap_lines (S fuel) s cap) with
    (let line := take_while (fun c => negb (c =? LF)) s in
     let rest := drop_while (fun c => negb (c =? LF)) s in
     if cap_line line cap then true else cap_lines fuel (drop 1 rest) cap).
  cbv zeta. pose proof (take_drop_while (fun c => negb (c =? LF)) s) as Hs.
  pose proof (take_while_all (fun c => negb (c =? LF)) s) as Hall.
  pose proof (drop_while_head (fun c => negb (c =? LF)) s) as Hhead.
  set (line := take_while _ s) in *. set (rest := drop_while _ s) in *.
  assert (Hlen : (length (drop 1 rest) <= fuel)%nat).
  { apply (f_equal length) in Hs. rewrite length_app in Hs. rewrite length_drop. cbn [length] in *.
    destruct line; cbn [length] in *; [|lia]. destruct rest; cbn [length] in *; lia. }
  rewrite IH by done. unfold lines at 2. rewrite <- Hs, runs_word.
  2: { eapply Forall_impl; [exact Hall|]. cbv beta. intros c Hc. apply negb_true_iff in Hc. rewrite Z.eqb_sym. exact Hc. }
  cbn [app]. assert (Hrest : runs (Z.eqb LF) [] rest = lines (drop 1 rest)).
  { destruct Hhead as [->|(c & r & -> & Hc)]; [done|]. apply negb_false_iff, Z.eqb_eq in Hc as ->. done. }
  destruct line as [|c line]; [cbn [cap_line]; by rewrite Hrest|].
  rewrite runs_end; [|done|].
  - rewrite Hrest. cbn [existsb]. by destruct (cap_line _ cap).
  - intros d r Hr. destruct Hhead as [Hn|(d' & r' & Hd & Hc)]; [congruence|].
    rewrite Hd in Hr. injection Hr as <- <-. apply negb_false_iff, Z.eqb_eq in Hc as ->. done.
Qed.

(** The capability search of the client equals the reference: STARTTLS (or any
    non-empty keyword) is found exactly when some line of the reply has the form of a
    reply line and one of the blank-separated words of its text equals it up to
    case, whether on a continuation line or the last one; and it is found in no
    other text, whatever bytes the relay sends. *)
Theorem smtp_reply_has_cap_correct (reply cap : bytes) (Hcap : cap <> []) :
  smtp_reply_has_cap reply cap =
  existsb (fun line => reply_prefix line && existsb (fun w => ieq w cap) (words (drop 4 line))) (lines reply).
Proof.
  unfold smtp_reply_has_cap. destruct cap as [|y cap]; [done|]. cbn [length Nat.eqb].
  rewrite cap_lines_eq by done. induction (lines reply) as [|l ls IH]; [done|]. cbn [existsb]. by rewrite cap_line_eq, IH.
Qed.

Lemma smtp_reply_has_cap_correct_witness :
  smtp_reply_has_cap (bs "250-mx SIZE" ++ CRLF ++ bs "250 8BITMIME StartTLS" ++ CRLF) (bs "STARTTLS") = true.
Proof. rewrite smtp_reply_has_cap_correct by done. reflexivity. Defined.
