(* ===== verification/SmtpParse.v ===== *)
(** * Pure parsing of the SMTP server (src/src/smtp_in.c)

    Case-insensitive comparison, the character gate of paths, the argument of
    MAIL and RCPT, the SIZE parameter with its 64-bit overflow check, and the
    names of spool files. A NUL-terminated string is the list of its bytes. *)

From S2P Require Import Prelude MailLines MailHeader DlEngine Store StoreSpec StoreTables Reply Json Config.

Definition SMTP_MAX_LINE : Z := 1000.

(** ** Comparison *)

(** The byte a C string has at its head: NUL at the end. *)
Definition chd (s : bytes) : Z := hd 0 s.

Fixpoint ascii_strncasecmp (a b : bytes) (n : nat) : Z :=
  match n with
  | O => 0
  | S n' =>
      let ca := tolower (chd a) in
      let cb := tolower (chd b) in
      if negb (ca =? cb) then ca - cb
      else if ca =? 0 then 0
      else ascii_strncasecmp (tl a) (tl b) n'
  end.

Fixpoint ascii_ieq_str (a b : bytes) : bool :=
  match a, b with
  | x :: a', y :: b' => if tolower x =? tolower y then ascii_ieq_str a' b' else false
  | [], [] => true
  | _, _ => false
  end.

(** ** Paths *)

Definition path_byte (c : Z) : bool :=
  if (c <? 0x21) || (c >? 0x7e) then false
  else if (c =? DQUOTE) || (c =? "<"%chr) || (c =? ">"%chr) then false
  else true.

Fixpoint path_clean (p : bytes) : bool :=
  match p with
  | [] => true
  | c :: t => if path_byte c then path_clean t else false
  end.

Definition skip_sp (s : bytes) : bytes := drop_while (Z.eqb SP) s.

(** [parse_addr_arg]: the path and the text after it. *)
Definition parse_addr_arg (rest key : bytes) (pathsz : nat) : option (bytes * bytes) :=
  if negb (ascii_strncasecmp rest key (length key) =? 0) then None
  else match skip_sp (drop (length key) rest) with
       | c :: p =>
           if negb (c =? ":"%chr) then None
           else match skip_sp p with
                | o :: p =>
                    if negb (o =? "<"%chr) then None
                    else match cut ">"%chr p with
                         | None => None
                         | Some (path, params) =>
                             if (pathsz <=? length path)%nat then None else Some (path, params)
                         end
                | [] => None
                end
       | [] => None
       end.

(** ** The SIZE parameter *)

Fixpoint size_digits (v : Z) (d : bytes) : option Z :=
  match d with
  | [] => Some v
  | ch :: d' =>
      if (ch <? "0"%chr) || (ch >? "9"%chr) then None
      else if v >? (UINT64_MAX - (ch - "0"%chr)) / 10 then None
      else size_digits (v * 10 + (ch - "0"%chr)) d'
  end.

Fixpoint parse_size_loop (fuel : nat) (p : bytes) : option (option Z) :=
  match fuel with
  | O => Some None
  | S fuel' =>
      match p with
      | [] => Some None
      | _ :: _ =>
          let p := skip_sp p in
          let tok := take_while (fun c => negb (c =? SP)) p in
          let p := drop_while (fun c => negb (c =? SP)) p in
          if (5 <=? length tok)%nat && (ascii_strncasecmp tok (bs "SIZE=") 5 =? 0) then
            let d := drop 5 tok in
            if (length d =? 0)%nat then None
            else match size_digits 0 d with None => None | Some v => Some (Some v) end
          else parse_size_loop fuel' p
      end
  end.

(** [smtp_in_parse_size]: [None] for -1; otherwise the size when present. *)
Definition smtp_in_parse_size (params : bytes) : option (option Z) :=
  parse_size_loop (S (length params)) params.

(** ** Spool files *)

(** The paths of the two kinds of spool file, when they fit the buffer. *)
Definition spool_out_path (cfg : Config) (msgid k : Z) (bufsz : nat) : option bytes :=
  let s := sg_spool (storage cfg) ++ "/"%chr :: print_u32 msgid ++ "."%chr :: print_u32 k ++ bs ".out.eml" in
  if (bufsz <=? length s)%nat then None else Some s.

Definition spool_in_path (cfg : Config) (msgid : Z) (bufsz : nat) : option bytes :=
  let s := sg_spool (storage cfg) ++ "/"%chr :: print_u32 msgid ++ bs ".eml" in
  if (bufsz <=? length s)%nat then None else Some s.

(** [while (digit) { v = v * 10 + d; if (v > UINT32_MAX) return 0; }] *)
Fixpoint num_loop (v : Z) (s : bytes) : option (Z * bytes) :=
  match s with
  | c :: t =>
      if is_digit c then
        let v := v * 10 + (c - "0"%chr) in
        if v >? UINT32_MAX then None else num_loop v t
      else Some (v, s)
  | [] => Some (v, [])
  end.

(** What [spool_name_parse] returns: 0, 1 with the msgid, 2 with msgid and k. *)
Inductive spool_shape := NotSpool | SpoolIn (msgid : Z) | SpoolOut (msgid k : Z).

Definition spool_name_parse (name : bytes) : spool_shape :=
  if negb (is_digit (chd name)) then NotSpool
  else match num_loop 0 name with
       | None => NotSpool
       | Some (m, p) =>
           if (chd p =? "."%chr) && beq (tl p) (bs "eml") then SpoolIn m
           else if chd p =? "."%chr then
             let q := tl p in
             if negb (is_digit (chd q)) then NotSpool
             else match num_loop 0 q with
                  | None => NotSpool
                  | Some (kv, q) =>
                      if (chd q =? "."%chr) && beq (tl q) (bs "out.eml") then SpoolOut m kv else NotSpool
                  end
           else NotSpool
       end.

(** ** Lemmas *)

Lemma tolower_zero c : tolower c = 0 -> c = 0.
Proof. unfold tolower. split_match; lia. Qed.

Lemma strncasecmp_prefix p s :
  Forall (fun c => c <> 0) p ->
  (ascii_strncasecmp s p (length p) =? 0) = ieq (take (length p) s) p.
Proof.
  intros Hp. revert s. induction Hp as [|c p Hc _ IH]; intros s; [done|]. cbn [length ascii_strncasecmp chd hd tl].
  destruct s as [|x s]; cbn [take ieq].
  - change (tolower (chd [])) with 0. destruct (Z.eqb_spec 0 (tolower c)) as [H0|]; cbn [negb].
    + by destruct (Hc (tolower_zero c (eq_sym H0))).
    + apply Z.eqb_neq. lia.
  - cbn [chd hd tl]. destruct (Z.eqb_spec (tolower x) (tolower c)) as [->|Hne]; cbn [negb andb].
    + destruct (Z.eqb_spec (tolower c) 0) as [H0|_]; [|apply IH].
      by destruct (Hc (tolower_zero c H0)).
    + apply Z.eqb_neq. lia.
Qed.

Lemma ascii_ieq_str_ieq a b : ascii_ieq_str a b = ieq a b.
Proof.
  revert b. induction a as [|x a IH]; intros [|y b]; [done|done|done|]. cbn [ascii_ieq_str ieq].
  rewrite IH. by destruct (tolower x =? tolower y).
Qed.

Lemma path_clean_forall p : path_clean p = true <-> Forall (fun c => path_byte c = true) p.
Proof.
  induction p as [|c p IH]; cbn [path_clean]; [done|]. rewrite Forall_cons, <- IH.
  by destruct (path_byte c); intuition.
Qed.

Lemma path_byte_spec c : path_byte c = true -> 33 <= c <= 126 /\ c <> DQUOTE /\ c <> "<"%chr /\ c <> ">"%chr.
Proof.
  unfold path_byte. destruct ((c <? 33) || (c >? 126)) eqn:E1; [done|].
  destruct ((c =? 34) || (c =? 60) || (c =? 62)) eqn:E2; [done|]. lia.
Qed.

(** *** The SIZE parameter *)

(** The space-separated tokens of a parameter string; empty ones stand for
    repeated spaces. *)
Fixpoint words (s : bytes) : list bytes :=
  match s with
  | [] => [[]]
  | c :: t =>
      if c =? SP then [] :: words t
      else match words t with w :: ws => (c :: w) :: ws | [] => [[c]] end
  end.

Definition is_size (w : bytes) : bool := ieq (take 5 w) (bs "SIZE=").

(** The value a SIZE token carries. *)
Definition size_value (w : bytes) : option Z :=
  let d := drop 5 w in
  if negb (length d =? 0)%nat && forallb is_digit d && (dec_value 0 d <=? UINT64_MAX)
  then Some (dec_value 0 d) else None.

Lemma size_digits_exact d v :
  0 <= v <= UINT64_MAX ->
  size_digits v d = if forallb is_digit d && (dec_value v d <=? UINT64_MAX) then Some (dec_value v d) else None.
Proof.
  revert v. induction d as [|c d IH]; intros v Hv; cbn [size_digits forallb].
  - unfold dec_value. simpl. by destruct (Z.leb_spec v UINT64_MAX); [|lia].
  - change (dec_value v (c :: d)) with (dec_value (v * 10 + (c - "0"%chr)) d).
    destruct ((c <? "0"%chr) || (c >? "9"%chr)) eqn:Ec.
    { assert (is_digit c = false) as -> by (unfold is_digit; lia). done. }
    assert (Hd : is_digit c = true) by (unfold is_digit; lia). rewrite Hd. cbn [andb].
    destruct (Z.gtb_spec v ((UINT64_MAX - (c - "0"%chr)) / 10)) as [Hgt|Hle].
    + destruct (forallb is_digit d) eqn:Ef; [|done]. cbn [andb]. apply forallb_Forall in Ef.
      pose proof (dec_value_mono d (v * 10 + (c - "0"%chr)) Ef ltac:(lia)).
      destruct (Z.leb_spec (dec_value (v * 10 + (c - "0"%chr)) d) UINT64_MAX); [|done].
      exfalso. assert ((UINT64_MAX - (c - "0"%chr)) / 10 >= v); [|lia].
      apply Z.le_ge, Z.div_le_lower_bound; lia.
    + rewrite IH; [done|]. pose proof (Z.mul_div_le (UINT64_MAX - (c - "0"%chr)) 10). lia.
Qed.

Lemma words_app w s :
  Forall (fun c => negb (c =? SP) = true) w ->
  words (w ++ s) = match words s with x :: ws => (w ++ x) :: ws | [] => [w] end.
Proof.
  induction 1 as [|c w Hc _ IH]; cbn [app].
  - destruct s as [|a s]; [done|]. simpl. destruct (a =? SP); [done|]. by destruct (words s).
  - cbn [words]. rewrite IH. apply negb_true_iff in Hc. rewrite Hc. by destruct (words s).
Qed.

Lemma words_head s : words (skip_sp s) = [] -> False.
Proof. destruct (skip_sp s) as [|c t]; simpl; [done|]. destruct (c =? SP); [done|]. by destruct (words t). Qed.

(** Empty tokens never match. *)
Lemma find_size_skip s : List.find is_size (words s) = List.find is_size (words (skip_sp s)).
Proof.
  induction s as [|c s IH]; [done|]. unfold skip_sp. cbn [drop_while words]. rewrite (Z.eqb_sym c SP).
  destruct (Z.eqb_spec SP c) as [<-|Hc]; [exact IH|]. cbn [words].
  by destruct (Z.eqb_spec c SP); [congruence|].
Qed.

Lemma parse_size_loop_spec fuel p :
  (length p < fuel)%nat ->
  parse_size_loop fuel p =
  match List.find is_size (words p) with
  | None => Some None
  | Some w => match size_value w with Some v => Some (Some v) | None => None end
  end.
Proof.
  revert p. induction fuel as [|fuel IH]; intros p Hf; [lia|]. cbn [parse_size_loop].
  destruct p as [|c0 p0]; [done|]. cbv zeta. rewrite find_size_skip.
  pose proof (drop_while_length (Z.eqb SP) (c0 :: p0)) as Hlen0. fold (skip_sp (c0 :: p0)) in Hlen0.
  assert (Hhd : forall c, head (skip_sp (c0 :: p0)) = Some c -> c <> SP).
  { intros c. unfold skip_sp. destruct (drop_while_head (Z.eqb SP) (c0 :: p0)) as [->|(x & t & -> & Hx)]; [done|].
    intros [= <-]. lia. }
  assert (Hprog : (length (drop_while (fun c => negb (c =? SP)%Z) (skip_sp (c0 :: p0))) < fuel)%nat).
  { destruct (skip_sp (c0 :: p0)) as [|c t] eqn:Es; [simpl in *; lia|]. cbn [drop_while].
    destruct (Z.eqb_spec c SP) as [->|]; [by destruct (Hhd SP)|]. cbn [negb].
    pose proof (drop_while_length (fun c => negb (c =? SP)) t). simpl in *. lia. }
  set (p := skip_sp (c0 :: p0)) in *.
  set (tok := take_while _ p). set (rest := drop_while _ p) in *.
  assert (Hp : p = tok ++ rest) by (symmetry; apply take_drop_while).
  assert (Htok : Forall (fun c => negb (c =? SP) = true) tok) by apply take_while_all.
  assert (Hw : exists ws, words p = tok :: ws /\ List.find is_size ws = List.find is_size (words rest)).
  { rewrite Hp, words_app by done. destruct (drop_while_head (fun c => negb (c =? SP)) p) as [Hr|(x & t & Hr & Hx)].
    - unfold rest. rewrite Hr. exists []. simpl. by rewrite app_nil_r.
    - unfold rest. rewrite Hr. cbn [words]. apply negb_false_iff in Hx. rewrite Hx.
      exists (words t). by rewrite app_nil_r. }
  destruct Hw as (ws & -> & Hws). cbn [List.find].
  assert ((ascii_strncasecmp tok (bs "SIZE=") 5 =? 0) = is_size tok) as ->
    by (apply (strncasecmp_prefix (bs "SIZE=") tok); by repeat constructor).
  assert ((5 <=? length tok)%nat && is_size tok = is_size tok) as ->.
  { destruct (is_size tok) eqn:Ei; [|apply andb_false_r]. apply ieq_length in Ei. rewrite length_take in Ei.
    change (length (bs "SIZE=")) with 5%nat in Ei. rewrite andb_true_r. apply Nat.leb_le. lia. }
  destruct (is_size tok); [|by rewrite Hws; apply IH].
  unfold size_value. destruct (length (drop 5 tok) =? 0)%nat; [done|]. cbn [negb andb].
  rewrite size_digits_exact by (unfold UINT64_MAX; lia). by destruct (_ && _).
Qed.

(** The SIZE parameter. [smtp_in_parse_size] looks at the space-separated
    tokens in order: without a token that begins with SIZE= (in any case) it
    reports the size absent; the first such token decides, and the call fails
    exactly when what follows the equals sign is empty, holds a byte that is not
    a digit, or denotes a number above 2^64 - 1; otherwise the size is that
    number, computed without wrap-around. *)
Theorem smtp_in_parse_size_exact (params : bytes) :
  smtp_in_parse_size params =
  match List.find is_size (words params) with
  | None => Some None
  | Some w => match size_value w with Some v => Some (Some v) | None => None end
  end.
Proof. apply parse_size_loop_spec. lia. Qed.

Example size_max : smtp_in_parse_size (bs "BODY=8BITMIME size=18446744073709551615") = Some (Some UINT64_MAX).
Proof. reflexivity. Qed.
Example size_over : smtp_in_parse_size (bs "SIZE=18446744073709551616") = None.
Proof. reflexivity. Qed.

(** *** Spool names *)

Lemma num_loop_exact ds rest v :
  digits ds -> (forall c, head rest = Some c -> is_digit c = false) -> 0 <= v <= UINT32_MAX ->
  num_loop v (ds ++ rest) = if dec_value v ds <=? UINT32_MAX then Some (dec_value v ds, rest) else None.
Proof.
  intros Hd Hr. revert v. induction Hd as [|c ds Hc Hd IH]; intros v Hv.
  - cbn [app]. unfold dec_value. simpl. destruct (Z.leb_spec v UINT32_MAX); [|lia].
    destruct rest as [|c rest]; [done|]. cbn [num_loop]. by rewrite Hr.
  - cbn [app num_loop]. rewrite Hc. unfold is_digit in Hc.
    change (dec_value v (c :: ds)) with (dec_value (v * 10 + (c - "0"%chr)) ds).
    pose proof (dec_value_mono ds (v * 10 + (c - "0"%chr)) Hd ltac:(lia)).
    destruct (Z.gtb_spec (v * 10 + (c - "0"%chr)) UINT32_MAX) as [Hgt|Hle].
    + by destruct (Z.leb_spec (dec_value (v * 10 + (c - "0"%chr)) ds) UINT32_MAX); [lia|].
    + apply IH. lia.
Qed.

Lemma num_loop_inv v s n r :
  0 <= v <= UINT32_MAX -> num_loop v s = Some (n, r) ->
  exists ds, s = ds ++ r /\ digits ds /\ n = dec_value v ds /\ n <= UINT32_MAX.
Proof.
  revert v. induction s as [|c s IH]; intros v Hv; cbn [num_loop].
  - intros [= <- <-]. exists []. repeat split; [constructor|lia].
  - destruct (is_digit c) eqn:Ec; [|intros [= <- <-]; exists []; repeat split; [constructor|lia]].
    unfold is_digit in Ec. destruct (Z.gtb_spec (v * 10 + (c - "0"%chr)) UINT32_MAX); [done|].
    intros H'. apply IH in H' as (ds & -> & Hd & -> & Hn); [|lia].
    exists (c :: ds). split; [done|]. split; [by constructor|]. done.
Qed.

(** A number as the spool names carry it: digits, with the value they denote. *)
Definition numeral (ds : bytes) (n : Z) : Prop :=
  digits ds /\ ds <> [] /\ dec_value 0 ds = n /\ n <= UINT32_MAX.

Lemma print_u32_numeral v : is_u32 v -> numeral (print_u32 v) v.
Proof.
  intros Hv. unfold is_u32, UINT32_MAX in Hv.
  destruct (dec_digits_spec 10 v []) as (ds & Hp & Hd & Hn & _ & Hval); [simpl; lia|lia|].
  rewrite app_nil_r in Hp. unfold numeral, print_u32. rewrite Hp, Hval. unfold UINT32_MAX. split; [done|]. split; [done|]. lia.
Qed.

Lemma digits_head ds : digits ds -> ds <> [] -> is_digit (chd (ds ++ [])) = true.
Proof. destruct 1; simpl; done. Qed.

Lemma chd_numeral ds n r : numeral ds n -> is_digit (chd (ds ++ r)) = true.
Proof. intros (Hd & Hn & _). by destruct Hd. Qed.

Lemma num_loop_numeral ds n r :
  numeral ds n -> (forall c, head r = Some c -> is_digit c = false) -> num_loop 0 (ds ++ r) = Some (n, r).
Proof.
  intros (Hd & _ & <- & Hn) Hr. rewrite num_loop_exact by (done || (unfold UINT32_MAX; lia)).
  by destruct (Z.leb_spec (dec_value 0 ds) UINT32_MAX); [|lia].
Qed.

Lemma num_loop_numeral_inv s n r :
  is_digit (chd s) = true -> num_loop 0 s = Some (n, r) -> exists ds, s = ds ++ r /\ numeral ds n.
Proof.
  destruct s as [|c s]; [done|]. cbn [chd hd]. intros Hc. cbn [num_loop]. rewrite Hc.
  assert (Hr : 0 <= 0 * 10 + (c - "0"%chr) <= 9) by (unfold is_digit in Hc; lia).
  destruct (Z.gtb_spec (0 * 10 + (c - "0"%chr)) UINT32_MAX); [unfold UINT32_MAX in *; lia|]. intros H'.
  apply num_loop_inv in H' as (ds & -> & Hd & -> & Hn); [|unfold UINT32_MAX; lia].
  exists (c :: ds). split; [done|]. split; [by constructor|]. done.
Qed.

Lemma spool_parse_in dm m : numeral dm m -> spool_name_parse (dm ++ bs ".eml") = SpoolIn m.
Proof.
  intros H. unfold spool_name_parse. rewrite (chd_numeral dm m) by done. cbn [negb].
  rewrite (num_loop_numeral dm m) by (done || by intros c [= <-]). done.
Qed.

Lemma spool_parse_out dm dk m k :
  numeral dm m -> numeral dk k ->
  spool_name_parse (dm ++ "."%chr :: dk ++ bs ".out.eml") = SpoolOut m k.
Proof.
  intros Hm Hk. unfold spool_name_parse. rewrite (chd_numeral dm m) by done. cbn [negb].
  rewrite (num_loop_numeral dm m) by (done || by intros c [= <-]). cbn [chd hd tl]. rewrite Z.eqb_refl.
  assert (beq (dk ++ bs ".out.eml") (bs "eml") = false) as ->.
  { destruct Hk as (Hd & Hn & _). destruct Hd as [|c dk Hc _]; [done|].
    change (bs "eml") with [101; 109; 108]. cbn [app beq]. unfold is_digit in Hc.
    destruct (Z.eqb_spec c 101); [lia|done]. }
  cbn [andb]. rewrite (chd_numeral dk k) by done. cbn [negb].
  rewrite (num_loop_numeral dk k) by (done || by intros c [= <-]). done.
Qed.

(** Case analysis on what a name parses to. *)
Lemma spool_parse_cases name (P : spool_shape -> Prop) :
  P NotSpool ->
  (forall m dm, numeral dm m -> name = dm ++ bs ".eml" -> P (SpoolIn m)) ->
  (forall m k dm dk, numeral dm m -> numeral dk k -> name = dm ++ "."%chr :: dk ++ bs ".out.eml" ->
     P (SpoolOut m k)) ->
  P (spool_name_parse name).
Proof.
  intros HN HI HO. unfold spool_name_parse. destruct (is_digit (chd name)) eqn:Ed; [|done]. cbn [negb].
  destruct (num_loop 0 name) as [[m p]|] eqn:En; [|done].
  apply num_loop_numeral_inv in En as (dm & -> & Hm); [|done].
  destruct p as [|c p]; [done|]. cbn [chd hd tl]. destruct (Z.eqb_spec c "."%chr) as [->|]; [|done]. cbn [andb].
  destruct (beq p (bs "eml")) eqn:Eb; [apply beq_spec in Eb as ->; by apply (HI m dm)|].
  destruct (is_digit (chd p)) eqn:Ep; [|done]. cbn [negb].
  destruct (num_loop 0 p) as [[k q]|] eqn:Ek; [|done].
  apply num_loop_numeral_inv in Ek as (dk & -> & Hk); [|done].
  destruct q as [|c q]; [done|]. cbn [chd hd tl]. destruct (Z.eqb_spec c "."%chr) as [->|]; [|done]. cbn [andb].
  destruct (beq q (bs "out.eml")) eqn:Eq; [|done]. apply beq_spec in Eq as ->. by apply (HO m k dm dk).
Qed.

(** The outbound path of a delivery determines it. *)
Definition out_name (m k : Z) : bytes := print_u32 m ++ "."%chr :: print_u32 k ++ bs ".out.eml".

Lemma out_name_parse m k : is_u32 m -> is_u32 k -> spool_name_parse (out_name m k) = SpoolOut m k.
Proof. intros. apply spool_parse_out; by apply print_u32_numeral. Qed.

Lemma spool_out_path_eq cfg m k n p :
  spool_out_path cfg m k n = Some p -> p = sg_spool (storage cfg) ++ "/"%chr :: out_name m k.
Proof. unfold spool_out_path. destruct (_ <=? _)%nat; [done|]. by intros [= <-]. Qed.

Lemma spool_out_path_inj cfg m k m' k' n p :
  is_u32 m -> is_u32 k -> is_u32 m' -> is_u32 k' ->
  spool_out_path cfg m k n = Some p -> spool_out_path cfg m' k' n = Some p -> m = m' /\ k = k'.
Proof.
  intros ???? ->%spool_out_path_eq Hp%spool_out_path_eq. apply app_inv_head in Hp. injection Hp as Hp.
  apply (f_equal spool_name_parse) in Hp. rewrite !out_name_parse in Hp by done. by simplify_eq.
Qed.

(** Spool names. [spool_name_parse] recognises exactly the names
    "<msgid>.eml" and "<msgid>.<k>.out.eml" whose numbers are non-empty decimal
    numerals not above 2^32 - 1, with the numbers they denote; every other name,
    an overflowing one included, is not a spool file. So the name each writer
    forms from a message id and an ordinal parses back to them, and names formed
    from different pairs differ. *)
Theorem spool_name_parse_exact (name : bytes) :
  (forall m, spool_name_parse name = SpoolIn m <-> exists dm, numeral dm m /\ name = dm ++ bs ".eml") /\
  (forall m k, spool_name_parse name = SpoolOut m k <->
     exists dm dk, numeral dm m /\ numeral dk k /\ name = dm ++ "."%chr :: dk ++ bs ".out.eml") /\
  (forall m k, is_u32 m -> is_u32 k ->
     spool_name_parse (print_u32 m ++ bs ".eml") = SpoolIn m /\
     spool_name_parse (print_u32 m ++ "."%chr :: print_u32 k ++ bs ".out.eml") = SpoolOut m k).
Proof.
  split; [|split].
  - intros m. split; [|intros (dm & Hm & ->); by apply spool_parse_in].
    apply (spool_parse_cases name); try done. intros m' dm Hm Hname [= ->]. by exists dm.
  - intros m k. split; [|intros (dm & dk & Hm & Hk & ->); by apply spool_parse_out].
    apply (spool_parse_cases name); try done. intros m' k' dm dk Hm Hk Hname [= -> ->]. by exists dm, dk.
  - intros m k Hm Hk. split; [apply spool_parse_in|apply spool_parse_out]; by apply print_u32_numeral.
Qed.
