(* ===== verification/SmtpWorld.v ===== *)
(** * What the SMTP server runs in

    The server is single-threaded. [World] is the state its handlers share: the
    store, the side list of reply rows ([Server.reply_rows]) and the machine
    outside, plus a ghost list of the relay attempts made. The machine is a
    parameter, the class [Host]: the clock, files, sockets, and the parts of the
    program that are not modelled (the outbound dialogue, DKIM signing, the
    Authentication-Results builder, inbound TLS). [HostLaws] states what the
    queue relies on: a write that reports success is readable back, and no call
    touches a file it was not given. Handlers are functions of the monad [M]. *)

From S2P Require Import Prelude MailLines MailHeader DlEngine Store StoreSpec StoreTables Reply Json Config SmtpParse.

(** What one [send] returns: a byte count, EINTR, EAGAIN (or "would block" from
    TLS), any other error. *)
Inductive send_result := SdOk (n : nat) | SdIntr | SdAgain | SdError.

(** What one [recv] returns. *)
Inductive recv_result := RvData (d : bytes) | RvAgain | RvEof | RvError.

Class Host := {
  host : Type;
  time_now : host -> host * Z;
  monotonic_ms : host -> host * Z;
  read_urandom : host -> host * (bool * list read_result);
  (** true for 0 and for EEXIST *)
  sys_mkdir : host -> bytes -> host * bool;
  write_file : host -> bytes -> bytes -> host * bool;
  write_file_fsync : host -> bytes -> bytes -> host * bool;
  read_file : host -> bytes -> host * option bytes;
  sys_unlink : host -> bytes -> host;
  (** a regular file's mtime *)
  sys_stat : host -> bytes -> host * option Z;
  (** the entries of a directory, [None] when it cannot be opened *)
  sys_readdir : host -> bytes -> host * option (list bytes);
  (** the results of the successive calls one flush makes *)
  sys_send : host -> Z -> bytes -> host * list send_result;
  sys_recv : host -> Z -> host * recv_result;
  smtp_out_send : host -> Config -> bytes -> bytes -> bytes -> host * Z;
  dkim_sign : host -> bytes -> option bytes -> bytes -> bytes -> host * option bytes;
  auth_results_build : host -> option bytes -> bytes -> bytes -> bytes -> host * option bytes;
  smtp_in_tls_available : host -> bool;
  smtp_in_tls_start : host -> Z -> host * option Z;
  smtp_in_tls_prefeed : host -> Z -> bytes -> host * bool;
  smtp_in_tls_handshake_step : host -> Z -> host * Z;
  smtp_in_tls_recv : host -> Z -> host * recv_result;
  smtp_in_tls_send : host -> Z -> bytes -> host * list send_result;
  smtp_in_tls_pending : host -> Z -> bool;
  smtp_in_tls_handshaking : host -> Z -> bool;
  smtp_in_tls_established : host -> Z -> bool;
  (** [inet_pton]: true for AF_INET6; [inet_ntop] of 4 or 16 bytes *)
  inet_pton : bool -> bytes -> option bytes;
  inet_ntop : bytes -> option bytes;
  (** abstract view: the bytes of the file at this path *)
  file_at : host -> bytes -> option bytes;
}.

(** A call that changes no file. *)
Definition keeps_files {H : Host} {A} (f : host -> host * A) : Prop :=
  forall h p, file_at (f h).1 p = file_at h p.

Class HostLaws (H : Host) := {
  write_ok h p d : (write_file_fsync h p d).2 = true -> file_at (write_file_fsync h p d).1 p = Some d;
  write_fsync_other h p d q : q <> p -> file_at (write_file_fsync h p d).1 q = file_at h q;
  write_other h p d q : q <> p -> file_at (write_file h p d).1 q = file_at h q;
  unlink_other h p q : q <> p -> file_at (sys_unlink h p) q = file_at h q;
  read_sound h p d : (read_file h p).2 = Some d -> file_at h p = Some d;
  read_keeps p : keeps_files (fun h => read_file h p);
  time_keeps : keeps_files time_now;
  mono_keeps : keeps_files monotonic_ms;
  urandom_keeps : keeps_files read_urandom;
  mkdir_keeps p : keeps_files (fun h => sys_mkdir h p);
  stat_keeps p : keeps_files (fun h => sys_stat h p);
  readdir_keeps p : keeps_files (fun h => sys_readdir h p);
  send_keeps fd d : keeps_files (fun h => sys_send h fd d);
  out_send_keeps c f t b : keeps_files (fun h => smtp_out_send h c f t b);
  sign_keeps m d s k : keeps_files (fun h => dkim_sign h m d s k);
  auth_keeps n m f ip : keeps_files (fun h => auth_results_build h n m f ip);
  tls_send_keeps t d : keeps_files (fun h => smtp_in_tls_send h t d);
}.

(** ** The world and the monad *)

(** One call of [smtp_out_send], with its result. *)
Record relay_attempt := {
  ra_relay : ConfigRelay; ra_from : bytes; ra_to : bytes; ra_body : bytes; ra_result : Z }.

Section World.
Context {E : DlEngine} {H : Host}.

Record World := MkWorld {
  w_store : Store;
  w_marks : list (Z * Z);
  w_host : host;
  w_sent : list relay_attempt;
}.

Definition M (A : Type) : Type := World -> World * A.

#[export] Instance M_ret : MRet M := fun A a w => (w, a).
#[export] Instance M_bind : MBind M := fun A B f m w => let '(w', a) := m w in f a w'.

(** [if (p) { ... }] *)
Definition when (b : bool) (m : M unit) : M unit := if b then m else mret tt.

Definition get_w : M World := fun w => (w, w).

(** A store operation, a host call, a change of the reply marks. *)
Definition on_store {A} (f : Store -> Store * A) : M A := fun w =>
  let '(s, a) := f (w_store w) in (MkWorld s (w_marks w) (w_host w) (w_sent w), a).

Definition on_host {A} (f : host -> host * A) : M A := fun w =>
  let '(h, a) := f (w_host w) in (MkWorld (w_store w) (w_marks w) h (w_sent w), a).

Definition on_marks (f : list (Z * Z) -> list (Z * Z)) : M unit := fun w =>
  (MkWorld (w_store w) (f (w_marks w)) (w_host w) (w_sent w), tt).

Definition unlink (p : bytes) : M unit := on_host (fun h => (sys_unlink h p, tt)).

(** [(uint32_t)time(NULL)] *)
Definition now32 : M Z := t ← on_host time_now; mret (u32 t).

(** A relay attempt, recorded. *)
Definition out_send (cfg : Config) (from to body : bytes) : M Z := fun w =>
  let '(h, r) := smtp_out_send (w_host w) cfg from to body in
  let a := {| ra_relay := relay cfg; ra_from := from; ra_to := to; ra_body := body; ra_result := r |} in
  (MkWorld (w_store w) (w_marks w) h (w_sent w ++ [a]), r).

(** [store_log_add]; no caller looks at the code. *)
Definition log_add (msgid ts dir : Z) (local remote status : bytes) : M unit :=
  _ ← on_store (fun s => store_log_add s msgid ts dir local remote status); mret tt.

(** [mkdir_p]: every proper prefix that ends before a '/', then the path. *)
Fixpoint mkdir_loop (pre s : bytes) : M bool :=
  match s with
  | [] => mret true
  | c :: t =>
      if (c =? "/"%chr) && negb (is_nil pre) then
        ok ← on_host (fun h => sys_mkdir h pre);
        if negb ok then mret false else mkdir_loop (pre ++ [c]) t
      else mkdir_loop (pre ++ [c]) t
  end.

Definition mkdir_p (path : bytes) : M bool :=
  if is_nil path then mret false
  else
    ok ← mkdir_loop [] path;
    if negb ok then mret false else on_host (fun h => sys_mkdir h path).

End World.

(** ** Preservation

    [preserves R m]: every run of [m] relates the world before to the world after
    by [R]; it composes along the monad when [R] is a preorder. *)

Definition preserves {E : DlEngine} {H : Host} (R : World -> World -> Prop) {A} (m : M A) : Prop :=
  forall w, R w (m w).1.

Section Preserves.
Context {E : DlEngine} {H : Host} (R : World -> World -> Prop) `{!PreOrder R}.

Lemma preserves_ret {A} (a : A) : preserves R (mret a).
Proof. intros w. reflexivity. Qed.

Lemma preserves_bind {A B} (m : M A) (f : A -> M B) :
  preserves R m -> (forall a, preserves R (f a)) -> preserves R (m ≫= f).
Proof.
  intros Hm Hf w. unfold mbind, M_bind. specialize (Hm w). destruct (m w) as [w1 a].
  etrans; [exact Hm|apply Hf].
Qed.

Lemma preserves_if {A} (b : bool) (m n : M A) :
  (b = true -> preserves R m) -> (b = false -> preserves R n) -> preserves R (if b then m else n).
Proof. destruct b; auto. Qed.

Lemma preserves_when (b : bool) (m : M unit) : (b = true -> preserves R m) -> preserves R (when b m).
Proof. unfold when. destruct b; intros Hm; [by apply Hm|apply preserves_ret]. Qed.

End Preserves.

(** Decomposes a goal [preserves R m] along the monad, leaving the calls. *)
Ltac preserves_step :=
  match goal with
  | |- preserves _ (mret _) => apply preserves_ret; exact _
  | |- preserves _ (_ ≫= _) => apply preserves_bind; [exact _| |intros ?]
  | |- preserves _ (if ?b then _ else _) => apply preserves_if; intros ?
  | |- preserves _ (when _ _) => apply preserves_when; [exact _|intros ?]
  | |- preserves _ (match ?x with _ => _ end) => destruct x eqn:?
  end.

Create HintDb preserves.

Ltac preserves_tac := repeat preserves_step; eauto with preserves.
