(* ===== verification/MemHost.v ===== *)
(** * A concrete machine

    [MemHost] instantiates [Host]: files in an association list, a clock that
    advances a second per reading, a relay with a fixed answer, a socket that
    takes everything written and yields a list of received pieces, no TLS, no
    DKIM and no Authentication-Results header. It satisfies [HostLaws], so the
    theorems that assume them can be applied to concrete runs. *)

From S2P Require Import Prelude MailLines MailHeader DlEngine Store StoreSpec StoreTables StoreQueue Reply Json Config SmtpParse SmtpWorld.

Record machine := MkMachine {
  mc_now : Z;
  mc_files : list (bytes * bytes);
  mc_mtime : Z;  (** of every file *)
  mc_relay : Z;  (** what every relay attempt returns *)
  mc_input : list bytes;  (** the pieces the sockets receive *)
}.

Fixpoint lookup_file (fs : list (bytes * bytes)) (p : bytes) : option bytes :=
  match fs with
  | [] => None
  | (q, d) :: fs' => if beq q p then Some d else lookup_file fs' p
  end.

Fixpoint remove_file (fs : list (bytes * bytes)) (p : bytes) : list (bytes * bytes) :=
  match fs with
  | [] => []
  | (q, d) :: fs' => if beq q p then remove_file fs' p else (q, d) :: remove_file fs' p
  end.

Definition with_files (h : machine) (fs : list (bytes * bytes)) : machine :=
  MkMachine (mc_now h) fs (mc_mtime h) (mc_relay h) (mc_input h).

(** The entries directly under [dir]. *)
Fixpoint list_dir (dir : bytes) (fs : list (bytes * bytes)) : list bytes :=
  match fs with
  | [] => []
  | (p, _) :: fs' =>
      match strip_prefix (dir ++ ["/"%chr]) p with
      | Some n => n :: list_dir dir fs'
      | None => list_dir dir fs'
      end
  end.

Definition tick (h : machine) : machine :=
  MkMachine (mc_now h + 1) (mc_files h) (mc_mtime h) (mc_relay h) (mc_input h).

Definition MemHost : Host := {|
  host := machine;
  time_now h := (tick h, mc_now h);
  monotonic_ms h := (tick h, mc_now h * 1000);
  read_urandom h := (h, (true, [RData (replicate 16 (mc_now h mod 256))]));
  sys_mkdir h _ := (h, true);
  write_file h p d := (with_files h ((p, d) :: remove_file (mc_files h) p), true);
  write_file_fsync h p d := (with_files h ((p, d) :: remove_file (mc_files h) p), true);
  read_file h p := (h, lookup_file (mc_files h) p);
  sys_unlink h p := with_files h (remove_file (mc_files h) p);
  sys_stat h p := (h, match lookup_file (mc_files h) p with Some _ => Some (mc_mtime h) | None => None end);
  sys_readdir h dir := (h, Some (list_dir dir (mc_files h)));
  sys_send h _ d := (h, [SdOk (length d)]);
  sys_recv h _ :=
    match mc_input h with
    | [] => (h, RvAgain)
    | d :: ds => (MkMachine (mc_now h) (mc_files h) (mc_mtime h) (mc_relay h) ds, RvData d)
    end;
  smtp_out_send h _ _ _ _ := (h, mc_relay h);
  dkim_sign h _ _ _ _ := (h, None);
  auth_results_build h _ _ _ _ := (h, None);
  smtp_in_tls_available _ := false;
  smtp_in_tls_start h _ := (h, None);
  smtp_in_tls_prefeed h _ _ := (h, false);
  smtp_in_tls_handshake_step h _ := (h, -1);
  smtp_in_tls_recv h _ := (h, RvError);
  smtp_in_tls_send h _ _ := (h, [SdError]);
  smtp_in_tls_pending _ _ := false;
  smtp_in_tls_handshaking _ _ := false;
  smtp_in_tls_established _ _ := false;
  inet_pton v6 s := if v6 then None else if (length s =? 4)%nat then Some s else None;
  inet_ntop a := Some a;
  file_at h p := lookup_file (mc_files h) p;
|}.

Lemma lookup_remove fs p q : lookup_file (remove_file fs p) q = if beq p q then None else lookup_file fs q.
Proof.
  induction fs as [|[r d] fs IH]; cbn [remove_file lookup_file]; [by destruct (beq p q)|].
  destruct (beq r p) eqn:Hrp; [apply beq_spec in Hrp as ->; rewrite IH; by destruct (beq p q)|].
  cbn [lookup_file]. rewrite IH. destruct (beq r q) eqn:Hrq; [|done]. destruct (beq p q) eqn:Hpq; [|done].
  apply beq_spec in Hrq as ->. apply beq_spec in Hpq as ->. by rewrite beq_refl in Hrp.
Qed.

Lemma beq_ne p q : q <> p -> beq p q = false.
Proof. intros Hne. destruct (beq p q) eqn:Hb; [|done]. apply beq_spec in Hb as ->. done. Qed.

#[global] Instance MemHostLaws : HostLaws MemHost.
Proof.
  split; try (by intros ? ? ?); try (by intros ? ?); cbn.
  - intros h p d _. by rewrite beq_refl.
  - intros h p d q Hne. rewrite beq_ne by done. by rewrite lookup_remove, beq_ne.
  - intros h p d q Hne. rewrite beq_ne by done. by rewrite lookup_remove, beq_ne.
  - intros h p q Hne. by rewrite lookup_remove, beq_ne.
Qed.

(** ** Fixtures *)

Definition mem_relay : ConfigRelay := {|
  rl_host := Some (bs "relay"); rl_port := 25; rl_auth_enabled := false; rl_username := None;
  rl_password := None; rl_retries := 3; rl_tls := None; rl_max_attempts := 5; rl_tls_ca := None |}.

Definition mem_cfg : Config := {|
  hostname := Some (bs "mx.x.org"); domains := [Some (bs "x.org")];
  listen := {| cl_port := 25; cl_proxy_from := [] |};
  limits := {| lim_message := 10000; lim_line := 0; lim_rcpts := 10; lim_cmd_timeout := 60; lim_data_timeout := 0 |};
  relay := mem_relay; reply_relay := mem_relay;
  storage := {| sg_path := bs "/db"; sg_spool := bs "/spool"; sg_retention_days := 7 |};
  reply := {| rc_prefix := Some (bs "reply"); rc_separator := Some (bs "+") |};
  catch_all := None; aliases := []; dkim := [] |}.

(** A machine at time 2000 whose relay answers [answer] and whose socket yields [input]. *)
Definition mem_machine (answer : Z) (input : list bytes) : machine := MkMachine 2000 [] 0 answer input.

(** The store with one alias of [StoreTables], on that machine. *)
Definition mem_world (answer : Z) (input : list bytes) : @World MemEngine MemHost :=
  @MkWorld MemEngine MemHost mem1 [] (mem_machine answer input) [].

(** The store with two queued deliveries of [StoreQueue], the first with its body
    on disk. *)
Definition mem_queue_world (answer : Z) : @World MemEngine MemHost :=
  @MkWorld MemEngine MemHost mem_q []
    (MkMachine 2000 [(bs "/spool/7.0.out.eml", bs "hi")] 0 answer []) [].
