(* ===== verification/SmtpQueue.v ===== *)
(** * The durable delivery queue of the SMTP server (src/src/smtp_in.c)

    Reply marks, the delivery of one due item and its status transitions, the
    bounded re-drive of due items, the durable enqueue, and the retention sweep
    of the spool directory, as handlers over [World]. *)

From S2P Require Import Prelude MailLines MailHeader DlEngine Store StoreSpec StoreTables StoreQueue Reply Json Config SmtpReply SmtpParse SmtpWorld.

Definition SMTP_IN_REDRIVE_BATCH : nat := 8.
Definition SMTP_IN_REDRIVE_BUDGET_MS : Z := 1000.
Definition LOG_DIR_IN : Z := 1.
Definition LOG_DIR_OUT : Z := 2.

(** ** Reply marks *)

Definition mark_eqb (a b : Z * Z) : bool := (a.1 =? b.1) && (a.2 =? b.2).

Definition reply_mark_push (marks : list (Z * Z)) (msgid k : Z) : list (Z * Z) := marks ++ [(msgid, k)].

Definition reply_mark_lookup (marks : list (Z * Z)) (msgid k : Z) : bool :=
  existsb (fun m => mark_eqb m (msgid, k)) marks.

(** Index of the first matching entry. *)
Fixpoint mark_index (marks : list (Z * Z)) (m : Z * Z) : option nat :=
  match marks with
  | [] => None
  | x :: marks' => if mark_eqb x m then Some 0%nat else S <$> mark_index marks' m
  end.

(** The last entry moves into the removed one's place. *)
Definition reply_mark_remove (marks : list (Z * Z)) (msgid k : Z) : list (Z * Z) :=
  match mark_index marks (msgid, k), last marks with
  | Some i, Some l => take (length marks - 1) (<[i := l]> marks)
  | _, _ => marks
  end.

Section SmtpQueue.
Context {E : DlEngine} {H : Host}.
Implicit Types (cfg : Config).

Definition set_status (msgid k : Z) (status : bytes) (attempts next_ts : Z) : M Z :=
  on_store (fun s => store_queue_set_status s msgid k status attempts next_ts).

(** ** One delivery *)

Definition queue_requeue (msgid k : Z) (from to : bytes) (attempts now max_attempts : Z) : M unit :=
  let attempts := u32 (attempts + 1) in
  if attempts >? max_attempts then
    _ ← set_status msgid k (bs "permfail") attempts 0;
    log_add msgid now LOG_DIR_OUT from to (bs "permfail")
  else
    _ ← set_status msgid k (bs "queued") attempts (u32 (now + smtp_backoff_sec attempts));
    log_add msgid now LOG_DIR_OUT from to (bs "tempfail").

(** The configuration of a single attempt through relay [r]. *)
Definition one_shot (cfg : Config) (r : ConfigRelay) : Config := {|
  hostname := hostname cfg; domains := domains cfg; listen := listen cfg; limits := limits cfg;
  relay := {| rl_host := rl_host r; rl_port := rl_port r; rl_auth_enabled := rl_auth_enabled r;
              rl_username := rl_username r; rl_password := rl_password r; rl_retries := 0;
              rl_tls := rl_tls r; rl_max_attempts := rl_max_attempts r; rl_tls_ca := rl_tls_ca r |};
  reply_relay := reply_relay cfg; storage := storage cfg; reply := reply cfg;
  catch_all := catch_all cfg; aliases := aliases cfg; dkim := dkim cfg |}.

Definition max_attempts_of (r : ConfigRelay) : Z :=
  if rl_max_attempts r =? 0 then 100 else rl_max_attempts r.

(** The transition after an attempt, or after the body could not be read. *)
Definition queue_finish (msgid k : Z) (from to : bytes) (attempts now max_attempts : Z)
    (is_reply : bool) (sres : Z) : M unit :=
  if sres =? SMTP_OK then
    _ ← set_status msgid k (bs "delivered") attempts 0;
    _ ← log_add msgid now LOG_DIR_OUT from to (bs "delivered");
    when is_reply (on_marks (fun l => reply_mark_remove l msgid k))
  else if sres =? SMTP_PERMFAIL then
    _ ← set_status msgid k (bs "permfail") attempts 0;
    _ ← log_add msgid now LOG_DIR_OUT from to (bs "permfail");
    when is_reply (on_marks (fun l => reply_mark_remove l msgid k))
  else queue_requeue msgid k from to attempts now max_attempts.

Definition queue_deliver_one cfg (msgid k : Z) (from to : bytes) (attempts : Z) : M unit :=
  now ← now32;
  w ← get_w;
  let is_reply := reply_mark_lookup (w_marks w) msgid k in
  let out_relay := smtp_relay_for cfg is_reply in
  let max_attempts := max_attempts_of out_relay in
  rc ← set_status msgid k (bs "delivering") attempts 0;
  if negb (rc =? VISAGE_OK) then
    _ ← set_status msgid k (bs "queued") attempts (u32 (now + smtp_backoff_sec (u32 (attempts + 1))));
    mret tt
  else
    match spool_out_path cfg msgid k 4096 with
    | None =>
        _ ← set_status msgid k (bs "permfail") attempts 0;
        _ ← log_add msgid now LOG_DIR_OUT from to (bs "permfail");
        when is_reply (on_marks (fun l => reply_mark_remove l msgid k))
    | Some spoolpath =>
        r ← on_host (fun h => read_file h spoolpath);
        match r with
        | None => queue_requeue msgid k from to attempts now max_attempts
        | Some body =>
            sres ← out_send (one_shot cfg out_relay) from to body;
            queue_finish msgid k from to attempts now max_attempts is_reply sres
        end
    end.

(** ** The re-drive *)

Record QueueItem := { qi_msgid : Z; qi_k : Z; qi_from : bytes; qi_to : bytes; qi_attempts : Z }.

Definition queue_collect_cb (msgid k : Z) (from to : bytes) (attempts : Z) (qc : list QueueItem)
  : list QueueItem * bool :=
  (qc ++ [{| qi_msgid := msgid; qi_k := k; qi_from := from; qi_to := to; qi_attempts := attempts |}], false).

(** The delivery loop: at most [n] items, none once the deadline has passed. *)
Fixpoint redrive_loop cfg (n : nat) (deadline : Z) (items : list QueueItem) : M unit :=
  match items, n with
  | [], _ => mret tt
  | _, O => mret tt
  | it :: items', S n' =>
      ms ← on_host monotonic_ms;
      if ms >=? deadline then mret tt
      else
        _ ← queue_deliver_one cfg (qi_msgid it) (qi_k it) (qi_from it) (qi_to it) (qi_attempts it);
        redrive_loop cfg n' deadline items'
  end.

Definition queue_redrive cfg : M unit :=
  now ← now32;
  ms ← on_host monotonic_ms;
  let deadline := u64 (ms + SMTP_IN_REDRIVE_BUDGET_MS) in
  next_due ← on_store store_queue_next_due;
  if (next_due =? UINT32_MAX) || (next_due >? now) then mret tt
  else
    r ← on_store (fun s => let '(s', rc, qc) := store_queue_due s now queue_collect_cb [] in (s', (rc, qc)));
    if negb (r.1 =? VISAGE_OK) then mret tt
    else redrive_loop cfg SMTP_IN_REDRIVE_BATCH deadline r.2.

(** ** The durable enqueue *)

(** The spool write of [queue_enqueue]: the path once the body is on disk. *)
Definition spool_body cfg (msgid k : Z) (body : bytes) : M (option bytes) :=
  made ← mkdir_p (sg_spool (storage cfg));
  if negb made then mret (@None bytes)
  else match spool_out_path cfg msgid k 4096 with
       | None => mret (@None bytes)
       | Some p =>
           ok ← on_host (fun h => write_file_fsync h p body);
           mret (if (ok : bool) then Some p else None)
       end.

(** [queue_enqueue]: true when it returns 0. *)
Definition queue_enqueue cfg (msgid k : Z) (from to sanitized : bytes) (reply : bool) : M bool :=
  now ← now32;
  spooled ← spool_body cfg msgid k sanitized;
  match spooled with
  | None => _ ← log_add msgid now LOG_DIR_OUT from to (bs "error"); mret false
  | Some spoolpath =>
      rc ← on_store (fun s => store_queue_add s msgid k from to);
      if negb (rc =? VISAGE_OK) then
        _ ← unlink spoolpath;
        _ ← log_add msgid now LOG_DIR_OUT from to (bs "error");
        mret false
      else
        _ ← log_add msgid now LOG_DIR_OUT from to (bs "queued");
        _ ← when reply (on_marks (fun l => reply_mark_push l msgid k));
        _ ← queue_deliver_one cfg msgid k from to 0;
        mret true
  end.

(** ** Spool retention *)

Definition spool_entry_path cfg (name : bytes) : option bytes :=
  let s := sg_spool (storage cfg) ++ "/"%chr :: name in
  if (4096 <=? length s)%nat then None else Some s.

(** Whether an outbound body may go: its delivery is known and not active. *)
Definition body_inactive (msgid k : Z) : M bool := fun w =>
  let '(rc, st) := store_queue_status (w_store w) msgid k 64 in
  (w, if negb (rc =? VISAGE_OK) then false
      else match st with
           | Some st => negb (beq st (bs "queued") || beq st (bs "delivering"))
           | None => false
           end).

(** The body of the directory loop of [spool_gc]. *)
Definition gc_entry cfg (now : Z) (name : bytes) : M unit :=
  if chd name =? "."%chr then mret tt
  else
    match spool_name_parse name with
    | NotSpool => mret tt
    | shape =>
        match spool_entry_path cfg name with
        | None => mret tt
        | Some path =>
            st ← on_host (fun h => sys_stat h path);
            match st with
            | None => mret tt
            | Some mtime =>
                if now - mtime <? sg_retention_days (storage cfg) * 86400 then mret tt
                else
                  match shape with
                  | SpoolOut msgid k =>
                      inactive ← body_inactive msgid k;
                      if negb inactive then mret tt
                      else
                        _ ← unlink path;
                        _ ← on_store (fun s => store_queue_delete s msgid k);
                        mret tt
                  | _ => unlink path
                  end
            end
        end
    end.

Fixpoint gc_loop cfg (now : Z) (names : list bytes) : M unit :=
  match names with
  | [] => mret tt
  | n :: names' => _ ← gc_entry cfg now n; gc_loop cfg now names'
  end.

Definition spool_gc cfg : M unit :=
  if sg_retention_days (storage cfg) =? 0 then mret tt
  else
    now ← on_host time_now;
    names ← on_host (fun h => sys_readdir h (sg_spool (storage cfg)));
    match names with
    | None => mret tt
    | Some names => gc_loop cfg now names
    end.

End SmtpQueue.
