(* ===== verification/SmtpQueueSpec.v ===== *)
(** * Correctness of the delivery queue of the SMTP server

    Frame lemmas (what each store and host call leaves alone, whatever it
    returns), the transition of one delivery on a healthy engine, the bound on
    its retries, the durable enqueue and the safety of the spool sweep. *)

From S2P Require Import Prelude MailLines MailHeader DlEngine Store StoreSpec StoreTables StoreQueue Reply Json Config SmtpReply SmtpParse SmtpWorld MemHost SmtpQueue.

(** ** Frames of the store calls *)

Section StoreFrames.
Context {E : DlEngine} {L : DlLaws E}.
Implicit Types (d : dl_db) (s : Store).

(** The delivery (msgid, k) is stored, with this envelope in each of its rows. *)
Definition envelope d (m k : Z) (f t : bytes) : Prop :=
  (exists x, qrow d m k x) /\
  forall x, qrow d m k x -> sym d (col x 2) f /\ sym d (col x 3) t.

Definition str_grows d d' : Prop :=
  forall i t, dl_intern_str_of d i = Some t -> dl_intern_str_of d' i = Some t.

(** Outside the rows selected by [P], [d'] has the facts of [d]. *)
Definition same_outside (P : Rel -> row -> Prop) d d' : Prop :=
  str_grows d d' /\ forall r x, ~ P r x -> dl_has d' r x <-> dl_has d r x.

#[export] Instance same_outside_preorder P : PreOrder (same_outside P).
Proof.
  split; [intros d; by split; [intros i t|]|]. intros d1 d2 d3 [S1 F1] [S2 F2].
  split; [intros i t Ht; by apply S2, S1|]. intros r x Hx. by rewrite F2, F1.
Qed.

Lemma same_outside_mono (P Q : Rel -> row -> Prop) d d' :
  (forall r x, P r x -> Q r x) -> same_outside P d d' -> same_outside Q d d'.
Proof. intros HPQ [S F]. split; [done|]. intros r x Hx. apply F. auto. Qed.

Lemma ext_same_outside P d d' : ext d d' -> same_outside P d d'.
Proof. intros [F S]. by split. Qed.

Lemma intern_same P s x : same_outside P (db s) (db (intern s x).1).
Proof. apply ext_same_outside, intern_ext. Qed.

Lemma add_same_outside (P : Rel -> row -> Prop) s r x :
  P r x -> same_outside P (db s) (db (add_fact s r x).1).
Proof.
  intros HP. destruct (add_fact_db s r x) as (-> & _). split; [intros i t; by rewrite add_str_of|].
  intros r' y Hy. split; [intros [|[-> ->]]%add_has_inv; [done|tauto]|apply add_has_keep].
Qed.

Lemma delete_same_outside (P : Rel -> row -> Prop) p s r rows :
  (forall x, x ∈ rows -> P r x) -> same_outside P (db s) (db (delete_if p r s rows)).
Proof.
  intros HP. destruct (delete_if_spec p r s rows) as (I1 & I2 & I3 & _).
  split; [intros i t; by rewrite I3|]. intros r' y Hy. split; [apply I1|].
  intros Hh. apply I2; [done|]. intros ->. left. intros Hin. by apply Hy, HP.
Qed.

Definition in_rel (r0 : Rel) (r : Rel) (x : row) : Prop := r = r0.
Definition in_delivery (m k : Z) (r : Rel) (x : row) : Prop := r = RQueue /\ take 2 x = [m; k].

Lemma log_add_same s m ts dir l r st :
  same_outside (in_rel RLog) (db s) (db (store_log_add s m ts dir l r st).1).
Proof.
  unfold store_log_add. destruct (_ || _); [reflexivity|]. do 3 step_intern.
  assert (X : same_outside (in_rel RLog) (db s) (db s2)) by (apply ext_same_outside; by do 2 (etrans; [|eassumption])).
  destruct (_ || _); [exact X|].
  pose proof (add_same_outside (in_rel RLog) s2 RLog [m; ts; dir; i; i0; i1] eq_refl) as Ha.
  destruct (add_fact s2 RLog _) as [s3 rc]. cbn [fst] in Ha. destruct (rc <? 0); by etrans.
Qed.

Lemma set_status_same s m k st a nt :
  same_outside (in_delivery m k) (db s) (db (store_queue_set_status s m k st a nt).1) /\
  (forall f t, envelope (db s) m k f t -> envelope (db (store_queue_set_status s m k st a nt).1) m k f t).
Proof.
  destruct (is_nil st) eqn:Hst; [unfold store_queue_set_status; by rewrite Hst|].
  destruct (set_status_eq s m k st a nt Hst) as (s1 & i & _ & He & Hs & _ & _ & ->).
  assert (Henv : forall f t, envelope (db s) m k f t -> envelope (db s1) m k f t).
  { intros f t [[x Hx] Hall]. split; [exists x; by apply (qrow_ext _ _ _ _ _ He)|].
    intros y Hy%(qrow_ext _ _ _ _ _ He). destruct (Hall y Hy). destruct He as [_ S]. split; by apply S. }
  assert (Hsame1 : same_outside (in_delivery m k) (db s) (db s1)) by by apply ext_same_outside.
  destruct (Z.eqb_spec i 0); [done|]. destruct (dl_rows (db s1) RQueue [m; k]).2 eqn:Hok; [|done].
  pose proof (fun x => read_rows_sound (db s1) m k x Hok) as Hsound.
  pose proof (read_rows_nodup (db s1) m k) as Hnd.
  destruct (read_rows (db s1) m k) as [|x0 rows] eqn:Erows; [done|]. cbv zeta.
  set (next := [m; k; _; _; a; nt; i]). pose proof (find_row_spec next (x0 :: rows)) as Hf.
  assert (Hx0 : qrow (db s1) m k x0) by (apply Hsound; by left).
  (* a run of deletes that spares [next], from a store that holds it *)
  assert (Hdel : forall s2 dr, same_outside (in_delivery m k) (db s1) (db s2) ->
            dl_has (db s2) RQueue next -> next ∉ dr -> (forall x, x ∈ dr -> x ∈ x0 :: rows) ->
            (forall x, qrow (db s2) m k x -> x = next \/ qrow (db s1) m k x) ->
            same_outside (in_delivery m k) (db s) (db (delete_rows s2 RQueue dr)) /\
            (forall f t, envelope (db s) m k f t -> envelope (db (delete_rows s2 RQueue dr)) m k f t)).
  { intros s2 dr Hs2 Hnext Hn Hsub Hrows. rewrite delete_rows_if.
    pose proof (delete_same_outside (in_delivery m k) (fun _ => true) s2 RQueue dr) as Hd.
    destruct (delete_if_spec (fun _ => true) RQueue s2 dr) as (I1 & I2 & _).
    assert (Hd' : same_outside (in_delivery m k) (db s1) (db (delete_if (fun _ => true) RQueue s2 dr))).
    { etrans; [exact Hs2|]. apply Hd. intros x Hx. by split; [|apply Hsound, Hsub]. }
    split; [by etrans|]. intros f t [_ Hall]%Henv. destruct Hd' as [S _]. split.
    - exists next. split; [|done]. apply I2; [done|]. intros _. by left.
    - intros x [Hx%I1 Hp]. destruct (Hall x0 Hx0) as [A B]. destruct (Hrows x (conj Hx Hp)) as [->|Hq].
      + split; by apply S.
      + destruct (Hall x Hq). split; by apply S. }
  destruct (find_row next (x0 :: rows)) as [j|].
  - apply Hdel; [done|apply Hsound; by apply list_elem_of_lookup_2 in Hf| | |by right].
    + intros Hin. by apply (remove_nth_spec j _ next Hnd Hf) in Hin as [_ []].
    + intros x Hin. by apply (remove_nth_spec j _ next Hnd Hf) in Hin as [? _].
  - pose proof (add_same_outside (in_delivery m k) s1 RQueue next (conj eq_refl eq_refl)) as Ha.
    destruct (add_fact_db s1 RQueue next) as (Hda & Hra & _).
    destruct (add_fact s1 RQueue next) as [s2 rc]. cbn [fst snd] in *.
    assert (Hinv : forall x, qrow (db s2) m k x -> x = next \/ qrow (db s1) m k x).
    { intros x [Hx Hp]. rewrite Hda in Hx. apply add_has_inv in Hx as [|[_ ->]]; [by right|by left]. }
    destruct (Z.ltb_spec rc 0) as [Hrc|Hrc]; cbn [fst].
    + split; [by etrans|]. intros f t [_ Hall]%Henv. destruct Ha as [S _]. split.
      * exists x0. split; [|apply Hx0]. rewrite Hda. apply add_has_keep, Hx0.
      * intros x Hx. destruct (Hall x0 Hx0). destruct (Hinv x Hx) as [->|Hq]; [split; by apply S|].
        destruct (Hall x Hq). split; by apply S.
    + apply Hdel; try done. rewrite Hda. apply add_ok. by rewrite <- Hra.
Qed.

End StoreFrames.

(** ** Frames of the handlers *)

Section Handlers.
Context {E : DlEngine} {L : DlLaws E} {H : Host}.
Implicit Types (w : World) (cfg : Config).

Definition w_db (w : World) : dl_db := db (w_store w).

(** Facts outside [P] are kept; the machine and the attempts are those before. *)
Definition store_only (P : Rel -> row -> Prop) w w' : Prop :=
  same_outside P (w_db w) (w_db w') /\ w_host w' = w_host w /\ w_sent w' = w_sent w.

#[export] Instance store_only_preorder P : PreOrder (store_only P).
Proof.
  split; [intros w; split; [reflexivity|done]|]. intros w1 w2 w3 (S1 & H1 & A1) (S2 & H2 & A2).
  split; [by etrans|]. by rewrite H2, A2.
Qed.

Lemma store_only_mono (P Q : Rel -> row -> Prop) w w' :
  (forall r x, P r x -> Q r x) -> store_only P w w' -> store_only Q w w'.
Proof. intros HPQ (S & Hr). split; [by apply (same_outside_mono P)|done]. Qed.

Lemma on_store_only {A} P (f : Store -> Store * A) :
  (forall s, same_outside P (db s) (db (f s).1)) -> preserves (store_only P) (on_store f).
Proof. intros Hf w. unfold on_store. specialize (Hf (w_store w)). by destruct (f (w_store w)). Qed.

Lemma on_marks_only P g : preserves (store_only P) (on_marks g).
Proof. intros w. split; [reflexivity|done]. Qed.

Lemma log_add_only m ts dir l r st : preserves (store_only (in_rel RLog)) (log_add m ts dir l r st).
Proof.
  apply preserves_bind; [apply _| |intros ?; by apply preserves_ret, _].
  apply on_store_only. intros s. apply log_add_same.
Qed.

Lemma when_marks_only P b g : preserves (store_only P) (when b (on_marks g)).
Proof. apply preserves_when; [apply _|]. intros _. apply on_marks_only. Qed.

(** ** One status transition on a healthy engine *)

(** Delivery (m, k) has exactly one row, with this status, these attempts and
    this due time, and with the envelope of one of the rows it has in [d0]. *)
Definition settled d0 d (m k : Z) (st : bytes) (a nt : Z) : Prop :=
  exists x0 i, qrow d0 m k x0 /\ sym d i st /\
    forall x, qrow d m k x <-> x = [m; k; col x0 2; col x0 3; a; nt; i].

Lemma settled_row d0 d m k st a nt : settled d0 d m k st a nt -> few_rows d m k /\ exists x, qrow d m k x.
Proof.
  intros (x0 & i & _ & _ & Hall). split.
  - exists [[m; k; col x0 2; col x0 3; a; nt; i]]. split; [simpl; unfold QUEUE_SET_MAX_ROWS; lia|].
    intros x Hx%Hall. by apply list_elem_of_singleton.
  - eexists. by apply Hall.
Qed.

Lemma settled_trans d0 d1 d2 m k st a nt st' a' nt' :
  settled d0 d1 m k st a nt -> settled d1 d2 m k st' a' nt' -> settled d0 d2 m k st' a' nt'.
Proof.
  intros (x0 & i & Hx0 & _ & H1) (x1 & j & Hx1 & Hj & H2). apply H1 in Hx1 as ->. by exists x0, j.
Qed.

Lemma qrow_same P d d' m k x :
  same_outside P d d' -> ~ P RQueue x -> qrow d' m k x <-> qrow d m k x.
Proof. intros [_ F] Hx. unfold qrow. by rewrite F. Qed.

Lemma settled_log d0 d d' m k st a nt :
  same_outside (in_rel RLog) d d' -> settled d0 d m k st a nt -> settled d0 d' m k st a nt.
Proof.
  intros Hs (x0 & i & Hx0 & Hi & Hall). exists x0, i. split; [done|]. split; [by apply Hs|].
  intros x. by rewrite (qrow_same _ _ _ _ _ _ Hs).
Qed.

(** Facts of other deliveries and of every relation but the log. *)
Definition elsewhere (m k : Z) (r : Rel) (x : row) : Prop := in_delivery m k r x \/ in_rel RLog r x.

Lemma status_then {Hh : DlHealthy E} {A} (n : Z -> M A) w m k st a nt :
  is_nil st = false -> few_rows (w_db w) m k -> (exists x, qrow (w_db w) m k x) ->
  (forall rc, preserves (store_only (in_rel RLog)) (n rc)) ->
  let w' := (mbind n (set_status m k st a nt) w).1 in
  settled (w_db w) (w_db w') m k st a nt /\ store_only (elsewhere m k) w w'.
Proof.
  intros Hst Hfew Hrow Hn. unfold mbind, M_bind, set_status, on_store.
  pose proof (set_status_spec (w_store w) m k a nt st Hst Hfew) as Hs.
  pose proof (proj1 (set_status_same (w_store w) m k st a nt)) as Hsame.
  destruct (store_queue_set_status (w_store w) m k st a nt) as [s' rc]. cbn [fst] in Hsame.
  destruct Hs as (_ & _ & Hs). destruct (Hs Hrow) as (_ & (x0 & i & Hx0 & Hi & Hall) & _).
  set (w1 := MkWorld s' (w_marks w) (w_host w) (w_sent w)). destruct (Hn rc w1) as (S1 & R1).
  assert (Hset : settled (w_db w) (w_db w1) m k st a nt) by (exists x0, i; done).
  split; [by apply (settled_log _ (w_db w1))|]. split; [|done]. etrans.
  - apply (same_outside_mono (in_delivery m k)); [|exact Hsame]. intros; by left.
  - apply (same_outside_mono (in_rel RLog)); [|exact S1]. intros; by right.
Qed.

(** What the code returned, when the row is known to exist. *)
Lemma status_ok {Hh : DlHealthy E} w m k st a nt :
  is_nil st = false -> few_rows (w_db w) m k -> (exists x, qrow (w_db w) m k x) ->
  (set_status m k st a nt w).2 = VISAGE_OK.
Proof.
  intros Hst Hfew Hrow. unfold set_status, on_store.
  pose proof (set_status_spec (w_store w) m k a nt st Hst Hfew) as Hs.
  destruct (store_queue_set_status (w_store w) m k st a nt) as [s' rc].
  destruct Hs as (_ & _ & Hs). by destruct (Hs Hrow) as (-> & _).
Qed.

(** ** One delivery *)

(** The status, attempts and due time an attempt that returned [sres] leads to. *)
Definition next_state (sres attempts now max_attempts : Z) : bytes * Z * Z :=
  if sres =? SMTP_OK then (bs "delivered", attempts, 0)
  else if sres =? SMTP_PERMFAIL then (bs "permfail", attempts, 0)
  else
    let a := u32 (attempts + 1) in
    if a >? max_attempts then (bs "permfail", a, 0)
    else (bs "queued", a, u32 (now + smtp_backoff_sec a)).

Lemma finish_spec {Hh : DlHealthy E} w m k f t a now mx b sres :
  few_rows (w_db w) m k -> (exists x, qrow (w_db w) m k x) ->
  let w' := (queue_finish m k f t a now mx b sres w).1 in
  let '(st, a', nt) := next_state sres a now mx in
  settled (w_db w) (w_db w') m k st a' nt /\ store_only (elsewhere m k) w w'.
Proof.
  intros Hfew Hrow. unfold queue_finish, next_state, queue_requeue.
  assert (Hlog : forall rc : Z, forall (st : bytes), preserves (store_only (in_rel RLog))
    (_ ← log_add m now LOG_DIR_OUT f t st; when b (on_marks (fun l => reply_mark_remove l m k)))).
  { intros _ st. apply preserves_bind; [apply _|apply log_add_only|intros _; apply when_marks_only]. }
  destruct (sres =? SMTP_OK); [by apply status_then; auto|].
  destruct (sres =? SMTP_PERMFAIL); [by apply status_then; auto|]. cbv zeta.
  destruct (u32 (a + 1) >? mx); apply status_then; try done; intros _; apply log_add_only.
Qed.

(** The relay an attempt of delivery (m, k) goes through. *)
Definition relay_of cfg w (m k : Z) : ConfigRelay := smtp_relay_for cfg (reply_mark_lookup (w_marks w) m k).

(** The attempt a world records, if any, and the state it leads to. *)
Definition attempt_result cfg w (m k : Z) (f t : bytes) (a now : Z) (sent : list relay_attempt)
    (r : bytes * Z * Z) : Prop :=
  let mx := max_attempts_of (relay_of cfg w m k) in
  match spool_out_path cfg m k 4096, sent with
  | None, [] => r = (bs "permfail", a, 0)
  | Some p, [] => r = next_state SMTP_TEMPFAIL a now mx
  | Some p, [at_] =>
      file_at (w_host w) p = Some (ra_body at_) /\ ra_from at_ = f /\ ra_to at_ = t /\
      ra_relay at_ = relay (one_shot cfg (relay_of cfg w m k)) /\
      r = next_state (ra_result at_) a now mx
  | _, _ => False
  end.


(** *** Running the calls *)

Lemma bind_run {A B} (m : M A) (f : A -> M B) w : (m ≫= f) w = f (m w).2 (m w).1.
Proof. unfold mbind, M_bind. by destruct (m w). Qed.

(** The machine moved on; nothing else changed and no file did. *)
Definition host_step w w' : Prop :=
  w_store w' = w_store w /\ w_marks w' = w_marks w /\ w_sent w' = w_sent w /\
  forall p, file_at (w_host w') p = file_at (w_host w) p.

#[export] Instance host_step_preorder : PreOrder host_step.
Proof.
  split; [done|]. intros w1 w2 w3 (A1 & A2 & A3 & A4) (B1 & B2 & B3 & B4). unfold host_step.
  rewrite B1, B2, B3. repeat (split; [done|]). intros p. by rewrite B4.
Qed.

Lemma on_host_step {A} (f : host -> host * A) : keeps_files f -> preserves host_step (on_host f).
Proof. intros Hf w. unfold on_host. specialize (Hf (w_host w)). by destruct (f (w_host w)). Qed.

Lemma now32_step {HL : HostLaws H} : preserves host_step now32.
Proof.
  apply preserves_bind; [apply _|apply on_host_step, time_keeps|intros ?; by apply preserves_ret, _].
Qed.

Lemma deliver_one_spec {Hh : DlHealthy E} {HL : HostLaws H} cfg w
  (m k : Z) (f t : bytes) (a : Z)
  (Hfew : few_rows (w_db w) m k) (Hrow : exists x, qrow (w_db w) m k x) :
  let w' := (queue_deliver_one cfg m k f t a w).1 in
  exists sent st a' nt,
    w_sent w' = w_sent w ++ sent /\
    attempt_result cfg w m k f t a (now32 w).2 sent (st, a', nt) /\
    settled (w_db w) (w_db w') m k st a' nt /\
    same_outside (elsewhere m k) (w_db w) (w_db w').
Proof.
  cbv zeta. unfold queue_deliver_one. rewrite bind_run.
  destruct (now32_step w) as (Hs1 & Hm1 & Hs1' & Hf1). destruct (now32 w) as [w1 now]. cbn [fst snd] in *.
  rewrite bind_run. cbn [get_w fst snd].
  set (is_reply := reply_mark_lookup (w_marks w1) m k). set (out_relay := smtp_relay_for cfg is_reply).
  assert (Hrel : relay_of cfg w m k = out_relay) by (unfold relay_of, out_relay, is_reply; by rewrite Hm1).
  rewrite bind_run. assert (Hdb1 : w_db w1 = w_db w) by (unfold w_db; by rewrite Hs1). rewrite <- Hdb1 in Hfew, Hrow |- *.
  rewrite (status_ok w1 m k (bs "delivering") a 0) by done. cbn [Z.eqb negb VISAGE_OK].
  destruct (status_then (fun _ => mret tt) w1 m k (bs "delivering") a 0) as [Hset (Hsame & Hh2 & Hsent2)];
    [done|done|done|intros _; by apply preserves_ret, _|].
  unfold mbind, M_bind in Hset, Hsame, Hh2, Hsent2. destruct (set_status m k (bs "delivering") a 0 w1) as [w2 rc].
  cbn [mret M_ret fst] in *. destruct (settled_row _ _ _ _ _ _ _ Hset) as [Hfew2 Hrow2].
  unfold attempt_result. rewrite Hrel. destruct (spool_out_path cfg m k 4096) as [p|].
  2:{ destruct (status_then (fun _ => _ ← log_add m now LOG_DIR_OUT f t (bs "permfail");
        when is_reply (on_marks (fun l => reply_mark_remove l m k))) w2 m k (bs "permfail") a 0) as [Hset3 (Hsame3 & _ & Hsent3)];
        [done|done|done|intros _; apply preserves_bind; [apply _|apply log_add_only|intros _; apply when_marks_only]|].
      exists [], (bs "permfail"), a, 0. rewrite app_nil_r. split; [congruence|]. split; [done|].
      split; [by apply (settled_trans _ (w_db w2) _ _ _ (bs "delivering") a 0)|by etrans]. }
  rewrite bind_run. destruct (on_host_step (fun h => read_file h p) (read_keeps p) w2) as (Hs3 & Hm3 & Hsent3 & Hf3).
  assert (Hsound : forall b, (on_host (fun h => read_file h p) w2).2 = Some b -> file_at (w_host w) p = Some b).
  { intros b. unfold on_host. pose proof (read_sound (w_host w2) p b) as Hr.
    destruct (read_file (w_host w2) p). cbn [snd] in *. intros Hb. rewrite <- Hf1, <- Hh2. auto. }
  destruct (on_host (fun h => read_file h p) w2) as [w3 [body|]]; cbn [fst snd] in *.
  - rewrite bind_run. set (w4 := (out_send (one_shot cfg out_relay) f t body w3).1).
    set (sres := (out_send (one_shot cfg out_relay) f t body w3).2).
    assert (Hw4 : w_db w4 = w_db w2 /\ w_sent w4 = w_sent w2 ++ [{| ra_relay := relay (one_shot cfg out_relay);
       ra_from := f; ra_to := t; ra_body := body; ra_result := sres |}]).
    { unfold w4, sres, out_send, w_db. destruct (smtp_out_send (w_host w3) (one_shot cfg out_relay) f t body).
      cbn [fst snd w_store w_sent]. by rewrite Hs3, Hsent3. }
    destruct Hw4 as [Hdb4 Hsent4].
    pose proof (finish_spec w4 m k f t a now (max_attempts_of out_relay) is_reply sres) as Hfin. cbv zeta in Hfin.
    rewrite Hdb4 in Hfin. destruct (next_state sres a now (max_attempts_of out_relay)) as [[st a'] nt] eqn:En.
    destruct (Hfin Hfew2 Hrow2) as (Hset5 & Hsame5 & _ & Hsent5). rewrite Hdb4 in Hsame5.
    eexists _, st, a', nt. split; [by rewrite Hsent5, Hsent4, Hsent2, Hs1'|]. split; [cbn [ra_body ra_from ra_to ra_relay ra_result]; auto|].
    split; [by apply (settled_trans _ (w_db w2) _ _ _ (bs "delivering") a 0)|by etrans].
  - assert (Hdb3 : w_db w3 = w_db w2) by (unfold w_db; by rewrite Hs3).
    pose proof (finish_spec w3 m k f t a now (max_attempts_of out_relay) is_reply SMTP_TEMPFAIL) as Hfin. cbv zeta in Hfin.
    rewrite Hdb3 in Hfin. change (queue_finish m k f t a now _ is_reply SMTP_TEMPFAIL) with
      (queue_requeue m k f t a now (max_attempts_of out_relay)) in Hfin.
    destruct (next_state SMTP_TEMPFAIL a now (max_attempts_of out_relay)) as [[st a'] nt] eqn:En.
    destruct (Hfin Hfew2 Hrow2) as (Hset5 & Hsame5 & _ & Hsent5). rewrite Hdb3 in Hsame5.
    exists [], st, a', nt. rewrite app_nil_r. split; [congruence|]. split; [done|].
    split; [by apply (settled_trans _ (w_db w2) _ _ _ (bs "delivering") a 0)|by etrans].
Qed.

(** C4: One delivery attempt. On a healthy engine, for a queued delivery with at
    most [QUEUE_SET_MAX_ROWS] rows, [queue_deliver_one] makes at most one relay
    attempt: through the relay the reply mark selects, with its in-attempt
    retries switched off, with the envelope given and with the bytes of the
    spool file of that delivery. Afterwards the delivery has exactly one row, and
    it is never left "delivering": "delivered" when the relay accepted, "permfail"
    when it refused for good, when the spool path does not fit or when the
    attempts are used up, and otherwise "queued" with one more attempt and the
    backoff added to the clock, also when the body could not be read. No other
    delivery and no relation but the log changes. *)
Theorem queue_deliver_one_correct {Hh : DlHealthy E} {HL : HostLaws H} cfg w
  (m k : Z) (f t : bytes) (a : Z)
  (Hfew : few_rows (w_db w) m k) (Hrow : exists x, qrow (w_db w) m k x) :
  let w' := (queue_deliver_one cfg m k f t a w).1 in
  exists sent st a' nt,
    w_sent w' = w_sent w ++ sent /\
    attempt_result cfg w m k f t a (now32 w).2 sent (st, a', nt) /\
    settled (w_db w) (w_db w') m k st a' nt /\
    same_outside (elsewhere m k) (w_db w) (w_db w').
Proof. by apply deliver_one_spec. Qed.


(** ** Retries end *)

(** The only row of the delivery is a queued one with [a] attempts. *)
Definition queued_with d (m k a : Z) : Prop :=
  exists f t nt i, sym d i (bs "queued") /\ forall x, qrow d m k x <-> x = [m; k; f; t; a; nt; i].

(** [redriven n w]: the delivery was enqueued and then attempted [n] times, and
    every attempt left it queued. Between two attempts anything may happen that
    keeps its row, so [v] is any world with the same row; the attempt is made
    with the attempts the row records, as the due walk reports them. *)
Inductive redriven cfg (m k : Z) (f t : bytes) : nat -> World -> Prop :=
  | redriven_0 w : queued_with (w_db w) m k 0 -> redriven cfg m k f t 0 w
  | redriven_S n w v a :
      redriven cfg m k f t n w ->
      (forall b, queued_with (w_db w) m k b -> queued_with (w_db v) m k b) ->
      queued_with (w_db v) m k a ->
      (exists b, queued_with (w_db (queue_deliver_one cfg m k f t a v).1) m k b) ->
      redriven cfg m k f t (S n) (queue_deliver_one cfg m k f t a v).1.

Lemma queued_with_row d m k a : queued_with d m k a -> few_rows d m k /\ exists x, qrow d m k x.
Proof.
  intros (f & t & nt & i & _ & Hall). split.
  - exists [[m; k; f; t; a; nt; i]]. split; [simpl; unfold QUEUE_SET_MAX_ROWS; lia|].
    intros x Hx%Hall. by apply list_elem_of_singleton.
  - eexists. by apply Hall.
Qed.

Lemma queued_with_inj d m k a b : queued_with d m k a -> queued_with d m k b -> a = b.
Proof.
  intros (f & t & nt & i & _ & H1) (f' & t' & nt' & i' & _ & H2).
  assert (X : [m; k; f; t; a; nt; i] = [m; k; f'; t'; b; nt'; i']) by (by apply H2, H1).
  by injection X.
Qed.

(** The most attempts either relay allows. *)
Definition attempt_cap cfg : Z := Z.max (max_attempts_of (relay cfg)) (max_attempts_of (reply_relay cfg)).

Lemma next_state_queued sres a now mx st a' nt :
  next_state sres a now mx = (st, a', nt) -> st = bs "queued" -> a' = u32 (a + 1) /\ a' <= mx.
Proof.
  unfold next_state. destruct (sres =? SMTP_OK); [intros [= <- _ _]; discriminate|].
  destruct (sres =? SMTP_PERMFAIL); [intros [= <- _ _]; discriminate|]. cbv zeta.
  destruct (Z.gtb_spec (u32 (a + 1)) mx); [intros [= <- _ _]; discriminate|].
  intros [= _ <- _] _. split; [done|lia].
Qed.

(** Retries end. On a healthy engine, whatever the relay answers and
    whatever happens between two attempts, and whichever of the two relays each
    attempt goes through, a delivery is left queued by at most as many attempts
    as the larger limit of the two relays allows: the next attempt makes it
    "delivered" or "permfail". (The limit must be below 2^32 - 1, since the
    attempt counter is a 32-bit integer.) *)
Theorem queue_retries_bounded {Hh : DlHealthy E} {HL : HostLaws H} cfg (m k : Z) (f t : bytes) (n : nat) w
  (Hcap : attempt_cap cfg < UINT32_MAX) (Hrun : redriven cfg m k f t n w) :
  queued_with (w_db w) m k (Z.of_nat n) /\ Z.of_nat n <= Z.max 0 (attempt_cap cfg).
Proof.
  induction Hrun as [w Hq|n w v a _ [IHq IHn] Hkeep Ha [b Hb]]; [split; [done|lia]|].
  assert (a = Z.of_nat n) as -> by exact (queued_with_inj _ _ _ _ _ Ha (Hkeep _ IHq)).
  destruct (queued_with_row _ _ _ _ Ha) as [Hfew Hrow].
  destruct (deliver_one_spec cfg v m k f t (Z.of_nat n) Hfew Hrow) as (sent & st & a' & nt & _ & Hres & Hset & _).
  set (w' := (queue_deliver_one cfg m k f t (Z.of_nat n) v).1) in *.
  destruct Hset as (x0 & i & _ & Hi & Hall).
  destruct Hb as (f' & t' & nt' & i' & Hi' & Hall').
  assert (X : [m; k; col x0 2; col x0 3; a'; nt; i] = [m; k; f'; t'; b; nt'; i']) by (by apply Hall', Hall).
  injection X as E1 E2 E3 E4 E5. rewrite <- E5 in Hi'. unfold sym in Hi, Hi'.
  assert (st = bs "queued") as -> by congruence.
  assert (Hmx : max_attempts_of (relay_of cfg v m k) <= attempt_cap cfg).
  { unfold relay_of, smtp_relay_for, attempt_cap. destruct (reply_mark_lookup _ _ _); lia. }
  assert (Hstep : a' = u32 (Z.of_nat n + 1) /\ a' <= max_attempts_of (relay_of cfg v m k)).
  { unfold attempt_result in Hres. destruct (spool_out_path cfg m k 4096) as [p|].
    - destruct sent as [|at_ [|]]; [|destruct Hres as (_ & _ & _ & _ & Hres)|done];
        by apply (next_state_queued _ _ _ _ _ _ _ (eq_sym Hres)).
    - destruct sent; [|done]. discriminate Hres. }
  destruct Hstep as [Hstep Hle]. rewrite u32_small in Hstep by (unfold UINT32_MAX in *; lia).
  rewrite Nat2Z.inj_succ. rewrite Hstep in Hall, Hle. unfold Z.succ. split; [|lia].
  exists (col x0 2), (col x0 3), nt, i. split; [done|]. done.
Qed.

End Handlers.

(** ** Witnesses *)

Lemma mem_queued (d : mem_db) (m k f t a nt i : Z) :
  mem_str_of d i = Some (bs "queued") ->
  List.filter (is_row_prefix [m; k]) (mem_rows d RQueue) = [[m; k; f; t; a; nt; i]] ->
  @queued_with MemEngine d m k a.
Proof.
  intros Hi Hrows. exists f, t, nt, i. split; [done|]. intros x.
  rewrite <- list_elem_of_singleton, <- Hrows, list_elem_of_In, List.filter_In, <- list_elem_of_In.
  unfold is_row_prefix. by rewrite row_eqb_true.
Qed.

Lemma mem_queue_world_row answer : exists x, qrow (w_db (mem_queue_world answer)) 7 0 x.
Proof. exists [7; 0; 1; 2; 0; 0; 3]. split; [vm_compute; do 2 constructor|done]. Qed.

Lemma queue_deliver_one_correct_witness :
  let w := mem_queue_world SMTP_OK in
  let w' := (queue_deliver_one mem_cfg 7 0 (bs "a@x") (bs "b@y") 0 w).1 in
  map ra_body (w_sent w') = [bs "hi"] /\
  exists st a' nt, settled (w_db w) (w_db w') 7 0 st a' nt.
Proof.
  split; [vm_compute; reflexivity|].
  destruct (queue_deliver_one_correct mem_cfg (mem_queue_world SMTP_OK) 7 0 (bs "a@x") (bs "b@y") 0
    (mem_q_few 7 0) (mem_queue_world_row SMTP_OK)) as (sent & st & a' & nt & _ & _ & Hs & _).
  by exists st, a', nt.
Defined.

Lemma queue_retries_bounded_witness :
  exists w : @World MemEngine MemHost, redriven mem_cfg 7 0 (bs "a@x") (bs "b@y") 1 w /\ queued_with (w_db w) 7 0 1 /\ attempt_cap mem_cfg = 5.
Proof.
  assert (Hrun : redriven mem_cfg 7 0 (bs "a@x") (bs "b@y") 1
    (queue_deliver_one mem_cfg 7 0 (bs "a@x") (bs "b@y") 0 (mem_queue_world SMTP_TEMPFAIL)).1).
  { apply (redriven_S mem_cfg 7 0 (bs "a@x") (bs "b@y") 0 (mem_queue_world SMTP_TEMPFAIL)).
    - apply redriven_0. apply (mem_queued _ 7 0 1 2 0 0 3); vm_compute; reflexivity.
    - done.
    - apply (mem_queued _ 7 0 1 2 0 0 3); vm_compute; reflexivity.
    - exists 1. apply (mem_queued _ 7 0 1 2 1 2001 3); vm_compute; reflexivity. }
  eexists. split; [exact Hrun|]. split; [|reflexivity].
  apply (queue_retries_bounded mem_cfg 7 0 (bs "a@x") (bs "b@y") 1 _); [vm_compute; reflexivity|exact Hrun].
Defined.
