(* ===== verification/SmtpDurable.v ===== *)
(** * What survives on disk (src/src/smtp_in.c)

    A delivery is committed when its queue row is stored and the spool file of
    its path holds its body. This file shows that no handler of the queue loses a
    committed delivery, whatever the engine, the disk and the relay answer; that
    [queue_enqueue] reports success only for a committed delivery; and that the
    retention sweep never removes the body of an active one. *)

From S2P Require Import Prelude MailLines MailHeader DlEngine Store StoreSpec StoreTables StoreQueue Reply Json Config SmtpReply SmtpParse SmtpWorld MemHost SmtpQueue SmtpQueueSpec.

Section Durable.
Context {E : DlEngine} {L : DlLaws E} {H : Host} {HL : HostLaws H}.
Implicit Types (w : World) (cfg : Config).

(** ** Committed deliveries *)

Definition body_on_disk cfg w (m k : Z) (body : bytes) : Prop :=
  exists p, spool_out_path cfg m k 4096 = Some p /\ file_at (w_host w) p = Some body.

Definition committed cfg w (m k : Z) (f t body : bytes) : Prop :=
  is_u32 m /\ is_u32 k /\ envelope (w_db w) m k f t /\ body_on_disk cfg w m k body.

(** What a handler that may write the facts [P] promises of everything else. *)
Definition step_ok cfg (P : Rel -> row -> Prop) w w' : Prop :=
  (store_wf (w_db w) -> store_wf (w_db w')) /\
  same_outside P (w_db w) (w_db w') /\
  (forall x, dl_has (w_db w) RRevmap x -> dl_has (w_db w') RRevmap x) /\
  (forall m k f t b, committed cfg w m k f t b -> committed cfg w' m k f t b).

#[export] Instance step_ok_preorder cfg P : PreOrder (step_ok cfg P).
Proof.
  split; [intros w; split; [done|split; [reflexivity|done]]|].
  intros w1 w2 w3 (A1 & A2 & A3 & A4) (B1 & B2 & B3 & B4).
  split; [auto|]. split; [by etrans|]. split; auto.
Qed.

Lemma step_ok_mono cfg (P Q : Rel -> row -> Prop) w w' :
  (forall r x, P r x -> Q r x) -> step_ok cfg P w w' -> step_ok cfg Q w w'.
Proof. intros HPQ (A1 & A2 & A3). split; [done|]. split; [by apply (same_outside_mono P)|done]. Qed.

Lemma preserves_mono {A} cfg (P Q : Rel -> row -> Prop) (m : M A) :
  (forall r x, P r x -> Q r x) -> preserves (step_ok cfg P) m -> preserves (step_ok cfg Q) m.
Proof. intros HPQ Hm w. apply (step_ok_mono _ P); [done|apply Hm]. Qed.

(** A delivery none of whose rows may be written keeps its envelope. *)
Lemma envelope_same (P : Rel -> row -> Prop) (d d' : dl_db) m k f t :
  same_outside P d d' -> (forall x, take 2 x = [m; k] -> ~ P RQueue x) ->
  envelope d m k f t -> envelope d' m k f t.
Proof.
  intros [S F] HP [[x [Hx Hp]] Hall]. split.
  - exists x. split; [|done]. apply F; [by apply HP|done].
  - intros y [Hy Hq]. apply F in Hy; [|by apply HP]. destruct (Hall y (conj Hy Hq)). split; by apply S.
Qed.

Lemma committed_files cfg w w' m k f t b :
  w_store w' = w_store w -> (forall p, file_at (w_host w') p = file_at (w_host w) p) ->
  committed cfg w m k f t b -> committed cfg w' m k f t b.
Proof.
  intros Hs Hf (A & B & C & p & D & F). unfold committed, body_on_disk, w_db. rewrite Hs.
  split; [done|]. split; [done|]. split; [done|]. exists p. by rewrite Hf.
Qed.

Lemma host_step_ok cfg P w w' :
  w_store w' = w_store w -> (forall p, file_at (w_host w') p = file_at (w_host w) p) -> step_ok cfg P w w'.
Proof.
  intros Hs Hf. split; [unfold w_db; by rewrite Hs|]. split; [unfold w_db; rewrite Hs; reflexivity|].
  split; [unfold w_db; by rewrite Hs|]. intros. by apply (committed_files cfg w).
Qed.

Lemma on_host_ok {A} cfg P (f : host -> host * A) : keeps_files f -> preserves (step_ok cfg P) (on_host f).
Proof. intros Hf w. destruct (on_host_step f Hf w) as (A1 & _ & _ & A2). by apply host_step_ok. Qed.

Lemma out_send_ok cfg P c f t b : preserves (step_ok cfg P) (out_send c f t b).
Proof.
  intros w. pose proof (out_send_keeps c f t b (w_host w)) as Hk. unfold out_send.
  destruct (smtp_out_send (w_host w) c f t b). by apply host_step_ok.
Qed.

Lemma on_marks_ok cfg P g : preserves (step_ok cfg P) (on_marks g).
Proof. intros w. by apply host_step_ok. Qed.

Lemma on_store_ok {A} cfg P (f : Store -> Store * A) :
  (forall s, store_wf (db s) -> store_wf (db (f s).1)) ->
  (forall s, same_outside P (db s) (db (f s).1)) ->
  (forall s x, dl_has (db s) RRevmap x -> dl_has (db (f s).1) RRevmap x) ->
  (forall s m k g t, envelope (db s) m k g t -> envelope (db (f s).1) m k g t) ->
  preserves (step_ok cfg P) (on_store f).
Proof.
  intros H1 H2 H3 H4 w. unfold on_store, step_ok, committed, body_on_disk, w_db.
  specialize (H1 (w_store w)). specialize (H2 (w_store w)). specialize (H3 (w_store w)). specialize (H4 (w_store w)).
  destruct (f (w_store w)) as [s a]. cbn [fst w_store w_host] in *. split; [done|]. split; [done|].
  split; [done|]. intros m k g t b (A1 & A2 & A3 & A4). auto.
Qed.

Lemma log_add_ok cfg (P : Rel -> row -> Prop) m ts dir l r st :
  (forall x, P RLog x) -> is_u32 m -> is_u32 ts -> is_u32 dir -> preserves (step_ok cfg P) (log_add m ts dir l r st).
Proof.
  intros HP Hm Hts Hdir. apply (preserves_mono cfg (in_rel RLog)); [intros ? x ->; apply HP|].
  apply preserves_bind; [apply _| |intros ?; by apply preserves_ret, _].
  pose proof (fun s => log_add_same s m ts dir l r st) as Hs. apply on_store_ok; [|done| |].
  - intros s Hwf. apply (run_op_wf s (OLogAdd m ts dir l r st)); [done|]. simpl. auto.
  - intros s x Hx. by apply (Hs s).
  - intros s m' k g t. by apply (envelope_same (in_rel RLog)).
Qed.

Lemma set_status_ok cfg (P : Rel -> row -> Prop) m k st a nt :
  (forall x, take 2 x = [m; k] -> P RQueue x) -> is_u32 m -> is_u32 k -> is_u32 a -> is_u32 nt ->
  preserves (step_ok cfg P) (set_status m k st a nt).
Proof.
  intros HP Hm Hk Ha Hnt. apply (preserves_mono cfg (in_delivery m k)); [intros ? x [-> Hx]; by apply HP|].
  pose proof (fun s => set_status_same s m k st a nt) as Hs. apply on_store_ok.
  - intros s. by apply set_status_wf.
  - intros s. apply Hs.
  - intros s x Hx. by apply (proj1 (Hs s)); [intros [? _]|].
  - intros s m' k' g t He. destruct (decide ((m', k') = (m, k))) as [[= -> ->]|Hne]; [by apply Hs|].
    apply (envelope_same (in_delivery m k) (db s)); [apply Hs| |done].
    intros x Hx [_ Hx']. apply Hne. congruence.
Qed.


Lemma now32_u32 w : is_u32 (now32 w).2.
Proof. unfold now32. rewrite bind_run. apply u32_range. Qed.

Lemma now32_bind_ok {A} cfg P (n : Z -> M A) :
  (forall now, is_u32 now -> preserves (step_ok cfg P) (n now)) -> preserves (step_ok cfg P) (now32 ≫= n).
Proof.
  intros Hn w. rewrite bind_run. etrans; [|apply Hn, now32_u32].
  destruct (now32_step w) as (A1 & _ & _ & A2). by apply host_step_ok.
Qed.

Lemma read_file_ok cfg P p : preserves (step_ok cfg P) (on_host (fun h => read_file h p)).
Proof. apply on_host_ok, read_keeps. Qed.

Lemma get_w_ok cfg P : preserves (step_ok cfg P) get_w.
Proof. intros w. reflexivity. Qed.

Hint Resolve read_file_ok get_w_ok out_send_ok on_marks_ok : preserves.

(** Closes a step on the log or on the delivery's own row. *)
Ltac ok_call :=
  match goal with
  | |- preserves _ (set_status _ _ _ _ _) =>
      apply set_status_ok; try (done || apply u32_range); intros ? ?; by left
  | |- preserves _ (log_add _ _ _ _ _ _) =>
      apply log_add_ok; try (done || apply u32_range); intros ?; by right
  end.

Ltac ok_tac := repeat first [preserves_step | ok_call | by eauto with preserves].

Lemma requeue_ok cfg m k f t a now mx :
  is_u32 m -> is_u32 k -> is_u32 now ->
  preserves (step_ok cfg (elsewhere m k)) (queue_requeue m k f t a now mx).
Proof. intros Hm Hk Hnow. unfold queue_requeue. cbv zeta. ok_tac. Qed.

Lemma deliver_one_ok cfg m k f t a :
  is_u32 m -> is_u32 k -> is_u32 a ->
  preserves (step_ok cfg (elsewhere m k)) (queue_deliver_one cfg m k f t a).
Proof.
  intros Hm Hk Ha. unfold queue_deliver_one. apply now32_bind_ok. intros now Hnow. cbv zeta.
  ok_tac; [|by apply requeue_ok]. unfold queue_finish. ok_tac. by apply requeue_ok.
Qed.

(** ** The durable enqueue *)

(** No row of message [m] has ordinal [k] or above. *)
Definition fresh w (m k : Z) : Prop := forall k' x, k <= k' -> ~ qrow (w_db w) m k' x.

Lemma fresh_same w w' (P : Rel -> row -> Prop) m k k' :
  fresh w m k -> k <= k' -> same_outside P (w_db w) (w_db w') ->
  (forall j x, k' <= j -> take 2 x = [m; j] -> ~ P RQueue x) -> fresh w' m k'.
Proof.
  intros Hf Hle [_ F] HP j x Hj [Hx Hp]. apply (Hf j x); [lia|]. split; [|done].
  apply F; [by apply (HP j)|done].
Qed.

Lemma queue_add_same s m k f t :
  same_outside (in_delivery m k) (db s) (db (store_queue_add s m k f t).1) /\
  ((forall x, ~ qrow (db s) m k x) -> (store_queue_add s m k f t).2 = VISAGE_OK ->
   envelope (db (store_queue_add s m k f t).1) m k f t).
Proof.
  unfold store_queue_add. destruct (is_nil t) eqn:Hnil; [split; [reflexivity|done]|]. do 3 step_intern.
  assert (X : ext (db s) (db s2)) by (by do 2 (etrans; [|eassumption])).
  pose proof (ext_same_outside (in_delivery m k) _ _ X) as Hs.
  destruct ((i =? 0) || (i0 =? 0) || (i1 =? 0)) eqn:Hb; [by split|].
  pose proof (add_same_outside (in_delivery m k) s2 RQueue [m; k; i; i0; 0; 0; i1] (conj eq_refl eq_refl)) as Ha.
  destruct (add_fact_db s2 RQueue [m; k; i; i0; 0; 0; i1]) as (Hd & Hr & _).
  pose proof (add_ok (db s2) RQueue [m; k; i; i0; 0; 0; i1]) as Hao. rewrite <- Hr, <- Hd in Hao.
  destruct (add_fact s2 RQueue _) as [s3 rc]. cbn [fst snd] in *.
  destruct (Z.ltb_spec rc 0) as [Hrc|Hrc]; cbn [fst snd db]; (split; [by etrans|]); [done|].
  intros Hfresh _.
  assert (Hrow : forall x, qrow (db s3) m k x -> x = [m; k; i; i0; 0; 0; i1]).
  { intros x [Hx Hp]. rewrite Hd in Hx. apply add_has_inv in Hx as [Hx|[_ ->]]; [|done].
    destruct (Hfresh x). split; [by apply X|done]. }
  split; [eexists; split; [by apply Hao|done]|]. intros x ->%Hrow. unfold sym, col. cbn [nth].
  destruct Ha as [S _]. split; apply S.
  - destruct Hext1 as [_ K1], Hext0 as [_ K0]. apply K1, K0, Hstr. lia.
  - destruct Hext1 as [_ K1]. apply K1, Hstr0. lia.
Qed.

Lemma spool_body_spec cfg w m k body :
  let '(w', r) := spool_body cfg m k body w in
  w_store w' = w_store w /\ w_marks w' = w_marks w /\ w_sent w' = w_sent w /\
  (forall q, Some q <> spool_out_path cfg m k 4096 -> file_at (w_host w') q = file_at (w_host w) q) /\
  match r with
  | Some p => spool_out_path cfg m k 4096 = Some p /\ file_at (w_host w') p = Some body
  | None => True
  end.
Proof.
  unfold spool_body. rewrite bind_run.
  assert (Hmk : preserves host_step (mkdir_p (sg_spool (storage cfg)))).
  { unfold mkdir_p. apply preserves_if; intros _; [apply preserves_ret, _|].
    apply preserves_bind; [apply _| |intros []; [apply on_host_step, mkdir_keeps|apply preserves_ret, _]].
    generalize (@nil Z). generalize (sg_spool (storage cfg)). intros s. induction s as [|c s IH]; intros pre; cbn [mkdir_loop];
      [apply preserves_ret, _|]. apply preserves_if; intros _; [|apply IH].
    apply preserves_bind; [apply _|apply on_host_step, mkdir_keeps|]. intros []; [apply IH|apply preserves_ret, _]. }
  specialize (Hmk w). destruct (mkdir_p _ w) as [w1 made]. cbn [fst snd] in *. destruct Hmk as (A1 & A2 & A3 & A4).
  destruct made; cbn [negb]; [|by repeat split].
  destruct (spool_out_path cfg m k 4096) as [p|]; [|by repeat split].
  rewrite bind_run. unfold on_host. pose proof (write_ok (w_host w1) p body) as Hok.
  pose proof (write_fsync_other (w_host w1) p body) as Hot.
  destruct (write_file_fsync (w_host w1) p body) as [h ok]. cbn [fst snd mret M_ret w_store w_marks w_sent w_host] in *.
  repeat (split; [done|]). split.
  - intros q Hq. rewrite Hot by congruence. apply A4.
  - destruct ok; [|done]. auto.
Qed.

(** What the steps of an enqueue do before the row of (m, k) is committed: write
    the log, that row and that file. *)
Definition enqueue_step cfg (m k : Z) w w' : Prop :=
  (store_wf (w_db w) -> store_wf (w_db w')) /\
  same_outside (elsewhere m k) (w_db w) (w_db w') /\
  (forall x, dl_has (w_db w) RRevmap x -> dl_has (w_db w') RRevmap x) /\
  (forall q, Some q <> spool_out_path cfg m k 4096 -> file_at (w_host w') q = file_at (w_host w) q).

#[local] Instance enqueue_step_preorder cfg m k : PreOrder (enqueue_step cfg m k).
Proof.
  split; [intros w; split; [done|split; [reflexivity|done]]|].
  intros w1 w2 w3 (A1 & A2 & A3 & A4) (B1 & B2 & B3 & B4).
  split; [auto|]. split; [by etrans|]. split; [auto|]. intros q Hq. by rewrite B4, A4.
Qed.

Lemma enqueue_step_ok cfg m k w w' :
  is_u32 m -> is_u32 k -> fresh w m k -> enqueue_step cfg m k w w' -> step_ok cfg (elsewhere m k) w w'.
Proof.
  intros Hm Hk Hf (A1 & A2 & A3 & A4). repeat (split; [done|]).
  intros m' k' f t b (B1 & B2 & B3 & p & B4 & B5).
  assert (Hne : (m', k') <> (m, k)).
  { intros [= -> ->]. destruct B3 as [[x Hx] _]. by apply (Hf k x). }
  split; [done|]. split; [done|]. split.
  - apply (envelope_same (elsewhere m k) (w_db w)); [done| |done]. intros x Hx [[_ Hx']|]; [|done].
    apply Hne. congruence.
  - exists p. split; [done|]. rewrite A4; [done|]. intros Hp. symmetry in Hp.
    by destruct (spool_out_path_inj cfg m' k' m k 4096 p B1 B2 Hm Hk B4 Hp) as [-> ->].
Qed.

Lemma host_enqueue_step cfg m k w w' :
  w_store w' = w_store w ->
  (forall q, Some q <> spool_out_path cfg m k 4096 -> file_at (w_host w') q = file_at (w_host w) q) ->
  enqueue_step cfg m k w w'.
Proof. intros Hs Hf. unfold enqueue_step, w_db. rewrite Hs. split; [done|]. split; [reflexivity|done]. Qed.

Lemma log_add_enqueue_step cfg m k m' ts dir l r st :
  is_u32 m' -> is_u32 ts -> is_u32 dir -> preserves (enqueue_step cfg m k) (log_add m' ts dir l r st).
Proof.
  intros Hm Hts Hdir w.
  destruct (log_add_ok cfg (elsewhere m k) m' ts dir l r st ltac:(by right) Hm Hts Hdir w) as (A1 & A2 & A3 & _).
  destruct (log_add_only m' ts dir l r st w) as (_ & Hh & _). repeat (split; [done|]).
  intros q _. by rewrite Hh.
Qed.

Lemma queue_add_enqueue_step cfg m k f t :
  is_u32 m -> is_u32 k -> preserves (enqueue_step cfg m k) (on_store (fun s => store_queue_add s m k f t)).
Proof.
  intros Hm Hk w. unfold on_store. pose proof (queue_add_same (w_store w) m k f t) as [Hs _].
  pose proof (run_op_wf (w_store w) (OQueueAdd m k f t)) as Hwf. cbn [run_op] in Hwf.
  destruct (store_queue_add (w_store w) m k f t) as [s rc]. cbn [fst] in *. unfold enqueue_step, w_db. cbn [w_store w_host].
  split; [intros ?; by apply Hwf|]. split; [|split; [|done]].
  - apply (same_outside_mono (in_delivery m k)); [by left|done].
  - intros x Hx. by apply Hs; [intros [? _]|].
Qed.

(** The tail of [queue_enqueue], once the row is committed. *)
Lemma enqueue_tail_ok cfg m k f t now r :
  is_u32 m -> is_u32 k -> is_u32 now ->
  preserves (step_ok cfg (elsewhere m k))
    (_ ← log_add m now LOG_DIR_OUT f t (bs "queued");
     _ ← when r (on_marks (fun l => reply_mark_push l m k));
     _ ← queue_deliver_one cfg m k f t 0;
     mret true).
Proof.
  intros Hm Hk Hnow. apply preserves_bind; [exact _|ok_tac|intros _].
  apply preserves_bind; [exact _|ok_tac|intros _].
  apply preserves_bind; [exact _|by apply deliver_one_ok|intros _; by apply preserves_ret, _].
Qed.

(** A success of [queue_enqueue] is a committed delivery, a failure loses none. *)
Lemma enqueue_spec cfg w m k f t body r :
  is_u32 m -> is_u32 k -> fresh w m k ->
  let '(w', ok) := queue_enqueue cfg m k f t body r w in
  step_ok cfg (elsewhere m k) w w' /\ (ok = true -> committed cfg w' m k f t body).
Proof.
  intros Hm Hk Hfresh. unfold queue_enqueue. rewrite bind_run.
  destruct (now32_step w) as (Hs1 & _ & _ & Hf1). pose proof (now32_u32 w) as Hnow.
  destruct (now32 w) as [w1 now]. cbn [fst snd] in *.
  rewrite bind_run. pose proof (spool_body_spec cfg w1 m k body) as Hsp.
  destruct (spool_body cfg m k body w1) as [w2 r2]. destruct Hsp as (Hs2 & _ & _ & Hf2 & Hr2). cbn [fst snd].
  assert (X2 : enqueue_step cfg m k w w2).
  { apply host_enqueue_step; [congruence|]. intros q Hq. by rewrite Hf2, Hf1. }
  destruct r2 as [p|].
  2:{ rewrite bind_run. cbn [mret M_ret]. split; [|done]. apply enqueue_step_ok; try done.
      etrans; [exact X2|]. by apply log_add_enqueue_step. }
  destruct Hr2 as [Hp Hfile]. rewrite bind_run.
  pose proof (queue_add_enqueue_step cfg m k f t Hm Hk w2) as X3.
  assert (Henv : (on_store (fun s => store_queue_add s m k f t) w2).2 = VISAGE_OK ->
            envelope (w_db (on_store (fun s => store_queue_add s m k f t) w2).1) m k f t /\
            w_host (on_store (fun s => store_queue_add s m k f t) w2).1 = w_host w2).
  { unfold on_store, w_db. pose proof (proj2 (queue_add_same (w_store w2) m k f t)) as He.
    destruct (store_queue_add (w_store w2) m k f t) as [s rc]. cbn [fst snd w_store w_host] in *. intros Hrc.
    split; [|done]. apply He; [|done]. intros x. rewrite Hs2, Hs1. apply (Hfresh k). lia. }
  destruct (on_store _ w2) as [w3 rc]. cbn [fst snd] in *.
  destruct (Z.eqb_spec rc VISAGE_OK) as [Hrc|]; cbn [negb].
  - destruct (Henv Hrc) as [He Hh]. 
    assert (Hc : committed cfg w3 m k f t body).
    { split; [done|]. split; [done|]. split; [done|]. exists p. by rewrite Hh. }
    assert (X3' : step_ok cfg (elsewhere m k) w w3) by (apply enqueue_step_ok; try done; by etrans).
    pose proof (enqueue_tail_ok cfg m k f t now r Hm Hk Hnow w3) as X4.
    match type of X4 with step_ok _ _ _ (?n w3).1 => set (n' := n) in *;
      assert (Ht : (n' w3).2 = true) by (unfold n'; by rewrite !bind_run) end.
    destruct (n' w3) as [w4 ok]. cbn [fst snd] in *. split; [by etrans|]. intros _. by apply X4.
  - rewrite !bind_run. cbn [mret M_ret fst snd]. split; [|done]. apply enqueue_step_ok; try done.
    etrans; [exact X2|]. etrans; [exact X3|]. etrans; [|by apply log_add_enqueue_step].
    apply host_enqueue_step; [done|]. intros q Hq. cbn. apply unlink_other. congruence.
Qed.


(** ** The retention sweep *)

(** Row [x] of delivery (m, k) is queued or being delivered. *)
Definition active_row (d : dl_db) (m k : Z) (x : row) : Prop :=
  qrow d m k x /\ exists st, sym d (col x 6) st /\ is_active st = true.

(** The store is well typed and no delivery has more rows than a read collects. *)
Definition tidy (d : dl_db) : Prop := store_wf d /\ forall m k, few_rows d m k.

(** An active row and the body it refers to stay. *)
Definition shields cfg (m k : Z) (x : row) w w' : Prop :=
  active_row (w_db w) m k x -> tidy (w_db w) ->
  active_row (w_db w') m k x /\ tidy (w_db w') /\
  forall p, spool_out_path cfg m k 4096 = Some p -> file_at (w_host w') p = file_at (w_host w) p.

#[local] Instance shields_preorder cfg m k x : PreOrder (shields cfg m k x).
Proof.
  split; [done|]. intros w1 w2 w3 H1 H2 Ha Ht. destruct (H1 Ha Ht) as (Ha2 & Ht2 & F1).
  destruct (H2 Ha2 Ht2) as (Ha3 & Ht3 & F2). split; [done|]. split; [done|]. intros p Hp. by rewrite F2, F1.
Qed.

Lemma host_shields {A} cfg m k x (f : host -> host * A) : keeps_files f -> preserves (shields cfg m k x) (on_host f).
Proof.
  intros Hf w Ha Ht. destruct (on_host_step f Hf w) as (A1 & _ & _ & A2). unfold w_db. rewrite A1. auto.
Qed.

Lemma qrow_u32 (d : dl_db) m k x : store_wf d -> qrow d m k x -> is_u32 m /\ is_u32 k.
Proof.
  intros Hwf [Hx Hp]. apply Hwf, queue_row_cols in Hx as (m' & k' & f & t & a & nt & st & -> & A1 & A2 & _).
  cbn [take] in Hp. by injection Hp as <- <-.
Qed.

Lemma unlink_shields cfg m k x name path :
  spool_entry_path cfg name = Some path -> spool_name_parse name <> SpoolOut m k ->
  preserves (shields cfg m k x) (unlink path).
Proof.
  intros Hpath Hname w Ha Ht. split; [done|]. split; [done|]. intros p Hp. cbn. apply unlink_other. intros ->.
  destruct Ha as [Hx _]. destruct (qrow_u32 _ _ _ _ (proj1 Ht) Hx) as [Hm Hk]. apply Hname.
  apply spool_out_path_eq in Hp. unfold spool_entry_path in Hpath. destruct (_ <=? _)%nat; [done|].
  injection Hpath as Hpath. rewrite Hp in Hpath. apply app_inv_head in Hpath. injection Hpath as ->.
  by apply out_name_parse.
Qed.

Lemma queue_delete_shields cfg m k x m' k' :
  (m', k') <> (m, k) ->
  preserves (shields cfg m k x) (on_store (fun s => store_queue_delete s m' k')).
Proof.
  intros Hne w Ha [Hwf Hfew]. unfold on_store, w_db in *.
  pose proof (run_op_wf (w_store w) (OQueueDelete m' k') Hwf I) as Hwf'. cbn [run_op] in Hwf'.
  assert (Hs : (forall r y, dl_has (db (store_queue_delete (w_store w) m' k').1) r y -> dl_has (db (w_store w)) r y) /\
    same_outside (in_delivery m' k') (db (w_store w)) (db (store_queue_delete (w_store w) m' k').1)).
  { unfold store_queue_delete. rewrite queue_read_prefix. fold (read_rows (db (w_store w)) m' k').
    pose proof (fun y => read_rows_sound (db (w_store w)) m' k' y) as Hsound.
    destruct (dl_rows (db (w_store w)) RQueue [m'; k']).2; [|by split; [|reflexivity]].
    destruct (_ <? 0); [by split; [|reflexivity]|]. cbn [fst]. rewrite delete_rows_if. split.
    - apply delete_if_spec.
    - apply delete_same_outside. intros y Hy. split; [done|]. by apply Hsound. }
  destruct (store_queue_delete (w_store w) m' k') as [s rc]. cbn [fst w_store w_host] in *. destruct Hs as [Hsub [S F]].
  destruct Ha as [[Hx Hp] (st & Hst & Hact)]. split; [|split; [|done]].
  - split; [|by exists st; split; [apply S|]]. split; [|done]. apply F; [|done]. intros [_ Hp']. apply Hne. congruence.
  - split; [done|]. intros m2 k2. destruct (Hfew m2 k2) as (l & Hl & Hin). exists l. split; [done|].
    intros y [Hy Hq]. apply Hin. by split; [apply Hsub|].
Qed.

Lemma body_inactive_spec w m k :
  tidy (w_db w) ->
  (body_inactive m k w).1 = w /\
  ((body_inactive m k w).2 = true -> forall x, ~ active_row (w_db w) m k x).
Proof.
  intros [_ Hfew]. unfold body_inactive. pose proof (queue_status_spec (w_store w) m k 64) as Hs.
  destruct (store_queue_status (w_store w) m k 64) as [rc [st|]]; cbn [fst snd]; [|by destruct (negb _)].
  split; [done|]. destruct (Hs rc st (Hfew m k) eq_refl) as (-> & _ & _ & Hact). cbn [Z.eqb negb VISAGE_OK].
  intros Hb%negb_true_iff x [Hx (st' & Hst' & Ha)]. rewrite (Hact Hb x st' Hx Hst') in Ha. done.
Qed.

Lemma gc_entry_shields cfg m k x now name : preserves (shields cfg m k x) (gc_entry cfg now name).
Proof.
  unfold gc_entry. destruct (chd name =? "."%chr); [by apply preserves_ret, _|].
  destruct (spool_name_parse name) as [|m'|m' k'] eqn:Hname; [by apply preserves_ret, _| |];
    (destruct (spool_entry_path cfg name) as [path|] eqn:Hpath; [|by apply preserves_ret, _]);
    (apply preserves_bind; [exact _|apply host_shields, stat_keeps|intros [mtime|]; [|by apply preserves_ret, _]]);
    (apply preserves_if; intros _; [by apply preserves_ret, _|]).
  - apply (unlink_shields cfg m k x name); [done|by rewrite Hname].
  - intros w Ha Ht. rewrite bind_run. destruct (body_inactive_spec w m' k' Ht) as [-> Hno].
    destruct (body_inactive m' k' w).2; cbn [negb]; [|done].
    assert (Hne : (m', k') <> (m, k)) by (intros [= -> ->]; by apply (Hno eq_refl x)).
    revert Ha Ht. apply preserves_bind; [exact _| |intros _].
    + apply (unlink_shields cfg m k x name); [done|]. rewrite Hname. congruence.
    + apply preserves_bind; [exact _|by apply queue_delete_shields|intros _; by apply preserves_ret, _].
Qed.

(** C6: The spool sweep never touches mail in flight. On a well-typed store whose
    deliveries have at most [QUEUE_SET_MAX_ROWS] rows each, whatever the directory
    listing, the clock and the engine return: every queue row that is "queued" or
    "delivering" is still there after [spool_gc], and the spool file of its
    delivery has the same content, even though the sweep removes files and queue
    rows as it goes. With a retention of 0 days the sweep changes nothing. *)
Theorem spool_gc_safe cfg w (Htidy : tidy (w_db w)) :
  let w' := (spool_gc cfg w).1 in
  (forall m k x, active_row (w_db w) m k x ->
     active_row (w_db w') m k x /\
     forall p, spool_out_path cfg m k 4096 = Some p -> file_at (w_host w') p = file_at (w_host w) p) /\
  (sg_retention_days (storage cfg) = 0 -> w' = w).
Proof.
  cbv zeta. split.
  - intros m k x Ha. enough (Hp : preserves (shields cfg m k x) (spool_gc cfg)) by (by destruct (Hp w Ha Htidy) as (? & _ & ?)).
    unfold spool_gc. apply preserves_if; intros _; [by apply preserves_ret, _|].
    apply preserves_bind; [exact _|apply host_shields, time_keeps|intros now].
    apply preserves_bind; [exact _|apply host_shields, readdir_keeps|intros [names|]; [|by apply preserves_ret, _]].
    induction names as [|n names IH]; cbn [gc_loop]; [by apply preserves_ret, _|].
    apply preserves_bind; [exact _|apply gc_entry_shields|intros _; apply IH].
  - intros Hr. unfold spool_gc. by rewrite Hr.
Qed.

End Durable.

(** ** Witnesses *)

Lemma spool_gc_safe_witness :
  let w := mem_queue_world SMTP_OK in
  file_at (w_host (spool_gc mem_cfg w).1) (bs "/spool/7.0.out.eml") = Some (bs "hi").
Proof.
  destruct (spool_gc_safe mem_cfg (mem_queue_world SMTP_OK) (conj mem_q_wf mem_q_few)) as [Hk _].
  destruct (Hk 7 0 [7; 0; 1; 2; 0; 0; 3]) as [_ Hf].
  - split; [split; [vm_compute; do 2 constructor|done]|]. exists (bs "queued"). split; reflexivity.
  - etransitivity; [apply Hf; reflexivity|reflexivity].
Defined.
