(* ===== verification/SmtpForward.v ===== *)
(** * Forwarding an accepted message (src/src/smtp_in.c)

    From the end of DATA to the queue: DKIM signing, the preparation shared by
    all destinations of an alias (reply token, reply-map row, rewritten headers),
    the forward of one alias or of one reply, and the loop over the recipients of
    [deliver_message]; and what a success of that loop guarantees on disk. *)

From S2P Require Import Prelude MailLines MailAddr MailHeader DlEngine Store StoreSpec StoreTables StoreQueue Reply Json Config SmtpParse SmtpWorld MemHost SmtpQueue SmtpQueueSpec SmtpDurable.

Section Forward.
Context {E : DlEngine} {H : Host}.
Implicit Types (cfg : Config).

(** [forward_sign]: the signed message, or the message unchanged. *)
Definition forward_sign cfg (alias sanitized : bytes) : M bytes :=
  match mail_addr_parse alias with
  | None => mret sanitized
  | Some (_, domain) =>
      match config_dkim_find (dkim cfg) domain with
      | None => mret sanitized
      | Some dk =>
          r ← on_host (fun h => dkim_sign h sanitized (dk_domain dk) (dk_selector dk) (dk_private_key dk));
          mret (default sanitized r)
      end
  end.

(** [snprintf(received, 512, "from %s by %s", ...)]. *)
Definition received_line cfg (sender : bytes) : bytes :=
  take 511 (bs "from " ++ (if is_nil sender then bs "<>" else sender) ++ bs " by " ++ host_name cfg).

Definition env_from (sender alias : bytes) : bytes := if is_nil sender then [] else alias.

(** The reverse address of a fresh token whose reply-map row is stored. *)
Definition mint_reverse cfg (sender alias : bytes) : M (option bytes) :=
  u ← on_host read_urandom;
  match reply_token_gen u.1 u.2 64 with
  | (rc, Some token) =>
      if negb (rc =? VISAGE_OK) then mret (@None bytes)
      else match reply_make_reverse (reply cfg) token alias 384 with
           | (rc, Some rev) =>
               if negb (rc =? VISAGE_OK) then mret (@None bytes)
               else
                 now ← on_host time_now;
                 rc ← on_store (fun s => store_revmap_add s now token sender alias);
                 mret (if (rc =? VISAGE_OK : bool) then Some rev else None)
           | (_, None) => mret (@None bytes)
           end
  | (_, None) => mret (@None bytes)
  end.

Definition forward_rewrite cfg (sender alias reverse : bytes) : MailRewrite :=
  if is_nil sender
  then {| rw_received := Some (received_line cfg sender); rw_return_path := Some [];
          rw_from := Some alias; rw_sender := Some alias; rw_reply_to := Some alias |}
  else {| rw_received := Some (received_line cfg sender); rw_return_path := Some alias;
          rw_from := None; rw_sender := None; rw_reply_to := Some reverse |}.

(** [forward_prepare]: the body and the envelope sender when it returns 0. *)
Definition forward_prepare cfg (msg sender alias : bytes) : M (option (bytes * bytes)) :=
  rev ← (if is_nil sender then mret (Some []) else mint_reverse cfg sender alias);
  match rev with
  | None => mret (@None (bytes * bytes))
  | Some rev =>
      match mail_sanitize_for_forward msg (forward_rewrite cfg sender alias rev) with
      | None => mret (@None (bytes * bytes))
      | Some sanitized =>
          out ← forward_sign cfg alias sanitized;
          mret (Some (out, env_from sender alias))
      end
  end.

Definition forward_one cfg (msg sender alias dest : bytes) (msgid ts k : Z) : M bool :=
  p ← forward_prepare cfg msg sender alias;
  match p with
  | None => _ ← log_add msgid ts LOG_DIR_OUT alias dest (bs "error"); mret false
  | Some (sanitized, from) => queue_enqueue cfg msgid k from dest sanitized false
  end.

(** One enqueue per destination; the ordinal and whether all succeeded. *)
Fixpoint enqueue_dests cfg (msgid : Z) (from sanitized : bytes) (dests : list bytes) (k : Z) (ok : bool)
  : M (bool * Z) :=
  match dests with
  | [] => mret (ok, k)
  | d :: dests' =>
      r ← queue_enqueue cfg msgid k from d sanitized false;
      enqueue_dests cfg msgid from sanitized dests' (u32 (k + 1)) (ok && r)
  end.

Fixpoint log_errors (msgid ts : Z) (rcpt : bytes) (dests : list bytes) : M unit :=
  match dests with
  | [] => mret tt
  | d :: dests' => _ ← log_add msgid ts LOG_DIR_OUT rcpt d (bs "error"); log_errors msgid ts rcpt dests'
  end.

Definition remote_name (sender : bytes) : bytes := if is_nil sender then bs "<>" else sender.

(** [forward_alias]: whether it returns 0, and the next ordinal. *)
Definition forward_alias cfg (msg sender rcpt : bytes) (msgid ts k : Z) : M (bool * Z) :=
  r ← on_store (fun s => let '(s', rc, ds) := store_resolve s rcpt in (s', (rc, ds)));
  if negb (r.1 =? VISAGE_OK) then
    _ ← log_add msgid ts LOG_DIR_IN rcpt (remote_name sender) (bs "error"); mret (false, k)
  else if (length r.2 =? 0)%nat then
    match nonempty (catch_all cfg) with
    | Some ca =>
        ok ← forward_one cfg msg sender rcpt ca msgid ts k;
        mret (ok, u32 (k + 1))
    | None =>
        _ ← log_add msgid ts LOG_DIR_IN rcpt (remote_name sender) (bs "rejected"); mret (true, k)
    end
  else
    p ← forward_prepare cfg msg sender rcpt;
    match p with
    | None => _ ← log_errors msgid ts rcpt r.2; mret (false, k)
    | Some (sanitized, from) => enqueue_dests cfg msgid from sanitized r.2 k true
    end.

(** [forward_reply]; [owner] is the envelope sender of the reply. *)
Definition forward_reply cfg (msg alias_addr dest rev owner : bytes) (msgid ts k : Z) : M bool :=
  let rw := {| rw_received := Some (received_line cfg owner); rw_return_path := Some alias_addr;
               rw_from := Some alias_addr; rw_sender := Some alias_addr; rw_reply_to := Some alias_addr |} in
  match mail_sanitize_for_forward msg rw with
  | None => _ ← log_add msgid ts LOG_DIR_OUT alias_addr dest (bs "error"); mret false
  | Some sanitized =>
      match mail_header_set (reply_strip_reverse sanitized rev).2 (bs "To") dest with
      | None => _ ← log_add msgid ts LOG_DIR_OUT alias_addr dest (bs "error"); mret false
      | Some sanitized =>
          out ← forward_sign cfg alias_addr sanitized;
          queue_enqueue cfg msgid k alias_addr dest out true
      end
  end.

(** One recipient of [deliver_message]: whether it was accepted, the next
    ordinal. *)
Definition deliver_rcpt cfg (msg from rcpt : bytes) (msgid ts k : Z) : M (bool * Z) :=
  now ← on_host time_now;
  r ← on_store (fun s => let '(s', r, p) := reply_route_inbound s now (reply cfg) rcpt in (s', (r, p)));
  match r with
  | (1, Some (rep_sender, rep_alias)) =>
      ok ← forward_reply cfg msg rep_alias rep_sender rcpt from msgid ts k;
      mret (ok, u32 (k + 1))
  | (code, _) =>
      if code <? 0 then
        _ ← log_add msgid ts LOG_DIR_IN rcpt (remote_name from) (bs "error"); mret (false, k)
      else forward_alias cfg msg from rcpt msgid ts k
  end.

(** The recipient loop of [deliver_message]: true unless one failed. *)
Fixpoint deliver_rcpts cfg (msg from : bytes) (rcpts : list bytes) (msgid ts k : Z) (ok : bool) : M bool :=
  match rcpts with
  | [] => mret ok
  | rcpt :: rcpts' =>
      r ← deliver_rcpt cfg msg from rcpt msgid ts k;
      deliver_rcpts cfg msg from rcpts' msgid ts r.2 (ok && r.1)
  end.

End Forward.

(** ** What the loop over the recipients guarantees *)

Section Accepted.
Context {E : DlEngine} {L : DlLaws E} {H : Host} {HL : HostLaws H}.
Implicit Types (w : World) (cfg : Config).

(** The facts the handling of message [m] may write. *)
Definition msg_facts (m : Z) (r : Rel) (x : row) : Prop :=
  r = RLog \/ r = RRevmap \/ (r = RQueue /\ exists k, take 2 x = [m; k]).

(** The facts written before anything of the message is enqueued. *)
Definition prepare_facts (r : Rel) (x : row) : Prop := r = RLog \/ r = RRevmap.

Lemma elsewhere_msg m k r x : elsewhere m k r x -> msg_facts m r x.
Proof. intros [[-> Hx]| ->]; [right; right; eauto|by left]. Qed.

Lemma prepare_msg m r x : prepare_facts r x -> msg_facts m r x.
Proof. intros [->| ->]; [by left|by right; left]. Qed.

(** *** The calls that only write the log and the reply map *)

Lemma revmap_add_ok cfg now tok sn al :
  preserves (step_ok cfg prepare_facts) (on_store (fun s => store_revmap_add s now tok sn al)).
Proof.
  assert (Hs : forall s, same_outside (in_rel RRevmap) (db s) (db (store_revmap_add s now tok sn al).1) /\
    forall x, dl_has (db s) RRevmap x -> dl_has (db (store_revmap_add s now tok sn al).1) RRevmap x).
  { intros s. unfold store_revmap_add, store_revmap_add_at.
    destruct (_ || _); [split; [reflexivity|done]|]. do 3 step_intern.
    assert (X : ext (db s) (db s2)) by (by do 2 (etrans; [|eassumption])).
    assert (Y : forall x, dl_has (db s) RRevmap x -> dl_has (db s2) RRevmap x) by (intros x; by apply X).
    pose proof (ext_same_outside (in_rel RRevmap) _ _ X) as Hx. destruct (_ || _); [done|].
    set (r := [i; i0; i1; u32 now]).
    pose proof (add_same_outside (in_rel RRevmap) s2 RRevmap r eq_refl) as Ha.
    pose proof (fun x => add_has_keep (db s2) RRevmap r RRevmap x) as Hk.
    destruct (add_fact_db s2 RRevmap r) as (Hd & _). rewrite <- Hd in Hk.
    destruct (add_fact s2 RRevmap r) as [s3 rc]. cbn [fst] in *.
    destruct (rc <? 0); (split; [by etrans|auto]). }
  apply (preserves_mono cfg (in_rel RRevmap)); [intros r x ->; by right|]. apply on_store_ok.
  - intros s Hwf. apply (run_op_wf s (ORevmapAdd tok sn al (u32 now)) Hwf). apply u32_range.
  - intros s. apply Hs.
  - intros s. apply Hs.
  - intros s m k f t. apply (envelope_same (in_rel RRevmap)); [apply Hs|done].
Qed.

Lemma ext_store_ok {A} cfg P (f : Store -> Store * A) :
  (forall s, ext (db s) (db (f s).1)) -> preserves (step_ok cfg P) (on_store f).
Proof.
  intros Hf. apply on_store_ok.
  - intros s. by apply ext_wf.
  - intros s. by apply ext_same_outside.
  - intros s x. by apply Hf.
  - intros s m k g t He. apply (envelope_same (fun _ _ => False) (db s)); [by apply ext_same_outside|auto|done].
Qed.

Lemma forward_sign_ok cfg P alias msg : preserves (step_ok cfg P) (forward_sign cfg alias msg).
Proof.
  unfold forward_sign. destruct (mail_addr_parse alias) as [[l d]|]; [|by apply preserves_ret, _].
  destruct (config_dkim_find _ _); [|by apply preserves_ret, _].
  apply preserves_bind; [exact _|apply on_host_ok, sign_keeps|intros ?; by apply preserves_ret, _].
Qed.

Lemma mint_reverse_ok cfg sender alias : preserves (step_ok cfg prepare_facts) (mint_reverse cfg sender alias).
Proof.
  unfold mint_reverse. apply preserves_bind; [exact _|apply on_host_ok, urandom_keeps|intros u].
  destruct (reply_token_gen _ _ _) as [rc [tok|]]; [|by apply preserves_ret, _].
  apply preserves_if; intros _; [by apply preserves_ret, _|].
  destruct (reply_make_reverse _ _ _ _) as [rc' [rev|]]; [|by apply preserves_ret, _].
  apply preserves_if; intros _; [by apply preserves_ret, _|].
  apply preserves_bind; [exact _|apply on_host_ok, time_keeps|intros now].
  apply preserves_bind; [exact _|apply revmap_add_ok|intros ?; by apply preserves_ret, _].
Qed.

Lemma forward_prepare_ok cfg msg sender alias :
  preserves (step_ok cfg prepare_facts) (forward_prepare cfg msg sender alias).
Proof.
  unfold forward_prepare. apply preserves_bind; [exact _| |intros [rev|]; [|by apply preserves_ret, _]].
  - destruct (is_nil sender); [by apply preserves_ret, _|apply mint_reverse_ok].
  - destruct (mail_sanitize_for_forward _ _); [|by apply preserves_ret, _].
    apply preserves_bind; [exact _|apply forward_sign_ok|intros ?; by apply preserves_ret, _].
Qed.

(** The envelope sender it hands to the queue. *)
Lemma forward_prepare_from cfg msg sender alias w out from :
  (forward_prepare cfg msg sender alias w).2 = Some (out, from) -> from = env_from sender alias.
Proof.
  unfold forward_prepare. rewrite bind_run. generalize (if is_nil sender then mret (Some []) else mint_reverse cfg sender alias).
  intros m. destruct (m w) as [w1 [rev|]]; cbn [fst snd]; [|done].
  destruct (mail_sanitize_for_forward _ _); [|done]. rewrite bind_run. cbn [mret M_ret snd]. by intros [= _ <-].
Qed.

Lemma log_msg_ok cfg (P : Rel -> row -> Prop) m ts dir l r st :
  (forall x, P RLog x) -> is_u32 m -> is_u32 ts -> dir = LOG_DIR_IN \/ dir = LOG_DIR_OUT ->
  preserves (step_ok cfg P) (log_add m ts dir l r st).
Proof. intros HP Hm Hts [->| ->]; by apply log_add_ok. Qed.

(** *** Deliveries done *)

(** Some delivery of the message is committed from [f] to [t]. *)
Definition dest_done cfg w (m : Z) (f t : bytes) : Prop := exists k body, committed cfg w m k f t body.

Lemma dest_done_mono cfg P w w' m f t : step_ok cfg P w w' -> dest_done cfg w m f t -> dest_done cfg w' m f t.
Proof. intros (_ & _ & _ & Hc) (k & b & Hd). exists k, b. auto. Qed.

(** The state of the loop at ordinal [k], the room for [n] more included. *)
Definition ready w (m k n : Z) : Prop :=
  store_wf (w_db w) /\ fresh w m k /\ is_u32 m /\ 0 <= k /\ 0 <= n /\ k + n <= UINT32_MAX.

Lemma ready_prepare cfg w w' m k n : step_ok cfg prepare_facts w w' -> ready w m k n -> ready w' m k n.
Proof.
  intros (Hwf & Hs & _) (A & B & C). split; [auto|]. split; [|done].
  apply (fresh_same w w' prepare_facts m k k); [done|lia|done|]. by intros j x _ _ [?|?].
Qed.

Lemma enqueue_ready cfg w m k n f t body r :
  ready w m k (1 + n) -> 0 <= n ->
  let '(w', ok) := queue_enqueue cfg m k f t body r w in
  step_ok cfg (msg_facts m) w w' /\ ready w' m (u32 (k + 1)) n /\ (ok = true -> dest_done cfg w' m f t).
Proof.
  intros (Hwf & Hf & Hm & Hk0 & _ & Hk) Hn. assert (Hk' : is_u32 k) by (unfold is_u32; lia).
  pose proof (enqueue_spec cfg w m k f t body r Hm Hk' Hf) as He.
  destruct (queue_enqueue cfg m k f t body r w) as [w' ok]. destruct He as [He Hc].
  split; [by apply (step_ok_mono cfg _ _ _ _ (elsewhere_msg m k))|]. split.
  - rewrite u32_small by lia. destruct He as (A & B & _). split; [auto|]. split; [|split; [done|lia]].
    apply (fresh_same w w' (elsewhere m k) m k); [done|lia|done|]. intros j x Hj Hx [[_ Hx']|]; [|done].
    rewrite Hx in Hx'. injection Hx'. lia.
  - intros ->. exists k, body. auto.
Qed.

Lemma ready_weaken w m k n n' : ready w m k n -> 0 <= n' <= n -> ready w m k n'.
Proof. intros (A & B & C & D & F & G) Hn. repeat (split; [done|]). lia. Qed.

Lemma enqueue_dests_spec cfg m f body dests :
  forall w k ok n, ready w m k (len dests + n) -> 0 <= n ->
  let '(w', (ok', k')) := enqueue_dests cfg m f body dests k ok w in
  step_ok cfg (msg_facts m) w w' /\ ready w' m k' n /\
  (ok' = true -> ok = true /\ forall d, d ∈ dests -> dest_done cfg w' m f d).
Proof.
  induction dests as [|d dests IH]; intros w k ok n Hr Hn; cbn [enqueue_dests].
  - cbn [mret M_ret]. split; [reflexivity|]. split; [done|]. intros ->. split; [done|]. by intros d ?%elem_of_nil.
  - rewrite bind_run. pose proof (enqueue_ready cfg w m k (len dests + n) f d body false) as He.
    destruct (queue_enqueue cfg m k f d body false w) as [w1 ok1]. cbn [fst snd].
    destruct He as (S1 & R1 & C1); [|lia|].
    { apply (ready_weaken _ _ _ _ _ Hr). cbn [length]. lia. }
    specialize (IH w1 (u32 (k + 1)) (ok && ok1) n R1 Hn).
    destruct (enqueue_dests cfg m f body dests (u32 (k + 1)) (ok && ok1) w1) as [w2 [ok' k']].
    destruct IH as (S2 & R2 & C2). split; [by etrans|]. split; [done|]. intros Hok.
    destruct (C2 Hok) as [[Ho1 Ho2]%andb_true_iff Hall]. split; [done|].
    intros x [->|Hx]%elem_of_cons; [|by apply Hall]. apply (dest_done_mono _ _ _ _ _ _ _ S2), C1, Ho2.
Qed.

Lemma forward_one_spec cfg msg sender alias dest w m ts k n :
  ready w m k (1 + n) -> 0 <= n -> is_u32 ts ->
  let '(w', ok) := forward_one cfg msg sender alias dest m ts k w in
  step_ok cfg (msg_facts m) w w' /\ ready w' m (u32 (k + 1)) n /\
  (ok = true -> dest_done cfg w' m (env_from sender alias) dest).
Proof.
  intros Hr Hn Hts. unfold forward_one. rewrite bind_run.
  pose proof (forward_prepare_ok cfg msg sender alias w) as Hp.
  pose proof (fun o f => forward_prepare_from cfg msg sender alias w o f) as Hf.
  destruct (forward_prepare cfg msg sender alias w) as [w1 p]. cbn [fst snd] in *.
  assert (Hp' : step_ok cfg (msg_facts m) w w1) by by apply (step_ok_mono cfg _ _ _ _ (prepare_msg m)).
  pose proof (ready_prepare cfg _ _ _ _ _ Hp Hr) as R1. destruct p as [[out from]|].
  - rewrite (Hf _ _ eq_refl). pose proof (enqueue_ready cfg w1 m k n (env_from sender alias) dest out false R1 Hn) as He.
    destruct (queue_enqueue _ _ _ _ _ _ _ w1) as [w2 ok]. destruct He as (S2 & R2 & C2).
    split; [by etrans|done].
  - rewrite bind_run. cbn [mret M_ret].
    assert (Hm : is_u32 m) by apply R1.
    pose proof (log_msg_ok cfg prepare_facts m ts LOG_DIR_OUT alias dest (bs "error") ltac:(by left) Hm Hts ltac:(by right) w1) as Hl.
    split; [etrans; [exact Hp'|]; by apply (step_ok_mono cfg _ _ _ _ (prepare_msg m))|]. split; [|done].
    apply (ready_prepare cfg _ _ _ _ _ Hl) in R1 as (A & B & C & D & F & G). rewrite u32_small by lia.
    split; [done|]. split; [intros j x Hj; apply B; lia|]. split; [done|]. lia.
Qed.


Lemma forward_reply_spec cfg msg al dest rev owner w m ts k n :
  ready w m k (1 + n) -> 0 <= n -> is_u32 ts ->
  let '(w', ok) := forward_reply cfg msg al dest rev owner m ts k w in
  step_ok cfg (msg_facts m) w w' /\ ready w' m (u32 (k + 1)) n /\ (ok = true -> dest_done cfg w' m al dest).
Proof.
  intros Hr Hn Hts. assert (Hm : is_u32 m) by apply Hr. unfold forward_reply. cbv zeta.
  assert (Herr : let '(w', ok) := (_ ← log_add m ts LOG_DIR_OUT al dest (bs "error"); mret false) w in
    step_ok cfg (msg_facts m) w w' /\ ready w' m (u32 (k + 1)) n /\ (ok = true -> dest_done cfg w' m al dest)).
  { rewrite bind_run. cbn [mret M_ret].
    pose proof (log_msg_ok cfg prepare_facts m ts LOG_DIR_OUT al dest (bs "error") ltac:(by left) Hm Hts ltac:(by right) w) as Hl.
    split; [by apply (step_ok_mono cfg _ _ _ _ (prepare_msg m))|]. split; [|done].
    apply (ready_prepare cfg _ _ _ _ _ Hl) in Hr as (A & B & C & D & F & G). rewrite u32_small by lia.
    split; [done|]. split; [intros j x Hj; apply B; lia|]. split; [done|]. lia. }
  destruct (mail_sanitize_for_forward _ _) as [s1|]; [|exact Herr].
  destruct (mail_header_set _ _ _) as [s2|]; [|exact Herr]. clear Herr.
  rewrite bind_run. pose proof (forward_sign_ok cfg prepare_facts al s2 w) as Hp.
  destruct (forward_sign cfg al s2 w) as [w1 out]. cbn [fst snd] in *.
  pose proof (ready_prepare cfg _ _ _ _ _ Hp Hr) as R1.
  pose proof (enqueue_ready cfg w1 m k n al dest out true R1 Hn) as He.
  destruct (queue_enqueue _ _ _ _ _ _ _ w1) as [w2 ok]. destruct He as (S2 & R2 & C2).
  split; [|done]. etrans; [|exact S2]. by apply (step_ok_mono cfg _ _ _ _ (prepare_msg m)).
Qed.

Lemma resolve_ext s a : ext (db s) (db (store_resolve s a).1.1).
Proof.
  unfold store_resolve. destruct (split_addr a) as [[l d]|]; [|reflexivity]. do 2 step_intern.
  assert (X : ext (db s) (db s1)) by by etrans. repeat (case_match; try exact X).
Qed.

(** Every alias of the store has at most [n] destinations. *)
Definition dests_bound (d : dl_db) (n : Z) : Prop :=
  forall dom loc, exists l : list bytes, len l <= n /\ forall x, alias_fact d dom loc x -> x ∈ l.

(** What accepting the message for [rcpt] means when it went through its alias
    or the catch-all. *)
Definition alias_done cfg w0 w (m : Z) (sender rcpt : bytes) : Prop :=
  exists loc dom, split_addr rcpt = Some (loc, dom) /\
    (forall dst, alias_fact (w_db w0) dom loc dst -> dest_done cfg w m (env_from sender rcpt) dst) /\
    ((forall dst, ~ alias_fact (w_db w0) dom loc dst) ->
     forall ca, nonempty (catch_all cfg) = Some ca -> dest_done cfg w m (env_from sender rcpt) ca).

Lemma log_errors_ok cfg m ts rcpt dests :
  is_u32 m -> is_u32 ts -> preserves (step_ok cfg prepare_facts) (log_errors m ts rcpt dests).
Proof.
  intros Hm Hts. induction dests as [|d dests IH]; cbn [log_errors]; [by apply preserves_ret, _|].
  apply preserves_bind; [exact _| |intros _; exact IH]. apply log_msg_ok; try done; [by left|by right].
Qed.

Lemma forward_alias_spec cfg msg sender rcpt w m ts k N n :
  ready w m k (N + n) -> 1 <= N -> 0 <= n -> is_u32 ts -> dests_bound (w_db w) N ->
  let '(w', (ok, k')) := forward_alias cfg msg sender rcpt m ts k w in
  step_ok cfg (msg_facts m) w w' /\ ready w' m k' n /\ (ok = true -> alias_done cfg w w' m sender rcpt).
Proof.
  intros Hr HN Hn Hts Hb. assert (Hm : is_u32 m) by apply Hr. unfold forward_alias. rewrite bind_run.
  assert (Hext : step_ok cfg prepare_facts w (on_store (fun s => let '(s', rc, ds) := store_resolve s rcpt in (s', (rc, ds))) w).1).
  { apply ext_store_ok. intros s. pose proof (resolve_ext s rcpt) as X. by destruct (store_resolve s rcpt) as [[? ?] ?]. }
  assert (Hres : let r := (on_store (fun s => let '(s', rc, ds) := store_resolve s rcpt in (s', (rc, ds))) w).2 in
    r.1 = VISAGE_OK -> exists loc dom, split_addr rcpt = Some (loc, dom) /\ NoDup r.2 /\
      forall x, x ∈ r.2 <-> alias_fact (w_db w) dom loc x).
  { unfold on_store. destruct (split_addr rcpt) as [[loc dom]|] eqn:Hsp.
    - pose proof (resolve_spec (w_store w) rcpt loc dom (proj1 Hr) Hsp) as Hs.
      destruct (store_resolve (w_store w) rcpt) as [[s' rc] ds]. cbn [fst snd]. destruct Hs as (_ & Hs & _).
      intros Hrc. exists loc, dom. destruct (Hs Hrc). auto.
    - unfold store_resolve. rewrite Hsp. cbn. discriminate. }
  destruct (on_store _ w) as [w1 [rc ds]]. cbn [fst snd] in *.
  assert (Hms : step_ok cfg (msg_facts m) w w1) by by apply (step_ok_mono cfg _ _ _ _ (prepare_msg m)).
  pose proof (ready_prepare cfg _ _ _ _ _ Hext Hr) as R1.
  assert (Hlog : forall dir st (b : bool), dir = LOG_DIR_IN -> (b = true -> alias_done cfg w w1 m sender rcpt) ->
    let '(w', (ok, k')) := (_ ← log_add m ts dir rcpt (remote_name sender) st; mret (b, k)) w1 in
    step_ok cfg (msg_facts m) w w' /\ ready w' m k' n /\ (ok = true -> alias_done cfg w w' m sender rcpt)).
  { intros dir st b -> Hb'. rewrite bind_run. cbn [mret M_ret].
    pose proof (log_msg_ok cfg prepare_facts m ts LOG_DIR_IN rcpt (remote_name sender) st ltac:(by left) Hm Hts ltac:(by left) w1) as Hl.
    pose proof (step_ok_mono cfg _ _ _ _ (prepare_msg m) Hl) as Hl'.
    split; [by etrans|]. split; [apply (ready_weaken _ _ _ (N + n)); [by apply (ready_prepare cfg w1)|lia]|].
    intros Hok. destruct (Hb' Hok) as (loc & dom & Hsp & D1 & D2). exists loc, dom. split; [done|].
    split; [intros dst Hd|intros Hno ca Hca]; apply (dest_done_mono _ _ _ _ _ _ _ Hl'); auto. }
  destruct (Z.eqb_spec rc VISAGE_OK) as [Hrc|]; cbn [negb]; [|by apply Hlog].
  destruct (Hres Hrc) as (loc & dom & Hsp & Hnd & Hds). destruct (length ds =? 0)%nat eqn:Hlen.
  - apply Nat.eqb_eq, nil_length_inv in Hlen as ->.
    assert (Hnone : forall x, ~ alias_fact (w_db w) dom loc x) by (intros x Hx%Hds; by apply elem_of_nil in Hx).
    destruct (nonempty (catch_all cfg)) as [ca|] eqn:Hca.
    + rewrite bind_run. pose proof (forward_one_spec cfg msg sender rcpt ca w1 m ts k n) as Hf.
      destruct (forward_one _ _ _ _ _ _ _ _ w1) as [w2 ok]. cbn [fst snd mret M_ret].
      destruct Hf as (S2 & R2 & C2); [apply (ready_weaken _ _ _ _ _ R1); lia|done|done|].
      split; [by etrans|]. split; [done|]. intros Hok. exists loc, dom. split; [done|].
      split; [intros dst Hd; by destruct (Hnone dst)|]. intros _ ca' Hca'. assert (ca' = ca) as -> by congruence. by apply C2.
    + apply Hlog; [done|]. intros _. exists loc, dom. split; [done|].
      split; [intros dst Hd; by destruct (Hnone dst)|]. intros _ ca Hca'. congruence.
  - rewrite bind_run. pose proof (forward_prepare_ok cfg msg sender rcpt w1) as Hp.
    pose proof (fun o f => forward_prepare_from cfg msg sender rcpt w1 o f) as Hfrom.
    destruct (forward_prepare cfg msg sender rcpt w1) as [w2 p]. cbn [fst snd] in *.
    pose proof (ready_prepare cfg _ _ _ _ _ Hp R1) as R2.
    pose proof (step_ok_mono cfg _ _ _ _ (prepare_msg m) Hp) as Hp'.
    assert (HN' : len ds <= N).
    { destruct (Hb dom loc) as (l & Hl & Hin). transitivity (len l); [|done]. apply inj_le, submseteq_length, NoDup_submseteq; [done|].
      intros x Hx. by apply Hin, Hds. }
    destruct p as [[out from]|].
    + rewrite (Hfrom _ _ eq_refl). pose proof (enqueue_dests_spec cfg m (env_from sender rcpt) out ds w2 k true n) as He.
      destruct (enqueue_dests _ _ _ _ _ _ _ w2) as [w3 [ok k']].
      destruct He as (S3 & R3 & C3); [apply (ready_weaken _ _ _ _ _ R2); lia|done|].
      split; [etrans; [exact Hms|by etrans]|]. split; [done|]. intros Hok. exists loc, dom. split; [done|].
      destruct (C3 Hok) as [_ Hall]. split; [intros dst Hd%Hds; by apply Hall|].
      intros Hno. destruct ds as [|d ds]; [done|]. destruct (Hno d). apply Hds. by left.
    + rewrite bind_run. cbn [mret M_ret]. pose proof (log_errors_ok cfg m ts rcpt ds Hm Hts w2) as Hl.
      split; [etrans; [exact Hms|]; etrans; [exact Hp'|]; by apply (step_ok_mono cfg _ _ _ _ (prepare_msg m))|].
      split; [|done]. apply (ready_weaken _ _ _ (N + n)); [by apply (ready_prepare cfg w2)|lia].
Qed.


Lemma alias_same (P : Rel -> row -> Prop) (d d' : dl_db) dom loc dst :
  (forall x, ~ P RAlias x) -> store_wf d -> same_outside P d d' ->
  alias_fact d' dom loc dst <-> alias_fact d dom loc dst.
Proof.
  intros HP Hwf [S F]. split.
  - intros (i & j & k & Hi & Hj & Hk & Hh). apply F in Hh; [|done].
    destruct (alias_row_inv _ _ Hwf Hh) as (i' & j' & k' & a & b & c & [= <- <- <-] & Ha & Hb & Hc).
    exists i, j, k. unfold sym in *. pose proof (S _ _ Ha). pose proof (S _ _ Hb). pose proof (S _ _ Hc).
    split; [congruence|]. split; [congruence|]. split; [congruence|done].
  - intros (i & j & k & Hi & Hj & Hk & Hh). exists i, j, k. unfold sym in *. rewrite F by done. auto.
Qed.

Lemma msg_facts_alias m x : ~ msg_facts m RAlias x.
Proof. by intros [?|[?|[? _]]]. Qed.

Lemma step_alias cfg m w w' dom loc dst :
  step_ok cfg (msg_facts m) w w' -> store_wf (w_db w) ->
  alias_fact (w_db w') dom loc dst <-> alias_fact (w_db w) dom loc dst.
Proof. intros (_ & Hs & _) Hwf. by apply (alias_same (msg_facts m)); [apply msg_facts_alias| |]. Qed.

Lemma dests_bound_step cfg m w w' N :
  step_ok cfg (msg_facts m) w w' -> store_wf (w_db w) -> dests_bound (w_db w) N -> dests_bound (w_db w') N.
Proof.
  intros Hs Hwf Hb dom loc. destruct (Hb dom loc) as (l & Hl & Hin). exists l. split; [done|].
  intros x Hx. apply Hin. by apply (step_alias cfg m w w').
Qed.

Lemma revmap_step cfg P w w' tok sn al ts :
  step_ok cfg P w w' -> revmap_fact (w_db w) tok sn al ts -> revmap_fact (w_db w') tok sn al ts.
Proof.
  intros (_ & [S _] & Hr & _) (i & j & k & A & B & C & D). exists i, j, k. unfold sym in *. auto 6.
Qed.

Lemma route_ext s now rc rcpt : ext (db s) (db (reply_route_inbound s now rc rcpt).1.1).
Proof.
  unfold reply_route_inbound. destruct (reply_token_extract rc rcpt) as [tok|]; [|reflexivity].
  assert (X : ext (db s) (db (store_revmap_resolve s now tok).1.1)).
  { unfold store_revmap_resolve. destruct (is_nil tok); [reflexivity|]. step_intern. repeat (case_match; try exact Hext). }
  destruct (store_revmap_resolve s now tok) as [[s' c] f]. cbn [fst] in X. by repeat (case_match; try exact X).
Qed.

(** When the route reports 1, the reply map has the pair it hands out. *)
Lemma route_found s now rc rcpt s' p :
  store_wf (db s) -> reply_route_inbound s now rc rcpt = (s', 1, Some p) ->
  exists tok ts, reply_token_extract rc rcpt = Some tok /\ revmap_fact (db s) tok p.1 p.2 ts.
Proof.
  intros Hwf. unfold reply_route_inbound. destruct (reply_token_extract rc rcpt) as [tok|] eqn:Ht; [|done].
  assert (Hn : is_nil tok = false).
  { revert Ht. unfold reply_token_extract. destruct (strip_prefix _ rcpt) as [q|]; [|done]. cbn [mbind option_bind].
    destruct (strip_prefix _ q) as [q'|]; [|done]. cbn [mbind option_bind].
    destruct (cut "@"%chr q') as [[t dom]|]; [|done].
    destruct (is_nil t) eqn:En; [done|]. destruct (is_nil dom); [done|]. by intros [= <-]. }
  pose proof (revmap_resolve_spec s now tok Hwf Hn) as Hs.
  destruct (store_revmap_resolve s now tok) as [[s1 c] [[sn al]|]]; destruct (negb (c =? VISAGE_OK)); try done.
  intros [= _ <-]. destruct Hs as (_ & _ & ts & Hf & _). by exists tok, ts.
Qed.

(** ** What acceptance promises *)

(** The message was taken for [rcpt]: a reply is committed to the owner its token
    stands for, or the alias's every destination has its own committed delivery
    (the catch-all when the alias has none). *)
Definition rcpt_done cfg w0 w (m : Z) (sender rcpt : bytes) : Prop :=
  (exists tok sn al ts, reply_token_extract (reply cfg) rcpt = Some tok /\
     revmap_fact (w_db w) tok sn al ts /\ dest_done cfg w m al sn) \/
  alias_done cfg w0 w m sender rcpt.

Lemma alias_done_mono cfg m w0 w w' f r :
  step_ok cfg (msg_facts m) w w' -> alias_done cfg w0 w m f r -> alias_done cfg w0 w' m f r.
Proof.
  intros Hs (loc & dom & Hsp & D1 & D2). exists loc, dom. split; [done|].
  split; [intros dst Hd|intros Hno ca Hca]; apply (dest_done_mono _ _ _ _ _ _ _ Hs); auto.
Qed.

Lemma rcpt_done_mono cfg m w0 w w' f r :
  step_ok cfg (msg_facts m) w w' -> rcpt_done cfg w0 w m f r -> rcpt_done cfg w0 w' m f r.
Proof.
  intros Hs [(tok & sn & al & ts & A & B & C)|Ha]; [left|right; by apply (alias_done_mono cfg m w0 w)].
  exists tok, sn, al, ts. split; [done|]. split; [by apply (revmap_step cfg (msg_facts m) w)|by apply (dest_done_mono _ _ _ _ _ _ _ Hs)].
Qed.

Lemma alias_done_base cfg m w0 w1 w f r :
  step_ok cfg (msg_facts m) w0 w1 -> store_wf (w_db w0) -> alias_done cfg w1 w m f r -> alias_done cfg w0 w m f r.
Proof.
  intros Hs Hwf (loc & dom & Hsp & D1 & D2). exists loc, dom. split; [done|].
  pose proof (fun dst => step_alias cfg m w0 w1 dom loc dst Hs Hwf) as Ha.
  split; [intros dst Hd; by apply D1, Ha|]. intros Hno. apply D2. intros dst Hd%Ha. by apply (Hno dst).
Qed.

Lemma deliver_rcpt_spec cfg msg from rcpt w m ts k N n :
  ready w m k (N + n) -> 1 <= N -> 0 <= n -> is_u32 ts -> dests_bound (w_db w) N ->
  let '(w', (ok, k')) := deliver_rcpt cfg msg from rcpt m ts k w in
  step_ok cfg (msg_facts m) w w' /\ ready w' m k' n /\ (ok = true -> rcpt_done cfg w w' m from rcpt).
Proof.
  intros Hr HN Hn Hts Hb. unfold deliver_rcpt. rewrite bind_run.
  pose proof (on_host_ok cfg prepare_facts time_now time_keeps w) as X0.
  destruct (on_host time_now w) as [w0 now]. cbn [fst snd] in *. rewrite bind_run.
  set (route := fun s => _ : Store * (Z * option (bytes * bytes))).
  assert (X1 : step_ok cfg prepare_facts w0 (on_store route w0).1).
  { apply ext_store_ok. intros s. unfold route. pose proof (route_ext s now (reply cfg) rcpt) as X.
    by destruct (reply_route_inbound s now (reply cfg) rcpt) as [[? ?] ?]. }
  assert (Hfound : forall p, (on_store route w0).2 = (1, Some p) ->
    exists tok ts, reply_token_extract (reply cfg) rcpt = Some tok /\ revmap_fact (w_db w0) tok p.1 p.2 ts).
  { intros p. unfold on_store, route. pose proof (route_found (w_store w0) now (reply cfg) rcpt) as Hf.
    destruct (reply_route_inbound (w_store w0) now (reply cfg) rcpt) as [[s' c] q]. cbn [fst snd].
    intros [= -> ->]. apply (Hf s' p); [by apply X0, Hr|done]. }
  destruct (on_store route w0) as [w1 [c q]]. cbn [fst snd] in *. clear route.
  assert (X : step_ok cfg prepare_facts w w1) by by etrans.
  pose proof (step_ok_mono cfg _ _ _ _ (prepare_msg m) X) as Xm.
  pose proof (ready_prepare cfg _ _ _ _ _ X Hr) as R1. assert (Hm : is_u32 m) by apply Hr.
  assert (Hother : let '(w', (ok, k')) := (if c <? 0 then
      _ ← log_add m ts LOG_DIR_IN rcpt (remote_name from) (bs "error"); mret (false, k)
      else forward_alias cfg msg from rcpt m ts k) w1 in
    step_ok cfg (msg_facts m) w w' /\ ready w' m k' n /\ (ok = true -> rcpt_done cfg w w' m from rcpt)).
  { destruct (c <? 0).
    - rewrite bind_run. cbn [mret M_ret].
      pose proof (log_msg_ok cfg prepare_facts m ts LOG_DIR_IN rcpt (remote_name from) (bs "error") ltac:(by left) Hm Hts ltac:(by left) w1) as Hl.
      split; [etrans; [exact Xm|]; by apply (step_ok_mono cfg _ _ _ _ (prepare_msg m))|]. split; [|done].
      apply (ready_weaken _ _ _ (N + n)); [by apply (ready_prepare cfg w1)|lia].
    - pose proof (forward_alias_spec cfg msg from rcpt w1 m ts k N n R1 HN Hn Hts) as Hf.
      destruct (forward_alias cfg msg from rcpt m ts k w1) as [w2 [ok k']].
      destruct Hf as (S2 & R2 & D2); [apply (dests_bound_step cfg m w); [done|apply Hr|done]|].
      split; [by etrans|]. split; [done|]. intros Hok. right.
      apply (alias_done_base cfg m w w1); [done|apply Hr|auto]. }
  destruct c as [|[p|p|]|p]; try exact Hother. destruct q as [[sn al]|]; [|exact Hother]. clear Hother.
  destruct (Hfound _ eq_refl) as (tok & ts' & Htok & Hfact). cbn [fst snd] in Hfact.
  rewrite bind_run. pose proof (forward_reply_spec cfg msg al sn rcpt from w1 m ts k n) as Hf.
  destruct (forward_reply _ _ _ _ _ _ _ _ _ w1) as [w2 ok]. cbn [fst snd mret M_ret].
  destruct Hf as (S2 & R2 & D2); [apply (ready_weaken _ _ _ _ _ R1); lia|done|done|].
  split; [by etrans|]. split; [done|]. intros Hok. left. exists tok, sn, al, ts'. split; [done|].
  split; [|by apply D2]. apply (revmap_step cfg (msg_facts m) w1 _ _ _ _ _ S2). by apply (revmap_step cfg prepare_facts w0 _ _ _ _ _ X1).
Qed.

Lemma deliver_rcpts_spec cfg msg from m ts N rcpts :
  1 <= N -> is_u32 ts -> forall w k ok,
  ready w m k (N * len rcpts) -> dests_bound (w_db w) N ->
  let '(w', ok') := deliver_rcpts cfg msg from rcpts m ts k ok w in
  step_ok cfg (msg_facts m) w w' /\
  (ok' = true -> forall rcpt, rcpt ∈ rcpts -> rcpt_done cfg w w' m from rcpt).
Proof.
  intros HN Hts. induction rcpts as [|rcpt rcpts IH]; intros w k ok Hr Hb; cbn [deliver_rcpts].
  - cbn [mret M_ret]. split; [reflexivity|]. by intros _ r ?%elem_of_nil.
  - rewrite bind_run. pose proof (deliver_rcpt_spec cfg msg from rcpt w m ts k N (N * len rcpts)) as Hd.
    destruct (deliver_rcpt cfg msg from rcpt m ts k w) as [w1 [ok1 k1]]. cbn [fst snd].
    destruct Hd as (S1 & R1 & D1); [by replace (N + N * len rcpts) with (N * len (rcpt :: rcpts)) by (cbn [length]; lia)|done|lia|done|done|].
    assert (Hwf : store_wf (w_db w)) by apply Hr.
    specialize (IH w1 k1 (ok && ok1) R1 (dests_bound_step cfg m w w1 N S1 Hwf Hb)).
    destruct (deliver_rcpts cfg msg from rcpts m ts k1 (ok && ok1) w1) as [w2 ok2] eqn:E2.
    destruct IH as [S2 D2]. split; [by etrans|]. intros Hok r Hin.
    assert (Hand : ok && ok1 = true).
    { clear -E2 Hok. revert E2. subst ok2. generalize (ok && ok1). clear. revert w1 k1.
      induction rcpts as [|r rcpts IH]; intros w1 k1 b; cbn [deliver_rcpts]; [by intros [= _ ->]|].
      rewrite bind_run. intros Ed. by apply IH, andb_true_iff in Ed as [-> _]. }
    apply andb_true_iff in Hand as [_ ->]. apply elem_of_cons in Hin as [->|Hin].
    + apply (rcpt_done_mono cfg m _ w1); auto.
    + destruct (D2 Hok r Hin) as [Hl|Ha]; [by left|right; by apply (alias_done_base cfg m w w1)].
Qed.

End Accepted.
