(* ===== verification/SmtpSession.v ===== *)
(** * One SMTP session (src/src/smtp_in.c)

    The connection record and every handler that changes it: replies and their
    flushing, the commands, the DATA phase, the PROXY header, and the ingestion of
    received bytes in the clear and over TLS. A handler maps a [Conn] to a [Conn]
    in the monad of [SmtpWorld]. *)

From S2P Require Import Prelude MailLines MailAddr MailHeader SmtpData DlEngine Store StoreSpec StoreTables StoreQueue Reply Json Config SmtpParse SmtpWorld SmtpQueue SmtpForward.

Definition SMTP_IN_MAX_OUT : Z := 256 * 1024.
Definition SMTP_IN_DEFAULT_MAX_MSG : Z := 32 * 1024 * 1024.
Definition SMTP_IN_DEFAULT_TIMEOUT : Z := 60.

Inductive conn_state := ST_INIT | ST_HELO | ST_MAIL | ST_DATA.

#[global] Instance conn_state_eq_dec : EqDecision conn_state.
Proof. solve_decision. Defined.

Definition st_eqb (a b : conn_state) : bool := bool_decide (a = b).

Record Conn := MkConn {
  fd : Z;
  state : conn_state;
  closed : bool;
  from : option bytes;  (** reverse-path; Some [] is the null path *)
  rcpts : list bytes;
  c_in : bytes;  (** command input *)
  data : bytes;  (** DATA input, dot-stuffed *)
  scan_pos : nat;  (** start of the DATA line being scanned *)
  out : bytes;  (** reply output *)
  out_off : nat;
  last_act : Z;
  peer_ip : bytes;  (** 4 or 16 bytes; empty when not set *)
  real_ip : bytes;  (** the actual TCP peer *)
  proxy_seen : bool;
  greeted : bool;
  tls_proxy_wait : bool;
  tls : option Z;  (** handle of the TLS context *)
  said : list bytes;  (** ghost: every reply queued, oldest first *)
}.

(** Assignments to fields. *)

Definition set_state (v : conn_state) (c : Conn) : Conn :=
  MkConn (fd c) v (closed c) (from c) (rcpts c) (c_in c) (data c) (scan_pos c) (out c) (out_off c) (last_act c) (peer_ip c) (real_ip c) (proxy_seen c) (greeted c) (tls_proxy_wait c) (tls c) (said c).

Definition set_from (v : option bytes) (c : Conn) : Conn :=
  MkConn (fd c) (state c) (closed c) v (rcpts c) (c_in c) (data c) (scan_pos c) (out c) (out_off c) (last_act c) (peer_ip c) (real_ip c) (proxy_seen c) (greeted c) (tls_proxy_wait c) (tls c) (said c).

Definition set_rcpts (v : list bytes) (c : Conn) : Conn :=
  MkConn (fd c) (state c) (closed c) (from c) v (c_in c) (data c) (scan_pos c) (out c) (out_off c) (last_act c) (peer_ip c) (real_ip c) (proxy_seen c) (greeted c) (tls_proxy_wait c) (tls c) (said c).

Definition set_in (v : bytes) (c : Conn) : Conn :=
  MkConn (fd c) (state c) (closed c) (from c) (rcpts c) v (data c) (scan_pos c) (out c) (out_off c) (last_act c) (peer_ip c) (real_ip c) (proxy_seen c) (greeted c) (tls_proxy_wait c) (tls c) (said c).

Definition set_data (v : bytes) (p : nat) (c : Conn) : Conn :=
  MkConn (fd c) (state c) (closed c) (from c) (rcpts c) (c_in c) v p (out c) (out_off c) (last_act c) (peer_ip c) (real_ip c) (proxy_seen c) (greeted c) (tls_proxy_wait c) (tls c) (said c).

Definition set_out (v : bytes) (o : nat) (c : Conn) : Conn :=
  MkConn (fd c) (state c) (closed c) (from c) (rcpts c) (c_in c) (data c) (scan_pos c) v o (last_act c) (peer_ip c) (real_ip c) (proxy_seen c) (greeted c) (tls_proxy_wait c) (tls c) (said c).

Definition set_act (v : Z) (c : Conn) : Conn :=
  MkConn (fd c) (state c) (closed c) (from c) (rcpts c) (c_in c) (data c) (scan_pos c) (out c) (out_off c) v (peer_ip c) (real_ip c) (proxy_seen c) (greeted c) (tls_proxy_wait c) (tls c) (said c).

Definition set_peer (v : bytes) (c : Conn) : Conn :=
  MkConn (fd c) (state c) (closed c) (from c) (rcpts c) (c_in c) (data c) (scan_pos c) (out c) (out_off c) (last_act c) v (real_ip c) (proxy_seen c) (greeted c) (tls_proxy_wait c) (tls c) (said c).

Definition set_proxy_seen  (c : Conn) : Conn :=
  MkConn (fd c) (state c) (closed c) (from c) (rcpts c) (c_in c) (data c) (scan_pos c) (out c) (out_off c) (last_act c) (peer_ip c) (real_ip c) true (greeted c) (tls_proxy_wait c) (tls c) (said c).

Definition set_greeted  (c : Conn) : Conn :=
  MkConn (fd c) (state c) (closed c) (from c) (rcpts c) (c_in c) (data c) (scan_pos c) (out c) (out_off c) (last_act c) (peer_ip c) (real_ip c) (proxy_seen c) true (tls_proxy_wait c) (tls c) (said c).

Definition set_proxy_done  (c : Conn) : Conn :=
  MkConn (fd c) (state c) (closed c) (from c) (rcpts c) (c_in c) (data c) (scan_pos c) (out c) (out_off c) (last_act c) (peer_ip c) (real_ip c) (proxy_seen c) (greeted c) false (tls c) (said c).

Definition set_tls (v : option Z) (c : Conn) : Conn :=
  MkConn (fd c) (state c) (closed c) (from c) (rcpts c) (c_in c) (data c) (scan_pos c) (out c) (out_off c) (last_act c) (peer_ip c) (real_ip c) (proxy_seen c) (greeted c) (tls_proxy_wait c) v (said c).

Definition close  (c : Conn) : Conn :=
  MkConn (fd c) (state c) true (from c) (rcpts c) (c_in c) (data c) (scan_pos c) (out c) (out_off c) (last_act c) (peer_ip c) (real_ip c) (proxy_seen c) (greeted c) (tls_proxy_wait c) (tls c) (said c).

Definition say (t : bytes) (c : Conn) : Conn :=
  MkConn (fd c) (state c) (closed c) (from c) (rcpts c) (c_in c) (data c) (scan_pos c) (out c ++ t) (out_off c) (last_act c) (peer_ip c) (real_ip c) (proxy_seen c) (greeted c) (tls_proxy_wait c) (tls c) (said c ++ [t]).

(** The effective limits of [Server]. *)
Record Limits := MkLimits {
  max_line : Z; max_msg : Z; max_rcpts : Z; cmd_tmo : Z; data_tmo : Z; raw_cap : Z }.

(** [server_init], the part that reads the configuration. *)
Definition server_init (c : Config) : Limits :=
  let or_default v d := if v =? 0 then d else v in
  let msg := or_default (lim_message (limits c)) SMTP_IN_DEFAULT_MAX_MSG in {|
  max_line := or_default (lim_line (limits c)) SMTP_MAX_LINE;
  max_msg := msg;
  max_rcpts := lim_rcpts (limits c);
  cmd_tmo := or_default (lim_cmd_timeout (limits c)) SMTP_IN_DEFAULT_TIMEOUT;
  data_tmo := or_default (lim_data_timeout (limits c)) SMTP_IN_DEFAULT_TIMEOUT;
  raw_cap := msg * 2 + 16 |}.

Inductive RcptDecision := RCPT_OK | RCPT_BAD_DOMAIN | RCPT_NOROUTE | RCPT_ERR.

(** The domain loop of [smtp_in_rcpt_ok]. *)
Fixpoint domain_served (ds : list (option bytes)) (domain : bytes) : bool :=
  match ds with
  | [] => false
  | Some d :: ds' => if ascii_ieq_str d domain then true else domain_served ds' domain
  | None :: ds' => domain_served ds' domain
  end.

(** How one flush ends: output left from this offset, a dead peer, all sent. *)
Inductive flush_end := FlKeep (off : nat) | FlDead | FlDone.

Fixpoint flush_loop (rs : list send_result) (out_len off : nat) : flush_end :=
  if (out_len <=? off)%nat then FlDone
  else match rs with
       | [] => FlKeep off
       | SdIntr :: rs' => flush_loop rs' out_len off
       | SdAgain :: _ => FlKeep off
       | SdError :: _ => FlDead
       | SdOk O :: _ => FlDead
       | SdOk (S n) :: rs' => flush_loop rs' out_len (off + Nat.min (S n) (out_len - off))
       end.

(** [proxy_peer_trusted]: the actual peer is one of the listed addresses. *)
Fixpoint proxy_peer_trusted {H : Host} (es : list bytes) (ip : bytes) : bool :=
  match es with
  | [] => false
  | e :: es' =>
      if (length ip =? 0)%nat then false
      else match inet_pton false e with
           | Some a4 => if (length ip =? 4)%nat && beq ip a4 then true else proxy_peer_trusted es' ip
           | None =>
               match inet_pton true e with
               | Some a6 => if (length ip =? 16)%nat && beq ip a6 then true else proxy_peer_trusted es' ip
               | None => proxy_peer_trusted es' ip
               end
           end
  end.

(** The address token of a PROXY line: at most 63 bytes up to a space. *)
Definition proxy_src (s : bytes) : bytes := take 63 (take_while (fun c => negb (c =? SP)) s).

(** [proxy_parse]: [Some c] when the line was a trusted PROXY header. *)
Definition proxy_parse {H : Host} (cfg : Config) (c : Conn) (line : bytes) : option Conn :=
  match strip_prefix (bs "PROXY ") line with
  | None => None
  | Some _ =>
      if negb (proxy_peer_trusted (cl_proxy_from (listen cfg)) (real_ip c)) then None
      else match strip_prefix (bs "PROXY TCP4 ") line with
           | Some p => Some (match inet_pton false (proxy_src p) with Some a => set_peer a c | None => c end)
           | None =>
               match strip_prefix (bs "PROXY TCP6 ") line with
               | Some p => Some (match inet_pton true (proxy_src p) with Some a => set_peer a c | None => c end)
               | None => Some c
               end
           end
  end.

Section Session.
Context {E : DlEngine} {H : Host} (cfg : Config) (lim : Limits).

Definition smtp_in_rcpt_ok (s : Store) (now : Z) (rcpt : bytes) : Store * RcptDecision :=
  match mail_addr_parse rcpt with
  | None => (s, RCPT_NOROUTE)
  | Some (_, domain) =>
      if negb (domain_served (domains cfg) domain) then (s, RCPT_BAD_DOMAIN)
      else
        let '(s, r, _) := reply_route_inbound s now (reply cfg) rcpt in
        if r =? 1 then (s, RCPT_OK)
        else if r <? 0 then (s, RCPT_ERR)
        else
          let '(s, rc, dests) := store_resolve s rcpt in
          if negb (rc =? VISAGE_OK) then (s, RCPT_ERR)
          else if (0 <? length dests)%nat then (s, RCPT_OK)
          else match nonempty (catch_all cfg) with
               | Some _ => (s, RCPT_OK)
               | None => (s, RCPT_NOROUTE)
               end
  end.

(** ** Replies *)

Definition conn_flush (c : Conn) : M Conn :=
  if (length (out c) <=? out_off c)%nat then mret (set_out [] 0 c)
  else
  w ← get_w;
  rs ← match tls c with
       | Some t =>
           if smtp_in_tls_pending (w_host w) t
           then on_host (fun h => sys_send h (fd c) (drop (out_off c) (out c)))
           else on_host (fun h => smtp_in_tls_send h t (drop (out_off c) (out c)))
       | None => on_host (fun h => sys_send h (fd c) (drop (out_off c) (out c)))
       end;
  mret (match flush_loop rs (length (out c)) (out_off c) with
        | FlKeep off => set_out (out c) off c
        | FlDead => close (set_out [] 0 c)
        | FlDone => set_out [] 0 c
        end).

Definition conn_reply (c : Conn) (text : bytes) : M Conn :=
  if len (out c) >? SMTP_IN_MAX_OUT then mret (close c)
  else conn_flush (say text c).

Definition reply_close (c : Conn) (text : bytes) : M Conn :=
  c ← conn_reply c text; mret (close c).

(** ** Session lifecycle *)

Definition conn_reset (c : Conn) (new_state : conn_state) : Conn :=
  set_state new_state (set_data [] 0 (set_rcpts [] (set_from None c))).

Definition conn_add_rcpt (c : Conn) (rcpt : bytes) : Conn := set_rcpts (rcpts c ++ [rcpt]) c.

(** ** Delivery at the end of DATA *)

(** The best-effort inbound copy. *)
Definition spool_inbound (msgid : Z) (msg : bytes) : M unit :=
  made ← mkdir_p (sg_spool (storage cfg));
  if negb made then mret tt
  else match spool_in_path cfg msgid 4096 with
       | None => mret tt
       | Some p => _ ← on_host (fun h => write_file h p msg); mret tt
       end.

Definition deliver_message (c : Conn) (now : Z) : M Conn :=
  let msg := mail_unstuff_dots (data c) in
  if mail_data_has_ctl msg then reply_close c (bs "554 5.6.0 Message contains NUL or control bytes" ++ CRLF)
  else if len msg >? max_msg lim then reply_close c (bs "552 5.3.4 Message exceeds fixed limit" ++ CRLF)
  else
    let sender := default [] (from c) in
    hdr ← on_host (fun h => auth_results_build h (hostname cfg) msg sender (peer_ip c));
    let msg := default [] hdr ++ msg in
    let c := set_data msg (scan_pos c) c in
    msgid ← on_store store_next_msgid;
    if msgid =? 0 then reply_close c (bs "451 4.3.0 Message-id allocation failure" ++ CRLF)
    else
      _ ← spool_inbound msgid msg;
      ok ← deliver_rcpts cfg msg sender (rcpts c) msgid (u32 now) 0 true;
      conn_reply c (if (ok : bool) then bs "250 2.0.0 OK: queued" ++ CRLF
                    else bs "451 4.3.0 Temporary queue failure" ++ CRLF).

(** ** Commands *)

Definition do_helo (c : Conn) (ehlo : bool) : M Conn :=
  let hn := host_name cfg in
  let c := conn_reset c ST_HELO in
  if ehlo then
    w ← get_w;
    let starttls := match tls c with None => smtp_in_tls_available (w_host w) | Some _ => false end in
    conn_reply c (bs "250-" ++ hn ++ CRLF ++ bs "250-8BITMIME" ++ CRLF ++ bs "250-SIZE " ++
                  print_u32 (max_msg lim) ++ (if starttls then CRLF ++ bs "250-STARTTLS" else []) ++
                  CRLF ++ bs "250 OK" ++ CRLF)
  else conn_reply c (bs "250 " ++ hn ++ CRLF).

Definition do_mail (c : Conn) (rest : bytes) : M Conn :=
  if negb (st_eqb (state c) ST_HELO) then conn_reply c (bs "503 5.5.1 Error: send HELO/EHLO first" ++ CRLF)
  else match parse_addr_arg rest (bs "FROM") (Z.to_nat SMTP_MAX_LINE) with
       | None => conn_reply c (bs "501 5.5.4 Syntax: MAIL FROM:<address>" ++ CRLF)
       | Some (path, params) =>
           if negb (path_clean path) then conn_reply c (bs "501 5.5.4 Invalid reverse-path" ++ CRLF)
           else match smtp_in_parse_size params with
                | None => conn_reply c (bs "501 5.5.4 Bad SIZE parameter" ++ CRLF)
                | Some size =>
                    if (match size with Some n => n >? max_msg lim | None => false end)
                    then conn_reply c (bs "552 5.3.4 Message size exceeds fixed limit" ++ CRLF)
                    else conn_reply (set_state ST_MAIL (set_from (Some path) c)) (bs "250 2.1.0 OK" ++ CRLF)
                end
       end.

Definition log_rcpt_reject (c : Conn) (rcpt status : bytes) : M unit :=
  msgid ← on_store store_next_msgid;
  let remote :=
    match nonempty (from c) with
    | Some r => r
    | None =>
        let ip := if (0 <? length (peer_ip c))%nat then peer_ip c else real_ip c in
        if (0 <? length ip)%nat then default (bs "<>") (inet_ntop ip) else bs "<>"
    end in
  if msgid =? 0 then mret tt
  else now ← now32; log_add msgid now LOG_DIR_IN rcpt remote status.

Definition do_rcpt (c : Conn) (rest : bytes) : M Conn :=
  if negb (st_eqb (state c) ST_MAIL) then conn_reply c (bs "503 5.5.1 Error: need MAIL first" ++ CRLF)
  else if negb (max_rcpts lim =? 0) && (len (rcpts c) >=? max_rcpts lim)
  then conn_reply c (bs "452 4.5.3 Too many recipients" ++ CRLF)
  else match parse_addr_arg rest (bs "TO") (Z.to_nat SMTP_MAX_LINE) with
       | None => conn_reply c (bs "501 5.5.4 Syntax: RCPT TO:<address>" ++ CRLF)
       | Some (path, _) =>
           if negb (path_clean path) then conn_reply c (bs "501 5.5.4 Invalid recipient address" ++ CRLF)
           else if is_nil path then conn_reply c (bs "501 5.5.4 Empty recipient" ++ CRLF)
           else match mail_addr_parse path with
                | None => conn_reply c (bs "501 5.5.4 Invalid recipient address" ++ CRLF)
                | Some _ =>
                    now ← on_host time_now;
                    d ← on_store (fun s => smtp_in_rcpt_ok s now path);
                    match d with
                    | RCPT_OK => conn_reply (conn_add_rcpt c path) (bs "250 2.1.5 OK" ++ CRLF)
                    | RCPT_ERR =>
                        _ ← log_rcpt_reject c path (bs "error");
                        conn_reply c (bs "451 4.3.0 Temporary routing failure" ++ CRLF)
                    | _ =>
                        _ ← log_rcpt_reject c path (bs "rejected");
                        conn_reply c (bs "550 5.1.1 User unknown" ++ CRLF)
                    end
                end
       end.

Definition do_data (c : Conn) : M Conn :=
  if negb (st_eqb (state c) ST_MAIL) then conn_reply c (bs "503 5.5.1 Error: need RCPT first" ++ CRLF)
  else if (length (rcpts c) =? 0)%nat then conn_reply c (bs "503 5.5.1 Error: no valid recipients" ++ CRLF)
  else
    c ← conn_reply c (bs "354 End data with <CR><LF>.<CR><LF>" ++ CRLF);
    mret (set_state ST_DATA (set_data [] 0 c)).

Definition do_starttls (c : Conn) (rest : bytes) : M Conn :=
  w ← get_w;
  match tls c with
  | Some _ => conn_reply c (bs "503 5.5.1 Error: TLS already active or no EHLO" ++ CRLF)
  | None =>
      if negb (st_eqb (state c) ST_HELO)
      then conn_reply c (bs "503 5.5.1 Error: TLS already active or no EHLO" ++ CRLF)
      else if negb (is_nil rest) then conn_reply c (bs "501 5.5.4 Syntax: STARTTLS" ++ CRLF)
      else if negb (is_nil (c_in c)) then conn_reply c (bs "500 5.5.2 Pipelined data before STARTTLS" ++ CRLF)
      else if negb (smtp_in_tls_available (w_host w)) then conn_reply c (bs "502 5.5.1 Command not implemented" ++ CRLF)
      else
        t ← on_host (fun h => smtp_in_tls_start h (fd c));
        match t with
        | None => conn_reply c (bs "451 4.3.0 Storage allocation failure" ++ CRLF)
        | Some t => conn_reply (set_tls (Some t) c) (bs "220 2.0.0 Ready to start TLS" ++ CRLF)
        end
  end.

(** The verb of a command line is [name], in any case. *)
Definition verb_is (v : bytes) (name : bytes) : bool :=
  (length v =? length name)%nat && (ascii_strncasecmp v name (length name) =? 0).

(** The dispatch of [handle_command] on a line already known not to be a PROXY
    header. *)
Definition dispatch (c : Conn) (line : bytes) : M Conn :=
  let p := skip_sp line in
  let v := take_while (fun c => negb (c =? SP)) p in
  let rest := skip_sp (drop_while (fun c => negb (c =? SP)) p) in
  if verb_is v (bs "EHLO") then
    if is_nil rest then conn_reply c (bs "501 5.5.4 EHLO requires a domain" ++ CRLF) else do_helo c true
  else if verb_is v (bs "HELO") then
    if is_nil rest then conn_reply c (bs "501 5.5.4 HELO requires a domain" ++ CRLF) else do_helo c false
  else if verb_is v (bs "MAIL") then do_mail c rest
  else if verb_is v (bs "RCPT") then do_rcpt c rest
  else if verb_is v (bs "DATA") then do_data c
  else if verb_is v (bs "RSET") then
    conn_reply (conn_reset c (if st_eqb (state c) ST_INIT then ST_INIT else ST_HELO)) (bs "250 2.0.0 OK" ++ CRLF)
  else if verb_is v (bs "NOOP") then conn_reply c (bs "250 2.0.0 OK" ++ CRLF)
  else if verb_is v (bs "QUIT") then reply_close c (bs "221 2.0.0 Bye" ++ CRLF)
  else if verb_is v (bs "VRFY") then conn_reply c (bs "252 2.5.2 Cannot VRFY user" ++ CRLF)
  else if verb_is v (bs "EXPN") then conn_reply c (bs "252 2.5.2 Cannot EXPN list" ++ CRLF)
  else if verb_is v (bs "STARTTLS") then do_starttls c rest
  else if verb_is v (bs "AUTH") then conn_reply c (bs "502 5.5.1 Command not implemented" ++ CRLF)
  else conn_reply c (bs "500 5.5.2 Command not recognized" ++ CRLF).

(** Dropping a connection without a reply. *)
Definition drop_conn (c : Conn) : Conn := set_out [] 0 (close c).

(** The start of TLS on an implicit-TLS connection; [adv] is [tls_advance]. *)
Definition start_implicit_tls (adv : Conn -> M Conn) (c : Conn) : M Conn :=
  w ← get_w;
  let c := set_proxy_done c in
  if negb (smtp_in_tls_available (w_host w)) then mret (drop_conn c)
  else
    t ← on_host (fun h => smtp_in_tls_start h (fd c));
    match t with
    | None => mret (drop_conn (set_tls None c))
    | Some t =>
        let c := set_tls (Some t) c in
        ok ← on_host (fun h => smtp_in_tls_prefeed h t (c_in c));
        if negb ok then mret (drop_conn c) else adv (set_in [] c)
    end.

Definition handle_command (adv : Conn -> M Conn) (c : Conn) (line : bytes) : M Conn :=
  if negb (proxy_seen c) then
    match proxy_parse cfg c line with
    | Some c =>
        let c := set_proxy_seen c in
        if tls_proxy_wait c then start_implicit_tls adv c else mret c
    | None =>
        let c := set_proxy_seen c in
        if tls_proxy_wait c then start_implicit_tls adv c else dispatch c line
    end
  else dispatch c line.

(** ** Ingestion *)

(** The command line a buffer starts with: its bytes before the LF and those
    after it. *)
Definition next_line (s : bytes) : option (bytes * bytes) := cut LF s.

Definition strip_cr (s : bytes) : bytes :=
  match last s with
  | Some z => if z =? CR then take (length s - 1) s else s
  | None => s
  end.

(** Bytes pipelined after DATA become message data. *)
Definition take_data (c : Conn) : M Conn :=
  if is_nil (c_in c) then mret c
  else if len (data c) + len (c_in c) >? raw_cap lim
  then reply_close c (bs "552 5.3.4 Message exceeds fixed limit" ++ CRLF)
  else mret (set_in [] (set_data (data c ++ c_in c) (scan_pos c) c)).

Fixpoint commands_loop (adv : Conn -> M Conn) (fuel : nat) (c : Conn) : M Conn :=
  match fuel with
  | O => mret c
  | S fuel' =>
      if closed c then mret c
      else match next_line (c_in c) with
           | None =>
               if len (c_in c) >? SMTP_MAX_LINE then reply_close c (bs "500 5.5.2 Line too long" ++ CRLF)
               else mret c
           | Some (line, rest) =>
               if len line >? max_line lim then reply_close c (bs "500 5.5.2 Line too long" ++ CRLF)
               else
                 c ← handle_command adv (set_in rest c) (c_str (strip_cr line));
                 if st_eqb (state c) ST_DATA && negb (closed c) then take_data c
                 else commands_loop adv fuel' c
           end
  end.

(** Each round of the loop consumes a line, so one more round than there are
    bytes is enough unless TLS input is drained meanwhile. *)
Definition process_commands (adv : Conn -> M Conn) (c : Conn) : M Conn :=
  commands_loop adv (S (length (c_in c))) c.

Definition process_data (adv : Conn -> M Conn) (c : Conn) (now : Z) : M Conn :=
  match data_scan (data c) (max_line lim) (raw_cap lim) (scan_pos c) with
  | ScanLimit => reply_close c (bs "552 5.3.4 Message exceeds fixed limits" ++ CRLF)
  | ScanMore pos => mret (set_data (data c) pos c)
  | ScanFound msg_end term_len =>
      let leftover := drop (msg_end + term_len) (data c) in
      let c := set_data (take msg_end (data c)) (scan_pos c) (set_in (c_in c ++ leftover) c) in
      c ← deliver_message c now;
      let c := conn_reset c ST_HELO in
      if negb (closed c) && negb (is_nil (c_in c)) then process_commands adv c else mret c
  end.

Definition conn_take_bytes (adv : Conn -> M Conn) (c : Conn) (tmp : bytes) (now : Z) : M Conn :=
  if st_eqb (state c) ST_DATA then
    if len (data c) + len tmp >? raw_cap lim
    then reply_close c (bs "552 5.3.4 Message exceeds fixed limit" ++ CRLF)
    else process_data adv (set_data (data c ++ tmp) (scan_pos c) c) now
  else process_commands adv (set_in (c_in c ++ tmp) c).

(** The drain loop of [conn_readable] over TLS, at most [n] records. *)
Fixpoint drain_loop (adv : Conn -> M Conn) (n : nat) (t : Z) (c : Conn) (now : Z) : M Conn :=
  match n with
  | O => mret c
  | S n' =>
      r ← on_host (fun h => smtp_in_tls_recv h t);
      match r with
      | RvData (x :: d) =>
          c ← conn_take_bytes adv (set_act now c) (x :: d) now;
          if closed c then mret c else drain_loop adv n' t c now
      | RvData [] | RvAgain => mret c
      | _ => mret (close c)
      end
  end.

Definition conn_readable (adv : Conn -> M Conn) (n : nat) (c : Conn) (now : Z) : M Conn :=
  match tls c with
  | Some t =>
      w ← get_w;
      if negb (smtp_in_tls_established (w_host w) t) then mret c else drain_loop adv n t c now
  | None =>
      r ← on_host (fun h => sys_recv h (fd c));
      match r with
      | RvAgain => mret c
      | RvData (x :: d) => conn_take_bytes adv (set_act now c) (x :: d) now
      | _ => mret (close c)
      end
  end.

Definition greeting : bytes :=
  let g := bs "220 " ++ host_name cfg ++ bs " ESMTP visage" ++ CRLF in
  if (512 <=? length g)%nat then bs "220 localhost ESMTP visage" ++ CRLF else g.

(** [tls_advance]; [depth] bounds its nesting through [conn_readable], [n] the
    records drained at each level. A nested call reads the clock again. *)
Fixpoint tls_advance (depth n : nat) (now : Z) (c : Conn) : M Conn :=
  match depth with
  | O => mret c
  | S depth' =>
      let adv c := t ← on_host time_now; tls_advance depth' n t c in
      let c := set_act now c in
      match tls c with
      | None => mret c
      | Some t =>
          r ← on_host (fun h => smtp_in_tls_handshake_step h t);
          if r <? 0 then mret (drop_conn c)
          else if r >? 0 then
            if negb (greeted c) then
              c ← conn_reply (set_state ST_INIT (set_greeted c)) greeting;
              conn_readable adv n c now
            else conn_readable adv n (conn_reset c ST_INIT) now
          else mret c
      end
  end.

(** [conn_readable] as the poll loop calls it. *)
Definition on_readable (depth n : nat) (c : Conn) (now : Z) : M Conn :=
  conn_readable (fun c => t ← on_host time_now; tls_advance depth n t c) n c now.

(** The idle-timeout branch of the poll loop for one connection. *)
Definition conn_timeout (c : Conn) : Z := if st_eqb (state c) ST_DATA then data_tmo lim else cmd_tmo lim.

Definition idle_check (c : Conn) (now : Z) : M Conn :=
  let tmo := conn_timeout c in
  if negb (tmo =? 0) && (now >? last_act c) && (now - last_act c >=? tmo) then
    w ← get_w;
    if (match tls c with Some t => smtp_in_tls_handshaking (w_host w) t | None => false end)
    then mret (drop_conn c)
    else reply_close c (bs "421 4.4.2 Timeout - closing connection" ++ CRLF)
  else mret c.

End Session.
