(* ===== verification/SmtpSessionSpec.v ===== *)
(** * Correctness of an SMTP session

    The invariant of the connection record, over every handler and every
    behaviour of the machine; the decision on a recipient; and what a 250 at the
    end of DATA guarantees. *)

From S2P Require Import Prelude MailLines MailAddr MailHeader SmtpData DlEngine Store StoreSpec StoreTables StoreQueue Reply Json Config SmtpParse SmtpWorld MemHost SmtpQueue SmtpQueueSpec SmtpDurable SmtpForward SmtpSession.

(** ** Postconditions of handlers *)

(** Every run of [m] returns a value that satisfies [Q]. *)
Definition returns {E : DlEngine} {H : Host} {A} (Q : A -> Prop) (m : M A) : Prop := forall w, Q (m w).2.

Section Returns.
Context {E : DlEngine} {H : Host}.

Lemma returns_ret {A} (Q : A -> Prop) a : Q a -> returns Q (mret a).
Proof. intros Ha w. exact Ha. Qed.

Lemma returns_bind {A B} (Q1 : A -> Prop) (Q2 : B -> Prop) (m : M A) (f : A -> M B) :
  returns Q1 m -> (forall a, Q1 a -> returns Q2 (f a)) -> returns Q2 (m ≫= f).
Proof. intros Hm Hf w. rewrite bind_run. apply Hf, Hm. Qed.

Lemma returns_any {A B} (Q : B -> Prop) (m : M A) (f : A -> M B) :
  (forall a, returns Q (f a)) -> returns Q (m ≫= f).
Proof. intros Hf. by apply (returns_bind (fun _ => True)); [intros w|intros a _; apply Hf]. Qed.

Lemma returns_mono {A} (Q Q' : A -> Prop) (m : M A) :
  (forall a, Q a -> Q' a) -> returns Q m -> returns Q' m.
Proof. intros HQ Hm w. apply HQ, Hm. Qed.

End Returns.

(** ** Output *)

(** Unsigned limits. *)
Definition limits_ok (lim : Limits) : Prop :=
  0 <= max_rcpts lim /\ 0 <= max_line lim /\ 0 <= max_msg lim /\ 0 <= raw_cap lim.

Section SessionSpec.
Context {E : DlEngine} {H : Host} (cfg : Config) (lim : Limits) (Hlim : limits_ok lim).
Implicit Types (c : Conn).

(** The longest reply. *)
Definition reply_bound : Z := len (host_name cfg) + 128.

(** The backlog stays within the cap plus one reply. *)
Definition out_ok c : Prop := len (out c) <= SMTP_IN_MAX_OUT + reply_bound /\ (out_off c <= length (out c))%nat.

(** What a reply leaves alone: everything but the output and [closed]. *)
Definition same_conn c c' : Prop :=
  fd c' = fd c /\ real_ip c' = real_ip c /\ peer_ip c' = peer_ip c /\
  proxy_seen c' = proxy_seen c /\ tls_proxy_wait c' = tls_proxy_wait c /\ c_in c' = c_in c.

Definition same_session c c' : Prop :=
  state c' = state c /\ from c' = from c /\ rcpts c' = rcpts c /\ data c' = data c /\ scan_pos c' = scan_pos c.

(** How replies and closing change a connection. *)
Definition progress c c' : Prop :=
  (closed c = true -> closed c' = true) /\ said c `prefix_of` said c' /\ (out_ok c -> out_ok c').

#[local] Instance same_conn_preorder : PreOrder same_conn.
Proof.
  split; [done|]. intros a b c (A1 & A2 & A3 & A4 & A5 & A6) (B1 & B2 & B3 & B4 & B5 & B6).
  unfold same_conn. by rewrite B1, B2, B3, B4, B5, B6.
Qed.

#[local] Instance same_session_preorder : PreOrder same_session.
Proof.
  split; [done|]. intros a b c (A1 & A2 & A3 & A4 & A5) (B1 & B2 & B3 & B4 & B5).
  unfold same_session. by rewrite B1, B2, B3, B4, B5.
Qed.

#[local] Instance progress_preorder : PreOrder progress.
Proof.
  split; [done|]. intros a b c (A1 & A2 & A3) (B1 & B2 & B3). split; [auto|]. split; [by etrans|auto].
Qed.

Definition replied c c' : Prop := same_conn c c' /\ same_session c c' /\ progress c c'.

#[local] Instance replied_preorder : PreOrder replied.
Proof.
  split; [intros c; split; [reflexivity|split; reflexivity]|].
  intros a b c (A1 & A2 & A3) (B1 & B2 & B3). split; [by etrans|]. split; by etrans.
Qed.

Lemma close_replied c : replied c (close c).
Proof. done. Qed.

Lemma clear_out_replied c : replied c (set_out [] 0 c).
Proof.
  split; [done|]. split; [done|]. split; [done|]. split; [done|]. intros _. unfold out_ok, reply_bound. cbn.
  unfold SMTP_IN_MAX_OUT. lia.
Qed.

Lemma flush_loop_range rs n off k : flush_loop rs n off = FlKeep k -> (k <= n)%nat.
Proof.
  revert off. induction rs as [|[[|m]| | |] rs IH]; intros off; cbn [flush_loop];
    destruct (Nat.leb_spec n off); try done; try (intros [= <-]; lia); apply IH.
Qed.

Lemma conn_flush_replied c : returns (replied c) (conn_flush c).
Proof.
  unfold conn_flush. destruct (_ <=? _)%nat; [apply returns_ret, clear_out_replied|].
  apply returns_any. intros w0. apply returns_any. intros rs. apply returns_ret.
  destruct (flush_loop rs (length (out c)) (out_off c)) as [k| |] eqn:Hf.
  - apply flush_loop_range in Hf. split; [done|]. split; [done|]. split; [done|]. split; [done|]. intros [Ho _]. by split.
  - etrans; [apply clear_out_replied|done].
  - apply clear_out_replied.
Qed.

Lemma conn_reply_replied c (t : bytes) : len t <= reply_bound -> returns (replied c) (conn_reply c t).
Proof.
  intros Ht. unfold conn_reply. destruct (Z.gtb_spec (len (out c)) SMTP_IN_MAX_OUT) as [|Hle].
  { apply returns_ret, close_replied. }
  apply (returns_mono (replied (say t c))); [|apply conn_flush_replied]. intros c' Hr. etrans; [|exact Hr].
  split; [done|]. split; [done|]. split; [done|]. split; [by exists [t]|]. intros [_ Ho]. unfold out_ok, say. cbn [out out_off].
  rewrite length_app. split; lia.
Qed.

Lemma reply_close_replied c (t : bytes) :
  len t <= reply_bound -> returns (fun c' => replied c c' /\ closed c' = true) (reply_close c t).
Proof.
  intros Ht. unfold reply_close. apply (returns_bind (replied c)); [by apply conn_reply_replied|].
  intros c' Hr. apply returns_ret. split; [etrans; [exact Hr|done]|done].
Qed.

(** A literal reply is short. *)
Lemma short_text (t : bytes) : (length t <=? 128)%nat = true -> len t <= reply_bound.
Proof. intros Ht%Nat.leb_le. unfold reply_bound. lia. Qed.

Lemma dec_digits_length fuel v acc : (length (dec_digits fuel v acc) <= fuel + length acc)%nat.
Proof.
  revert v acc. induction fuel as [|fuel IH]; intros v acc; cbn [dec_digits]; [lia|]. cbv zeta.
  destruct (v <? 10); cbn [length]; [lia|]. etrans; [apply IH|]. cbn [length]. lia.
Qed.


(** ** The invariant *)

(** An accepted recipient: printable, without quotes or angle brackets, and a
    parsable address. *)
Definition rcpt_clean (r : bytes) : Prop :=
  path_clean r = true /\ r <> [] /\ is_Some (mail_addr_parse r).

Definition sender_clean c : Prop := exists f, from c = Some f /\ path_clean f = true.

Definition session_ok c : Prop :=
  Forall rcpt_clean (rcpts c) /\
  (max_rcpts lim <> 0 -> len (rcpts c) <= max_rcpts lim) /\
  match state c with
  | ST_INIT => True
  | ST_HELO => from c = None /\ rcpts c = [] /\ data c = []
  | ST_MAIL => sender_clean c /\ data c = []
  | ST_DATA => sender_clean c /\ rcpts c <> []
  end /\
  len (data c) <= raw_cap lim /\ (scan_pos c <= length (data c))%nat.

Definition conn_ok c : Prop := session_ok c /\ out_ok c.

(** What never changes or only moves one way. *)
Definition evolves c c' : Prop :=
  fd c' = fd c /\ real_ip c' = real_ip c /\
  (closed c = true -> closed c' = true) /\ said c `prefix_of` said c' /\
  (proxy_seen c = true -> proxy_seen c' = true) /\
  (tls_proxy_wait c = false -> tls_proxy_wait c' = false) /\
  (peer_ip c' = peer_ip c \/
   proxy_seen c = false /\ proxy_peer_trusted (cl_proxy_from (listen cfg)) (real_ip c) = true).

Definition step c c' : Prop := (conn_ok c -> conn_ok c') /\ evolves c c'.

#[local] Instance step_preorder : PreOrder step.
Proof.
  split; [intros c; split; [done|]; repeat (split; [done|]); by left|].
  intros a b c [A0 (A1 & A2 & A3 & A4 & A5 & A6 & A7)] [B0 (B1 & B2 & B3 & B4 & B5 & B6 & B7)].
  split; [auto|]. unfold evolves. rewrite B1, B2. repeat (split; [by auto || by etrans|]).
  destruct A7 as [A7|A7]; [|by right]. destruct B7 as [B7|[B7 B8]]; [left; congruence|right].
  rewrite A2 in B8. split; [|done]. destruct (proxy_seen a); [|done]. by rewrite A5 in B7.
Qed.

Lemma replied_step c c' : replied c c' -> step c c'.
Proof.
  intros ((A1 & A2 & A3 & A4 & A5 & A6) & (B1 & B2 & B3 & B4 & B5) & C1 & C2 & C3). split.
  - intros [(S1 & S2 & S3 & S4 & S5) Ho]. split; [|auto]. unfold session_ok, sender_clean in *.
    rewrite B1, B2, B3, B4, B5. done.
  - unfold evolves. rewrite A1, A2, A3, A4, A5. repeat (split; [done|]). by left.
Qed.

(** A handler that changes session fields first and then replies. *)
Lemma reply_after c c1 t :
  same_conn c c1 -> closed c1 = closed c -> said c1 = said c -> out c1 = out c -> out_off c1 = out_off c ->
  (session_ok c -> session_ok c1) -> (length t <=? 128)%nat = true ->
  returns (fun c' => step c c' /\ same_conn c c') (conn_reply c1 t).
Proof.
  intros Hs Hcl Hsa Ho Hoo Hok Ht. apply (returns_mono (replied c1)); [|by apply conn_reply_replied, short_text].
  intros c' Hr. split; [|etrans; [exact Hs|apply Hr]]. etrans; [|by apply replied_step].
  destruct Hs as (A1 & A2 & A3 & A4 & A5 & A6). split.
  - intros [H1 H2]. split; [by apply Hok|]. unfold out_ok. by rewrite Ho, Hoo.
  - unfold evolves. rewrite A1, A2, A3, A4, A5, Hcl, Hsa. repeat (split; [done|]). by left.
Qed.

Lemma reply_same c t : (length t <=? 128)%nat = true -> returns (fun c' => step c c' /\ same_conn c c') (conn_reply c t).
Proof. intros Ht. by apply reply_after. Qed.

Lemma reply_close_step c t :
  (length t <=? 128)%nat = true ->
  returns (fun c' => step c c' /\ same_conn c c' /\ closed c' = true) (reply_close c t).
Proof.
  intros Ht. apply (returns_mono (fun c' => replied c c' /\ closed c' = true)); [|by apply reply_close_replied, short_text].
  intros c' [Hr Hc]. split; [by apply replied_step|]. split; [apply Hr|done].
Qed.

Lemma reset_ok c st : st = ST_INIT \/ st = ST_HELO -> session_ok (conn_reset c st).
Proof.
  intros Hst. unfold limits_ok in Hlim. unfold session_ok, conn_reset. cbn.
  split; [constructor|]. split; [|split; [|split; lia]].
  - lia.
  - by destruct Hst as [->| ->].
Qed.


(** ** Commands *)

(** The postcondition of a command. *)
Definition commanded c c' : Prop := step c c' /\ same_conn c c'.

Lemma do_helo_ok c ehlo : returns (commanded c) (do_helo cfg lim c ehlo).
Proof.
  assert (Hr : session_ok (conn_reset c ST_HELO)) by (apply reset_ok; by right).
  assert (Hrep : forall t : bytes, len t <= reply_bound -> returns (commanded c) (conn_reply (conn_reset c ST_HELO) t)).
  { intros t Ht. apply (returns_mono (replied (conn_reset c ST_HELO))); [|by apply conn_reply_replied].
    intros c' Hc'. split; [|etrans; [|apply Hc']; done]. etrans; [|by apply replied_step].
    split; [intros [_ Ho]; by split|]. repeat (split; [done|]). by left. }
  unfold do_helo. destruct ehlo.
  - apply returns_any. intros w. apply Hrep. pose proof (dec_digits_length 10 (max_msg lim) []) as Hd.
    unfold reply_bound, print_u32. generalize dependent (dec_digits 10 (max_msg lim) []). intros ds Hd.
    generalize (host_name cfg). intros hn. generalize (match tls (conn_reset c ST_HELO) with Some _ => false | None => smtp_in_tls_available (w_host w) end).
    intros []; rewrite !length_app; simpl in *; lia.
  - apply Hrep. unfold reply_bound. generalize (host_name cfg). intros hn. rewrite !length_app. simpl. lia.
Qed.

Lemma do_mail_ok c rest : returns (commanded c) (do_mail lim c rest).
Proof.
  unfold do_mail. destruct (st_eqb (state c) ST_HELO) eqn:Hst; cbn [negb]; [|by apply reply_same].
  apply bool_decide_eq_true in Hst.
  destruct (parse_addr_arg rest _ _) as [[path params]|]; [|by apply reply_same].
  destruct (path_clean path) eqn:Hp; cbn [negb]; [|by apply reply_same].
  destruct (smtp_in_parse_size params) as [size|]; [|by apply reply_same].
  destruct (match size with Some n => n >? max_msg lim | None => false end); [by apply reply_same|].
  apply reply_after; try done. unfold session_ok. rewrite Hst. intros (S1 & S2 & (_ & _ & S3) & S4 & S5).
  repeat (split; [done|]). cbn. split; [split; [by exists path|done]|done].
Qed.

Lemma do_rcpt_ok c rest : returns (commanded c) (do_rcpt cfg lim c rest).
Proof.
  unfold do_rcpt. destruct (st_eqb (state c) ST_MAIL) eqn:Hst; cbn [negb]; [|by apply reply_same].
  apply bool_decide_eq_true in Hst.
  destruct (negb (max_rcpts lim =? 0) && (len (rcpts c) >=? max_rcpts lim)) eqn:Hmax; [by apply reply_same|].
  destruct (parse_addr_arg rest _ _) as [[path params]|]; [|by apply reply_same].
  destruct (path_clean path) eqn:Hp; cbn [negb]; [|by apply reply_same].
  destruct path as [|x path]; [by apply reply_same|]. cbn [is_nil]. set (p := x :: path) in *.
  destruct (mail_addr_parse p) as [a|] eqn:Ha; [|by apply reply_same].
  apply returns_any. intros now. apply returns_any. intros d. destruct d.
  - apply reply_after; try done. unfold session_ok, sender_clean. rewrite Hst. intros (S1 & S2 & S3 & S4 & S5).
    unfold conn_add_rcpt. cbn. rewrite Hst. split; [|split; [|done]].
    + apply Forall_app. split; [done|]. constructor; [|done]. split; [done|]. by rewrite Ha.
    + rewrite length_app. simpl. lia.
  - apply returns_any. intros ?. by apply reply_same.
  - apply returns_any. intros ?. by apply reply_same.
  - apply returns_any. intros ?. by apply reply_same.
Qed.

Lemma do_data_ok c : returns (commanded c) (do_data c).
Proof.
  unfold do_data. destruct (st_eqb (state c) ST_MAIL) eqn:Hst; cbn [negb]; [|by apply reply_same].
  apply bool_decide_eq_true in Hst.
  destruct (length (rcpts c) =? 0)%nat eqn:Hn; [by apply reply_same|]. apply Nat.eqb_neq in Hn.
  apply (returns_bind (replied c)); [by apply conn_reply_replied, short_text|].
  intros c1 (A & B & C1 & C2 & C3). apply returns_ret. split; [|exact A].
  destruct A as (A1 & A2 & A3 & A4 & A5 & A6), B as (B1 & B2 & B3 & B4 & B5). split.
  - intros [(S1 & S2 & S3 & _) Ho]. rewrite Hst in S3. unfold limits_ok in Hlim. split; [|by apply C3].
    unfold session_ok, sender_clean in *. cbn. rewrite B2, B3. repeat (split; [done|]). split; [|split; lia].
    split; [apply S3|]. intros Hr. by rewrite Hr in Hn.
  - unfold evolves. cbn. rewrite A1, A2, A3, A4, A5. repeat (split; [done|]). by left.
Qed.

Lemma do_starttls_ok c rest : returns (commanded c) (do_starttls c rest).
Proof.
  unfold do_starttls. apply returns_any. intros w. destruct (tls c); [by apply reply_same|].
  destruct (negb (st_eqb _ _)); [by apply reply_same|]. destruct (negb (is_nil rest)); [by apply reply_same|].
  destruct (negb (is_nil (c_in c))); [by apply reply_same|]. destruct (negb _); [by apply reply_same|].
  apply returns_any. intros [t|]; [|by apply reply_same]. by apply reply_after.
Qed.

Lemma dispatch_ok c line : returns (commanded c) (dispatch cfg lim c line).
Proof.
  unfold dispatch. set (v := take_while _ _). set (rest := skip_sp (drop_while _ _)).
  destruct (verb_is v _); [destruct (is_nil rest); [by apply reply_same|apply do_helo_ok]|].
  destruct (verb_is v _); [destruct (is_nil rest); [by apply reply_same|apply do_helo_ok]|].
  destruct (verb_is v _); [apply do_mail_ok|]. destruct (verb_is v _); [apply do_rcpt_ok|].
  destruct (verb_is v _); [apply do_data_ok|].
  destruct (verb_is v _).
  { apply reply_after; try done. intros _. apply reset_ok. destruct (st_eqb _ _); auto. }
  destruct (verb_is v _); [by apply reply_same|].
  destruct (verb_is v _).
  { apply (returns_mono (fun c' => step c c' /\ same_conn c c' /\ closed c' = true)); [|by apply reply_close_step].
    intros c' (? & ? & _). by split. }
  destruct (verb_is v _); [by apply reply_same|]. destruct (verb_is v _); [by apply reply_same|].
  destruct (verb_is v _); [apply do_starttls_ok|]. destruct (verb_is v _); by apply reply_same.
Qed.


(** ** The first line and the commands loop *)

(** A change of fields the invariant does not speak of. *)
Lemma frame_step c c' :
  same_session c c' -> closed c' = closed c -> said c' = said c -> out c' = out c -> out_off c' = out_off c ->
  evolves c c' -> step c c'.
Proof.
  intros (B1 & B2 & B3 & B4 & B5) Hc Hs Ho Hoo Hev. split; [|done]. intros [S Hout].
  unfold conn_ok, session_ok, sender_clean, out_ok in *. by rewrite B1, B2, B3, B4, B5, Ho, Hoo.
Qed.

Lemma close_step c : step c (close c).
Proof. apply replied_step, close_replied. Qed.

Lemma drop_conn_step c : step c (drop_conn c).
Proof. etrans; [apply close_step|]. apply replied_step, clear_out_replied. Qed.

Ltac frame := apply frame_step; try done; repeat (split; [done|]); by left.

Lemma set_in_step v c : step c (set_in v c).
Proof. frame. Qed.

Lemma set_tls_step v c : step c (set_tls v c).
Proof. frame. Qed.

Lemma set_act_step v c : step c (set_act v c).
Proof. frame. Qed.

Lemma proxy_seen_step c : step c (set_proxy_seen c).
Proof. frame. Qed.

Lemma proxy_done_step c : step c (set_proxy_done c).
Proof. frame. Qed.

Lemma start_implicit_tls_ok adv c :
  (forall c, returns (step c) (adv c)) -> returns (step c) (start_implicit_tls adv c).
Proof.
  intros Hadv. unfold start_implicit_tls. apply returns_any. intros w. cbv zeta.
  pose proof (proxy_done_step c) as Hd. destruct (negb _); [apply returns_ret; etrans; [exact Hd|apply drop_conn_step]|].
  apply returns_any. intros [t|].
  - apply returns_any. intros ok. destruct (negb ok).
    + apply returns_ret. etrans; [exact Hd|]. etrans; [apply (set_tls_step (Some t))|apply drop_conn_step].
    + apply (returns_mono (step (set_in [] (set_tls (Some t) (set_proxy_done c))))); [|apply Hadv]. intros c' Hc'.
      etrans; [exact Hd|]. etrans; [apply (set_tls_step (Some t))|]. etrans; [apply (set_in_step [])|done].
  - apply returns_ret. etrans; [exact Hd|]. etrans; [apply (set_tls_step None)|apply drop_conn_step].
Qed.

(** Handlers that start no TLS keep the input and the flag. *)
Definition keeps_input c c' : Prop :=
  tls_proxy_wait c = false -> c_in c' = c_in c /\ tls_proxy_wait c' = false.

Lemma proxy_parse_ok c line c' :
  proxy_seen c = false -> proxy_parse cfg c line = Some c' ->
  step c c' /\ c_in c' = c_in c /\ tls_proxy_wait c' = tls_proxy_wait c.
Proof.
  intros Hp. unfold proxy_parse. destruct (strip_prefix (bs "PROXY ") line); [|done].
  destruct (proxy_peer_trusted _ _) eqn:Ht; cbn [negb]; [|done].
  assert (Hset : forall a, step c (set_peer a c)).
  { intros a. apply frame_step; try done. repeat (split; [done|]). by right. }
  intros Hc'. assert (Hcases : c' = c \/ exists a, c' = set_peer a c).
  { destruct (strip_prefix (bs "PROXY TCP4 ") line) as [q|]; [|destruct (strip_prefix (bs "PROXY TCP6 ") line) as [q|]];
      try destruct (inet_pton _ _); injection Hc' as <-; eauto. }
  destruct Hcases as [->|[a ->]]; [split; [reflexivity|done]|split; [apply Hset|done]].
Qed.

Lemma handle_command_ok adv c line :
  (forall c, returns (step c) (adv c)) ->
  returns (fun c' => step c c' /\ keeps_input c c') (handle_command cfg lim adv c line).
Proof.
  intros Hadv. unfold handle_command.
  assert (Hdisp : forall c0, returns (fun c' => step c0 c' /\ keeps_input c0 c') (dispatch cfg lim c0 line)).
  { intros c0. apply (returns_mono (commanded c0)); [|apply dispatch_ok]. intros c' [Hs (_ & _ & _ & _ & A5 & A6)].
    split; [done|]. intros Hw. split; [done|congruence]. }
  destruct (proxy_seen c) eqn:Hp; cbn [negb]; [apply Hdisp|].
  assert (Himp : forall c0, step c c0 -> tls_proxy_wait c0 = tls_proxy_wait c -> c_in c0 = c_in c ->
    forall m : M Conn, returns (fun c' => step (set_proxy_seen c0) c' /\ keeps_input (set_proxy_seen c0) c') m ->
    returns (fun c' => step c c' /\ keeps_input c c')
      (if tls_proxy_wait (set_proxy_seen c0) then start_implicit_tls adv (set_proxy_seen c0) else m)).
  { intros c0 Hs Hw Hin m Hm. destruct (tls_proxy_wait (set_proxy_seen c0)) eqn:Hw'.
    - apply (returns_mono (step (set_proxy_seen c0))); [|by apply start_implicit_tls_ok]. intros c' Hc'.
      split; [etrans; [exact Hs|]; etrans; [apply proxy_seen_step|done]|]. intros Hf. cbn in Hw'. congruence.
    - apply (returns_mono (fun c' => step (set_proxy_seen c0) c' /\ keeps_input (set_proxy_seen c0) c')); [|done].
      intros c' [H1 H2]. split; [etrans; [exact Hs|]; etrans; [apply proxy_seen_step|done]|].
      intros Hf. destruct (H2 Hw') as [H3 H4]. split; [cbn in H3; congruence|done]. }
  destruct (proxy_parse cfg c line) as [c0|] eqn:Hpp.
  - destruct (proxy_parse_ok c line c0 Hp Hpp) as (Hs & Hin & Hw). apply Himp; try done.
  - apply Himp; [reflexivity|done|done|apply Hdisp].
Qed.

(** At rest, DATA bytes are not kept among the commands, and an incomplete
    command line is short. *)
Definition idle_in c : Prop := state c = ST_DATA -> closed c = false -> c_in c = [].
Definition small_in c : Prop := closed c = false -> len (c_in c) <= SMTP_MAX_LINE.

Lemma take_data_ok c :
  state c = ST_DATA -> returns (fun c' => step c c' /\ idle_in c' /\ small_in c') (take_data lim c).
Proof.
  intros Hst. unfold take_data. destruct (c_in c) as [|x l] eqn:Hin; cbn [is_nil].
  { apply returns_ret. split; [reflexivity|]. unfold idle_in, small_in, SMTP_MAX_LINE. rewrite Hin. simpl. split; [done|lia]. }
  rewrite <- Hin. clear Hin x l.
  destruct (Z.gtb_spec (len (data c) + len (c_in c)) (raw_cap lim)).
  - apply (returns_mono (fun c' => step c c' /\ same_conn c c' /\ closed c' = true)); [|by apply reply_close_step].
    intros c' (Hs & _ & Hc). split; [done|]. split; intros; congruence.
  - apply returns_ret. split; [|by split; [intros ? ?|intros ?; unfold SMTP_MAX_LINE; simpl; lia]]. split.
    + intros [(S1 & S2 & S3 & S4 & S5) Ho]. split; [|done]. unfold session_ok, sender_clean in *. cbn. rewrite Hst in *.
      repeat (split; [done|]). rewrite length_app. split; lia.
    + repeat (split; [done|]). by left.
Qed.

Lemma commands_loop_ok adv fuel : forall c,
  (forall c, returns (step c) (adv c)) -> (closed c = true \/ state c <> ST_DATA) ->
  returns (fun c' => step c c' /\ idle_in c' /\
             (tls_proxy_wait c = false -> (length (c_in c) < fuel)%nat -> small_in c')) (commands_loop cfg lim adv fuel c).
Proof.
  induction fuel as [|fuel IH]; intros c Hadv Hst; cbn [commands_loop].
  { apply returns_ret. split; [reflexivity|]. split; [intros ??; by destruct Hst; congruence|lia]. }
  destruct (closed c) eqn:Hcl.
  { apply returns_ret. split; [reflexivity|]. split; [intros ??; congruence|intros _ _ ?; congruence]. }
  destruct Hst as [?|Hst]; [congruence|].
  assert (Hlong : returns (fun c' => step c c' /\ idle_in c' /\ (tls_proxy_wait c = false -> (length (c_in c) < S fuel)%nat -> small_in c'))
    (reply_close c (bs "500 5.5.2 Line too long" ++ CRLF))).
  { apply (returns_mono (fun c' => step c c' /\ same_conn c c' /\ closed c' = true)); [|by apply reply_close_step].
    intros c' (Hs & _ & Hc). split; [done|]. split; [intros ??; congruence|intros _ _ ?; congruence]. }
  unfold next_line. pose proof (cut_spec LF (c_in c)) as Hcut. destruct (cut LF (c_in c)) as [[line rest]|].
  2:{ destruct (Z.gtb_spec (len (c_in c)) SMTP_MAX_LINE) as [|Hle]; [exact Hlong|].
      apply returns_ret. split; [reflexivity|]. split; [intros ??; done|by intros _ _ _]. }
  destruct Hcut as [Hin _]. destruct (len line >? max_line lim); [exact Hlong|]. clear Hlong.
  apply (returns_bind (fun c' => step (set_in rest c) c' /\ keeps_input (set_in rest c) c')); [by apply handle_command_ok|].
  intros c1 [Hs1 Hk1]. assert (Hs1' : step c c1) by (etrans; [apply (set_in_step rest)|done]).
  destruct (st_eqb (state c1) ST_DATA && negb (closed c1)) eqn:Hd.
  - apply andb_true_iff in Hd as [Hd _]. apply bool_decide_eq_true in Hd.
    apply (returns_mono (fun c' => step c1 c' /\ idle_in c' /\ small_in c')); [|by apply take_data_ok].
    intros c' (Hs & Hi & Hsm). split; [by etrans|]. by split.
  - apply (returns_mono (fun c' => step c1 c' /\ idle_in c' /\ (tls_proxy_wait c1 = false -> (length (c_in c1) < fuel)%nat -> small_in c'))).
    + intros c' (Hs & Hi & Hsm). split; [by etrans|]. split; [done|]. intros Hw Hlen. destruct (Hk1 Hw) as [Hin1 Hw1].
      apply Hsm; [done|]. rewrite Hin1. cbn [c_in set_in]. rewrite Hin, length_app in Hlen. simpl in Hlen. lia.
    + apply IH; [done|]. apply andb_false_iff in Hd as [Hd|Hd]; [right; by apply bool_decide_eq_false in Hd|left].
      by apply negb_false_iff in Hd.
Qed.


(** ** The DATA phase *)

Lemma conn_progress c c' : replied c c' -> same_conn c c' /\ progress c c'.
Proof. by intros (? & _ & ?). Qed.

Lemma deliver_message_frame c now :
  returns (fun c' => same_conn c c' /\ progress c c') (deliver_message cfg lim c now).
Proof.
  assert (Hclose : forall c0 (t : bytes), same_conn c c0 /\ progress c c0 -> (length t <=? 128)%nat = true ->
    returns (fun c' => same_conn c c' /\ progress c c') (reply_close c0 t)).
  { intros c0 t [Hs Hp] Ht. apply (returns_mono (fun c' => replied c0 c' /\ closed c' = true)); [|by apply reply_close_replied, short_text].
    intros c' [(H1 & _ & H2) _]. split; by etrans. }
  unfold deliver_message. cbv zeta. destruct (mail_data_has_ctl _); [by apply Hclose; [split; reflexivity|]|].
  destruct (_ >? max_msg lim); [by apply Hclose; [split; reflexivity|]|].
  apply returns_any. intros hdr. apply returns_any. intros msgid.
  set (c1 := set_data _ _ c). assert (Hc1 : same_conn c c1 /\ progress c c1) by done. clearbody c1.
  destruct (msgid =? 0); [by apply Hclose|].
  apply returns_any. intros _. apply returns_any. intros ok.
  apply (returns_mono (replied c1)).
  - intros c' (H1 & _ & H2). destruct Hc1. split; by etrans.
  - apply conn_reply_replied, short_text. by destruct ok.
Qed.

Lemma data_scan_pos buf ml mt pos p :
  (pos <= length buf)%nat -> data_scan buf ml mt pos = ScanMore p -> (p <= length buf)%nat.
Proof.
  intros Hpos. unfold data_scan. destruct (data_scan_loop _ _ _ _) as [| |q tr] eqn:Hl; try done.
  destruct (_ >? mt); [done|]. destruct (_ && _); [done|]. intros [= ->].
  destruct (scan_end_split _ _ _ _ _ _ [] (or_introl (Forall_nil_2 _)) Hl) as [Hq _].
  rewrite length_app, length_drop in Hq. simpl in Hq. lia.
Qed.

(** The promise of an ingestion step. *)
Definition event c c' : Prop :=
  step c c' /\ (idle_in c -> idle_in c') /\
  (idle_in c -> tls_proxy_wait c = false -> small_in c -> small_in c').

#[local] Instance event_preorder : PreOrder event.
Proof.
  split; [intros c; by split; [reflexivity|]|]. intros a b c (A1 & A2 & A3) (B1 & B2 & B3).
  split; [by etrans|]. split; [auto|]. intros Hi Hw Hs. apply B3; [auto| |auto].
  destruct A1 as [_ (_ & _ & _ & _ & _ & Hw' & _)]. auto.
Qed.

Lemma replied_event c c' : replied c c' -> event c c'.
Proof.
  intros Hr. split; [by apply replied_step|]. destruct Hr as ((_ & _ & _ & _ & _ & A6) & (B1 & _) & C1 & _).
  unfold idle_in, small_in. rewrite B1, A6.
  assert (Hc : closed c' = false -> closed c = false) by (destruct (closed c); [intros; rewrite C1 in *; done|done]).
  split; auto.
Qed.

Lemma closed_event c c' : step c c' -> closed c' = true -> event c c'.
Proof. intros Hs Hc. split; [done|]. unfold idle_in, small_in. rewrite Hc. done. Qed.

Lemma reply_close_event c t : (length t <=? 128)%nat = true -> returns (event c) (reply_close c t).
Proof.
  intros Ht. apply (returns_mono (fun c' => step c c' /\ same_conn c c' /\ closed c' = true)); [|by apply reply_close_step].
  intros c' (Hs & _ & Hc). by apply closed_event.
Qed.

Section Adv.
Context (adv : Conn -> M Conn) (Hadv : forall c, returns (step c) (adv c)).

Lemma process_commands_ok c :
  (closed c = true \/ state c <> ST_DATA) ->
  returns (fun c' => step c c' /\ idle_in c' /\ (tls_proxy_wait c = false -> small_in c'))
    (process_commands cfg lim adv c).
Proof.
  intros Hst. unfold process_commands.
  apply (returns_mono (fun c' => step c c' /\ idle_in c' /\
    (tls_proxy_wait c = false -> (length (c_in c) < S (length (c_in c)))%nat -> small_in c'))); [|by apply commands_loop_ok].
  intros c' (H1 & H2 & H3). split; [done|]. split; [done|]. intros Hw. apply H3; [done|lia].
Qed.

Lemma process_data_ok c now :
  state c = ST_DATA -> returns (event c) (process_data cfg lim adv c now).
Proof.
  intros Hst. unfold process_data. destruct (data_scan _ _ _ _) as [e tl|pos|] eqn:Hscan.
  - set (c1 := set_data _ _ _). apply (returns_bind (fun c' => same_conn c1 c' /\ progress c1 c')); [apply deliver_message_frame|].
    intros c2 [Hs (Hp1 & Hp2 & Hp3)]. cbv zeta.
    assert (Hreset : step c (conn_reset c2 ST_HELO)).
    { destruct Hs as (A1 & A2 & A3 & A4 & A5 & _). split.
      - intros [_ Ho]. split; [apply reset_ok; by right|]. by apply Hp3.
      - unfold evolves. cbn. rewrite A1, A2, A3, A4, A5. repeat (split; [done|]). by left. }
    destruct (negb (closed (conn_reset c2 ST_HELO)) && negb (is_nil (c_in (conn_reset c2 ST_HELO)))) eqn:Hgo.
    + apply (returns_mono (fun c' => step (conn_reset c2 ST_HELO) c' /\ idle_in c' /\
        (tls_proxy_wait (conn_reset c2 ST_HELO) = false -> small_in c'))); [|by apply process_commands_ok; right].
      intros c' (H1 & H2 & H3). split; [by etrans|]. split; [done|]. intros _ Hw _. apply H3.
      destruct Hs as (_ & _ & _ & _ & A5 & _). cbn. by rewrite A5.
    + apply returns_ret. split; [done|]. split; [by intros _ ?|]. intros _ _ _ Hc.
      apply andb_false_iff in Hgo as [Hgo|Hgo]; [by rewrite Hc in Hgo|].
      apply negb_false_iff in Hgo. destruct (c_in (conn_reset c2 ST_HELO)); [|done]. unfold SMTP_MAX_LINE. simpl. lia.
  - apply returns_ret. split; [|done]. split; [|repeat (split; [done|]); by left].
    intros [(S1 & S2 & S3 & S4 & S5) Ho]. split; [|done]. unfold session_ok, sender_clean in *. cbn. rewrite Hst in *.
    repeat (split; [done|]). by apply (data_scan_pos _ _ _ _ _ S5 Hscan).
  - by apply reply_close_event.
Qed.

Lemma conn_take_bytes_ok c tmp now : returns (event c) (conn_take_bytes cfg lim adv c tmp now).
Proof.
  unfold conn_take_bytes. destruct (st_eqb (state c) ST_DATA) eqn:Hst.
  - apply bool_decide_eq_true in Hst. destruct (Z.gtb_spec (len (data c) + len tmp) (raw_cap lim)); [by apply reply_close_event|].
    set (c1 := set_data _ _ c). apply (returns_mono (event c1)); [|by apply process_data_ok]. intros c' Hc'. etrans; [|exact Hc'].
    split; [|done]. split; [|repeat (split; [done|]); by left].
    intros [(S1 & S2 & S3 & S4 & S5) Ho]. split; [|done]. unfold session_ok, sender_clean in *. cbn. rewrite Hst in *.
    repeat (split; [done|]). rewrite length_app. split; lia.
  - apply bool_decide_eq_false in Hst. set (c1 := set_in _ c).
    apply (returns_mono (fun c' => step c1 c' /\ idle_in c' /\ (tls_proxy_wait c1 = false -> small_in c'))).
    + intros c' (H1 & H2 & H3). split; [etrans; [apply (set_in_step (c_in c ++ tmp))|done]|]. split; [done|].
      intros _ Hw _. by apply H3.
    + apply process_commands_ok. by right.
Qed.

Lemma set_act_event v c : event c (set_act v c).
Proof. split; [apply set_act_step|done]. Qed.

Lemma close_event c : event c (close c).
Proof. apply replied_event, close_replied. Qed.

Lemma drain_loop_ok n t now : forall c, returns (event c) (drain_loop cfg lim adv n t c now).
Proof.
  induction n as [|n IH]; intros c; cbn [drain_loop]; [by apply returns_ret|].
  apply returns_any. intros [[|x d]| | |]; try (apply returns_ret; first [reflexivity|apply close_event]).
  apply (returns_bind (event (set_act now c))); [apply conn_take_bytes_ok|]. intros c1 Hc1.
  assert (H1 : event c c1) by (etrans; [apply set_act_event|exact Hc1]).
  destruct (closed c1); [by apply returns_ret|]. apply (returns_mono (event c1)); [|apply IH]. intros c' Hc'. by etrans.
Qed.

Lemma conn_readable_ok n c now : returns (event c) (conn_readable cfg lim adv n c now).
Proof.
  unfold conn_readable. destruct (tls c) as [t|].
  - apply returns_any. intros w. destruct (negb _); [by apply returns_ret|]. apply drain_loop_ok.
  - apply returns_any. intros [[|x d]| | |]; try (apply returns_ret; first [reflexivity|apply close_event]).
    apply (returns_mono (event (set_act now c))); [|apply conn_take_bytes_ok]. intros c' Hc'. etrans; [apply set_act_event|exact Hc'].
Qed.

End Adv.

Lemma greeting_short : len (greeting cfg) <= reply_bound.
Proof.
  unfold greeting. set (g := bs "220 " ++ _). destruct (_ <=? _)%nat; [by apply short_text|].
  unfold g, reply_bound. generalize (host_name cfg). intros hn. rewrite !length_app. simpl. lia.
Qed.

Lemma tls_advance_ok depth n : forall now c, returns (event c) (tls_advance cfg lim depth n now c).
Proof.
  induction depth as [|depth IH]; intros now c; cbn [tls_advance]; [by apply returns_ret|].
  assert (Hadv : forall c, returns (step c) (t ← on_host time_now; tls_advance cfg lim depth n t c)).
  { intros c0. apply returns_any. intros t. apply (returns_mono (event c0)); [|apply IH]. by intros c' [? _]. }
  pose proof (set_act_event now c) as He. destruct (tls (set_act now c)) as [t|]; [|by apply returns_ret].
  apply returns_any. intros r. destruct (r <? 0).
  { apply returns_ret. etrans; [exact He|]. apply closed_event; [apply drop_conn_step|done]. }
  destruct (r >? 0); [|by apply returns_ret].
  assert (Hgo : forall c1, event c c1 -> returns (event c)
    (conn_readable cfg lim (fun c => t ← on_host time_now; tls_advance cfg lim depth n t c) n c1 now)).
  { intros c1 H1. apply (returns_mono (event c1)); [|by apply conn_readable_ok]. intros c' Hc'. by etrans. }
  destruct (greeted (set_act now c)); cbn [negb].
  - apply Hgo. etrans; [exact He|]. set (c0 := set_act now c). split.
    + split; [intros [_ Ho]; split; [apply reset_ok; by left|done]|]. repeat (split; [done|]). by left.
    + by split; [intros _ ?|].
  - set (c0 := set_state ST_INIT (set_greeted (set_act now c))).
    assert (H0 : event c c0).
    { etrans; [exact He|]. split; [|by split; [intros _ ?|]]. split; [|repeat (split; [done|]); by left].
      intros [(S1 & S2 & S3 & S4) Ho]. by repeat (split; [done|]). }
    apply (returns_bind (replied c0)); [apply conn_reply_replied, greeting_short|].
    intros c1 Hc1. apply Hgo. etrans; [exact H0|by apply replied_event].
Qed.

Lemma on_readable_ok depth n c now : returns (event c) (on_readable cfg lim depth n c now).
Proof.
  apply conn_readable_ok. intros c0. apply returns_any. intros t.
  apply (returns_mono (event c0)); [|apply tls_advance_ok]. by intros c' [? _].
Qed.

Lemma idle_check_ok c now : returns (event c) (idle_check lim c now).
Proof.
  unfold idle_check. destruct (_ && _); [|by apply returns_ret]. apply returns_any. intros w.
  destruct (match tls c with Some _ => _ | None => _ end); [|by apply reply_close_event].
  apply returns_ret, closed_event; [apply drop_conn_step|done].
Qed.

(** ** Sessions *)

(** A connection as [server_accept] creates it, for an implicit-TLS listener or
    not, before any greeting. *)
Definition new_conn (fd0 : Z) (ip : bytes) (implicit_tls : bool) (now : Z) : Conn :=
  MkConn fd0 ST_INIT false None [] [] [] 0 [] 0 now ip ip false false implicit_tls None [].

(** The states a session reaches: it starts at accept, and each step is one
    action of the poll loop (bytes to read, a TLS handshake round, room to write,
    the idle check, a 220 greeting) in any world, at any time. *)
Inductive session (ip : bytes) (implicit_tls : bool) : Conn -> Prop :=
  | session_new fd0 now : session ip implicit_tls (new_conn fd0 ip implicit_tls now)
  | session_greet c w : session ip implicit_tls c ->
      session ip implicit_tls (set_greeted (conn_reply c (greeting cfg) w).2)
  | session_read c w depth n now : session ip implicit_tls c ->
      session ip implicit_tls (on_readable cfg lim depth n c now w).2
  | session_tls c w depth n now : session ip implicit_tls c ->
      session ip implicit_tls (tls_advance cfg lim depth n now c w).2
  | session_write c w : session ip implicit_tls c -> session ip implicit_tls (conn_flush c w).2
  | session_idle c w now : session ip implicit_tls c -> session ip implicit_tls (idle_check lim c now w).2.

(** What holds all along. *)
Definition session_inv (ip : bytes) (implicit_tls : bool) c : Prop :=
  conn_ok c /\ idle_in c /\
  (implicit_tls = false -> tls_proxy_wait c = false /\ small_in c) /\
  real_ip c = ip /\ (peer_ip c = ip \/ proxy_peer_trusted (cl_proxy_from (listen cfg)) ip = true).

Lemma session_inv_event ip b c c' : event c c' -> session_inv ip b c -> session_inv ip b c'.
Proof.
  intros ([H1 (A1 & A2 & A3 & A4 & A5 & A6 & A7)] & H2 & H3) (B1 & B2 & B3 & B4 & B5).
  split; [auto|]. split; [auto|]. split; [intros Hb; destruct (B3 Hb); auto|]. split; [congruence|].
  rewrite B4 in A7. destruct A7 as [->|[_ A7]]; [done|by right].
Qed.

Lemma session_inv_holds ip b c : session ip b c -> session_inv ip b c.
Proof.
  induction 1 as [fd0 now|c w _ IH|c w depth n now _ IH|c w depth n now _ IH|c w _ IH|c w now _ IH].
  - unfold limits_ok in Hlim. split; [|split; [done|split; [intros ->; split; [done|]; intros _; unfold SMTP_MAX_LINE; simpl; lia|split; [done|by left]]]].
    split; [|unfold out_ok, reply_bound, SMTP_IN_MAX_OUT; simpl; lia].
    split; [constructor|]. split; [simpl; lia|]. split; [done|]. simpl. lia.
  - apply (session_inv_event _ _ c); [|done]. etrans; [exact (replied_event _ _ (conn_reply_replied c (greeting cfg) greeting_short w))|].
    generalize (conn_reply c (greeting cfg) w).2. intros c1. split; [|done]. split; [done|]. repeat (split; [done|]). by left.
  - apply (session_inv_event _ _ c); [apply on_readable_ok|done].
  - apply (session_inv_event _ _ c); [apply tls_advance_ok|done].
  - apply (session_inv_event _ _ c); [apply replied_event, conn_flush_replied|done].
  - apply (session_inv_event _ _ c); [apply idle_check_ok|done].
Qed.

End SessionSpec.

Lemma server_init_ok cfg :
  is_u32 (lim_message (limits cfg)) -> is_u32 (lim_line (limits cfg)) -> is_u32 (lim_rcpts (limits cfg)) ->
  limits_ok (server_init cfg).
Proof.
  unfold is_u32, limits_ok, server_init, SMTP_IN_DEFAULT_MAX_MSG, SMTP_MAX_LINE. cbn.
  intros. destruct (lim_message (limits cfg) =? 0), (lim_line (limits cfg) =? 0); lia.
Qed.

(** C5: The session invariant. Whatever bytes arrive, in whatever pieces, over
    TLS or in the clear, and whatever the store, the disk, the relay and the
    socket answer, every state a session reaches from accept satisfies: each
    accepted recipient is printable, free of quotes and angle brackets and parses
    as an address, and there are at most [limits.rcpts] of them; a sender is set
    once MAIL was accepted and is as clean; DATA is only entered with a recipient;
    the message buffer stays within the raw cap and the scan position within the
    buffer; the reply backlog stays within its cap plus one reply; on a plaintext
    listener an unfinished command line stays within [SMTP_MAX_LINE]; the TCP
    peer address never changes, and the claimed client address differs from it
    only when that peer is in the trusted proxy list. *)
Theorem session_invariant {E : DlEngine} {H : Host} (cfg : Config) (ip : bytes) (implicit_tls : bool) (c : Conn)
  (Hmsg : is_u32 (lim_message (limits cfg))) (Hline : is_u32 (lim_line (limits cfg)))
  (Hrcpts : is_u32 (lim_rcpts (limits cfg)))
  (Hs : session cfg (server_init cfg) ip implicit_tls c) :
  Forall rcpt_clean (rcpts c) /\
  (lim_rcpts (limits cfg) <> 0 -> len (rcpts c) <= lim_rcpts (limits cfg)) /\
  (state c = ST_MAIL \/ state c = ST_DATA -> exists f, from c = Some f /\ path_clean f = true) /\
  (state c = ST_DATA -> rcpts c <> []) /\
  len (data c) <= raw_cap (server_init cfg) /\ (scan_pos c <= length (data c))%nat /\
  len (out c) <= SMTP_IN_MAX_OUT + (len (host_name cfg) + 128) /\
  (implicit_tls = false -> closed c = false -> len (c_in c) <= SMTP_MAX_LINE) /\
  real_ip c = ip /\ (peer_ip c = ip \/ proxy_peer_trusted (cl_proxy_from (listen cfg)) ip = true).
Proof.
  pose proof (server_init_ok cfg Hmsg Hline Hrcpts) as Hlim.
  destruct (session_inv_holds cfg (server_init cfg) Hlim ip implicit_tls c Hs)
    as (((S1 & S2 & S3 & S4 & S5) & Ho & _) & _ & Hin & Hip).
  split; [done|]. split; [done|]. split; [|split; [|split; [done|split; [done|split; [done|split; [|done]]]]]].
  - intros [Hst|Hst]; rewrite Hst in S3; apply S3.
  - intros Hst. rewrite Hst in S3. apply S3.
  - intros Hb. by apply Hin.
Qed.

(** ** Acceptance *)

Section Acceptance.
Context {E : DlEngine} {L : DlLaws E} {H : Host} {HL : HostLaws H} (cfg : Config) (lim : Limits).
Implicit Types (w : World) (c : Conn).

Lemma conn_flush_ok P c : preserves (step_ok cfg P) (conn_flush c).
Proof.
  unfold conn_flush. destruct (_ <=? _)%nat; [by apply preserves_ret, _|].
  apply preserves_bind; [exact _|apply get_w_ok|intros w0].
  apply preserves_bind; [exact _| |intros rs; by apply preserves_ret, _].
  destruct (tls c) as [t|]; [destruct (smtp_in_tls_pending _ _)|];
    apply on_host_ok; first [apply send_keeps|apply tls_send_keeps].
Qed.

Lemma conn_reply_ok P c t : preserves (step_ok cfg P) (conn_reply c t).
Proof. unfold conn_reply. destruct (_ >? _); [by apply preserves_ret, _|apply conn_flush_ok]. Qed.

Lemma reply_close_ok P c t : preserves (step_ok cfg P) (reply_close c t).
Proof. unfold reply_close. apply preserves_bind; [exact _|apply conn_reply_ok|intros ?; by apply preserves_ret, _]. Qed.

(** A reply queues its text, or the connection was over its backlog. *)
Lemma conn_reply_said c t : returns (fun c' => said c' = said c \/ said c' = said c ++ [t]) (conn_reply c t).
Proof.
  unfold conn_reply. destruct (_ >? _); [by apply returns_ret; left|]. unfold conn_flush.
  destruct (_ <=? _)%nat; [by apply returns_ret; right|]. apply returns_any. intros w. apply returns_any. intros rs.
  apply returns_ret. right. by destruct (flush_loop _ _ _).
Qed.

Lemma reply_close_said c t : returns (fun c' => said c' = said c \/ said c' = said c ++ [t]) (reply_close c t).
Proof.
  unfold reply_close. apply (returns_bind (fun c' => said c' = said c \/ said c' = said c ++ [t])); [apply conn_reply_said|].
  intros c' Hc'. by apply returns_ret.
Qed.

Lemma next_msgid_same s : same_outside (in_rel RMeta) (db s) (db (store_next_msgid s).1).
Proof.
  unfold store_next_msgid. step_intern.
  assert (X : same_outside (in_rel RMeta) (db s) (db s0)) by by apply ext_same_outside.
  destruct (i =? 0); [exact X|]. rewrite meta_read_prefix. destruct (_ <? 0); [exact X|]. cbv zeta.
  destruct (u32 _ =? 0); [exact X|]. set (r := [i; _]).
  pose proof (add_same_outside (in_rel RMeta) s0 RMeta r eq_refl) as Ha.
  destruct (add_fact s0 RMeta r) as [s1 rc]. cbn [fst] in Ha. destruct (rc <? 0); [by etrans|]. cbn [fst].
  rewrite delete_rows_if. etrans; [exact X|]. etrans; [exact Ha|]. by apply delete_same_outside.
Qed.

Lemma next_msgid_ok P : (forall x, P RMeta x) -> preserves (step_ok cfg P) (on_store store_next_msgid).
Proof.
  intros HP. apply (preserves_mono cfg (in_rel RMeta)); [intros r x ->; apply HP|].
  apply on_store_ok.
  - intros s Hwf. by apply (run_op_wf s ONextMsgid Hwf).
  - apply next_msgid_same.
  - intros s x Hx. by apply (next_msgid_same s).
  - intros s m k f t. apply (envelope_same (in_rel RMeta)); [apply next_msgid_same|done].
Qed.

Lemma spool_inbound_ok P m msg : is_u32 m -> preserves (step_ok cfg P) (spool_inbound cfg m msg).
Proof.
  intros Hm. unfold spool_inbound.
  assert (Hmk : preserves (step_ok cfg P) (mkdir_p (sg_spool (storage cfg)))).
  { unfold mkdir_p. apply preserves_if; intros _; [by apply preserves_ret, _|].
    apply preserves_bind; [exact _| |intros []; [apply on_host_ok, mkdir_keeps|by apply preserves_ret, _]].
    generalize (@nil Z). generalize (sg_spool (storage cfg)). intros s. induction s as [|x s IH]; intros pre; cbn [mkdir_loop];
      [by apply preserves_ret, _|]. apply preserves_if; intros _; [|apply IH].
    apply preserves_bind; [exact _|apply on_host_ok, mkdir_keeps|]. intros []; [apply IH|by apply preserves_ret, _]. }
  apply preserves_bind; [exact _|exact Hmk|intros made]. destruct (negb made); [by apply preserves_ret, _|].
  destruct (spool_in_path cfg m 4096) as [p|] eqn:Hp; [|by apply preserves_ret, _].
  apply preserves_bind; [exact _| |intros ?; by apply preserves_ret, _].
  intros w. unfold on_host. pose proof (write_other (w_host w) p msg) as Hw.
  destruct (write_file (w_host w) p msg) as [h ok]. cbn [fst] in *. split; [done|]. split; [reflexivity|]. split; [done|].
  intros m' k' f t b (A1 & A2 & A3 & q & A4 & A5). split; [done|]. split; [done|]. split; [done|]. exists q. split; [done|].
  cbn [w_host]. rewrite Hw; [done|]. intros ->. unfold spool_in_path in Hp. destruct (_ <=? _)%nat; [done|].
  injection Hp as Hp. apply spool_out_path_eq in A4. rewrite <- Hp in A4. apply app_inv_head in A4. injection A4 as A4.
  apply (f_equal spool_name_parse) in A4. rewrite out_name_parse in A4 by done.
  by rewrite (spool_parse_in (print_u32 m) m (print_u32_numeral m Hm)) in A4.
Qed.

(** Every queue row has a message id the counter has passed. *)
Definition queue_below (d : dl_db) : Prop :=
  forall x, dl_has d RQueue x -> exists v, meta_fact d v /\ col x 0 <= v.

(** What the store must satisfy when a message ends: it is well typed, message
    ids grow, the counter has few rows, and a message for [n] recipients has
    fewer than 2^32 destinations. *)
Definition deliverable (d : dl_db) (n : Z) : Prop :=
  store_wf d /\ queue_below d /\
  (exists vs, (length vs <= META_MAX_ROWS)%nat /\ forall v, meta_fact d v -> v ∈ vs) /\
  exists N, 1 <= N /\ N * n <= UINT32_MAX /\ dests_bound d N.

Definition reply_250 : bytes := bs "250 2.0.0 OK: queued" ++ CRLF.

(** The facts the end of a message may write. *)
Definition message_facts (r : Rel) (x : row) : Prop := r = RLog \/ r = RRevmap \/ r = RMeta \/ r = RQueue.

Lemma meta_message r x : in_rel RMeta r x -> message_facts r x.
Proof. intros ->. right; right; by left. Qed.

Lemma msg_message m r x : msg_facts m r x -> message_facts r x.
Proof. intros [->|[->|[-> _]]]; unfold message_facts; auto. Qed.

(** The loop over the recipients, from a world in which only the counter moved. *)
Lemma deliver_loop_spec w w2 m msg sender rcpts0 ts N :
  step_ok cfg (in_rel RMeta) w w2 -> store_wf (w_db w) -> is_u32 m -> is_u32 ts ->
  (forall x, dl_has (w_db w) RQueue x -> col x 0 < m) -> 1 <= N -> N * len rcpts0 <= UINT32_MAX ->
  dests_bound (w_db w) N ->
  let '(w', ok) := deliver_rcpts cfg msg sender rcpts0 m ts 0 true w2 in
  step_ok cfg message_facts w w' /\
  (ok = true -> forall rcpt, rcpt ∈ rcpts0 -> rcpt_done cfg w w' m sender rcpt).
Proof.
  intros X Hwf Hm Hts Hlt HN HNn Hb.
  assert (Ha : forall dom loc dst, alias_fact (w_db w2) dom loc dst <-> alias_fact (w_db w) dom loc dst).
  { intros. apply (alias_same (in_rel RMeta)); [done|done|apply X]. }
  pose proof (deliver_rcpts_spec cfg msg sender m ts N rcpts0 HN Hts w2 0 true) as Hd.
  destruct (deliver_rcpts cfg msg sender rcpts0 m ts 0 true w2) as [w' ok]. destruct Hd as [Hs Hd].
  - split; [by apply X|]. split; [|split; [done|lia]]. intros k x _ [Hx Hp].
    apply (proj2 (proj1 (proj2 X))) in Hx; [|done]. apply Hlt in Hx. unfold col in Hx.
    destruct x as [|a x]; [done|]. cbn [take] in Hp. injection Hp as -> _. simpl in Hx. lia.
  - intros dom loc. destruct (Hb dom loc) as (l & Hl & Hin). exists l. split; [done|]. intros x Hx%Ha. auto.
  - split.
    + etrans; [by apply (step_ok_mono cfg _ _ _ _ meta_message)|by apply (step_ok_mono cfg _ _ _ _ (msg_message m))].
    + intros Hok rcpt Hin. destruct (Hd Hok rcpt Hin) as [Hl|(loc & dom & Hsp & D1 & D2)]; [by left|right].
      exists loc, dom. split; [done|]. split; [intros dst Hdst; by apply D1, Ha|].
      intros Hno. apply D2. intros dst Hdst%Ha. by apply (Hno dst).
Qed.

(** A refusal is not a 250. *)
Lemma refuse_spec w w0 c c0 (t : bytes) (Q : World -> Prop) :
  step_ok cfg message_facts w w0 -> said c0 = said c -> t <> reply_250 ->
  let '(w', c') := reply_close c0 t w0 in
  step_ok cfg message_facts w w' /\ (said c' = said c ++ [reply_250] -> Q w').
Proof.
  intros H0 Hs Ht. pose proof (reply_close_ok message_facts c0 t w0) as X. pose proof (reply_close_said c0 t w0) as Y.
  destruct (reply_close c0 t w0) as [w1 c1]. cbn [fst snd] in *. split; [by etrans|]. rewrite Hs in Y. intros Z.
  rewrite Z in Y. exfalso. destruct Y as [Y|Y].
  - apply (f_equal length) in Y. rewrite length_app in Y. simpl in Y. lia.
  - apply app_inv_head in Y. congruence.
Qed.

(** The guarantee of a 250 in the world [w'] after it. *)
Definition accepted c w w' : Prop :=
  exists m, is_u32 m /\ (forall x, dl_has (w_db w) RQueue x -> col x 0 < m) /\
    forall rcpt, rcpt ∈ rcpts c -> rcpt_done cfg w w' m (default [] (from c)) rcpt.

Lemma deliver_spec c now w :
  deliverable (w_db w) (len (rcpts c)) ->
  let '(w', c') := deliver_message cfg lim c now w in
  step_ok cfg message_facts w w' /\ (said c' = said c ++ [reply_250] -> accepted c w w').
Proof.
  intros (Hwf & Hbelow & Hmeta & N & HN & HNn & Hb). unfold deliver_message. cbv zeta.
  destruct (mail_data_has_ctl _); [by apply refuse_spec|]. destruct (_ >? max_msg lim); [by apply refuse_spec|].
  rewrite bind_run. set (auth := on_host _).
  pose proof (on_host_ok cfg (in_rel RMeta) _ (auth_keeps (hostname cfg) (mail_unstuff_dots (data c)) (default [] (from c)) (peer_ip c)) w : step_ok cfg (in_rel RMeta) w (auth w).1) as Ha.
  assert (Hs0 : w_store (auth w).1 = w_store w).
  { unfold auth, on_host. by destruct (auth_results_build _ _ _ _ _). }
  destruct (auth w) as [w0 hdr]. cbn [fst snd] in *. clear auth. rewrite bind_run.
  pose proof (next_msgid_ok (in_rel RMeta) (fun x => eq_refl) w0) as Hn.
  pose proof (next_msgid_spec (w_store w0)) as Hspec. rewrite Hs0 in Hspec.
  unfold on_store in Hn |- *. rewrite Hs0 in Hn |- *.
  destruct (store_next_msgid (w_store w)) as [s1 m]. cbn [fst snd] in *.
  destruct (Hspec Hwf Hmeta) as (Hm & _ & _). clear Hspec. set (w1 := MkWorld s1 _ _ _) in *.
  assert (X1 : step_ok cfg (in_rel RMeta) w w1) by by etrans.
  destruct (Z.eqb_spec m 0) as [|Hm0]; [by apply refuse_spec; [apply (step_ok_mono cfg _ _ _ _ meta_message)| |]|].
  specialize (Hm Hm0). destruct Hm as (Hmu & Hmv & _). rewrite bind_run.
  set (msg := default [] hdr ++ mail_unstuff_dots (data c)).
  pose proof (spool_inbound_ok (in_rel RMeta) m msg Hmu w1) as X2.
  assert (X : step_ok cfg (in_rel RMeta) w (spool_inbound cfg m msg w1).1) by by etrans.
  rewrite bind_run. cbn [rcpts set_data].
  assert (Hlt : forall x, dl_has (w_db w) RQueue x -> col x 0 < m).
  { intros x Hx. destruct (Hbelow x Hx) as (v & Hv & Hle). pose proof (Hmv v Hv). lia. }
  pose proof (deliver_loop_spec w _ m msg (default [] (from c)) (rcpts c) (u32 now) N X Hwf Hmu (u32_range now) Hlt HN HNn Hb) as Hd.
  destruct (deliver_rcpts cfg msg (default [] (from c)) (rcpts c) m (u32 now) 0 true _) as [w3 ok].
  destruct Hd as [Hs3 Hd]. cbn [fst snd].
  set (c1 := set_data msg (scan_pos c) c). set (t := if ok then _ else _).
  pose proof (conn_reply_ok message_facts c1 t w3) as X4. pose proof (conn_reply_said c1 t w3) as Y.
  destruct (conn_reply c1 t w3) as [w4 c4]. cbn [fst snd] in *. split; [by etrans|]. intros Hsaid.
  rewrite Hsaid in Y. change (said c1) with (said c) in Y. destruct ok.
  2:{ exfalso. destruct Y as [Y|Y]; [apply (f_equal length) in Y; rewrite length_app in Y; simpl in Y; lia|].
      apply app_inv_head in Y. discriminate Y. }
  exists m. split; [done|]. split; [done|]. intros rcpt Hin.
  destruct (Hd eq_refl rcpt Hin) as [(tok & sn & al & ts & A & B & C)|(loc & dom & Hsp & D1 & D2)]; [left|right].
  - exists tok, sn, al, ts. split; [done|]. split; [by apply (revmap_step cfg message_facts w3)|by apply (dest_done_mono _ _ _ _ _ _ _ X4)].
  - exists loc, dom. split; [done|].
    split; [intros dst Hdst|intros Hno ca Hca]; apply (dest_done_mono _ _ _ _ _ _ _ X4); auto.
Qed.

(** C1: What a 250 means. Let a message end on a session, on a store that is well
    typed, whose queue rows have message ids the counter has passed, and whose
    aliases do not give one message 2^32 destinations. Whatever the engine, the
    disk, the relay and the socket answer from there on: if the server queues the
    reply "250 2.0.0 OK: queued", then for every recipient of the session either
    a reply delivery to the owner of its token is committed, or a delivery to
    each destination of its alias is (to the catch-all, if one is configured and
    the alias has none), each with its queue row stored and its body in its own
    spool file, all under one message id above that of every earlier delivery.
    And 250 or not, no delivery committed before is lost or altered. *)
Theorem accepted_means_committed c now w (Hd : deliverable (w_db w) (len (rcpts c))) :
  let '(w', c') := deliver_message cfg lim c now w in
  (said c' = said c ++ [bs "250 2.0.0 OK: queued" ++ CRLF] ->
   exists m, is_u32 m /\ (forall x, dl_has (w_db w) RQueue x -> col x 0 < m) /\
     forall rcpt, rcpt ∈ rcpts c -> rcpt_done cfg w w' m (default [] (from c)) rcpt) /\
  (forall m k f t body, committed cfg w m k f t body -> committed cfg w' m k f t body).
Proof.
  pose proof (deliver_spec c now w Hd) as H'. destruct (deliver_message cfg lim c now w) as [w' c'].
  destruct H' as [(_ & _ & _ & Hc) Ha]. by split.
Qed.

End Acceptance.

(** ** The decision on a recipient *)

(** An address that parses can be split at its first '@'. *)
Lemma parsed_splits s l d : mail_addr_parse s = Some (l, d) -> is_Some (split_addr s).
Proof.
  intros Hp. apply mail_addr_parse_inv in Hp as (Hs & _ & _ & Hl & Hd).
  destruct (trim_split is_wsp s) as (a & b & Hab & Ha).
  assert (Hdec : exists p q, s = p ++ (l ++ "@"%chr :: d) ++ q /\ "@"%chr ∉ p).
  { assert (Hwa : "@"%chr ∉ a) by (intros Hin; rewrite Forall_forall in Ha; by apply Ha in Hin).
    unfold strip_angles in Hs. destruct (trim is_wsp s) as [|c t]; [done|].
    destruct (Z.eqb_spec c "<"%chr) as [->|]; [|injection Hs as Hs; rewrite Hs in Hab; by exists a, b].
    destruct (last _) as [z|] eqn:Hz; [|done]. destruct (negb (z =? ">"%chr)); [done|].
    destruct (take (length t - 1) t) eqn:Ht; [done|]. injection Hs as Hs. rewrite Hs in Ht.
    exists (a ++ ["<"%chr]), (drop (length t - 1) t ++ b). split; [|set_solver].
    rewrite Hab, <- Ht. cbn [app]. rewrite <- !app_assoc. cbn [app]. f_equal. f_equal.
    by rewrite app_assoc, take_drop. }
  destruct Hdec as (p & q & -> & Hpat). 
  assert (Hc : exists c t, l = c :: t /\ c <> "@"%chr).
  { destruct Hl as [(_ & (c & t & -> & Hat) & _)%dot_atom_ok_inv|(x & -> & _)]; eexists _, _; (split; [done|]); [|done].
    by intros ->. }
  destruct Hc as (c & t & -> & Hc).
  assert (Hdne : d <> []) by (by intros ->).
  unfold split_addr. set (X := p ++ c :: t). assert (Heq : p ++ ((c :: t) ++ "@"%chr :: d) ++ q = X ++ "@"%chr :: d ++ q).
  { unfold X. by rewrite <- !app_assoc. }
  rewrite Heq. pose proof (cut_spec "@"%chr (X ++ "@"%chr :: d ++ q)) as Hcut.
  destruct (cut "@"%chr (X ++ "@"%chr :: d ++ q)) as [[u v]|]; [|exfalso; apply Hcut; set_solver].
  destruct Hcut as [Huv Hu]. destruct u as [|u0 u]; cbn [is_nil].
  { exfalso. unfold X in Huv. destruct p as [|p0 p]; cbn in Huv; injection Huv as E1 _; [done|subst; set_solver]. }
  destruct v as [|v0 v]; cbn [is_nil]; [|by eexists].
  exfalso. destruct (exists_last (l := d ++ q)) as (r & z & Hr); [by destruct d|].
  rewrite Hr in Huv. change ("@"%chr :: r ++ [z]) with (("@"%chr :: r) ++ [z]) in Huv. rewrite app_assoc in Huv.
  apply app_inj_tail in Huv as [Huv _]. rewrite <- Huv in Hu. set_solver.
Qed.

Section Decision.
Context {E : DlEngine} {L : DlLaws E} (cfg : Config).

Lemma domain_served_spec ds domain :
  domain_served ds domain = true <-> exists d, Some d ∈ ds /\ lower d = lower domain.
Proof.
  induction ds as [|[d|] ds IH]; cbn [domain_served].
  - split; [done|]. by intros (d & ?%elem_of_nil & _).
  - rewrite ascii_ieq_str_ieq. destruct (ieq d domain) eqn:Hi.
    + split; [|done]. intros _. exists d. split; [by left|by apply ieq_spec].
    + rewrite IH. setoid_rewrite elem_of_cons. split; [intros (x & ? & ?); eauto|].
      intros (x & [[= ->]|Hx] & Hl); [|eauto]. apply ieq_spec in Hl. congruence.
  - rewrite IH. setoid_rewrite elem_of_cons. split; [intros (x & ? & ?); eauto|].
    intros (x & [?|Hx] & Hl); [done|eauto].
Qed.

(** A live reply token: its row has not expired at time [now]. *)
Definition live_token (d : dl_db) (now : Z) (rcpt : bytes) : Prop :=
  exists tok sn al ts, reply_token_extract (reply cfg) rcpt = Some tok /\ revmap_fact d tok sn al ts /\
    revmap_expired (u32 now) ts = false.

Definition has_dest (d : dl_db) (rcpt : bytes) : Prop :=
  exists loc dom dst, split_addr rcpt = Some (loc, dom) /\ alias_fact d dom loc dst.

(** A token has one creation time. *)
Definition tokens_unique (d : dl_db) : Prop :=
  forall tok sn al ts sn' al' ts', revmap_fact d tok sn al ts -> revmap_fact d tok sn' al' ts' -> ts = ts'.

Lemma route_live {Hh : DlHealthy E} s now rcpt :
  store_wf (db s) -> tokens_unique (db s) ->
  let '(s', r, p) := reply_route_inbound s now (reply cfg) rcpt in
  (r = 1 /\ live_token (db s) now rcpt) \/ (r = 0 /\ ~ live_token (db s) now rcpt).
Proof.
  intros Hwf Hu. unfold reply_route_inbound. destruct (reply_token_extract (reply cfg) rcpt) as [tok|] eqn:Ht.
  2:{ right. split; [done|]. intros (tok & sn & al & ts & Htok & _). congruence. }
  assert (Hn : is_nil tok = false).
  { revert Ht. unfold reply_token_extract. destruct (strip_prefix _ rcpt) as [q|]; [|done]. cbn [mbind option_bind].
    destruct (strip_prefix _ q) as [q'|]; [|done]. cbn [mbind option_bind].
    destruct (cut "@"%chr q') as [[t dom]|]; [|done].
    destruct (is_nil t) eqn:En; [done|]. destruct (is_nil dom); [done|]. by intros [= <-]. }
  pose proof (revmap_resolve_spec s now tok Hwf Hn) as Hs.
  destruct (store_revmap_resolve s now tok) as [[s1 c] [[sn al]|]].
  - destruct Hs as (_ & -> & ts & Hf & Hx). cbn [Z.eqb negb VISAGE_OK]. left. split; [done|]. by exists tok, sn, al, ts.
  - destruct Hs as (_ & [[-> Hno]|[[-> (sn & al & ts & Hf & Hx)]|[_ Hbad]]]); cbn [Z.eqb negb VISAGE_OK]; [right|right|done].
    + split; [done|]. intros (tok' & sn & al & ts & Htok & Hf & _). assert (tok' = tok) as -> by congruence.
      by apply (Hno sn al ts).
    + split; [done|]. intros (tok' & sn' & al' & ts' & Htok & Hf' & Hx'). assert (tok' = tok) as -> by congruence.
      rewrite (Hu _ _ _ _ _ _ _ Hf' Hf) in Hx'. congruence.
Qed.

(** C13: The decision on a recipient. On a healthy engine and a well-typed store
    whose reply tokens have one creation time each: an address that does not parse
    has no route; an address whose domain is not served, compared without regard
    to case, is refused as such; any other is accepted exactly when it carries a
    live reply token, or its alias has a destination, or a catch-all is
    configured, and has no route otherwise. It is never a temporary failure, and
    the decision changes no table. *)
Theorem rcpt_decision {Hh : DlHealthy E} s (now : Z) (rcpt : bytes)
  (Hwf : store_wf (db s)) (Hu : tokens_unique (db s)) :
  let '(s', d) := smtp_in_rcpt_ok cfg s now rcpt in
  let deliverable := live_token (db s) now rcpt \/ has_dest (db s) rcpt \/ nonempty (catch_all cfg) <> None in
  match mail_addr_parse rcpt with
  | None => d = RCPT_NOROUTE
  | Some (_, domain) =>
      ((~ exists x, Some x ∈ domains cfg /\ lower x = lower domain) -> d = RCPT_BAD_DOMAIN) /\
      ((exists x, Some x ∈ domains cfg /\ lower x = lower domain) ->
         (deliverable /\ d = RCPT_OK) \/ (~ deliverable /\ d = RCPT_NOROUTE))
  end /\
  (forall r x, dl_has (db s') r x <-> dl_has (db s) r x).
Proof.
  unfold smtp_in_rcpt_ok. destruct (mail_addr_parse rcpt) as [[l domain]|] eqn:Hp; [|done]. cbv zeta.
  pose proof (domain_served_spec (domains cfg) domain) as Hserved.
  assert (Hyes : domain_served (domains cfg) domain = true ->
    exists x, Some x ∈ domains cfg /\ lower x = lower domain) by apply Hserved.
  destruct (domain_served (domains cfg) domain) eqn:Hd; cbn [negb].
  2:{ split; [|done]. split; [done|]. intros Hx. by apply Hserved in Hx. }
  specialize (Hyes eq_refl).
  pose proof (route_live s now rcpt Hwf Hu) as Hr. pose proof (route_ext s now (reply cfg) rcpt) as Hext.
  destruct (reply_route_inbound s now (reply cfg) rcpt) as [[s1 r] p]. cbn [fst] in Hext.
  destruct Hr as [[-> Hlive]|[-> Hlive]]; cbn [Z.eqb Z.ltb Z.compare Pos.eqb].
  { split; [|apply Hext]. split; [by intros []|]. intros _. left. auto. }
  destruct (parsed_splits rcpt l domain Hp) as [[loc dom] Hsp].
  pose proof (resolve_spec s1 rcpt loc dom (ext_wf _ _ Hext Hwf) Hsp) as Hs.
  destruct (store_resolve s1 rcpt) as [[s2 rc] dests]. destruct Hs as ([F _] & Hok & Hbad).
  assert (Hrc : rc = VISAGE_OK) by (destruct (Z.eq_dec rc VISAGE_OK) as [|Hne]; [done|by destruct (Hbad Hne)]).
  subst rc. cbn [Z.eqb negb VISAGE_OK]. destruct (Hok eq_refl) as [_ Hds].
  assert (Hhas : has_dest (db s) rcpt <-> dests <> []).
  { split.
    - intros (loc' & dom' & dst & Hsp' & Ha). assert (loc' = loc /\ dom' = dom) as [-> ->] by (split; congruence).
      intros ->. apply (alias_fact_ext (db s) (db s1)) in Ha; [|done|done]. apply Hds in Ha. by apply elem_of_nil in Ha.
    - destruct dests as [|dst dests]; [done|]. intros _. exists loc, dom, dst. split; [done|].
      apply (alias_fact_ext (db s) (db s1)); [done|done|]. apply Hds. by left. }
  assert (Htab : forall r x, dl_has (db s2) r x <-> dl_has (db s) r x) by (intros r x; rewrite F; apply Hext).
  destruct dests as [|dst dests]; cbn [length Nat.ltb Nat.leb].
  - destruct (nonempty (catch_all cfg)) as [ca|] eqn:Hca; (split; [|done]); (split; [by intros []|]); intros _.
    + left. split; [by right; right|done].
    + right. split; [|done]. rewrite Hhas. by intros [?|[?|?]].
  - split; [|done]. split; [by intros []|]. intros _. left. split; [|done]. right; left. by apply Hhas.
Qed.

End Decision.

(** ** Witnesses *)

(** A client's commands and its message, as two pieces. *)
Definition client_commands : bytes :=
  bs "HELO a" ++ CRLF ++ bs "MAIL FROM:<s@z>" ++ CRLF ++ bs "RCPT TO:<me@x.org>" ++ CRLF ++ bs "DATA" ++ CRLF.
Definition client_message : bytes := bs "Subject: x" ++ CRLF ++ CRLF ++ bs "hi" ++ CRLF.

(** The session after the commands. *)
Definition mem_session : @World MemEngine MemHost * Conn :=
  on_readable mem_cfg (server_init mem_cfg) 1 1 (new_conn 5 (bs "ip4a") false 2000) 2000
    (mem_world 0 [client_commands]).

Lemma session_invariant_witness :
  state mem_session.2 = ST_DATA /\ rcpts mem_session.2 = [bs "me@x.org"] /\ Forall rcpt_clean (rcpts mem_session.2).
Proof.
  split; [vm_compute; reflexivity|]. split; [vm_compute; reflexivity|].
  assert (Hu : is_u32 10000 /\ is_u32 0 /\ is_u32 10) by (unfold is_u32, UINT32_MAX; lia).
  destruct Hu as (Hm & Hl & Hr).
  destruct (@session_invariant MemEngine MemHost mem_cfg (bs "ip4a") false mem_session.2 Hm Hl Hr) as [Hc _]; [|exact Hc].
  apply session_read, session_new.
Defined.

(** A session whose message has just ended. *)
Definition mem_data_conn : Conn :=
  MkConn 5 ST_DATA false (Some (bs "s@z")) [bs "me@x.org"] [] client_message 0 [] 0 2000
    (bs "ip4a") (bs "ip4a") false true false None [].

Lemma mem1_dests : dests_bound (db mem1) 1.
Proof.
  intros dom loc. exists [bs "you@y"]. split; [simpl; lia|]. intros x (xd & xl & xx & _ & _ & Hs & Hx).
  change (dl_has (db mem1) RAlias [xd; xl; xx]) with ([xd; xl; xx] ∈ [[1; 2; 3]]) in Hx.
  apply list_elem_of_singleton in Hx. injection Hx as -> -> ->. unfold sym in Hs. vm_compute in Hs.
  injection Hs as <-. apply list_elem_of_singleton. vm_compute. reflexivity.
Qed.

Lemma mem1_deliverable : deliverable (db mem1) 1.
Proof.
  split; [exact mem1_wf|]. split; [|split].
  - intros x Hx. change (x ∈ @nil row) in Hx. by apply elem_of_nil in Hx.
  - exists []. split; [simpl; lia|]. intros v (i & _ & Hx). change ([i; v] ∈ @nil row) in Hx. by apply elem_of_nil in Hx.
  - exists 1. split; [lia|]. split; [unfold UINT32_MAX; lia|exact mem1_dests].
Qed.

Lemma accepted_means_committed_witness :
  exists w' m, is_u32 m /\ rcpt_done mem_cfg (mem_world 0 []) w' m (bs "s@z") (bs "me@x.org").
Proof.
  pose proof (accepted_means_committed mem_cfg (server_init mem_cfg) mem_data_conn 2000 (mem_world 0 []) mem1_deliverable) as Hacc.
  assert (Hsaid : said (deliver_message mem_cfg (server_init mem_cfg) mem_data_conn 2000 (mem_world 0 [])).2
                  = said mem_data_conn ++ [bs "250 2.0.0 OK: queued" ++ CRLF]) by (vm_compute; reflexivity).
  revert Hacc Hsaid. generalize (deliver_message mem_cfg (server_init mem_cfg) mem_data_conn 2000 (mem_world 0 [])).
  intros [w' c'] [Hacc _] Hsaid. destruct (Hacc Hsaid) as (m & Hm & _ & Hall). exists w', m. split; [exact Hm|].
  apply Hall. by left.
Defined.

Lemma mem1_tokens : tokens_unique (db mem1).
Proof.
  assert (X : forall tok sn al ts, revmap_fact (db mem1) tok sn al ts -> ts = 1000).
  { intros tok sn al ts (i & j & k & _ & _ & _ & Hx). change ([i; j; k; ts] ∈ [[6; 7; 4; 1000]]) in Hx.
    apply list_elem_of_singleton in Hx. by injection Hx. }
  intros tok sn al ts sn' al' ts' H1%X H2%X. congruence.
Qed.

Lemma rcpt_decision_witness :
  (smtp_in_rcpt_ok mem_cfg mem1 2000 (bs "me@X.org")).2 = RCPT_OK /\
  forall r x, dl_has (db (smtp_in_rcpt_ok mem_cfg mem1 2000 (bs "me@X.org")).1) r x <-> dl_has (db mem1) r x.
Proof.
  split; [vm_compute; reflexivity|].
  pose proof (rcpt_decision mem_cfg mem1 2000 (bs "me@X.org") mem1_wf mem1_tokens) as Hd.
  destruct (smtp_in_rcpt_ok mem_cfg mem1 2000 (bs "me@X.org")) as [s' d]. apply Hd.
Defined.

(** ** Two behaviours worth knowing *)

(** A client that sends its whole message with the DATA command waits: the body is
    moved to the message buffer, and no handler scans it before more bytes come. *)
Lemma pipelined_body_waits :
  let input := [client_commands ++ client_message ++ bs "." ++ CRLF] in
  let '(w', c') := on_readable mem_cfg (server_init mem_cfg) 1 1 (new_conn 5 (bs "ip4a") false 2000) 2000 (mem_world 0 input) in
  state c' = ST_DATA /\ data c' = client_message ++ bs "." ++ CRLF /\
  last (said c') = Some (bs "354 End data with <CR><LF>.<CR><LF>" ++ CRLF) /\
  mem_rows (db (w_store w')) RQueue = [].
Proof. vm_compute. repeat split; reflexivity. Qed.

(** An alias that lost its destinations between RCPT and the end of DATA, with no
    catch-all: the message is answered with a 250 and delivered to nobody. *)
Lemma vanished_alias_is_accepted :
  let c := set_rcpts [bs "gone@x.org"] mem_data_conn in
  let '(w', c') := deliver_message mem_cfg (server_init mem_cfg) c 2000 (mem_world 0 []) in
  last (said c') = Some (bs "250 2.0.0 OK: queued" ++ CRLF) /\
  mem_rows (db (w_store w')) RQueue = [] /\ w_sent w' = [].
Proof. vm_compute. repeat split; reflexivity. Qed.
