(* ===== verification/SmtpServer.v ===== *)
(** * The event loop's tables (src/src/smtp_in.c)

    The state the poll loop keeps beside its sessions: registered listeners, the
    slots of the admin HTTP connections, the connection list with its limits at
    accept time and its reaping, the poll events and the poll timeout. *)

From S2P Require Import Prelude MailLines MailAddr MailHeader SmtpData DlEngine Store StoreSpec StoreTables StoreQueue Reply Json Config SmtpParse SmtpWorld MemHost SmtpQueue SmtpQueueSpec SmtpDurable SmtpForward SmtpSession SmtpSessionSpec.

Definition SMTP_IN_MAX_EXTRA : nat := 8.
Definition SMTP_IN_MAX_HTTP : nat := 32.
Definition SMTP_IN_MAX_CONNS : Z := 1024.
Definition SMTP_IN_MAX_CONNS_PER_IP : Z := 128.
Definition POLLIN : Z := 1.
Definition POLLOUT : Z := 4.

(** ** Extra listeners *)

(** [s_extra]; a callback and its user pointer are opaque addresses, 0 for NULL. *)
Record ExtraFd := { ex_fd : Z; ex_cb : Z; ex_user : Z }.

Definition smtp_in_add_extra_fd (s_extra : list ExtraFd) (fd cb user : Z) : list ExtraFd * Z :=
  if (fd <? 0) || (cb =? 0) || (SMTP_IN_MAX_EXTRA <=? length s_extra)%nat then (s_extra, VISAGE_EPARAM)
  else (s_extra ++ [{| ex_fd := fd; ex_cb := cb; ex_user := user |}], VISAGE_OK).

(** ** HTTP slots *)

Record HttpSlot := MkSlot {
  hs_used : bool; hs_fd : Z; hs_events : Z; hs_idle_timeout_sec : Z; hs_last_act : Z;
  hs_on_readable : Z; hs_on_writable : Z; hs_on_closed : Z; hs_user : Z }.

(** The table: the first [SMTP_IN_MAX_HTTP] indices. *)
Abbreviation http_table := (list HttpSlot).

Definition empty_slot : HttpSlot := MkSlot false 0 0 0 0 0 0 0 0.
Definition http_init : http_table := repeat empty_slot SMTP_IN_MAX_HTTP.

(** The registration loop from index [i]. *)
Fixpoint first_free (t : http_table) (i : nat) : option nat :=
  match t with
  | [] => None
  | s :: t' => if negb (hs_used s) then Some i else first_free t' (S i)
  end.

Definition smtp_in_register_http_conn (t : http_table) (now fd on_readable on_writable on_closed
    idle_timeout_sec user : Z) : http_table * Z :=
  if (fd <? 0) || (on_readable =? 0) || (on_writable =? 0) then (t, VISAGE_EPARAM)
  else match first_free t 0 with
       | Some i =>
           (<[i := MkSlot true fd POLLIN idle_timeout_sec now on_readable on_writable on_closed user]> t,
            Z.of_nat i)
       | None => (t, VISAGE_ENOMEM)
       end.

Definition handle_ok (t : http_table) (handle : Z) : bool :=
  negb ((handle <? 0) || (handle >=? Z.of_nat (length t))).

Definition smtp_in_http_set_events (t : http_table) (handle events : Z) : http_table :=
  if negb (handle_ok t handle) then t
  else match t !! Z.to_nat handle with
       | Some s =>
           if negb (hs_used s) then t
           else <[Z.to_nat handle := MkSlot (hs_used s) (hs_fd s) events (hs_idle_timeout_sec s) (hs_last_act s)
                    (hs_on_readable s) (hs_on_writable s) (hs_on_closed s) (hs_user s)]> t
       | None => t
       end.

Definition smtp_in_http_close (t : http_table) (handle : Z) : http_table :=
  if negb (handle_ok t handle) then t
  else match t !! Z.to_nat handle with
       | Some s => <[Z.to_nat handle := MkSlot false (-1) 0 (hs_idle_timeout_sec s) (hs_last_act s) 0 0 0 0]> t
       | None => t
       end.

(** The table after [http_slot_idle_close], and the notification it makes. *)
Definition http_slot_idle_close (t : http_table) (handle : Z) : http_table * option (Z * Z * Z) :=
  match t !! Z.to_nat handle with
  | Some s =>
      (smtp_in_http_close t handle,
       if hs_on_closed s =? 0 then None else Some (hs_on_closed s, hs_fd s, hs_user s))
  | None => (t, None)
  end.

(** ** Buffers *)

(** The growth of [buf_append]: the new capacity for [need] bytes and a NUL, or
    [None] when it would overflow [size_t]. *)
Fixpoint grow_loop (fuel : nat) (nc need : Z) : option Z :=
  if nc >=? need + 1 then Some nc
  else match fuel with
       | O => None
       | S fuel' => if nc >? SIZE_MAX / 2 then None else grow_loop fuel' (nc * 2) need
       end.

Definition buf_capacity (length_ cap n : Z) : option Z :=
  if n =? 0 then Some cap
  else
    let need := length_ + n in
    if need + 1 >? cap then grow_loop 64 (if cap =? 0 then 256 else cap) need else Some cap.

(** ** Connections *)

Inductive sockaddr := AF_INET (addr : bytes) | AF_INET6 (addr : bytes) | AF_OTHER.

(** [peer_ip_of]: the address bytes, empty for another family. *)
Definition peer_ip_of (sa : sockaddr) : bytes :=
  match sa with AF_INET a => take 4 a | AF_INET6 a => take 16 a | AF_OTHER => [] end.

Definition count_peer_conns (conns : list Conn) (ip : bytes) : Z :=
  if (length ip =? 0)%nat then 0
  else Z.of_nat (length (List.filter (fun c => (length (real_ip c) =? length ip)%nat && beq (real_ip c) ip) conns)).

Section Server.
Context {E : DlEngine} {H : Host} (cfg : Config) (lim : Limits).

(** One accepted socket: refused with a 421 and closed, or added. *)
Definition accept_one (implicit_tls : bool) (now : Z) (conns : list Conn) (fd0 : Z) (sa : sockaddr)
  : M (list Conn) :=
  let busy := bs "421 4.7.0 Too many connections" ++ CRLF in
  let ip := peer_ip_of sa in
  if len conns >=? SMTP_IN_MAX_CONNS then
    _ ← on_host (fun h => sys_send h fd0 busy); mret conns
  else if negb (length ip =? 0)%nat && (count_peer_conns conns ip >=? SMTP_IN_MAX_CONNS_PER_IP) then
    _ ← on_host (fun h => sys_send h fd0 busy); mret conns
  else
    let c := MkConn fd0 ST_INIT false None [] [] [] 0 [] 0 now ip ip false false implicit_tls None [] in
    if implicit_tls then mret (conns ++ [c])
    else
      c ← conn_reply c (greeting cfg);
      mret (conns ++ [set_greeted c]).

(** [server_accept] over what the successive [accept] calls return. *)
Fixpoint server_accept (implicit_tls : bool) (now : Z) (conns : list Conn) (accepted : list (Z * sockaddr))
  : M (list Conn) :=
  match accepted with
  | [] => mret conns
  | (fd0, sa) :: accepted' =>
      conns ← accept_one implicit_tls now conns fd0 sa;
      server_accept implicit_tls now conns accepted'
  end.

(** The idle sweep. *)
Fixpoint idle_sweep (conns : list Conn) (now : Z) : M (list Conn) :=
  match conns with
  | [] => mret []
  | c :: conns' => c ← idle_check lim c now; conns' ← idle_sweep conns' now; mret (c :: conns')
  end.

(** The events a connection is polled for; [wants_write] is what the handshake
    asked for last. *)
Definition conn_events (h : host) (wants_write : bool) (c : Conn) : Z :=
  let pending_out := (out_off c <? length (out c))%nat in
  if negb (closed c) && (match tls c with Some t => smtp_in_tls_handshaking h t | None => false end) then
    if (match tls c with Some t => smtp_in_tls_pending h t | None => false end) then POLLOUT
    else if wants_write then POLLOUT else POLLIN
  else if closed c then if pending_out then POLLOUT else 0
  else Z.lor (if len (out c) <? SMTP_IN_MAX_OUT / 2 then POLLIN else 0) (if pending_out then POLLOUT else 0).

(** Destroying a closed connection moves the last one into its place. *)
Definition reapable (c : Conn) : bool := closed c && (length (out c) <=? out_off c)%nat.

Fixpoint reap (fuel : nat) (i : nat) (conns : list Conn) : list Conn :=
  match fuel with
  | O => conns
  | S fuel' =>
      match conns !! i, last conns with
      | Some c, Some l =>
          if reapable c then reap fuel' i (take (length conns - 1) (<[i := l]> conns))
          else reap fuel' (S i) conns
      | _, _ => conns
      end
  end.

(** The wait one deadline allows, [None] once it has passed. The clamp comes after
    the conversion to [int], as in the code. *)
Definition deadline_ms (tmo last_act now : Z) : option Z :=
  let elapsed := if now >? last_act then now - last_act else 0 in
  if elapsed >=? tmo then None
  else
    let rms := i32 ((tmo - elapsed) * 1000) in
    Some (if rms >? INT_MAX then INT_MAX else rms).

(** [if (ms < 0 || rms < ms) ms = rms;] *)
Definition sooner (ms rms : Z) : Z := if (ms <? 0) || (rms <? ms) then rms else ms.

(** The two deadline loops of [poll_timeout_ms]; [None] when one has passed, and
    the function returns 0 at once. *)
Fixpoint conn_deadlines (conns : list Conn) (now ms : Z) : option Z :=
  match conns with
  | [] => Some ms
  | c :: conns' =>
      let tmo := conn_timeout lim c in
      if tmo =? 0 then conn_deadlines conns' now ms
      else match deadline_ms tmo (last_act c) now with
           | None => None
           | Some rms => conn_deadlines conns' now (sooner ms rms)
           end
  end.

Fixpoint http_deadlines (t : http_table) (now ms : Z) : option Z :=
  match t with
  | [] => Some ms
  | s :: t' =>
      if negb (hs_used s) || (hs_idle_timeout_sec s =? 0) then http_deadlines t' now ms
      else match deadline_ms (hs_idle_timeout_sec s) (hs_last_act s) now with
           | None => None
           | Some rms => http_deadlines t' now (sooner ms rms)
           end
  end.

Definition poll_timeout_ms (conns : list Conn) (t : http_table) (now : Z) : M Z :=
  match conn_deadlines conns now (-1) with
  | None => mret 0
  | Some ms =>
      match http_deadlines t now ms with
      | None => mret 0
      | Some ms =>
          next_due ← on_store store_queue_next_due;
          if next_due =? UINT32_MAX then mret ms
          else
            let now32 := u32 now in
            let delta := if next_due >? now32 then next_due - now32 else 0 in
            let delta := if delta >? 30 then 30 else delta in
            let qms := i32 (delta * 1000) in
            mret (sooner ms qms)
      end
  end.

End Server.

(** ** HTTP slots *)

Lemma first_free_spec t i :
  match first_free t i with
  | Some j => (i <= j)%nat /\ exists s, t !! (j - i)%nat = Some s /\ hs_used s = false
  | None => Forall (fun s => hs_used s = true) t
  end.
Proof.
  revert i. induction t as [|s t IH]; intros i; cbn [first_free]; [constructor|].
  destruct (hs_used s) eqn:Hu; cbn [negb].
  - specialize (IH (S i)). destruct (first_free t (S i)) as [j|]; [|by constructor].
    destruct IH as (Hij & s' & Hs & Hs'). split; [lia|]. exists s'. split; [|done].
    by replace (j - i)%nat with (S (j - S i)) by lia.
  - split; [lia|]. exists s. by rewrite Nat.sub_diag.
Qed.

(** Registration takes a free slot and leaves every other slot; it fails for lack
    of room exactly when all are used. *)
Lemma http_register_spec t now fd0 rd wr cl idle user :
  0 <= fd0 -> rd <> 0 -> wr <> 0 ->
  let '(t', r) := smtp_in_register_http_conn t now fd0 rd wr cl idle user in
  (r = VISAGE_ENOMEM /\ t' = t /\ Forall (fun s => hs_used s = true) t) \/
  (exists i s, r = Z.of_nat i /\ t !! i = Some s /\ hs_used s = false /\
     t' = <[i := MkSlot true fd0 POLLIN idle now rd wr cl user]> t).
Proof.
  intros Hfd Hrd Hwr. unfold smtp_in_register_http_conn.
  destruct (Z.ltb_spec fd0 0); [lia|]. destruct (Z.eqb_spec rd 0); [done|]. destruct (Z.eqb_spec wr 0); [done|].
  cbn [orb]. pose proof (first_free_spec t 0) as Hf. destruct (first_free t 0) as [i|]; [right|by left].
  destruct Hf as (_ & s & Hs & Hu). rewrite Nat.sub_0_r in Hs. by exists i, s.
Qed.

(** ** Connection limits *)

Definition same_ip (ip : bytes) (c : Conn) : bool := (length (real_ip c) =? length ip)%nat && beq (real_ip c) ip.

Definition within_limits (conns : list Conn) : Prop :=
  len conns <= SMTP_IN_MAX_CONNS /\
  forall ip, ip <> [] -> count_peer_conns conns ip <= SMTP_IN_MAX_CONNS_PER_IP.

Lemma same_ip_spec ip c : same_ip ip c = true <-> real_ip c = ip.
Proof.
  unfold same_ip. rewrite andb_true_iff, Nat.eqb_eq, beq_spec. split; [by intros []|]. by intros <-.
Qed.

Lemma count_eq conns ip : ip <> [] -> count_peer_conns conns ip = Z.of_nat (length (List.filter (same_ip ip) conns)).
Proof. unfold count_peer_conns. by destruct ip. Qed.

(** Counts only see the peer addresses. *)
Lemma count_map conns conns' ip :
  map real_ip conns = map real_ip conns' -> count_peer_conns conns ip = count_peer_conns conns' ip.
Proof.
  unfold count_peer_conns. destruct (length ip =? 0)%nat; [done|]. revert conns'.
  induction conns as [|c conns IH]; intros [|c' conns']; simpl; try done. intros [= Hc Hm].
  specialize (IH conns' Hm). rewrite Hc. destruct ((length (real_ip c') =? length ip)%nat && beq (real_ip c') ip); simpl; lia.
Qed.

Lemma within_map conns conns' :
  map real_ip conns = map real_ip conns' -> within_limits conns -> within_limits conns'.
Proof.
  intros Hm [Hl Hip]. split.
  - apply (f_equal length) in Hm. rewrite !length_map in Hm. lia.
  - intros ip Hne. rewrite <- (count_map _ _ ip Hm). auto.
Qed.

Section ServerSpec.
Context {E : DlEngine} {H : Host} (cfg : Config).

Lemma accept_one_ok implicit_tls now conns fd0 sa :
  within_limits conns ->
  returns (fun conns' => within_limits conns' /\ exists l, (length l <= 1)%nat /\ conns' = conns ++ l)
    (accept_one cfg implicit_tls now conns fd0 sa).
Proof.
  intros [Hl Hip]. unfold accept_one. cbv zeta.
  assert (Hstay : returns (fun conns' => within_limits conns' /\ exists l, (length l <= 1)%nat /\ conns' = conns ++ l)
    (_ ← on_host (fun h => sys_send h fd0 (bs "421 4.7.0 Too many connections" ++ CRLF)); mret conns)).
  { apply returns_any. intros _. apply returns_ret. split; [done|]. exists []. rewrite app_nil_r. simpl. split; [lia|done]. }
  destruct (Z.geb_spec (len conns) SMTP_IN_MAX_CONNS) as [|Hlt]; [exact Hstay|].
  set (ip := peer_ip_of sa). destruct (negb (length ip =? 0)%nat && _) eqn:Hc; [exact Hstay|]. clear Hstay.
  assert (Hadd : forall c, real_ip c = ip -> within_limits (conns ++ [c])).
  { intros c Hr. split; [rewrite length_app; simpl; lia|]. intros ip' Hne. rewrite count_eq, List.filter_app, length_app by done.
    specialize (Hip ip' Hne). rewrite count_eq in Hip by done. simpl.
    destruct (same_ip ip' c) eqn:Hs; simpl; [|lia]. apply same_ip_spec in Hs. rewrite Hr in Hs. subst ip'.
    apply andb_false_iff in Hc as [Hc|Hc]; [apply negb_false_iff, Nat.eqb_eq, nil_length_inv in Hc; by rewrite Hc in Hne|].
    destruct (Z.geb_spec (count_peer_conns conns ip) SMTP_IN_MAX_CONNS_PER_IP); [done|].
    rewrite count_eq in * by done. lia. }
  destruct implicit_tls.
  - apply returns_ret. split; [by apply Hadd|]. eexists. split; [|done]. done.
  - apply (returns_bind (fun c' => real_ip c' = ip)).
    + apply (returns_mono (replied cfg (MkConn fd0 ST_INIT false None [] [] [] 0 [] 0 now ip ip false false false None [])));
        [|apply conn_reply_replied, greeting_short]. by intros c' ((_ & -> & _) & _).
    + intros c' Hr. apply returns_ret. split; [by apply Hadd|]. eexists. split; [|done]. done.
Qed.

Lemma reap_spec fuel : forall i conns,
  (length conns - i < fuel)%nat -> (i <= length conns)%nat ->
  Forall (fun c => reapable c = false) (take i conns) ->
  Permutation (reap fuel i conns) (List.filter (fun c => negb (reapable c)) conns).
Proof.
  induction fuel as [|fuel IH]; intros i conns Hf Hi Hpre; [lia|]. cbn [reap].
  destruct (conns !! i) as [c|] eqn:Hc.
  2:{ apply lookup_ge_None in Hc. rewrite take_ge in Hpre by lia. clear -Hpre.
      induction Hpre as [|c conns Hc _ IH]; simpl; [done|]. rewrite Hc. simpl. by constructor. }
  assert (Hlt : (i < length conns)%nat) by by apply lookup_lt_Some in Hc.
  destruct (last conns) as [l|] eqn:Hlast; [|by apply last_None in Hlast as ->].
  destruct (reapable c) eqn:Hr.
  2:{ apply IH; [lia|lia|]. rewrite (take_S_r _ _ c) by done. apply Forall_app. by repeat constructor. }
  (* conns = a ++ c :: b, or c itself is the last *)
  pose proof (take_drop_middle _ _ _ Hc) as Hsplit. set (a := take i conns) in *. set (b := drop (S i) conns) in *.
  assert (Hla : length a = i) by (unfold a; rewrite length_take; lia).
  assert (Hins : exists b', take (length conns - 1) (<[i:=l]> conns) = a ++ b' /\ Permutation b b').
  { rewrite <- Hsplit. rewrite insert_app_r_alt, Hla, Nat.sub_diag by lia. cbn [list_insert insert].
    destruct b as [|z b0 _] eqn:Hb using rev_ind.
    - exists []. split; [|done]. rewrite length_app. simpl. rewrite Nat.add_sub, app_nil_r.
      by rewrite take_app_length.
    - assert (l = z) as ->.
      { rewrite <- Hsplit in Hlast. rewrite last_app_cons in Hlast. cbn [app] in Hlast.
        rewrite (app_comm_cons b0 [z] c), last_snoc in Hlast. by injection Hlast. }
      exists (z :: b0). split; [|by rewrite Permutation_app_comm].
      rewrite length_app. simpl. rewrite length_app. simpl.
      replace (length a + S (length b0 + 1) - 1)%nat with (length (a ++ z :: b0)) by (rewrite length_app; simpl; lia).
      rewrite app_comm_cons, app_assoc, take_app_length. done. }
  destruct Hins as (b' & Hins & Hperm). rewrite Hins.
  assert (Hlb : length b = length b') by by apply Permutation_length.
  assert (Hlen : length conns = (i + S (length b))%nat) by (rewrite <- Hsplit, length_app; simpl; lia).
  transitivity (List.filter (fun c => negb (reapable c)) (a ++ b')).
  - apply IH.
    + rewrite length_app. lia.
    + rewrite length_app. lia.
    + by rewrite <- Hla, take_app_length.
  - rewrite <- Hsplit at 1. rewrite !List.filter_app. simpl. rewrite Hr. simpl. apply Permutation_app_head.
    clear -Hperm. induction Hperm as [|x l l' _ IH|x y l|l l' l'' _ IH1 _ IH2]; simpl; [done| | |by etrans].
    + destruct (negb (reapable x)); [by constructor|done].
    + destruct (negb (reapable x)), (negb (reapable y)); try done. by constructor.
Qed.


(** Connection limits. From a connection list within the limits (at most 1024
    connections, at most 128 per actual peer address), whatever [accept] returns
    and the sockets answer: [server_accept] leaves a list within the limits, in
    which the connections that were there are untouched and come first; and the
    reaping at the end of a tick removes exactly the closed connections whose
    output has drained, each other one staying once, so the list stays within the
    limits. A PROXY header buys no room, since the counts use the actual peer. *)
Theorem connection_limits (implicit_tls : bool) (now : Z) (conns : list Conn) (accepted : list (Z * sockaddr)) (w : World)
  (Hin : within_limits conns) :
  let conns' := (server_accept cfg implicit_tls now conns accepted w).2 in
  within_limits conns' /\ (exists l, conns' = conns ++ l) /\
  Permutation (reap (S (length conns)) 0 conns) (List.filter (fun c => negb (reapable c)) conns) /\
  within_limits (reap (S (length conns)) 0 conns).
Proof.
  cbv zeta. assert (Hreap := reap_spec (S (length conns)) 0 conns ltac:(lia) ltac:(lia) ltac:(constructor)).
  assert (Hacc : returns (fun conns' => within_limits conns' /\ exists l, conns' = conns ++ l)
                      (server_accept cfg implicit_tls now conns accepted)).
  { clear Hreap. revert conns Hin. induction accepted as [|[fd0 sa] accepted IH]; intros conns Hin; cbn [server_accept].
    - apply returns_ret. split; [done|]. exists []. by rewrite app_nil_r.
    - apply (returns_bind (fun conns' => within_limits conns' /\ exists l, (length l <= 1)%nat /\ conns' = conns ++ l));
        [by apply accept_one_ok|]. intros conns1 (Hin1 & l1 & _ & ->) w0.
      destruct (IH (conns ++ l1) Hin1 w0) as (Hw & l2 & Hl).
      split; [done|]. exists (l1 ++ l2). by rewrite app_assoc. }
  destruct (Hacc w) as [H1 H2]. split; [done|]. split; [done|]. split; [done|].
  destruct Hin as [Hl Hip]. split.
  - apply Permutation_length in Hreap. rewrite Hreap. pose proof (List.filter_length_le (fun c => negb (reapable c)) conns). lia.
  - intros ip Hne. rewrite count_eq by done. specialize (Hip ip Hne). rewrite count_eq in Hip by done.
    assert (Hf : (length (List.filter (same_ip ip) (reap (S (length conns)) 0 conns)) <= length (List.filter (same_ip ip) conns))%nat); [|lia].
    transitivity (length (List.filter (same_ip ip) (List.filter (fun c => negb (reapable c)) conns))).
    + apply Nat.eq_le_incl, Permutation_length. clear -Hreap. revert Hreap. generalize (List.filter (fun c => negb (reapable c)) conns).
      generalize (reap (S (length conns)) 0 conns). intros a b Hperm.
      induction Hperm as [|x l l' _ IH|x y l|l l' l'' _ IH1 _ IH2]; simpl; [done| | |by etrans].
      * destruct (same_ip ip x); [by constructor|done].
      * destruct (same_ip ip x), (same_ip ip y); try done. by constructor.
    + clear. induction conns as [|c conns IH]; simpl; [done|].
      destruct (reapable c); simpl; destruct (same_ip ip c); simpl; lia.
Qed.

End ServerSpec.

(** ** The poll timeout *)

(** The seconds left before a deadline of [tmo] seconds after [last]. *)
Definition remaining (tmo last now : Z) : Z := tmo - (if now >? last then now - last else 0).

(** The largest timeout, in seconds, whose milliseconds fit an [int]. *)
Definition MAX_TMO : Z := 2147483.

(** The armed deadlines: timeout and last activity. *)
Definition conn_armed (lim : Limits) (conns : list Conn) : list (Z * Z) :=
  List.filter (fun p => negb (p.1 =? 0)) (map (fun c => (conn_timeout lim c, last_act c)) conns).

Definition http_armed (t : http_table) : list (Z * Z) :=
  map (fun s => (hs_idle_timeout_sec s, hs_last_act s))
    (List.filter (fun s => hs_used s && negb (hs_idle_timeout_sec s =? 0)) t).

Fixpoint deadline_loop (ps : list (Z * Z)) (now ms : Z) : option Z :=
  match ps with
  | [] => Some ms
  | p :: ps' => match deadline_ms p.1 p.2 now with None => None | Some rms => deadline_loop ps' now (sooner ms rms) end
  end.

Lemma conn_deadlines_eq lim conns now ms : conn_deadlines lim conns now ms = deadline_loop (conn_armed lim conns) now ms.
Proof.
  revert ms. induction conns as [|c conns IH]; intros ms; [done|]. unfold conn_armed in *. cbn [conn_deadlines map List.filter fst].
  destruct (conn_timeout lim c =? 0); cbn [negb deadline_loop fst snd]; [apply IH|]. by destruct (deadline_ms _ _ _).
Qed.

Lemma http_deadlines_eq t now ms : http_deadlines t now ms = deadline_loop (http_armed t) now ms.
Proof.
  revert ms. induction t as [|s t IH]; intros ms; [done|]. unfold http_armed in *. cbn [http_deadlines List.filter].
  destruct (hs_used s), (hs_idle_timeout_sec s =? 0); cbn [negb andb orb map deadline_loop fst snd]; try apply IH.
  by destruct (deadline_ms _ _ _).
Qed.

Lemma deadline_ms_small tmo last now :
  0 < tmo <= MAX_TMO ->
  deadline_ms tmo last now = if remaining tmo last now <=? 0 then None else Some (remaining tmo last now * 1000).
Proof.
  intros Ht. unfold deadline_ms, remaining, MAX_TMO, INT_MAX in *.
  set (e := if now >? last then now - last else 0). assert (0 <= e) by (unfold e; destruct (Z.gtb_spec now last); lia).
  destruct (Z.geb_spec e tmo), (Z.leb_spec (tmo - e) 0); try lia; [done|]. f_equal.
  assert (i32 ((tmo - e) * 1000) = (tmo - e) * 1000) as ->.
  { unfold i32. rewrite Z.mod_small; lia. }
  destruct (Z.gtb_spec ((tmo - e) * 1000) 2147483647); lia.
Qed.

(** A wait so far: none yet (-1), or a positive one. *)
Definition wait_ok (ms : Z) : Prop := ms = -1 \/ 0 < ms <= INT_MAX.

Lemma sooner_spec ms rms : wait_ok ms -> 0 < rms <= INT_MAX ->
  0 < sooner ms rms <= rms /\ (0 < ms -> sooner ms rms <= ms).
Proof. unfold wait_ok, sooner, INT_MAX. intros Hm Hr. destruct (Z.ltb_spec ms 0), (Z.ltb_spec rms ms); cbn [orb]; lia. Qed.

Lemma deadline_loop_spec ps now : forall ms,
  Forall (fun p => 0 < p.1 <= MAX_TMO) ps -> wait_ok ms ->
  match deadline_loop ps now ms with
  | None => exists p, p ∈ ps /\ remaining p.1 p.2 now <= 0
  | Some ms' =>
      wait_ok ms' /\ (0 < ms -> 0 < ms' <= ms) /\ forall p, p ∈ ps -> 0 < ms' <= 1000 * remaining p.1 p.2 now
  end.
Proof.
  induction ps as [|[tmo lst] ps IH]; intros ms Hps Hms; cbn [deadline_loop fst snd].
  - split; [done|]. split; [lia|]. by intros p ?%elem_of_nil.
  - inversion_clear Hps as [|? ? Ht Hps']. cbn [fst] in Ht. rewrite deadline_ms_small by done.
    destruct (Z.leb_spec (remaining tmo lst now) 0) as [Hle|Hgt]; [by exists (tmo, lst); split; [left|]|].
    assert (Hrms : 0 < remaining tmo lst now * 1000 <= INT_MAX).
    { unfold remaining, MAX_TMO, INT_MAX in *. destruct (Z.gtb_spec now lst); lia. }
    destruct (sooner_spec ms _ Hms Hrms) as [Hs1 Hs2]. specialize (IH (sooner ms (remaining tmo lst now * 1000)) Hps').
    destruct (deadline_loop ps now _) as [ms'|]; [|destruct IH as (p & Hp & ?); [right; lia|by exists p; split; [right|]]].
    destruct IH as (I1 & I2 & I3); [right; lia|]. specialize (I2 ltac:(lia)).
    split; [done|]. split; [lia|]. intros p [->|Hp]%elem_of_cons; [cbn [fst snd]; lia|by apply I3].
Qed.

(** The poll timeout. When every timeout is at most [MAX_TMO] seconds, the
    value [poll_timeout_ms] hands to [poll] is -1 or a non-negative [int]; it is
    not -1 when any connection, HTTP slot or queued delivery has a deadline, and
    it never reaches past one of those deadlines, nor past 30 seconds when a
    delivery is queued; and it is 0 only when a deadline has passed or a delivery
    is due. *)
Theorem poll_timeout_sound {E : DlEngine} {H : Host} (lim : Limits) (conns : list Conn) (t : http_table) (now : Z) (w : World)
  (Hcmd : 0 <= cmd_tmo lim <= MAX_TMO) (Hdata : 0 <= data_tmo lim <= MAX_TMO)
  (Hhttp : Forall (fun s => 0 <= hs_idle_timeout_sec s <= MAX_TMO) t) :
  let ms := (poll_timeout_ms lim conns t now w).2 in
  let next_due := (store_queue_next_due (w_store w)).2 in
  -1 <= ms <= INT_MAX /\
  (forall c, c ∈ conns -> conn_timeout lim c <> 0 ->
     0 <= ms <= 1000 * Z.max 0 (remaining (conn_timeout lim c) (last_act c) now)) /\
  (forall s, s ∈ t -> hs_used s = true -> hs_idle_timeout_sec s <> 0 ->
     0 <= ms <= 1000 * Z.max 0 (remaining (hs_idle_timeout_sec s) (hs_last_act s) now)) /\
  (next_due <> UINT32_MAX -> 0 <= ms <= 1000 * Z.min 30 (Z.max 0 (next_due - u32 now))) /\
  (ms = 0 ->
     (exists c, c ∈ conns /\ conn_timeout lim c <> 0 /\ remaining (conn_timeout lim c) (last_act c) now <= 0) \/
     (exists s, s ∈ t /\ hs_used s = true /\ hs_idle_timeout_sec s <> 0 /\
        remaining (hs_idle_timeout_sec s) (hs_last_act s) now <= 0) \/
     (next_due <> UINT32_MAX /\ next_due <= u32 now)).
Proof.
  cbv zeta. unfold poll_timeout_ms. rewrite conn_deadlines_eq.
  assert (Hct : forall c, 0 <= conn_timeout lim c <= MAX_TMO) by (intros c; unfold conn_timeout; destruct (st_eqb _ _); done).
  assert (Hca : forall p, p ∈ conn_armed lim conns <->
    exists c, c ∈ conns /\ conn_timeout lim c <> 0 /\ p = (conn_timeout lim c, last_act c)).
  { intros p. unfold conn_armed. rewrite filter_In, list_elem_of_In, List.in_map_iff. setoid_rewrite <- list_elem_of_In. split.
    - intros [(c & <- & Hc) Hp]. exists c. split; [done|]. split; [cbn in Hp; lia|done].
    - intros (c & Hc & Hne & ->). split; [by exists c|]. cbn [fst]. lia. }
  assert (Hha : forall p, p ∈ http_armed t <-> exists s, s ∈ t /\ hs_used s = true /\ hs_idle_timeout_sec s <> 0 /\
    p = (hs_idle_timeout_sec s, hs_last_act s)).
  { intros p. unfold http_armed. rewrite list_elem_of_In, List.in_map_iff. setoid_rewrite <- list_elem_of_In. setoid_rewrite filter_In. split.
    - intros (s & <- & Hs & [Hu Hp]%andb_true_iff). exists s. split; [done|]. split; [done|]. split; [lia|done].
    - intros (s & Hs & Hu & Hne & ->). exists s. split; [done|]. split; [done|]. rewrite Hu. cbn [andb]. lia. }
  assert (Hcf : Forall (fun p => 0 < p.1 <= MAX_TMO) (conn_armed lim conns)).
  { apply Forall_forall. intros p (c & _ & Hne & ->)%Hca. specialize (Hct c). cbn [fst]. lia. }
  assert (Hhf : Forall (fun p => 0 < p.1 <= MAX_TMO) (http_armed t)).
  { apply Forall_forall. intros p (s & Hs & _ & Hne & ->)%Hha. rewrite Forall_forall in Hhttp. specialize (Hhttp s Hs). cbn [fst]. lia. }
  pose proof (deadline_loop_spec (conn_armed lim conns) now (-1) Hcf (or_introl eq_refl)) as Hc.
  destruct (deadline_loop (conn_armed lim conns) now (-1)) as [ms|].
  2:{ destruct Hc as (p & (c & Hin & Hne & ->)%Hca & Hle). cbn [mret M_ret snd fst] in *. unfold INT_MAX.
      split; [lia|]. split; [intros; lia|]. split; [intros; lia|]. split; [lia|]. intros _. left. by exists c. }
  destruct Hc as (Hw & _ & Hc). rewrite http_deadlines_eq.
  pose proof (deadline_loop_spec (http_armed t) now ms Hhf Hw) as Hh.
  destruct (deadline_loop (http_armed t) now ms) as [ms2|].
  2:{ destruct Hh as (p & (s & Hin & Hu & Hne & ->)%Hha & Hle). cbn [mret M_ret snd fst] in *. unfold INT_MAX.
      split; [lia|]. split; [intros; lia|]. split; [intros; lia|]. split; [lia|]. intros _. right; left. by exists s. }
  destruct Hh as (Hw2 & Hms & Hh).
  assert (Hc2 : forall c, c ∈ conns -> conn_timeout lim c <> 0 -> 0 < ms2 <= 1000 * remaining (conn_timeout lim c) (last_act c) now).
  { intros c Hin Hne. specialize (Hc _ (proj2 (Hca _) (ex_intro _ c (conj Hin (conj Hne eq_refl))))). cbn [fst snd] in Hc. lia. }
  assert (Hh2 : forall s, s ∈ t -> hs_used s = true -> hs_idle_timeout_sec s <> 0 ->
    0 < ms2 <= 1000 * remaining (hs_idle_timeout_sec s) (hs_last_act s) now).
  { intros s Hin Hu Hne. apply (Hh _ (proj2 (Hha _) (ex_intro _ s (conj Hin (conj Hu (conj Hne eq_refl)))))). }
  rewrite bind_run. unfold on_store. destruct (store_queue_next_due (w_store w)) as [s' nd]. cbn [fst snd].
  unfold wait_ok, INT_MAX in *. destruct (Z.eqb_spec nd UINT32_MAX) as [->|Hnd].
  - cbn [mret M_ret snd]. split; [lia|]. split; [intros c Hin Hne; specialize (Hc2 c Hin Hne); lia|].
    split; [intros s Hin Hu Hne; specialize (Hh2 s Hin Hu Hne); lia|]. split; [done|]. lia.
  - cbn [mret M_ret snd]. set (d := if nd >? u32 now then nd - u32 now else 0).
    set (d' := if d >? 30 then 30 else d).
    assert (Hd : d' = Z.min 30 (Z.max 0 (nd - u32 now))).
    { unfold d', d. destruct (Z.gtb_spec nd (u32 now)); [destruct (Z.gtb_spec (nd - u32 now) 30); lia|]. simpl. lia. }
    assert (i32 (d' * 1000) = d' * 1000) as -> by (unfold i32; rewrite Z.mod_small; lia).
    assert (Hs : 0 <= sooner ms2 (d' * 1000) <= d' * 1000 /\ (0 < ms2 -> sooner ms2 (d' * 1000) <= ms2)).
    { unfold sooner. destruct (Z.ltb_spec ms2 0), (Z.ltb_spec (d' * 1000) ms2); cbn [orb]; lia. }
    split; [lia|]. split; [intros c Hin Hne; specialize (Hc2 c Hin Hne); lia|].
    split; [intros s Hin Hu Hne; specialize (Hh2 s Hin Hu Hne); lia|]. split; [lia|].
    intros H0. right; right. split; [done|]. unfold sooner in H0. revert H0.
    destruct (Z.ltb_spec ms2 0), (Z.ltb_spec (d' * 1000) ms2); cbn [orb]; lia.
Qed.

(** Above [MAX_TMO] the conversion to [int] wraps before the clamp: a connection
    idle for a second with a timeout of 2147484 seconds yields a negative wait,
    which [poll] takes as "for ever". *)
Lemma poll_timeout_wraps : exists rms, deadline_ms 2147484 0 0 = Some rms /\ rms < 0.
Proof. eexists. split; [vm_compute; reflexivity|lia]. Qed.

(** ** Witnesses *)

Lemma connection_limits_witness :
  let conns' := (server_accept mem_cfg false 2000 [] [(5, AF_INET (bs "ip4a")); (6, AF_INET (bs "ip4b"))] (mem_world 0 [])).2 in
  length conns' = 2%nat /\ within_limits conns'.
Proof.
  split; [vm_compute; reflexivity|].
  apply (connection_limits mem_cfg false 2000 [] [(5, AF_INET (bs "ip4a")); (6, AF_INET (bs "ip4b"))] (mem_world 0 [])).
  split; [vm_compute; done|]. intros ip Hne. rewrite count_eq by exact Hne. vm_compute. done.
Defined.

Lemma poll_timeout_sound_witness :
  let c := new_conn 5 (bs "ip4a") false 1970 in
  let ms := (poll_timeout_ms (server_init mem_cfg) [c] http_init 2000 (mem_world 0 [])).2 in
  ms = 30000 /\ 0 <= ms <= 1000 * Z.max 0 (remaining 60 1970 2000).
Proof.
  split; [vm_compute; reflexivity|].
  assert (Hh : Forall (fun s => 0 <= hs_idle_timeout_sec s <= MAX_TMO) http_init)
    by (repeat constructor; vm_compute; done).
  destruct (poll_timeout_sound (server_init mem_cfg) [new_conn 5 (bs "ip4a") false 1970] http_init 2000 (mem_world 0 [])
    ltac:(vm_compute; split; done) ltac:(vm_compute; split; done) Hh) as (_ & Hc & _).
  apply (Hc (new_conn 5 (bs "ip4a") false 1970)); [by left|vm_compute; done].
Defined.
