(* ===== verification/SmtpLoop.v ===== *)
(** * The event loop (src/src/smtp_in.c)

    One turn of [server_poll] over the tables of [SmtpServer], and the startup of
    [smtp_in_main]. What the loop asks of the system and of the admin server is
    the class [Mux]: [poll], [accept], whether a TLS handshake waits to write, and
    the callbacks registered by the HTTP layer, which act on the slot table only
    through the three functions that [http_req] names. *)

From S2P Require Import Prelude MailLines MailAddr MailHeader SmtpData DlEngine Store StoreSpec StoreTables StoreQueue Reply Json Config SmtpParse SmtpWorld MemHost SmtpQueue SmtpQueueSpec SmtpDurable SmtpForward SmtpSession SmtpSessionSpec SmtpServer.

Definition POLLERR : Z := 8.
Definition POLLHUP : Z := 16.
Definition POLLANY : Z := Z.lor POLLIN (Z.lor POLLHUP POLLERR).

(** [rev & mask] as a condition. *)
Definition has (rev mask : Z) : bool := negb (Z.land rev mask =? 0).

(** What [poll] returns: EINTR, another error, the [revents] of every entry. *)
Inductive poll_result := PollIntr | PollFail | PollReady (revents : list Z).

(** A call the HTTP layer makes on the slot table. *)
Inductive http_req :=
  | HReg (fd on_readable on_writable on_closed idle_timeout_sec user : Z)
  | HSetEvents (handle events : Z)
  | HClose (handle : Z).

Class Mux {E : DlEngine} (H : Host) := {
  sys_poll : list (Z * Z) -> Z -> M poll_result;
  (** the sockets accepted on a listener until EAGAIN or an error *)
  sys_accept : Z -> M (list (Z * sockaddr));
  smtp_in_tls_wants_write : host -> Z -> bool;
  (** the callback at this address on an fd and a user pointer *)
  callback : Z -> Z -> Z -> http_table -> M (list http_req);
}.

Record Server := MkServer {
  sv_conns : list Conn;
  sv_http : http_table;
  sv_extra : list ExtraFd;
  sv_listen_fd : Z;
  sv_listen_tls_fd : Z;
  next_revmap_sweep : Z;
  next_spool_sweep : Z;
}.

Section Loop.
Context {E : DlEngine} {H : Host} {X : Mux H} (cfg : Config) (lim : Limits).

(** ** The HTTP slots *)

Definition http_request (t : http_table) (r : http_req) : M http_table :=
  match r with
  | HReg fd rd wr cl idle user =>
      now ← on_host time_now; mret (smtp_in_register_http_conn t now fd rd wr cl idle user).1
  | HSetEvents h ev => mret (smtp_in_http_set_events t h ev)
  | HClose h => mret (smtp_in_http_close t h)
  end.

Fixpoint http_requests (t : http_table) (rs : list http_req) : M http_table :=
  match rs with
  | [] => mret t
  | r :: rs' => t ← http_request t r; http_requests t rs'
  end.

(** Call a callback, if it is not NULL. *)
Definition call (cb fd user : Z) (t : http_table) : M http_table :=
  if cb =? 0 then mret t else rs ← callback cb fd user t; http_requests t rs.

Definition touch (t : http_table) (i : nat) (now : Z) : http_table :=
  match t !! i with
  | Some s => <[i := MkSlot (hs_used s) (hs_fd s) (hs_events s) (hs_idle_timeout_sec s) now
                  (hs_on_readable s) (hs_on_writable s) (hs_on_closed s) (hs_user s)]> t
  | None => t
  end.

(** The idle sweep of the slots, from index [i] on for [n] slots. *)
Fixpoint http_idle_sweep (n i : nat) (t : http_table) (now : Z) : M http_table :=
  match n with
  | O => mret t
  | S n' =>
      t ← match t !! i with
          | Some s =>
              if negb (hs_used s) || (hs_idle_timeout_sec s =? 0) then mret t
              else if (now >? hs_last_act s) && (now - hs_last_act s >=? hs_idle_timeout_sec s) then
                let '(t', note) := http_slot_idle_close t (Z.of_nat i) in
                match note with
                | Some (cb, fd, user) => call cb fd user t'
                | None => mret t'
                end
              else mret t
          | None => mret t
          end;
      http_idle_sweep n' (S i) t now
  end.

(** Dispatch of one slot: readable, then writable if it is still in use. *)
Definition http_dispatch_one (t : http_table) (i : nat) (rev now : Z) : M http_table :=
  match t !! i with
  | Some s =>
      if negb (hs_used s) then mret t
      else
        t ← (if has rev POLLANY then call (hs_on_readable s) (hs_fd s) (hs_user s) (touch t i now) else mret t);
        match t !! i with
        | Some s =>
            if hs_used s && has rev POLLOUT
            then call (hs_on_writable s) (hs_fd s) (hs_user s) (touch t i now) else mret t
        | None => mret t
        end
  | None => mret t
  end.

Fixpoint http_dispatch (n i : nat) (t : http_table) (revs : list Z) (now : Z) : M http_table :=
  match n with
  | O => mret t
  | S n' => t ← http_dispatch_one t i (nth i revs 0) now; http_dispatch n' (S i) t revs now
  end.

(** ** The poll set *)

Definition pollfds (h : host) (srv : Server) : list (Z * Z) :=
  (sv_listen_fd srv, POLLIN) ::
  (sv_listen_tls_fd srv, if sv_listen_tls_fd srv >=? 0 then POLLIN else 0) ::
  map (fun x => (ex_fd x, POLLIN)) (sv_extra srv) ++
  map (fun c => (fd c, conn_events h (match tls c with Some t => smtp_in_tls_wants_write h t | None => false end) c))
    (sv_conns srv) ++
  map (fun s => if hs_used s then (hs_fd s, hs_events s) else (-1, 0)) (sv_http srv).

(** ** Dispatch of a connection; [depth] and [n] are those of [on_readable]. *)
Definition conn_dispatch (depth n : nat) (now : Z) (c : Conn) (rev : Z) : M Conn :=
  w ← get_w;
  let h := w_host w in
  if closed c then if has rev POLLOUT then conn_flush c else mret c
  else if (match tls c with Some t => smtp_in_tls_pending h t | None => false end) then
    if has rev POLLOUT then
      c ← conn_flush c;
      if negb (closed c) && (length (out c) <=? out_off c)%nat then tls_advance cfg lim depth n now c else mret c
    else mret c
  else if (match tls c with Some t => smtp_in_tls_handshaking h t | None => false end) then
    if has rev (Z.lor POLLANY POLLOUT) then tls_advance cfg lim depth n now c else mret c
  else
    c ← (if has rev POLLANY then on_readable cfg lim depth n c now else mret c);
    if negb (closed c) && has rev POLLOUT then conn_flush c else mret c.

(** The connections of before the accepts, each with its events; the newly
    accepted ones, for which no events are left, stay as they are. *)
Fixpoint dispatch_all (depth n : nat) (now : Z) (conns : list Conn) (revs : list Z) : M (list Conn) :=
  match conns, revs with
  | c :: conns', rev :: revs' =>
      c ← conn_dispatch depth n now c rev;
      conns' ← dispatch_all depth n now conns' revs';
      mret (c :: conns')
  | _, _ => mret conns
  end.

(** The listeners of other parts. *)
Fixpoint extra_dispatch (xs : list ExtraFd) (revs : list Z) (t : http_table) : M http_table :=
  match xs, revs with
  | x :: xs', rev :: revs' =>
      t ← (if has rev POLLANY then call (ex_cb x) (ex_fd x) (ex_user x) t else mret t);
      extra_dispatch xs' revs' t
  | _, _ => mret t
  end.

Definition accept_on (implicit_tls : bool) (now rev fd0 : Z) (conns : list Conn) : M (list Conn) :=
  if has rev POLLIN then
    accepted ← sys_accept fd0;
    server_accept cfg implicit_tls now conns accepted
  else mret conns.

(** ** One turn *)

(** The hourly sweeps; returns the times of the next ones. *)
Definition sweeps (now revmap_at spool_at : Z) : M (Z * Z) :=
  revmap_at ← (if now >=? revmap_at then
                 _ ← on_store (fun s => store_revmap_expire s (u32 now));
                 _ ← on_store (fun s => store_log_expire s (u32 now));
                 mret (now + 3600)
               else mret revmap_at);
  spool_at ← (if now >=? spool_at then _ ← spool_gc cfg; mret (now + 3600) else mret spool_at);
  mret (revmap_at, spool_at).

(** What the dispatch part of the turn does with the events [revs]. *)
Definition server_dispatch (depth n : nat) (now : Z) (srv : Server) (revs : list Z) : M Server :=
  let nx := length (sv_extra srv) in
  let nc := length (sv_conns srv) in
  let xrevs := take nx (drop 2 revs) in
  let crevs := take nc (drop (2 + nx) revs) in
  let hrevs := drop (2 + nx + nc) revs in
  conns ← accept_on false now (nth 0 revs 0) (sv_listen_fd srv) (sv_conns srv);
  conns ← accept_on true now (nth 1 revs 0) (sv_listen_tls_fd srv) conns;
  http ← extra_dispatch (sv_extra srv) xrevs (sv_http srv);
  conns ← dispatch_all depth n now conns crevs;
  http ← http_dispatch SMTP_IN_MAX_HTTP 0 http hrevs now;
  mret (MkServer (reap (S (length conns)) 0 conns) http (sv_extra srv) (sv_listen_fd srv) (sv_listen_tls_fd srv)
          (next_revmap_sweep srv) (next_spool_sweep srv)).

(** One turn of [server_poll]; [None] when the loop ends. *)
Definition server_turn (depth n : nat) (srv : Server) : M (option Server) :=
  now ← on_host time_now;
  conns ← idle_sweep lim (sv_conns srv) now;
  http ← http_idle_sweep SMTP_IN_MAX_HTTP 0 (sv_http srv) now;
  _ ← queue_redrive cfg;
  at_ ← sweeps now (next_revmap_sweep srv) (next_spool_sweep srv);
  let srv := MkServer conns http (sv_extra srv) (sv_listen_fd srv) (sv_listen_tls_fd srv) at_.1 at_.2 in
  w ← get_w;
  tmo ← poll_timeout_ms lim conns http now;
  r ← sys_poll (pollfds (w_host w) srv) tmo;
  match r with
  | PollIntr => mret (Some srv)
  | PollFail => mret None
  | PollReady revs => srv ← server_dispatch depth n now srv revs; mret (Some srv)
  end.

(** [smtp_in_main] after the listeners are open, up to the loop. *)
Definition smtp_in_start (extra : list ExtraFd) (http : http_table) (lfd ltfd : Z) : M Server :=
  t1 ← on_host time_now;
  t2 ← on_host time_now;
  _ ← on_store store_queue_reset_delivering;
  t ← on_host time_now;
  _ ← on_store (fun s => store_revmap_expire s (u32 t));
  t ← on_host time_now;
  _ ← on_store (fun s => store_log_expire s (u32 t));
  _ ← spool_gc cfg;
  _ ← queue_redrive cfg;
  mret (MkServer [] http extra lfd ltfd (t1 + 3600) (t2 + 3600)).

End Loop.

(** ** What every turn keeps *)

Section LoopSpec.
Context {E : DlEngine} {H : Host} {X : Mux H} (cfg : Config) (lim : Limits) (Hlim : limits_ok lim).

(** [c'] is a later state of connection [c]. *)
Definition later (c c' : Conn) : Prop :=
  real_ip c' = real_ip c /\ forall ip b, session cfg lim ip b c -> session cfg lim ip b c'.

#[local] Instance later_preorder : PreOrder later.
Proof.
  split; [done|]. intros a b c [A1 A2] [B1 B2]. split; [congruence|auto].
Qed.

Lemma event_real_ip c c' : event cfg lim c c' -> real_ip c' = real_ip c.
Proof. intros ([_ (_ & Hr & _)] & _). exact Hr. Qed.

(** A handler whose result the session relation has a rule for. *)
Lemma later_step (c : Conn) (m : M Conn) :
  returns (event cfg lim c) m -> (forall w ip b, session cfg lim ip b c -> session cfg lim ip b (m w).2) ->
  returns (later c) m.
Proof. intros Hm Hs w. split; [by apply event_real_ip, Hm|]. intros ip b. apply Hs. Qed.

Lemma flush_later c : returns (later c) (conn_flush c).
Proof.
  apply later_step; [|intros w ip b; apply session_write].
  intros w. apply replied_event, conn_flush_replied.
Qed.

Lemma readable_later depth n c now : returns (later c) (on_readable cfg lim depth n c now).
Proof. apply later_step; [by apply on_readable_ok|intros w ip b; apply session_read]. Qed.

Lemma advance_later depth n c now : returns (later c) (tls_advance cfg lim depth n now c).
Proof. apply later_step; [by apply tls_advance_ok|intros w ip b; apply session_tls]. Qed.

Lemma idle_later c now : returns (later c) (idle_check lim c now).
Proof. apply later_step; [by apply idle_check_ok|intros w ip b; apply session_idle]. Qed.

Lemma later_bind (c : Conn) (m : M Conn) (f : Conn -> M Conn) :
  returns (later c) m -> (forall c', returns (later c') (f c')) -> returns (later c) (m ≫= f).
Proof.
  intros Hm Hf. apply (returns_bind (later c)); [done|]. intros c' Hc'.
  apply (returns_mono (later c')); [intros c2 Hc2; by etrans|apply Hf].
Qed.

Lemma ret_later c : returns (later c) (mret c).
Proof. apply returns_ret. reflexivity. Qed.

Hint Resolve flush_later readable_later advance_later idle_later ret_later : preserves.

Lemma dispatch_later depth n now c rev : returns (later c) (conn_dispatch cfg lim depth n now c rev).
Proof.
  unfold conn_dispatch. apply returns_any. intros w. cbv zeta.
  destruct (closed c); [destruct (has _ _); eauto with preserves|].
  destruct (match tls c with Some t => smtp_in_tls_pending _ t | None => false end).
  { destruct (has _ _); [|eauto with preserves]. apply later_bind; [eauto with preserves|].
    intros c'. destruct (_ && _); eauto with preserves. }
  destruct (match tls c with Some t => smtp_in_tls_handshaking _ t | None => false end);
    [destruct (has _ _); eauto with preserves|].
  apply later_bind; [destruct (has _ _); eauto with preserves|]. intros c'. destruct (_ && _); eauto with preserves.
Qed.

Lemma idle_sweep_later now conns : returns (fun conns' => Forall2 later conns conns') (idle_sweep lim conns now).
Proof.
  induction conns as [|c conns IH]; cbn [idle_sweep]; [by apply returns_ret|].
  apply (returns_bind (later c)); [apply idle_later|]. intros c' Hc'.
  apply (returns_bind (fun conns' => Forall2 later conns conns')); [done|]. intros conns' Hcs.
  apply returns_ret. by constructor.
Qed.

Lemma later_refl conns : Forall2 later conns conns.
Proof. induction conns; constructor; [reflexivity|done]. Qed.

Lemma dispatch_all_later depth n now conns : forall revs,
  returns (fun conns' => Forall2 later conns conns') (dispatch_all cfg lim depth n now conns revs).
Proof.
  induction conns as [|c conns IH]; intros [|rev revs]; cbn [dispatch_all];
    try (apply returns_ret, later_refl).
  apply (returns_bind (later c)); [apply dispatch_later|]. intros c' Hc'.
  apply (returns_bind (fun conns' => Forall2 later conns conns')); [done|]. intros conns' Hcs.
  apply returns_ret. by constructor.
Qed.

(** A connection some session reaches. *)
Definition in_session (c : Conn) : Prop := exists ip b, session cfg lim ip b c.

Definition conns_ok (conns : list Conn) : Prop := within_limits conns /\ Forall in_session conns.

Lemma later_conns_ok conns conns' : Forall2 later conns conns' -> conns_ok conns -> conns_ok conns'.
Proof.
  intros Hl [Hw Hs]. split.
  - apply (within_map conns); [|done]. clear -Hl. induction Hl as [|c c' l l' [Hr _] _ IH]; simpl; congruence.
  - clear Hw. induction Hl as [|c c' l l' [_ Hc] _ IH]; [done|]. inversion_clear Hs as [|? ? (ip & b & Hip) Hs'].
    constructor; [exists ip, b; auto|auto].
Qed.

Lemma accept_one_sessions implicit_tls now conns fd0 sa :
  Forall in_session conns -> returns (Forall in_session) (accept_one cfg implicit_tls now conns fd0 sa).
Proof.
  intros Hs. unfold accept_one. cbv zeta.
  assert (Hstay : returns (Forall in_session)
    (_ ← on_host (fun h => sys_send h fd0 (bs "421 4.7.0 Too many connections" ++ CRLF)); mret conns))
    by (apply returns_any; intros _; by apply returns_ret).
  destruct (_ >=? SMTP_IN_MAX_CONNS); [done|]. destruct (negb _ && _); [done|].
  set (ip := peer_ip_of sa). destruct implicit_tls.
  - apply returns_ret, Forall_app. split; [done|]. constructor; [|done]. exists ip, true. apply session_new.
  - intros w. rewrite bind_run. apply Forall_app. split; [done|]. constructor; [|done]. exists ip, false.
    apply session_greet. apply (session_new cfg lim ip false fd0 now).
Qed.

Lemma server_accept_ok implicit_tls now accepted : forall conns,
  conns_ok conns -> returns conns_ok (server_accept cfg implicit_tls now conns accepted).
Proof.
  induction accepted as [|[fd0 sa] accepted IH]; intros conns [Hw Hs]; cbn [server_accept]; [by apply returns_ret|].
  apply (returns_bind conns_ok); [|done]. intros w. split.
  - apply (accept_one_ok cfg implicit_tls now conns fd0 sa Hw w).
  - by apply accept_one_sessions.
Qed.

Lemma accept_on_ok implicit_tls now rev fd0 conns :
  conns_ok conns -> returns conns_ok (accept_on cfg implicit_tls now rev fd0 conns).
Proof.
  intros Hc. unfold accept_on. destruct (has _ _); [|by apply returns_ret].
  apply returns_any. intros acc. by apply server_accept_ok.
Qed.

Lemma filter_count_le (p q : Conn -> bool) conns :
  (length (List.filter p (List.filter q conns)) <= length (List.filter p conns))%nat.
Proof.
  induction conns as [|c conns IH]; simpl; [done|]. destruct (q c); simpl; destruct (p c); simpl; lia.
Qed.

Lemma reap_ok conns :
  conns_ok conns ->
  conns_ok (reap (S (length conns)) 0 conns) /\
  Forall (fun c => reapable c = false) (reap (S (length conns)) 0 conns).
Proof.
  intros [[Hl Hip] Hs]. assert (Hr := reap_spec (S (length conns)) 0 conns ltac:(lia) ltac:(lia) ltac:(constructor)).
  set (r := reap _ _ _) in *. split; [split; [split|]|].
  - rewrite Hr. pose proof (List.filter_length_le (fun c => negb (reapable c)) conns). lia.
  - intros ip Hne. specialize (Hip ip Hne). rewrite count_eq in * by done.
    assert (length (List.filter (same_ip ip) r) = length (List.filter (same_ip ip) (List.filter (fun c => negb (reapable c)) conns))) as ->.
    { apply Permutation_length. clear -Hr. generalize dependent (List.filter (fun c => negb (reapable c)) conns). clearbody r.
      intros l Hr. induction Hr as [|x l l' _ IH|x y l|l l' l'' _ IH1 _ IH2]; simpl; [done| | |by etrans].
      - destruct (same_ip ip x); [by constructor|done].
      - destruct (same_ip ip x), (same_ip ip y); try done. by constructor. }
    pose proof (filter_count_le (same_ip ip) (fun c => negb (reapable c)) conns). lia.
  - rewrite Hr. apply Forall_forall. intros c. rewrite list_elem_of_In, List.filter_In, <- list_elem_of_In.
    intros [Hc _]. by apply (proj1 (Forall_forall _ _) Hs).
  - rewrite Hr. apply Forall_forall. intros c. rewrite list_elem_of_In, List.filter_In.
    intros [_ Hc]. by apply negb_true_iff.
Qed.

(** ** The slot table *)

Lemma register_length t now fd0 rd wr cl idle user :
  length (smtp_in_register_http_conn t now fd0 rd wr cl idle user).1 = length t.
Proof.
  unfold smtp_in_register_http_conn. destruct (_ || _); [done|]. destruct (first_free t 0); [|done].
  apply length_insert.
Qed.

Lemma close_length t h : length (smtp_in_http_close t h) = length t.
Proof.
  unfold smtp_in_http_close. destruct (negb _); [done|]. destruct (t !! Z.to_nat h); [|done]. apply length_insert.
Qed.

Lemma set_events_length t h ev : length (smtp_in_http_set_events t h ev) = length t.
Proof.
  unfold smtp_in_http_set_events. destruct (negb _); [done|]. destruct (t !! Z.to_nat h) as [s|]; [|done].
  destruct (negb _); [done|]. apply length_insert.
Qed.

Lemma touch_length t i now : length (touch t i now) = length t.
Proof. unfold touch. destruct (t !! i); [|done]. apply length_insert. Qed.

(** The table keeps its size. *)
Definition same_size (t t' : http_table) : Prop := length t' = length t.

Lemma requests_size rs : forall t, returns (same_size t) (http_requests t rs).
Proof.
  induction rs as [|r rs IH]; intros t; cbn [http_requests]; [by apply returns_ret|].
  apply (returns_bind (same_size t)).
  - destruct r; cbn [http_request]; [apply returns_any; intros now|..]; apply returns_ret; unfold same_size;
      [apply register_length|apply set_events_length|apply close_length].
  - intros t' Ht. apply (returns_mono (same_size t')); [|apply IH]. unfold same_size in *. congruence.
Qed.

Lemma call_size cb fd0 user t : returns (same_size t) (call cb fd0 user t).
Proof.
  unfold call. destruct (cb =? 0); [by apply returns_ret|]. apply returns_any. intros rs. apply requests_size.
Qed.

Lemma size_bind t (m : M http_table) (f : http_table -> M http_table) :
  returns (same_size t) m -> (forall t', returns (same_size t') (f t')) -> returns (same_size t) (m ≫= f).
Proof.
  intros Hm Hf. apply (returns_bind (same_size t)); [done|]. intros t' Ht.
  apply (returns_mono (same_size t')); [|apply Hf]. unfold same_size in *. congruence.
Qed.

Lemma touched_call t i now cb fd0 user : returns (same_size t) (call cb fd0 user (touch t i now)).
Proof.
  apply (returns_mono (same_size (touch t i now))); [|apply call_size].
  unfold same_size. intros t'. by rewrite touch_length.
Qed.

Lemma http_idle_sweep_size n : forall i t now, returns (same_size t) (http_idle_sweep n i t now).
Proof.
  induction n as [|n IH]; intros i t now; cbn [http_idle_sweep]; [by apply returns_ret|].
  apply size_bind; [|intros t'; apply IH]. destruct (t !! i) as [s|]; [|by apply returns_ret].
  destruct (_ || _); [by apply returns_ret|]. destruct (_ && _); [|by apply returns_ret].
  unfold http_slot_idle_close. destruct (t !! Z.to_nat (Z.of_nat i)) as [s'|]; [|by apply returns_ret].
  destruct (hs_on_closed s' =? 0); [apply returns_ret, close_length|].
  apply (returns_mono (same_size (smtp_in_http_close t (Z.of_nat i)))); [|apply call_size].
  unfold same_size. intros t'. by rewrite close_length.
Qed.

Lemma http_dispatch_size n : forall i t revs now, returns (same_size t) (http_dispatch n i t revs now).
Proof.
  induction n as [|n IH]; intros i t revs now; cbn [http_dispatch]; [by apply returns_ret|].
  apply size_bind; [|intros t'; apply IH]. unfold http_dispatch_one. destruct (t !! i) as [s|]; [|by apply returns_ret].
  destruct (negb _); [by apply returns_ret|].
  apply size_bind; [destruct (has _ _); [apply touched_call|by apply returns_ret]|].
  intros t'. destruct (t' !! i) as [s'|]; [|by apply returns_ret].
  destruct (_ && _); [apply touched_call|by apply returns_ret].
Qed.

Lemma extra_dispatch_size xs : forall revs t, returns (same_size t) (extra_dispatch xs revs t).
Proof.
  induction xs as [|x xs IH]; intros [|rev revs] t; cbn [extra_dispatch]; try by apply returns_ret.
  apply size_bind; [destruct (has _ _); [apply call_size|by apply returns_ret]|]. intros t'. apply IH.
Qed.

(** ** Turns *)

Definition server_ok (srv : Server) : Prop :=
  conns_ok (sv_conns srv) /\ length (sv_http srv) = SMTP_IN_MAX_HTTP /\ (length (sv_extra srv) <= SMTP_IN_MAX_EXTRA)%nat.

Lemma server_dispatch_ok depth n now srv revs :
  server_ok srv ->
  returns (fun srv' => server_ok srv' /\ Forall (fun c => reapable c = false) (sv_conns srv'))
    (server_dispatch cfg lim depth n now srv revs).
Proof.
  intros (Hc & Hh & Hx). unfold server_dispatch. cbv zeta.
  apply (returns_bind conns_ok); [by apply accept_on_ok|]. intros c1 Hc1.
  apply (returns_bind conns_ok); [by apply accept_on_ok|]. intros c2 Hc2.
  apply (returns_bind (same_size (sv_http srv))); [apply extra_dispatch_size|]. intros t1 Ht1.
  apply (returns_bind (fun c3 => Forall2 later c2 c3)); [apply dispatch_all_later|]. intros c3 Hc3.
  apply (returns_bind (same_size t1)); [apply http_dispatch_size|]. intros t2 Ht2. apply returns_ret.
  destruct (reap_ok c3 (later_conns_ok c2 c3 Hc3 Hc2)) as [Hok Hre]. unfold same_size in *.
  split; [|done]. split; [done|]. cbn [sv_http sv_extra]. split; [congruence|done].
Qed.

Lemma server_turn_ok depth n srv :
  server_ok srv -> returns (fun r => match r with Some srv' => server_ok srv' | None => True end)
    (server_turn cfg lim depth n srv).
Proof.
  intros (Hc & Hh & Hx). unfold server_turn. apply returns_any. intros now.
  apply (returns_bind (fun c1 => Forall2 later (sv_conns srv) c1)); [apply idle_sweep_later|]. intros c1 Hc1.
  apply (returns_bind (same_size (sv_http srv))); [apply http_idle_sweep_size|]. intros t1 Ht1.
  apply returns_any. intros _. apply returns_any. intros at_. cbv zeta. set (srv1 := MkServer _ _ _ _ _ _ _).
  assert (Hok1 : server_ok srv1).
  { split; [by apply (later_conns_ok (sv_conns srv))|]. unfold same_size in Ht1. cbn [srv1 sv_http sv_extra]. split; [congruence|done]. }
  apply returns_any. intros w. apply returns_any. intros tmo. apply returns_any. intros [| |revs]; [by apply returns_ret..|].
  apply (returns_bind (fun srv' => server_ok srv' /\ Forall (fun c => reapable c = false) (sv_conns srv')));
    [by apply server_dispatch_ok|]. intros srv' [Hok' _]. by apply returns_ret.
Qed.

End LoopSpec.

(** ** The states of the loop *)

(** [served srv]: a state at the top of the loop, some turns after startup. Each
    turn runs from any world, so other parts may act between turns. *)
Inductive served {E : DlEngine} {H : Host} {X : Mux H} (cfg : Config) : Server -> Prop :=
  | served_start extra lfd ltfd w :
      (length extra <= SMTP_IN_MAX_EXTRA)%nat -> served cfg (smtp_in_start cfg extra http_init lfd ltfd w).2
  | served_turn srv depth n w srv' :
      served cfg srv -> (server_turn cfg (server_init cfg) depth n srv w).2 = Some srv' -> served cfg srv'.

(** C14: The event loop. In every state the loop reaches from startup, whatever
    [poll], [accept], the sockets, TLS, the callbacks of the admin server, the
    store and the relay answer, and whatever happens to the world between two
    turns: at most 1024 connections are open and at most 128 from one actual peer
    address; every connection is in a state that its session can reach from
    accept, so the session invariant holds of all of them; and the slot table
    still has its 32 slots. *)
Theorem event_loop_invariant {E : DlEngine} {H : Host} {X : Mux H} (cfg : Config) (srv : Server)
  (Hmsg : is_u32 (lim_message (limits cfg))) (Hline : is_u32 (lim_line (limits cfg)))
  (Hrcpts : is_u32 (lim_rcpts (limits cfg))) (Hs : served cfg srv) :
  within_limits (sv_conns srv) /\
  Forall (fun c => exists ip implicit_tls, session cfg (server_init cfg) ip implicit_tls c) (sv_conns srv) /\
  length (sv_http srv) = SMTP_IN_MAX_HTTP.
Proof.
  pose proof (server_init_ok cfg Hmsg Hline Hrcpts) as Hlim.
  assert (Hok : server_ok cfg (server_init cfg) srv); [|destruct Hok as ([] & ? & _); by split].
  induction Hs as [extra lfd ltfd w Hx|srv depth n w srv' _ IH Ht].
  - unfold smtp_in_start. rewrite !bind_run. cbn [mret M_ret snd]. split; [|by split]. split; [|constructor].
    split; [vm_compute; done|]. intros ip Hne. rewrite count_eq by done. vm_compute. done.
  - pose proof (server_turn_ok cfg (server_init cfg) Hlim depth n srv IH w) as Hok. by rewrite Ht in Hok.
Qed.

(** ** A closed connection whose peer does not read

    The idle sweep and the poll timeout do not look at [closed]. A closed
    connection with undrained output is not reaped while its peer takes nothing;
    once its deadline has passed every turn queues another 421 on it, and the wait
    handed to [poll] is 0, so the loop spins. *)

Definition StuckHost : Host := {|
  host := machine;
  time_now h := (tick h, mc_now h);
  monotonic_ms h := (tick h, mc_now h * 1000);
  read_urandom h := (h, (false, []));
  sys_mkdir h _ := (h, true);
  write_file h _ _ := (h, false);
  write_file_fsync h _ _ := (h, false);
  read_file h _ := (h, None);
  sys_unlink h _ := h;
  sys_stat h _ := (h, None);
  sys_readdir h _ := (h, None);
  sys_send h _ _ := (h, [SdAgain]);
  sys_recv h _ := (h, RvAgain);
  smtp_out_send h _ _ _ _ := (h, mc_relay h);
  dkim_sign h _ _ _ _ := (h, None);
  auth_results_build h _ _ _ _ := (h, None);
  smtp_in_tls_available _ := false;
  smtp_in_tls_start h _ := (h, None);
  smtp_in_tls_prefeed h _ _ := (h, false);
  smtp_in_tls_handshake_step h _ := (h, -1);
  smtp_in_tls_recv h _ := (h, RvError);
  smtp_in_tls_send h _ _ := (h, [SdError]);
  smtp_in_tls_pending _ _ := false;
  smtp_in_tls_handshaking _ _ := false;
  smtp_in_tls_established _ _ := false;
  inet_pton _ _ := None;
  inet_ntop _ := None;
  file_at _ _ := None;
|}.

Lemma stalled_peer_spins :
  let w := @MkWorld MemEngine StuckHost mem0 [] (mem_machine 0 []) [] in
  let c := close (say (bs "221 2.0.0 Bye" ++ CRLF) (new_conn 5 (bs "ip4a") false 1000)) in
  let '(w', c') := idle_check (server_init mem_cfg) c 2000 w in
  closed c' = true /\ reapable c' = false /\ last_act c' = 1000 /\ len (said c') = len (said c) + 1 /\
  (poll_timeout_ms (server_init mem_cfg) [c'] http_init 2000 w').2 = 0.
Proof. vm_compute. repeat split; reflexivity. Qed.

(** ** Witnesses *)

(** A loop whose SMTP listener is always readable and yields one connection. *)
Definition MemMux : Mux (E := MemEngine) MemHost := {|
  sys_poll _ _ := mret (PollReady [POLLIN]);
  sys_accept _ := mret [(5, AF_INET (bs "ip4a"))];
  smtp_in_tls_wants_write _ _ := false;
  callback _ _ _ _ := mret [];
|}.

Lemma event_loop_invariant_witness :
  exists srv, served (X := MemMux) mem_cfg srv /\ length (sv_conns srv) = 1%nat /\ within_limits (sv_conns srv).
Proof.
  pose (w := mem_world 0 []). pose (srv0 := (smtp_in_start mem_cfg [] http_init 3 4 w).2).
  destruct ((server_turn (X := MemMux) mem_cfg (server_init mem_cfg) 1 1 srv0 w).2) as [srv|] eqn:Ht.
  2:{ exfalso. revert Ht. vm_compute. discriminate. }
  assert (Hs : served (X := MemMux) mem_cfg srv).
  { apply (served_turn mem_cfg srv0 1 1 w); [|exact Ht]. apply served_start. simpl. lia. }
  exists srv. split; [exact Hs|]. split.
  - revert Ht. vm_compute. intros Ht. injection Ht as <-. reflexivity.
  - assert (Hu : is_u32 10000 /\ is_u32 0 /\ is_u32 10) by (unfold is_u32, UINT32_MAX; lia).
    destruct Hu as (Hm & Hl & Hr). apply (event_loop_invariant mem_cfg srv Hm Hl Hr Hs).
Defined.
