(* ===== verification/SmtpOut.v ===== *)
(** * The SMTP client (src/src/smtp_out.c)

    Connecting to a relay, the bounded I/O primitives, TLS, AUTH PLAIN, the
    dialogue and the retry loop. What lies outside is the class [Net]: the
    resolver, sockets, and the mbedTLS library, whose calls are given the two BIO
    callbacks of the source. A poll-and-retry loop is given the results of its
    successive system calls, of which EINTR repeats the loop. [Out] is the state of
    a run: the network, the process-wide TLS state, the connection, the status
    buffer, and a ghost trace of what passed on the wire and of handshakes that failed. [smtp_read_reply] reads
    lines for as long as the relay sends continuation lines, so it takes fuel; a
    run that uses it up is [running]. *)

From S2P Require Import Prelude MailLines MailHeader DlEngine Store StoreSpec StoreTables Reply Config Prog SmtpReply.

(** The end of a poll and a read, or of a poll and a write. *)
Inductive fill_result := FlIntr | FlTimeout | FlError | FlEof | FlData (d : bytes).
Inductive write_result := WrIntr | WrTimeout | WrError | WrSent (n : nat).

(** What an mbedTLS read or a BIO read returns: bytes, or a code that is not positive. *)
Inductive io_code := IoData (d : bytes) | IoCode (r : Z).

Class Net := {
  net : Type;
  addrinfo : Type;
  (** the error text, or the addresses *)
  getaddrinfo : net -> bytes -> Z -> net * (bytes + list addrinfo);
  sys_socket : net -> addrinfo -> net * option Z;
  (** F_GETFL and F_SETFL with O_NONBLOCK *)
  fcntl_nonblock : net -> Z -> net * bool;
  (** connected, or EINPROGRESS *)
  sys_connect : net -> Z -> addrinfo -> net * bool;
  (** poll for POLLOUT returns more than 0 *)
  poll_connected : net -> Z -> Z -> net * bool;
  so_error_clear : net -> Z -> net * bool;
  fcntl_restore : net -> Z -> net * bool;
  sys_close : net -> Z -> net;
  (** fd, timeout of poll, size of the buffer or the bytes to send *)
  sys_fill : net -> Z -> Z -> nat -> net * list fill_result;
  sys_write : net -> Z -> Z -> bytes -> net * list write_result;
  sys_sleep : net -> Z -> net;
  ctr_drbg_seed : net -> net * Z;
  ssl_config_defaults : net -> net * Z;
  x509_crt_parse_file : net -> bytes -> net * Z;
  (** of the embedded bundle *)
  x509_crt_parse : net -> net * Z;
  ssl_conf_ca_chain : net -> net;
  (** with the verifying configuration or the other one *)
  ssl_setup : net -> Z -> bool -> net * Z;
  ssl_set_hostname : net -> Z -> bytes -> net * Z;
  ssl_handshake : (net -> bytes -> net * Z) -> (net -> nat -> net * io_code) -> net -> Z -> net * Z;
  ssl_get_verify_result : net -> Z -> Z;
  ssl_read : (net -> bytes -> net * Z) -> (net -> nat -> net * io_code) -> net -> Z -> nat -> net * io_code;
  ssl_write : (net -> bytes -> net * Z) -> (net -> nat -> net * io_code) -> net -> Z -> bytes -> net * Z;
  ssl_close_notify : (net -> bytes -> net * Z) -> (net -> nat -> net * io_code) -> net -> Z -> net;
  ssl_free : net -> Z -> net;
  mbedtls_strerror : Z -> bytes;
}.

Definition MBEDTLS_ERR_SSL_TIMEOUT : Z := -26624.
Definition MBEDTLS_ERR_SSL_INTERNAL_ERROR : Z := -27648.
Definition MBEDTLS_ERR_SSL_PEER_CLOSE_NOTIFY : Z := -30848.
Definition MBEDTLS_ERR_X509_CERT_VERIFY_FAILED : Z := -9984.
Definition MBEDTLS_ERR_SSL_BAD_CERTIFICATE : Z := -31232.
Definition MBEDTLS_ERR_SSL_CA_CHAIN_REQUIRED : Z := -30336.

Record SmtpConn := {
  cn_fd : Z;
  cn_tls : bool;
  cn_tmo : Z;
  cn_rbuf : bytes;  (** [rbuf[rbuf_off..rbuf_len)] *)
}.

(** The process-wide TLS state; [g_ca_chain] is ghost, the source of the chain
    installed in the verifying configuration ([None] inside: the embedded bundle). *)
Record TlsGlobals := {
  g_tls_ready : bool;
  g_tls_status : Z;
  g_verify_ready : bool;
  g_verify_status : Z;
  g_ca_chain : option (option bytes);
}.

(** What an observer sees: a connection attempt, bytes accepted for sending and a
    line read, with the TLS state of the connection, a completed handshake (verified
    or not), a failed handshake after STARTTLS with the error and the verify result
    the TLS library gives for it, and a pause. *)
Inductive event :=
  | EvConnect (ok : bool)
  | EvSend (tls : bool) (d : bytes)
  | EvLine (tls : bool) (line : bytes)
  | EvTls (verified : bool)
  | EvTlsFail (hr vr : Z)
  | EvSleep (sec : Z).

Section Client.
Context {N : Net}.

Record Out := MkOut {
  o_net : net;
  o_glob : TlsGlobals;
  o_conn : SmtpConn;
  o_status : bytes;
  o_trace : list event;
}.

Definition on_net {A} (f : net -> net * A) : prog Out A := fun s =>
  let '(n, a) := f (o_net s) in (MkOut n (o_glob s) (o_conn s) (o_status s) (o_trace s), Some a).
Definition net_do (f : net -> net) : prog Out unit := on_net (fun n => (f n, tt)).
Definition set_glob (g : TlsGlobals) : prog Out unit :=
  modify (fun s => MkOut (o_net s) g (o_conn s) (o_status s) (o_trace s)).
Definition set_conn (c : SmtpConn) : prog Out unit :=
  modify (fun s => MkOut (o_net s) (o_glob s) c (o_status s) (o_trace s)).
Definition emit (e : event) : prog Out unit :=
  modify (fun s => MkOut (o_net s) (o_glob s) (o_conn s) (o_status s) (o_trace s ++ [e])).
Definition put_status (sz : nat) (msg : bytes) : prog Out unit :=
  modify (fun s => MkOut (o_net s) (o_glob s) (o_conn s) (set_status (o_status s) sz msg) (o_trace s)).

Definition with_tmo (c : SmtpConn) (tmo : Z) : SmtpConn :=
  {| cn_fd := cn_fd c; cn_tls := cn_tls c; cn_tmo := tmo; cn_rbuf := cn_rbuf c |}.
Definition with_rbuf (c : SmtpConn) (b : bytes) : SmtpConn :=
  {| cn_fd := cn_fd c; cn_tls := cn_tls c; cn_tmo := cn_tmo c; cn_rbuf := b |}.
Definition with_tls (c : SmtpConn) : SmtpConn :=
  {| cn_fd := cn_fd c; cn_tls := true; cn_tmo := cn_tmo c; cn_rbuf := cn_rbuf c |}.

(** ** Process-wide TLS state *)

Definition smtp_tls_global_init : prog Out Z :=
  g ← gets o_glob;
  if g_tls_ready g then mret (g_tls_status g)
  else
    r ← on_net ctr_drbg_seed;
    r ← (if r =? 0 then on_net ssl_config_defaults else mret r);
    r ← (if r =? 0 then on_net ssl_config_defaults else mret r);
    _ ← set_glob {| g_tls_ready := true; g_tls_status := r; g_verify_ready := g_verify_ready g;
                    g_verify_status := g_verify_status g; g_ca_chain := g_ca_chain g |};
    mret r.

(** [g_verify_status = r; g_verify_ready = true]. *)
Definition verify_done (r : Z) (ca : option (option bytes)) : prog Out Z :=
  g ← gets o_glob;
  _ ← set_glob {| g_tls_ready := g_tls_ready g; g_tls_status := g_tls_status g;
                  g_verify_ready := true; g_verify_status := r; g_ca_chain := ca |};
  mret r.

Definition smtp_tls_verify_init (tls_ca : option bytes) : prog Out Z :=
  g ← gets o_glob;
  if g_verify_ready g then mret (g_verify_status g)
  else
    r ← smtp_tls_global_init;
    if negb (r =? 0) then verify_done r (g_ca_chain g)
    else
      r ← match nonempty tls_ca with
          | Some ca => on_net (fun n => x509_crt_parse_file n ca)
          | None => on_net x509_crt_parse
          end;
      if r <? 0 then verify_done r (g_ca_chain g)
      else
        _ ← net_do ssl_conf_ca_chain;
        verify_done 0 (Some (nonempty tls_ca)).

(** ** I/O *)

(** The result the loop ends with: the first that is not EINTR. *)
Fixpoint fill_end (rs : list fill_result) : fill_result :=
  match rs with [] => FlError | FlIntr :: rs' => fill_end rs' | r :: _ => r end.

Fixpoint write_end (rs : list write_result) : write_result :=
  match rs with [] => WrError | WrIntr :: rs' => write_end rs' | r :: _ => r end.

(** [bio_recv] and [bio_send]; [c] is their context. *)
Definition bio_recv (c : SmtpConn) (n : net) (size : nat) : net * io_code :=
  let '(n, rs) := sys_fill n (cn_fd c) (timeout_ms (cn_tmo c)) size in
  (n, match fill_end rs with
      | FlTimeout => IoCode MBEDTLS_ERR_SSL_TIMEOUT
      | FlEof => IoCode 0
      | FlData d => IoData (take size d)
      | _ => IoCode MBEDTLS_ERR_SSL_INTERNAL_ERROR
      end).

Definition write_chunk (buf : bytes) : bytes := take (Z.to_nat 65536) buf.

Definition bio_send (c : SmtpConn) (n : net) (buf : bytes) : net * Z :=
  let '(n, rs) := sys_write n (cn_fd c) (timeout_ms (cn_tmo c)) (write_chunk buf) in
  (n, match write_end rs with
      | WrTimeout => MBEDTLS_ERR_SSL_TIMEOUT
      | WrSent (S w) => Z.of_nat (S w)
      | _ => MBEDTLS_ERR_SSL_INTERNAL_ERROR
      end).

Definition smtp_conn_init (fd : Z) : prog Out unit :=
  set_conn {| cn_fd := fd; cn_tls := false; cn_tmo := 0; cn_rbuf := [] |}.

Definition smtp_conn_close (graceful : bool) : prog Out unit :=
  c ← gets o_conn;
  _ ← (if cn_tls c && graceful then net_do (fun n => ssl_close_notify (bio_send c) (bio_recv c) n (cn_fd c))
       else mret tt);
  _ ← net_do (fun n => ssl_free n (cn_fd c));
  _ ← (if cn_fd c >=? 0 then net_do (fun n => sys_close n (cn_fd c)) else mret tt);
  set_conn {| cn_fd := -1; cn_tls := cn_tls c; cn_tmo := cn_tmo c; cn_rbuf := cn_rbuf c |}.

(** What [conn_read_byte] returns: 1 and the byte, 0, -1. *)
Inductive read_byte := RbByte (b : Z) | RbEof | RbError.

(** A fill of the read-ahead buffer: its first byte is returned. *)
Definition filled (d : bytes) : prog Out read_byte :=
  c ← gets o_conn;
  match take 4096 d with
  | [] => _ ← set_conn (with_rbuf c []); mret RbEof
  | b :: t => _ ← set_conn (with_rbuf c t); mret (RbByte b)
  end.

Definition conn_read_byte (tmo : Z) : prog Out read_byte :=
  c ← gets o_conn;
  match cn_rbuf c with
  | b :: t => _ ← set_conn (with_rbuf c t); mret (RbByte b)
  | [] =>
      if cn_tls c then
        let c := with_tmo c tmo in
        _ ← set_conn c;
        r ← on_net (fun n => ssl_read (bio_send c) (bio_recv c) n (cn_fd c) 4096);
        match r with
        | IoData d => filled d
        | IoCode r => mret (if (r =? 0) || (r =? MBEDTLS_ERR_SSL_PEER_CLOSE_NOTIFY) then RbEof else RbError)
        end
      else
        rs ← on_net (fun n => sys_fill n (cn_fd c) (timeout_ms tmo) 4096);
        match fill_end rs with
        | FlData d => filled d
        | FlEof => mret RbEof
        | _ => mret RbError
        end
  end.

(** [conn_send]; bytes that were accepted are recorded. *)
Definition conn_send (buf : bytes) (tmo : Z) : prog Out Z :=
  c ← gets o_conn;
  w ← (if cn_tls c then
         let c := with_tmo c tmo in
         _ ← set_conn c;
         w ← on_net (fun n => ssl_write (bio_send c) (bio_recv c) n (cn_fd c) buf);
         mret (if w >? 0 then w else -1)
       else
         rs ← on_net (fun n => sys_write n (cn_fd c) (timeout_ms tmo) (write_chunk buf));
         mret (match write_end rs with WrSent (S w) => Z.of_nat (S w) | _ => -1 end));
  _ ← (if w >? 0 then emit (EvSend (cn_tls c) (take (Z.to_nat w) buf)) else mret tt);
  mret w.

(** The loop of [smtp_read_line] with room for [room] bytes more after [buf]. *)
Fixpoint read_line_loop (room : nat) (tmo : Z) (buf : bytes) : prog Out (option bytes) :=
  match room with
  | O => mret None
  | S room' =>
      r ← conn_read_byte tmo;
      match r with
      | RbByte b =>
          let buf := buf ++ [b] in
          if b =? LF then  (* a CRLF, or a bare LF *)
            c ← gets o_conn; _ ← emit (EvLine (cn_tls c) buf); mret (Some buf)
          else read_line_loop room' tmo buf
      | _ => mret None
      end
  end.

Definition smtp_read_line (tmo : Z) (bufsz : nat) : prog Out (option bytes) := read_line_loop bufsz tmo [].

(** The checks on one line of a reply: its code and separator. *)
Definition reply_line (line : bytes) : option (Z * Z) :=
  if (length line <? 4)%nat then None
  else match smtp_reply_code line with
       | None => None
       | Some lc =>
           let sep := at0 line 3 in
           if negb (sep =? SP) && negb (sep =? "-"%chr) then None else Some (lc, sep)
       end.

(** The text of the first line, without its line ending. *)
Definition line_text (line : bytes) (textsz : nat) : bytes :=
  let n := length line in
  let tlen :=
    if (2 <=? n)%nat && (at0 line (n - 2) =? CR) && (at0 line (n - 1) =? LF) then (n - 2)%nat
    else if (1 <=? n)%nat && (at0 line (n - 1) =? LF) then (n - 1)%nat else n in
  take (textsz - 1) (drop 4 (take tlen line)).

(** [first] and [text] are set once a line was read. *)
Fixpoint read_reply_loop (fuel : nat) (tmo : Z) (textsz : nat) (first : option (Z * bytes))
  : prog Out (option (Z * bytes)) :=
  match fuel with
  | O => running
  | S fuel' =>
      l ← smtp_read_line tmo SMTP_MAX_LINE;
      match l with
      | None => mret None
      | Some line =>
          match reply_line line with
          | None => mret None
          | Some (lc, sep) =>
              let '(f, text) := default (lc, line_text line textsz) first in
              if negb (lc =? f) then mret None
              else if sep =? SP then mret (Some (f, text))
              else read_reply_loop fuel' tmo textsz (Some (f, text))
          end
      end
  end.

Definition smtp_read_reply (fuel : nat) (tmo : Z) (textsz : nat) : prog Out (option (Z * bytes)) :=
  read_reply_loop fuel tmo textsz None.

(** The loop of [smtp_read_reply_all]: [reply] holds the lines read. *)
Fixpoint read_reply_all_loop (fuel : nat) (tmo : Z) (replysz : nat) (first : option Z) (reply : bytes)
  : prog Out (option (Z * bytes)) :=
  match fuel with
  | O => running
  | S fuel' =>
      l ← smtp_read_line tmo SMTP_MAX_LINE;
      match l with
      | None => mret None
      | Some line =>
          match reply_line line with
          | None => mret None
          | Some (lc, sep) =>
              let f := default lc first in
              if negb (lc =? f) then mret None
              else if (replysz - 1 <? length reply)%nat || (replysz - 1 - length reply <? length line)%nat
              then mret None
              else if sep =? SP then mret (Some (f, reply ++ line))
              else read_reply_all_loop fuel' tmo replysz (Some f) (reply ++ line)
          end
      end
  end.

(** Every line adds bytes to a reply of at most [replysz], so [replysz] rounds are
    enough. *)
Definition smtp_read_reply_all (tmo : Z) (replysz : nat) : prog Out (option (Z * bytes)) :=
  read_reply_all_loop replysz tmo replysz None [].

(** Every round sends a byte. *)
Fixpoint write_all_loop (fuel : nat) (buf : bytes) (tmo : Z) : prog Out bool :=
  match fuel, buf with
  | _, [] => mret true
  | O, _ => mret false
  | S fuel', _ =>
      w ← conn_send buf tmo;
      if w <=? 0 then mret false else write_all_loop fuel' (drop (Z.to_nat w) buf) tmo
  end.

Definition smtp_write_all (buf : bytes) (tmo : Z) : prog Out bool := write_all_loop (length buf) buf tmo.

(** ** Connecting *)

(** One address of the loop of [smtp_connect]. *)
Definition try_address (ai : addrinfo) : prog Out (option Z) :=
  s ← on_net (fun n => sys_socket n ai);
  match s with
  | None => mret None
  | Some s =>
      let fail := _ ← net_do (fun n => sys_close n s); mret None in
      ok ← on_net (fun n => fcntl_nonblock n s);
      if negb ok then fail
      else
        ok ← on_net (fun n => sys_connect n s ai);
        if negb ok then fail
        else
          ok ← on_net (fun n => poll_connected n s 10000);
          if negb ok then fail
          else
            ok ← on_net (fun n => so_error_clear n s);
            if negb ok then fail
            else
              ok ← on_net (fun n => fcntl_restore n s);
              if negb ok then fail else mret (Some s)
  end.

Fixpoint try_addresses (ais : list addrinfo) : prog Out (option Z) :=
  match ais with
  | [] => mret None
  | ai :: ais' => r ← try_address ai; match r with Some s => mret (Some s) | None => try_addresses ais' end
  end.

Definition smtp_connect (host : bytes) (port : Z) (sz : nat) : prog Out (option Z) :=
  res ← on_net (fun n => getaddrinfo n host port);
  match res with
  | inl err => _ ← put_status sz err; _ ← emit (EvConnect false); mret None
  | inr ais =>
      fd ← try_addresses ais;
      match fd with
      | None => _ ← put_status sz (bs "connect failed"); _ ← emit (EvConnect false); mret None
      | Some fd => _ ← emit (EvConnect true); mret (Some fd)
      end
  end.

(** ** TLS *)

(** [smtp_tls_handshake]: 0, or the mbedTLS error. *)
Definition smtp_tls_handshake (host : bytes) (verify : bool) (tls_ca : option bytes) (tmo : Z) (sz : nat)
  : prog Out Z :=
  r ← smtp_tls_global_init;
  if negb (r =? 0) then _ ← put_status sz (bs "tls init failed"); mret r
  else
    r ← (if verify then smtp_tls_verify_init tls_ca else mret 0);
    if negb (r =? 0) then _ ← put_status sz (bs "tls verify init failed"); mret r
    else
      c ← gets o_conn;
      r ← on_net (fun n => ssl_setup n (cn_fd c) verify);
      if negb (r =? 0) then _ ← put_status sz (bs "tls setup failed"); mret r
      else
        r ← (if is_nil host then mret 0 else on_net (fun n => ssl_set_hostname n (cn_fd c) host));
        if negb (r =? 0) then _ ← put_status sz (bs "tls hostname failed"); mret r
        else
          let c := with_tmo c tmo in
          _ ← set_conn c;
          r ← on_net (fun n => ssl_handshake (bio_send c) (bio_recv c) n (cn_fd c));
          if negb (r =? 0) then _ ← put_status sz (mbedtls_strerror r); mret r
          else
            _ ← set_conn (with_tls c);
            _ ← emit (EvTls verify);
            mret 0.

End Client.

(** [wp_step] for the state changes of the client. *)
Ltac out_step :=
  first
    [ wp_step
    | match goal with
      | |- wp (set_glob _) _ _ => apply wp_modify
      | |- wp (set_conn _) _ _ => apply wp_modify
      | |- wp (emit _) _ _ => apply wp_modify
      | |- wp (put_status _ _) _ _ => apply wp_modify
      end; cbn beta match ].

Ltac out_steps := repeat out_step.
