(* ===== verification/SmtpDialogue.v ===== *)
(** * The dialogue of the SMTP client (src/src/smtp_out.c)

    AUTH PLAIN, the DATA payload, the dialogue with its three TLS modes, and the
    entry points [smtp_out_send_host] and [smtp_out_send] with their retry loop.
    A step of the dialogue ends it with a status ([Some rc]) or lets it go on. *)

From S2P Require Import Prelude MailLines MailHeader DlEngine Store StoreSpec StoreTables Reply Config Prog SmtpReply SmtpOut.

Definition quoted (s : string) : bytes := DQUOTE :: bs s ++ [DQUOTE].

Section Dialogue.
Context {N : Net}.

(** [fuel] bounds the lines of one reply. *)
Variable fuel : nat.
(** [sizeof status_out]. *)
Variable sz : nat.

(** [if (step returns a status) return it; go on]. *)
Definition or_else (m : prog Out (option Z)) (k : prog Out Z) : prog Out Z :=
  r ← m; match r with Some rc => mret rc | None => k end.

(** [smtp_exchange]: the code of the reply when it returns 0. *)
Definition smtp_exchange (tmo : Z) (cmd : bytes) : prog Out (option Z) :=
  ok ← smtp_write_all cmd tmo;
  if negb ok then _ ← put_status sz (bs "write failed"); mret None
  else
    r ← smtp_read_reply fuel tmo SMTP_MAX_LINE;
    match r with
    | None => _ ← put_status sz (bs "read failed"); mret None
    | Some (code, text) => _ ← put_status sz text; mret (Some code)
    end.

(** The SASL PLAIN response. *)
Definition plain_response (auth : ConfigRelay) : bytes :=
  NUL :: nonnull (rl_username auth) ++ NUL :: nonnull (rl_password auth).

Definition cred_too_long (auth : ConfigRelay) : bool :=
  let u := nonnull (rl_username auth) in
  let p := nonnull (rl_password auth) in
  (SMTP_MAX_CRED_LEN <? length u)%nat || (SMTP_MAX_CRED_LEN <? length p)%nat
  || (SMTP_MAX_CRED_LEN <? 1 + length u + 1 + length p)%nat.

Definition smtp_auth_plain (tmo : Z) (auth : ConfigRelay) : prog Out Z :=
  if cred_too_long auth then _ ← put_status sz (bs "auth credentials too long"); mret SMTP_ERROR
  else
    let plain := plain_response auth in
    match smtp_b64_encode plain ((len plain + 2) / 3 * 4 + 1) with
    | None => _ ← put_status sz (bs "base64 encode failed"); mret SMTP_ERROR
    | Some b64 =>
        r ← smtp_exchange tmo (bs "AUTH PLAIN " ++ b64 ++ CRLF);
        match r with
        | None => mret SMTP_TEMPFAIL
        | Some code =>
            if code =? 334 then
              r ← smtp_exchange tmo (b64 ++ CRLF);
              match r with None => mret SMTP_TEMPFAIL | Some code => mret (smtp_auth_class code) end
            else mret (smtp_auth_class code)
        end
    end.

Definition data_end : bytes := [CR; LF; "."%chr; CR; LF].

Definition smtp_send_data (dtmo : Z) (body : bytes) : prog Out bool :=
  ok ← smtp_write_all (mail_stuff_dots body) dtmo;
  if ok : bool then smtp_write_all data_end dtmo else mret false.

(** What the dialogue needs to know. *)
Record Envelope := {
  ev_cfg : Config; ev_host : bytes; ev_tmo : Z; ev_dtmo : Z; ev_body : bytes;
  ev_mail_cmd : bytes; ev_rcpt_cmd : bytes }.

Definition tls_is (c : Config) (mode : string) : bool :=
  match rl_tls (relay c) with Some t => beq t (bs mode) | None => false end.

(** 0. implicit TLS *)
Definition dlg_implicit (e : Envelope) : prog Out (option Z) :=
  if tls_is (ev_cfg e) "implicit" then
    hr ← smtp_tls_handshake (ev_host e) false (rl_tls_ca (relay (ev_cfg e))) (ev_tmo e) sz;
    mret (if negb (hr =? 0) then Some SMTP_TEMPFAIL else None)
  else mret None.

(** 1. greeting *)
Definition dlg_greeting (e : Envelope) : prog Out (option Z) :=
  r ← smtp_read_reply fuel (ev_tmo e) SMTP_MAX_LINE;
  match r with
  | None => _ ← put_status sz (bs "no greeting"); mret (Some SMTP_TEMPFAIL)
  | Some (code, text) =>
      _ ← put_status sz text;
      mret (if negb (code =? 220) then Some (if code >=? 400 then smtp_class code else SMTP_ERROR) else None)
  end.

Definition ehlo_cmd (c : Config) : bytes := bs "EHLO " ++ host_name c ++ CRLF.

Definition class_stop (code : Z) : option Z :=
  if negb (smtp_class code =? SMTP_OK) then Some (smtp_class code) else None.

(** 2. EHLO: the status, or the text of the reply *)
Definition dlg_ehlo (e : Envelope) : prog Out (Z + bytes) :=
  let cmd := ehlo_cmd (ev_cfg e) in
  if (SMTP_MAX_LINE <=? length cmd)%nat then _ ← put_status sz (bs "EHLO name too long"); mret (inl SMTP_ERROR)
  else
    ok ← smtp_write_all cmd (ev_tmo e);
    if negb ok then _ ← put_status sz (bs "write failed"); mret (inl SMTP_TEMPFAIL)
    else
      r ← smtp_read_reply_all (ev_tmo e) SMTP_MAX_REPLY;
      match r with
      | None => _ ← put_status sz (bs "read failed"); mret (inl SMTP_TEMPFAIL)
      | Some (code, caps) =>
          _ ← modify (fun s => MkOut (o_net s) (o_glob s) (o_conn s) (reply_first_text caps (o_status s) sz) (o_trace s));
          mret (match class_stop code with Some rc => inl rc | None => inr caps end)
      end.

(** The class of a failed handshake after STARTTLS. *)
Definition handshake_class (verify : bool) (hr vr : Z) : Z :=
  if verify && ((hr =? MBEDTLS_ERR_X509_CERT_VERIFY_FAILED) || (hr =? MBEDTLS_ERR_SSL_BAD_CERTIFICATE)
                || (hr =? MBEDTLS_ERR_SSL_CA_CHAIN_REQUIRED) || negb (vr =? 0))
  then SMTP_PERMFAIL else SMTP_TEMPFAIL.

Definition refused_class (starttls_cls : Z) : Z :=
  if starttls_cls =? SMTP_TEMPFAIL then SMTP_TEMPFAIL else SMTP_PERMFAIL.

(** [if (!did_tls && tls_opp && auth.enabled)] *)
Definition dlg_fallback (e : Envelope) (starttls_cls : Z) : prog Out (Z + bool) :=
  if tls_is (ev_cfg e) "starttls" && rl_auth_enabled (relay (ev_cfg e)) then
    _ ← put_status sz (bs "refusing to send AUTH over plaintext"); mret (inl (refused_class starttls_cls))
  else mret (inr false).

(** STARTTLS is advertised: attempt the upgrade. *)
Definition dlg_upgrade (e : Envelope) : prog Out (Z + bool) :=
  let tls_verify := tls_is (ev_cfg e) "starttls-verify" in
  r ← smtp_exchange (ev_tmo e) (bs "STARTTLS" ++ CRLF);
  match r with
  | None => mret (inl SMTP_TEMPFAIL)
  | Some code =>
      if code =? 220 then
        conn ← gets o_conn;
        _ ← set_conn (with_rbuf conn []);
        hr ← smtp_tls_handshake (ev_host e) tls_verify (rl_tls_ca (relay (ev_cfg e))) (ev_tmo e) sz;
        if negb (hr =? 0) then
          vr ← gets (fun s => ssl_get_verify_result (o_net s) (cn_fd (o_conn s)));
          _ ← emit (EvTlsFail hr vr);
          mret (inl (handshake_class tls_verify hr vr))
        else
          r ← smtp_exchange (ev_tmo e) (ehlo_cmd (ev_cfg e));
          match r with
          | None => mret (inl SMTP_TEMPFAIL)
          | Some code => mret (match class_stop code with Some rc => inl rc | None => inr true end)
          end
      else if tls_verify then
        _ ← put_status sz (bs "STARTTLS refused (starttls-verify)"); mret (inl (refused_class (smtp_class code)))
      else dlg_fallback e (smtp_class code)
  end.

(** 3. STARTTLS, after an EHLO reply [caps]: a status, or [did_tls] *)
Definition dlg_starttls (e : Envelope) (caps : bytes) : prog Out (Z + bool) :=
  let tls_opp := tls_is (ev_cfg e) "starttls" in
  let tls_verify := tls_is (ev_cfg e) "starttls-verify" in
  if negb (tls_opp || tls_verify) then mret (inr false)
  else
    let advertised := smtp_reply_has_cap caps (bs "STARTTLS") in
    if tls_verify && negb advertised then
      _ ← put_status sz (bs "relay does not advertise STARTTLS (starttls-verify)"); mret (inl SMTP_PERMFAIL)
    else if advertised then dlg_upgrade e
    else dlg_fallback e SMTP_ERROR.

(** 4. AUTH PLAIN *)
Definition dlg_auth (e : Envelope) (did_tls : bool) : prog Out (option Z) :=
  let c := ev_cfg e in
  if rl_auth_enabled (relay c) then
    if negb (tls_is c "starttls-verify" && did_tls) then
      _ ← put_status sz (bs "refusing AUTH over unverified TLS (relay.tls must be " ++ quoted "starttls-verify" ++ bs ")");
      mret (Some SMTP_PERMFAIL)
    else
      cls ← smtp_auth_plain (ev_tmo e) (relay c);
      mret (if negb (cls =? SMTP_OK) then Some cls else None)
  else mret None.

(** 5 and 6. MAIL FROM, RCPT TO *)
Definition dlg_command (e : Envelope) (cmd : bytes) : prog Out (option Z) :=
  r ← smtp_exchange (ev_tmo e) cmd;
  mret (match r with None => Some SMTP_TEMPFAIL | Some code => class_stop code end).

(** A reply that must be one of [codes]. *)
Definition expect (codes : list Z) (code : Z) : option Z :=
  if existsb (Z.eqb code) codes then None
  else Some (if smtp_class code =? SMTP_OK then SMTP_ERROR else smtp_class code).

(** 7. DATA *)
Definition dlg_data (e : Envelope) : prog Out (option Z) :=
  r ← smtp_exchange (ev_tmo e) (bs "DATA" ++ CRLF);
  mret (match r with None => Some SMTP_TEMPFAIL | Some code => expect [354] code end).

(** 8 and 9. the body and the final reply *)
Definition dlg_body (e : Envelope) : prog Out (option Z) :=
  ok ← smtp_send_data (ev_dtmo e) (ev_body e);
  if negb ok then _ ← put_status sz (bs "data write failed"); mret (Some SMTP_TEMPFAIL)
  else
    r ← smtp_read_reply fuel (ev_tmo e) SMTP_MAX_LINE;
    match r with
    | None => _ ← put_status sz (bs "no reply after DATA"); mret (Some SMTP_TEMPFAIL)
    | Some (code, text) => _ ← put_status sz text; mret (expect [250; 251] code)
    end.

Definition smtp_dialogue (e : Envelope) : prog Out Z :=
  or_else (dlg_implicit e) (or_else (dlg_greeting e) (
    r ← dlg_ehlo e;
    match r with
    | inl rc => mret rc
    | inr caps =>
        r ← dlg_starttls e caps;
        match r with
        | inl rc => mret rc
        | inr did_tls =>
            or_else (dlg_auth e did_tls) (
            or_else (dlg_command e (ev_mail_cmd e)) (
            or_else (dlg_command e (ev_rcpt_cmd e)) (
            or_else (dlg_data e) (
            or_else (dlg_body e) (
              _ ← smtp_write_all (bs "QUIT" ++ CRLF) (ev_tmo e);
              mret SMTP_OK)))))
        end
    end)).

(** ** The entry points *)

(** One attempt: a connection and a dialogue over it. *)
Definition send_attempt (e : Envelope) (port : Z) : prog Out Z :=
  fd ← smtp_connect (ev_host e) port sz;
  match fd with
  | None => mret SMTP_TEMPFAIL
  | Some fd =>
      _ ← smtp_conn_init fd;
      rc ← smtp_dialogue e;
      _ ← smtp_conn_close (rc =? SMTP_OK);
      mret rc
  end.

(** The retry loop from [attempt]; it ends at [attempt = retries]. *)
Fixpoint attempt_loop (n : nat) (e : Envelope) (port attempt retries : Z) : prog Out Z :=
  match n with
  | O => running
  | S n' =>
      _ ← (if attempt >? 0 then
             _ ← emit (EvSleep (smtp_backoff_sec attempt)); net_do (fun m => sys_sleep m (smtp_backoff_sec attempt))
           else mret tt);
      rc ← send_attempt e port;
      if (rc =? SMTP_OK) || (rc =? SMTP_PERMFAIL) || (rc =? SMTP_ERROR) then mret rc
      else if attempt >=? retries then mret SMTP_TEMPFAIL
      else attempt_loop n' e port (u32 (attempt + 1)) retries
  end.

Definition smtp_out_send_host (c : Config) (host : bytes) (port : Z) (from to body : bytes) : prog Out Z :=
  _ ← put_status sz [];
  if is_nil host then _ ← put_status sz (bs "bad arguments"); mret SMTP_ERROR
  else if negb (smtp_tls_valid (rl_tls (relay c)) =? 0) then
    _ ← put_status sz (bs "invalid relay.tls (expected " ++ quoted "none" ++ bs ", " ++ quoted "starttls"
           ++ bs ", or " ++ quoted "starttls-verify" ++ bs ")"); mret SMTP_ERROR
  else if has_crlf from || has_crlf to then _ ← put_status sz (bs "invalid envelope address"); mret SMTP_ERROR
  else if is_nil to then _ ← put_status sz (bs "empty envelope address"); mret SMTP_ERROR
  else
    let tmo := if lim_cmd_timeout (limits c) =? 0 then SMTP_DEFAULT_TIMEOUT else lim_cmd_timeout (limits c) in
    let dtmo := if lim_data_timeout (limits c) =? 0 then tmo else lim_data_timeout (limits c) in
    match build_addr_cmd SMTP_MAX_LINE (bs "MAIL FROM:") from, build_addr_cmd SMTP_MAX_LINE (bs "RCPT TO:") to with
    | Some mail_cmd, Some rcpt_cmd =>
        let e := {| ev_cfg := c; ev_host := host; ev_tmo := tmo; ev_dtmo := dtmo; ev_body := body;
                    ev_mail_cmd := mail_cmd; ev_rcpt_cmd := rcpt_cmd |} in
        attempt_loop (S (Z.to_nat (rl_retries (relay c)))) e port 0 (rl_retries (relay c))
    | _, _ => _ ← put_status sz (bs "envelope address too long"); mret SMTP_ERROR
    end.

Definition smtp_out_send (c : Config) (from to body : bytes) : prog Out Z :=
  _ ← put_status sz [];
  match nonempty (rl_host (relay c)) with
  | None => _ ← put_status sz (bs "no relay host configured"); mret SMTP_ERROR
  | Some host => smtp_out_send_host c host (rl_port (relay c)) from to body
  end.

End Dialogue.
