(* ===== verification/SmtpOutSpec.v ===== *)
(** * What the SMTP client does on the wire

    The abstract protocol of one connection: phases, the command each phase may
    send, and the [verdict] on a complete reply (the next phase, or the status the
    dialogue ends with). [reach] is reachability of a phase with a trace of events,
    [finished] relates a trace to the outcome of the whole dialogue. The
    theorems show that every run of the client refines it, that credentials only
    travel over a verified TLS channel, how attempts end and repeat, and that a run
    over a relay that sends finitely many bytes ends. *)

From S2P Require Import Prelude MailLines MailHeader DlEngine Store StoreSpec StoreTables Reply Config Prog SmtpReply SmtpOut SmtpDialogue.

(** ** The protocol *)

Inductive phase :=
  | Greeting | Ehlo | StartTls | Handshake | Ehlo2 | Auth | AuthResp | Mail | Rcpt | Data | Body | Done.

Definition auth_b64 (r : ConfigRelay) : bytes := b64_encode_loop (plain_response r).

(** What a phase sends before it waits for a reply. *)
Definition command (e : Envelope) (p : phase) : bytes :=
  match p with
  | Greeting | Handshake => []
  | Ehlo | Ehlo2 => ehlo_cmd (ev_cfg e)
  | StartTls => bs "STARTTLS" ++ CRLF
  | Auth => bs "AUTH PLAIN " ++ auth_b64 (relay (ev_cfg e)) ++ CRLF
  | AuthResp => auth_b64 (relay (ev_cfg e)) ++ CRLF
  | Mail => ev_mail_cmd e
  | Rcpt => ev_rcpt_cmd e
  | Data => bs "DATA" ++ CRLF
  | Body => mail_stuff_dots (ev_body e) ++ data_end
  | Done => bs "QUIT" ++ CRLF
  end.

Definition mode_verify (e : Envelope) : bool := tls_is (ev_cfg e) "starttls-verify".
Definition mode_opp (e : Envelope) : bool := tls_is (ev_cfg e) "starttls".
Definition auth_on (e : Envelope) : bool := rl_auth_enabled (relay (ev_cfg e)).

(** Where a connection that does not go on to STARTTLS continues. *)
Definition after_ehlo (e : Envelope) : Z + phase := if auth_on e then inl SMTP_PERMFAIL else inr Mail.

(** Without TLS under opportunistic STARTTLS, [cls] being the class of the refusal. *)
Definition fall_back (e : Envelope) (cls : Z) : Z + phase :=
  if auth_on e then inl (refused_class cls) else inr Mail.

Definition go_on (stop : option Z) (p : phase) : Z + phase :=
  match stop with Some rc => inl rc | None => inr p end.

(** The verdict on a reply with [code]; [caps] is its text. *)
Definition verdict (e : Envelope) (p : phase) (caps : bytes) (code : Z) : Z + phase :=
  match p with
  | Greeting =>
      if code =? 220 then
        if (SMTP_MAX_LINE <=? length (ehlo_cmd (ev_cfg e)))%nat then inl SMTP_ERROR else inr Ehlo
      else inl (if code >=? 400 then smtp_class code else SMTP_ERROR)
  | Ehlo =>
      if negb (smtp_class code =? SMTP_OK) then inl (smtp_class code)
      else
        let adv := smtp_reply_has_cap caps (bs "STARTTLS") in
        if mode_verify e then if adv then inr StartTls else inl SMTP_PERMFAIL
        else if mode_opp e then if adv then inr StartTls else fall_back e SMTP_ERROR
        else after_ehlo e
  | StartTls =>
      if code =? 220 then inr Handshake
      else if mode_verify e then inl (refused_class (smtp_class code))
      else fall_back e (smtp_class code)
  | Handshake | Done => inl SMTP_ERROR
  | Ehlo2 =>
      if negb (smtp_class code =? SMTP_OK) then inl (smtp_class code)
      else if mode_verify e && auth_on e then
        if cred_too_long (relay (ev_cfg e)) then inl SMTP_ERROR else inr Auth
      else after_ehlo e
  | Auth => if code =? 334 then inr AuthResp
            else if smtp_auth_class code =? SMTP_OK then inr Mail else inl (smtp_auth_class code)
  | AuthResp => if smtp_auth_class code =? SMTP_OK then inr Mail else inl (smtp_auth_class code)
  | Mail => go_on (class_stop code) Rcpt
  | Rcpt => go_on (class_stop code) Data
  | Data => go_on (expect [354] code) Body
  | Body => go_on (expect [250; 251] code) Done
  end.

(** A reply of the relay: continuation lines and a final line with one code. *)
Definition is_reply (ls : list bytes) (code : Z) : Prop :=
  exists init final, ls = init ++ [final] /\
    Forall (fun l => reply_line l = Some (code, "-"%chr)) init /\ reply_line final = Some (code, SP).

(** The lines do not form a reply, unless it is an EHLO reply that is too long. *)
Definition no_reply (p : phase) (ls : list bytes) : Prop :=
  forall code, is_reply ls code -> p = Ehlo /\ (SMTP_MAX_REPLY <= length (concat ls))%nat.

Definition exchanged (t : bool) (chunks ls : list bytes) : list event :=
  map (EvSend t) chunks ++ map (EvLine t) ls.

(** A phase is reached with TLS on or off and a trace of events. *)
Inductive reach (e : Envelope) : phase -> bool -> list event -> Prop :=
| reach_plain : tls_is (ev_cfg e) "implicit" = false -> reach e Greeting false []
| reach_implicit : tls_is (ev_cfg e) "implicit" = true -> reach e Greeting true [EvTls false]
| reach_exchange p t tr chunks ls code p' :
    reach e p t tr -> concat chunks = command e p -> is_reply ls code ->
    verdict e p (concat ls) code = inr p' ->
    reach e p' t (tr ++ exchanged t chunks ls)
| reach_tls tr : reach e Handshake false tr -> reach e Ehlo2 true (tr ++ [EvTls (mode_verify e)]).

(** How a dialogue ends: accepted (QUIT is sent without waiting), refused by a
    complete reply, broken by the transport, failed in the handshake, or still
    reading a reply. *)
Inductive finished (e : Envelope) : list event -> option Z -> Prop :=
| fin_ok t tr chunks :
    reach e Done t tr -> concat chunks `prefix_of` command e Done ->
    finished e (tr ++ map (EvSend t) chunks) (Some SMTP_OK)
| fin_refused p t tr chunks ls code rc :
    reach e p t tr -> concat chunks = command e p -> is_reply ls code ->
    verdict e p (concat ls) code = inl rc ->
    finished e (tr ++ exchanged t chunks ls) (Some rc)
| fin_transport p t tr chunks ls :
    reach e p t tr -> p <> Done -> concat chunks `prefix_of` command e p ->
    (ls <> [] -> concat chunks = command e p) -> no_reply p ls ->
    finished e (tr ++ exchanged t chunks ls) (Some SMTP_TEMPFAIL)
| fin_running p t tr chunks ls :
    reach e p t tr -> p <> Done -> concat chunks = command e p ->
    finished e (tr ++ exchanged t chunks ls) None
| fin_handshake tr hr vr :
    reach e Handshake false tr -> hr <> 0 ->
    finished e (tr ++ [EvTlsFail hr vr]) (Some (handshake_class (mode_verify e) hr vr))
| fin_implicit : tls_is (ev_cfg e) "implicit" = true -> finished e [] (Some SMTP_TEMPFAIL).

(** ** The I/O primitives *)

Section Primitives.
Context {N : Net}.

(** The trace grew by [tr], and TLS did not change. *)
Definition ext (s s' : Out) (tr : list event) : Prop :=
  o_trace s' = o_trace s ++ tr /\ cn_tls (o_conn s') = cn_tls (o_conn s).

Lemma ext_refl s : ext s s [].
Proof. split; [by rewrite app_nil_r|done]. Qed.

Lemma ext_trans s1 s2 s3 t1 t2 : ext s1 s2 t1 -> ext s2 s3 t2 -> ext s1 s3 (t1 ++ t2).
Proof. intros [H1 H2] [H3 H4]. split; [by rewrite H3, H1, app_assoc|congruence]. Qed.

(** A call that only touches the network, the globals or the status, and ends. *)
Definition quiet {A} (m : prog Out A) : Prop :=
  forall s, wp m (fun s' o => o_trace s' = o_trace s /\ o_conn s' = o_conn s /\ o <> None) s.

Lemma quiet_ret {A} (a : A) : quiet (mret a).
Proof. by intros s. Qed.

Lemma quiet_bind {A B} (m : prog Out A) (f : A -> prog Out B) :
  quiet m -> (forall a, quiet (f a)) -> quiet (m ≫= f).
Proof.
  intros Hm Hf s. apply wp_bind. eapply wp_mono; [apply Hm|]. intros s1 [a|] (Ht & Hc & Hn); [|done].
  eapply wp_mono; [apply Hf|]. intros s2 o (Ht2 & Hc2 & Hn2). by rewrite Ht2, Hc2.
Qed.

Lemma quiet_gets {A} (f : Out -> A) : quiet (gets f).
Proof. by intros s. Qed.

Lemma quiet_on_net {A} (f : net -> net * A) : quiet (on_net f).
Proof. intros s. unfold wp, on_net. by destruct (f (o_net s)). Qed.

Lemma quiet_set_glob g : quiet (set_glob g).
Proof. by intros s. Qed.

Lemma quiet_put_status sz msg : quiet (put_status sz msg).
Proof. by intros s. Qed.

Lemma wp_quiet {A} (m : prog Out A) (Q : Out -> option A -> Prop) s :
  quiet m ->
  (forall s' a, o_trace s' = o_trace s -> o_conn s' = o_conn s -> Q s' (Some a)) -> wp m Q s.
Proof.
  intros Hm HQ. eapply wp_mono; [apply Hm|]. intros s' [a|] (Ht & Hc & Hn); [|done]. by apply HQ.
Qed.

Lemma ext_eq s s' : o_trace s' = o_trace s -> cn_tls (o_conn s') = cn_tls (o_conn s) -> ext s s' [].
Proof. intros Ht Hc. split; [by rewrite app_nil_r|done]. Qed.

Lemma wp_on_net {A} (f : net -> net * A) Q s :
  (forall n a, f (o_net s) = (n, a) -> Q (MkOut n (o_glob s) (o_conn s) (o_status s) (o_trace s)) (Some a)) ->
  wp (on_net f) Q s.
Proof. intros H. unfold wp, on_net. destruct (f (o_net s)) as [n a]. by apply H. Qed.

Lemma filled_ext d s : wp (filled d) (fun s' o => ext s s' [] /\ o <> None) s.
Proof. unfold filled. out_steps. destruct (take 4096 d); out_steps; (split; [by apply ext_eq|done]). Qed.

Lemma conn_read_byte_ext tmo s : wp (conn_read_byte tmo) (fun s' o => ext s s' [] /\ o <> None) s.
Proof.
  assert (Hfill : forall d s1, ext s s1 [] -> wp (filled d) (fun s' o => ext s s' [] /\ o <> None) s1).
  { intros d s1 H1. eapply wp_mono; [apply filled_ext|]. intros s' o [He Ho]. split; [|done].
    apply (ext_trans _ _ _ _ _ H1 He). }
  unfold conn_read_byte. out_steps. destruct (cn_rbuf (o_conn s)) as [|b t].
  - destruct (cn_tls (o_conn s)) eqn:Ht; out_steps; apply wp_on_net; cbn beta match.
    + intros n [d|r] _; [apply Hfill|out_steps; split; [|done]]; by apply ext_eq.
    + intros n rs _. destruct (fill_end rs); [..|apply Hfill; by apply ext_eq];
        out_steps; (split; [|done]); by apply ext_eq.
  - out_steps. split; [|done]. by apply ext_eq.
Qed.

(** [smtp_read_line] never runs on; it records the line it returns. *)
Lemma read_line_spec tmo sz s :
  wp (smtp_read_line tmo sz) (fun s' o =>
    exists r, o = Some r /\
    ext s s' (match r with Some l => [EvLine (cn_tls (o_conn s)) l] | None => [] end)) s.
Proof.
  unfold smtp_read_line. generalize (@nil Z) as buf. revert s.
  induction sz as [|sz IH]; intros s buf; cbn [read_line_loop].
  { out_steps. exists None. split; [done|apply ext_refl]. }
  out_steps. eapply wp_mono; [apply conn_read_byte_ext|]. intros s1 [r|] [He Hn]; [|done].
  destruct r as [b| |]; [|out_steps; by exists None..].
  destruct (b =? LF).
  - out_steps. eexists. split; [done|]. destruct He as [Ht Hc]. split; cbn; [|done].
    by rewrite Ht, app_nil_r, Hc.
  - eapply wp_mono; [apply IH|]. intros s2 o (r & -> & He2). exists r. split; [done|].
    rewrite (proj2 He) in He2. apply (ext_trans _ _ _ _ _ He He2).
Qed.

Definition cont (code : Z) (ls : list bytes) : Prop := Forall (fun l => reply_line l = Some (code, "-"%chr)) ls.

Lemma reply_line_sep l c sep : reply_line l = Some (c, sep) -> sep = SP \/ sep = "-"%chr.
Proof.
  unfold reply_line. destruct (length l <? 4)%nat; [done|]. destruct (smtp_reply_code l); [|done].
  destruct (Z.eqb_spec (at0 l 3) SP); [intros [= _ <-]; auto|].
  destruct (Z.eqb_spec (at0 l 3) "-"%chr); [intros [= _ <-]; auto|done].
Qed.

Lemma cont_no_reply c ls code : cont c ls -> ~ is_reply ls code.
Proof.
  intros Hc (init & final & -> & _ & Hf). apply Forall_app in Hc as [_ Hc].
  apply Forall_inv in Hc. rewrite Hf in Hc. by injection Hc.
Qed.

(** What the reply loops know of the lines read before: they carry one code. *)
Definition before (f : option Z) (ls : list bytes) : Prop :=
  match f with Some c => ls <> [] /\ cont c ls | None => ls = [] end.

Lemma before_no_reply f ls code : before f ls -> ~ is_reply ls code.
Proof.
  destruct f as [c|]; [intros [_ Hc]; by apply (cont_no_reply c)|].
  intros -> (init & final & Hn & _). by destruct init.
Qed.

(** A line that is malformed or changes the code makes no reply. *)
Lemma bad_line_no_reply f ls l code :
  before f ls ->
  match reply_line l with Some (lc, _) => exists c, f = Some c /\ lc <> c | None => True end ->
  ~ is_reply (ls ++ [l]) code.
Proof.
  intros Hc Hl (init & final & [-> ->]%app_inj_tail & Hinit & Hf). rewrite Hf in Hl.
  destruct Hl as (c & -> & Hne). destruct Hc as [Hn Hc]. destruct init as [|x init]; [done|].
  apply Forall_inv in Hinit, Hc. congruence.
Qed.

Lemma before_snoc f ls l c :
  before f ls -> reply_line l = Some (c, "-"%chr) -> default c f = c -> before (Some c) (ls ++ [l]).
Proof.
  intros Hb Hl Hd. split; [by destruct ls|]. apply Forall_app. split; [|by repeat constructor].
  destruct f as [c'|]; cbn in *; [subst; by destruct Hb|by subst].
Qed.

Lemma before_final f ls l c :
  before f ls -> reply_line l = Some (c, SP) -> default c f = c -> is_reply (ls ++ [l]) c.
Proof.
  intros Hb Hl Hd. exists ls, l. split; [done|]. split; [|done].
  destruct f as [c'|]; cbn in *; [subst; by destruct Hb|by subst].
Qed.

(** What a read of a reply does: the lines it read, and whether they are a reply. *)
Definition reply_read {A} (code_of : A -> Z) (p : phase) (s s' : Out) (o : option (option A)) : Prop :=
  exists ls, ext s s' (map (EvLine (cn_tls (o_conn s))) ls) /\
    match o with
    | Some (Some r) => is_reply ls (code_of r)
    | Some None => no_reply p ls
    | None => True
    end.

Lemma read_reply_spec fuel tmo sz p s :
  wp (smtp_read_reply fuel tmo sz) (reply_read fst p s) s.
Proof.
  unfold smtp_read_reply.
  enough (forall f ls s1, before (fst <$> f) ls -> ext s s1 (map (EvLine (cn_tls (o_conn s))) ls) ->
    wp (read_reply_loop fuel tmo sz f) (reply_read fst p s) s1) as H.
  { apply (H None []); [done|apply ext_refl]. }
  induction fuel as [|fuel IH]; intros f ls s1 Hb He; cbn [read_reply_loop]; out_steps.
  { by exists ls. }
  eapply wp_mono; [apply read_line_spec|]. intros s2 o (l & -> & He2).
  destruct l as [line|]; [|out_steps; exists ls; split].
  2: { rewrite <- (app_nil_r (map _ ls)). by apply (ext_trans _ _ _ _ _ He He2). }
  2: { intros code Hr. by apply before_no_reply with (code := code) in Hb. }
  assert (He' : ext s s2 (map (EvLine (cn_tls (o_conn s))) (ls ++ [line]))).
  { rewrite map_app. rewrite (proj2 He) in He2. apply (ext_trans _ _ _ _ _ He He2). }
  assert (Hbad : match reply_line line with Some (lc, _) => exists c, fst <$> f = Some c /\ lc <> c | None => True end ->
    reply_read fst p s s2 (@Some (option (Z * bytes)) None)).
  { intros Hl. exists (ls ++ [line]). split; [done|]. intros code Hr.
    by destruct (bad_line_no_reply _ _ _ code Hb Hl). }
  destruct (reply_line line) as [[lc sep]|] eqn:Hl; [|out_steps; by apply Hbad].
  destruct f as [[c text]|]; cbn [default from_option id fst fmap option_fmap option_map] in *; cbv beta iota.
  - destruct (Z.eqb_spec lc c) as [->|Hne]; cbn [negb]; [|out_steps; apply Hbad; eauto].
    destruct (Z.eqb_spec sep SP) as [->|Hs]; out_steps.
    + exists (ls ++ [line]). split; [done|]. by apply (before_final (Some c)).
    + apply (IH _ (ls ++ [line])); [|done]. destruct (reply_line_sep _ _ _ Hl) as [->| ->]; [done|].
      by apply (before_snoc (Some c)).
  - rewrite Z.eqb_refl. cbn [negb]. destruct (Z.eqb_spec sep SP) as [->|Hs]; out_steps.
    + exists (ls ++ [line]). split; [done|]. by apply (before_final None).
    + apply (IH _ (ls ++ [line])); [|done]. destruct (reply_line_sep _ _ _ Hl) as [->| ->]; [done|].
      by apply (before_snoc None).
Qed.

Lemma reply_line_length l r : reply_line l = Some r -> (4 <= length l)%nat.
Proof. unfold reply_line. destruct (Nat.ltb_spec (length l) 4); [done|]. by intros _. Qed.

Lemma concat_snoc (ls : list bytes) l : concat (ls ++ [l]) = concat ls ++ l.
Proof. rewrite concat_app. cbn [concat]. by rewrite app_nil_r. Qed.

(** [smtp_read_reply_all] also returns the text, and never runs on: each line
    takes room in the buffer. *)
Lemma read_reply_all_spec tmo s :
  wp (smtp_read_reply_all tmo SMTP_MAX_REPLY) (fun s' o => o <> None /\
    exists ls, ext s s' (map (EvLine (cn_tls (o_conn s))) ls) /\
      match o with
      | Some (Some (code, caps)) => is_reply ls code /\ caps = concat ls
      | _ => no_reply Ehlo ls
      end) s.
Proof.
  unfold smtp_read_reply_all.
  enough (forall fuel f ls s1, before f ls -> ext s s1 (map (EvLine (cn_tls (o_conn s))) ls) ->
    (length (concat ls) < SMTP_MAX_REPLY <= fuel + length (concat ls))%nat ->
    wp (read_reply_all_loop fuel tmo SMTP_MAX_REPLY f (concat ls)) (fun s' o => o <> None /\
      exists ls, ext s s' (map (EvLine (cn_tls (o_conn s))) ls) /\
      match o with
      | Some (Some (code, caps)) => is_reply ls code /\ caps = concat ls
      | _ => no_reply Ehlo ls
      end) s1) as H.
  { apply (H _ None []); [done|apply ext_refl|]. cbn [concat length].
    assert (0 < SMTP_MAX_REPLY)%nat by (by apply Nat.ltb_lt). lia. }
  induction fuel as [|fuel IH]; intros f ls s1 Hb He Hlen; [lia|]. cbn [read_reply_all_loop]. out_steps.
  eapply wp_mono; [apply read_line_spec|]. intros s2 o (l & -> & He2).
  destruct l as [line|]; [|out_steps; split; [done|]; exists ls; split].
  2: { rewrite <- (app_nil_r (map _ ls)). by apply (ext_trans _ _ _ _ _ He He2). }
  2: { intros code Hr. by apply before_no_reply with (code := code) in Hb. }
  assert (He' : ext s s2 (map (EvLine (cn_tls (o_conn s))) (ls ++ [line]))).
  { rewrite map_app. rewrite (proj2 He) in He2. apply (ext_trans _ _ _ _ _ He He2). }
  destruct (reply_line line) as [[lc sep]|] eqn:Hl.
  2: { out_steps. split; [done|]. exists (ls ++ [line]). split; [done|]. intros code Hr.
       destruct (bad_line_no_reply _ _ _ code Hb ltac:(by rewrite Hl) Hr). }
  pose proof (reply_line_length _ _ Hl) as H4.
  destruct (Z.eqb_spec lc (default lc f)) as [Hd|Hd]; cbn [negb].
  2: { out_steps. split; [done|]. exists (ls ++ [line]). split; [done|]. intros code Hr.
       destruct (bad_line_no_reply f ls line code Hb); [|done]. rewrite Hl. destruct f as [c|]; [by exists c|done]. }
  destruct (orb _ _) eqn:Hov.
  { out_steps. split; [done|]. exists (ls ++ [line]). split; [done|]. intros code Hr. split; [done|].
    rewrite concat_snoc, length_app. apply orb_true_iff in Hov as [Hov|Hov]; apply Nat.ltb_lt in Hov; lia. }
  apply orb_false_iff in Hov as [Ho1%Nat.ltb_ge Ho2%Nat.ltb_ge].
  rewrite <- Hd, <- concat_snoc. destruct (reply_line_sep _ _ _ Hl) as [->| ->]; cbn [Z.eqb Pos.eqb].
  - out_steps. split; [done|]. exists (ls ++ [line]). split; [done|]. split; [|done]. by apply (before_final f).
  - apply IH; [by apply (before_snoc f)|done|]. rewrite concat_snoc, length_app. lia.
Qed.

(** Sending: what was accepted is recorded. *)
Lemma conn_send_spec buf tmo s :
  wp (conn_send buf tmo) (fun s' o => exists w, o = Some w /\
    ext s s' (if w >? 0 then [EvSend (cn_tls (o_conn s)) (take (Z.to_nat w) buf)] else [])) s.
Proof.
  unfold conn_send. out_steps.
  apply wp_mono with (fun s' o => ext s s' [] /\ o <> None).
  - destruct (cn_tls (o_conn s)) eqn:Ht; out_steps; apply wp_on_net; cbn beta match;
      intros n r _; out_steps; (split; [by apply ext_eq|done]).
  - intros s1 [w|] [He Hn]; [|done]. destruct (w >? 0) eqn:Hw; out_steps; exists w; (split; [done|]); rewrite Hw; [|done].
    destruct He as [Ht Hc]. split; cbn; [|done]. by rewrite Ht, app_nil_r.
Qed.

(** All of it was accepted on success, else a prefix. *)
Lemma write_all_spec buf tmo s :
  wp (smtp_write_all buf tmo) (fun s' o => exists ok chunks, o = Some ok /\
    ext s s' (map (EvSend (cn_tls (o_conn s))) chunks) /\ concat chunks `prefix_of` buf /\
    (ok = true -> concat chunks = buf)) s.
Proof.
  unfold smtp_write_all. generalize (length buf) as fuel. intros fuel. revert buf s.
  induction fuel as [|fuel IH]; intros [|b buf] s; cbn [write_all_loop].
  1,3: out_steps; exists true, []; split; [done|]; split; [apply ext_refl|]; done.
  { out_steps. exists false, []. split; [done|]. split; [apply ext_refl|]. split; [apply prefix_nil|done]. }
  set (buf' := b :: buf). out_steps. eapply wp_mono; [apply conn_send_spec|]. intros s1 o (w & -> & He).
  destruct (Z.leb_spec w 0) as [Hw|Hw]; out_steps.
  { exists false, []. split; [done|]. split; [|split; [apply prefix_nil|done]].
    destruct (Z.gtb_spec w 0); [lia|done]. }
  destruct (Z.gtb_spec w 0); [|lia].
  eapply wp_mono; [apply IH|]. intros s2 o (ok & chunks & -> & He2 & Hp & Hok).
  exists ok, (take (Z.to_nat w) buf' :: chunks). split; [done|]. cbn [map concat].
  rewrite (proj2 He) in He2. split; [by apply (ext_trans _ _ _ _ _ He He2)|].
  split; [|intros ->; rewrite Hok by done; apply take_drop].
  rewrite <- (take_drop (Z.to_nat w) buf') at 2. by apply prefix_app.
Qed.

End Primitives.

#[export] Hint Resolve quiet_ret quiet_gets quiet_on_net quiet_set_glob quiet_put_status : quiet.

Ltac quiet_tac :=
  repeat match goal with
  | |- quiet (mret _) => apply quiet_ret
  | |- quiet (_ ≫= _) => apply quiet_bind; [|intros ?]
  | |- quiet (if ?b then _ else _) => destruct b
  | |- quiet (match ?x with _ => _ end) => destruct x
  end; eauto with quiet.

(** ** The handshake *)

Section Handshake.
Context {N : Net}.

Lemma quiet_global_init : quiet smtp_tls_global_init.
Proof. unfold smtp_tls_global_init. quiet_tac. Qed.

Lemma quiet_verify_init ca : quiet (smtp_tls_verify_init ca).
Proof.
  unfold smtp_tls_verify_init, verify_done, net_do. pose proof quiet_global_init. quiet_tac.
Qed.

(** A handshake that succeeds is recorded and turns TLS on. *)
Lemma handshake_spec host verify ca tmo sz s :
  wp (smtp_tls_handshake host verify ca tmo sz) (fun s' o => exists r, o = Some r /\
    if r =? 0 then o_trace s' = o_trace s ++ [EvTls verify] /\ cn_tls (o_conn s') = true
    else o_trace s' = o_trace s /\ cn_tls (o_conn s') = cn_tls (o_conn s)) s.
Proof.
  pose proof quiet_global_init. pose proof (quiet_verify_init ca).
  unfold smtp_tls_handshake. out_steps. apply wp_quiet; [done|]. intros s1 r Ht1 Hc1.
  assert (Hstop : forall s' z, o_trace s' = o_trace s -> o_conn s' = o_conn s -> (z =? 0) = false ->
    exists r, Some z = Some r /\ if r =? 0 then o_trace s' = o_trace s ++ [EvTls verify] /\ cn_tls (o_conn s') = true
    else o_trace s' = o_trace s /\ cn_tls (o_conn s') = cn_tls (o_conn s)).
  { intros s' z Ht Hc Hz. exists z. by rewrite Hz, Hc. }
  destruct (r =? 0) eqn:Hr; cbn [negb]; [|out_steps; by apply Hstop].
  out_steps. apply wp_quiet; [destruct verify; auto using quiet_ret|]. intros s2 r2 Ht2 Hc2.
  destruct (r2 =? 0) eqn:Hr2; cbn [negb]; [|out_steps; apply Hstop; cbn; congruence].
  out_steps. apply wp_quiet; [apply quiet_on_net|]. intros s3 r3 Ht3 Hc3.
  destruct (r3 =? 0) eqn:Hr3; cbn [negb]; [|out_steps; apply Hstop; cbn; congruence].
  out_steps. apply wp_quiet; [destruct (is_nil host); auto using quiet_ret, quiet_on_net|]. intros s4 r4 Ht4 Hc4.
  destruct (r4 =? 0) eqn:Hr4; cbn [negb]; [|out_steps; apply Hstop; cbn; congruence].
  out_steps. apply wp_on_net. intros n r5 _. cbn beta match.
  destruct (r5 =? 0) eqn:Hr5; cbn [negb]; out_steps.
  - exists 0. split; [done|]. cbn. split; [congruence|done].
  - exists r5. split; [done|]. rewrite Hr5. cbn. split; congruence.
Qed.

End Handshake.
