(* ===== verification/SmtpDialogueSpec.v ===== *)
(** * The dialogue refines the protocol

    Each step of [smtp_dialogue] moves along [reach] or ends as [finished] says.
    [At], [Replied] and [Ends] are the assertions on the state of a run that began
    with the trace [base]. *)

From S2P Require Import Prelude MailLines MailHeader DlEngine Store StoreSpec StoreTables Reply Config Prog SmtpReply SmtpOut SmtpDialogue SmtpOutSpec.

(** ** What reachability implies for security *)

Lemma tls_is_other c m n : beq (bs m) (bs n) = false -> tls_is c m = true -> tls_is c n = false.
Proof. unfold tls_is. destruct (rl_tls _) as [t|]; [|done]. by intros Hb ->%beq_spec. Qed.

Lemma modes_exclusive e : mode_opp e && mode_verify e = false.
Proof.
  unfold mode_opp, mode_verify. destruct (tls_is _ "starttls") eqn:H; [|done].
  by rewrite (tls_is_other _ "starttls" "starttls-verify").
Qed.

Lemma upgrade_not_implicit e : mode_verify e = true \/ mode_opp e = true -> tls_is (ev_cfg e) "implicit" = false.
Proof. by intros [H|H]; eapply tls_is_other; [|exact H| |exact H]. Qed.

Definition verified_tls (e : Envelope) (t : bool) (tr : list event) : Prop :=
  mode_verify e = true /\ t = true /\ EvTls true ∈ tr.

(** TLS and its verification in each phase: in a mode that must verify, and
    whenever AUTH is on, the envelope phases need a verified channel. *)
Definition secure (e : Envelope) (p : phase) (t : bool) (tr : list event) : Prop :=
  match p with
  | Greeting | Ehlo => t = tls_is (ev_cfg e) "implicit"
  | StartTls | Handshake => t = false
  | Ehlo2 => t = true /\ (mode_verify e = true -> verified_tls e t tr)
  | Auth | AuthResp => auth_on e = true /\ verified_tls e t tr
  | _ => auth_on e = true \/ mode_verify e = true -> verified_tls e t tr
  end.

Lemma verified_app e t tr tr' : verified_tls e t tr -> verified_tls e t (tr ++ tr').
Proof. intros (? & ? & ?). split; [done|]. split; [done|]. set_solver. Qed.

Lemma secure_step e p t tr tr' caps code p' :
  secure e p t tr -> verdict e p caps code = inr p' -> secure e p' t (tr ++ tr').
Proof.
  intros Hs Hv. destruct p; cbn [secure verdict] in *; unfold after_ehlo, fall_back, go_on in Hv;
    repeat split_match_in Hv; try discriminate; injection Hv as <-; cbn [secure];
    destruct (auth_on e) eqn:?, (mode_verify e) eqn:?; try congruence;
    try (rewrite Hs; apply upgrade_not_implicit; auto; fail);
    intuition (eauto using verified_app; try congruence).
Qed.

Lemma reach_secure e p t tr : reach e p t tr -> secure e p t tr.
Proof.
  induction 1 as [Hm|Hm|p t tr chunks ls code p' Hr IH Hc Hl Hv|tr Hr IH]; cbn [secure] in *.
  - done.
  - done.
  - by eapply secure_step.
  - split; [done|]. intros Hm. split; [done|]. split; [done|]. rewrite Hm. set_solver.
Qed.

Section Refinement.
Context {N : Net}.
Variables (fuel sz : nat) (e : Envelope) (base : list event).

(** The client stands in a phase, ready to send its command. *)
Definition At (p : phase) (s : Out) : Prop :=
  exists tr, o_trace s = base ++ tr /\ reach e p (cn_tls (o_conn s)) tr.

(** The command was sent and a whole reply read. *)
Definition Replied (p : phase) (code : Z) (ls : list bytes) (s : Out) : Prop :=
  exists tr chunks, o_trace s = base ++ tr ++ exchanged (cn_tls (o_conn s)) chunks ls /\
    reach e p (cn_tls (o_conn s)) tr /\ concat chunks = command e p /\ is_reply ls code.

(** The dialogue is over with this outcome. *)
Definition Ends (s : Out) (o : option Z) : Prop :=
  exists tr, o_trace s = base ++ tr /\ finished e tr o.

Lemma replied_next p code ls s p' : Replied p code ls s -> verdict e p (concat ls) code = inr p' -> At p' s.
Proof. intros (tr & chunks & Ht & Hr & Hc & Hl) Hv. eexists. split; [exact Ht|]. by eapply reach_exchange. Qed.

Lemma replied_stop p code ls s rc : Replied p code ls s -> verdict e p (concat ls) code = inl rc -> Ends s (Some rc).
Proof. intros (tr & chunks & Ht & Hr & Hc & Hl) Hv. eexists. split; [exact Ht|]. by eapply fin_refused. Qed.

(** What follows a complete reply is what the verdict says. *)
Lemma replied_go p code ls s stop p' : Replied p code ls s -> verdict e p (concat ls) code = go_on stop p' ->
  match stop with Some rc => Ends s (Some rc) | None => At p' s end.
Proof. intros Hr Hv. destruct stop; [by eapply replied_stop|by eapply replied_next]. Qed.

(** What a step that may stop the dialogue establishes. *)
Definition step_to (P : Out -> Prop) (s : Out) (o : option (option Z)) : Prop :=
  match o with Some (Some rc) => Ends s (Some rc) | Some None => P s | None => Ends s None end.

Definition step_sum {A} (P : A -> Out -> Prop) (s : Out) (o : option (Z + A)) : Prop :=
  match o with Some (inl rc) => Ends s (Some rc) | Some (inr a) => P a s | None => Ends s None end.

Lemma wp_or_else m k P s :
  wp m (step_to P) s -> (forall s', P s' -> wp k Ends s') -> wp (or_else m k) Ends s.
Proof.
  intros Hm Hk. unfold or_else. out_steps. eapply wp_mono; [exact Hm|].
  intros s1 [[rc|]|] H; [by out_steps|by apply Hk|done].
Qed.

(** A reply read after [chunks] were sent in phase [p]. *)
Definition Sent (p : phase) (chunks : list bytes) (s : Out) : Prop :=
  exists tr, o_trace s = base ++ tr ++ map (EvSend (cn_tls (o_conn s))) chunks /\
    reach e p (cn_tls (o_conn s)) tr /\ p <> Done.

Lemma sent_lines p chunks ls s s' :
  Sent p chunks s -> ext s s' (map (EvLine (cn_tls (o_conn s))) ls) ->
  exists tr, o_trace s' = base ++ tr ++ exchanged (cn_tls (o_conn s')) chunks ls /\
    reach e p (cn_tls (o_conn s')) tr /\ p <> Done.
Proof.
  intros (tr & Ht & Hr & Hp) [Ht2 Hc2]. exists tr. unfold exchanged. rewrite Hc2, Ht2, Ht, <- !app_assoc. done.
Qed.

(** What [reply_read] gives, as an assertion. *)
Lemma sent_read {A} (code_of : A -> Z) p chunks s s' o :
  Sent p chunks s -> concat chunks = command e p -> reply_read code_of p s s' o ->
  match o with
  | Some (Some r) => exists ls, Replied p (code_of r) ls s'
  | Some None => Ends s' (Some SMTP_TEMPFAIL)
  | None => Ends s' None
  end.
Proof.
  intros Hs Hc (ls & He & Ho). destruct (sent_lines _ _ _ _ _ Hs He) as (tr & Ht & Hr & Hp).
  destruct o as [[r|]|].
  - exists ls, tr, chunks. done.
  - eexists. split; [exact Ht|]. eapply fin_transport; try done. by rewrite Hc.
  - eexists. split; [exact Ht|]. by eapply fin_running.
Qed.

(** A command that could not be sent in full. *)
Lemma sent_partial p chunks s :
  Sent p chunks s -> concat chunks `prefix_of` command e p -> Ends s (Some SMTP_TEMPFAIL).
Proof.
  intros (tr & Ht & Hr & Hp) Hc. eexists. split; [exact Ht|].
  rewrite <- (app_nil_r (map _ chunks)). apply (fin_transport e p _ tr chunks []); try done.
  intros code (i & f & Hn & _). by destruct i.
Qed.

Lemma at_sent p s s' chunks :
  At p s -> p <> Done -> ext s s' (map (EvSend (cn_tls (o_conn s))) chunks) -> Sent p chunks s'.
Proof.
  intros (tr & Ht & Hr) Hp [Ht2 Hc2]. exists tr. rewrite Hc2. split; [|done]. by rewrite Ht2, Ht, <- app_assoc.
Qed.

(** [smtp_exchange] in a phase whose command it sends. *)
Lemma exchange_at p tmo cmd s : At p s -> p <> Done -> command e p = cmd ->
  wp (smtp_exchange fuel sz tmo cmd) (fun s' o =>
    match o with
    | Some (Some code) => exists ls, Replied p code ls s'
    | Some None => Ends s' (Some SMTP_TEMPFAIL)
    | None => Ends s' None
    end) s.
Proof.
  intros Hat Hp Hcmd. unfold smtp_exchange. out_steps. eapply wp_mono; [apply write_all_spec|].
  intros s1 o (ok & chunks & -> & He & Hpre & Hok). pose proof (at_sent _ _ _ _ Hat Hp He) as Hs.
  rewrite <- Hcmd in *. destruct ok; cbn [negb]; out_steps.
  - eapply wp_mono; [apply (read_reply_spec fuel tmo SMTP_MAX_LINE p)|]. intros s2 o2 Hr.
    pose proof (sent_read _ _ _ _ _ _ Hs (Hok eq_refl) Hr) as H.
    destruct o2 as [[[code text]|]|]; out_steps; exact H.
  - exact (sent_partial _ _ _ Hs Hpre).
Qed.

(** ** The steps *)

Lemma implicit_step s : o_trace s = base -> cn_tls (o_conn s) = false ->
  wp (dlg_implicit sz e) (step_to (At Greeting)) s.
Proof.
  intros Ht Hc. unfold dlg_implicit. destruct (tls_is (ev_cfg e) "implicit") eqn:Hm; out_steps.
  - eapply wp_mono; [apply handshake_spec|]. intros s' o (r & -> & Hr). out_steps.
    destruct (r =? 0) eqn:Hz; cbn [negb].
    + destruct Hr as [Ht2 Hc2]. exists [EvTls false]. rewrite Hc2, Ht2, Ht. split; [done|]. by apply reach_implicit.
    + destruct Hr as [Ht2 Hc2]. exists []. rewrite app_nil_r. split; [congruence|]. by apply fin_implicit.
  - exists []. rewrite app_nil_r, Hc. split; [done|]. by apply reach_plain.
Qed.

Lemma greeting_step s : At Greeting s ->
  wp (dlg_greeting fuel sz e) (step_to (fun s' => exists ls, Replied Greeting 220 ls s')) s.
Proof.
  intros Hat. unfold dlg_greeting. out_steps. eapply wp_mono; [apply (read_reply_spec _ _ _ Greeting)|].
  intros s1 o Hr. assert (Hs : Sent Greeting [] s) by (eapply at_sent; [exact Hat|done|apply ext_refl]).
  pose proof (sent_read _ _ _ _ _ _ Hs eq_refl Hr) as H.
  destruct o as [[[code text]|]|]; [|by out_steps..]. destruct H as [ls H]. out_steps.
  destruct (Z.eqb_spec code 220) as [->|Hn]; cbn [negb]; [exists ls; exact H|].
  apply (replied_stop Greeting code ls); [exact H|]. cbn. by rewrite (proj2 (Z.eqb_neq _ _) Hn).
Qed.

Lemma ehlo_step s ls0 : Replied Greeting 220 ls0 s ->
  wp (dlg_ehlo sz e) (step_sum (fun caps s' => exists code ls, Replied Ehlo code ls s' /\
    caps = concat ls /\ smtp_class code = SMTP_OK)) s.
Proof.
  intros Hrep. unfold dlg_ehlo. destruct (SMTP_MAX_LINE <=? _)%nat eqn:Hlong.
  { out_steps. apply (replied_stop Greeting 220 ls0); [exact Hrep|]. cbn [verdict Z.eqb Pos.eqb]. by rewrite Hlong. }
  assert (Hat : At Ehlo s).
  { apply (replied_next Greeting 220 ls0); [done|]. cbn [verdict Z.eqb Pos.eqb]. by rewrite Hlong. }
  out_steps. eapply wp_mono; [apply write_all_spec|].
  intros s1 o (ok & chunks & -> & He & Hpre & Hok).
  pose proof (at_sent Ehlo _ _ _ Hat ltac:(done) He) as Hs.
  destruct ok; cbn [negb]; out_steps; [|exact (sent_partial Ehlo _ _ Hs Hpre)].
  eapply wp_mono; [apply read_reply_all_spec|]. intros s2 o2 (Hn & ls & He2 & Ho).
  destruct (sent_lines _ _ _ _ _ Hs He2) as (tr & Ht & Hr & Hp).
  destruct o2 as [[[code caps]|]|]; out_steps; [|eexists; split; [exact Ht|]; eapply fin_transport; eauto|done].
  destruct Ho as [Hl ->]. assert (Hrep2 : Replied Ehlo code ls s2) by (exists tr, chunks; auto).
  unfold class_stop. destruct (smtp_class code =? SMTP_OK) eqn:Hcl; cbn [negb].
  - exists code, ls. split; [exact Hrep2|]. split; [done|]. by apply Z.eqb_eq.
  - apply (replied_stop Ehlo code ls); [exact Hrep2|]. cbn [verdict]. by rewrite Hcl.
Qed.

(** After STARTTLS was dealt with a reply is pending whose verdict is this. *)
Definition starttls_done (did_tls : bool) (s : Out) : Prop :=
  exists p code ls, Replied p code ls s /\ verdict e p (concat ls) code =
    if did_tls && mode_verify e && auth_on e then
      if cred_too_long (relay (ev_cfg e)) then inl SMTP_ERROR else inr Auth
    else after_ehlo e.

(** Without TLS a reply is pending whose verdict is that of [fall_back]. *)
Lemma fallback_step p code ls cls s :
  mode_verify e = false -> mode_opp e = true ->
  Replied p code ls s -> verdict e p (concat ls) code = fall_back e cls ->
  wp (dlg_fallback sz e cls) (step_sum starttls_done) s.
Proof.
  intros Hver Hopp Hrep Hv. unfold dlg_fallback, fall_back in *. fold (mode_opp e) (auth_on e). rewrite Hopp.
  cbn [andb]. destruct (auth_on e) eqn:Ha; out_steps.
  - by apply (replied_stop p code ls).
  - exists p, code, ls. split; [exact Hrep|]. cbn [andb]. unfold after_ehlo. by rewrite Ha.
Qed.

Lemma upgrade_step s : mode_verify e || mode_opp e = true -> At StartTls s ->
  wp (dlg_upgrade fuel sz e) (step_sum starttls_done) s.
Proof.
  intros Hmode Hat. unfold dlg_upgrade. fold (mode_verify e). out_steps.
  eapply wp_mono; [by apply (exchange_at StartTls)|].
  intros s1 [[code|]|] H; [|by out_steps|done]. destruct H as [ls Hrep].
  destruct (Z.eqb_spec code 220) as [->|Hn].
  - assert (Hhs : At Handshake s1) by (by apply (replied_next StartTls 220 ls)).
    out_steps. eapply wp_mono; [apply handshake_spec|]. cbn [o_conn o_trace with_rbuf cn_tls].
    intros s2 o (r & -> & Hr). destruct Hhs as (tr & Ht & Hre).
    assert (Htls : cn_tls (o_conn s1) = false).
    { by apply reach_secure in Hre. }
    rewrite Htls in Hre. destruct (r =? 0) eqn:Hz; cbn [negb].
    + destruct Hr as [Ht2 Hc2]. assert (Hat2 : At Ehlo2 s2).
      { exists (tr ++ [EvTls (mode_verify e)]). rewrite Hc2, Ht2, Ht, <- app_assoc. split; [done|]. by apply reach_tls. }
      out_steps. eapply wp_mono; [by apply (exchange_at Ehlo2)|].
      intros s3 [[code|]|] H; [|by out_steps|done]. destruct H as [ls2 Hrep2]. out_steps. unfold class_stop.
      destruct (smtp_class code =? SMTP_OK) eqn:Hcl; cbn [negb].
      * exists Ehlo2, code, ls2. split; [done|]. cbn [verdict andb]. by rewrite Hcl.
      * apply (replied_stop Ehlo2 code ls2); [done|]. cbn [verdict]. by rewrite Hcl.
    + destruct Hr as [Ht2 Hc2]. out_steps. eexists. split; [cbn [o_trace]; by rewrite Ht2, Ht, <- app_assoc|].
      apply fin_handshake; [done|]. by apply Z.eqb_neq.
  - assert (Hv : verdict e StartTls (concat ls) code =
      if mode_verify e then inl (refused_class (smtp_class code)) else fall_back e (smtp_class code)).
    { cbn [verdict]. by rewrite (proj2 (Z.eqb_neq _ _) Hn). }
    destruct (mode_verify e) eqn:Hver; [out_steps; by apply (replied_stop StartTls code ls)|].
    by apply (fallback_step StartTls code ls).
Qed.

Lemma starttls_step s code ls :
  Replied Ehlo code ls s -> smtp_class code = SMTP_OK ->
  wp (dlg_starttls fuel sz e (concat ls)) (step_sum starttls_done) s.
Proof.
  intros Hrep Hcl. unfold dlg_starttls. fold (mode_opp e) (mode_verify e).
  assert (Hv : verdict e Ehlo (concat ls) code =
    let adv := smtp_reply_has_cap (concat ls) (bs "STARTTLS") in
        if mode_verify e then if adv then inr StartTls else inl SMTP_PERMFAIL
        else if mode_opp e then if adv then inr StartTls else fall_back e SMTP_ERROR
        else after_ehlo e) by (cbn [verdict]; by rewrite Hcl).
  cbv zeta in Hv |- *. pose proof (modes_exclusive e) as Hex.
  destruct (smtp_reply_has_cap (concat ls) (bs "STARTTLS")) eqn:Hadv;
    destruct (mode_verify e) eqn:Hver, (mode_opp e) eqn:Hopp; try done; cbn [orb negb andb] in *.
  1,2: apply upgrade_step; [by rewrite Hver, ?Hopp|by apply (replied_next Ehlo code ls)].
  - out_steps. by exists Ehlo, code, ls.
  - out_steps. by apply (replied_stop Ehlo code ls).
  - by apply (fallback_step Ehlo code ls).
  - out_steps. by exists Ehlo, code, ls.
Qed.

(** An AUTH reply that is not 334 decides. *)
Lemma auth_decided p code ls s :
  Replied p code ls s ->
  verdict e p (concat ls) code =
    (if smtp_auth_class code =? SMTP_OK then inr Mail else inl (smtp_auth_class code)) ->
  step_to (At Mail) s (Some (if negb (smtp_auth_class code =? SMTP_OK) then Some (smtp_auth_class code) else None)).
Proof.
  intros Hrep Hv. destruct (smtp_auth_class code =? SMTP_OK) eqn:Hc; cbn [negb step_to].
  - by eapply replied_next.
  - by eapply replied_stop.
Qed.

Lemma b64_room (s : bytes) : len s <= SIZE_MAX / 2 ->
  smtp_b64_encode s ((len s + 2) / 3 * 4 + 1) = Some (b64_encode_loop s).
Proof.
  intros H. unfold smtp_b64_encode. destruct (Z.gtb_spec (len s) (SIZE_MAX / 2)); [lia|].
  by rewrite Z.ltb_irrefl.
Qed.

Lemma cred_short r : cred_too_long r = false -> len (plain_response r) <= SIZE_MAX / 2.
Proof.
  unfold cred_too_long, plain_response. intros [_ H%Nat.ltb_ge]%orb_false_iff. cbn [length].
  rewrite length_app. cbn [length]. assert (Z.of_nat SMTP_MAX_CRED_LEN = 4096) as Hm by reflexivity.
  assert (SIZE_MAX / 2 = 9223372036854775807) as -> by reflexivity. lia.
Qed.

Lemma auth_step s did_tls : starttls_done did_tls s -> wp (dlg_auth fuel sz e did_tls) (step_to (At Mail)) s.
Proof.
  intros (p & code & ls & Hrep & Hv). unfold dlg_auth. fold (auth_on e) (mode_verify e).
  unfold after_ehlo in Hv. destruct (auth_on e) eqn:Ha.
  2: { out_steps. rewrite andb_false_r in Hv. by apply (replied_next p code ls). }
  rewrite andb_true_r, andb_comm in Hv. destruct (mode_verify e && did_tls) eqn:Hd; cbn [negb].
  2: { out_steps. by apply (replied_stop p code ls). }
  unfold smtp_auth_plain. destruct (cred_too_long _) eqn:Hlong.
  { out_steps. by apply (replied_stop p code ls). }
  rewrite (b64_room _ (cred_short _ Hlong)). fold (auth_b64 (relay (ev_cfg e))).
  assert (Hat : At Auth s) by (by apply (replied_next p code ls)).
  out_steps. eapply wp_mono; [by apply (exchange_at Auth)|].
  intros s1 [[c1|]|] H; [|by out_steps|done]. destruct H as [ls1 Hrep1].
  destruct (Z.eqb_spec c1 334) as [->|Hn]; out_steps.
  - assert (Hat1 : At AuthResp s1) by (by apply (replied_next Auth 334 ls1)).
    eapply wp_mono; [by apply (exchange_at AuthResp)|].
    intros s2 [[c2|]|] H; [|by out_steps|done]. destruct H as [ls2 Hrep2]. out_steps.
    by apply (auth_decided AuthResp c2 ls2).
  - apply (auth_decided Auth c1 ls1); [done|]. cbn [verdict]. by rewrite (proj2 (Z.eqb_neq _ _) Hn).
Qed.

Lemma command_step p p' cmd s :
  (forall caps code, verdict e p caps code = go_on (class_stop code) p') -> p <> Done -> command e p = cmd ->
  At p s -> wp (dlg_command fuel sz e cmd) (step_to (At p')) s.
Proof.
  intros Hv Hp Hc Hat. unfold dlg_command. out_steps. eapply wp_mono; [by apply (exchange_at p)|].
  intros s1 [[code|]|] H; [|by out_steps|done]. destruct H as [ls Hrep]. out_steps.
  pose proof (replied_go _ _ _ _ _ _ Hrep (Hv _ _)) as Hgo. by destruct (class_stop code).
Qed.

Lemma data_step s : At Data s -> wp (dlg_data fuel sz e) (step_to (At Body)) s.
Proof.
  intros Hat. unfold dlg_data. out_steps. eapply wp_mono; [by apply (exchange_at Data)|].
  intros s1 [[code|]|] H; [|by out_steps|done]. destruct H as [ls Hrep]. out_steps.
  pose proof (replied_go _ _ _ _ (expect [354] code) Body Hrep eq_refl) as Hgo. by destruct (expect _ code).
Qed.

(** The payload is sent as one piece of text, in two writes. *)
Lemma send_data_spec dtmo body s :
  wp (smtp_send_data dtmo body) (fun s' o => exists ok chunks, o = Some ok /\
    ext s s' (map (EvSend (cn_tls (o_conn s))) chunks) /\
    concat chunks `prefix_of` mail_stuff_dots body ++ data_end /\
    (ok = true -> concat chunks = mail_stuff_dots body ++ data_end)) s.
Proof.
  unfold smtp_send_data. out_steps. eapply wp_mono; [apply write_all_spec|].
  intros s1 o (ok & chunks & -> & He & Hp & Hok). destruct ok; out_steps.
  - eapply wp_mono; [apply write_all_spec|]. intros s2 o (ok2 & chunks2 & -> & He2 & Hp2 & Hok2).
    exists ok2, (chunks ++ chunks2). split; [done|]. rewrite map_app, concat_app, Hok by done.
    rewrite (proj2 He) in He2. split; [by apply (ext_trans _ _ _ _ _ He He2)|].
    split; [by apply prefix_app|]. intros ->. by rewrite Hok2.
  - exists false, chunks. split; [done|]. split; [done|]. split; [by apply prefix_app_r|done].
Qed.

Lemma body_step s : At Body s -> wp (dlg_body fuel sz e) (step_to (At Done)) s.
Proof.
  intros Hat. unfold dlg_body. out_steps. eapply wp_mono; [apply send_data_spec|].
  intros s1 o (ok & chunks & -> & He & Hpre & Hok). pose proof (at_sent Body _ _ _ Hat ltac:(done) He) as Hs.
  destruct ok; cbn [negb]; out_steps; [|exact (sent_partial Body _ _ Hs Hpre)].
  eapply wp_mono; [apply (read_reply_spec _ _ _ Body)|]. intros s2 o2 Hr.
  pose proof (sent_read _ _ _ _ _ _ Hs (Hok eq_refl) Hr) as H.
  destruct o2 as [[[code text]|]|]; [|by out_steps..]. destruct H as [ls H]. out_steps.
  pose proof (replied_go Body code ls s2 (expect [250; 251] code) Done H eq_refl) as Hgo. by destruct (expect _ code).
Qed.

Lemma dialogue_spec s : o_trace s = base -> cn_tls (o_conn s) = false -> wp (smtp_dialogue fuel sz e) Ends s.
Proof.
  intros Ht Hc. unfold smtp_dialogue.
  eapply wp_or_else; [by apply implicit_step|]. intros s1 H1.
  eapply wp_or_else; [by apply greeting_step|]. intros s2 [ls2 H2]. out_steps.
  eapply wp_mono; [by eapply ehlo_step|].
  intros s3 [[rc|caps]|] H3; [by out_steps| |done]. destruct H3 as (code & ls & H3 & -> & Hcl). out_steps.
  eapply wp_mono; [by eapply starttls_step|].
  intros s4 [[rc|did]|] H4; [by out_steps| |done].
  eapply wp_or_else; [by apply auth_step|]. intros s5 H5.
  eapply wp_or_else; [by apply (command_step Mail Rcpt)|]. intros s6 H6.
  eapply wp_or_else; [by apply (command_step Rcpt Data)|]. intros s7 H7.
  eapply wp_or_else; [by apply data_step|]. intros s8 H8.
  eapply wp_or_else; [by apply body_step|]. intros s9 (tr & Ht9 & Hr9). out_steps.
  eapply wp_mono; [apply write_all_spec|]. intros s10 o (ok & chunks & -> & [Ht10 Hc10] & Hpre & _). out_steps.
  eexists. split; [by rewrite Ht10, Ht9, <- app_assoc|]. by eapply fin_ok.
Qed.

End Refinement.

(** ** The property *)

(** C9: The dialogue refines the protocol. Whatever the relay, the network and the
    TLS library do, and whatever the fuel, a dialogue on a fresh connection adds to
    the trace a path of the protocol [reach], in which every command is the one of
    its phase, sent after a complete reply allowed it; and it ends as [finished]
    says: SMTP_OK after the final 250 or 251 only, the status of the [verdict] when
    a complete reply refuses, SMTP_TEMPFAIL when the transport fails, and the class
    of the handshake failure. *)
Theorem smtp_dialogue_refines {N : Net} (fuel sz : nat) (e : Envelope) (s : Out)
  (Hplain : cn_tls (o_conn s) = false) :
  let '(s', o) := smtp_dialogue fuel sz e s in
  exists tr, o_trace s' = o_trace s ++ tr /\ finished e tr o.
Proof.
  pose proof (dialogue_spec fuel sz e (o_trace s) s eq_refl Hplain) as H.
  unfold wp, Ends in H. by destruct (smtp_dialogue fuel sz e s).
Qed.
