(* ===== verification/SmtpSend.v ===== *)
(** * Attempts and retries of the SMTP client

    [attempts] is what [smtp_out_send_host] does for an envelope it accepts:
    connections, dialogues that finish as [finished] says, pauses in between. From
    it follow that SMTP_OK means a relay answered 250 or 251 to the complete
    message, that credentials stay on verified channels, and how often a delivery
    is tried. *)

From S2P Require Import Prelude MailLines MailHeader DlEngine Store StoreSpec StoreTables Reply Config Prog SmtpReply SmtpOut SmtpDialogue SmtpOutSpec SmtpDialogueSpec.

(** The envelope of a send, [None] when an argument is refused. *)
Definition envelope_of (c : Config) (host from to body : bytes) : option Envelope :=
  if is_nil host || negb (smtp_tls_valid (rl_tls (relay c)) =? 0) || (has_crlf from || has_crlf to) || is_nil to
  then None
  else
    let tmo := if lim_cmd_timeout (limits c) =? 0 then SMTP_DEFAULT_TIMEOUT else lim_cmd_timeout (limits c) in
    match build_addr_cmd SMTP_MAX_LINE (bs "MAIL FROM:") from, build_addr_cmd SMTP_MAX_LINE (bs "RCPT TO:") to with
    | Some mail_cmd, Some rcpt_cmd =>
        Some {| ev_cfg := c; ev_host := host; ev_tmo := tmo;
                ev_dtmo := (if lim_data_timeout (limits c) =? 0 then tmo else lim_data_timeout (limits c));
                ev_body := body; ev_mail_cmd := mail_cmd; ev_rcpt_cmd := rcpt_cmd |}
    | _, _ => None
    end.

(** One attempt. *)
Inductive attempted (e : Envelope) : list event -> option Z -> Prop :=
| att_no_connection : attempted e [EvConnect false] (Some SMTP_TEMPFAIL)
| att_dialogue tr o : finished e tr o -> attempted e (EvConnect true :: tr) o.

Definition pause (a : Z) : list event := if a >? 0 then [EvSleep (smtp_backoff_sec a)] else [].

(** The attempts from number [a] on. *)
Inductive attempts (e : Envelope) (retries : Z) : Z -> list event -> option Z -> Prop :=
| att_last a tr o :
    attempted e tr o -> o <> Some SMTP_TEMPFAIL \/ retries <= a ->
    attempts e retries a (pause a ++ tr) o
| att_again a tr tr' o :
    attempted e tr (Some SMTP_TEMPFAIL) -> a < retries -> attempts e retries (a + 1) tr' o ->
    attempts e retries a (pause a ++ tr ++ tr') o.

(** ** The statuses of a dialogue *)

Lemma smtp_class_cases code : smtp_class code ∈ [SMTP_OK; SMTP_TEMPFAIL; SMTP_PERMFAIL; SMTP_ERROR].
Proof. unfold smtp_class. repeat case_match; set_solver. Qed.

Lemma smtp_auth_class_cases code : smtp_auth_class code ∈ [SMTP_OK; SMTP_TEMPFAIL; SMTP_PERMFAIL; SMTP_ERROR].
Proof. unfold smtp_auth_class. repeat case_match; set_solver. Qed.

Definition is_status (rc : Z) : Prop := rc ∈ [SMTP_OK; SMTP_TEMPFAIL; SMTP_PERMFAIL; SMTP_ERROR].

(** A refusal is a status, and never SMTP_OK. *)
Lemma verdict_stop e p caps code rc : verdict e p caps code = inl rc ->
  rc ∈ [SMTP_TEMPFAIL; SMTP_PERMFAIL; SMTP_ERROR].
Proof.
  pose proof (smtp_class_cases code) as Hc. pose proof (smtp_auth_class_cases code) as Ha.
  assert (Hg : code >= 400 -> smtp_class code <> SMTP_OK).
  { unfold smtp_class, SMTP_OK, SMTP_TEMPFAIL, SMTP_PERMFAIL, SMTP_ERROR. intros Hg. repeat case_match; lia. }
  destruct p; cbn [verdict]; unfold after_ehlo, fall_back, go_on, class_stop, expect, refused_class; intros Hv;
    repeat split_match_in Hv; try discriminate; injection Hv as <-;
    repeat match goal with H : (if _ then _ else _) = _ |- _ => split_match_in H; try discriminate; injection H as <- end;
    rewrite !elem_of_cons in *; unfold SMTP_OK, SMTP_TEMPFAIL, SMTP_PERMFAIL, SMTP_ERROR in *;
    rewrite elem_of_nil in Hc, Ha; lia.
Qed.

Lemma finished_status e tr rc : finished e tr (Some rc) -> is_status rc.
Proof.
  unfold is_status. inversion 1 as [|p t tr0 ch ls code rc0 Hr Hc Hl Hv| | | |]; subst; try set_solver.
  - apply verdict_stop in Hv. set_solver.
  - unfold handshake_class. case_match; set_solver.
Qed.

Lemma attempted_status e tr rc : attempted e tr (Some rc) -> is_status rc.
Proof. inversion 1; subst; [unfold is_status; set_solver|by eapply finished_status]. Qed.

Section Send.
Context {N : Net}.

Lemma quiet_try_address ai : quiet (try_address ai).
Proof. unfold try_address, net_do. quiet_tac. Qed.

Lemma quiet_try_addresses ais : quiet (try_addresses ais).
Proof. induction ais; cbn [try_addresses]; [|pose proof (quiet_try_address a)]; quiet_tac. Qed.

Lemma connect_spec host port sz s :
  wp (smtp_connect host port sz) (fun s' o => exists r, o = Some r /\
    o_trace s' = o_trace s ++ [EvConnect (match r with Some _ => true | None => false end)]) s.
Proof.
  unfold smtp_connect. out_steps. apply wp_quiet; [apply quiet_on_net|]. intros s1 [err|ais] Ht Hc; out_steps.
  - exists None. split; [done|]. cbn. by rewrite Ht.
  - apply wp_quiet; [apply quiet_try_addresses|]. intros s2 [fd|] Ht2 Hc2; out_steps;
      eexists; (split; [done|]); cbn; by rewrite Ht2, Ht.
Qed.

Lemma close_trace g s : wp (smtp_conn_close g) (fun s' o => o_trace s' = o_trace s /\ o = Some tt) s.
Proof.
  unfold smtp_conn_close, net_do. out_steps.
  apply wp_quiet; [destruct (_ && g); auto using quiet_ret, quiet_on_net|]. intros s1 [] Ht1 _. out_steps.
  apply wp_quiet; [apply quiet_on_net|]. intros s2 [] Ht2 _. out_steps.
  apply wp_quiet; [destruct (_ >=? 0); auto using quiet_ret, quiet_on_net|]. intros s3 [] Ht3 _. out_steps.
  split; [|done]. cbn. congruence.
Qed.

Lemma attempt_spec fuel sz e port s :
  wp (send_attempt fuel sz e port) (fun s' o => exists tr, o_trace s' = o_trace s ++ tr /\ attempted e tr o) s.
Proof.
  unfold send_attempt. out_steps. eapply wp_mono; [apply connect_spec|]. intros s1 o (r & -> & Ht1).
  destruct r as [fd|]; [|out_steps; eexists; split; [exact Ht1|constructor]].
  unfold smtp_conn_init. out_steps. eapply wp_mono; [by apply (dialogue_spec fuel sz e (o_trace s1))|].
  intros s2 [rc|] (tr & Ht2 & Hf); out_steps.
  - eapply wp_mono; [apply close_trace|]. intros s3 o [Ht3 ->]. out_steps.
    exists (EvConnect true :: tr). rewrite Ht3, Ht2, Ht1, <- app_assoc. split; [done|]. by constructor.
  - exists (EvConnect true :: tr). rewrite Ht2, Ht1, <- app_assoc. split; [done|]. by constructor.
Qed.

Lemma attempt_loop_spec fuel sz n e port a retries s :
  0 <= a <= retries -> retries <= UINT32_MAX -> (Z.to_nat (retries - a) < n)%nat ->
  wp (attempt_loop fuel sz n e port a retries) (fun s' o =>
    exists tr, o_trace s' = o_trace s ++ tr /\ attempts e retries a tr o) s.
Proof.
  revert a s. induction n as [|n IH]; intros a s Ha Hr Hn; [lia|]. cbn [attempt_loop]. out_steps.
  apply wp_mono with (fun s' o => o_trace s' = o_trace s ++ pause a /\ o = Some tt).
  { unfold pause, net_do. destruct (a >? 0); out_steps; [|by rewrite app_nil_r].
    apply wp_on_net. by intros ? [] _. }
  intros s1 o [Ht1 ->]. out_steps. eapply wp_mono; [apply attempt_spec|].
  intros s2 [rc|] (tr & Ht2 & Hatt).
  2: { exists (pause a ++ tr). rewrite Ht2, Ht1, <- app_assoc. split; [done|]. apply att_last; [done|by left]. }
  pose proof (attempted_status _ _ _ Hatt) as Hst.
  assert (Htr : o_trace s2 = o_trace s ++ pause a ++ tr) by (by rewrite Ht2, Ht1, <- app_assoc).
  destruct (_ || _) eqn:Hfin.
  { out_steps. eexists. split; [exact Htr|]. apply att_last; [done|]. left. intros [= ->]. discriminate. }
  assert (rc = SMTP_TEMPFAIL) as ->.
  { unfold is_status in Hst. rewrite !elem_of_cons, elem_of_nil in Hst.
    destruct Hst as [->|[->|[->|[->|[]]]]]; done. }
  destruct (Z.geb_spec a retries) as [Hge|Hlt]; out_steps.
  { eexists. split; [exact Htr|]. apply att_last; [done|]. right. lia. }
  rewrite u32_small by (unfold UINT32_MAX in *; lia).
  eapply wp_mono; [apply IH; lia|]. intros s3 o (tr' & Ht3 & Hatts).
  exists (pause a ++ tr ++ tr'). rewrite Ht3, Htr, <- !app_assoc. split; [done|]. by apply att_again.
Qed.

(** The client tries the envelope, or refuses the arguments without a connection. *)
Lemma send_host_spec fuel sz c host port from to body s :
  0 <= rl_retries (relay c) <= UINT32_MAX ->
  wp (smtp_out_send_host fuel sz c host port from to body) (fun s' o =>
    exists tr, o_trace s' = o_trace s ++ tr /\
      match envelope_of c host from to body with
      | None => tr = [] /\ o = Some SMTP_ERROR
      | Some e => attempts e (rl_retries (relay c)) 0 tr o
      end) s.
Proof.
  intros Hr. unfold smtp_out_send_host, envelope_of. out_steps.
  assert (Hno : forall s' : Out, o_trace s' = o_trace s ->
    exists tr, o_trace s' = o_trace s ++ tr /\ tr = [] /\ Some SMTP_ERROR = Some SMTP_ERROR).
  { intros s' Ht. exists []. by rewrite app_nil_r. }
  destruct (is_nil host); [out_steps; by apply Hno|].
  destruct (smtp_tls_valid _ =? 0); [|out_steps; by apply Hno].
  destruct (has_crlf from || has_crlf to); [out_steps; by apply Hno|].
  destruct (is_nil to); [out_steps; by apply Hno|]. cbn [orb negb].
  destruct (build_addr_cmd _ _ from); [|out_steps; by apply Hno].
  destruct (build_addr_cmd _ _ to); [|out_steps; by apply Hno].
  eapply wp_mono; [apply attempt_loop_spec; lia|]. intros s' o (tr & Ht & Ha). exists tr. by split.
Qed.

End Send.

(** ** What SMTP_OK means *)

(** A command (or the payload) was sent in full, and a reply with an accepted
    code was read. *)
Definition answered (t : bool) (cmd : bytes) (good : Z -> Prop) (evs : list event) : Prop :=
  exists chunks ls code, evs = exchanged t chunks ls /\ concat chunks = cmd /\ is_reply ls code /\ good code.

(** The relay took the envelope and answered 250 or 251 to the whole dot-stuffed
    body and its terminator. *)
Definition accepted (e : Envelope) (tr : list event) : Prop :=
  exists t pre m r d b quit,
    tr = pre ++ m ++ r ++ d ++ b ++ map (EvSend t) quit /\
    answered t (ev_mail_cmd e) (fun c => smtp_class c = SMTP_OK) m /\
    answered t (ev_rcpt_cmd e) (fun c => smtp_class c = SMTP_OK) r /\
    answered t (bs "DATA" ++ CRLF) (fun c => c = 354) d /\
    answered t (mail_stuff_dots (ev_body e) ++ data_end) (fun c => c = 250 \/ c = 251) b /\
    concat quit `prefix_of` bs "QUIT" ++ CRLF.

Lemma class_go code p q : go_on (class_stop code) p = inr q -> p = q /\ smtp_class code = SMTP_OK.
Proof.
  unfold go_on, class_stop. destruct (smtp_class code =? SMTP_OK) eqn:H; cbn [negb]; [|done].
  intros [= ->]. split; [done|]. by apply Z.eqb_eq.
Qed.

Lemma expect_go codes code p q : go_on (expect codes code) p = inr q -> p = q /\ code ∈ codes.
Proof.
  unfold go_on, expect. destruct (existsb _ codes) eqn:H; [|done]. intros [= ->]. split; [done|].
  apply existsb_exists in H as (x & Hx & ->%Z.eqb_eq). by apply list_elem_of_In.
Qed.

(** The only way into each of the last phases. *)
Lemma verdict_into e p caps code q : verdict e p caps code = inr q ->
  match q with
  | Rcpt => p = Mail /\ smtp_class code = SMTP_OK
  | Data => p = Rcpt /\ smtp_class code = SMTP_OK
  | Body => p = Data /\ code = 354
  | Done => p = Body /\ (code = 250 \/ code = 251)
  | _ => True
  end.
Proof.
  intros Hv. destruct q; try done; destruct p; cbn [verdict] in Hv; unfold after_ehlo, fall_back in Hv;
    first
      [ apply class_go in Hv as [? ?]; done
      | apply expect_go in Hv as [? Hin]; [discriminate || (rewrite !elem_of_cons, elem_of_nil in Hin; split; [done|lia])]
      | repeat split_match_in Hv; discriminate ].
Qed.

Lemma reach_into e q t tr : reach e q t tr -> q ∈ [Rcpt; Data; Body; Done] ->
  exists p tr0 chunks ls code, tr = tr0 ++ exchanged t chunks ls /\ reach e p t tr0 /\
    concat chunks = command e p /\ is_reply ls code /\ verdict e p (concat ls) code = inr q.
Proof.
  intros Hr Hq. destruct Hr as [|?|p t tr0 chunks ls code p' Hr0 Hc Hl Hv|]; [set_solver|set_solver| |set_solver].
  by exists p, tr0, chunks, ls, code.
Qed.

Lemma answered_intro t (good : Z -> Prop) chunks ls code :
  is_reply ls code -> good code -> answered t (concat chunks) good (exchanged t chunks ls).
Proof. intros Hl Hg. by exists chunks, ls, code. Qed.

Lemma done_accepted e t tr quit : reach e Done t tr -> concat quit `prefix_of` command e Done ->
  accepted e (tr ++ map (EvSend t) quit).
Proof.
  intros H Hq. apply reach_into in H as (p & tr4 & c4 & l4 & k4 & -> & H & Hc4 & Hl4 & Hv4); [|set_solver].
  apply verdict_into in Hv4 as [-> Hk4].
  apply reach_into in H as (p & tr3 & c3 & l3 & k3 & -> & H & Hc3 & Hl3 & Hv3); [|set_solver].
  apply verdict_into in Hv3 as [-> Hk3].
  apply reach_into in H as (p & tr2 & c2 & l2 & k2 & -> & H & Hc2 & Hl2 & Hv2); [|set_solver].
  apply verdict_into in Hv2 as [-> Hk2].
  apply reach_into in H as (p & tr1 & c1 & l1 & k1 & -> & H & Hc1 & Hl1 & Hv1); [|set_solver].
  apply verdict_into in Hv1 as [-> Hk1].
  exists t, tr1, (exchanged t c1 l1), (exchanged t c2 l2), (exchanged t c3 l3), (exchanged t c4 l4), quit.
  cbn [command] in *. rewrite <- Hc1, <- Hc2, <- Hc3, <- Hc4. split; [by rewrite <- !app_assoc|].
  split; [by eapply answered_intro|]. split; [by eapply answered_intro|]. split; [by eapply answered_intro|].
  split; [by eapply answered_intro|done].
Qed.

Lemma not_ok : SMTP_OK ∉ [SMTP_TEMPFAIL; SMTP_PERMFAIL; SMTP_ERROR].
Proof. rewrite !elem_of_cons, elem_of_nil. unfold SMTP_OK, SMTP_TEMPFAIL, SMTP_PERMFAIL, SMTP_ERROR. lia. Qed.

Lemma finished_ok e tr : finished e tr (Some SMTP_OK) -> accepted e tr.
Proof.
  inversion 1 as [t tr0 chunks Hr Hq|p t tr0 ch ls code rc0 Hr Hc Hl Hv| | |tr0 hr vr Hr Hn Hh|]; subst.
  - by apply done_accepted.
  - by apply verdict_stop, not_ok in Hv.
  - unfold handshake_class in *. repeat case_match; done.
Qed.

Lemma attempts_ok e retries a tr : attempts e retries a tr (Some SMTP_OK) ->
  exists before last, tr = before ++ EvConnect true :: last /\ accepted e last.
Proof.
  remember (Some SMTP_OK) as o eqn:Ho. induction 1 as [a tr o Hatt Hend|a tr tr' o Hatt Hlt Hrest IH]; subst.
  - inversion Hatt as [|tr0 o0 Hf]; subst. exists (pause a), tr0. split; [done|]. by apply finished_ok.
  - destruct (IH eq_refl) as (before & l & -> & Hacc). exists (pause a ++ tr ++ before), l.
    split; [by rewrite <- !app_assoc|done].
Qed.

(** ** Credentials *)

(** A piece of a command that may travel in the clear. *)
Definition harmless (e : Envelope) (d : bytes) : Prop :=
  exists a b, a ++ d ++ b = ehlo_cmd (ev_cfg e) \/ a ++ d ++ b = bs "STARTTLS" ++ CRLF.

(** Everything but harmless pieces is sent over TLS after a verified handshake on
    the same connection; [v] tells whether there was one. *)
Fixpoint confined (e : Envelope) (v : bool) (tr : list event) : Prop :=
  match tr with
  | [] => True
  | EvConnect _ :: tr' => confined e false tr'
  | EvTls b :: tr' => confined e (v || b) tr'
  | EvSend t d :: tr' => (v && t = true \/ harmless e d) /\ confined e v tr'
  | _ :: tr' => confined e v tr'
  end.

Fixpoint verified_after (v : bool) (tr : list event) : bool :=
  match tr with
  | [] => v
  | EvConnect _ :: tr' => verified_after false tr'
  | EvTls b :: tr' => verified_after (v || b) tr'
  | _ :: tr' => verified_after v tr'
  end.

Lemma confined_app e v a b : confined e v (a ++ b) <-> confined e v a /\ confined e (verified_after v a) b.
Proof.
  revert v. induction a as [|[| | | | |] a IH]; intros v; cbn [app confined verified_after]; rewrite ?IH; tauto.
Qed.

Lemma verified_after_app v a b : verified_after v (a ++ b) = verified_after (verified_after v a) b.
Proof. revert v. induction a as [|[| | | | |] a IH]; intros v; cbn [app verified_after]; auto. Qed.

Lemma confined_sends e v t chunks : Forall (fun d => v && t = true \/ harmless e d) chunks ->
  confined e v (map (EvSend t) chunks) /\ verified_after v (map (EvSend t) chunks) = v.
Proof. induction 1; cbn; tauto. Qed.

Lemma confined_lines e v t ls : confined e v (map (EvLine t) ls) /\ verified_after v (map (EvLine t) ls) = v.
Proof. induction ls; cbn; tauto. Qed.

Lemma confined_exchanged e v t chunks ls : Forall (fun d => v && t = true \/ harmless e d) chunks ->
  confined e v (exchanged t chunks ls) /\ verified_after v (exchanged t chunks ls) = v.
Proof.
  intros H. unfold exchanged. destruct (confined_sends e v t chunks H) as [H1 H2].
  destruct (confined_lines e v t ls) as [H3 H4]. rewrite confined_app, verified_after_app, H2. tauto.
Qed.

(** Every chunk is a piece of what the chunks are a prefix of. *)
Lemma chunks_pieces chunks (cmd : bytes) : concat chunks `prefix_of` cmd ->
  Forall (fun d => exists a b, a ++ d ++ b = cmd) chunks.
Proof.
  revert cmd. induction chunks as [|d chunks IH]; intros cmd [r ->]; constructor.
  - exists [], (concat chunks ++ r). cbn [concat]. by rewrite <- app_assoc.
  - cbn [concat]. eapply Forall_impl; [apply IH; by exists r|]. cbn. intros x (a & b & Hx).
    exists (d ++ a), b. by rewrite <- !app_assoc, Hx.
Qed.

Lemma phase_chunks e p t tr v chunks :
  auth_on e = true \/ mode_verify e = true -> secure e p t tr -> (verified_tls e t tr -> v = true) ->
  concat chunks `prefix_of` command e p -> Forall (fun d => v && t = true \/ harmless e d) chunks.
Proof.
  intros Hon Hs Hv Hp. eapply Forall_impl; [by apply chunks_pieces|]. cbn. intros d (a & b & Hd).
  assert (Hver : verified_tls e t tr -> v && t = true).
  { intros H. rewrite (Hv H). by destruct H as (_ & -> & _). }
  unfold harmless. destruct p; cbn [secure command] in *; try (left; apply Hver; tauto); right;
    try (exists a, b; auto; fail).
  all: apply app_nil in Hd as [-> Hd]; apply app_nil in Hd as [-> ->]; exists [], (ehlo_cmd (ev_cfg e)); auto.
Qed.

Lemma reach_confined e p t tr : auth_on e = true \/ mode_verify e = true -> reach e p t tr ->
  confined e false tr /\ (verified_tls e t tr -> verified_after false tr = true).
Proof.
  intros Hon. induction 1 as [Hm|Hm|p t tr chunks ls code p' Hr [IH1 IH2] Hc Hl Hv|tr Hr [IH1 IH2]].
  - split; [done|]. intros (_ & _ & H). set_solver.
  - split; [done|]. intros (_ & _ & H). rewrite elem_of_cons, elem_of_nil in H. intuition congruence.
  - pose proof (reach_secure _ _ _ _ Hr) as Hs.
    assert (Hch : Forall (fun d => verified_after false tr && t = true \/ harmless e d) chunks).
    { apply (phase_chunks e p t tr); [done|done|done|by rewrite Hc]. }
    destruct (confined_exchanged e (verified_after false tr) t chunks ls Hch) as [H1 H2].
    rewrite confined_app, verified_after_app, H2. split; [done|].
    intros (Hm & Ht & Hin). apply IH2. split; [done|]. split; [done|].
    apply elem_of_app in Hin as [Hin|Hin]; [done|]. exfalso. clear -Hin. unfold exchanged in Hin.
    apply elem_of_app in Hin as [Hin|Hin]; apply list_elem_of_fmap in Hin as (x & ? & _); discriminate.
  - rewrite confined_app, verified_after_app. split; [split; [done|cbn; done]|].
    intros (Hm & _). cbn. rewrite Hm. apply orb_true_r.
Qed.

Lemma finished_confined e tr o : auth_on e = true \/ mode_verify e = true -> finished e tr o -> confined e false tr.
Proof.
  intros Hon Hf.
  assert (Hgo : forall p t tr chunks ls, reach e p t tr -> concat chunks `prefix_of` command e p ->
    confined e false (tr ++ exchanged t chunks ls)).
  { intros p t tr1 chunks ls Hr Hp. pose proof (reach_secure _ _ _ _ Hr) as Hs.
    destruct (reach_confined _ _ _ _ Hon Hr) as [H1 H2]. rewrite confined_app. split; [done|].
    apply (confined_exchanged e _ t chunks ls). by apply (phase_chunks e p t tr1). }
  destruct Hf as [t tr chunks Hr Hp|p t tr chunks ls code rc Hr Hc Hl Hv|p t tr chunks ls Hr Hp Hc Hls Hn
    |p t tr chunks ls Hr Hp Hc|tr hr vr Hr Hh|Hm].
  - rewrite <- (app_nil_r (map _ _)). by apply (Hgo Done t tr chunks []).
  - apply (Hgo p); [done|by rewrite Hc].
  - by apply (Hgo p).
  - apply (Hgo p); [done|by rewrite Hc].
  - apply reach_confined in Hr as [H _]; [|done]. by rewrite confined_app.
  - done.
Qed.

Lemma confined_pause e v a tr : confined e v (pause a ++ tr) <-> confined e v tr.
Proof. unfold pause. by destruct (a >? 0). Qed.

Lemma attempted_confined e v tr o : auth_on e = true \/ mode_verify e = true -> attempted e tr o -> confined e v tr.
Proof. intros Hon []; [done|]. by eapply finished_confined. Qed.

Lemma attempts_confined e retries a v tr o : auth_on e = true \/ mode_verify e = true ->
  attempts e retries a tr o -> confined e v tr.
Proof.
  intros Hon H. revert v. induction H as [a tr o Hatt Hend|a tr tr' o Hatt Hlt Hrest IH]; intros v;
    rewrite confined_pause, ?confined_app; [by eapply attempted_confined|].
  split; [by eapply attempted_confined|apply IH].
Qed.

(** ** Counting *)

Definition is_connect (ev : event) : bool := match ev with EvConnect _ => true | _ => false end.
Definition connects (tr : list event) : Z := len (List.filter is_connect tr).
Definition sleeps (tr : list event) : list Z := omap (fun ev => match ev with EvSleep s => Some s | _ => None end) tr.

(** The events of a dialogue are neither connections nor pauses. *)
Definition wire (tr : list event) : Prop := connects tr = 0 /\ sleeps tr = [].

Lemma connects_app a b : connects (a ++ b) = connects a + connects b.
Proof. unfold connects. rewrite List.filter_app, length_app. lia. Qed.

Lemma sleeps_app a b : sleeps (a ++ b) = sleeps a ++ sleeps b.
Proof. apply omap_app. Qed.

Lemma wire_app a b : wire a -> wire b -> wire (a ++ b).
Proof. intros [H1 H2] [H3 H4]. split; [by rewrite connects_app, H1, H3|by rewrite sleeps_app, H2, H4]. Qed.

Lemma wire_sends t chunks : wire (map (EvSend t) chunks).
Proof. induction chunks as [|d c [H1 H2]]; [done|]. split; [exact H1|exact H2]. Qed.

Lemma wire_exchanged t chunks ls : wire (exchanged t chunks ls).
Proof.
  apply wire_app; [apply wire_sends|]. induction ls as [|l ls [H1 H2]]; [done|]. split; [exact H1|exact H2].
Qed.

Lemma reach_wire e p t tr : reach e p t tr -> wire tr.
Proof. induction 1; try done; apply wire_app; try done; apply wire_exchanged. Qed.

Lemma finished_wire e tr o : finished e tr o -> wire tr.
Proof.
  destruct 1; try done; try (by eapply reach_wire); apply wire_app; try (by eapply reach_wire);
    first [apply wire_sends | apply wire_exchanged | done].
Qed.

Lemma attempted_counts e tr o : attempted e tr o -> connects tr = 1 /\ sleeps tr = [].
Proof.
  intros []; [done|]. match goal with H : finished _ _ _ |- _ => apply finished_wire in H as [H1 H2] end.
  unfold connects in *. cbn in *. split; [lia|done].
Qed.

(** The pauses before the attempts [a + 1] to [a + n]. *)
Definition cadence (a : Z) (n : nat) : list Z := map (fun i => smtp_backoff_sec (a + Z.of_nat i)) (seq 1 n).

Lemma attempts_counts e retries a tr o : 0 <= a <= retries -> attempts e retries a tr o ->
  exists n, connects tr = Z.of_nat (S n) /\ a + Z.of_nat n <= retries /\
    sleeps tr = (if a >? 0 then [smtp_backoff_sec a] else []) ++ cadence a n /\
    (o = Some SMTP_TEMPFAIL -> a + Z.of_nat n = retries).
Proof.
  intros Ha H. assert (Hp : forall a, connects (pause a) = 0 /\ sleeps (pause a) = if a >? 0 then [smtp_backoff_sec a] else []).
  { intros b. unfold pause. by destruct (b >? 0). }
  induction H as [a tr o Hatt Hend|a tr tr' o Hatt Hlt Hrest IH];
    destruct (attempted_counts _ _ _ Hatt) as [Hc Hs]; destruct (Hp a) as [Hpc Hps].
  - exists 0%nat. rewrite connects_app, sleeps_app, Hc, Hs, Hpc, Hps. repeat split; try lia.
    intros ->. destruct Hend; [done|lia].
  - destruct IH as (n & Hn & Hle & Hsl & Ho); [lia|]. exists (S n).
    rewrite !connects_app, !sleeps_app, Hc, Hs, Hpc, Hps, Hn, Hsl. split; [lia|]. split; [lia|].
    split; [|intros Hx; specialize (Ho Hx); lia].
    destruct (Z.gtb_spec (a + 1) 0); [|lia]. f_equal. unfold cadence. cbn [seq map app]. f_equal.
    rewrite <- (seq_shift n 1), map_map. apply map_ext. intros i. f_equal. lia.
Qed.
