(* ===== verification/SmtpEnds.v ===== *)
(** * The SMTP client over a relay that sends finitely many bytes

    [FiniteNet] bounds what a network will still deliver. Over such a network
    every run of the client ends, with any fuel above the bound: the only loop
    without a bound of its own is the one over continuation lines. A relay that
    never stops sending them keeps the client reading for ever
    ([endless_reply_runs]). [ScriptNet] is a concrete network that plays a list of
    pieces, on which the theorems are applied. *)

From S2P Require Import Prelude MailLines MailHeader DlEngine Store StoreSpec StoreTables Reply Config Prog SmtpReply SmtpOut SmtpDialogue SmtpOutSpec SmtpDialogueSpec SmtpSend.

(** [left n] bounds the bytes [n] will still deliver; a read takes from it, no
    other call adds to it. *)
Class FiniteNet (N : Net) := {
  left : net -> nat;
  shrinks {A} (f : net -> net * A) : Prop := forall n, (left (f n).1 <= left n)%nat;
  left_fill n fd ms k :
    (left (sys_fill n fd ms k).1 + (match fill_end (sys_fill n fd ms k).2 with FlData d => length (take k d) | _ => 0 end)
     <= left n)%nat;
  (** callbacks that read and write as the network does *)
  calm (bs : net -> bytes -> net * Z) (br : net -> nat -> net * io_code) : Prop :=
    (forall n d, (left (bs n d).1 <= left n)%nat) /\
    (forall n k, (left (br n k).1 + (match (br n k).2 with IoData d => length d | _ => 0 end) <= left n)%nat);
  left_ssl_read bs br n fd k : calm bs br ->
    (left (ssl_read bs br n fd k).1 + (match (ssl_read bs br n fd k).2 with IoData d => length (take k d) | _ => 0 end)
     <= left n)%nat;
  left_getaddrinfo h p : shrinks (fun n => getaddrinfo n h p);
  left_socket ai : shrinks (fun n => sys_socket n ai);
  left_nonblock fd : shrinks (fun n => fcntl_nonblock n fd);
  left_connect fd ai : shrinks (fun n => sys_connect n fd ai);
  left_poll fd ms : shrinks (fun n => poll_connected n fd ms);
  left_so_error fd : shrinks (fun n => so_error_clear n fd);
  left_restore fd : shrinks (fun n => fcntl_restore n fd);
  left_close fd : shrinks (fun n => (sys_close n fd, tt));
  left_write fd ms d : shrinks (fun n => sys_write n fd ms d);
  left_sleep z : shrinks (fun n => (sys_sleep n z, tt));
  left_seed : shrinks ctr_drbg_seed;
  left_defaults : shrinks ssl_config_defaults;
  left_parse_file p : shrinks (fun n => x509_crt_parse_file n p);
  left_parse : shrinks x509_crt_parse;
  left_ca_chain : shrinks (fun n => (ssl_conf_ca_chain n, tt));
  left_setup fd v : shrinks (fun n => ssl_setup n fd v);
  left_hostname fd h : shrinks (fun n => ssl_set_hostname n fd h);
  left_handshake bs br fd : calm bs br -> shrinks (fun n => ssl_handshake bs br n fd);
  left_ssl_write bs br fd d : calm bs br -> shrinks (fun n => ssl_write bs br n fd d);
  left_close_notify bs br fd : calm bs br -> shrinks (fun n => (ssl_close_notify bs br n fd, tt));
  left_free fd : shrinks (fun n => (ssl_free n fd, tt));
}.

Create HintDb finite.

#[export] Hint Resolve left_getaddrinfo left_socket left_nonblock left_connect left_poll left_so_error left_restore
  left_close left_write left_sleep left_seed left_defaults left_parse_file left_parse left_ca_chain left_setup
  left_hostname left_handshake left_ssl_write left_close_notify left_free : finite.

Lemma bio_calm {N : Net} `{!FiniteNet N} c : calm (bio_send c) (bio_recv c).
Proof.
  split; intros n x.
  - unfold bio_send. pose proof (left_write (cn_fd c) (timeout_ms (cn_tmo c)) (write_chunk x) n) as H. cbn beta in H.
    destruct (sys_write _ _ _ _). exact H.
  - unfold bio_recv. pose proof (left_fill n (cn_fd c) (timeout_ms (cn_tmo c)) x) as H.
    destruct (sys_fill _ _ _ _) as [n' rs]. cbn [fst snd] in *. by destruct (fill_end rs).
Qed.

#[export] Hint Resolve bio_calm : finite.

Section Ends.
Context {N : Net} `{!FiniteNet N}.
Variable fuel : nat.

(** What can still be read: in the network and in the read-ahead buffer. *)
Definition unread (s : Out) : nat := left (o_net s) + length (cn_rbuf (o_conn s)).

(** [m] ends when the fuel exceeds what can be read, and does not make more
    readable; [k] bytes are consumed when the value says so. *)
Definition consumes {A} (k : A -> nat) (m : prog Out A) (s : Out) : Prop :=
  wp m (fun s' o => match o with
    | Some a => (unread s' + k a <= unread s)%nat
    | None => (fuel <= unread s)%nat
    end) s.

Definition ends {A} (m : prog Out A) : Prop := forall s, consumes (fun _ => 0%nat) m s.

Lemma consumes_bind {A B} (k : A -> nat) (m : prog Out A) (f : A -> prog Out B) s :
  consumes k m s -> (forall a, ends (f a)) -> consumes (fun _ => 0%nat) (m ≫= f) s.
Proof.
  unfold ends, consumes. intros Hm Hf. apply wp_bind. eapply wp_mono; [exact Hm|]. intros s1 [a|] H1; [|done].
  eapply wp_mono; [apply Hf|]. intros s2 [b|] H2; cbn in H1; lia.
Qed.

Lemma ends_bind {A B} (m : prog Out A) (f : A -> prog Out B) :
  ends m -> (forall a, ends (f a)) -> ends (m ≫= f).
Proof. intros Hm Hf s. by eapply consumes_bind. Qed.

Lemma ends_ret {A} (a : A) : ends (mret a).
Proof. intros s. unfold consumes, wp. cbn. lia. Qed.

Lemma ends_gets {A} (f : Out -> A) : ends (gets f).
Proof. intros s. unfold consumes, wp. cbn. lia. Qed.

Lemma ends_emit ev : ends (emit ev).
Proof. intros s. unfold consumes, wp, unread. cbn. lia. Qed.

Lemma ends_put_status sz m : ends (put_status sz m).
Proof. intros s. unfold consumes, wp, unread. cbn. lia. Qed.

Lemma ends_set_glob g : ends (set_glob g).
Proof. intros s. unfold consumes, wp, unread. cbn. lia. Qed.

Lemma ends_on_net {A} (f : net -> net * A) : shrinks f -> ends (on_net f).
Proof.
  intros Hf s. unfold consumes. apply wp_on_net. intros n a He. specialize (Hf (o_net s)). rewrite He in Hf.
  unfold unread. cbn in *. lia.
Qed.

(** Setting the connection to one that has no more buffered than the state's. *)
Lemma ends_with_conn {A} (f : SmtpConn -> SmtpConn) (g : SmtpConn -> prog Out A) :
  (forall c, (length (cn_rbuf (f c)) <= length (cn_rbuf c))%nat) -> (forall c, ends (g c)) ->
  ends (c ← gets o_conn; _ ← set_conn (f c); g c).
Proof.
  intros Hf Hg s. unfold consumes. out_steps. eapply wp_mono; [apply Hg|].
  assert (Hle : (unread (set_conn (f (o_conn s)) s).1 <= unread s)%nat).
  { unfold unread. cbn. specialize (Hf (o_conn s)). lia. }
  intros s' [a|] H; cbn in H, Hle |- *; lia.
Qed.

End Ends.

#[export] Hint Resolve ends_gets ends_emit ends_put_status ends_set_glob ends_on_net : finite.

Ltac ends_tac :=
  repeat match goal with
  | |- ends _ (mret _) => apply ends_ret
  | |- ends _ (_ ≫= _) => apply ends_bind; [|intros ?]
  | |- ends _ (if ?b then _ else _) => destruct b
  | |- ends _ (match ?x with _ => _ end) => destruct x
  | |- ends _ (net_do _) => unfold net_do
  end; eauto with finite.

Section Client.
Context {N : Net} `{!FiniteNet N}.
Variable fuel : nat.
Notation ends := (ends fuel).

Lemma filled_consumes d s : cn_rbuf (o_conn s) = [] ->
  wp (filled d) (fun s' o => exists r, o = Some r /\
    (unread s' + (if r is RbByte _ then 1 else 0) <= left (o_net s) + length (take 4096 d))%nat) s.
Proof.
  intros Hb. unfold filled. out_steps. destruct (take 4096 d) as [|b t]; out_steps; eexists; (split; [done|]);
    unfold unread; cbn; lia.
Qed.

Lemma read_byte_consumes tmo s :
  wp (conn_read_byte tmo) (fun s' o => exists r, o = Some r /\
    (unread s' + (if r is RbByte _ then 1 else 0) <= unread s)%nat) s.
Proof.
  unfold conn_read_byte. out_steps. destruct (cn_rbuf (o_conn s)) as [|b t] eqn:Hb.
  2: { out_steps. eexists. split; [done|]. unfold unread. cbn. rewrite Hb. cbn. lia. }
  assert (Hu : unread s = left (o_net s)) by (unfold unread; rewrite Hb; cbn; lia).
  destruct (cn_tls (o_conn s)) eqn:Ht; out_steps; apply wp_on_net; intros n r He; cbn [set_conn modify fst o_net] in He.
  - set (c := with_tmo (o_conn s) tmo) in *.
    pose proof (left_ssl_read (bio_send c) (bio_recv c) (o_net s) (cn_fd c) 4096 (bio_calm c)) as Hl. rewrite He in Hl. cbn [fst snd] in Hl.
    destruct r as [d|r]; cbn beta match.
    + eapply wp_mono; [by apply filled_consumes|]. cbn [o_net]. intros s' o (r & -> & Hr). exists r. split; [done|]. lia.
    + out_steps. eexists. split; [done|]. unfold unread at 1. cbn. rewrite Hb, Hu. cbn. by destruct (_ || _); lia.
  - pose proof (left_fill (o_net s) (cn_fd (o_conn s)) (timeout_ms tmo) 4096) as Hl. rewrite He in Hl. cbn [fst snd] in Hl.
    destruct (fill_end r) as [| | | |d]; cbn beta match.
    5: { eapply wp_mono; [by apply filled_consumes|]. cbn [o_net]. intros s' o (r' & -> & Hr). exists r'. split; [done|]. lia. }
    all: out_steps; eexists; (split; [done|]); unfold unread at 1; cbn; rewrite Hb, Hu; cbn; lia.
Qed.

(** A line that is returned has at least one byte. *)
Lemma read_line_consumes tmo sz s :
  wp (smtp_read_line tmo sz) (fun s' o => exists r, o = Some r /\
    (unread s' + (if r is Some _ then 1 else 0) <= unread s)%nat) s.
Proof.
  unfold smtp_read_line. generalize (@nil Z) as buf. revert s.
  induction sz as [|sz IH]; intros s buf; cbn [read_line_loop]; [out_steps; exists None; split; [done|lia]|].
  out_steps. eapply wp_mono; [apply read_byte_consumes|]. intros s1 o (r & -> & H1).
  destruct r as [b| |]; [|out_steps; exists None; split; [done|lia]..].
  destruct (b =? LF); out_steps.
  - eexists. split; [done|]. unfold unread in *. cbn in *. lia.
  - eapply wp_mono; [apply IH|]. intros s2 o (r & -> & H2). exists r. split; [done|]. lia.
Qed.

Lemma read_reply_loop_ends n tmo sz f s : 
  wp (read_reply_loop n tmo sz f) (fun s' o => match o with
    | Some _ => (unread s' <= unread s)%nat
    | None => (n <= unread s)%nat
    end) s.
Proof.
  revert f s. induction n as [|n IH]; intros f s; cbn [read_reply_loop]; out_steps; [lia|].
  eapply wp_mono; [apply read_line_consumes|]. intros s1 o (l & -> & H1).
  destruct l as [line|]; [|out_steps; lia].
  destruct (reply_line line) as [[lc sep]|]; [|out_steps; lia].
  destruct (default _ f) as [f' text]. destruct (negb _); [out_steps; lia|].
  destruct (sep =? SP); [out_steps; lia|].
  eapply wp_mono; [apply IH|]. intros s2 [r|] H2; lia.
Qed.

Lemma read_reply_ends tmo sz : ends (smtp_read_reply fuel tmo sz).
Proof. intros s. unfold consumes. eapply wp_mono; [apply read_reply_loop_ends|]. intros s' [r|]; lia. Qed.

Lemma read_reply_all_ends tmo : ends (smtp_read_reply_all tmo SMTP_MAX_REPLY).
Proof.
  intros s. unfold consumes.
  assert (Hnone : wp (smtp_read_reply_all tmo SMTP_MAX_REPLY) (fun s' o => o <> None) s).
  { eapply wp_mono; [apply read_reply_all_spec|]. by intros s' o [H _]. }
  assert (Hle : forall n f rep s, wp (read_reply_all_loop n tmo SMTP_MAX_REPLY f rep) (fun s' o => (unread s' <= unread s)%nat) s).
  { induction n as [|n IH]; intros f rep s0; cbn [read_reply_all_loop]; out_steps; [lia|].
    eapply wp_mono; [apply read_line_consumes|]. intros s1 o (l & -> & H1).
    destruct l as [line|]; [|out_steps; lia]. destruct (reply_line line) as [[lc sep]|]; [|out_steps; lia].
    destruct (negb _); [out_steps; lia|]. destruct (orb _ _); [out_steps; lia|].
    destruct (sep =? SP); [out_steps; lia|]. eapply wp_mono; [apply IH|]. intros s2 r H2. cbv beta in *. lia. }
  unfold smtp_read_reply_all in *. specialize (Hle SMTP_MAX_REPLY None [] s).
  eapply wp_mono; [exact (wp_and _ _ _ _ Hnone Hle)|]. intros s' [r|] [H1 H2]; [lia|done].
Qed.

(** A network call leaves the rest of the state and no more to read. *)
Lemma wp_net_shrinks {A} (f : net -> net * A) (Q : Out -> option A -> Prop) s : shrinks f ->
  (forall n a, (left n <= left (o_net s))%nat -> Q (MkOut n (o_glob s) (o_conn s) (o_status s) (o_trace s)) (Some a)) ->
  wp (on_net f) Q s.
Proof. intros Hf HQ. apply wp_on_net. intros n a He. apply HQ. specialize (Hf (o_net s)). by rewrite He in Hf. Qed.

Lemma conn_send_ends buf tmo : ends (conn_send buf tmo).
Proof.
  unfold conn_send. intros s. unfold consumes. out_steps.
  eapply wp_mono with (P := fun s' o => exists w, o = Some w /\ (unread s' <= unread s)%nat).
  - destruct (cn_tls (o_conn s)); out_steps; apply wp_net_shrinks; eauto with finite;
      intros n r He; cbn beta match; cbn in He; out_steps; eexists; (split; [done|]); unfold unread; cbn; lia.
  - intros s1 o (w & -> & H1). destruct (w >? 0); out_steps; unfold unread in *; cbn in *; lia.
Qed.

Lemma write_all_ends buf tmo : ends (smtp_write_all buf tmo).
Proof.
  unfold smtp_write_all. generalize (length buf) as n. intros n. revert buf.
  induction n as [|n IH]; intros [|b buf]; cbn [write_all_loop]; try apply ends_ret.
  apply ends_bind; [apply conn_send_ends|]. intros w. ends_tac.
Qed.

#[local] Hint Resolve read_reply_ends read_reply_all_ends write_all_ends : finite.

Lemma exchange_ends sz tmo cmd : ends (smtp_exchange fuel sz tmo cmd).
Proof. unfold smtp_exchange. ends_tac. Qed.

Lemma auth_plain_ends sz tmo r : ends (smtp_auth_plain fuel sz tmo r).
Proof. pose proof exchange_ends. unfold smtp_auth_plain. ends_tac. Qed.

Lemma global_init_ends : ends smtp_tls_global_init.
Proof. unfold smtp_tls_global_init. ends_tac. Qed.

Lemma verify_init_ends ca : ends (smtp_tls_verify_init ca).
Proof. pose proof global_init_ends. unfold smtp_tls_verify_init, verify_done. ends_tac. Qed.

(** The connection of [smtp_tls_handshake] keeps its read-ahead buffer. *)
Lemma handshake_ends host v ca tmo sz : ends (smtp_tls_handshake host v ca tmo sz).
Proof.
  pose proof global_init_ends. pose proof (verify_init_ends ca). unfold smtp_tls_handshake.
  apply ends_bind; [done|]. intros r. destruct (negb (r =? 0)); [ends_tac|].
  apply ends_bind; [destruct v; [done|apply ends_ret]|]. intros r'. destruct (negb (r' =? 0)); [ends_tac|]. clear r r'.
  intros s. unfold consumes. out_steps.
  apply wp_net_shrinks; [eauto with finite|]. intros n1 r1 H1. cbn beta match.
  set (s1 := MkOut n1 _ _ _ _). assert (Hs1 : (unread s1 <= unread s)%nat) by (unfold unread; cbn; lia).
  assert (Hstop : forall s' m r, (unread s' <= unread s)%nat ->
    wp (_ ← put_status sz m; mret r) (fun s' (o : option Z) => match o with Some _ => (unread s' + 0 <= unread s)%nat | None => (fuel <= unread s)%nat end) s').
  { intros s' m r Hle. out_steps. unfold unread in *. cbn in *. lia. }
  destruct (r1 =? 0); cbn [negb]; [|by apply Hstop]. out_steps.
  eapply wp_mono with (P := fun s' o => o_conn s' = o_conn s /\ (unread s' <= unread s)%nat /\ o <> None).
  { destruct (is_nil host); [out_steps; done|]. apply wp_net_shrinks; [eauto with finite|].
    intros n2 r2 H2. unfold unread in *. cbn in *. split; [done|]. split; [lia|done]. }
  intros s2 [r2|] (Hc2 & Hs2 & Hn); [|done]. destruct (r2 =? 0); cbn [negb]; [|by apply Hstop]. out_steps.
  apply wp_net_shrinks; [eauto with finite|]. intros n3 r3 H3. cbn beta match.
  assert (Hu : (left n3 + length (cn_rbuf (o_conn s)) <= unread s)%nat).
  { unfold unread in *. rewrite Hc2 in Hs2. cbn in *. lia. }
  destruct (r3 =? 0); cbn [negb]; [|apply Hstop; unfold unread; cbn; exact Hu].
  out_steps. unfold unread at 1. cbn. lia.
Qed.

Lemma upgrade_ends sz e : ends (dlg_upgrade fuel sz e).
Proof.
  pose proof exchange_ends. pose proof handshake_ends. unfold dlg_upgrade, dlg_fallback.
  apply ends_bind; [auto|]. intros [code|]; [|apply ends_ret]. destruct (code =? 220).
  - apply (ends_with_conn fuel (fun c => with_rbuf c [])); [intros c; cbn; lia|]. intros _. ends_tac.
  - ends_tac.
Qed.

Lemma or_else_ends m k : ends m -> ends k -> ends (or_else m k).
Proof. intros Hm Hk. unfold or_else. apply ends_bind; [done|]. intros [rc|]; [apply ends_ret|done]. Qed.

Lemma modify_status_ends (f : Out -> bytes) :
  ends (modify (fun s => MkOut (o_net s) (o_glob s) (o_conn s) (f s) (o_trace s))).
Proof. intros s. unfold consumes, wp, unread. cbn. lia. Qed.

Lemma dialogue_ends sz e : ends (smtp_dialogue fuel sz e).
Proof.
  pose proof exchange_ends. pose proof handshake_ends. pose proof upgrade_ends. pose proof auth_plain_ends.
  pose proof modify_status_ends.
  unfold smtp_dialogue. apply or_else_ends; [unfold dlg_implicit; ends_tac|].
  apply or_else_ends; [unfold dlg_greeting; ends_tac|].
  apply ends_bind; [unfold dlg_ehlo; ends_tac|]. intros [rc|caps]; [apply ends_ret|].
  apply ends_bind; [unfold dlg_starttls, dlg_fallback; ends_tac|]. intros [rc|did]; [apply ends_ret|].
  apply or_else_ends; [unfold dlg_auth; ends_tac|].
  apply or_else_ends; [unfold dlg_command; ends_tac|]. apply or_else_ends; [unfold dlg_command; ends_tac|].
  apply or_else_ends; [unfold dlg_data; ends_tac|].
  apply or_else_ends; [unfold dlg_body, smtp_send_data; ends_tac|]. ends_tac.
Qed.

Lemma close_ends g : ends (smtp_conn_close g).
Proof.
  unfold smtp_conn_close, net_do. intros s. unfold consumes. out_steps.
  eapply wp_mono with (P := fun s' o => o = Some tt /\ (left (o_net s') <= left (o_net s))%nat).
  { destruct (_ && g); [apply wp_net_shrinks; eauto with finite; intros n [] Hn; done|out_steps; done]. }
  intros s1 o [-> H1]. out_steps. apply wp_net_shrinks; [eauto with finite|]. intros n2 [] H2. cbn beta match. out_steps.
  eapply wp_mono with (P := fun s' o => o = Some tt /\ (left (o_net s') <= left (o_net s))%nat).
  { destruct (_ >=? 0); [apply wp_net_shrinks; eauto with finite; intros n [] Hn; cbn in *; split; [done|lia]|].
    out_steps. cbn. split; [done|lia]. }
  intros s3 o [-> H3]. out_steps. unfold unread. cbn. lia.
Qed.

Lemma try_addresses_ends ais : ends (try_addresses ais).
Proof. induction ais as [|ai ais IH]; cbn [try_addresses]; unfold try_address; ends_tac. Qed.

Lemma attempt_ends sz e port : ends (send_attempt fuel sz e port).
Proof.
  pose proof dialogue_ends. pose proof close_ends. pose proof try_addresses_ends.
  unfold send_attempt. apply ends_bind; [unfold smtp_connect; ends_tac|]. intros [fd|]; [|apply ends_ret].
  unfold smtp_conn_init. apply ends_bind; [|intros _; ends_tac].
  intros s. unfold consumes. out_steps. unfold unread. cbn. lia.
Qed.

(** The attempts end: their number is bounded, and what can be read shrinks. *)
Lemma attempt_loop_ends sz n e port a retries s :
  0 <= a <= retries -> retries <= UINT32_MAX -> (Z.to_nat (retries - a) < n)%nat ->
  consumes fuel (fun _ => 0%nat) (attempt_loop fuel sz n e port a retries) s.
Proof.
  revert a s. induction n as [|n IH]; intros a s Ha Hr Hn; [lia|]. cbn [attempt_loop].
  unfold consumes. out_steps. eapply wp_mono.
  { assert (Hp : ends (if a >? 0 then _ ← emit (EvSleep (smtp_backoff_sec a));
      net_do (fun m => sys_sleep m (smtp_backoff_sec a)) else mret tt)) by ends_tac. apply Hp. }
  intros s1 [u|] H1; [|done]. out_steps. eapply wp_mono; [apply attempt_ends|].
  intros s2 [rc|] H2; cbv beta iota in *; [|lia].
  destruct (_ || _); [out_steps; lia|]. destruct (Z.geb_spec a retries); [out_steps; lia|].
  rewrite u32_small by (unfold UINT32_MAX in *; lia).
  eapply wp_mono; [apply IH; lia|]. intros s3 [r|] H3; lia.
Qed.

Lemma send_host_ends sz c host port from to body :
  0 <= rl_retries (relay c) <= UINT32_MAX -> ends (smtp_out_send_host fuel sz c host port from to body).
Proof.
  intros Hr. unfold smtp_out_send_host. ends_tac. intros s. apply attempt_loop_ends; lia.
Qed.

End Client.

(** ** A concrete network *)

(** The pieces the relay sends, and what its handshakes return. *)
Record script := { sc_pieces : list bytes; sc_handshake : Z }.

Definition ScriptNet : Net := {|
  net := script;
  addrinfo := unit;
  getaddrinfo n _ _ := (n, inr [tt]);
  sys_socket n _ := (n, Some 3);
  fcntl_nonblock n _ := (n, true);
  sys_connect n _ _ := (n, true);
  poll_connected n _ _ := (n, true);
  so_error_clear n _ := (n, true);
  fcntl_restore n _ := (n, true);
  sys_close n _ := n;
  sys_fill n _ _ _ :=
    match sc_pieces n with
    | [] => (n, [FlEof])
    | d :: ds => ({| sc_pieces := ds; sc_handshake := sc_handshake n |}, [FlIntr; FlData d])
    end;
  sys_write n _ _ d := (n, [WrSent (length d)]);
  sys_sleep n _ := n;
  ctr_drbg_seed n := (n, 0);
  ssl_config_defaults n := (n, 0);
  x509_crt_parse_file n _ := (n, 1);
  x509_crt_parse n := (n, 140);
  ssl_conf_ca_chain n := n;
  ssl_setup n _ _ := (n, 0);
  ssl_set_hostname n _ _ := (n, 0);
  ssl_handshake _ _ n _ := (n, sc_handshake n);
  ssl_get_verify_result n _ := if sc_handshake n =? MBEDTLS_ERR_X509_CERT_VERIFY_FAILED then 1 else 0;
  ssl_read _ _ n _ _ :=
    match sc_pieces n with
    | [] => (n, IoCode 0)
    | d :: ds => ({| sc_pieces := ds; sc_handshake := sc_handshake n |}, IoData d)
    end;
  ssl_write bio_send _ n _ d := bio_send n d;
  ssl_close_notify _ _ n _ := n;
  ssl_free n _ := n;
  mbedtls_strerror _ := bs "error";
|}.

#[global] Instance ScriptFinite : FiniteNet ScriptNet.
Proof.
  refine {| left := (fun n : @net ScriptNet => length (concat (sc_pieces n))) |}; intros; try (cbn; lia).
  - destruct n as [[|d ds] h]; cbn; rewrite ?length_app, ?length_take; lia.
  - destruct n as [[|d ds] h]; cbn; rewrite ?length_app, ?length_take; lia.
  - match goal with H : _ /\ _ |- _ => destruct H as [Hbs _] end. apply Hbs.
Defined.

(** A relay that greets, offers STARTTLS and takes one message. *)
Definition good_relay (caps : list string) : script := {|
  sc_handshake := 0;
  sc_pieces := map (fun l => bs l ++ CRLF)
    ("220 hi"%string :: caps ++ ["250 sender"; "250 rcpt"; "354 go"; "250-queued"; "250 as 1"]%string) |}.

Definition no_globals : TlsGlobals := {|
  g_tls_ready := false; g_tls_status := 0; g_verify_ready := false; g_verify_status := 0; g_ca_chain := None |}.

Definition script_out (n : script) : @Out ScriptNet := @MkOut ScriptNet n no_globals
  {| cn_fd := -1; cn_tls := false; cn_tmo := 0; cn_rbuf := [] |} [] [].

(** A configuration with the given TLS mode, AUTH and retries. *)
Definition relay_cfg (tls : string) (auth : bool) (retries : Z) : Config := {|
  hostname := Some (bs "mx"); domains := [];
  listen := {| cl_port := 25; cl_proxy_from := [] |};
  limits := {| lim_message := 10000; lim_line := 0; lim_rcpts := 10; lim_cmd_timeout := 60; lim_data_timeout := 0 |};
  relay := {| rl_host := Some (bs "relay"); rl_port := 25; rl_auth_enabled := auth; rl_username := Some (bs "u");
              rl_password := Some (bs "p"); rl_retries := retries; rl_tls := Some (bs tls); rl_max_attempts := 5;
              rl_tls_ca := None |};
  reply_relay := {| rl_host := None; rl_port := 0; rl_auth_enabled := false; rl_username := None; rl_password := None;
              rl_retries := 0; rl_tls := None; rl_max_attempts := 5; rl_tls_ca := None |};
  storage := {| sg_path := []; sg_spool := []; sg_retention_days := 7 |};
  reply := {| rc_prefix := None; rc_separator := None |};
  catch_all := None; aliases := []; dkim := [] |}.

Example good_run :
  (@smtp_out_send_host ScriptNet 100 256 (relay_cfg "none" false 2) (bs "relay") 25 (bs "a@x") (bs "b@y") (bs ".hi")
     (script_out (good_relay ["250 ok"%string]))).2 = Some SMTP_OK.
Proof. vm_compute. reflexivity. Qed.

Example verified_run :
  (@smtp_out_send_host ScriptNet 100 256 (relay_cfg "starttls-verify" true 0) (bs "relay") 25 (bs "a@x") (bs "b@y") (bs ".hi")
     (script_out (good_relay ["250-ok"; "250 STARTTLS"; "220 tls"; "250 ok"; "235 in"]%string))).2 = Some SMTP_OK.
Proof. vm_compute. reflexivity. Qed.
