(* ===== verification/SmtpRelay.v ===== *)
(** * The relay behind the queue

    The properties of [smtp_out_send_host], and the composition with the durable
    queue: [RelayHost] is a machine whose [smtp_out_send] is the client over a
    network, so the theorems on the queue speak about what a relay was sent and
    answered. *)

From S2P Require Import Prelude MailLines MailHeader DlEngine Store StoreSpec StoreTables StoreQueue Reply Json Config Prog SmtpParse SmtpWorld MemHost SmtpQueue SmtpQueueSpec SmtpReply SmtpOut SmtpDialogue SmtpOutSpec SmtpDialogueSpec SmtpSend SmtpEnds.

(** ** One delivery *)

Section Delivery.
Context {N : Net}.

(** The run of a delivery. *)
Lemma send_host_run fuel sz c host port from to body s :
  0 <= rl_retries (relay c) <= UINT32_MAX ->
  let '(s', o) := smtp_out_send_host fuel sz c host port from to body s in
  exists tr, o_trace s' = o_trace s ++ tr /\
    match envelope_of c host from to body with
    | None => tr = [] /\ o = Some SMTP_ERROR
    | Some e => attempts e (rl_retries (relay c)) 0 tr o
    end.
Proof.
  intros Hr. pose proof (send_host_spec fuel sz c host port from to body s Hr) as H. unfold wp in H.
  by destruct (smtp_out_send_host _ _ _ _ _ _ _ _ s).
Qed.

Lemma envelope_of_eq c host from to body e : envelope_of c host from to body = Some e ->
  ev_cfg e = c /\ ev_host e = host /\ ev_body e = body /\
  build_addr_cmd SMTP_MAX_LINE (bs "MAIL FROM:") from = Some (ev_mail_cmd e) /\
  build_addr_cmd SMTP_MAX_LINE (bs "RCPT TO:") to = Some (ev_rcpt_cmd e).
Proof.
  unfold envelope_of. destruct (_ || _); [done|].
  destruct (build_addr_cmd _ _ from), (build_addr_cmd _ _ to); by intros [= <-].
Qed.

(** What the relay did for a delivery that was reported as SMTP_OK: the last
    connection of [tr] took this sender, recipient and body. *)
Definition taken (c : Config) (from to body : bytes) (tr : list event) : Prop :=
  exists e before last, tr = before ++ EvConnect true :: last /\ accepted e last /\
    ev_cfg e = c /\ ev_body e = body /\
    ev_mail_cmd e = bs "MAIL FROM:<" ++ from ++ ">"%chr :: CRLF /\
    ev_rcpt_cmd e = bs "RCPT TO:<" ++ to ++ ">"%chr :: CRLF.

Lemma addr_cmd_eq n verb a cmd : build_addr_cmd n verb a = Some cmd -> cmd = verb ++ "<"%chr :: a ++ ">"%chr :: CRLF.
Proof. unfold build_addr_cmd. destruct (_ <=? _)%nat; [done|]. by intros [= <-]. Qed.

Lemma send_host_taken fuel sz c host port from to body s :
  0 <= rl_retries (relay c) <= UINT32_MAX ->
  let '(s', o) := smtp_out_send_host fuel sz c host port from to body s in
  exists tr, o_trace s' = o_trace s ++ tr /\ (o = Some SMTP_OK -> taken c from to body tr).
Proof.
  intros Hr. pose proof (send_host_run fuel sz c host port from to body s Hr) as H.
  destruct (smtp_out_send_host _ _ _ _ _ _ _ _ s) as [s' o]. destruct H as (tr & Ht & H).
  exists tr. split; [done|]. intros ->. destruct (envelope_of c host from to body) as [e|] eqn:He; [|by destruct H].
  apply envelope_of_eq in He as (Hc & _ & Hb & Hm & Hrc). apply addr_cmd_eq in Hm, Hrc.
  apply attempts_ok in H as (before & last & -> & Ha). by exists e, before, last.
Qed.

(** SMTP_OK means delivered. For every relay, network, TLS library, fuel and
    arguments, when [smtp_out_send_host] returns SMTP_OK the last connection it made
    took the envelope (MAIL and RCPT with these addresses were answered 2xx or
    3xx), answered 354 to DATA, was then sent exactly the dot-stuffed body and the
    CRLF.CRLF terminator, and answered 250 or 251 after all of it. *)
Theorem smtp_ok_means_accepted (fuel sz : nat) c host port from to body (s : Out)
  (Hretries : 0 <= rl_retries (relay c) <= UINT32_MAX)
  (Hok : (smtp_out_send_host fuel sz c host port from to body s).2 = Some SMTP_OK) :
  exists tr, o_trace (smtp_out_send_host fuel sz c host port from to body s).1 = o_trace s ++ tr /\
    taken c from to body tr.
Proof.
  pose proof (send_host_taken fuel sz c host port from to body s Hretries) as H.
  destruct (smtp_out_send_host _ _ _ _ _ _ _ _ s) as [s' o]. destruct H as (tr & Ht & H). eauto.
Qed.

(** C10: Credentials and mail stay on verified channels. With AUTH enabled, or
    with relay.tls = "starttls-verify", every byte that any delivery sends, in any
    attempt and whatever the relay answers, goes over TLS after a verified
    handshake on that connection, except pieces of the EHLO and STARTTLS lines. *)
Theorem credentials_confined (fuel sz : nat) c host port from to body (s : Out)
  (Hretries : 0 <= rl_retries (relay c) <= UINT32_MAX)
  (Hon : rl_auth_enabled (relay c) = true \/ tls_is c "starttls-verify" = true) :
  exists tr, o_trace (smtp_out_send_host fuel sz c host port from to body s).1 = o_trace s ++ tr /\
    (tr = [] \/ exists e, envelope_of c host from to body = Some e /\ confined e false tr).
Proof.
  pose proof (send_host_run fuel sz c host port from to body s Hretries) as H.
  destruct (smtp_out_send_host _ _ _ _ _ _ _ _ s) as [s' o]. destruct H as (tr & Ht & H).
  exists tr. split; [done|]. destruct (envelope_of c host from to body) as [e|] eqn:He; [right|by left; destruct H].
  exists e. split; [done|]. apply envelope_of_eq in He as (Hc & _).
  eapply attempts_confined; [|exact H]. unfold auth_on, mode_verify. by rewrite Hc.
Qed.

(** How often a delivery is tried. A delivery whose arguments are accepted
    makes at least one and at most [retries + 1] connections, exactly
    [retries + 1] when it reports SMTP_TEMPFAIL, and pauses between them for the
    backoff of the attempt's number; one whose arguments are refused makes none and
    reports SMTP_ERROR. *)
Theorem delivery_attempts_bounded (fuel sz : nat) c host port from to body (s : Out)
  (Hretries : 0 <= rl_retries (relay c) <= UINT32_MAX) :
  let '(s', o) := smtp_out_send_host fuel sz c host port from to body s in
  exists tr, o_trace s' = o_trace s ++ tr /\
    match envelope_of c host from to body with
    | None => tr = [] /\ o = Some SMTP_ERROR
    | Some _ => exists n, connects tr = Z.of_nat (S n) /\ Z.of_nat n <= rl_retries (relay c) /\
        sleeps tr = cadence 0 n /\ (o = Some SMTP_TEMPFAIL -> Z.of_nat n = rl_retries (relay c))
    end.
Proof.
  pose proof (send_host_run fuel sz c host port from to body s Hretries) as H.
  destruct (smtp_out_send_host _ _ _ _ _ _ _ _ s) as [s' o]. destruct H as (tr & Ht & H).
  exists tr. split; [done|]. destruct (envelope_of c host from to body) as [e|]; [|done].
  apply attempts_counts in H as (n & ?); [|lia]. by exists n.
Qed.







Lemma attempts_status e retries a tr rc : attempts e retries a tr (Some rc) -> is_status rc.
Proof.
  intros H. remember (Some rc) as o eqn:Ho.
  induction H as [a tr o Hatt Hend|a tr tr' o Hatt Hlt Hrest IH]; [subst; by eapply attempted_status|auto].
Qed.

(** C15: Every delivery ends over a relay that sends finitely many bytes: the run
    returns a status, with any fuel above the number of bytes the network still
    delivers. *)
Theorem delivery_ends `{!FiniteNet N} (fuel sz : nat) c host port from to body (s : Out)
  (Hretries : 0 <= rl_retries (relay c) <= UINT32_MAX) (Hfuel : (unread s < fuel)%nat) :
  exists rc, (smtp_out_send_host fuel sz c host port from to body s).2 = Some rc /\ is_status rc.
Proof.
  pose proof (send_host_ends fuel sz c host port from to body Hretries s) as He.
  pose proof (send_host_run fuel sz c host port from to body s Hretries) as H. unfold consumes, wp in He.
  destruct (smtp_out_send_host _ _ _ _ _ _ _ _ s) as [s' [rc|]]; cbn [fst snd] in *; [|lia].
  exists rc. split; [done|]. destruct H as (tr & Ht & H).
  destruct (envelope_of c host from to body) as [e|].
  - by eapply attempts_status.
  - destruct H as [_ [= ->]]. unfold is_status. set_solver.
Qed.

(** The same through the relay of the configuration. *)
Lemma out_send_taken fuel sz c from to body s :
  0 <= rl_retries (relay c) <= UINT32_MAX ->
  wp (SmtpDialogue.smtp_out_send fuel sz c from to body) (fun s' o =>
    exists tr, o_trace s' = o_trace s ++ tr /\ (o = Some SMTP_OK -> taken c from to body tr)) s.
Proof.
  intros Hr. unfold SmtpDialogue.smtp_out_send. out_steps.
  destruct (nonempty (rl_host (relay c))) as [host|].
  - match goal with |- wp _ _ ?s1 => pose proof (send_host_taken fuel sz c host (rl_port (relay c)) from to body s1 Hr) as H end.
    unfold wp. by destruct (smtp_out_send_host _ _ _ _ _ _ _ _ _).
  - out_steps. exists []. by rewrite app_nil_r.
Qed.

Lemma out_send_ends `{!FiniteNet N} fuel sz c from to body :
  0 <= rl_retries (relay c) <= UINT32_MAX -> ends fuel (SmtpDialogue.smtp_out_send fuel sz c from to body).
Proof.
  intros Hr. unfold SmtpDialogue.smtp_out_send. pose proof (send_host_ends fuel sz). ends_tac.
Qed.

End Delivery.

(** ** The machine with a relay *)

Section RelayHost.
Context (H : Host) (N : Net) (F : FiniteNet N) (sz : nat).

(** The machine of the queue, and the client's network, globals and trace. *)
Record relayed := {
  rs_host : @host H; rs_net : @net N; rs_glob : TlsGlobals; rs_trace : list event }.

Definition lift {A} (f : host -> host * A) (h : relayed) : relayed * A :=
  let '(x, a) := f (rs_host h) in
  ({| rs_host := x; rs_net := rs_net h; rs_glob := rs_glob h; rs_trace := rs_trace h |}, a).

(** A run of the client, with fuel for all the network will deliver. *)
Definition relay_send (h : relayed) (c : Config) (from to body : bytes) : relayed * Z :=
  let s := {| o_net := rs_net h; o_glob := rs_glob h; o_status := []; o_trace := rs_trace h;
              o_conn := {| cn_fd := -1; cn_tls := false; cn_tmo := 0; cn_rbuf := [] |} |} in
  let '(s', o) := smtp_out_send (S (left (rs_net h))) sz c from to body s in
  ({| rs_host := rs_host h; rs_net := o_net s'; rs_glob := o_glob s'; rs_trace := o_trace s' |}, default SMTP_ERROR o).

Definition RelayHost : Host := {|
  host := relayed;
  time_now := lift time_now;
  monotonic_ms := lift monotonic_ms;
  read_urandom := lift read_urandom;
  sys_mkdir h p := lift (fun x => sys_mkdir x p) h;
  write_file h p d := lift (fun x => write_file x p d) h;
  write_file_fsync h p d := lift (fun x => write_file_fsync x p d) h;
  read_file h p := lift (fun x => read_file x p) h;
  sys_unlink h p := (lift (fun x => (sys_unlink x p, tt)) h).1;
  sys_stat h p := lift (fun x => sys_stat x p) h;
  sys_readdir h p := lift (fun x => sys_readdir x p) h;
  sys_send h fd d := lift (fun x => sys_send x fd d) h;
  sys_recv h fd := lift (fun x => sys_recv x fd) h;
  SmtpWorld.smtp_out_send := relay_send;
  dkim_sign h m d s k := lift (fun x => dkim_sign x m d s k) h;
  auth_results_build h n m f ip := lift (fun x => auth_results_build x n m f ip) h;
  smtp_in_tls_available h := smtp_in_tls_available (rs_host h);
  smtp_in_tls_start h fd := lift (fun x => smtp_in_tls_start x fd) h;
  smtp_in_tls_prefeed h t d := lift (fun x => smtp_in_tls_prefeed x t d) h;
  smtp_in_tls_handshake_step h t := lift (fun x => smtp_in_tls_handshake_step x t) h;
  smtp_in_tls_recv h t := lift (fun x => smtp_in_tls_recv x t) h;
  smtp_in_tls_send h t d := lift (fun x => smtp_in_tls_send x t d) h;
  smtp_in_tls_pending h t := smtp_in_tls_pending (rs_host h) t;
  smtp_in_tls_handshaking h t := smtp_in_tls_handshaking (rs_host h) t;
  smtp_in_tls_established h t := smtp_in_tls_established (rs_host h) t;
  inet_pton := inet_pton;
  inet_ntop := inet_ntop;
  file_at h p := file_at (rs_host h) p;
|}.

Lemma lift_file {A} (f : host -> host * A) h p : file_at (rs_host (lift f h).1) p = file_at (f (rs_host h)).1 p.
Proof. unfold lift. by destruct (f (rs_host h)). Qed.

Lemma lift_value {A} (f : host -> host * A) h : (lift f h).2 = (f (rs_host h)).2.
Proof. unfold lift. by destruct (f (rs_host h)). Qed.

Lemma lift_trace {A} (f : host -> host * A) h : rs_trace (lift f h).1 = rs_trace h.
Proof. unfold lift. by destruct (f (rs_host h)). Qed.

Lemma lift_keeps {A} (f : host -> host * A) : keeps_files f -> @keeps_files RelayHost A (lift f).
Proof. intros Hf h p. cbn. by rewrite lift_file, Hf. Qed.

#[global] Instance RelayHostLaws : HostLaws H -> HostLaws RelayHost.
Proof.
  intros L. split; cbn; intros; rewrite ?lift_file, ?lift_value in *.
  - by apply write_ok.
  - by apply write_fsync_other.
  - by apply write_other.
  - cbn. by apply unlink_other.
  - by apply read_sound.
  - apply (lift_keeps (fun x => read_file x p)), read_keeps.
  - apply lift_keeps, time_keeps.
  - apply lift_keeps, mono_keeps.
  - apply lift_keeps, urandom_keeps.
  - apply (lift_keeps (fun x => sys_mkdir x p)), mkdir_keeps.
  - apply (lift_keeps (fun x => sys_stat x p)), stat_keeps.
  - apply (lift_keeps (fun x => sys_readdir x p)), readdir_keeps.
  - apply (lift_keeps (fun x => sys_send x fd d)), send_keeps.
  - intros h p. cbn. unfold relay_send. by destruct (SmtpDialogue.smtp_out_send _ _ _ _ _ _ _).
  - apply (lift_keeps (fun x => dkim_sign x m d s k)), sign_keeps.
  - apply (lift_keeps (fun x => auth_results_build x n m f ip)), auth_keeps.
  - apply (lift_keeps (fun x => smtp_in_tls_send x t d)), tls_send_keeps.
Qed.

(** The client always answers, and SMTP_OK means that the relay took the message. *)
Lemma relay_send_spec h c from to body : 0 <= rl_retries (relay c) <= UINT32_MAX ->
  exists tr, rs_trace (relay_send h c from to body).1 = rs_trace h ++ tr /\
    ((relay_send h c from to body).2 = SMTP_OK -> taken c from to body tr).
Proof.
  intros Hr. unfold relay_send.
  match goal with |- context [SmtpDialogue.smtp_out_send ?fu ?z ?c ?f ?t ?b ?s] =>
    pose proof (out_send_taken fu z c f t b s Hr) as Ht; pose proof (out_send_ends fu z c f t b Hr s) as He end.
  unfold ends, consumes, wp in *. destruct (SmtpDialogue.smtp_out_send _ _ _ _ _ _ _) as [s' [rc|]]; cbn [fst snd] in *.
  - destruct Ht as (tr & Ht & Hok). exists tr. split; [exact Ht|]. cbn. intros ->. by apply Hok.
  - unfold unread in He. cbn in He. lia.
Qed.

End RelayHost.

(** ** The queue over a relay *)

Section Queue.
Context {E : DlEngine} {H : Host} {N : Net} {F : FiniteNet N} {sz : nat}.
#[local] Existing Instance RelayHost.
Notation RH := (RelayHost H N F sz).
Notation RWorld := (@World E RH).

Definition wire_of (w : RWorld) : list event := rs_trace H N (w_host w).

(** Every attempt made since is in the trace, and those with SMTP_OK were taken. *)
Definition attempt_taken (tr : list event) (a : relay_attempt) : Prop :=
  ra_result a = SMTP_OK -> exists c pre seg post, tr = pre ++ seg ++ post /\ relay c = ra_relay a /\
    taken c (ra_from a) (ra_to a) (ra_body a) seg.

Definition tracked (w w' : RWorld) : Prop :=
  exists tr atts, wire_of w' = wire_of w ++ tr /\ w_sent w' = w_sent w ++ atts /\ Forall (attempt_taken tr) atts.

Lemma attempt_taken_app a b x : attempt_taken a x \/ attempt_taken b x -> attempt_taken (a ++ b) x.
Proof.
  intros [Hx|Hx] Hr; destruct (Hx Hr) as (c & pre & seg & post & -> & Hc & Ht).
  - exists c, pre, seg, (post ++ b). by rewrite <- !app_assoc.
  - exists c, (a ++ pre), seg, post. by rewrite <- !app_assoc.
Qed.

#[local] Instance tracked_preorder : PreOrder tracked.
Proof.
  split; [intros w; exists [], []; rewrite !app_nil_r; by auto|].
  intros w1 w2 w3 (t1 & a1 & Ht1 & Ha1 & Hf1) (t2 & a2 & Ht2 & Ha2 & Hf2).
  exists (t1 ++ t2), (a1 ++ a2). rewrite Ht2, Ht1, Ha2, Ha1, <- !app_assoc. split; [done|]. split; [done|].
  apply Forall_app. split; eapply Forall_impl; [exact Hf1| |exact Hf2|]; eauto using attempt_taken_app.
Qed.

Lemma still_tracked (w w' : RWorld) : wire_of w' = wire_of w -> w_sent w' = w_sent w -> tracked w w'.
Proof. intros Ht Hs. exists [], []. by rewrite !app_nil_r. Qed.

Lemma on_store_tracked {A} (f : Store -> Store * A) : preserves tracked (on_store f).
Proof. intros w. unfold on_store. destruct (f (w_store w)). by apply still_tracked. Qed.

Lemma on_marks_tracked g : preserves tracked (on_marks g).
Proof. intros w. by apply still_tracked. Qed.

Lemma on_lift_tracked {A} (f : @host H -> @host H * A) : preserves tracked (@on_host E RH A (lift H N f)).
Proof.
  intros w. unfold on_host. pose proof (lift_trace H N f (w_host w)) as Ht.
  destruct (lift H N f (w_host w)). by apply still_tracked.
Qed.

Lemma out_send_tracked cfg f t b : 0 <= rl_retries (relay cfg) <= UINT32_MAX -> preserves tracked (out_send cfg f t b).
Proof.
  intros Hr w. unfold out_send. destruct (relay_send_spec H N F sz (w_host w) cfg f t b Hr) as (tr & Ht & Hok).
  cbn [SmtpWorld.smtp_out_send RelayHost]. destruct (relay_send H N F sz (w_host w) cfg f t b) as [h rc]. cbn [fst snd] in *.
  eexists tr, [_]. split; [exact Ht|]. split; [done|]. constructor; [|done].
  intros Hrc. cbn in Hrc. exists cfg, [], tr, []. rewrite app_nil_r. split; [done|]. split; [done|]. by apply Hok.
Qed.

Lemma set_status_tracked m k st a nt : preserves tracked (SmtpQueue.set_status m k st a nt).
Proof. apply on_store_tracked. Qed.

Lemma log_add_tracked m ts d l r st : preserves tracked (log_add m ts d l r st).
Proof. apply preserves_bind; [apply _|apply on_store_tracked|intros ?; by apply preserves_ret, _]. Qed.

#[local] Hint Resolve set_status_tracked log_add_tracked on_marks_tracked : preserves.

Lemma queue_deliver_one_tracked cfg m k f t a : preserves tracked (queue_deliver_one cfg m k f t a).
Proof.
  unfold queue_deliver_one. apply preserves_bind; [apply _| |intros now].
  { apply preserves_bind; [apply _|apply (on_lift_tracked time_now)|intros ?; by apply preserves_ret, _]. }
  apply preserves_bind; [apply _|intros w; reflexivity|intros w]. cbv zeta.
  apply preserves_bind; [apply _|auto with preserves|intros rc].
  destruct (negb (rc =? VISAGE_OK)); [preserves_tac|].
  destruct (spool_out_path cfg m k 4096) as [p|]; [|preserves_tac].
  apply preserves_bind; [apply _|apply (on_lift_tracked (fun x => read_file x p))|intros [body|]].
  - apply preserves_bind; [apply _| |intros sres; unfold queue_finish, queue_requeue; preserves_tac].
    apply out_send_tracked. cbn. unfold UINT32_MAX. lia.
  - unfold queue_requeue. preserves_tac.
Qed.

(** The body of delivery (m, k) on disk. *)
Definition spooled cfg (w : RWorld) (m k : Z) (body : bytes) : Prop :=
  exists p, spool_out_path cfg m k 4096 = Some p /\ file_at (w_host w) p = Some body.

End Queue.

(** C11: Delivered means accepted by the relay. On a healthy engine, over any
    machine that satisfies [HostLaws] and any relay: when [queue_deliver_one] marks
    a delivery "delivered", then during that call the relay the reply mark selects
    took this sender and this recipient and answered 250 or 251 after the complete
    dot-stuffed bytes of the delivery's spool file. *)
Theorem delivered_means_accepted {E : DlEngine} {H : Host} {N : Net} {F : FiniteNet N} {sz : nat}
  {L : DlLaws E} {Hh : DlHealthy E} {HL : HostLaws H} cfg (w : @World E (RelayHost H N F sz)) (m k : Z) (f t : bytes) (a : Z)
  (Hfew : few_rows (w_db w) m k) (Hrow : exists x, qrow (w_db w) m k x) :
  let w' := (queue_deliver_one cfg m k f t a w).1 in
  exists st a' nt tr,
    settled (w_db w) (w_db w') m k st a' nt /\ wire_of w' = wire_of w ++ tr /\
    (st = bs "delivered" -> exists c body pre seg post,
       spooled cfg w m k body /\ tr = pre ++ seg ++ post /\
       relay c = relay (one_shot cfg (relay_of cfg w m k)) /\ taken c f t body seg).
Proof.
  cbv zeta. destruct (queue_deliver_one_tracked cfg m k f t a w) as (tr & atts & Htr & Hsent & Htaken).
  destruct (deliver_one_spec cfg w m k f t a Hfew Hrow) as (sent & st & a' & nt & Hsent' & Hres & Hset & _).
  exists st, a', nt, tr. split; [done|]. split; [done|]. intros ->.
  rewrite Hsent in Hsent'. apply app_inv_head in Hsent' as ->. unfold attempt_result in Hres.
  assert (Hok : forall r mx now, (bs "delivered", a', nt) = next_state r a now mx -> r = SMTP_OK).
  { intros r mx now. unfold next_state. destruct (Z.eqb_spec r SMTP_OK); [done|].
    repeat case_match; intros [=]; discriminate. }
  destruct (spool_out_path cfg m k 4096) as [p|] eqn:Hp; [|by destruct sent].
  destruct sent as [|at_ [|? ?]]; [by apply Hok in Hres| |done].
  destruct Hres as (Hfile & <- & <- & Hrel & Hres). apply Hok in Hres. apply Forall_inv in Htaken.
  destruct (Htaken Hres) as (c & pre & seg & post & -> & Hc & Htk).
  exists c, (ra_body at_), pre, seg, post. rewrite Hc. split; [by exists p|]. done.
Qed.

(** ** Runs on concrete relays *)

Definition plain_cfg : Config := relay_cfg "none" false 2.
Definition secure_cfg : Config := relay_cfg "starttls-verify" true 0.

(** A delivery of ".hi" over a script. *)
Abbreviation deliver c n :=
  (@smtp_out_send_host ScriptNet 100 256 c (bs "relay") 25 (bs "a@x") (bs "b@y") (bs ".hi") (script_out n)) (only parsing).

Definition plain_relay : script := good_relay ["250 ok"%string].
Definition tls_relay : script := good_relay ["250-ok"; "250 STARTTLS"; "220 tls"; "250 ok"; "235 in"]%string.
Definition refusing_relay : script := {| sc_handshake := 0;
  sc_pieces := map (fun l => bs l ++ CRLF) ["220 hi"; "250 ok"; "550 no"]%string |}.

Lemma smtp_dialogue_refines_witness :
  (@smtp_dialogue ScriptNet 100 256 {| ev_cfg := plain_cfg; ev_host := bs "relay"; ev_tmo := 60; ev_dtmo := 60;
     ev_body := bs ".hi"; ev_mail_cmd := bs "MAIL"; ev_rcpt_cmd := bs "RCPT" |} (script_out plain_relay)).2 = Some SMTP_OK /\
  exists tr, finished {| ev_cfg := plain_cfg; ev_host := bs "relay"; ev_tmo := 60; ev_dtmo := 60;
     ev_body := bs ".hi"; ev_mail_cmd := bs "MAIL"; ev_rcpt_cmd := bs "RCPT" |} tr (Some SMTP_OK).
Proof.
  set (e := {| ev_cfg := _ |}).
  assert (Hrun : (@smtp_dialogue ScriptNet 100 256 e (script_out plain_relay)).2 = Some SMTP_OK) by (vm_compute; reflexivity).
  split; [exact Hrun|].
  pose proof (@smtp_dialogue_refines ScriptNet 100 256 e (script_out plain_relay) eq_refl) as H.
  revert H Hrun. generalize (@smtp_dialogue ScriptNet 100 256 e (script_out plain_relay)).
  intros [s' o] (tr & _ & Hf) Ho. exists tr. rewrite <- Ho. exact Hf.
Defined.

Lemma small_retries : 0 <= 0 <= UINT32_MAX /\ 0 <= 2 <= UINT32_MAX.
Proof. unfold UINT32_MAX. lia. Qed.

Lemma smtp_ok_means_accepted_witness :
  (deliver plain_cfg plain_relay).2 = Some SMTP_OK /\
  exists tr, o_trace (deliver plain_cfg plain_relay).1 = o_trace (script_out plain_relay) ++ tr /\ taken plain_cfg (bs "a@x") (bs "b@y") (bs ".hi") tr.
Proof.
  assert (Hrun : (deliver plain_cfg plain_relay).2 = Some SMTP_OK) by (vm_compute; reflexivity).
  split; [exact Hrun|].
  exact (@smtp_ok_means_accepted ScriptNet 100 256 plain_cfg (bs "relay") 25 (bs "a@x") (bs "b@y") (bs ".hi")
    (script_out plain_relay) (proj2 small_retries) Hrun).
Defined.

Lemma credentials_confined_witness :
  (deliver secure_cfg tls_relay).2 = Some SMTP_OK /\
  existsb (fun ev => match ev with EvSend true d => beq d (bs "AUTH PLAIN AHUAcA==" ++ CRLF) | _ => false end)
    (o_trace (deliver secure_cfg tls_relay).1) = true /\
  exists tr, o_trace (deliver secure_cfg tls_relay).1 = o_trace (script_out tls_relay) ++ tr /\
    (tr = [] \/ exists e, envelope_of secure_cfg (bs "relay") (bs "a@x") (bs "b@y") (bs ".hi") = Some e /\ confined e false tr).
Proof.
  split; [vm_compute; reflexivity|]. split; [vm_compute; reflexivity|].
  exact (@credentials_confined ScriptNet 100 256 secure_cfg (bs "relay") 25 (bs "a@x") (bs "b@y") (bs ".hi")
    (script_out tls_relay) (proj1 small_retries) (or_introl eq_refl)).
Defined.

(** Three pieces of EOF: the delivery is tried three times. *)
Lemma delivery_attempts_bounded_witness :
  connects (o_trace (deliver plain_cfg {| sc_pieces := []; sc_handshake := 0 |}).1) = 3 /\
  exists n tr, connects tr = Z.of_nat (S n) /\ sleeps tr = cadence 0 n.
Proof.
  split; [vm_compute; reflexivity|].
  pose proof (@delivery_attempts_bounded ScriptNet 100 256 plain_cfg (bs "relay") 25 (bs "a@x") (bs "b@y") (bs ".hi")
    (script_out {| sc_pieces := []; sc_handshake := 0 |}) (proj2 small_retries)) as H.
  revert H. generalize (@smtp_out_send_host ScriptNet 100 256 plain_cfg (bs "relay") 25 (bs "a@x") (bs "b@y") (bs ".hi")
    (script_out {| sc_pieces := []; sc_handshake := 0 |})).
  intros [s' o] (tr & _ & H). destruct (envelope_of plain_cfg _ _ _ _) as [e|] eqn:He; [|vm_compute in He; discriminate].
  destruct H as (n & Hc & _ & Hs & _). exists n, tr. split; [exact Hc|exact Hs].
Defined.


(** STARTTLS that must verify, against a handshake that ends with this error: a
    timeout is temporary, a certificate that does not verify is permanent. *)
Definition handshaking_relay (hr : Z) : script := {| sc_handshake := hr;
  sc_pieces := map (fun l => bs l ++ CRLF) ["220 hi"; "250-ok"; "250 STARTTLS"; "220 tls"]%string |}.

Example handshake_timeout : (deliver secure_cfg (handshaking_relay MBEDTLS_ERR_SSL_TIMEOUT)).2 = Some SMTP_TEMPFAIL.
Proof. vm_compute. reflexivity. Qed.

Example handshake_bad_certificate :
  (deliver secure_cfg (handshaking_relay MBEDTLS_ERR_X509_CERT_VERIFY_FAILED)).2 = Some SMTP_PERMFAIL.
Proof. vm_compute. reflexivity. Qed.

Lemma delivery_ends_witness :
  exists rc, (deliver plain_cfg refusing_relay).2 = Some rc /\ is_status rc.
Proof.
  refine (@delivery_ends ScriptNet ScriptFinite 100 256 plain_cfg (bs "relay") 25 (bs "a@x") (bs "b@y") (bs ".hi")
    (script_out refusing_relay) (proj2 small_retries) _).
  apply Nat.ltb_lt. vm_compute. reflexivity.
Defined.

(** The world of [MemHost] over a scripted relay. *)
Definition relay_world (n : script) : @World MemEngine (RelayHost MemHost ScriptNet ScriptFinite 256) :=
  @MkWorld MemEngine (RelayHost MemHost ScriptNet ScriptFinite 256) mem_q []
    (Build_relayed MemHost ScriptNet (MkMachine 2000 [(bs "/spool/7.0.out.eml", bs "hi")] 0 0 []) n no_globals []) [].

Definition mem_relay_cfg : Config := {|
  hostname := hostname mem_cfg; domains := domains mem_cfg; listen := listen mem_cfg; limits := limits mem_cfg;
  relay := relay plain_cfg; reply_relay := relay plain_cfg; storage := storage mem_cfg; reply := reply mem_cfg;
  catch_all := None; aliases := []; dkim := [] |}.

Lemma delivered_means_accepted_witness :
  let w := relay_world plain_relay in
  let w' := (queue_deliver_one mem_relay_cfg 7 0 (bs "a@x") (bs "b@y") 0 w).1 in
  map ra_result (w_sent w') = [SMTP_OK] /\
  exists st a' nt tr, settled (w_db w) (w_db w') 7 0 st a' nt /\ wire_of w' = wire_of w ++ tr.
Proof.
  split; [vm_compute; reflexivity|].
  destruct (delivered_means_accepted (L := MemLaws) mem_relay_cfg (relay_world plain_relay) 7 0 (bs "a@x") (bs "b@y") 0
    (mem_q_few 7 0) (mem_queue_world_row SMTP_OK)) as (st & a' & nt & tr & Hs & Ht & _).
  exists st, a', nt, tr. split; [exact Hs|exact Ht].
Defined.

(** ** A relay that never ends its reply *)

(** A network on which every read yields another continuation line. *)
Definition EndlessNet : Net := {|
  net := unit; addrinfo := unit;
  getaddrinfo n _ _ := (n, inr [tt]); sys_socket n _ := (n, Some 3); fcntl_nonblock n _ := (n, true);
  sys_connect n _ _ := (n, true); poll_connected n _ _ := (n, true); so_error_clear n _ := (n, true);
  fcntl_restore n _ := (n, true); sys_close n _ := n;
  sys_fill n _ _ _ := (n, [FlData (bs "220-x" ++ CRLF)]);
  sys_write n _ _ d := (n, [WrSent (length d)]); sys_sleep n _ := n;
  ctr_drbg_seed n := (n, 0); ssl_config_defaults n := (n, 0); x509_crt_parse_file n _ := (n, 1);
  x509_crt_parse n := (n, 140); ssl_conf_ca_chain n := n; ssl_setup n _ _ := (n, 0); ssl_set_hostname n _ _ := (n, 0);
  ssl_handshake _ _ n _ := (n, 0); ssl_get_verify_result n _ := 0; ssl_read _ _ n _ _ := (n, IoCode 0);
  ssl_write _ _ n _ _ := (n, -1); ssl_close_notify _ _ n _ := n; ssl_free n _ := n; mbedtls_strerror _ := [] |}.

Lemma endless_loop fuel tmo sz f s : cn_tls (@o_conn EndlessNet s) = false -> cn_rbuf (o_conn s) = [] ->
  match f with Some (c, _) => c = 220 | None => True end ->
  (read_reply_loop fuel tmo sz f s).2 = None.
Proof.
  revert f s. induction fuel as [|fuel IH]; intros f [n g [fd t tm b] st tr] Ht Hb Hf; [done|]. cbn in Ht, Hb. subst t b.
  cbn [read_reply_loop]. unfold mbind, prog_bind at 1.
  assert (Hl : smtp_read_line tmo SMTP_MAX_LINE (@MkOut EndlessNet n g {| cn_fd := fd; cn_tls := false; cn_tmo := tm; cn_rbuf := [] |} st tr)
    = (@MkOut EndlessNet n g {| cn_fd := fd; cn_tls := false; cn_tmo := tm; cn_rbuf := [] |} st (tr ++ [EvLine false (bs "220-x" ++ CRLF)]),
       Some (Some (bs "220-x" ++ CRLF)))) by (vm_compute; reflexivity).
  rewrite Hl. destruct f as [[c text]|]; [subst c|]; apply IH; done.
Qed.

(** A reply without a last line is read for ever: no fuel is enough. *)
Lemma endless_reply_runs fuel sz e s : tls_is (ev_cfg e) "implicit" = false ->
  cn_tls (@o_conn EndlessNet s) = false -> cn_rbuf (o_conn s) = [] -> (smtp_dialogue fuel sz e s).2 = None.
Proof.
  intros Hi Ht Hb. unfold smtp_dialogue, or_else, dlg_implicit, dlg_greeting. rewrite Hi.
  pose proof (endless_loop fuel (ev_tmo e) SMTP_MAX_LINE None s Ht Hb I) as Hl.
  unfold smtp_read_reply, mbind, prog_bind, mret, prog_ret. destruct (read_reply_loop _ _ _ _ s) as [s' o].
  cbn in Hl. by subst o.
Qed.

(** The CA chain of the first verified handshake serves all later ones: a second
    [smtp_tls_verify_init] with another [tls_ca] does nothing. *)
Lemma verify_init_ignores_ca {N : Net} (s : Out) ca : g_verify_ready (o_glob s) = true ->
  smtp_tls_verify_init ca s = (s, Some (g_verify_status (o_glob s))).
Proof. intros Hr. unfold smtp_tls_verify_init, mbind, prog_bind, gets. by rewrite Hr. Qed.
