(* ===== verification/OutboxAuth.v ===== *)
(** * Credentials and lockout of the outbox (src/src/outbox_auth.c)

    The base64 decoder of AUTH, the credential file, the credential check and the
    table of failed attempts per peer address. A C string is the list of its
    bytes; the file is an argument ([None] when it cannot be read). *)

From S2P Require Import Prelude SmtpReply.

(** ** Base64 decoding *)

Definition b64_val (c : Z) : Z :=
  if ("A"%chr <=? c) && (c <=? "Z"%chr) then c - "A"%chr
  else if ("a"%chr <=? c) && (c <=? "z"%chr) then c - "a"%chr + 26
  else if ("0"%chr <=? c) && (c <=? "9"%chr) then c - "0"%chr + 52
  else if c =? "+"%chr then 62
  else if c =? "/"%chr then 63
  else -1.

(** The loop: [acc] is a uint32_t, [out] the bytes written so far. *)
Fixpoint b64_decode_loop (inp : bytes) (outsz : nat) (acc nbits pad : Z) (out : bytes) : option bytes :=
  match inp with
  | [] =>
      if pad >? 2 then None
      else if (nbits >=? 8) || ((nbits >? 0) && negb (Z.land acc (Z.shiftl 1 nbits - 1) =? 0)) then None
      else Some out
  | c :: t =>
      if c =? "="%chr then b64_decode_loop t outsz acc nbits (pad + 1) out
      else if pad >? 0 then None
      else
        let v := b64_val c in
        if v <? 0 then None
        else
          let acc := u32 (Z.lor (Z.shiftl acc 6) v) in
          let nbits := nbits + 6 in
          if nbits >=? 8 then
            if (outsz <=? length out)%nat then None
            else b64_decode_loop t outsz acc (nbits - 8) pad (out ++ [Z.land (Z.shiftr acc (nbits - 8)) 255])
          else b64_decode_loop t outsz acc nbits pad out
  end.

(** [outbox_b64_decode]: the bytes when it returns 0. *)
Definition outbox_b64_decode (inp : bytes) (outsz : nat) : option bytes := b64_decode_loop inp outsz 0 0 0 [].

(** ** Credentials *)

Record OutboxCred := { oc_user : bytes; oc_pass : bytes }.

Definition user_char (c : Z) : bool :=
  (("A"%chr <=? c) && (c <=? "Z"%chr)) || (("a"%chr <=? c) && (c <=? "z"%chr))
  || (("0"%chr <=? c) && (c <=? "9"%chr)) || (c =? "."%chr) || (c =? "_"%chr) || (c =? "-"%chr).

Definition user_ok (u : bytes) : bool :=
  if is_nil u then false
  else if negb (forallb user_char u) then false
  else (length u <=? 128)%nat.

(** What one line of the file adds. *)
Definition cred_line (line : bytes) : list OutboxCred :=
  match line with
  | [] => []
  | c :: _ =>
      if c =? "#"%chr then []
      else match cut ":"%chr line with
           | None => []
           | Some (u, p) => if user_ok u && negb (is_nil p) then [{| oc_user := u; oc_pass := p |}] else []
           end
  end.

(** The loop over the lines; each consumes a byte. *)
Fixpoint auth_load_loop (fuel : nat) (p : bytes) : list OutboxCred :=
  match fuel, p with
  | O, _ | _, [] => []
  | S fuel', _ =>
      let line := take_while (fun c => negb (c =? LF)) p in
      cred_line line ++ auth_load_loop fuel' (eat LF (drop_while (fun c => negb (c =? LF)) p)).2
  end.

(** [outbox_auth_load]: the table after the call. *)
Definition outbox_auth_load (file : option bytes) : list OutboxCred :=
  match file with
  | None => []
  | Some buf => let s := c_str buf in auth_load_loop (length s) s
  end.

(** The byte loop of [ct_equal] from an index on. *)
Fixpoint ct_diff (n i : nat) (a b : bytes) (diff : Z) : Z :=
  match n with
  | O => diff
  | S n' =>
      let ca := if (i <? length a)%nat then at0 a i else 0 in
      let cb := if (i <? length b)%nat then at0 b i else 0 in
      ct_diff n' (S i) a b (Z.lor diff (Z.lxor ca cb))
  end.

Definition ct_equal (a b : bytes) : bool := ct_diff (Nat.max (length a) (length b)) 0 a b 0 =? 0.

Definition dummy_pass : bytes := bs "visage-dummy-outbox-password".

(** The password compared with: that of the first credential of the user. *)
Fixpoint candidate (creds : list OutboxCred) (user : bytes) : bytes :=
  match creds with
  | [] => dummy_pass
  | c :: cs => if beq (oc_user c) user then oc_pass c else candidate cs user
  end.

Definition outbox_auth_check (creds : list OutboxCred) (user pass : bytes) : bool :=
  ct_equal pass (candidate creds user).

(** ** Lockout *)

Definition OUTBOX_AUTH_MAX_FAILS : Z := 5.
Definition OUTBOX_AUTH_WINDOW_SEC : Z := 60.
Definition OUTBOX_AUTH_LOCKOUT_SEC : Z := 300.
Definition OUTBOX_AUTH_MAX_TRACKED : nat := 64.

(** [ip] holds the [len] bytes in use. *)
Record OutboxFail := { of_ip : bytes; of_count : Z; of_first_fail : Z; of_lock_until : Z }.

(** [fail_find]: the index. *)
Fixpoint fail_find (fails : list OutboxFail) (ip : bytes) : option nat :=
  match fails with
  | [] => None
  | f :: fs => if beq (of_ip f) ip then Some 0%nat else S <$> fail_find fs ip
  end.

(** The loop that picks the entry to evict, [ev] with first failure [best] so far. *)
Fixpoint evict_loop (fails : list OutboxFail) (j ev : nat) (best : Z) : nat :=
  match fails with
  | [] => ev
  | f :: fs => if of_first_fail f <? best then evict_loop fs (S j) j (of_first_fail f) else evict_loop fs (S j) ev best
  end.

Definition evict (fails : list OutboxFail) : nat :=
  match fails with [] => 0%nat | f :: fs => evict_loop fs 1 0 (of_first_fail f) end.

(** The counting of one failure. *)
Definition fail_count (f : OutboxFail) (now : Z) : OutboxFail :=
  let f := if now - of_first_fail f >? OUTBOX_AUTH_WINDOW_SEC
           then {| of_ip := of_ip f; of_count := 0; of_first_fail := now; of_lock_until := of_lock_until f |} else f in
  let n := u32 (of_count f + 1) in
  {| of_ip := of_ip f; of_count := n; of_first_fail := of_first_fail f;
     of_lock_until := if n >=? OUTBOX_AUTH_MAX_FAILS then now + OUTBOX_AUTH_LOCKOUT_SEC else of_lock_until f |}.

Definition fresh_fail (ip : bytes) : OutboxFail :=
  {| of_ip := ip; of_count := 0; of_first_fail := 0; of_lock_until := 0 |}.

Definition outbox_auth_fail (fails : list OutboxFail) (ip : bytes) (now : Z) : list OutboxFail :=
  if is_nil ip then fails
  else match fail_find fails ip with
       | Some i => alter (fun f => fail_count f now) i fails
       | None =>
           if (OUTBOX_AUTH_MAX_TRACKED <=? length fails)%nat
           then <[evict fails := fail_count (fresh_fail ip) now]> fails
           else fails ++ [fail_count (fresh_fail ip) now]
       end.

Definition outbox_auth_clear (fails : list OutboxFail) (ip : bytes) : list OutboxFail :=
  if is_nil ip then fails
  else match fail_find fails ip with
       | None => fails
       | Some i => alter (fun f => {| of_ip := of_ip f; of_count := 0; of_first_fail := 0; of_lock_until := 0 |}) i fails
       end.

(** The answer, and the table: an expired lock is removed. *)
Definition outbox_auth_blocked (fails : list OutboxFail) (ip : bytes) (now : Z) : list OutboxFail * bool :=
  if is_nil ip then (fails, false)
  else match fail_find fails ip with
       | None => (fails, false)
       | Some i =>
           match fails !! i with
           | None => (fails, false)
           | Some f =>
               if negb (of_lock_until f =? 0) && (now <? of_lock_until f) then (fails, true)
               else (alter (fun f => {| of_ip := of_ip f; of_count := of_count f; of_first_fail := of_first_fail f;
                                        of_lock_until := 0 |}) i fails, false)
           end
       end.

Example b64_1 : outbox_b64_decode (bs "AHUAcA==") 10 = Some [0; 117; 0; 112].
Proof. vm_compute. reflexivity. Qed.

(** ** Base64: decoding inverts encoding *)

Lemma b64_digit_spec v sh : exists d, 0 <= d < 64 /\ d = Z.land (Z.shiftr v sh) 63 /\
  b64_val (b64_digit v sh) = d /\ b64_digit v sh <> "="%chr.
Proof.
  exists (Z.land (Z.shiftr v sh) 63). assert (Hr : 0 <= Z.land (Z.shiftr v sh) 63 < 64).
  { change 63 with (Z.ones 6). rewrite Z.land_ones by lia. apply Z.mod_pos_bound. lia. }
  split; [done|]. split; [done|]. unfold b64_digit. set (d := Z.land (Z.shiftr v sh) 63) in *. clearbody d.
  assert (Hall : forallb (fun n => (b64_val (at0 b64_tab n) =? Z.of_nat n) && negb (at0 b64_tab n =? "="%chr)) (seq 0 64) = true)
    by (vm_compute; reflexivity).
  rewrite forallb_forall in Hall. specialize (Hall (Z.to_nat d)). rewrite in_seq in Hall.
  specialize (Hall ltac:(lia)). apply andb_true_iff in Hall as [H1%Z.eqb_eq H2%negb_true_iff%Z.eqb_neq].
  split; [lia|done].
Qed.

Lemma lor_shift a b n : 0 <= b < 2 ^ n -> 0 <= n -> Z.lor (Z.shiftl a n) b = a * 2 ^ n + b.
Proof.
  intros Hb Hn. rewrite <- Z.add_lor_land, Z.shiftl_mul_pow2 by lia.
  assert (Z.land (a * 2 ^ n) b = 0) as ->; [|lia].
  apply Z.bits_inj'. intros i Hi. rewrite Z.land_spec, Z.bits_0.
  destruct (Z.lt_ge_cases i n).
  - by rewrite Z.mul_pow2_bits_low by lia.
  - destruct (Z.eq_dec b 0) as [->|Hb0]; [by rewrite Z.bits_0, andb_false_r|].
    rewrite (Z.bits_above_log2 b i), andb_false_r; [done|lia|]. apply Z.log2_lt_pow2; [lia|].
    apply Z.lt_le_trans with (2 ^ n); [lia|]. apply Z.pow_le_mono_r; lia.
Qed.

(** One digit moves six bits in. *)
Lemma b64_acc acc d : 0 <= d < 64 -> u32 (Z.lor (Z.shiftl acc 6) d) = (acc * 64 + d) mod 4294967296.
Proof. intros Hd. by rewrite lor_shift by lia. Qed.

(** The step on a digit. *)
Lemma decode_digit v sh t outsz acc nbits out :
  b64_decode_loop (b64_digit v sh :: t) outsz acc nbits 0 out =
    (let acc' := (acc * 64 + Z.land (Z.shiftr v sh) 63) mod 4294967296 in
     if nbits + 6 >=? 8 then
       if (outsz <=? length out)%nat then None
       else b64_decode_loop t outsz acc' (nbits + 6 - 8) 0 (out ++ [Z.land (Z.shiftr acc' (nbits + 6 - 8)) 255])
     else b64_decode_loop t outsz acc' (nbits + 6) 0 out).
Proof.
  destruct (b64_digit_spec v sh) as (d & Hd & Heq & Hv & Hne). rewrite <- Heq. cbv zeta.
  cbn [b64_decode_loop]. rewrite (proj2 (Z.eqb_neq _ _) Hne). cbn [Z.gtb Z.compare].
  rewrite Hv. destruct (Z.ltb_spec d 0); [lia|]. by rewrite b64_acc by lia.
Qed.

Lemma land255 z : Z.land z 255 = z mod 256.
Proof. change 255 with (Z.ones 8). by rewrite Z.land_ones. Qed.

Lemma land63 z : Z.land z 63 = z mod 64.
Proof. change 63 with (Z.ones 6). by rewrite Z.land_ones. Qed.


(** The last digits of the accumulator, through its wrap-around. *)
Lemma acc_low x d k : 0 <= d < 64 -> 0 < k -> (k | 4294967296 / 64) -> ((x * 64 + d) mod 4294967296) mod (64 * k) = x mod k * 64 + d.
Proof.
  intros Hd Hk [m Hm]. change (4294967296 / 64) with 67108864 in Hm.
  rewrite Z.mod_mod_divide; [|exists m; nia].
  pose proof (Z.div_mod x k ltac:(lia)). pose proof (Z.mod_pos_bound x k ltac:(lia)).
  symmetry. apply (Z.mod_unique_pos _ _ (x / k)); nia.
Qed.

(** A byte is read off the low bits. *)
Lemma byte_of acc n m : 0 <= n -> 0 <= acc -> m = 2 ^ n -> Z.land (Z.shiftr acc n) 255 = acc mod (256 * m) / m.
Proof.
  intros Hn Ha ->. rewrite land255, Z.shiftr_div_pow2 by lia. assert (0 < 2 ^ n) by lia.
  rewrite (Z.mul_comm 256), Z.rem_mul_r by lia. rewrite (Z.mul_comm (2 ^ n) (_ mod 256)), Z.div_add by lia.
  by rewrite (Z.div_small (acc mod 2 ^ n)) by (apply Z.mod_pos_bound; lia).
Qed.

Lemma digit_first v sh t outsz acc out :
  b64_decode_loop (b64_digit v sh :: t) outsz acc 0 0 out
  = b64_decode_loop t outsz ((acc * 64 + Z.land (Z.shiftr v sh) 63) mod 4294967296) 6 0 out.
Proof. by rewrite decode_digit. Qed.

Lemma digit_next v sh t outsz acc n m out : n = 6 \/ n = 4 \/ n = 2 -> (length out < outsz)%nat -> m = 2 ^ (n - 2) ->
  let acc' := (acc * 64 + Z.land (Z.shiftr v sh) 63) mod 4294967296 in
  b64_decode_loop (b64_digit v sh :: t) outsz acc n 0 out
  = b64_decode_loop t outsz acc' (n - 2) 0 (out ++ [acc' mod (256 * m) / m]).
Proof.
  intros Hn Hl Hm. cbv zeta. rewrite decode_digit. cbv zeta.
  destruct (Z.geb_spec (n + 6) 8); [|lia]. rewrite (proj2 (Nat.leb_gt _ _)) by lia.
  replace (n + 6 - 8) with (n - 2) by lia. rewrite (byte_of _ _ m); [done|lia| |done].
  apply Z.mod_pos_bound. lia.
Qed.

(** The bytes of a group, from the four digits. *)
Lemma group_digits a b c : is_byte a = true -> is_byte b = true -> is_byte c = true ->
  let v := Z.lor (Z.lor (Z.shiftl a 16) (Z.shiftl b 8)) c in
  Z.land (Z.shiftr v 18) 63 = a / 4 /\ Z.land (Z.shiftr v 12) 63 = a mod 4 * 16 + b / 16 /\
  Z.land (Z.shiftr v 6) 63 = b mod 16 * 4 + c / 64 /\ Z.land (Z.shiftr v 0) 63 = c mod 64.
Proof.
  intros Ha Hb Hc v. unfold is_byte in Ha, Hb, Hc.
  assert (Hv : v = a * 65536 + b * 256 + c).
  { subst v. rewrite <- Z.lor_assoc, (lor_shift b c 8), (lor_shift a _ 16) by lia. lia. }
  rewrite !land63, !Z.shiftr_div_pow2 by lia. rewrite Hv. clear Hv v.
  change (2 ^ 18) with 262144. change (2 ^ 12) with 4096. change (2 ^ 6) with 64. change (2 ^ 0) with 1.
  repeat split; Z.to_euclidean_division_equations; lia.
Qed.

(** Two bytes from three digits, and one from two, whatever the accumulator held. *)
Lemma first_byte x a b4 : 0 <= a < 256 -> 0 <= b4 < 16 ->
  let acc1 := (x * 64 + a / 4) mod 4294967296 in
  ((acc1 * 64 + (a mod 4 * 16 + b4)) mod 4294967296) mod (256 * 16) / 16 = a.
Proof.
  intros Ha Hb. cbv zeta. change (256 * 16) with (64 * 64). rewrite acc_low; [|Z.to_euclidean_division_equations; lia|lia|by exists 1048576].
  assert (((x * 64 + a / 4) mod 4294967296) mod 64 = a / 4) as ->.
  { rewrite Z.mod_mod_divide by (by exists 67108864). Z.to_euclidean_division_equations. lia. }
  Z.to_euclidean_division_equations. lia.
Qed.

Lemma second_byte x a2 b c2 : 0 <= b < 256 -> 0 <= a2 < 4 -> 0 <= c2 < 4 ->
  let acc2 := (x * 64 + (a2 * 16 + b / 16)) mod 4294967296 in
  ((acc2 * 64 + (b mod 16 * 4 + c2)) mod 4294967296) mod (256 * 4) / 4 = b.
Proof.
  intros Hb Ha Hc. cbv zeta. change (256 * 4) with (64 * 16). rewrite acc_low; [|Z.to_euclidean_division_equations; lia|lia|by exists 4194304].
  assert (((x * 64 + (a2 * 16 + b / 16)) mod 4294967296) mod 16 = b / 16) as ->.
  { rewrite Z.mod_mod_divide by (by exists 268435456). Z.to_euclidean_division_equations. lia. }
  Z.to_euclidean_division_equations. lia.
Qed.

Lemma third_byte x b4 c : 0 <= c < 256 -> 0 <= b4 < 16 ->
  let acc3 := (x * 64 + (b4 * 4 + c / 64)) mod 4294967296 in
  ((acc3 * 64 + c mod 64) mod 4294967296) mod (256 * 1) / 1 = c.
Proof.
  intros Hc Hb. cbv zeta. change (256 * 1) with (64 * 4). rewrite acc_low; [|Z.to_euclidean_division_equations; lia|lia|by exists 16777216].
  assert (((x * 64 + (b4 * 4 + c / 64)) mod 4294967296) mod 4 = c / 64) as ->.
  { rewrite Z.mod_mod_divide by (by exists 1073741824). Z.to_euclidean_division_equations. lia. }
  Z.to_euclidean_division_equations. lia.
Qed.

Lemma decode_pad t outsz acc nbits pad out :
  b64_decode_loop ("="%chr :: t) outsz acc nbits pad out = b64_decode_loop t outsz acc nbits (pad + 1) out.
Proof. done. Qed.

(** The end: two or four pending bits that are zero. *)
Lemma decode_end outsz acc n pad out : 0 <= pad <= 2 -> n = 2 \/ n = 4 -> 0 <= acc -> acc mod 2 ^ n = 0 ->
  b64_decode_loop [] outsz acc n pad out = Some out.
Proof.
  intros Hp Hn Ha Hz. cbn [b64_decode_loop]. destruct (Z.gtb_spec pad 2); [lia|].
  destruct (Z.geb_spec n 8); [lia|].
  replace (Z.shiftl 1 n - 1) with (Z.ones n) by (rewrite Z.ones_equiv, Z.shiftl_1_l; lia). rewrite Z.land_ones by lia.
  by rewrite Hz, andb_false_r.
Qed.

Lemma decode_encode s outsz acc out : Forall (fun c => is_byte c = true) s -> 0 <= acc < 4294967296 ->
  (length out + length s <= outsz)%nat ->
  b64_decode_loop (b64_encode_loop s) outsz acc 0 0 out = Some (out ++ s).
Proof.
  revert acc out. induction s as [s IH] using bytes_len_ind. intros acc out Hs Hacc Hlen.
  destruct s as [|a [|b [|c t]]]; cbn [b64_encode_loop].
  - by rewrite app_nil_r.
  - apply Forall_cons in Hs as [Ha _]. assert (H0 : is_byte 0 = true) by done.
    destruct (group_digits a 0 0 Ha H0 H0) as (D1 & D2 & _). cbn [Z.shiftl] in D1, D2.
    change (Z.shiftl 0 8) with 0 in D1, D2. rewrite !Z.lor_0_r in D1, D2. unfold is_byte in Ha. cbn [length] in Hlen.
    rewrite digit_first, (digit_next _ _ _ _ _ 6 16) by (auto; lia). rewrite D1, D2. cbv zeta.
    change (0 / 16) with 0. rewrite first_byte by lia. rewrite !decode_pad.
    apply decode_end; [lia|by right|apply Z.mod_pos_bound; lia|].
    change (2 ^ (6 - 2)) with 16. rewrite Z.mod_mod_divide by (by exists 268435456).
    Z.to_euclidean_division_equations. lia.
  - apply Forall_cons in Hs as [Ha [Hb _]%Forall_cons]. assert (H0 : is_byte 0 = true) by done.
    destruct (group_digits a b 0 Ha Hb H0) as (D1 & D2 & D3 & _). rewrite !Z.lor_0_r in D1, D2, D3.
    unfold is_byte in Ha, Hb. cbn [length] in Hlen.
    rewrite digit_first, (digit_next _ _ _ _ _ 6 16), (digit_next _ _ _ _ _ 4 4) by (rewrite ?length_app; cbn [length]; auto; lia).
    rewrite D1, D2, D3. cbv zeta. rewrite first_byte by (Z.to_euclidean_division_equations; lia).
    change (0 / 64) with 0. rewrite second_byte by (try (Z.to_euclidean_division_equations; lia); lia).
    rewrite !decode_pad, <- app_assoc. apply decode_end; [lia|by left|apply Z.mod_pos_bound; lia|].
    change (2 ^ (4 - 2)) with 4. rewrite Z.mod_mod_divide by (by exists 1073741824).
    Z.to_euclidean_division_equations. lia.
  - apply Forall_cons in Hs as [Ha [Hb [Hc Ht]%Forall_cons]%Forall_cons].
    destruct (group_digits a b c Ha Hb Hc) as (D1 & D2 & D3 & D4). unfold is_byte in Ha, Hb, Hc. cbn [length] in Hlen.
    rewrite digit_first, (digit_next _ _ _ _ _ 6 16), (digit_next _ _ _ _ _ 4 4), (digit_next _ _ _ _ _ 2 1)
      by (rewrite ?length_app; cbn [length]; auto; lia).
    rewrite D1, D2, D3, D4. cbv zeta.
    rewrite first_byte by (Z.to_euclidean_division_equations; lia).
    rewrite second_byte by (Z.to_euclidean_division_equations; lia).
    rewrite third_byte by (Z.to_euclidean_division_equations; lia). change (2 - 2) with 0.
    rewrite IH; [by rewrite <- !app_assoc|cbn; lia|done|apply Z.mod_pos_bound; lia|rewrite !length_app; cbn; lia].
Qed.

Lemma b64_decode_encode s outsz : bytes_ok s -> (length s <= outsz)%nat ->
  outbox_b64_decode (b64_encode_loop s) outsz = Some s.
Proof. intros Hs Hl. unfold outbox_b64_decode. by rewrite decode_encode by (cbn; auto; lia). Qed.

(** The outbox decodes what the SMTP client encodes: for every byte string
    (NULs included) that fits, [smtp_b64_encode] succeeds into a buffer of
    4 * ceil(n / 3) + 1 bytes and [outbox_b64_decode] returns exactly the string. *)
Theorem b64_roundtrip (s : bytes) (outsz : nat) (Hs : bytes_ok s) (Hsize : len s <= SIZE_MAX / 2)
  (Hout : (length s <= outsz)%nat) :
  exists t, smtp_b64_encode s ((len s + 2) / 3 * 4 + 1) = Some t /\ outbox_b64_decode t outsz = Some s.
Proof.
  exists (b64_encode_loop s). split; [|by apply b64_decode_encode].
  unfold smtp_b64_encode. destruct (Z.gtb_spec (len s) (SIZE_MAX / 2)); [lia|]. by rewrite Z.ltb_irrefl.
Qed.

Lemma b64_roundtrip_witness :
  exists t, smtp_b64_encode [0; 117; 0; 255] 9 = Some t /\ outbox_b64_decode t 4 = Some [0; 117; 0; 255].
Proof. apply (b64_roundtrip [0; 117; 0; 255] 4); [repeat constructor|vm_compute; discriminate|cbn; lia]. Defined.

(** The decoder calls itself strict, and accepts texts without their padding, with
    the wrong padding, and single digits that encode nothing. *)
Lemma b64_accepts_noncanonical :
  outbox_b64_decode (bs "QQ") 4 = Some (bs "A") /\ outbox_b64_decode (bs "QQ=") 4 = Some (bs "A") /\
  outbox_b64_decode (bs "QUI==") 4 = Some (bs "AB") /\ outbox_b64_decode (bs "=") 4 = Some [].
Proof. vm_compute. done. Qed.

(** ** The credential check *)

Lemma lor_0 a b : Z.lor a b = 0 <-> a = 0 /\ b = 0.
Proof. apply Z.lor_eq_0_iff. Qed.

Lemma ct_diff_0 n i a b d : ct_diff n i a b d = 0 <->
  d = 0 /\ forall j, (i <= j < i + n)%nat ->
    (if (j <? length a)%nat then at0 a j else 0) = (if (j <? length b)%nat then at0 b j else 0).
Proof.
  revert i d. induction n as [|n IH]; intros i d; cbn [ct_diff].
  - split; [intros ->; split; [done|lia]|by intros [-> _]].
  - rewrite IH, lor_0, Z.lxor_eq_0_iff. split.
    + intros [[-> Hi] Hj]. split; [done|]. intros j Hle. destruct (decide (j = i)) as [->|]; [done|]. apply Hj. lia.
    + intros [-> H]. split; [split; [done|apply H; lia]|]. intros j Hle. apply H. lia.
Qed.

Lemma at0_lt s i : at0 s i = if (i <? length s)%nat then at0 s i else 0.
Proof.
  destruct (Nat.ltb_spec i (length s)); [done|]. unfold at0. by rewrite lookup_ge_None_2 by lia.
Qed.

Lemma at0_eq a b : 0 ∉ a -> 0 ∉ b -> (forall j, at0 a j = at0 b j) -> a = b.
Proof.
  intros Ha Hb H. apply list_eq. intros i. specialize (H i). unfold at0 in H.
  destruct (a !! i) as [x|] eqn:Hx, (b !! i) as [y|] eqn:Hy; cbn in H; try congruence; exfalso; subst.
  - apply Ha. by eapply list_elem_of_lookup_2.
  - apply Hb. by eapply list_elem_of_lookup_2.
Qed.

(** On C strings [ct_equal] is equality. *)
Lemma ct_equal_spec a b : 0 ∉ a -> 0 ∉ b -> ct_equal a b = beq a b.
Proof.
  intros Ha Hb. unfold ct_equal. destruct (beq a b) eqn:He.
  - apply beq_spec in He as ->. apply Z.eqb_eq, ct_diff_0. split; [done|]. intros j _. done.
  - apply Z.eqb_neq. rewrite ct_diff_0. intros [_ H]. assert (a = b) as ->; [|by rewrite beq_refl in He].
    apply at0_eq; [done..|]. intros j. rewrite (at0_lt a), (at0_lt b).
    destruct (Nat.lt_ge_cases j (Nat.max (length a) (length b))); [apply H; lia|].
    rewrite (proj2 (Nat.ltb_ge _ _)), (proj2 (Nat.ltb_ge _ _)) by lia. done.
Qed.

(** The passwords of the table are C strings. *)
Definition creds_ok (creds : list OutboxCred) : Prop := Forall (fun c => 0 ∉ oc_pass c) creds.

Lemma candidate_ok creds user : creds_ok creds -> 0 ∉ candidate creds user.
Proof.
  induction 1 as [|c cs Hc _ IH]; cbn [candidate]; [|by destruct (beq _ _)].
  rewrite <- has_spec. vm_compute. discriminate.
Qed.

(** What a user and a password that are let in have in common: the password is that
    of the first line of the user, or the user is in no line and the password is the
    dummy password of the source, which the code compares with all the same. *)
Definition password_of (creds : list OutboxCred) (user pass : bytes) : Prop :=
  (exists pre c post, creds = pre ++ c :: post /\ oc_user c = user /\ oc_pass c = pass /\
     Forall (fun x => oc_user x <> user) pre) \/
  (Forall (fun x => oc_user x <> user) creds /\ pass = dummy_pass).

Lemma candidate_password creds user : password_of creds user (candidate creds user).
Proof.
  induction creds as [|c cs IH]; cbn [candidate]; [by right|].
  destruct (beq (oc_user c) user) eqn:Hc; [apply beq_spec in Hc; left; by exists [], c, cs|].
  assert (Hne : oc_user c <> user) by (intros Hu; apply beq_spec in Hu; congruence).
  destruct IH as [(pre & x & post & -> & Hu & Hp & Hpre)|[Hn Hp]].
  - left. exists (c :: pre), x, post. repeat split; try done. by constructor.
  - right. split; [by constructor|done].
Qed.

(** A check that succeeds is against the user's own password. *)
Lemma auth_check_password creds user pass : creds_ok creds -> 0 ∉ pass ->
  outbox_auth_check creds user pass = true -> password_of creds user pass.
Proof.
  intros Hc Hp. unfold outbox_auth_check. rewrite ct_equal_spec by auto using candidate_ok.
  rewrite beq_spec. intros ->. apply candidate_password.
Qed.

(** The credential check, exactly. Over any table of C strings,
    [outbox_auth_check] accepts a known user with the password of the user's first
    line and with no other, and an unknown user with the fixed dummy password
    only. *)
Theorem outbox_auth_check_exact (creds : list OutboxCred) (user pass : bytes)
  (Hcreds : creds_ok creds) (Hpass : 0 ∉ pass) :
  outbox_auth_check creds user pass = true <->
  match List.find (fun c => beq (oc_user c) user) creds with
  | Some c => pass = oc_pass c
  | None => pass = dummy_pass
  end.
Proof.
  unfold outbox_auth_check. rewrite ct_equal_spec by auto using candidate_ok. rewrite beq_spec.
  clear. induction creds as [|c cs IH]; cbn [candidate List.find]; [done|]. by destruct (beq (oc_user c) user).
Qed.

Lemma outbox_auth_check_exact_witness :
  outbox_auth_check [{| oc_user := bs "u"; oc_pass := bs "p" |}] (bs "u") (bs "p") = true.
Proof.
  apply outbox_auth_check_exact; [|rewrite <- has_spec; vm_compute; discriminate|reflexivity].
  repeat constructor. rewrite <- has_spec. vm_compute. discriminate.
Defined.

(** Whatever the credential file, any user name that is not in it authenticates
    with the dummy password of the source. *)
Lemma dummy_password_authenticates creds user :
  Forall (fun c => beq (oc_user c) user = false) creds -> outbox_auth_check creds user dummy_pass = true.
Proof.
  intros Hu. unfold outbox_auth_check. assert (candidate creds user = dummy_pass) as ->; [|by vm_compute].
  induction Hu as [|c cs Hc _ IH]; cbn [candidate]; [done|]. by rewrite Hc.
Qed.

Lemma auth_loop_sub fuel p x c : c ∈ auth_load_loop fuel p -> x ∈ oc_pass c -> x ∈ p.
Proof.
  revert p. induction fuel as [|fuel IH]; intros p; [by intros ?%elem_of_nil|]. destruct p as [|y p]; [by intros ?%elem_of_nil|].
  cbn [auth_load_loop]. set (q := y :: p). rewrite elem_of_app. intros [Hc|Hc] Hx.
  - rewrite <- (take_drop_while (fun c => negb (c =? LF)) q). apply elem_of_app. left. revert Hc.
    generalize (take_while (fun c => negb (c =? LF)) q). intros line. unfold cred_line.
    repeat case_match; rewrite ?elem_of_nil, ?list_elem_of_singleton; try done. intros ->. cbn in Hx.
    match goal with H : cut ?c ?s = _ |- _ => pose proof (cut_spec c s) as Hs; rewrite H in Hs end.
    destruct Hs as [-> _]. rewrite elem_of_app, elem_of_cons. auto.
  - specialize (IH _ Hc Hx). rewrite <- (take_drop_while (fun c => negb (c =? LF)) q).
    rewrite <- (eat_app LF (drop_while _ q)), !elem_of_app. auto.
Qed.

(** The passwords that are loaded are C strings. *)
Lemma auth_load_clean file : creds_ok (outbox_auth_load file).
Proof.
  destruct file as [buf|]; [|constructor]. apply Forall_forall. intros c Hc Hz. eapply auth_loop_sub in Hc; [|exact Hz].
  by apply c_str_no_nul in Hc.
Qed.

(** Every line that is loaded has a user name of the alphabet and a password. *)
Lemma auth_load_ok file : 
  Forall (fun c => user_ok (oc_user c) = true /\ oc_pass c <> []) (outbox_auth_load file).
Proof.
  destruct file as [buf|]; [|constructor]. cbn [outbox_auth_load]. generalize (c_str buf) as p. intros p.
  generalize (length p) as fuel. intros fuel. revert p.
  induction fuel as [|fuel IH]; intros p; [constructor|]. destruct p as [|x p]; [constructor|]. cbn [auth_load_loop].
  apply Forall_app. split; [|apply IH]. unfold cred_line. destruct (take_while _ _) as [|c l]; [constructor|].
  destruct (c =? _); [constructor|]. destruct (cut _ _) as [[u q]|]; [|constructor].
  destruct (user_ok u && negb (is_nil q)) eqn:H; [|constructor]. apply andb_true_iff in H as [Hu Hq].
  repeat constructor; [done|]. by destruct q.
Qed.

(** ** The lockout *)

(** The entry of an address. *)
Definition entry (t : list OutboxFail) (ip : bytes) : option OutboxFail := List.find (fun f => beq (of_ip f) ip) t.

Lemma fail_find_entry t ip :
  match fail_find t ip with
  | Some i => (i < length t)%nat /\ t !! i = entry t ip /\ exists f, entry t ip = Some f
  | None => entry t ip = None
  end.
Proof.
  unfold entry. induction t as [|f t IH]; cbn [fail_find List.find]; [done|].
  destruct (beq (of_ip f) ip) eqn:Hf; [cbn; split; [lia|]; split; [done|by exists f]|].
  destruct (fail_find t ip) as [i|]; cbn; [|done]. destruct IH as (Hi & Hl & Hx). split; [lia|]. by split.
Qed.

Lemma entry_alter t ip i g : (forall f, of_ip (g f) = of_ip f) -> fail_find t ip = Some i ->
  entry (alter g i t) ip = g <$> entry t ip.
Proof.
  intros Hg. unfold entry. revert i. induction t as [|f t IH]; intros i; cbn [fail_find]; [done|].
  destruct (beq (of_ip f) ip) eqn:Hf.
  - intros [= <-]. cbn. by rewrite Hg, Hf.
  - destruct (fail_find t ip) as [j|] eqn:Hj; cbn; [|done]. intros [= <-]. cbn. rewrite Hf. by apply IH.
Qed.

Lemma entry_app_new t f : entry t (of_ip f) = None -> entry (t ++ [f]) (of_ip f) = Some f.
Proof.
  unfold entry. induction t as [|x t IH]; cbn; [by rewrite beq_refl|]. by destruct (beq (of_ip x) (of_ip f)).
Qed.

Lemma entry_insert_new t f i : (i < length t)%nat -> entry t (of_ip f) = None -> entry (<[i:=f]> t) (of_ip f) = Some f.
Proof.
  unfold entry. revert i. induction t as [|x t IH]; intros i Hi; cbn in Hi; [lia|].
  destruct i as [|i]; cbn; [by rewrite beq_refl|]. destruct (beq (of_ip x) (of_ip f)); [done|]. apply IH. lia.
Qed.

Lemma evict_loop_lt t j ev b n : (ev < n)%nat -> (j + length t = n)%nat -> (evict_loop t j ev b < n)%nat.
Proof.
  revert j ev b. induction t as [|f t IH]; intros j ev b Hev Hj; cbn in *; [done|].
  destruct (_ <? _); apply IH; lia.
Qed.

Lemma evict_lt t : t <> [] -> (evict t < length t)%nat.
Proof. destruct t as [|f t]; [done|]. intros _. cbn [evict length]. apply evict_loop_lt; lia. Qed.

Lemma fail_count_ip f now : of_ip (fail_count f now) = of_ip f.
Proof. unfold fail_count. by destruct (_ >? _). Qed.

(** A failure is counted in the entry of its address, also when it is new. *)
Lemma auth_fail_entry t ip now : ip <> [] ->
  entry (outbox_auth_fail t ip now) ip = Some (fail_count (default (fresh_fail ip) (entry t ip)) now).
Proof.
  intros Hip. unfold outbox_auth_fail. destruct ip as [|b ip']; [done|]. cbn [is_nil]. set (ip := b :: ip') in *.
  pose proof (fail_find_entry t ip) as Hf. destruct (fail_find t ip) as [i|] eqn:Hi.
  - destruct Hf as (_ & _ & f & Hf). rewrite (entry_alter t ip i) by (try done; intros; apply fail_count_ip).
    by rewrite Hf.
  - rewrite Hf. cbn [default from_option id].
    assert (Hnew : of_ip (fail_count (fresh_fail ip) now) = ip) by (by rewrite fail_count_ip).
    destruct (Nat.leb_spec OUTBOX_AUTH_MAX_TRACKED (length t)) as [Hfull|_].
    + rewrite <- Hnew at 2. apply entry_insert_new; [|by rewrite Hnew]. apply evict_lt. intros ->.
      unfold OUTBOX_AUTH_MAX_TRACKED in Hfull. cbn in Hfull. lia.
    + rewrite <- Hnew at 2. apply entry_app_new. by rewrite Hnew.
Qed.

(** The failures of one address at these times. *)
Definition failures (t : list OutboxFail) (ip : bytes) (times : list Z) : list OutboxFail :=
  foldl (fun t now => outbox_auth_fail t ip now) t times.

Lemma failures_snoc t ip times x :
  failures t ip (times ++ [x]) = outbox_auth_fail (failures t ip times) ip x.
Proof. unfold failures. by rewrite foldl_app. Qed.

Definition last_time (times : list Z) : Z := default 0 (last times).

(** The entry after failures within one window, the first at [t0]. *)
Lemma failures_entry t ip t0 times : ip <> [] -> entry t ip = None -> OUTBOX_AUTH_WINDOW_SEC < t0 ->
  Forall (fun x => t0 <= x <= t0 + OUTBOX_AUTH_WINDOW_SEC) times -> len times < UINT32_MAX ->
  entry (failures t ip (t0 :: times)) ip =
    Some {| of_ip := ip; of_count := len times + 1; of_first_fail := t0;
            of_lock_until := if len times + 1 >=? OUTBOX_AUTH_MAX_FAILS
                             then last_time (t0 :: times) + OUTBOX_AUTH_LOCKOUT_SEC else 0 |}.
Proof.
  intros Hip Hnone Ht0 Hall Hlen. induction times as [|x times IH] using rev_ind.
  - unfold failures. cbn [foldl]. rewrite auth_fail_entry, Hnone by done. cbn [default from_option id]. unfold fail_count. cbn.
    destruct (Z.gtb_spec (t0 - 0) OUTBOX_AUTH_WINDOW_SEC); [done|lia].
  - apply Forall_app in Hall as [Hall Hx]. apply Forall_inv in Hx. rewrite length_app in Hlen |- *. cbn [length] in *.
    rewrite app_comm_cons, failures_snoc, auth_fail_entry, IH by (done || lia).
    cbn [default from_option id]. unfold fail_count. cbn [of_count of_first_fail of_lock_until of_ip].
    destruct (Z.gtb_spec (x - t0) OUTBOX_AUTH_WINDOW_SEC); [lia|]. cbn [of_count of_first_fail of_lock_until of_ip].
    rewrite u32_small by lia. unfold last_time. rewrite last_snoc. cbn [default from_option id].
    replace (Z.of_nat (length times + 1) + 1) with (len times + 1 + 1) by lia.
    destruct (Z.geb_spec (len times + 1 + 1) OUTBOX_AUTH_MAX_FAILS); [done|].
    destruct (Z.geb_spec (len times + 1) OUTBOX_AUTH_MAX_FAILS); [lia|done].
Qed.

Lemma blocked_entry t ip now : ip <> [] ->
  (outbox_auth_blocked t ip now).2 =
  match entry t ip with Some f => negb (of_lock_until f =? 0) && (now <? of_lock_until f) | None => false end.
Proof.
  intros Hip. unfold outbox_auth_blocked. destruct ip as [|b ip']; [done|]. cbn [is_nil]. set (ip := b :: ip') in *.
  pose proof (fail_find_entry t ip) as Hf. destruct (fail_find t ip) as [i|]; [|by rewrite Hf].
  destruct Hf as (_ & -> & f & ->). by destruct (_ && _).
Qed.

(** Lockout. For an address with no entry, whatever the table holds (a full
    table evicts), [n] failures within the 60 s window block the address exactly
    when [n] is 5 or more, from the last failure for 300 s and not a second longer,
    however many more failures there were before. *)
Theorem lockout_exact (t : list OutboxFail) (ip : bytes) (t0 : Z) (times : list Z) (now : Z)
  (Hip : ip <> []) (Hnew : entry t ip = None) (Ht0 : OUTBOX_AUTH_WINDOW_SEC < t0)
  (Hwin : Forall (fun x => t0 <= x <= t0 + OUTBOX_AUTH_WINDOW_SEC) times) (Hlen : len times < UINT32_MAX)
  (Hnow : last_time (t0 :: times) <= now) :
  (outbox_auth_blocked (failures t ip (t0 :: times)) ip now).2 = true <->
  OUTBOX_AUTH_MAX_FAILS <= len (t0 :: times) /\ now < last_time (t0 :: times) + OUTBOX_AUTH_LOCKOUT_SEC.
Proof.
  rewrite blocked_entry, failures_entry by done. cbn [of_lock_until].
  assert (Hl : t0 <= last_time (t0 :: times)).
  { unfold last_time. destruct times as [|x times _] using rev_ind; [cbn; lia|].
    rewrite app_comm_cons, last_snoc. cbn. apply Forall_app in Hwin as [_ Hx]. apply Forall_inv in Hx. lia. }
  unfold OUTBOX_AUTH_WINDOW_SEC, OUTBOX_AUTH_LOCKOUT_SEC in *. cbn [length].
  destruct (Z.geb_spec (len times + 1) OUTBOX_AUTH_MAX_FAILS); [|cbn; lia]. lia.
Qed.

Lemma lockout_exact_witness :
  (outbox_auth_blocked (failures [] [1;2;3;4] [1000; 1001; 1002; 1003; 1004]) [1;2;3;4] 1300).2 = true.
Proof.
  apply (lockout_exact [] [1;2;3;4] 1000 [1001; 1002; 1003; 1004] 1300); try reflexivity; try discriminate.
  - repeat constructor; unfold OUTBOX_AUTH_WINDOW_SEC; lia.
  - split; [discriminate|reflexivity].
Defined.

(** The table stays small, with one entry per address. *)
Definition fails_ok (t : list OutboxFail) : Prop :=
  (length t <= OUTBOX_AUTH_MAX_TRACKED)%nat /\ NoDup (map of_ip t).

Lemma map_alter_ip t i g : (forall f, of_ip (g f) = of_ip f) -> map of_ip (alter g i t) = map of_ip t.
Proof. intros Hg. revert i. induction t as [|f t IH]; intros [|i]; cbn; [done..|by rewrite Hg|by rewrite IH]. Qed.

Lemma entry_none t ip : entry t ip = None <-> ip ∉ map of_ip t.
Proof.
  unfold entry. induction t as [|f t IH]; cbn [List.find map]; [set_solver|].
  destruct (beq (of_ip f) ip) eqn:Hb; [apply beq_spec in Hb; set_solver|].
  rewrite IH. assert (ip <> of_ip f) by (intros ->; by rewrite beq_refl in Hb). set_solver.
Qed.

Lemma insert_elem {A} (l : list A) i x y : y ∈ <[i:=x]> l -> y = x \/ y ∈ l.
Proof.
  revert i. induction l as [|a l IH]; intros [|i]; cbn; [by right..|set_solver|].
  intros [->|Hy]%elem_of_cons; [set_solver|]. destruct (IH _ Hy); set_solver.
Qed.

Lemma NoDup_insert_new {A} (l : list A) i x : x ∉ l -> NoDup l -> NoDup (<[i:=x]> l).
Proof.
  revert i. induction l as [|a l IH]; intros i Hx Hn; [by destruct i|]. apply NoDup_cons in Hn as [Ha Hn].
  destruct i as [|i]; cbn; apply NoDup_cons; [set_solver|]. split; [|apply IH; set_solver].
  intros [->|Hin]%insert_elem; set_solver.
Qed.

Lemma fails_ok_step t ip now : fails_ok t ->
  fails_ok (outbox_auth_fail t ip now) /\ fails_ok (outbox_auth_clear t ip) /\ fails_ok (outbox_auth_blocked t ip now).1.
Proof.
  intros [Hl Hn]. pose proof (fail_find_entry t ip) as Hf.
  unfold outbox_auth_fail, outbox_auth_clear, outbox_auth_blocked. destruct (is_nil ip); [done|].
  destruct (fail_find t ip) as [i|].
  - assert (Ha : forall g, (forall f, of_ip (g f) = of_ip f) -> fails_ok (alter g i t)).
    { intros g Hg. split; [by rewrite length_alter|by rewrite map_alter_ip]. }
    split; [apply Ha; intros; apply fail_count_ip|]. split; [by apply Ha|].
    destruct (t !! i) as [f|]; [|done]. destruct (_ && _); [done|]. by apply Ha.
  - split; [|done]. rewrite entry_none in Hf.
    assert (Hip : of_ip (fail_count (fresh_fail ip) now) = ip) by (by rewrite fail_count_ip).
    destruct (Nat.leb_spec OUTBOX_AUTH_MAX_TRACKED (length t)) as [Hfull|Hroom].
    + split; [by rewrite length_insert|]. change (map of_ip) with (fmap (M := list) of_ip).
      rewrite list_fmap_insert, Hip. by apply NoDup_insert_new.
    + split; [rewrite length_app; cbn; lia|]. rewrite map_app. apply NoDup_app. split; [done|]. cbn [map]. rewrite Hip.
      split; [set_solver|]. apply NoDup_singleton.
Qed.
