(* ===== verification/OutboxPolicy.v ===== *)
(** * The configuration and the address policy of the outbox

    [OutboxConfig] (src/src/outbox.h) and the pure helpers of
    src/src/outbox_submit.c: which domains may send, which are internal, which key
    signs, and the domain of an envelope address and of the From header. *)

From S2P Require Import Prelude MailLines MailAddr MailHeader DlEngine Store StoreSpec StoreTables Reply Json Config SmtpParse.

Record OutboxDkim := { od_domain : bytes; od_key : bytes }.

Record OutboxConfig := {
  ox_implicit_addr : bytes; ox_implicit_port : Z;
  ox_starttls_addr : bytes; ox_starttls_port : Z;
  ox_cert : bytes; ox_key : bytes; ox_passwd : bytes;
  ox_domains : list bytes;
  ox_dkim : list OutboxDkim;
  ox_hostname : bytes; ox_spool : bytes;
  ox_max_msg : Z; ox_max_line : Z; ox_max_rcpts : Z; ox_cmd_tmo : Z; ox_data_tmo : Z;
  ox_max_attempts : Z; ox_deliver_port : Z; ox_dns_server : bytes;
  ox_queue_max_jobs : Z; ox_queue_max_bytes : Z;
  ox_internal_relay_host : bytes; ox_internal_relay_port : Z; ox_internal_relay_tls : bytes;
  ox_internal_relay_user : bytes; ox_internal_relay_pass : bytes;
  ox_internal_domains : list bytes }.

(** Membership of a domain in a list, without regard to case. *)
Definition domain_in (l : list bytes) (domain : bytes) : bool := existsb (fun d => ascii_ieq_str d domain) l.

Definition outbox_domain_allowed (cfg : OutboxConfig) (domain : bytes) : bool := domain_in (ox_domains cfg) domain.

Definition outbox_domain_internal (cfg : OutboxConfig) (domain : bytes) : bool :=
  domain_in (if (0 <? length (ox_internal_domains cfg))%nat then ox_internal_domains cfg else ox_domains cfg) domain.

Fixpoint dkim_key_loop (l : list OutboxDkim) (domain : bytes) : option bytes :=
  match l with
  | [] => None
  | d :: l' => if ascii_ieq_str (od_domain d) domain then Some (od_key d) else dkim_key_loop l' domain
  end.

Definition outbox_dkim_key (cfg : OutboxConfig) (domain : bytes) : option bytes := dkim_key_loop (ox_dkim cfg) domain.

(** At most [outsz - 1] bytes. *)
Definition lowercase_into (s : bytes) (outsz : nat) : bytes := take (outsz - 1) (lower s).

(** [outbox_addr_domain]: the domain when it returns 0. *)
Definition outbox_addr_domain (addr : bytes) (outsz : nat) : option bytes :=
  match mail_addr_parse addr with
  | None => None
  | Some (_, domain) => if is_nil domain then None else Some (lowercase_into domain outsz)
  end.

Definition from_addr_extract (hdr : bytes) (addr_sz : nat) : option bytes :=
  match cut "<"%chr hdr with
  | Some (_, s) =>
      match cut ">"%chr s with
      | None => None
      | Some (a, _) => if is_nil a || (addr_sz <=? length a)%nat then None else Some a
      end
  | None =>
      let a := trim is_wsp hdr in
      if is_nil a || (addr_sz <=? length a)%nat then None else Some a
  end.

Definition outbox_from_header_domain (msg : bytes) (outsz : nat) : option bytes :=
  match mail_header_get msg (bs "From") 4096 with
  | None => None
  | Some hdr =>
      match from_addr_extract (c_str hdr) (Z.to_nat SMTP_MAX_LINE) with
      | None => None
      | Some addr => outbox_addr_domain addr outsz
      end
  end.

(** ** The effective limits and the delivery configurations of [outbox_main] *)

Definition OUTBOX_DEFAULT_MAX_MSG : Z := 32 * 1024 * 1024.
Definition OUTBOX_DEFAULT_CMD_TMO : Z := 300.
Definition OUTBOX_DEFAULT_DATA_TMO : Z := 600.
Definition OUTBOX_DEFAULT_MAX_ATTEMPTS : Z := 5.
Definition OUTBOX_DEFAULT_QUEUE_MAX_JOBS : Z := 1024.
Definition OUTBOX_DEFAULT_QUEUE_MAX_BYTES : Z := 256 * 1024 * 1024.

Definition or_default (v d : Z) : Z := if v =? 0 then d else v.

Record OutboxLimits := MkOutboxLimits {
  ol_max_line : Z; ol_max_msg : Z; ol_max_rcpts : Z; ol_cmd_tmo : Z; ol_data_tmo : Z; ol_raw_cap : Z }.

Definition outbox_limits (cfg : OutboxConfig) : OutboxLimits :=
  let msg := or_default (ox_max_msg cfg) OUTBOX_DEFAULT_MAX_MSG in {|
  ol_max_line := or_default (ox_max_line cfg) SMTP_MAX_LINE;
  ol_max_msg := msg;
  ol_max_rcpts := ox_max_rcpts cfg;
  ol_cmd_tmo := or_default (ox_cmd_tmo cfg) OUTBOX_DEFAULT_CMD_TMO;
  ol_data_tmo := or_default (ox_data_tmo cfg) OUTBOX_DEFAULT_DATA_TMO;
  ol_raw_cap := msg * 2 + 16 |}.

(** A zeroed [Config] with the fields set that one delivery reads. *)
Definition one_shot_cfg (cfg : OutboxConfig) (tls : bytes) (auth : bool) (user pass : option bytes) : Config :=
  let l := outbox_limits cfg in
  let no_relay := {| rl_host := None; rl_port := 0; rl_auth_enabled := false; rl_username := None; rl_password := None;
                     rl_retries := 0; rl_tls := None; rl_max_attempts := 0; rl_tls_ca := None |} in {|
  hostname := Some (ox_hostname cfg); domains := []; listen := {| cl_port := 0; cl_proxy_from := [] |};
  limits := {| lim_message := 0; lim_line := 0; lim_rcpts := 0;
               lim_cmd_timeout := ol_cmd_tmo l; lim_data_timeout := ol_data_tmo l |};
  relay := {| rl_host := None; rl_port := 0; rl_auth_enabled := auth; rl_username := user; rl_password := pass;
              rl_retries := 0; rl_tls := Some tls; rl_max_attempts := 0; rl_tls_ca := None |};
  reply_relay := no_relay; storage := {| sg_path := []; sg_spool := []; sg_retention_days := 0 |};
  reply := {| rc_prefix := None; rc_separator := None |}; catch_all := None; aliases := []; dkim := [] |}.

Definition deliver_cfg (cfg : OutboxConfig) : Config := one_shot_cfg cfg (bs "starttls") false None None.

Definition deliver_cfg_internal (cfg : OutboxConfig) : Config :=
  one_shot_cfg cfg (ox_internal_relay_tls cfg) (negb (is_nil (ox_internal_relay_user cfg)))
    (Some (ox_internal_relay_user cfg)) (Some (ox_internal_relay_pass cfg)).

Example from_domain_1 :
  outbox_from_header_domain (bs "Subject: x" ++ CRLF ++ bs "From: Bob <bob@Example.ORG>" ++ CRLF ++ CRLF) 256
  = Some (bs "example.org").
Proof. vm_compute. reflexivity. Qed.

(** ** Lemmas *)

Lemma domain_in_spec l domain : domain_in l domain = true <-> exists d, d ∈ l /\ lower d = lower domain.
Proof.
  unfold domain_in. rewrite existsb_exists. split; intros (d & Hin & Hd); exists d;
    rewrite list_elem_of_In in *; (split; [done|]); rewrite ascii_ieq_str_ieq in *; by apply ieq_spec.
Qed.

(** A lowered domain that is shorter than the buffer is the whole domain. *)
Lemma addr_domain_full addr outsz d : outbox_addr_domain addr outsz = Some d -> (length d < outsz - 1)%nat ->
  exists l dom, mail_addr_parse addr = Some (l, dom) /\ d = lower dom.
Proof.
  unfold outbox_addr_domain. destruct (mail_addr_parse addr) as [[l dom]|]; [|done]. destruct (is_nil dom); [done|].
  intros [= <-] Hlen. exists l, dom. split; [done|]. unfold lowercase_into in *. rewrite length_take in Hlen.
  apply take_ge. lia.
Qed.
