(* ===== verification/OutboxDeliver.v ===== *)
(** * The delivery queue and worker of the outbox (src/src/outbox_deliver.c)

    The queue the poll thread appends to and the one worker thread drains: the
    capped [OutboxDeliveryQueue], the route cache, the resolution of a domain to
    its targets, one attempt per recipient, the retries with a due time, and the
    loop of the worker. The linked list is a list, oldest first. The worker speaks
    SMTP through the client of src/src/smtp_out.c over the class [Net]; DNS, the
    clock and the wait on the condition variable are the class [Resolver]. [k_log]
    is the delivery log written to stderr, with the attempt and the message as
    ghost. *)

From S2P Require Import Prelude MailLines MailAddr MailHeader DlEngine Store StoreSpec StoreTables Reply Json Config Prog SmtpParse SmtpReply SmtpOut SmtpDialogue OutboxPolicy.

(** ** The queue *)

Record Job := MkJob {
  jb_from : bytes; jb_rcpts : list bytes; jb_msg : bytes;
  jb_due : Z; jb_attempt : Z; jb_done : list bool }.

Record DeliveryQueue := MkQueue {
  q_jobs : list Job; q_shutdown : bool; q_njobs : Z; q_bytes : Z; q_max_jobs : Z; q_max_bytes : Z }.

Definition outbox_delivery_queue_init : DeliveryQueue :=
  MkQueue [] false 0 0 OUTBOX_DEFAULT_QUEUE_MAX_JOBS OUTBOX_DEFAULT_QUEUE_MAX_BYTES.

(** The queue [outbox_main] starts with. *)
Definition start_queue (cfg : OutboxConfig) : DeliveryQueue :=
  MkQueue (q_jobs outbox_delivery_queue_init) (q_shutdown outbox_delivery_queue_init)
    (q_njobs outbox_delivery_queue_init) (q_bytes outbox_delivery_queue_init)
    (or_default (ox_queue_max_jobs cfg) OUTBOX_DEFAULT_QUEUE_MAX_JOBS)
    (or_default (ox_queue_max_bytes cfg) OUTBOX_DEFAULT_QUEUE_MAX_BYTES).

(** Linking a job in at the tail, with the accounting. *)
Definition append_job (q : DeliveryQueue) (j : Job) : DeliveryQueue :=
  MkQueue (q_jobs q ++ [j]) (q_shutdown q) (u64 (q_njobs q + 1)) (u64 (q_bytes q + len (jb_msg j)))
    (q_max_jobs q) (q_max_bytes q).

Definition at_cap (q : DeliveryQueue) (msglen : Z) : bool :=
  (negb (q_max_jobs q =? 0) && (q_njobs q >=? q_max_jobs q))
  || (negb (q_max_bytes q =? 0) && (u64 (q_bytes q + msglen) >? q_max_bytes q)).

Definition new_job (from : bytes) (rcpts : list bytes) (msg : bytes) : Job :=
  MkJob from rcpts msg 0 1 (map (fun _ => false) rcpts).

(** [outbox_delivery_enqueue]: 0, -1 after shutdown, -2 at a cap. *)
Definition outbox_delivery_enqueue (q : DeliveryQueue) (from : bytes) (rcpts : list bytes) (msg : bytes) : DeliveryQueue * Z :=
  if q_shutdown q then (q, -1)
  else if at_cap q (len msg) then (q, -2)
  else (append_job q (new_job from rcpts msg), 0).

Definition outbox_delivery_shutdown (q : DeliveryQueue) : DeliveryQueue :=
  MkQueue (q_jobs q) true (q_njobs q) (q_bytes q) (q_max_jobs q) (q_max_bytes q).

Definition queue_reappend (q : DeliveryQueue) (j : Job) : DeliveryQueue := append_job q j.

(** The scan of the worker: the first due job and the list without it. *)
Fixpoint pick (shutdown : bool) (now : Z) (js : list Job) : option (Job * list Job) :=
  match js with
  | [] => None
  | j :: js' =>
      if shutdown || (jb_due j <=? now) then Some (j, js')
      else match pick shutdown now js' with Some (p, rest) => Some (p, j :: rest) | None => None end
  end.

(** The earliest due time the scan saw, 0 before the first. *)
Fixpoint next_due (js : list Job) (t : Z) : Z :=
  match js with
  | [] => t
  | j :: js' => next_due js' (if (t =? 0) || (jb_due j <? t) then jb_due j else t)
  end.

(** What one pass under the lock decides. *)
Inductive look :=
  | LkJob (j : Job) (q : DeliveryQueue)   (** deliver this job *)
  | LkExit                                 (** shut down and drained *)
  | LkWait                                 (** wait for work *)
  | LkWaitUntil (t : Z).                   (** wait for work or this time *)

Definition worker_look (q : DeliveryQueue) (now : Z) : look :=
  match pick (q_shutdown q) now (q_jobs q) with
  | Some (j, rest) =>
      LkJob j (MkQueue rest (q_shutdown q) (u64 (q_njobs q - 1)) (u64 (q_bytes q - len (jb_msg j)))
                 (q_max_jobs q) (q_max_bytes q))
  | None =>
      if (length (q_jobs q) =? 0)%nat then if q_shutdown q then LkExit else LkWait
      else LkWaitUntil (next_due (q_jobs q) 0)
  end.

(** ** The worker *)

Definition DELIVER_MAX_TARGETS : nat := 16 * 16 + 16.
Definition DELIVER_MX_CACHE_SLOTS : nat := 8.
Definition DELIVER_MX_CACHE_TTL : Z := 300.

Class Resolver (N : Net) := {
  (** the exchange hosts in order of preference, [None] for a failed query *)
  auth_dns_mx : net -> bytes -> net * option (list bytes);
  (** addresses of 4 or 16 bytes *)
  auth_dns_addr : net -> bytes -> net * option (list bytes);
  addr_ntop : bytes -> option bytes;
  clock : net -> net * Z;
  wait_until : net -> Z -> net;
}.

Record Route := { mr_domain : bytes; mr_filled : Z; mr_ips : list bytes }.

(** One line of the delivery log, with the result, the attempt and the message. *)
Record Outcome := {
  oc_from : bytes; oc_rcpt : bytes; oc_msg : bytes; oc_rc : Z; oc_attempt : Z; oc_status : bytes }.

Section Worker.
Context {N : Net} {R : Resolver N}.
Variable fuel : nat.

Record Worker := MkWorker {
  k_out : @Out N;
  k_cache : list Route;   (** the 8 slots *)
  k_next : nat;
  k_log : list Outcome;
}.

Definition empty_cache : list Route :=
  replicate DELIVER_MX_CACHE_SLOTS {| mr_domain := []; mr_filled := 0; mr_ips := [] |}.

Definition lift_out {A} (m : prog (@Out N) A) : prog Worker A := fun k =>
  let '(o, a) := m (k_out k) in (MkWorker o (k_cache k) (k_next k) (k_log k), a).

Definition now_w : prog Worker Z := lift_out (on_net clock).
Definition status_w (text : bytes) : prog Worker unit := lift_out (put_status 512 text).

(** ** The route cache *)

Fixpoint cache_find (es : list Route) (now : Z) (domain : bytes) : option (list bytes) :=
  match es with
  | [] => None
  | e :: es' =>
      if is_nil (mr_domain e) then cache_find es' now domain
      else if now - mr_filled e >? DELIVER_MX_CACHE_TTL then cache_find es' now domain
      else if negb (beq (mr_domain e) domain) then cache_find es' now domain
      else Some (mr_ips e)
  end.

Definition mx_cache_get (domain : bytes) : prog Worker (option (list bytes)) :=
  now ← now_w; es ← gets k_cache; mret (cache_find es now domain).

Definition mx_cache_put (domain : bytes) (ips : list bytes) : prog Worker unit :=
  if is_nil domain || (256 <=? length domain)%nat then mret tt
  else
    now ← now_w;
    modify (fun k => MkWorker (k_out k)
      (<[k_next k := {| mr_domain := domain; mr_filled := now; mr_ips := ips |}]> (k_cache k))
      ((k_next k + 1) mod DELIVER_MX_CACHE_SLOTS)%nat (k_log k)).

(** ** Resolution *)

(** The loop over the addresses of one host. *)
Fixpoint add_addrs (addrs ips : list bytes) : list bytes :=
  match addrs with
  | [] => ips
  | a :: addrs' =>
      if (length ips <? DELIVER_MAX_TARGETS)%nat then
        if (length a =? 4)%nat || (length a =? 16)%nat then
          match addr_ntop a with
          | None => add_addrs addrs' ips
          | Some t => add_addrs addrs' (ips ++ [t])
          end
        else add_addrs addrs' ips
      else ips
  end.

(** The loop over the exchange hosts. *)
Fixpoint add_hosts (mx : list bytes) (ips : list bytes) : prog Worker (list bytes) :=
  match mx with
  | [] => mret ips
  | h :: mx' =>
      r ← lift_out (on_net (fun n => auth_dns_addr n h));
      match r with
      | None => add_hosts mx' ips
      | Some addrs => add_hosts mx' (add_addrs addrs ips)
      end
  end.

(** [deliver_resolve]: the targets, or the result of the delivery. *)
Definition deliver_resolve (domain : bytes) : prog Worker (Z + list bytes) :=
  hit ← mx_cache_get domain;
  match hit with
  | Some ips => mret (inr ips)
  | None =>
      mx ← lift_out (on_net (fun n => auth_dns_mx n domain));
      match mx with
      | None => _ ← status_w (bs "DNS MX query failed"); mret (inl SMTP_TEMPFAIL)
      | Some (h :: hs) =>
          ips ← add_hosts (h :: hs) [];
          if (length ips =? 0)%nat then
            _ ← status_w (bs "MX hosts present but none resolved to an address"); mret (inl SMTP_TEMPFAIL)
          else _ ← mx_cache_put domain ips; mret (inr ips)
      | Some [] =>
          r ← lift_out (on_net (fun n => auth_dns_addr n domain));
          match r with
          | None => _ ← status_w (bs "DNS A/AAAA query failed"); mret (inl SMTP_TEMPFAIL)
          | Some addrs =>
              let ips := add_addrs addrs [] in
              if (length ips =? 0)%nat then _ ← status_w (bs "no MX and no A/AAAA record"); mret (inl SMTP_PERMFAIL)
              else _ ← mx_cache_put domain ips; mret (inr ips)
          end
      end
  end.

(** ** Delivery *)

Variable cfg : OutboxConfig.

Definition deliver_internal (from rcpt msg : bytes) : prog Worker Z :=
  lift_out (smtp_out_send_host fuel 512 (deliver_cfg_internal cfg) (ox_internal_relay_host cfg)
    (ox_internal_relay_port cfg) from rcpt msg).

(** The target of an attempt. *)
Definition target (ips : list bytes) (attempt : Z) : bytes :=
  default [] (ips !! Z.to_nat (u32 (attempt - 1) mod len ips)).

Definition deliver_recipient (from rcpt msg : bytes) (attempt : Z) : prog Worker Z :=
  _ ← status_w (bs "no route");
  match outbox_addr_domain rcpt 256 with
  | None => _ ← status_w (bs "invalid recipient address"); mret SMTP_PERMFAIL
  | Some domain =>
      if negb (is_nil (ox_internal_relay_host cfg)) && outbox_domain_internal cfg domain
      then deliver_internal from rcpt msg
      else
        r ← deliver_resolve domain;
        match r with
        | inl rc => mret rc
        | inr ips =>
            lift_out (smtp_out_send_host fuel 512 (deliver_cfg cfg) (target ips attempt) (ox_deliver_port cfg)
              from rcpt msg)
        end
  end.

Definition max_attempts : Z := or_default (ox_max_attempts cfg) OUTBOX_DEFAULT_MAX_ATTEMPTS.

Definition log_outcome (o : Outcome) : prog Worker unit :=
  modify (fun k => MkWorker (k_out k) (k_cache k) (k_next k) (k_log k ++ [o])).

(** The loop of [job_deliver] from one recipient on: its marks and the pending count. *)
Fixpoint rcpt_loop (j : Job) (rcpts : list bytes) (dones : list bool) : prog Worker (list bool * nat) :=
  match rcpts, dones with
  | r :: rcpts', true :: dones' =>
      '(ds, p) ← rcpt_loop j rcpts' dones'; mret (true :: ds, p)
  | r :: rcpts', false :: dones' =>
      rc ← deliver_recipient (jb_from j) r (jb_msg j) (jb_attempt j);
      let terminal := (rc =? SMTP_OK) || (rc =? SMTP_PERMFAIL) in
      if terminal || (jb_attempt j >=? max_attempts) then
        _ ← (if terminal then mret tt
             else status_w (bs "temporary failure after " ++ print_u32 max_attempts ++ bs " attempts"));
        st ← gets (fun k => o_status (k_out k));
        _ ← log_outcome {| oc_from := jb_from j; oc_rcpt := r; oc_msg := jb_msg j; oc_rc := rc;
                           oc_attempt := jb_attempt j; oc_status := st |};
        '(ds, p) ← rcpt_loop j rcpts' dones'; mret (true :: ds, p)
      else
        '(ds, p) ← rcpt_loop j rcpts' dones'; mret (false :: ds, S p)
  | _, _ => mret ([], 0%nat)
  end.

(** [job_deliver]: [Some] the job to append again. *)
Definition job_deliver (j : Job) : prog Worker (option Job) :=
  '(ds, pending) ← rcpt_loop j (jb_rcpts j) (jb_done j);
  if (pending =? 0)%nat then mret None
  else
    let attempt := u32 (jb_attempt j + 1) in
    now ← now_w;
    mret (Some (MkJob (jb_from j) (jb_rcpts j) (jb_msg j) (now + smtp_backoff_sec attempt) attempt ds)).

(** The loop of [outbox_delivery_worker] while nobody else uses the queue. *)
Fixpoint worker_loop (rounds : nat) (q : DeliveryQueue) : prog Worker DeliveryQueue :=
  match rounds with
  | O => running
  | S rounds' =>
      now ← now_w;
      match worker_look q now with
      | LkExit => mret q
      | LkWait => running
      | LkWaitUntil t => _ ← lift_out (net_do (fun n => wait_until n t)); worker_loop rounds' q
      | LkJob j q' =>
          r ← job_deliver j;
          worker_loop rounds' (match r with Some j' => queue_reappend q' j' | None => q' end)
      end
  end.

End Worker.
