(* ===== verification/OutboxDeliverSpec.v ===== *)
(** * Correctness of the delivery queue and worker of the outbox

    [system] puts the queue, the job in flight and the worker together with the
    steps of the poll thread: [sys_step] interleaves enqueues and the shutdown with
    the worker's passes. Over it, no recipient of an accepted submission is lost or
    delivered twice, an outcome is final for a reason, and the caps hold with the
    accounting exact. After a shutdown the worker drains the queue and exits. *)

From S2P Require Import Prelude MailLines MailAddr MailHeader DlEngine Store StoreSpec StoreTables Reply Json Config Prog SmtpParse SmtpReply SmtpOut SmtpDialogue SmtpOutSpec SmtpDialogueSpec SmtpSend SmtpEnds SmtpRelay OutboxPolicy OutboxDeliver.

(** ** The queue *)

Lemma pick_perm sh now js j rest : pick sh now js = Some (j, rest) ->
  js ≡ₚ j :: rest /\ (sh = true \/ jb_due j <= now).
Proof.
  revert rest. induction js as [|x js IH]; intros rest; cbn [pick]; [done|].
  destruct (sh || (jb_due x <=? now)) eqn:Hd.
  - intros [= -> ->]. split; [done|]. apply orb_true_iff in Hd as [?|?]; [by left|right; lia].
  - destruct (pick sh now js) as [[p r]|]; [|done]. intros [= -> <-].
    destruct (IH r eq_refl) as [-> Hd']. split; [|done]. by rewrite Permutation_swap.
Qed.

(** The jobs before the picked one are not due. *)
Lemma pick_first sh now js j rest : pick sh now js = Some (j, rest) ->
  exists a b, js = a ++ j :: b /\ rest = a ++ b /\ Forall (fun x => sh = false /\ now < jb_due x) a.
Proof.
  revert rest. induction js as [|x js IH]; intros rest; cbn [pick]; [done|].
  destruct (sh || (jb_due x <=? now)) eqn:Hd.
  - intros [= -> ->]. by exists [], rest.
  - destruct (pick sh now js) as [[p r]|]; [|done]. intros [= -> <-].
    destruct (IH r eq_refl) as (a & b & -> & -> & Ha). exists (x :: a), b. split; [done|]. split; [done|].
    constructor; [|done]. apply orb_false_iff in Hd as [-> ?]. split; [done|lia].
Qed.

Lemma pick_none sh now js : pick sh now js = None -> Forall (fun x => sh = false /\ now < jb_due x) js.
Proof.
  induction js as [|x js IH]; cbn [pick]; [constructor|].
  destruct (sh || (jb_due x <=? now)) eqn:Hd; [done|]. destruct (pick sh now js) as [[p r]|]; [done|].
  intros _. constructor; [|auto]. apply orb_false_iff in Hd as [-> ?]. split; [done|lia].
Qed.

Lemma worker_due_spec js t now : 0 <= now -> Forall (fun x => now < jb_due x) js -> (now < t \/ t = 0 /\ (0 < length js)%nat) ->
  now < next_due js t /\ (next_due js t = t \/ exists j, j ∈ js /\ jb_due j = next_due js t) /\
  (t <> 0 -> next_due js t <= t) /\ Forall (fun x => next_due js t <= jb_due x) js.
Proof.
  intros Hnow Hall. revert t. induction Hall as [|x js Hx Hall IH]; intros t Ht; cbn [next_due].
  - destruct Ht as [Ht|[_ Ht]]; [|cbn in Ht; lia]. repeat split; auto; lia.
  - set (u := if (t =? 0) || (jb_due x <? t) then jb_due x else t). assert (Hu : now < u /\ (t <> 0 -> u <= t) /\ u <= jb_due x /\ (u = t \/ u = jb_due x)).
    { clear IH. subst u. destruct (Z.eqb_spec t 0), (Z.ltb_spec (jb_due x) t); cbn; repeat split; auto; lia. }
    destruct Hu as (Hu1 & Hu2 & Hu3 & Hu4). destruct (IH u ltac:(by left)) as (H1 & H2 & H3 & H4).
    specialize (H3 ltac:(lia)). repeat split; [lia| |lia|].
    + destruct H2 as [H2|(j & Hj & H2)]; [|right; exists j; split; [set_solver|done]].
      destruct Hu4 as [Hu4|Hu4]; [left; congruence|right]. exists x. split; [set_solver|congruence].
    + constructor; [lia|done].
Qed.

(** The worker sleeps soundly. With the clock past the epoch, one look at the
    queue takes the first job that is due (any job after a shutdown) and leaves the
    order of the others; it exits only when shut down and drained, waits without a
    limit only on an empty queue, and otherwise waits exactly until the earliest due
    time, which is in the future. *)
Theorem worker_look_sound (q : DeliveryQueue) (now : Z) (Hnow : 0 <= now) :
  match worker_look q now with
  | LkJob j q' => exists a b, q_jobs q = a ++ j :: b /\ q_jobs q' = a ++ b /\
      (q_shutdown q = true \/ jb_due j <= now) /\ Forall (fun x => q_shutdown q = false /\ now < jb_due x) a
  | LkExit => q_shutdown q = true /\ q_jobs q = []
  | LkWait => q_shutdown q = false /\ q_jobs q = []
  | LkWaitUntil t => q_shutdown q = false /\ now < t /\ Forall (fun x => t <= jb_due x) (q_jobs q) /\
      exists j, j ∈ q_jobs q /\ jb_due j = t
  end.
Proof.
  unfold worker_look. destruct (pick (q_shutdown q) now (q_jobs q)) as [[j rest]|] eqn:Hp.
  - apply pick_perm in Hp as Hd. destruct Hd as [_ Hd]. apply pick_first in Hp as (a & b & Ha & -> & Hf).
    exists a, b. by repeat split.
  - apply pick_none in Hp. destruct (q_jobs q) as [|j js] eqn:Hq; cbn [length Nat.eqb].
    + by destruct (q_shutdown q).
    + assert (Hs : q_shutdown q = false) by (by apply Forall_inv in Hp as [? _]).
      assert (Hdue : Forall (fun x => now < jb_due x) (j :: js)) by (eapply Forall_impl; [exact Hp|]; cbn; intros; lia).
      destruct (worker_due_spec (j :: js) 0 now Hnow Hdue ltac:(right; cbn; lia)) as (H1 & H2 & _ & H4).
      split; [done|]. split; [done|]. split; [done|]. destruct H2 as [H2|H2]; [lia|exact H2].
Qed.

Lemma worker_look_sound_witness :
  match worker_look (MkQueue [MkJob [] [bs "a@b"] [] 90 2 [false]; MkJob [] [bs "a@c"] [] 80 2 [false]] false 2 0 9 9) 50 with
  | LkWaitUntil t => t = 80 | _ => False end /\ (0 <= 50).
Proof.
  split; [|lia].
  pose proof (worker_look_sound (MkQueue [MkJob [] [bs "a@b"] [] 90 2 [false]; MkJob [] [bs "a@c"] [] 80 2 [false]] false 2 0 9 9) 50 ltac:(lia)) as H.
  vm_compute in H |- *. destruct H as (_ & _ & _ & _). reflexivity.
Defined.

(** ** One pass over a job *)

(** A recipient of a submission: sender, recipient, message. *)
Definition parcel : Type := bytes * bytes * bytes.

Definition outcome_parcel (o : Outcome) : parcel := (oc_from o, oc_rcpt o, oc_msg o).

(** The recipients of a job without a final outcome. *)
Fixpoint open_rcpts (from msg : bytes) (rcpts : list bytes) (dones : list bool) : list parcel :=
  match rcpts, dones with
  | r :: rs, d :: ds => (if d then [] else [(from, r, msg)]) ++ open_rcpts from msg rs ds
  | _, _ => []
  end.

Definition open_of (j : Job) : list parcel := open_rcpts (jb_from j) (jb_msg j) (jb_rcpts j) (jb_done j).

Lemma open_new from msg rcpts : open_of (new_job from rcpts msg) = map (fun r => (from, r, msg)) rcpts.
Proof. unfold open_of, new_job. cbn. induction rcpts as [|r rs IH]; cbn; [done|]. by rewrite IH. Qed.

Section Pass.
Context {N : Net} {R : Resolver N} (fuel : nat) (cfg : OutboxConfig).

(** What an outcome in the log stands for: a recipient is given up only for a
    permanent failure or after the last attempt, and delivered only when a server
    took the message on a connection of the trace. *)
Definition delivered_over (tr : list event) (o : Outcome) : Prop :=
  exists c pre seg post, (c = deliver_cfg cfg \/ c = deliver_cfg_internal cfg) /\
    tr = pre ++ seg ++ post /\ taken c (oc_from o) (oc_rcpt o) (oc_msg o) seg.

Definition justified (tr : list event) (o : Outcome) : Prop :=
  (oc_rc o = SMTP_OK /\ delivered_over tr o) \/ oc_rc o = SMTP_PERMFAIL \/
  (oc_rc o <> SMTP_OK /\ oc_attempt o = max_attempts cfg).

Lemma justified_app a b o : justified a o \/ justified b o -> justified (a ++ b) o.
Proof.
  unfold justified, delivered_over. intros [[[? H]|?]|[[? H]|?]]; auto; left; (split; [done|]);
    destruct H as (c & pre & seg & post & Hc & -> & Ht); exists c.
  - exists pre, seg, (post ++ b). by rewrite <- !app_assoc.
  - exists (a ++ pre), seg, post. by rewrite <- !app_assoc.
Qed.

(** A step that changes neither the log nor the trace. *)
Definition kquiet {A} (m : prog (@Worker N) A) : Prop :=
  forall k, wp m (fun k' _ => k_log k' = k_log k /\ o_trace (k_out k') = o_trace (k_out k)) k.

Lemma kquiet_ret {A} (a : A) : kquiet (mret a).
Proof. done. Qed.

Lemma kquiet_gets {A} (f : Worker -> A) : kquiet (gets f).
Proof. done. Qed.

Lemma kquiet_bind {A B} (m : prog Worker A) (f : A -> prog Worker B) :
  kquiet m -> (forall a, kquiet (f a)) -> kquiet (m ≫= f).
Proof.
  intros Hm Hf k. apply wp_bind. eapply wp_mono; [apply Hm|]. intros k1 [a|] [Hl Ht]; [|done].
  eapply wp_mono; [apply Hf|]. cbn. intros k2 _ [Hl2 Ht2]. split; congruence.
Qed.

Lemma kquiet_lift {A} (m : prog Out A) : quiet m -> kquiet (lift_out m).
Proof.
  intros Hm k. specialize (Hm (k_out k)). unfold wp, lift_out in *. destruct (m (k_out k)) as [o [a|]]; cbn in *.
  - split; [done|]. apply Hm.
  - split; [done|]. apply Hm.
Qed.

Lemma kquiet_mx_put d ips : kquiet (mx_cache_put d ips).
Proof.
  unfold mx_cache_put, now_w. destruct (_ || _); [apply kquiet_ret|].
  apply kquiet_bind; [apply kquiet_lift, quiet_on_net|]. done.
Qed.

Lemma kquiet_add_hosts mx ips : kquiet (add_hosts mx ips).
Proof.
  revert ips. induction mx as [|h mx IH]; intros ips; cbn [add_hosts]; [apply kquiet_ret|].
  apply kquiet_bind; [apply kquiet_lift, quiet_on_net|]. intros [addrs|]; apply IH.
Qed.

Lemma kquiet_status t : kquiet (status_w t).
Proof. apply kquiet_lift, quiet_put_status. Qed.

Lemma kquiet_net {A} (f : net -> net * A) : kquiet (lift_out (on_net f)).
Proof. apply kquiet_lift, quiet_on_net. Qed.

Lemma kquiet_mx_get d : kquiet (mx_cache_get d).
Proof. unfold mx_cache_get, now_w. repeat (apply kquiet_bind; [auto using kquiet_net, kquiet_gets|intros ?]). apply kquiet_ret. Qed.

Lemma kquiet_resolve d : kquiet (deliver_resolve d).
Proof.
  unfold deliver_resolve.
  repeat first
    [ apply kquiet_ret | apply kquiet_add_hosts | apply kquiet_mx_put | apply kquiet_mx_get | apply kquiet_status
    | apply kquiet_net | apply kquiet_bind; [|intros ?] | case_match ].
Qed.

Lemma wp_kquiet {A} (m : prog (@Worker N) A) (Q : Worker -> option A -> Prop) k :
  kquiet m ->
  (forall k' o, k_log k' = k_log k -> o_trace (k_out k') = o_trace (k_out k) -> Q k' o) -> wp m Q k.
Proof. intros Hm HQ. eapply wp_mono; [apply Hm|]. intros k' o [Hl Ht]. by apply HQ. Qed.

(** A delivery adds its events to the trace; when it reports SMTP_OK they are those
    of a server that took the message. *)
Definition delivers (from rcpt msg : bytes) (m : prog (@Worker N) Z) : Prop :=
  forall k, wp m (fun k' o => k_log k' = k_log k /\ exists tr, o_trace (k_out k') = o_trace (k_out k) ++ tr /\
    (o = Some SMTP_OK -> exists c, (c = deliver_cfg cfg \/ c = deliver_cfg_internal cfg) /\ taken c from rcpt msg tr)) k.

Lemma delivers_bind {A} from rcpt msg (m : prog (@Worker N) A) f :
  kquiet m -> (forall a, delivers from rcpt msg (f a)) -> delivers from rcpt msg (m ≫= f).
Proof.
  intros Hm Hf k. apply wp_bind. apply wp_kquiet; [done|]. intros k1 [a|] Hl Ht.
  - eapply wp_mono; [apply Hf|]. intros k2 o (Hl2 & tr & Ht2 & Ho). split; [congruence|].
    exists tr. by rewrite Ht2, Ht.
  - split; [done|]. exists []. split; [by rewrite app_nil_r|done].
Qed.

Lemma delivers_refuse from rcpt msg rc : rc <> SMTP_OK -> delivers from rcpt msg (mret rc).
Proof. intros Hrc k. apply wp_ret. split; [done|]. exists []. split; [by rewrite app_nil_r|]. by intros [= ->]. Qed.

Lemma delivers_send from rcpt msg c host port : c = deliver_cfg cfg \/ c = deliver_cfg_internal cfg ->
  delivers from rcpt msg (lift_out (smtp_out_send_host fuel 512 c host port from rcpt msg)).
Proof.
  intros Hc k. assert (Hr : 0 <= rl_retries (relay c) <= UINT32_MAX) by (destruct Hc as [->| ->]; done).
  pose proof (send_host_taken fuel 512 c host port from rcpt msg (k_out k) Hr) as H.
  unfold wp, lift_out. destruct (smtp_out_send_host _ _ _ _ _ _ _ _ (k_out k)) as [s' o]. cbn.
  destruct H as (tr & Ht & H). split; [done|]. exists tr. split; [done|]. intros Ho. exists c. auto.
Qed.

(** The ways a name resolves that end a delivery are not SMTP_OK. *)
Lemma resolve_refuses d k : wp (deliver_resolve d) (fun _ o => match o with Some (inl rc) => rc = SMTP_TEMPFAIL \/ rc = SMTP_PERMFAIL | _ => True end) k.
Proof.
  unfold deliver_resolve.
  assert (Hb : forall A (m : prog (@Worker N) A) f k, (forall a k, wp (f a) (fun _ (o : option (Z + list bytes)) =>
     match o with Some (inl rc) => rc = SMTP_TEMPFAIL \/ rc = SMTP_PERMFAIL | _ => True end) k) ->
     wp (m ≫= f) (fun _ o => match o with Some (inl rc) => rc = SMTP_TEMPFAIL \/ rc = SMTP_PERMFAIL | _ => True end) k).
  { intros A m f k0 Hf. apply wp_bind. unfold wp at 1. destruct (m k0) as [k1 [a|]]; [apply Hf|done]. }
  repeat first [ progress (apply Hb; intros ? ?) | case_match | apply wp_ret; cbn; auto ].
Qed.

Lemma recipient_delivers from rcpt msg attempt : delivers from rcpt msg (deliver_recipient fuel cfg from rcpt msg attempt).
Proof.
  unfold deliver_recipient, deliver_internal. apply delivers_bind; [apply kquiet_status|]. intros [].
  destruct (outbox_addr_domain rcpt 256) as [d|].
  2: { apply delivers_bind; [apply kquiet_status|]. intros []. by apply delivers_refuse. }
  destruct (_ && _); [apply delivers_send; by right|]. intros k. apply wp_bind.
  eapply wp_mono; [apply wp_and; [apply (kquiet_resolve d k)|apply (resolve_refuses d k)]|].
  intros k1 [[rc|ips]|] ([Hl Ht] & Hrc); cbn beta match.
  - eapply wp_mono; [apply (delivers_refuse from rcpt msg rc)|]; [destruct Hrc as [->| ->]; done|].
    intros k2 o (Hl2 & tr & Ht2 & Ho). split; [congruence|]. exists tr. by rewrite Ht2, Ht.
  - eapply wp_mono; [apply (delivers_send from rcpt msg (deliver_cfg cfg)); by left|].
    intros k2 o (Hl2 & tr & Ht2 & Ho). split; [congruence|]. exists tr. by rewrite Ht2, Ht.
  - split; [done|]. exists []. split; [by rewrite app_nil_r|done].
Qed.

(** What a completed pass leaves behind. *)
Definition passed (j : Job) (rcpts : list bytes) (dones : list bool) (k k' : @Worker N) (ds : list bool) (p : nat) : Prop :=
  exists new tr, k_log k' = k_log k ++ new /\ o_trace (k_out k') = o_trace (k_out k) ++ tr /\
    length ds = length dones /\
    open_rcpts (jb_from j) (jb_msg j) rcpts dones
      ≡ₚ map outcome_parcel new ++ open_rcpts (jb_from j) (jb_msg j) rcpts ds /\
    Forall (justified tr) new /\ Forall (fun o => oc_attempt o = jb_attempt j) new /\
    p = length (open_rcpts (jb_from j) (jb_msg j) rcpts ds) /\ (p <> 0%nat -> jb_attempt j < max_attempts cfg).

Lemma passed_keep j r rcpts dones k k' ds p : passed j rcpts dones k k' ds p ->
  passed j (r :: rcpts) (true :: dones) k k' (true :: ds) p.
Proof.
  intros (new & tr & Hl & Ht & Hds & Hp & Hj & Ha & Hn & Hm). exists new, tr. repeat split; auto. cbn. by rewrite Hds.
Qed.

Lemma rcpt_loop_spec j rcpts : jb_attempt j <= max_attempts cfg -> forall dones k, length dones = length rcpts ->
  wp (rcpt_loop fuel cfg j rcpts dones) (fun k' o =>
    match o with Some (ds, p) => passed j rcpts dones k k' ds p | None => True end) k.
Proof.
  intros Hmax. induction rcpts as [|r rcpts IH]; intros [|[] dones] k Hlen; try discriminate; cbn [rcpt_loop].
  - apply wp_ret. exists [], []. rewrite !app_nil_r. cbn. repeat split; auto. done.
  - apply wp_bind. eapply wp_mono; [apply IH; injection Hlen; lia|]. intros k1 [[ds p]|] H; [|done].
    apply wp_ret. by apply passed_keep.
  - apply wp_bind. eapply wp_mono; [apply recipient_delivers|]. intros k1 [rc|] (Hl & tr & Ht & Hok); [|done].
    cbn beta match zeta. set (terminal := (rc =? SMTP_OK) || (rc =? SMTP_PERMFAIL)).
    destruct (terminal || (jb_attempt j >=? max_attempts cfg)) eqn:Hend.
    + apply wp_bind. apply wp_kquiet; [destruct terminal; [apply kquiet_ret|apply kquiet_status]|].
      intros k2 [[]|] Hl2 Ht2; [|done]. apply wp_bind, wp_gets, wp_bind, wp_modify.
      set (out := {| oc_from := _ |}). apply wp_bind. eapply wp_mono; [apply IH; injection Hlen; lia|].
      intros k3 [[ds p]|] H; [|done]. apply wp_ret.
      destruct H as (new & tr2 & Hl3 & Ht3 & Hds & Hp & Hj & Ha & Hn & Hm). cbn [k_log k_out] in Hl3, Ht3.
      assert (Hout : justified tr out).
      { unfold justified. cbn [oc_rc oc_attempt out]. destruct (Z.eqb_spec rc SMTP_OK) as [->|Hrc].
        - left. split; [done|]. destruct (Hok eq_refl) as (c & Hc & Htk). exists c, [], tr, []. by rewrite app_nil_r.
        - right. destruct (Z.eqb_spec rc SMTP_PERMFAIL) as [->|]; [by left|]. right. split; [done|].
          cbn in Hend. destruct (Z.geb_spec (jb_attempt j) (max_attempts cfg)); [lia|done]. }
      exists (out :: new), (tr ++ tr2). rewrite Hl3, Ht3, Hl2, Ht2, Hl, Ht, <- !app_assoc. split; [done|]. split; [done|].
      split; [cbn; by rewrite Hds|]. split; [cbn; by rewrite Hp|].
      split; [constructor; [apply justified_app; by left|]; eapply Forall_impl; [exact Hj|]; intros; apply justified_app; by right|].
      split; [by constructor|]. by split.
    + apply wp_bind. eapply wp_mono; [apply IH; injection Hlen; lia|]. intros k2 [[ds p]|] H; [|done]. apply wp_ret.
      destruct H as (new & tr2 & Hl3 & Ht3 & Hds & Hp & Hj & Ha & Hn & Hm).
      exists new, (tr ++ tr2). rewrite Hl3, Ht3, Hl, Ht, <- !app_assoc. split; [done|]. split; [done|].
      split; [cbn; by rewrite Hds|]. split; [cbn; rewrite Hp; by rewrite Permutation_middle|].
      split; [eapply Forall_impl; [exact Hj|]; intros; apply justified_app; by right|].
      split; [done|]. split; [cbn; by rewrite Hn|]. intros _.
      apply orb_false_iff in Hend as [_ Hge]. destruct (Z.geb_spec (jb_attempt j) (max_attempts cfg)); [done|lia].
Qed.

End Pass.

(** ** The poll thread and the worker *)

Section System.
Context {N : Net} {R : Resolver N} (fuel : nat) (cfg : OutboxConfig) (M : Z).

(** The shared queue, the job the worker holds, the worker, and (ghost) every
    recipient of a submission that was accepted. *)
Record System := MkSys {
  s_queue : DeliveryQueue;
  s_flight : option Job;
  s_worker : @Worker N;
  s_accepted : list parcel;
}.

(** Messages of at most [M] bytes are submitted. *)
Inductive sys_step : System -> System -> Prop :=
| step_enqueue q fl k acc from rcpts msg q' rc :
    len msg <= M -> outbox_delivery_enqueue q from rcpts msg = (q', rc) ->
    sys_step (MkSys q fl k acc)
      (MkSys q' fl k (acc ++ if rc =? 0 then map (fun r => (from, r, msg)) rcpts else []))
| step_shutdown q fl k acc :
    sys_step (MkSys q fl k acc) (MkSys (outbox_delivery_shutdown q) fl k acc)
| step_take q k acc now k' j q' :
    now_w k = (k', Some now) -> worker_look q now = LkJob j q' ->
    sys_step (MkSys q None k acc) (MkSys q' (Some j) k' acc)
| step_wait q k acc now k1 k2 :
    now_w k = (k1, Some now) ->
    k2 = match worker_look q now with
         | LkWaitUntil t => (lift_out (net_do (fun n => wait_until n t)) k1).1 | _ => k1 end ->
    sys_step (MkSys q None k acc) (MkSys q None k2 acc)
| step_done q k acc j k' :
    job_deliver fuel cfg j k = (k', Some None) -> sys_step (MkSys q (Some j) k acc) (MkSys q None k' acc)
| step_retry q k acc j k' j' :
    job_deliver fuel cfg j k = (k', Some (Some j')) ->
    sys_step (MkSys q (Some j) k acc) (MkSys (queue_reappend q j') None k' acc).

Definition start (k : Worker) : System := MkSys (start_queue cfg) None k [].

Definition job_ok (j : Job) : Prop :=
  length (jb_done j) = length (jb_rcpts j) /\ 1 <= jb_attempt j <= max_attempts cfg /\ len (jb_msg j) <= M.

Definition all_open (js : list Job) : list parcel := concat (map open_of js).
Definition total_bytes (js : list Job) : Z := foldr Z.add 0 (map (fun j => len (jb_msg j)) js).
Definition jobs_of (s : System) : list Job := q_jobs (s_queue s) ++ option_list (s_flight s).

(** Every accepted recipient has one outcome in the log or is open in one job, and
    every outcome is justified by the trace. *)
Definition delivered_once (s : System) : Prop :=
  s_accepted s ≡ₚ map outcome_parcel (k_log (s_worker s)) ++ all_open (jobs_of s) /\
  Forall (justified cfg (o_trace (k_out (s_worker s)))) (k_log (s_worker s)).

(** The accounting is exact, and the caps hold but for one job in flight. *)
Definition within_caps (s : System) : Prop :=
  let q := s_queue s in
  q_njobs q = len (q_jobs q) /\ q_bytes q = total_bytes (q_jobs q) /\
  len (jobs_of s) <= q_max_jobs (start_queue cfg) + 1 /\
  total_bytes (jobs_of s) <= q_max_bytes (start_queue cfg) + M.

(** The numbers of the configuration are in the range of their C types, and the
    sizes of the messages leave room in a size_t. *)
Definition cfg_ok : Prop :=
  0 <= ox_max_attempts cfg <= UINT32_MAX /\ 0 <= ox_queue_max_jobs cfg <= UINT32_MAX /\
  0 <= ox_queue_max_bytes cfg /\ 0 <= M /\ q_max_bytes (start_queue cfg) + 2 * M <= UINT64_MAX.

Definition sys_inv (s : System) : Prop :=
  delivered_once s /\ within_caps s /\ Forall job_ok (jobs_of s) /\
  q_max_jobs (s_queue s) = q_max_jobs (start_queue cfg) /\ q_max_bytes (s_queue s) = q_max_bytes (start_queue cfg).

Lemma total_app a b : total_bytes (a ++ b) = total_bytes a + total_bytes b.
Proof. unfold total_bytes. induction a as [|x a IH]; cbn; lia. Qed.

#[local] Instance total_proper : Proper (Permutation ==> eq) total_bytes.
Proof. intros a b H. unfold total_bytes. induction H; cbn in *; lia. Qed.

Lemma open_app a b : all_open (a ++ b) = all_open a ++ all_open b.
Proof. unfold all_open. by rewrite map_app, concat_app. Qed.

#[local] Instance open_proper : Proper (Permutation ==> Permutation) all_open.
Proof.
  intros a b H. unfold all_open. induction H; cbn; [done|by rewrite IHPermutation| |by etrans].
  by rewrite !app_assoc, (Permutation_app_comm (open_of y)).
Qed.

Lemma total_nonneg js : 0 <= total_bytes js.
Proof. unfold total_bytes. induction js; cbn; lia. Qed.

Lemma u64_small z : 0 <= z <= UINT64_MAX -> u64 z = z.
Proof. unfold u64, UINT64_MAX. intros. apply Z.mod_small. lia. Qed.

Lemma max_attempts_range : cfg_ok -> 1 <= max_attempts cfg <= UINT32_MAX.
Proof.
  intros (Ha & _). unfold max_attempts, or_default, OUTBOX_DEFAULT_MAX_ATTEMPTS.
  destruct (Z.eqb_spec (ox_max_attempts cfg) 0); [unfold UINT32_MAX; lia|lia].
Qed.

Lemma job_deliver_spec j k : cfg_ok -> job_ok j ->
  wp (job_deliver fuel cfg j) (fun k' o =>
    match o with
    | Some r => exists new tr, k_log k' = k_log k ++ new /\ o_trace (k_out k') = o_trace (k_out k) ++ tr /\
        open_of j ≡ₚ map outcome_parcel new ++ all_open (option_list r) /\
        Forall (justified cfg tr) new /\ Forall (fun o => oc_attempt o = jb_attempt j) new /\
        match r with
        | Some j' => job_ok j' /\ jb_msg j' = jb_msg j /\ jb_attempt j' = jb_attempt j + 1
        | None => True
        end
    | None => True
    end) k.
Proof.
  intros Hcfg (Hlen & Hatt & Hmsg). pose proof (max_attempts_range Hcfg) as Hmax. unfold job_deliver. apply wp_bind.
  eapply wp_mono; [apply rcpt_loop_spec; [lia|done]|].
  intros k1 [[ds p]|] H; [|done]. destruct H as (new & tr & Hl & Ht & Hds & Hp & Hj & Ha & Hn & Hm).
  cbn beta match. destruct (Nat.eqb_spec p 0) as [Hp0|Hp0].
  - apply wp_ret. exists new, tr. repeat split; auto. cbn. unfold open_of. rewrite Hp.
    destruct (open_rcpts _ _ _ ds); [done|cbn in *; lia].
  - apply wp_bind. apply wp_kquiet; [apply kquiet_net|]. intros k2 [now|] Hl2 Ht2; [|done]. apply wp_ret.
    specialize (Hm Hp0). exists new, tr. rewrite Hl2, Ht2. repeat split; auto; cbn; try lia.
    + unfold all_open. cbn. rewrite app_nil_r. exact Hp.
    + rewrite u32_small; [lia|unfold UINT32_MAX in *; lia].
    + rewrite u32_small; [lia|unfold UINT32_MAX in *; lia].
    + rewrite u32_small; [lia|unfold UINT32_MAX in *; lia].
Qed.

Lemma caps_range : cfg_ok -> 1 <= q_max_jobs (start_queue cfg) < UINT64_MAX /\ 1 <= q_max_bytes (start_queue cfg) /\
  q_max_bytes (start_queue cfg) + 2 * M <= UINT64_MAX /\ 0 <= M.
Proof.
  intros (_ & HJ & HB & HM & HR). split; [|split; [|done]]; unfold start_queue; cbn;
    unfold or_default, OUTBOX_DEFAULT_QUEUE_MAX_JOBS, OUTBOX_DEFAULT_QUEUE_MAX_BYTES, UINT64_MAX, UINT32_MAX in *; case_match; lia.
Qed.

(** A step of the worker that reaches [k'] with the same log and trace. *)
Lemma now_quiet k k' o : now_w k = (k', o) -> k_log k' = k_log k /\ o_trace (k_out k') = o_trace (k_out k).
Proof. intros H. exact (wp_use _ _ _ _ _ (kquiet_net clock k) H). Qed.

Lemma delivered_quiet q q' fl fl' k k' acc :
  k_log k' = k_log k -> o_trace (k_out k') = o_trace (k_out k) -> q_jobs q' ++ option_list fl' ≡ₚ q_jobs q ++ option_list fl ->
  delivered_once (MkSys q fl k acc) -> delivered_once (MkSys q' fl' k' acc).
Proof. unfold delivered_once, jobs_of. cbn. intros -> -> ->. done. Qed.

(** The end of a pass over the job in flight. *)
Lemma pass_inv q j k k' acc r : cfg_ok -> job_deliver fuel cfg j k = (k', Some r) ->
  sys_inv (MkSys q (Some j) k acc) ->
  sys_inv (MkSys (match r with Some j' => queue_reappend q j' | None => q end) None k' acc).
Proof.
  intros Hcfg Hrun (Hd & Hw & Hok & Hmj & Hmb). pose proof (caps_range Hcfg) as (HJ & HB & HR).
  unfold jobs_of in Hok. cbn in Hok. apply Forall_app in Hok as [Hoq Hoj]. apply Forall_inv in Hoj.
  pose proof (wp_use _ _ _ _ _ (job_deliver_spec j k Hcfg Hoj) Hrun) as H. cbn beta match in H.
  destruct H as (new & tr & Hl & Ht & Hp & Hj & _ & Hr). destruct Hd as [Hd Hjust], Hw as (Hn & Hb & Hc & Hs).
  unfold jobs_of in *. cbn [s_queue s_flight s_worker s_accepted option_list] in *.
  change (option_list (Some j)) with [j] in *. rewrite length_app, total_app in *. cbn [length] in Hc.
  assert (Htj : total_bytes [j] = len (jb_msg j)) by (unfold total_bytes; cbn; lia). rewrite Htj in Hs.
  assert (Hdel : delivered_once (MkSys (match r with Some j' => queue_reappend q j' | None => q end) None k' acc)).
  { split; cbn [s_queue s_flight s_worker s_accepted].
    - etrans; [exact Hd|]. rewrite Hl, map_app, <- app_assoc. f_equiv. unfold jobs_of. cbn [s_queue s_flight option_list].
      rewrite !open_app. change (all_open [j]) with (open_of j ++ []).
      rewrite app_nil_r, Hp. etrans; [apply Permutation_app_swap_app|]. f_equiv.
      change (all_open (option_list None)) with (@nil parcel). rewrite app_nil_r.
      destruct r as [j'|]; cbn [queue_reappend append_job q_jobs]; [by rewrite open_app|by rewrite app_nil_r].
    - rewrite Hl, Ht. apply Forall_app. split; [|eapply Forall_impl; [exact Hj|]; intros; apply justified_app; by right].
      eapply Forall_impl; [exact Hjust|]. intros; apply justified_app; by left. }
  destruct r as [j'|].
  - destruct Hr as (Hok' & Hmsg & _).
    assert (Htot : total_bytes [j'] = len (jb_msg j)) by (unfold total_bytes; cbn; rewrite Hmsg; lia).
    pose proof (total_nonneg (q_jobs q)).
    split; [exact Hdel|]. split; [|split; [|done]].
    + unfold within_caps, jobs_of. cbn [s_queue s_flight queue_reappend append_job q_jobs q_njobs q_bytes].
      change (option_list None) with (@nil Job). rewrite app_nil_r, !length_app, !total_app, Htot. cbn [length].
      rewrite !u64_small; rewrite ?Hn, ?Hb, ?Hmsg; lia.
    + unfold jobs_of. cbn. rewrite app_nil_r. apply Forall_app. split; [done|]. by constructor.
  - split; [exact Hdel|]. split; [|split; [|done]].
    + unfold within_caps, jobs_of. cbn [s_queue s_flight]. change (option_list None) with (@nil Job).
      rewrite app_nil_r. lia.
    + unfold jobs_of. cbn. by rewrite app_nil_r.
Qed.

Lemma sys_inv_step s s' : cfg_ok -> sys_step s s' -> sys_inv s -> sys_inv s'.
Proof.
  intros Hcfg Hstep Hinv. pose proof (caps_range Hcfg) as (HJ & HB & HR & HM).
  destruct Hstep as [q fl k acc from rcpts msg q' rc Hmsg Henq|q fl k acc|q k acc now k' j q' Hnow Hlook
                    |q k acc now k1 k2 Hnow ->|q k acc j k' Hrun|q k acc j k' j' Hrun].
  - destruct Hinv as (Hd & Hw & Hok & Hmj & Hmb). unfold outbox_delivery_enqueue in Henq.
    destruct (q_shutdown q); [injection Henq as <- <-; by rewrite app_nil_r|].
    destruct (at_cap q (len msg)) eqn:Hcap; injection Henq as <- <-; [by rewrite app_nil_r|]. cbn [Z.eqb].
    destruct Hw as (Hn & Hb & Hc & Hs). cbn [s_queue s_flight] in *. unfold jobs_of in *. cbn [s_queue s_flight] in *.
    apply orb_false_iff in Hcap as [Hcj Hcb]. rewrite Hmj, Hn in Hcj. rewrite Hmb, Hb in Hcb.
    rewrite length_app, total_app in *. apply Forall_app in Hok as [Hoq Hof].
    pose proof (total_nonneg (q_jobs q)). pose proof (total_nonneg (option_list fl)).
    assert (Hfl : len (option_list fl) <= 1 /\ total_bytes (option_list fl) <= M).
    { destruct fl as [j|]; cbn; [|lia]. apply Forall_inv in Hof as (_ & _ & ?). lia. }
    assert (Hsmall : len (q_jobs q) < q_max_jobs (start_queue cfg) /\
      total_bytes (q_jobs q) + len msg <= q_max_bytes (start_queue cfg)).
    { rewrite u64_small in Hcb by lia. cbn in HJ, HB, Hcj, Hcb |- *. split; lia. }
    assert (Ht1 : total_bytes [new_job from rcpts msg] = len msg) by (unfold total_bytes; cbn; lia).
    split; [|split; [|split; [|done]]].
    + destruct Hd as [Hd Hj]. split; [|done]. cbn [s_accepted s_worker]. etrans; [apply Permutation_app_tail, Hd|].
      unfold jobs_of. cbn [s_queue s_flight append_job q_jobs]. rewrite <- app_assoc. apply Permutation_app; [done|]. rewrite !open_app, <- !app_assoc. f_equiv.
      rewrite <- open_new. unfold all_open at 2. cbn [map concat]. rewrite app_nil_r. apply Permutation_app_comm.
    + unfold within_caps, jobs_of. cbn [s_queue s_flight append_job q_jobs q_njobs q_bytes].
      cbn [jb_msg new_job]. rewrite !length_app, !total_app, Ht1. cbn [length].
      rewrite !u64_small; rewrite ?Hn, ?Hb; lia.
    + unfold jobs_of. cbn [s_queue s_flight append_job q_jobs]. rewrite !Forall_app. split; [split; [done|]|done].
      constructor; [|constructor]. split; [cbn; by rewrite length_map|]. pose proof (max_attempts_range Hcfg). cbn. lia.
  - exact Hinv.
  - destruct (now_quiet _ _ _ Hnow) as [Hl Ht]. unfold worker_look in Hlook.
    destruct (pick _ _ _) as [[p rest]|] eqn:Hp; [|by repeat case_match]. injection Hlook as <- <-.
    apply pick_perm in Hp as [Hp _]. destruct Hinv as (Hd & (Hn & Hb & Hc & Hs) & Hok & Hmj & Hmb).
    assert (Hperm : rest ++ [p] ≡ₚ q_jobs q ++ []) by (by rewrite Hp, app_nil_r, Permutation_app_comm).
    unfold jobs_of in *. cbn [s_queue s_flight] in *. change (option_list None) with (@nil Job) in *.
    pose proof (Permutation_length Hperm) as Hlen. rewrite !length_app in Hlen. rewrite length_app in Hc. cbn [length] in *.
    pose proof (total_proper _ _ Hperm) as Htot. rewrite !total_app in Htot. rewrite total_app in Hs.
    assert (Htp : total_bytes [p] = len (jb_msg p)) by (unfold total_bytes; cbn; lia).
    change (total_bytes []) with 0 in *. pose proof (total_nonneg rest). pose proof (total_nonneg [p]).
    split; [|split; [|split; [|done]]].
    + by apply (delivered_quiet q _ None _ k).
    + unfold within_caps, jobs_of. cbn [s_queue s_flight q_jobs q_njobs q_bytes]. change (option_list (Some p)) with [p].
      rewrite length_app, total_app. cbn [length]. rewrite !u64_small; rewrite ?Hn, ?Hb; lia.
    + unfold jobs_of. cbn [s_queue s_flight q_jobs]. change (option_list (Some p)) with [p]. by rewrite Hperm.
  - destruct (now_quiet _ _ _ Hnow) as [Hl Ht].
    set (k2 := match worker_look q now with LkWaitUntil t => _ | _ => k1 end).
    assert (Hk2 : k_log k2 = k_log k1 /\ o_trace (k_out k2) = o_trace (k_out k1)).
    { subst k2. by destruct (worker_look q now). }
    destruct Hk2 as [Hl2 Ht2]. destruct Hinv as (Hd & Hw & Hok & Hm). split; [|split; [exact Hw|split; [exact Hok|exact Hm]]].
    apply (delivered_quiet q _ None _ k); [congruence|congruence|done|done].
  - by apply (pass_inv q j k k' acc None).
  - by apply (pass_inv q j k k' acc (Some j')).
Qed.

Lemma sys_inv_start k : cfg_ok -> k_log k = [] -> sys_inv (start k).
Proof.
  intros Hcfg Hk. pose proof (caps_range Hcfg) as (HJ & HB & HR & HM). unfold start.
  repeat split; unfold jobs_of; cbn [s_queue s_flight s_accepted s_worker start_queue q_jobs outbox_delivery_queue_init]; rewrite ?Hk;
    cbn; try constructor; cbn in *; lia.
Qed.

Lemma sys_inv_reached k s : cfg_ok -> k_log k = [] -> rtc sys_step (start k) s -> sys_inv s.
Proof.
  intros Hcfg Hk Hr. assert (Hi : sys_inv (start k)) by (by apply sys_inv_start). revert Hi.
  induction Hr as [|s1 s2 s3 Hs Hr IH]; [done|]. intros Hi. apply IH. by eapply sys_inv_step.
Qed.

End System.

(** ** The properties of the system *)

(** C3: No accepted mail is lost, and none is delivered twice. However the poll
    thread's submissions and its shutdown interleave with the worker's passes, and
    whatever DNS and the servers answer: at every moment each recipient of each
    accepted submission either has exactly one final outcome in the log or is open
    in exactly one queued job or the one in flight; an outcome SMTP_OK means that a
    server took this sender, recipient and message on a connection of the trace, and
    any other outcome is a permanent failure or comes after the last attempt. *)
Theorem accepted_recipients_kept {N : Net} {R : Resolver N} (fuel : nat) (cfg : OutboxConfig) (M : Z)
  (k : @Worker N) (s : System) (Hcfg : cfg_ok cfg M) (Hk : k_log k = []) (Hreach : rtc (sys_step fuel cfg M) (start cfg k) s) :
  delivered_once cfg s.
Proof. by apply (sys_inv_reached fuel cfg M k s Hcfg Hk). Qed.

(** The queue stays within its caps, and its counters are exact. In every
    reachable state [njobs] and [bytes] are the number of queued jobs and the sum of
    their message lengths without wrap-around, and counting the job in flight there
    is at most one job more than [max_jobs] and one message more than [max_bytes],
    although retried jobs are appended past the caps. *)
Theorem delivery_queue_bounded {N : Net} {R : Resolver N} (fuel : nat) (cfg : OutboxConfig) (M : Z)
  (k : @Worker N) (s : System) (Hcfg : cfg_ok cfg M) (Hk : k_log k = []) (Hreach : rtc (sys_step fuel cfg M) (start cfg k) s) :
  within_caps cfg M s.
Proof. by apply (sys_inv_reached fuel cfg M k s Hcfg Hk). Qed.

(** ** Draining after a shutdown *)

(** Resolver calls do not make the network deliver more. *)
Class FiniteResolver (N : Net) (R : Resolver N) (F : FiniteNet N) := {
  left_mx d : shrinks (fun n => auth_dns_mx n d);
  left_addr d : shrinks (fun n => auth_dns_addr n d);
  left_clock : shrinks clock;
  left_wait t : shrinks (fun n => (wait_until n t, tt));
}.

Section Drain.
Context {N : Net} {R : Resolver N} {F : FiniteNet N} {FR : FiniteResolver N R F} (fuel : nat) (cfg : OutboxConfig) (M : Z).

Definition wends {A} (m : prog (@Worker N) A) : Prop := forall k,
  wp m (fun k' o => match o with
    | Some _ => (unread (k_out k') <= unread (k_out k))%nat
    | None => (fuel <= unread (k_out k))%nat end) k.

Lemma wends_ret {A} (a : A) : wends (mret a).
Proof. intros k. by apply wp_ret. Qed.

Lemma wends_gets {A} (f : Worker -> A) : wends (gets f).
Proof. intros k. by apply wp_gets. Qed.

Lemma wends_bind {A B} (m : prog Worker A) (f : A -> prog Worker B) : wends m -> (forall a, wends (f a)) -> wends (m ≫= f).
Proof.
  intros Hm Hf k. apply wp_bind. eapply wp_mono; [apply Hm|]. intros k1 [a|] H1; [|done].
  eapply wp_mono; [apply Hf|]. intros k2 [b|] H2; cbn in H1, H2 |- *; lia.
Qed.

Lemma wends_lift {A} (m : prog Out A) : ends fuel m -> wends (lift_out m).
Proof.
  intros Hm k. specialize (Hm (k_out k)). unfold consumes, wp, lift_out in *.
  destruct (m (k_out k)) as [o [a|]]; cbn in *; lia.
Qed.

Lemma wends_net {A} (f : net -> net * A) : shrinks f -> wends (lift_out (on_net f)).
Proof. intros Hf. by apply wends_lift, ends_on_net. Qed.

Lemma wends_status t : wends (status_w t).
Proof. apply wends_lift, ends_put_status. Qed.

Lemma wends_log o : wends (log_outcome o).
Proof. intros k. by apply wp_modify. Qed.

Lemma wends_put d ips : wends (mx_cache_put d ips).
Proof.
  unfold mx_cache_put, now_w. destruct (_ || _); [apply wends_ret|].
  apply wends_bind; [apply wends_net, left_clock|]. intros now k. by apply wp_modify.
Qed.

Lemma wends_hosts mx ips : wends (add_hosts mx ips).
Proof.
  revert ips. induction mx as [|h mx IH]; intros ips; cbn [add_hosts]; [apply wends_ret|].
  apply wends_bind; [apply wends_net, left_addr|]. intros [addrs|]; apply IH.
Qed.

Lemma wends_send c host port from rcpt msg : c = deliver_cfg cfg \/ c = deliver_cfg_internal cfg ->
  wends (lift_out (smtp_out_send_host fuel 512 c host port from rcpt msg)).
Proof. intros Hc. apply wends_lift, send_host_ends. by destruct Hc as [->| ->]. Qed.

#[local] Hint Resolve wends_ret wends_gets wends_status wends_log wends_put wends_hosts wends_send left_mx left_addr
  left_clock left_wait : finite.

Ltac wends_tac :=
  repeat match goal with
  | |- wends (mret _) => apply wends_ret
  | |- wends (_ ≫= _) => apply wends_bind; [|intros ?]
  | |- wends (lift_out (on_net _)) => apply wends_net
  | |- wends (if ?b then _ else _) => destruct b
  | |- wends (match ?x with _ => _ end) => destruct x
  end; eauto with finite.

Lemma recipient_ends from rcpt msg attempt : wends (deliver_recipient fuel cfg from rcpt msg attempt).
Proof. unfold deliver_recipient, deliver_internal, deliver_resolve, mx_cache_get, now_w. wends_tac. Qed.

Lemma rcpt_loop_ends j rcpts : forall dones, wends (rcpt_loop fuel cfg j rcpts dones).
Proof.
  induction rcpts as [|r rcpts IH]; intros [|[] dones]; cbn [rcpt_loop]; pose proof recipient_ends; wends_tac.
Qed.

Lemma job_deliver_ends j : wends (job_deliver fuel cfg j).
Proof. unfold job_deliver, now_w. pose proof rcpt_loop_ends. wends_tac. Qed.

(** The passes the jobs still have at most. *)
Definition passes_left (js : list Job) : nat :=
  foldr Nat.add 0%nat (map (fun j => Z.to_nat (max_attempts cfg - jb_attempt j + 1)) js).

Lemma passes_app a b : passes_left (a ++ b) = (passes_left a + passes_left b)%nat.
Proof. unfold passes_left. induction a as [|x a IH]; cbn; lia. Qed.

Lemma passes_bound js : Forall (job_ok cfg M) js -> (passes_left js <= length js * Z.to_nat (max_attempts cfg))%nat.
Proof. unfold passes_left. induction 1 as [|j js (_ & Hj & _) _ IH]; cbn [map foldr length] in *; lia. Qed.

Lemma worker_drains (Hcfg : cfg_ok cfg M) rounds : forall q k acc,
  sys_inv cfg M (MkSys q None k acc) -> q_shutdown q = true -> (unread (k_out k) < fuel)%nat ->
  (passes_left (q_jobs q) < rounds)%nat ->
  exists k' q', worker_loop fuel cfg rounds q k = (k', Some q') /\ q_jobs q' = [] /\ sys_inv cfg M (MkSys q' None k' acc).
Proof.
  induction rounds as [|rounds IH]; intros q k acc Hinv Hsh Hfuel Hrounds; [lia|]. cbn [worker_loop].
  unfold mbind, prog_bind at 1. destruct (now_w k) as [k1 o] eqn:Hnow.
  pose proof (wp_use _ _ _ _ _ (wends_net clock left_clock k) Hnow) as Hun.
  destruct o as [now|]; [|cbn in Hun; lia]. cbn in Hun.
  assert (Hk1 : sys_inv cfg M (MkSys q None k1 acc)).
  { destruct (now_quiet k k1 _ Hnow) as [Hl Ht]. destruct Hinv as (Hd & Hw & Hok & Hm).
    split; [|split; [exact Hw|split; [exact Hok|exact Hm]]]. by apply (delivered_quiet cfg q _ None _ k). }
  destruct (worker_look q now) as [j q'| | |t] eqn:Hlook.
  - assert (Hinv' : sys_inv cfg M (MkSys q' (Some j) k1 acc)).
    { apply (sys_inv_step fuel cfg M (MkSys q None k acc)); [done| |done]. by eapply step_take. }
    assert (Hq : q_jobs q = j :: q_jobs q' /\ q_shutdown q' = true).
    { unfold worker_look in Hlook. destruct (q_jobs q) as [|x js]; cbn [pick] in Hlook; rewrite Hsh in Hlook; [done|].
      cbn [orb] in Hlook. injection Hlook as <- <-. done. }
    destruct Hq as [Hq Hsh']. rewrite Hq in Hrounds. change (j :: q_jobs q') with ([j] ++ q_jobs q') in Hrounds.
    rewrite passes_app in Hrounds.
    assert (Hj : job_ok cfg M j).
    { destruct Hk1 as (_ & _ & Hok & _). unfold jobs_of in Hok. cbn in Hok. rewrite Hq in Hok. by apply Forall_inv in Hok. }
    unfold prog_bind at 1. destruct (job_deliver fuel cfg j k1) as [k2 o] eqn:Hrun.
    pose proof (wp_use _ _ _ _ _ (job_deliver_ends j k1) Hrun) as Hun2.
    pose proof (wp_use _ _ _ _ _ (job_deliver_spec fuel cfg M j k1 Hcfg Hj) Hrun) as Hspec.
    destruct o as [r|]; [|cbn in Hun2; lia]. cbn in Hun2.
    pose proof (pass_inv fuel cfg M q' j k1 k2 acc r Hcfg Hrun Hinv') as Hinv2.
    assert (Hpass : (passes_left (q_jobs (match r with Some j' => queue_reappend q' j' | None => q' end)) < rounds)%nat).
    { destruct Hspec as (_ & _ & _ & _ & _ & _ & _ & Hr). destruct Hj as (_ & Hj & _).
      destruct r as [j'|]; [|unfold passes_left in *; cbn in *; lia].
      cbn [queue_reappend append_job q_jobs]. rewrite passes_app. destruct Hr as ((_ & Hj' & _) & _ & Hatt).
      unfold passes_left in *. cbn in *. lia. }
    apply IH; [done|by destruct r|lia|exact Hpass].
  - exists k1, q. split; [done|]. split; [|done]. unfold worker_look in Hlook.
    destruct (q_jobs q) as [|x js]; [done|]. cbn [pick] in Hlook. by rewrite Hsh in Hlook.
  - unfold worker_look in Hlook. destruct (q_jobs q) as [|x js]; cbn [pick] in Hlook; rewrite Hsh in Hlook; done.
  - unfold worker_look in Hlook. destruct (q_jobs q) as [|x js]; cbn [pick] in Hlook; rewrite Hsh in Hlook; done.
Qed.

End Drain.

(** C8: A clean stop delivers what was accepted. From every reachable state with
    the shutdown requested and no job in flight, over a network that delivers
    finitely many bytes, the worker exits after at most
    [max_attempts] passes per queued job: the queue is then empty, and every recipient of
    every submission ever accepted has exactly one outcome in the log, justified as
    in [accepted_recipients_kept]. *)
Theorem shutdown_drains {N : Net} {R : Resolver N} {F : FiniteNet N} {FR : FiniteResolver N R F}
  (fuel rounds : nat) (cfg : OutboxConfig) (M : Z) (k : @Worker N) (s : System)
  (Hcfg : cfg_ok cfg M) (Hk : k_log k = []) (Hreach : rtc (sys_step fuel cfg M) (start cfg k) s)
  (Hstop : q_shutdown (s_queue s) = true) (Hidle : s_flight s = None)
  (Hfuel : (unread (k_out (s_worker s)) < fuel)%nat)
  (Hrounds : (length (q_jobs (s_queue s)) * Z.to_nat (max_attempts cfg) < rounds)%nat) :
  exists k' q', worker_loop fuel cfg rounds (s_queue s) (s_worker s) = (k', Some q') /\ q_jobs q' = [] /\
    s_accepted s ≡ₚ map outcome_parcel (k_log k') /\ Forall (justified cfg (o_trace (k_out k'))) (k_log k').
Proof.
  pose proof (sys_inv_reached fuel cfg M k s Hcfg Hk Hreach) as Hinv.
  destruct s as [q fl kw acc]. cbn [s_flight s_queue s_worker s_accepted] in *. subst fl.
  assert (Hp : (passes_left cfg (q_jobs q) < rounds)%nat).
  { destruct Hinv as (_ & _ & Hok & _). unfold jobs_of in Hok. cbn in Hok. rewrite app_nil_r in Hok.
    pose proof (passes_bound cfg M _ Hok). lia. }
  destruct (worker_drains fuel cfg M Hcfg rounds q kw acc Hinv Hstop Hfuel Hp) as (k' & q' & Hrun & Hq & ([Hd Hj] & _)).
  exists k', q'. split; [done|]. split; [done|]. split; [|done]. etrans; [exact Hd|].
  unfold jobs_of. cbn [s_queue s_flight]. rewrite Hq. cbn. by rewrite app_nil_r.
Qed.

(** ** A concrete run *)

Definition ScriptResolver : Resolver ScriptNet := {|
  auth_dns_mx n d := (n, Some [bs "mx." ++ d]);
  auth_dns_addr n d := (n, Some [[10; 0; 0; 1]; [1; 2]]);
  addr_ntop a := Some (bs "10.0.0.1");
  clock n := (n, 1000);
  wait_until n t := n;
|}.

#[global] Instance ScriptFiniteResolver : FiniteResolver ScriptNet ScriptResolver ScriptFinite.
Proof. split; intros; intros n; cbn; lia. Defined.

Definition box_cfg : OutboxConfig := {|
  ox_implicit_addr := []; ox_implicit_port := 465; ox_starttls_addr := []; ox_starttls_port := 587;
  ox_cert := bs "c"; ox_key := bs "k"; ox_passwd := bs "p"; ox_domains := [bs "x.org"]; ox_dkim := [];
  ox_hostname := bs "box"; ox_spool := bs "/spool";
  ox_max_msg := 10000; ox_max_line := 1000; ox_max_rcpts := 10; ox_cmd_tmo := 60; ox_data_tmo := 60;
  ox_max_attempts := 2; ox_deliver_port := 25; ox_dns_server := [];
  ox_queue_max_jobs := 4; ox_queue_max_bytes := 100000;
  ox_internal_relay_host := []; ox_internal_relay_port := 2525; ox_internal_relay_tls := bs "implicit";
  ox_internal_relay_user := []; ox_internal_relay_pass := []; ox_internal_domains := [] |}.

Definition box_worker : @Worker ScriptNet :=
  MkWorker (script_out (good_relay ["250 ok"%string])) empty_cache 0 [].

Abbreviation box_rcpts := ([bs "b@y"]) (only parsing).
Abbreviation box_queued := ((outbox_delivery_enqueue (start_queue box_cfg) (bs "a@x.org") box_rcpts (bs "hi")).1) (only parsing).
Abbreviation box_parcels := (map (fun r => (bs "a@x.org", r, bs "hi")) box_rcpts) (only parsing).
Abbreviation box_step := (@sys_step ScriptNet ScriptResolver 100 box_cfg 20000) (only parsing).

Lemma box_cfg_ok : cfg_ok box_cfg 20000.
Proof. repeat split; vm_compute; discriminate. Qed.

(** After one submission. *)
Lemma box_accepts : box_step (start box_cfg box_worker) (MkSys box_queued None box_worker box_parcels).
Proof.
  refine (step_enqueue 100 box_cfg 20000 (start_queue box_cfg) None box_worker [] (bs "a@x.org") box_rcpts (bs "hi") _ 0 _ _).
  - vm_compute. discriminate.
  - vm_compute. reflexivity.
Qed.

Definition box_job : Job := new_job (bs "a@x.org") box_rcpts (bs "hi").
Definition box_worker2 : @Worker ScriptNet := (@job_deliver ScriptNet ScriptResolver 100 box_cfg box_job box_worker).1.

Lemma box_delivers : exists q, rtc box_step (start box_cfg box_worker) (MkSys q None box_worker2 box_parcels).
Proof.
  eexists. eapply rtc_l; [apply box_accepts|]. eapply rtc_l; [apply (step_take _ _ _ _ box_worker _ 1000 box_worker box_job); vm_compute; reflexivity|].
  eapply rtc_l; [|apply rtc_refl]. apply step_done. vm_compute. reflexivity.
Qed.

Lemma accepted_recipients_kept_witness :
  map oc_rc (k_log box_worker2) = [SMTP_OK] /\ exists q, delivered_once box_cfg (MkSys q None box_worker2 box_parcels).
Proof.
  split; [vm_compute; reflexivity|]. destruct box_delivers as [q Hq]. exists q.
  exact (@accepted_recipients_kept ScriptNet ScriptResolver 100 box_cfg 20000 box_worker _ box_cfg_ok eq_refl Hq).
Defined.

Lemma delivery_queue_bounded_witness :
  within_caps box_cfg 20000 (MkSys box_queued None box_worker box_parcels) /\ q_bytes box_queued = 2.
Proof.
  split; [|vm_compute; reflexivity].
  exact (@delivery_queue_bounded ScriptNet ScriptResolver 100 box_cfg 20000 box_worker _ box_cfg_ok eq_refl (rtc_once _ _ box_accepts)).
Defined.

Lemma shutdown_drains_witness :
  exists k' q', @worker_loop ScriptNet ScriptResolver 100 box_cfg 3 (outbox_delivery_shutdown box_queued) box_worker = (k', Some q') /\
    q_jobs q' = [] /\ box_parcels ≡ₚ map outcome_parcel (k_log k') /\ Forall (justified box_cfg (o_trace (k_out k'))) (k_log k').
Proof.
  refine (@shutdown_drains ScriptNet ScriptResolver ScriptFinite ScriptFiniteResolver 100 3 box_cfg 20000 box_worker
    (MkSys (outbox_delivery_shutdown box_queued) None box_worker box_parcels) box_cfg_ok eq_refl _ eq_refl eq_refl _ _).
  - eapply rtc_l; [apply box_accepts|]. eapply rtc_l; [apply step_shutdown|apply rtc_refl].
  - apply Nat.ltb_lt. vm_compute. reflexivity.
  - apply Nat.ltb_lt. vm_compute. reflexivity.
Defined.

(** ** Credentials for the internal relay *)

(** A delivery that is configured to authenticate never succeeds unless its TLS
    mode is "starttls-verify", which the outbox does not offer: with the default
    "implicit" or with "starttls" or "none" the client refuses to send the
    credentials and fails every message for good. *)
Lemma internal_relay_auth_refused {N : Net} (fuel sz : nat) (e : Envelope) (did_tls : bool) (s : Out)
  (Hauth : rl_auth_enabled (relay (ev_cfg e)) = true) (Htls : tls_is (ev_cfg e) "starttls-verify" = false) :
  (dlg_auth fuel sz e did_tls s).2 = Some (Some SMTP_PERMFAIL).
Proof. unfold dlg_auth. rewrite Hauth, Htls. done. Qed.

Lemma internal_relay_never_delivers :
  (@smtp_out_send_host ScriptNet 100 512
     (deliver_cfg_internal {|
        ox_implicit_addr := []; ox_implicit_port := 465; ox_starttls_addr := []; ox_starttls_port := 587;
        ox_cert := bs "c"; ox_key := bs "k"; ox_passwd := bs "p"; ox_domains := [bs "x.org"]; ox_dkim := [];
        ox_hostname := bs "box"; ox_spool := bs "/spool";
        ox_max_msg := 10000; ox_max_line := 1000; ox_max_rcpts := 10; ox_cmd_tmo := 60; ox_data_tmo := 60;
        ox_max_attempts := 2; ox_deliver_port := 25; ox_dns_server := []; ox_queue_max_jobs := 4; ox_queue_max_bytes := 100000;
        ox_internal_relay_host := bs "mx"; ox_internal_relay_port := 2525; ox_internal_relay_tls := bs "implicit";
        ox_internal_relay_user := bs "u"; ox_internal_relay_pass := bs "p"; ox_internal_domains := [] |})
     (bs "mx") 2525 (bs "a@x.org") (bs "b@x.org") (bs "hi")
     (script_out (good_relay ["250-ok"; "250 AUTH PLAIN"; "235 in"]%string))).2 = Some SMTP_PERMFAIL.
Proof. vm_compute. reflexivity. Qed.
