(* ===== verification/OutboxSubmit.v ===== *)
(** * Submission sessions of the outbox (src/src/outbox_submit.c)

    The connection record and every handler that changes it: replies, AUTH PLAIN
    and LOGIN with their continuations, the envelope, the DATA phase with the
    sender policy, signing, spooling and the hand-over to the delivery queue, and
    the ingestion of bytes; the TLS and idle steps of the poll loop
    (src/src/outbox_main.c). [Box] is what the handlers share: the machine ([Host]),
    the lockout table, the delivery queue and the spool counter, with a ghost list
    of the submissions that entered the queue; the connection has a ghost field with
    the password its user logged in with. *)

From S2P Require Import Prelude MailLines MailAddr MailHeader SmtpData DlEngine Store StoreSpec StoreTables StoreQueue Reply Json Config Prog SmtpParse SmtpWorld SmtpQueue SmtpForward SmtpSession SmtpReply OutboxAuth OutboxPolicy OutboxDeliver.

Definition OUTBOX_MAX_OUT : Z := 256 * 1024.

Inductive ob_state_t := OB_ST_INIT | OB_ST_HELO | OB_ST_MAIL | OB_ST_DATA.
Inductive ob_auth_t := OB_AUTH_NONE | OB_AUTH_PLAIN | OB_AUTH_LOGIN_USER | OB_AUTH_LOGIN_PASS.

#[global] Instance ob_state_eq_dec : EqDecision ob_state_t.
Proof. solve_decision. Defined.
#[global] Instance ob_auth_eq_dec : EqDecision ob_auth_t.
Proof. solve_decision. Defined.

Definition ob_in_state (s t : ob_state_t) : bool := bool_decide (s = t).

Record OutboxConn := MkOutboxConn {
  ob_fd : Z;
  ob_closed : bool;  (** close once the output drains *)
  ob_implicit_tls : bool;  (** accepted on the SMTPS listener *)
  ob_greeted : bool;
  ob_authenticated : bool;
  ob_auth_user : option bytes;
  ob_auth_pass : option bytes;  (** ghost: the password the session logged in with *)
  ob_pending_user : option bytes;  (** AUTH LOGIN user name so far *)
  ob_state : ob_state_t;
  ob_auth_pending : ob_auth_t;
  ob_from : option bytes;
  ob_rcpts : list bytes;
  ob_in : bytes;
  ob_data : bytes;
  ob_scan : nat;  (** [data_scan_pos] *)
  ob_out : bytes;
  ob_off : nat;
  ob_act : Z;  (** [last_act] *)
  ob_ip : bytes;  (** 4 or 16 bytes, empty when unknown *)
  ob_tls : option Z;  (** handle of the TLS context *)
  ob_said : list bytes;  (** ghost: every reply queued, oldest first *)
}.

(** Assignments to fields. *)

Definition ob_close (c : OutboxConn) : OutboxConn :=
  MkOutboxConn (ob_fd c) (true) (ob_implicit_tls c) (ob_greeted c) (ob_authenticated c) (ob_auth_user c) (ob_auth_pass c) (ob_pending_user c) (ob_state c) (ob_auth_pending c) (ob_from c) (ob_rcpts c) (ob_in c) (ob_data c) (ob_scan c) (ob_out c) (ob_off c) (ob_act c) (ob_ip c) (ob_tls c) (ob_said c).

Definition ob_greet (c : OutboxConn) : OutboxConn :=
  MkOutboxConn (ob_fd c) (ob_closed c) (ob_implicit_tls c) (true) (ob_authenticated c) (ob_auth_user c) (ob_auth_pass c) (ob_pending_user c) (ob_state c) (ob_auth_pending c) (ob_from c) (ob_rcpts c) (ob_in c) (ob_data c) (ob_scan c) (ob_out c) (ob_off c) (ob_act c) (ob_ip c) (ob_tls c) (ob_said c).

Definition ob_set_login (a : bool) (u p : option bytes) (c : OutboxConn) : OutboxConn :=
  MkOutboxConn (ob_fd c) (ob_closed c) (ob_implicit_tls c) (ob_greeted c) (a) (u) (p) (ob_pending_user c) (ob_state c) (ob_auth_pending c) (ob_from c) (ob_rcpts c) (ob_in c) (ob_data c) (ob_scan c) (ob_out c) (ob_off c) (ob_act c) (ob_ip c) (ob_tls c) (ob_said c).

Definition ob_set_auth (p : ob_auth_t) (u : option bytes) (c : OutboxConn) : OutboxConn :=
  MkOutboxConn (ob_fd c) (ob_closed c) (ob_implicit_tls c) (ob_greeted c) (ob_authenticated c) (ob_auth_user c) (ob_auth_pass c) (u) (ob_state c) (p) (ob_from c) (ob_rcpts c) (ob_in c) (ob_data c) (ob_scan c) (ob_out c) (ob_off c) (ob_act c) (ob_ip c) (ob_tls c) (ob_said c).

Definition ob_set_state (s : ob_state_t) (c : OutboxConn) : OutboxConn :=
  MkOutboxConn (ob_fd c) (ob_closed c) (ob_implicit_tls c) (ob_greeted c) (ob_authenticated c) (ob_auth_user c) (ob_auth_pass c) (ob_pending_user c) (s) (ob_auth_pending c) (ob_from c) (ob_rcpts c) (ob_in c) (ob_data c) (ob_scan c) (ob_out c) (ob_off c) (ob_act c) (ob_ip c) (ob_tls c) (ob_said c).

Definition ob_set_from (f : option bytes) (c : OutboxConn) : OutboxConn :=
  MkOutboxConn (ob_fd c) (ob_closed c) (ob_implicit_tls c) (ob_greeted c) (ob_authenticated c) (ob_auth_user c) (ob_auth_pass c) (ob_pending_user c) (ob_state c) (ob_auth_pending c) (f) (ob_rcpts c) (ob_in c) (ob_data c) (ob_scan c) (ob_out c) (ob_off c) (ob_act c) (ob_ip c) (ob_tls c) (ob_said c).

Definition ob_set_rcpts (r : list bytes) (c : OutboxConn) : OutboxConn :=
  MkOutboxConn (ob_fd c) (ob_closed c) (ob_implicit_tls c) (ob_greeted c) (ob_authenticated c) (ob_auth_user c) (ob_auth_pass c) (ob_pending_user c) (ob_state c) (ob_auth_pending c) (ob_from c) (r) (ob_in c) (ob_data c) (ob_scan c) (ob_out c) (ob_off c) (ob_act c) (ob_ip c) (ob_tls c) (ob_said c).

Definition ob_set_in (i : bytes) (c : OutboxConn) : OutboxConn :=
  MkOutboxConn (ob_fd c) (ob_closed c) (ob_implicit_tls c) (ob_greeted c) (ob_authenticated c) (ob_auth_user c) (ob_auth_pass c) (ob_pending_user c) (ob_state c) (ob_auth_pending c) (ob_from c) (ob_rcpts c) (i) (ob_data c) (ob_scan c) (ob_out c) (ob_off c) (ob_act c) (ob_ip c) (ob_tls c) (ob_said c).

Definition ob_set_data (d : bytes) (p : nat) (c : OutboxConn) : OutboxConn :=
  MkOutboxConn (ob_fd c) (ob_closed c) (ob_implicit_tls c) (ob_greeted c) (ob_authenticated c) (ob_auth_user c) (ob_auth_pass c) (ob_pending_user c) (ob_state c) (ob_auth_pending c) (ob_from c) (ob_rcpts c) (ob_in c) (d) (p) (ob_out c) (ob_off c) (ob_act c) (ob_ip c) (ob_tls c) (ob_said c).

Definition ob_set_out (o : bytes) (n : nat) (c : OutboxConn) : OutboxConn :=
  MkOutboxConn (ob_fd c) (ob_closed c) (ob_implicit_tls c) (ob_greeted c) (ob_authenticated c) (ob_auth_user c) (ob_auth_pass c) (ob_pending_user c) (ob_state c) (ob_auth_pending c) (ob_from c) (ob_rcpts c) (ob_in c) (ob_data c) (ob_scan c) (o) (n) (ob_act c) (ob_ip c) (ob_tls c) (ob_said c).

Definition ob_set_act (t : Z) (c : OutboxConn) : OutboxConn :=
  MkOutboxConn (ob_fd c) (ob_closed c) (ob_implicit_tls c) (ob_greeted c) (ob_authenticated c) (ob_auth_user c) (ob_auth_pass c) (ob_pending_user c) (ob_state c) (ob_auth_pending c) (ob_from c) (ob_rcpts c) (ob_in c) (ob_data c) (ob_scan c) (ob_out c) (ob_off c) (t) (ob_ip c) (ob_tls c) (ob_said c).

Definition ob_set_tls (t : option Z) (c : OutboxConn) : OutboxConn :=
  MkOutboxConn (ob_fd c) (ob_closed c) (ob_implicit_tls c) (ob_greeted c) (ob_authenticated c) (ob_auth_user c) (ob_auth_pass c) (ob_pending_user c) (ob_state c) (ob_auth_pending c) (ob_from c) (ob_rcpts c) (ob_in c) (ob_data c) (ob_scan c) (ob_out c) (ob_off c) (ob_act c) (ob_ip c) (t) (ob_said c).

Definition ob_say (t : bytes) (c : OutboxConn) : OutboxConn :=
  MkOutboxConn (ob_fd c) (ob_closed c) (ob_implicit_tls c) (ob_greeted c) (ob_authenticated c) (ob_auth_user c) (ob_auth_pass c) (ob_pending_user c) (ob_state c) (ob_auth_pending c) (ob_from c) (ob_rcpts c) (ob_in c) (ob_data c) (ob_scan c) (ob_out c ++ t) (ob_off c) (ob_act c) (ob_ip c) (ob_tls c) (ob_said c ++ [t]).

(** A submission that entered the queue: the user and the password of the session,
    the envelope, the message as received and as queued. *)
Record Submission := MkSubmission {
  su_user : option bytes; su_pass : option bytes; su_from : bytes; su_rcpts : list bytes; su_msg : bytes; su_queued : bytes }.

Section Submit.
Context {H : Host} (cfg : OutboxConfig) (creds : list OutboxCred).

Record Box := MkBox {
  bx_host : host;
  bx_fails : list OutboxFail;
  bx_queue : DeliveryQueue;
  bx_seq : Z;
  bx_log : list Submission;
}.

Definition lim : OutboxLimits := outbox_limits cfg.

Definition on_machine {A} (f : host -> host * A) : prog Box A := fun b =>
  let '(h, a) := f (bx_host b) in (MkBox h (bx_fails b) (bx_queue b) (bx_seq b) (bx_log b), Some a).
Definition on_fails (f : list OutboxFail -> list OutboxFail) : prog Box unit :=
  modify (fun b => MkBox (bx_host b) (f (bx_fails b)) (bx_queue b) (bx_seq b) (bx_log b)).

(** ** Replies *)

Definition outbox_conn_flush (c : OutboxConn) : prog Box OutboxConn :=
  if (length (ob_out c) <=? ob_off c)%nat then mret (ob_set_out [] 0 c)
  else
  h ← gets bx_host;
  rs ← match ob_tls c with
       | Some t =>
           if smtp_in_tls_pending h t
           then on_machine (fun h => sys_send h (ob_fd c) (drop (ob_off c) (ob_out c)))
           else on_machine (fun h => smtp_in_tls_send h t (drop (ob_off c) (ob_out c)))
       | None => on_machine (fun h => sys_send h (ob_fd c) (drop (ob_off c) (ob_out c)))
       end;
  mret (match flush_loop rs (length (ob_out c)) (ob_off c) with
        | FlKeep off => ob_set_out (ob_out c) off c
        | FlDead => ob_close (ob_set_out [] 0 c)
        | FlDone => ob_set_out [] 0 c
        end).

Definition outbox_conn_reply (c : OutboxConn) (text : bytes) : prog Box OutboxConn :=
  if len (ob_out c) >? OUTBOX_MAX_OUT then mret (ob_close c)
  else outbox_conn_flush (ob_say text c).

(** A reply after which the source sets [closed]. *)
Definition outbox_reply_close (c : OutboxConn) (text : bytes) : prog Box OutboxConn :=
  c ← outbox_conn_reply c text; mret (ob_close c).

(** ** Session lifecycle *)

Definition outbox_conn_reset_txn (c : OutboxConn) (st : ob_state_t) : OutboxConn :=
  ob_set_state st (ob_set_auth OB_AUTH_NONE None (ob_set_data [] 0 (ob_set_rcpts [] (ob_set_from None c)))).

Definition outbox_conn_add_rcpt (c : OutboxConn) (rcpt : bytes) : OutboxConn := ob_set_rcpts (ob_rcpts c ++ [rcpt]) c.

(** ** The spool *)

(** [mkdir_p]: every proper prefix that ends before a '/', then the path. *)
Fixpoint outbox_mkdir_loop (pre s : bytes) : prog Box bool :=
  match s with
  | [] => mret true
  | c :: t =>
      if (c =? "/"%chr) && negb (is_nil pre) then
        ok ← on_machine (fun h => sys_mkdir h pre);
        if negb ok then mret false else outbox_mkdir_loop (pre ++ [c]) t
      else outbox_mkdir_loop (pre ++ [c]) t
  end.

Definition outbox_mkdir_p (path : bytes) : prog Box bool :=
  if is_nil path then mret false
  else
    ok ← outbox_mkdir_loop [] path;
    if negb ok then mret false else on_machine (fun h => sys_mkdir h path).

Definition print_z (z : Z) : bytes := if z <? 0 then "-"%chr :: dec_digits 20 (- z) [] else dec_digits 20 z [].

(** The envelope file, while it fits its buffer. *)
Fixpoint env_lines (env : bytes) (rcpts : list bytes) : option bytes :=
  match rcpts with
  | [] => Some env
  | r :: rs =>
      let env := env ++ bs "RCPT TO:<" ++ r ++ bs ">" ++ [LF] in
      if (4096 <=? length env)%nat then None else env_lines env rs
  end.

Definition spool_message (from : bytes) (rcpts : list bytes) (msg : bytes) : prog Box unit :=
  if is_nil (ox_spool cfg) then mret tt
  else
    made ← outbox_mkdir_p (ox_spool cfg);
    if negb made then mret tt
    else
      t ← on_machine time_now;
      seq ← gets bx_seq;
      let stem := ox_spool cfg ++ bs "/" ++ print_z t ++ bs "-" ++ dec_digits 20 seq [] in
      if (4096 <=? length stem + 4)%nat then mret tt
      else
        _ ← modify (fun b => MkBox (bx_host b) (bx_fails b) (bx_queue b) (u64 (bx_seq b + 1)) (bx_log b));
        ok ← on_machine (fun h => write_file h (stem ++ bs ".eml") msg);
        if negb ok then mret tt
        else
          let env := bs "MAIL FROM:<" ++ from ++ bs ">" ++ [LF] in
          if (4096 <=? length env)%nat then mret tt
          else match env_lines env rcpts with
               | None => mret tt
               | Some env => _ ← on_machine (fun h => write_file h (stem ++ bs ".env") env); mret tt
               end.

(** ** DATA completion *)

(** [outbox_delivery_enqueue] on the shared queue; the ghost list records what
    entered it. *)
Definition enqueue (c : OutboxConn) (msg out_msg : bytes) : prog Box Z := fun b =>
  let from := default [] (ob_from c) in
  let '(q, rc) := outbox_delivery_enqueue (bx_queue b) from (ob_rcpts c) out_msg in
  (MkBox (bx_host b) (bx_fails b) q (bx_seq b)
     (if rc =? 0 then bx_log b ++ [MkSubmission (ob_auth_user c) (ob_auth_pass c) from (ob_rcpts c) msg out_msg] else bx_log b), Some rc).

Definition OK_queued : bytes := bs "250 2.0.0 OK: queued" ++ CRLF.

(** The domain of the header when it equals the envelope's. *)
Definition aligned_domain (from msg : bytes) : option bytes :=
  match outbox_addr_domain from 256, outbox_from_header_domain msg 256 with
  | Some envdom, Some fromdom => if ascii_ieq_str envdom fromdom then Some fromdom else None
  | _, _ => None
  end.

Definition outbox_deliver_message (c : OutboxConn) : prog Box OutboxConn :=
  let msg := mail_unstuff_dots (ob_data c) in
  if mail_data_has_ctl msg then outbox_reply_close c (bs "554 5.6.0 Message contains NUL or control bytes" ++ CRLF)
  else if len msg >? ol_max_msg lim then outbox_reply_close c (bs "552 5.3.4 Message exceeds fixed limit" ++ CRLF)
  else
    match aligned_domain (default [] (ob_from c)) msg with
    | None => outbox_conn_reply c (bs "554 5.7.1 Sender address rejected (From domain must equal envelope MAIL FROM)" ++ CRLF)
    | Some fromdom =>
        signed ← match outbox_dkim_key cfg fromdom with
                 | Some key => on_machine (fun h => dkim_sign h msg (Some fromdom) (bs "visage") key)
                 | None => mret None
                 end;
        let out_msg := default msg signed in
        _ ← spool_message (default [] (ob_from c)) (ob_rcpts c) out_msg;
        qrc ← enqueue c msg out_msg;
        if qrc =? -2 then outbox_conn_reply c (bs "452 4.3.1 Delivery queue full, try later" ++ CRLF)
        else if negb (qrc =? 0) then outbox_conn_reply c (bs "451 4.3.0 Temporary delivery failure" ++ CRLF)
        else outbox_conn_reply c OK_queued
    end.

(** ** AUTH *)

Definition ip_blocked (c : OutboxConn) (now : Z) : prog Box bool := fun b =>
  let '(fails, r) := outbox_auth_blocked (bx_fails b) (ob_ip c) now in
  (MkBox (bx_host b) fails (bx_queue b) (bx_seq b) (bx_log b), Some r).

Definition ip_fail (c : OutboxConn) (now : Z) : prog Box unit := on_fails (fun f => outbox_auth_fail f (ob_ip c) now).
Definition ip_clear (c : OutboxConn) : prog Box unit := on_fails (fun f => outbox_auth_clear f (ob_ip c)).

Definition finish_auth (c : OutboxConn) (user pass : bytes) (now : Z) : prog Box OutboxConn :=
  blocked ← ip_blocked c now;
  if (blocked : bool) then outbox_conn_reply c (bs "454 4.7.0 Too many failed attempts" ++ CRLF)
  else if outbox_auth_check creds user pass then
    _ ← ip_clear c;
    outbox_conn_reply (ob_set_login true (Some user) (Some pass) c) (bs "235 2.7.0 Authentication successful" ++ CRLF)
  else
    _ ← ip_fail c now;
    outbox_conn_reply c (bs "535 5.7.8 Authentication credentials invalid" ++ CRLF).

(** A failure that counts, with its reply. *)
Definition auth_refuse (c : OutboxConn) (now : Z) (text : bytes) : prog Box OutboxConn :=
  _ ← ip_fail c now; outbox_conn_reply c text.

Definition malformed_plain : bytes := bs "501 5.5.4 Malformed AUTH PLAIN response" ++ CRLF.
Definition invalid_b64 : bytes := bs "501 5.5.4 Invalid base64" ++ CRLF.

Definition auth_plain_check (c : OutboxConn) (b64 : bytes) (now : Z) : prog Box OutboxConn :=
  match outbox_b64_decode b64 512 with
  | None => auth_refuse c now invalid_b64
  | Some dec =>
      match cut 0 dec with
      | None => auth_refuse c now malformed_plain
      | Some (_, s) =>
          match cut 0 s with
          | None => auth_refuse c now malformed_plain
          | Some (user, pass) =>
              if (length user =? 0)%nat || (128 <=? length user)%nat || (512 <=? length pass)%nat
              then auth_refuse c now malformed_plain
              else finish_auth c user (c_str pass) now
          end
      end
  end.

(** A base64 user name or password of AUTH LOGIN, in a buffer of [sz]. *)
Definition login_text (line : bytes) (sz : nat) : option bytes :=
  match outbox_b64_decode line sz with
  | None => None
  | Some u => if (length u =? 0)%nat || (sz <=? length u)%nat then None else Some (c_str u)
  end.

Definition ask_password : bytes := bs "334 UGFzc3dvcmQ6" ++ CRLF.

Definition handle_auth_cont (c : OutboxConn) (line : bytes) (now : Z) : prog Box OutboxConn :=
  if beq line (bs "*") then
    outbox_conn_reply (ob_set_auth OB_AUTH_NONE None c) (bs "501 5.7.0 Authentication aborted" ++ CRLF)
  else match ob_auth_pending c with
       | OB_AUTH_PLAIN => auth_plain_check (ob_set_auth OB_AUTH_NONE (ob_pending_user c) c) line now
       | OB_AUTH_LOGIN_USER =>
           match login_text line 256 with
           | None => auth_refuse (ob_set_auth OB_AUTH_NONE None c) now invalid_b64
           | Some u => outbox_conn_reply (ob_set_auth OB_AUTH_LOGIN_PASS (Some u) c) ask_password
           end
       | OB_AUTH_LOGIN_PASS =>
           let c' := ob_set_auth OB_AUTH_NONE None c in
           match ob_pending_user c, login_text line 512 with
           | Some user, Some p => finish_auth c' user p now
           | _, _ => auth_refuse c' now invalid_b64
           end
       | OB_AUTH_NONE =>
           outbox_conn_reply (ob_set_auth OB_AUTH_NONE (ob_pending_user c) c) (bs "503 5.5.1 Bad sequence of commands" ++ CRLF)
       end.

Definition do_auth (c : OutboxConn) (rest : bytes) (now : Z) : prog Box OutboxConn :=
  let mech := skip_sp rest in
  let name := take_while (fun c => negb (c =? SP)) mech in
  let init := skip_sp (drop_while (fun c => negb (c =? SP)) mech) in
  if verb_is name (bs "PLAIN") then
    if negb (is_nil init) then auth_plain_check c init now
    else outbox_conn_reply (ob_set_auth OB_AUTH_PLAIN (ob_pending_user c) c) (bs "334 " ++ CRLF)
  else if verb_is name (bs "LOGIN") then
    if negb (is_nil init) then
      match login_text init 256 with
      | None => auth_refuse (ob_set_auth OB_AUTH_NONE (ob_pending_user c) c) now invalid_b64
      | Some u => outbox_conn_reply (ob_set_auth OB_AUTH_LOGIN_PASS (Some u) c) ask_password
      end
    else outbox_conn_reply (ob_set_auth OB_AUTH_LOGIN_USER (ob_pending_user c) c) (bs "334 VXNlcm5hbWU6" ++ CRLF)
  else outbox_conn_reply c (bs "504 5.5.4 Unrecognized authentication type" ++ CRLF).

(** ** Commands *)

Definition channel_secure (h : host) (c : OutboxConn) : bool :=
  match ob_tls c with Some t => smtp_in_tls_established h t | None => false end.

(** [if (!require_secure(c)) return; ...] *)
Definition require_secure (c : OutboxConn) (k : prog Box OutboxConn) : prog Box OutboxConn :=
  h ← gets bx_host;
  if channel_secure h c then k
  else outbox_conn_reply c (bs "530 5.7.0 Must issue a STARTTLS command first" ++ CRLF).

Definition require_auth (c : OutboxConn) (k : prog Box OutboxConn) : prog Box OutboxConn :=
  require_secure c
    (if ob_authenticated c then k else outbox_conn_reply c (bs "530 5.7.0 Authentication required" ++ CRLF)).

Definition ob_host_name : bytes := if is_nil (ox_hostname cfg) then bs "localhost" else ox_hostname cfg.

(** A text of [snprintf] into a buffer of 512, or another when it does not fit. *)
Definition fit512 (text other : bytes) : bytes := if (512 <=? length text)%nat then other else text.

Definition outbox_do_helo (c : OutboxConn) (ehlo : bool) : prog Box OutboxConn :=
  let c := outbox_conn_reset_txn c OB_ST_HELO in
  h ← gets bx_host;
  if ehlo then
    let secure := channel_secure h c in
    outbox_conn_reply c (fit512
      (bs "250-" ++ ob_host_name ++ CRLF ++ bs "250-8BITMIME" ++ CRLF ++ bs "250-SIZE " ++ print_u32 (ol_max_msg lim) ++ CRLF
         ++ (if secure then bs "250-AUTH PLAIN LOGIN" ++ CRLF else [])
         ++ (if negb secure && smtp_in_tls_available h then bs "250-STARTTLS" ++ CRLF else []) ++ bs "250 OK" ++ CRLF)
      (bs "250 OK" ++ CRLF))
  else outbox_conn_reply c (fit512 (bs "250 " ++ ob_host_name ++ CRLF) (bs "250 localhost" ++ CRLF)).

Definition outbox_do_mail (c : OutboxConn) (rest : bytes) : prog Box OutboxConn :=
  if negb (ob_in_state (ob_state c) OB_ST_HELO) then outbox_conn_reply c (bs "503 5.5.1 Error: send EHLO first" ++ CRLF)
  else require_auth c
    match parse_addr_arg rest (bs "FROM") SMTP_MAX_LINE with
    | None => outbox_conn_reply c (bs "501 5.5.4 Syntax: MAIL FROM:<address>" ++ CRLF)
    | Some (path, _) =>
        match outbox_addr_domain path 256 with
        | Some domain =>
            if outbox_domain_allowed cfg domain
            then outbox_conn_reply (ob_set_state OB_ST_MAIL (ob_set_from (Some path) c)) (bs "250 2.1.0 OK" ++ CRLF)
            else outbox_conn_reply c (bs "554 5.7.1 Sender address rejected (domain not permitted)" ++ CRLF)
        | None => outbox_conn_reply c (bs "554 5.7.1 Sender address rejected (domain not permitted)" ++ CRLF)
        end
    end.

Definition outbox_do_rcpt (c : OutboxConn) (rest : bytes) : prog Box OutboxConn :=
  if negb (ob_in_state (ob_state c) OB_ST_MAIL) then outbox_conn_reply c (bs "503 5.5.1 Error: need MAIL first" ++ CRLF)
  else require_auth c
    (if negb (ol_max_rcpts lim =? 0) && (len (ob_rcpts c) >=? ol_max_rcpts lim)
     then outbox_conn_reply c (bs "452 4.5.3 Too many recipients" ++ CRLF)
     else match parse_addr_arg rest (bs "TO") SMTP_MAX_LINE with
          | None => outbox_conn_reply c (bs "501 5.5.4 Syntax: RCPT TO:<address>" ++ CRLF)
          | Some (path, _) =>
              if is_nil path then outbox_conn_reply c (bs "501 5.5.4 Empty recipient" ++ CRLF)
              else match mail_addr_parse path with
                   | None => outbox_conn_reply c (bs "501 5.5.4 Invalid recipient address" ++ CRLF)
                   | Some _ => outbox_conn_reply (outbox_conn_add_rcpt c path) (bs "250 2.1.5 OK" ++ CRLF)
                   end
          end).

Definition outbox_do_data (c : OutboxConn) : prog Box OutboxConn :=
  if negb (ob_in_state (ob_state c) OB_ST_MAIL) then outbox_conn_reply c (bs "503 5.5.1 Error: need RCPT first" ++ CRLF)
  else require_auth c
    (if (length (ob_rcpts c) =? 0)%nat then outbox_conn_reply c (bs "503 5.5.1 Error: no valid recipients" ++ CRLF)
     else
       c ← outbox_conn_reply c (bs "354 End data with <CR><LF>.<CR><LF>" ++ CRLF);
       mret (ob_set_state OB_ST_DATA (ob_set_data [] 0 c))).

Definition outbox_do_starttls (c : OutboxConn) (rest : bytes) : prog Box OutboxConn :=
  h ← gets bx_host;
  match ob_tls c with
  | Some _ => outbox_conn_reply c (bs "503 5.5.1 Error: TLS already active" ++ CRLF)
  | None =>
      if negb (ob_in_state (ob_state c) OB_ST_HELO) then outbox_conn_reply c (bs "503 5.5.1 Error: send EHLO first" ++ CRLF)
      else if negb (is_nil rest) then outbox_conn_reply c (bs "501 5.5.4 Syntax: STARTTLS" ++ CRLF)
      else if negb (is_nil (ob_in c)) then outbox_conn_reply c (bs "500 5.5.2 Pipelined data before STARTTLS" ++ CRLF)
      else if negb (smtp_in_tls_available h) then outbox_conn_reply c (bs "502 5.5.1 Command not implemented" ++ CRLF)
      else
        t ← on_machine (fun h => smtp_in_tls_start h (ob_fd c));
        match t with
        | None => outbox_conn_reply c (bs "451 4.3.0 Storage allocation failure" ++ CRLF)
        | Some t => outbox_conn_reply (ob_set_tls (Some t) c) (bs "220 2.0.0 Ready to start TLS" ++ CRLF)
        end
  end.

Definition outbox_handle_command (c : OutboxConn) (line : bytes) (now : Z) : prog Box OutboxConn :=
  let p := skip_sp line in
  let v := take_while (fun c => negb (c =? SP)) p in
  let rest := skip_sp (drop_while (fun c => negb (c =? SP)) p) in
  if verb_is v (bs "EHLO") then
    if is_nil rest then outbox_conn_reply c (bs "501 5.5.4 EHLO requires a domain" ++ CRLF) else outbox_do_helo c true
  else if verb_is v (bs "HELO") then
    if is_nil rest then outbox_conn_reply c (bs "501 5.5.4 HELO requires a domain" ++ CRLF) else outbox_do_helo c false
  else if verb_is v (bs "STARTTLS") then outbox_do_starttls c rest
  else if verb_is v (bs "AUTH") then
    require_secure c
      (blocked ← ip_blocked c now;
       if (blocked : bool) then outbox_conn_reply c (bs "454 4.7.0 Too many failed attempts" ++ CRLF) else do_auth c rest now)
  else if verb_is v (bs "MAIL") then outbox_do_mail c rest
  else if verb_is v (bs "RCPT") then outbox_do_rcpt c rest
  else if verb_is v (bs "DATA") then outbox_do_data c
  else if verb_is v (bs "RSET") then
    outbox_conn_reply (outbox_conn_reset_txn c (if ob_in_state (ob_state c) OB_ST_INIT then OB_ST_INIT else OB_ST_HELO))
      (bs "250 2.0.0 OK" ++ CRLF)
  else if verb_is v (bs "NOOP") then outbox_conn_reply c (bs "250 2.0.0 OK" ++ CRLF)
  else if verb_is v (bs "QUIT") then outbox_reply_close c (bs "221 2.0.0 Bye" ++ CRLF)
  else if verb_is v (bs "VRFY") then outbox_conn_reply c (bs "252 2.5.2 Cannot VRFY user" ++ CRLF)
  else outbox_conn_reply c (bs "500 5.5.2 Command not recognized" ++ CRLF).

(** ** Ingestion *)

(** Bytes pipelined after DATA become message data. *)
Definition outbox_take_data (c : OutboxConn) : prog Box OutboxConn :=
  if is_nil (ob_in c) then mret c
  else if len (ob_data c) + len (ob_in c) >? ol_raw_cap lim
  then outbox_reply_close c (bs "552 5.3.4 Message exceeds fixed limit" ++ CRLF)
  else mret (ob_set_in [] (ob_set_data (ob_data c ++ ob_in c) (ob_scan c) c)).

(** The loop of [process_commands]; each round consumes a line. *)
Fixpoint outbox_commands_loop (n : nat) (c : OutboxConn) (now : Z) : prog Box OutboxConn :=
  match n with
  | O => running
  | S n' =>
      if ob_closed c then mret c
      else match next_line (ob_in c) with
           | None =>
               if len (ob_in c) >? ol_max_line lim then outbox_reply_close c (bs "500 5.5.2 Line too long" ++ CRLF)
               else mret c
           | Some (line, rest) =>
               if len line >? ol_max_line lim then outbox_reply_close c (bs "500 5.5.2 Line too long" ++ CRLF)
               else
                 let text := c_str (strip_cr line) in
                 let c := ob_set_in rest c in
                 c ← (if decide (ob_auth_pending c = OB_AUTH_NONE) then outbox_handle_command c text now
                      else handle_auth_cont c text now);
                 if ob_in_state (ob_state c) OB_ST_DATA && negb (ob_closed c) then outbox_take_data c
                 else outbox_commands_loop n' c now
           end
  end.

Definition outbox_process_commands (c : OutboxConn) (now : Z) : prog Box OutboxConn :=
  outbox_commands_loop (S (length (ob_in c))) c now.

Definition outbox_process_data (c : OutboxConn) (now : Z) : prog Box OutboxConn :=
  match data_scan (ob_data c) (ol_max_line lim) (ol_raw_cap lim) (ob_scan c) with
  | ScanLimit => outbox_reply_close c (bs "552 5.3.4 Message exceeds fixed limits" ++ CRLF)
  | ScanMore pos => mret (ob_set_data (ob_data c) pos c)
  | ScanFound msg_end term_len =>
      let leftover := drop (msg_end + term_len) (ob_data c) in
      let c := ob_set_data (take msg_end (ob_data c)) (ob_scan c) (ob_set_in (ob_in c ++ leftover) c) in
      c ← outbox_deliver_message c;
      let c := outbox_conn_reset_txn c OB_ST_HELO in
      if negb (ob_closed c) && negb (is_nil (ob_in c)) then outbox_process_commands c now else mret c
  end.

Definition outbox_conn_take_bytes (c : OutboxConn) (tmp : bytes) (now : Z) : prog Box OutboxConn :=
  if ob_in_state (ob_state c) OB_ST_DATA then
    if len (ob_data c) + len tmp >? ol_raw_cap lim
    then outbox_reply_close c (bs "552 5.3.4 Message exceeds fixed limit" ++ CRLF)
    else outbox_process_data (ob_set_data (ob_data c ++ tmp) (ob_scan c) c) now
  else outbox_process_commands (ob_set_in (ob_in c ++ tmp) c) now.

(** The drain loop over TLS, at most [n] records. *)
Fixpoint outbox_drain_loop (n : nat) (t : Z) (c : OutboxConn) (now : Z) : prog Box OutboxConn :=
  match n with
  | O => running
  | S n' =>
      r ← on_machine (fun h => smtp_in_tls_recv h t);
      match r with
      | RvData (x :: d) =>
          c ← outbox_conn_take_bytes (ob_set_act now c) (x :: d) now;
          if ob_closed c then mret c else outbox_drain_loop n' t c now
      | RvData [] | RvAgain => mret c
      | _ => mret (ob_close c)
      end
  end.

Definition outbox_conn_readable (n : nat) (c : OutboxConn) (now : Z) : prog Box OutboxConn :=
  match ob_tls c with
  | Some t =>
      h ← gets bx_host;
      if negb (smtp_in_tls_established h t) then mret c else outbox_drain_loop n t c now
  | None =>
      r ← on_machine (fun h => sys_recv h (ob_fd c));
      match r with
      | RvAgain => mret c
      | RvData (x :: d) => outbox_conn_take_bytes (ob_set_act now c) (x :: d) now
      | _ => mret (ob_close c)
      end
  end.

(** ** The steps of the poll loop (outbox_main.c) *)

Definition outbox_greeting : bytes :=
  fit512 (bs "220 " ++ ob_host_name ++ bs " ESMTP outbox" ++ CRLF) (bs "220 localhost ESMTP outbox" ++ CRLF).

Definition outbox_tls_advance (n : nat) (c : OutboxConn) (now : Z) : prog Box OutboxConn :=
  match ob_tls c with
  | None => mret c
  | Some t =>
      let c := ob_set_act now c in
      r ← on_machine (fun h => smtp_in_tls_handshake_step h t);
      if r <? 0 then mret (ob_set_out [] 0 (ob_close c))
      else if r >? 0 then
        if ob_implicit_tls c && negb (ob_greeted c) then
          c ← outbox_conn_reply (ob_set_state OB_ST_INIT (ob_greet c)) outbox_greeting;
          outbox_conn_readable n c now
        else outbox_conn_readable n (outbox_conn_reset_txn (ob_set_login false None None c) OB_ST_INIT) now
      else mret c
  end.

Definition outbox_conn_timeout (c : OutboxConn) : Z :=
  if ob_in_state (ob_state c) OB_ST_DATA then ol_data_tmo lim else ol_cmd_tmo lim.

(** The idle branch of [server_poll] for one connection. *)
Definition outbox_idle_check (c : OutboxConn) (now : Z) : prog Box OutboxConn :=
  let tmo := outbox_conn_timeout c in
  if negb (tmo =? 0) && (now >? ob_act c) && (now - ob_act c >=? tmo) then
    h ← gets bx_host;
    if (match ob_tls c with Some t => smtp_in_tls_handshaking h t | None => false end)
    then mret (ob_set_out [] 0 (ob_close c))
    else outbox_reply_close c (bs "421 4.4.2 Timeout - closing connection" ++ CRLF)
  else mret c.

End Submit.
