(* ===== verification/OutboxSubmitSpec.v ===== *)
(** * Correctness of the submission sessions of the outbox

    [ob_inv] is the invariant of a connection between handler calls, [ob_idle] what
    holds besides between events; [box_step] is what a handler may do to the shared
    state: submissions enter the delivery queue, each of which satisfies the policy
    [submission_ok]. *)

From S2P Require Import Prelude MailLines MailAddr MailHeader SmtpData DlEngine Store StoreSpec StoreTables StoreQueue Reply Json Config Prog SmtpParse SmtpWorld MemHost SmtpQueue SmtpForward SmtpSession SmtpSessionSpec SmtpReply SmtpOut SmtpDialogue OutboxAuth OutboxPolicy OutboxDeliver OutboxSubmit.

Section SubmitSpec.
Context {H : Host} (cfg : OutboxConfig) (creds : list OutboxCred).

(** ** What may happen to the shared state *)

(** The policy of a submission: its session logged in with a user and that user's
    password in the credential table, the sender's domain is allowed, the From header's domain is the sender's, the recipients parse and are
    within the limit, the message is clean and small enough, and it is queued
    unsigned or signed for its own domain with that domain's key. *)
Record submission_ok (s : Submission) : Prop := {
  so_user : exists user pass, su_user s = Some user /\ su_pass s = Some pass /\
    (creds_ok creds -> password_of creds user pass);
  so_rcpts : su_rcpts s <> [] /\ Forall (fun r => mail_addr_parse r <> None) (su_rcpts s) /\
    (ol_max_rcpts (outbox_limits cfg) <> 0 -> len (su_rcpts s) <= ol_max_rcpts (outbox_limits cfg));
  so_msg : mail_data_has_ctl (su_msg s) = false /\ len (su_msg s) <= ol_max_msg (outbox_limits cfg);
  so_sender : exists envdom fromdom,
    outbox_addr_domain (su_from s) 256 = Some envdom /\ outbox_domain_allowed cfg envdom = true /\
    outbox_from_header_domain (su_msg s) 256 = Some fromdom /\ lower envdom = lower fromdom /\
    (su_queued s = su_msg s \/ exists h key, outbox_dkim_key cfg fromdom = Some key /\
       (dkim_sign h (su_msg s) (Some fromdom) (bs "visage") key).2 = Some (su_queued s));
}.

(** The queue after these submissions, all of them accepted. *)
Fixpoint enqueues (q : DeliveryQueue) (subs : list Submission) (q' : DeliveryQueue) : Prop :=
  match subs with
  | [] => q' = q
  | s :: subs' => exists q1, outbox_delivery_enqueue q (su_from s) (su_rcpts s) (su_queued s) = (q1, 0) /\ enqueues q1 subs' q'
  end.

Lemma enqueues_app q a b q' : enqueues q (a ++ b) q' <-> exists q1, enqueues q a q1 /\ enqueues q1 b q'.
Proof.
  revert q. induction a as [|s a IH]; intros q; cbn [app enqueues].
  - split; [intros Hb; by exists q|by intros (q1 & -> & Hb)].
  - split.
    + intros (q1 & He & Hr). apply IH in Hr as (q2 & H1 & H2). exists q2. split; [by exists q1|done].
    + intros (q2 & (q1 & He & H1) & H2). exists q1. split; [done|]. apply IH. by exists q2.
Qed.

Definition box_step (b b' : @Box H) : Prop :=
  exists subs, bx_log b' = bx_log b ++ subs /\ Forall submission_ok subs /\ enqueues (bx_queue b) subs (bx_queue b').

#[global] Instance box_step_preorder : PreOrder box_step.
Proof.
  split; [intros b; exists []; by rewrite app_nil_r|].
  intros b1 b2 b3 (s1 & H1 & F1 & E1) (s2 & H2 & F2 & E2). exists (s1 ++ s2).
  rewrite H2, H1, app_assoc. split; [done|]. split; [by apply Forall_app|]. apply enqueues_app. eauto.
Qed.

(** A call that leaves the queue and the log alone, and ends. *)
Definition calm {A} (m : prog (@Box H) A) : Prop :=
  forall b, wp m (fun b' o => bx_log b' = bx_log b /\ bx_queue b' = bx_queue b /\ o <> None) b.

Lemma calm_ret {A} (a : A) : calm (mret a).
Proof. done. Qed.

Lemma calm_gets {A} (f : Box -> A) : calm (gets f).
Proof. done. Qed.

Lemma calm_bind {A B} (m : prog Box A) (f : A -> prog Box B) : calm m -> (forall a, calm (f a)) -> calm (m ≫= f).
Proof.
  intros Hm Hf b. apply wp_bind. eapply wp_mono; [apply Hm|]. intros b1 [a|] (Hl & Hq & Hn); [|done].
  eapply wp_mono; [apply Hf|]. cbn. intros b2 o (Hl2 & Hq2 & Hn2). repeat split; congruence.
Qed.

Lemma calm_machine {A} (f : host -> host * A) : calm (on_machine f).
Proof. intros b. unfold wp, on_machine. by destruct (f (bx_host b)). Qed.

Lemma calm_fails f : calm (on_fails f).
Proof. done. Qed.

Lemma calm_seq s : calm (modify (fun b : @Box H => MkBox (bx_host b) (bx_fails b) (bx_queue b) (s b) (bx_log b))).
Proof. done. Qed.

Lemma calm_blocked c now : calm (ip_blocked c now).
Proof. intros b. unfold wp, ip_blocked. by destruct (outbox_auth_blocked _ _ _). Qed.

(** [m] only does box steps and ends in a value that satisfies [P]. *)
Definition ok {A} (P : A -> Prop) (m : prog (@Box H) A) : Prop :=
  forall b, wp m (fun b' o => box_step b b' /\ match o with Some a => P a | None => True end) b.

Lemma ok_ret {A} (P : A -> Prop) c : P c -> ok P (mret c).
Proof. intros HP b. apply wp_ret. by split. Qed.

Lemma ok_running {A} (P : A -> Prop) : ok P running.
Proof. intros b. by split. Qed.

Lemma ok_bind {A B} (P : A -> Prop) (Q : B -> Prop) m f : ok P m -> (forall c, P c -> ok Q (f c)) -> ok Q (m ≫= f).
Proof.
  intros Hm Hf b. apply wp_bind. eapply wp_mono; [apply Hm|]. intros b1 [c|] [Hs HP]; [|done].
  eapply wp_mono; [by apply Hf|]. intros b2 o [Hs2 Ho]. split; [by etrans|done].
Qed.

Lemma calm_step {A} (m : prog Box A) b : calm m -> wp m (fun b' _ => box_step b b') b.
Proof. intros Hm. eapply wp_mono; [apply Hm|]. intros b1 o (Hl & Hq & _). exists []. rewrite app_nil_r, Hq. done. Qed.

Lemma ok_calm {A B} (Q : B -> Prop) (m : prog Box A) f : calm m -> (forall a, ok Q (f a)) -> ok Q (m ≫= f).
Proof.
  intros Hm Hf b. apply wp_bind. eapply wp_mono; [by apply calm_step|]. intros b1 [a|] Hs; [|done].
  eapply wp_mono; [apply Hf|]. intros b2 o [Hs2 Ho]. split; [by etrans|done].
Qed.

Lemma ok_mono {A} (P Q : A -> Prop) m : ok P m -> (forall c, P c -> Q c) -> ok Q m.
Proof. intros Hm HPQ b. eapply wp_mono; [apply Hm|]. intros b' [c|] [Hs HP]; auto. Qed.

End SubmitSpec.

Create HintDb outbox.
#[export] Hint Resolve calm_ret calm_gets calm_machine calm_fails calm_seq calm_blocked : outbox.

Section Connection.
Context {H : Host} (cfg : OutboxConfig) (creds : list OutboxCred) (ip : bytes).
Abbreviation lims := (outbox_limits cfg).
Abbreviation okc := (ok (H := H) cfg creds).

(** ** The invariant of a connection *)

(** Everything but the reply output. *)
Definition core (c : OutboxConn) :=
  (ob_fd c, ob_implicit_tls c, ob_greeted c, (ob_authenticated c, ob_auth_user c, ob_auth_pass c, ob_pending_user c),
   (ob_state c, ob_auth_pending c, ob_from c, ob_rcpts c), (ob_in c, ob_data c, ob_scan c), (ob_act c, ob_ip c, ob_tls c)).

(** The reply output is bounded. *)
Definition out_ok (c : OutboxConn) : Prop := len (ob_out c) <= OUTBOX_MAX_OUT + 512 /\ (ob_off c <= length (ob_out c))%nat.

Definition sender_ok (c : OutboxConn) : Prop := exists f d,
  ob_from c = Some f /\ outbox_addr_domain f 256 = Some d /\ outbox_domain_allowed cfg d = true.

Record session_ok (c : OutboxConn) : Prop := {
  si_ip : ob_ip c = ip;
  si_login : ob_authenticated c = true -> ob_tls c <> None /\
    exists user pass, ob_auth_user c = Some user /\ ob_auth_pass c = Some pass /\
      (creds_ok creds -> password_of creds user pass);
  si_pending : ob_auth_pending c <> OB_AUTH_NONE -> ob_tls c <> None;
  si_sender : ob_state c = OB_ST_MAIL \/ ob_state c = OB_ST_DATA -> ob_authenticated c = true /\ sender_ok c;
  si_data : ob_state c = OB_ST_DATA -> ob_rcpts c <> [];
  si_rcpts : Forall (fun r => mail_addr_parse r <> None) (ob_rcpts c);
  si_limit : ol_max_rcpts lims <> 0 -> len (ob_rcpts c) <= ol_max_rcpts lims;
  si_raw : len (ob_data c) <= ol_raw_cap lims;
  si_scan : (ob_scan c <= length (ob_data c))%nat;
}.

Definition ob_inv (c : OutboxConn) : Prop := session_ok c /\ out_ok c.

Lemma session_core c c' : core c' = core c -> session_ok c -> session_ok c'.
Proof.
  unfold core. intros [= E1 E2 E3 E4 E5 E6 E7 E8 E9 E10 E11 E12 E13 E14 E15 E16 E17] [H0 H1 H2 H3 H4 H5 H6 H7 H8].
  split; unfold sender_ok in *; rewrite ?E4, ?E5, ?E6, ?E8, ?E9, ?E10, ?E11, ?E13, ?E14, ?E16, ?E17; auto.
Qed.

(** ** Replies *)

Definition replied c c' : Prop := core c' = core c /\ (out_ok c -> out_ok c') /\ (ob_closed c = true -> ob_closed c' = true).

#[global] Instance replied_preorder : PreOrder replied.
Proof.
  split; [by intros c|]. intros a b c (H1 & H2 & H3) (H4 & H5 & H6). split; [congruence|]. auto.
Qed.

Lemma ob_close_replied c : replied c (ob_close c).
Proof. done. Qed.

Lemma cleared_replied c : replied c (ob_set_out [] 0 c).
Proof. split; [done|]. split; [|done]. unfold out_ok, OUTBOX_MAX_OUT. cbn. lia. Qed.

Lemma flush_replied c : okc (replied c) (outbox_conn_flush c).
Proof.
  unfold outbox_conn_flush. destruct (_ <=? _)%nat; [apply ok_ret, cleared_replied|].
  apply ok_calm; [apply calm_gets|]. intros h. apply ok_calm; [repeat case_match; apply calm_machine|].
  intros rs. apply ok_ret. destruct (flush_loop rs _ _) eqn:Hf.
  - apply flush_loop_range in Hf. split; [done|]. split; [|done]. unfold out_ok. cbn. lia.
  - etrans; [apply cleared_replied|apply ob_close_replied].
  - apply cleared_replied.
Qed.

Definition short (t : bytes) : Prop := len t <= 512.

Lemma reply_replied c t : short t -> okc (replied c) (outbox_conn_reply c t).
Proof.
  intros Ht. unfold outbox_conn_reply. destruct (Z.gtb_spec (len (ob_out c)) OUTBOX_MAX_OUT); [apply ok_ret, ob_close_replied|].
  eapply ok_mono; [apply flush_replied|]. intros c' Hc. etrans; [|exact Hc]. split; [done|]. split; [|done].
  unfold out_ok, short in *. cbn. rewrite length_app. lia.
Qed.

Lemma ob_reply_close_replied c t : short t -> okc (fun c' => replied c c' /\ ob_closed c' = true) (outbox_reply_close c t).
Proof.
  intros Ht. unfold outbox_reply_close. eapply ok_bind; [by apply reply_replied|]. intros c' Hc. apply ok_ret.
  split; [|done]. etrans; [exact Hc|apply ob_close_replied].
Qed.

Lemma replied_inv c c' : replied c c' -> ob_inv c -> ob_inv c'.
Proof. intros (Hc & Ho & _) [H1 H2]. split; [by eapply session_core|auto]. Qed.

(** A handler that is sound for the invariant, keeps the buffered input and stays
    closed when closed. *)
Definition handles (c : OutboxConn) (m : prog (@Box H) OutboxConn) : Prop :=
  ob_inv c -> okc (fun c' => ob_inv c' /\ ob_in c' = ob_in c /\ (ob_closed c = true -> ob_closed c' = true)) m.

(** Replying from a connection [c1] that a handler has set from [c]. *)
Lemma reply_handles c c1 t : short t -> (session_ok c -> session_ok c1) ->
  ob_in c1 = ob_in c -> ob_out c1 = ob_out c -> ob_off c1 = ob_off c -> ob_closed c1 = ob_closed c ->
  handles c (outbox_conn_reply c1 t).
Proof.
  intros Ht Hs Hi Ho Hf Hc [Hses Hout]. eapply ok_mono; [by apply reply_replied|]. intros c' Hr.
  assert (Hinv : ob_inv c1) by (split; [auto|unfold out_ok in *; by rewrite Ho, Hf]).
  split; [by eapply replied_inv|]. destruct Hr as (Hcore & _ & Hcl). unfold core in Hcore. split; [congruence|].
  intros Hx. apply Hcl. congruence.
Qed.

Lemma ob_reply_same c t : short t -> handles c (outbox_conn_reply c t).
Proof. intros Ht. by apply reply_handles. Qed.

Lemma reply_close_handles c t : short t -> handles c (outbox_reply_close c t).
Proof.
  intros Ht Hinv. eapply ok_mono; [by apply ob_reply_close_replied|]. intros c' [Hr Hcl].
  split; [by eapply replied_inv|]. split; [|done]. destruct Hr as (Hcore & _). unfold core in Hcore. congruence.
Qed.

Lemma handles_calm {A} c (m : prog Box A) f : calm m -> (forall a, handles c (f a)) -> handles c (m ≫= f).
Proof. intros Hm Hf Hinv. apply ok_calm; [done|]. intros a. by apply Hf. Qed.

Lemma short_512 t : (length t <=? 512)%nat = true -> short t.
Proof. unfold short. intros Hl%Nat.leb_le. lia. Qed.

Lemma fit_short t o : (length o <=? 512)%nat = true -> short (fit512 t o).
Proof. intros Ho. unfold fit512. destruct (Nat.leb_spec 512 (length t)); [by apply short_512|]. unfold short. lia. Qed.

End Connection.

(** A literal reply is short. *)
Ltac short_tac := first [apply short_512; reflexivity | apply fit_short; reflexivity].

#[export] Hint Extern 1 (short _) => short_tac : outbox.
#[export] Hint Resolve ob_reply_same reply_close_handles : outbox.

(** The session part of a connection made from one that satisfies it. *)
Ltac session_tac :=
  let H := fresh in intros H; destruct H; split; unfold sender_ok in *; cbn in *; try done; eauto; try naive_solver.

Section Handlers.
Context {H : Host} (cfg : OutboxConfig) (creds : list OutboxCred) (ip : bytes).
Abbreviation lims := (outbox_limits cfg).
Abbreviation hdl := (handles (H := H) cfg creds ip).

(** [c1] comes from [c] by assignments that keep the invariant and the buffers. *)
Record from_conn (c c1 : OutboxConn) : Prop := {
  fc_session : session_ok cfg creds ip c -> session_ok cfg creds ip c1;
  fc_in : ob_in c1 = ob_in c; fc_out : ob_out c1 = ob_out c;
  fc_off : ob_off c1 = ob_off c; fc_closed : ob_closed c1 = ob_closed c; fc_tls : ob_tls c1 = ob_tls c }.

Lemma reply_from c c1 t : short t -> from_conn c c1 -> hdl c (outbox_conn_reply c1 t).
Proof. intros Ht []. by apply reply_handles. Qed.

Lemma refuse_from c c1 now t : short t -> from_conn c c1 -> hdl c (auth_refuse c1 now t).
Proof. intros Ht Hc. apply handles_calm; [apply calm_fails|]. intros []. by apply reply_from. Qed.

Lemma finish_auth_from c c1 user pass now : ob_tls c <> None -> 0 ∉ pass -> from_conn c c1 ->
  hdl c (finish_auth creds c1 user pass now).
Proof.
  intros Htls Hp Hc. unfold finish_auth. apply handles_calm; [apply calm_blocked|].
  intros [|]; [by apply reply_from; [short_tac|]|]. destruct (outbox_auth_check creds user pass) eqn:Hcheck.
  - apply handles_calm; [apply calm_fails|]. intros []. apply reply_from; [short_tac|].
    destruct Hc as [Hs H1 H2 H3 H4 H5]. split; try done. intros Hses. specialize (Hs Hses) as Hses1. clear Hses. rename Hses1 into Hses. rewrite <- H5 in Htls.
    destruct Hses as [S0 S1 S2 S3 S4 S5 S6 S7 S8]. split; try done.
    + cbn. intros _. split; [done|]. exists user, pass. eauto using auth_check_password.
    + intros Hst. destruct (S3 Hst) as [_ Hsd]. done.
  - apply handles_calm; [apply calm_fails|]. intros []. by apply reply_from; [short_tac|].
Qed.

Lemma login_text_clean line sz p : login_text line sz = Some p -> 0 ∉ p.
Proof. unfold login_text. intros Hp. repeat case_match; simplify_eq. apply c_str_no_nul. Qed.

Lemma plain_check_from c c1 b64 now : ob_tls c <> None -> from_conn c c1 -> hdl c (auth_plain_check creds c1 b64 now).
Proof.
  intros Htls Hc. unfold auth_plain_check.
  repeat first [ apply refuse_from; [short_tac|done] | apply finish_auth_from; [done|apply c_str_no_nul|done] | case_match ].
Qed.

Lemma from_self c : from_conn c c.
Proof. done. Qed.

Lemma from_auth c p u : (p <> OB_AUTH_NONE -> ob_tls c <> None) -> from_conn c (ob_set_auth p u c).
Proof. intros Hp. split; try done. session_tac. Qed.

Lemma auth_cont_handles c line now : ob_auth_pending c <> OB_AUTH_NONE -> hdl c (handle_auth_cont creds c line now).
Proof.
  intros Hp Hinv. assert (Htls : ob_tls c <> None) by (by destruct Hinv as [[] _]; auto). revert Hinv.
  change (hdl c (handle_auth_cont creds c line now)). unfold handle_auth_cont.
  repeat first
    [ apply reply_from; [short_tac|by apply from_auth] | apply refuse_from; [short_tac|by apply from_auth]
    | apply plain_check_from; [done|by apply from_auth] | apply finish_auth_from; [done|by eapply login_text_clean|by apply from_auth] | case_match ].
Qed.

Lemma do_auth_handles c rest now : ob_tls c <> None -> hdl c (do_auth creds c rest now).
Proof.
  intros Htls. unfold do_auth.
  repeat first
    [ apply reply_from; [short_tac|first [by apply from_auth|apply from_self]] | apply refuse_from; [short_tac|by apply from_auth]
    | apply plain_check_from; [done|apply from_self] | case_match ].
Qed.

End Handlers.

Section Commands.
Context {H : Host} (cfg : OutboxConfig) (creds : list OutboxCred) (ip : bytes).
Abbreviation lims := (outbox_limits cfg).
Abbreviation hdl := (handles (H := H) cfg creds ip).

Lemma secure_handles c k : (ob_tls c <> None -> hdl c k) -> hdl c (require_secure c k).
Proof.
  intros Hk. unfold require_secure. apply handles_calm; [apply calm_gets|]. intros h.
  destruct (channel_secure h c) eqn:Hs; [|apply ob_reply_same; short_tac]. apply Hk. unfold channel_secure in Hs. by destruct (ob_tls c).
Qed.

Lemma auth_handles c k : (ob_tls c <> None -> ob_authenticated c = true -> hdl c k) -> hdl c (require_auth c k).
Proof.
  intros Hk. unfold require_auth. apply secure_handles. intros Ht. destruct (ob_authenticated c); [auto|apply ob_reply_same; short_tac].
Qed.

Lemma raw_cap_pos : 0 <= ox_max_msg cfg -> 0 <= ol_raw_cap lims.
Proof. unfold outbox_limits, or_default, OUTBOX_DEFAULT_MAX_MSG. cbn. case_match; lia. Qed.

Context (Hmax : 0 <= ox_max_msg cfg) (Hrcpts : 0 <= ox_max_rcpts cfg).

Lemma reset_session c st : st = OB_ST_INIT \/ st = OB_ST_HELO -> session_ok cfg creds ip c -> session_ok cfg creds ip (outbox_conn_reset_txn c st).
Proof.
  intros Hst [H0 H1 H2 H3 H4 H5 H6 H7 H8]. pose proof (raw_cap_pos Hmax).
  split; cbn; auto; try lia; try (by destruct Hst as [->| ->]; naive_solver).
Qed.

Lemma helo_handles c ehlo : hdl c (outbox_do_helo cfg c ehlo).
Proof.
  unfold outbox_do_helo. apply handles_calm; [apply calm_gets|]. intros h.
  destruct ehlo; (apply reply_handles; [short_tac|apply reset_session; by right|done..]).
Qed.

Lemma in_state_spec s t : ob_in_state s t = true <-> s = t.
Proof. unfold ob_in_state. apply bool_decide_eq_true. Qed.

Lemma mail_handles c rest : hdl c (outbox_do_mail cfg c rest).
Proof.
  unfold outbox_do_mail. destruct (negb _); [apply ob_reply_same; short_tac|]. apply auth_handles. intros Ht Ha.
  destruct (parse_addr_arg _ _ _) as [[path params]|]; [|apply ob_reply_same; short_tac].
  destruct (outbox_addr_domain path 256) as [d|] eqn:Hd; [|apply ob_reply_same; short_tac].
  destruct (outbox_domain_allowed cfg d) eqn:Hal; [|apply ob_reply_same; short_tac].
  apply reply_handles; [short_tac| |done..].
  intros [H0 H1 H2 H3 H4 H5 H6 H7 H8]. split; cbn; try done. intros _. split; [done|]. by exists path, d.
Qed.

Lemma rcpt_handles c rest : hdl c (outbox_do_rcpt cfg c rest).
Proof.
  unfold outbox_do_rcpt. destruct (negb _); [apply ob_reply_same; short_tac|]. apply auth_handles. intros Ht Ha.
  destruct (_ && _) eqn:Hfull; [apply ob_reply_same; short_tac|].
  destruct (parse_addr_arg _ _ _) as [[path params]|]; [|apply ob_reply_same; short_tac].
  destruct (is_nil path); [apply ob_reply_same; short_tac|].
  destruct (mail_addr_parse path) as [[l d]|] eqn:Hp; [|apply ob_reply_same; short_tac].
  apply reply_handles; [short_tac| |done..].
  intros [H0 H1 H2 H3 H4 H5 H6 H7 H8]. split; cbn; try done.
  - intros Hs. specialize (H4 Hs). by destruct (ob_rcpts c).
  - apply Forall_app. split; [done|]. constructor; [by rewrite Hp|constructor].
  - intros Hm. specialize (H6 Hm). rewrite length_app. cbn [length].
    apply andb_false_iff in Hfull as [Hf|Hf]; cbn in Hm, Hf; lia.
Qed.

Lemma data_handles c : hdl c (outbox_do_data c).
Proof.
  unfold outbox_do_data. destruct (ob_in_state (ob_state c) OB_ST_MAIL) eqn:Hst; cbn [negb]; [|apply ob_reply_same; short_tac].
  apply in_state_spec in Hst. apply auth_handles. intros Ht Ha.
  destruct (Nat.eqb_spec (length (ob_rcpts c)) 0) as [Hr|Hr]; [apply ob_reply_same; short_tac|].
  intros Hinv. eapply ok_bind; [by apply reply_replied; short_tac|]. intros c1 Hc1. apply ok_ret.
  pose proof (replied_inv cfg creds ip c c1 Hc1 Hinv) as [[H0 H1 H2 H3 H4 H5 H6 H7 H8] Hout].
  destruct Hc1 as (Hcore & _ & Hcl). unfold core in Hcore.
  assert (ob_state c1 = OB_ST_MAIL /\ ob_in c1 = ob_in c /\ ob_rcpts c1 = ob_rcpts c) as (Es & Ei & Er) by (repeat split; congruence).
  split; [|done]. split; [|done]. pose proof (raw_cap_pos Hmax). split; cbn; auto; try lia.
  intros _ Hn. rewrite Er in Hn. by rewrite Hn in Hr.
Qed.

Lemma starttls_handles c rest : hdl c (outbox_do_starttls c rest).
Proof.
  unfold outbox_do_starttls. apply handles_calm; [apply calm_gets|]. intros h.
  destruct (ob_tls c) as [t|] eqn:Ht; [apply ob_reply_same; short_tac|].
  repeat match goal with |- hdl _ (if ?b then _ else _) => destruct b; [apply ob_reply_same; short_tac|] end.
  apply handles_calm; [apply calm_machine|]. intros [t|]; [|apply ob_reply_same; short_tac].
  apply reply_handles; [short_tac| |done..]. intros [H0 H1 H2 H3 H4 H5 H6 H7 H8]. split; cbn; auto.
  - intros Ha. split; [done|]. by apply H1.
Qed.

Lemma command_handles c line now : hdl c (outbox_handle_command cfg creds c line now).
Proof.
  unfold outbox_handle_command.
  repeat match goal with
  | |- hdl _ (if verb_is _ _ then _ else _) => destruct (verb_is _ _)
  | |- hdl _ (if is_nil _ then _ else _) => destruct (is_nil _)
  end;
  try match goal with
  | |- hdl _ (outbox_conn_reply c _) => apply ob_reply_same; short_tac
  | |- hdl _ (outbox_reply_close c _) => apply reply_close_handles; short_tac
  | |- hdl _ (outbox_do_helo _ _ _) => apply helo_handles
  | |- hdl _ (outbox_do_mail _ _ _) => apply mail_handles
  | |- hdl _ (outbox_do_rcpt _ _ _) => apply rcpt_handles
  | |- hdl _ (outbox_do_data _) => apply data_handles
  | |- hdl _ (outbox_do_starttls _ _) => apply starttls_handles
  end.
  - apply secure_handles. intros Ht. apply handles_calm; [apply calm_blocked|].
    intros [|]; [apply ob_reply_same; short_tac|]. by apply do_auth_handles.
  - apply reply_handles; [short_tac| |done..]. apply reset_session. destruct (ob_in_state _ _); auto.
Qed.

End Commands.

Section Delivery.
Context {H : Host} (cfg : OutboxConfig) (creds : list OutboxCred) (ip : bytes).
Abbreviation lims := (outbox_limits cfg).
Abbreviation okc := (ok (H := H) cfg creds).

(** ** DATA completion *)

Lemma calm_mkdir pre s : calm (outbox_mkdir_loop (H := H) pre s).
Proof.
  revert pre. induction s as [|c s IH]; intros pre; cbn [outbox_mkdir_loop]; [apply calm_ret|].
  destruct (_ && _); [|apply IH]. apply calm_bind; [apply calm_machine|]. intros []; [apply IH|apply calm_ret].
Qed.

Lemma calm_spool from rcpts msg : calm (spool_message (H := H) cfg from rcpts msg).
Proof.
  unfold spool_message, outbox_mkdir_p.
  repeat first
    [ apply calm_ret | apply calm_mkdir | apply calm_machine | apply calm_seq | apply calm_gets
    | apply calm_bind; [|intros ?] | case_match ].
Qed.

(** What [deliver_message] queues for this message, signed by this machine. *)
Definition queued_for (c : OutboxConn) (msg : bytes) (s : Submission) : Prop :=
  s = MkSubmission (ob_auth_user c) (ob_auth_pass c) (default [] (ob_from c)) (ob_rcpts c) msg (su_queued s) /\
  mail_data_has_ctl msg = false /\ len msg <= ol_max_msg lims /\
  exists fromdom, aligned_domain (default [] (ob_from c)) msg = Some fromdom /\
    (su_queued s = msg \/ exists h key, outbox_dkim_key cfg fromdom = Some key /\
       (dkim_sign h msg (Some fromdom) (bs "visage") key).2 = Some (su_queued s)).

(** The reply [t] after [c], when the output has room for it. *)
Definition answered (c : OutboxConn) (t : bytes) (c' : OutboxConn) : Prop :=
  replied c c' /\ ob_said c' = if len (ob_out c) >? OUTBOX_MAX_OUT then ob_said c else ob_said c ++ [t].

(** A call that changes neither the queue nor the log and ends in a [Q]. *)
Definition calmly (b : @Box H) (Q : OutboxConn -> Prop) (m : prog (@Box H) OutboxConn) : Prop :=
  wp m (fun b' o => bx_log b' = bx_log b /\ bx_queue b' = bx_queue b /\ exists c', o = Some c' /\ Q c') b.

Lemma flush_answers c b : calmly b (fun c' => replied c c' /\ ob_said c' = ob_said c) (outbox_conn_flush c).
Proof.
  unfold calmly, outbox_conn_flush. destruct (_ <=? _)%nat.
  { apply wp_ret. repeat split. exists (ob_set_out [] 0 c). split; [done|]. split; [apply cleared_replied|done]. }
  apply wp_bind, wp_gets, wp_bind.
  set (m := match ob_tls c with Some t => _ | None => _ end).
  assert (Hm : wp m (fun b' o => bx_log b' = bx_log b /\ bx_queue b' = bx_queue b /\ o <> None) b).
  { subst m. unfold on_machine, wp. repeat case_match; simplify_eq; done. }
  eapply wp_mono; [exact Hm|]. intros b1 [rs|] (Hl & Hq & Hn); [|done]. apply wp_ret. split; [done|]. split; [done|].
  eexists. split; [done|]. destruct (flush_loop rs _ _) eqn:Hf; (split; [|done]).
  - apply flush_loop_range in Hf. split; [done|]. split; [|done]. unfold out_ok. cbn. lia.
  - etrans; [apply cleared_replied|apply ob_close_replied].
  - apply cleared_replied.
Qed.

Lemma reply_answers c t b : short t -> calmly b (answered c t) (outbox_conn_reply c t).
Proof.
  intros Ht. unfold outbox_conn_reply, answered. destruct (Z.gtb_spec (len (ob_out c)) OUTBOX_MAX_OUT).
  - apply wp_ret. repeat split. exists (ob_close c). split; [done|]. split; [apply ob_close_replied|done].
  - eapply wp_mono; [apply flush_answers|]. intros b' o (Hl & Hq & c' & -> & Hr & Hs). split; [done|]. split; [done|].
    exists c'. split; [done|]. split; [|by rewrite Hs]. etrans; [|exact Hr].
    split; [done|]. split; [|done]. unfold out_ok, short in *. cbn. rewrite length_app. lia.
Qed.

Lemma close_answers c t b : short t -> calmly b (answered c t) (outbox_reply_close c t).
Proof.
  intros Ht. unfold calmly, outbox_reply_close. apply wp_bind. eapply wp_mono; [by apply reply_answers|].
  intros b' o (Hl & Hq & c' & -> & Hr & Hs). apply wp_ret. split; [done|]. split; [done|].
  exists (ob_close c'). split; [done|]. split; [|done]. etrans; [exact Hr|apply ob_close_replied].
Qed.

(** How a message at the end of DATA is decided: it is refused, with nothing
    queued and a reply other than 250, or it is in the queue and the reply is
    "250 2.0.0 OK: queued". *)
Definition decided (c c' : OutboxConn) (b b' : @Box H) : Prop :=
  (exists s, queued_for c (mail_unstuff_dots (ob_data c)) s /\ bx_log b' = bx_log b ++ [s] /\
     outbox_delivery_enqueue (bx_queue b) (su_from s) (su_rcpts s) (su_queued s) = (bx_queue b', 0) /\
     answered c OK_queued c')
  \/ (bx_log b' = bx_log b /\ bx_queue b' = bx_queue b /\ exists t, t <> OK_queued /\ answered c t c').

Lemma refuses c t b : short t -> t <> OK_queued ->
  wp (outbox_conn_reply c t) (fun b' o => exists c', o = Some c' /\ decided c c' b b') b.
Proof.
  intros Ht Hne. eapply wp_mono; [by apply reply_answers|]. intros b' o (Hl & Hq & c' & -> & Ha).
  exists c'. split; [done|]. right. eauto.
Qed.

Lemma refuses_close c t b : short t -> t <> OK_queued ->
  wp (outbox_reply_close c t) (fun b' o => exists c', o = Some c' /\ decided c c' b b') b.
Proof.
  intros Ht Hne. eapply wp_mono; [by apply close_answers|]. intros b' o (Hl & Hq & c' & -> & Ha).
  exists c'. split; [done|]. right. eauto.
Qed.

Lemma decided_after c c' b b1 b2 : bx_log b1 = bx_log b -> bx_queue b1 = bx_queue b -> decided c c' b1 b2 -> decided c c' b b2.
Proof. unfold decided. by intros -> ->. Qed.

Lemma enqueue_decides c msg out_msg b : queued_for c (mail_unstuff_dots (ob_data c))
    (MkSubmission (ob_auth_user c) (ob_auth_pass c) (default [] (ob_from c)) (ob_rcpts c) msg out_msg) ->
  wp (qrc ← enqueue c msg out_msg;
      if qrc =? -2 then outbox_conn_reply c (bs "452 4.3.1 Delivery queue full, try later" ++ CRLF)
      else if negb (qrc =? 0) then outbox_conn_reply c (bs "451 4.3.0 Temporary delivery failure" ++ CRLF)
      else outbox_conn_reply c OK_queued)
    (fun b' o => exists c', o = Some c' /\ decided c c' b b') b.
Proof.
  intros Hs. apply wp_bind. unfold wp at 1, enqueue.
  destruct (outbox_delivery_enqueue (bx_queue b) _ _ _) as [q rc] eqn:Henq. cbn [fst snd].
  destruct (Z.eqb_spec rc 0) as [->|Hrc].
  - cbn [Z.eqb negb]. eapply wp_mono; [by apply reply_answers; short_tac|]. intros b' o (Hl & Hq & c' & -> & Ha).
    exists c'. split; [done|]. left. eexists. split; [exact Hs|]. cbn [su_from su_rcpts su_queued bx_log bx_queue] in *.
    split; [done|]. split; [by rewrite Hq|done].
  - assert (q = bx_queue b) as ->.
    { unfold outbox_delivery_enqueue in Henq. repeat case_match; congruence. }
    assert (Hb : MkBox (bx_host b) (bx_fails b) (bx_queue b) (bx_seq b) (bx_log b) = b) by (by destruct b). rewrite Hb.
    cbn [negb]. destruct (rc =? -2); (apply refuses; [short_tac|done]).
Qed.

Lemma deliver_decides c b :
  wp (outbox_deliver_message cfg c) (fun b' o => exists c', o = Some c' /\ decided c c' b b') b.
Proof.
  unfold outbox_deliver_message. set (msg := mail_unstuff_dots (ob_data c)).
  destruct (mail_data_has_ctl msg) eqn:Hctl; [apply refuses_close; [short_tac|done]|].
  destruct (Z.gtb_spec (len msg) (ol_max_msg (lim cfg))) as [|Hlen]; [apply refuses_close; [short_tac|done]|].
  destruct (aligned_domain (default [] (ob_from c)) msg) as [fd|] eqn:Hal; [|apply refuses; [short_tac|done]].
  apply wp_bind.
  assert (Hsign : wp (match outbox_dkim_key cfg fd with
                      | Some key => on_machine (fun h => dkim_sign h msg (Some fd) (bs "visage") key) | None => mret None end)
    (fun b' o => bx_log b' = bx_log b /\ bx_queue b' = bx_queue b /\ exists signed, o = Some signed /\
       (default msg signed = msg \/ exists h key, outbox_dkim_key cfg fd = Some key /\
          (dkim_sign h msg (Some fd) (bs "visage") key).2 = Some (default msg signed))) b).
  { destruct (outbox_dkim_key cfg fd) as [key|]; [|apply wp_ret; repeat split; exists None; split; [done|by left]].
    unfold wp, on_machine. destruct (dkim_sign (bx_host b) msg (Some fd) (bs "visage") key) as [h r] eqn:Hd. cbn [fst snd bx_log bx_queue].
    split; [done|]. split; [done|]. exists r. split; [done|]. destruct r as [m|]; [|by left]. right. exists (bx_host b), key.
    split; [done|]. by rewrite Hd. }
  eapply wp_mono; [exact Hsign|]. intros b1 o (Hl & Hq & signed & -> & Hs). cbn beta match. apply wp_bind.
  eapply wp_mono; [apply calm_spool|]. intros b2 [[]|] (Hl2 & Hq2 & Hn); [|done].
  eapply wp_mono; [apply enqueue_decides|].
  - split; [done|]. split; [done|]. split; [exact Hlen|]. exists fd. split; [done|]. exact Hs.
  - intros b3 o (c' & -> & Hdec). exists c'. split; [done|]. eapply decided_after; [| |exact Hdec]; congruence.
Qed.

End Delivery.

(** A terminator lies past the scan offset, inside the buffer. *)
Lemma scan_loop_found lm rest ls cur e t : data_scan_loop lm ls cur rest = LoopFound e t ->
  (ls <= e /\ e + t <= ls + length cur + length rest)%nat.
Proof.
  revert ls cur. induction rest as [|ch rest IH]; intros ls cur; cbn [data_scan_loop length]; [done|].
  repeat case_match; try done; try (intros [= <- <-]; lia); intros Hf%IH; rewrite ?length_app in Hf; cbn [length] in *; lia.
Qed.

Lemma data_scan_found buf ml mt pos e t : (pos <= length buf)%nat -> data_scan buf ml mt pos = ScanFound e t ->
  (pos <= e /\ e + t <= length buf)%nat.
Proof.
  intros Hpos. unfold data_scan. destruct (data_scan_loop _ _ _ _) as [e' t'| |q tr] eqn:Hl; try done.
  - intros [= -> ->]. apply scan_loop_found in Hl. rewrite length_drop in Hl. cbn in Hl. lia.
  - repeat case_match; done.
Qed.

Section Ingestion.
Context {H : Host} (cfg : OutboxConfig) (creds : list OutboxCred) (ip : bytes).
Abbreviation lims := (outbox_limits cfg).
Abbreviation okc := (ok (H := H) cfg creds).
Context (Hmax : 0 <= ox_max_msg cfg) (Hrcpts : 0 <= ox_max_rcpts cfg) (Hline : 0 <= ox_max_line cfg).

Lemma queued_ok c s : ob_inv cfg creds ip c -> ob_state c = OB_ST_DATA ->
  queued_for (H := H) cfg c (mail_unstuff_dots (ob_data c)) s -> submission_ok (H := H) cfg creds s.
Proof.
  intros [[H0 H1 H2 H3 H4 H5 H6 H7 H8] _] Hst (Hs & Hctl & Hlen & fd & Hal & Hq).
  destruct H3 as (Ha & f & d & Hf & Hd & Hallow); [by right|]. rewrite Hf in *. cbn [default from_option id] in *.
  split; rewrite Hs; cbn [su_user su_pass su_rcpts su_msg su_from su_queued].
  - by apply H1.
  - auto.
  - done.
  - unfold aligned_domain in Hal. rewrite Hd in Hal. destruct (outbox_from_header_domain _ 256) as [fd'|]; [|done].
    destruct (ascii_ieq_str d fd') eqn:Hi; [|done]. injection Hal as ->. rewrite ascii_ieq_str_ieq in Hi. apply ieq_spec in Hi.
    exists d, fd. auto.
Qed.

Lemma deliver_ok c : ob_inv cfg creds ip c -> ob_state c = OB_ST_DATA ->
  okc (fun c' => ob_inv cfg creds ip c' /\ replied c c') (outbox_deliver_message cfg c).
Proof.
  intros Hinv Hst b. eapply wp_mono; [apply deliver_decides|].
  intros b' o (c' & -> & [(s & Hs & Hl & Hq & Ha)|(Hl & Hq & t & _ & Ha)]).
  - destruct Ha as [Hr _]. split; [|split; [by eapply replied_inv|done]].
    exists [s]. split; [done|]. split; [|by exists (bx_queue b')]. constructor; [|constructor]. by eapply queued_ok.
  - destruct Ha as [Hr _]. split; [|split; [by eapply replied_inv|done]]. exists []. rewrite app_nil_r. split; [done|]. by rewrite Hq.
Qed.

(** What holds besides between events: no command input waits in DATA, and what
    waits elsewhere is shorter than a line. *)
Definition ob_idle (c : OutboxConn) : Prop := ob_closed c = false ->
  if decide (ob_state c = OB_ST_DATA) then ob_in c = [] else len (ob_in c) <= ol_max_line lims.

Definition ob_ok (c : OutboxConn) : Prop := ob_inv cfg creds ip c /\ ob_idle c.

Lemma closed_ok c : ob_inv cfg creds ip c -> ob_closed c = true -> ob_ok c.
Proof. intros Hi Hc. split; [done|]. intros Hn. congruence. Qed.

Lemma close_reply_ok c t : short t -> ob_inv cfg creds ip c -> okc ob_ok (outbox_reply_close c t).
Proof.
  intros Ht Hi. eapply ok_mono; [by apply ob_reply_close_replied|]. intros c' [Hr Hc]. apply closed_ok; [|done]. by eapply replied_inv.
Qed.

Lemma set_in_inv v c : ob_inv cfg creds ip c -> ob_inv cfg creds ip (ob_set_in v c).
Proof. intros [[] Ho]. split; [by split|done]. Qed.

Lemma ob_take_data_ok c : ob_inv cfg creds ip c -> ob_state c = OB_ST_DATA -> okc ob_ok (outbox_take_data cfg c).
Proof.
  intros Hi Hst. unfold outbox_take_data. destruct (ob_in c) as [|x l] eqn:Hin; cbn [is_nil].
  - apply ok_ret. split; [done|]. intros _. by rewrite Hst.
  - destruct (Z.gtb_spec (len (ob_data c) + len (x :: l)) (ol_raw_cap (lim cfg))); [by apply close_reply_ok; [short_tac|]|].
    apply ok_ret. destruct Hi as [[] Ho]. split; [|intros _; cbn; by rewrite Hst].
    split; [|done]. split; cbn; try done.
    + rewrite length_app. unfold lim in *. cbn in *. lia.
    + rewrite length_app. lia.
Qed.

Lemma ob_commands_loop_ok n now : forall c, ob_inv cfg creds ip c -> (ob_state c = OB_ST_DATA -> ob_closed c = true) ->
  okc ob_ok (outbox_commands_loop cfg creds n c now).
Proof.
  induction n as [|n IH]; intros c Hi Hst; cbn [outbox_commands_loop]; [apply ok_running|].
  destruct (ob_closed c) eqn:Hc; [apply ok_ret; by apply closed_ok|].
  destruct (next_line (ob_in c)) as [[line rest]|] eqn:Hl.
  2: { destruct (Z.gtb_spec (len (ob_in c)) (ol_max_line (lim cfg))); [by apply close_reply_ok; [short_tac|]|].
       apply ok_ret. split; [done|]. intros _. destruct (decide _) as [Hd|]; [by specialize (Hst Hd)|done]. }
  destruct (len line >? ol_max_line (lim cfg)); [by apply close_reply_ok; [short_tac|]|].
  assert (Hi' : ob_inv cfg creds ip (ob_set_in rest c)) by (by apply set_in_inv).
  apply ok_bind with (fun c' => ob_inv cfg creds ip c').
  { case_decide.
    - eapply ok_mono; [by eapply (command_handles cfg creds ip Hmax Hrcpts)|]. by intros c' [].
    - eapply ok_mono; [by eapply (auth_cont_handles cfg creds ip)|]. by intros c' []. }
  intros c' Hi2. destruct (ob_in_state (ob_state c') OB_ST_DATA) eqn:Hs; cbn [andb].
  - apply in_state_spec in Hs. destruct (ob_closed c') eqn:Hc'; cbn [negb]; [by apply IH|by apply ob_take_data_ok].
  - apply IH; [done|]. intros Hd. unfold ob_in_state in Hs. apply bool_decide_eq_false in Hs. by destruct Hs.
Qed.

Lemma reset_inv c st : st = OB_ST_INIT \/ st = OB_ST_HELO -> ob_inv cfg creds ip c -> ob_inv cfg creds ip (outbox_conn_reset_txn c st).
Proof. intros Hst [Hs Ho]. split; [by apply reset_session|done]. Qed.

Lemma ob_process_data_ok c now : ob_inv cfg creds ip c -> ob_in c = [] -> ob_state c = OB_ST_DATA -> okc ob_ok (outbox_process_data cfg creds c now).
Proof.
  intros Hi Hin Hst. unfold outbox_process_data.
  destruct (data_scan (ob_data c) _ _ (ob_scan c)) as [e t|pos|] eqn:Hscan; [| |by apply close_reply_ok; [short_tac|]].
  2: { apply ok_ret. apply data_scan_pos in Hscan as Hp; [|by destruct Hi as [[] _]].
       destruct Hi as [[] Ho]. split; [|intros _; cbn; by rewrite Hst]. split; [|done]. split; cbn; try done. }
  apply data_scan_found in Hscan as He; [|by destruct Hi as [[] _]].
  set (c1 := ob_set_data _ _ _).
  assert (Hi1 : ob_inv cfg creds ip c1).
  { subst c1. destruct Hi as [[] Ho]. split; [|done]. split; cbn [ob_set_data ob_set_in ob_authenticated ob_tls ob_auth_user ob_auth_pass ob_auth_pending ob_state ob_rcpts ob_data ob_scan]; try done; rewrite length_take; lia. }
  apply ok_bind with (fun c' => ob_inv cfg creds ip c'); [eapply ok_mono; [by apply deliver_ok|]; by intros c' []|].
  intros c2 Hi2. set (c3 := outbox_conn_reset_txn c2 OB_ST_HELO).
  assert (Hi3 : ob_inv cfg creds ip c3) by (apply reset_inv; [by right|done]).
  destruct (negb (ob_closed c3) && negb (is_nil (ob_in c3))) eqn:Hmore; [by apply ob_commands_loop_ok|].
  apply ok_ret. split; [done|]. intros Hc. rewrite Hc in Hmore. cbn in Hmore |- *. apply negb_false_iff in Hmore.
  destruct (ob_in c2); [|done]. rewrite decide_False by done.
  unfold or_default, SmtpParse.SMTP_MAX_LINE. destruct (ox_max_line cfg =? 0); cbn; lia.
Qed.

(** A closed connection that is not in the middle of a message. *)
Definition ob_live (c : OutboxConn) : Prop := ob_closed c = true -> ob_state c <> OB_ST_DATA.

Lemma take_bytes_ok c tmp now : ob_ok c -> ob_live c -> okc ob_ok (outbox_conn_take_bytes cfg creds c tmp now).
Proof.
  intros [Hi Hidle] Hlive. unfold outbox_conn_take_bytes.
  destruct (ob_in_state (ob_state c) OB_ST_DATA) eqn:Hs.
  - apply in_state_spec in Hs. destruct (ob_closed c) eqn:Hc; [by specialize (Hlive Hc)|].
    specialize (Hidle Hc). rewrite decide_True in Hidle by done.
    destruct (Z.gtb_spec (len (ob_data c) + len tmp) (ol_raw_cap (lim cfg))); [by apply close_reply_ok; [short_tac|]|].
    apply ob_process_data_ok; [|done|done]. destruct Hi as [[] Ho]. split; [|done]. split; cbn [ob_set_data ob_authenticated ob_tls ob_auth_user ob_auth_pass ob_auth_pending ob_state ob_rcpts ob_data ob_scan]; try done; rewrite length_app; unfold lim in *; lia.
  - unfold ob_in_state in Hs. apply bool_decide_eq_false in Hs. apply ob_commands_loop_ok; [by apply set_in_inv|done].
Qed.

Lemma act_ok c now : ob_ok c -> ob_ok (ob_set_act now c).
Proof. intros [[[] Ho] Hid]. split; [|done]. split; [by split|done]. Qed.

Lemma close_ok c : ob_ok c -> ob_ok (ob_close c).
Proof. intros [Hi _]. apply closed_ok; [|done]. by eapply replied_inv; [apply ob_close_replied|]. Qed.

Lemma drain_ok n t now : forall c, ob_ok c -> ob_live c -> okc ob_ok (outbox_drain_loop cfg creds n t c now).
Proof.
  induction n as [|n IH]; intros c Ho Hc; cbn [outbox_drain_loop]; [apply ok_running|].
  apply ok_calm; [apply calm_machine|]. intros [[|x d]| | |]; try (apply ok_ret; by auto using close_ok).
  eapply ok_bind; [apply take_bytes_ok; [by apply act_ok|done]|]. intros c' Hc'.
  destruct (ob_closed c') eqn:Hcl; [by apply ok_ret|]. apply IH; [done|]. intros Hn. congruence.
Qed.

Lemma readable_ok n c now : ob_ok c -> ob_live c -> okc ob_ok (outbox_conn_readable cfg creds n c now).
Proof.
  intros Ho Hc. unfold outbox_conn_readable. destruct (ob_tls c) as [t|].
  - apply ok_calm; [apply calm_gets|]. intros h. destruct (negb _); [by apply ok_ret|by apply drain_ok].
  - apply ok_calm; [apply calm_machine|]. intros [[|x d]| | |]; try (apply ok_ret; by auto using close_ok).
    apply take_bytes_ok; [by apply act_ok|done].
Qed.

(** ** The steps of the poll loop *)

Lemma ob_tls_advance_ok n c now : ob_ok c -> ob_closed c = false -> okc ob_ok (outbox_tls_advance cfg creds n c now).
Proof.
  intros Ho Hc. unfold outbox_tls_advance. destruct (ob_tls c) as [t|] eqn:Ht; [|by apply ok_ret].
  apply ok_calm; [apply calm_machine|]. intros r. apply (act_ok _ now) in Ho as Ha.
  destruct (r <? 0).
  { apply ok_ret. apply closed_ok; [|done]. destruct Ha as [Ha _]. eapply replied_inv; [|exact Ha].
    etrans; [apply ob_close_replied|apply cleared_replied]. }
  destruct (r >? 0); [|by apply ok_ret].
  destruct Ho as [Hi Hidle].
  assert (Hin : len (ob_in c) <= ol_max_line lims).
  { specialize (Hidle Hc). destruct (decide (ob_state c = OB_ST_DATA)); [|done]. rewrite Hidle.
    cbn [outbox_limits ol_max_line]. unfold or_default, SmtpParse.SMTP_MAX_LINE. destruct (ox_max_line cfg =? 0); cbn; lia. }
  destruct (_ && _).
  - set (c1 := ob_set_state OB_ST_INIT _).
    assert (Hc1 : ob_inv cfg creds ip c1) by (subst c1; destruct Hi as [[] Hout]; split; [split; cbn; try done; naive_solver|done]).
    apply ok_bind with (fun c' => replied c1 c'); [apply reply_replied, fit_short; reflexivity|].
    intros c2 Hr. assert (Hst : ob_state c2 = OB_ST_INIT /\ ob_in c2 = ob_in c).
    { destruct Hr as (Hcore & _). unfold core in Hcore. cbn in Hcore. split; congruence. }
    destruct Hst as [Hst Hin2]. apply readable_ok.
    + split; [by eapply replied_inv|]. intros _. rewrite decide_False by (rewrite Hst; done). by rewrite Hin2.
    + intros _. by rewrite Hst.
  - set (c1 := outbox_conn_reset_txn _ OB_ST_INIT). apply readable_ok; [|done]. split.
    + pose proof (raw_cap_pos cfg Hmax) as Hcap. destruct Hi as [[] Hout]. split; [|done].
      split; cbn in Hcap |- *; try done; by intros [?|?].
    + intros _. exact Hin.
Qed.

Lemma ob_idle_check_ok c now : ob_ok c -> okc ob_ok (outbox_idle_check cfg c now).
Proof.
  intros Ho. unfold outbox_idle_check. destruct (_ && _); [|by apply ok_ret].
  apply ok_calm; [apply calm_gets|]. intros h. destruct Ho as [Hi Hid].
  destruct (match ob_tls c with Some t => _ | None => _ end).
  - apply ok_ret. apply closed_ok; [|done]. eapply replied_inv; [|exact Hi].
    etrans; [apply ob_close_replied|apply cleared_replied].
  - by apply close_reply_ok; [short_tac|].
Qed.

Lemma replied_ok c c' : replied c c' -> ob_ok c -> ob_ok c'.
Proof.
  intros Hr [Hi Hid]. split; [by eapply replied_inv|]. destruct Hr as (Hcore & _ & Hcl). unfold core in Hcore.
  unfold ob_idle in *. destruct (ob_closed c) eqn:Hc; [intros Hn; rewrite Hcl in Hn; done|]. intros _. specialize (Hid eq_refl).
  assert (ob_state c' = ob_state c /\ ob_in c' = ob_in c) as [-> ->] by (split; congruence). exact Hid.
Qed.

Lemma flush_ok c : ob_ok c -> okc ob_ok (outbox_conn_flush c).
Proof. intros Ho. eapply ok_mono; [apply flush_replied|]. intros c' Hr. by eapply replied_ok. Qed.

End Ingestion.

(** ** Properties *)

(** C17: The reply at the end of DATA tells the truth. For every connection, shared
    state and message [deliver_message] ends in one of two ways: the message was
    clean, small enough and aligned, one job with exactly this envelope and the
    message, unsigned or signed with the key of its own domain, was appended to the
    delivery queue, and the reply is "250 2.0.0 OK: queued"; or nothing was queued
    and the reply is another. *)
Theorem submission_decided {H : Host} (cfg : OutboxConfig) (c : OutboxConn) (b : @Box H) :
  exists b' c', outbox_deliver_message cfg c b = (b', Some c') /\ decided cfg c c' b b'.
Proof.
  pose proof (deliver_decides cfg c b) as Hd. unfold wp in Hd.
  destruct (outbox_deliver_message cfg c b) as [b' o]. destruct Hd as (c' & Ho & Hd). cbn in Ho. subst o. eauto.
Qed.

Lemma skip_sp_stop s : chd s <> SP -> skip_sp s = s.
Proof.
  unfold skip_sp, chd. destruct s as [|x s]; [done|]. cbn [drop_while hd]. intros Hx. rewrite (proj2 (Z.eqb_neq SP x)); congruence.
Qed.

(** The first word of a line and what follows it, as the dispatch splits them. *)
Definition words_of (line v rest : bytes) : Prop :=
  take_while (fun c => negb (c =? SP)) (skip_sp line) = v /\
  skip_sp (drop_while (fun c => negb (c =? SP)) (skip_sp line)) = rest.

Lemma words_split v rest : forallb (fun c => negb (c =? SP)) v = true -> chd v <> SP -> chd rest <> SP ->
  v <> [] -> words_of (v ++ SP :: rest) v rest.
Proof.
  intros Hv Hh Hr Hne. unfold words_of. rewrite skip_sp_stop by (by destruct v).
  assert (Hall : Forall (fun c => negb (c =? SP) = true) v) by (apply Forall_forall; intros x Hx; rewrite forallb_forall in Hv; apply Hv; by apply list_elem_of_In).
  split.
  - clear -Hall. induction Hall as [|x v Hx _ IH]; cbn [app take_while]; [done|]. by rewrite Hx, IH.
  - rewrite drop_while_app_all by done. cbn [drop_while]. rewrite Z.eqb_refl. cbn [negb]. unfold skip_sp. cbn [drop_while].
    rewrite Z.eqb_refl. by apply skip_sp_stop.
Qed.

Lemma encode_head s : s <> [] -> chd (b64_encode_loop s) <> SP /\ b64_encode_loop s <> [].
Proof.
  intros Hs. assert (Hd : forall v sh, b64_digit v sh <> SP).
  { intros v sh Hv. destruct (b64_digit_spec v sh) as (d & Hd & _ & Hval & _). rewrite Hv in Hval.
    unfold b64_val in Hval. cbn in Hval. lia. }
  destruct s as [|x [|y [|z s]]]; [done|..]; cbn [b64_encode_loop chd hd]; auto.
Qed.

Lemma cut_at u s : 0 ∉ u -> cut 0 (u ++ 0 :: s) = Some (u, s).
Proof.
  induction u as [|x u IH]; intros Hu; cbn; [done|]. destruct (Z.eqb_spec x 0) as [->|]; [set_solver|].
  by rewrite IH by set_solver.
Qed.

Lemma plain_check_decodes {H : Host} creds (c : OutboxConn) now user pass :
  bytes_ok user -> bytes_ok pass -> 0 ∉ user -> 0 ∉ pass -> (0 < length user < 128)%nat -> (length user + length pass <= 510)%nat ->
  auth_plain_check (H := H) creds c (b64_encode_loop (0 :: user ++ 0 :: pass)) now = finish_auth creds c user pass now.
Proof.
  intros Hu Hp Hu0 Hp0 Hul Hl. unfold auth_plain_check.
  rewrite b64_decode_encode; [|constructor; [done|]; apply Forall_app; split; [done|]; by constructor
                              |cbn [length]; rewrite length_app; cbn [length]; lia].
  cbn [cut]. rewrite Z.eqb_refl, cut_at by done. rewrite c_str_clean by done.
  rewrite (proj2 (Nat.eqb_neq _ _)), (proj2 (Nat.leb_gt _ _)), (proj2 (Nat.leb_gt _ _)) by lia. done.
Qed.

(** The SMTP client and the outbox agree on AUTH PLAIN. The command the client
    sends for a relay's credentials (NUL-free, a user of 1 to 127 bytes, 512 bytes in
    all) makes the outbox, on a secure channel and for an address that is not locked
    out, check exactly this user and password; in particular with the credentials of
    its own table it is let in. *)
Theorem auth_plain_interop {H : Host} (cfg : OutboxConfig) (creds : list OutboxCred) (c : OutboxConn) (now : Z)
  (auth : ConfigRelay) (user pass : bytes)
  (Huser : rl_username auth = Some user) (Hpass : rl_password auth = Some pass)
  (Hub : bytes_ok user) (Hpb : bytes_ok pass) (Hu0 : 0 ∉ user) (Hp0 : 0 ∉ pass)
  (Hul : (0 < length user < 128)%nat) (Hl : (length user + length pass <= 510)%nat) :
  exists b64, smtp_b64_encode (plain_response auth) ((len (plain_response auth) + 2) / 3 * 4 + 1) = Some b64 /\
    outbox_handle_command (H := H) cfg creds c (bs "AUTH PLAIN " ++ b64) now =
    require_secure c
      (blocked ← ip_blocked c now;
       if (blocked : bool) then outbox_conn_reply c (bs "454 4.7.0 Too many failed attempts" ++ CRLF)
       else finish_auth creds c user pass now).
Proof.
  unfold plain_response, nonnull. rewrite Huser, Hpass. set (plain := 0 :: user ++ 0 :: pass).
  exists (b64_encode_loop plain). split.
  { unfold smtp_b64_encode. change (NUL :: default [] (Some user) ++ NUL :: default [] (Some pass)) with plain.
    destruct (Z.gtb_spec (len plain) (SIZE_MAX / 2)) as [Hbig|_].
    - exfalso. assert (Hn : len plain <= 512) by (subst plain; cbn [length]; rewrite length_app; cbn [length]; lia).
      assert (512 <= SIZE_MAX / 2) by (vm_compute; discriminate). lia.
    - by rewrite Z.ltb_irrefl. }
  destruct (encode_head plain ltac:(done)) as [Hh Hne]. rewrite <- (plain_check_decodes creds c now user pass) by done. fold plain.
  set (b64 := b64_encode_loop plain) in *. clearbody b64.
  assert (Hauth : words_of (bs "AUTH PLAIN " ++ b64) (bs "AUTH") (bs "PLAIN " ++ b64)) by (apply (words_split (bs "AUTH") (bs "PLAIN " ++ b64)); done).
  assert (Hplain : words_of (bs "PLAIN " ++ b64) (bs "PLAIN") b64) by (by apply (words_split (bs "PLAIN") b64)).
  unfold outbox_handle_command. destruct Hauth as [-> ->].
  change (verb_is (bs "AUTH") (bs "EHLO")) with false. change (verb_is (bs "AUTH") (bs "HELO")) with false.
  change (verb_is (bs "AUTH") (bs "STARTTLS")) with false. change (verb_is (bs "AUTH") (bs "AUTH")) with true. cbn match.
  unfold do_auth. destruct Hplain as [-> ->]. change (verb_is (bs "PLAIN") (bs "PLAIN")) with true. cbn match.
  by destruct b64.
Qed.

Definition box0_cfg : OutboxConfig := {|
  ox_implicit_addr := []; ox_implicit_port := 465; ox_starttls_addr := []; ox_starttls_port := 587;
  ox_cert := bs "c"; ox_key := bs "k"; ox_passwd := bs "p"; ox_domains := [bs "x.org"]; ox_dkim := [];
  ox_hostname := bs "box"; ox_spool := []; ox_max_msg := 10000; ox_max_line := 1000; ox_max_rcpts := 10;
  ox_cmd_tmo := 60; ox_data_tmo := 60; ox_max_attempts := 2; ox_deliver_port := 25; ox_dns_server := [];
  ox_queue_max_jobs := 4; ox_queue_max_bytes := 100000;
  ox_internal_relay_host := []; ox_internal_relay_port := 2525; ox_internal_relay_tls := bs "implicit";
  ox_internal_relay_user := []; ox_internal_relay_pass := []; ox_internal_domains := [] |}.

Definition up_auth : ConfigRelay := {|
  rl_host := None; rl_port := 0; rl_auth_enabled := true; rl_username := Some (bs "u"); rl_password := Some (bs "p");
  rl_retries := 0; rl_tls := None; rl_max_attempts := 0; rl_tls_ca := None |}.

Lemma auth_plain_interop_witness : exists b64,
  smtp_b64_encode (plain_response up_auth) ((len (plain_response up_auth) + 2) / 3 * 4 + 1) = Some b64.
Proof.
  assert (Hz : forall x, x <> 0 -> 0 ∉ [x]) by (intros x Hx; rewrite list_elem_of_singleton; congruence).
  destruct (@auth_plain_interop MemHost box0_cfg [{| oc_user := bs "u"; oc_pass := bs "p" |}]
    (MkOutboxConn 5 false true true false None None None OB_ST_HELO OB_AUTH_NONE None [] [] [] 0 [] 0 0 [1;2;3;4] (Some 1) [])
    1000 up_auth (bs "u") (bs "p") eq_refl eq_refl ltac:(repeat constructor) ltac:(repeat constructor)
    ltac:(by apply Hz) ltac:(by apply Hz) ltac:(cbn; lia) ltac:(cbn; lia)) as (b64 & Hb & _).
  by exists b64.
Defined.
