(* ===== verification/OutboxMain.v ===== *)
(** * The outbox daemon (src/src/outbox_main.c)

    The configuration from environment and flags, the checks at startup, and the
    poll loop over the sessions of [OutboxSubmit]: accepting within the connection
    limits, the idle timeout, the poll set and its timeout, dispatch, and reaping.
    The environment is a function, a directory the list of its entries; [BoxMux]
    is poll, accept and the state of TLS handshakes. Opening the listeners, signals
    and the thread are not modelled. *)

From S2P Require Import Prelude MailLines MailAddr MailHeader SmtpData DlEngine Store StoreSpec StoreTables StoreQueue Reply Json Config Prog SmtpParse SmtpWorld SmtpQueue SmtpForward SmtpSession SmtpServer SmtpLoop SmtpReply OutboxAuth OutboxPolicy OutboxDeliver OutboxSubmit.

(** ** Numbers *)

Definition ULONG_MAX : Z := 18446744073709551615.

Definition is_space (c : Z) : bool := (c =? SP) || ((9 <=? c) && (c <=? 13)).

(** The digits a number starts with: their value, saturated, and the text after them. *)
Fixpoint strtoul_digits (v : Z) (s : bytes) : Z * bytes :=
  match s with
  | c :: t =>
      if is_digit c then
        let v' := v * 10 + (c - "0"%chr) in
        strtoul_digits (if v' >? ULONG_MAX then ULONG_MAX + 1 else v') t
      else (v, s)
  | [] => (v, [])
  end.

(** [strtoul(s, &end, 10)]: the value and [end]; a negated value is taken modulo
    2^64, an overflow is ULONG_MAX, and without digits [end] is [s]. *)
Definition strtoul (s : bytes) : Z * bytes :=
  let p := drop_while is_space s in
  let '(neg, d) := match p with
                   | c :: t => if c =? "-"%chr then (true, t) else if c =? "+"%chr then (false, t) else (false, p)
                   | [] => (false, [])
                   end in
  if negb (is_digit (chd d)) then (0, s)
  else
    let '(v, e) := strtoul_digits 0 d in
    ((if v >? ULONG_MAX then ULONG_MAX else if neg then u64 (- v) else v), e).

Definition env_or (v : option bytes) (dflt : bytes) : bytes := default dflt (nonempty v).

Definition env_num (v : option bytes) (dflt : Z) : Z :=
  match nonempty v with
  | None => dflt
  | Some s => let '(n, e) := strtoul s in if negb (is_nil e) then dflt else n
  end.

Definition parse_port (s : bytes) (allow_zero : bool) : option Z :=
  if is_nil s then None
  else
    let '(n, e) := strtoul s in
    if negb (is_nil e) || (n >? 65535) then None
    else if (n =? 0) && negb allow_zero then None else Some n.

Definition parse_u32 (s : bytes) : option Z :=
  if is_nil s then None
  else let '(n, e) := strtoul s in if negb (is_nil e) || (n >? UINT32_MAX) then None else Some n.

Definition parse_u64 (s : bytes) : option Z :=
  if is_nil s then None
  else let '(n, e) := strtoul s in if negb (is_nil e) then None else Some n.

(** ** Lists *)

(** [domains_parse_into]: what a comma list appends. *)
Fixpoint domains_loop (fuel : nat) (p : bytes) : list bytes :=
  match fuel, p with
  | O, _ | _, [] => []
  | S fuel', _ =>
      let '(item, rest) := match cut ","%chr p with Some (a, b) => (a, b) | None => (p, []) end in
      let d := drop_while is_wsp (trim_end is_wsp item) in
      (if is_nil d then [] else [d]) ++ domains_loop fuel' rest
  end.

Definition domains_parse_into (l : list bytes) (liststr : bytes) : list bytes := l ++ domains_loop (length liststr) liststr.

Definition dkim_parse_one (l : list OutboxDkim) (tok : bytes) : option (list OutboxDkim) :=
  match cut "="%chr tok with
  | Some (d, k) => if is_nil d || is_nil k then None else Some (l ++ [{| od_domain := d; od_key := k |}])
  | None => None
  end.

(** The loop of [dkim_scan_dir] over the names of the directory. *)
Fixpoint dkim_scan (l : list OutboxDkim) (dir : bytes) (names : list bytes) : list OutboxDkim :=
  match names with
  | [] => l
  | n :: names' =>
      if (length n <=? 4)%nat || negb (beq (drop (length n - 4) n) (bs ".key")) then dkim_scan l dir names'
      else if (chd n =? "."%chr) then dkim_scan l dir names'
      else if (4096 <? length dir + 1 + length n + 1)%nat then dkim_scan l dir names'
      else dkim_scan (l ++ [{| od_domain := take (length n - 4) n; od_key := dir ++ bs "/" ++ n |}]) dir names'
  end.

(** The tokens [strtok_r] cuts at commas and semicolons. *)
Fixpoint dkim_tokens (fuel : nat) (s : bytes) : list bytes :=
  match fuel with
  | O => []
  | S fuel' =>
      let sep c := (c =? ","%chr) || (c =? ";"%chr) in
      match drop_while sep s with
      | [] => []
      | s => take_while (fun c => negb (sep c)) s :: dkim_tokens fuel' (drop_while (fun c => negb (sep c)) s)
      end
  end.

(** Entries that do not parse are passed over. *)
Definition dkim_env (l : list OutboxDkim) (s : bytes) : list OutboxDkim :=
  foldl (fun l tok => default l (dkim_parse_one l tok)) l (dkim_tokens (length s) s).

(** ** The configuration *)

Definition u16 (z : Z) : Z := z mod 2 ^ 16.

Section Configuration.
(** The environment, and the entries of a directory ([None] when it does not open). *)
Variables (getenv : string -> option bytes) (readdir : bytes -> option (list bytes)).

Definition config_defaults : OutboxConfig := {|
  ox_implicit_addr := env_or (getenv "OUTBOX_IMPLICIT_ADDR") (bs "0.0.0.0");
  ox_implicit_port := u16 (env_num (getenv "OUTBOX_IMPLICIT_PORT") 465);
  ox_starttls_addr := env_or (getenv "OUTBOX_STARTTLS_ADDR") (bs "0.0.0.0");
  ox_starttls_port := u16 (env_num (getenv "OUTBOX_STARTTLS_PORT") 587);
  ox_cert := env_or (getenv "OUTBOX_CERT") [];
  ox_key := env_or (getenv "OUTBOX_KEY") [];
  ox_passwd := env_or (getenv "OUTBOX_PASSWD") (bs "./outbox.passwd");
  ox_hostname := env_or (getenv "OUTBOX_HOSTNAME") (bs "localhost");
  ox_spool := env_or (getenv "OUTBOX_SPOOL") (bs "./var/outbox-spool");
  ox_max_msg := u32 (env_num (getenv "OUTBOX_MAX_MSG") OUTBOX_DEFAULT_MAX_MSG);
  ox_max_line := u32 (env_num (getenv "OUTBOX_MAX_LINE") SmtpParse.SMTP_MAX_LINE);
  ox_max_rcpts := u32 (env_num (getenv "OUTBOX_MAX_RCPTS") 32);
  ox_cmd_tmo := u32 (env_num (getenv "OUTBOX_CMD_TIMEOUT") OUTBOX_DEFAULT_CMD_TMO);
  ox_data_tmo := u32 (env_num (getenv "OUTBOX_DATA_TIMEOUT") OUTBOX_DEFAULT_DATA_TMO);
  ox_max_attempts := u32 (env_num (getenv "OUTBOX_MAX_ATTEMPTS") OUTBOX_DEFAULT_MAX_ATTEMPTS);
  ox_deliver_port := u16 (env_num (getenv "OUTBOX_DELIVER_PORT") 25);
  ox_dns_server := env_or (getenv "OUTBOX_DNS_SERVER") [];
  ox_queue_max_jobs := u32 (env_num (getenv "OUTBOX_QUEUE_MAX_JOBS") OUTBOX_DEFAULT_QUEUE_MAX_JOBS);
  ox_queue_max_bytes := env_num (getenv "OUTBOX_QUEUE_MAX_BYTES") OUTBOX_DEFAULT_QUEUE_MAX_BYTES;
  ox_internal_relay_host := env_or (getenv "OUTBOX_INTERNAL_RELAY_HOST") [];
  ox_internal_relay_port := u16 (env_num (getenv "OUTBOX_INTERNAL_RELAY_PORT") 2525);
  ox_internal_relay_tls := env_or (getenv "OUTBOX_INTERNAL_RELAY_TLS") (bs "implicit");
  ox_internal_relay_user := env_or (getenv "OUTBOX_INTERNAL_RELAY_USER") [];
  ox_internal_relay_pass := env_or (getenv "OUTBOX_INTERNAL_RELAY_PASS") [];
  ox_internal_domains := default [] (domains_parse_into [] <$> nonempty (getenv "OUTBOX_INTERNAL_DOMAINS"));
  ox_domains := domains_parse_into [] (env_or (getenv "OUTBOX_DOMAINS") (bs "jaye.ch,blackarts.tech,jurassicpeak.com"));
  ox_dkim :=
    let l := default [] (dkim_env [] <$> nonempty (getenv "OUTBOX_DKIM")) in
    match nonempty (getenv "OUTBOX_DKIM_DIR") with
    | Some dir => default l (dkim_scan l dir <$> readdir dir)
    | None => l
    end |}.

(** The value after the first occurrence of a flag, in argv from index 1 on. *)
Fixpoint find_arg (args : list bytes) (name : bytes) : option bytes :=
  match args with
  | a :: (v :: _) as t => if beq a name then Some v else find_arg t name
  | _ => None
  end.

(** A numeric flag over the value so far; [None] for a bad value. *)
Definition arg_num (parse : bytes -> option Z) (v : option bytes) (dflt : Z) : option Z :=
  match v with None => Some dflt | Some s => parse s end.

(** The repeatable --dkim. *)
Fixpoint dkim_args (l : list OutboxDkim) (args : list bytes) : option (list OutboxDkim) :=
  match args with
  | a :: (v :: _) as t =>
      if beq a (bs "--dkim") then l ← dkim_parse_one l v; dkim_args l t else dkim_args l t
  | _ => Some l
  end.

Definition config_from_args (c : OutboxConfig) (args : list bytes) : option OutboxConfig :=
  let arg name := find_arg args (bs name) in
  let text name dflt := default dflt (arg name) in
  irp ← arg_num (fun s => parse_port s false) (arg "--internal-relay-port"%string) (ox_internal_relay_port c);
  ip ← arg_num (fun s => parse_port s true) (arg "--implicit-port"%string) (ox_implicit_port c);
  sp ← arg_num (fun s => parse_port s true) (arg "--starttls-port"%string) (ox_starttls_port c);
  dp ← arg_num (fun s => parse_port s false) (arg "--deliver-port"%string) (ox_deliver_port c);
  qj ← arg_num parse_u32 (arg "--queue-max-jobs"%string) (ox_queue_max_jobs c);
  qb ← arg_num parse_u64 (arg "--queue-max-bytes"%string) (ox_queue_max_bytes c);
  mm ← arg_num parse_u32 (arg "--max-msg"%string) (ox_max_msg c);
  ml ← arg_num parse_u32 (arg "--max-line"%string) (ox_max_line c);
  mr ← arg_num parse_u32 (arg "--max-rcpts"%string) (ox_max_rcpts c);
  ct ← arg_num parse_u32 (arg "--cmd-timeout"%string) (ox_cmd_tmo c);
  dt ← arg_num parse_u32 (arg "--data-timeout"%string) (ox_data_tmo c);
  ma ← arg_num parse_u32 (arg "--max-attempts"%string) (ox_max_attempts c);
  dk ← match arg "--dkim-dir"%string with
       | Some dir => dkim_scan (ox_dkim c) dir <$> readdir dir
       | None => Some (ox_dkim c)
       end;
  dk ← dkim_args dk args;
  Some {|
    ox_implicit_addr := text "--implicit-addr"%string (ox_implicit_addr c); ox_implicit_port := ip;
    ox_starttls_addr := text "--starttls-addr"%string (ox_starttls_addr c); ox_starttls_port := sp;
    ox_cert := text "--cert"%string (ox_cert c); ox_key := text "--key"%string (ox_key c);
    ox_passwd := text "--passwd"%string (ox_passwd c);
    ox_domains := match arg "--domains"%string with Some v => domains_parse_into [] v | None => ox_domains c end;
    ox_dkim := dk;
    ox_hostname := text "--hostname"%string (ox_hostname c); ox_spool := text "--spool"%string (ox_spool c);
    ox_max_msg := mm; ox_max_line := ml; ox_max_rcpts := mr; ox_cmd_tmo := ct; ox_data_tmo := dt;
    ox_max_attempts := ma; ox_deliver_port := dp; ox_dns_server := text "--dns-server"%string (ox_dns_server c);
    ox_queue_max_jobs := qj; ox_queue_max_bytes := qb;
    ox_internal_relay_host := text "--internal-relay-host"%string (ox_internal_relay_host c);
    ox_internal_relay_port := irp;
    ox_internal_relay_tls := text "--internal-relay-tls"%string (ox_internal_relay_tls c);
    ox_internal_relay_user := text "--internal-relay-user"%string (ox_internal_relay_user c);
    ox_internal_relay_pass := text "--internal-relay-pass"%string (ox_internal_relay_pass c);
    ox_internal_domains := match arg "--internal-domains"%string with
                           | Some v => domains_parse_into [] v | None => ox_internal_domains c end |}.

(** [outbox_main] up to the credential file: the exit status, or the configuration
    it goes on with. *)
Definition outbox_configure (args : list bytes) : Z + OutboxConfig :=
  let first := hd [] args in
  if negb (length args =? 0)%nat && (beq first (bs "--help") || beq first (bs "-h")) then inl 0
  else if negb (length args =? 0)%nat && beq first (bs "--version") then inl 0
  else match config_from_args config_defaults args with
       | None => inl 2
       | Some c =>
           if negb (length args =? 0)%nat && negb (chd first =? "-"%chr) then inl 2
           else if is_nil (ox_cert c) || is_nil (ox_key c) then inl 1
           else if negb (is_nil (ox_internal_relay_host c)) && negb (smtp_tls_valid (Some (ox_internal_relay_tls c)) =? 0)
           then inl 1
           else inr c
       end.

End Configuration.

(** ** The poll loop *)

Definition OUTBOX_MAX_CONNS : Z := 512.
Definition OUTBOX_MAX_CONNS_PER_IP : Z := 16.

Class BoxMux (H : Host) := {
  ob_poll : host -> list (Z * Z) -> Z -> host * poll_result;
  (** the sockets accepted on a listener until EAGAIN or an error *)
  ob_accept : host -> Z -> host * list (Z * sockaddr);
  ob_wants_write : host -> Z -> bool;
}.

Record ObServer := MkObServer {
  os_conns : list OutboxConn;
  os_listen_starttls : Z;
  os_listen_implicit : Z;
  os_sigpipe : Z;
}.

Definition outbox_count_peer_conns (conns : list OutboxConn) (ip : bytes) : Z :=
  if (length ip =? 0)%nat then 0
  else Z.of_nat (length (List.filter (fun c => (length (ob_ip c) =? length ip)%nat && beq (ob_ip c) ip) conns)).

Definition fresh_conn (fd0 : Z) (implicit_tls : bool) (now : Z) (ip : bytes) (t : option Z) : OutboxConn :=
  MkOutboxConn fd0 false implicit_tls false false None None None OB_ST_INIT OB_AUTH_NONE None [] [] [] 0 [] 0 now ip t [].

Definition outbox_reapable (c : OutboxConn) : bool := ob_closed c && (length (ob_out c) <=? ob_off c)%nat.

(** Destroying a closed connection moves the last one into its place. *)
Fixpoint outbox_reap (fuel i : nat) (conns : list OutboxConn) : list OutboxConn :=
  match fuel with
  | O => conns
  | S fuel' =>
      match conns !! i, last conns with
      | Some c, Some l =>
          if outbox_reapable c then outbox_reap fuel' i (take (length conns - 1) (<[i := l]> conns))
          else outbox_reap fuel' (S i) conns
      | _, _ => conns
      end
  end.

Section Main.
Context {H : Host} {X : BoxMux H} (cfg : OutboxConfig) (creds : list OutboxCred).
Abbreviation lims := (outbox_limits cfg).

(** One accepted socket. *)
Definition outbox_accept_one (implicit_tls : bool) (now : Z) (conns : list OutboxConn) (fd0 : Z) (sa : sockaddr)
  : prog (@Box H) (list OutboxConn) :=
  let busy := bs "421 4.7.0 Too many connections" ++ CRLF in
  let ip := peer_ip_of sa in
  if len conns >=? OUTBOX_MAX_CONNS then
    _ ← on_machine (fun h => sys_send h fd0 busy); mret conns
  else if negb (length ip =? 0)%nat && (outbox_count_peer_conns conns ip >=? OUTBOX_MAX_CONNS_PER_IP) then
    _ ← on_machine (fun h => sys_send h fd0 busy); mret conns
  else if implicit_tls then
    t ← on_machine (fun h => smtp_in_tls_start h fd0);
    mret (match t with None => conns | Some t => conns ++ [fresh_conn fd0 implicit_tls now ip (Some t)] end)
  else
    c ← outbox_conn_reply (fresh_conn fd0 implicit_tls now ip None) (outbox_greeting cfg);
    mret (conns ++ [ob_greet c]).

Fixpoint outbox_server_accept (implicit_tls : bool) (now : Z) (conns : list OutboxConn) (accepted : list (Z * sockaddr))
  : prog (@Box H) (list OutboxConn) :=
  match accepted with
  | [] => mret conns
  | (fd0, sa) :: accepted' =>
      conns ← outbox_accept_one implicit_tls now conns fd0 sa;
      outbox_server_accept implicit_tls now conns accepted'
  end.

(** The wait of [poll_timeout_ms]; 0 once a deadline has passed. *)
Fixpoint outbox_deadlines (conns : list OutboxConn) (now ms : Z) : Z :=
  match conns with
  | [] => ms
  | c :: conns' =>
      let tmo := outbox_conn_timeout cfg c in
      if tmo =? 0 then outbox_deadlines conns' now ms
      else match deadline_ms tmo (ob_act c) now with
           | None => 0
           | Some rms => outbox_deadlines conns' now (sooner ms rms)
           end
  end.

Definition outbox_poll_timeout_ms (conns : list OutboxConn) (now : Z) : Z := outbox_deadlines conns now (-1).

Definition tls_test (h : host) (c : OutboxConn) (f : host -> Z -> bool) : bool :=
  match ob_tls c with Some t => f h t | None => false end.

Definition outbox_events (h : host) (c : OutboxConn) : Z :=
  let pending_out := (ob_off c <? length (ob_out c))%nat in
  if negb (ob_closed c) && tls_test h c smtp_in_tls_handshaking then
    if tls_test h c smtp_in_tls_pending then POLLOUT
    else if tls_test h c ob_wants_write then POLLOUT else POLLIN
  else if ob_closed c then if pending_out then POLLOUT else 0
  else Z.lor (if len (ob_out c) <? OUTBOX_MAX_OUT / 2 then POLLIN else 0) (if pending_out then POLLOUT else 0).

Definition outbox_pollfds (h : host) (srv : ObServer) : list (Z * Z) :=
  (os_listen_starttls srv, POLLIN) ::
  (os_listen_implicit srv, if os_listen_implicit srv >=? 0 then POLLIN else 0) ::
  (os_sigpipe srv, POLLIN) ::
  map (fun c => (ob_fd c, outbox_events h c)) (os_conns srv).

(** Dispatch of a connection; [n] bounds the TLS records drained at once. *)
Definition outbox_dispatch (n : nat) (now : Z) (c : OutboxConn) (rev : Z) : prog (@Box H) OutboxConn :=
  h ← gets bx_host;
  if ob_closed c then if SmtpLoop.has rev POLLOUT then outbox_conn_flush c else mret c
  else if tls_test h c smtp_in_tls_pending then
    if SmtpLoop.has rev POLLOUT then
      c ← outbox_conn_flush c;
      if negb (ob_closed c) && (length (ob_out c) <=? ob_off c)%nat then outbox_tls_advance cfg creds n c now else mret c
    else mret c
  else if tls_test h c smtp_in_tls_handshaking then
    if SmtpLoop.has rev (Z.lor POLLANY POLLOUT) then outbox_tls_advance cfg creds n c now else mret c
  else
    c ← (if SmtpLoop.has rev POLLANY then outbox_conn_readable cfg creds n c now else mret c);
    if negb (ob_closed c) && SmtpLoop.has rev POLLOUT then outbox_conn_flush c else mret c.

(** The connections of before the accepts; the new ones stay as they are. *)
Fixpoint outbox_dispatch_all (n : nat) (now : Z) (conns : list OutboxConn) (revs : list Z) : prog (@Box H) (list OutboxConn) :=
  match conns, revs with
  | c :: conns', rev :: revs' =>
      c ← outbox_dispatch n now c rev;
      conns' ← outbox_dispatch_all n now conns' revs';
      mret (c :: conns')
  | _, _ => mret conns
  end.

Fixpoint outbox_idle_sweep (conns : list OutboxConn) (now : Z) : prog (@Box H) (list OutboxConn) :=
  match conns with
  | [] => mret []
  | c :: conns' => c ← outbox_idle_check cfg c now; conns' ← outbox_idle_sweep conns' now; mret (c :: conns')
  end.

Definition outbox_accept_on (implicit_tls : bool) (now rev fd0 : Z) (conns : list OutboxConn) : prog (@Box H) (list OutboxConn) :=
  if SmtpLoop.has rev POLLIN then
    accepted ← on_machine (fun h => ob_accept h fd0);
    outbox_server_accept implicit_tls now conns accepted
  else mret conns.

(** One turn of [server_poll], [stop] being [g_stop]; [None] when the loop ends. *)
Definition outbox_turn (n : nat) (stop : bool) (srv : ObServer) : prog (@Box H) (ObServer * bool) :=
  now ← on_machine time_now;
  conns ← outbox_idle_sweep (os_conns srv) now;
  let with_conns conns := MkObServer conns (os_listen_starttls srv) (os_listen_implicit srv) (os_sigpipe srv) in
  h ← gets bx_host;
  r ← on_machine (fun h => ob_poll h (outbox_pollfds h (with_conns conns)) (outbox_poll_timeout_ms conns now));
  match r with
  | PollIntr => mret (with_conns conns, negb stop)
  | PollFail => mret (with_conns conns, false)
  | PollReady revs =>
      if SmtpLoop.has (nth 2 revs 0) POLLIN then mret (with_conns conns, false)
      else
        let crevs := take (length conns) (drop 3 revs) in
        conns ← outbox_accept_on false now (nth 0 revs 0) (os_listen_starttls srv) conns;
        conns ← outbox_accept_on true now (nth 1 revs 0) (os_listen_implicit srv) conns;
        conns ← outbox_dispatch_all n now conns crevs;
        mret (with_conns (outbox_reap (S (length conns)) 0 conns), true)
  end.

End Main.
