(* ===== verification/OutboxMainSpec.v ===== *)
(** * Correctness of the outbox daemon

    [box_run] is reachability of the poll thread: turns of the poll loop, between
    which the worker may have changed the queue. On every reachable state the
    submission policy holds for all that was ever queued, every session satisfies
    its invariant, and the connection limits hold; a turn is a sequence of enqueues
    for the delivery system of [OutboxDeliverSpec]. [outbox_configure] only lets
    configurations through that satisfy what these theorems ask. *)

From S2P Require Import Prelude MailLines MailAddr MailHeader SmtpData DlEngine Store StoreSpec StoreTables StoreQueue Reply Json Config Prog SmtpParse SmtpWorld MemHost SmtpQueue SmtpForward SmtpSession SmtpServer SmtpLoop SmtpReply SmtpOut SmtpDialogue SmtpEnds SmtpRelay OutboxAuth OutboxPolicy OutboxDeliver OutboxDeliverSpec OutboxSubmit OutboxSubmitSpec OutboxMain.

(** ** Reaping *)

Lemma reap_sub fuel i conns c : c ∈ outbox_reap fuel i conns -> c ∈ conns.
Proof.
  revert i conns. induction fuel as [|fuel IH]; intros i conns; cbn [outbox_reap]; [done|].
  destruct (conns !! i) as [x|] eqn:Hx; [|done]. destruct (last conns) as [l|] eqn:Hl; [|done].
  destruct (outbox_reapable x); [|apply IH]. intros Hc%IH. apply elem_of_take in Hc as (k & Hk & _).
  apply list_elem_of_lookup_2 in Hk. apply insert_elem in Hk as [->|Hk]; [|done].
  rewrite last_lookup in Hl. by eapply list_elem_of_lookup_2.
Qed.

Lemma reap_perm fuel i conns : exists gone, conns ≡ₚ outbox_reap fuel i conns ++ gone.
Proof.
  revert i conns. induction fuel as [|fuel IH]; intros i conns; cbn [outbox_reap]; [exists []; by rewrite app_nil_r|].
  destruct (conns !! i) as [x|] eqn:Hx; [|exists []; by rewrite app_nil_r].
  destruct (last conns) as [l|] eqn:Hl; [|exists []; by rewrite app_nil_r].
  destruct (outbox_reapable x); [|apply IH]. apply last_Some in Hl as [front ->].
  set (rest := take _ _). destruct (IH i rest) as [gone Hg].
  assert (Hrest : front ++ [l] ≡ₚ rest ++ [x]).
  { subst rest. rewrite length_app. cbn [length]. replace (length front + 1 - 1)%nat with (length front) by lia.
    destruct (Nat.lt_ge_cases i (length front)) as [Hi|Hi].
    - rewrite lookup_app_l in Hx by done. rewrite insert_app_l by done.
      rewrite take_app_length' by (by rewrite length_insert). apply take_drop_middle in Hx as Hm.
      rewrite insert_take_drop by done. rewrite <- Hm at 1. rewrite <- !app_assoc. f_equiv. cbn [app].
      rewrite (Permutation_app_comm _ [l]), (Permutation_app_comm _ [x]). apply Permutation_swap.
    - rewrite lookup_app_r in Hx by done. destruct (i - length front)%nat eqn:Hd; [|done]. injection Hx as ->.
      rewrite insert_app_r_alt, take_app_length by done. done. }
  exists (gone ++ [x]). rewrite Hrest, app_assoc. by apply Permutation_app_tail.
Qed.

(** ** The connection limits *)

Definition peers_of (conns : list OutboxConn) (ip : bytes) : nat :=
  length (List.filter (fun c => (length (ob_ip c) =? length ip)%nat && beq (ob_ip c) ip) conns).

Definition ob_within_limits (conns : list OutboxConn) : Prop :=
  len conns <= OUTBOX_MAX_CONNS /\ forall ip, ip <> [] -> Z.of_nat (peers_of conns ip) <= OUTBOX_MAX_CONNS_PER_IP.

Lemma peers_app a b ip : peers_of (a ++ b) ip = (peers_of a ip + peers_of b ip)%nat.
Proof. unfold peers_of. by rewrite List.filter_app, length_app. Qed.

#[local] Instance peers_proper : Proper (Permutation ==> eq ==> eq) peers_of.
Proof.
  intros a b Hab ip _ <-. unfold peers_of. induction Hab as [|x a b _ IH|x y a|a b c _ IH1 _ IH2]; cbn; try done.
  - destruct (_ && _); cbn; lia.
  - by repeat destruct (_ && _).
  - lia.
Qed.

Lemma limits_reap fuel i conns : ob_within_limits conns -> ob_within_limits (outbox_reap fuel i conns).
Proof.
  intros [Hl Hp]. destruct (reap_perm fuel i conns) as [gone Hg]. split.
  - apply Permutation_length in Hg. rewrite length_app in Hg. lia.
  - intros ip Hip. specialize (Hp ip Hip). rewrite Hg, peers_app in Hp. lia.
Qed.

Lemma limits_same conns conns' : map ob_ip conns = map ob_ip conns' -> ob_within_limits conns -> ob_within_limits conns'.
Proof.
  intros Hm [Hl Hp]. split; [apply (f_equal length) in Hm; rewrite !length_map in Hm; lia|]. intros ip Hip.
  specialize (Hp ip Hip). assert (peers_of conns ip = peers_of conns' ip) as <-; [|done]. clear Hl Hp. unfold peers_of.
  revert conns' Hm. induction conns as [|c conns IH]; intros [|c' conns'] Hm; try done. injection Hm as Hc Hm.
  cbn. rewrite Hc. destruct (_ && _); cbn; by rewrite (IH conns').
Qed.

Lemma limits_add conns c : len conns < OUTBOX_MAX_CONNS ->
  (ob_ip c <> [] -> Z.of_nat (peers_of conns (ob_ip c)) < OUTBOX_MAX_CONNS_PER_IP) ->
  ob_within_limits conns -> ob_within_limits (conns ++ [c]).
Proof.
  intros Hlt Hip [Hl Hp]. split; [rewrite length_app; cbn; lia|]. intros ip Hne. rewrite peers_app. unfold peers_of at 2. cbn.
  destruct (_ && _) eqn:Hm; cbn [length]; [|specialize (Hp ip Hne); lia].
  apply andb_true_iff in Hm as [_ <-%beq_spec]. specialize (Hip Hne). lia.
Qed.

(** ** Turns of the poll loop *)

Section Turns.
Context {H : Host} {X : BoxMux H} (cfg : OutboxConfig) (creds : list OutboxCred).
Context (Hmax : 0 <= ox_max_msg cfg) (Hrcpts : 0 <= ox_max_rcpts cfg) (Hline : 0 <= ox_max_line cfg).
Abbreviation okc := (ok (H := H) cfg creds).

Definition conn_fine (c : OutboxConn) : Prop := ob_ok cfg creds (ob_ip c) c.

(** [c'] is fine and has the peer of [c]. *)
Definition goes_on (c c' : OutboxConn) : Prop := conn_fine c' /\ ob_ip c' = ob_ip c.

Lemma ok_goes_on c m : okc (ob_ok cfg creds (ob_ip c)) m -> okc (goes_on c) m.
Proof.
  intros Hm. eapply ok_mono; [exact Hm|]. intros c' Hc'. assert (Hip : ob_ip c' = ob_ip c) by (by destruct Hc' as [[[] _] _]).
  split; [|done]. unfold conn_fine. by rewrite Hip.
Qed.

Lemma ob_dispatch_ok n now c rev : conn_fine c -> okc (goes_on c) (outbox_dispatch cfg creds n now c rev).
Proof.
  intros Hc. apply ok_goes_on. unfold outbox_dispatch. apply ok_calm; [apply calm_gets|]. intros h.
  destruct (ob_closed c) eqn:Hcl; [destruct (SmtpLoop.has rev POLLOUT); [by apply flush_ok|by apply ok_ret]|].
  destruct (tls_test h c smtp_in_tls_pending).
  { destruct (SmtpLoop.has rev POLLOUT); [|by apply ok_ret]. eapply ok_bind; [by apply flush_ok|]. intros c' Hc'.
    destruct (ob_closed c') eqn:Hcl'; cbn [negb andb]; [by apply ok_ret|].
    destruct (_ <=? _)%nat; [by apply ob_tls_advance_ok|by apply ok_ret]. }
  destruct (tls_test h c smtp_in_tls_handshaking).
  { destruct (SmtpLoop.has rev _); [by apply ob_tls_advance_ok|by apply ok_ret]. }
  apply ok_bind with (ob_ok cfg creds (ob_ip c)).
  { destruct (SmtpLoop.has rev POLLANY); [|by apply ok_ret]. apply readable_ok; try done. intros Hn. congruence. }
  intros c' Hc'. destruct (_ && _); [by apply flush_ok|by apply ok_ret].
Qed.

Lemma goes_refl conns : Forall conn_fine conns -> Forall2 goes_on conns conns.
Proof. induction 1; constructor; [by split|done]. Qed.

Lemma dispatch_all_ok n now conns : forall revs, Forall conn_fine conns ->
  okc (Forall2 goes_on conns) (outbox_dispatch_all cfg creds n now conns revs).
Proof.
  induction conns as [|c conns IH]; intros [|rev revs] Hc; cbn [outbox_dispatch_all]; try (by apply ok_ret, goes_refl).
  apply Forall_cons in Hc as [Hc Hcs]. eapply ok_bind; [by apply ob_dispatch_ok|]. intros c' Hc'.
  eapply ok_bind; [by apply IH|]. intros conns' Hcs'. apply ok_ret. by constructor.
Qed.

Lemma idle_sweep_ok conns now : Forall conn_fine conns -> okc (Forall2 goes_on conns) (outbox_idle_sweep cfg conns now).
Proof.
  induction 1 as [|c conns Hc Hcs IH]; cbn [outbox_idle_sweep]; [by apply ok_ret|].
  eapply ok_bind; [by apply ok_goes_on, ob_idle_check_ok|]. intros c' Hc'. eapply ok_bind; [exact IH|]. intros conns' Hcs'.
  apply ok_ret. by constructor.
Qed.

Definition conns_fine (conns : list OutboxConn) : Prop := Forall conn_fine conns /\ ob_within_limits conns.

Lemma goes_fine conns conns' : Forall2 goes_on conns conns' -> conns_fine conns -> conns_fine conns'.
Proof.
  intros Hg [_ Hl]. split.
  - clear Hl. induction Hg as [|c c' l l' [Hc _] _ IH]; constructor; done.
  - eapply limits_same; [|exact Hl]. clear Hl. induction Hg as [|c c' l l' [_ Hc] _ IH]; cbn; congruence.
Qed.

Lemma fresh_fine fd0 im now ip t : conn_fine (fresh_conn fd0 im now ip t).
Proof.
  pose proof (raw_cap_pos cfg Hmax) as Hr. split; [|intros _; cbn; unfold or_default, SmtpParse.SMTP_MAX_LINE; repeat case_match; done || lia].
  split; [|unfold out_ok, OUTBOX_MAX_OUT; cbn; lia]. split; cbn in *; try done; try lia. by intros [?|?].
Qed.

Lemma ob_accept_one_ok implicit now conns fd0 sa : conns_fine conns ->
  okc conns_fine (outbox_accept_one cfg implicit now conns fd0 sa).
Proof.
  intros Hc. unfold outbox_accept_one.
  destruct (Z.geb_spec (len conns) OUTBOX_MAX_CONNS) as [|Hlt]; [apply ok_calm; [apply calm_machine|]; intros _; by apply ok_ret|].
  set (ip := peer_ip_of sa). destruct (negb (length ip =? 0)%nat && _) eqn:Hfull.
  { apply ok_calm; [apply calm_machine|]. intros _. by apply ok_ret. }
  assert (Hadd : forall c, conn_fine c -> ob_ip c = ip -> conns_fine (conns ++ [c])).
  { intros c Hf Hip. destruct Hc as [Hcs Hl]. split; [apply Forall_app; split; [done|by constructor; [|constructor]]|].
    apply limits_add; [done| |done]. intros Hne. rewrite Hip in Hne |- *.
    apply andb_false_iff in Hfull as [Hfull|Hfull]; [by destruct ip|]. unfold outbox_count_peer_conns in Hfull.
    destruct ip; [done|]. cbn [length Nat.eqb] in Hfull. unfold peers_of. cbn [length] in *. lia. }
  destruct implicit.
  - apply ok_calm; [apply calm_machine|]. intros [t|]; apply ok_ret; [|done]. apply Hadd; [apply fresh_fine|done].
  - eapply ok_bind; [apply reply_replied, fit_short; reflexivity|]. intros c' Hr. apply ok_ret.
    pose proof (replied_ok cfg creds ip _ _ Hr (fresh_fine fd0 false now ip None)) as Hok.
    assert (Hip : ob_ip c' = ip) by (destruct Hr as (Hcore & _); unfold core in Hcore; cbn in Hcore; congruence).
    apply Hadd; [|done]. destruct Hok as [[[] Hout] Hidle]. unfold conn_fine. cbn [ob_ip ob_greet]. rewrite Hip.
    split; [|exact Hidle]. split; [by split|exact Hout].
Qed.

Lemma ob_server_accept_ok implicit now accepted : forall conns, conns_fine conns ->
  okc conns_fine (outbox_server_accept cfg implicit now conns accepted).
Proof.
  induction accepted as [|[fd0 sa] accepted IH]; intros conns Hc; cbn [outbox_server_accept]; [by apply ok_ret|].
  eapply ok_bind; [by apply ob_accept_one_ok|]. intros conns' Hc'. by apply IH.
Qed.

Lemma ob_accept_on_ok implicit now rev fd0 conns : conns_fine conns ->
  okc conns_fine (outbox_accept_on cfg implicit now rev fd0 conns).
Proof.
  intros Hc. unfold outbox_accept_on. destruct (SmtpLoop.has rev POLLIN); [|by apply ok_ret].
  apply ok_calm; [apply calm_machine|]. intros accepted. by apply ob_server_accept_ok.
Qed.

Lemma reap_fine fuel i conns : conns_fine conns -> conns_fine (outbox_reap fuel i conns).
Proof.
  intros [Hc Hl]. split; [|by apply limits_reap]. apply Forall_forall. intros c Hin%reap_sub. by eapply Forall_forall in Hin.
Qed.

Lemma turn_ok n stop srv : conns_fine (os_conns srv) ->
  okc (fun r => conns_fine (os_conns r.1)) (outbox_turn cfg creds n stop srv).
Proof.
  intros Hc. unfold outbox_turn. apply ok_calm; [apply calm_machine|]. intros now.
  eapply ok_bind; [apply idle_sweep_ok, Hc|]. intros conns Hg. pose proof (goes_fine _ _ Hg Hc) as Hc1.
  apply ok_calm; [apply calm_gets|]. intros _. apply ok_calm; [apply calm_machine|].
  intros r; destruct r as [| |revs]; [by apply ok_ret..|]. destruct (SmtpLoop.has _ POLLIN); [by apply ok_ret|].
  eapply ok_bind; [by apply ob_accept_on_ok|]. intros conns2 Hc2. eapply ok_bind; [by apply ob_accept_on_ok|]. intros conns3 Hc3.
  eapply ok_bind; [apply dispatch_all_ok, Hc3|]. intros conns4 Hg4. apply ok_ret. by eapply reap_fine, goes_fine.
Qed.

End Turns.

(** ** The daemon: the poll thread and the delivery worker *)

Definition parcels (subs : list Submission) : list parcel :=
  flat_map (fun s => map (fun r => (su_from s, r, su_queued s)) (su_rcpts s)) subs.

Section Daemon.
Context {H : Host} {X : BoxMux H} {N : Net} {R : Resolver N}.
Context (fuel : nat) (cfg : OutboxConfig) (creds : list OutboxCred) (M : Z).

Record Daemon := MkDaemon {
  d_box : @Box H;
  d_srv : ObServer;
  d_flight : option Job;
  d_worker : @Worker N;
}.

(** The daemon as the delivery system sees it: what was accepted is what the poll
    thread queued. *)
Definition delivery_view (d : Daemon) : @System N :=
  MkSys (bx_queue (d_box d)) (d_flight d) (d_worker d) (parcels (bx_log (d_box d))).

Definition with_queue (q : DeliveryQueue) (b : @Box H) : Box := MkBox (bx_host b) (bx_fails b) q (bx_seq b) (bx_log b).

(** A turn of the poll loop; a step of the worker; the shutdown that follows the
    last turn. *)
Inductive daemon_step : Daemon -> Daemon -> Prop :=
| daemon_turn n stop b srv fl k b' srv' go :
    outbox_turn cfg creds n stop srv b = (b', Some (srv', go)) ->
    daemon_step (MkDaemon b srv fl k) (MkDaemon b' srv' fl k)
| daemon_worker b srv fl k q' fl' k' :
    sys_step fuel cfg M (delivery_view (MkDaemon b srv fl k)) (MkSys q' fl' k' (parcels (bx_log b))) ->
    daemon_step (MkDaemon b srv fl k) (MkDaemon (with_queue q' b) srv fl' k')
| daemon_stop b srv fl k :
    daemon_step (MkDaemon b srv fl k) (MkDaemon (with_queue (outbox_delivery_shutdown (bx_queue b)) b) srv fl k).

(** The state in which the poll loop starts. *)
Definition daemon_start (h : host) (l1 l2 sigpipe : Z) (k : @Worker N) : Daemon :=
  MkDaemon (MkBox h [] (start_queue cfg) 0 []) (MkObServer [] l1 l2 sigpipe) None k.

Definition numbers_ok : Prop := 0 <= ox_max_msg cfg /\ 0 <= ox_max_rcpts cfg /\ 0 <= ox_max_line cfg.

(** Signing adds at most [D] bytes to a message. *)
Definition signing_adds (D : Z) : Prop := forall h msg d sel key h' msg',
  dkim_sign h msg d sel key = (h', Some msg') -> len msg' <= len msg + D.

Lemma step_over (D : Z) b b' : 0 <= D -> signing_adds D -> ol_max_msg (outbox_limits cfg) + D <= M ->
  box_step cfg creds b b' -> forall fl k,
  rtc (sys_step fuel cfg M) (MkSys (bx_queue b) fl k (parcels (bx_log b))) (MkSys (bx_queue b') fl k (parcels (bx_log b'))).
Proof.
  intros HD Hsign HM (subs & -> & Hok & Hq) fl k. revert Hq. generalize (bx_queue b) (bx_log b). clear b.
  induction Hok as [|s subs Hs _ IH]; intros q log Hq; cbn [enqueues] in Hq.
  - rewrite Hq, app_nil_r. apply rtc_refl.
  - destruct Hq as (q1 & He & Hq). eapply rtc_l; [|rewrite cons_middle, app_assoc; by apply IH].
    assert (Hp : parcels (log ++ [s]) = parcels log ++ if 0 =? 0 then map (fun r => (su_from s, r, su_queued s)) (su_rcpts s) else []).
    { unfold parcels. rewrite flat_map_app. cbn. by rewrite app_nil_r. }
    rewrite Hp. apply step_enqueue; [|exact He].
    destruct Hs as [_ _ [_ Hlen] (? & ? & _ & _ & _ & _ & [->|(h & key & _ & Hdk)])]; [lia|].
    destruct (dkim_sign h (su_msg s) _ _ _) as [h' o] eqn:Hds. cbn in Hdk. subst o. apply Hsign in Hds. lia.
Qed.

Definition daemon_inv (d : Daemon) : Prop :=
  Forall (submission_ok (H := H) cfg creds) (bx_log (d_box d)) /\ conns_fine cfg creds (os_conns (d_srv d)).

Lemma turn_steps n stop srv b b' r : numbers_ok -> conns_fine cfg creds (os_conns srv) ->
  outbox_turn cfg creds n stop srv b = (b', Some r) -> box_step cfg creds b b' /\ conns_fine cfg creds (os_conns r.1).
Proof.
  intros (H1 & H2 & H3) Hc Hrun. by apply (wp_use _ _ _ _ _ (turn_ok cfg creds H1 H2 H3 n stop srv Hc b) Hrun).
Qed.

Lemma daemon_step_inv d d' : numbers_ok -> daemon_step d d' -> daemon_inv d -> daemon_inv d'.
Proof.
  intros Hn [n stop b srv fl k b' srv' go Hrun|b srv fl k q' fl' k' Hs|b srv fl k] [Hl Hc]; [|done..].
  apply turn_steps in Hrun as [(subs & Hlog & Hok & _) Hc']; [|done..]. split; [|done].
  cbn [d_box]. rewrite Hlog. by apply Forall_app.
Qed.

Lemma daemon_reached h l1 l2 sp k d : numbers_ok -> rtc daemon_step (daemon_start h l1 l2 sp k) d -> daemon_inv d.
Proof.
  intros Hn Hr. assert (Hi : daemon_inv (daemon_start h l1 l2 sp k)).
  { split; [constructor|]. split; [constructor|]. split; [vm_compute; discriminate|]. intros ip _. cbn. vm_compute. discriminate. }
  revert Hi. induction Hr as [|d1 d2 d3 Hs _ IH]; [done|]. intros Hi. apply IH. by eapply daemon_step_inv.
Qed.

Lemma daemon_simulates (D : Z) d d' : numbers_ok -> 0 <= D -> signing_adds D -> ol_max_msg (outbox_limits cfg) + D <= M ->
  daemon_step d d' -> daemon_inv d -> rtc (sys_step fuel cfg M) (delivery_view d) (delivery_view d').
Proof.
  intros Hn HD Hsign HM [n stop b srv fl k b' srv' go Hrun|b srv fl k q' fl' k' Hs|b srv fl k] [_ Hc].
  - apply turn_steps in Hrun as [Hs _]; [|done..]. by apply (step_over D).
  - by apply rtc_once.
  - apply rtc_once. apply step_shutdown.
Qed.

Lemma daemon_view_reached (D : Z) h l1 l2 sp k d : numbers_ok -> 0 <= D -> signing_adds D ->
  ol_max_msg (outbox_limits cfg) + D <= M -> rtc daemon_step (daemon_start h l1 l2 sp k) d ->
  rtc (sys_step fuel cfg M) (start cfg k) (delivery_view d).
Proof.
  intros Hn HD Hsign HM Hr. change (start cfg k) with (delivery_view (daemon_start h l1 l2 sp k)).
  revert d Hr. refine (rtc_ind_r (fun d => rtc _ _ (delivery_view d)) _ (rtc_refl _ _) _).
  intros y z Hy Hs IH. etrans; [exact IH|]. eapply daemon_simulates; try done. by eapply daemon_reached.
Qed.

End Daemon.

(** ** The configuration *)

Lemma digits_range s : forall v, 0 <= v -> 0 <= (strtoul_digits v s).1.
Proof.
  induction s as [|c s IH]; intros v Hv; cbn [strtoul_digits]; [done|]. destruct (is_digit c) eqn:Hd; [|done]. apply IH.
  unfold is_digit in Hd. cbn in Hd. case_match; unfold ULONG_MAX; cbn; lia.
Qed.

Lemma strtoul_range s : 0 <= (strtoul s).1 <= ULONG_MAX.
Proof.
  unfold strtoul. destruct (match drop_while is_space s with [] => _ | _ => _ end) as [neg d].
  destruct (negb _); [vm_compute; split; discriminate|]. pose proof (digits_range d 0 ltac:(lia)) as Hd.
  destruct (strtoul_digits 0 d) as [v e]. cbn [fst] in *. destruct (Z.gtb_spec v ULONG_MAX); [vm_compute; split; discriminate|].
  destruct neg; [|lia]. unfold u64, ULONG_MAX. pose proof (Z.mod_pos_bound (-v) (2 ^ 64) ltac:(lia)). lia.
Qed.

Definition in_u16 (z : Z) : Prop := 0 <= z <= 65535.
Definition in_u32 (z : Z) : Prop := 0 <= z <= UINT32_MAX.
Definition in_u64 (z : Z) : Prop := 0 <= z <= UINT64_MAX.

Lemma u16_in z : in_u16 (u16 z).
Proof. unfold in_u16, u16. pose proof (Z.mod_pos_bound z (2 ^ 16) ltac:(lia)). lia. Qed.

Lemma u32_in z : in_u32 (u32 z).
Proof. unfold in_u32, u32, UINT32_MAX. pose proof (Z.mod_pos_bound z (2 ^ 32) ltac:(lia)). lia. Qed.

Lemma port_in s z0 n : parse_port s z0 = Some n -> in_u16 n.
Proof.
  unfold parse_port. destruct (is_nil s); [done|]. pose proof (strtoul_range s). destruct (strtoul s) as [v e]. cbn in *.
  destruct (_ || _) eqn:Hb; [done|]. apply orb_false_iff in Hb as [_ Hb]. destruct (_ && _); [done|]. intros [= <-]. unfold in_u16. lia.
Qed.

Lemma num32_in s n : parse_u32 s = Some n -> in_u32 n.
Proof.
  unfold parse_u32. destruct (is_nil s); [done|]. pose proof (strtoul_range s). destruct (strtoul s) as [v e]. cbn in *.
  destruct (_ || _) eqn:Hb; [done|]. apply orb_false_iff in Hb as [_ Hb]. intros [= <-]. unfold in_u32. lia.
Qed.

Lemma num64_in s n : parse_u64 s = Some n -> in_u64 n.
Proof.
  unfold parse_u64. destruct (is_nil s); [done|]. pose proof (strtoul_range s). destruct (strtoul s) as [v e]. cbn in *.
  destruct (negb _); [done|]. intros [= <-]. unfold in_u64, UINT64_MAX, ULONG_MAX in *. lia.
Qed.

Lemma env_in v d : in_u64 d -> in_u64 (env_num v d).
Proof.
  intros Hd. unfold env_num. destruct (nonempty v) as [s|]; [|done]. pose proof (strtoul_range s). destruct (strtoul s) as [n e].
  destruct (negb _); [done|]. unfold in_u64, UINT64_MAX, ULONG_MAX in *. cbn in *. lia.
Qed.

Lemma arg_in (P : Z -> Prop) parse v d n : (forall s k, parse s = Some k -> P k) -> P d -> arg_num parse v d = Some n -> P n.
Proof. intros Hp Hd. destruct v as [s|]; cbn; [apply Hp|]. by intros [= <-]. Qed.

(** The numbers of a configuration are in the ranges of their C types. *)
Definition typed (c : OutboxConfig) : Prop :=
  Forall in_u16 [ox_implicit_port c; ox_starttls_port c; ox_deliver_port c; ox_internal_relay_port c] /\
  Forall in_u32 [ox_max_msg c; ox_max_line c; ox_max_rcpts c; ox_cmd_tmo c; ox_data_tmo c; ox_max_attempts c; ox_queue_max_jobs c] /\
  in_u64 (ox_queue_max_bytes c).

Lemma defaults_typed getenv readdir : typed (config_defaults getenv readdir).
Proof.
  split; [repeat constructor; cbn; apply u16_in|]. split; [repeat constructor; cbn; apply u32_in|]. apply env_in. vm_compute. split; discriminate.
Qed.

Lemma typed_numbers c : typed c -> numbers_ok c.
Proof.
  intros (_ & H & _). repeat match goal with H : Forall _ (_ :: _) |- _ => apply Forall_cons in H as [? H] end.
  unfold numbers_ok, in_u32 in *. lia.
Qed.

Ltac bind_some :=
  match goal with
  | H : (?m ≫= _) = Some _ |- _ => apply bind_Some in H as (?v & ?Hv & H)
  end.

Lemma args_typed readdir c args c' : typed c -> config_from_args readdir c args = Some c' -> typed c'.
Proof.
  intros (H16 & H32 & H64) Hc. unfold config_from_args in Hc. repeat bind_some. injection Hc as <-.
  repeat match goal with H : Forall _ (_ :: _) |- _ => apply Forall_cons in H as [? H] end.
  unfold typed. cbn [ox_implicit_port ox_starttls_port ox_deliver_port ox_internal_relay_port ox_max_msg ox_max_line
    ox_max_rcpts ox_cmd_tmo ox_data_tmo ox_max_attempts ox_queue_max_jobs ox_queue_max_bytes].
  repeat match goal with |- _ /\ _ => split | |- Forall _ _ => constructor end; match goal with
  | H : arg_num _ _ _ = Some ?n |- ?P ?n => eapply (arg_in P); [| |exact H]; cbn beta; eauto using port_in, num32_in, num64_in
  end.
Qed.

(** ** The properties *)

(** The outbox only starts with a configuration it can run with. Whatever the
    environment and the arguments, [outbox_main] ends with status 0, 1 or 2, or goes
    on with every number in the range of its C type (values out of range are
    refused on the command line), a certificate and a key, and, when an internal
    relay is configured, a TLS mode the client knows. *)
Theorem configure_typed (getenv : string -> option bytes) (readdir : bytes -> option (list bytes)) (args : list bytes) :
  match outbox_configure getenv readdir args with
  | inl status => status = 0 \/ status = 1 \/ status = 2
  | inr c => typed c /\ ox_cert c <> [] /\ ox_key c <> [] /\
      (ox_internal_relay_host c <> [] -> smtp_tls_valid (Some (ox_internal_relay_tls c)) = 0)
  end.
Proof.
  unfold outbox_configure. destruct (_ && (_ || _)); [auto|]. destruct (_ && beq _ (bs "--version")); [auto|].
  destruct (config_from_args _ _ _) as [c|] eqn:Hc; [|auto]. apply args_typed in Hc; [|apply defaults_typed].
  destruct (_ && _); [auto|]. destruct (is_nil (ox_cert c) || _) eqn:Hn; [auto|]. apply orb_false_iff in Hn as [Hcert Hkey].
  destruct (_ && _) eqn:Htls; [auto|]. split; [done|]. split; [by destruct (ox_cert c)|]. split; [by destruct (ox_key c)|].
  intros Hh. destruct (ox_internal_relay_host c); [done|]. cbn [is_nil negb andb] in Htls. by apply negb_false_iff, Z.eqb_eq in Htls.
Qed.

(** C2: Every submission has a login behind it. In every reachable state of the daemon
    -- whatever clients connect and send, in whatever order sockets become ready, and
    whatever the delivery worker does -- each message that ever entered the delivery
    queue was submitted in a session that logged in with a user and a password which,
    when the passwords of the table are C strings (as [auth_load_clean] shows for a
    loaded one), is the password of that user's first line in it ([password_of]; a user in no line gets in with the fixed
    dummy password of the source and with no other, the recorded bug), from an allowed
    domain that its From header repeats, to parsed recipients within the limit, clean
    and within the size limit, and is queued as it came or signed with its domain's
    key; every open session satisfies its invariant (logged in only over TLS, a sender
    only when logged in, bounded buffers), and at most 512 connections are open, at
    most 16 per address. *)
Theorem submission_policy {H : Host} {X : BoxMux H} {N : Net} {R : Resolver N} (fuel : nat) (cfg : OutboxConfig)
  (creds : list OutboxCred) (M : Z) (h : host) (l1 l2 sigpipe : Z) (k : @Worker N) (d : @Daemon H N)
  (Hcfg : typed cfg)
  (Hreach : rtc (daemon_step fuel cfg creds M) (daemon_start cfg h l1 l2 sigpipe k) d) :
  Forall (submission_ok (H := H) cfg creds) (bx_log (d_box d)) /\ Forall (conn_fine cfg creds) (os_conns (d_srv d)) /\
  ob_within_limits (os_conns (d_srv d)).
Proof. by apply (daemon_reached fuel cfg creds M h l1 l2 sigpipe k d); [apply typed_numbers|]. Qed.

(** C7: The daemon implements the delivery system. Each step of the daemon is a
    sequence of steps of the system in which submissions are accepted and delivered,
    a turn of its poll loop being the acceptance of what it answered 250 to; so in
    every reachable state each recipient of each message the outbox took has exactly
    one final outcome or is still open in one job. *)
Theorem daemon_refines_delivery {H : Host} {X : BoxMux H} {N : Net} {R : Resolver N} (fuel : nat) (cfg : OutboxConfig)
  (creds : list OutboxCred) (M D : Z) (h : host) (l1 l2 sigpipe : Z) (k : @Worker N) (d : @Daemon H N)
  (Hcfg : typed cfg) (HM : cfg_ok cfg M) (HD : 0 <= D) (Hsign : signing_adds D)
  (Hmax : ol_max_msg (outbox_limits cfg) + D <= M) (Hk : k_log k = [])
  (Hreach : rtc (daemon_step fuel cfg creds M) (daemon_start cfg h l1 l2 sigpipe k) d) :
  (forall d', daemon_step fuel cfg creds M d d' -> rtc (sys_step fuel cfg M) (delivery_view d) (delivery_view d')) /\
  delivered_once cfg (delivery_view d).
Proof.
  pose proof (typed_numbers cfg Hcfg) as Hn. split.
  - intros d' Hs. eapply daemon_simulates; try done. by eapply daemon_reached.
  - apply (sys_inv_reached fuel cfg M k); [done..|]. by eapply daemon_view_reached.
Qed.

(** ** A concrete run *)

(** [MemHost] with TLS that passes bytes through; [mc_relay] is 1 after the handshake. *)
Definition set_tls (v : Z) (h : machine) : machine := MkMachine (mc_now h) (mc_files h) (mc_mtime h) v (mc_input h).

Definition TlsHost : Host := {|
  host := machine; time_now := @time_now MemHost; monotonic_ms := @monotonic_ms MemHost;
  read_urandom := @read_urandom MemHost; sys_mkdir := @sys_mkdir MemHost; write_file := @write_file MemHost;
  write_file_fsync := @write_file_fsync MemHost; read_file := @read_file MemHost; sys_unlink := @sys_unlink MemHost;
  sys_stat := @sys_stat MemHost; sys_readdir := @sys_readdir MemHost; sys_send := @sys_send MemHost;
  sys_recv := @sys_recv MemHost; SmtpWorld.smtp_out_send := @SmtpWorld.smtp_out_send MemHost; dkim_sign := @dkim_sign MemHost;
  auth_results_build := @auth_results_build MemHost;
  smtp_in_tls_available _ := true;
  smtp_in_tls_start h _ := (set_tls 0 h, Some 1);
  smtp_in_tls_prefeed h _ _ := (h, true);
  smtp_in_tls_handshake_step h _ := (set_tls 1 h, 1);
  smtp_in_tls_recv h _ := @sys_recv MemHost h 0;
  smtp_in_tls_send h _ d := (h, [SdOk (length d)]);
  smtp_in_tls_pending _ _ := false;
  smtp_in_tls_handshaking h _ := mc_relay h =? 0;
  smtp_in_tls_established h _ := mc_relay h =? 1;
  inet_pton := @inet_pton MemHost; inet_ntop := @inet_ntop MemHost; file_at := @file_at MemHost;
|}.

(** Everything asked for is ready, but for the signal pipe; the implicit-TLS
    listener has one connection. *)
Definition one_client (h : machine) (fd : Z) : machine * list (Z * sockaddr) :=
  if (fd =? 4) && (mc_mtime h =? 0)
  then (MkMachine (mc_now h) (mc_files h) 1 (mc_relay h) (mc_input h), [(7, AF_INET [9; 9; 9; 9])]) else (h, []).

Definition all_ready (h : machine) (fds : list (Z * Z)) (ms : Z) : machine * poll_result :=
  (h, PollReady (imap (fun i fd => if (i =? 2)%nat then 0 else fd.2) fds)).

#[export] Instance OneClient : BoxMux TlsHost := Build_BoxMux TlsHost all_ready one_client (fun _ _ => false).

Definition client_input : list bytes :=
  [bs "EHLO c" ++ CRLF ++ bs "AUTH PLAIN AHUAcA==" ++ CRLF ++ bs "MAIL FROM:<a@x.org>" ++ CRLF ++ bs "RCPT TO:<b@y.org>" ++ CRLF ++
   bs "DATA" ++ CRLF; bs "From: a@x.org" ++ CRLF ++ CRLF ++ bs "hi" ++ CRLF ++ bs "." ++ CRLF ++ bs "QUIT" ++ CRLF].

Definition box_creds : list OutboxCred := [{| oc_user := bs "u"; oc_pass := bs "p" |}].

Definition box_start : @Daemon TlsHost ScriptNet :=
  daemon_start (H := TlsHost) box_cfg (MkMachine 2000 [] 0 0 client_input) 3 4 5 box_worker.

Definition turn_once (d : @Daemon TlsHost ScriptNet) : Daemon :=
  match outbox_turn box_cfg box_creds 10 false (d_srv d) (d_box d) with
  | (b, Some (srv, _)) => MkDaemon b srv (d_flight d) (d_worker d)
  | _ => d
  end.

Definition box_turned : Daemon := turn_once (turn_once box_start).

Abbreviation daemon_steps := (@daemon_step TlsHost OneClient ScriptNet ScriptResolver 100 box_cfg box_creds 20000) (only parsing).

Definition turn_ends (d : @Daemon TlsHost ScriptNet) : bool :=
  match (outbox_turn box_cfg box_creds 10 false (d_srv d) (d_box d)).2 with Some _ => true | None => false end.

Lemma turn_once_step d : turn_ends d = true -> daemon_steps d (turn_once d).
Proof.
  unfold turn_ends, turn_once. destruct d as [b srv fl k]. cbn [d_srv d_box d_flight d_worker].
  destruct (outbox_turn _ _ _ _ srv b) as [b' [[srv' go]|]] eqn:Ht; [|done]. intros _. by eapply daemon_turn.
Qed.

(** The client logs in, submits a message, and quits. *)
Lemma box_turns : rtc daemon_steps box_start box_turned.
Proof.
  apply (rtc_l _ _ (turn_once box_start)); [|apply (rtc_once (turn_once box_start))]; apply turn_once_step; vm_compute; reflexivity.
Qed.

Lemma box_typed : typed box_cfg.
Proof. repeat constructor; vm_compute; discriminate. Qed.

Lemma box_creds_ok : creds_ok box_creds.
Proof. repeat constructor. rewrite <- has_spec. vm_compute. discriminate. Qed.

Lemma submission_policy_witness :
  map (fun s => (su_user s, su_pass s)) (bx_log (d_box box_turned)) = [(Some (bs "u"), Some (bs "p"))] /\ creds_ok box_creds /\ Forall (submission_ok (H := TlsHost) box_cfg box_creds) (bx_log (d_box box_turned)).
Proof.
  split; [vm_compute; reflexivity|]. split; [exact box_creds_ok|].
  destruct (@submission_policy TlsHost OneClient ScriptNet ScriptResolver 100 box_cfg box_creds 20000
    (MkMachine 2000 [] 0 0 client_input) 3 4 5 box_worker box_turned box_typed box_turns) as [Hp _]. exact Hp.
Defined.

Lemma no_signing : signing_adds (H := TlsHost) 0.
Proof. by intros h msg d sel key h' msg' [=]. Qed.

Lemma daemon_refines_delivery_witness :
  parcels (bx_log (d_box box_turned)) = [(bs "a@x.org", bs "b@y.org", bs "From: a@x.org" ++ CRLF ++ CRLF ++ bs "hi" ++ CRLF)] /\
  delivered_once box_cfg (delivery_view box_turned).
Proof.
  split; [vm_compute; reflexivity|].
  destruct (@daemon_refines_delivery TlsHost OneClient ScriptNet ScriptResolver 100 box_cfg box_creds 20000 0
    (MkMachine 2000 [] 0 0 client_input) 3 4 5 box_worker box_turned box_typed box_cfg_ok ltac:(lia) no_signing
    ltac:(vm_compute; discriminate) eq_refl box_turns) as [_ Hd]. exact Hd.
Defined.
