(* ===== verification/Dkim.v ===== *)
(** * DKIM signing and verification (src/src/dkim.c)

    Relaxed canonicalisation, the selection of the signed fields, the construction
    of the DKIM-Signature field and its verification, and the key cache. The
    vendored mbedtls is the class [Mbed]. dkim.c has its own copies of the header
    scanners of mail.c, statement for statement the same: [skip_line], [header_end]
    and [scan_header] of [MailHeader] serve for both. *)

From S2P Require Import Prelude MailLines MailHeader Prog Json.

(** What dkim.c takes from mbedtls and from the C library; [lib] is the state of
    the random generator and of the file system. *)
Class Mbed := {
  lib : Type;
  pkey : Type;
  sha256 : bytes -> bytes;
  b64_enc : bytes -> bytes;
  b64_dec : bytes -> option bytes;
  ctr_drbg_seed : lib -> lib * Z;
  pk_parse_keyfile : lib -> bytes -> lib * (Z + pkey);
  pk_parse_public : bytes -> Z + pkey;
  pk_is_rsa : pkey -> bool;
  (** PKCS #1 signature of a hash; [None] when the call fails *)
  pk_sign : lib -> pkey -> bytes -> lib * option bytes;
  pk_verify : pkey -> bytes -> bytes -> Z;
  time_of : lib -> lib * Z;
}.

(** ** Relaxed header canonicalisation *)

Fixpoint relax_loop (fuel : nat) (v : bytes) (seen pending : bool) : bytes :=
  match fuel, v with
  | O, _ | _, [] => []
  | S fuel', c :: t =>
      if is_eol c then
        let t := if c =? CR then (eat LF t).2 else t in
        relax_loop fuel' (drop_while is_wsp t) seen (pending || seen)
      else if is_wsp c then relax_loop fuel' t seen (pending || seen)
      else (if pending then [SP] else []) ++ c :: relax_loop fuel' t true false
  end.

(** [relaxed_header]: [colon] is the index of the colon. *)
Definition relaxed_header (hdr : bytes) (colon : nat) : bytes :=
  let v := drop (S colon) hdr in
  lower (take colon hdr) ++ [":"%chr] ++ trim_end is_wsp (relax_loop (length v) v false false).

(** ** Relaxed body canonicalisation, streamed into the hash *)

Definition RELAXED_BODY_FLUSH : Z := 32768.

(** The bytes folded into the hash, the bytes staged, the CRLF pairs owed. *)
Record BodyHash := MkBodyHash { bh_md : bytes; bh_s : bytes; bh_owed : nat }.

Definition bh_reserve (b : BodyHash) (need : nat) : BodyHash :=
  if (len (bh_s b) + Z.of_nat need >? RELAXED_BODY_FLUSH) && negb (is_nil (bh_s b))
  then MkBodyHash (bh_md b ++ bh_s b) [] (bh_owed b) else b.

Definition bh_stage (b : BodyHash) (w : bytes) : BodyHash := MkBodyHash (bh_md b) (bh_s b ++ w) (bh_owed b).

Fixpoint bh_crlf (b : BodyHash) (n : nat) : BodyHash :=
  match n with
  | O => b
  | S n' => bh_crlf (bh_stage (bh_reserve b 2) CRLF) n'
  end.

(** A line up to a CRLF, and what follows it. *)
Fixpoint body_line (s : bytes) : bytes * bytes :=
  match s with
  | [] => ([], [])
  | c :: t =>
      if (c =? CR) && match t with d :: _ => d =? LF | [] => false end then ([], drop 1 t)
      else let '(l, r) := body_line t in (c :: l, r)
  end.

(** The inner loop over the bytes of a line. *)
Fixpoint collapse (l : bytes) (pending : bool) : bytes :=
  match l with
  | [] => []
  | c :: t => if is_wsp c then collapse t true else (if pending then [SP] else []) ++ c :: collapse t false
  end.

Definition line_step (b : BodyHash) (l : bytes) : BodyHash :=
  if is_nil (drop_while is_wsp l) then MkBodyHash (bh_md b) (bh_s b) (S (bh_owed b))
  else
    let b := bh_reserve (bh_crlf b (bh_owed b)) (length l) in
    bh_stage (MkBodyHash (bh_md b) (bh_s b) 1) (collapse l false).

Fixpoint body_loop (fuel : nat) (b : BodyHash) (s : bytes) : BodyHash :=
  match fuel, s with
  | O, _ | _, [] => b
  | S fuel', _ => let '(l, r) := body_line s in body_loop fuel' (line_step b l) r
  end.

(** What [relaxed_body_sha256] hashes. *)
Definition relaxed_body (body : bytes) : bytes :=
  let b := bh_crlf (body_loop (length body) (MkBodyHash [] [] 0) body) 1 in
  bh_md b ++ bh_s b.

(** ** The signed fields *)

Definition signable : list bytes :=
  map bs ["from"; "sender"; "reply-to"; "to"; "cc"; "date"; "subject"; "message-id"; "mime-version"; "content-type";
          "content-transfer-encoding"]%string.

Definition is_signable (name : bytes) : bool := existsb (fun s => ieq s name) signable.

Fixpoint find_blank_loop (fuel : nat) (s : bytes) : bytes * bytes :=
  match fuel, s with
  | O, _ | _, [] => ([], s)
  | S fuel', _ =>
      if starts_eol s then ([], s)
      else let '(l, r) := skip_line s in let '(b, t) := find_blank_loop fuel' r in (l ++ b, t)
  end.

(** [find_blank]: the header block, and the rest from the blank line on. *)
Definition find_blank (msg : bytes) : bytes * bytes := find_blank_loop (length msg) msg.

Record HdrEnt := MkHdr { he_name : bytes; he_raw : bytes }.

Fixpoint scan_fields (fuel : nat) (s : bytes) : list HdrEnt :=
  match fuel, s with
  | O, _ | _, [] => []
  | S fuel', _ =>
      let '(n, h, r) := scan_header s in
      match n with Some name => [MkHdr name h] | None => [] end ++ scan_fields fuel' r
  end.

(** Every field of the header block that has a name. *)
Definition all_fields (msg : bytes) : list HdrEnt := let b := (find_blank msg).1 in scan_fields (length b) b.

Definition DKIM_HDR_NAME : bytes := bs "DKIM-Signature".

(** [collect] *)
Definition collect (msg : bytes) : list HdrEnt :=
  map (fun f => MkHdr (lower (he_name f)) (he_raw f))
    (List.filter (fun f => negb (ieq (he_name f) (bs "dkim-signature")) && is_signable (he_name f)) (all_fields msg)).

Fixpoint htag (h : list HdrEnt) : bytes :=
  match h with
  | [] => []
  | [f] => he_name f
  | f :: h' => he_name f ++ ":"%chr :: htag h'
  end.

(** ** The DKIM-Signature field *)

Definition SIG_MAX : Z := 2048.

Definition build_value (d s : bytes) (t : Z) (bh h bval : bytes) : option bytes :=
  let v := bs "v=1; a=rsa-sha256; c=relaxed/relaxed; d=" ++ d ++ bs "; s=" ++ s ++ bs "; t=" ++ print_u32 t ++
           bs "; bh=" ++ bh ++ bs "; h=" ++ h ++ bs "; b=" ++ bval in
  if len v >=? SIG_MAX then None else Some v.

Definition canon_dkim_hdr (d s : bytes) (t : Z) (bh h bval : bytes) : option bytes :=
  v ← build_value d s t bh h bval;
  Some (relaxed_header (DKIM_HDR_NAME ++ bs ": " ++ v) (length DKIM_HDR_NAME)).

Definition canon_field (f : HdrEnt) : bytes := relaxed_header (he_raw f) (length (he_name f)) ++ CRLF.

Section Dkim.
Context {K : Mbed}.

(** What is hashed for the signature. *)
Definition sign_input (h : list HdrEnt) (d s : bytes) (t : Z) (bh : bytes) : bytes :=
  concat (map canon_field h) ++ default [] (canon_dkim_hdr d s t bh (htag h) []).

Definition body_of (msg : bytes) : bytes := (line_break (find_blank msg).2).2.

Definition dkim_sign_core (msg : bytes) (pk : pkey) (d s : bytes) (t : Z) : prog lib (option bytes) := fun l =>
  let h := collect msg in
  if (length h =? 0)%nat then (l, Some None)
  else
    let bh := b64_enc (sha256 (relaxed_body (body_of msg))) in
    let '(l, sig) := pk_sign l pk (sha256 (sign_input h d s t bh)) in
    (l, Some (sig ← sig; v ← build_value d s t bh (htag h) (b64_enc sig); Some (DKIM_HDR_NAME ++ bs ": " ++ v ++ CRLF))).

(** ** Verification *)

Definition tag_start (prev : option Z) : bool :=
  match prev with None => true | Some c => (c =? ";"%chr) || is_wsp c end.

Fixpoint tag_loop (prev : option Z) (v tag : bytes) : option bytes :=
  match (if tag_start prev then strip_prefix tag v else None) with
  | Some r => Some (take_while (fun c => negb (c =? ";"%chr)) r)
  | None => match v with [] => None | c :: v' => tag_loop (Some c) v' tag end
  end.

Definition tag_get (v : bytes) (tag : string) : option bytes := tag_loop None v (bs tag).

Record Parsed := MkParsed { pa_hnames : list bytes; pa_sig : bytes; pa_raw : bytes }.

Fixpoint split_colon (fuel : nat) (s : bytes) : list bytes :=
  match fuel with
  | O => [s]
  | S fuel' => match cut ":"%chr s with Some (a, b) => a :: split_colon fuel' b | None => [s] end
  end.

(** [b64d] into [sz] bytes *)
Definition b64d (inp : bytes) (sz : nat) : option bytes :=
  out ← b64_dec inp; if (sz <? length out)%nat then None else Some out.

Definition parse_dkim (msg : bytes) : option Parsed :=
  match scan_header msg with
  | (Some name, raw, _) =>
      if negb (ieq name (bs "dkim-signature")) then None
      else
        let v := trim_end is_eol (drop (S (length name)) raw) in
        _ ← tag_get v "d="; _ ← tag_get v "s="; _ ← tag_get v "bh="; _ ← tag_get v "t=";
        hh ← tag_get v "h="; bb ← tag_get v "b=";
        let hh := c_str hh in
        let clean := List.filter (fun c => negb (is_eol c || is_wsp c)) (trim_end is_wsp (c_str bb)) in
        sig ← b64d clean 512;
        Some (MkParsed (split_colon (length hh) hh) sig raw)
  | _ => None
  end.

(** [canon_raw_dkim_hdr]: the loop that empties the values of b= tags. *)
Fixpoint blank_b (fuel : nat) (s : bytes) : bytes :=
  match fuel, s with
  | O, _ | _, [] => s
  | S fuel', c :: s' =>
      let fws c := is_wsp c || is_eol c in
      if c =? ";"%chr then
        match strip_prefix (bs "b=") (drop_while fws s') with
        | Some u =>
            let val := take_while (fun c => negb (c =? ";"%chr)) u in
            c :: take_while fws s' ++ bs "b=" ++ drop (length (trim_end is_wsp val)) val ++
              blank_b fuel' (drop_while (fun c => negb (c =? ";"%chr)) u)
        | None => c :: blank_b fuel' s'
        end
      else c :: blank_b fuel' s'
  end.

Definition canon_raw_dkim_hdr (raw : bytes) : option bytes :=
  let hdr := c_str raw in
  '(a, b) ← cut ":"%chr hdr;
  let fws c := is_wsp c || is_eol c in
  let hdr := a ++ ":"%chr :: take_while fws b ++ blank_b (length b) (drop_while fws b) in
  Some (relaxed_header hdr (length DKIM_HDR_NAME)).

(** The last field with this name, and the others. *)
Fixpoint take_last (name : bytes) (fs : list HdrEnt) : option (HdrEnt * list HdrEnt) :=
  match fs with
  | [] => None
  | f :: fs' =>
      match take_last name fs' with
      | Some (g, rest) => Some (g, f :: rest)
      | None => if ieq (he_name f) name then Some (f, fs') else None
      end
  end.

(** The fields the h= names select, each consumed once. *)
Fixpoint select_fields (names : list bytes) (fs : list HdrEnt) : list HdrEnt :=
  match names with
  | [] => []
  | n :: names' =>
      match take_last n fs with
      | Some (f, fs') => f :: select_fields names' fs'
      | None => select_fields names' fs
      end
  end.

Definition verify_input (msg : bytes) (p : Parsed) : option bytes :=
  cd ← canon_raw_dkim_hdr (pa_raw p);
  Some (concat (map canon_field (select_fields (pa_hnames p) (all_fields msg))) ++ cd).

(** 0 when the signature verifies. *)
Definition dkim_verify_core (msg : bytes) (pk : pkey) : Z :=
  match parse_dkim msg with
  | None => -1
  | Some p =>
      match verify_input msg p with
      | None => -1
      | Some inp => pk_verify pk (sha256 inp) (pa_sig p)
      end
  end.

(** ** The key cache and the entry points *)

(** [g_ready_status] once seeded, and the cached key with its path. *)
Record DkimState := MkDkim { dk_lib : lib; dk_ready : option Z; dk_pk : option (bytes * pkey) }.

Definition on_lib {A} (f : lib -> lib * A) : prog DkimState A := fun g =>
  let '(l, a) := f (dk_lib g) in (MkDkim l (dk_ready g) (dk_pk g), Some a).

Definition in_lib {A} (m : prog lib A) : prog DkimState A := fun g =>
  let '(l, r) := m (dk_lib g) in (MkDkim l (dk_ready g) (dk_pk g), r).

Definition dkim_global_init : prog DkimState Z :=
  r ← gets dk_ready;
  match r with
  | Some r => mret r
  | None =>
      r ← on_lib ctr_drbg_seed;
      _ ← modify (fun g => MkDkim (dk_lib g) (Some r) (dk_pk g));
      mret r
  end.

Definition set_pk (pk : option (bytes * pkey)) : prog DkimState unit := modify (fun g => MkDkim (dk_lib g) (dk_ready g) pk).

Definition dkim_load_pk (key_path : bytes) : prog DkimState (option pkey) :=
  r ← dkim_global_init;
  if negb (r =? 0) then mret None
  else
    cached ← gets dk_pk;
    match (match cached with Some (p, pk) => if beq p key_path then Some pk else None | None => None end) with
    | Some pk => mret (Some pk)
    | None =>
        k ← on_lib (fun l => pk_parse_keyfile l key_path);
        match k with
        | inl _ => _ ← set_pk None; mret None
        | inr pk => if pk_is_rsa pk then _ ← set_pk (Some (key_path, pk)); mret (Some pk) else _ ← set_pk None; mret None
        end
    end.

Definition dkim_sign (msg domain selector key_path : bytes) : prog DkimState (option bytes) :=
  pk ← dkim_load_pk key_path;
  match pk with
  | None => mret None
  | Some pk =>
      t ← on_lib time_of;
      hdr ← in_lib (dkim_sign_core msg pk domain selector (u32 t));
      mret ((fun hdr => hdr ++ msg) <$> hdr)
  end.

Definition dkim_verify (msg key_path : bytes) : prog DkimState Z :=
  pk ← dkim_load_pk key_path;
  mret (match pk with None => -1 | Some pk => dkim_verify_core msg pk end).

Definition dkim_verify_key (msg pem : bytes) : prog DkimState Z :=
  r ← dkim_global_init;
  if negb (r =? 0) then mret r
  else mret (match pk_parse_public pem with
             | inl r => r
             | inr pk => if pk_is_rsa pk then dkim_verify_core msg pk else -2
             end).

End Dkim.
