(* ===== verification/DkimSpec.v ===== *)
(** * Correctness of DKIM

    The canonical forms equal their definitions by words and lines; the streamed
    body hash equals the whole-buffer form; a signature the code makes verifies, when
    no signed field occurs twice. *)

From S2P Require Import Prelude MailLines MailHeader SmtpReply SmtpParse Prog Json OutboxAuth Dkim.

(** ** Canonical headers *)

Definition is_fws (c : Z) : bool := is_eol c || is_wsp c.

Definition spaced (ws : list bytes) : bytes := concat (map (cons SP) ws).

(** Words joined by single spaces. *)
Definition joined (ws : list bytes) : bytes := match ws with [] => [] | w :: ws => w ++ spaced ws end.

(** RFC 6376 3.4.2: the name in lower case, a colon, the words of the value. *)
Definition canonical_header (hdr : bytes) (colon : nat) : bytes :=
  lower (take colon hdr) ++ ":"%chr :: joined (runs is_fws [] (drop (S colon) hdr)).

Lemma runs_words sep s : forall w, Forall (fun c => sep c = false) w ->
  Forall (fun x => x <> [] /\ Forall (fun c => sep c = false) x) (runs sep w s).
Proof.
  induction s as [|c s IH]; intros w Hw; cbn [runs].
  - destruct w; [constructor|]. by constructor; [|constructor].
  - destruct (sep c) eqn:Hc.
    + destruct w; [by apply IH|]. constructor; [done|]. by apply IH.
    + apply IH. apply Forall_app. split; [done|]. by constructor.
Qed.

Lemma joined_last sep ws c : Forall (fun x => x <> [] /\ Forall (fun c => sep c = false) x) ws ->
  last (joined ws) = Some c -> sep c = false.
Proof.
  intros Hws. destruct ws as [|w ws _] using rev_ind; [done|]. apply Forall_app in Hws as [_ Hw].
  apply Forall_inv in Hw as [Hne Hw]. assert (Hl : last (joined (ws ++ [w])) = last w).
  { destruct ws as [|v ws]; cbn; [by rewrite app_nil_r|].
    unfold spaced. rewrite map_app, concat_app. cbn. rewrite app_nil_r, !app_assoc.
    rewrite last_app_r by done. change (SP :: w) with ([SP] ++ w). by rewrite last_app_r. }
  rewrite Hl. intros Hc. eapply Forall_forall in Hw; [exact Hw|]. rewrite last_lookup in Hc. by eapply list_elem_of_lookup_2.
Qed.

Lemma runs_drop sep p s : (forall c, p c = true -> sep c = true) -> runs sep [] (drop_while p s) = runs sep [] s.
Proof.
  intros Hp. rewrite <- (take_drop_while p s) at 2. rewrite runs_seps; [done|].
  eapply Forall_impl; [apply take_while_all|]. auto.
Qed.

Lemma runs_eol t : runs is_fws [] (drop_while is_wsp (eat LF t).2) = runs is_fws [] t.
Proof.
  rewrite runs_drop by (intros c Hc; unfold is_fws; by rewrite Hc, orb_true_r). destruct t as [|c t]; [done|].
  cbn [eat]. destruct (Z.eqb_spec c LF) as [->|]; done.
Qed.

Lemma relax_spec fuel : forall v w,
  (length v <= fuel)%nat ->
  relax_loop fuel v false false = joined (runs is_fws [] v) /\
  relax_loop fuel v true true = spaced (runs is_fws [] v) /\
  (w <> [] -> w ++ relax_loop fuel v true false = joined (runs is_fws w v)).
Proof.
  induction fuel as [|fuel IH]; intros v w Hl.
  { destruct v; [|cbn in Hl; lia]. cbn. repeat split; try done. intros Hw. destruct w; [done|]. cbn. done. }
  destruct v as [|c t]; cbn [relax_loop runs].
  { cbn. repeat split; try done. intros Hw. destruct w; [done|]. cbn. done. }
  cbn [length] in Hl. assert (Hf : is_fws c = is_eol c || is_wsp c) by done. rewrite Hf.
  destruct (is_eol c) eqn:He; cbn [orb].
  - set (t' := drop_while is_wsp _). assert (Ht : (length t' <= fuel)%nat).
    { subst t'. pose proof (drop_while_length is_wsp (if c =? CR then (eat LF t).2 else t)).
      pose proof (eat_length LF t). destruct (c =? CR); lia. }
    assert (Hr : runs is_fws [] t' = runs is_fws [] t).
    { subst t'. destruct (c =? CR); [apply runs_eol|]. apply runs_drop. intros x Hx. unfold is_fws. by rewrite Hx, orb_true_r. }
    destruct (IH t' [] Ht) as (H1 & H2 & _). rewrite H1, H2, Hr. repeat split; try done. intros Hw. by destruct w.
  - destruct (is_wsp c) eqn:Hw.
    + destruct (IH t [] ltac:(lia)) as (H1 & H2 & _). cbn [orb]. rewrite H1, H2. repeat split; try done. intros Hne. by destruct w.
    + destruct (IH t [c] ltac:(lia)) as (_ & _ & H3). specialize (H3 ltac:(done)).
      assert (Hs : c :: relax_loop fuel t true false = joined (runs is_fws [c] t)) by exact H3.
      repeat split.
      * by rewrite Hs.
      * cbn [app]. rewrite Hs. destruct (runs is_fws [c] t) eqn:Hr; [|done].
        exfalso. clear -Hr. assert (H : forall s w, w <> [] -> runs is_fws w s <> []).
        { induction s as [|d s IH]; intros w Hw; cbn; [by destruct w|]. destruct (is_fws d); [by destruct w|]. apply IH. by destruct w. }
        by apply (H t [c]) in Hr.
      * intros Hne. cbn [app]. destruct (IH t (w ++ [c]) ltac:(lia)) as (_ & _ & H4).
        rewrite <- H4 by (by destruct w). by rewrite <- app_assoc.
Qed.

Lemma relaxed_header_eq hdr colon : relaxed_header hdr colon = canonical_header hdr colon.
Proof.
  unfold relaxed_header, canonical_header. cbn zeta. destruct (relax_spec (length (drop (S colon) hdr)) (drop (S colon) hdr) [] ltac:(lia)) as (-> & _).
  rewrite trim_end_id; [done|]. intros c Hc.
  assert (H : is_fws c = false) by (eapply joined_last; [|exact Hc]; by apply runs_words).
  unfold is_fws in H. by apply orb_false_iff in H as [_ ->].
Qed.

(** ** Canonical bodies *)

(** A line: a leading run of white space becomes one space, the words follow. *)
Definition relaxed_line (l : bytes) : bytes :=
  match runs is_wsp [] l with
  | [] => []
  | ws => (if starts_wsp l then [SP] else []) ++ joined ws
  end.

Fixpoint lines_loop (fuel : nat) (s : bytes) : list bytes :=
  match fuel, s with
  | O, _ | _, [] => []
  | S fuel', _ => let '(l, r) := body_line s in l :: lines_loop fuel' r
  end.

(** The lines of a body, ended by CRLF or by the end of the body. *)
Definition body_lines (s : bytes) : list bytes := lines_loop (length s) s.

Fixpoint strip_empty (ls : list bytes) : list bytes :=
  match ls with
  | [] => []
  | l :: ls' => match strip_empty ls' with [] => if is_nil l then [] else [l] | ls'' => l :: ls'' end
  end.

Definition ended (ls : list bytes) : bytes := concat (map (fun l => l ++ CRLF) ls).

(** RFC 6376 3.4.4, except that a body without non-empty lines is CRLF here. *)
Definition canonical_body (s : bytes) : bytes :=
  match strip_empty (map relaxed_line (body_lines s)) with [] => CRLF | ls => ended ls end.

Lemma collapse_spec l : forall w,
  collapse l true = spaced (runs is_wsp [] l) /\
  (w <> [] -> w ++ collapse l false = joined (runs is_wsp w l)).
Proof.
  induction l as [|c l IH]; intros w; cbn [collapse runs]; [split; [done|]; intros Hw; by destruct w; [|cbn; rewrite ?app_nil_r]|].
  destruct (is_wsp c) eqn:Hc.
  - destruct (IH []) as [H1 _]. rewrite H1. split; [done|]. intros Hw. by destruct w.
  - destruct (IH [c]) as [_ H2]. specialize (H2 ltac:(done)). cbn [app] in H2. split.
    + cbn [app]. rewrite H2. destruct (runs is_wsp [c] l) eqn:Hr; [|done].
      exfalso. clear -Hr. assert (H : forall s w, w <> [] -> runs is_wsp w s <> []).
      { induction s as [|d s IH]; intros w Hw; cbn; [by destruct w|]. destruct (is_wsp d); [by destruct w|]. apply IH. by destruct w. }
      by apply (H l [c]) in Hr.
    + intros Hw. cbn [app]. destruct (IH (w ++ [c])) as [_ H4]. rewrite <- H4 by (by destruct w). by rewrite <- app_assoc.
Qed.

Lemma runs_nil sep l : runs sep [] l = [] -> drop_while sep l = [].
Proof.
  intros Hr. rewrite runs_step in Hr. cbn zeta in Hr. destruct (drop_while sep l) as [|c t] eqn:Hd; [done|]. exfalso.
  assert (Hc : sep c = false) by (destruct (drop_while_head sep l) as [H|(c0 & s0 & H & Hc0)]; congruence). cbn [take_while] in Hr. by rewrite Hc in Hr.
Qed.

Lemma collapse_line l : drop_while is_wsp l <> [] -> collapse l false = relaxed_line l.
Proof.
  intros Hl. unfold relaxed_line. destruct (runs is_wsp [] l) as [|x ws] eqn:Hr; [by apply runs_nil in Hr|].
  destruct l as [|c l]; [done|]. cbn [collapse starts_wsp]. destruct (is_wsp c) eqn:Hc.
  - cbn [runs] in Hr. rewrite Hc in Hr. destruct (collapse_spec l []) as [-> _]. by rewrite Hr.
  - cbn [runs] in Hr. rewrite Hc in Hr. destruct (collapse_spec l [c]) as [_ H2]. cbn [app] in *. rewrite H2 by done. by rewrite Hr.
Qed.

Lemma blank_line l : drop_while is_wsp l = [] <-> relaxed_line l = [].
Proof.
  unfold relaxed_line. split.
  - intros Hd. assert (Hr : runs is_wsp [] l = []) by (by rewrite runs_step, Hd). by rewrite Hr.
  - destruct (runs is_wsp [] l) as [|x ws] eqn:Hr; [by intros _; apply runs_nil|]. intros Hj. exfalso.
    pose proof (runs_words is_wsp l [] ltac:(constructor)) as Hw. rewrite Hr in Hw. apply Forall_inv in Hw as [Hx _].
    apply app_eq_nil in Hj as [_ Hj]. cbn in Hj. apply app_eq_nil in Hj as [Hj _]. done.
Qed.

Definition total (b : BodyHash) : bytes := bh_md b ++ bh_s b.

Fixpoint crlfs (n : nat) : bytes := match n with O => [] | S n' => CRLF ++ crlfs n' end.

Lemma reserve_total b n : total (bh_reserve b n) = total b /\ bh_owed (bh_reserve b n) = bh_owed b.
Proof. unfold bh_reserve, total. destruct (_ && _); cbn; [by rewrite app_nil_r|done]. Qed.

Lemma stage_total b w : total (bh_stage b w) = total b ++ w.
Proof. unfold total. cbn. by rewrite app_assoc. Qed.

Lemma crlf_total n : forall b, total (bh_crlf b n) = total b ++ crlfs n /\ bh_owed (bh_crlf b n) = bh_owed b.
Proof.
  induction n as [|n IH]; intros b; cbn [bh_crlf crlfs]; [by rewrite app_nil_r|].
  destruct (IH (bh_stage (bh_reserve b 2) CRLF)) as [H1 H2]. destruct (reserve_total b 2) as [Ht Ho].
  by rewrite H1, H2, stage_total, Ht, <- app_assoc.
Qed.

(** What the loop has staged, and what it owes, after the lines [ls]. *)
Definition staged (ls : list bytes) (b : BodyHash) : Prop :=
  exists front k, map relaxed_line ls = front ++ replicate k [] /\
    match last front with
    | None => total b = [] /\ bh_owed b = k
    | Some l => l <> [] /\ total b ++ CRLF = ended front /\ bh_owed b = S k
    end.

Lemma ended_app a b : ended (a ++ b) = ended a ++ ended b.
Proof. unfold ended. by rewrite map_app, concat_app. Qed.

Lemma ended_blank k : ended (replicate k []) = crlfs k.
Proof. induction k as [|k IH]; [done|]. cbn [replicate]. change (ended ([] :: replicate k [])) with (CRLF ++ ended (replicate k [])). by rewrite IH. Qed.

Lemma step_staged ls b l : staged ls b -> staged (ls ++ [l]) (line_step b l).
Proof.
  intros (front & k & Hm & Hs). unfold line_step. destruct (drop_while is_wsp l) as [|c t] eqn:Hd; cbn [is_nil].
  - exists front, (S k). rewrite map_app, Hm. cbn [map]. rewrite (proj1 (blank_line l) Hd), <- app_assoc, <- replicate_S_end.
    split; [done|]. destruct (last front); cbn; [|naive_solver]. destruct Hs as (H1 & H2 & H3). unfold total in *. cbn. by rewrite H3.
  - assert (Hne : relaxed_line l <> []) by (intros H; apply blank_line in H; congruence).
    exists (front ++ replicate k [] ++ [relaxed_line l]), 0%nat. rewrite map_app, Hm, app_nil_r, <- app_assoc. split; [done|].
    rewrite app_assoc, last_snoc. split; [done|]. split; [|done].
    set (b1 := bh_reserve _ _). assert (Hb1 : total b1 = total b ++ crlfs (bh_owed b)).
    { subst b1. destruct (reserve_total (bh_crlf b (bh_owed b)) (length l)) as [-> _]. apply crlf_total. }
    rewrite collapse_line, stage_total by congruence. change (total (MkBodyHash (bh_md b1) (bh_s b1) 1)) with (total b1).
    rewrite Hb1, !ended_app, ended_blank. unfold ended at 2. cbn [map concat]. rewrite app_nil_r.
    destruct (last front) eqn:Hf.
    + destruct Hs as (_ & He & ->). cbn [crlfs]. rewrite <- He. by rewrite <- !app_assoc.
    + apply last_None in Hf as ->. destruct Hs as [-> ->]. by rewrite <- !app_assoc.
Qed.

Lemma body_line_shorter s : s <> [] -> (length (body_line s).2 < length s)%nat.
Proof.
  induction s as [|c t IH]; [done|]. intros _. cbn [body_line]. destruct (_ && _); cbn [snd].
  - rewrite length_drop. cbn. lia.
  - destruct t as [|d t]; [cbn; lia|]. specialize (IH ltac:(done)). destruct (body_line (d :: t)). cbn [snd length] in *. lia.
Qed.

Lemma loop_staged fuel : forall ls b s, staged ls b -> staged (ls ++ lines_loop fuel s) (body_loop fuel b s).
Proof.
  induction fuel as [|fuel IH]; intros ls b s Hb; cbn [lines_loop body_loop]; [by rewrite app_nil_r|].
  destruct s as [|c t]; [by rewrite app_nil_r|]. destruct (body_line (c :: t)) as [l r].
  rewrite cons_middle, app_assoc. by apply IH, step_staged.
Qed.

Lemma strip_blank front k : strip_empty (front ++ replicate k []) = strip_empty front.
Proof.
  induction front as [|l front IH]; cbn [app strip_empty]; [|by rewrite IH].
  induction k as [|k IH]; [done|]. cbn [replicate strip_empty]. by rewrite IH.
Qed.

Lemma strip_id front l : last front = Some l -> l <> [] -> strip_empty front = front.
Proof.
  intros Hl Hne. induction front as [|x front IH]; [done|]. cbn [strip_empty]. destruct front as [|y front].
  - cbn in *. injection Hl as ->. by destruct l.
  - rewrite IH by done. done.
Qed.

Lemma relaxed_body_eq s : relaxed_body s = canonical_body s.
Proof.
  unfold relaxed_body, canonical_body, body_lines.
  assert (H0 : staged [] (MkBodyHash [] [] 0)) by (exists [], 0%nat; done).
  pose proof (loop_staged (length s) [] _ s H0) as (front & k & Hm & Hs). cbn [app] in Hm. rewrite Hm, strip_blank.
  set (b := body_loop _ _ _) in *. change (bh_md (bh_crlf b 1) ++ bh_s (bh_crlf b 1)) with (total (bh_crlf b 1)).
  destruct (crlf_total 1 b) as [-> _]. cbn [crlfs]. rewrite app_nil_r. destruct (last front) as [l|] eqn:Hf.
  - destruct Hs as (Hne & Ht & _). rewrite (strip_id front l) by done. destruct front; [done|]. exact Ht.
  - apply last_None in Hf as ->. by destruct Hs as [-> _].
Qed.

(** ** Tag lists *)

Definition safe_byte (c : Z) : bool := negb (c =? ";"%chr) && negb (is_fws c) && negb (c =? 0).
Definition safe (s : bytes) : Prop := Forall (fun c => safe_byte c = true) s.

(** A tag list as it stands in the field, each tag after a semicolon and a space. *)
Fixpoint render (tags : list (bytes * bytes)) : bytes :=
  match tags with
  | [] => []
  | (n, x) :: ts => (bs "; " ++ n ++ bs "=" ++ x) ++ render ts
  end.

Definition tag_ok (t : bytes * bytes) : Prop := (safe t.1 /\ "="%chr ∉ t.1 /\ t.1 <> []) /\ safe t.2.

Fixpoint tag_lookup (tags : list (bytes * bytes)) (n : bytes) : option bytes :=
  match tags with
  | [] => None
  | (m, x) :: ts => if beq m n then Some x else tag_lookup ts n
  end.

Lemma tag_loop_start p q v tag : tag_start p = tag_start q -> tag_loop p v tag = tag_loop q v tag.
Proof. intros Hpq. destruct v; cbn [tag_loop]; by rewrite Hpq. Qed.

Lemma safe_not_start c : safe_byte c = true -> tag_start (Some c) = false.
Proof.
  unfold safe_byte, tag_start, is_fws. intros [[H1 H2]%andb_true_iff _]%andb_true_iff.
  apply negb_true_iff in H1, H2. apply orb_false_iff in H2 as [_ ->]. by rewrite H1.
Qed.

(** Inside safe text no tag starts. *)
Lemma tag_skip x y tag : safe x -> forall p, tag_start p = false -> tag_loop p (x ++ y) tag = tag_loop (Some "x"%chr) y tag.
Proof.
  induction 1 as [|c x Hc _ IH]; intros p Hp; cbn [app]; [by apply tag_loop_start|].
  cbn [tag_loop]. rewrite Hp. apply IH. by apply safe_not_start.
Qed.

Lemma prefix_name n m x : "="%chr ∉ n -> "="%chr ∉ m ->
  strip_prefix (n ++ bs "=") (m ++ bs "=" ++ x) = if beq m n then Some x else None.
Proof.
  intros Hn Hm. destruct (beq m n) eqn:Hb.
  - apply beq_spec in Hb as ->. rewrite app_assoc. apply strip_prefix_app.
  - destruct (strip_prefix _ _) as [r|] eqn:Hs; [|done]. apply strip_prefix_spec in Hs. rewrite <- app_assoc in Hs. exfalso.
    assert (Hc : cut "="%chr (m ++ "="%chr :: x) = cut "="%chr (n ++ "="%chr :: r)) by (by f_equal).
    rewrite !cut_app in Hc by done. injection Hc as -> _. by rewrite beq_refl in Hb.
Qed.

Lemma value_end x ts : safe x -> take_while (fun c => negb (c =? ";"%chr)) (x ++ render ts) = x.
Proof.
  intros Hx. rewrite take_while_app_all.
  - destruct ts as [|[n v] ts]; [by rewrite app_nil_r|]. cbn. by rewrite app_nil_r.
  - eapply Forall_impl; [exact Hx|]. intros c. unfold safe_byte. intros [[H _]%andb_true_iff _]%andb_true_iff. exact H.
Qed.

Lemma tag_render tags n p : Forall tag_ok tags -> safe n -> "="%chr ∉ n -> n <> [] -> tag_start p = false ->
  tag_loop p (render tags) (n ++ bs "=") = tag_lookup tags n.
Proof.
  intros Ht Hn Heq Hne. revert p. induction Ht as [|[m x] ts ((Hm & Hmq & Hmne) & Hx) _ IH]; intros p Hp; cbn [fst snd] in *.
  { cbn [render tag_loop]. by rewrite Hp. }
  cbn [render tag_lookup]. change (bs "; " ++ m ++ bs "=" ++ x) with (";"%chr :: SP :: m ++ bs "=" ++ x). cbn [app].
  rewrite <- !app_assoc. cbn [tag_loop]. rewrite Hp. change (tag_start (Some ";"%chr)) with true. cbn match.
  assert (Hsp : strip_prefix (n ++ bs "=") (SP :: m ++ bs "=" ++ x ++ render ts) = None).
  { destruct n as [|c n]; [done|]. apply Forall_inv in Hn. cbn [app strip_prefix]. destruct (Z.eqb_spec c SP) as [->|]; done. }
  rewrite Hsp. destruct (m ++ bs "=" ++ x ++ render ts) as [|c v] eqn:Hv; [by destruct m|].
  cbn [tag_loop]. change (tag_start (Some SP)) with true. cbn match. rewrite <- Hv, prefix_name by done.
  destruct (beq m n); [by rewrite value_end|].
  destruct m as [|c' m]; [done|]. cbn [app] in Hv. injection Hv as -> <-.
  apply Forall_cons in Hm as [Hc Hm].
  assert (Hy : m ++ bs "=" ++ x ++ render ts = (m ++ bs "=" ++ x) ++ render ts) by (by rewrite <- !app_assoc).
  change (tag_loop (Some c) (m ++ bs "=" ++ x ++ render ts) (n ++ bs "=") = tag_lookup ts n). rewrite Hy.
  rewrite tag_skip; [by apply IH| |by apply safe_not_start]. apply Forall_app. split; [done|]. by constructor.
Qed.

(** ** Emptying the b= tag *)

Lemma blank_skip x : safe x -> forall fuel y, (length (x ++ y) <= fuel)%nat ->
  exists fuel', (length y <= fuel')%nat /\ blank_b fuel (x ++ y) = x ++ blank_b fuel' y.
Proof.
  induction 1 as [|c x Hc _ IH]; intros fuel y Hf; [by exists fuel|]. cbn [app length] in *.
  destruct fuel as [|fuel]; [lia|]. destruct (IH fuel y ltac:(lia)) as (f' & Hf' & He). exists f'. split; [done|].
  cbn [blank_b]. unfold safe_byte in Hc. destruct (c =? ";"%chr); [done|]. by rewrite He.
Qed.

Lemma drop_fws_word m x : m <> [] -> safe m ->
  drop_while (fun c => is_wsp c || is_eol c) (SP :: m ++ x) = m ++ x /\ take_while (fun c => is_wsp c || is_eol c) (SP :: m ++ x) = [SP].
Proof.
  intros Hm Hs. destruct m as [|c m]; [done|]. apply Forall_inv in Hs. cbn [app drop_while take_while].
  change (is_wsp SP || is_eol SP) with true. cbn match.
  assert (Hc : is_wsp c || is_eol c = false).
  { unfold safe_byte, is_fws in Hs. rewrite orb_comm. destruct (is_eol c || is_wsp c); [|done]. by rewrite andb_false_r in Hs. }
  by rewrite Hc.
Qed.

(** The value of the last tag, b, goes, with the line end behind it. *)
Lemma blank_render ts x : Forall tag_ok ts -> Forall (fun t => t.1 <> bs "b") ts -> safe x ->
  forall fuel, (length (render (ts ++ [(bs "b", x)]) ++ CRLF) <= fuel)%nat ->
  blank_b fuel (render (ts ++ [(bs "b", x)]) ++ CRLF) = render (ts ++ [(bs "b", [])]).
Proof.
  intros Ht Hb Hx. induction Ht as [|[m v] ts ((Hm & Hmq & Hmne) & Hv) _ IH]; intros fuel Hf; cbn [fst snd app render] in *.
  - rewrite !app_nil_r in *. change ((bs "; " ++ bs "b" ++ bs "=" ++ x) ++ CRLF) with (";"%chr :: SP :: bs "b" ++ bs "=" ++ x ++ CRLF) in *.
    destruct fuel as [|fuel]; [cbn in Hf; lia|]. cbn [blank_b]. change (";"%chr =? ";"%chr) with true. cbn match.
    destruct (drop_fws_word (bs "b") (bs "=" ++ x ++ CRLF) ltac:(done) ltac:(by repeat constructor)) as [-> ->].
    change (bs "b" ++ bs "=" ++ x ++ CRLF) with (bs "b=" ++ x ++ CRLF). rewrite strip_prefix_app.
    assert (Hns : Forall (fun c => negb (c =? ";"%chr) = true) (x ++ CRLF)).
    { apply Forall_app. split; [|by repeat constructor]. eapply Forall_impl; [exact Hx|].
      intros c. unfold safe_byte. intros [[H _]%andb_true_iff _]%andb_true_iff. exact H. }
    rewrite take_while_id, drop_while_nil by done.
    rewrite trim_end_id by (intros c; rewrite last_app_r by done; by intros [= <-]). rewrite drop_all.
    destruct fuel; cbn; done.
  - apply Forall_cons in Hb as [Hmb Hb]. rewrite <- !app_assoc in *.
    change (bs "; " ++ m ++ bs "=" ++ v ++ render (ts ++ [(bs "b", x)]) ++ CRLF) with
      (";"%chr :: SP :: m ++ bs "=" ++ v ++ render (ts ++ [(bs "b", x)]) ++ CRLF) in *.
    destruct fuel as [|fuel]; [cbn in Hf; lia|]. cbn [blank_b]. change (";"%chr =? ";"%chr) with true. cbn match.
    destruct (drop_fws_word m (bs "=" ++ v ++ render (ts ++ [(bs "b", x)]) ++ CRLF) Hmne Hm) as [-> _].
    change (strip_prefix (bs "b=")) with (strip_prefix (bs "b" ++ bs "=")).
    rewrite prefix_name; [|by vm_compute; intros H%list_elem_of_singleton|done].
    destruct (beq m (bs "b")) eqn:Hbe; [by apply beq_spec in Hbe|].
    cbn [length] in Hf. destruct fuel as [|fuel]; [lia|]. cbn [blank_b]. change (SP =? ";"%chr) with false. cbn match.
    set (rest := render (ts ++ [(bs "b", x)]) ++ CRLF) in *.
    assert (Hsv : safe (m ++ bs "=" ++ v)) by (apply Forall_app; split; [done|]; constructor; [done|exact Hv]).
    replace (m ++ bs "=" ++ v ++ rest) with ((m ++ bs "=" ++ v) ++ rest) in * by (by rewrite <- !app_assoc).
    destruct (blank_skip _ Hsv fuel rest ltac:(lia)) as (f' & Hf' & ->). rewrite (IH Hb f' Hf'). by rewrite <- !app_assoc.
Qed.

(** ** Header blocks *)

Lemma find_blank_fuel n : forall m s, (length s <= n)%nat -> (length s <= m)%nat -> find_blank_loop n s = find_blank_loop m s.
Proof.
  induction n as [|n IH]; intros [|m] [|c t] Hn Hm; try done; try (cbn in *; lia). cbn [find_blank_loop].
  destruct (starts_eol (c :: t)); [done|]. pose proof (skip_line_app (c :: t)) as Ha. pose proof (skip_line_progress (c :: t) ltac:(done)) as Hp.
  destruct (skip_line (c :: t)) as [l r]. cbn [fst snd] in *. apply (f_equal length) in Ha. rewrite length_app in Ha.
  destruct l as [|x l]; [done|]. cbn [length] in *. by rewrite (IH m r) by lia.
Qed.

Lemma find_blank_app s : (find_blank s).1 ++ (find_blank s).2 = s.
Proof.
  unfold find_blank. generalize (length s). intros n. revert s. induction n as [|n IH]; intros [|c t]; cbn [find_blank_loop]; try done.
  destruct (starts_eol (c :: t)); [done|]. pose proof (skip_line_app (c :: t)) as Ha. destruct (skip_line (c :: t)) as [l r].
  specialize (IH r). destruct (find_blank_loop n r) as [b u]. cbn in *. by rewrite <- app_assoc, IH.
Qed.

Lemma scan_fields_fuel n : forall m s, (length s <= n)%nat -> (length s <= m)%nat -> scan_fields n s = scan_fields m s.
Proof.
  induction n as [|n IH]; intros [|m] [|c t] Hn Hm; try done; try (cbn in *; lia). cbn [scan_fields].
  destruct (scan_header (c :: t)) as [[nm h] r] eqn:Hs. pose proof (scan_header_progress _ _ _ _ Hs ltac:(done)) as Hp.
  apply scan_header_app, (f_equal length) in Hs. rewrite length_app in Hs. destruct h as [|x h]; [done|]. cbn [length] in *.
  by rewrite (IH m r) by lia.
Qed.

Lemma starts_wsp_prefix a b : starts_wsp (a ++ b) = false -> starts_wsp a = false.
Proof. by destruct a. Qed.

(** The header line in front of a message is its first field. *)
Lemma fields_cons name v msg : Forall (fun c => name_byte c = true) name -> name <> [] -> value_ok v -> starts_wsp msg = false ->
  all_fields (header_line name v ++ msg) = MkHdr name (header_line name v) :: all_fields msg.
Proof.
  intros Hn Hne Hv Hw. unfold all_fields, find_blank.
  assert (Hskip : skip_line (header_line name v ++ msg) = (header_line name v, msg)).
  { change (header_line name v) with (name ++ (":"%chr :: SP :: v) ++ CRLF). rewrite (app_assoc name), <- (app_assoc _ CRLF).
    apply skip_line_shape; [|by right; right; left]. apply Forall_app. split.
    - eapply Forall_impl; [exact Hn|]. intros c. unfold name_byte. by intros [_ H]%andb_true_iff.
    - constructor; [done|]. constructor; [done|]. by apply value_not_eol. }
  destruct name as [|c0 name]; [done|]. set (L := header_line (c0 :: name) v) in *.
  assert (HL : exists L', L = c0 :: L') by (by eexists). destruct HL as [L' HL].
  assert (Heol : starts_eol (L ++ msg) = false).
  { rewrite HL. cbn. apply Forall_inv in Hn. unfold name_byte, not_eol in Hn. apply andb_true_iff in Hn as [_ Hn]. by apply negb_true_iff in Hn. }
  assert (Hb : find_blank_loop (length (L ++ msg)) (L ++ msg) = let '(b, t) := find_blank msg in (L ++ b, t)).
  { rewrite (find_blank_fuel _ (S (length (L ++ msg)))) by lia. rewrite HL at 2. cbn [app find_blank_loop].
    change (c0 :: L' ++ msg) with ((c0 :: L') ++ msg). rewrite <- HL, Heol, Hskip. unfold find_blank.
    by rewrite (find_blank_fuel _ (length msg)) by (rewrite ?length_app; lia). }
  rewrite Hb. fold (find_blank msg). pose proof (find_blank_app msg) as Happ. destruct (find_blank msg) as [b t]. cbn [fst snd] in *.
  rewrite (scan_fields_fuel _ (S (length (L ++ b)))) by lia. rewrite HL at 2. cbn [app scan_fields].
  change (c0 :: L' ++ b) with ((c0 :: L') ++ b). rewrite <- HL. unfold L at 1.
  rewrite header_line_scan; [|done|done|by apply (starts_wsp_prefix b t); rewrite Happ].
  cbn [app]. f_equal. apply scan_fields_fuel; rewrite ?length_app; lia.
Qed.

(** ** Selecting the signed fields *)

Definition picks (f : HdrEnt) : bool := negb (ieq (he_name f) (bs "dkim-signature")) && is_signable (he_name f).

Lemma picks_eq f g : ieq (he_name f) (he_name g) = true -> picks f = picks g.
Proof.
  intros H%ieq_spec. unfold picks, is_signable. f_equal; [f_equal; apply eq_true_iff_eq; by rewrite !ieq_spec, H|].
  generalize signable. intros l. induction l as [|s l IH]; cbn; [done|]. rewrite IH. f_equal. apply eq_true_iff_eq. by rewrite !ieq_spec, H.
Qed.

Lemma take_last_unique a f b n : ieq (he_name f) n = true -> (forall g, g ∈ b -> ieq (he_name g) n = false) ->
  take_last n (a ++ f :: b) = Some (f, a ++ b).
Proof.
  intros Hf Hb. induction a as [|x a IH]; cbn [app take_last]; [|by rewrite IH].
  assert (Hn : take_last n b = None).
  { induction b as [|g b IH]; cbn; [done|]. rewrite IH by (intros; apply Hb; by constructor). by rewrite Hb by constructor. }
  by rewrite Hn, Hf.
Qed.

Lemma filter_split f sel fs : List.filter picks fs = f :: sel ->
  exists a b, fs = a ++ f :: b /\ List.filter picks a = [] /\ List.filter picks b = sel /\ picks f = true.
Proof.
  induction fs as [|x fs IH]; cbn; [done|]. destruct (picks x) eqn:Hx.
  - intros [= -> <-]. by exists [], fs.
  - intros (a & b & -> & Ha & Hb & Hf)%IH. exists (x :: a), b. cbn. by rewrite Hx.
Qed.

Lemma select_all sel : forall fs, List.filter picks fs = sel -> NoDup (map (fun f => lower (he_name f)) sel) ->
  select_fields (map (fun f => lower (he_name f)) sel) fs = sel.
Proof.
  induction sel as [|f sel IH]; intros fs Hfs Hnd; [done|]. cbn [map select_fields].
  destruct (filter_split _ _ _ Hfs) as (a & b & -> & Ha & Hb & Hf). apply NoDup_cons in Hnd as [Hnin Hnd].
  rewrite (take_last_unique a f b).
  - f_equal. apply IH; [|done]. by rewrite List.filter_app, Ha, Hb.
  - apply ieq_spec. by rewrite lower_idem.
  - intros g Hg. apply not_true_iff_false. intros Hi. apply Hnin. apply ieq_spec in Hi. rewrite lower_idem in Hi.
    rewrite <- Hi. apply list_elem_of_In, in_map_iff. exists g. split; [done|]. rewrite <- Hb. apply filter_In.
    split; [by apply list_elem_of_In|]. rewrite <- Hf. apply picks_eq. by apply ieq_spec.
Qed.

(** The names that are signed: in lower case, safe, without a colon. *)
Lemma signed_name f : picks f = true -> lower (he_name f) ∈ signable.
Proof.
  intros [_ H]%andb_true_iff. apply existsb_exists in H as (s & Hin & Hs%ieq_spec). rewrite <- Hs.
  apply list_elem_of_In. assert (Hl : lower s = s); [|by rewrite Hl].
  revert s Hin Hs. assert (Hall : Forall (fun s => lower s = s) signable) by (repeat constructor).
  intros s Hin _. rewrite List.Forall_forall in Hall. by apply Hall.
Qed.

Definition name_safe (n : bytes) : bool := forallb (fun c => safe_byte c && negb (c =? ":"%chr)) n && negb (is_nil n).

Lemma signable_safe n : n ∈ signable -> name_safe n = true.
Proof.
  assert (Hall : forallb name_safe signable = true) by (vm_compute; reflexivity).
  intros Hn. rewrite forallb_forall in Hall. apply Hall. by apply list_elem_of_In.
Qed.

(** ** A signature and its verification *)

Definition sig_tags (d s : bytes) (t : Z) (bh h : bytes) : list (bytes * bytes) :=
  [(bs "v", bs "1"); (bs "a", bs "rsa-sha256"); (bs "c", bs "relaxed/relaxed"); (bs "d", d); (bs "s", s);
   (bs "t", print_u32 t); (bs "bh", bh); (bs "h", h)].

Lemma build_value_render d s t bh h b v : build_value d s t bh h b = Some v ->
  ";"%chr :: SP :: v = render (sig_tags d s t bh h ++ [(bs "b", b)]) /\ len v < SIG_MAX.
Proof.
  unfold build_value. destruct (Z.geb_spec (len (bs "v=1; a=rsa-sha256; c=relaxed/relaxed; d=" ++ d ++ bs "; s=" ++ s ++ bs "; t=" ++ print_u32 t ++
           bs "; bh=" ++ bh ++ bs "; h=" ++ h ++ bs "; b=" ++ b)) SIG_MAX) as [|Hl]; [done|]. intros [= <-]. split; [|exact Hl].
  cbn [sig_tags app render]. rewrite app_nil_r, <- !app_assoc. reflexivity.
Qed.

Lemma safe_app a b : safe a -> safe b -> safe (a ++ b).
Proof. intros. by apply Forall_app. Qed.

Lemma print_safe t : safe (print_u32 (u32 t)).
Proof.
  destruct (print_u32_numeral (u32 t) (u32_range t)) as (Hd & _). eapply Forall_impl; [exact Hd|].
  intros c Hc. unfold is_digit in Hc. unfold safe_byte, is_fws, is_eol, is_wsp. cbn in *. lia.
Qed.

(** What the laws of mbedtls say: a signature verifies under the public half of its
    key, its size is that of the key, at most 512 bytes; base64 decodes what it
    encodes and uses its alphabet; an error code is not 0. *)
Class MbedLaws (K : Mbed) := {
  key_pair : pkey -> pkey -> Prop;
  sign_verify l sk pk h l' sig : key_pair sk pk -> pk_sign l sk h = (l', Some sig) -> pk_verify pk h sig = 0;
  sign_size l sk h l' sig : pk_sign l sk h = (l', Some sig) -> bytes_ok sig /\ (length sig <= 512)%nat;
  hash_bytes s : bytes_ok (sha256 s) /\ (length (sha256 s) <= 512)%nat;
  dec_enc x : bytes_ok x -> (length x <= 512)%nat -> b64_dec (b64_enc x) = Some x;
  enc_safe x : bytes_ok x -> safe (b64_enc x);
  parse_error pem r : pk_parse_public pem = inl r -> r <> 0;
}.

Section Signature.
Context {K : Mbed} {KL : MbedLaws K}.

Definition tag_name_ok (n : bytes) : bool :=
  forallb safe_byte n && forallb (fun c => negb (c =? "="%chr)) n && negb (is_nil n).

Lemma tag_ok_name n x : tag_name_ok n = true -> safe x -> tag_ok (n, x).
Proof.
  intros [[H1 H2]%andb_true_iff H3]%andb_true_iff Hx. split; [|exact Hx]. cbn [fst]. apply forallb_Forall in H1, H2.
  split; [exact H1|]. split; [|by destruct n]. intros He. eapply Forall_forall in H2; [|exact He]. done.
Qed.

Lemma safe_const x : forallb safe_byte x = true -> safe x.
Proof. intros H%forallb_Forall. exact H. Qed.

Lemma tag_nodes d s t bh h : safe d -> safe s -> safe bh -> safe h -> Forall tag_ok (sig_tags d s (u32 t) bh h).
Proof.
  intros Hd Hs Hbh Hh. pose proof (print_safe t). unfold sig_tags.
  repeat (apply Forall_cons; split; [apply tag_ok_name; [reflexivity|first [assumption|by apply safe_const]]|]). constructor.
Qed.

Lemma collect_picks msg : collect msg = map (fun f => MkHdr (lower (he_name f)) (he_raw f)) (List.filter picks (all_fields msg)).
Proof. done. Qed.

Lemma collect_names msg : Forall (fun f => name_safe (he_name f) = true) (collect msg).
Proof.
  rewrite collect_picks. apply Forall_forall. intros f Hf%list_elem_of_In%in_map_iff. destruct Hf as (g & <- & Hg).
  apply filter_In in Hg as [_ Hg]. cbn [he_name]. by apply signable_safe, signed_name.
Qed.

Lemma htag_safe h : Forall (fun f => name_safe (he_name f) = true) h -> safe (htag h).
Proof.
  assert (Hn : forall f, name_safe (he_name f) = true -> safe (he_name f)).
  { intros f [Hf _]%andb_true_iff. apply forallb_Forall in Hf. eapply Forall_impl; [exact Hf|]. intros c. cbn. by intros [H _]%andb_true_iff. }
  induction 1 as [|f h Hf Hh IH]; cbn [htag]; [constructor|]. destruct h; [by apply Hn|].
  apply safe_app; [by apply Hn|]. by constructor.
Qed.

Lemma split_htag h : h <> [] -> Forall (fun f => name_safe (he_name f) = true) h ->
  forall n, (length (htag h) <= n)%nat -> split_colon n (htag h) = map he_name h.
Proof.
  intros Hne Hh. assert (Hn : forall f, name_safe (he_name f) = true -> ":"%chr ∉ he_name f).
  { intros f [Hf _]%andb_true_iff Hc. apply forallb_Forall in Hf. eapply Forall_forall in Hf; [|exact Hc]. done. }
  induction Hh as [|f h Hf Hh IH]; [done|]. intros n Hl. cbn [htag map] in *. destruct h as [|g h].
  - destruct n as [|n]; cbn [split_colon]; [done|]. by rewrite cut_none by (by apply Hn).
  - destruct n as [|n]; [rewrite length_app in Hl; cbn in Hl; lia|]. cbn [split_colon]. rewrite cut_app by (by apply Hn).
    rewrite IH; [done|done|]. rewrite length_app in Hl. cbn [length] in Hl. lia.
Qed.

Lemma safe_c_str x : safe x -> c_str x = x.
Proof. intros Hx. apply c_str_clean. intros H0. eapply Forall_forall in Hx; [|exact H0]. done. Qed.

Lemma safe_no_ws x : safe x -> trim_end is_wsp x = x /\ List.filter (fun c => negb (is_eol c || is_wsp c)) x = x.
Proof.
  intros Hx. assert (Hc : Forall (fun c => is_eol c || is_wsp c = false) x).
  { eapply Forall_impl; [exact Hx|]. intros c. unfold safe_byte, is_fws. by intros [[_ H]%andb_true_iff _]%andb_true_iff; apply negb_true_iff in H. }
  split.
  - apply trim_end_id. intros c Hl. rewrite last_lookup in Hl. apply list_elem_of_lookup_2 in Hl.
    eapply Forall_forall in Hc; [|exact Hl]. by apply orb_false_iff in Hc as [_ ->].
  - induction Hc as [|c x Hc' _ IH]; [done|]. cbn. rewrite Hc'. cbn. f_equal. apply IH. by apply Forall_inv_tail in Hx.
Qed.

(** The text of a signature field has no line break and no NUL. *)
Lemma render_clean ts : Forall tag_ok ts -> Forall (fun c => is_eol c = false /\ c <> 0) (render ts).
Proof.
  assert (Hs : forall x, safe x -> Forall (fun c => is_eol c = false /\ c <> 0) x).
  { intros x Hx. eapply Forall_impl; [exact Hx|]. intros c. unfold safe_byte, is_fws.
    intros [[_ H1]%andb_true_iff H2]%andb_true_iff. apply negb_true_iff in H1, H2. apply orb_false_iff in H1 as [H1 _].
    split; [done|]. by apply Z.eqb_neq. }
  induction 1 as [|[n x] ts ((Hn & _) & Hx) _ IH]; cbn [render fst snd] in *; [constructor|].
  apply Forall_app. split; [|done]. repeat (apply Forall_app; split); try (by apply Hs); by repeat constructor.
Qed.

Lemma build_value_shrinks d s t bh h b v : build_value d s t bh h b = Some v -> exists v0, build_value d s t bh h [] = Some v0.
Proof.
  unfold build_value. rewrite app_nil_r, !app_assoc.
  match goal with |- (if len (?p ++ b) >=? _ then _ else _) = _ -> _ => set (x := p) end.
  destruct (Z.geb_spec (len (x ++ b)) SIG_MAX) as [|Hl]; [done|]. intros _.
  destruct (Z.geb_spec (len x) SIG_MAX) as [Hg|]; [|by eexists]. rewrite length_app in Hl. lia.
Qed.

Definition all_tags (d s : bytes) (t : Z) (bh h b : bytes) : list (bytes * bytes) := sig_tags d s t bh h ++ [(bs "b", b)].

(** The value of the field the code writes: its tags, without a line break or a NUL. *)
Lemma signature_value d s t bh h b v : safe d -> safe s -> safe bh -> safe h -> safe b ->
  build_value d s (u32 t) bh h b = Some v ->
  ";"%chr :: SP :: v = render (all_tags d s (u32 t) bh h b) /\ Forall tag_ok (all_tags d s (u32 t) bh h b) /\ value_ok v /\ 0 ∉ v /\ len v < SIG_MAX.
Proof.
  intros Hd Hs Hbh Hh Hb [Hr Hl]%build_value_render. fold (all_tags d s (u32 t) bh h b) in Hr. split; [exact Hr|].
  assert (Hok : Forall tag_ok (all_tags d s (u32 t) bh h b)).
  { apply Forall_app. split; [by apply tag_nodes|]. constructor; [by apply tag_ok_name|constructor]. }
  pose proof (render_clean _ Hok) as Hc. rewrite <- Hr in Hc. do 2 apply Forall_inv_tail in Hc.
  split; [done|]. assert (Hn : forall c, is_eol c = true \/ c = 0 -> c ∉ v).
  { intros c Hc' Hin. eapply Forall_forall in Hc; [|exact Hin]. destruct Hc as [Hc1 Hc2], Hc'; congruence. }
  split; [split; apply has_false, Hn; by left|]. split; [apply Hn; by right|exact Hl].
Qed.

Lemma all_tags_get d s t bh h b v n : safe d -> safe s -> safe bh -> safe h -> safe b ->
  build_value d s (u32 t) bh h b = Some v -> tag_name_ok n = true ->
  tag_loop None (SP :: v) (n ++ bs "=") = tag_lookup (all_tags d s (u32 t) bh h b) n.
Proof.
  intros Hd Hs Hbh Hh Hb Hv Hn. destruct (signature_value _ _ _ _ _ _ _ Hd Hs Hbh Hh Hb Hv) as (Hr & Hok & _).
  apply (tag_ok_name n []) in Hn as [(Hn1 & Hn2 & Hn3) _]; [|constructor]. cbn [fst] in *.
  rewrite <- (tag_render _ n (Some "x"%chr) Hok Hn1 Hn2 Hn3) by done. rewrite <- Hr.
  change (tag_loop (Some "x"%chr) (";"%chr :: SP :: v) (n ++ bs "=")) with (tag_loop (Some ";"%chr) (SP :: v) (n ++ bs "=")).
  by apply tag_loop_start.
Qed.

Lemma dkim_name_ok : Forall (fun c => name_byte c = true) DKIM_HDR_NAME.
Proof. apply forallb_Forall. reflexivity. Qed.

(** What a field built from tags parses to. *)
Lemma parse_signature d s t bh h sig v msg : safe d -> safe s -> safe bh -> h <> [] -> Forall (fun f => name_safe (he_name f) = true) h ->
  bytes_ok sig -> (length sig <= 512)%nat -> build_value d s (u32 t) bh (htag h) (b64_enc sig) = Some v -> starts_wsp msg = false ->
  parse_dkim (header_line DKIM_HDR_NAME v ++ msg) = Some (MkParsed (map he_name h) sig (header_line DKIM_HDR_NAME v)).
Proof.
  intros Hd Hs Hbh Hne Hh Hsig Hlen Hv Hw. pose proof (htag_safe h Hh) as Hth. pose proof (enc_safe sig Hsig) as Hb.
  pose proof (signature_value _ _ _ _ _ _ _ Hd Hs Hbh Hth Hb Hv) as (_ & _ & Hvo & _).
  unfold parse_dkim. rewrite header_line_scan by (done || apply dkim_name_ok).
  change (ieq DKIM_HDR_NAME (bs "dkim-signature")) with true. cbn [negb].
  assert (Htrim : trim_end is_eol (drop (S (length DKIM_HDR_NAME)) (header_line DKIM_HDR_NAME v)) = SP :: v).
  { change (drop (S (length DKIM_HDR_NAME)) (header_line DKIM_HDR_NAME v)) with ((SP :: v) ++ CRLF).
    rewrite trim_end_all by (by repeat constructor). apply trim_end_id. intros c Hc. rewrite last_lookup in Hc.
    apply list_elem_of_lookup_2, elem_of_cons in Hc as [->|Hc]; [done|]. apply value_not_eol in Hvo.
    eapply Forall_forall in Hvo; [|exact Hc]. unfold not_eol in Hvo. by apply negb_true_iff in Hvo. }
  rewrite Htrim. unfold tag_get.
  assert (Hget : forall n, tag_name_ok n = true ->
    tag_loop None (SP :: v) (n ++ bs "=") = tag_lookup (all_tags d s (u32 t) bh (htag h) (b64_enc sig)) n) by (intros; by apply all_tags_get).
  change (bs "d=") with (bs "d" ++ bs "="). change (bs "s=") with (bs "s" ++ bs "="). change (bs "bh=") with (bs "bh" ++ bs "=").
  change (bs "t=") with (bs "t" ++ bs "="). change (bs "h=") with (bs "h" ++ bs "="). change (bs "b=") with (bs "b" ++ bs "=").
  rewrite !Hget by reflexivity.
  assert (Hlook : forall b, tag_lookup (all_tags d s (u32 t) bh (htag h) b) (bs "d") = Some d /\
    tag_lookup (all_tags d s (u32 t) bh (htag h) b) (bs "s") = Some s /\ tag_lookup (all_tags d s (u32 t) bh (htag h) b) (bs "bh") = Some bh /\
    tag_lookup (all_tags d s (u32 t) bh (htag h) b) (bs "t") = Some (print_u32 (u32 t)) /\
    tag_lookup (all_tags d s (u32 t) bh (htag h) b) (bs "h") = Some (htag h) /\
    tag_lookup (all_tags d s (u32 t) bh (htag h) b) (bs "b") = Some b) by (repeat split; reflexivity).
  destruct (Hlook (b64_enc sig)) as (-> & -> & -> & -> & -> & ->). cbn [mbind option_bind].
  rewrite !safe_c_str by done. destruct (safe_no_ws _ Hb) as [-> ->]. unfold b64d. rewrite dec_enc by done. cbn [mbind option_bind].
  destruct (Nat.ltb_spec 512 (length sig)); [lia|]. cbn [mbind option_bind]. by rewrite split_htag.
Qed.

Lemma blank_first n v : blank_b (S (S n)) (";"%chr :: SP :: "v"%chr :: v) = ";"%chr :: SP :: blank_b n ("v"%chr :: v).
Proof. done. Qed.

(** The field as verification hashes it: the one that was signed. *)
Lemma canon_raw_signature d s t bh h b v : safe d -> safe s -> safe bh -> safe h -> safe b ->
  build_value d s (u32 t) bh h b = Some v ->
  canon_raw_dkim_hdr (header_line DKIM_HDR_NAME v) = canon_dkim_hdr d s (u32 t) bh h [].
Proof.
  intros Hd Hs Hbh Hh Hb Hv. destruct (signature_value _ _ _ _ _ _ _ Hd Hs Hbh Hh Hb Hv) as (Hr & Hok & _ & H0 & _).
  destruct (build_value_shrinks _ _ _ _ _ _ _ Hv) as [v0 Hv0]. unfold canon_dkim_hdr. rewrite Hv0.
  apply build_value_render in Hv0 as [Hr0 _]. unfold canon_raw_dkim_hdr. rewrite c_str_clean.
  2:{ change (header_line DKIM_HDR_NAME v) with ((DKIM_HDR_NAME ++ [":"%chr; SP]) ++ v ++ CRLF).
      rewrite !not_elem_of_app. repeat split; [apply has_false; reflexivity..|done|apply has_false; reflexivity]. }
  change (header_line DKIM_HDR_NAME v) with (DKIM_HDR_NAME ++ ":"%chr :: SP :: v ++ CRLF).
  rewrite cut_app by (apply has_false; reflexivity). cbn [mbind option_bind].
  assert (Hfws : exists v', v = "v"%chr :: v'). { cbn [all_tags sig_tags app render] in Hr. rewrite <- !app_assoc in Hr. injection Hr as ->. by eexists. }
  destruct Hfws as [v' Hv'].
  assert (Htd : take_while (fun c => is_wsp c || is_eol c) (SP :: v ++ CRLF) = [SP] /\
    drop_while (fun c => is_wsp c || is_eol c) (SP :: v ++ CRLF) = v ++ CRLF) by (by rewrite Hv').
  destruct Htd as [-> ->]. do 3 f_equal. change (bs ": " ++ v0) with (":"%chr :: SP :: v0). do 2 f_equal.
  set (n := length _). apply (inj (cons SP)), (inj (cons ";"%chr)). rewrite Hr0.
  assert (Hb' : ";"%chr :: SP :: blank_b n (v ++ CRLF) = blank_b (S (S n)) (render (all_tags d s (u32 t) bh h b) ++ CRLF)).
  { rewrite <- Hr, Hv'. cbn [app]. by rewrite blank_first. }
  transitivity (";"%chr :: SP :: blank_b n (v ++ CRLF)); [done|]. rewrite Hb'. unfold all_tags. apply blank_render.
  - apply Forall_app in Hok as [Hok _]. exact Hok.
  - repeat (apply Forall_cons; split; [discriminate|]). constructor.
  - done.
  - fold (all_tags d s (u32 t) bh h b). rewrite <- Hr. unfold n. cbn [length app]. lia.
Qed.

Lemma canon_lower f : canon_field (MkHdr (lower (he_name f)) (he_raw f)) = canon_field f.
Proof. unfold canon_field. cbn [he_name he_raw]. unfold lower at 1. by rewrite length_map. Qed.

(** The fields that are signed are the fields that verification selects. *)
Lemma select_signed msg v : value_ok v -> starts_wsp msg = false -> NoDup (map he_name (collect msg)) ->
  map canon_field (select_fields (map he_name (collect msg)) (all_fields (header_line DKIM_HDR_NAME v ++ msg))) = map canon_field (collect msg).
Proof.
  intros Hv Hw Hnd. rewrite fields_cons by (done || apply dkim_name_ok). set (F := MkHdr _ _ :: _).
  assert (Hf : List.filter picks F = List.filter picks (all_fields msg)) by done.
  rewrite collect_picks in *. rewrite map_map in *. cbn [he_name] in *. rewrite <- Hf in *. rewrite select_all by done.
  rewrite map_map. apply map_ext. intros f. symmetry. apply canon_lower.
Qed.

(** What [dkim_sign_core] writes verifies under the public key. *)
Lemma core_verifies msg sk pk d s t l l' hdr : key_pair sk pk -> safe d -> safe s -> starts_wsp msg = false ->
  NoDup (map he_name (collect msg)) -> dkim_sign_core msg sk d s (u32 t) l = (l', Some (Some hdr)) ->
  dkim_verify_core (hdr ++ msg) pk = 0.
Proof.
  intros Hk Hd Hs Hw Hnd. unfold dkim_sign_core. destruct (Nat.eqb_spec (length (collect msg)) 0) as [|Hne]; [done|].
  assert (Hcol : collect msg <> []) by (by intros E; rewrite E in Hne). set (bh := b64_enc _).
  assert (Hbh : safe bh) by (apply enc_safe, hash_bytes).
  destruct (pk_sign _ _ _) as [l2 [sig|]] eqn:Hsig; cbn [mbind option_bind]; [|done].
  destruct (sign_size _ _ _ _ _ Hsig) as [Hok Hsz].
  destruct (build_value _ _ _ _ _ _) as [v|] eqn:Hv; cbn [mbind option_bind]; [|done]. intros Hout.
  assert (hdr = header_line DKIM_HDR_NAME v) as -> by (change (header_line DKIM_HDR_NAME v) with (DKIM_HDR_NAME ++ bs ": " ++ v ++ CRLF); congruence).
  pose proof (collect_names msg) as Hn. pose proof (htag_safe _ Hn) as Hh. pose proof (enc_safe _ Hok) as Hb.
  pose proof (signature_value _ _ _ _ _ _ _ Hd Hs Hbh Hh Hb Hv) as (_ & _ & Hvo & _).
  unfold dkim_verify_core.
  rewrite (parse_signature d s t bh (collect msg) sig v msg) by done. unfold verify_input. cbn [pa_raw pa_hnames pa_sig].
  rewrite (canon_raw_signature _ _ _ _ _ _ _ Hd Hs Hbh Hh Hb Hv), select_signed by done.
  destruct (build_value_shrinks _ _ _ _ _ _ _ Hv) as [v0 Hv0]. unfold sign_input in Hsig. revert Hsig. unfold canon_dkim_hdr.
  rewrite Hv0. cbn [mbind option_bind default]. intros Hsig. by apply (sign_verify _ _ _ _ _ _ Hk Hsig).
Qed.

End Signature.

(** ** The entry points *)

#[local] Ltac steps := unfold mbind, prog_bind, mret, prog_ret, gets, modify, on_lib, in_lib; cbn [dk_lib dk_ready dk_pk fst snd].

Section Entry.
Context {K : Mbed} {KL : MbedLaws K}.

Lemma global_init_ok (g g' : DkimState) : dkim_global_init g = (g', Some 0) -> dk_ready g' = Some 0 /\ dk_pk g' = dk_pk g.
Proof.
  unfold dkim_global_init. steps. destruct (dk_ready g) as [r|] eqn:Hr; steps; [by intros [= <- ->]|].
  destruct (ctr_drbg_seed _) as [l r]. steps. by intros [= <- ->].
Qed.

Lemma load_pk_ok kp (g g' : DkimState) sk : dkim_load_pk kp g = (g', Some (Some sk)) -> dk_ready g' = Some 0 /\ dk_pk g' = Some (kp, sk).
Proof.
  unfold dkim_load_pk, set_pk. steps. destruct (dkim_global_init g) as [g1 [r|]] eqn:Hi; [|done].
  destruct (Z.eqb_spec r 0) as [->|]; cbn [negb]; [|done]. apply global_init_ok in Hi as [Hr Hp].
  destruct (dk_pk g1) as [[q c]|] eqn:Hc; [destruct (beq q kp) eqn:Hq|].
  { intros [= <- <-]. apply beq_spec in Hq as ->. by rewrite Hc. }
  all: destruct (pk_parse_keyfile _ kp) as [l2 [e|k]]; steps; [done|]; destruct (pk_is_rsa k); steps; [|done]; by intros [= <- <-].
Qed.

(** The signing entry point: the key it loaded, the field it wrote. *)
Lemma dkim_sign_inv msg d s kp (g g' : DkimState) out : dkim_sign msg d s kp g = (g', Some (Some out)) ->
  exists sk t l l' hdr, dk_ready g' = Some 0 /\ dk_pk g' = Some (kp, sk) /\
    dkim_sign_core msg sk d s (u32 t) l = (l', Some (Some hdr)) /\ out = hdr ++ msg.
Proof.
  unfold dkim_sign. steps. destruct (dkim_load_pk kp g) as [g1 [[sk|]|]] eqn:Hl; [|done..].
  apply load_pk_ok in Hl as [Hr Hp]. destruct (time_of (dk_lib g1)) as [l t]. steps.
  destruct (dkim_sign_core msg sk d s (u32 t) l) as [l' [[hdr|]|]] eqn:Hc; [|done..]. cbn [fmap option_fmap option_map]. intros [= <- <-]. steps.
  by exists sk, t, l, l', hdr.
Qed.

Lemma sign_core_field msg sk d s t l l' hdr : dkim_sign_core msg sk d s (u32 t) l = (l', Some (Some hdr)) ->
  exists v, hdr = header_line DKIM_HDR_NAME v /\ len v < SIG_MAX /\ (safe d -> safe s -> value_ok v /\ 0 ∉ v).
Proof.
  unfold dkim_sign_core. destruct (length (collect msg) =? 0)%nat; [done|].
  destruct (pk_sign _ _ _) as [l2 [sig|]] eqn:Hsig; cbn [mbind option_bind]; [|done]. destruct (sign_size _ _ _ _ _ Hsig) as [Hok _].
  destruct (build_value _ _ _ _ _ _) as [v|] eqn:Hv; cbn [mbind option_bind]; [|done]. intros Hout. exists v.
  split; [change (header_line DKIM_HDR_NAME v) with (DKIM_HDR_NAME ++ bs ": " ++ v ++ CRLF); congruence|].
  split; [by apply build_value_render in Hv as [_ Hl]|]. intros Hd Hs.
  destruct (signature_value d s t _ (htag (collect msg)) _ v Hd Hs (enc_safe _ (proj1 (hash_bytes _)))
              (htag_safe _ (collect_names msg)) (enc_safe _ Hok) Hv) as (_ & _ & H1 & H2 & _). done.
Qed.

End Entry.

(** ** Properties *)

(** C36: What is signed verifies. A message that does not start with white space and
    whose signed fields have distinct names, signed by [dkim_sign] for a domain and a
    selector of ordinary characters, passes [dkim_verify_key] with the public half of the key: the field is found at the
    front, its tags are read back as they were written, the h= list selects the same
    fields although the signature now stands among them, and emptying b= gives the
    text that was signed. *)
Theorem dkim_round_trip {K : Mbed} {KL : MbedLaws K} msg d s kp pem (g g' : DkimState) out :
  safe d -> safe s -> starts_wsp msg = false -> NoDup (map he_name (collect msg)) ->
  dkim_sign msg d s kp g = (g', Some (Some out)) ->
  (forall sk, dk_pk g' = Some (kp, sk) -> exists pk, pk_parse_public pem = inr pk /\ pk_is_rsa pk = true /\ key_pair sk pk) ->
  (dkim_verify_key out pem g').2 = Some 0.
Proof.
  intros Hd Hs Hw Hnd (sk & t & l & l' & hdr & Hr & Hp & Hc & ->)%dkim_sign_inv Hk.
  destruct (Hk sk Hp) as (pk & Hpem & Hrsa & Hpair). unfold dkim_verify_key, dkim_global_init. steps. rewrite Hr. steps. cbn [negb].
  rewrite Hpem, Hrsa. by rewrite (core_verifies msg sk pk d s t l l' hdr).
Qed.

(** Signing only puts one well-formed field in front. What [dkim_sign] returns
    is the message behind one DKIM-Signature field whose value is shorter than the
    2048 bytes of its buffer and holds no line break and no NUL, so that no header
    can be injected through it; [outbox_submit.c] and [smtp_in.c] size their messages
    by this. *)
Theorem dkim_sign_bounds {K : Mbed} {KL : MbedLaws K} msg d s kp (g g' : DkimState) out :
  safe d -> safe s -> dkim_sign msg d s kp g = (g', Some (Some out)) ->
  exists v, out = header_line DKIM_HDR_NAME v ++ msg /\ value_ok v /\ 0 ∉ v /\ len v < SIG_MAX /\ len out < len msg + SIG_MAX + 18.
Proof.
  intros Hd Hs (sk & t & l & l' & hdr & _ & _ & Hc & ->)%dkim_sign_inv. apply sign_core_field in Hc as (v & -> & Hl & Hv).
  destruct (Hv Hd Hs) as [H1 H2]. exists v. do 4 (split; [done|]). unfold header_line. rewrite !length_app.
  change (length DKIM_HDR_NAME) with 14%nat. change (length CRLF) with 2%nat. cbn [length]. lia.
Qed.

(** The streamed canonicalisation is the canonical form. For every body, of
    whatever length and however it falls into the staging buffer, the bytes that
    [relaxed_body_sha256] folds into the hash are the lines with runs of white space
    reduced to one space, trailing white space and trailing empty lines removed, each
    ended by CRLF; for every field [relaxed_header] is the name in lower case, the
    colon, and the words of the value joined by single spaces. *)
Theorem canonicalisation_exact body hdr colon :
  relaxed_body body = canonical_body body /\ relaxed_header hdr colon = canonical_header hdr colon.
Proof. split; [apply relaxed_body_eq|apply relaxed_header_eq]. Qed.

(** ** A concrete library *)

(** A checksum for the hash, the hash itself for the signature. *)
Definition checksum (s : bytes) : bytes :=
  let v := foldl (fun a c => (a * 31 + c) mod 1000003) 7 s in [v mod 256; (v / 256) mod 256; (v / 65536) mod 256].

Definition plain_mbed : Mbed := {|
  lib := Z; pkey := unit; sha256 := checksum; b64_enc := b64_encode_loop; b64_dec s := outbox_b64_decode s 512;
  ctr_drbg_seed l := (l, 0); pk_parse_keyfile l _ := (l, inr tt); pk_parse_public _ := inr tt; pk_is_rsa _ := true;
  pk_sign l _ h := (l, if (length h <=? 512)%nat && forallb is_byte h then Some h else None);
  pk_verify _ h s := if beq h s then 0 else -1; time_of l := (l + 1, l) |}.
#[local] Existing Instance plain_mbed.

Lemma checksum_bytes s : bytes_ok (checksum s).
Proof.
  unfold checksum. assert (Hb : forall z, is_byte (z mod 256) = true).
  { intros z. unfold is_byte. pose proof (Z.mod_pos_bound z 256 ltac:(lia)). lia. }
  repeat (apply Forall_cons; split; [apply Hb|]). constructor.
Qed.

Lemma digit_safe v sh : safe_byte (b64_digit v sh) = true.
Proof.
  destruct (b64_digit_spec v sh) as (d & Hd & Heq & _). unfold b64_digit. rewrite <- Heq.
  assert (Hall : forallb (fun n => safe_byte (at0 b64_tab n)) (seq 0 64) = true) by (vm_compute; reflexivity).
  rewrite forallb_forall in Hall. apply Hall, in_seq. lia.
Qed.

Lemma encode_safe n : forall s, (length s <= n)%nat -> safe (b64_encode_loop s).
Proof.
  induction n as [|n IH]; intros [|a [|b [|c s]]] Hl; cbn [b64_encode_loop]; cbn zeta; try (cbn [length] in Hl; lia);
    repeat (apply Forall_cons; split; [apply digit_safe || reflexivity|]); try constructor.
  apply IH. cbn [length] in Hl. lia.
Qed.

#[local] Instance plain_laws : MbedLaws plain_mbed.
Proof.
  refine (Build_MbedLaws plain_mbed (fun _ _ => True) _ _ _ _ _ _).
  - intros l sk pk h l' sig _. cbn. destruct (_ && _); [|done]. intros [= _ <-]. by rewrite beq_refl.
  - intros l sk h l' sig. cbn. destruct (Nat.leb_spec (length h) 512), (forallb is_byte h) eqn:Hb; cbn; try done. intros [= _ <-].
    split; [by apply forallb_Forall|done].
  - intros s. split; [apply checksum_bytes|cbn; lia].
  - intros x Hx Hl. by apply b64_decode_encode.
  - intros x _. by apply (encode_safe (length x)).
  - intros pem r H. discriminate H.
Defined.

Definition letter : bytes :=
  bs "Received: x" ++ CRLF ++ bs "From: A <a@x.org>" ++ CRLF ++ bs "To: b" ++ CRLF ++ CRLF ++ bs "hi  there " ++ CRLF ++ CRLF.

Definition letter_to_two : bytes :=
  bs "From: A <a@x.org>" ++ CRLF ++ bs "To: b" ++ CRLF ++ bs "To: c" ++ CRLF ++ CRLF ++ bs "hi" ++ CRLF.

Definition fresh : DkimState := MkDkim (1000 : @lib plain_mbed) None None.

Definition signed (msg : bytes) : option (option bytes) := (dkim_sign msg (bs "x.org") (bs "v") (bs "k") fresh).2.

Definition sign_letter : DkimState * option (option bytes) := dkim_sign letter (bs "x.org") (bs "v") (bs "k") fresh.

Lemma letter_signed : exists g' out, sign_letter = (g', Some (Some out)).
Proof.
  destruct sign_letter as [g' r] eqn:Hs. apply (f_equal snd) in Hs. cbn [snd] in Hs. exists g'.
  assert (Hr : exists out, sign_letter.2 = Some (Some out)) by (vm_compute; by eexists).
  destruct Hr as [out Hr]. exists out. congruence.
Qed.

Lemma dkim_round_trip_witness : exists g' out, sign_letter = (g', Some (Some out)) /\ (dkim_verify_key out [] g').2 = Some 0.
Proof.
  destruct letter_signed as (g' & out & Hs). exists g', out. split; [exact Hs|].
  apply (dkim_round_trip letter (bs "x.org") (bs "v") (bs "k") [] fresh g' out).
  - by apply safe_const.
  - by apply safe_const.
  - reflexivity.
  - vm_compute. apply NoDup_cons. split; [|apply NoDup_singleton]. by intros H%list_elem_of_singleton.
  - exact Hs.
  - intros sk _. exact (ex_intro _ tt (conj eq_refl (conj eq_refl I))).
Defined.

Lemma dkim_sign_bounds_witness : exists g' out v, sign_letter = (g', Some (Some out)) /\
  out = header_line DKIM_HDR_NAME v ++ letter /\ len v < SIG_MAX.
Proof.
  destruct letter_signed as (g' & out & Hs). exists g', out.
  destruct (dkim_sign_bounds letter (bs "x.org") (bs "v") (bs "k") fresh g' out ltac:(by apply safe_const) ltac:(by apply safe_const) Hs)
    as (v & Hv & _ & _ & Hl & _).
  exact (ex_intro _ v (conj Hs (conj Hv Hl))).
Defined.

(** ** What the code does not do *)

(** What verification says of the signed message with more text behind it. *)
Definition sign_then_verify (msg more : bytes) : option Z :=
  match signed msg with Some (Some out) => Some (dkim_verify_core (out ++ more) tt) | _ => None end.

(** A message with a signed field twice is signed, and the signature does not verify:
    signing lists the occurrences from the top, verification takes them from the
    bottom (RFC 6376 5.4.2). *)
Lemma repeated_field_fails : sign_then_verify letter_to_two [] = Some (-1).
Proof. vm_compute. reflexivity. Qed.

(** The body hash of the signature is never compared with the body. *)
Lemma altered_body_verifies : sign_then_verify letter (bs "something else") = Some 0.
Proof. vm_compute. reflexivity. Qed.

(** An empty body is hashed as CRLF; RFC 6376 3.4.4 gives the empty string. *)
Lemma empty_body_is_crlf : relaxed_body [] = CRLF.
Proof. reflexivity. Qed.
