(* ===== verification/AuthDns.v ===== *)
(** * The DNS client of auth_results.c (src/src/auth_results.c)

    Encoding and decoding of names, validation of replies, the TXT, A, AAAA and MX
    queries, the reply cache and the choice of the resolver. A reply is read through
    [rd8], [rd16] and [rd32], whose third outcome [AOob] is an access outside the
    bytes received. Sockets, the clock, /etc/resolv.conf and /dev/urandom are the
    class [AuthSys]. *)

From S2P Require Import Prelude Prog Reply HttpParse.

(** ** Reading a reply *)

(** A value, the return -1 or NULL, an access outside the reply. *)
Inductive ares (A : Type) : Type := AOk (a : A) | AErr | AOob.
Arguments AOk {A} _. Arguments AErr {A}. Arguments AOob {A}.

#[export] Instance ares_ret : MRet ares := fun A => AOk.
#[export] Instance ares_bind : MBind ares := fun A B f m =>
  match m with AOk a => f a | AErr => AErr | AOob => AOob end.

Definition rd8 (msg : bytes) (p : nat) : ares Z := match msg !! p with Some c => AOk c | None => AOob end.

(** [get16], [get32] *)
Definition rd16 (msg : bytes) (p : nat) : ares Z := a ← rd8 msg p; b ← rd8 msg (p + 1); AOk (Z.lor (Z.shiftl a 8) b).

Definition rd32 (msg : bytes) (p : nat) : ares Z :=
  a ← rd8 msg p; b ← rd8 msg (p + 1); c ← rd8 msg (p + 2); d ← rd8 msg (p + 3);
  AOk (Z.lor (Z.lor (Z.lor (Z.shiftl a 24) (Z.shiftl b 16)) (Z.shiftl c 8)) d).

(** [memcpy] out of the reply. *)
Definition rd_range (msg : bytes) (p n : nat) : ares bytes :=
  if (p + n <=? length msg)%nat then AOk (take n (drop p msg)) else AOob.

(** ** Names *)

(** [dns_encode_name] *)
Fixpoint encode_loop (fuel : nat) (name : bytes) (w outsz : nat) : option bytes :=
  match fuel, name with
  | S fuel', _ :: _ =>
      let '(l, rest) := match cut "."%chr name with Some (a, b) => (a, b) | None => (name, []) end in
      if (length l =? 0)%nat || (63 <? length l)%nat then None
      else if (outsz <? w + 1 + length l)%nat then None
      else r ← encode_loop fuel' rest (w + 1 + length l) outsz; Some (Z.of_nat (length l) :: l ++ r)
  | _, _ => if (outsz <? w + 1)%nat then None else Some [0]
  end.

Definition dns_encode_name (name : bytes) (outsz : nat) : option bytes := encode_loop (length name) name 0 outsz.

Definition is_pointer (c : Z) : bool := Z.land c 192 =? 192.
Definition is_label (c : Z) : bool := Z.land c 192 =? 0.

Definition pointer_target (c d : Z) : nat := Z.to_nat (Z.lor (Z.shiftl (Z.land c 63) 8) d).

(** The labels from [p] on, without a jump: where they end, and the target when
    they end in a pointer. *)
Fixpoint skip_labels (fuel : nat) (msg : bytes) (p : nat) : ares (nat * option nat) :=
  match fuel with
  | O => AErr
  | S fuel' =>
      if (length msg <=? p)%nat then AErr
      else
        c ← rd8 msg p;
        if c =? 0 then AOk ((p + 1)%nat, None)
        else if is_pointer c then
          if (length msg <=? p + 1)%nat then AErr
          else d ← rd8 msg (p + 1); AOk ((p + 2)%nat, Some (pointer_target c d))
        else if is_label c then skip_labels fuel' msg (p + 1 + Z.to_nat c)
        else AErr
  end.

Fixpoint skip_loop (hops : nat) (msg : bytes) (p : nat) (next : option nat) : ares nat :=
  '(q, target) ← skip_labels (S (length msg)) msg p;
  match target with
  | None => AOk (default q next)
  | Some t => match hops with O => AErr | S hops' => skip_loop hops' msg t (Some (default q next)) end
  end.

Definition DNS_HOPS : nat := 32.

(** [dns_skip_name]: the position behind the name. *)
Definition dns_skip_name (msg : bytes) (p : nat) : ares nat := skip_loop DNS_HOPS msg p None.

Fixpoint read_labels (fuel : nat) (msg : bytes) (p : nat) (out : bytes) (outsz : nat) : ares (bytes * option nat) :=
  match fuel with
  | O => AErr
  | S fuel' =>
      if (length msg <=? p)%nat then AErr
      else
        c ← rd8 msg p;
        if c =? 0 then AOk (out, None)
        else if is_pointer c then
          if (length msg <=? p + 1)%nat then AErr
          else d ← rd8 msg (p + 1); AOk (out, Some (pointer_target c d))
        else if negb (is_label c) then AErr
        else if c >? 63 then AErr
        else
          let n := Z.to_nat c in
          if (length msg <? p + 1 + n)%nat then AErr
          else if (0 <? length out)%nat && (outsz <=? length out + 1)%nat then AErr
          else
            let out := if is_nil out then out else out ++ [ "."%chr ] in
            if (outsz <=? length out + n)%nat then AErr
            else l ← rd_range msg (p + 1) n; read_labels fuel' msg (p + 1 + n) (out ++ l) outsz
  end.

Fixpoint read_loop (hops : nat) (msg : bytes) (p : nat) (out : bytes) (outsz : nat) : ares bytes :=
  '(out, target) ← read_labels (S (length msg)) msg p out outsz;
  match target with
  | None => AOk out
  | Some t => match hops with O => AErr | S hops' => read_loop hops' msg t out outsz end
  end.

(** [dns_read_name] *)
Definition dns_read_name (msg : bytes) (p outsz : nat) : ares bytes :=
  if (outsz =? 0)%nat then AErr
  else out ← read_loop DNS_HOPS msg p [] outsz; if is_nil out then AErr else AOk out.

(** [dns_check_question]: the position of the first answer. *)
Definition dns_check_question (msg name : bytes) (qtype : Z) : ares nat :=
  if (length msg <? 12)%nat then AErr
  else
    qd ← rd16 msg 4;
    if negb (qd =? 1) then AErr
    else
      qname ← dns_read_name msg 12 256;
      if negb (ieq (c_str qname) name) then AErr
      else
        p ← dns_skip_name msg 12;
        if (length msg <? p + 4)%nat then AErr
        else
          t ← rd16 msg p;
          if negb (t =? qtype) then AErr
          else
            c ← rd16 msg (p + 2);
            if negb (c =? 1) then AErr else AOk (p + 4)%nat.

(** ** Answer sections *)

(** The loop over the answers, [n] of them left, at most [cap] kept. *)
Fixpoint answer_loop {A} (handle : Z -> nat -> nat -> ares (option A)) (msg : bytes) (n cap p : nat) : ares (list A) :=
  match n, cap with
  | O, _ | _, O => AOk []
  | S n', S cap' =>
      p ← dns_skip_name msg p;
      if (length msg <? p + 10)%nat then AErr
      else
        rtype ← rd16 msg p;
        rdlen ← rd16 msg (p + 8);
        let p := (p + 10)%nat in
        let rdlen := Z.to_nat rdlen in
        if (length msg <? p + rdlen)%nat then AErr
        else
          x ← handle rtype p rdlen;
          match x with
          | Some x => r ← answer_loop handle msg n' cap' (p + rdlen); AOk (x :: r)
          | None => answer_loop handle msg n' cap (p + rdlen)
          end
  end.

Definition ancount (msg : bytes) : ares nat := c ← rd16 msg 6; AOk (Z.to_nat c).

Definition AUTH_TXT_MAX_RECORDS : nat := 16.
Definition AUTH_TXT_MAX_LEN : nat := 1024.
Definition AUTH_MAX_MX : nat := 16.
Definition AUTH_MAX_ADDRS : nat := 16.

(** [auth_txt_parse_rdata]: the loop that adds up the lengths and the one that
    copies. *)
Fixpoint txt_length (fuel : nat) (rd : bytes) : nat :=
  match fuel, rd with
  | S fuel', l :: t => let n := Z.to_nat l in if (length t <? n)%nat then O else (n + txt_length fuel' (drop n t))%nat
  | _, _ => O
  end.

Fixpoint txt_copy (fuel : nat) (rd : bytes) : bytes :=
  match fuel, rd with
  | S fuel', l :: t => let n := Z.to_nat l in if (length t <? n)%nat then [] else take n t ++ txt_copy fuel' (drop n t)
  | _, _ => []
  end.

Definition auth_txt_parse_rdata (rd : bytes) : option bytes :=
  if (AUTH_TXT_MAX_LEN <? txt_length (length rd) rd + 1)%nat then None else Some (txt_copy (length rd) rd).

Definition txt_handle (msg : bytes) (rtype : Z) (p rdlen : nat) : ares (option bytes) :=
  if rtype =? 16 then rd ← rd_range msg p rdlen; AOk (auth_txt_parse_rdata rd) else AOk None.

(** A record of type [t] with [n] bytes of address. *)
Definition addr_handle (t : Z) (n : nat) (msg : bytes) (rtype : Z) (p rdlen : nat) : ares (option bytes) :=
  if (rtype =? t) && (rdlen =? n)%nat then a ← rd_range msg p n; AOk (Some a) else AOk None.

Record AuthMx := MkMx { mx_host : bytes; mx_pref : Z }.

Definition mx_handle (msg : bytes) (rtype : Z) (p rdlen : nat) : ares (option AuthMx) :=
  if (rtype =? 15) && (3 <=? rdlen)%nat then
    pref ← rd16 msg p;
    match dns_read_name msg (p + 2) 256 with
    | AOk host => AOk (Some (MkMx (c_str host) pref))
    | AErr => AOk None
    | AOob => AOob
    end
  else AOk None.

(** What [auth_dns_txt] and [auth_dns_a] make of a reply. *)
Definition txt_answers (msg name : bytes) (cap : nat) : ares (list bytes) :=
  p ← dns_check_question msg name 16; n ← ancount msg; answer_loop (txt_handle msg) msg n cap p.

Definition a_answers (msg name : bytes) (cap : nat) : ares (list bytes) :=
  p ← dns_check_question msg name 1; n ← ancount msg; answer_loop (addr_handle 1 4 msg) msg n cap p.

(** [auth_dns_aaaa] and [auth_dns_mx] skip the question without looking at it. *)
Definition aaaa_answers (msg : bytes) (cap : nat) : ares (list bytes) :=
  n ← ancount msg; p ← dns_skip_name msg 12; answer_loop (addr_handle 28 16 msg) msg n cap (p + 4).

Definition mx_answers (msg : bytes) (cap : nat) : ares (list AuthMx) :=
  n ← ancount msg; p ← dns_skip_name msg 12; answer_loop (mx_handle msg) msg n cap (p + 4).

(** The sort of [auth_dns_mx]: one pass of swaps over the first [n] + 1 entries, and
    the passes. *)
Fixpoint mx_pass (n : nat) (l : list AuthMx) : list AuthMx :=
  match n, l with
  | S n', x :: y :: t => if mx_pref x >? mx_pref y then y :: mx_pass n' (x :: t) else x :: mx_pass n' (y :: t)
  | _, _ => l
  end.

Fixpoint mx_passes (n : nat) (l : list AuthMx) : list AuthMx :=
  match n with O => l | S n' => mx_passes n' (mx_pass n l) end.

Definition mx_sort (l : list AuthMx) : list AuthMx := mx_passes (length l - 1) l.

(** ** The reply cache *)

Definition AUTH_DNS_PORT : Z := 53.
Definition AUTH_DNS_BUFSZ : nat := 4096.
Definition AUTH_DNS_CACHE_SLOTS : nat := 64.
Definition AUTH_DNS_CACHE_NEG_TTL : Z := 30.
Definition AUTH_DNS_CACHE_MAX_TTL : Z := 3600.

(** The answers of [dns_reply_ttl]; [first] on the first one. *)
Fixpoint ttl_loop (msg : bytes) (n : nat) (p : nat) (first : bool) (ttl : Z) : ares Z :=
  match n with
  | O => AOk ttl
  | S n' =>
      p ← dns_skip_name msg p;
      if (length msg <? p + 10)%nat then AErr
      else
        t ← rd32 msg (p + 4);
        rdlen ← rd16 msg (p + 8);
        let p := (p + 10)%nat in
        let rdlen := Z.to_nat rdlen in
        if (length msg <? p + rdlen)%nat then AErr
        else ttl_loop msg n' (p + rdlen) false (if first || (t <? ttl) then t else ttl)
  end.

Definition dns_reply_ttl (msg : bytes) : ares Z :=
  if (length msg <? 12)%nat then AErr
  else
    p ← dns_skip_name msg 12;
    n ← ancount msg;
    if (n =? 0)%nat then AOk AUTH_DNS_CACHE_NEG_TTL
    else ttl ← ttl_loop msg n (p + 4) true 0; AOk (Z.min ttl AUTH_DNS_CACHE_MAX_TTL).

Record DnsCacheEnt := MkEnt { ce_name : bytes; ce_qtype : Z; ce_gen : Z; ce_reply : bytes; ce_expires : Z }.

(** A slot that is not in use. *)
Definition free_slot : DnsCacheEnt := MkEnt [] 0 0 [] 0.

Definition same_query (e : DnsCacheEnt) (gen qtype : Z) (name : bytes) : bool :=
  negb (ce_expires e =? 0) && (ce_gen e =? gen) && (ce_qtype e =? qtype) && ieq (ce_name e) name.

(** [dns_cache_get] at time [now]: the slots with expired entries of this query
    freed up to the hit, and the hit. *)
Fixpoint cache_get (now gen qtype : Z) (name : bytes) (rsz : nat) (c : list DnsCacheEnt) : list DnsCacheEnt * option bytes :=
  match c with
  | [] => ([], None)
  | e :: c' =>
      if same_query e gen qtype name then
        if now >=? ce_expires e then
          let '(c', r) := cache_get now gen qtype name rsz c' in
          (MkEnt (ce_name e) (ce_qtype e) (ce_gen e) [] 0 :: c', r)
        else if (rsz <? length (ce_reply e))%nat then let '(c', r) := cache_get now gen qtype name rsz c' in (e :: c', r)
        else (e :: c', Some (ce_reply e))
      else let '(c', r) := cache_get now gen qtype name rsz c' in (e :: c', r)
  end.

(** ** The transport *)

(** [open_urandom] tells whether the open succeeds, [read_urandom] what the reads of
    one call return, [resolv_conf] the lines [fgets] returns when the file opens.
    [udp_send] to an address and a port tells whether [sendto] succeeds; [udp_poll]
    is the result of [poll], [udp_recv] what [recv] returns for a buffer size. *)
Class AuthSys := {
  sys : Type;
  au_time : sys -> sys * Z;
  open_urandom : sys -> sys * bool;
  read_urandom : sys -> sys * list read_result;
  resolv_conf : sys -> sys * option (list bytes);
  pton : bool -> bytes -> option bytes;
  udp_socket : sys -> sys * bool;
  udp_send : sys -> bytes -> Z -> bytes -> sys * bool;
  udp_poll : sys -> sys * Z;
  udp_recv : sys -> nat -> sys * option bytes;
}.

Section Transport.
Context {A : AuthSys}.

(** The globals: [g_resolver], [g_dns_gen], the descriptor of /dev/urandom, the
    cached endpoint with the override it was made from, the cache and its next
    victim; and, as a ghost, the queries asked so far and those put to the network. *)
Record Dns := MkDns {
  d_sys : sys; d_resolver : bytes; d_gen : Z; d_fd : bool; d_ns : option (bytes * Z * bytes);
  d_cache : list DnsCacheEnt; d_victim : Z; d_asked : list (bytes * Z); d_sent : list (bytes * Z) }.

Definition with_sys (x : sys) (d : Dns) : Dns :=
  MkDns x (d_resolver d) (d_gen d) (d_fd d) (d_ns d) (d_cache d) (d_victim d) (d_asked d) (d_sent d).
Definition with_fd (b : bool) (d : Dns) : Dns :=
  MkDns (d_sys d) (d_resolver d) (d_gen d) b (d_ns d) (d_cache d) (d_victim d) (d_asked d) (d_sent d).
Definition with_ns (ns : option (bytes * Z * bytes)) (d : Dns) : Dns :=
  MkDns (d_sys d) (d_resolver d) (d_gen d) (d_fd d) ns (d_cache d) (d_victim d) (d_asked d) (d_sent d).
Definition with_cache (c : list DnsCacheEnt) (v : Z) (d : Dns) : Dns :=
  MkDns (d_sys d) (d_resolver d) (d_gen d) (d_fd d) (d_ns d) c v (d_asked d) (d_sent d).
Definition with_asked (q : bytes * Z) (d : Dns) : Dns :=
  MkDns (d_sys d) (d_resolver d) (d_gen d) (d_fd d) (d_ns d) (d_cache d) (d_victim d) (q :: d_asked d) (d_sent d).
Definition with_sent (q : bytes * Z) (d : Dns) : Dns :=
  MkDns (d_sys d) (d_resolver d) (d_gen d) (d_fd d) (d_ns d) (d_cache d) (d_victim d) (d_asked d) (q :: d_sent d).

Definition on_sys {B} (f : sys -> sys * B) : prog Dns B := fun d => let '(x, b) := f (d_sys d) in (with_sys x d, Some b).

Definition auth_dns_set_resolver (server : option bytes) : prog Dns unit :=
  modify (fun d => MkDns (d_sys d) (match server with Some s => take 127 s | None => [] end) (u32 (d_gen d + 1)) (d_fd d)
                     (d_ns d) (d_cache d) (d_victim d) (d_asked d) (d_sent d)).

Fixpoint id_loop (reads : list read_result) (got : bytes) : option bytes :=
  if (2 <=? length got)%nat then Some got
  else match reads with
       | [] => None
       | REintr :: rs => id_loop rs got
       | RError :: _ | REof :: _ => None
       | RData d :: rs => id_loop rs (got ++ take (2 - length got) d)
       end.

(** [urandom16]: the transaction id. *)
Definition dns_id : prog Dns (option Z) :=
  fd ← gets d_fd;
  fd ← (if fd : bool then mret true else on_sys open_urandom);
  if negb fd then mret None
  else
    _ ← modify (with_fd true);
    rs ← on_sys read_urandom;
    match id_loop rs [] with
    | Some (a :: b :: _) => mret (Some (Z.lor (Z.shiftl a 8) b))
    | _ => _ ← modify (with_fd false); mret None
    end.

Definition blank (c : Z) : bool := (c =? SP) || (c =? TAB).

(** The address on one line of /etc/resolv.conf. *)
Definition resolv_line (line : bytes) (outsz : nat) : option bytes :=
  let p := drop_while blank (c_str line) in
  if ieq (take 10 p) (bs "nameserver") then
    let e := take_while (fun c => negb ((c =? LF) || blank c)) (drop_while blank (drop 10 p)) in
    if (length e =? 0)%nat || (outsz <=? length e)%nat then None else Some e
  else None.

Fixpoint first_some {X Y} (f : X -> option Y) (l : list X) : option Y :=
  match l with [] => None | x :: l' => match f x with Some y => Some y | None => first_some f l' end end.

Definition resolver_file_addr (outsz : nat) : prog Dns (option bytes) :=
  ls ← on_sys resolv_conf;
  mret (ls ← ls; first_some (fun l => resolv_line l outsz) ls).

Definition port_of (s : bytes) : option Z :=
  v ← strtoul s; if (0 <? v) && (v <=? 65535) then Some v else None.

(** The last [c] of a string. *)
Definition rcut (c : Z) (s : bytes) : option (bytes * bytes) :=
  '(b, a) ← cut c (reverse s); Some (reverse a, reverse b).

Definition fit_addr (a : bytes) : bytes := if (0 <? length a)%nat && (length a <? 128)%nat then a else [].

(** The override, split into address and port. *)
Definition split_resolver (src : bytes) : bytes * Z :=
  match src with
  | c :: t =>
      if c =? "["%chr then
        match cut "]"%chr src with
        | Some (a, r) =>
            (fit_addr (drop 1 a), match r with c :: pv => if c =? ":"%chr then default AUTH_DNS_PORT (port_of pv) else AUTH_DNS_PORT | [] => AUTH_DNS_PORT end)
        | None => ([], AUTH_DNS_PORT)
        end
      else
        match rcut ":"%chr src with
        | Some (a, pv) => (fit_addr a, default AUTH_DNS_PORT (port_of pv))
        | None => (take 127 src, AUTH_DNS_PORT)
        end
  | [] => ([], AUTH_DNS_PORT)
  end.

Definition resolver_addrport : prog Dns (bytes * Z) :=
  src ← gets d_resolver;
  ns ← gets d_ns;
  match (match ns with Some (a, p, from) => if beq src from then Some (a, p) else None | None => None end) with
  | Some ap => mret ap
  | None =>
      let '(a, p) := split_resolver src in
      a ← (if is_nil a then f ← resolver_file_addr 128; mret (default (bs "127.0.0.53") f) else mret a);
      _ ← modify (with_ns (Some (a, p, src)));
      mret (a, p)
  end.

(** ** Queries *)

(** [put16] *)
Definition put16 (v : Z) : bytes := [Z.shiftr v 8 mod 256; v mod 256].

(** The query [dns_query_raw] sends: id, RD, one question, the name, type and class. *)
Definition build_query (qid qtype : Z) (name : bytes) : option bytes :=
  n ← dns_encode_name name (AUTH_DNS_BUFSZ - 12);
  if (AUTH_DNS_BUFSZ <? 12 + length n + 4)%nat then None
  else Some (put16 qid ++ put16 256 ++ put16 1 ++ [0; 0; 0; 0; 0; 0] ++ n ++ put16 qtype ++ put16 1).

Definition dns_cache_get (name : bytes) (qtype : Z) (rsz : nat) : prog Dns (option bytes) :=
  now ← on_sys au_time;
  d ← gets id;
  let '(c, r) := cache_get now (d_gen d) qtype name rsz (d_cache d) in
  _ ← modify (with_cache c (d_victim d));
  mret r.

Definition dns_cache_put (name : bytes) (qtype : Z) (reply : bytes) (expires : Z) : prog Dns unit :=
  modify (fun d => with_cache (<[Z.to_nat (d_victim d mod Z.of_nat AUTH_DNS_CACHE_SLOTS) := MkEnt (take 255 name) qtype (d_gen d) reply expires]> (d_cache d))
                     (u64 (d_victim d + 1)) d).

(** The exchange of one datagram for another. *)
Definition dns_exchange (name : bytes) (qtype : Z) : prog Dns (option (Z * bytes)) :=
  qid ← dns_id;
  match qid with
  | None => mret None
  | Some qid =>
      '(ns, port) ← resolver_addrport;
      fd ← on_sys udp_socket;
      if negb fd then mret None
      else
        match pton false ns with
        | None => mret None
        | Some sa =>
            match build_query qid qtype name with
            | None => mret None
            | Some q =>
                _ ← modify (with_sent (name, qtype));
                ok ← on_sys (fun x => udp_send x sa port q);
                if negb ok then mret None
                else
                  n ← on_sys udp_poll;
                  if n <=? 0 then mret None
                  else r ← on_sys (fun x => udp_recv x AUTH_DNS_BUFSZ); mret (r ← r; Some (qid, take AUTH_DNS_BUFSZ r))
            end
        end
  end.

(** Does the datagram answer the query? *)
Definition reply_accepted (qid qtype : Z) (name r : bytes) : bool :=
  (12 <=? length r)%nat &&
  match rd16 r 0 with AOk i => i =? qid | _ => false end &&
  match dns_check_question r name qtype with AOk _ => true | _ => false end.

(** [dns_query_raw] *)
Definition dns_query_raw (name : bytes) (qtype : Z) : prog Dns (option bytes) :=
  if is_nil name then mret None
  else
    _ ← modify (with_asked (name, qtype));
    c ← dns_cache_get name qtype AUTH_DNS_BUFSZ;
    match c with
    | Some r => mret (Some r)
    | None =>
        x ← dns_exchange name qtype;
        match x with
        | None => mret None
        | Some (qid, r) =>
            if negb (reply_accepted qid qtype name r) then mret None
            else
              _ ← match dns_reply_ttl r with
                  | AOk ttl => now ← on_sys au_time; dns_cache_put name qtype r (now + ttl)
                  | _ => mret tt
                  end;
              mret (Some r)
        end
    end.

Definition of_ares {X} (x : ares X) : option X := match x with AOk a => Some a | _ => None end.

(** The queries of the program; [None] is the return -1. *)
Definition auth_dns_txt (name : bytes) (cap : nat) : prog Dns (option (list bytes)) :=
  r ← dns_query_raw name 16; mret (r ← r; of_ares (txt_answers r name cap)).

Definition auth_dns_a (name : bytes) (cap : nat) : prog Dns (option (list bytes)) :=
  r ← dns_query_raw name 1; mret (r ← r; of_ares (a_answers r name cap)).

Definition auth_dns_aaaa (name : bytes) (cap : nat) : prog Dns (option (list bytes)) :=
  r ← dns_query_raw name 28; mret (r ← r; of_ares (aaaa_answers r cap)).

Definition auth_dns_mx (name : bytes) (cap : nat) : prog Dns (option (list AuthMx)) :=
  if is_nil name || (cap =? 0)%nat then mret None
  else r ← dns_query_raw name 15; mret (r ← r; l ← of_ares (mx_answers r cap); Some (mx_sort l)).

Definition auth_dns_addr (name : bytes) (cap : nat) : prog Dns (option (list bytes)) :=
  if (cap =? 0)%nat then mret None
  else
    ra ← auth_dns_a name cap;
    let na := length (default [] ra) in
    rq ← auth_dns_aaaa name (cap - na);
    mret (match ra, rq with None, None => None | _, _ => Some (default [] ra ++ default [] rq) end).

End Transport.
