(* ===== verification/AuthDnsSpec.v ===== *)
(** * Correctness of the DNS client

    No reply makes the parsers read outside it; the question the client sends is
    recognised when it comes back; MX hosts come in order of preference, ties as the
    server sent them; the cache holds answers to the question it files them under. *)

From Stdlib Require Import Sorting.Sorted.
From S2P Require Import Prelude Prog Reply HttpParse AuthDns.

(** ** Accesses *)

Definition fine {A} (x : ares A) : Prop := match x with AOob => False | _ => True end.

Lemma fine_bind {A B} (m : ares A) (f : A -> ares B) : fine m -> (forall a, m = AOk a -> fine (f a)) -> fine (m ≫= f).
Proof. destruct m; cbn; auto. Qed.

Lemma rd8_in msg p : (p < length msg)%nat -> exists c, rd8 msg p = AOk c /\ msg !! p = Some c.
Proof. intros Hp. unfold rd8. destruct (lookup_lt_is_Some_2 msg p Hp) as [c Hc]. rewrite Hc. eauto. Qed.

Lemma fine_rd8 msg p : (p < length msg)%nat -> fine (rd8 msg p).
Proof. intros Hp. by destruct (rd8_in msg p Hp) as (c & -> & _). Qed.

Lemma fine_rd16 msg p : (p + 2 <= length msg)%nat -> fine (rd16 msg p).
Proof. intros Hp. unfold rd16. repeat (apply fine_bind; [apply fine_rd8; lia|intros ? _]). done. Qed.

Lemma fine_rd32 msg p : (p + 4 <= length msg)%nat -> fine (rd32 msg p).
Proof. intros Hp. unfold rd32. repeat (apply fine_bind; [apply fine_rd8; lia|intros ? _]). done. Qed.

Lemma fine_range msg p n : (p + n <= length msg)%nat -> fine (rd_range msg p n).
Proof. intros Hp. unfold rd_range. by destruct (Nat.leb_spec (p + n) (length msg)); [|lia]. Qed.

#[local] Hint Resolve fine_rd8 fine_rd16 fine_rd32 fine_range : fine.

(** Through the guards of a parser: an access is below the length that was tested. *)
#[local] Ltac bounded :=
  match goal with
  | |- fine (if (?a <=? ?b)%nat then _ else _) => destruct (Nat.leb_spec a b); [try done|try done]
  | |- fine (if (?a <? ?b)%nat then _ else _) => destruct (Nat.ltb_spec a b); [try done|try done]
  | |- fine (if ?b then _ else _) => destruct b eqn:?; try done
  | |- fine (rd8 _ _ ≫= _) => apply fine_bind; [apply fine_rd8; lia|intros ? _]
  | |- fine (rd16 _ _ ≫= _) => apply fine_bind; [apply fine_rd16; lia|intros ? _]
  | |- fine (rd32 _ _ ≫= _) => apply fine_bind; [apply fine_rd32; lia|intros ? _]
  | |- fine (rd_range _ _ _ ≫= _) => apply fine_bind; [apply fine_range; lia|intros ? _]
  end.

Lemma skip_labels_fine fuel msg : forall p, fine (skip_labels fuel msg p).
Proof. induction fuel as [|fuel IH]; intros p; cbn [skip_labels]; [done|]. repeat bounded; first [done|apply IH]. Qed.

Lemma skip_fine msg p : fine (dns_skip_name msg p).
Proof.
  unfold dns_skip_name. generalize (@None nat). generalize DNS_HOPS. intros hops. revert p.
  induction hops as [|hops IH]; intros p next; cbn [skip_loop];
    (apply fine_bind; [apply skip_labels_fine|]; intros [q [t|]] _; [|done]); [done|apply IH].
Qed.

(** [out] never outgrows its buffer, the NUL included. *)
Lemma read_labels_fine fuel msg outsz : forall p out, (0 < outsz)%nat -> (length out < outsz)%nat ->
  fine (read_labels fuel msg p out outsz) /\
  forall out' t, read_labels fuel msg p out outsz = AOk (out', t) -> (length out' < outsz)%nat.
Proof.
  induction fuel as [|fuel IH]; intros p out Hsz Hout; cbn [read_labels]; [done|].
  destruct (Nat.leb_spec (length msg) p); [done|]. destruct (rd8_in msg p ltac:(lia)) as (c & -> & _). cbn [mbind ares_bind].
  destruct (c =? 0); [split; [done|]; by intros ? ? [= <- _]|]. destruct (is_pointer c).
  { destruct (Nat.leb_spec (length msg) (p + 1)); [done|]. destruct (rd8_in msg (p + 1) ltac:(lia)) as (d & -> & _).
    split; [done|]. by intros ? ? [= <- _]. }
  destruct (is_label c); cbn [negb]; [|done]. destruct (c >? 63); [done|].
  destruct (Nat.ltb_spec (length msg) (p + 1 + Z.to_nat c)); [done|]. destruct (_ && _); [done|].
  set (o := if is_nil out then out else _). destruct (Nat.leb_spec outsz (length o + Z.to_nat c)); [done|].
  unfold rd_range. destruct (Nat.leb_spec (p + 1 + Z.to_nat c) (length msg)); [|lia]. cbn [mbind ares_bind].
  apply IH; [done|]. rewrite length_app, length_take, length_drop. lia.
Qed.

Lemma read_name_fine msg p outsz :
  fine (dns_read_name msg p outsz) /\ forall s, dns_read_name msg p outsz = AOk s -> (0 < length s < outsz)%nat.
Proof.
  unfold dns_read_name. destruct (Nat.eqb_spec outsz 0) as [|Hsz]; [done|].
  assert (Hl : forall hops p out, (length out < outsz)%nat -> fine (read_loop hops msg p out outsz) /\
    forall s, read_loop hops msg p out outsz = AOk s -> (length s < outsz)%nat).
  { induction hops as [|hops IH]; intros q out Hout; cbn [read_loop];
      destruct (read_labels_fine (S (length msg)) msg outsz q out ltac:(lia) Hout) as [Hf Ho];
      destruct (read_labels _ _ _ _ _) as [[o [t|]]| |]; cbn [mbind ares_bind]; try done.
    - split; [done|]. intros s [= <-]. by eapply Ho.
    - apply IH. by eapply Ho.
    - split; [done|]. intros s [= <-]. by eapply Ho. }
  destruct (Hl DNS_HOPS p [] ltac:(cbn; lia)) as [Hf Ho]. destruct (read_loop _ _ _ _ _) as [o| |]; cbn [mbind ares_bind]; try done.
  destruct o as [|c o]; cbn [is_nil]; [done|]. split; [done|]. intros s [= <-]. specialize (Ho _ eq_refl). cbn [length] in *. lia.
Qed.

Lemma check_question_fine msg name qtype : fine (dns_check_question msg name qtype).
Proof.
  unfold dns_check_question. do 3 bounded. apply fine_bind; [apply read_name_fine|]. intros qn _. bounded.
  apply fine_bind; [apply skip_fine|]. intros p _. repeat bounded.
Qed.

Lemma ancount_fine msg : (12 <= length msg)%nat -> fine (ancount msg).
Proof. intros Hl. unfold ancount. by bounded. Qed.

Lemma answer_loop_fine {A} (handle : Z -> nat -> nat -> ares (option A)) msg :
  (forall t p n, (p + n <= length msg)%nat -> fine (handle t p n)) -> forall n cap p, fine (answer_loop handle msg n cap p).
Proof.
  intros Hh. induction n as [|n IH]; intros [|cap] p; cbn [answer_loop]; try done.
  apply fine_bind; [apply skip_fine|]. intros q _. repeat bounded. apply fine_bind; [by apply Hh|]. intros [x|] _; [|apply IH].
  apply fine_bind; [apply IH|done].
Qed.

Lemma txt_handle_fine msg t p n : (p + n <= length msg)%nat -> fine (txt_handle msg t p n).
Proof. intros Hp. unfold txt_handle. by repeat bounded. Qed.

Lemma addr_handle_fine ty k msg t p n : (p + n <= length msg)%nat -> fine (addr_handle ty k msg t p n).
Proof. intros Hp. unfold addr_handle. destruct (_ =? _); cbn [andb]; [|done]. destruct (Nat.eqb_spec n k) as [->|]; [|done]. by bounded. Qed.

Lemma mx_handle_fine msg t p n : (p + n <= length msg)%nat -> fine (mx_handle msg t p n).
Proof.
  intros Hp. unfold mx_handle. destruct (_ =? _); cbn [andb]; [|done]. destruct (Nat.leb_spec 3 n); [|done]. bounded.
  pose proof (proj1 (read_name_fine msg (p + 2) 256)) as Hf. by destruct (dns_read_name _ _ _).
Qed.

Lemma ttl_loop_fine msg n : forall p first ttl, fine (ttl_loop msg n p first ttl).
Proof.
  induction n as [|n IH]; intros p first ttl; cbn [ttl_loop]; [done|].
  apply fine_bind; [apply skip_fine|]. intros q _. repeat bounded; first [done|apply IH].
Qed.

Lemma reply_ttl_fine msg : fine (dns_reply_ttl msg).
Proof.
  unfold dns_reply_ttl. bounded. apply fine_bind; [apply skip_fine|]. intros p _. apply fine_bind; [by apply ancount_fine|].
  intros n _. bounded. apply fine_bind; [apply ttl_loop_fine|done].
Qed.

(** The copy loop of [auth_txt_parse_rdata] writes what the first one counted. *)
Lemma txt_copy_length fuel : forall rd, length (txt_copy fuel rd) = txt_length fuel rd.
Proof.
  induction fuel as [|fuel IH]; intros [|l t]; cbn [txt_copy txt_length]; try done.
  destruct (Nat.ltb_spec (length t) (Z.to_nat l)); [done|]. rewrite length_app, length_take, IH. lia.
Qed.

(** ** Names *)

Definition label_ok (l : bytes) : Prop := (0 < length l <= 63)%nat /\ "."%chr ∉ l /\ 0 ∉ l.

(** The labels of a name joined by dots, and the name on the wire. *)
Fixpoint dotted (ls : list bytes) : bytes :=
  match ls with
  | [] => []
  | [l] => l
  | l :: ls' => l ++ "."%chr :: dotted ls'
  end.

Definition wire (ls : list bytes) : bytes := concat (map (fun l => Z.of_nat (length l) :: l) ls) ++ [0].

Lemma wire_cons l ls : wire (l :: ls) = Z.of_nat (length l) :: l ++ wire ls.
Proof. unfold wire. cbn. by rewrite <- app_assoc. Qed.

Lemma wire_length ls : Forall label_ok ls -> ls <> [] -> length (wire ls) = (length (dotted ls) + 2)%nat.
Proof.
  induction 1 as [|l ls Hl _ IH]; [done|]. intros _. rewrite wire_cons. destruct ls as [|l' ls].
  - cbn. rewrite length_app. cbn. lia.
  - change (dotted (l :: l' :: ls)) with (l ++ "."%chr :: dotted (l' :: ls)). cbn [length]. rewrite !length_app, IH by done. cbn [length]. lia.
Qed.

Lemma dotted_cons_nonempty l ls : label_ok l -> exists c t, dotted (l :: ls) = c :: t.
Proof. intros [[Hl _] _]. destruct l as [|c l]; [cbn in Hl; lia|]. destruct ls; cbn; eauto. Qed.

Lemma encode_dotted ls : Forall label_ok ls -> forall fuel w outsz, (length (dotted ls) <= fuel)%nat ->
  (w + length (wire ls) <= outsz)%nat -> encode_loop fuel (dotted ls) w outsz = Some (wire ls).
Proof.
  induction 1 as [|l ls Hl Hls IH]; intros fuel w outsz Hf Hw.
  { change (length (wire [])) with 1%nat in Hw. destruct fuel; cbn [encode_loop dotted]; (destruct (Nat.ltb_spec outsz (w + 1)); [lia|done]). }
  destruct (dotted_cons_nonempty l ls Hl) as (c & t & Hd). rewrite Hd in Hf. destruct fuel as [|fuel]; [cbn in Hf; lia|].
  assert (Hs : match cut "."%chr (c :: t) with Some (a, b) => (a, b) | None => (c :: t, []) end = (l, dotted ls)).
  { rewrite <- Hd. destruct ls as [|l' ls].
    - change (dotted [l]) with l. by rewrite cut_none by apply Hl.
    - change (dotted (l :: l' :: ls)) with (l ++ "."%chr :: dotted (l' :: ls)). by rewrite cut_app by apply Hl. }
  rewrite Hd. cbn [encode_loop]. rewrite Hs. rewrite wire_cons in Hw |- *. cbn [length] in Hw. rewrite length_app in Hw.
  assert (H1 : (1 <= length (wire ls))%nat) by (unfold wire; rewrite length_app; cbn; lia).
  destruct Hl as [[Hl0 Hl63] _]. destruct (Nat.eqb_spec (length l) 0); [lia|]. destruct (Nat.ltb_spec 63 (length l)); [lia|]. cbn [orb].
  destruct (Nat.ltb_spec outsz (w + 1 + length l)); [lia|]. rewrite IH; [done| |lia].
  apply (f_equal length) in Hd. destruct ls as [|l' ls]; [cbn; lia|].
  change (dotted (l :: l' :: ls)) with (l ++ "."%chr :: dotted (l' :: ls)) in Hd. rewrite length_app in Hd. cbn [length] in *. lia.
Qed.

Lemma rd8_app pre c post : rd8 (pre ++ c :: post) (length pre) = AOk c.
Proof. unfold rd8. by rewrite list_lookup_middle. Qed.

Lemma rd_range_app pre l post : rd_range (pre ++ l ++ post) (length pre) (length l) = AOk l.
Proof.
  unfold rd_range. destruct (Nat.leb_spec (length pre + length l) (length (pre ++ l ++ post))) as [|H]; [|rewrite !length_app in H; lia].
  by rewrite drop_app_length, take_app_length.
Qed.

Lemma small_label n : (0 < n <= 63)%nat ->
  (Z.of_nat n =? 0) = false /\ is_pointer (Z.of_nat n) = false /\ is_label (Z.of_nat n) = true /\ (Z.of_nat n >? 63) = false.
Proof.
  intros Hn. assert (Hall : forallb (fun k => negb (Z.of_nat k =? 0) && negb (is_pointer (Z.of_nat k)) && is_label (Z.of_nat k) && negb (Z.of_nat k >? 63)) (seq 1 63) = true)
    by (vm_compute; reflexivity).
  rewrite forallb_forall in Hall. specialize (Hall n ltac:(apply in_seq; lia)). by destruct (_ =? 0), (is_pointer _), (is_label _), (_ >? _).
Qed.

(** Reading and skipping what is encoded, wherever it stands. *)
Lemma skip_wire ls post : Forall label_ok ls -> forall pre fuel, (length ls < fuel)%nat ->
  skip_labels fuel (pre ++ wire ls ++ post) (length pre) = AOk ((length pre + length (wire ls))%nat, None).
Proof.
  induction 1 as [|l ls Hl _ IH]; intros pre [|fuel] Hf; cbn [length] in *; try lia; cbn [skip_labels].
  - destruct (Nat.leb_spec (length (pre ++ wire [] ++ post)) (length pre)) as [H|_]; [rewrite !length_app in H; cbn in H; lia|].
    change (wire [] ++ post) with (0 :: post). by rewrite rd8_app.
  - rewrite wire_cons. set (msg := pre ++ _). assert (Hm : msg = (pre ++ Z.of_nat (length l) :: l) ++ wire ls ++ post).
    { unfold msg. cbn [app]. by rewrite <- !app_assoc. }
    destruct (Nat.leb_spec (length msg) (length pre)) as [H|_]; [rewrite Hm, !length_app in H; cbn in H; lia|].
    assert (Hc : rd8 msg (length pre) = AOk (Z.of_nat (length l))) by apply rd8_app. rewrite Hc. cbn [mbind ares_bind].
    destruct (small_label _ (proj1 Hl)) as (-> & -> & -> & _). rewrite Nat2Z.id.
    replace (length pre + 1 + length l)%nat with (length (pre ++ Z.of_nat (length l) :: l)) by (rewrite length_app; cbn; lia).
    rewrite Hm, IH by lia. do 2 f_equal. rewrite length_app. cbn [length]. rewrite length_app. lia.
Qed.

Definition after (out : bytes) (ls : list bytes) : bytes :=
  match out, ls with
  | _, [] => out
  | [], _ => dotted ls
  | _, _ => out ++ "."%chr :: dotted ls
  end.

Lemma read_wire ls post outsz : Forall label_ok ls -> forall pre fuel out, (length ls < fuel)%nat ->
  (length (after out ls) < outsz)%nat ->
  read_labels fuel (pre ++ wire ls ++ post) (length pre) out outsz = AOk (after out ls, None).
Proof.
  induction 1 as [|l ls Hl _ IH]; intros pre [|fuel] out Hf Ho; cbn [length] in *; try lia; cbn [read_labels].
  - destruct (Nat.leb_spec (length (pre ++ wire [] ++ post)) (length pre)) as [H|_]; [rewrite !length_app in H; cbn in H; lia|].
    change (wire [] ++ post) with (0 :: post). rewrite rd8_app. cbn. by destruct out.
  - rewrite wire_cons in *. set (msg := pre ++ _). assert (Hm : msg = (pre ++ Z.of_nat (length l) :: l) ++ wire ls ++ post).
    { unfold msg. cbn [app]. by rewrite <- !app_assoc. }
    assert (Hm1 : msg = (pre ++ [Z.of_nat (length l)]) ++ l ++ wire ls ++ post) by (unfold msg; cbn [app]; by rewrite <- !app_assoc).
    assert (Hlen : (length pre + 1 + length l < length msg)%nat) by (rewrite Hm, !length_app; cbn; unfold wire; rewrite length_app; cbn; lia).
    destruct (Nat.leb_spec (length msg) (length pre)) as [H|_]; [lia|].
    assert (Hc : rd8 msg (length pre) = AOk (Z.of_nat (length l))) by apply rd8_app. rewrite Hc. cbn [mbind ares_bind].
    destruct (small_label _ (proj1 Hl)) as (-> & -> & -> & ->). cbn [negb]. rewrite Nat2Z.id.
    destruct (Nat.ltb_spec (length msg) (length pre + 1 + length l)); [lia|].
    set (o := if is_nil out then out else out ++ ["."%chr]).
    assert (Hol : after out (l :: ls) = after (o ++ l) ls).
    { destruct Hl as [[Hl0 _] _]. unfold o. destruct l as [|c l]; [cbn in Hl0; lia|]. destruct out as [|x out], ls as [|l' ls]; cbn; try done; rewrite <- !app_assoc; done. }
    assert (Hoo : (length (o ++ l) <= length (after out (l :: ls)))%nat).
    { rewrite Hol. destruct (o ++ l) as [|x y], ls as [|l' ls]; cbn [after length]; rewrite ?length_app; cbn [length]; lia. }
    rewrite length_app in Hoo. assert (Hlo : (0 < length out)%nat -> length o = (length out + 1)%nat).
    { unfold o. destruct out; cbn [is_nil length]; [lia|]. rewrite length_app. cbn. lia. }
    destruct Hl as [[Hl0 _] _].
    assert (Hg : (0 <? length out)%nat && (outsz <=? length out + 1)%nat = false).
    { destruct (Nat.ltb_spec 0 (length out)); [|done]. specialize (Hlo ltac:(lia)). destruct (Nat.leb_spec outsz (length out + 1)); [lia|done]. }
    rewrite Hg. destruct (Nat.leb_spec outsz (length o + length l)); [lia|].
    replace (length pre + 1)%nat with (length (pre ++ [Z.of_nat (length l)])) by (rewrite length_app; cbn; lia).
    rewrite Hm1, rd_range_app. cbn [mbind ares_bind]. rewrite <- Hm1.
    replace (length (pre ++ [Z.of_nat (length l)]) + length l)%nat with (length (pre ++ Z.of_nat (length l) :: l)) by (rewrite !length_app; cbn; lia).
    rewrite Hm, IH, <- Hol; [done|lia|by rewrite <- Hol].
Qed.

Lemma rd16_app pre v post : 0 <= v < 65536 -> rd16 (pre ++ put16 v ++ post) (length pre) = AOk v.
Proof.
  intros Hv. unfold rd16, put16. cbn [app]. rewrite rd8_app. cbn [mbind ares_bind].
  replace (length pre + 1)%nat with (length (pre ++ [Z.shiftr v 8 mod 256])) by (rewrite length_app; cbn; lia).
  rewrite cons_middle, app_assoc, rd8_app. cbn [mbind ares_bind]. f_equal.
  rewrite Z.shiftr_div_pow2 by lia. change (2 ^ 8) with 256.
  assert (Hd : (v / 256) mod 256 = v / 256) by (apply Z.mod_small; split; [apply Z.div_pos; lia|apply Z.div_lt_upper_bound; lia]).
  rewrite Hd, Z.shiftl_mul_pow2 by lia. pose proof (Z.add_lor_land (v / 256 * 2 ^ 8) (v mod 256)) as Ha.
  assert (H0 : Z.land (v / 256 * 2 ^ 8) (v mod 256) = 0).
  { change 256 with (2 ^ 8) at 2. rewrite <- Z.land_ones by lia.
    rewrite (Z.land_comm v), Z.land_assoc, Z.land_ones, Z_mod_mult by lia. done. }
  rewrite H0 in Ha. pose proof (Z.div_mod v 256 ltac:(lia)). lia.
Qed.

Lemma read_name_wire ls pre post outsz : Forall label_ok ls -> ls <> [] -> (length (dotted ls) < outsz)%nat ->
  dns_read_name (pre ++ wire ls ++ post) (length pre) outsz = AOk (dotted ls).
Proof.
  intros Hls Hne Hl. unfold dns_read_name. destruct (Nat.eqb_spec outsz 0); [lia|]. cbn [read_loop DNS_HOPS].
  assert (Hw : (length ls < length (wire ls))%nat).
  { clear. induction ls as [|l ls IH]; [cbn; lia|]. rewrite wire_cons. cbn [length]. rewrite length_app. lia. }
  rewrite read_wire; [|done|rewrite !length_app; lia|by destruct ls]. cbn [mbind ares_bind].
  assert (Ha : after [] ls = dotted ls) by by destruct ls. rewrite Ha.
  destruct ls as [|l ls]; [done|]. apply Forall_inv in Hls. by destruct (dotted_cons_nonempty l ls Hls) as (c & t & ->).
Qed.

Lemma skip_name_wire ls pre post : Forall label_ok ls ->
  dns_skip_name (pre ++ wire ls ++ post) (length pre) = AOk (length pre + length (wire ls))%nat.
Proof.
  intros Hls. unfold dns_skip_name. cbn [skip_loop DNS_HOPS]. rewrite skip_wire; [done|done|].
  assert (Hw : (length ls < length (wire ls))%nat).
  { clear. induction ls as [|l ls IH]; [cbn; lia|]. rewrite wire_cons. cbn [length]. rewrite length_app. lia. }
  rewrite !length_app. lia.
Qed.

Lemma dotted_clean ls : Forall label_ok ls -> 0 ∉ dotted ls.
Proof.
  induction 1 as [|l ls (_ & _ & Hl) _ IH]; [by apply not_elem_of_nil|]. destruct ls as [|l' ls]; [done|].
  change (dotted (l :: l' :: ls)) with (l ++ "."%chr :: dotted (l' :: ls)).
  rewrite not_elem_of_app, not_elem_of_cons. done.
Qed.

(** A reply with the question of the query behind any header with QDCOUNT 1. *)
Lemma check_own_question ls hd counts qtype answers : Forall label_ok ls -> ls <> [] -> (length (dotted ls) < 256)%nat ->
  0 <= qtype < 65536 -> length hd = 4%nat -> length counts = 6%nat ->
  dns_check_question (hd ++ put16 1 ++ counts ++ wire ls ++ put16 qtype ++ put16 1 ++ answers) (dotted ls) qtype =
    AOk (16 + length (wire ls))%nat.
Proof.
  intros Hls Hne Hl Hq Hhd Hcn. set (msg := hd ++ _). unfold dns_check_question.
  assert (Hm : msg = (hd ++ put16 1 ++ counts) ++ wire ls ++ (put16 qtype ++ put16 1 ++ answers)) by (unfold msg; by rewrite <- !app_assoc).
  assert (Hp : length (hd ++ put16 1 ++ counts) = 12%nat) by (rewrite !length_app, Hhd, Hcn; done).
  set (pre := hd ++ put16 1 ++ counts) in *. assert (Hlen : length msg = (16 + length (wire ls) + length answers)%nat).
  { rewrite Hm, !length_app, Hp. cbn. lia. }
  destruct (Nat.ltb_spec (length msg) 12); [lia|].
  assert (Hqd : rd16 msg 4 = AOk 1) by (unfold msg; rewrite <- Hhd; by apply rd16_app). rewrite Hqd. cbn [mbind ares_bind].
  change (negb (1 =? 1)) with false. cbn match.
  pose proof (read_name_wire ls pre (put16 qtype ++ put16 1 ++ answers) 256 Hls Hne Hl) as Hr. rewrite Hp, <- Hm in Hr.
  rewrite Hr. cbn [mbind ares_bind]. rewrite c_str_clean, ieq_refl by by apply dotted_clean. cbn [negb].
  pose proof (skip_name_wire ls pre (put16 qtype ++ put16 1 ++ answers) Hls) as Hs. rewrite Hp, <- Hm in Hs.
  rewrite Hs. cbn [mbind ares_bind]. destruct (Nat.ltb_spec (length msg) (12 + length (wire ls) + 4)); [lia|].
  assert (Hpw : length (pre ++ wire ls) = (12 + length (wire ls))%nat) by (rewrite length_app; lia).
  assert (Ht : rd16 msg (12 + length (wire ls)) = AOk qtype) by (rewrite Hm, app_assoc, <- Hpw; by apply rd16_app).
  rewrite Ht. cbn [mbind ares_bind]. rewrite Z.eqb_refl. cbn [negb].
  assert (Hpw2 : length ((pre ++ wire ls) ++ put16 qtype) = (12 + length (wire ls) + 2)%nat) by (rewrite length_app, Hpw; done).
  assert (Hc : rd16 msg (12 + length (wire ls) + 2) = AOk 1).
  { rewrite Hm, app_assoc, (app_assoc _ (put16 qtype)), <- Hpw2. by apply rd16_app. }
  rewrite Hc. cbn [mbind ares_bind]. change (negb (1 =? 1)) with false. cbn match. f_equal. lia.
Qed.

(** ** The order of the MX hosts *)

Definition pref_le (x y : AuthMx) : Prop := mx_pref x <= mx_pref y.

(** The same entries, and those of one preference in the same order. *)
Definition stable (l l' : list AuthMx) : Prop :=
  l ≡ₚ l' /\ forall v, filter (fun x => mx_pref x = v) l = filter (fun x => mx_pref x = v) l'.

Lemma stable_trans l1 l2 l3 : stable l1 l2 -> stable l2 l3 -> stable l1 l3.
Proof. intros [P1 F1] [P2 F2]. split; [by rewrite P1|]. intros v. by rewrite F1. Qed.

Lemma stable_cons x l l' : stable l l' -> stable (x :: l) (x :: l').
Proof. intros [P F]. split; [by rewrite P|]. intros v. rewrite !filter_cons, F. done. Qed.

Lemma stable_app l l' r : stable l l' -> stable (l ++ r) (l' ++ r).
Proof. intros [P F]. split; [by rewrite P|]. intros v. by rewrite !filter_app, F. Qed.

Lemma stable_swap x y l : mx_pref x > mx_pref y -> stable (x :: y :: l) (y :: x :: l).
Proof.
  intros Hxy. split; [by constructor|]. intros v. rewrite !filter_cons.
  destruct (decide (mx_pref x = v)), (decide (mx_pref y = v)); try done. lia.
Qed.

Lemma pass_spec n : forall l, length l = S n ->
  exists f m, mx_pass n l = f ++ [m] /\ Forall (fun x => pref_le x m) f /\ stable l (f ++ [m]).
Proof.
  induction n as [|n IH]; intros l Hl.
  { destruct l as [|x [|y l]]; try done. exists [], x. repeat split; [constructor|done]. }
  destruct l as [|x [|y t]]; try done. cbn [mx_pass]. destruct (Z.gtb_spec (mx_pref x) (mx_pref y)).
  - destruct (IH (x :: t) ltac:(cbn in *; lia)) as (f & m & -> & Hf & Hs). exists (y :: f), m. split; [done|].
    split; [|eapply stable_trans; [by apply stable_swap; lia|by apply stable_cons]]. constructor; [|done].
    assert (Hx : x ∈ f ++ [m]) by (rewrite <- (proj1 Hs); by constructor). unfold pref_le in *.
    apply elem_of_app in Hx as [Hx|Hx%list_elem_of_singleton]; [|subst; lia].
    eapply Forall_forall in Hf; [|exact Hx]. lia.
  - destruct (IH (y :: t) ltac:(cbn in *; lia)) as (f & m & -> & Hf & Hs). exists (x :: f), m. split; [done|].
    split; [|by apply stable_cons]. constructor; [|done].
    assert (Hy : y ∈ f ++ [m]) by (rewrite <- (proj1 Hs); by constructor). unfold pref_le in *.
    apply elem_of_app in Hy as [Hy|Hy%list_elem_of_singleton]; [|subst; lia].
    eapply Forall_forall in Hf; [|exact Hy]. lia.
Qed.

Lemma pass_app n : forall l b, (n < length l)%nat -> mx_pass n (l ++ b) = mx_pass n l ++ b.
Proof.
  induction n as [|n IH]; intros l b Hl; [by destruct l|]. destruct l as [|x [|y t]]; cbn [length] in *; try lia. cbn [app mx_pass].
  destruct (_ >? _).
  - change (x :: t ++ b) with ((x :: t) ++ b). by rewrite IH by (cbn; lia).
  - change (y :: t ++ b) with ((y :: t) ++ b). by rewrite IH by (cbn; lia).
Qed.

Lemma pass_length n : forall l, length (mx_pass n l) = length l.
Proof. induction n as [|n IH]; intros [|x [|y t]]; try done. cbn [mx_pass]. destruct (_ >? _); cbn [length]; by rewrite IH. Qed.

Lemma mx_passes_app n : forall l b, (n < length l)%nat -> mx_passes n (l ++ b) = mx_passes n l ++ b.
Proof.
  induction n as [|n IH]; intros l b Hl; [done|]. cbn [mx_passes]. rewrite pass_app by done. apply IH. rewrite pass_length. lia.
Qed.

Lemma passes_spec n : forall l, length l = S n -> StronglySorted pref_le (mx_passes n l) /\ stable l (mx_passes n l).
Proof.
  induction n as [|n IH]; intros l Hl.
  { destruct l as [|x [|y l]]; try done. split; [repeat constructor|done]. }
  cbn [mx_passes]. destruct (pass_spec (S n) l Hl) as (f & m & Hp & Hf & Hs).
  assert (Hlf : length f = S n) by (apply (f_equal length) in Hp; rewrite pass_length, length_app in Hp; cbn in Hp; lia).
  rewrite Hp, mx_passes_app by lia. destruct (IH f Hlf) as [Hsort Hst]. split; [|eapply stable_trans; [exact Hs|by apply stable_app]].
  assert (Hall : Forall (fun x => pref_le x m) (mx_passes n f)) by (by rewrite <- (proj1 Hst)).
  revert Hsort Hall. generalize (mx_passes n f). intros g. induction 1 as [|x g Hg IHg Hx]; intros Hall; [repeat constructor|].
  apply Forall_cons in Hall as [Hxm Hall]. cbn [app]. constructor; [by apply IHg|]. apply Forall_app. split; [done|by constructor].
Qed.

Lemma sort_spec l : StronglySorted pref_le (mx_sort l) /\ stable l (mx_sort l).
Proof.
  unfold mx_sort. destruct l as [|x l]; [split; [constructor|done]|]. apply passes_spec. cbn [length]. lia.
Qed.

(** ** The cache *)

(** [r] is an answer to the query: its question names [name] and [qtype]. *)
Definition answers (r name : bytes) (qtype : Z) : Prop :=
  (12 <= length r)%nat /\ exists p, dns_check_question r name qtype = AOk p.

Lemma answers_name r name qtype : answers r name qtype ->
  exists qn, dns_read_name r 12 256 = AOk qn /\ ieq (c_str qn) name = true /\ (length name <= 255)%nat.
Proof.
  intros [Hl [p Hp]]. unfold dns_check_question in Hp. destruct (Nat.ltb_spec (length r) 12); [done|].
  destruct (rd16 r 4) as [qd| |]; cbn [mbind ares_bind] in Hp; try done. destruct (negb _); [done|].
  destruct (dns_read_name r 12 256) as [qn| |] eqn:Hr; cbn [mbind ares_bind] in Hp; try done.
  destruct (ieq (c_str qn) name) eqn:Hi; cbn [negb] in Hp; [|done]. exists qn. split; [done|]. split; [done|].
  apply (read_name_fine r 12 256) in Hr. apply ieq_length in Hi. rewrite <- Hi.
  assert (Hc : (length (c_str qn) <= length qn)%nat) by (unfold c_str; rewrite <- (take_drop_while (fun c => negb (c =? 0)) qn) at 2; rewrite length_app; lia).
  lia.
Qed.

Lemma answers_ieq r name name' qtype : ieq name name' = true -> answers r name qtype -> answers r name' qtype.
Proof.
  intros Hi Ha. destruct (answers_name r name qtype Ha) as (qn & Hr & Hq & _). destruct Ha as [Hl [p Hp]]. split; [done|].
  exists p. rewrite <- Hp. unfold dns_check_question. rewrite Hr. cbn [mbind ares_bind]. rewrite Hq.
  assert (Hq' : ieq (c_str qn) name' = true) by (apply ieq_spec in Hi, Hq; apply ieq_spec; congruence). by rewrite Hq'.
Qed.

Definition ent_ok (e : DnsCacheEnt) : Prop := ce_expires e = 0 \/ answers (ce_reply e) (ce_name e) (ce_qtype e).

Definition cache_ok (c : list DnsCacheEnt) : Prop := length c = AUTH_DNS_CACHE_SLOTS /\ Forall ent_ok c.

Lemma cache_get_spec now gen qtype name rsz c : Forall ent_ok c ->
  Forall ent_ok (cache_get now gen qtype name rsz c).1 /\
  length (cache_get now gen qtype name rsz c).1 = length c /\
  forall r, (cache_get now gen qtype name rsz c).2 = Some r ->
    answers r name qtype /\ exists e, e ∈ c /\ ce_reply e = r /\ ce_gen e = gen /\ now < ce_expires e.
Proof.
  induction 1 as [|e c He Hc (IH1 & IH2 & IH3)]; [by split|]. cbn [cache_get].
  destruct (cache_get now gen qtype name rsz c) as [c' r']. cbn [fst snd] in *.
  assert (Hrest : forall e', ent_ok e' -> Forall ent_ok (e' :: c') /\ length (e' :: c') = length (e :: c) /\ forall r, r' = Some r ->
    answers r name qtype /\ exists e0, e0 ∈ e :: c /\ ce_reply e0 = r /\ ce_gen e0 = gen /\ now < ce_expires e0).
  { intros e' He'. split; [by constructor|]. split; [cbn; lia|]. intros r Hr. destruct (IH3 r Hr) as [Ha (e0 & Hin & Hx)].
    split; [done|]. exists e0. split; [by constructor|done]. }
  destruct (same_query e gen qtype name) eqn:Hs; [|by apply Hrest].
  destruct (Z.geb_spec now (ce_expires e)); [by apply Hrest; left|]. destruct (_ <? _)%nat; [by apply Hrest|]. cbn [fst snd].
  split; [by constructor|]. split; [done|]. intros r [= <-].
  apply andb_true_iff in Hs as [[[Hx Hg]%andb_true_iff Hq]%andb_true_iff Hn]. apply negb_true_iff, Z.eqb_neq in Hx.
  apply Z.eqb_eq in Hg, Hq. subst. destruct He as [|He]; [done|].
  split; [by eapply answers_ieq|]. exists e. split; [by constructor|]. split; [done|]. split; [done|lia].
Qed.

Section Transport.
Context {A : AuthSys}.

(** What runs between two uses of the cache. *)
Definition quiet (d d' : Dns) : Prop :=
  d_cache d' = d_cache d /\ d_victim d' = d_victim d /\ d_gen d' = d_gen d /\ d_asked d' = d_asked d /\ d_sent d' = d_sent d.

Definition undisturbed {B} (m : prog Dns B) : Prop := forall d, wp m (fun d' o => quiet d d' /\ o <> None) d.

Lemma quiet_trans d1 d2 d3 : quiet d1 d2 -> quiet d2 d3 -> quiet d1 d3.
Proof. unfold quiet. intros (? & ? & ? & ? & ?) (? & ? & ? & ? & ?). repeat split; congruence. Qed.

Lemma undisturbed_ret {B} (b : B) : undisturbed (mret b).
Proof. by intros d. Qed.

Lemma undisturbed_bind {B C} (m : prog Dns B) (f : B -> prog Dns C) : undisturbed m -> (forall b, undisturbed (f b)) -> undisturbed (m ≫= f).
Proof.
  intros Hm Hf d. apply wp_bind. eapply wp_mono; [apply Hm|]. intros d1 [b|] [Hq Ho]; [|done]. cbn.
  eapply wp_mono; [apply Hf|]. intros d2 o [Hq2 Ho2]. split; [by eapply quiet_trans|done].
Qed.

Lemma undisturbed_gets {B} (f : Dns -> B) : undisturbed (gets f).
Proof. by intros d. Qed.

Lemma undisturbed_sys {B} (f : sys -> sys * B) : undisturbed (on_sys f).
Proof. intros d. unfold wp, on_sys. destruct (f (d_sys d)). by split. Qed.

Lemma undisturbed_modify (f : Dns -> Dns) : (forall d, quiet d (f d)) -> undisturbed (modify f).
Proof. intros Hf d. by split. Qed.

#[local] Hint Resolve undisturbed_ret undisturbed_gets undisturbed_sys undisturbed_modify : undisturbed.

Lemma dns_id_undisturbed : undisturbed dns_id.
Proof.
  unfold dns_id. apply undisturbed_bind; [auto with undisturbed|]. intros fd. apply undisturbed_bind; [destruct fd; auto with undisturbed|].
  intros fd'. destruct fd'; cbn [negb]; [|auto with undisturbed]. apply undisturbed_bind; [by apply undisturbed_modify|]. intros _.
  apply undisturbed_bind; [auto with undisturbed|]. intros rs. destruct (id_loop rs []) as [[|a [|b l]]|]; auto with undisturbed;
    (apply undisturbed_bind; [by apply undisturbed_modify|auto with undisturbed]).
Qed.

Lemma resolver_undisturbed : undisturbed resolver_addrport.
Proof.
  unfold resolver_addrport. apply undisturbed_bind; [auto with undisturbed|]. intros src. apply undisturbed_bind; [auto with undisturbed|]. intros ns.
  destruct (match ns with Some _ => _ | None => _ end); [auto with undisturbed|]. destruct (split_resolver src) as [a p].
  apply undisturbed_bind.
  - destruct (is_nil a); [|auto with undisturbed]. apply undisturbed_bind; [|auto with undisturbed].
    unfold resolver_file_addr. apply undisturbed_bind; auto with undisturbed.
  - intros a'. apply undisturbed_bind; [by apply undisturbed_modify|auto with undisturbed].
Qed.

(** The steps of a query up to the ghost list of what was sent. *)
Definition sends (name : bytes) (qtype : Z) (d d' : Dns) : Prop :=
  d_cache d' = d_cache d /\ d_victim d' = d_victim d /\ d_gen d' = d_gen d /\ d_asked d' = d_asked d /\
  (d_sent d' = d_sent d \/ d_sent d' = (name, qtype) :: d_sent d).

Lemma exchange_spec name qtype d : wp (dns_exchange name qtype) (fun d' o => sends name qtype d d' /\ o <> None) d.
Proof.
  assert (Hq : forall d', quiet d d' -> sends name qtype d d') by (intros d' (?&?&?&?&?); repeat split; auto).
  unfold dns_exchange. apply wp_bind. eapply wp_mono; [apply dns_id_undisturbed|]. intros d1 [[qid|]|] [H1 Ho]; [|by split; auto|done].
  apply wp_bind. eapply wp_mono; [apply resolver_undisturbed|]. intros d2 [[ns port]|] [H2 Ho2]; [|done].
  apply wp_bind. eapply wp_mono; [apply undisturbed_sys|]. intros d3 [fd|] [H3 Ho3]; [|done].
  assert (H : quiet d d3) by (eapply quiet_trans; [exact H1|]; by eapply quiet_trans). clear H1 H2 H3.
  destruct fd; cbn [negb]; [|by split; auto]. destruct (pton false ns) as [sa|]; [|by split; auto].
  destruct (build_query qid qtype name) as [q|]; [|by split; auto]. wp_steps.
  set (d4 := with_sent _ _). assert (H4 : sends name qtype d d4) by (destruct H as (?&?&?&?&?); unfold d4; repeat split; cbn; auto; right; congruence).
  assert (Hs : forall d', quiet d4 d' -> sends name qtype d d').
  { intros d' (E1&E2&E3&E4&E5). unfold sends. rewrite E1, E2, E3, E4, E5. exact H4. }
  eapply wp_mono; [apply undisturbed_sys|]. intros d5 [ok|] [H5 Ho5]; [|done]. destruct ok; cbn [negb]; [|by split; auto].
  apply wp_bind. eapply wp_mono; [apply undisturbed_sys|]. intros d6 [n|] [H6 Ho6]; [|done]. destruct (_ <=? _); [split; [apply Hs; by eapply quiet_trans|done]|].
  apply wp_bind. eapply wp_mono; [apply undisturbed_sys|]. intros d7 [r|] [H7 Ho7]; [|done].
  split; [|done]. apply Hs. eapply quiet_trans; [exact H5|]. by eapply quiet_trans.
Qed.

(** What a query leaves: the cache as it must be, one question on the ghost list. *)
Definition queried (name : bytes) (qtype : Z) (d d' : Dns) : Prop :=
  cache_ok (d_cache d') /\ d_gen d' = d_gen d /\
  (d_asked d' = d_asked d \/ d_asked d' = (name, qtype) :: d_asked d) /\
  (d_sent d' = d_sent d \/ d_sent d' = (name, qtype) :: d_sent d).

Lemma slot_lt v : (Z.to_nat (v mod Z.of_nat AUTH_DNS_CACHE_SLOTS) < AUTH_DNS_CACHE_SLOTS)%nat.
Proof. pose proof (Z.mod_pos_bound v (Z.of_nat AUTH_DNS_CACHE_SLOTS) ltac:(unfold AUTH_DNS_CACHE_SLOTS; lia)). unfold AUTH_DNS_CACHE_SLOTS in *. lia. Qed.

Lemma take_255 r name qtype : answers r name qtype -> take 255 name = name.
Proof. intros (qn & _ & _ & Hl)%answers_name. by rewrite take_ge. Qed.

Lemma query_spec name qtype d : cache_ok (d_cache d) ->
  wp (dns_query_raw name qtype)
    (fun d' o => queried name qtype d d' /\ exists x, o = Some x /\ forall r, x = Some r -> answers r name qtype) d.
Proof.
  intros Hok. unfold dns_query_raw. destruct (is_nil name). { split; [by split; auto|]. by eexists. }
  wp_steps. set (d1 := with_asked _ d). unfold dns_cache_get. apply wp_bind. eapply wp_mono; [apply undisturbed_sys|].
  intros d2 [now|] [H2 Ho2]; [|done]. cbn beta match. wp_steps. unfold id.
  destruct H2 as (Hc2 & Hv2 & Hg2 & Ha2 & Hs2). assert (Hok2 : cache_ok (d_cache d2)) by (rewrite Hc2; exact Hok). destruct Hok2 as [Hl2 Hf2].
  pose proof (cache_get_spec now (d_gen d2) qtype name AUTH_DNS_BUFSZ (d_cache d2) Hf2) as (H3 & H4 & H5).
  destruct (cache_get _ _ _ _ _ _) as [c r]. cbn [fst snd] in *. wp_steps. set (d3 := with_cache c _ d2).
  assert (Hq3 : queried name qtype d d3).
  { unfold d3. split; [split; cbn; [congruence|done]|]. cbn. rewrite Hg2, Ha2, Hs2. cbn. auto. }
  destruct r as [r|].
  { split; [done|]. eexists. split; [done|]. intros r' [= <-]. by apply H5. }
  apply wp_bind. eapply wp_mono; [apply exchange_spec|]. intros d4 x [H6 Ho6].
  assert (Hq4 : queried name qtype d d4).
  { destruct H6 as (E1 & E2 & E3 & E4 & E5). destruct Hq3 as (F1 & F2 & F3 & F4).
    split; [by rewrite E1|]. split; [congruence|]. split; [by rewrite E4|].
    unfold d3 in E5. cbn in E5. rewrite Hs2 in E5. cbn in E5. exact E5. }
  destruct x as [[[qid r]|]|]; cbn beta match; [|by split; [done|eexists]|done].
  destruct (reply_accepted qid qtype name r) eqn:Hacc; cbn [negb]; [|by split; [done|eexists]].
  assert (Hans : answers r name qtype).
  { unfold reply_accepted in Hacc. apply andb_true_iff in Hacc as [[Hl _]%andb_true_iff Hc]. split; [by apply Nat.leb_le|].
    destruct (dns_check_question r name qtype); [by eexists|done..]. }
  assert (Hend : forall d', queried name qtype d d' -> wp (mret (Some r)) (fun d'' o => queried name qtype d d'' /\ exists x, o = Some x /\
    forall r', x = Some r' -> answers r' name qtype) d').
  { intros d' Hd'. split; [done|]. eexists. split; [done|]. by intros r' [= <-]. }
  apply wp_bind. destruct (dns_reply_ttl r) as [ttl| |]; [|by apply Hend..].
  apply wp_bind. eapply wp_mono; [apply undisturbed_sys|]. intros d5 [now2|] [H7 Ho7]; [|done]. cbn beta match. unfold dns_cache_put. wp_steps. apply Hend.
  destruct H7 as (E1 & E2 & E3 & E4 & E5). destruct Hq4 as ([F1 F1'] & F2 & F3 & F4).
  split; [|by cbn; rewrite E3, E4, E5]. split; cbn; [rewrite length_insert; congruence|].
  rewrite E1. apply Forall_insert; [done|]. right. cbn. by rewrite (take_255 r name qtype).
Qed.

End Transport.

Lemma answer_loop_cap {A} (handle : Z -> nat -> nat -> ares (option A)) msg : forall n cap p l,
  answer_loop handle msg n cap p = AOk l -> (length l <= cap)%nat.
Proof.
  induction n as [|n IH]; intros [|cap] p l; cbn [answer_loop]; try (intros [= <-]; cbn; lia).
  destruct (dns_skip_name msg p) as [q| |]; cbn [mbind ares_bind]; try done. destruct (_ <? _)%nat; [done|].
  destruct (rd16 msg q); cbn [mbind ares_bind]; try done. destruct (rd16 msg (q + 8)); cbn [mbind ares_bind]; try done.
  destruct (_ <? _)%nat; [done|]. destruct (handle _ _ _) as [[x|]| |]; cbn [mbind ares_bind]; try done; [|apply IH].
  destruct (answer_loop handle msg n cap _) eqn:Hl; cbn [mbind ares_bind]; try done. intros [= <-]. apply IH in Hl. cbn. lia.
Qed.

(** ** A resolver *)

(** The last datagram sent; every question is echoed and answered from [zone]. *)
Definition rr (qtype : Z) (rdata : bytes) : bytes := [192; 12] ++ put16 qtype ++ put16 1 ++ [0; 0; 1; 44] ++ put16 (len rdata) ++ rdata.

Definition zone_reply (q : bytes) (rrs : list bytes) : bytes :=
  take 2 q ++ [129; 128] ++ put16 1 ++ put16 (Z.of_nat (length rrs)) ++ [0; 0; 0; 0] ++ drop 12 q ++ concat rrs.

Definition host_rr (pref : Z) (name : string) : bytes := rr 15 (put16 pref ++ len (bs name) :: bs name ++ [0]).

Definition zone (qtype : Z) : list bytes :=
  if qtype =? 16 then [rr 16 (17 :: bs "v=spf1 a:b.c ~all")]
  else if qtype =? 1 then [rr 1 [192; 0; 2; 1]]
  else if qtype =? 15 then [host_rr 20 "b"; host_rr 10 "a"; host_rr 20 "c"]
  else [].

Definition query_type (q : bytes) : Z := match rd16 q (length q - 4) with AOk t => t | _ => 0 end.

Definition EchoSys : AuthSys := {|
  sys := bytes;
  au_time x := (x, 1000);
  open_urandom x := (x, true);
  read_urandom x := (x, [REintr; RData [18; 52]]);
  resolv_conf x := (x, Some [bs "# resolver"; bs "nameserver 192.0.2.53"]);
  pton v6 s := if v6 then None else Some s;
  udp_socket x := (x, true);
  udp_send _ _ _ q := (q, true);
  udp_poll x := (x, 1);
  udp_recv x _ := (x, Some (zone_reply x (zone (query_type x))));
|}.

(** No slot in use, nothing asked. *)
Definition fresh_dns {A : AuthSys} (x : sys) : Dns := MkDns x [] 0 false None (replicate AUTH_DNS_CACHE_SLOTS free_slot) 0 [] [].

Lemma fresh_cache_ok {A : AuthSys} x : cache_ok (d_cache (fresh_dns x)).
Proof. split; [done|]. cbn. repeat (constructor; [by left|]). constructor. Qed.

(** ** Properties *)

(** C38: No reply can make the client read outside it. For every datagram of at
    least the 12 bytes the transport insists on, whatever pointers, lengths and counts
    it holds, the question check, the TTL computation and the four answer parsers end
    without an access outside the bytes received; names stay below the size of their
    buffer, and the copy of a TXT record writes exactly the bytes that were counted. *)
Theorem dns_replies_safe msg name qtype cap : (12 <= length msg)%nat ->
  (fine (dns_check_question msg name qtype) /\ fine (dns_reply_ttl msg) /\
   fine (txt_answers msg name cap) /\ fine (a_answers msg name cap) /\ fine (aaaa_answers msg cap) /\ fine (mx_answers msg cap)) /\
  (forall p outsz s, dns_read_name msg p outsz = AOk s -> (0 < length s < outsz)%nat) /\
  forall rd, length (txt_copy (length rd) rd) = txt_length (length rd) rd.
Proof.
  intros Hl. split; [|split; [intros p outsz s; apply read_name_fine|intros rd; apply txt_copy_length]].
  split; [apply check_question_fine|]. split; [apply reply_ttl_fine|].
  repeat split; repeat (apply fine_bind; [first [apply check_question_fine|by apply ancount_fine|apply skip_fine]|intros ? _]);
    apply answer_loop_fine; intros; [by apply txt_handle_fine|by apply addr_handle_fine..|by apply mx_handle_fine].
Qed.

Lemma dns_replies_safe_witness : (12 <= length (replicate 40 192))%nat /\ fine (dns_check_question (replicate 40 192) (bs "a.b") 16).
Proof. split; [cbn; lia|]. apply (dns_replies_safe (replicate 40 192) (bs "a.b") 16 16). cbn. lia. Defined.

(** The echo of a query is accepted. For every name of non-empty labels of at
    most 63 bytes and 255 bytes in all, [dns_query_raw] builds a query, and a reply
    with its id, QDCOUNT 1 and its question section, whatever the flags, the other
    counts and what follows, passes the check of id and question, which reads back
    the name that was encoded and ends at the first answer. *)
Theorem dns_question_round_trip ls qid qtype : Forall label_ok ls -> ls <> [] -> (length (dotted ls) < 256)%nat ->
  0 <= qid < 65536 -> 0 <= qtype < 65536 ->
  exists q, build_query qid qtype (dotted ls) = Some q /\
    forall flags counts answers, length flags = 2%nat -> length counts = 6%nat ->
    let r := put16 qid ++ flags ++ put16 1 ++ counts ++ drop 12 q ++ answers in
    reply_accepted qid qtype (dotted ls) r = true /\ dns_check_question r (dotted ls) qtype = AOk (length q).
Proof.
  intros Hls Hne Hl Hid Hq. unfold build_query, dns_encode_name. pose proof (wire_length ls Hls Hne) as Hw.
  unfold AUTH_DNS_BUFSZ. rewrite encode_dotted by (done || lia). cbn [mbind option_bind].
  destruct (Nat.ltb_spec 4096 (12 + length (wire ls) + 4)); [lia|]. eexists. split; [done|]. intros flags counts answers Hf Hc.
  set (q := put16 qid ++ put16 256 ++ _). assert (Hd : drop 12 q = wire ls ++ put16 qtype ++ put16 1) by reflexivity.
  assert (Hlq : length q = (16 + length (wire ls))%nat).
  { unfold q. rewrite !length_app. cbn [length put16]. lia. }
  rewrite Hd, Hlq. cbn zeta. set (r := put16 qid ++ _).
  assert (Hr : r = (put16 qid ++ flags) ++ put16 1 ++ counts ++ wire ls ++ put16 qtype ++ put16 1 ++ answers).
  { unfold r. by rewrite <- !app_assoc. }
  assert (Hchk : dns_check_question r (dotted ls) qtype = AOk (16 + length (wire ls))%nat).
  { rewrite Hr. apply check_own_question; try done. rewrite length_app, Hf. done. }
  split; [|exact Hchk]. unfold reply_accepted. rewrite Hchk.
  assert (Hlr : (12 <= length r)%nat) by (rewrite Hr, !length_app, Hf, Hc; cbn; lia).
  destruct (Nat.leb_spec 12 (length r)); [|lia]. assert (Hi : rd16 r 0 = AOk qid) by (apply (rd16_app []); done).
  rewrite Hi, Z.eqb_refl. done.
Qed.

Lemma dns_question_round_trip_witness : exists q, build_query 4660 15 (bs "mx.a.b") = Some q.
Proof.
  destruct (dns_question_round_trip [bs "mx"; bs "a"; bs "b"] 4660 15) as (q & Hq & _); [| |cbn; lia|lia|lia|exists q; exact Hq]; [|done].
  repeat (apply Forall_cons; split; [split; [cbn; lia|split; apply has_false; reflexivity]|]). constructor.
Defined.

(** A query always ends, the cache stays sound, and the answer is to the
    question. From a cache in which every live entry is a reply to the name and type
    it is filed under, [dns_query_raw] ends, leaves such a cache, sends at most one
    datagram, and what it returns, from the cache or from the network, has a question
    section with this name and type. So the parsers that skip the question unseen
    ([auth_dns_mx], [auth_dns_aaaa]) read answers to the right question. *)
Theorem query_answers_question {A : AuthSys} name qtype (d : Dns) : cache_ok (d_cache d) ->
  exists d' x, dns_query_raw name qtype d = (d', Some x) /\ cache_ok (d_cache d') /\
    (d_sent d' = d_sent d \/ d_sent d' = (name, qtype) :: d_sent d) /\
    forall r, x = Some r -> answers r name qtype.
Proof.
  intros Hok. pose proof (query_spec name qtype d Hok) as Hw. unfold wp in Hw.
  destruct (dns_query_raw name qtype d) as [d' o]. destruct Hw as ((H1 & _ & _ & H4) & x & Ho & Hx). cbn [fst snd] in *. subst o.
  by exists d', x.
Qed.

Lemma query_answers_question_witness : exists d' x, @dns_query_raw EchoSys (bs "a.b") 15 (@fresh_dns EchoSys []) = (d', Some x) /\ cache_ok (d_cache d').
Proof.
  destruct (@query_answers_question EchoSys (bs "a.b") 15 (@fresh_dns EchoSys []) (fresh_cache_ok _)) as (d' & x & H1 & H2 & _).
  by exists d', x.
Defined.

(** MX hosts come in the order RFC 5321 wants. What [auth_dns_mx] returns is the
    records of a reply to this MX question, at most [cap] of them, sorted by ascending
    preference, hosts of one preference in the order of the reply. *)
Theorem mx_hosts_in_order {A : AuthSys} name cap (d : Dns) : cache_ok (d_cache d) ->
  exists d' x, auth_dns_mx name cap d = (d', Some x) /\ forall l, x = Some l ->
    exists r l0, answers r name 15 /\ mx_answers r cap = AOk l0 /\ StronglySorted pref_le l /\ stable l0 l /\ (length l <= cap)%nat.
Proof.
  intros Hok. assert (Hw : wp (auth_dns_mx name cap) (fun _ o => exists x, o = Some x /\ forall l, x = Some l ->
    exists r l0, answers r name 15 /\ mx_answers r cap = AOk l0 /\ StronglySorted pref_le l /\ stable l0 l /\ (length l <= cap)%nat) d).
  { unfold auth_dns_mx. destruct (_ || _); [by eexists|]. apply wp_bind. eapply wp_mono; [by apply query_spec|].
    intros d' o (_ & x & -> & Hx). cbn beta match. wp_steps. eexists. split; [done|]. intros l Hl.
    destruct x as [r|]; cbn [mbind option_bind] in Hl; [|done]. destruct (mx_answers r cap) as [l0| |] eqn:Hm; cbn in Hl; try done.
    injection Hl as <-. exists r, l0. destruct (sort_spec l0) as [Hs Hst]. split; [by apply Hx|]. split; [done|]. split; [done|]. split; [done|].
    rewrite <- (Permutation_length (proj1 Hst)). unfold mx_answers in Hm.
    destruct (ancount r) as [n| |]; cbn [mbind ares_bind] in Hm; try done. destruct (dns_skip_name r 12); cbn [mbind ares_bind] in Hm; try done.
    by eapply answer_loop_cap. }
  unfold wp in Hw. destruct (auth_dns_mx name cap d) as [d' o]. destruct Hw as (x & Ho & Hx). cbn [snd] in *. subst o. by exists d', x.
Qed.

Lemma mx_hosts_in_order_witness : exists d' l, @auth_dns_mx EchoSys (bs "a.b") 16 (@fresh_dns EchoSys []) = (d', Some (Some l)) /\
  StronglySorted pref_le l /\ map mx_host l = [bs "a"; bs "b"; bs "c"].
Proof.
  destruct (@mx_hosts_in_order EchoSys (bs "a.b") 16 (@fresh_dns EchoSys []) (fresh_cache_ok _)) as (d' & x & H1 & H2).
  assert (Hx : match (@auth_dns_mx EchoSys (bs "a.b") 16 (@fresh_dns EchoSys [])).2 with
               | Some (Some l) => map mx_host l = [bs "a"; bs "b"; bs "c"] | _ => False end) by (vm_compute; reflexivity).
  rewrite H1 in Hx. cbn [snd] in Hx. destruct x as [l|]; [|destruct Hx]. destruct (H2 l eq_refl) as (r & l0 & _ & _ & Hs & _).
  exact (ex_intro _ d' (ex_intro _ l (conj H1 (conj Hs Hx)))).
Defined.
