(* ===== verification/AuthResults.v ===== *)
(** * SPF, DKIM and DMARC (src/src/auth_results.c)

    The evaluation of an inbound message and the Authentication-Results field. The
    state is that of the DNS client ([Dns]) and of the DKIM code ([DkimState]). The
    two SPF functions call each other; their recursion takes fuel, and a run that
    exhausts it is still running. *)

From S2P Require Import Prelude MailAddr MailHeader Prog HttpParse SmtpReply Dkim AuthDns.

Inductive AuthSpf := AUTH_SPF_NONE | AUTH_SPF_NEUTRAL | AUTH_SPF_PASS | AUTH_SPF_FAIL | AUTH_SPF_SOFTFAIL.
Inductive AuthDkim := AUTH_DKIM_NONE | AUTH_DKIM_PASS | AUTH_DKIM_FAIL.
Inductive AuthDmarc := AUTH_DMARC_NONE | AUTH_DMARC_PASS | AUTH_DMARC_FAIL.

#[export] Instance spf_eq : EqDecision AuthSpf.
Proof. solve_decision. Defined.
#[export] Instance dkim_eq : EqDecision AuthDkim.
Proof. solve_decision. Defined.

(** ** Domains *)

(** [auth_env_from_domain]; a C string. *)
Definition auth_env_from_domain (env_from : bytes) : bytes :=
  match env_from with
  | [] => []
  | c :: t =>
      if (c =? "<"%chr) && match t with d :: _ => d =? ">"%chr | [] => false end then []
      else match mail_addr_parse env_from with Some (_, d) => d | None => [] end
  end.

(** [auth_header_from_domain] *)
Definition auth_header_from_domain (msg : bytes) : option bytes :=
  if is_nil msg then None
  else
    hdr ← mail_header_get msg (bs "From") 2048;
    let hdr := c_str hdr in
    addr ← match cut "<"%chr hdr with
           | Some (_, a) => '(x, _) ← cut ">"%chr a; Some x
           | None => Some hdr
           end;
    '(_, d) ← mail_addr_parse addr;
    Some d.

(** ** Address ranges *)

(** [atoi]: [strtol] saturates to 64 bits and the result is cut to an [int]. *)
Definition atoi (s : bytes) : Z :=
  let s := drop_while is_space s in
  let '(neg, s) :=
    match s with
    | c :: t => if c =? "-"%chr then (true, t) else if c =? "+"%chr then (false, t) else (false, s)
    | [] => (false, s)
    end in
  let v := dec_value 0 (take_while is_digit s) in
  i32 (if neg then - Z.min v 9223372036854775808 else Z.min v 9223372036854775807).

(** The comparison of the first [bits] bits, byte by byte. *)
Fixpoint prefix_match (bits : Z) (ip m : bytes) : bool :=
  match ip, m with
  | x :: ip', y :: m' =>
      if bits <=? 0 then true
      else
        let mm := if bits >=? 8 then 255 else Z.land (Z.shiftl 255 (8 - bits)) 255 in
        if negb (Z.land x mm =? Z.land y mm) then false
        else prefix_match (if bits >=? 8 then bits - 8 else 0) ip' m'
  | _, _ => true
  end.

Section Auth.
Context {K : Mbed} {A : AuthSys}.

(** [spf_ip4_match] and [spf_ip6_match]: address size, the family and the widest
    prefix. *)
Definition spf_match (size : nat) (v6 : bool) (max : Z) (ip cidr : bytes) : bool :=
  if negb (length ip =? size)%nat then false
  else if (64 <=? length cidr)%nat then false
  else
    let '(buf, prefix) :=
      match cut "/"%chr cidr with
      | Some (a, n) => (a, let p := u32 (atoi n) in if p >? max then max else p)
      | None => (cidr, max)
      end in
    match pton v6 buf with
    | None => false
    | Some m => if prefix =? 0 then true else prefix_match prefix ip m
    end.

Definition spf_ip4_match : bytes -> bytes -> bool := spf_match 4 false 32.
Definition spf_ip6_match : bytes -> bytes -> bool := spf_match 16 true 128.

(** ** SPF *)

Definition AUTH_SPF_MAX_LOOKUPS : Z := 10.

(** Does the token start with this word, letter case aside? *)
Definition word (w : string) (tok : bytes) : bool := ieq (take (length (bs w)) tok) (bs w).

(** The optional qualifier, and the mechanism behind it. *)
Definition qualifier (tok : bytes) : AuthSpf * bytes :=
  match tok with
  | c :: t =>
      if c =? "-"%chr then (AUTH_SPF_FAIL, t)
      else if c =? "~"%chr then (AUTH_SPF_SOFTFAIL, t)
      else if c =? "?"%chr then (AUTH_SPF_NEUTRAL, t)
      else if c =? "+"%chr then (AUTH_SPF_PASS, t)
      else (AUTH_SPF_PASS, tok)
  | [] => (AUTH_SPF_PASS, tok)
  end.

(** The mechanisms a and mx, [n] bytes long: the domain behind a colon, else
    [def_dom]. *)
Definition mech_domain (n : nat) (mech def_dom : bytes) : bytes :=
  match drop n mech with
  | c :: d => if c =? ":"%chr then take 511 d else def_dom
  | [] => def_dom
  end.

(** The lookup of a or mx: does the address match, and the budget used. *)
Definition addr_term (dom ip : bytes) (lookups : Z) : prog Dns (bool * Z) :=
  let lookups := lookups + 1 in
  if lookups <=? AUTH_SPF_MAX_LOOKUPS then
    a ← auth_dns_a dom AUTH_MAX_ADDRS;
    mret (existsb (fun x => beq x ip) (default [] a), lookups)
  else mret (false, lookups).

(** One mechanism; [eval] is [auth_spf_eval_depth]. [Some] ends the evaluation. *)
Definition spf_term (eval : bytes -> Z -> prog Dns (AuthSpf * Z)) (tok def_dom ip : bytes) (lookups : Z)
  : prog Dns (option AuthSpf * Z) :=
  let '(q, mech) := qualifier tok in
  let hit (b : bool) := if b then Some q else None in
  if word "ip4:" mech then mret (hit (spf_ip4_match ip (take 63 (drop 4 mech))), lookups)
  else if word "ip6:" mech then mret (hit (spf_ip6_match ip (take 63 (drop 4 mech))), lookups)
  else if (length mech =? 3)%nat && word "all" mech then mret (Some q, lookups)
  else if word "a" mech then
    '(b, lookups) ← addr_term (mech_domain 1 mech def_dom) ip lookups; mret (hit b, lookups)
  else if word "mx" mech then
    '(b, lookups) ← addr_term (mech_domain 2 mech def_dom) ip lookups; mret (hit b, lookups)
  else if word "redirect=" mech then
    let lookups := lookups + 1 in
    '(r, lookups) ← (if lookups >? AUTH_SPF_MAX_LOOKUPS then mret (AUTH_SPF_NONE, lookups) else eval (take 511 (drop 9 mech)) lookups);
    mret (match r with
          | AUTH_SPF_PASS => Some q
          | AUTH_SPF_FAIL => Some AUTH_SPF_FAIL
          | AUTH_SPF_SOFTFAIL => Some AUTH_SPF_SOFTFAIL
          | _ => None
          end, lookups)
  else if word "include:" mech then
    let lookups := lookups + 1 in
    if lookups <=? AUTH_SPF_MAX_LOOKUPS then
      '(r, lookups) ← eval (take 511 (drop 8 mech)) lookups;
      mret (hit (bool_decide (r = AUTH_SPF_PASS)), lookups)
    else mret (None, lookups)
  else mret (None, lookups).

Fixpoint spf_terms (eval : bytes -> Z -> prog Dns (AuthSpf * Z)) (toks : list bytes) (def_dom ip : bytes) (lookups : Z)
  : prog Dns (AuthSpf * Z) :=
  match toks with
  | [] => mret (AUTH_SPF_NEUTRAL, lookups)
  | tok :: toks' =>
      '(r, lookups) ← spf_term eval tok def_dom ip lookups;
      match r with Some r => mret (r, lookups) | None => spf_terms eval toks' def_dom ip lookups end
  end.

(** [auth_spf_eval_record_depth]: the tokens between spaces, in turn. *)
Definition spf_record (eval : bytes -> Z -> prog Dns (AuthSpf * Z)) (rec def_dom ip : bytes) (lookups : Z) : prog Dns (AuthSpf * Z) :=
  spf_terms eval (runs (fun c => c =? SP) [] rec) def_dom ip lookups.

Fixpoint auth_spf_eval_depth (fuel : nat) (ip domain : bytes) (lookups : Z) : prog Dns (AuthSpf * Z) :=
  match fuel with
  | O => running
  | S fuel' =>
      if is_nil domain then mret (AUTH_SPF_NONE, lookups)
      else
        v ← auth_dns_txt domain AUTH_TXT_MAX_RECORDS;
        match List.find (word "v=spf1") (map c_str (default [] v)) with
        | Some s => spf_record (auth_spf_eval_depth fuel' ip) (drop_while (fun c => c =? SP) (drop 6 s)) domain ip lookups
        | None => mret (AUTH_SPF_NONE, lookups)
        end
  end.

(** Enough for the budget: [spf_bounded]. *)
Definition SPF_FUEL : nat := 11.

Definition auth_spf_eval (domain ip : bytes) : prog Dns AuthSpf :=
  '(r, _) ← auth_spf_eval_depth SPF_FUEL ip domain 0; mret r.

(** ** DKIM *)

Record Auth := MkAuth { au_dns : Dns; au_dkim : DkimState }.

Definition on_dns {B} (m : prog Dns B) : prog Auth B := fun s => let '(d, r) := m (au_dns s) in (MkAuth d (au_dkim s), r).
Definition on_dkim {B} (m : prog DkimState B) : prog Auth B := fun s => let '(k, r) := m (au_dkim s) in (MkAuth (au_dns s) k, r).

(** The loop over the tags: the last values of d= and s=. *)
Fixpoint sig_tag_loop (fuel : nat) (p : bytes) (d s : option bytes) : option bytes * option bytes :=
  match fuel, p with
  | O, _ | _, [] => (d, s)
  | S fuel', _ =>
      let p := drop_while blank p in
      let value q := take_while (fun c => negb ((c =? ";"%chr) || blank c)) (drop_while blank q) in
      let '(d, s) := match strip_prefix (bs "d=") p with
                     | Some q => (Some (value q), s)
                     | None => match strip_prefix (bs "s=") p with Some q => (d, Some (value q)) | None => (d, s) end
                     end in
      match cut ";"%chr p with Some (_, p') => sig_tag_loop fuel' p' d s | None => (d, s) end
  end.

(** [strstr(s, p)]: what follows the first occurrence. *)
Fixpoint after_first (p s : bytes) : option bytes :=
  match strip_prefix p s with
  | Some r => Some r
  | None => match s with [] => None | _ :: s' => after_first p s' end
  end.

(** The key of the first record with a usable p=, in PEM. *)
Fixpoint pem_key (v : list bytes) : option bytes :=
  match v with
  | [] => None
  | s :: v' =>
      match after_first (bs "p=") (c_str s) with
      | Some k =>
          if len k + 32 <? 2048 then
            Some (bs "-----BEGIN PUBLIC KEY-----" ++ [LF] ++ k ++ [LF] ++ bs "-----END PUBLIC KEY-----" ++ [LF])
          else pem_key v'
      | None => pem_key v'
      end
  end.

(** [auth_dkim_eval]: the result, and d= when it passes. *)
Definition auth_dkim_eval (msg : bytes) : prog Auth (AuthDkim * option bytes) :=
  if is_nil msg then mret (AUTH_DKIM_NONE, None)
  else
    match mail_header_get msg (bs "DKIM-Signature") 2048 with
    | None => mret (AUTH_DKIM_NONE, None)
    | Some hdr =>
        let hdr := c_str hdr in
        match sig_tag_loop (length hdr) hdr None None with
        | (Some d, Some s) =>
            if is_nil d || is_nil s then mret (AUTH_DKIM_NONE, None)
            else
              v ← on_dns (auth_dns_txt (take 511 (s ++ bs "._domainkey." ++ d)) AUTH_TXT_MAX_RECORDS);
              match v ≫= pem_key with
              | None => mret (AUTH_DKIM_NONE, None)
              | Some pem =>
                  r ← on_dkim (dkim_verify_key msg pem);
                  mret (if negb (r =? 0) then (AUTH_DKIM_FAIL, None) else (AUTH_DKIM_PASS, Some d))
              end
        | _ => mret (AUTH_DKIM_NONE, None)
        end
    end.

(** ** DMARC *)

Inductive Policy := PolicyNone | PolicyQuarantine | PolicyReject.

(** The policy of the record [dmarc_policy] finds. *)
Definition record_policy (s : bytes) : option Policy :=
  match after_first (bs "p=") s with
  | Some (c :: _) =>
      Some (if (c =? "q"%chr) || (c =? "Q"%chr) then PolicyQuarantine
            else if (c =? "r"%chr) || (c =? "R"%chr) then PolicyReject else PolicyNone)
  | _ => None
  end.

Definition dmarc_policy (from_domain : bytes) : prog Dns (option Policy) :=
  v ← auth_dns_txt (take 511 (bs "_dmarc." ++ from_domain)) AUTH_TXT_MAX_RECORDS;
  mret (v ← v; s ← List.find (word "v=DMARC1") (map c_str v); record_policy s).

(** [auth_dmarc_domain_align] *)
Definition auth_dmarc_domain_align (auth_domain from_domain : bytes) : bool :=
  let fl := length from_domain in
  let al := length auth_domain in
  if (al =? fl)%nat then ieq auth_domain from_domain
  else if (al <? fl)%nat then false
  else match drop (al - fl - 1) auth_domain with
       | c :: d => (c =? "."%chr) && ieq d from_domain
       | [] => false
       end.

Definition aligned (auth_domain : option bytes) (from_domain : bytes) : bool :=
  match auth_domain with Some d => auth_dmarc_domain_align d from_domain | None => false end.

Definition auth_dmarc_eval (env_dom : bytes) (hdr_dom : option bytes) (spf : AuthSpf) (dkim : AuthDkim) (sig_dom : option bytes)
  : prog Dns AuthDmarc :=
  match hdr_dom with
  | None | Some [] => mret AUTH_DMARC_NONE
  | Some from =>
      pol ← dmarc_policy from;
      mret (match pol with
            | None | Some PolicyNone => AUTH_DMARC_NONE
            | Some _ =>
                let spf_aligned := bool_decide (spf = AUTH_SPF_PASS) && auth_dmarc_domain_align env_dom from in
                let dkim_aligned := bool_decide (dkim = AUTH_DKIM_PASS) && aligned sig_dom from in
                if spf_aligned || dkim_aligned then AUTH_DMARC_PASS
                else if bool_decide (spf = AUTH_SPF_FAIL) && negb dkim_aligned then AUTH_DMARC_FAIL
                else AUTH_DMARC_NONE
            end)
  end.

(** ** The field *)

Definition spf_str (v : AuthSpf) : bytes :=
  match v with
  | AUTH_SPF_PASS => bs "pass" | AUTH_SPF_FAIL => bs "fail" | AUTH_SPF_SOFTFAIL => bs "softfail"
  | AUTH_SPF_NEUTRAL => bs "neutral" | AUTH_SPF_NONE => bs "none"
  end.
Definition dkim_str (v : AuthDkim) : bytes :=
  match v with AUTH_DKIM_PASS => bs "pass" | AUTH_DKIM_FAIL => bs "fail" | AUTH_DKIM_NONE => bs "none" end.
Definition dmarc_str (v : AuthDmarc) : bytes :=
  match v with AUTH_DMARC_PASS => bs "pass" | AUTH_DMARC_FAIL => bs "fail" | AUTH_DMARC_NONE => bs "none" end.

Definition AUTH_FIELD_CAP : Z := 256.

(** [auth_results_format]: [None] when the line does not fit. *)
Definition auth_results_format (hostname : option bytes) (spf : AuthSpf) (dkim : AuthDkim) (dmarc : AuthDmarc)
    (mailfromdom : bytes) (fromdom dkim_dom : option bytes) : option bytes :=
  let d := match dkim, dkim_dom with AUTH_DKIM_PASS, Some (c :: d) => bs " header.d=" ++ c :: d | _, _ => [] end in
  let hfrom := match fromdom with Some (c :: d) => c :: d | _ => mailfromdom end in
  let host := match hostname with Some (c :: h) => c :: h | _ => bs "localhost" end in
  let buf := bs "Authentication-Results: " ++ host ++ bs ";" ++ CRLF ++
             [TAB] ++ bs "spf=" ++ spf_str spf ++ bs " smtp.mailfrom=" ++ mailfromdom ++ bs ";" ++ CRLF ++
             [TAB] ++ bs "dkim=" ++ dkim_str dkim ++ d ++ bs ";" ++ CRLF ++
             [TAB] ++ bs "dmarc=" ++ dmarc_str dmarc ++ bs " header.from=" ++ hfrom ++ CRLF in
  if len buf >=? AUTH_FIELD_CAP then None else Some buf.

Definition auth_results_build (hostname : option bytes) (msg env_from ip : bytes) : prog Auth (option bytes) :=
  let fromdom := auth_env_from_domain env_from in
  if is_nil fromdom then mret None
  else
    let hdrfrom := auth_header_from_domain msg in
    spf ← on_dns (auth_spf_eval fromdom ip);
    '(dkim, dkim_dom) ← auth_dkim_eval msg;
    dmarc ← on_dns (auth_dmarc_eval fromdom hdrfrom spf dkim dkim_dom);
    mret (auth_results_format hostname spf dkim dmarc fromdom hdrfrom dkim_dom).

End Auth.
