(* ===== verification/AuthResultsSpec.v ===== *)
(** * Correctness of SPF, DKIM and DMARC

    SPF ends within its budget of DNS queries; an address range matches exactly the
    addresses with its leading bits; a pass that a reader of the field's bytes finds
    has its cause in the message and in DNS; the field is one field whatever the message and DNS say. *)

From S2P Require Import Prelude MailAddr MailHeader Prog HttpParse Json SmtpReply Dkim DkimSpec AuthDns AuthDnsSpec AuthResults.

Section Spf.
Context {A : AuthSys}.

(** ** The budget *)

Definition capped (lookups : Z) : Z := Z.min lookups AUTH_SPF_MAX_LOOKUPS.

(** From [d] with [lk] terms counted to [d'] with [lk']: the cache is sound, and at
    most [extra] questions more than there are new terms within the budget. *)
Definition spent (extra : Z) (d : Dns) (lk : Z) (d' : Dns) (lk' : Z) : Prop :=
  cache_ok (d_cache d') /\ lk <= lk' /\
  Z.of_nat (length (d_asked d')) <= Z.of_nat (length (d_asked d)) + extra + (capped lk' - capped lk).

Lemma spent_refl d lk : cache_ok (d_cache d) -> spent 0 d lk d lk.
Proof. unfold spent. intros H. split; [done|]. lia. Qed.

Lemma spent_trans e1 e2 d lk d1 lk1 d2 lk2 : spent e1 d lk d1 lk1 -> spent e2 d1 lk1 d2 lk2 -> spent (e1 + e2) d lk d2 lk2.
Proof. unfold spent. intros (?&?&?) (?&?&?). split; [done|]. lia. Qed.

(** A run that ends with a result and a count. *)
Definition spends {B} (extra : Z) (d : Dns) (lk : Z) (m : prog Dns (B * Z)) : Prop :=
  wp m (fun d' o => exists b lk', o = Some (b, lk') /\ spent extra d lk d' lk') d.

Lemma spends_ret {B} (b : B) d lk : cache_ok (d_cache d) -> spends 0 d lk (mret (b, lk)).
Proof. intros H. exists b, lk. split; [done|]. by apply spent_refl. Qed.

(** A term beyond the budget is only counted. *)
Lemma spends_over {B} (b : B) d lk : cache_ok (d_cache d) -> AUTH_SPF_MAX_LOOKUPS < lk + 1 -> spends 0 d lk (mret (b, lk + 1)).
Proof. intros H Hl. exists b, (lk + 1). split; [done|]. unfold spent, capped. split; [done|]. cbn. lia. Qed.

(** A DNS query as one of the program's functions puts it. *)
Lemma query_one {B} name qtype (f : option bytes -> B) d : cache_ok (d_cache d) ->
  wp (r ← dns_query_raw name qtype; mret (f r))
    (fun d' o => (exists b, o = Some b) /\ cache_ok (d_cache d') /\ (length (d_asked d') <= S (length (d_asked d)))%nat) d.
Proof.
  intros Hok. apply wp_bind. eapply wp_mono; [by apply query_spec|]. intros d' o ((H1 & _ & H3 & _) & x & -> & _).
  cbn beta match. wp_steps. split; [by eexists|]. split; [done|]. destruct H3 as [->| ->]; cbn; lia.
Qed.

Lemma addr_term_ends dom ip lk d : cache_ok (d_cache d) -> spends 0 d lk (addr_term dom ip lk).
Proof.
  intros Hok. unfold addr_term. cbn zeta. destruct (Z.leb_spec (lk + 1) AUTH_SPF_MAX_LOOKUPS) as [Hb|Hb].
  - unfold spends. apply wp_bind. unfold auth_dns_a. eapply wp_mono; [by apply query_one|]. intros d' o ([b ->] & Hc & Hl). cbn beta match. wp_steps.
    eexists _, _. split; [done|]. unfold spent, capped, AUTH_SPF_MAX_LOOKUPS in *. split; [done|]. lia.
  - by apply spends_over.
Qed.

(** The recursive call as a term may make it. *)
Definition eval_ends (lk : Z) (eval : bytes -> Z -> prog Dns (AuthSpf * Z)) : Prop :=
  forall d dom lk', cache_ok (d_cache d) -> lk < lk' <= AUTH_SPF_MAX_LOOKUPS -> spends 1 d lk' (eval dom lk').

Lemma spends_bind {B C} e e' (m : prog Dns (B * Z)) (f : B * Z -> prog Dns (C * Z)) d lk :
  spends e d lk m -> (forall b d' lk', spent e d lk d' lk' -> spends e' d' lk' (f (b, lk'))) -> spends (e + e') d lk (m ≫= f).
Proof.
  unfold spends. intros Hm Hf. apply wp_bind. eapply wp_mono; [exact Hm|]. intros d' o (b & lk' & -> & Hs). cbn beta match.
  eapply wp_mono; [by apply Hf|]. intros d2 o (c & lk2 & -> & Hs2). exists c, lk2. split; [done|]. by eapply spent_trans.
Qed.

Lemma spends_map {B C} e (m : prog Dns (B * Z)) (g : B -> C) d lk : spends e d lk m -> spends e d lk ('(b, lk) ← m; mret (g b, lk)).
Proof.
  intros Hm. rewrite <- (Z.add_0_r e). apply spends_bind; [done|]. intros b d' lk' (Hc & _). by apply spends_ret.
Qed.

(** A call takes its own question out of the term that makes it. *)
Lemma spends_call {B} d lk (m : prog Dns (B * Z)) : lk + 1 <= AUTH_SPF_MAX_LOOKUPS -> spends 1 d (lk + 1) m -> spends 0 d lk m.
Proof.
  unfold spends. intros Hb Hm. eapply wp_mono; [exact Hm|]. intros d' o (b & lk' & -> & Hc & Hl & Hs). exists b, lk'. split; [done|].
  split; [done|]. unfold capped, AUTH_SPF_MAX_LOOKUPS in *. lia.
Qed.

Lemma term_ends eval tok def ip lk d : cache_ok (d_cache d) -> eval_ends lk eval -> spends 0 d lk (spf_term eval tok def ip lk).
Proof.
  intros Hok Hev. unfold spf_term. destruct (qualifier tok) as [q mech]. cbn zeta.
  repeat match goal with |- spends _ _ _ (if ?b then mret _ else _) => destruct b; [by apply spends_ret|] end.
  repeat match goal with |- spends _ _ _ (if ?b then _ ≫= _ else _) => destruct b; [by apply spends_map, addr_term_ends|] end.
  destruct (word "redirect=" mech).
  { destruct (Z.gtb_spec (lk + 1) AUTH_SPF_MAX_LOOKUPS) as [Hb|Hb].
    - by apply spends_map, spends_over.
    - apply spends_map, spends_call; [lia|]. apply Hev; [done|lia]. }
  destruct (word "include:" mech); [|by apply spends_ret].
  destruct (Z.leb_spec (lk + 1) AUTH_SPF_MAX_LOOKUPS) as [Hb|Hb].
  - apply spends_map, spends_call; [lia|]. apply Hev; [done|lia].
  - by apply spends_over.
Qed.

Lemma eval_ends_later lk lk' eval : lk <= lk' -> eval_ends lk eval -> eval_ends lk' eval.
Proof. intros Hl He d dom lk2 Hok Hb. apply He; [done|lia]. Qed.

Lemma terms_end eval def ip toks : forall lk d, cache_ok (d_cache d) -> eval_ends lk eval -> spends 0 d lk (spf_terms eval toks def ip lk).
Proof.
  induction toks as [|tok toks IH]; intros lk d Hok Hev; cbn [spf_terms]; [by apply spends_ret|].
  apply (spends_bind 0 0); [by apply term_ends|]. intros r d' lk' (Hc & Hl & _). cbn beta match.
  destruct r; [by apply spends_ret|]. apply IH; [done|]. by apply (eval_ends_later lk).
Qed.

Lemma depth_ends ip fuel : forall dom lk d, cache_ok (d_cache d) -> 0 <= lk <= AUTH_SPF_MAX_LOOKUPS ->
  AUTH_SPF_MAX_LOOKUPS - lk < Z.of_nat fuel -> spends 1 d lk (auth_spf_eval_depth fuel ip dom lk).
Proof.
  induction fuel as [|fuel IH]; intros dom lk d Hok Hlk Hf; [lia|]. cbn [auth_spf_eval_depth].
  assert (Hnone : forall d', cache_ok (d_cache d') -> (length (d_asked d') <= S (length (d_asked d)))%nat ->
    wp (mret (AUTH_SPF_NONE, lk)) (fun d'' o => exists b lk', o = Some (b, lk') /\ spent 1 d lk d'' lk') d').
  { intros d' Hc Hl. exists AUTH_SPF_NONE, lk. split; [done|]. split; [done|]. cbn. lia. }
  destruct (is_nil dom); [by apply Hnone; [|lia]|]. unfold spends, auth_dns_txt. apply wp_bind.
  eapply wp_mono; [by apply query_one|]. intros d' o ([v ->] & Hc & Hl). cbn beta match.
  destruct (List.find _ _) as [s|]; [|by apply Hnone].
  assert (Ht : spends 0 d' lk (spf_record (auth_spf_eval_depth fuel ip) (drop_while (fun c => c =? SP) (drop 6 s)) dom ip lk)).
  { apply terms_end; [done|]. intros d2 dom2 lk2 Hok2 Hlk2. apply IH; [done|lia..]. }
  unfold spends in Ht. eapply wp_mono; [exact Ht|]. intros d2 o (b & lk' & -> & Hc2 & Hl2 & Hs2). exists b, lk'. split; [done|]. split; [done|]. lia.
Qed.

(** ** More fuel *)

(** A run of [m] that ends is a run of [m']. *)
Definition leads {B} (m m' : prog Dns B) : Prop := forall d d' b, m d = (d', Some b) -> m' d = (d', Some b).

Lemma leads_refl {B} (m : prog Dns B) : leads m m.
Proof. by intros d d' b. Qed.

Lemma leads_bind {B C} (m m' : prog Dns B) (f f' : B -> prog Dns C) : leads m m' -> (forall b, leads (f b) (f' b)) -> leads (m ≫= f) (m' ≫= f').
Proof.
  intros Hm Hf d d' c. unfold mbind, prog_bind. destruct (m d) as [d1 [b|]] eqn:Hd; [|done]. rewrite (Hm _ _ _ Hd). apply Hf.
Qed.

Lemma terms_lead ev ev' def ip toks : (forall dom lk, leads (ev dom lk) (ev' dom lk)) ->
  forall lk, leads (spf_terms ev toks def ip lk) (spf_terms ev' toks def ip lk).
Proof.
  intros He. induction toks as [|tok toks IH]; intros lk; cbn [spf_terms]; [apply leads_refl|].
  apply leads_bind; [|intros [r lk']; destruct r; [apply leads_refl|apply IH]].
  unfold spf_term. destruct (qualifier tok) as [q mech]. cbn zeta.
  repeat (match goal with |- leads (if ?b then _ else _) _ => destruct b end; try apply leads_refl);
    (apply leads_bind; [first [apply He|apply leads_refl|destruct (_ >? _); [apply leads_refl|apply He]]|intros [? ?]; apply leads_refl]).
Qed.

Lemma depth_leads ip fuel : forall dom lk, leads (auth_spf_eval_depth fuel ip dom lk) (auth_spf_eval_depth (S fuel) ip dom lk).
Proof.
  induction fuel as [|fuel IH]; intros dom lk; [by intros d d' b|]. cbn [auth_spf_eval_depth].
  destruct (is_nil dom); [apply leads_refl|]. apply leads_bind; [apply leads_refl|]. intros v.
  destruct (List.find _ _) as [s|]; [|apply leads_refl]. unfold spf_record. apply terms_lead. intros dom' lk'. apply IH.
Qed.

Lemma depth_more ip f1 f2 dom lk : (f1 <= f2)%nat -> leads (auth_spf_eval_depth f1 ip dom lk) (auth_spf_eval_depth f2 ip dom lk).
Proof. induction 1 as [|f2 _ IH]; [apply leads_refl|]. intros d d' b Hd. apply depth_leads. by apply IH. Qed.

End Spf.

(** ** Address ranges *)

(** The bits of a string of bytes, most significant first. *)
Definition byte_bits (x : Z) : list bool := map (Z.testbit x) [7; 6; 5; 4; 3; 2; 1; 0].
Definition bit_list (s : bytes) : list bool := concat (map byte_bits s).

Definition mask (bits : Z) : Z := if bits >=? 8 then 255 else Z.land (Z.shiftl 255 (8 - bits)) 255.

Lemma mask_bit k i : (k <= 8)%nat -> 0 <= i < 8 -> Z.testbit (mask (Z.of_nat k)) i = (8 - Z.of_nat k <=? i).
Proof.
  intros Hk Hi. assert (Hall : forallb (fun k => forallb (fun i => Bool.eqb (Z.testbit (mask (Z.of_nat k)) (Z.of_nat i)) (8 - Z.of_nat k <=? Z.of_nat i))
    (seq 0 8)) (seq 0 9) = true) by (vm_compute; reflexivity).
  rewrite forallb_forall in Hall. specialize (Hall k ltac:(apply in_seq; lia)). rewrite forallb_forall in Hall.
  specialize (Hall (Z.to_nat i) ltac:(apply in_seq; lia)). rewrite Z2Nat.id in Hall by lia. by apply Bool.eqb_prop.
Qed.

Lemma byte_high x i : is_byte x = true -> 8 <= i -> Z.testbit x i = false.
Proof.
  unfold is_byte. intros Hx Hi. destruct (Z.eq_dec x 0) as [->|]; [apply Z.bits_0|].
  apply Z.bits_above_log2; [lia|]. assert (Z.log2 x < 8); [|lia]. apply Z.log2_lt_pow2; lia.
Qed.

Lemma masked x y k : is_byte x = true -> is_byte y = true -> (k <= 8)%nat ->
  Z.land x (mask (Z.of_nat k)) = Z.land y (mask (Z.of_nat k)) <-> take k (byte_bits x) = take k (byte_bits y).
Proof.
  intros Hx Hy Hk. assert (Hiff : take k (byte_bits x) = take k (byte_bits y) <-> forall i, 8 - Z.of_nat k <= i < 8 -> Z.testbit x i = Z.testbit y i).
  { unfold byte_bits. destruct k as [|[|[|[|[|[|[|[|[|k]]]]]]]]]; try lia; cbn [map take]; (split; [intros H i Hi|intros H]).
    all: match goal with
      | |- [] = [] => done
      | H : [] = [] |- _ => lia
      | H : forall i, _ |- _ => rewrite !H by lia; done
      | H : _ :: _ = _ :: _, Hi : _ <= ?i < 8 |- _ =>
          injection H; intros; assert (i = 7 \/ i = 6 \/ i = 5 \/ i = 4 \/ i = 3 \/ i = 2 \/ i = 1 \/ i = 0) by lia;
          repeat match goal with H : _ \/ _ |- _ => destruct H as [->|H] end; subst; (done || lia)
      end. }
  rewrite Hiff. split.
  - intros H i Hi. apply (f_equal (fun z => Z.testbit z i)) in H. rewrite !Z.land_spec, mask_bit in H by lia.
    destruct (Z.leb_spec (8 - Z.of_nat k) i); [|lia]. by rewrite !andb_true_r in H.
  - intros H. apply Z.bits_inj. intros i. rewrite !Z.land_spec. destruct (Z.ltb_spec i 0); [by rewrite !Z.testbit_neg_r|].
    destruct (Z.ltb_spec i 8); [|rewrite (byte_high x), (byte_high y) by done; done]. rewrite mask_bit by lia.
    destruct (Z.leb_spec (8 - Z.of_nat k) i); [|by rewrite !andb_false_r]. by rewrite H by lia.
Qed.

Lemma prefix_match_spec ip : forall bits m, bytes_ok ip -> bytes_ok m -> length m = length ip -> 0 <= bits ->
  prefix_match bits ip m = true <-> take (Z.to_nat bits) (bit_list ip) = take (Z.to_nat bits) (bit_list m).
Proof.
  induction ip as [|x ip IH]; intros bits [|y m] Hip Hm Hl Hb; cbn [length] in *; try lia.
  { cbn. by rewrite take_nil. }
  apply Forall_cons in Hip as [Hx Hip], Hm as [Hy Hm]. cbn [prefix_match]. destruct (Z.leb_spec bits 0).
  { assert (Z.to_nat bits = 0%nat) as -> by lia. done. }
  change (bit_list (x :: ip)) with (byte_bits x ++ bit_list ip). change (bit_list (y :: m)) with (byte_bits y ++ bit_list m).
  destruct (Z.geb_spec bits 8) as [H8|H8].
  - assert (Hmask : mask (Z.of_nat 8) = 255) by done. pose proof (masked x y 8 Hx Hy ltac:(lia)) as Hk. rewrite Hmask in Hk.
    change (take 8 (byte_bits x)) with (byte_bits x) in Hk. change (take 8 (byte_bits y)) with (byte_bits y) in Hk.
    replace (Z.to_nat bits) with (length (byte_bits x) + Z.to_nat (bits - 8))%nat by (change (length (byte_bits x)) with 8%nat; lia).
    rewrite take_app_add. change (length (byte_bits x)) with (length (byte_bits y)). rewrite take_app_add.
    destruct (Z.eqb_spec (Z.land x 255) (Z.land y 255)) as [He|He]; cbn [negb].
    + apply Hk in He. rewrite He. rewrite IH by (done || lia). split; [congruence|]. intros H'. by apply app_inv_head in H'.
    + split; [done|]. intros H'. exfalso. apply He, Hk. apply app_inj_1 in H' as [H' _]; done.
  - assert (Hk : take (Z.to_nat bits) (byte_bits x) = take (Z.to_nat bits) (byte_bits y) <-> Z.land x (mask bits) = Z.land y (mask bits)).
    { pose proof (masked x y (Z.to_nat bits) Hx Hy ltac:(lia)) as Hk. rewrite Z2Nat.id in Hk by lia. by symmetry. }
    rewrite !take_app_le by (change (length (byte_bits _)) with 8%nat; lia).
    unfold mask in Hk. destruct (Z.geb_spec bits 8); [lia|].
    destruct (Z.eqb_spec (Z.land x (Z.land (Z.shiftl 255 (8 - bits)) 255)) (Z.land y (Z.land (Z.shiftl 255 (8 - bits)) 255))) as [He|He]; cbn [negb].
    + rewrite Hk. split; [done|]. intros _. by destruct ip, m.
    + rewrite Hk. done.
Qed.

(** The number behind the slash, at most [max]. *)
Lemma atoi_print n : 0 <= n < 1000 -> atoi (print_u32 n) = n.
Proof.
  intros Hn. assert (Hall : forallb (fun k => atoi (print_u32 (Z.of_nat k)) =? Z.of_nat k) (seq 0 1000) = true) by (vm_compute; reflexivity).
  rewrite forallb_forall in Hall. specialize (Hall (Z.to_nat n) ltac:(apply in_seq; lia)). rewrite Z2Nat.id in Hall by lia. by apply Z.eqb_eq.
Qed.

Lemma spf_match_range {A : AuthSys} size v6 max ip net n m : bytes_ok ip -> bytes_ok m -> length ip = size -> length m = size ->
  0 <= n < 1000 -> 0 <= max -> "/"%chr ∉ net -> (length (net ++ "/"%chr :: print_u32 n) < 64)%nat -> pton v6 net = Some m ->
  spf_match size v6 max ip (net ++ "/"%chr :: print_u32 n) =
    bool_decide (take (Z.to_nat (Z.min n max)) (bit_list ip) = take (Z.to_nat (Z.min n max)) (bit_list m)).
Proof.
  intros Hip Hm Hi Hlm Hn Hmax Hnet Hl Hp. unfold spf_match. rewrite Hi, Nat.eqb_refl. cbn [negb].
  destruct (Nat.leb_spec 64 (length (net ++ "/"%chr :: print_u32 n))); [lia|]. rewrite cut_app by done. rewrite atoi_print by done.
  cbn zeta. rewrite Hp. unfold u32. rewrite Z.mod_small by lia.
  assert (Hpre : (if n >? max then max else n) = Z.min n max) by (destruct (Z.gtb_spec n max); lia). rewrite Hpre.
  pose proof (prefix_match_spec ip (Z.min n max) m Hip Hm ltac:(lia) ltac:(lia)) as Hs.
  destruct (Z.eqb_spec (Z.min n max) 0) as [E0|_].
  - rewrite E0. symmetry. by apply bool_decide_eq_true.
  - destruct (prefix_match _ _ _); symmetry; [apply bool_decide_eq_true; by apply Hs|].
    apply bool_decide_eq_false. intros H'. by apply Hs in H'.
Qed.

(** ** The text of the field *)

Lemma sig_tags_clean fuel : forall p d s, clean p -> (forall x, d = Some x -> clean x) -> forall x, (sig_tag_loop fuel p d s).1 = Some x -> clean x.
Proof.
  induction fuel as [|fuel IH]; intros p d s Hp Hd; cbn [sig_tag_loop]; [done|]. destruct p as [|c p]; [done|].
  set (q := drop_while blank (c :: p)). assert (Hq : clean q) by by apply clean_sub.
  set (dd := match strip_prefix (bs "d=") q with Some _ => _ | None => _ end).
  assert (Hdd : forall x, dd.1 = Some x -> clean x).
  { unfold dd. destruct (strip_prefix (bs "d=") q) as [r|] eqn:Hs.
    - intros x [= <-]. apply clean_sub, clean_sub. apply strip_prefix_spec in Hs. rewrite Hs in Hq. by apply Forall_app in Hq as [_ Hq].
    - by destruct (strip_prefix (bs "s=") q). }
  destruct dd as [d' s']. cbn [fst] in Hdd. destruct (cut ";"%chr q) as [[a b]|] eqn:Hc; [|exact Hdd].
  apply IH; [|exact Hdd]. pose proof (cut_spec ";"%chr q) as Hc2. rewrite Hc in Hc2. clear Hc. destruct Hc2 as [Hc _]. rewrite Hc in Hq. apply Forall_app in Hq as [_ Hq]. by apply Forall_inv_tail in Hq.
Qed.

Lemma sig_tags_plain fuel : forall p d s, (forall x, d = Some x -> ";"%chr ∉ x) -> forall x, (sig_tag_loop fuel p d s).1 = Some x -> ";"%chr ∉ x.
Proof.
  induction fuel as [|fuel IH]; intros p d s Hd; cbn [sig_tag_loop]; [done|]. destruct p as [|c p]; [done|].
  set (q := drop_while blank (c :: p)). set (dd := match strip_prefix (bs "d=") q with Some _ => _ | None => _ end).
  assert (Hdd : forall x, dd.1 = Some x -> ";"%chr ∉ x).
  { unfold dd. destruct (strip_prefix (bs "d=") q) as [r|]; [|by destruct (strip_prefix (bs "s=") q)].
    intros x [= <-] Hx. pose proof (take_while_all (fun c => negb ((c =? ";"%chr) || blank c)) (drop_while blank r)) as Hall.
    rewrite Forall_forall in Hall. by apply Hall in Hx. }
  destruct dd as [d' s']. cbn [fst] in Hdd. destruct (cut ";"%chr q) as [[a b]|]; [|exact Hdd]. by apply IH.
Qed.

Lemma domain_clean s l d : mail_addr_parse s = Some (l, d) -> clean d /\ d <> [].
Proof.
  intros H. pose proof (mail_addr_parse_inv s l d H) as (_ & _ & _ & _ & Hd). apply domain_ok_inv in Hd as (Hg & _ & z & Hz & _).
  split; [|by destruct d]. eapply Forall_impl; [exact Hg|]. intros c Hc. cbn in Hc. unfold not_eol, is_eol. lia.
Qed.

Lemma env_domain_clean s : clean (auth_env_from_domain s).
Proof.
  unfold auth_env_from_domain. destruct s as [|c t]; [constructor|]. destruct (_ && _); [constructor|].
  destruct (mail_addr_parse _) as [[l d]|] eqn:Hp; [by apply domain_clean in Hp as [Hp _]|constructor].
Qed.

Lemma header_domain_clean msg d : auth_header_from_domain msg = Some d -> clean d.
Proof.
  unfold auth_header_from_domain. destruct (is_nil msg); [done|]. destruct (mail_header_get _ _ _) as [h|]; cbn [mbind option_bind]; [|done].
  destruct (match cut "<"%chr (c_str h) with Some _ => _ | None => _ end) as [a|]; cbn [mbind option_bind]; [|done].
  destruct (mail_addr_parse a) as [[l d']|] eqn:Hp; cbn [mbind option_bind]; [|done]. intros [= <-]. by apply domain_clean in Hp as [Hp _].
Qed.

(** A line and folded lines after it end where the next line is not folded. *)
Lemma header_end_folds ls : forall r, Forall clean ls -> Forall (fun l => starts_wsp l = true) (drop 1 ls) -> ls <> [] -> starts_wsp r = false ->
  header_end (concat (map (fun l => l ++ CRLF) ls) ++ r) = (concat (map (fun l => l ++ CRLF) ls), r).
Proof.
  induction ls as [|l ls IH]; intros r Hc Hw Hne Hr; [done|]. apply Forall_cons in Hc as [Hl Hc]. cbn [map concat].
  rewrite header_end_eq, <- !app_assoc, skip_line_shape by auto. destruct ls as [|l' ls].
  - cbn [map concat app]. by rewrite Hr.
  - cbn [drop] in Hw. pose proof (Forall_inv Hw) as Hl'.
    assert (Hs : starts_wsp (concat (map (fun l => l ++ CRLF) (l' :: ls)) ++ r) = true) by (by destruct l').
    rewrite Hs, IH; [by rewrite <- !app_assoc|done|by apply Forall_inv_tail in Hw|done|done].
Qed.

Section Build.
Context {K : Mbed} {KL : MbedLaws K} {A : AuthSys}.

Lemma wp_dns {B} (m : prog Dns B) Q (s : Auth) : wp m (fun d o => Q (MkAuth d (au_dkim s)) o) (au_dns s) -> wp (on_dns m) Q s.
Proof. unfold wp, on_dns. by destruct (m (au_dns s)). Qed.

Lemma wp_dkim {B} (m : prog DkimState B) Q (s : Auth) : wp m (fun k o => Q (MkAuth (au_dns s) k) o) (au_dkim s) -> wp (on_dkim m) Q s.
Proof. unfold wp, on_dkim. by destruct (m (au_dkim s)). Qed.

(** The TXT records of [name], as a reply to that question gave them. *)
Definition published (name : bytes) (v : list bytes) : Prop :=
  exists r, answers r name 16 /\ txt_answers r name AUTH_TXT_MAX_RECORDS = AOk v.

(** [n] more questions, and a sound cache. *)
Definition asks (n : nat) (d d' : Dns) : Prop := cache_ok (d_cache d') /\ (length (d_asked d') <= length (d_asked d) + n)%nat.

Lemma txt_spec name d : cache_ok (d_cache d) ->
  wp (auth_dns_txt name AUTH_TXT_MAX_RECORDS) (fun d' o => asks 1 d d' /\
    exists x, o = Some x /\ forall v, x = Some v -> published name v) d.
Proof.
  intros Hok. unfold auth_dns_txt. apply wp_bind. eapply wp_mono; [by apply query_spec|].
  intros d' o ((H1 & _ & H3 & _) & x & -> & Hx). cbn beta match. wp_steps. split; [split; [done|destruct H3 as [->| ->]; cbn; lia]|].
  eexists. split; [done|]. intros v Hv. destruct x as [r|]; [|done]. cbn [mbind option_bind] in Hv.
  exists r. split; [by apply Hx|]. destruct (txt_answers _ _ _); cbn in Hv; [by injection Hv as ->|done..].
Qed.

(** What a key that verifies the message is. *)
Definition verifying (msg pem : bytes) : Prop :=
  exists pk, pk_parse_public pem = inr pk /\ pk_is_rsa pk = true /\ dkim_verify_core msg pk = 0.

Lemma verify_key_spec msg pem (k : DkimState) :
  wp (dkim_verify_key msg pem) (fun _ o => exists r, o = Some r /\ (r = 0 -> verifying msg pem)) k.
Proof.
  unfold dkim_verify_key. apply wp_bind.
  assert (Hi : wp dkim_global_init (fun _ o => exists r, o = Some r) k).
  { unfold dkim_global_init. wp_steps. destruct (dk_ready k) as [r|]; [by eexists|]. apply wp_bind. unfold wp, on_lib.
    destruct (ctr_drbg_seed _) as [l r]. cbn. by eexists. }
  eapply wp_mono; [exact Hi|]. intros k' o [r ->]. cbn beta match. destruct (Z.eqb_spec r 0) as [->|Hr]; cbn [negb]; wp_steps; [|by eexists].
  eexists. split; [done|]. destruct (pk_parse_public pem) as [e|pk] eqn:Hp; [by intros ->; apply parse_error in Hp|].
  destruct (pk_is_rsa pk) eqn:Hrsa; [|done]. intros Hv. by exists pk.
Qed.

(** Why the DKIM result of a message is a pass for [dom]: the tags of its signature
    name a TXT record whose key verifies it. *)
Definition dkim_cause (msg : bytes) (dom : option bytes) : Prop :=
  exists hdr d s v pem, mail_header_get msg (bs "DKIM-Signature") 2048 = Some hdr /\
    sig_tag_loop (length (c_str hdr)) (c_str hdr) None None = (Some d, Some s) /\ dom = Some d /\ d <> [] /\
    published (take 511 (s ++ bs "._domainkey." ++ d)) v /\ pem_key v = Some pem /\ verifying msg pem.

Lemma dkim_eval_spec msg (s : Auth) : cache_ok (d_cache (au_dns s)) ->
  wp (auth_dkim_eval msg) (fun s' o => asks 1 (au_dns s) (au_dns s') /\ exists r dom, o = Some (r, dom) /\
    (forall d, dom = Some d -> clean d /\ ";"%chr ∉ d) /\ (r = AUTH_DKIM_PASS -> dkim_cause msg dom)) s.
Proof.
  intros Hok.
  assert (Hnone : forall s', asks 1 (au_dns s) (au_dns s') -> wp (mret (AUTH_DKIM_NONE, None)) (fun s' o => asks 1 (au_dns s) (au_dns s') /\
    exists r dom, o = Some (r, dom) /\ (forall d, dom = Some d -> clean d /\ ";"%chr ∉ d) /\ (r = AUTH_DKIM_PASS -> dkim_cause msg dom)) s').
  { intros s' Hs. split; [done|]. by eexists _, _. }
  assert (Hs0 : asks 1 (au_dns s) (au_dns s)) by (split; [done|lia]).
  unfold auth_dkim_eval. destruct (is_nil msg); [by apply Hnone|]. destruct (mail_header_get _ _ _) as [hdr|] eqn:Hh; [|by apply Hnone].
  destruct (sig_tag_loop _ _ _ _) as [[d|] [sel|]] eqn:Ht; try by apply Hnone.
  destruct (is_nil d) eqn:Hd; cbn [orb]; [by apply Hnone|]. destruct (is_nil sel); [by apply Hnone|].
  apply wp_bind, wp_dns. eapply wp_mono; [by apply txt_spec|]. intros d' o (Ha & x & -> & Hx). cbn beta match.
  destruct (x ≫= pem_key) as [pem|] eqn:Hp; [|by apply Hnone]. destruct x as [v|]; [|done]. cbn [mbind option_bind] in Hp.
  apply wp_bind, wp_dkim. cbn [au_dkim]. eapply wp_mono; [apply verify_key_spec|]. intros k' o (r & -> & Hr). cbn beta match. cbn [au_dns].
  split; [exact Ha|]. destruct (Z.eqb_spec r 0) as [->|]; cbn [negb]; eexists _, _; (split; [done|]); [|done].
  split.
  - intros x [= <-]. split.
    + eapply (sig_tags_clean (length (c_str hdr)) (c_str hdr) None None); [|done|by rewrite Ht].
      apply clean_sub. by eapply header_get_clean.
    + eapply (sig_tags_plain (length (c_str hdr)) (c_str hdr) None None); [done|by rewrite Ht].
  - intros _. exists hdr, d, sel, v, pem. repeat (split; [done|]). split; [by destruct d|]. split; [by apply Hx|]. split; [done|]. by apply Hr.
Qed.

(** Why the DMARC result is a pass: the From domain publishes a policy of quarantine
    or reject, and SPF or DKIM passed for a domain aligned with it. *)
Definition dmarc_cause (env : bytes) (from : option bytes) (spf_pass dkim_pass : Prop) (dom : option bytes) : Prop :=
  exists f v txt, from = Some f /\ published (take 511 (bs "_dmarc." ++ f)) v /\
    List.find (word "v=DMARC1") (map c_str v) = Some txt /\
    (record_policy txt = Some PolicyQuarantine \/ record_policy txt = Some PolicyReject) /\
    (spf_pass /\ auth_dmarc_domain_align env f = true \/ dkim_pass /\ aligned dom f = true).

Lemma dmarc_eval_spec env from spf dkim dom d : cache_ok (d_cache d) ->
  wp (auth_dmarc_eval env from spf dkim dom) (fun d' o => asks 1 d d' /\ exists r, o = Some r /\
    (r = AUTH_DMARC_PASS -> dmarc_cause env from (spf = AUTH_SPF_PASS) (dkim = AUTH_DKIM_PASS) dom)) d.
Proof.
  intros Hok. assert (Hs0 : asks 1 d d) by (split; [done|lia]). unfold auth_dmarc_eval.
  destruct from as [[|c f]|]; [split; [done|by eexists]| |split; [done|by eexists]].
  apply wp_bind. unfold dmarc_policy. apply wp_bind. eapply wp_mono; [by apply txt_spec|].
  intros d' o (Ha & x & -> & Hx). cbn beta match. wp_steps. split; [exact Ha|]. eexists. split; [done|].
  destruct x as [v|]; cbn [mbind option_bind]; [|done]. destruct (List.find _ _) as [txt|] eqn:Hf; cbn [mbind option_bind]; [|done].
  destruct (record_policy txt) as [[| |]|] eqn:Hp; try done; cbn zeta.
  all: destruct (bool_decide (spf = AUTH_SPF_PASS) && auth_dmarc_domain_align env (c :: f) || bool_decide (dkim = AUTH_DKIM_PASS) && aligned dom (c :: f)) eqn:Hal;
    [|by destruct (bool_decide (spf = AUTH_SPF_FAIL) && _)].
  all: intros _; exists (c :: f), v, txt; (split; [done|]); (split; [by apply Hx|]); (split; [done|]); (split; [auto|]);
    apply orb_true_iff in Hal as [[H1%bool_decide_eq_true H2]%andb_true_iff|[H1%bool_decide_eq_true H2]%andb_true_iff]; auto.
Qed.

Lemma spf_eval_spec dom ip d : cache_ok (d_cache d) -> wp (auth_spf_eval dom ip) (fun d' o => asks 11 d d' /\ exists r, o = Some r /\ auth_spf_eval dom ip d = (d', Some r)) d.
Proof.
  intros Hok. cut (wp (auth_spf_eval dom ip) (fun d' o => asks 11 d d' /\ exists r, o = Some r) d).
  { unfold wp. destruct (auth_spf_eval dom ip d) as [d' o]. cbn [fst snd]. intros (Ha & r & ->). eauto. }
  unfold auth_spf_eval. apply wp_bind.
  assert (He : spends 1 d 0 (auth_spf_eval_depth SPF_FUEL ip dom 0)) by (apply depth_ends; [done|unfold AUTH_SPF_MAX_LOOKUPS; lia|done]).
  unfold spends in He. eapply wp_mono; [exact He|]. intros d' o (r & lk & -> & Hc & Hl & Hs). cbn beta match. wp_steps.
  split; [|by eexists]. split; [done|]. unfold capped, AUTH_SPF_MAX_LOOKUPS in Hs. lia.
Qed.

Lemma asks_trans n m d1 d2 d3 : asks n d1 d2 -> asks m d2 d3 -> asks (n + m) d1 d3.
Proof. unfold asks. intros [H1 H2] [H3 H4]. split; [done|]. lia. Qed.

(** What a field is built from: the result of SPF, a DKIM result with its cause, a
    DMARC result with its cause. *)
Definition built_from (d0 : Dns) (hostname : option bytes) (msg env ip f : bytes) : Prop :=
  exists spf dkim dmarc dom,
    auth_results_format hostname spf dkim dmarc (auth_env_from_domain env) (auth_header_from_domain msg) dom = Some f /\
    (forall d, dom = Some d -> clean d /\ ";"%chr ∉ d) /\
    (exists d', auth_spf_eval (auth_env_from_domain env) ip d0 = (d', Some spf)) /\ (dkim = AUTH_DKIM_PASS -> dkim_cause msg dom) /\
    (dmarc = AUTH_DMARC_PASS ->
     dmarc_cause (auth_env_from_domain env) (auth_header_from_domain msg) (spf = AUTH_SPF_PASS) (dkim = AUTH_DKIM_PASS) dom).

Lemma build_spec hostname msg env ip (s : Auth) : cache_ok (d_cache (au_dns s)) ->
  wp (auth_results_build hostname msg env ip) (fun s' o => asks 13 (au_dns s) (au_dns s') /\
    exists x, o = Some x /\ forall f, x = Some f -> built_from (au_dns s) hostname msg env ip f) s.
Proof.
  intros Hok. unfold auth_results_build. destruct (is_nil _). { wp_steps. split; [split; [done|lia]|]. by eexists. }
  apply wp_bind, wp_dns. eapply wp_mono; [by apply spf_eval_spec|]. intros d1 o (H1 & spf & -> & Hspf). cbn beta match.
  apply wp_bind. eapply wp_mono; [apply dkim_eval_spec; apply H1|]. intros s2 o (H2 & dkim & dom & -> & Hcl & Hdk). cbn beta match.
  apply wp_bind, wp_dns. eapply wp_mono; [apply dmarc_eval_spec; apply H2|]. intros d3 o (H3 & dmarc & -> & Hdm). cbn beta match.
  wp_steps. split.
  - cbn [au_dns] in *. apply (asks_trans 12 1 _ (au_dns s2)); [|exact H3]. by apply (asks_trans 11 1 _ d1).
  - eexists. split; [done|]. intros f Hf. exists spf, dkim, dmarc, dom. eauto 10.
Qed.

End Build.

(** ** The field as it stands in the message *)

Definition AR_NAME : bytes := bs "Authentication-Results".

Lemma results_clean spf dkim dmarc : clean (spf_str spf) /\ clean (dkim_str dkim) /\ clean (dmarc_str dmarc).
Proof. destruct spf, dkim, dmarc; repeat split; by apply clean_const. Qed.

(** ** Reading the field *)








Lemma format_scan hostname spf dkim dmarc env from dom f rest :
  (forall h, hostname = Some h -> clean h) -> clean env -> (forall d, from = Some d -> clean d) -> (forall d, dom = Some d -> clean d) ->
  auth_results_format hostname spf dkim dmarc env from dom = Some f -> starts_wsp rest = false ->
  scan_header (f ++ rest) = (Some AR_NAME, f, rest) /\ len f < AUTH_FIELD_CAP.
Proof.
  intros Hh He Hf Hd. unfold auth_results_format. cbn zeta.
  set (d := match dkim, dom with AUTH_DKIM_PASS, Some (_ :: _) => _ | _, _ => [] end).
  set (hf := match from with Some (_ :: _) => _ | _ => env end). set (host := match hostname with Some (_ :: _) => _ | _ => bs "localhost" end).
  assert (Hcd : clean d).
  { unfold d. destruct dkim; try apply Forall_nil_2. destruct dom as [[|c x]|]; try apply Forall_nil_2.
    apply clean_app; [by apply clean_const|by apply Hd]. }
  assert (Hchf : clean hf) by (unfold hf; destruct from as [[|c x]|]; auto).
  assert (Hch : clean host) by (unfold host; destruct hostname as [[|c x]|]; [by apply clean_const|by apply Hh|by apply clean_const]).
  clearbody d hf host. destruct (results_clean spf dkim dmarc) as (H1 & H2 & H3).
  match goal with |- (if _ >=? _ then None else Some ?b) = _ -> _ => set (buf := b) end.
  destruct (Z.geb_spec (len buf) AUTH_FIELD_CAP) as [|Hl]; [done|].
  intros [= <-] Hr. split; [|exact Hl].
  set (ls := [SP :: host ++ bs ";"; TAB :: bs "spf=" ++ spf_str spf ++ bs " smtp.mailfrom=" ++ env ++ bs ";";
              TAB :: bs "dkim=" ++ dkim_str dkim ++ d ++ bs ";"; TAB :: bs "dmarc=" ++ dmarc_str dmarc ++ bs " header.from=" ++ hf]).
  assert (Hb : buf = AR_NAME ++ ":"%chr :: concat (map (fun l => l ++ CRLF) ls)).
  { unfold buf, ls. cbn [map concat]. rewrite app_nil_r. cbn [app]. rewrite <- !app_assoc. reflexivity. }
  rewrite Hb. apply scan_header_some; [apply forallb_Forall; reflexivity|].
  apply header_end_folds; [| |done|done].
  - unfold ls. repeat (apply Forall_cons; split; [constructor; [done|]; repeat (apply clean_app; [first [assumption|by apply clean_const]|]); first [assumption|by apply clean_const]|]).
    constructor.
  - unfold ls. repeat constructor.
Qed.

(** ** Properties *)

(** SPF stays within its budget. Whatever the domain, the address and the replies
    of DNS, [auth_spf_eval] ends with the fuel it has, after at most 11 questions: the
    record of the sender and one for each of the 10 terms RFC 7208 allows; more fuel
    gives the same result, so the recursion of the two C functions is at most 11
    deep. *)
Theorem spf_bounded {A : AuthSys} domain ip (d : Dns) : cache_ok (d_cache d) ->
  exists d' r lk, auth_spf_eval_depth SPF_FUEL ip domain 0 d = (d', Some (r, lk)) /\
    auth_spf_eval domain ip d = (d', Some r) /\
    (length (d_asked d') <= length (d_asked d) + 11)%nat /\
    forall fuel, (SPF_FUEL <= fuel)%nat -> auth_spf_eval_depth fuel ip domain 0 d = (d', Some (r, lk)).
Proof.
  intros Hok. assert (He : spends 1 d 0 (auth_spf_eval_depth SPF_FUEL ip domain 0)) by (apply depth_ends; [done|unfold AUTH_SPF_MAX_LOOKUPS; lia|done]).
  pose proof (spf_eval_spec domain ip d Hok) as Hs. unfold spends, wp in He, Hs. unfold auth_spf_eval, mbind, prog_bind in Hs.
  destruct (auth_spf_eval_depth SPF_FUEL ip domain 0 d) as [d' o] eqn:Hd. destruct He as (r & lk & Ho & _). cbn [snd] in Ho. subst o.
  exists d', r, lk. split; [done|]. split; [unfold auth_spf_eval, mbind, prog_bind; by rewrite Hd|]. destruct Hs as ((_ & Hl) & _). split; [exact Hl|].
  intros fuel Hf. by apply (depth_more ip SPF_FUEL fuel).
Qed.

(** An address range is its leading bits. For an address and a network of the
    same size, "ip4:" and "ip6:" with the range NET/N match exactly when the first N
    bits (at most 32, or 128) of the address are those of the network. *)
Theorem spf_range_exact {A : AuthSys} ip net n m4 m6 : bytes_ok ip -> 0 <= n < 1000 -> "/"%chr ∉ net ->
  (length (net ++ "/"%chr :: print_u32 n) < 64)%nat -> bytes_ok m4 -> bytes_ok m6 ->
  (length ip = 4%nat -> length m4 = 4%nat -> pton false net = Some m4 ->
   spf_ip4_match ip (net ++ "/"%chr :: print_u32 n) =
     bool_decide (take (Z.to_nat (Z.min n 32)) (bit_list ip) = take (Z.to_nat (Z.min n 32)) (bit_list m4))) /\
  (length ip = 16%nat -> length m6 = 16%nat -> pton true net = Some m6 ->
   spf_ip6_match ip (net ++ "/"%chr :: print_u32 n) =
     bool_decide (take (Z.to_nat (Z.min n 128)) (bit_list ip) = take (Z.to_nat (Z.min n 128)) (bit_list m6))).
Proof. intros. split; intros; apply spf_match_range; auto; lia. Qed.


(** Nothing can be injected through the field. Whatever the message, the envelope
    sender, the keys and the replies of DNS, what [auth_results_build] puts in front
    of a message is a single header field: the header scanner reads the name
    Authentication-Results, exactly the bytes written (fewer than 256), and the
    message behind them untouched. *)
Theorem auth_field_single {K : Mbed} {KL : MbedLaws K} {A : AuthSys} hostname msg env ip (s s' : Auth) f rest :
  cache_ok (d_cache (au_dns s)) -> (forall h, hostname = Some h -> Forall (fun c => not_eol c = true) h) ->
  auth_results_build hostname msg env ip s = (s', Some (Some f)) -> starts_wsp rest = false ->
  scan_header (f ++ rest) = (Some AR_NAME, f, rest) /\ len f < AUTH_FIELD_CAP.
Proof.
  intros Hok Hh Hb Hr. pose proof (build_spec hostname msg env ip s Hok) as Hw. unfold wp in Hw. rewrite Hb in Hw.
  destruct Hw as (_ & x & [= <-] & Hf). destruct (Hf f eq_refl) as (spf & dkim & dmarc & dom & Hfmt & Hcl & _).
  eapply format_scan; [exact Hh|apply env_domain_clean|apply header_domain_clean|intros d Hd; by apply Hcl|exact Hfmt|exact Hr].
Qed.

(** ** Witnesses *)

Lemma spf_bounded_witness : exists d' r lk, @auth_spf_eval_depth EchoSys SPF_FUEL [192; 0; 2; 1] (bs "x.org") 0 (@fresh_dns EchoSys []) = (d', Some (r, lk)) /\
  (length (d_asked d') <= 11)%nat.
Proof.
  destruct (@spf_bounded EchoSys (bs "x.org") [192; 0; 2; 1] (@fresh_dns EchoSys []) (fresh_cache_ok _)) as (d' & r & lk & H1 & _ & H2 & _).
  exists d', r, lk. split; [exact H1|exact H2].
Defined.

(** The record of [zone] lets its address pass and no other. *)
Example spf_pass : (@auth_spf_eval EchoSys (bs "x.org") [192; 0; 2; 1] (@fresh_dns EchoSys [])).2 = Some AUTH_SPF_PASS.
Proof. vm_compute. reflexivity. Qed.
Example spf_other : (@auth_spf_eval EchoSys (bs "x.org") [192; 0; 2; 2] (@fresh_dns EchoSys [])).2 = Some AUTH_SPF_SOFTFAIL.
Proof. vm_compute. reflexivity. Qed.

Lemma spf_range_exact_witness : @spf_ip4_match EchoSys [97; 98; 99; 100] (bs "abXX" ++ "/"%chr :: print_u32 16) = true.
Proof.
  rewrite (proj1 (@spf_range_exact EchoSys [97; 98; 99; 100] (bs "abXX") 16 (bs "abXX") (replicate 16 0)
    ltac:(by apply forallb_Forall) ltac:(lia) ltac:(apply has_false; reflexivity) ltac:(apply Nat.ltb_lt; reflexivity) ltac:(by apply forallb_Forall) ltac:(by apply forallb_Forall))
    eq_refl eq_refl eq_refl).
  reflexivity.
Defined.

Definition auth0 : @Auth plain_mbed EchoSys := @MkAuth plain_mbed EchoSys (@fresh_dns EchoSys []) fresh.






Definition auth_of (msg env : bytes) : option (option bytes) := (@auth_results_build plain_mbed EchoSys None msg env [192; 0; 2; 1] auth0).2.

Lemma auth_field_single_witness : exists f, auth_of letter (bs "a@x.org") = Some (Some f) /\ scan_header (f ++ letter) = (Some AR_NAME, f, letter).
Proof.
  assert (Hr : exists f, auth_of letter (bs "a@x.org") = Some (Some f)) by (vm_compute; by eexists). destruct Hr as [f Hf]. exists f. split; [exact Hf|].
  unfold auth_of in Hf. destruct (auth_results_build None letter (bs "a@x.org") [192; 0; 2; 1] auth0) as [s' o] eqn:Hb. cbn [snd] in Hf. subst o.
  refine (proj1 (@auth_field_single plain_mbed plain_laws EchoSys None letter (bs "a@x.org") [192; 0; 2; 1] auth0 s' f letter (fresh_cache_ok _) _ Hb eq_refl)).
  intros h Hh. discriminate Hh.
Defined.

(** ** What the code does not do *)

(** A sender whose domain is a literal writes results of its own into the field. *)
Lemma literal_domain_writes_results : exists f, auth_of letter (bs "a@[;dmarc=pass]") = Some (Some f) /\
  after_first (bs "smtp.mailfrom=[;dmarc=pass];") f <> None.
Proof. eexists. split; [vm_compute; reflexivity|vm_compute; discriminate]. Qed.

(** A verifying signature below another field is reported as a failure: [parse_dkim]
    reads the first field only. *)
Lemma signature_below_field_fails : @dkim_verify_core plain_mbed (bs "Received: by x" ++ CRLF ++ match signed letter with Some (Some out) => out | _ => [] end) tt = -1.
Proof. vm_compute. reflexivity. Qed.

(** The policy for subdomains is taken for the policy when it comes first. *)
Lemma subdomain_policy_taken : record_policy (bs "v=DMARC1; sp=reject; p=none") = Some PolicyReject.
Proof. reflexivity. Qed.

(** Tags behind p= end up in the key. *)
Lemma key_with_tags : exists k, pem_key [bs "v=DKIM1; p=AAAA; t=s"] = Some k /\ after_first (bs "AAAA; t=s") k <> None.
Proof. eexists. split; [reflexivity|vm_compute; discriminate]. Qed.

(** A TXT record whose last string is cut off is taken without it. *)
Lemma truncated_txt_accepted : auth_txt_parse_rdata (2 :: bs "ab" ++ [9] ++ bs "cd") = Some (bs "ab").
Proof. reflexivity. Qed.
