(* ===== verification/Admin.v ===== *)
(** * The admin API (src/src/admin.c)

    [admin_build_response] and the handlers it routes to: a buffered request and
    the store give the new store and the whole response. The embedded user
    interface is generated by the build, so its three files are parameters, as is
    [access], which tells whether a path exists. The accumulator [AdminResp] is
    the response written so far with its sticky error flag. *)

From S2P Require Import Prelude MailAddr DlEngine Store StoreSpec StoreTables StoreQueue Reply Json Config HttpParse SmtpParse.

(** The fields of [Config] only the admin API reads, beside the rest. *)
Record AdminConfig := {
  ad_cfg :> Config;
  ad_listen_address : option bytes;
  ad_http_address : option bytes;
  ad_http_port : Z;
  ad_token : option bytes;
}.

(** ** The response accumulator *)

Record AdminResp := MkAr { ar_buf : bytes; ar_oom : bool }.

Definition ar_init : AdminResp := MkAr [] false.

Definition ar_append (r : AdminResp) (s : bytes) : AdminResp :=
  if ar_oom r then r else MkAr (ar_buf r ++ s) false.

(** ["%zu"] *)
Definition print_size (v : Z) : bytes := dec_digits 20 v [].

(** The head both [ar_respond] and [http_set_response] print. *)
Definition http_head (status : Z) (reason ctype : bytes) (bodylen : Z) : bytes :=
  bs "HTTP/1.0 " ++ print_u32 status ++ SP :: reason ++ CRLF ++
  bs "Content-Type: " ++ ctype ++ CRLF ++
  bs "Content-Length: " ++ print_size bodylen ++ CRLF ++
  bs "Connection: close" ++ CRLF ++ CRLF.

Definition ar_respond (r : AdminResp) (status : Z) (reason ctype body : bytes) : AdminResp :=
  if ar_oom r then r
  else
    let head := http_head status reason ctype (len body) in
    if (256 <=? length head)%nat then MkAr (ar_buf r) true
    else ar_append (ar_append r head) body.

(** The JSON error object, as much of it as fits 1023 bytes. *)
Definition err_body (msg : bytes) : bytes :=
  take 1023 (bs "{" ++ DQUOTE :: bs "error" ++ DQUOTE :: bs ":" ++ DQUOTE :: msg ++ DQUOTE :: bs "}").

Definition ar_err (r : AdminResp) (status : Z) (reason msg : bytes) : AdminResp :=
  ar_respond r status reason (bs "application/json") (err_body msg).

(** [Some response] for VISAGE_OK. *)
Definition ar_finish (r : AdminResp) : option bytes := if ar_oom r then None else Some (ar_buf r).

(** ** Request line and authentication *)

Definition token_byte (c : Z) : bool := negb ((c =? SP) || (c =? CR) || (c =? LF)).

Definition parse_request_line (req : bytes) (msz tsz : nat) : option (bytes * bytes) :=
  let m := take_while token_byte req in
  if is_nil m || (msz <=? length m)%nat then None
  else
    let rest := drop_while (fun c => c =? SP) (drop_while token_byte req) in
    let t := take_while token_byte rest in
    if is_nil t || (tsz <=? length t)%nat then None else Some (m, t).

(** The loop of [token_eq_ct]: [n] bytes from index [i] on, the shorter string
    padded with zero. *)
Fixpoint ct_loop (a b : bytes) (n i : nat) (d : Z) : Z :=
  match n with
  | O => d
  | S n' => ct_loop a b n' (S i) (Z.lor d (Z.lxor (nth i a 0) (nth i b 0)))
  end.

Definition token_eq_ct (supplied configured : bytes) : bool :=
  ct_loop supplied configured (Nat.max (length supplied) (length configured)) 0 0 =? 0.

Definition auth_ok (req : bytes) (header_end : nat) (token : option bytes) : bool :=
  match nonempty token with
  | None => false
  | Some token =>
      match http_header_value (take header_end req) (bs "Authorization") 512 with
      | None => false
      | Some auth =>
          let p := drop_while is_wsp (c_str auth) in
          if (length p <? 7)%nat || negb (http_ci_eq p (bs "Bearer ") 7) then false
          else token_eq_ct (drop_while is_wsp (drop 7 p)) token
      end
  end.

(** ** Building JSON *)

(** Builder calls one after the other, their return values ignored as the
    handlers do. *)
Abbreviation jop := (JsonBuilder -> JsonBuilder * bool).

Definition jsonb_run (ops : list jop) (b : JsonBuilder) : JsonBuilder :=
  foldl (fun b op => (op b).1) b ops.

(** [for (i...) { if (i) jsonb_comma(&b); ... }] *)
Fixpoint comma_sep {A} (f : A -> list jop) (first : bool) (l : list A) : list jop :=
  match l with
  | [] => []
  | x :: l' => (if first then [] else [jsonb_comma]) ++ f x ++ comma_sep f false l'
  end.

Definition jkey (k : bytes) : jop := fun b => jsonb_key b (Some k).
Definition jstr (v : option bytes) : jop := fun b => jsonb_str b v.
Definition jnum (v : Z) : jop := fun b => jsonb_u32 b v.

(** [jsonb_detach] and the 200, or the 500 when the builder failed. *)
Definition respond_json (r : AdminResp) (ops : list jop) : AdminResp :=
  match (jsonb_detach (jsonb_run ops jsonb_init)).2 with
  | None => ar_err r 500 (bs "Internal Server Error") (bs "out of memory")
  | Some body => ar_respond r 200 (bs "OK") (bs "application/json") body
  end.

Definition ok_body : bytes := bs "{" ++ DQUOTE :: bs "ok" ++ DQUOTE :: bs ":true}".

Section Admin.
Context {E : DlEngine}.
Variables (index_html app_js style_css : bytes) (access : bytes -> bool).

Definition store_error (r : AdminResp) : AdminResp :=
  ar_err r 500 (bs "Internal Server Error") (bs "store error").

(** ** Static assets *)

(** The content type and the bytes of the asset at [target]. *)
Definition static_asset (target : bytes) : option (bytes * bytes) :=
  if beq target (bs "/") || beq target (bs "/admin") || beq target (bs "/admin/") ||
     beq target (bs "/index.html") then Some (bs "text/html; charset=utf-8", index_html)
  else if beq target (bs "/app.js") then Some (bs "text/javascript; charset=utf-8", app_js)
  else if beq target (bs "/style.css") then Some (bs "text/css; charset=utf-8", style_css)
  else None.

Definition serve_static (method target : bytes) (r : AdminResp) : option AdminResp :=
  if negb (beq method (bs "GET")) then None
  else match static_asset target with
       | None => None
       | Some (ctype, body) => Some (ar_respond r 200 (bs "OK") ctype body)
       end.

(** ** Handlers *)

(** The digit loop of [handle_log], which stops above 10000. *)
Fixpoint log_n (p : bytes) (v : Z) : Z :=
  match p with
  | c :: p' => if is_digit c then if v >? 10000 then v else log_n p' (v * 10 + (c - "0"%chr)) else v
  | [] => v
  end.

(** How many entries a target asks for. *)
Definition log_count (target : bytes) : Z :=
  let n := match cut "?"%chr target with
           | Some (_, q) =>
               match strip_prefix (bs "n=") q with
               | Some p => if log_n p 0 >? 0 then log_n p 0 else 100
               | None => 100
               end
           | None => 100
           end in
  if n >? 1000 then 1000 else n.

Definition log_entry_ops (e : StoreLogEntry) : list jop :=
  [ jsonb_begin_object;
    jkey (bs "msgid"); jnum (le_msgid e); jsonb_comma;
    jkey (bs "ts"); jnum (le_ts e); jsonb_comma;
    jkey (bs "dir"); jnum (le_dir e); jsonb_comma;
    jkey (bs "local"); jstr (Some (le_local e)); jsonb_comma;
    jkey (bs "remote"); jstr (Some (le_remote e)); jsonb_comma;
    jkey (bs "status"); jstr (Some (le_status e));
    jsonb_end_object ].

Definition handle_log (s : Store) (r : AdminResp) (target : bytes) : AdminResp :=
  let '(rc, entries) := store_log_recent s (Z.to_nat (log_count target)) in
  if negb (rc =? VISAGE_OK) then store_error r
  else respond_json r ([jsonb_begin_array] ++ comma_sep log_entry_ops true entries ++ [jsonb_end_array]).

Definition handle_alias (cfg : AdminConfig) (s : Store) (r : AdminResp) (rm : bool) (req : bytes)
    (header_end : nat) : Store * AdminResp :=
  let body := c_str (drop header_end req) in
  match json_obj_get_str body (bs "alias") 512, json_obj_get_str body (bs "destination") 512 with
  | Some alias, Some dest =>
      let alias := c_str alias in
      let dest := c_str dest in
      if negb rm && negb (if mail_addr_parse alias then if mail_addr_parse dest then true else false else false)
      then (s, ar_err r 400 (bs "Bad Request") (bs "alias and destination must be valid mail addresses"))
      else if config_alias_read_only (aliases cfg) alias
      then (s, ar_err r 403 (bs "Forbidden") (bs "alias is declared in config (read-only)"))
      else
        let '(s, rc) := if rm then store_alias_rm s alias dest else store_alias_add s alias dest in
        if negb (rc =? VISAGE_OK) then (s, store_error r)
        else (s, ar_respond r 200 (bs "OK") (bs "application/json") ok_body)
  | _, _ =>
      (s, ar_err r 400 (bs "Bad Request")
        (bs "expected {" ++ DQUOTE :: bs "alias" ++ DQUOTE :: bs "," ++ DQUOTE :: bs "destination" ++ DQUOTE :: bs "}"))
  end.

Definition alias_ops (x : bytes * bytes) : list jop :=
  [ jsonb_begin_object;
    jkey (bs "alias"); jstr (Some x.1); jsonb_comma;
    jkey (bs "destination"); jstr (Some x.2);
    jsonb_end_object ].

Definition handle_aliases (s : Store) (r : AdminResp) : AdminResp :=
  let '(rc, l) := store_alias_list_all s in
  if negb (rc =? VISAGE_OK) then store_error r
  else respond_json r ([jsonb_begin_object; jkey (bs "aliases"); jsonb_begin_array] ++
         comma_sep alias_ops true l ++ [jsonb_end_array; jsonb_end_object]).

Definition qstatus : list bytes := [bs "queued"; bs "delivering"; bs "delivered"; bs "permfail"].

(** The counts of the four statuses, [None] once one is negative. *)
Fixpoint queue_counts (s : Store) (l : list bytes) : Store * option (list (bytes * Z)) :=
  match l with
  | [] => (s, Some [])
  | st :: l' =>
      let '(s, q) := store_queue_count_by_status s st in
      if q <? 0 then (s, None)
      else let '(s, r) := queue_counts s l' in
           (s, match r with Some qs => Some ((st, q) :: qs) | None => None end)
  end.

Definition status_ops (cfg : AdminConfig) (ac : Z) (q : list (bytes * Z)) : list jop :=
  [ jsonb_begin_object;
    jkey (bs "hostname"); jstr (hostname cfg); jsonb_comma;
    jkey (bs "domains"); jsonb_begin_array ] ++
  comma_sep (fun d => [jstr d]) true (domains cfg) ++
  [ jsonb_end_array; jsonb_comma;
    jkey (bs "listen"); jsonb_begin_object;
    jkey (bs "address"); jstr (ad_listen_address cfg); jsonb_comma;
    jkey (bs "port"); jnum (cl_port (listen cfg)); jsonb_end_object; jsonb_comma;
    jkey (bs "http"); jsonb_begin_object;
    jkey (bs "address"); jstr (ad_http_address cfg); jsonb_comma;
    jkey (bs "port"); jnum (ad_http_port cfg); jsonb_end_object; jsonb_comma;
    jkey (bs "relay"); jsonb_begin_object;
    jkey (bs "host"); jstr (rl_host (relay cfg)); jsonb_comma;
    jkey (bs "port"); jnum (rl_port (relay cfg)); jsonb_comma;
    jkey (bs "tls"); jstr (rl_tls (relay cfg)); jsonb_end_object; jsonb_comma;
    jkey (bs "alias_count"); jnum (u32 ac); jsonb_comma;
    jkey (bs "queue"); jsonb_begin_object ] ++
  comma_sep (fun x => [jkey x.1; jnum (u32 x.2)]) true q ++
  [ jsonb_end_object; jsonb_end_object ].

Definition handle_status (cfg : AdminConfig) (s : Store) (r : AdminResp) : Store * AdminResp :=
  let ac := store_alias_count s in
  if ac <? 0 then (s, store_error r)
  else
    let '(s, q) := queue_counts s qstatus in
    match q with
    | None => (s, store_error r)
    | Some q => (s, respond_json r (status_ops cfg ac q))
    end.

(** ** Replay *)

(** The slots [k] of the terminal rows collected so far. *)
Definition replay_collect_cb (k : Z) (from to status : bytes) (c : list Z) : list Z * bool :=
  if negb (beq status (bs "delivered")) && negb (beq status (bs "permfail")) then (c, false)
  else (c ++ [k], false).

(** [snprintf(spoolpath, 4096, "%s/%u.%u.out.eml", ...)] *)
Definition spool_path (cfg : AdminConfig) (msgid k : Z) : option bytes :=
  let p := sg_spool (storage cfg) ++ "/"%chr :: print_u32 msgid ++ "."%chr :: print_u32 k ++ bs ".out.eml" in
  if (4096 <=? length p)%nat then None else Some p.

Fixpoint replay_items (cfg : AdminConfig) (s : Store) (msgid : Z) (ks : list Z) (replayed : Z) : Store * Z :=
  match ks with
  | [] => (s, replayed)
  | k :: ks' =>
      match spool_path cfg msgid k with
      | None => replay_items cfg s msgid ks' replayed
      | Some p =>
          if negb (access p) then replay_items cfg s msgid ks' replayed
          else
            let '(s, rc) := store_queue_set_status s msgid k (bs "queued") 0 0 in
            replay_items cfg s msgid ks' (if rc =? VISAGE_OK then replayed + 1 else replayed)
      end
  end.

Definition handle_replay (cfg : AdminConfig) (s : Store) (r : AdminResp) (req : bytes) (header_end : nat)
  : Store * AdminResp :=
  let body := c_str (drop header_end req) in
  match json_obj_get_u32 body (bs "msgid") with
  | None =>
      (s, ar_err r 400 (bs "Bad Request") (bs "expected {" ++ DQUOTE :: bs "msgid" ++ DQUOTE :: bs ":N}"))
  | Some msgid =>
      let '(rc, ks) := store_queue_walk_msgid s msgid replay_collect_cb [] in
      if negb (rc =? VISAGE_OK) then (s, store_error r)
      else
        let '(s, replayed) := replay_items cfg s msgid ks 0 in
        let resp := bs "{" ++ DQUOTE :: bs "ok" ++ DQUOTE :: bs ":true," ++ DQUOTE :: bs "replayed" ++ DQUOTE ::
                      bs ":" ++ print_u32 replayed ++ bs "}" in
        if (128 <=? length resp)%nat then (s, ar_err r 500 (bs "Internal Server Error") (bs "out of memory"))
        else (s, ar_respond r 200 (bs "OK") (bs "application/json") resp)
  end.

(** ** Routing *)

Definition is_log (target : bytes) : bool :=
  beq target (bs "/log") || (if strip_prefix (bs "/log?") target then true else false).

Definition known_method (m : bytes) : bool := beq m (bs "GET") || beq m (bs "POST") || beq m (bs "DELETE").

Definition known_target (t : bytes) : bool :=
  beq t (bs "/alias") || beq t (bs "/replay") || beq t (bs "/aliases") || beq t (bs "/status") ||
  is_log t || beq t (bs "/health") || beq t (bs "/") || beq t (bs "/admin") || beq t (bs "/admin/") ||
  beq t (bs "/index.html") || beq t (bs "/app.js") || beq t (bs "/style.css").

(** Behind the token. *)
Definition admin_dispatch (cfg : AdminConfig) (s : Store) (r : AdminResp) (method target req : bytes)
    (header_end : nat) : Store * AdminResp :=
  if beq method (bs "GET") && beq target (bs "/aliases") then (s, handle_aliases s r)
  else if beq method (bs "GET") && beq target (bs "/status") then handle_status cfg s r
  else if beq method (bs "GET") && is_log target then (s, handle_log s r target)
  else if beq method (bs "POST") && beq target (bs "/alias") then handle_alias cfg s r false req header_end
  else if beq method (bs "DELETE") && beq target (bs "/alias") then handle_alias cfg s r true req header_end
  else if beq method (bs "POST") && beq target (bs "/replay") then handle_replay cfg s r req header_end
  else if known_method method && known_target target
  then (s, ar_err r 405 (bs "Method Not Allowed") (bs "method not allowed"))
  else (s, ar_err r 404 (bs "Not Found") (bs "unknown path")).

(** [admin_build_response]; [header_end] is [None] for SIZE_MAX. *)
Definition admin_build_response (cfg : AdminConfig) (s : Store) (req : bytes) (header_end : option nat)
  : Store * option bytes :=
  let r := ar_init in
  match parse_request_line req 16 1024 with
  | None => (s, ar_finish (ar_err r 400 (bs "Bad Request") (bs "malformed request")))
  | Some (method, target) =>
      let method := c_str method in
      let target := c_str target in
      match header_end with
      | None => (s, ar_finish (ar_err r 400 (bs "Bad Request") (bs "malformed headers")))
      | Some he =>
          if (length req <? he)%nat
          then (s, ar_finish (ar_err r 400 (bs "Bad Request") (bs "malformed headers")))
          else if beq method (bs "GET") && beq target (bs "/health")
          then (s, ar_finish (ar_respond r 200 (bs "OK") (bs "application/json") ok_body))
          else match serve_static method target r with
               | Some r => (s, ar_finish r)
               | None =>
                   if negb (auth_ok req he (ad_token cfg))
                   then (s, ar_finish (ar_err r 401 (bs "Unauthorized") (bs "missing or invalid token")))
                   else let '(s, r) := admin_dispatch cfg s r method target req he in (s, ar_finish r)
               end
      end
  end.

End Admin.
