(* ===== verification/Http.v ===== *)
(** * The admin HTTP connections (src/src/http.c)

    The non-blocking state machine of a connection and the callbacks it registers
    with the slots of the event loop. [HttpServer] is the heap of the live
    connections, by their address; a callback gets the address it was registered
    with. A handler takes and returns the connection, [None] once it is freed, and
    the slot table. The sockets are those of [Host]; a [recv] returns at most the
    bytes asked for. *)

From S2P Require Import Prelude DlEngine Store StoreSpec StoreTables StoreQueue Reply Json Config HttpParse SmtpParse SmtpWorld SmtpSession SmtpServer Admin.

Definition HTTP_READ_TIMEOUT_MS : Z := 5000.
Definition HTTP_RECV_CHUNK : nat := 4096.

Inductive http_state := HTTP_ST_RECV | HTTP_ST_RESPOND.

Record HttpConn := MkHttp {
  hc_fd : Z;
  hc_handle : Z;
  hc_recv : bytes;
  hc_header_end : nat;
  hc_body_len : Z;
  hc_state : http_state;
  hc_resp : bytes;
  hc_off : nat;
}.

Definition set_recv (d : bytes) (c : HttpConn) : HttpConn :=
  MkHttp (hc_fd c) (hc_handle c) d (hc_header_end c) (hc_body_len c) (hc_state c) (hc_resp c) (hc_off c).
Definition set_frame (he : nat) (bl : Z) (c : HttpConn) : HttpConn :=
  MkHttp (hc_fd c) (hc_handle c) (hc_recv c) he bl (hc_state c) (hc_resp c) (hc_off c).
Definition set_off (off : nat) (c : HttpConn) : HttpConn :=
  MkHttp (hc_fd c) (hc_handle c) (hc_recv c) (hc_header_end c) (hc_body_len c) (hc_state c) (hc_resp c) off.

(** [http_set_response_buf]. *)
Definition http_set_response_buf (c : HttpConn) (buf : bytes) : HttpConn :=
  MkHttp (hc_fd c) (hc_handle c) (hc_recv c) (hc_header_end c) (hc_body_len c) HTTP_ST_RESPOND buf 0.

(** [http_set_response]: a head that does not fit is cut. *)
Definition http_set_response (c : HttpConn) (status : Z) (reason ctype body : bytes) : HttpConn :=
  http_set_response_buf c (take 255 (http_head status reason ctype (len body)) ++ body).

(** The 503 of [http_accept]. *)
Definition busy : bytes :=
  bs "HTTP/1.0 503 Service Unavailable" ++ CRLF ++ bs "Content-Type: application/json" ++ CRLF ++
  bs "Content-Length: 0" ++ CRLF ++ bs "Connection: close" ++ CRLF ++ CRLF.

(** The addresses of the callbacks. *)
Definition CB_READABLE : Z := 1.
Definition CB_WRITABLE : Z := 2.
Definition CB_CLOSED : Z := 3.

Record HttpServer := MkHttpServer { hx_conns : gmap Z HttpConn; hx_next : Z }.

Section Http.
Context {E : DlEngine} {H : Host}.
Variables (index_html app_js style_css : bytes) (sys_access : host -> bytes -> bool) (cfg : AdminConfig).

(** [http_conn_free] on the slot table. *)
Definition http_conn_free (c : HttpConn) (t : http_table) : http_table :=
  if hc_handle c >=? 0 then smtp_in_http_close t (hc_handle c) else t.

Abbreviation HM := (M (option HttpConn * http_table)).

Definition freed (c : HttpConn) (t : http_table) : HM := mret (None, http_conn_free c t).

Definition http_try_flush (c : HttpConn) (t : http_table) : HM :=
  if (length (hc_resp c) <=? hc_off c)%nat then freed c t
  else
    rs ← on_host (fun h => sys_send h (hc_fd c) (drop (hc_off c) (hc_resp c)));
    match flush_loop rs (length (hc_resp c)) (hc_off c) with
    | FlKeep off => mret (Some (set_off off c), t)
    | FlDead => freed c t
    | FlDone => freed c t
    end.

Definition http_respond (c : HttpConn) (t : http_table) (status : Z) (reason ctype body : bytes) : HM :=
  http_try_flush (http_set_response c status reason ctype body) (smtp_in_http_set_events t (hc_handle c) POLLOUT).

Definition http_respond_err (c : HttpConn) (t : http_table) (status : Z) (reason msg : bytes) : HM :=
  http_respond c t status reason (bs "application/json") (err_body msg).

Definition too_large (c : HttpConn) (t : http_table) : HM :=
  http_respond_err c t 413 (bs "Request Entity Too Large") (bs "request too large").

(** [admin_build_response] on the buffered request. *)
Definition build (c : HttpConn) : M (option bytes) := fun w =>
  let '(s, r) := admin_build_response index_html app_js style_css (sys_access (w_host w)) cfg (w_store w)
                   (hc_recv c) (Some (hc_header_end c)) in
  (MkWorld s (w_marks w) (w_host w) (w_sent w), r).

Definition handle_request (c : HttpConn) (t : http_table) : HM :=
  r ← build c;
  match r with
  | None => http_respond_err c t 500 (bs "Internal Server Error") (bs "out of memory")
  | Some resp =>
      http_try_flush (http_set_response_buf c resp) (smtp_in_http_set_events t (hc_handle c) POLLOUT)
  end.

Definition http_process (c : HttpConn) (t : http_table) : HM :=
  match http_parse_probe (hc_recv c) HTTP_MAX_REQ with
  | NeedMore => if HTTP_MAX_REQ <=? len (hc_recv c) then too_large c t else mret (Some c, t)
  | Err => too_large c t
  | Done he bl =>
      if negb (len (hc_recv c) =? Z.of_nat he + bl)
      then http_respond_err c t 400 (bs "Bad Request") (bs "body does not match Content-Length")
      else handle_request (set_frame he bl c) t
  end.

Definition http_conn_on_readable (c : HttpConn) (t : http_table) : HM :=
  match hc_state c with
  | HTTP_ST_RESPOND => mret (Some c, t)
  | HTTP_ST_RECV =>
      if HTTP_MAX_REQ <=? len (hc_recv c) then too_large c t
      else
        let want := Nat.min (Z.to_nat (HTTP_MAX_REQ - len (hc_recv c))) HTTP_RECV_CHUNK in
        r ← on_host (fun h => sys_recv h (hc_fd c));
        match r with
        | RvAgain => mret (Some c, t)
        | RvData (x :: d) => http_process (set_recv (hc_recv c ++ take want (x :: d)) c) t
        | _ => freed c t
        end
  end.

Definition http_conn_on_writable (c : HttpConn) (t : http_table) : HM :=
  match hc_state c with
  | HTTP_ST_RESPOND => http_try_flush c t
  | HTTP_ST_RECV => mret (Some c, t)
  end.

Definition http_conn_on_closed (c : HttpConn) (t : http_table) : HM := freed c t.

(** ** The callbacks on the heap *)

Definition new_http_conn (fd handle : Z) : HttpConn := MkHttp fd handle [] 0 0 HTTP_ST_RECV [] 0.

(** A callback on the connection at address [user]; [None] when no live
    connection is there. *)
Definition http_callback (f : HttpConn -> http_table -> HM) (srv : HttpServer) (t : http_table) (user : Z)
  : M (option (HttpServer * http_table)) :=
  match hx_conns srv !! user with
  | None => mret None
  | Some c =>
      r ← f c t;
      mret (Some (MkHttpServer (match r.1 with
                                | Some c' => <[user := c']> (hx_conns srv)
                                | None => delete user (hx_conns srv)
                                end) (hx_next srv), r.2))
  end.

(** The loop of [http_accept] over the sockets that [accept] returns. *)
Fixpoint http_accept (srv : HttpServer) (t : http_table) (fds : list Z) : M (HttpServer * http_table) :=
  match fds with
  | [] => mret (srv, t)
  | cfd :: fds' =>
      let user := hx_next srv in
      now ← on_host time_now;
      let '(t', handle) := smtp_in_register_http_conn t now cfd CB_READABLE CB_WRITABLE CB_CLOSED
                             (HTTP_READ_TIMEOUT_MS / 1000) user in
      if handle <? 0 then
        _ ← on_host (fun h => sys_send h cfd busy);
        http_accept srv t' fds'
      else
        http_accept (MkHttpServer (<[user := new_http_conn cfd handle]> (hx_conns srv)) (hx_next srv + 1)) t' fds'
  end.

End Http.
