(* ===== verification/AdminSpec.v ===== *)
(** * The admin API: theorems

    Who may change or read what through [admin_build_response], the framing of its
    responses, what the alias and replay routes do to the store, and what every
    route keeps of it. *)

From S2P Require Import Prelude MailAddr DlEngine Store StoreSpec StoreTables StoreQueue Reply Json Config HttpParse SmtpParse MemHost Admin.

(** Computes the lengths of literals. *)
Ltac bs_len :=
  repeat match goal with
  | |- context [length (bs ?s)] => let n := eval vm_compute in (length (bs s)) in change (length (bs s)) with n
  end.

(** ** The token *)

Lemma ct_loop_zero a b n i d :
  ct_loop a b n i d = 0 <-> d = 0 /\ forall j, (i <= j < i + n)%nat -> nth j a 0 = nth j b 0.
Proof.
  revert i d. induction n as [|n IH]; intros i d; cbn [ct_loop].
  { split; [|by intros []]. intros ->. split; [done|]. intros j Hj. lia. }
  rewrite IH, Z.lor_eq_0_iff, Z.lxor_eq_0_iff. split.
  - intros [[-> He] Hr]. split; [done|]. intros j Hj. destruct (decide (j = i)) as [->|]; [done|]. apply Hr. lia.
  - intros [-> Hr]. split; [split; [done|apply Hr; lia]|]. intros j Hj. apply Hr. lia.
Qed.

Lemma nth_eq_zero_free (a b : bytes) :
  0 ∉ a -> 0 ∉ b -> (forall j, nth j a 0 = nth j b 0) -> a = b.
Proof.
  revert b. induction a as [|x a IH]; intros [|y b] Ha Hb He; [done|..].
  - specialize (He O). simpl in He. subst. set_solver.
  - specialize (He O). simpl in He. subst. set_solver.
  - pose proof (He O) as H0. simpl in H0. subst y. f_equal. apply IH; [set_solver..|].
    intros j. exact (He (S j)).
Qed.

(** The constant-time comparison is equality of C strings. *)
Lemma token_eq_ct_spec (a b : bytes) : 0 ∉ a -> 0 ∉ b -> token_eq_ct a b = true <-> a = b.
Proof.
  intros Ha Hb. unfold token_eq_ct. rewrite Z.eqb_eq, ct_loop_zero. split.
  - intros [_ Hr]. apply nth_eq_zero_free; [done..|]. intros j.
    destruct (Nat.lt_ge_cases j (Nat.max (length a) (length b))); [apply Hr; lia|].
    rewrite !nth_overflow by lia. done.
  - by intros ->.
Qed.

Definition blanks (b : bytes) : Prop := Forall (fun c => is_wsp c = true) b.

(** The request carries an Authorization field whose value is "Bearer " in any
    case and this token, with blanks around the scheme. *)
Definition presents (req : bytes) (he : nat) (token : bytes) : Prop :=
  exists auth b1 w b2, http_header_value (take he req) (bs "Authorization") 512 = Some auth /\
    c_str auth = b1 ++ w ++ b2 ++ token /\ blanks b1 /\ blanks b2 /\ ieq w (bs "Bearer ") = true.

Lemma ci_eq_take a b n : (n <= length a)%nat -> length b = n -> http_ci_eq a b n = ieq (take n a) b.
Proof.
  revert a b. induction n as [|n IH]; intros a b Ha Hb; [by destruct a, b|].
  destruct a as [|x a], b as [|y b]; simpl in Ha, Hb; try lia.
  cbn [http_ci_eq take ieq]. f_equal. apply IH; lia.
Qed.

Lemma drop_while_blanks (s : bytes) : exists b, blanks b /\ s = b ++ drop_while is_wsp s.
Proof. exists (take_while is_wsp s). split; [apply take_while_all|]. by rewrite take_drop_while. Qed.

Lemma drop_while_sub p (s : bytes) : drop_while p s ⊆ s.
Proof. induction s as [|c s IH]; simpl; [done|]. destruct (p c); set_solver. Qed.

Lemma auth_ok_sound req he tok : auth_ok req he tok = true -> (forall t, tok = Some t -> 0 ∉ t) ->
  exists t, tok = Some t /\ t <> [] /\ presents req he t.
Proof.
  unfold auth_ok. destruct tok as [[|c t]|]; cbn [nonempty]; [done| |done]. intros Ha Hz.
  exists (c :: t). split; [done|]. split; [done|]. specialize (Hz _ eq_refl).
  destruct (http_header_value _ _ _) as [auth|] eqn:Hv; [|done].
  destruct (drop_while_blanks (c_str auth)) as (b1 & Hb1 & E1). pose proof (c_str_no_nul auth) as Hcz.
  set (p := drop_while is_wsp (c_str auth)) in *.
  destruct (Nat.ltb_spec (length p) 7) as [|Hl]; [done|]. cbn [orb] in Ha.
  destruct (http_ci_eq p (bs "Bearer ") 7) eqn:Hc; [|done]. cbn [negb] in Ha.
  rewrite ci_eq_take in Hc by done.
  destruct (drop_while_blanks (drop 7 p)) as (b2 & Hb2 & E2).
  assert (Hsub : 0 ∉ drop_while is_wsp (drop 7 p)).
  { intros Hin. apply Hcz. rewrite E1. apply elem_of_app. right.
    apply drop_while_sub in Hin. by apply (subseteq_drop 7). }
  apply token_eq_ct_spec in Ha; [|done..].
  exists auth, b1, (take 7 p), b2. split; [done|]. split; [|done].
  rewrite E1 at 1. f_equal. rewrite <- (take_drop 7 p) at 1. f_equal. by rewrite E2 at 1; rewrite Ha.
Qed.

Lemma auth_ok_complete req he t :
  t <> [] -> (forall c, head t = Some c -> is_wsp c = false) -> presents req he t -> auth_ok req he (Some t) = true.
Proof.
  intros Hne Hhd (auth & b1 & w & b2 & Hv & Hs & Hb1 & Hb2 & Hw). unfold auth_ok.
  destruct t as [|c t]; [done|]. cbn [nonempty]. rewrite Hv.
  pose proof (ieq_length _ _ Hw) as Hwl. change (length (bs "Bearer ")) with 7%nat in Hwl.
  assert (Hdw : drop_while is_wsp (c_str auth) = w ++ b2 ++ c :: t).
  { rewrite Hs, drop_while_app_all by done. destruct w as [|x w]; [done|].
    apply drop_while_stop. cbn [app ieq] in Hw. change (bs "Bearer ") with ("B"%chr :: bs "earer ") in Hw.
    cbn [ieq] in Hw. apply andb_true_iff in Hw as [Hx _]. apply Z.eqb_eq in Hx. revert Hx.
    unfold tolower, is_wsp. change ("B"%chr) with 66. change ("A"%chr) with 65. change ("Z"%chr) with 90.
    destruct (_ && _) eqn:Hu, ((65 <=? 66) && (66 <=? 90)) eqn:Hk; try done; lia. }
  rewrite Hdw.
  destruct (Nat.ltb_spec (length (w ++ b2 ++ c :: t)) 7) as [Hlt|_]; [rewrite length_app in Hlt; lia|].
  rewrite ci_eq_take by (first [done | rewrite length_app; lia]). rewrite <- Hwl at 1.
  rewrite take_app_length, Hw. cbn [orb negb]. rewrite <- Hwl, drop_app_length.
  rewrite drop_while_app_all by done. rewrite drop_while_stop by (by apply Hhd).
  apply Z.eqb_eq, ct_loop_zero. done.
Qed.

(** ** Framing of the responses *)

Lemma find_end_cons a t : a <> CR -> http_find_header_end (a :: t) = S <$> http_find_header_end t.
Proof.
  intros Ha. destruct t as [|b [|c [|d t]]]; try done.
  rewrite find_header_end_eq. destruct (Z.eqb_spec a CR); [done|]. done.
Qed.

Lemma find_end_line l t :
  Forall (fun c => line_byte c = true) l -> http_find_header_end (l ++ t) = Nat.add (length l) <$> http_find_header_end t.
Proof.
  induction 1 as [|a l Ha _ IH]; cbn [app]; [by destruct (http_find_header_end t)|].
  rewrite find_end_cons, IH; [by destruct (http_find_header_end t)|].
  intros ->. done.
Qed.

Lemma find_end_break c t : c <> CR ->
  http_find_header_end (CRLF ++ c :: t) = Nat.add 2 <$> http_find_header_end (c :: t).
Proof.
  intros Hc. cbn [app]. destruct t as [|d t]; [done|]. rewrite find_header_end_eq.
  rewrite (proj2 (Z.eqb_neq c CR)) by done. cbn [andb Z.eqb Pos.eqb]. rewrite find_end_cons by done.
  by destruct (http_find_header_end (c :: d :: t)).
Qed.

Definition line_ok (l : bytes) : Prop := Forall (fun c => line_byte c = true) l.

(** Skipping a line that is not the wanted field. *)
Lemma header_value_skip fuel l c t name outsz :
  line_ok l -> line_byte c = true -> l <> [] ->
  http_ci_eq (l ++ CRLF ++ c :: t) name (length name) = false ->
  header_value_loop (S fuel) (l ++ CRLF ++ c :: t) name outsz = header_value_loop fuel (c :: t) name outsz.
Proof.
  intros Hl Hc Hne Hci. cbn [header_value_loop]. destruct (l ++ CRLF ++ c :: t) eqn:E; [by destruct l|]. rewrite <- E in *.
  rewrite Hci, andb_false_r. cbn [andb].
  rewrite (take_while_app_all line_byte l) by done. cbn [app]. rewrite (take_while_stop line_byte) by done.
  rewrite app_nil_r, drop_app_ge by lia. replace (S (length l) - length l)%nat with 1%nat by lia.
  change (drop_while is_eol (drop 1 _)) with (drop_while is_eol (c :: t)).
  rewrite (drop_while_stop is_eol c); [done|]. unfold line_byte in Hc. by destruct (is_eol c).
Qed.

(** Reading the value of the wanted field. *)
Lemma header_value_take fuel name v t outsz :
  line_ok (name ++ ":"%chr :: SP :: v) -> v <> [] -> (length v < outsz)%nat ->
  (forall c, head v = Some c -> is_wsp c = false) -> (forall c, last v = Some c -> is_wsp c = false) ->
  header_value_loop (S fuel) (name ++ ":"%chr :: SP :: v ++ CRLF ++ t) name outsz = Some v.
Proof.
  intros Hl Hv Hlen Hh Hla. cbn [header_value_loop].
  set (s := name ++ ":"%chr :: SP :: v ++ CRLF ++ t).
  assert (Hs : s = (name ++ ":"%chr :: SP :: v) ++ CRLF ++ t) by (unfold s; by rewrite <- app_assoc).
  assert (Htw : take_while line_byte s = name ++ ":"%chr :: SP :: v).
  { rewrite Hs, (take_while_app_all line_byte) by done. cbn [app]. rewrite (take_while_stop line_byte) by done. by rewrite app_nil_r. }
  assert (Hci : http_ci_eq s name (length name) = true).
  { rewrite ci_eq_take; [|unfold s; rewrite length_app; lia|done]. unfold s. rewrite take_app_length. apply ieq_refl. }
  destruct s eqn:E; [by destruct name|]. rewrite <- E in *. clear E.
  rewrite Htw, Hci. destruct (Nat.ltb_spec (length name) (length (name ++ ":"%chr :: SP :: v))) as [_|Hge];
    [|rewrite length_app in Hge; simpl in Hge; lia].
  assert (Hn : nth (length name) s 0 = ":"%chr).
  { rewrite Hs, <- app_assoc, app_nth2 by lia. by rewrite Nat.sub_diag. }
  rewrite Hn. cbn [andb Z.eqb Pos.eqb].
  rewrite drop_app_ge by lia. replace (S (length name) - length name)%nat with 1%nat by lia. cbn [drop drop_while].
  change (is_wsp SP) with true. cbv iota. destruct v as [|c v]; [done|].
  rewrite (drop_while_stop is_wsp c) by (by apply Hh).
  rewrite trim_end_id by done. destruct (Nat.ltb_spec outsz (length (c :: v) + 1)); [lia|done].
Qed.

Lemma print_size_digits v : 0 <= v <= UINT64_MAX ->
  exists ds, print_size v = ds /\ digits ds /\ ds <> [] /\ (length ds <= 20)%nat /\ dec_value 0 ds = v.
Proof.
  intros Hv. destruct (dec_digits_spec 20 v []) as (ds & E & Hd & Hn & Hl & Hval).
  - unfold UINT64_MAX in Hv. change (10 ^ Z.of_nat 20) with 100000000000000000000. lia.
  - lia.
  - exists ds. unfold print_size. rewrite E, app_nil_r. rewrite Hval. repeat split; (done || lia).
Qed.

Lemma digit_line c : is_digit c = true -> line_byte c = true /\ is_wsp c = false /\ is_space c = false.
Proof. unfold is_digit, line_byte, is_eol, is_wsp, is_space. intros. lia. Qed.

Lemma strtoul_digits ds : digits ds -> ds <> [] -> dec_value 0 ds <= UINT64_MAX -> strtoul ds = Some (dec_value 0 ds).
Proof.
  intros Hd Hne Hv. unfold strtoul. destruct ds as [|c ds]; [done|]. pose proof Hd as Hd'. inversion_clear Hd' as [|? ? Hc _].
  rewrite drop_while_stop by (by apply digit_line).
  destruct (Z.eqb_spec c "-"%chr) as [->|]; [done|]. destruct (Z.eqb_spec c "+"%chr) as [->|]; [done|].
  rewrite take_while_id by done. destruct (Z.gtb_spec (dec_value 0 (c :: ds)) UINT64_MAX); [lia|done].
Qed.

(** One response: head and body with a plain reason and content type. *)
Definition plain_text (s : bytes) : Prop :=
  line_ok s /\ s <> [] /\ (length s <= 32)%nat /\ (forall c, last s = Some c -> is_wsp c = false).

Definition framed (status : Z) (r : AdminResp) (body : bytes) : Prop :=
  exists reason ctype, plain_text reason /\ plain_text ctype /\ 0 <= status < 1000 /\
    r = MkAr (http_head status reason ctype (len body) ++ body) false.

Lemma dec_digits_len fuel v acc : (length (dec_digits fuel v acc) <= fuel + length acc)%nat.
Proof.
  revert v acc. induction fuel as [|fuel IH]; intros v acc; [done|]. cbn [dec_digits].
  destruct (v <? 10); [simpl; lia|]. etransitivity; [apply IH|]. simpl. lia.
Qed.

Lemma print_u32_digits v : 0 <= v <= UINT32_MAX -> digits (print_u32 v) /\ print_u32 v <> [].
Proof.
  intros Hv. destruct (dec_digits_spec 10 v []) as (ds & E & Hd & Hn & _).
  - unfold UINT32_MAX in Hv. change (10 ^ Z.of_nat 10) with 10000000000. lia.
  - lia.
  - unfold print_u32. by rewrite E, app_nil_r.
Qed.

(** Every call of [ar_respond] on the fresh accumulator gives one response. *)
Lemma respond_framed status reason ctype body :
  0 <= status < 1000 -> plain_text reason -> plain_text ctype ->
  framed status (ar_respond ar_init status reason ctype body) body.
Proof.
  intros Hs Hr Hc. exists reason, ctype. split; [done|]. split; [done|]. split; [done|].
  unfold ar_respond. cbn [ar_init ar_oom].
  assert (Hlen : (length (http_head status reason ctype (len body)) < 256)%nat).
  { unfold http_head. do 6 (rewrite ?length_app; cbn [length app]). bs_len.
    pose proof (dec_digits_len 10 status []). pose proof (dec_digits_len 20 (len body) []).
    unfold print_u32, print_size. destruct Hr as (_ & _ & Hr & _), Hc as (_ & _ & Hc & _).
    cbn [length] in *. lia. }
  destruct (Nat.leb_spec 256 (length (http_head status reason ctype (len body)))); [lia|]. done.
Qed.

Lemma find_end_step l l' t : line_ok l -> line_ok l' -> l' <> [] ->
  http_find_header_end (l ++ CRLF ++ l' ++ t) = Nat.add (length l + 2) <$> http_find_header_end (l' ++ t).
Proof.
  intros Hl Hl' Hne. rewrite find_end_line by done. destruct l' as [|c l']; [done|]. cbn [app].
  inversion_clear Hl' as [|? ? Hc _]. change (CR :: LF :: c :: l' ++ t) with (CRLF ++ c :: l' ++ t).
  rewrite find_end_break by (intros ->; done). destruct (http_find_header_end (c :: l' ++ t)); [|done]. cbn. f_equal. lia.
Qed.

Lemma ci_eq_prefix k a b n : (k <= n)%nat -> (k <= length a)%nat -> (k <= length b)%nat ->
  ieq (take k a) (take k b) = false -> http_ci_eq a b n = false.
Proof.
  revert a b n. induction k as [|k IH]; intros [|x a] [|y b] [|n] Hn Ha Hb; simpl in *; try done; try lia.
  destruct (tolower x =? tolower y); [|done]. cbn [andb]. apply IH; lia.
Qed.

Lemma header_skip_line k fuel l l' t name outsz : line_ok l -> line_ok l' -> l <> [] -> l' <> [] ->
  (k <= length l)%nat -> (k <= length name)%nat -> ieq (take k l) (take k name) = false ->
  header_value_loop (S fuel) (l ++ CRLF ++ l' ++ t) name outsz = header_value_loop fuel (l' ++ t) name outsz.
Proof.
  intros Hl Hl' Hne Hne' Hk Hn Hi. destruct l' as [|c l']; [done|]. inversion_clear Hl' as [|? ? Hc _].
  apply header_value_skip; try done. apply (ci_eq_prefix k); [done|rewrite length_app; lia|done|].
  by rewrite take_app_le.
Qed.

Lemma digits_line ds : digits ds -> line_ok ds.
Proof. intros Hd. apply (Forall_impl _ _ _ Hd). intros c Hc. by apply digit_line. Qed.

(** The lines of a head. *)
Definition l_status (status : Z) (reason : bytes) : bytes := bs "HTTP/1.0 " ++ print_u32 status ++ SP :: reason.
Definition l_ctype (ctype : bytes) : bytes := bs "Content-Type: " ++ ctype.
Definition l_len (n : Z) : bytes := bs "Content-Length" ++ ":"%chr :: SP :: print_size n.

Lemma head_lines status reason ctype n body :
  http_head status reason ctype n ++ body =
  l_status status reason ++ CRLF ++ l_ctype ctype ++ CRLF ++ l_len n ++ CRLF ++ bs "Connection: close" ++ CRLF ++ CRLF ++ body.
Proof. unfold http_head, l_status, l_ctype, l_len. do 4 (rewrite <- ?app_assoc; cbn [app]). reflexivity. Qed.

Lemma line_ok_app a b : line_ok a -> line_ok b -> line_ok (a ++ b).
Proof. unfold line_ok. by rewrite Forall_app. Qed.

Lemma head_parses status reason ctype (body : bytes) cap :
  0 <= status < 1000 -> plain_text reason -> plain_text ctype ->
  len body <= UINT64_MAX -> len body <= cap ->
  http_parse_probe (http_head status reason ctype (len body) ++ body) cap
  = Done (length (http_head status reason ctype (len body))) (len body).
Proof.
  intros Hs (Hr & _) (Hc & Hcn & _ & Hcl) Hlen Hcap.
  destruct (print_size_digits (len body)) as (ds & Eds & Hd & Hdn & Hdl & Hval); [lia|].
  destruct (print_u32_digits status) as [Hpd _]; [unfold UINT32_MAX; lia|].
  assert (H1 : line_ok (l_status status reason)).
  { apply line_ok_app; [by repeat constructor|]. apply line_ok_app; [by apply digits_line|]. by constructor. }
  assert (H2 : line_ok (l_ctype ctype)) by (apply line_ok_app; [by repeat constructor|done]).
  assert (H3 : line_ok (l_len (len body))).
  { apply line_ok_app; [by repeat constructor|]. constructor; [done|]. constructor; [done|]. rewrite Eds. by apply digits_line. }
  assert (H4 : line_ok (bs "Connection: close")) by (by repeat constructor).
  assert (He : http_find_header_end (http_head status reason ctype (len body) ++ body)
               = Some (length (http_head status reason ctype (len body)))).
  { rewrite head_lines, !find_end_step, find_end_line by done.
    change (http_find_header_end (CRLF ++ CRLF ++ body)) with (Some 4%nat). cbn [fmap option_fmap option_map].
    f_equal. rewrite <- (app_nil_r (http_head _ _ _ _)), head_lines, !length_app. cbn [length]. lia. }
  unfold http_parse_probe. rewrite He, take_app_length.
  assert (Hv : http_header_value (http_head status reason ctype (len body)) (bs "Content-Length") 32 = Some ds).
  { unfold http_header_value. rewrite <- (app_nil_r (http_head _ _ _ _)), head_lines.
    set (s := _ ++ _ ++ _). assert (Hf : exists f, length s = S (S f)).
    { exists (length s - 2)%nat. unfold s. rewrite length_app. unfold l_status. rewrite length_app. change (length (bs "HTTP/1.0 ")) with 9%nat. lia. }
    destruct Hf as [f ->]. unfold s.
    rewrite (header_skip_line 1); [|done|done|done|done|unfold l_status; rewrite length_app; bs_len; lia|vm_compute; lia|reflexivity].
    rewrite (header_skip_line 14); [|done|done|done|done|unfold l_ctype; rewrite length_app; bs_len; lia|vm_compute; lia|reflexivity].
    unfold l_len. rewrite <- app_assoc. cbn [app]. rewrite Eds. apply header_value_take; try done; [by rewrite <- Eds| lia|..].
    - intros c E. destruct ds as [|x ds]; [done|]. injection E as ->. inversion_clear Hd. by apply digit_line.
    - intros c E. apply digit_line. apply last_Some_elem_of in E. by apply (proj1 (Forall_forall _ _) Hd). }
  rewrite Hv, strtoul_digits by (done || lia). rewrite Hval.
  destruct (Z.gtb_spec (len body) cap); [lia|]. rewrite length_app.
  destruct (Z.leb_spec (len body) (Z.of_nat (length (http_head status reason ctype (len body)) + length body)
    - Z.of_nat (length (http_head status reason ctype (len body))))); [done|lia].
Qed.

Definition admin_statuses : list Z := [200; 400; 401; 403; 404; 405; 500].

(** One complete response with one of those statuses. *)
Definition responded (r : AdminResp) : Prop :=
  exists status body, status ∈ admin_statuses /\ framed status r body.

Ltac plain_lit :=
  split; [by repeat constructor|]; split; [done|]; split; [vm_compute; lia|];
  let c := fresh in let Hc := fresh in intros c Hc; vm_compute in Hc; injection Hc as <-; reflexivity.

Lemma respond_ok status reason ctype body :
  status ∈ admin_statuses -> plain_text reason -> plain_text ctype ->
  responded (ar_respond ar_init status reason ctype body).
Proof.
  intros Hs Hr Hc. exists status, body. split; [done|]. apply respond_framed; [|done..].
  unfold admin_statuses in Hs. set_unfold in Hs. lia.
Qed.

Lemma err_ok status reason msg :
  status ∈ admin_statuses -> plain_text reason -> responded (ar_err ar_init status reason msg).
Proof. intros Hs Hr. apply respond_ok; [done|done|plain_lit]. Qed.

(** Decides the side conditions of the two lemmas on literals. *)
Ltac responded_tac :=
  cbn [snd]; unfold store_error;
  match goal with
  | |- responded (ar_err _ _ _ _) => apply err_ok; [unfold admin_statuses; set_solver|plain_lit]
  | |- responded (ar_respond _ _ _ _ _) => apply respond_ok; [unfold admin_statuses; set_solver|plain_lit..]
  end.

Section Responses.
Context {E : DlEngine} (html js css : bytes) (access : bytes -> bool).

Lemma respond_json_ok ops : responded (respond_json ar_init ops).
Proof. unfold respond_json. destruct (jsonb_detach _).2; responded_tac. Qed.

Ltac responded_tac ::=
  cbn [snd]; unfold store_error;
  match goal with
  | |- responded (respond_json _ _) => apply respond_json_ok
  | |- responded (ar_err _ _ _ _) => apply err_ok; [unfold admin_statuses; set_solver|plain_lit]
  | |- responded (ar_respond _ _ _ _ _) => apply respond_ok; [unfold admin_statuses; set_solver|plain_lit..]
  end.

Lemma admin_dispatch_ok cfg s m t req he : responded (admin_dispatch access cfg s ar_init m t req he).2.
Proof.
  unfold admin_dispatch.
  destruct (_ && _). { cbn [snd]. unfold handle_aliases. destruct (store_alias_list_all s) as [rc l]. destruct (negb _); responded_tac. }
  destruct (_ && _).
  { unfold handle_status. destruct (_ <? 0); [responded_tac|]. destruct (queue_counts s qstatus) as [s' [q|]]; responded_tac. }
  destruct (_ && _). { cbn [snd]. unfold handle_log. destruct (store_log_recent _ _) as [rc l]. destruct (negb _); responded_tac. }
  assert (Ha : forall rm, responded (handle_alias cfg s ar_init rm req he).2).
  { intros rm. unfold handle_alias. destruct (json_obj_get_str _ _ _) as [al|]; [|responded_tac].
    destruct (json_obj_get_str _ (bs "destination") _) as [de|]; [|responded_tac]. destruct (_ && _); [responded_tac|].
    destruct (config_alias_read_only _ _); [responded_tac|]. destruct (if rm then _ else _) as [s' rc].
    destruct (negb _); [responded_tac|responded_tac]. }
  destruct (_ && _); [apply Ha|]. destruct (_ && _); [apply Ha|]. destruct (_ && _).
  { unfold handle_replay. destruct (json_obj_get_u32 _ _) as [m0|]; [|responded_tac].
    destruct (store_queue_walk_msgid _ _ _ _) as [rc ks]. destruct (negb _); [responded_tac|].
    destruct (replay_items _ _ _ _ _ _) as [s' n]. destruct (_ <=? _)%nat; responded_tac. }
  destruct (_ && _); responded_tac.
Qed.

Lemma build_response_ok cfg s req he :
  exists r, responded r /\ (admin_build_response html js css access cfg s req he).2 = ar_finish r.
Proof.
  unfold admin_build_response. destruct (parse_request_line req 16 1024) as [[m t]|];
    [|eexists; split; [|reflexivity]; responded_tac]. cbv zeta.
  destruct he as [he|]; [|eexists; split; [|reflexivity]; responded_tac].
  destruct (_ <? _)%nat; [eexists; split; [|reflexivity]; responded_tac|].
  destruct (_ && _); [eexists; split; [|reflexivity]; responded_tac|].
  destruct (serve_static _ _ _ _ _ _) as [r|] eqn:Hst.
  { exists r. split; [|done]. revert Hst. unfold serve_static. destruct (negb _); [done|].
    destruct (static_asset _ _ _ _) as [[ct b]|] eqn:Ha; [|done]. intros [= <-].
    assert (Hct : plain_text ct).
    { revert Ha. unfold static_asset. repeat (destruct (_ || _) || destruct (beq _ _)); intros Ha; try done;
        injection Ha as <- _; plain_lit. }
    apply respond_ok; [unfold admin_statuses; set_solver|plain_lit|done]. }
  destruct (negb _); [eexists; split; [|reflexivity]; responded_tac|].
  pose proof (admin_dispatch_ok cfg s (c_str m) (c_str t) req he) as Hd.
  destruct (admin_dispatch _ _ _ _ _ _ _ _) as [s' r]. by exists r.
Qed.

(** Every request gets exactly one response. [admin_build_response] never fails:
    it gives one head and one body, with one of the statuses of the API, and the
    server's own request parser reads the response back as a header block that
    ends where the body starts and a body of exactly the announced length. *)
Theorem admin_response_framed (cfg : AdminConfig) (s : Store) (req : bytes) (he : option nat) :
  exists status reason ctype body,
    (admin_build_response html js css access cfg s req he).2
      = Some (http_head status reason ctype (len body) ++ body) /\
    status ∈ admin_statuses /\
    forall cap, len body <= UINT64_MAX -> len body <= cap ->
      http_parse_probe (http_head status reason ctype (len body) ++ body) cap
      = Done (length (http_head status reason ctype (len body))) (len body).
Proof.
  destruct (build_response_ok cfg s req he) as (r & (st & body & Hst & reason & ctype & Hr & Hc & Hs & ->) & ->).
  exists st, reason, ctype, body. split; [done|]. split; [done|]. intros cap H1 H2. by apply head_parses.
Qed.

End Responses.

(** ** Who may do what *)

Section Access.
Context {E : DlEngine} (html js css : bytes) (access : bytes -> bool) (cfg : AdminConfig).

(** The method and the target of a request whose header block ends at [he]. *)
Definition request (req : bytes) (he : nat) (method target : bytes) : Prop :=
  (he <= length req)%nat /\
  exists m t, parse_request_line req 16 1024 = Some (m, t) /\ method = c_str m /\ target = c_str t.

Definition authenticated (req : bytes) (he : nat) : Prop :=
  exists t, ad_token cfg = Some t /\ t <> [] /\ presents req he t.

(** What needs no token. *)
Definition public (method target : bytes) : bool :=
  beq method (bs "GET") &&
  (beq target (bs "/health") || (if static_asset html js css target then true else false)).

(** Every branch that is not behind the token leaves the store and does not look
    at it. *)
Lemma build_public req he :
  (forall m t, request req he m t -> public m t = true \/ auth_ok req he (ad_token cfg) = false) ->
  exists resp, forall s' : Store, admin_build_response html js css access cfg s' req (Some he) = (s', resp).
Proof.
  intros Hp. unfold admin_build_response. unfold request in Hp.
  destruct (parse_request_line req 16 1024) as [[m t]|]; [|eexists; intros s'; reflexivity]. cbv zeta.
  destruct (Nat.ltb_spec (length req) he); [eexists; intros s'; reflexivity|].
  specialize (Hp (c_str m) (c_str t) ltac:(by split; [lia|exists m, t])).
  destruct (beq (c_str m) (bs "GET") && beq (c_str t) (bs "/health")) eqn:Hh; [eexists; intros s'; reflexivity|].
  unfold serve_static, public in *. destruct (beq (c_str m) (bs "GET")) eqn:Hm; cbn [negb andb] in *.
  - destruct (static_asset html js css (c_str t)) as [[ct b]|]; [eexists; intros s'; reflexivity|].
    rewrite Hh in Hp. destruct Hp as [Hp|Hp]; [done|]. rewrite Hp. eexists; intros s'; reflexivity.
  - destruct Hp as [Hp|Hp]; [done|]. rewrite Hp. eexists; intros s'; reflexivity.
Qed.

Lemma build_private s req he m t :
  request req he m t -> public m t = false -> auth_ok req he (ad_token cfg) = true ->
  admin_build_response html js css access cfg s req (Some he)
  = let '(s', r) := admin_dispatch access cfg s ar_init m t req he in (s', ar_finish r).
Proof.
  intros (Hl & m' & t' & Hr & -> & ->) Hp Ha. unfold admin_build_response. rewrite Hr. cbv zeta.
  destruct (Nat.ltb_spec (length req) he); [lia|]. unfold public in Hp. rewrite Ha.
  unfold serve_static. destruct (beq (c_str m') (bs "GET")); cbn [negb andb] in *; [|done].
  apply orb_false_iff in Hp as [-> Hs]. by destruct (static_asset html js css (c_str t')).
Qed.

(** C18: The token guards the store. Unless the Authorization field of a request
    presents the configured token, the store does not change and the response
    does not depend on it; a request that presents it and asks for anything but
    the public files is answered by its handler. *)
Theorem admin_auth_gate (req : bytes) (he : nat) (Htok : forall t, ad_token cfg = Some t -> 0 ∉ t) :
  (~ authenticated req he ->
   exists resp, forall s : Store, admin_build_response html js css access cfg s req (Some he) = (s, resp)) /\
  (forall tok m t, ad_token cfg = Some tok -> tok <> [] -> (forall c, head tok = Some c -> is_wsp c = false) ->
   presents req he tok -> request req he m t -> public m t = false ->
   forall s : Store, admin_build_response html js css access cfg s req (Some he)
     = let '(s', r) := admin_dispatch access cfg s ar_init m t req he in (s', ar_finish r)).
Proof.
  split.
  - intros Hn. assert (Ha : auth_ok req he (ad_token cfg) = false).
    { destruct (auth_ok req he (ad_token cfg)) eqn:Ha; [|done]. by apply auth_ok_sound in Ha. }
    apply build_public. auto.
  - intros tok m t Ht Hne Hh Hp Hr Hpub s. apply build_private; [done..|]. rewrite Ht. by apply auth_ok_complete.
Qed.

End Access.

(** ** The alias route *)

Section Aliases.
Context {E : DlEngine} {HL : DlLaws E} {Hh : DlHealthy E}.
Context (html js css : bytes) (access : bytes -> bool) (cfg : AdminConfig).

Definition json_response (status : Z) (reason body : bytes) : bytes :=
  http_head status reason (bs "application/json") (len body) ++ body.

(** The request is refused: nothing changes and the status is [status]. *)
Definition refused (status : Z) (s : Store) (out : Store * option bytes) : Prop :=
  out.1 = s /\ exists reason body, out.2 = Some (json_response status reason body).

Lemma respond_small status reason ctype body :
  0 <= status < 1000 -> plain_text reason -> plain_text ctype ->
  ar_respond ar_init status reason ctype body = MkAr (http_head status reason ctype (len body) ++ body) false.
Proof.
  intros Hs Hr Hc. pose proof (respond_framed status reason ctype body Hs Hr Hc) as (r & c & _ & _ & _ & Hf).
  unfold ar_respond in *. cbn [ar_init ar_oom] in *. by destruct (_ <=? _)%nat.
Qed.

Lemma err_refused status reason msg s : 0 <= status < 1000 -> plain_text reason ->
  refused status s (s, ar_finish (ar_err ar_init status reason msg)).
Proof.
  intros Hs Hr. split; [done|]. exists reason, (err_body msg). unfold ar_err.
  rewrite respond_small; [done|done|done|plain_lit].
Qed.

Definition valid_addr (a : bytes) : bool := if mail_addr_parse a then true else false.

Lemma handle_alias_exact s req he rm (a0 d0 : bytes) :
  store_wf (db s) ->
  json_obj_get_str (c_str (drop he req)) (bs "alias") 512 = Some a0 ->
  json_obj_get_str (c_str (drop he req)) (bs "destination") 512 = Some d0 ->
  let alias := c_str a0 in
  let dest := c_str d0 in
  let '(s', r) := handle_alias cfg s ar_init rm req he in
  let out := (s', ar_finish r) in
  if negb rm && negb (valid_addr alias && valid_addr dest) then refused 400 s out
  else if config_alias_read_only (aliases cfg) alias then refused 403 s out
  else match split_addr alias with
       | None => refused 500 s out
       | Some (loc, dom) =>
           out.2 = Some (json_response 200 (bs "OK") ok_body) /\
           (forall a b c, alias_fact (db s') a b c <->
              if rm then alias_fact (db s) a b c /\ (a, b, c) <> (dom, loc, dest)
              else alias_fact (db s) a b c \/ (a, b, c) = (dom, loc, dest)) /\
           store_wf (db s')
       end.
Proof.
  intros Hwf Ha Hd alias dest. unfold handle_alias. rewrite Ha, Hd. cbv zeta. fold alias dest.
  assert (Hv : (if mail_addr_parse alias then if mail_addr_parse dest then true else false else false)
               = valid_addr alias && valid_addr dest).
  { unfold valid_addr. by destruct (mail_addr_parse alias), (mail_addr_parse dest). }
  rewrite Hv. clear Hv. destruct (negb rm && _) eqn:Hval; [apply err_refused; [lia|plain_lit]|].
  destruct (config_alias_read_only _ _); [apply err_refused; [lia|plain_lit]|].
  pose proof (alias_add_rm_refines s alias dest Hwf) as [Hf _].
  destruct (split_addr alias) as [[loc dom]|] eqn:Hsp.
  2:{ destruct Hf as [Hf1 Hf2]. destruct rm; [rewrite Hf2|rewrite Hf1];
        (change (VISAGE_EPARAM =? VISAGE_OK) with false; cbn [negb]; unfold store_error; apply err_refused; [lia|plain_lit]). }
  destruct Hf as [Hf1 Hf2]. destruct (alias_ops_ok s alias dest loc dom Hsp) as [Ho1 Ho2].
  pose proof (run_op_wf s (if rm then OAliasRm alias dest else OAliasAdd alias dest) Hwf ltac:(by destruct rm)) as Hwf'.
  destruct rm; cbn [run_op negb andb] in *.
  - specialize (Hf2 Ho2). destruct (store_alias_rm s alias dest) as [s' rc]. cbn [fst snd] in *. subst rc.
    change (VISAGE_OK =? VISAGE_OK) with true. cbn [negb]. rewrite respond_small; [|lia|plain_lit..].
    split; [done|]. split; [done|done].
  - assert (Hne : is_nil dest = false).
    { apply negb_false_iff, andb_true_iff in Hval as [_ Hval]. by destruct dest. }
    specialize (Ho1 Hne). specialize (Hf1 Ho1).
    destruct (store_alias_add s alias dest) as [s' rc]. cbn [fst snd] in *. subst rc.
    change (VISAGE_OK =? VISAGE_OK) with true. cbn [negb]. rewrite respond_small; [|lia|plain_lit..].
    split; [done|]. split; [done|done].
Qed.

(** Adding and removing aliases over HTTP. For an authenticated POST or DELETE of
    /alias with both fields, the answer and the alias table are exactly: 400
    for an addition with an address the mail path would not accept, 403 for an alias
    that the configuration declares, 500 for an address without local part or
    domain, all without any change; otherwise 200, and the table is the old one
    with, or without, that alias and destination, so that the alias resolves to
    the destination after an addition and not after a removal. *)
Theorem admin_alias_exact (s : Store) (req : bytes) (he : nat) (rm : bool) (a0 d0 : bytes)
  (Hwf : store_wf (db s))
  (Hreq : request req he (if rm then bs "DELETE" else bs "POST") (bs "/alias"))
  (Hauth : auth_ok req he (ad_token cfg) = true)
  (Ha : json_obj_get_str (c_str (drop he req)) (bs "alias") 512 = Some a0)
  (Hd : json_obj_get_str (c_str (drop he req)) (bs "destination") 512 = Some d0) :
  let alias := c_str a0 in
  let dest := c_str d0 in
  let out := admin_build_response html js css access cfg s req (Some he) in
  if negb rm && negb (valid_addr alias && valid_addr dest) then refused 400 s out
  else if config_alias_read_only (aliases cfg) alias then refused 403 s out
  else match split_addr alias with
       | None => refused 500 s out
       | Some (loc, dom) =>
           out.2 = Some (json_response 200 (bs "OK") ok_body) /\
           (forall a b c, alias_fact (db out.1) a b c <->
              if rm then alias_fact (db s) a b c /\ (a, b, c) <> (dom, loc, dest)
              else alias_fact (db s) a b c \/ (a, b, c) = (dom, loc, dest)) /\
           (dest ∈ (store_resolve out.1 alias).2 <-> rm = false)
       end.
Proof.
  intros alias dest. cbv zeta.
  rewrite (build_private html js css access cfg s req he _ _ Hreq) by (by destruct rm).
  assert (Hdisp : admin_dispatch access cfg s ar_init (if rm then bs "DELETE" else bs "POST") (bs "/alias") req he
                  = handle_alias cfg s ar_init rm req he) by (by destruct rm).
  rewrite Hdisp. pose proof (handle_alias_exact s req he rm a0 d0 Hwf Ha Hd) as H. cbv zeta in H. fold alias dest in H.
  destruct (handle_alias cfg s ar_init rm req he) as [s' r].
  destruct (negb rm && _); [done|]. destruct (config_alias_read_only _ _); [done|].
  destruct (split_addr alias) as [[loc dom]|] eqn:Hsp; [|done]. destruct H as (Hr & Hf & Hwf').
  split; [done|]. split; [done|]. cbn [fst].
  pose proof (resolve_spec s' alias loc dom Hwf' Hsp) as Hres.
  destruct (store_resolve s' alias) as [[s2 rc] ds]. destruct Hres as (_ & H1 & H2). cbn [snd].
  destruct (Z.eq_dec rc VISAGE_OK) as [Hrc|Hrc]; [|by destruct (H2 Hrc)].
  destruct (H1 Hrc) as [_ ->]. rewrite Hf. destruct rm; naive_solver.
Qed.

End Aliases.

(** ** The replay route *)

Section Replay.
Context {E : DlEngine} {HL : DlLaws E} {Hh : DlHealthy E}.
Context (html js css : bytes) (access : bytes -> bool) (cfg : AdminConfig).

Definition terminal (st : bytes) : bool := beq st (bs "delivered") || beq st (bs "permfail").

Definition terminal_row (d : dl_db) (x : row) : bool :=
  match dl_intern_str_of d (col x 6) with Some st => terminal st | None => false end.

(** The body of delivery [k] of message [m] is retained. *)
Definition has_body (m k : Z) : bool :=
  match spool_path cfg m k with Some p => access p | None => false end.

(** At most one row per delivery, as after recovery. *)
Definition one_row (d : dl_db) : Prop := forall m k x y, qrow d m k x -> qrow d m k y -> x = y.

Lemma one_few d m k : one_row d -> few_rows d m k.
Proof.
  intros Ho. destruct (dl_rows d RQueue [m; k]).1 as [|x l] eqn:El.
  - exists []. split; [simpl; lia|]. intros x [Hx Hp].
    assert (x ∈ (dl_rows d RQueue [m; k]).1) as Hin by (apply rows_exact; [apply rows_healthy|done]).
    rewrite El in Hin. by apply elem_of_nil in Hin.
  - exists [x]. split; [simpl; unfold QUEUE_SET_MAX_ROWS; lia|]. intros y Hy.
    assert (qrow d m k x) as Hx.
    { apply (rows_exact d RQueue [m; k]); [apply rows_healthy|]. rewrite El. by left. }
    rewrite (Ho m k x y Hx Hy). by left.
Qed.

Lemma replay_walk (d : dl_db) rows : forall n c,
  (forall x, x ∈ rows -> is_Some (dl_intern_str_of d (col x 2)) /\ is_Some (dl_intern_str_of d (col x 3)) /\
                         is_Some (dl_intern_str_of d (col x 6))) ->
  walk (queue_msgid_cb d replay_collect_cb) rows n (c, false)
  = (n + Z.of_nat (length rows), (c ++ map (fun x => col x 1) (List.filter (terminal_row d) rows), false)).
Proof.
  induction rows as [|x rows IH]; intros n c Hs; cbn [walk].
  { rewrite app_nil_r. f_equal. simpl. lia. }
  destruct (Hs x ltac:(by left)) as ([f Hf] & [t Ht] & [st Hst]).
  unfold queue_msgid_cb at 1. rewrite Hf, Ht, Hst. unfold replay_collect_cb at 1. cbn [fst snd List.filter].
  unfold terminal_row at 1. rewrite Hst. unfold terminal. rewrite <- negb_orb.
  assert (Hs' : forall y, y ∈ rows -> is_Some (dl_intern_str_of d (col y 2)) /\ is_Some (dl_intern_str_of d (col y 3)) /\
                         is_Some (dl_intern_str_of d (col y 6))) by (intros y Hy; apply Hs; by right).
  destruct (_ || _); cbn [negb]; rewrite IH by done; f_equal; try (simpl length; lia).
  cbn [map]. by rewrite <- app_assoc.
Qed.

(** The part of the loop behind its tests. *)
Fixpoint requeue_all (s : Store) (m : Z) (ks : list Z) (n : Z) : Store * Z :=
  match ks with
  | [] => (s, n)
  | k :: ks' =>
      let '(s, rc) := store_queue_set_status s m k (bs "queued") 0 0 in
      requeue_all s m ks' (if rc =? VISAGE_OK then n + 1 else n)
  end.

Lemma replay_items_requeue s m ks n :
  replay_items access cfg s m ks n = requeue_all s m (List.filter (has_body m) ks) n.
Proof.
  revert s n. induction ks as [|k ks IH]; intros s n; [done|]. cbn [replay_items List.filter].
  destruct (has_body m k) eqn:Hb; unfold has_body in Hb.
  - destruct (spool_path cfg m k) as [p|]; [|done]. rewrite Hb. cbn [negb requeue_all].
    destruct (store_queue_set_status s m k (bs "queued") 0 0) as [s1 rc]. apply IH.
  - destruct (spool_path cfg m k) as [p|]; [rewrite Hb; cbn [negb]|]; apply IH.
Qed.

Lemma requeue_all_spec m ks : forall s n, (forall k, few_rows (db s) m k) -> store_wf (db s) -> NoDup ks ->
  (forall k, k ∈ ks -> exists x, qrow (db s) m k x) -> is_u32 m -> (forall k, k ∈ ks -> is_u32 k) ->
  let '(s', n') := requeue_all s m ks n in
  n' = n + Z.of_nat (length ks) /\ store_wf (db s') /\ (cache_ok s -> cache_ok s') /\
  (forall i t, dl_intern_str_of (db s) i = Some t -> dl_intern_str_of (db s') i = Some t) /\
  (forall r x, (r = RQueue -> forall k, k ∈ ks -> take 2 x <> [m; k]) -> dl_has (db s') r x <-> dl_has (db s) r x) /\
  (forall k, k ∈ ks -> exists x0 i, qrow (db s) m k x0 /\ dl_intern_str_of (db s') i = Some (bs "queued") /\
       forall x, qrow (db s') m k x <-> x = [m; k; col x0 2; col x0 3; 0; 0; i]).
Proof.
  induction ks as [|k ks IH]; intros s n Hfew Hwf Hnd Hrow Hm Hk; cbn [requeue_all].
  { split; [simpl; lia|]. do 4 (split; [done|]). by intros k Hk'%elem_of_nil. }
  apply NoDup_cons in Hnd as [Hni Hnd].
  pose proof (set_status_spec s m k 0 0 (bs "queued") eq_refl (Hfew k)) as Hset.
  assert (Hu0 : is_u32 0) by (unfold is_u32, UINT32_MAX; lia).
  pose proof (set_status_wf s m k (bs "queued") 0 0 Hm (Hk k ltac:(by left)) Hu0 Hu0 Hwf) as Hwf1.
  pose proof (set_status_cache s m k (bs "queued") 0 0) as Hca.
  destruct (store_queue_set_status s m k (bs "queued") 0 0) as [s1 rc]. cbn [fst] in *.
  destruct Hset as (Hstr & _ & Hset). destruct (Hset (Hrow k ltac:(by left))) as (-> & (x0 & i & Hx0 & Hi & Hx1) & Hoth).
  change (VISAGE_OK =? VISAGE_OK) with true. cbv iota.
  assert (Hkeep : forall k' x, k' <> k -> qrow (db s1) m k' x <-> qrow (db s) m k' x).
  { intros k' x Hne. unfold qrow. split; intros [Hx Ht]; (split; [|done]); apply Hoth; try done; intros _; rewrite Ht; congruence. }
  assert (Hfew1 : forall k', few_rows (db s1) m k').
  { intros k'. destruct (decide (k' = k)) as [->|Hne].
    - eexists [_]. split; [simpl; unfold QUEUE_SET_MAX_ROWS; lia|]. intros x Hx. apply Hx1 in Hx. subst x. by left.
    - destruct (Hfew k') as (l & Hl & Hsub). exists l. split; [done|]. intros x Hx. by apply Hsub, Hkeep. }
  assert (Hrow1 : forall k', k' ∈ ks -> exists x, qrow (db s1) m k' x).
  { intros k' Hk'. destruct (Hrow k' ltac:(by right)) as [x Hx]. exists x. apply Hkeep; [|done]. by intros ->. }
  specialize (IH s1 (n + 1) Hfew1 Hwf1 Hnd Hrow1 Hm ltac:(intros; apply Hk; by right)).
  destruct (requeue_all s1 m ks (n + 1)) as [s' n']. destruct IH as (I1 & I2 & I3 & I4 & I5 & I6).
  split; [rewrite I1; cbn [length]; lia|]. split; [done|]. split; [auto|]. split; [auto|]. split.
  - intros r x Hx. rewrite I5.
    + apply Hoth. intros Hr. apply Hx; [done|by left].
    + intros Hr k' Hk'. apply Hx; [done|by right].
  - intros k' [->|Hk']%elem_of_cons.
    + exists x0, i. split; [done|]. split; [auto|]. intros x. rewrite <- Hx1. unfold qrow.
      split; intros [Hx Ht]; (split; [|done]); apply I5; try done; intros _ k' Hk'; rewrite Ht; intros [= ->]; done.
    + destruct (I6 k' Hk') as (y & j & Hy & Hj & Hall). exists y, j. split; [|done].
      apply Hkeep; [|done]. by intros ->.
Qed.

(** The slots [handle_replay] requeues. *)
Definition replay_slots (d : dl_db) (m : Z) : list Z :=
  List.filter (has_body m) (map (fun x => col x 1) (List.filter (terminal_row d) (dl_rows d RQueue [m]).1)).

Definition replay_body (n : Z) : bytes :=
  bs "{" ++ DQUOTE :: bs "ok" ++ DQUOTE :: bs ":true," ++ DQUOTE :: bs "replayed" ++ DQUOTE ::
  bs ":" ++ print_u32 n ++ bs "}".

Lemma nodup_filter {A} (f : A -> bool) (l : list A) : NoDup l -> NoDup (List.filter f l).
Proof.
  induction 1 as [|x l Hx _ IH]; cbn [List.filter]; [constructor|]. destruct (f x); [|done].
  constructor; [|done]. rewrite filter_In. by intros [Hin _].
Qed.

Lemma replay_slots_spec s m : store_wf (db s) -> one_row (db s) ->
  NoDup (replay_slots (db s) m) /\
  forall k, k ∈ replay_slots (db s) m <->
    has_body m k = true /\ exists x, qrow (db s) m k x /\ terminal_row (db s) x = true.
Proof.
  intros Hwf Hone. pose proof (rows_exact (db s) RQueue [m] (rows_healthy _ _ _)) as Hex.
  pose proof (rows_nodup (db s) RQueue [m]) as Hnd. unfold replay_slots.
  set (rows := (dl_rows (db s) RQueue [m]).1) in *.
  assert (Hq : forall x, x ∈ rows <-> qrow (db s) m (col x 1) x).
  { intros x. rewrite Hex. unfold qrow. split; intros [Hx Ht]; (split; [done|]);
      destruct (queue_row_cols _ x (Hwf _ _ Hx)) as (a & b & c & d & e & f & g & -> & _); cbn in Ht |- *; congruence. }
  split.
  - apply nodup_filter. change (NoDup ((fun x => col x 1) <$> List.filter (terminal_row (db s)) rows)).
    apply NoDup_fmap_2_strong; [|by apply nodup_filter]. intros x y Hx Hy Hc.
    apply filter_In in Hx as [Hx%Hq _], Hy as [Hy%Hq _]. rewrite <- Hc in Hy. by apply (Hone m (col x 1)).
  - intros k. rewrite filter_In, list_elem_of_In, List.in_map_iff. setoid_rewrite <- list_elem_of_In. split.
    + intros [(x & <- & [Hx%Hq Ht]%filter_In) Hb]. eauto.
    + intros (Hb & x & Hx & Ht). split; [|done].
      assert (Hc : col x 1 = k).
      { destruct Hx as [Hx Hp]. destruct (queue_row_cols _ x (Hwf _ _ Hx)) as (a & b & c & d & e & f & g & -> & _). cbn in Hp |- *. congruence. }
      exists x. split; [done|]. apply filter_In. split; [|done]. apply Hq. by rewrite Hc.
Qed.

Lemma handle_replay_eq s req he m : store_wf (db s) ->
  json_obj_get_u32 (c_str (drop he req)) (bs "msgid") = Some m ->
  handle_replay access cfg s ar_init req he
  = let '(s', n) := requeue_all s m (replay_slots (db s) m) 0 in
    (s', ar_respond ar_init 200 (bs "OK") (bs "application/json") (replay_body n)).
Proof.
  intros Hwf Hj. unfold handle_replay. rewrite Hj. unfold store_queue_walk_msgid, dl_prefix.
  pose proof (rows_healthy (db s) RQueue [m]) as Hok. pose proof (rows_has (db s) RQueue [m]) as Hhas. unfold replay_slots.
  destruct (dl_rows (db s) RQueue [m]) as [rows ok]. cbn [fst snd] in *. subst ok.
  rewrite replay_walk.
  2:{ intros x Hx. destruct (queue_row_cols _ x (Hwf _ _ (Hhas x eq_refl Hx))) as (a & b & c & d & e & f & g & -> & _ & _ & Hc & Hd & _ & _ & Hg). done. }
  cbn [app]. destruct (Z.ltb_spec (0 + Z.of_nat (length rows)) 0); [lia|]. cbn [orb].
  change (negb (VISAGE_OK =? VISAGE_OK)) with false. cbv iota. rewrite replay_items_requeue.
  destruct (requeue_all _ _ _ _) as [s' n].
  destruct (Nat.leb_spec 128 (length (bs "{" ++ DQUOTE :: bs "ok" ++ DQUOTE :: bs ":true," ++ DQUOTE :: bs "replayed" ++
    DQUOTE :: bs ":" ++ print_u32 n ++ bs "}"))) as [Hl|_]; [|done].
  exfalso. pose proof (dec_digits_len 10 n []) as Hd. unfold print_u32 in Hl. revert Hl.
  do 6 (rewrite ?length_app; cbn [length app]). bs_len. cbn [length] in Hd. lia.
Qed.

(** Replaying a message. An authenticated POST of /replay for a message requeues
    exactly its delivered or failed deliveries whose body is retained, answers
    200 with their number, and leaves every other row of every table: each one
    becomes a single queued row with its old sender and recipient, no attempts
    and due at once, so that the next due time is now; deliveries that are
    queued or under way are not touched. *)
Theorem admin_replay_exact (s : Store) (req : bytes) (he : nat) (m : Z)
  (Hwf : store_wf (db s)) (Hone : one_row (db s)) (Hm : is_u32 m)
  (Hreq : request req he (bs "POST") (bs "/replay"))
  (Hauth : auth_ok req he (ad_token cfg) = true)
  (Hj : json_obj_get_u32 (c_str (drop he req)) (bs "msgid") = Some m) :
  let out := admin_build_response html js css access cfg s req (Some he) in
  exists ks, NoDup ks /\
    (forall k, k ∈ ks <-> has_body m k = true /\ exists x, qrow (db s) m k x /\ terminal_row (db s) x = true) /\
    out.2 = Some (json_response 200 (bs "OK") (replay_body (Z.of_nat (length ks)))) /\
    (forall k x, k ∈ ks -> qrow (db s) m k x ->
       exists i, dl_intern_str_of (db out.1) i = Some QUEUE_STATUS_QUEUED /\
         forall y, qrow (db out.1) m k y <-> y = [m; k; col x 2; col x 3; 0; 0; i]) /\
    (forall r y, (r = RQueue -> forall k, k ∈ ks -> take 2 y <> [m; k]) ->
       dl_has (db out.1) r y <-> dl_has (db s) r y) /\
    (ks <> [] -> cache_ok s -> (store_queue_next_due out.1).2 = 0).
Proof.
  cbv zeta. rewrite (build_private html js css access cfg s req he _ _ Hreq eq_refl Hauth).
  change (admin_dispatch access cfg s ar_init (bs "POST") (bs "/replay") req he)
    with (handle_replay access cfg s ar_init req he).
  rewrite (handle_replay_eq s req he m Hwf Hj). destruct (replay_slots_spec s m Hwf Hone) as [Hnd Hks].
  set (ks := replay_slots (db s) m) in *.
  assert (Hrow : forall k, k ∈ ks -> exists x, qrow (db s) m k x) by (intros k (_ & x & Hx & _)%Hks; eauto).
  assert (Hku : forall k, k ∈ ks -> is_u32 k).
  { intros k Hk. destruct (Hrow k Hk) as (x & Hx & Hp).
    destruct (queue_row_cols _ x (Hwf _ _ Hx)) as (a & b & c & d & e & f & g & -> & _ & Hb & _). cbn in Hp. congruence. }
  pose proof (requeue_all_spec m ks s 0 (fun k => one_few (db s) m k Hone) Hwf Hnd Hrow Hm Hku) as H.
  destruct (requeue_all s m ks 0) as [s' n]. destruct H as (-> & Hwf' & Hca & Hstr & Hoth & Hnew). cbn [fst snd].
  exists ks. split; [done|]. split; [done|]. split; [by rewrite respond_small; [|lia|plain_lit..]|]. split; [|split; [done|]].
  - intros k x Hk Hx. destruct (Hnew k Hk) as (x0 & i & Hx0 & Hi & Hall). rewrite (Hone m k x x0 Hx Hx0). eauto.
  - intros Hne Hc. destruct ks as [|k ks']; [done|].
    pose proof (next_due_spec s' Hwf' (Hca Hc)) as Hd. destruct (store_queue_next_due s') as [s2 t].
    destruct Hd as (_ & (Hmin & _ & Hex) & _). cbn [snd].
    destruct (Hnew k ltac:(by left)) as (x0 & i & _ & Hi & Hall). destruct (proj2 (Hall _) eq_refl) as [Hy _].
    assert (Hle : t <= 0) by (by apply (Hmin _ (conj Hy Hi))).
    destruct Hex as [->|(x & [Hx _] & <-)]; [unfold UINT32_MAX in Hle; lia|].
    destruct (queue_row_cols _ x (Hwf' _ _ Hx)) as (a & b & c & d & e & f & g & -> & _ & _ & _ & _ & _ & [Hf _] & _).
    cbn in *. lia.
Qed.

End Replay.

(** ** On concrete requests *)

Definition mem_admin : AdminConfig := {|
  ad_cfg := mem_cfg; ad_listen_address := None; ad_http_address := None; ad_http_port := 8080;
  ad_token := Some (bs "tok") |}.

(** A request with this request line and body that presents the token. *)
Definition mem_head (line : bytes) : bytes :=
  line ++ CRLF ++ bs "Authorization: Bearer tok" ++ CRLF ++ CRLF.

Definition jquoted (s : bytes) : bytes := DQUOTE :: s ++ [DQUOTE].

Definition alias_body (a d : bytes) : bytes :=
  bs "{" ++ jquoted (bs "alias") ++ bs ":" ++ jquoted a ++ bs "," ++ jquoted (bs "destination") ++ bs ":" ++ jquoted d ++ bs "}".

Definition post_alias (a d : bytes) : bytes := mem_head (bs "POST /alias HTTP/1.0") ++ alias_body a d.
Definition post_alias_head : nat := length (mem_head (bs "POST /alias HTTP/1.0")).

Lemma admin_auth_gate_witness :
  exists resp, forall s : @Store MemEngine,
    admin_build_response [] [] [] (fun _ => true) mem_admin s (bs "GET /aliases" ++ CRLF ++ CRLF) (Some 16%nat) = (s, resp).
Proof.
  apply (proj1 (admin_auth_gate (E := MemEngine) [] [] [] (fun _ => true) mem_admin (bs "GET /aliases" ++ CRLF ++ CRLF) 16
    ltac:(intros t Ht; vm_compute in Ht; injection Ht as <-; set_solver))).
  intros (t & _ & _ & auth & b1 & w & b2 & Hv & _). vm_compute in Hv. discriminate.
Defined.

Lemma admin_alias_exact_witness :
  let out := admin_build_response [] [] [] (fun _ => true) mem_admin mem1 (post_alias (bs "new@x.org") (bs "a@b")) (Some post_alias_head) in
  bs "a@b" ∈ (store_resolve out.1 (bs "new@x.org")).2.
Proof.
  pose proof (admin_alias_exact (E := MemEngine) [] [] [] (fun _ => true) mem_admin mem1
    (post_alias (bs "new@x.org") (bs "a@b")) post_alias_head false (bs "new@x.org") (bs "a@b") mem1_wf) as H.
  apply H; try reflexivity.
  split; [vm_compute; lia|]. exists (bs "POST"), (bs "/alias"). split; [|split]; reflexivity.
Defined.

(** [mem_q] with its second delivery done. *)
Definition mem_done : @Store MemEngine := run_op mem_q (OQueueSetStatus 7 1 (bs "delivered") 1 0).

Lemma mem_done_rows : mem_rows (db mem_done) RQueue = [[7; 1; 1; 4; 1; 0; 6]; [7; 0; 1; 2; 0; 0; 3]].
Proof. reflexivity. Qed.

Lemma mem_done_wf : store_wf (db mem_done).
Proof. apply run_op_wf; [apply mem_q_wf|repeat split; unfold is_u32, UINT32_MAX; lia]. Qed.

Lemma mem_done_one : one_row (db mem_done).
Proof.
  assert (Hr : forall m k x, qrow (db mem_done) m k x ->
    x ∈ [[7; 1; 1; 4; 1; 0; 6]; [7; 0; 1; 2; 0; 0; 3]] /\ take 2 x = [m; k]).
  { intros m k x [Hx Ht]. change (x ∈ mem_rows (db mem_done) RQueue) in Hx. by rewrite mem_done_rows in Hx. }
  intros m k x y [Hx Tx]%Hr [Hy Ty]%Hr. set_unfold in Hx. set_unfold in Hy.
  destruct Hx as [->|[->|[]]], Hy as [->|[->|[]]]; (done || (exfalso; cbn in Tx, Ty; congruence)).
Qed.

Definition post_replay : bytes := mem_head (bs "POST /replay HTTP/1.0") ++ bs "{" ++ jquoted (bs "msgid") ++ bs ":7}".
Definition post_replay_head : nat := length (mem_head (bs "POST /replay HTTP/1.0")).

Lemma admin_replay_exact_witness :
  let out := admin_build_response [] [] [] (fun _ => true) mem_admin mem_done post_replay (Some post_replay_head) in
  exists i, dl_intern_str_of (db out.1) i = Some QUEUE_STATUS_QUEUED /\
    forall y, qrow (db out.1) 7 1 y <-> y = [7; 1; 1; 4; 0; 0; i].
Proof.
  cbv zeta. destruct (admin_replay_exact (E := MemEngine) [] [] [] (fun _ => true) mem_admin mem_done post_replay post_replay_head 7
    mem_done_wf mem_done_one ltac:(unfold is_u32, UINT32_MAX; lia)
    ltac:(split; [vm_compute; lia|]; exists (bs "POST"), (bs "/replay"); split; [|split]; reflexivity) eq_refl eq_refl)
    as (ks & _ & Hks & _ & Hnew & _).
  assert (Hx : qrow (db mem_done) 7 1 [7; 1; 1; 4; 1; 0; 6]) by (split; [vm_compute; left|done]).
  apply (Hnew 1 _ (proj2 (Hks 1) (conj eq_refl (ex_intro _ _ (conj Hx eq_refl)))) Hx).
Defined.

(** The shape test accepts an address in angle brackets, but the store keeps the
    brackets: the addition is answered with 200 and the alias never resolves. *)
Lemma bracketed_alias_never_resolves :
  let out := admin_build_response [] [] [] (fun _ => true) mem_admin mem1 (post_alias (bs "<new@x.org>") (bs "a@b"))
               (Some post_alias_head) in
  out.2 = Some (json_response 200 (bs "OK") ok_body) /\ (store_resolve out.1 (bs "new@x.org")).2 = [].
Proof. split; reflexivity. Qed.
