(* ===== verification/HttpSpec.v ===== *)
(** * The admin HTTP connections: theorems

    What the callbacks keep of the shared world, the link between the connections
    and the slots of the event loop, and the independence of a request from the
    pieces it arrives in. *)

From S2P Require Import Prelude MailAddr DlEngine Store StoreSpec StoreTables StoreQueue Reply Json Config HttpParse SmtpParse SmtpWorld MemHost SmtpQueue SmtpQueueSpec SmtpDurable SmtpSession SmtpSessionSpec SmtpServer SmtpLoop Admin AdminSpec Http.

Section Keeps.
Context {E : DlEngine} {L : DlLaws E} {H : Host} {HL : HostLaws H}.
Variables (html js css : bytes) (sys_access : host -> bytes -> bool) (cfg : AdminConfig).
Implicit Types (s : Store) (c : HttpConn).

(** The facts an admin request may write. *)
Definition admin_writes (r : Rel) (x : row) : Prop := r = RAlias \/ r = RQueue.

(** What a store operation of the API keeps. *)
Definition store_keeps s s' : Prop :=
  store_wf (db s) ->
  store_wf (db s') /\ same_outside admin_writes (db s) (db s') /\
  (forall m k f t, envelope (db s) m k f t -> envelope (db s') m k f t) /\ (cache_ok s -> cache_ok s').

#[local] Instance store_keeps_preorder : PreOrder store_keeps.
Proof.
  split; [intros s; split; [done|split; [reflexivity|done]]|].
  intros s1 s2 s3 H1 H2 Hwf. destruct (H1 Hwf) as (A1 & A2 & A3 & A4). destruct (H2 A1) as (B1 & B2 & B3 & B4).
  split; [done|]. split; [by etrans|]. split; auto.
Qed.

Lemma keeps_refl s : store_keeps s s.
Proof. reflexivity. Qed.

Lemma intern_keeps s x : store_keeps s (intern s x).1.
Proof.
  pose proof (intern_ext s x) as He. intros Hwf. split; [by apply (ext_wf (db s))|].
  split; [by apply ext_same_outside|].
  split; [intros m k f t; apply (envelope_same (fun _ _ => False)); [by apply ext_same_outside|auto]|].
  apply quiet_cache; [apply intern_quiet|done].
Qed.

(** An operation that writes at most the alias table. *)
Lemma alias_op_keeps s (o : store_op) : op_u32 o -> writes_queue o = false ->
  same_outside (in_rel RAlias) (db s) (db (run_op s o)) -> store_keeps s (run_op s o).
Proof.
  intros Hu Hq Hs Hwf. split; [by apply run_op_wf|].
  split; [by apply (same_outside_mono (in_rel RAlias)); [by left|]|].
  split; [intros m k f t; by apply (envelope_same (in_rel RAlias))|].
  apply quiet_cache; [by apply run_op_quiet|done].
Qed.

Lemma alias_add_keeps s a d : store_keeps s (store_alias_add s a d).1.
Proof.
  apply (alias_op_keeps s (OAliasAdd a d)); [done..|]. cbn [run_op].
  unfold store_alias_add, alias_add_impl. destruct (_ || _); [done|]. destruct (split_addr a) as [[l dm]|]; [|done].
  do 3 step_intern. ext_chain. assert (X : ext (db s) (db s2)) by done.
  pose proof (ext_same_outside (in_rel RAlias) _ _ X) as Hx. destruct (_ || _); [done|].
  pose proof (add_same_outside (in_rel RAlias) s2 RAlias [i; i0; i1] eq_refl) as Ha.
  destruct (add_fact s2 _ _) as [s3 rc]. destruct (rc <? 0); by etrans.
Qed.

Lemma alias_rm_keeps s a d : store_keeps s (store_alias_rm s a d).1.
Proof.
  apply (alias_op_keeps s (OAliasRm a d)); [done..|]. cbn [run_op].
  unfold store_alias_rm. destruct (split_addr a) as [[l dm]|]; [|done].
  do 3 step_intern. ext_chain. assert (X : ext (db s) (db s2)) by done.
  pose proof (ext_same_outside (in_rel RAlias) _ _ X) as Hx. destruct (_ || _); [done|].
  pose proof (delete_same_outside (in_rel RAlias) (fun _ => true) s2 RAlias [[i; i0; i1]] ltac:(done)) as Ha.
  cbn [delete_if foldl] in Ha. destruct (delete_fact s2 _ _) as [s3 rc]. destruct (rc <? 0); by etrans.
Qed.

Lemma counts_keeps l : forall s, store_keeps s (queue_counts s l).1.
Proof.
  induction l as [|st l IH]; intros s; cbn [queue_counts]; [reflexivity|].
  assert (Hc : store_keeps s (store_queue_count_by_status s st).1).
  { unfold store_queue_count_by_status. destruct (is_nil st); [reflexivity|].
    pose proof (intern_keeps s st) as Hi. destruct (intern s st) as [s1 id]. destruct (id =? 0); [done|].
    by destruct (dl_prefix _ _ _ _ _) as [n c]. }
  destruct (store_queue_count_by_status s st) as [s1 q]. destruct (q <? 0); [done|].
  specialize (IH s1). destruct (queue_counts s1 l) as [s2 r]. by etrans.
Qed.

Lemma set_status_keeps s m k : is_u32 m -> is_u32 k -> store_keeps s (store_queue_set_status s m k (bs "queued") 0 0).1.
Proof.
  intros Hm Hk Hwf. assert (Hu0 : is_u32 0) by (unfold is_u32, UINT32_MAX; lia).
  destruct (set_status_same s m k (bs "queued") 0 0) as [Hs He].
  split; [by apply set_status_wf|]. split; [apply (same_outside_mono (in_delivery m k)); [intros r x [-> _]; by right|done]|].
  split; [|apply set_status_cache].
  intros m' k' f t Henv. destruct (decide ((m', k') = (m, k))) as [[= -> ->]|Hne]; [by apply He|].
  apply (envelope_same (in_delivery m k) (db s)); [done| |done]. intros x Hx [_ Hx']. apply Hne. congruence.
Qed.

Lemma replay_keeps access m ks : is_u32 m -> forall s n, Forall is_u32 ks -> store_keeps s (replay_items access cfg s m ks n).1.
Proof.
  intros Hm. induction ks as [|k ks IH]; intros s n Hks; cbn [replay_items]; [reflexivity|].
  inversion_clear Hks as [|? ? Hk Hks']. destruct (spool_path cfg m k) as [p|]; [|by apply IH].
  destruct (negb (access p)); [by apply IH|]. pose proof (set_status_keeps s m k Hm Hk) as Hs.
  destruct (store_queue_set_status _ _ _ _ _ _) as [s1 rc]. etrans; [exact Hs|by apply IH].
Qed.
Lemma u32_loop_range q v r : 0 <= v <= UINT32_MAX -> u32_loop q v = Some r -> is_u32 r.
Proof.
  revert v. induction q as [|c q IH]; intros v Hv; cbn [u32_loop]; [intros Hr; injection Hr as <-; done|].
  destruct (Prelude.is_digit c) eqn:Hc; [|intros Hr; injection Hr as <-; done]. unfold Prelude.is_digit in Hc.
  destruct (Z.gtb_spec v ((UINT32_MAX - (c - "0"%chr)) / 10)) as [|Hle]; [done|]. apply IH.
  assert (10 * v <= UINT32_MAX - (c - "0"%chr)); [|lia].
  transitivity (10 * ((UINT32_MAX - (c - "0"%chr)) / 10)); [lia|]. apply Z.mul_div_le. lia.
Qed.

Lemma key_loop_found {A} (P : A -> Prop) fuel p key (found : bytes -> option A) r :
  (forall q x, found q = Some x -> P x) -> key_loop fuel p key found = Some r -> P r.
Proof.
  intros Hf. revert p. induction fuel as [|fuel IH]; intros p; cbn [key_loop]; [done|].
  destruct p as [|c p]; [done|]. destruct (cut DQUOTE (c :: p)) as [[? ks]|]; [|done].
  destruct (cut DQUOTE ks) as [[k rest]|]; [|done]. destruct (beq k key); [apply Hf|apply IH].
Qed.

Lemma get_u32_range json key v : json_obj_get_u32 json key = Some v -> is_u32 v.
Proof.
  apply key_loop_found. intros q x. unfold u32_value. destruct (drop_while _ _) as [|c q']; [done|].
  destruct (c =? _); [|done]. destruct (drop_while _ _) as [|c' q2]; [done|]. destruct (Prelude.is_digit c'); [|done].
  apply u32_loop_range. unfold UINT32_MAX. lia.
Qed.

(** The slots collected from well-typed rows. *)
Lemma collect_u32 d rows : store_wf d -> (forall x, x ∈ rows -> dl_has d RQueue x) -> forall n acc r,
  Forall is_u32 acc.1 -> walk (queue_msgid_cb d replay_collect_cb) rows n acc = r -> Forall is_u32 r.2.1.
Proof.
  intros Hwf. induction rows as [|x rows IH]; intros Hin n acc r Hc; cbn [walk]; [by intros <-|].
  destruct (queue_row_cols _ x (Hwf _ _ (Hin x ltac:(by left)))) as (a & k & f & t & e & g & q & -> & _ & Hk & _).
  unfold queue_msgid_cb at 1.
  destruct (dl_intern_str_of d (col _ 2)); [|by intros <-]. destruct (dl_intern_str_of d (col _ 3)); [|by intros <-].
  destruct (dl_intern_str_of d (col _ 6)); [|by intros <-]. unfold replay_collect_cb at 1.
  assert (Hin' : forall x, x ∈ rows -> dl_has d RQueue x) by (intros; apply Hin; by right).
  destruct (_ && _); apply IH; try done. cbn [fst]. apply Forall_app. split; [done|]. by constructor.
Qed.

Lemma dispatch_keeps access s r m t req he : store_keeps s (admin_dispatch access cfg s r m t req he).1.
Proof.
  unfold admin_dispatch. destruct (_ && _); [reflexivity|]. destruct (_ && _).
  { unfold handle_status. destruct (_ <? 0); [reflexivity|]. pose proof (counts_keeps qstatus s) as Hc.
    by destruct (queue_counts s qstatus) as [s' [q|]]. }
  destruct (_ && _); [reflexivity|].
  assert (Ha : forall rm, store_keeps s (handle_alias cfg s r rm req he).1).
  { intros rm. unfold handle_alias. destruct (json_obj_get_str _ _ _) as [al|]; [|reflexivity].
    destruct (json_obj_get_str _ (bs "destination") _) as [de|]; [|reflexivity]. destruct (_ && _); [reflexivity|].
    destruct (config_alias_read_only _ _); [reflexivity|].
    pose proof (alias_add_keeps s (c_str al) (c_str de)) as H1. pose proof (alias_rm_keeps s (c_str al) (c_str de)) as H2.
    destruct rm; [destruct (store_alias_rm _ _ _) as [s' rc]|destruct (store_alias_add _ _ _) as [s' rc]];
      by destruct (negb _). }
  destruct (_ && _); [apply Ha|]. destruct (_ && _); [apply Ha|]. destruct (_ && _); [|by destruct (_ && _)].
  unfold handle_replay. destruct (json_obj_get_u32 _ _) as [m0|] eqn:Hj; [|reflexivity]. apply get_u32_range in Hj.
  intros Hwf. unfold store_queue_walk_msgid, dl_prefix. pose proof (rows_has (db s) RQueue [m0]) as Hhas.
  destruct (dl_rows (db s) RQueue [m0]) as [rows ok]. cbn [fst snd] in Hhas.
  destruct (walk _ rows 0 _) as [n [ks err]] eqn:Hw.
  destruct ok; [|by destruct err; apply keeps_refl].
  pose proof (collect_u32 (db s) rows Hwf (fun x => Hhas x eq_refl) _ ([], false) _ (List.Forall_nil _) Hw) as Hks.
  cbn [fst snd] in Hks. destruct (negb _); [by apply keeps_refl|].
  pose proof (replay_keeps access m0 ks Hj s 0 Hks) as Hr. destruct (replay_items access cfg s m0 ks 0) as [s' k].
  destruct (_ <=? _)%nat; by apply Hr.
Qed.

Lemma build_keeps access s req he : store_keeps s (admin_build_response html js css access cfg s req he).1.
Proof.
  unfold admin_build_response. destruct (parse_request_line _ _ _) as [[m t]|]; [|reflexivity]. cbv zeta.
  destruct he as [he|]; [|reflexivity]. destruct (_ <? _)%nat; [reflexivity|]. destruct (_ && _); [reflexivity|].
  destruct (serve_static _ _ _ _ _ _); [reflexivity|]. destruct (negb _); [reflexivity|].
  pose proof (dispatch_keeps access s ar_init (c_str m) (c_str t) req he) as Hd.
  by destruct (admin_dispatch _ _ _ _ _ _ _ _) as [s' r].
Qed.

(** What a callback keeps of the world: column types, every fact outside the
    alias and queue tables, committed deliveries and the cached due time. *)
Definition admin_step (w w' : World) : Prop :=
  store_wf (w_db w) ->
  step_ok cfg admin_writes w w' /\ (cache_ok (w_store w) -> cache_ok (w_store w')).

#[local] Instance admin_step_preorder : PreOrder admin_step.
Proof.
  split; [intros w; split; [reflexivity|done]|]. intros w1 w2 w3 H1 H2 Hwf.
  destruct (H1 Hwf) as [A B]. pose proof A as (A1 & _). destruct (H2 (A1 Hwf)) as [C D].
  split; [by etrans|auto].
Qed.

Lemma host_admin {A} (f : host -> host * A) : keeps_files f -> preserves admin_step (on_host f).
Proof.
  intros Hf w _. split; [by apply on_host_ok|]. destruct (on_host_step f Hf w) as (A1 & _). by rewrite A1.
Qed.

Lemma build_admin c : preserves admin_step (build html js css sys_access cfg c).
Proof.
  intros w Hwf. unfold build.
  pose proof (build_keeps (sys_access (w_host w)) (w_store w) (hc_recv c) (Some (hc_header_end c)) Hwf) as Hk.
  destruct (admin_build_response _ _ _ _ _ _ _ _) as [s r]. cbn [fst] in *.
  destruct Hk as (K1 & K2 & K3 & K4). split; [|done]. split; [done|]. split; [done|].
  split; [intros x Hx; apply K2; [intros [?|?]; done|done]|].
  intros m k f t b (B1 & B2 & B3 & p & B4 & B5). split; [done|]. split; [done|]. split; [by apply K3|]. by exists p.
Qed.

Lemma flush_admin c t : preserves admin_step (http_try_flush c t).
Proof.
  unfold http_try_flush. destruct (_ <=? _)%nat; [by apply preserves_ret, _|].
  apply preserves_bind; [exact _|apply host_admin, send_keeps|]. intros rs.
  destruct (flush_loop _ _ _); by apply preserves_ret, _.
Qed.

Lemma process_admin c t : preserves admin_step (http_process html js css sys_access cfg c t).
Proof.
  unfold http_process. destruct (http_parse_probe _ _) as [|he bl|].
  - destruct (_ <=? _); [apply flush_admin|by apply preserves_ret, _].
  - destruct (negb _); [apply flush_admin|]. unfold handle_request.
    apply preserves_bind; [exact _|apply build_admin|]. intros [resp|]; apply flush_admin.
  - apply flush_admin.
Qed.

Lemma readable_admin c t (Hrecv : forall fd, keeps_files (fun h => sys_recv h fd)) :
  preserves admin_step (http_conn_on_readable html js css sys_access cfg c t).
Proof.
  unfold http_conn_on_readable. destruct (hc_state c); [|by apply preserves_ret, _].
  destruct (_ <=? _); [apply flush_admin|]. cbv zeta.
  apply preserves_bind; [exact _|by apply host_admin|]. intros [[|x d]| | |];
    first [apply process_admin | by apply preserves_ret, _].
Qed.

(** Serving the API keeps the promises of the mail path. Whatever a client of the
    admin API sends and however its socket behaves, a callback keeps the column
    types of the store, changes no fact outside the alias and queue tables, loses
    no committed delivery (its queue row and its body stay), and keeps the cached
    due time right, so that the event loop wakes for replayed mail. *)
Theorem http_keeps_commitments (c : HttpConn) (t : http_table) (w : World)
  (Hrecv : forall fd, keeps_files (fun h => sys_recv h fd)) (Hwf : store_wf (w_db w)) (w' : World)
  (Hw' : w' ∈ [(http_conn_on_readable html js css sys_access cfg c t w).1; (http_conn_on_writable c t w).1;
               (http_conn_on_closed c t w).1]) :
  store_wf (w_db w') /\ same_outside admin_writes (w_db w) (w_db w') /\
  (forall m k f to b, committed cfg w m k f to b -> committed cfg w' m k f to b) /\
  (cache_ok (w_store w) -> cache_ok (w_store w')).
Proof.
  assert (Hs : admin_step w w').
  { set_unfold in Hw'. destruct Hw' as [->|[->|[->|[]]]].
    - by apply readable_admin.
    - unfold http_conn_on_writable. destruct (hc_state c); [reflexivity|apply flush_admin].
    - reflexivity. }
  destruct (Hs Hwf) as [(A1 & A2 & _ & A4) B]. auto.
Qed.

End Keeps.

(** ** Pieces *)

Section Pieces.
Context {E : DlEngine} {H : Host}.
Variables (html js css : bytes) (sys_access : host -> bytes -> bool) (cfg : AdminConfig).

(** The next reads of the socket return these pieces. *)
Inductive feeds (fd : Z) : host -> list bytes -> host -> Prop :=
  | feeds_nil h : feeds fd h [] h
  | feeds_cons h h1 h2 d ds :
      d <> [] -> (length d <= HTTP_RECV_CHUNK)%nat -> sys_recv h fd = (h1, RvData d) -> feeds fd h1 ds h2 ->
      feeds fd h (d :: ds) h2.

Definition set_host (w : World) (h : host) : World := MkWorld (w_store w) (w_marks w) h (w_sent w).

(** [n] times the readable callback, until the connection is freed. *)
Fixpoint readable_n (n : nat) (r : option HttpConn * http_table) : M (option HttpConn * http_table) :=
  match n, r.1 with
  | S n', Some c => r' ← http_conn_on_readable html js css sys_access cfg c r.2; readable_n n' r'
  | _, _ => mret r
  end.

(** A complete request: the probe accepts it and nothing is left over. *)
Definition complete_request (req : bytes) (he : nat) (bl : Z) : Prop :=
  http_parse_probe req HTTP_MAX_REQ = Done he bl /\ len req = Z.of_nat he + bl /\ len req <= HTTP_MAX_REQ.

(** A proper prefix of a complete request is not decided yet. *)
Lemma prefix_waits req he bl p q : complete_request req he bl -> req = p ++ q -> q <> [] ->
  http_parse_probe p HTTP_MAX_REQ = NeedMore.
Proof.
  intros (Hd & Hl & Hm) -> Hq.
  assert (Hlt : len p < len (p ++ q)) by (rewrite length_app; destruct q; [done|]; simpl; lia).
  pose proof (http_probe_mono p q HTTP_MAX_REQ ltac:(unfold HTTP_MAX_REQ; lia)) as Hp.
  destruct (http_parse_probe p HTTP_MAX_REQ) as [|he' bl'|]; [done|..].
  - destruct Hp as (Hp & Hle & _). rewrite Hp in Hd. injection Hd as -> ->. lia.
  - rewrite Hp in Hd by lia. done.
Qed.

Lemma process_waits c t req he bl q : complete_request req he bl -> req = hc_recv c ++ q -> q <> [] ->
  http_process html js css sys_access cfg c t = mret (Some c, t).
Proof.
  intros Hc Hr Hq. unfold http_process. rewrite (prefix_waits req he bl (hc_recv c) q Hc Hr Hq).
  destruct Hc as (_ & _ & Hm). rewrite Hr, length_app in Hm.
  destruct (Z.leb_spec HTTP_MAX_REQ (len (hc_recv c))); [|done]. destruct q; [done|]. simpl in Hm. lia.
Qed.

Lemma process_complete c t he bl : complete_request (hc_recv c) he bl ->
  http_process html js css sys_access cfg c t = handle_request html js css sys_access cfg (set_frame he bl c) t.
Proof.
  intros (Hd & Hl & _). unfold http_process. rewrite Hd, Hl, Z.eqb_refl. done.
Qed.

Lemma readable_piece c t w req d q h1 :
  hc_state c = HTTP_ST_RECV -> req = hc_recv c ++ d ++ q -> len req <= HTTP_MAX_REQ ->
  d <> [] -> (length d <= HTTP_RECV_CHUNK)%nat -> sys_recv (w_host w) (hc_fd c) = (h1, RvData d) ->
  http_conn_on_readable html js css sys_access cfg c t w
  = http_process html js css sys_access cfg (set_recv (hc_recv c ++ d) c) t (set_host w h1).
Proof.
  intros Hs Hr Hm Hd Hl Hrecv. unfold http_conn_on_readable. rewrite Hs.
  rewrite Hr, !length_app in Hm. destruct d as [|x d]; [done|].
  destruct (Z.leb_spec HTTP_MAX_REQ (len (hc_recv c))) as [Hge|_]; [simpl in Hm; lia|]. cbv zeta.
  unfold mbind, M_bind, on_host. rewrite Hrecv. rewrite take_ge; [done|].
  apply Nat.min_glb; [|done]. simpl length in *. lia.
Qed.

Lemma readable_pieces req he bl t : complete_request req he bl ->
  forall ds c w h, hc_state c = HTTP_ST_RECV -> ds <> [] -> feeds (hc_fd c) (w_host w) ds h ->
  req = hc_recv c ++ concat ds ->
  readable_n (length ds) (Some c, t) w
  = handle_request html js css sys_access cfg (set_frame he bl (set_recv req c)) t (set_host w h).
Proof.
  intros Hc. induction ds as [|d ds IH]; intros c w h Hs Hne Hf Hr; [done|].
  inversion Hf as [|h0 h1 h2 d' ds' Hd Hl Hrecv Hf']; subst. cbn [concat length readable_n fst snd] in *.
  unfold mbind at 1, M_bind. destruct Hc as (Hp & Hlen & Hm).
  rewrite (readable_piece c t w (hc_recv c ++ d ++ concat ds) d (concat ds) h1); [|done..].
  destruct ds as [|d2 ds].
  - inversion Hf'; subst. cbn [concat length readable_n]. rewrite app_nil_r in *.
    rewrite (process_complete _ _ he bl) by done. destruct (handle_request _ _ _ _ _ _ _ _) as [w' [r t']].
    cbn [readable_n]. by destruct r.
  - assert (Hq : concat (d2 :: ds) <> []).
    { inversion Hf'; subst. cbn [concat]. by destruct d2. }
    rewrite (process_waits _ _ (hc_recv c ++ d ++ concat (d2 :: ds)) he bl (concat (d2 :: ds))); [|done|by cbn; rewrite <- app_assoc|done].
    cbn [mret M_ret]. rewrite (IH (set_recv (hc_recv c ++ d) c) (set_host w h1) h); [|done..|by cbn; rewrite <- app_assoc].
    reflexivity.
Qed.

(** A request does not depend on its pieces. However a complete request of at
    most HTTP_MAX_REQ bytes is cut into reads, nothing happens before the last
    one; then the request is answered once, by the response that
    [admin_build_response] gives for the whole request on the store of that
    moment. *)
Theorem http_request_pieces (req : bytes) (he : nat) (bl : Z) (ds : list bytes) (c : HttpConn) (t : http_table)
  (w : World) (h : host)
  (Hreq : complete_request req he bl) (Hds : req = concat ds) (Hfeed : feeds (hc_fd c) (w_host w) ds h)
  (Hnew : hc_state c = HTTP_ST_RECV /\ hc_recv c = []) :
  let '(s, resp) := admin_build_response html js css (sys_access h) cfg (w_store w) req (Some he) in
  exists out, resp = Some out /\
    readable_n (length ds) (Some c, t) w
    = http_try_flush (http_set_response_buf (set_frame he bl (set_recv req c)) out)
        (smtp_in_http_set_events t (hc_handle c) POLLOUT) (MkWorld s (w_marks w) h (w_sent w)).
Proof.
  destruct Hnew as [Hs Hr].
  assert (Hne : ds <> []).
  { intros ->. destruct Hreq as (Hp & _). rewrite Hds in Hp. done. }
  rewrite (readable_pieces req he bl t Hreq ds c w h Hs Hne Hfeed) by (by rewrite Hr).
  unfold handle_request, mbind, M_bind, build. cbn [w_host set_host w_store hc_recv set_frame set_recv hc_header_end].
  destruct (build_response_ok html js css (sys_access h) cfg (w_store w) req (Some he)) as (r & (st & body & _ & ? & ? & _ & _ & _ & ->) & Hb).
  destruct (admin_build_response _ _ _ _ _ _ _ _) as [s resp]. cbn [snd] in Hb. subst resp.
  eexists. split; [reflexivity|]. reflexivity.
Qed.

End Pieces.

(** ** Connections and slots *)

Section Slots.
Context {E : DlEngine} {H : Host}.
Variables (html js css : bytes) (sys_access : host -> bytes -> bool) (cfg : AdminConfig).

(** Slot [i] belongs to connection [c] at address [u]. *)
Definition owns (t : http_table) (i : nat) (u : Z) (c : HttpConn) : Prop :=
  exists s, t !! i = Some s /\ hs_used s = true /\ hs_user s = u /\ hs_fd s = hc_fd c /\
    hs_on_readable s = CB_READABLE /\ hs_on_writable s = CB_WRITABLE /\ hs_on_closed s = CB_CLOSED /\
    hs_events s = match hc_state c with HTTP_ST_RECV => POLLIN | HTTP_ST_RESPOND => POLLOUT end.

(** The buffers are within their bounds; a response is never fully sent while the
    connection lives. *)
Definition http_conn_ok (c : HttpConn) : Prop :=
  len (hc_recv c) <= HTTP_MAX_REQ /\
  match hc_state c with HTTP_ST_RECV => True | HTTP_ST_RESPOND => (hc_off c < length (hc_resp c))%nat end.

(** Every live connection owns the slot of its handle, and every used slot is
    owned. *)
Definition linked (srv : HttpServer) (t : http_table) : Prop :=
  (forall u c, hx_conns srv !! u = Some c ->
     u < hx_next srv /\ http_conn_ok c /\ exists i, hc_handle c = Z.of_nat i /\ owns t i u c) /\
  (forall i s, t !! i = Some s -> hs_used s = true ->
     exists c, hx_conns srv !! hs_user s = Some c /\ hc_handle c = Z.of_nat i).

(** What the event loop does with the slots: [touch] before a callback, release
    before [on_closed], and anything to the rest of the world in between. *)
Inductive http_step : HttpServer * http_table -> HttpServer * http_table -> Prop :=
  | step_accept srv t w fds :
      Forall (fun fd => 0 <= fd) fds -> http_step (srv, t) (http_accept srv t fds w).2
  | step_readable srv t w i s now r :
      t !! i = Some s -> hs_used s = true ->
      (http_callback (http_conn_on_readable html js css sys_access cfg) srv (touch t i now) (hs_user s) w).2 = Some r ->
      http_step (srv, t) r
  | step_writable srv t w i s now r :
      t !! i = Some s -> hs_used s = true ->
      (http_callback http_conn_on_writable srv (touch t i now) (hs_user s) w).2 = Some r ->
      http_step (srv, t) r
  | step_idle srv t w i s r :
      t !! i = Some s -> hs_used s = true ->
      (http_callback http_conn_on_closed srv (http_slot_idle_close t (Z.of_nat i)).1 (hs_user s) w).2 = Some r ->
      http_step (srv, t) r.

(** What a handler does to its own slot, given that [c] owns slot [i]. *)
Definition handler_ok (u : Z) (i : nat) (c : HttpConn) (t : http_table) (r : option HttpConn * http_table) : Prop :=
  length r.2 = length t /\ (forall j, j <> i -> r.2 !! j = t !! j) /\
  match r.1 with
  | Some c' => hc_handle c' = Z.of_nat i /\ http_conn_ok c' /\ owns r.2 i u c'
  | None => exists s, r.2 !! i = Some s /\ hs_used s = false
  end.

Lemma close_frees t i s : t !! i = Some s ->
  exists s', smtp_in_http_close t (Z.of_nat i) = <[i := s']> t /\ hs_used s' = false.
Proof.
  intros Hs. unfold smtp_in_http_close, handle_ok. pose proof (lookup_lt_Some _ _ _ Hs).
  destruct (Z.ltb_spec (Z.of_nat i) 0); [lia|]. destruct (Z.geb_spec (Z.of_nat i) (Z.of_nat (length t))); [lia|].
  cbn [orb negb]. rewrite Nat2Z.id, Hs. by eexists.
Qed.

Lemma slot_freed u i c t w : hc_handle c = Z.of_nat i -> (exists s, t !! i = Some s) ->
  handler_ok u i c t (freed c t w).2.
Proof.
  intros Hh [s Hs]. unfold freed, http_conn_free. rewrite Hh. destruct (Z.geb_spec (Z.of_nat i) 0); [|lia].
  destruct (close_frees t i s Hs) as (s' & -> & Hu). cbn. unfold handler_ok. cbn [fst snd].
  split; [apply length_insert|]. split; [intros j Hj; by apply list_lookup_insert_ne|].
  exists s'. split; [|done]. apply list_lookup_insert_eq. by eapply lookup_lt_Some.
Qed.

Lemma set_events_owner t i s ev : t !! i = Some s -> hs_used s = true ->
  smtp_in_http_set_events t (Z.of_nat i) ev
  = <[i := MkSlot (hs_used s) (hs_fd s) ev (hs_idle_timeout_sec s) (hs_last_act s)
             (hs_on_readable s) (hs_on_writable s) (hs_on_closed s) (hs_user s)]> t.
Proof.
  intros Hs Hu. unfold smtp_in_http_set_events, handle_ok. pose proof (lookup_lt_Some _ _ _ Hs).
  destruct (Z.ltb_spec (Z.of_nat i) 0); [lia|]. destruct (Z.geb_spec (Z.of_nat i) (Z.of_nat (length t))); [lia|].
  cbn [orb negb]. by rewrite Nat2Z.id, Hs, Hu.
Qed.

Lemma flush_loop_keep rs n off off' : flush_loop rs n off = FlKeep off' -> (off' < n)%nat.
Proof.
  revert off. induction rs as [|[[|k]| | |] rs IH]; intros off; cbn [flush_loop];
    destruct (Nat.leb_spec n off); try done; try (intros [= <-]; lia); apply IH.
Qed.

Lemma slot_flush u i c t w : hc_handle c = Z.of_nat i -> hc_state c = HTTP_ST_RESPOND -> len (hc_recv c) <= HTTP_MAX_REQ ->
  owns t i u c -> handler_ok u i c t (http_try_flush c t w).2.
Proof.
  intros Hh Hst Hr (s & Hs & Ho). unfold http_try_flush. destruct (_ <=? _)%nat; [apply slot_freed; eauto|].
  rewrite bind_run. set (rs := (on_host _ w).2). destruct (flush_loop rs _ _) as [off| |] eqn:Hf; [|apply slot_freed; eauto..].
  cbn. split; [done|]. split; [done|]. split; [done|]. split; [|by exists s].
  split; [done|]. cbn [hc_state set_off]. rewrite Hst. by apply flush_loop_keep in Hf.
Qed.

Lemma handler_mono u i c t t' r : length t' = length t -> (forall j, j <> i -> t' !! j = t !! j) ->
  handler_ok u i c t' r -> handler_ok u i c t r.
Proof.
  intros Hl Hj (A & B & C). split; [congruence|]. split; [|done]. intros j Hne. rewrite B by done. by apply Hj.
Qed.

Lemma handler_conn u i c c' t r : handler_ok u i c t r -> handler_ok u i c' t r.
Proof. done. Qed.

(** Arming the slot for writing and flushing a response. *)
Lemma respond_ok_slot u i c resp t w : hc_handle c = Z.of_nat i -> len (hc_recv c) <= HTTP_MAX_REQ ->
  owns t i u c ->
  handler_ok u i c t (http_try_flush (http_set_response_buf c resp) (smtp_in_http_set_events t (hc_handle c) POLLOUT) w).2.
Proof.
  intros Hh Hr (s & Hs & Hu & Hrest). rewrite Hh, (set_events_owner t i s) by done.
  set (s' := MkSlot _ _ _ _ _ _ _ _ _).
  apply (handler_mono u i c t (<[i := s']> t)); [apply length_insert|intros j Hj; by apply list_lookup_insert_ne|].
  apply (handler_conn u i (http_set_response_buf c resp)), slot_flush; [done..|].
  eexists. split; [apply list_lookup_insert_eq; by eapply lookup_lt_Some|]. cbn. destruct Hrest as (? & ? & ? & ? & ? & _). by repeat split.
Qed.

Lemma slot_process u i c t w : hc_handle c = Z.of_nat i -> hc_state c = HTTP_ST_RECV -> len (hc_recv c) <= HTTP_MAX_REQ ->
  owns t i u c -> handler_ok u i c t (http_process html js css sys_access cfg c t w).2.
Proof.
  intros Hh Hst Hr Ho.
  assert (Herr : forall st re msg w, handler_ok u i c t (http_respond_err c t st re msg w).2)
    by (intros; by apply respond_ok_slot).
  unfold http_process. destruct (http_parse_probe _ _) as [|he bl|]; [|destruct (negb _)|]; try apply Herr.
  - destruct (_ <=? _); [apply Herr|]. cbn. split; [done|]. split; [done|]. split; [done|]. split; [|done].
    split; [done|]. by rewrite Hst.
  - unfold handle_request. rewrite bind_run. apply (handler_conn u i (set_frame he bl c)).
    destruct (build _ _ _ _ _ _ w).2 as [resp|]; by apply respond_ok_slot.
Qed.

Lemma slot_readable u i c t w : hc_handle c = Z.of_nat i -> http_conn_ok c -> owns t i u c ->
  handler_ok u i c t (http_conn_on_readable html js css sys_access cfg c t w).2.
Proof.
  intros Hh [Hr Hst] Ho. unfold http_conn_on_readable. destruct (hc_state c) eqn:Hs.
  2:{ cbn. split; [done|]. split; [done|]. split; [done|]. split; [|done]. split; [done|]. by rewrite Hs. }
  destruct (Z.leb_spec HTTP_MAX_REQ (len (hc_recv c))); [by apply respond_ok_slot|]. cbv zeta. rewrite bind_run.
  destruct (on_host _ w).2 as [[|x d]| | |]; [destruct Ho as (s & ? & _); apply slot_freed; eauto| | |destruct Ho as (s & ? & _); apply slot_freed; eauto..].
  - apply (handler_conn u i (set_recv (hc_recv c ++ take (Nat.min (Z.to_nat (HTTP_MAX_REQ - len (hc_recv c))) HTTP_RECV_CHUNK) (x :: d)) c)), slot_process; try done.
    cbn [set_recv hc_recv]. rewrite length_app, length_take. lia.
  - cbn. split; [done|]. split; [done|]. split; [done|]. split; [|done]. split; [done|]. by rewrite Hs.
Qed.

Lemma slot_writable u i c t w : hc_handle c = Z.of_nat i -> http_conn_ok c -> owns t i u c ->
  handler_ok u i c t (http_conn_on_writable c t w).2.
Proof.
  intros Hh [Hr Hst] Ho. unfold http_conn_on_writable. destruct (hc_state c) eqn:Hs; [|by apply slot_flush].
  cbn. split; [done|]. split; [done|]. split; [done|]. split; [|done]. split; [done|]. by rewrite Hs.
Qed.
Lemma touch_owns t i now u j c : owns (touch t i now) j u c <-> owns t j u c.
Proof.
  unfold owns, touch. destruct (t !! i) as [s|] eqn:Hs; [|done].
  destruct (decide (j = i)) as [->|Hne]; [|by rewrite list_lookup_insert_ne].
  rewrite list_lookup_insert_eq by (by eapply lookup_lt_Some). rewrite Hs. split.
  - intros (s' & [= <-] & Hrest). by exists s.
  - intros (s' & [= <-] & Hrest). eexists. split; [reflexivity|]. done.
Qed.

Lemma touch_used t i now j s : touch t i now !! j = Some s ->
  exists s0, t !! j = Some s0 /\ hs_used s0 = hs_used s /\ hs_user s0 = hs_user s.
Proof.
  unfold touch. destruct (t !! i) as [si|] eqn:Hs; [|by exists s].
  destruct (decide (j = i)) as [->|Hne]; [|rewrite list_lookup_insert_ne by done; by exists s].
  rewrite list_lookup_insert_eq by (by eapply lookup_lt_Some). intros [= <-]. by exists si.
Qed.

Lemma linked_touch srv t i now : linked srv t -> linked srv (touch t i now).
Proof.
  intros [L1 L2]. split.
  - intros u c Hc. destruct (L1 u c Hc) as (A & B & j & Hj & Ho). do 2 (split; [done|]). exists j. split; [done|]. by apply touch_owns.
  - intros j s Hs Hu. destruct (touch_used _ _ _ _ _ Hs) as (s0 & H0 & Hu0 & <-). apply (L2 j s0); congruence.
Qed.

(** A handler run on a live connection keeps the link. *)
Lemma callback_linked srv t u c i r : linked srv t -> hx_conns srv !! u = Some c -> hc_handle c = Z.of_nat i ->
  handler_ok u i c t r ->
  linked (MkHttpServer (match r.1 with Some c' => <[u := c']> (hx_conns srv) | None => delete u (hx_conns srv) end)
            (hx_next srv)) r.2.
Proof.
  intros [L1 L2] Hc Hh (Hlen & Hoth & Hr). destruct (L1 u c Hc) as (Hlt & _ & i' & Hh' & (s & Hs & Hu & Hus & _)).
  assert (i' = i) as -> by lia.
  assert (Hother : forall u' c', u' <> u -> hx_conns srv !! u' = Some c' ->
    u' < hx_next srv /\ http_conn_ok c' /\ exists j, hc_handle c' = Z.of_nat j /\ owns r.2 j u' c').
  { intros u' c' Hne Hc'. destruct (L1 u' c' Hc') as (A & B & j & Hj & Ho). do 2 (split; [done|]). exists j. split; [done|].
    destruct Ho as (sj & Hsj & Huj & Husj & Hrest). assert (j <> i).
    { intros ->. rewrite Hs in Hsj. injection Hsj as ->. congruence. }
    exists sj. by rewrite Hoth. }
  assert (Hslot : forall j sj, j <> i -> r.2 !! j = Some sj -> hs_used sj = true ->
    exists c', hx_conns srv !! hs_user sj = Some c' /\ hc_handle c' = Z.of_nat j /\ hs_user sj <> u).
  { intros j sj Hne Hsj Huj. rewrite Hoth in Hsj by done. destruct (L2 j sj Hsj Huj) as (c' & Hc' & Hj).
    exists c'. split; [done|]. split; [done|]. intros He. rewrite He, Hc in Hc'. injection Hc' as <-. lia. }
  destruct r as [[c'|] t']; cbn [fst snd] in *.
  - destruct Hr as (Hhc & Hok & Ho). split; cbn [hx_conns hx_next].
    + intros u' c2 Hc2. destruct (decide (u' = u)) as [->|Hne].
      * rewrite lookup_insert_eq in Hc2. injection Hc2 as <-. split; [done|]. split; [done|]. by exists i.
      * rewrite lookup_insert_ne in Hc2 by done. by apply Hother.
    + intros j sj Hsj Huj. destruct (decide (j = i)) as [->|Hne].
      * destruct Ho as (s' & Hs' & _ & Hus' & _). rewrite Hs' in Hsj. injection Hsj as <-.
        exists c'. by rewrite Hus', lookup_insert_eq.
      * destruct (Hslot j sj Hne Hsj Huj) as (c2 & Hc2 & Hj & Hn). exists c2. by rewrite lookup_insert_ne.
  - destruct Hr as (s' & Hs' & Hu'). split; cbn [hx_conns hx_next].
    + intros u' c2 Hc2. destruct (decide (u' = u)) as [->|Hne]; [by rewrite lookup_delete_eq in Hc2|].
      rewrite lookup_delete_ne in Hc2 by done. by apply Hother.
    + intros j sj Hsj Huj. destruct (decide (j = i)) as [->|Hne]; [congruence|].
      destruct (Hslot j sj Hne Hsj Huj) as (c2 & Hc2 & Hj & Hn). exists c2. by rewrite lookup_delete_ne.
Qed.

Lemma accept_linked fds : forall srv t w, Forall (fun fd => 0 <= fd) fds -> linked srv t ->
  let r := (http_accept srv t fds w).2 in linked r.1 r.2.
Proof.
  induction fds as [|fd fds IH]; intros srv t w Hf [L1 L2]; cbn [http_accept]; [done|]. inversion_clear Hf as [|? ? Hfd Hf'].
  cbv zeta. rewrite bind_run.
  pose proof (http_register_spec t (on_host time_now w).2 fd CB_READABLE CB_WRITABLE CB_CLOSED (HTTP_READ_TIMEOUT_MS / 1000)
    (hx_next srv) Hfd ltac:(done) ltac:(done)) as Hreg.
  destruct (smtp_in_register_http_conn _ _ _ _ _ _ _ _) as [t' hd].
  destruct Hreg as [(-> & -> & _)|(i & s & -> & Hs & Hu & ->)].
  - change (VISAGE_ENOMEM <? 0) with true. cbv iota. rewrite bind_run. by apply IH.
  - destruct (Z.ltb_spec (Z.of_nat i) 0); [lia|]. apply IH; [done|].
    pose proof (lookup_lt_Some _ _ _ Hs) as Hlt.
    assert (Hfresh : hx_conns srv !! hx_next srv = None).
    { destruct (hx_conns srv !! hx_next srv) as [c|] eqn:Hc; [|done]. destruct (L1 _ _ Hc) as (? & _). lia. }
    split; cbn [hx_conns hx_next].
    + intros u c Hc. destruct (decide (u = hx_next srv)) as [->|Hne].
      * rewrite lookup_insert_eq in Hc. injection Hc as <-. split; [lia|]. split; [done|].
        exists i. split; [done|]. eexists. split; [by apply list_lookup_insert_eq|]. done.
      * rewrite lookup_insert_ne in Hc by done. destruct (L1 u c Hc) as (A & B & j & Hj & sj & Hsj & Huj & Ho).
        split; [lia|]. split; [done|]. exists j. split; [done|]. exists sj. rewrite list_lookup_insert_ne; [done|].
        intros ->. congruence.
    + intros j sj Hsj Huj. destruct (decide (j = i)) as [->|Hne].
      * rewrite list_lookup_insert_eq in Hsj by done. injection Hsj as <-. cbn [hs_user]. rewrite lookup_insert_eq. by eexists.
      * rewrite list_lookup_insert_ne in Hsj by done. destruct (L2 j sj Hsj Huj) as (c & Hc & Hj). exists c. split; [|done].
        rewrite lookup_insert_ne; [done|]. intros He. rewrite <- He in Hc. congruence.
Qed.

Lemma callback_run f srv t u c w : hx_conns srv !! u = Some c ->
  (http_callback f srv t u w).2 =
  Some (MkHttpServer (match (f c t w).2.1 with Some c' => <[u := c']> (hx_conns srv) | None => delete u (hx_conns srv) end)
          (hx_next srv), (f c t w).2.2).
Proof. intros Hc. unfold http_callback. rewrite Hc, bind_run. done. Qed.

(** The used slot of an index belongs to a live connection. *)
Lemma slot_conn srv t i s : linked srv t -> t !! i = Some s -> hs_used s = true ->
  exists c, hx_conns srv !! hs_user s = Some c /\ hc_handle c = Z.of_nat i /\ http_conn_ok c /\ owns t i (hs_user s) c.
Proof.
  intros [L1 L2] Hs Hu. destruct (L2 i s Hs Hu) as (c & Hc & Hi). destruct (L1 _ _ Hc) as (_ & Hok & j & Hj & Ho).
  assert (j = i) as -> by lia. eauto.
Qed.

Lemma step_linked a b : http_step a b -> linked a.1 a.2 -> linked b.1 b.2.
Proof.
  intros Hst Hl. destruct Hst as [srv t w fds Hf|srv t w i s now r Hs Hu Hr|srv t w i s now r Hs Hu Hr|srv t w i s r Hs Hu Hr];
    cbn [fst snd] in *.
  - by apply accept_linked.
  - destruct (slot_conn srv t i s Hl Hs Hu) as (c & Hc & Hh & Hok & Ho). rewrite (callback_run _ _ _ _ c) in Hr by done.
    injection Hr as <-. apply (callback_linked srv (touch t i now) (hs_user s) c i); [by apply linked_touch|done|done|].
    apply slot_readable; [done|done|by apply touch_owns].
  - destruct (slot_conn srv t i s Hl Hs Hu) as (c & Hc & Hh & Hok & Ho). rewrite (callback_run _ _ _ _ c) in Hr by done.
    injection Hr as <-. apply (callback_linked srv (touch t i now) (hs_user s) c i); [by apply linked_touch|done|done|].
    apply slot_writable; [done|done|by apply touch_owns].
  - destruct (slot_conn srv t i s Hl Hs Hu) as (c & Hc & Hh & Hok & Ho). rewrite (callback_run _ _ _ _ c) in Hr by done.
    injection Hr as <-.
    apply (callback_linked srv t (hs_user s) c i (http_conn_on_closed c (http_slot_idle_close t (Z.of_nat i)).1 w).2); [done|done|done|].
    unfold http_conn_on_closed, http_slot_idle_close. rewrite Nat2Z.id, Hs. cbn [fst].
    destruct (close_frees t i s Hs) as (s' & -> & Hu'). pose proof (lookup_lt_Some _ _ _ Hs).
    apply (handler_mono _ _ _ _ (<[i := s']> t)); [apply length_insert|intros j Hj; by apply list_lookup_insert_ne|].
    apply slot_freed; [done|]. exists s'. by apply list_lookup_insert_eq.
Qed.

(** No callback touches freed memory. In every state the admin server reaches by
    accepting connections, by readable and writable events of used slots and by
    idle closes, with any data from the peers, each live connection owns exactly
    the slot of its handle (its own descriptor, address and callbacks, armed for
    reading until the response is there and for writing after), its buffers are
    within their bounds, and each used slot belongs to a live connection: so every
    callback the event loop makes finds its connection. *)
Theorem http_slots_live (st : HttpServer * http_table)
  (Hreach : rtc http_step (MkHttpServer ∅ 0, http_init) st) :
  linked st.1 st.2 /\
  forall i s (f : HttpConn -> http_table -> M (option HttpConn * http_table)) t w,
    st.2 !! i = Some s -> hs_used s = true ->
    exists c r, hx_conns st.1 !! hs_user s = Some c /\ hs_fd s = hc_fd c /\
      (http_callback f st.1 t (hs_user s) w).2 = Some r.
Proof.
  assert (Hl : linked st.1 st.2).
  { refine (rtc_ind_r (fun st => linked st.1 st.2) _ _ _ st Hreach); [|intros a b _ Hs Ha; by apply (step_linked a)].
    split; cbn [fst snd hx_conns].
    - intros u c Hc. by rewrite lookup_empty in Hc.
    - intros i s Hs Hu. unfold http_init in Hs. apply list_elem_of_lookup_2, list_elem_of_In, repeat_spec in Hs. by subst. }
  split; [done|]. intros i s f t w Hs Hu. destruct (slot_conn _ _ i s Hl Hs Hu) as (c & Hc & _ & _ & (s' & Hs' & _ & _ & Hfd & _)).
  exists c. eexists. split; [done|]. split; [congruence|]. by apply callback_run.
Qed.

End Slots.

(** ** Witnesses *)

Definition get_health : bytes := bs "GET /health HTTP/1.0" ++ CRLF ++ CRLF.
Definition health_head : nat := length get_health.

Lemma mem_recv_keeps fd : keeps_files (H := MemHost) (fun h => sys_recv h fd).
Proof. intros h p. cbn. by destruct (mc_input h). Qed.

Lemma http_keeps_commitments_witness :
  let w := mem_world 0 [get_health] in
  store_wf (w_db (http_conn_on_readable [] [] [] (fun _ _ => true) mem_admin (new_http_conn 5 0) http_init w).1).
Proof.
  refine (proj1 (http_keeps_commitments (H := MemHost) [] [] [] (fun _ _ => true) mem_admin (new_http_conn 5 0) http_init
    (mem_world 0 [get_health]) mem_recv_keeps mem1_wf _ _)). by left.
Defined.

(** A request in two pieces. *)
Lemma http_request_pieces_witness :
  let w := mem_world 0 [bs "GET /hea"; bs "lth HTTP/1.0" ++ CRLF ++ CRLF] in
  let c := new_http_conn 5 0 in
  exists out, ar_finish (ar_respond ar_init 200 (bs "OK") (bs "application/json") ok_body) = Some out /\
    readable_n (H := MemHost) [] [] [] (fun _ _ => true) mem_admin 2 (Some c, http_init) w
    = http_try_flush (http_set_response_buf (set_frame health_head 0 (set_recv get_health c)) out)
        (smtp_in_http_set_events http_init 0 POLLOUT) (mem_world 0 []).
Proof.
  refine (http_request_pieces (H := MemHost) [] [] [] (fun _ _ => true) mem_admin get_health health_head 0
    [bs "GET /hea"; bs "lth HTTP/1.0" ++ CRLF ++ CRLF] (new_http_conn 5 0) http_init
    (mem_world 0 [bs "GET /hea"; bs "lth HTTP/1.0" ++ CRLF ++ CRLF]) (mem_machine 0 []) _ eq_refl _ (conj eq_refl eq_refl)).
  - split; [reflexivity|]. split; [reflexivity|]. by apply Z.leb_le.
  - eapply feeds_cons; [done|vm_compute; lia|reflexivity|].
    eapply feeds_cons; [done|vm_compute; lia|reflexivity|]. apply feeds_nil.
Defined.

Lemma http_slots_live_witness :
  let st := (http_accept (MkHttpServer ∅ 0) http_init [5; 6] (mem_world 0 [])).2 in
  linked st.1 st.2.
Proof.
  refine (proj1 (http_slots_live (H := MemHost) [] [] [] (fun _ _ => true) mem_admin _ (rtc_once _ _ (step_accept _ _ _ _ _ _ _ _ _ _)))).
  repeat constructor; lia.
Defined.
