(* ===== verification/MailStore.v ===== *)
(** * Names, flags and sets of the mailbox store (the pure half of src/src/imap_maildir.c)

    The maildir flag suffix, the message sets of IMAP, the base64 decoder of AUTH, the
    wildcards of LIST, the names of users and mailboxes, the target of a delivery, the
    directories, and the subscription and password files. A C string is the list of its
    bytes; a file is an argument ([None] when it cannot be read) and the bytes written
    to it a result. A destination buffer is its size. *)

From S2P Require Import Prelude.

(** ** Limits (src/src/imapd.h) *)

Definition IMAPD_MAX_LINE : nat := 1000.
Definition IMAPD_MAX_USER : nat := 128.
Definition IMAPD_MAX_MBOX : nat := 512.
Definition IMAPD_MAX_UNK : nat := 16.

Definition IMAIL_DRAFT : Z := 1.
Definition IMAIL_FLAGGED : Z := 2.
Definition IMAIL_ANSWERED : Z := 4.
Definition IMAIL_SEEN : Z := 8.
Definition IMAIL_TRASHED : Z := 16.
Definition IMAIL_RECENT : Z := 32.

(** ** The maildir flag suffix *)

(** The loop over the letters; [unk] holds the unknown ones read so far. *)
Fixpoint flags_loop (info : bytes) (flags : Z) (unk : bytes) (unksz : nat) : option (Z * bytes) :=
  match info with
  | [] => Some (flags, unk)
  | c :: t =>
      if c =? "D"%chr then flags_loop t (Z.lor flags IMAIL_DRAFT) unk unksz
      else if c =? "F"%chr then flags_loop t (Z.lor flags IMAIL_FLAGGED) unk unksz
      else if c =? "R"%chr then flags_loop t (Z.lor flags IMAIL_ANSWERED) unk unksz
      else if c =? "S"%chr then flags_loop t (Z.lor flags IMAIL_SEEN) unk unksz
      else if c =? "T"%chr then flags_loop t (Z.lor flags IMAIL_TRASHED) unk unksz
      else if (unksz <=? length unk + 1)%nat then None
      else flags_loop t flags (unk ++ [c]) unksz
  end.

(** [imapd_flags_parse]: the mask and the unknown letters when it returns 0. *)
Definition imapd_flags_parse (info : bytes) (unksz : nat) : option (Z * bytes) :=
  if (unksz =? 0)%nat then None
  else match info with
       | [] => Some (0, [])
       | a :: b :: t => if (a =? "2"%chr) && (b =? ","%chr) then flags_loop t 0 [] unksz else None
       | _ => None
       end.

Definition flag_letter (flags bit c : Z) : bytes := if negb (Z.land flags bit =? 0) then [c] else [].

(** The loop that copies the unknown letters behind the [n] bytes written. *)
Fixpoint unk_loop (unk : bytes) (out : bytes) (outsz : nat) : option bytes :=
  match unk with
  | [] => Some out
  | c :: t => if (outsz <=? length out + 1)%nat then None else unk_loop t (out ++ [c]) outsz
  end.

(** [imapd_flags_encode]: the string when it returns 0. The known letters are written
    without a test of the size; every caller passes 32 bytes. *)
Definition imapd_flags_encode (flags : Z) (unk : bytes) (outsz : nat) : option bytes :=
  if (outsz <? 3)%nat then None
  else unk_loop unk
         (bs "2," ++ flag_letter flags IMAIL_DRAFT "D"%chr ++ flag_letter flags IMAIL_FLAGGED "F"%chr
          ++ flag_letter flags IMAIL_ANSWERED "R"%chr ++ flag_letter flags IMAIL_SEEN "S"%chr
          ++ flag_letter flags IMAIL_TRASHED "T"%chr) outsz.

(** ** Message sets *)

(** The digits of one number from the first on, [a] the uint64_t value so far. *)
Fixpoint seq_digits (s : bytes) (a : Z) : option (Z * bytes) :=
  match s with
  | c :: t =>
      if is_digit c then
        let a := a * 10 + (c - "0"%chr) in
        if a >? UINT32_MAX then None else seq_digits t a
      else Some (a, s)
  | [] => Some (a, [])
  end.

(** One end of a range: [None] inside for the star. *)
Definition seq_item (s : bytes) : option (option Z * bytes) :=
  match s with
  | [] => None
  | c :: t =>
      if c =? "*"%chr then Some (None, t)
      else if ("1"%chr <=? c) && (c <=? "9"%chr) then
        match seq_digits s 0 with None => None | Some (a, r) => Some (Some a, r) end
      else None
  end.

(** [seqset_tok]: the two bounds in order, and what follows the token. *)
Definition seqset_tok (s : bytes) (star : Z) : option (Z * Z * bytes) :=
  match seq_item s with
  | None => None
  | Some (a, r) =>
      let lo := default star a in
      let order lo hi r := Some (if lo >? hi then (hi, lo, r) else (lo, hi, r)) in
      match r with
      | c :: t =>
          if c =? ":"%chr then
            match seq_item t with None => None | Some (b, r') => order lo (default star b) r' end
          else order lo lo r
      | [] => order lo lo []
      end
  end.

(** The loop over the tokens; each consumes a byte. *)
Fixpoint seqset_valid_loop (fuel : nat) (set : bytes) : bool :=
  match fuel with
  | O => false
  | S fuel' =>
      match seqset_tok set 1 with
      | None => false
      | Some (_, _, []) => true
      | Some (_, _, c :: t) => if c =? ","%chr then seqset_valid_loop fuel' t else false
      end
  end.

Definition imapd_seqset_valid (set : bytes) : bool :=
  if is_nil set then false else seqset_valid_loop (S (length set)) set.

Fixpoint seqset_has_loop (fuel : nat) (set : bytes) (n star : Z) : bool :=
  match fuel with
  | O => false
  | S fuel' =>
      if is_nil set then false
      else match seqset_tok set star with
           | None => false
           | Some (lo, hi, r) =>
               if (n >=? lo) && (n <=? hi) then true
               else match r with [] => false | _ :: t => seqset_has_loop fuel' t n star end
           end
  end.

Definition imapd_seqset_has (set : bytes) (n star : Z) : bool :=
  if star =? 0 then false else seqset_has_loop (S (length set)) set n star.

(** ** Base64 *)

Definition b64_val (c : Z) : Z :=
  if ("A"%chr <=? c) && (c <=? "Z"%chr) then c - "A"%chr
  else if ("a"%chr <=? c) && (c <=? "z"%chr) then c - "a"%chr + 26
  else if ("0"%chr <=? c) && (c <=? "9"%chr) then c - "0"%chr + 52
  else if c =? "+"%chr then 62
  else if c =? "/"%chr then 63
  else -1.

(** The inner loop over one group of four: the values and the count of paddings.
    [last] says that the group is the last one. *)
Fixpoint b64_quad (quad : bytes) (j pad : Z) (v : list Z) (last : bool) : option (list Z * Z) :=
  match quad with
  | [] => Some (v, pad)
  | c :: t =>
      if c =? "="%chr then
        if negb last || (j <? 2) then None else b64_quad t (j + 1) (pad + 1) (v ++ [0]) last
      else if pad >? 0 then None
      else let x := b64_val c in if x <? 0 then None else b64_quad t (j + 1) pad (v ++ [x]) last
  end.

Definition b64_acc4 (v : list Z) : Z :=
  Z.lor (Z.lor (Z.lor (Z.shiftl (nth 0 v 0) 18) (Z.shiftl (nth 1 v 0) 12)) (Z.shiftl (nth 2 v 0) 6)) (nth 3 v 0).

(** The loop over the groups; [out] holds the bytes written. *)
Fixpoint b64_groups (inp : bytes) (outsz : nat) (out : bytes) : option bytes :=
  match inp with
  | a :: b :: c :: d :: t =>
      match b64_quad [a; b; c; d] 0 0 [] (is_nil t) with
      | None => None
      | Some (v, pad) =>
          let acc := u32 (b64_acc4 v) in
          let keep := Z.to_nat (3 - pad) in
          if (outsz <? length out + keep)%nat then None
          else b64_groups t outsz (out ++ take keep [Z.land (Z.shiftr acc 16) 255; Z.land (Z.shiftr acc 8) 255; Z.land acc 255])
      end
  | _ => Some out
  end.

(** [imapd_b64_decode]: the bytes when it returns 0. *)
Definition imapd_b64_decode (inp : bytes) (outsz : nat) : option bytes :=
  if negb (length inp mod 4 =? 0)%nat then None else b64_groups inp outsz [].

(** ** Wildcards and names *)

(** The two inner loops, over the rest of the pattern as a test. *)
Fixpoint star_loop (f : bytes -> bool) (str : bytes) : bool :=
  match str with
  | [] => false
  | _ :: t => if f str then true else star_loop f t
  end.

Fixpoint percent_loop (f : bytes -> bool) (str : bytes) : bool :=
  match str with
  | [] => false
  | c :: t => if c =? "."%chr then false else if f str then true else percent_loop f t
  end.

Fixpoint imapd_wildmat (pat str : bytes) : bool :=
  match pat with
  | [] => is_nil str
  | p :: pat' =>
      if p =? "*"%chr then if is_nil pat' then true else star_loop (imapd_wildmat pat') str
      else if p =? "%"%chr then if is_nil pat' then negb (has "."%chr str) else percent_loop (imapd_wildmat pat') str
      else match str with
           | [] => false
           | c :: str' => if tolower p =? tolower c then imapd_wildmat pat' str' else false
           end
  end.

Definition user_char (c : Z) : bool :=
  (("A"%chr <=? c) && (c <=? "Z"%chr)) || (("a"%chr <=? c) && (c <=? "z"%chr))
  || (("0"%chr <=? c) && (c <=? "9"%chr)) || (c =? "."%chr) || (c =? "_"%chr) || (c =? "-"%chr).

Definition imapd_user_ok (u : bytes) : bool :=
  match u with
  | [] => false
  | c :: _ =>
      if c =? "."%chr then false
      else if negb (forallb user_char u) then false
      else (length u <=? IMAPD_MAX_USER)%nat
  end.

(** [strstr(s, "..") != NULL]. *)
Fixpoint has_dotdot (s : bytes) : bool :=
  match s with
  | a :: (b :: _) as t => if (a =? "."%chr) && (b =? "."%chr) then true else has_dotdot t
  | _ => false
  end.

Definition mbox_char (c : Z) : bool := negb ((c <? 32) || (c =? 127)) && negb (c =? "/"%chr).

(** [imapd_mbox_name_ok]: whether it returns 0. *)
Definition imapd_mbox_name_ok (name : bytes) : bool :=
  match name with
  | [] => false
  | c :: _ =>
      if c =? "."%chr then false
      else if negb (forallb mbox_char name) then false
      else if (IMAPD_MAX_MBOX <? length name)%nat then false
      else if match last name with Some z => z =? "."%chr | None => false end then false
      else negb (has_dotdot name)
  end.

(** [imapd_delivery_target]: the user and the folder when it returns 0. *)
Definition imapd_delivery_target (local : bytes) (usersz foldersz : nat) : option (bytes * bytes) :=
  if is_nil local then None
  else
    let user := take_while (fun c => negb (c =? "+"%chr)) local in
    let folder := match cut "+"%chr local with None => bs "INBOX" | Some (_, f) => f end in
    if is_nil user || (usersz <=? length user)%nat then None
    else if negb (imapd_user_ok user) then None
    else if (foldersz <=? length folder)%nat then None
    else match cut "+"%chr local with
         | None => Some (user, folder)
         | Some _ => if imapd_mbox_name_ok folder then Some (user, folder) else None
         end.

(** [imapd_mbox_dir]: the path when it returns 0. *)
Definition imapd_mbox_dir (root user name : bytes) (outsz : Z) : option bytes :=
  if negb (imapd_user_ok user) then None
  else
    let fit p := if outsz <=? len p then None else Some p in
    if ieq name (bs "INBOX") then fit (root ++ bs "/" ++ user ++ bs "/Inbox")
    else if negb (imapd_mbox_name_ok name) then None
    else fit (root ++ bs "/" ++ user ++ bs "/." ++ name).

(** [msg_path]: the path when it returns 0. *)
Definition msg_path (dir sub base info : bytes) (outsz : Z) : option bytes :=
  let p := dir ++ bs "/" ++ sub ++ bs "/" ++ base ++ (if is_nil info then [] else ":"%chr :: info) in
  if outsz <=? len p then None else Some p.

(** ** The subscription file *)

Definition line_of (p : bytes) : bytes := take_while (fun c => negb (c =? LF)) p.
Definition after_line (p : bytes) : bytes := drop_while (fun c => negb (c =? LF)) p.

Fixpoint sub_has_loop (fuel : nat) (p name : bytes) : bool :=
  match fuel, p with
  | O, _ | _, [] => false
  | S fuel', _ => if beq (line_of p) name then true else sub_has_loop fuel' (eat LF (after_line p)).2 name
  end.

(** [imapd_sub_has] on the contents of the file. *)
Definition imapd_sub_has (file : option bytes) (name : bytes) : bool :=
  match file with None => false | Some buf => let s := c_str buf in sub_has_loop (length s) s name end.

(** The loop that drops the lines equal to [name]. *)
Fixpoint sub_drop_loop (fuel : nat) (p name : bytes) : bytes :=
  match fuel, p with
  | O, _ | _, [] => []
  | S fuel', _ =>
      let l := line_of p in
      let '(nl, r) := eat LF (after_line p) in
      if beq l name then sub_drop_loop fuel' r name
      else l ++ nl ++ sub_drop_loop fuel' r name
  end.

(** [imapd_sub_write]: what it writes to the file, [None] for no write. *)
Definition imapd_sub_write (file : option bytes) (name : bytes) (add : bool) : option bytes :=
  if Bool.eqb (imapd_sub_has file name) add then None
  else match add, file with
       | false, Some buf => let s := c_str buf in Some (sub_drop_loop (length s) s name)
       | _, _ =>
           let buf := default [] file in
           Some (buf ++ (match last buf with Some c => if c =? LF then [] else [LF] | None => [] end) ++ name ++ [LF])
       end.

(** The contents of the file after the call, when the write succeeds. *)
Definition sub_file_after (file : option bytes) (name : bytes) (add : bool) : option bytes :=
  match imapd_sub_write file name add with None => file | Some s => Some s end.

Example mat1 : imapd_wildmat (bs "a*C") (bs "ab.c") = true. Proof. reflexivity. Qed.
Example mat2 : imapd_wildmat (bs "%.b") (bs "a.b") = false. Proof. reflexivity. Qed.
Example seq1 : imapd_seqset_has (bs "1,5:3,*") 4 9 = true. Proof. reflexivity. Qed.
Example seq2 : imapd_seqset_valid (bs "1,5:3,*:10") = true. Proof. reflexivity. Qed.
Example b64_3 : imapd_b64_decode (bs "AHUAcA==") 10 = Some [0; 117; 0; 112]. Proof. vm_compute. reflexivity. Qed.
Example fl1 : imapd_flags_encode 24 (bs "xy") 32 = Some (bs "2,STxy"). Proof. vm_compute. reflexivity. Qed.
