(* ===== verification/MailStoreSpec.v ===== *)
(** * What the names, flags and sets of the mailbox store promise

    The theorems on [MailStore]: the flag suffix survives a rename, a message set means
    the union of its ranges, base64 is inverted, a wildcard that is answered true means
    what IMAP says, a directory belongs to one user and one mailbox, and the
    subscription file records what is written to it. *)

From S2P Require Import Prelude Json SmtpReply OutboxAuth MailStore.

(** ** The flag suffix *)

(** The unknown letters a suffix can carry. *)
Definition unk_ok (unk : bytes) : Prop :=
  Forall (fun c => c <> "D"%chr /\ c <> "F"%chr /\ c <> "R"%chr /\ c <> "S"%chr /\ c <> "T"%chr) unk.

Lemma unk_loop_app unk out outsz : (length out + length unk < outsz)%nat -> unk_loop unk out outsz = Some (out ++ unk).
Proof.
  revert out. induction unk as [|c t IH]; intros out Hl; cbn [unk_loop]; [by rewrite app_nil_r|]. cbn [length] in Hl.
  destruct (Nat.leb_spec outsz (length out + 1)); [lia|].
  rewrite IH by (rewrite length_app; cbn [length]; lia). by rewrite <- app_assoc.
Qed.

Lemma flags_loop_unk unk flags unk0 unksz : unk_ok unk -> (length unk0 + length unk < unksz)%nat ->
  flags_loop unk flags unk0 unksz = Some (flags, unk0 ++ unk).
Proof.
  intros Hu. revert unk0. induction Hu as [|c t (H1 & H2 & H3 & H4 & H5) Ht IH]; intros unk0 Hl; cbn [flags_loop].
  { by rewrite app_nil_r. }
  cbn [length] in Hl. rewrite !(proj2 (Z.eqb_neq _ _)) by done.
  destruct (Nat.leb_spec unksz (length unk0 + 1)); [lia|].
  rewrite IH by (rewrite length_app; cbn [length]; lia). by rewrite <- app_assoc.
Qed.


Definition letters (flags : Z) : bytes :=
  flag_letter flags IMAIL_DRAFT "D"%chr ++ flag_letter flags IMAIL_FLAGGED "F"%chr
  ++ flag_letter flags IMAIL_ANSWERED "R"%chr ++ flag_letter flags IMAIL_SEEN "S"%chr
  ++ flag_letter flags IMAIL_TRASHED "T"%chr.

Lemma letters_length flags : (length (letters flags) <= 5)%nat.
Proof. unfold letters, flag_letter. repeat case_match; cbn [app length]; lia. Qed.

Lemma land_low_bits flags bit : Z.land bit 31 = bit -> Z.land flags bit = Z.land (Z.land flags 31) bit.
Proof. intros H. by rewrite <- Z.land_assoc, (Z.land_comm 31), H. Qed.

Lemma letters_low flags : letters flags = letters (Z.land flags 31).
Proof.
  unfold letters, flag_letter. rewrite (land_low_bits flags IMAIL_DRAFT), (land_low_bits flags IMAIL_FLAGGED),
    (land_low_bits flags IMAIL_ANSWERED), (land_low_bits flags IMAIL_SEEN), (land_low_bits flags IMAIL_TRASHED) by done. done.
Qed.

Lemma flags_loop_letters flags rest unksz :
  flags_loop (letters flags ++ rest) 0 [] unksz = flags_loop rest (Z.land flags 31) [] unksz.
Proof.
  rewrite letters_low. assert (Hr : 0 <= Z.land flags 31 < 32).
  { change 31 with (Z.ones 5). rewrite Z.land_ones by lia. apply Z.mod_pos_bound. lia. }
  generalize (Z.land flags 31) Hr. clear. intros f Hf. rewrite <- (Z2Nat.id f) by lia.
  assert (Hn : (Z.to_nat f < 32)%nat) by lia. generalize (Z.to_nat f) Hn. clear. intros n Hn.
  do 32 (destruct n as [|n]; [reflexivity|]). lia.
Qed.

Lemma flags_encode_parse flags unk unksz outsz :
  unk_ok unk -> (length unk < unksz)%nat -> (7 + length unk < outsz)%nat ->
  exists s, imapd_flags_encode flags unk outsz = Some s /\ imapd_flags_parse s unksz = Some (Z.land flags 31, unk).
Proof.
  intros Hu Hl Ho. unfold imapd_flags_encode. destruct (Nat.ltb_spec outsz 3); [lia|].
  fold (letters flags). pose proof (letters_length flags).
  rewrite unk_loop_app by (rewrite length_app; cbn [length]; change (length (bs "2,")) with 2%nat; lia).
  eexists. split; [reflexivity|]. unfold imapd_flags_parse. destruct (Nat.eqb_spec unksz 0); [lia|].
  change (bs "2," ++ letters flags) with ("2"%chr :: ","%chr :: letters flags). cbn [app].
  rewrite !Z.eqb_refl. cbn [andb]. rewrite flags_loop_letters. by rewrite flags_loop_unk by (try done; cbn [length]; lia).
Qed.

Lemma flags_loop_out info flags unk unksz f u :
  flags_loop info flags unk unksz = Some (f, u) -> 0 <= flags < 32 -> unk_ok unk -> (length unk < unksz)%nat ->
  0 <= f < 32 /\ unk_ok u /\ (length u < unksz)%nat.
Proof.
  assert (Hor : forall x b, 0 <= x < 32 -> 0 <= b < 32 -> 0 <= Z.lor x b < 32).
  { intros x b Hx Hb. assert (forall y, 0 <= y < 32 -> Z.land y 31 = y) as Hm.
    { intros y Hy. change 31 with (Z.ones 5). rewrite Z.land_ones by lia. by apply Z.mod_small. }
    rewrite <- (Hm x Hx), <- (Hm b Hb), <- Z.land_lor_distr_l. change 31 with (Z.ones 5).
    rewrite Z.land_ones by lia. apply Z.mod_pos_bound. lia. }
  revert flags unk. induction info as [|c t IH]; intros flags unk H Hf Hu Hl; cbn [flags_loop] in H; [by simplify_eq|].
  assert (forall b, 0 <= b < 32 -> 0 <= Z.lor flags b < 32) as Hb by auto.
  destruct (Z.eqb_spec c "D"%chr); [eapply IH; eauto; apply Hb; done|].
  destruct (Z.eqb_spec c "F"%chr); [eapply IH; eauto; apply Hb; done|].
  destruct (Z.eqb_spec c "R"%chr); [eapply IH; eauto; apply Hb; done|].
  destruct (Z.eqb_spec c "S"%chr); [eapply IH; eauto; apply Hb; done|].
  destruct (Z.eqb_spec c "T"%chr); [eapply IH; eauto; apply Hb; done|].
  destruct (Nat.leb_spec unksz (length unk + 1)); [done|].
  eapply IH; [exact H|done| |rewrite length_app; cbn [length]; lia].
  apply Forall_app. split; [done|]. by repeat constructor.
Qed.

Lemma flags_read_ok info flags unk unksz : imapd_flags_parse info unksz = Some (flags, unk) ->
  0 <= flags < 32 /\ unk_ok unk /\ (length unk < unksz)%nat.
Proof.
  unfold imapd_flags_parse. destruct (Nat.eqb_spec unksz 0); [done|]. destruct info as [|a [|b t]]; [|done|].
  - intros [= <- <-]. split; [lia|]. split; [constructor|cbn; lia].
  - destruct ((a =? "2"%chr) && (b =? ","%chr)); [|done]. intros H%flags_loop_out; [done|lia|constructor|cbn; lia].
Qed.

(** The unknown letters a view entry keeps of those in a file name. *)
Definition kept_letters (unk : bytes) : bytes := take (IMAPD_MAX_UNK - 1) unk.

Lemma flags_rename info flags unk flags' : imapd_flags_parse info 32 = Some (flags, unk) -> 0 <= flags' < 32 ->
  exists s, imapd_flags_encode flags' (kept_letters unk) 32 = Some s /\ imapd_flags_parse s 32 = Some (flags', kept_letters unk).
Proof.
  intros Hr Hf. apply flags_read_ok in Hr as (_ & Hu & _).
  assert (Hk : unk_ok (kept_letters unk)) by (by apply Forall_take).
  assert (Hl : (length (kept_letters unk) <= 15)%nat) by (unfold kept_letters, IMAPD_MAX_UNK; rewrite length_take; lia).
  destruct (flags_encode_parse flags' (kept_letters unk) 32 32 Hk ltac:(lia) ltac:(lia)) as (s & E & P). exists s. split; [done|]. rewrite P. do 2 f_equal.
  change 31 with (Z.ones 5). rewrite Z.land_ones by lia. by apply Z.mod_small.
Qed.

(** the flags of a file name, read by the scan (32 bytes for unknown letters) and
    kept in a view entry (the first 15 of them), are written by a rename into its 32
    bytes and read again as the flags set and the letters kept. *)
Theorem flags_survive_rename (info : bytes) (flags flags' : Z) (unk : bytes)
    (Hread : imapd_flags_parse info 32 = Some (flags, unk)) (Hset : 0 <= flags' < 32) :
  exists s, imapd_flags_encode flags' (kept_letters unk) 32 = Some s /\
    imapd_flags_parse s 32 = Some (flags', kept_letters unk).
Proof. by apply (flags_rename info flags). Qed.

Lemma flags_survive_rename_witness :
  imapd_flags_parse (bs "2,aSb") 32 = Some (8, bs "ab") /\
  exists s, imapd_flags_encode 24 (kept_letters (bs "ab")) 32 = Some s /\ imapd_flags_parse s 32 = Some (24, kept_letters (bs "ab")).
Proof. split; [vm_compute; reflexivity|]. apply (flags_survive_rename (bs "2,aSb") 8); [vm_compute; reflexivity|lia]. Defined.

(** A name with more than 15 unknown letters loses the others when its flags change,
    although every letter was read. *)
Lemma sixteenth_letter_lost :
  imapd_flags_parse (bs "2,abcdefghijklmnop") 32 = Some (0, bs "abcdefghijklmnop") /\
  imapd_flags_encode IMAIL_SEEN (kept_letters (bs "abcdefghijklmnop")) 32 = Some (bs "2,Sabcdefghijklmno").
Proof. split; vm_compute; reflexivity. Qed.

(** ** Message sets *)

(** One end of a range: a number or the star. *)
Inductive SeqEnd := SeqNum (n : Z) | SeqStar.

(** How an end is written: digits without a leading zero, within 32 bits. *)
Inductive writes_end : bytes -> SeqEnd -> Prop :=
  | we_star : writes_end (bs "*") SeqStar
  | we_num c ds : "1"%chr <= c <= "9"%chr -> Forall (fun d => is_digit d = true) ds ->
      dec_value 0 (c :: ds) <= UINT32_MAX -> writes_end (c :: ds) (SeqNum (dec_value 0 (c :: ds))).

Inductive writes_range : bytes -> SeqEnd * SeqEnd -> Prop :=
  | wr_one s e : writes_end s e -> writes_range s (e, e)
  | wr_two s e s' e' : writes_end s e -> writes_end s' e' -> writes_range (s ++ ":"%chr :: s') (e, e').

(** [sequence-set] of RFC 3501: ranges separated by commas. *)
Inductive writes_set : bytes -> list (SeqEnd * SeqEnd) -> Prop :=
  | ws_one s r : writes_range s r -> writes_set s [r]
  | ws_cons s r t rs : writes_range s r -> writes_set t rs -> writes_set (s ++ ","%chr :: t) (r :: rs).

Definition end_value (star : Z) (e : SeqEnd) : Z := match e with SeqNum n => n | SeqStar => star end.

(** A number is in a range whichever end is written first. *)
Definition in_range (n star : Z) (r : SeqEnd * SeqEnd) : Prop :=
  Z.min (end_value star r.1) (end_value star r.2) <= n <= Z.max (end_value star r.1) (end_value star r.2).

(** What can follow an end. *)
Definition no_digit_head (r : bytes) : Prop := forall c t, r = c :: t -> is_digit c = false.

Definition end_of_item (o : option Z) : SeqEnd := match o with None => SeqStar | Some n => SeqNum n end.

Lemma end_of_item_value star o : end_value star (end_of_item o) = default star o.
Proof. by destruct o. Qed.

Lemma seq_digits_read ds a r : Forall (fun d => is_digit d = true) ds -> 0 <= a -> dec_value a ds <= UINT32_MAX ->
  no_digit_head r -> seq_digits (ds ++ r) a = Some (dec_value a ds, r).
Proof.
  intros Hd. revert a. induction Hd as [|c ds Hc Hd IH]; intros a Ha Hv Hr; cbn [app seq_digits].
  - destruct r as [|c t]; [done|]. cbn [seq_digits]. by rewrite (Hr c t eq_refl).
  - rewrite Hc. change (dec_value a (c :: ds)) with (dec_value (a * 10 + (c - "0"%chr)) ds) in *.
    assert (Hge : a * 10 + (c - "0"%chr) <= dec_value (a * 10 + (c - "0"%chr)) ds).
    { unfold is_digit in Hc. generalize (a * 10 + (c - "0"%chr)) (ltac:(lia) : 0 <= a * 10 + (c - "0"%chr)).
      clear - Hd. induction Hd as [|d ds Hc Hd IH]; intros x Hx; [cbn; lia|].
      change (dec_value x (d :: ds)) with (dec_value (x * 10 + (d - "0"%chr)) ds). unfold is_digit in Hc.
      etransitivity; [|apply IH; lia]. lia. }
    destruct (Z.gtb_spec (a * 10 + (c - "0"%chr)) UINT32_MAX); [lia|].
    apply IH; [unfold is_digit in Hc; lia|done|done].
Qed.

Lemma seq_digits_inv s a v r : seq_digits s a = Some (v, r) ->
  exists ds, s = ds ++ r /\ Forall (fun d => is_digit d = true) ds /\ v = dec_value a ds /\ no_digit_head r /\
    (a <= UINT32_MAX -> v <= UINT32_MAX).
Proof.
  revert a. induction s as [|c t IH]; intros a H; cbn [seq_digits] in H.
  - simplify_eq. exists []. repeat split; [constructor|intros ? ? [=]|done].
  - destruct (is_digit c) eqn:Ec.
    + destruct (Z.gtb_spec (a * 10 + (c - "0"%chr)) UINT32_MAX); [done|].
      apply IH in H as (ds & -> & Hd & -> & Hr & Hv). exists (c :: ds). repeat split; [by constructor|done|auto].
    + simplify_eq. exists []. repeat split; [constructor| |done]. intros ? ? [= <- <-]. done.
Qed.

Lemma seq_item_read s e r : writes_end s e -> no_digit_head r ->
  exists o, seq_item (s ++ r) = Some (o, r) /\ end_of_item o = e.
Proof.
  intros Hw Hr. destruct Hw as [|c ds Hc Hd Hv]; [by exists None|].
  exists (Some (dec_value 0 (c :: ds))). split; [|done]. cbn [app seq_item].
  destruct (Z.eqb_spec c "*"%chr); [lia|]. rewrite (proj2 (Z.leb_le _ _)), (proj2 (Z.leb_le c _)) by lia. cbn [andb].
  change (c :: ds ++ r) with ((c :: ds) ++ r). rewrite seq_digits_read; [done| |lia|done|done].
  constructor; [unfold is_digit; lia|done].
Qed.

Lemma seq_item_inv s o r : seq_item s = Some (o, r) -> exists w, s = w ++ r /\ writes_end w (end_of_item o) /\
  (o <> None -> no_digit_head r).
Proof.
  destruct s as [|c t]; [done|]. cbn [seq_item]. destruct (Z.eqb_spec c "*"%chr) as [->|].
  - intros [= <- <-]. exists (bs "*"). repeat split; [constructor|done].
  - destruct (("1"%chr <=? c) && (c <=? "9"%chr)) eqn:Ec; [|done].
    destruct (seq_digits (c :: t) 0) as [[a r']|] eqn:Es; [|done]. intros [= <- <-].
    apply seq_digits_inv in Es as (ds & E & Hd & -> & Hr & Hv).
    destruct ds as [|c' ds].
    { cbn [app] in E. subst r'. specialize (Hr c t eq_refl). unfold is_digit in Hr. lia. }
    cbn [app] in E. injection E as <- ->. exists (c :: ds). repeat split; [|done].
    apply Forall_cons in Hd as [_ Hd]. constructor; [lia|done|]. apply Hv. unfold UINT32_MAX. lia.
Qed.

(** What can follow a range: the end or a comma. *)
Definition set_rest (r : bytes) : Prop := r = [] \/ exists t, r = ","%chr :: t.

Lemma set_rest_no_digit r : set_rest r -> no_digit_head r.
Proof. intros [->|[t ->]] c t' H; [done|]. by injection H as <- <-. Qed.

Lemma colon_no_digit r : no_digit_head (":"%chr :: r).
Proof. intros c t [= <- <-]. done. Qed.

(** The token of a range: its two bounds in order. *)
Lemma seqset_tok_read s rg r star : writes_range s rg -> set_rest r ->
  seqset_tok (s ++ r) star =
    Some (Z.min (end_value star rg.1) (end_value star rg.2), Z.max (end_value star rg.1) (end_value star rg.2), r).
Proof.
  intros Hw Hr. unfold seqset_tok. destruct Hw as [s e He|s e s' e' He He'].
  - destruct (seq_item_read s e r He (set_rest_no_digit r Hr)) as (o & -> & <-). cbn [fst snd].
    rewrite end_of_item_value. rewrite Z.min_id, Z.max_id.
    assert (forall z, (z >? z) = false) as Hgt by (intros z; destruct (Z.gtb_spec z z); [lia|done]).
    destruct Hr as [->|[t ->]]; cbv zeta; [|change (","%chr =? ":"%chr) with false; cbv iota]; by rewrite Hgt.
  - rewrite <- app_assoc. cbn [app]. destruct (seq_item_read s e _ He (colon_no_digit (s' ++ r))) as (o & -> & <-).
    rewrite Z.eqb_refl. destruct (seq_item_read s' e' r He' (set_rest_no_digit r Hr)) as (o' & -> & <-). cbn [fst snd].
    rewrite !end_of_item_value. destruct (Z.gtb_spec (default star o) (default star o')).
    + by rewrite Z.min_r, Z.max_l by lia.
    + by rewrite Z.min_l, Z.max_r by lia.
Qed.

Lemma seqset_tok_inv s star lo hi r : seqset_tok s star = Some (lo, hi, r) ->
  exists w rg, s = w ++ r /\ writes_range w rg /\ w <> [].
Proof.
  assert (Hne : forall w e, writes_end w e -> w <> []) by (by destruct 1).
  unfold seqset_tok. destruct (seq_item s) as [[a r1]|] eqn:E1; [|done].
  apply seq_item_inv in E1 as (w & -> & Hw & _). intros H.
  destruct r1 as [|c t].
  { exists w, (end_of_item a, end_of_item a). case_match; simplify_eq; repeat split; eauto using writes_range. }
  destruct (Z.eqb_spec c ":"%chr) as [->|].
  - destruct (seq_item t) as [[b r2]|] eqn:E2; [|done]. apply seq_item_inv in E2 as (w' & -> & Hw' & _).
    exists (w ++ ":"%chr :: w'), (end_of_item a, end_of_item b).
    case_match; simplify_eq; (split; [by rewrite <- app_assoc|]; split; [by constructor|]; intros ?%app_eq_nil; naive_solver).
  - exists w, (end_of_item a, end_of_item a). case_match; simplify_eq; repeat split; eauto using writes_range.
Qed.

Lemma writes_range_ne s rg : writes_range s rg -> s <> [].
Proof. destruct 1 as [? ? []|]; [done..|]. intros ?%app_eq_nil. naive_solver. Qed.

Lemma seqset_valid_read s rs fuel : writes_set s rs -> (length s < fuel)%nat -> seqset_valid_loop fuel s = true.
Proof.
  intros Hw. revert fuel. induction Hw as [s r Hr|s r t rs Hr Hw IH]; intros fuel Hf; destruct fuel as [|fuel]; [lia| |lia|]; cbn [seqset_valid_loop].
  - rewrite <- (app_nil_r s), (seqset_tok_read s r [] 1 Hr) by (by left). done.
  - rewrite (seqset_tok_read s r _ 1 Hr) by (right; eauto). rewrite Z.eqb_refl.
    apply IH. rewrite length_app in Hf. cbn [length] in Hf. lia.
Qed.

Lemma seqset_valid_inv s fuel : seqset_valid_loop fuel s = true -> exists rs, writes_set s rs.
Proof.
  revert s. induction fuel as [|fuel IH]; intros s H; [done|]. cbn [seqset_valid_loop] in H.
  destruct (seqset_tok s 1) as [[[lo hi] r]|] eqn:E; [|done].
  apply seqset_tok_inv in E as (w & rg & -> & Hw & _). destruct r as [|c t].
  - exists [rg]. rewrite app_nil_r. by constructor.
  - destruct (Z.eqb_spec c ","%chr) as [->|]; [|done]. apply IH in H as [rs Hrs]. exists (rg :: rs). by constructor.
Qed.

Lemma seqset_has_read s rs n star fuel : writes_set s rs -> (length s < fuel)%nat ->
  seqset_has_loop fuel s n star = true <-> Exists (in_range n star) rs.
Proof.
  assert (Hin : forall rg, ((n >=? Z.min (end_value star rg.1) (end_value star rg.2)) && (n <=? Z.max (end_value star rg.1) (end_value star rg.2))) = true
      <-> in_range n star rg) by (intros rg; unfold in_range; rewrite andb_true_iff; lia).
  intros Hw. revert fuel. induction Hw as [s r Hr|s r t rs Hr Hw IH]; intros fuel Hf; destruct fuel as [|fuel]; [lia| |lia|]; cbn [seqset_has_loop].
  - rewrite Exists_cons, Exists_nil, <- Hin. pose proof (writes_range_ne s r Hr). rewrite <- (app_nil_r s) at 2.
    rewrite (seqset_tok_read s r [] star Hr) by (by left). destruct s; [done|]. cbn [is_nil]. destruct (_ && _); naive_solver.
  - rewrite Exists_cons, <- Hin, (seqset_tok_read s r _ star Hr) by (right; eauto).
    assert (is_nil (s ++ ","%chr :: t) = false) as -> by (by destruct s).
    destruct (_ && _); [naive_solver|]. rewrite IH by (rewrite length_app in Hf; cbn [length] in Hf; lia). naive_solver.
Qed.

(** the sets the parser accepts are exactly the sequence sets of RFC 3501 with
    numbers of 32 bits, and a number is in an accepted set exactly when one of its
    ranges contains it, the star standing for the value given and a range meaning the
    same whichever end is written first. *)
Theorem seqset_exact (set : bytes) (n star : Z) (Hstar : star <> 0) :
  (imapd_seqset_valid set = true <-> exists rs, writes_set set rs) /\
  forall rs, writes_set set rs -> (imapd_seqset_has set n star = true <-> Exists (in_range n star) rs).
Proof.
  assert (Hne : forall rs, writes_set set rs -> is_nil set = false).
  { intros rs Hw. destruct set; [|done]. destruct (seqset_has_read [] rs n star 1 Hw ltac:(cbn; lia)) as [_ _].
    inversion Hw as [? ? Hr E|? ? ? ? Hr ? E]; [by apply writes_range_ne in Hr|by apply app_eq_nil in E as [_ ?]]. }
  split; [split|].
  - unfold imapd_seqset_valid. destruct (is_nil set); [done|]. apply seqset_valid_inv.
  - intros [rs Hw]. unfold imapd_seqset_valid. rewrite (Hne rs Hw). eapply seqset_valid_read; [done|lia].
  - intros rs Hw. unfold imapd_seqset_has. rewrite (proj2 (Z.eqb_neq star 0)) by done. apply seqset_has_read; [done|lia].
Qed.

Lemma seqset_exact_witness :
  imapd_seqset_valid (bs "7:3") = true /\ (imapd_seqset_has (bs "7:3") 5 9 = true <-> Exists (in_range 5 9) [(SeqNum 7, SeqNum 3)]).
Proof.
  destruct (seqset_exact (bs "7:3") 5 9 ltac:(lia)) as [_ H]. split; [reflexivity|]. apply H. constructor.
  apply (wr_two (bs "7") (SeqNum 7) (bs "3") (SeqNum 3)); [apply (we_num "7"%chr [])|apply (we_num "3"%chr [])];
    try lia; try constructor; vm_compute; discriminate.
Defined.

(** The star of a UID set stands for the next uid, which no message has: the set of the
    star alone matches no message. *)
Lemma uid_star_matches_nothing uid uidnext : 0 <= uid < uidnext -> imapd_seqset_has (bs "*") uid uidnext = false.
Proof.
  intros Hu. destruct (imapd_seqset_has (bs "*") uid uidnext) eqn:E; [|done].
  unfold imapd_seqset_has in E. rewrite (proj2 (Z.eqb_neq uidnext 0)) in E by lia.
  assert (Hw : writes_set (bs "*") [(SeqStar, SeqStar)]) by (repeat constructor).
  apply (seqset_has_read (bs "*") _ uid uidnext 2 Hw ltac:(cbn; lia)) in E. apply Exists_cons in E as [E|E]; [|by apply Exists_nil in E].
  unfold in_range in E. cbn in E. lia.
Qed.

(** ** Base64 *)

Lemma acc4_sum x y z w : 0 <= x < 64 -> 0 <= y < 64 -> 0 <= z < 64 -> 0 <= w < 64 ->
  u32 (b64_acc4 [x; y; z; w]) = x * 262144 + y * 4096 + z * 64 + w.
Proof.
  intros Hx Hy Hz Hw. unfold b64_acc4. cbn [nth]. rewrite <- !Z.lor_assoc.
  rewrite (lor_shift z w 6) by lia. rewrite (lor_shift y _ 12) by lia. rewrite (lor_shift x _ 18) by lia.
  unfold u32. rewrite Z.mod_small by lia. lia.
Qed.

(** The three bytes read off the accumulator of a group. *)
Lemma acc_bytes a b c : 0 <= a < 256 -> 0 <= b < 256 -> 0 <= c < 256 ->
  let acc := a / 4 * 262144 + (a mod 4 * 16 + b / 16) * 4096 + (b mod 16 * 4 + c / 64) * 64 + c mod 64 in
  [Z.land (Z.shiftr acc 16) 255; Z.land (Z.shiftr acc 8) 255; Z.land acc 255] = [a; b; c].
Proof.
  intros Ha Hb Hc acc. rewrite !land255, !Z.shiftr_div_pow2 by lia.
  change (2 ^ 16) with 65536. change (2 ^ 8) with 256.
  assert (acc = a * 65536 + b * 256 + c) as -> by (subst acc; Z.to_euclidean_division_equations; lia).
  repeat f_equal; Z.to_euclidean_division_equations; lia.
Qed.

(** A digit of the encoder in a group: its value is kept. *)
Lemma quad_digit x sh t j v last :
  b64_quad (b64_digit x sh :: t) j 0 v last = b64_quad t (j + 1) 0 (v ++ [Z.land (Z.shiftr x sh) 63]) last.
Proof.
  destruct (b64_digit_spec x sh) as (d & Hd & <- & Hv & Hne). cbn [b64_quad].
  rewrite (proj2 (Z.eqb_neq _ _) Hne). cbn [Z.gtb Z.compare].
  change (MailStore.b64_val (b64_digit x sh)) with (OutboxAuth.b64_val (b64_digit x sh)). rewrite Hv.
  by destruct (Z.ltb_spec d 0); [lia|].
Qed.

Lemma quad_pad t j pad v : 2 <= j -> b64_quad ("="%chr :: t) j pad v true = b64_quad t (j + 1) (pad + 1) (v ++ [0]) true.
Proof. intros Hj. cbn [b64_quad]. rewrite Z.eqb_refl. cbn [negb orb]. by destruct (Z.ltb_spec j 2); [lia|]. Qed.

(** One group whose digits are those of the bytes [a], [b] and [c]. *)
Lemma b64_group w x y z t pad a b c outsz out :
  is_byte a = true -> is_byte b = true -> is_byte c = true -> 0 <= pad <= 2 ->
  b64_quad [w; x; y; z] 0 0 [] (is_nil t) = Some ([a / 4; a mod 4 * 16 + b / 16; b mod 16 * 4 + c / 64; c mod 64], pad) ->
  (length out + Z.to_nat (3 - pad) <= outsz)%nat ->
  b64_groups (w :: x :: y :: z :: t) outsz out = b64_groups t outsz (out ++ take (Z.to_nat (3 - pad)) [a; b; c]).
Proof.
  unfold is_byte. intros Ha Hb Hc Hp Hq Hl. cbn [b64_groups]. rewrite Hq.
  rewrite acc4_sum by (Z.to_euclidean_division_equations; lia). rewrite acc_bytes by lia.
  by destruct (Nat.ltb_spec outsz (length out + Z.to_nat (3 - pad))); [lia|].
Qed.

Lemma b64_groups_encode s outsz out : bytes_ok s -> (length out + length s <= outsz)%nat ->
  b64_groups (b64_encode_loop s) outsz out = Some (out ++ s).
Proof.
  assert (H0 : is_byte 0 = true) by done.
  revert out. induction s as [s IH] using bytes_len_ind. intros out Hs Hl.
  destruct s as [|a [|b [|c t]]]; cbn [b64_encode_loop length] in *.
  - by rewrite app_nil_r.
  - apply Forall_cons in Hs as [Ha _]. destruct (group_digits a 0 0 Ha H0 H0) as (D1 & D2 & _).
    change (Z.shiftl 0 8) with 0 in D1, D2. rewrite !Z.lor_0_r in D1, D2.
    rewrite (b64_group _ _ _ _ [] 2 a 0 0); [done..| |cbn; lia].
    cbn [is_nil]. rewrite !quad_digit, !quad_pad by lia. cbn [b64_quad app]. by rewrite D1, D2.
  - apply Forall_cons in Hs as [Ha [Hb _]%Forall_cons]. destruct (group_digits a b 0 Ha Hb H0) as (D1 & D2 & D3 & _).
    rewrite !Z.lor_0_r in D1, D2, D3.
    rewrite (b64_group _ _ _ _ [] 1 a b 0); [done..| |cbn; lia].
    cbn [is_nil]. rewrite !quad_digit, !quad_pad by lia. cbn [b64_quad app]. by rewrite D1, D2, D3.
  - apply Forall_cons in Hs as [Ha [Hb [Hc Ht]%Forall_cons]%Forall_cons].
    destruct (group_digits a b c Ha Hb Hc) as (D1 & D2 & D3 & D4).
    rewrite (b64_group _ _ _ _ _ 0 a b c); [|done..| |cbn; lia].
    + change (take (Z.to_nat (3 - 0)) [a; b; c]) with [a; b; c].
      rewrite IH; [by rewrite <- app_assoc|cbn [length]; lia|done|rewrite length_app; cbn [length]; lia].
    + rewrite !quad_digit. cbn [b64_quad app]. by rewrite D1, D2, D3, D4.
Qed.

Lemma b64_encode_mod4 s : (length (b64_encode_loop s) mod 4 = 0)%nat.
Proof.
  induction s as [s IH] using bytes_len_ind. destruct s as [|a [|b [|c t]]]; [done..|]. cbn [b64_encode_loop length].
  replace (S (S (S (S (length (b64_encode_loop t)))))) with (length (b64_encode_loop t) + 1 * 4)%nat by lia.
  rewrite Nat.Div0.mod_add. apply IH. cbn [length]. lia.
Qed.

(** the base64 decoder of the mailbox server inverts the encoder of the SMTP
    client on every byte string that fits its buffer, as the decoder of the submission
    server does. *)
Theorem imapd_b64_round_trip (s : bytes) (outsz : nat) (Hs : bytes_ok s) (Hfit : (length s <= outsz)%nat) :
  imapd_b64_decode (b64_encode_loop s) outsz = Some s /\
  outbox_b64_decode (b64_encode_loop s) outsz = imapd_b64_decode (b64_encode_loop s) outsz.
Proof.
  assert (imapd_b64_decode (b64_encode_loop s) outsz = Some s) as E.
  { unfold imapd_b64_decode. rewrite b64_encode_mod4. cbn [Nat.eqb negb]. by rewrite b64_groups_encode. }
  split; [done|]. rewrite E. by apply b64_decode_encode.
Qed.

Lemma imapd_b64_round_trip_witness : imapd_b64_decode (b64_encode_loop [0; 255; 7]) 3 = Some [0; 255; 7].
Proof. apply (imapd_b64_round_trip [0; 255; 7] 3); [repeat constructor|cbn; lia]. Defined.

(** ** Wildcards *)

(** What IMAP means by a pattern: a star stands for any run, a percent sign for a run
    without a dot, any other byte for itself in either case. *)
Inductive wild : bytes -> bytes -> Prop :=
  | wild_nil : wild [] []
  | wild_star p u s : wild p s -> wild ("*"%chr :: p) (u ++ s)
  | wild_percent p u s : "."%chr ∉ u -> wild p s -> wild ("%"%chr :: p) (u ++ s)
  | wild_char c d p s : c <> "*"%chr -> c <> "%"%chr -> tolower c = tolower d -> wild p s -> wild (c :: p) (d :: s).

(** Every wildcard ends the pattern or stands before a byte, a percent sign not before a
    dot. *)
Fixpoint wild_plain (pat : bytes) : bool :=
  match pat with
  | [] => true
  | p :: t =>
      (if (p =? "*"%chr) || (p =? "%"%chr) then
         match t with
         | [] => true
         | c :: _ => negb (c =? "*"%chr) && negb (c =? "%"%chr) && negb ((p =? "%"%chr) && (c =? "."%chr))
         end
       else true) && wild_plain t
  end.

Lemma star_loop_spec f str : star_loop f str = true <-> exists u s, str = u ++ s /\ s <> [] /\ f s = true.
Proof.
  induction str as [|c t IH]; cbn [star_loop].
  { split; [done|]. intros (u & s & E & Hs & _). symmetry in E. by apply app_eq_nil in E as [_ ?]. }
  destruct (f (c :: t)) eqn:E; [split; [|done]; intros _; by exists [], (c :: t)|].
  rewrite IH. split; [intros (u & s & -> & Hs & Hf); by exists (c :: u), s|].
  intros ([|d u] & s & E' & Hs & Hf); cbn [app] in E'; [congruence|]. injection E' as <- ->. by exists u, s.
Qed.

Lemma percent_loop_spec f str : percent_loop f str = true <->
  exists u c s, str = u ++ c :: s /\ "."%chr ∉ u /\ c <> "."%chr /\ f (c :: s) = true.
Proof.
  induction str as [|c t IH]; cbn [percent_loop].
  { split; [done|]. intros (u & c & s & E & _). by destruct u. }
  destruct (Z.eqb_spec c "."%chr) as [->|Hc].
  - split; [done|]. intros ([|d u] & c & s & E & Hu & Hc & _); cbn [app] in E; injection E as <- ->; [done|].
    rewrite not_elem_of_cons in Hu. naive_solver.
  - destruct (f (c :: t)) eqn:E; [split; [|done]; intros _; exists [], c, t; repeat split; [apply not_elem_of_nil|done|done]|].
    rewrite IH. split; [intros (u & d & s & -> & Hu & Hd & Hf); exists (c :: u), d, s; rewrite not_elem_of_cons; naive_solver|].
    intros ([|d u] & d' & s & E' & Hu & Hd & Hf); cbn [app] in E'; injection E' as <- ->; [congruence|].
    apply not_elem_of_cons in Hu as [_ Hu]. by exists u, d', s.
Qed.

Lemma wildmat_sound pat str : imapd_wildmat pat str = true -> wild pat str.
Proof.
  revert str. induction pat as [|p t IH]; intros str H; cbn [imapd_wildmat] in H; [destruct str; [constructor|done]|].
  destruct (Z.eqb_spec p "*"%chr) as [->|Hp].
  - destruct t as [|c t]; cbn [is_nil] in H.
    + rewrite <- (app_nil_r str). repeat constructor.
    + apply star_loop_spec in H as (u & s & -> & _ & H). constructor. by apply IH.
  - destruct (Z.eqb_spec p "%"%chr) as [->|Hp'].
    + destruct t as [|c t]; cbn [is_nil] in H.
      * rewrite <- (app_nil_r str). constructor; [|constructor]. apply negb_true_iff in H. by apply has_false.
      * apply percent_loop_spec in H as (u & d & s & -> & Hu & _ & H). constructor; [done|]. by apply IH.
    + destruct str as [|d s]; [done|]. destruct (Z.eqb_spec (tolower p) (tolower d)); [|done]. constructor; auto.
Qed.

Lemma tolower_dot d : tolower d = "."%chr -> d = "."%chr.
Proof. unfold tolower. destruct (_ && _) eqn:E; lia. Qed.

(** A pattern that starts with a byte matches a string that starts with it. *)
Lemma wild_char_inv c p s : c <> "*"%chr -> c <> "%"%chr -> wild (c :: p) s ->
  exists d t, s = d :: t /\ tolower c = tolower d.
Proof. intros H1 H2 H. inversion H; subst; try done. eauto. Qed.

Lemma wildmat_complete pat str : wild_plain pat = true -> wild pat str -> imapd_wildmat pat str = true.
Proof.
  intros Hp Hw. induction Hw as [|p u s Hw IH|p u s Hu Hw IH|c d p s Hc1 Hc2 Hcd Hw IH];
    cbn [imapd_wildmat wild_plain] in *; [done|..].
  - apply andb_true_iff in Hp as [Hn Hp]. rewrite Z.eqb_refl in Hn. cbn [orb] in Hn. destruct p as [|c p]; [done|]. cbn [is_nil].
    rewrite !andb_true_iff, !negb_true_iff, !Z.eqb_neq in Hn. destruct Hn as [[H1 H2] _].
    apply star_loop_spec. exists u, s. destruct (wild_char_inv c p s H1 H2 Hw) as (d & t & -> & _). auto.
  - change ("%"%chr =? "*"%chr) with false in *. change ("%"%chr =? "%"%chr) with true in *. cbn [orb] in Hp.
    apply andb_true_iff in Hp as [Hn Hp]. destruct p as [|c p]; cbn [is_nil].
    + inversion Hw; subst. rewrite app_nil_r. apply negb_true_iff. by apply has_false.
    + cbn [andb] in Hn. rewrite !andb_true_iff, !negb_true_iff, !Z.eqb_neq in Hn. destruct Hn as [[H1 H2] H3].
      destruct (wild_char_inv c p s H1 H2 Hw) as (d & t & -> & Hd).
      apply percent_loop_spec. exists u, d, t. repeat split; [done| |auto].
      intros ->. apply H3. by apply tolower_dot.
  - rewrite !(proj2 (Z.eqb_neq c _)) by done. rewrite Hcd, Z.eqb_refl. rewrite !(proj2 (Z.eqb_neq c _)) in Hp by done. auto.
Qed.

(** a name the wildcard matcher accepts matches the pattern in the sense of IMAP;
    conversely it accepts every such name when no wildcard stands before another one
    and no percent sign before a dot. *)
Theorem wildmat_exact (pat str : bytes) :
  (imapd_wildmat pat str = true -> wild pat str) /\
  (wild_plain pat = true -> (imapd_wildmat pat str = true <-> wild pat str)).
Proof. split; [apply wildmat_sound|]. intros Hp. split; [apply wildmat_sound|by apply wildmat_complete]. Qed.

Lemma wildmat_exact_witness : imapd_wildmat (bs "a*.%") (bs "Ab.c") = true <-> wild (bs "a*.%") (bs "Ab.c").
Proof. apply (wildmat_exact (bs "a*.%") (bs "Ab.c")). vm_compute. reflexivity. Defined.

(** A percent sign before a dot matches nothing, and neither does a doubled wildcard
    at the end of a name. *)
Lemma percent_dot_matches_nothing pat str : imapd_wildmat ("%"%chr :: "."%chr :: pat) str = false.
Proof.
  destruct (imapd_wildmat _ str) eqn:E; [|done]. cbn [imapd_wildmat] in E.
  change ("%"%chr =? "*"%chr) with false in E. change ("%"%chr =? "%"%chr) with true in E. cbn [is_nil] in E.
  apply percent_loop_spec in E as (u & c & s & -> & _ & Hc & E). cbn [imapd_wildmat] in E.
  change ("."%chr =? "*"%chr) with false in E. change ("."%chr =? "%"%chr) with false in E.
  destruct (Z.eqb_spec (tolower "."%chr) (tolower c)) as [Hd|]; [|done]. symmetry in Hd. by apply tolower_dot in Hd.
Qed.

Lemma percent_dot_should_match : wild (bs "%.b") (bs "a.b").
Proof. apply (wild_percent (bs ".b") (bs "a") (bs ".b")); [by vm_compute; intros ?%list_elem_of_singleton|]. repeat constructor; discriminate. Qed.

(** ** Names and directories *)

(** One path component that stays inside its directory. *)
Definition component (s : bytes) : Prop := s <> [] /\ "/"%chr ∉ s /\ 0 ∉ s /\ s <> bs "." /\ s <> bs "..".

Lemma user_ok_component u : imapd_user_ok u = true -> component u /\ "+"%chr ∉ u.
Proof.
  unfold imapd_user_ok. destruct u as [|c u]; [done|]. destruct (Z.eqb_spec c "."%chr) as [|Hc]; [done|].
  destruct (forallb user_char (c :: u)) eqn:E; [|done]. intros _. apply forallb_Forall in E.
  assert (Hno : forall x, user_char x = false -> x ∉ c :: u).
  { intros x Hx Hin. rewrite Forall_forall in E. apply E in Hin. congruence. }
  repeat split; try done; try (apply Hno; reflexivity); intros [= ->]; done.
Qed.

Lemma name_ok_component n : imapd_mbox_name_ok n = true -> component n /\ head n <> Some "."%chr.
Proof.
  unfold imapd_mbox_name_ok. destruct n as [|c n]; [done|]. destruct (Z.eqb_spec c "."%chr) as [|Hc]; [done|].
  destruct (forallb mbox_char (c :: n)) eqn:E; [|done]. intros _. apply forallb_Forall in E.
  assert (Hno : forall x, mbox_char x = false -> x ∉ c :: n).
  { intros x Hx Hin. rewrite Forall_forall in E. apply E in Hin. congruence. }
  repeat split; try done; try (apply Hno; reflexivity); intros [= ->]; done.
Qed.

Lemma component_app_inj u d u' d' : "/"%chr ∉ u -> "/"%chr ∉ u' ->
  u ++ bs "/" ++ d = u' ++ bs "/" ++ d' -> u = u' /\ d = d'.
Proof.
  intros Hu Hu' E. change (u ++ "/"%chr :: d = u' ++ "/"%chr :: d') in E.
  pose proof (cut_app _ u d Hu) as H1. rewrite E, (cut_app _ u' d' Hu') in H1. by simplify_eq.
Qed.

(** The last component of the directory of a mailbox. *)
Definition mbox_leaf (name : bytes) : bytes := if ieq name (bs "INBOX") then bs "Inbox" else "."%chr :: name.

Lemma mbox_dir_spec root user name outsz p : imapd_mbox_dir root user name outsz = Some p <->
  imapd_user_ok user = true /\ (ieq name (bs "INBOX") = true \/ imapd_mbox_name_ok name = true) /\
  p = root ++ bs "/" ++ user ++ bs "/" ++ mbox_leaf name /\ len p < outsz.
Proof.
  unfold imapd_mbox_dir, mbox_leaf. destruct (imapd_user_ok user); [cbn [negb]|naive_solver].
  destruct (ieq name (bs "INBOX")).
  - change (bs "/Inbox") with (bs "/" ++ bs "Inbox"). destruct (Z.leb_spec outsz (len (root ++ bs "/" ++ user ++ bs "/" ++ bs "Inbox")));
      split; [naive_solver| |naive_solver|]; (intros (_ & _ & -> & ?); [lia|done]) || naive_solver lia.
  - destruct (imapd_mbox_name_ok name); [cbn [negb]|naive_solver].
    change (bs "/." ++ name) with (bs "/" ++ "."%chr :: name). destruct (Z.leb_spec outsz (len (root ++ bs "/" ++ user ++ bs "/" ++ "."%chr :: name)));
      naive_solver lia.
Qed.

Lemma mbox_leaf_component name : ieq name (bs "INBOX") = true \/ imapd_mbox_name_ok name = true -> component (mbox_leaf name).
Proof.
  unfold mbox_leaf. destruct (ieq name (bs "INBOX")) eqn:E.
  - intros _. unfold component. repeat split; try discriminate; apply has_false; reflexivity.
  - intros [?|H]; [done|]. apply name_ok_component in H as ((Hn & H1 & H2 & _) & Hh).
    repeat split; try discriminate; try (rewrite not_elem_of_cons; split; [discriminate|done]); intros [= ->]; done.
Qed.

(** the directory of a mailbox is the user below the root and one component below
    the user, none of them able to leave its parent, and two mailboxes share a
    directory exactly when they are the same mailbox of the same user, INBOX being one
    name in every case. *)
Theorem mbox_dir_isolated (root user name : bytes) (outsz : Z) (p : bytes)
    (Hdir : imapd_mbox_dir root user name outsz = Some p) :
  (exists leaf, p = root ++ bs "/" ++ user ++ bs "/" ++ leaf /\ component user /\ component leaf /\ len p < outsz) /\
  forall user' name' p', imapd_mbox_dir root user' name' outsz = Some p' ->
    (p = p' <-> user = user' /\ (name = name' \/ (ieq name (bs "INBOX") = true /\ ieq name' (bs "INBOX") = true))).
Proof.
  apply mbox_dir_spec in Hdir as (Hu & Hn & -> & Hl). apply user_ok_component in Hu as [Hu _]. split.
  { exists (mbox_leaf name). repeat split; try apply Hu; try done; by apply mbox_leaf_component. }
  intros user' name' p' Hd. apply mbox_dir_spec in Hd as (Hu' & Hn' & -> & Hl'). apply user_ok_component in Hu' as [Hu' _].
  destruct Hu as (_ & Hs & _), Hu' as (_ & Hs' & _). split.
  - intros E. apply app_inv_head, app_inv_head, component_app_inj in E as [-> E]; [|done..]. split; [done|].
    unfold mbox_leaf in E. destruct (ieq name _), (ieq name' _); [by right|discriminate E|discriminate E|]. left. congruence.
  - intros [-> [->|[E E']]]; [done|]. unfold mbox_leaf. by rewrite E, E'.
Qed.

Lemma mbox_dir_isolated_witness :
  exists p, imapd_mbox_dir (bs "/m") (bs "al") (bs "inbox") 99 = Some p /\
    (p = bs "/m/al/Inbox" <-> bs "al" = bs "al" /\ (bs "inbox" = bs "INBOX" \/ ieq (bs "inbox") (bs "INBOX") = true /\ ieq (bs "INBOX") (bs "INBOX") = true)).
Proof.
  eexists. split; [vm_compute; reflexivity|].
  apply (mbox_dir_isolated (bs "/m") (bs "al") (bs "inbox") 99 (bs "/m/al/Inbox")); vm_compute; reflexivity.
Defined.

(** The target of a delivery: the local part up to its first plus sign is the user, and
    what follows it the folder. *)
Lemma delivery_target_spec local usersz foldersz user folder :
  imapd_delivery_target local usersz foldersz = Some (user, folder) <->
  imapd_user_ok user = true /\ (length user < usersz)%nat /\ (length folder < foldersz)%nat /\
  ((local = user /\ folder = bs "INBOX") \/ (local = user ++ "+"%chr :: folder /\ imapd_mbox_name_ok folder = true)).
Proof.
  assert (Htw : forall u r, "+"%chr ∉ u -> take_while (fun c => negb (c =? "+"%chr)) (u ++ "+"%chr :: r) = u).
  { intros u r Hu. rewrite take_while_app_all, take_while_stop by (try reflexivity; apply Forall_forall; intros x Hx; apply negb_true_iff, Z.eqb_neq; congruence).
    by rewrite app_nil_r. }
  assert (Hid : forall u, "+"%chr ∉ u -> take_while (fun c => negb (c =? "+"%chr)) u = u).
  { intros u Hu. apply take_while_id, Forall_forall. intros x Hx. apply negb_true_iff, Z.eqb_neq. congruence. }
  unfold imapd_delivery_target. split.
  - destruct (is_nil local); [done|].
    pose proof (cut_spec "+"%chr local) as Hc.
    destruct (cut "+"%chr local) as [[u r]|]; [destruct Hc as [-> Hu]; rewrite (Htw u r Hu)|rewrite (Hid local Hc)];
      destruct (_ || _) eqn:Eo; [done| |done|]; apply orb_false_iff in Eo as [_ Eo]; apply Nat.leb_gt in Eo.
    + destruct (imapd_user_ok u) eqn:Eu; [|done]. cbn [negb]. destruct (Nat.leb_spec foldersz (length r)); [done|].
      destruct (imapd_mbox_name_ok r) eqn:En; [|done]. intros [= <- <-]. auto 10.
    + destruct (imapd_user_ok local) eqn:Eu; [|done]. cbn [negb].
      destruct (Nat.leb_spec foldersz (length (bs "INBOX"))); [done|]. intros [= <- <-]. auto 10.
  - intros (Hu & Hl & Hf & H). destruct (user_ok_component user Hu) as ((Hne & _) & Hp).
    assert (is_nil user = false) as Hnil by (by destruct user).
    destruct H as [[-> ->]|[-> Hn]].
    + rewrite Hnil, (cut_none _ _ Hp), (Hid _ Hp), Hnil. cbn [orb]. rewrite (proj2 (Nat.leb_gt _ _)) by done. rewrite Hu. cbn [negb].
      by rewrite (proj2 (Nat.leb_gt _ _)) by done.
    + assert (is_nil (user ++ "+"%chr :: folder) = false) as -> by (by destruct user).
      rewrite (cut_app _ _ _ Hp), (Htw _ _ Hp), Hnil. cbn [orb]. rewrite (proj2 (Nat.leb_gt _ _)) by done. rewrite Hu. cbn [negb].
      rewrite (proj2 (Nat.leb_gt _ _)) by done. by rewrite Hn.
Qed.

(** ** Files of lines *)

(** The lines of a file, the last one with or without its newline. *)
Fixpoint lf_lines_fuel (fuel : nat) (p : bytes) : list bytes :=
  match fuel, p with
  | O, _ | _, [] => []
  | S fuel', _ => line_of p :: lf_lines_fuel fuel' (eat LF (after_line p)).2
  end.

Definition lf_lines (p : bytes) : list bytes := lf_lines_fuel (length p) p.

Lemma lf_split (p : bytes) : p = [] \/ (p <> [] /\ LF ∉ p) \/ exists l r, LF ∉ l /\ p = l ++ LF :: r.
Proof.
  pose proof (cut_spec LF p) as H. destruct (cut LF p) as [[l r]|]; [right; right; exists l, r; naive_solver|].
  destruct p; [by left|right; left; by split].
Qed.

Lemma line_of_clean l : LF ∉ l -> line_of l = l /\ after_line l = [].
Proof.
  intros H. assert (Forall (fun c => negb (c =? LF) = true) l).
  { apply Forall_forall. intros x Hx. apply negb_true_iff, Z.eqb_neq. congruence. }
  split; [by apply take_while_id|by apply drop_while_nil].
Qed.

Lemma line_of_lf l r : LF ∉ l -> line_of (l ++ LF :: r) = l /\ eat LF (after_line (l ++ LF :: r)) = ([LF], r).
Proof.
  intros H. assert (Forall (fun c => negb (c =? LF) = true) l).
  { apply Forall_forall. intros x Hx. apply negb_true_iff, Z.eqb_neq. congruence. }
  unfold line_of, after_line. rewrite take_while_app_all, drop_while_app_all by done.
  rewrite take_while_stop, drop_while_stop, app_nil_r by reflexivity. done.
Qed.

(** Induction along the lines. *)
Lemma lf_ind (P : bytes -> Prop) :
  P [] -> (forall l, l <> [] -> LF ∉ l -> P l) -> (forall l r, LF ∉ l -> P r -> P (l ++ LF :: r)) -> forall p, P p.
Proof.
  intros H1 H2 H3 p. induction p as [p IH] using bytes_len_ind.
  destruct (lf_split p) as [->|[[Hne Hl]|(l & r & Hl & ->)]]; [done|auto|].
  apply H3; [done|]. apply IH. rewrite length_app. cbn [length]. lia.
Qed.

(** A loop along the lines, from what it does on each kind of line. *)
Lemma lf_lines_enough fuel p : (length p <= fuel)%nat -> lf_lines_fuel fuel p = lf_lines p.
Proof.
  unfold lf_lines. revert fuel. induction p as [|l Hne Hl|l r Hl IH] using lf_ind; intros fuel Hf.
  - by destruct fuel.
  - destruct l as [|c l]; [done|]. destruct fuel as [|fuel]; [cbn in Hf; lia|]. cbn [lf_lines_fuel length].
    destruct (line_of_clean _ Hl) as [-> ->]. cbn [eat snd]. by destruct fuel, (length l).
  - assert (exists c t, l ++ LF :: r = c :: t) as (c & t & E) by (destruct l; cbn; eauto).
    assert (Hlen : length (l ++ LF :: r) = S (length t)) by (by rewrite E).
    destruct fuel as [|fuel]; [lia|]. rewrite Hlen. destruct (line_of_lf l r Hl) as [El Ee].
    rewrite E in *. cbn [lf_lines_fuel]. rewrite El, Ee. cbn [snd]. f_equal.
    assert (length r <= length t)%nat.
    { apply (f_equal length) in E. rewrite length_app in E. cbn [length] in E. lia. }
    rewrite (IH fuel), (IH (length t)) by (cbn in Hf; lia). done.
Qed.

Lemma lf_lines_lf l r : LF ∉ l -> lf_lines (l ++ LF :: r) = l :: lf_lines r.
Proof.
  intros Hl. unfold lf_lines at 1. destruct (line_of_lf l r Hl) as [El Ee].
  assert (exists c t, l ++ LF :: r = c :: t) as (c & t & E) by (destruct l; cbn; eauto).
  rewrite E in *. cbn [length lf_lines_fuel]. rewrite El, Ee. cbn [snd]. f_equal. apply lf_lines_enough.
  apply (f_equal length) in E. rewrite length_app in E. cbn [length] in E. lia.
Qed.

Lemma lf_lines_last l : l <> [] -> LF ∉ l -> lf_lines l = [l].
Proof.
  intros Hne Hl. destruct l as [|c l]; [done|]. unfold lf_lines. cbn [length lf_lines_fuel].
  destruct (line_of_clean _ Hl) as [-> ->]. cbn [eat snd]. by destruct (length l).
Qed.

(** A newline is added where the last one is missing; a line added behind is a line. *)
Definition lf_end (buf : bytes) : bytes := match last buf with Some c => if c =? LF then [] else [LF] | None => [] end.

Lemma last_app_cons (l : bytes) c r : last (l ++ c :: r) = last (c :: r).
Proof. rewrite last_app. destruct (last (c :: r)) eqn:E; [done|]. by apply last_None in E. Qed.

Lemma lf_lines_snoc buf name : LF ∉ name -> lf_lines (buf ++ lf_end buf ++ name ++ [LF]) = lf_lines buf ++ [name].
Proof.
  intros Hn. assert (Hone : lf_lines (name ++ [LF]) = [name]) by (by rewrite lf_lines_lf).
  induction buf as [|l Hne Hl|l r Hl IH] using lf_ind.
  - exact Hone.
  - assert (lf_end l = [LF]) as ->.
    { unfold lf_end. destruct (last l) as [c|] eqn:E; [|by apply last_None in E].
      destruct (Z.eqb_spec c LF) as [->|]; [|done]. destruct Hl. apply last_split in E as ->. apply elem_of_app. right. by left. }
    rewrite (lf_lines_last l Hne Hl). cbn [app]. rewrite (lf_lines_lf l) by done. by rewrite Hone.
  - assert (lf_end (l ++ LF :: r) = lf_end r) as ->.
    { unfold lf_end. rewrite last_app_cons. destruct r as [|c r]; [done|]. by rewrite last_cons_some. }
    rewrite <- app_assoc. cbn [app]. rewrite !lf_lines_lf by done. by rewrite IH.
Qed.

(** ** The subscription file *)

Lemma sub_has_lines fuel p name : (length p <= fuel)%nat -> sub_has_loop fuel p name = existsb (beq name) (lf_lines p).
Proof.
  intros Hf. rewrite <- (lf_lines_enough fuel p Hf). clear Hf. revert p. induction fuel as [|fuel IH]; intros p; [done|].
  destruct p as [|c p]; [done|]. cbn [sub_has_loop lf_lines_fuel existsb]. rewrite IH.
  assert (beq name (line_of (c :: p)) = beq (line_of (c :: p)) name) as ->.
  { apply Bool.eq_iff_eq_true. rewrite !beq_spec. naive_solver. }
  by destruct (beq _ _).
Qed.

Lemma sub_drop_lines fuel p name : (length p <= fuel)%nat ->
  lf_lines (sub_drop_loop fuel p name) = filter (fun l => l <> name) (lf_lines p).
Proof.
  revert fuel. induction p as [|l Hne Hl|l r Hl IH] using lf_ind; intros fuel Hf.
  - by destruct fuel.
  - destruct l as [|c l]; [done|]. destruct fuel as [|fuel]; [cbn in Hf; lia|]. cbn [sub_drop_loop].
    destruct (line_of_clean _ Hl) as [-> ->]. cbn [eat]. rewrite (lf_lines_last _ Hne Hl), filter_cons, filter_nil.
    assert (Hz : forall n, sub_drop_loop n [] name = []) by (by intros []). rewrite Hz. cbn [app]. rewrite app_nil_r.
    destruct (beq (c :: l) name) eqn:E.
    + apply beq_spec in E. rewrite decide_False by naive_solver. done.
    + rewrite decide_True; [by apply lf_lines_last|]. intros H. by rewrite H, beq_refl in E.
  - assert (exists c t, l ++ LF :: r = c :: t) as (c & t & E) by (destruct l; cbn; eauto).
    assert (Hlen : length (l ++ LF :: r) = S (length t)) by (by rewrite E).
    destruct fuel as [|fuel]; [lia|]. destruct (line_of_lf l r Hl) as [El Ee]. rewrite (lf_lines_lf l r Hl), filter_cons.
    rewrite length_app in Hf. cbn [length] in Hf. rewrite E in *. cbn [sub_drop_loop]. rewrite El, Ee.
    destruct (beq l name) eqn:Eb.
    + apply beq_spec in Eb. rewrite decide_False by naive_solver. apply IH. lia.
    + rewrite decide_True by (intros H; by rewrite H, beq_refl in Eb). cbn [app].
      rewrite lf_lines_lf by done. f_equal. apply IH. lia.
Qed.

(** The names a file records. *)
Definition recorded (file : option bytes) : list bytes := match file with None => [] | Some buf => lf_lines (c_str buf) end.

Lemma sub_has_recorded file name : imapd_sub_has file name = existsb (beq name) (recorded file).
Proof. destruct file as [buf|]; [|done]. by apply sub_has_lines. Qed.

Lemma existsb_beq name ls : existsb (beq name) ls = true <-> name ∈ ls.
Proof.
  rewrite existsb_exists. setoid_rewrite beq_spec. split; [intros (x & Hx & ->); by apply list_elem_of_In|].
  intros H. exists name. split; [by apply list_elem_of_In|done].
Qed.

Lemma lf_end_clean buf : 0 ∉ buf -> 0 ∉ lf_end buf.
Proof. intros _. unfold lf_end. repeat case_match; try apply not_elem_of_nil. by intros ?%list_elem_of_singleton. Qed.

Lemma sub_drop_sub fuel p name x : x ∈ sub_drop_loop fuel p name -> x ∈ p.
Proof.
  revert p. induction fuel as [|fuel IH]; intros p; [cbn [sub_drop_loop]; set_solver|]. destruct p as [|c p]; [cbn [sub_drop_loop]; set_solver|]. cbn [sub_drop_loop].
  pose proof (take_drop_while (fun c => negb (c =? LF)) (c :: p)) as E. fold (line_of (c :: p)) (after_line (c :: p)) in E.
  pose proof (eat_app LF (after_line (c :: p))) as E'. destruct (eat LF (after_line (c :: p))) as [nl r]. cbn [fst snd] in E'.
  rewrite <- E' in E. intros Hx. rewrite <- E. destruct (beq _ _); [apply IH in Hx; set_solver|].
  rewrite !elem_of_app in *. destruct Hx as [?|[?|Hx%IH]]; auto.
Qed.

(** after a subscription is written the file records the name exactly when it was
    added, and records every other name as before. *)
Theorem sub_write_exact (file : option bytes) (name : bytes) (add : bool)
    (Hfile : 0 ∉ default [] file) (Hname : LF ∉ name /\ 0 ∉ name) :
  let file' := sub_file_after file name add in
  imapd_sub_has file' name = add /\
  forall other, other <> name -> imapd_sub_has file' other = imapd_sub_has file other.
Proof.
  destruct Hname as [Hlf H0]. cbv zeta. unfold sub_file_after, imapd_sub_write.
  destruct (Bool.eqb (imapd_sub_has file name) add) eqn:E; [apply Bool.eqb_prop in E; by split|].
  apply Bool.eqb_false_iff in E.
  assert (Hadd : let s := default [] file ++ lf_end (default [] file) ++ name ++ [LF] in
            recorded (Some s) = recorded file ++ [name]).
  { cbv zeta. unfold recorded at 1. rewrite c_str_clean.
    - rewrite lf_lines_snoc by done. f_equal. destruct file as [buf|]; [|done]. cbn [recorded default]. by rewrite c_str_clean.
    - rewrite !not_elem_of_app. repeat split; [done|by apply lf_end_clean|done|]. by intros ?%list_elem_of_singleton. }
  assert (Hsnoc : forall s, recorded (Some s) = recorded file ++ [name] ->
            imapd_sub_has (Some s) name = true /\ forall other, other <> name -> imapd_sub_has (Some s) other = imapd_sub_has file other).
  { intros s Hs. rewrite sub_has_recorded, Hs. split; [apply existsb_beq, elem_of_app; right; by apply list_elem_of_singleton|].
    intros other Ho. rewrite !sub_has_recorded, Hs, existsb_app. cbn [existsb].
    assert (beq other name = false) as -> by (apply Bool.not_true_iff_false; by rewrite beq_spec). by rewrite !orb_false_r. }
  destruct add; [by apply Hsnoc|]. destruct file as [buf|]; [|done]. cbn [default] in *.
  assert (Hd : recorded (Some (sub_drop_loop (length (c_str buf)) (c_str buf) name)) = filter (fun l => l <> name) (recorded (Some buf))).
  { cbn [recorded]. rewrite c_str_clean; [by apply sub_drop_lines|]. intros Hin. apply sub_drop_sub in Hin. by rewrite c_str_clean in Hin. }
  split.
  - rewrite sub_has_recorded, Hd. apply Bool.not_true_iff_false. rewrite existsb_beq, list_elem_of_filter. naive_solver.
  - intros other Ho. rewrite !sub_has_recorded, Hd. apply Bool.eq_iff_eq_true. rewrite !existsb_beq, list_elem_of_filter. naive_solver.
Qed.

Lemma sub_write_exact_witness :
  imapd_sub_has (sub_file_after (Some (bs "a")) (bs "b") true) (bs "b") = true /\
  imapd_sub_has (sub_file_after (Some (bs "a")) (bs "b") true) (bs "a") = imapd_sub_has (Some (bs "a")) (bs "a").
Proof.
  assert (0 ∉ default [] (Some (bs "a"))) as H1 by (apply has_false; reflexivity).
  assert (LF ∉ bs "b" /\ 0 ∉ bs "b") as H2 by (split; apply has_false; reflexivity).
  destruct (sub_write_exact (Some (bs "a")) (bs "b") true H1 H2) as [A B]. split; [exact A|]. apply B. discriminate.
Defined.
