(* ===== verification/MailAuth.v ===== *)
(** * Credentials and lockout of the mailbox server (src/src/imap_maildir.c)

    The password file ["imapd.passwd"], the check of a password, the table of failed
    attempts, and the split of a SASL PLAIN payload (src/src/imapd_imap.c). The file is
    an argument ([None] when it cannot be read). *)

From S2P Require Import Prelude SmtpReply MailStore.

(** ** Credentials *)

Record ImapdCred := { ic_user : bytes; ic_pass : bytes }.

Definition IMAPD_PASSWD_FILE : bytes := bs "imapd.passwd".

(** The path of the password file, when it fits [sizeof path]. *)
Definition passwd_path (root : bytes) : option bytes :=
  let p := root ++ bs "/" ++ IMAPD_PASSWD_FILE in if 4096 <=? len p then None else Some p.

(** What one line of the file adds. *)
Definition cred_line (line : bytes) : list ImapdCred :=
  match line with
  | [] => []
  | c :: _ =>
      if c =? "#"%chr then []
      else match cut ":"%chr line with
           | None => []
           | Some (user, pass) =>
               if imapd_user_ok user && negb (is_nil pass) then [{| ic_user := user; ic_pass := pass |}] else []
           end
  end.

(** The loop over the lines; each consumes a byte. *)
Fixpoint auth_load_loop (fuel : nat) (p : bytes) : list ImapdCred :=
  match fuel, p with
  | O, _ | _, [] => []
  | S fuel', _ => cred_line (line_of p) ++ auth_load_loop fuel' (eat LF (after_line p)).2
  end.

(** [imapd_auth_load]: the table it leaves and whether it returns 0. *)
Definition imapd_auth_load (root : bytes) (file : option bytes) : list ImapdCred * bool :=
  match passwd_path root, file with
  | None, _ => ([], false)
  | Some _, None => ([], true)
  | Some _, Some buf => let s := c_str buf in (auth_load_loop (length s) s, true)
  end.

(** The byte loop of [ct_equal] from an index on. *)
Fixpoint ct_diff (n i : nat) (a b : bytes) (diff : Z) : Z :=
  match n with
  | O => diff
  | S n' =>
      let ca := if (i <? length a)%nat then at0 a i else 0 in
      let cb := if (i <? length b)%nat then at0 b i else 0 in
      ct_diff n' (S i) a b (Z.lor diff (Z.lxor ca cb))
  end.

Definition ct_equal (a b : bytes) : bool := ct_diff (Nat.max (length a) (length b)) 0 a b 0 =? 0.

Definition dummy_pass : bytes := bs "visage-dummy-imapd-password".

(** The password compared with: that of the first credential of the user. *)
Fixpoint candidate (creds : list ImapdCred) (user : bytes) : bytes :=
  match creds with
  | [] => dummy_pass
  | c :: cs => if beq (ic_user c) user then ic_pass c else candidate cs user
  end.

Definition imapd_auth_check (creds : list ImapdCred) (user pass : bytes) : bool := ct_equal pass (candidate creds user).

(** ** The password file is rewritten *)

(** Whether [p] starts with a line of [user]: [ll > strlen(user)], the name and a
    colon. *)
Definition line_is_user (line user : bytes) : bool :=
  (length user <? length line)%nat && beq (take (length user) line) user && (at0 line (length user) =? ":"%chr).

(** The loop that copies the lines of other users; the empty ones are dropped. *)
Fixpoint auth_set_loop (fuel : nat) (p user : bytes) : bytes :=
  match fuel, p with
  | O, _ | _, [] => []
  | S fuel', _ =>
      let l := line_of p in
      let '(nl, r) := eat LF (after_line p) in
      if line_is_user l user then auth_set_loop fuel' r user
      else if is_nil l then auth_set_loop fuel' r user
      else l ++ nl ++ auth_set_loop fuel' r user
  end.

(** [imapd_auth_set]: the contents it writes, [None] when it returns -1 before. *)
Definition imapd_auth_set (root : bytes) (file : option bytes) (user pass : bytes) : option bytes :=
  if negb (imapd_user_ok user) then None
  else if is_nil pass then None
  else match passwd_path root with
       | None => None
       | Some _ =>
           let out := match file with None => [] | Some buf => let s := c_str buf in auth_set_loop (length s) s user end in
           let out := out ++ (match last out with Some c => if c =? LF then [] else [LF] | None => [] end) in
           Some (out ++ user ++ ":"%chr :: pass ++ [LF])
       end.

(** ** Lockout *)

Definition IMAPD_AUTH_MAX_FAILS : Z := 5.
Definition IMAPD_AUTH_WINDOW_SEC : Z := 60.
Definition IMAPD_AUTH_LOCKOUT_SEC : Z := 300.
Definition IMAPD_AUTH_MAX_TRACKED : nat := 64.

(** [if_ip] holds the [len] bytes in use; the count is a uint32_t. *)
Record ImapdFail := { if_ip : bytes; if_count : Z; if_first_fail : Z; if_lock_until : Z }.

(** [auth_fail_find]: the index. *)
Fixpoint auth_fail_find (fails : list ImapdFail) (ip : bytes) : option nat :=
  match fails with
  | [] => None
  | f :: fs => if beq (if_ip f) ip then Some 0%nat else S <$> auth_fail_find fs ip
  end.

(** The loop that picks the entry to evict, [ev] with first failure [best] so far. *)
Fixpoint evict_loop (fails : list ImapdFail) (j ev : nat) (best : Z) : nat :=
  match fails with
  | [] => ev
  | f :: fs => if if_first_fail f <? best then evict_loop fs (S j) j (if_first_fail f) else evict_loop fs (S j) ev best
  end.

Definition evict (fails : list ImapdFail) : nat :=
  match fails with [] => 0%nat | f :: fs => evict_loop fs 1 0 (if_first_fail f) end.

(** The counting of one failure. *)
Definition fail_count (f : ImapdFail) (now : Z) : ImapdFail :=
  let f := if now - if_first_fail f >? IMAPD_AUTH_WINDOW_SEC
           then {| if_ip := if_ip f; if_count := 0; if_first_fail := now; if_lock_until := if_lock_until f |} else f in
  let n := u32 (if_count f + 1) in
  {| if_ip := if_ip f; if_count := n; if_first_fail := if_first_fail f;
     if_lock_until := if n >=? IMAPD_AUTH_MAX_FAILS then now + IMAPD_AUTH_LOCKOUT_SEC else if_lock_until f |}.

Definition fresh_fail (ip : bytes) : ImapdFail := {| if_ip := ip; if_count := 0; if_first_fail := 0; if_lock_until := 0 |}.

Definition imapd_auth_fail (fails : list ImapdFail) (ip : bytes) (now : Z) : list ImapdFail :=
  if is_nil ip then fails
  else match auth_fail_find fails ip with
       | Some i => alter (fun f => fail_count f now) i fails
       | None =>
           if (IMAPD_AUTH_MAX_TRACKED <=? length fails)%nat
           then <[evict fails := fail_count (fresh_fail ip) now]> fails
           else fails ++ [fail_count (fresh_fail ip) now]
       end.

Definition imapd_auth_clear (fails : list ImapdFail) (ip : bytes) : list ImapdFail :=
  if is_nil ip then fails
  else match auth_fail_find fails ip with
       | None => fails
       | Some i => alter (fun f => {| if_ip := if_ip f; if_count := 0; if_first_fail := 0; if_lock_until := 0 |}) i fails
       end.

(** The answer, and the table: an expired lock is removed. *)
Definition imapd_auth_blocked (fails : list ImapdFail) (ip : bytes) (now : Z) : list ImapdFail * bool :=
  if is_nil ip then (fails, false)
  else match auth_fail_find fails ip with
       | None => (fails, false)
       | Some i =>
           match fails !! i with
           | None => (fails, false)
           | Some f =>
               if negb (if_lock_until f =? 0) && (now <? if_lock_until f) then (fails, true)
               else (alter (fun f => {| if_ip := if_ip f; if_count := if_count f; if_first_fail := if_first_fail f;
                                        if_lock_until := 0 |}) i fails, false)
           end
       end.

(** ** SASL PLAIN *)

(** [imapd_sasl_plain_split] on the decoded bytes, which the caller ends with a NUL:
    the three C strings when it returns 0. *)
Definition imapd_sasl_plain_split (buf : bytes) : option (bytes * bytes * bytes) :=
  let authzid := c_str buf in
  if (length buf <=? length authzid + 1)%nat then None
  else
    let r := drop (length authzid + 1) buf in
    let authcid := c_str r in
    if (length buf <? length authzid + 1 + length authcid + 1)%nat then None
    else Some (authzid, authcid, c_str (drop (length authcid + 1) r)).

Example split1 : imapd_sasl_plain_split (0 :: bs "u" ++ 0 :: bs "pw") = Some ([], bs "u", bs "pw"). Proof. reflexivity. Qed.
Example set1 : imapd_auth_set (bs "/m") (Some (bs "b:1" ++ [LF] ++ bs "a:2")) (bs "b") (bs "x") = Some (bs "a:2" ++ [LF] ++ bs "b:x" ++ [LF]).
Proof. vm_compute. reflexivity. Qed.
