(* ===== verification/MailAuthSpec.v ===== *)
(** * What the credentials of the mailbox server promise

    The password file records what is set; the check, the lockout and the base64 of the
    mailbox server agree with those of the submission server they were ported from; a
    SASL PLAIN payload is split at its separators. *)

From S2P Require Import Prelude SmtpReply OutboxAuth MailStore MailStoreSpec MailAuth.

(** ** The tables of the two servers *)

Definition to_cred (c : ImapdCred) : OutboxCred := {| oc_user := ic_user c; oc_pass := ic_pass c |}.
Definition to_fail (f : ImapdFail) : OutboxFail :=
  {| of_ip := if_ip f; of_count := if_count f; of_first_fail := if_first_fail f; of_lock_until := if_lock_until f |}.

Lemma ct_diff_same n i a b d : MailAuth.ct_diff n i a b d = OutboxAuth.ct_diff n i a b d.
Proof. revert i d. induction n as [|n IH]; intros i d; cbn; [done|]. by rewrite IH. Qed.

Lemma ct_equal_same a b : MailAuth.ct_equal a b = OutboxAuth.ct_equal a b.
Proof. unfold MailAuth.ct_equal, OutboxAuth.ct_equal. by rewrite ct_diff_same. Qed.

Lemma fail_find_same t ip : auth_fail_find t ip = fail_find (map to_fail t) ip.
Proof. induction t as [|f t IH]; cbn; [done|]. by rewrite IH. Qed.

Lemma evict_loop_same t j ev best : MailAuth.evict_loop t j ev best = OutboxAuth.evict_loop (map to_fail t) j ev best.
Proof. revert j ev best. induction t as [|f t IH]; intros; cbn; [done|]. by rewrite !IH. Qed.

Lemma evict_same t : MailAuth.evict t = OutboxAuth.evict (map to_fail t).
Proof. destruct t as [|f t]; [done|]. cbn. apply evict_loop_same. Qed.

Lemma fail_count_same f now : to_fail (MailAuth.fail_count f now) = OutboxAuth.fail_count (to_fail f) now.
Proof. unfold MailAuth.fail_count, OutboxAuth.fail_count. cbn. unfold IMAPD_AUTH_WINDOW_SEC, OUTBOX_AUTH_WINDOW_SEC. by destruct (_ >? 60). Qed.

Lemma map_alter_same (g : ImapdFail -> ImapdFail) (h : OutboxFail -> OutboxFail) i t :
  (forall f, to_fail (g f) = h (to_fail f)) -> map to_fail (alter g i t) = alter h i (map to_fail t).
Proof. intros H. revert i. induction t as [|f t IH]; intros [|i]; cbn; [done..|by rewrite H|by rewrite IH]. Qed.

Lemma map_insert_same i f t : map to_fail (<[i:=f]> t) = <[i:=to_fail f]> (map to_fail t).
Proof. revert i. induction t as [|x t IH]; intros [|i]; cbn; [done..|by rewrite IH]. Qed.

Lemma candidate_same creds user (H : exists c, c ∈ creds /\ ic_user c = user) :
  MailAuth.candidate creds user = OutboxAuth.candidate (map to_cred creds) user.
Proof.
  induction creds as [|c cs IH]; [destruct H as (c & Hc & _); by apply not_elem_of_nil in Hc|]. cbn.
  destruct (beq (ic_user c) user) eqn:E; [done|]. apply IH. destruct H as (x & Hx & <-).
  apply elem_of_cons in Hx as [->|Hx]; [by rewrite beq_refl in E|by exists x].
Qed.

(** The lockout of the mailbox server is that of the submission server. *)
Lemma lockout_ported t ip now :
  map to_fail (imapd_auth_fail t ip now) = outbox_auth_fail (map to_fail t) ip now /\
  map to_fail (imapd_auth_clear t ip) = outbox_auth_clear (map to_fail t) ip /\
  map to_fail (imapd_auth_blocked t ip now).1 = (outbox_auth_blocked (map to_fail t) ip now).1 /\
  (imapd_auth_blocked t ip now).2 = (outbox_auth_blocked (map to_fail t) ip now).2.
Proof.
  unfold imapd_auth_fail, outbox_auth_fail, imapd_auth_clear, outbox_auth_clear, imapd_auth_blocked, outbox_auth_blocked.
  destruct (is_nil ip); [done|]. rewrite fail_find_same. destruct (fail_find (map to_fail t) ip) as [i|].
  - split; [apply map_alter_same; intros; apply fail_count_same|]. split; [by apply map_alter_same|].
    change (map to_fail t) with (to_fail <$> t). rewrite list_lookup_fmap. destruct (t !! i) as [f|]; [|done]. cbn [fmap option_fmap option_map].
    cbn [of_lock_until to_fail]. destruct (_ && _); [done|]. split; [by apply map_alter_same|done].
  - rewrite length_map. split; [|done]. unfold IMAPD_AUTH_MAX_TRACKED, OUTBOX_AUTH_MAX_TRACKED.
    destruct (64 <=? length t)%nat; [by rewrite map_insert_same, fail_count_same, evict_same|].
    rewrite map_app. cbn [map]. by rewrite fail_count_same.
Qed.

(** ** The check of a password *)

Definition creds_clean (creds : list ImapdCred) : Prop := Forall (fun c => 0 ∉ ic_pass c) creds.

Lemma check_spec creds user pass : creds_clean creds -> 0 ∉ pass ->
  imapd_auth_check creds user pass = beq pass (MailAuth.candidate creds user).
Proof.
  intros Hc Hp. unfold imapd_auth_check. rewrite ct_equal_same. apply ct_equal_spec; [done|].
  induction Hc as [|c cs Hc _ IH]; cbn; [apply has_false; vm_compute; reflexivity|]. by destruct (beq _ _).
Qed.

(** A user that is in no line authenticates with the dummy password of the source. *)
Lemma imapd_dummy_password creds user :
  Forall (fun c => beq (ic_user c) user = false) creds -> imapd_auth_check creds user MailAuth.dummy_pass = true.
Proof.
  intros Hu. unfold imapd_auth_check. assert (MailAuth.candidate creds user = MailAuth.dummy_pass) as ->; [|by vm_compute].
  induction Hu as [|c cs Hc _ IH]; cbn; [done|]. by rewrite Hc.
Qed.

(** ** The password file *)

Lemma auth_load_lines fuel p : (length p <= fuel)%nat ->
  MailAuth.auth_load_loop fuel p = concat (map MailAuth.cred_line (lf_lines p)).
Proof.
  intros Hf. rewrite <- (lf_lines_enough fuel p Hf). clear Hf. revert p. induction fuel as [|fuel IH]; intros p; [done|].
  destruct p as [|c p]; [done|]. cbn [MailAuth.auth_load_loop lf_lines_fuel map concat]. by rewrite IH.
Qed.

(** The credentials a file holds. *)
Definition credentials (buf : bytes) : list ImapdCred := concat (map MailAuth.cred_line (lf_lines buf)).

Lemma credentials_lf l r : LF ∉ l -> credentials (l ++ LF :: r) = MailAuth.cred_line l ++ credentials r.
Proof. intros Hl. unfold credentials. by rewrite lf_lines_lf. Qed.

Lemma credentials_last l : LF ∉ l -> credentials l = MailAuth.cred_line l.
Proof.
  intros Hl. unfold credentials. destruct l as [|c l]; [done|]. rewrite lf_lines_last by done. cbn [map concat]. by rewrite app_nil_r.
Qed.

(** A line is dropped exactly when what it adds, if anything, is the user's. *)
Lemma line_is_user_spec line user : ":"%chr ∉ user ->
  line_is_user line user = true <-> exists q, line = user ++ ":"%chr :: q.
Proof.
  intros Hu. unfold line_is_user. rewrite !andb_true_iff, Nat.ltb_lt, beq_spec, Z.eqb_eq. split.
  - intros [[Hl Ht] Hc]. unfold at0 in Hc. exists (drop (S (length user)) line).
    destruct (line !! length user) as [c|] eqn:E; [|by apply lookup_ge_None in E; lia]. cbn in Hc. subst c.
    rewrite <- Ht at 1. rewrite <- (take_drop (length user) line) at 1. f_equal. by apply drop_S.
  - intros [q ->]. rewrite length_app, take_app_length. cbn [length]. repeat split; [lia|].
    unfold at0. by rewrite list_lookup_middle.
Qed.

Lemma user_ok_no_colon u : imapd_user_ok u = true -> ":"%chr ∉ u /\ LF ∉ u /\ head u <> Some "#"%chr.
Proof.
  unfold imapd_user_ok. destruct u as [|c u]; [done|]. destruct (c =? "."%chr); [done|].
  destruct (forallb user_char (c :: u)) eqn:E; [|done]. intros _. apply forallb_Forall in E.
  assert (Hno : forall x, user_char x = false -> x ∉ c :: u).
  { intros x Hx Hin. rewrite Forall_forall in E. apply E in Hin. congruence. }
  split; [by apply Hno|]. split; [by apply Hno|]. cbn. intros [= ->]. apply Forall_cons in E as [E _]. discriminate E.
Qed.

(** What a line of the file adds belongs to the user the line starts with. *)
Lemma cred_line_user line user : imapd_user_ok user = true ->
  if line_is_user line user then Forall (fun c => ic_user c = user) (MailAuth.cred_line line)
  else Forall (fun c => ic_user c <> user) (MailAuth.cred_line line).
Proof.
  intros Hok. destruct (user_ok_no_colon user Hok) as (Hu & _ & Hh).
  destruct (line_is_user line user) eqn:E.
  - apply line_is_user_spec in E as [q ->]; [|done]. destruct user as [|c user]; [done|]. cbn [app MailAuth.cred_line].
    destruct (c =? "#"%chr); [constructor|]. change (c :: user ++ ":"%chr :: q) with ((c :: user) ++ ":"%chr :: q).
    rewrite cut_app by done. destruct (_ && _); repeat constructor.
  - destruct line as [|c line]; [constructor|]. cbn [MailAuth.cred_line]. destruct (c =? "#"%chr); [constructor|].
    pose proof (cut_spec ":"%chr (c :: line)) as Hc. destruct (cut ":"%chr (c :: line)) as [[u q]|]; [|constructor].
    destruct Hc as [Hc _]. destruct (_ && _); repeat constructor. cbn. intros ->.
    apply Bool.not_true_iff_false in E. apply E, line_is_user_spec; [done|]. by exists q.
Qed.

Definition other_user (user : bytes) (c : ImapdCred) : Prop := ic_user c <> user.
#[export] Instance other_user_dec user c : Decision (other_user user c).
Proof. unfold other_user. apply _. Defined.

Lemma filter_all {A} (P : A -> Prop) `{!forall x, Decision (P x)} (l : list A) : Forall P l -> filter P l = l.
Proof. induction 1 as [|x l Hx _ IH]; [done|]. by rewrite filter_cons_True, IH. Qed.

Lemma filter_none {A} (P : A -> Prop) `{!forall x, Decision (P x)} (l : list A) : Forall (fun x => ~ P x) l -> filter P l = [].
Proof. induction 1 as [|x l Hx _ IH]; [done|]. by rewrite filter_cons_False. Qed.

Lemma cred_line_filter line user : imapd_user_ok user = true ->
  filter (other_user user) (MailAuth.cred_line line) = if line_is_user line user then [] else MailAuth.cred_line line.
Proof.
  intros Hok. pose proof (cred_line_user line user Hok) as H. destruct (line_is_user line user).
  - apply filter_none. eapply Forall_impl; [exact H|]. intros c Hc Hn. by apply Hn.
  - by apply filter_all.
Qed.

Lemma auth_set_loop_empty fuel user : auth_set_loop fuel [] user = [].
Proof. by destruct fuel. Qed.

(** The loop keeps the credentials of the other users, in their order. *)
Lemma auth_set_credentials fuel p user : imapd_user_ok user = true -> (length p <= fuel)%nat ->
  credentials (auth_set_loop fuel p user) = filter (other_user user) (credentials p).
Proof.
  intros Hok. revert fuel. induction p as [|l Hne Hl|l r Hl IH] using lf_ind; intros fuel Hf.
  - by rewrite auth_set_loop_empty.
  - destruct l as [|c l]; [done|]. destruct fuel as [|fuel]; [cbn in Hf; lia|]. cbn [auth_set_loop].
    destruct (line_of_clean _ Hl) as [-> ->]. cbn [eat]. rewrite (credentials_last _ Hl), cred_line_filter by done.
    rewrite auth_set_loop_empty. destruct (line_is_user _ _); [done|]. cbn [is_nil]. rewrite !app_nil_r. by apply credentials_last.
  - assert (exists c t, l ++ LF :: r = c :: t) as (c & t & E) by (destruct l; cbn; eauto).
    destruct fuel as [|fuel]; [rewrite length_app in Hf; cbn in Hf; lia|].
    destruct (line_of_lf l r Hl) as [El Ee]. rewrite (credentials_lf l r Hl), filter_app, cred_line_filter by done.
    rewrite length_app in Hf. cbn [length] in Hf. rewrite E in *. cbn [auth_set_loop]. rewrite El, Ee.
    destruct (line_is_user l user); [apply IH; lia|]. destruct l as [|d l]; [cbn [is_nil app]; apply IH; lia|]. cbn [is_nil app].
    rewrite app_comm_cons, credentials_lf by done. f_equal. apply IH. lia.
Qed.

Lemma auth_set_loop_sub fuel p user x : x ∈ auth_set_loop fuel p user -> x ∈ p.
Proof.
  revert p. induction fuel as [|fuel IH]; intros p; [cbn; set_solver|]. destruct p as [|c p]; [cbn; set_solver|]. cbn [auth_set_loop].
  pose proof (take_drop_while (fun c => negb (c =? LF)) (c :: p)) as E. fold (line_of (c :: p)) (after_line (c :: p)) in E.
  pose proof (eat_app LF (after_line (c :: p))) as E'. destruct (eat LF (after_line (c :: p))) as [nl r]. cbn [fst snd] in E'.
  rewrite <- E' in E. intros Hx. rewrite <- E. destruct (line_is_user _ _); [apply IH in Hx; set_solver|].
  destruct (is_nil _); [apply IH in Hx; set_solver|]. rewrite !elem_of_app in *. destruct Hx as [?|[?|Hx%IH]]; auto.
Qed.

(** The table that is loaded after a password is set. *)
Lemma auth_set_load root file user pass s : LF ∉ pass -> 0 ∉ pass -> imapd_auth_set root file user pass = Some s ->
  imapd_auth_load root (Some s) =
    (filter (other_user user) (imapd_auth_load root file).1 ++ [{| ic_user := user; ic_pass := pass |}], true).
Proof.
  intros Hlf H0 H. unfold imapd_auth_set in H. destruct (imapd_user_ok user) eqn:Hu; [|done]. cbn [negb] in H.
  destruct (is_nil pass) eqn:Hp; [done|]. destruct (passwd_path root) as [path|] eqn:Hpath; [|done]. cbv zeta in H.
  set (out := match file with None => [] | Some buf => auth_set_loop (length (c_str buf)) (c_str buf) user end) in H.
  assert (Hout : credentials out = filter (other_user user) (imapd_auth_load root file).1 /\ 0 ∉ out).
  { unfold out, imapd_auth_load. rewrite Hpath. destruct file as [buf|]; [|by split; [done|apply not_elem_of_nil]].
    cbn [fst]. rewrite auth_load_lines by done. split; [by apply auth_set_credentials|].
    intros Hin. apply auth_set_loop_sub in Hin. by apply c_str_no_nul in Hin. }
  clearbody out. destruct Hout as [Hout H0out]. destruct (user_ok_no_colon user Hu) as (Hcol & Hulf & Hh).
  destruct (user_ok_component user Hu) as ((_ & _ & Hu0 & _) & _).
  assert (Hs : s = out ++ lf_end out ++ (user ++ ":"%chr :: pass) ++ [LF]).
  { unfold lf_end. injection H as <-. rewrite <- !app_assoc. by repeat f_equal. }
  unfold imapd_auth_load. rewrite Hpath. rewrite c_str_clean.
  2: { rewrite Hs, !not_elem_of_app, not_elem_of_cons. repeat split; try done; [by apply lf_end_clean|by intros ?%list_elem_of_singleton]. }
  rewrite auth_load_lines by done. rewrite Hs, lf_lines_snoc.
  2: { rewrite not_elem_of_app, not_elem_of_cons. by repeat split. }
  rewrite map_app, concat_app. fold (credentials out). rewrite Hout. unfold imapd_auth_load. rewrite Hpath.
  do 2 f_equal. cbn [map concat]. rewrite app_nil_r. destruct user as [|c user]; [done|]. cbn [app MailAuth.cred_line].
  destruct (Z.eqb_spec c "#"%chr) as [->|]; [done|]. rewrite app_comm_cons, cut_app by done. rewrite Hu, Hp. done.
Qed.

Lemma candidate_app a b user : Forall (other_user user) a -> MailAuth.candidate (a ++ b) user = MailAuth.candidate b user.
Proof.
  induction 1 as [|c a Hc _ IH]; [done|]. cbn. destruct (beq (ic_user c) user) eqn:E; [by apply beq_spec in E|done].
Qed.

Lemma candidate_filter t c user other : other <> user -> ic_user c = user ->
  MailAuth.candidate (filter (other_user user) t ++ [c]) other = MailAuth.candidate t other.
Proof.
  intros Ho Hc. induction t as [|x t IH].
  - cbn. destruct (beq (ic_user c) other) eqn:E; [apply beq_spec in E; congruence|done].
  - rewrite filter_cons. destruct (decide (other_user user x)) as [Hx|Hx]; cbn [app MailAuth.candidate]; rewrite IH; [done|].
    unfold other_user in Hx. apply dec_stable in Hx. destruct (beq (ic_user x) other) eqn:E; [apply beq_spec in E; congruence|done].
Qed.

(** setting a password and loading the file again leaves the credentials of every
    other user as they were and in their order and gives the user the new password
    only: the user authenticates with it and with nothing else, every other user as
    before. *)
Theorem passwd_set_exact (root : bytes) (file : option bytes) (user pass s : bytes)
    (Hpass : LF ∉ pass /\ 0 ∉ pass) (Hset : imapd_auth_set root file user pass = Some s) :
  let before := (imapd_auth_load root file).1 in
  let after := (imapd_auth_load root (Some s)).1 in
  after = filter (other_user user) before ++ [{| ic_user := user; ic_pass := pass |}] /\
  (forall q, imapd_auth_check after user q = ct_equal q pass) /\
  (forall q, 0 ∉ q -> (imapd_auth_check after user q = true <-> q = pass)) /\
  (forall other q, other <> user -> imapd_auth_check after other q = imapd_auth_check before other q).
Proof.
  destruct Hpass as [Hlf H0]. cbv zeta. rewrite (auth_set_load root file user pass s Hlf H0 Hset). cbn [fst].
  assert (Hcand : MailAuth.candidate (filter (other_user user) (imapd_auth_load root file).1 ++ [{| ic_user := user; ic_pass := pass |}]) user = pass).
  { rewrite candidate_app; [cbn; by rewrite beq_refl|]. apply Forall_forall. intros c Hc. by apply list_elem_of_filter in Hc as [? _]. }
  split; [done|]. unfold imapd_auth_check. split; [intros q; by rewrite Hcand|]. split.
  - intros q Hq. rewrite Hcand, ct_equal_same, ct_equal_spec by done. apply beq_spec.
  - intros other q Ho. by rewrite candidate_filter.
Qed.

Lemma passwd_set_exact_witness :
  imapd_auth_check (imapd_auth_load (bs "/m") (Some (bs "a:2" ++ [LF] ++ bs "b:x" ++ [LF]))).1 (bs "b") (bs "x") = true.
Proof.
  apply (passwd_set_exact (bs "/m") (Some (bs "b:1" ++ [LF] ++ bs "a:2")) (bs "b") (bs "x")); try (apply has_false; reflexivity); try reflexivity.
  split; apply has_false; reflexivity.
Defined.

(** ** SASL PLAIN *)

Lemma c_str_sep a r : 0 ∉ a -> c_str (a ++ 0 :: r) = a.
Proof.
  intros Ha. unfold c_str. rewrite take_while_app_all, take_while_stop, app_nil_r; [done|done|].
  apply Forall_forall. intros x Hx. apply negb_true_iff, Z.eqb_neq. congruence.
Qed.

(** The three fields come back, whichever are empty; a payload with fewer than two
    separators is refused. *)
Lemma sasl_plain_split_exact z a p : 0 ∉ z -> 0 ∉ a -> 0 ∉ p ->
  imapd_sasl_plain_split (z ++ 0 :: a ++ 0 :: p) = Some (z, a, p) /\
  imapd_sasl_plain_split (z ++ 0 :: a) = None /\ imapd_sasl_plain_split z = None.
Proof.
  intros Hz Ha Hp. unfold imapd_sasl_plain_split. rewrite !c_str_sep by done. rewrite (c_str_clean z) by done.
  assert (Hd : forall x r, drop (length x + 1) (x ++ 0 :: r) = r).
  { intros x r. rewrite drop_app_ge by lia. by replace (length x + 1 - length x)%nat with 1%nat by lia. }
  rewrite !Hd, !length_app. cbn [length]. rewrite (c_str_sep a p) by done. split; [|split].
  - destruct (Nat.leb_spec (length z + S (length (a ++ 0 :: p))) (length z + 1)) as [H|_]; [rewrite length_app in H; cbn in H; lia|].
    rewrite length_app. cbn [length]. destruct (Nat.ltb_spec (length z + S (length a + S (length p))) (length z + 1 + length a + 1)); [lia|].
    by rewrite Hd, c_str_clean.
  - rewrite (c_str_clean a) by done. destruct (Nat.leb_spec (length z + S (length a)) (length z + 1)); [done|].
    by destruct (Nat.ltb_spec (length z + S (length a)) (length z + 1 + length a + 1)); [|lia].
  - by destruct (Nat.leb_spec (length z) (length z + 1)); [|lia].
Qed.
