(* ===== verification/MailUid.v ===== *)
(** * The uidlist of a mailbox (src/src/imap_maildir.c)

    The two hash tables of the store, the file ["imapd-uidlist"] as it is read and
    written, and the merge of a snapshot with the file on disk. A row's Message-ID is
    the empty list where the source has a null pointer. Allocations succeed. *)

From S2P Require Import Prelude Json.

(** ** Open addressing *)

(** The slots of a table; [cap] is the length. *)
Notation slots K V := (list (option (K * V))).

Section Open_addressing.
Context {K V : Type} (eqb : K -> K -> bool).

(** [z & (cap - 1)]. *)
Definition wrap (cap : nat) (z : Z) : nat := Z.to_nat (Z.land z (Z.of_nat cap - 1)).

(** The probing loop: the slot it ends at, which holds the key or is empty. *)
Fixpoint probe (fuel : nat) (t : slots K V) (i : nat) (k : K) : nat :=
  match fuel with
  | O => i
  | S fuel' =>
      match t !! i with
      | Some (Some (k', _)) => if eqb k' k then i else probe fuel' t (wrap (length t) (Z.of_nat i + 1)) k
      | _ => i
      end
  end.
End Open_addressing.

(** The capacity: 16 doubled while it is below [n * 2]. *)
Fixpoint cap_loop (fuel : nat) (cap n : nat) : nat :=
  match fuel with O => cap | S fuel' => if (cap <? n * 2)%nat then cap_loop fuel' (cap * 2)%nat n else cap end.

Definition cap_of (n : nat) : nat := cap_loop n 16 n.

(** ** The index by base name *)

Notation BaseHash := (slots bytes Z).

(** FNV-1a over 32 bits. *)
Definition bh_hash (s : bytes) : Z := foldl (fun h c => u32 (Z.lxor h c * 16777619)) 2166136261 s.

Definition bh_init (n : nat) : BaseHash := replicate (cap_of n) None.

Definition bh_slot (h : BaseHash) (base : bytes) : nat := probe beq (length h) h (wrap (length h) (bh_hash base)) base.

Definition bh_put (h : BaseHash) (base : bytes) (val : Z) : BaseHash := <[bh_slot h base := Some (base, val)]> h.

Definition bh_get (h : BaseHash) (base : bytes) : option Z :=
  match h !! bh_slot h base with Some (Some (_, v)) => Some v | _ => None end.

(** ** The set of uids *)

Notation UidSet := (slots Z unit).

Definition us_init (n : nat) : UidSet := replicate (cap_of n) None.

Definition us_slot (s : UidSet) (uid : Z) : nat := probe Z.eqb (length s) s (wrap (length s) (u32 (uid * 2654435761))) uid.

(** [us_add]: the set, and whether the uid was absent. *)
Definition us_add (s : UidSet) (uid : Z) : UidSet * bool :=
  if uid =? 0 then (s, true)
  else match s !! us_slot s uid with
       | Some (Some _) => (s, false)
       | _ => (<[us_slot s uid := Some (uid, tt)]> s, true)
       end.

(** ** The file *)

Record UidEnt := { ue_base : bytes; ue_mid : bytes; ue_uid : Z; ue_modseq : Z }.

Definition is_space (c : Z) : bool := (c =? SP) || ((9 <=? c) && (c <=? 13)).

(** [sscanf(s, "%llu", &v)] of the C library: the value, a sign negating it modulo
    2^64 and a number too large read as ULLONG_MAX. *)
Definition scan_llu (s : bytes) : option Z :=
  let s := drop_while is_space s in
  let '(neg, s) := match s with
                   | c :: t => if c =? "-"%chr then (true, t) else if c =? "+"%chr then (false, t) else (false, s)
                   | [] => (false, s)
                   end in
  match take_while is_digit s with
  | [] => None
  | ds => let v := dec_value 0 ds in
          Some (if v >? UINT64_MAX then UINT64_MAX else if neg : bool then u64 (- v) else v)
  end.

(** [sscanf(s, "%llu %llu", &a, &b) == 2]. *)
Definition scan_two (s : bytes) : option (Z * Z) :=
  match scan_llu s with
  | None => None
  | Some a =>
      let s := drop_while is_space s in
      let s := match s with c :: t => if (c =? "-"%chr) || (c =? "+"%chr) then t else s | [] => s end in
      match scan_llu (drop_while is_digit s) with None => None | Some b => Some (a, b) end
  end.

(** The bytes up to the end of the line, and from it on. *)
Definition to_nl (p : bytes) : bytes := take_while (fun c => negb (c =? LF)) p.
Definition from_nl (p : bytes) : bytes := drop_while (fun c => negb (c =? LF)) p.

(** The change counter and the Message-ID of a row, from what follows the base name. *)
Definition row_tail (rest : option bytes) : Z * bytes :=
  match rest with
  | None => (1, [])
  | Some q =>
      match scan_llu q with
      | None => (1, [])
      | Some ms =>
          match drop_while is_digit q with
          | c :: t => if (c =? " "%chr) && negb (is_nil (to_nl t)) then (ms, to_nl t) else (ms, [])
          | [] => (ms, [])
          end
      end
  end.

(** One row: the entry and what follows its line; [None] where the loop breaks. *)
Definition load_row (p : bytes) : option (UidEnt * bytes) :=
  match scan_llu p with
  | None => None
  | Some uid =>
      match drop_while is_digit p with
      | c :: q =>
          if negb (c =? " "%chr) then None
          else
            let base := take_while (fun c => negb (c =? " "%chr)) (to_nl q) in
            if is_nil base then None
            else
              let rest := if (length base <? length (to_nl q))%nat then Some (drop (S (length base)) q) else None in
              let '(modseq, mid) := row_tail rest in
              if (uid =? 0) || (uid >? UINT32_MAX) then None
              else Some ({| ue_base := base; ue_mid := mid; ue_uid := uid; ue_modseq := modseq |}, from_nl q)
      | [] => None
      end
  end.

(** The loop over the rows; each consumes a byte. *)
Fixpoint load_rows (fuel : nat) (p : bytes) : list UidEnt :=
  match fuel, p with
  | O, _ | _, [] => []
  | S fuel', _ =>
      match load_row p with
      | None => []
      | Some (e, []) => [e]
      | Some (e, _ :: p') => e :: load_rows fuel' p'
      end
  end.

(** [uidlist_load] on the contents of the file: [uidvalidity], [uidnext] (the arguments
    where the header does not set them) and the rows. *)
Definition uidlist_load (file : option bytes) (uv un : Z) : Z * Z * list UidEnt :=
  match file with
  | None => (uv, un, [])
  | Some buf =>
      let p := c_str buf in
      let '(uv, un) := match scan_two p with
                       | Some (a, b) => (if a >? UINT32_MAX then 0 else a, if b >? UINT32_MAX then 1 else b)
                       | None => (uv, un)
                       end in
      match from_nl p with
      | [] => (uv, un, [])
      | _ :: rows => (uv, un, load_rows (length rows) rows)
      end
  end.

Definition print_u64 (v : Z) : bytes := dec_digits 20 v [].

Definition print_row (e : UidEnt) : bytes :=
  print_u32 (ue_uid e) ++ " "%chr :: ue_base e ++ " "%chr :: print_u64 (ue_modseq e)
  ++ (if is_nil (ue_mid e) then [] else " "%chr :: ue_mid e) ++ [LF].

(** What [imapd_uidlist_save] writes. *)
Definition print_uidlist (uv un : Z) (v : list UidEnt) : bytes :=
  print_u32 uv ++ " "%chr :: print_u32 un ++ LF :: concat (map print_row v).

(** ** The merge *)

(** One source row: the index and the merged rows after it. *)
Definition merge_row (tomb : option BaseHash) (st : BaseHash * list UidEnt) (src : UidEnt) : BaseHash * list UidEnt :=
  let '(idx, mv) := st in
  if is_nil (ue_base src) || (ue_uid src =? 0) then st
  else if match tomb with Some h => match bh_get h (ue_base src) with Some _ => true | None => false end | None => false end then st
  else match bh_get idx (ue_base src) with
       | Some at_ =>
           match mv !! Z.to_nat at_ with
           | Some r => if ue_modseq src <=? ue_modseq r then st else (idx, <[Z.to_nat at_ := src]> mv)
           | None => st
           end
       | None => (bh_put idx (ue_base src) (Z.of_nat (length mv)), mv ++ [src])
       end.

(** One merged row: its uid is replaced when another row has it. *)
Definition remint_row (st : UidSet * Z * list UidEnt) (r : UidEnt) : UidSet * Z * list UidEnt :=
  let '(us, un, out) := st in
  match us_add us (ue_uid r) with
  | (us, true) => (us, un, out ++ [r])
  | (us, false) =>
      let '(uid, un) := (un, u32 (un + 1)) in
      let '(uid, un) := if uid =? 0 then (un, u32 (un + 1)) else (uid, un) in
      ((us_add us uid).1, un, out ++ [{| ue_base := ue_base r; ue_mid := ue_mid r; ue_uid := uid; ue_modseq := un |}])
  end.

(** The hash of the tombstones, when there are any. *)
Definition tomb_hash (tombs : list bytes) : option BaseHash :=
  match tombs with
  | [] => None
  | _ => Some (foldl (fun h b => bh_put h b.2 (Z.of_nat b.1)) (bh_init (length tombs)) (imap pair tombs))
  end.

Definition past_uids (un : Z) (mv : list UidEnt) : Z :=
  foldl (fun un r => if ue_uid r >=? un then u32 (ue_uid r + 1) else un) un mv.

(** Which generation survives: [uidvalidity] and the rows of the disk and of memory. *)
Definition generations (duv uv : Z) (dv v : list UidEnt) : Z * list UidEnt * list UidEnt :=
  if negb (duv =? 0) && negb (uv =? 0) && negb (duv =? uv) then
    if duv >? uv then (duv, dv, []) else (uv, [], v)
  else (if uv =? 0 then duv else uv, dv, v).

(** [uidlist_merge] with the contents of the file and the tombstones of the session. *)
Definition uidlist_merge (file : option bytes) (tombs : list bytes) (uv un : Z) (v : list UidEnt) : Z * Z * list UidEnt :=
  let '(duv, dun, dv) := uidlist_load file 0 1 in
  let dun := if dun =? 0 then 1 else dun in
  let un := if un >? dun then un else dun in
  let '(uv, dv, v) := generations duv uv dv v in
  let '(_, mv) := foldl (merge_row (tomb_hash tombs)) (bh_init (length v + length dv), []) (dv ++ v) in
  let un := past_uids un mv in
  let '(_, un, out) := foldl remint_row (us_init (length v + length dv + 8), un, []) mv in
  (uv, un, out).

(** [tomb_add]. *)
Definition tomb_add (tombs : list bytes) (base : bytes) : list bytes := if is_nil base then tombs else tombs ++ [base].

(** The uid the written rows hold for [base], 0 for none. *)
Fixpoint probe_uid (rows : list UidEnt) (base : bytes) : Z :=
  match rows with [] => 0 | r :: t => if beq (ue_base r) base then ue_uid r else probe_uid t base end.

Example load1 : uidlist_load (Some (bs "7 3" ++ [LF] ++ bs "1 a 5 <x y>" ++ [LF] ++ bs "2 b")) 0 1
  = (7, 3, [{| ue_base := bs "a"; ue_mid := bs "<x y>"; ue_uid := 1; ue_modseq := 5 |};
            {| ue_base := bs "b"; ue_mid := []; ue_uid := 2; ue_modseq := 1 |}]).
Proof. vm_compute. reflexivity. Qed.
Example merge1 : uidlist_merge (Some (bs "7 3" ++ [LF] ++ bs "1 a 5" ++ [LF] ++ bs "2 b 1" ++ [LF])) [bs "b"] 7 4
    [{| ue_base := bs "a"; ue_mid := []; ue_uid := 1; ue_modseq := 6 |}; {| ue_base := bs "c"; ue_mid := []; ue_uid := 1; ue_modseq := 2 |}]
  = (7, 5, [{| ue_base := bs "a"; ue_mid := []; ue_uid := 1; ue_modseq := 6 |}; {| ue_base := bs "c"; ue_mid := []; ue_uid := 4; ue_modseq := 5 |}]).
Proof. vm_compute. reflexivity. Qed.
