(* ===== verification/MailUidSpec.v ===== *)
(** * What the uidlist of a mailbox promises

    The open-addressing tables are finite maps; the merge is the merge of two lists
    keyed by base name; its uids are distinct and below uidnext; what is written is read
    back. *)

From S2P Require Import Prelude Json MailUid.

(** ** The hash tables are maps *)

Lemma wrap_mod cap k z : cap = (2 ^ k)%nat -> wrap cap z = Z.to_nat (z mod Z.of_nat cap).
Proof.
  intros ->. unfold wrap. f_equal. rewrite Nat2Z.inj_pow. change (Z.of_nat 2) with 2.
  rewrite <- Z.land_ones by lia. f_equal. rewrite Z.ones_equiv. lia.
Qed.

(** The first index that satisfies a test. *)
Lemma first_index (P : nat -> bool) D : P D = true -> exists d, (d <= D)%nat /\ P d = true /\ forall e, (e < d)%nat -> P e = false.
Proof.
  induction D as [D IH] using lt_wf_ind. intros HD.
  destruct (existsb P (seq 0 D)) eqn:E.
  - apply existsb_exists in E as (x & Hx & HP). apply in_seq in Hx. destruct (IH x ltac:(lia) HP) as (d & Hd & H1 & H2).
    exists d. split; [lia|]. auto.
  - exists D. split; [lia|]. split; [done|]. intros e He. destruct (P e) eqn:EP; [|done].
    assert (existsb P (seq 0 D) = true); [|congruence]. apply existsb_exists. exists e. split; [apply in_seq; lia|done].
Qed.

Lemma occ_insert {A} (t : list (option A)) j (x : option A) :
  (length (omap id (<[j:=x]> t)) <= S (length (omap id t)))%nat.
Proof.
  revert j. induction t as [|o t IH]; intros [|j]; simpl; [lia..| |].
  - destruct o, x; simpl; lia.
  - specialize (IH j). unfold omap in IH. destruct o; simpl; lia.
Qed.

Section Tables.
Context {K V : Type} `{Countable K} (eqb : K -> K -> bool) (home : nat -> K -> Z).
Context (eqb_spec : forall a b, eqb a b = true <-> a = b).
Implicit Types (t : list (option (K * V))) (m : gmap K V).

Definition slot_of t (k : K) : nat := probe eqb (length t) t (wrap (length t) (home (length t) k)) k.

(** Where the loop stops for a key. *)
Definition stops t (k : K) (j : nat) : bool :=
  match t !! j with Some (Some (k', _)) => eqb k' k | _ => true end.

(** The [d]-th slot tried from [z] on. *)
Definition step_of t (z : Z) (d : nat) : nat := wrap (length t) (z + Z.of_nat d).

(** The table [t] with at most [n] entries holds the map [m]. *)
Record table_rep (n : nat) t m : Prop := {
  tr_pow : exists k, length t = (2 ^ k)%nat;
  tr_occ : (length (omap id t) <= n)%nat;
  tr_map : forall k v, m !! k = Some v <-> exists j, t !! j = Some (Some (k, v));
  tr_path : forall j k v, t !! j = Some (Some (k, v)) ->
    exists d, (d < length t)%nat /\ j = step_of t (home (length t) k) d /\
      forall e, (e < d)%nat -> stops t k (step_of t (home (length t) k) e) = false
}.

Lemma step_lt t k z d : length t = (2 ^ k)%nat -> (step_of t z d < length t)%nat.
Proof.
  intros Hp. unfold step_of. rewrite (wrap_mod _ k) by done.
  assert (0 < length t)%nat by (rewrite Hp; apply Nat.neq_0_lt_0, Nat.pow_nonzero; lia).
  pose proof (Z.mod_pos_bound (z + Z.of_nat d) (Z.of_nat (length t)) ltac:(lia)). lia.
Qed.

Lemma step_next t k z : length t = (2 ^ k)%nat -> wrap (length t) (Z.of_nat (wrap (length t) z) + 1) = wrap (length t) (z + 1).
Proof.
  intros Hp. assert (0 < length t)%nat by (rewrite Hp; apply Nat.neq_0_lt_0, Nat.pow_nonzero; lia).
  rewrite !(wrap_mod _ k) by done. rewrite Z2Nat.id by (apply Z.mod_pos_bound; lia). f_equal. by rewrite Z.add_mod_idemp_l by lia.
Qed.

Lemma probe_first fuel t p k z d : length t = (2 ^ p)%nat -> (d < fuel)%nat ->
  stops t k (step_of t z d) = true -> (forall e, (e < d)%nat -> stops t k (step_of t z e) = false) ->
  probe eqb fuel t (wrap (length t) z) k = step_of t z d.
Proof.
  intros Hp. revert z d. induction fuel as [|fuel IH]; intros z d Hd Hs Hn; [lia|]. cbn [probe].
  assert (H0 : step_of t z 0 = wrap (length t) z) by (unfold step_of; f_equal; lia).
  destruct d as [|d].
  - rewrite H0 in *. unfold stops in Hs. destruct (t !! wrap (length t) z) as [[[k' v]|]|]; [|done|done]. by rewrite Hs.
  - pose proof (Hn 0%nat ltac:(lia)) as Hn0. rewrite H0 in Hn0. unfold stops in Hn0.
    destruct (t !! wrap (length t) z) as [[[k' v]|]|]; [|done|done]. rewrite Hn0, (step_next _ p) by done.
    assert (Hstep : forall e, step_of t (z + 1) e = step_of t z (S e)) by (intros e; unfold step_of; f_equal; lia).
    rewrite IH with (d := d); [by rewrite Hstep|lia|by rewrite Hstep|]. intros e He. rewrite Hstep. apply Hn. lia.
Qed.

Lemma occ_full t : (forall j, (j < length t)%nat -> exists x, t !! j = Some (Some x)) -> length (omap id t) = length t.
Proof.
  induction t as [|o t IH]; intros Hf; [done|]. destruct (Hf 0%nat ltac:(cbn; lia)) as [x E]. cbn in E. injection E as ->.
  cbn. f_equal. apply IH. intros j Hj. apply (Hf (S j)). cbn. lia.
Qed.

Lemma empty_slot t n : (length (omap id t) <= n)%nat -> (n < length t)%nat -> exists j, t !! j = Some None.
Proof.
  intros Ho Hn. destruct (existsb (fun o => match o with None => true | _ => false end) t) eqn:E.
  - apply existsb_exists in E as (o & Hin & Ho'). destruct o; [done|]. apply list_elem_of_In, list_elem_of_lookup in Hin as [j Hj]. by exists j.
  - assert (length (omap id t) = length t); [|lia]. apply occ_full. intros j Hj. apply lookup_lt_is_Some_2 in Hj as [o Ho'].
    destruct o as [x|]; [by exists x|]. assert (existsb (fun o => match o with None => true | _ => false end) t = true); [|congruence].
    apply existsb_exists. exists None. split; [|done]. apply list_elem_of_In, list_elem_of_lookup. by exists j.
Qed.

(** Some step stops. *)
Lemma some_stop t n k z p : length t = (2 ^ p)%nat -> (length (omap id t) <= n)%nat -> (n < length t)%nat ->
  exists d, (d < length t)%nat /\ stops t k (step_of t z d) = true /\ forall e, (e < d)%nat -> stops t k (step_of t z e) = false.
Proof.
  intros Hp Ho Hn. destruct (empty_slot t n Ho Hn) as [j Hj]. assert (Hlt : (j < length t)%nat) by (by eapply lookup_lt_Some).
  set (D := Z.to_nat ((Z.of_nat j - z) mod Z.of_nat (length t))).
  pose proof (Z.mod_pos_bound (Z.of_nat j - z) (Z.of_nat (length t)) ltac:(lia)) as HD.
  assert (HsD : step_of t z D = j).
  { unfold step_of. rewrite (wrap_mod _ p) by done. unfold D. rewrite Z2Nat.id by lia.
    rewrite Z.add_mod_idemp_r by lia. replace (z + (Z.of_nat j - z)) with (Z.of_nat j) by lia.
    rewrite Z.mod_small by lia. lia. }
  destruct (first_index (fun d => stops t k (step_of t z d)) D) as (d & Hd & Hs & Hf).
  { cbv beta. rewrite HsD. unfold stops. by rewrite Hj. }
  exists d. split; [unfold D in Hd; lia|]. by split.
Qed.

Lemma slot_first n t m k : table_rep n t m -> (n < length t)%nat ->
  exists d, (d < length t)%nat /\ slot_of t k = step_of t (home (length t) k) d /\ stops t k (slot_of t k) = true /\
    forall e, (e < d)%nat -> stops t k (step_of t (home (length t) k) e) = false.
Proof.
  intros [[p Hp] Ho _ _] Hn. destruct (some_stop t n k (home (length t) k) p Hp Ho Hn) as (d & Hd & Hs & Hf).
  assert (slot_of t k = step_of t (home (length t) k) d) as E by (apply (probe_first _ _ p); done).
  exists d. rewrite E. auto.
Qed.

(** A key is found where it is. *)
Lemma slot_of_key n t m j k v : table_rep n t m -> (n < length t)%nat -> t !! j = Some (Some (k, v)) -> slot_of t k = j.
Proof.
  intros Hr Hn Hj. destruct (slot_first n t m k Hr Hn) as (d & _ & E & Hs & Hf).
  destruct (tr_path _ _ _ Hr j k v Hj) as (d' & _ & Ej & Hf').
  assert (Hsj : stops t k j = true) by (unfold stops; rewrite Hj; by apply eqb_spec).
  rewrite E in *. rewrite Ej in Hsj |- *. f_equal.
  destruct (Nat.lt_trichotomy d d') as [Hlt|[->|Hlt]]; [by rewrite (Hf' _ Hlt) in Hs|done|by rewrite (Hf _ Hlt) in Hsj].
Qed.

Lemma slot_spec n t m k : table_rep n t m -> (n < length t)%nat ->
  t !! slot_of t k = Some ((fun v => (k, v)) <$> m !! k).
Proof.
  intros Hr Hn. destruct (m !! k) as [v|] eqn:Em.
  - apply (tr_map _ _ _ Hr) in Em as [j Hj]. by rewrite (slot_of_key n t m j k v Hr Hn Hj), Hj.
  - destruct (slot_first n t m k Hr Hn) as (d & _ & E & Hs & _). destruct (tr_pow _ _ _ Hr) as [p Hp].
    pose proof (step_lt t p (home (length t) k) d Hp) as Hlt. rewrite <- E in Hlt. unfold stops in Hs.
    assert (exists o, t !! slot_of t k = Some o) as [o Ho] by (by apply lookup_lt_is_Some_2). rewrite Ho. rewrite Ho in Hs. destruct o as [[k' v]|]; [|done].
    apply eqb_spec in Hs as ->. assert (m !! k = Some v); [|congruence]. apply (tr_map _ _ _ Hr). by exists (slot_of t k).
Qed.

(** Where the loop stops for a key after an insertion. *)
Lemma stops_insert t j k v k' s : (j < length t)%nat ->
  stops (<[j:=Some (k, v)]> t) k' s = if decide (s = j) then eqb k k' else stops t k' s.
Proof.
  intros Hj. unfold stops. destruct (decide (s = j)) as [->|Hs]; [by rewrite list_lookup_insert_eq|by rewrite list_lookup_insert_ne].
Qed.

Lemma put_rep n t m k v : table_rep n t m -> (n < length t)%nat ->
  table_rep (S n) (<[slot_of t k := Some (k, v)]> t) (<[k := v]> m).
Proof.
  intros Hr Hn. pose proof (slot_spec n t m k Hr Hn) as Hslot. set (j := slot_of t k) in *.
  assert (Hj : (j < length t)%nat) by (by eapply lookup_lt_Some).
  assert (Hkey : forall j' k' v', t !! j' = Some (Some (k', v')) -> j' = j <-> k' = k).
  { intros j' k' v' Hj'. split; [intros ->|intros ->].
    - rewrite Hslot in Hj'. destruct (m !! k); cbn in Hj'; congruence.
    - symmetry. by apply (slot_of_key n t m j' k v'). }
  assert (Hsl : forall s, <[j:=Some (k, v)]> t !! s = if decide (s = j) then Some (Some (k, v)) else t !! s).
  { intros s. destruct (decide (s = j)) as [->|]; [by apply list_lookup_insert_eq|by apply list_lookup_insert_ne]. }
  split.
  - rewrite length_insert. apply Hr.
  - pose proof (occ_insert t j (Some (k, v))). pose proof (tr_occ _ _ _ Hr). lia.
  - intros k' v'. setoid_rewrite Hsl. destruct (decide (k' = k)) as [->|Hk].
    + rewrite lookup_insert_eq. split.
      * intros [= <-]. exists j. by rewrite decide_True.
      * intros [j' Hj']. destruct (decide (j' = j)) as [|Hne]; [congruence|]. destruct Hne. by apply (Hkey _ _ _ Hj').
    + rewrite lookup_insert_ne, (tr_map _ _ _ Hr) by done. split; intros [j' Hj']; exists j'.
      * rewrite decide_False; [done|]. intros Hjj. by apply (Hkey _ _ _ Hj') in Hjj.
      * destruct (decide (j' = j)); [congruence|done].
  - intros j' k' v' Hj'. rewrite length_insert. rewrite Hsl in Hj'. unfold step_of. rewrite length_insert.
    change (exists d, (d < length t)%nat /\ j' = step_of t (home (length t) k') d /\
      forall e, (e < d)%nat -> stops (<[j:=Some (k, v)]> t) k' (step_of t (home (length t) k') e) = false).
    setoid_rewrite stops_insert; [|done]. destruct (decide (j' = j)) as [->|Hjj].
    + assert (k' = k) as -> by congruence. destruct (slot_first n t m k Hr Hn) as (d & Hd & E & Hs & Hf). fold j in E, Hs.
      exists d. repeat split; [done|done|]. intros e He. destruct (decide (_ = j)) as [Ee|]; [|by apply Hf].
      specialize (Hf e He). rewrite Ee in Hf. congruence.
    + destruct (tr_path _ _ _ Hr j' k' v' Hj') as (d & Hd & E & Hf). exists d. repeat split; [done|done|].
      intros e He. destruct (decide (_ = j)); [|by apply Hf].
      destruct (eqb k k') eqn:Ek; [|done]. apply eqb_spec in Ek as ->. destruct Hjj. by apply (Hkey _ _ _ Hj').
Qed.

Lemma empty_rep k : table_rep 0 (replicate (2 ^ k) None) (∅ : gmap K V).
Proof.
  assert (Hno : forall j (x : K * V), replicate (2 ^ k) None !! j <> Some (Some x)).
  { intros j x Hx. apply lookup_replicate in Hx as [? _]. done. }
  split.
  - exists k. by rewrite length_replicate.
  - generalize (2 ^ k)%nat as n. induction n as [|n IH]; cbn; [lia|done].
  - intros k' v. rewrite lookup_empty. split; [done|]. intros [j Hj]. by apply Hno in Hj.
  - intros j k' v Hj. by apply Hno in Hj.
Qed.
End Tables.

(** ** The capacity *)

Lemma cap_loop_spec fuel cap n : (exists k, cap = 2 ^ k)%nat -> (n * 2 <= cap * 2 ^ fuel)%nat ->
  (exists k, cap_loop fuel cap n = 2 ^ k)%nat /\ (n * 2 <= cap_loop fuel cap n)%nat /\ (cap <= cap_loop fuel cap n)%nat.
Proof.
  revert cap. induction fuel as [|fuel IH]; intros cap Hk Hn; cbn [cap_loop Nat.pow] in *; [split; [done|lia]|].
  destruct (Nat.ltb_spec cap (n * 2)); [|split; [done|lia]].
  destruct (IH (cap * 2)%nat) as (H1 & H2 & H3); [|lia|split; [done|lia]].
  destruct Hk as [k ->]. exists (S k). cbn. lia.
Qed.

Lemma cap_of_spec n : (exists k, cap_of n = 2 ^ k)%nat /\ (n < cap_of n)%nat.
Proof.
  assert (n < 2 ^ n)%nat by (apply Nat.pow_gt_lin_r; lia).
  destruct (cap_loop_spec n 16 n) as (H1 & H2 & H3); [by exists 4%nat|lia|]. fold (cap_of n) in *. split; [done|lia].
Qed.

(** ** The index and the set of uids *)

Definition bh_rep (n : nat) (h : BaseHash) (m : gmap bytes Z) : Prop := table_rep beq (fun _ => bh_hash) n h m.

Definition us_home (_ : nat) (uid : Z) : Z := u32 (uid * 2654435761).
Definition us_rep (n : nat) (s : UidSet) (m : gmap Z unit) : Prop := table_rep Z.eqb us_home n s m.

Lemma bh_init_rep n : bh_rep 0 (bh_init n) ∅ /\ length (bh_init n) = cap_of n.
Proof. unfold bh_init, bh_rep. rewrite length_replicate. destruct (cap_of_spec n) as [[k ->] _]. split; [apply empty_rep|done]. Qed.

Lemma bh_put_rep n h m base v : bh_rep n h m -> (n < length h)%nat -> bh_rep (S n) (bh_put h base v) (<[base := v]> m).
Proof. intros Hr Hn. exact (put_rep beq _ beq_spec n h m base v Hr Hn). Qed.

Lemma bh_put_length h base v : length (bh_put h base v) = length h.
Proof. apply length_insert. Qed.

Lemma bh_get_rep n h m base : bh_rep n h m -> (n < length h)%nat -> bh_get h base = m !! base.
Proof.
  intros Hr Hn. unfold bh_get. pose proof (slot_spec beq _ beq_spec n h m base Hr Hn) as E.
  change (slot_of beq _ h base) with (bh_slot h base) in E. rewrite E. by destruct (m !! base).
Qed.

Lemma us_init_rep n : us_rep 0 (us_init n) ∅ /\ length (us_init n) = cap_of n.
Proof. unfold us_init, us_rep. rewrite length_replicate. destruct (cap_of_spec n) as [[k ->] _]. split; [apply empty_rep|done]. Qed.

Lemma us_add_rep n s m uid : us_rep n s m -> (n < length s)%nat -> uid <> 0 ->
  (us_add s uid).2 = (if decide (is_Some (m !! uid)) then false else true) /\
  us_rep (S n) (us_add s uid).1 (<[uid := tt]> m) /\ length (us_add s uid).1 = length s.
Proof.
  intros Hr Hn H0. unfold us_add. rewrite (proj2 (Z.eqb_neq uid 0)) by done.
  pose proof (slot_spec Z.eqb us_home Z.eqb_eq n s m uid Hr Hn) as E.
  change (slot_of Z.eqb us_home s uid) with (us_slot s uid) in E. rewrite E.
  destruct (m !! uid) as [[]|] eqn:Em; cbn [fmap option_fmap option_map].
  - split; [rewrite decide_True by eauto; done|]. split; [|done]. rewrite insert_id by done. cbn [fst].
    destruct Hr as [H1 H2 H3 H4]. split; [done| |done|done]. by apply le_S.
  - split; [rewrite decide_False by (intros [? ?]; congruence); done|]. split; [|apply length_insert].
    exact (put_rep Z.eqb us_home Z.eqb_eq n s m uid tt Hr Hn).
Qed.

Definition bh_puts (h : BaseHash) (puts : list (bytes * Z)) : BaseHash := foldl (fun h p => bh_put h p.1 p.2) h puts.
Definition map_puts (m : gmap bytes Z) (puts : list (bytes * Z)) : gmap bytes Z := foldl (fun m p => <[p.1 := p.2]> m) m puts.

Lemma bh_puts_rep puts k h m : bh_rep k h m -> (k + length puts < length h)%nat ->
  bh_rep (k + length puts) (bh_puts h puts) (map_puts m puts) /\ length (bh_puts h puts) = length h.
Proof.
  unfold bh_puts, map_puts. revert k h m. induction puts as [|p puts IH]; intros k h m Hr Hl; cbn [foldl length] in *; [by rewrite Nat.add_0_r|].
  rewrite <- Nat.add_succ_comm. rewrite <- (bh_put_length h p.1 p.2). apply IH; [apply bh_put_rep; [done|lia]|].
  rewrite bh_put_length. lia.
Qed.

Lemma bh_puts_get n puts base : (length puts <= n)%nat -> bh_get (bh_puts (bh_init n) puts) base = map_puts ∅ puts !! base.
Proof.
  intros Hsize. destruct (bh_init_rep n) as [Hi Hl]. destruct (cap_of_spec n) as [_ Hc].
  destruct (bh_puts_rep puts 0%nat (bh_init n) ∅ Hi) as [Hr Hlen]; [lia|]. eapply bh_get_rep; [exact Hr|]. lia.
Qed.

(** the open-addressing index of the store is a finite map: after any puts, at most
    as many as it was sized for, a lookup yields the last value put under the name, and
    nothing under a name that was never put. *)
Theorem base_hash_is_map (n : nat) (puts : list (bytes * Z)) (base : bytes) (Hsize : (length puts <= n)%nat) :
  bh_get (bh_puts (bh_init n) puts) base = map_puts ∅ puts !! base.
Proof. by apply bh_puts_get. Qed.

Lemma base_hash_is_map_witness :
  bh_get (bh_puts (bh_init 3) [(bs "a", 1); (bs "b", 2); (bs "a", 5)]) (bs "a") = Some 5.
Proof. refine (base_hash_is_map 3 [(bs "a", 1); (bs "b", 2); (bs "a", 5)] (bs "a") _). cbn. lia. Defined.

(** ** The merge, without the tables *)

(** The rows that take part. *)
Definition wanted (tombs : list bytes) (r : UidEnt) : bool :=
  negb (is_nil (ue_base r) || (ue_uid r =? 0)) && negb (existsb (beq (ue_base r)) tombs).

Definition has_base (base : bytes) (mv : list UidEnt) : bool := existsb (fun r => beq (ue_base r) base) mv.

(** A row replaces the one of the same base when its counter is higher. *)
Definition ref_row (mv : list UidEnt) (src : UidEnt) : list UidEnt :=
  if has_base (ue_base src) mv
  then map (fun r => if beq (ue_base r) (ue_base src) && (ue_modseq r <? ue_modseq src) then src else r) mv
  else mv ++ [src].

Definition ref_rows (tombs : list bytes) (rows : list UidEnt) : list UidEnt :=
  foldl ref_row [] (List.filter (wanted tombs) rows).

(** The uids given so far are a list. *)
Definition ref_remint (st : list Z * Z * list UidEnt) (r : UidEnt) : list Z * Z * list UidEnt :=
  let '(seen, un, out) := st in
  if existsb (Z.eqb (ue_uid r)) seen then
    let '(uid, un) := (un, u32 (un + 1)) in
    let '(uid, un) := if uid =? 0 then (un, u32 (un + 1)) else (uid, un) in
    (uid :: seen, un, out ++ [{| ue_base := ue_base r; ue_mid := ue_mid r; ue_uid := uid; ue_modseq := un |}])
  else (ue_uid r :: seen, un, out ++ [r]).

Definition ref_merge (file : option bytes) (tombs : list bytes) (uv un : Z) (v : list UidEnt) : Z * Z * list UidEnt :=
  let '(duv, dun, dv) := uidlist_load file 0 1 in
  let un := Z.max un (if dun =? 0 then 1 else dun) in
  let '(uv, dv, v) := generations duv uv dv v in
  let mv := ref_rows tombs (dv ++ v) in
  let '(_, un, out) := foldl ref_remint ([], past_uids un mv, []) mv in
  (uv, un, out).

Lemma tomb_hash_spec tombs base :
  match tomb_hash tombs with Some h => match bh_get h base with Some _ => true | None => false end | None => false end
  = existsb (beq base) tombs.
Proof.
  unfold tomb_hash. destruct tombs as [|x tombs]; [done|]. set (l := x :: tombs).
  assert (E : foldl (fun h b => bh_put h b.2 (Z.of_nat b.1)) (bh_init (length l)) (imap pair l)
              = bh_puts (bh_init (length l)) (map (fun b => (b.2, Z.of_nat b.1)) (imap pair l))).
  { unfold bh_puts. generalize (bh_init (length l)). generalize (imap pair l). clear. induction l as [|b l IH]; intros h; [done|]. cbn. apply IH. }
  rewrite E, bh_puts_get by (rewrite length_map, length_imap; done). clear E.
  assert (Hm : forall (ps : list (bytes * Z)) (m : gmap bytes Z), is_Some (map_puts m ps !! base) <-> is_Some (m !! base) \/ base ∈ map fst ps).
  { clear. induction ps as [|p ps IH]; intros m; cbn [map_puts foldl map]; [set_solver|].
    fold (map_puts (<[p.1 := p.2]> m) ps). rewrite IH, elem_of_cons. destruct (decide (base = p.1)) as [->|Hne].
    - rewrite lookup_insert_eq. split; [auto|]. intros _. left. by eexists.
    - rewrite lookup_insert_ne by done. naive_solver. }
  specialize (Hm (map (fun b => (b.2, Z.of_nat b.1)) (imap pair l)) ∅).
  rewrite map_map in Hm. cbn [fst] in Hm.
  assert (Hl : map (fun x : nat * bytes => x.2) (imap pair l) = l).
  { apply list_eq. intros i. change (map (fun x : nat * bytes => x.2)) with (fmap (M := list) (fun x : nat * bytes => x.2)).
    rewrite list_lookup_fmap, list_lookup_imap. by destruct (l !! i). }
  rewrite Hl in Hm. destruct (map_puts ∅ _ !! base) as [v|].
  - symmetry. apply existsb_exists. destruct (proj1 Hm ltac:(eauto)) as [[? H]|H]; [by rewrite lookup_empty in H|].
    exists base. split; [by apply list_elem_of_In|apply beq_refl].
  - destruct (existsb (beq base) l) eqn:Ex; [|done]. apply existsb_exists in Ex as (y & Hy & ->%beq_spec).
    apply list_elem_of_In in Hy. destruct (proj2 Hm (or_intror Hy)) as [? H]. done.
Qed.

(** The index holds the position of every merged row. *)
Definition idx_ok (n : nat) (idx : BaseHash) (mv : list UidEnt) : Prop :=
  exists m, bh_rep (length mv) idx m /\ (n < length idx)%nat /\ (length mv <= n)%nat /\
    forall b i, m !! b = Some i <-> 0 <= i /\ exists r, mv !! Z.to_nat i = Some r /\ ue_base r = b.

Lemma has_base_spec base mv : has_base base mv = true <-> exists i r, mv !! i = Some r /\ ue_base r = base.
Proof.
  unfold has_base. rewrite existsb_exists. split.
  - intros (r & Hr & Hb%beq_spec). apply list_elem_of_In, list_elem_of_lookup in Hr as [i Hi]. by exists i, r.
  - intros (i & r & Hi & <-). exists r. split; [apply list_elem_of_In, list_elem_of_lookup; by exists i|apply beq_refl].
Qed.

Lemma merge_row_ref n tombs idx mv src : idx_ok n idx mv -> (length mv < n)%nat \/ wanted tombs src = false ->
  exists idx', merge_row (tomb_hash tombs) (idx, mv) src = (idx', if wanted tombs src then ref_row mv src else mv) /\
    idx_ok n idx' (if wanted tombs src then ref_row mv src else mv).
Proof.
  intros Hok Hlen. unfold merge_row, wanted. rewrite tomb_hash_spec.
  destruct (is_nil (ue_base src) || (ue_uid src =? 0)) eqn:E1; cbn [negb andb]; [by exists idx|].
  destruct (existsb (beq (ue_base src)) tombs) eqn:E2; cbn [negb]; [by exists idx|].
  destruct Hlen as [Hlen|H]; [|unfold wanted in H; by rewrite E1, E2 in H].
  destruct Hok as (m & Hr & Hn & Hmn & Hm). rewrite (bh_get_rep _ _ _ _ Hr) by lia. unfold ref_row.
  destruct (m !! ue_base src) as [i|] eqn:Ei.
  - apply Hm in Ei as (Hi & r & Hri & Hb). rewrite Hri.
    assert (has_base (ue_base src) mv = true) as -> by (apply has_base_spec; eauto).
    assert (Huniq : forall j r', mv !! j = Some r' -> ue_base r' = ue_base src -> j = Z.to_nat i).
    { intros j r' Hj Hb'. assert (m !! ue_base src = Some (Z.of_nat j)) as H1 by (apply Hm; split; [lia|]; rewrite Nat2Z.id; eauto).
      assert (m !! ue_base src = Some i) as H2 by (apply Hm; eauto). assert (Z.of_nat j = i) by congruence. lia. }
    assert (Hmap : map (fun r0 => if beq (ue_base r0) (ue_base src) && (ue_modseq r0 <? ue_modseq src) then src else r0) mv
                   = if ue_modseq src <=? ue_modseq r then mv else <[Z.to_nat i := src]> mv).
    { apply list_eq. intros j. change (map ?f) with (fmap (M := list) f). rewrite list_lookup_fmap.
      destruct (mv !! j) as [x|] eqn:Ej; cbn [fmap option_fmap option_map].
      - destruct (decide (j = Z.to_nat i)) as [->|Hne].
        + assert (x = r) as -> by congruence. rewrite Hb, beq_refl. cbn [andb].
          destruct (Z.leb_spec (ue_modseq src) (ue_modseq r)); destruct (Z.ltb_spec (ue_modseq r) (ue_modseq src)); try lia; [done|].
          rewrite list_lookup_insert_eq; [done|]. by eapply lookup_lt_Some.
        + assert (beq (ue_base x) (ue_base src) = false) as ->.
          { apply Bool.not_true_iff_false. rewrite beq_spec. intros Hx. by apply Hne, (Huniq j x). }
          cbn [andb]. destruct (ue_modseq src <=? ue_modseq r); [done|]. by rewrite list_lookup_insert_ne.
      - destruct (ue_modseq src <=? ue_modseq r); [done|]. symmetry. apply lookup_ge_None. rewrite length_insert. by apply lookup_ge_None. }
    rewrite Hmap. destruct (ue_modseq src <=? ue_modseq r); [exists idx; split; [done|]; by exists m|].
    exists idx. split; [done|]. exists m. rewrite length_insert. do 3 (split; [done|]). intros b i0. split; intros H.
    + apply Hm in H as (H0 & r' & Hr' & Hb'). split; [done|]. destruct (decide (Z.to_nat i0 = Z.to_nat i)) as [E|E].
      * exists src. rewrite E, list_lookup_insert_eq by (by eapply lookup_lt_Some). split; [done|]. rewrite E in Hr'. congruence.
      * exists r'. by rewrite list_lookup_insert_ne.
    + destruct H as (H0 & r' & Hr' & Hb'). apply Hm. split; [done|]. destruct (decide (Z.to_nat i0 = Z.to_nat i)) as [E|E].
      * rewrite E in *. rewrite list_lookup_insert_eq in Hr' by (by eapply lookup_lt_Some). exists r. split; [done|]. congruence.
      * rewrite list_lookup_insert_ne in Hr' by done. by exists r'.
  - assert (has_base (ue_base src) mv = false) as ->.
    { apply Bool.not_true_iff_false. rewrite has_base_spec. intros (j & r & Hj & Hb).
      assert (m !! ue_base src = Some (Z.of_nat j)); [|congruence]. apply Hm. split; [lia|]. rewrite Nat2Z.id. eauto. }
    eexists. split; [done|]. exists (<[ue_base src := Z.of_nat (length mv)]> m). rewrite length_app, bh_put_length. cbn [length].
    replace (length mv + 1)%nat with (S (length mv)) by lia. split; [apply bh_put_rep; [done|lia]|]. split; [done|]. split; [lia|].
    intros b i. destruct (decide (b = ue_base src)) as [->|Hne].
    + rewrite lookup_insert_eq. split.
      * intros [= <-]. split; [lia|]. exists src. rewrite Nat2Z.id. by rewrite list_lookup_middle.
      * intros (H0 & r & Hr' & Hb). destruct (decide (Z.to_nat i < length mv)%nat) as [Hlt|Hge].
        -- rewrite lookup_app_l in Hr' by done. assert (m !! ue_base src = Some i); [apply Hm; eauto|congruence].
        -- f_equal. apply lookup_lt_Some in Hr'. rewrite length_app in Hr'. cbn [length] in Hr'. lia.
    + rewrite lookup_insert_ne by done. rewrite Hm. split; intros (H0 & r & Hr' & Hb); (split; [done|]); exists r; (split; [|done]).
      * rewrite lookup_app_l; [done|]. by eapply lookup_lt_Some.
      * destruct (decide (Z.to_nat i < length mv)%nat) as [Hlt|Hge]; [by rewrite lookup_app_l in Hr'|].
        rewrite lookup_app_r in Hr' by lia. apply list_lookup_singleton_Some in Hr' as [_ <-]. done.
Qed.

Lemma merge_rows_ref n tombs rows idx mv : idx_ok n idx mv -> (length mv + length rows <= n)%nat ->
  (foldl (merge_row (tomb_hash tombs)) (idx, mv) rows).2 = foldl ref_row mv (List.filter (wanted tombs) rows).
Proof.
  revert idx mv. induction rows as [|r rows IH]; intros idx mv Hok Hl; [done|]. cbn [foldl List.filter length] in *.
  destruct (merge_row_ref n tombs idx mv r Hok) as (idx' & -> & Hok'); [left; lia|].
  assert (Hlen : (length (ref_row mv r) <= S (length mv))%nat).
  { unfold ref_row. destruct (has_base _ _); rewrite ?length_map, ?length_app; cbn [length]; lia. }
  rewrite IH; [by destruct (wanted tombs r)|done|]. destruct (wanted tombs r); lia.
Qed.

(** The set of uids against the list of them. *)
Definition us_ok (n : nat) (us : UidSet) (seen : list Z) : Prop :=
  exists m, us_rep n us m /\ forall u, is_Some (m !! u) <-> u ∈ seen.

Lemma us_add_ref n us seen uid : us_ok n us seen -> (n < length us)%nat -> uid <> 0 ->
  (us_add us uid).2 = negb (existsb (Z.eqb uid) seen) /\ us_ok (S n) (us_add us uid).1 (uid :: seen) /\
  length (us_add us uid).1 = length us.
Proof.
  intros (m & Hr & Hm) Hn H0. destruct (us_add_rep n us m uid Hr Hn H0) as (E & Hr' & Hl). split; [|split; [|done]].
  - rewrite E. destruct (existsb (Z.eqb uid) seen) eqn:Ex.
    + apply existsb_exists in Ex as (y & Hy & ->%Z.eqb_eq). rewrite decide_True; [done|]. by apply Hm, list_elem_of_In.
    + rewrite decide_False; [done|]. intros Hs%Hm. assert (existsb (Z.eqb uid) seen = true); [|congruence].
      apply existsb_exists. exists uid. split; [by apply list_elem_of_In|apply Z.eqb_refl].
  - eexists. split; [exact Hr'|]. intros u. destruct (decide (u = uid)) as [->|Hne].
    + rewrite lookup_insert_eq. split; [intros; by left|intros; by eexists].
    + rewrite lookup_insert_ne, Hm, elem_of_cons by done. naive_solver.
Qed.

Lemma us_ok_seen n us seen uid : us_ok n us seen -> uid ∈ seen -> us_ok n us (uid :: seen).
Proof. intros (m & Hr & Hm) Hin. exists m. split; [done|]. intros u. rewrite Hm, elem_of_cons. naive_solver. Qed.

(** The number taken for a re-minted row is never zero. *)
Lemma minted un : exists uid un', (let '(uid, un) := (un, u32 (un + 1)) in if uid =? 0 then (un, u32 (un + 1)) else (uid, un)) = (uid, un') /\ uid <> 0.
Proof.
  lazy beta iota zeta. destruct (Z.eqb_spec un 0) as [->|]; [exists 1, 2; by split|]. exists un, (u32 (un + 1)). by split.
Qed.

Lemma remint_ref rows us seen n un out : us_ok n us seen -> (n + 2 * length rows < length us)%nat ->
  Forall (fun r => ue_uid r <> 0) rows ->
  let a := foldl remint_row (us, un, out) rows in
  let b := foldl ref_remint (seen, un, out) rows in a.1.2 = b.1.2 /\ a.2 = b.2.
Proof.
  revert us seen n un out. induction rows as [|r rows IH]; intros us seen n un out Hok Hl Hf; [done|].
  cbn [foldl length] in *. apply Forall_cons in Hf as [Hr Hf].
  destruct (us_add_ref n us seen (ue_uid r) Hok ltac:(lia) Hr) as (E & Hok1 & Hl1).
  unfold remint_row, ref_remint. fold remint_row ref_remint.
  destruct (us_add us (ue_uid r)) as [us1 fresh]. cbn [fst snd] in *. subst fresh.
  destruct (existsb (Z.eqb (ue_uid r)) seen) eqn:Ex; cbn [negb].
  - destruct (minted un) as (uid & un' & Em & Hu). rewrite !Em.
    assert (Hok1' : us_ok (S n) us1 seen).
    { destruct Hok1 as (m & Hrep & Hm). exists m. split; [done|]. intros u. rewrite Hm, elem_of_cons.
      apply existsb_exists in Ex as (y & Hy & ->%Z.eqb_eq). apply list_elem_of_In in Hy. naive_solver. }
    destruct (us_add_ref (S n) us1 seen uid Hok1' ltac:(lia) Hu) as (_ & Hok2 & Hl2).
    destruct (us_add us1 uid) as [us2 b2]. cbn [fst snd] in *. apply (IH us2 (uid :: seen) (S (S n))); [done|lia|done].
  - apply (IH us1 (ue_uid r :: seen) (S n)); [done|lia|done].
Qed.

Lemma ref_row_from mv r x : x ∈ ref_row mv r -> x = r \/ x ∈ mv.
Proof.
  unfold ref_row. destruct (has_base _ _).
  - intros Hx. apply list_elem_of_In, in_map_iff in Hx as (y & Hy & Hin). apply list_elem_of_In in Hin. case_match; subst; auto.
  - rewrite elem_of_app, list_elem_of_singleton. naive_solver.
Qed.

Lemma ref_rows_from mv rows x : x ∈ foldl ref_row mv rows -> x ∈ rows \/ x ∈ mv.
Proof.
  revert mv. induction rows as [|r rows IH]; intros mv Hx; cbn [foldl] in *; [auto|]. apply IH in Hx as [Hx|Hx%ref_row_from]; set_solver.
Qed.

Lemma ref_rows_length mv rows : (length (foldl ref_row mv rows) <= length mv + length rows)%nat.
Proof.
  revert mv. induction rows as [|r rows IH]; intros mv; cbn [foldl length]; [lia|]. etransitivity; [apply IH|].
  unfold ref_row. destruct (has_base _ _); rewrite ?length_map, ?length_app; cbn [length]; lia.
Qed.

Lemma wanted_from tombs rows r : r ∈ ref_rows tombs rows -> r ∈ rows /\ wanted tombs r = true.
Proof.
  intros Hr. apply ref_rows_from in Hr as [Hr|Hr]; [|by apply not_elem_of_nil in Hr].
  apply list_elem_of_In, filter_In in Hr as [H1 H2]. by split; [apply list_elem_of_In|].
Qed.

Lemma cap_of_double n : (n * 2 <= cap_of n)%nat.
Proof.
  assert (n < 2 ^ n)%nat by (apply Nat.pow_gt_lin_r; lia).
  destruct (cap_loop_spec n 16 n) as (_ & Hd & _); [by exists 4%nat|lia|done].
Qed.

Lemma merge_refines file tombs uv un v : uidlist_merge file tombs uv un v = ref_merge file tombs uv un v.
Proof.
  unfold uidlist_merge, ref_merge. destruct (uidlist_load file 0 1) as [[duv dun] dv].
  set (dun' := if dun =? 0 then 1 else dun).
  assert ((if un >? dun' then un else dun') = Z.max un dun') as -> by (destruct (Z.gtb_spec un dun'); lia).
  destruct (generations duv uv dv v) as [[uv' dv'] v'].
  destruct (bh_init_rep (length v' + length dv')) as [Hi Hl]. destruct (cap_of_spec (length v' + length dv')) as [_ Hc].
  assert (Hok : idx_ok (length v' + length dv') (bh_init (length v' + length dv')) []).
  { exists ∅. split; [exact Hi|]. split; [lia|]. split; [cbn; lia|]. intros b i. rewrite lookup_empty. split; [done|].
    intros (_ & r & Hr & _). done. }
  pose proof (merge_rows_ref _ tombs (dv' ++ v') _ [] Hok) as Hmv. rewrite length_app in Hmv. specialize (Hmv ltac:(cbn; lia)).
  fold (ref_rows tombs (dv' ++ v')) in Hmv.
  destruct (foldl (merge_row (tomb_hash tombs)) _ (dv' ++ v')) as [idx mv]. cbn [snd] in Hmv. subst mv.
  set (mv := ref_rows tombs (dv' ++ v')).
  assert (Hmvl : (length mv <= length v' + length dv')%nat).
  { unfold mv, ref_rows. etransitivity; [apply ref_rows_length|]. cbn [length]. etransitivity; [apply List.filter_length_le|]. rewrite length_app. lia. }
  destruct (us_init_rep (length v' + length dv' + 8)) as [Hu Hul]. pose proof (cap_of_double (length v' + length dv' + 8)) as Hcu.
  assert (Huok : us_ok 0 (us_init (length v' + length dv' + 8)) []).
  { exists ∅. split; [exact Hu|]. intros u. rewrite lookup_empty. split; [intros [? ?]; done|intros H; by apply not_elem_of_nil in H]. }
  assert (Hnz : Forall (fun r => ue_uid r <> 0) mv).
  { apply Forall_forall. intros r Hr. apply wanted_from in Hr as [_ Hw]. unfold wanted in Hw. apply andb_true_iff in Hw as [Hw _].
    apply negb_true_iff, orb_false_iff in Hw as [_ Hw]. by apply Z.eqb_neq. }
  destruct (remint_ref mv _ [] 0 (past_uids (Z.max un dun') mv) [] Huok ltac:(lia) Hnz) as [E1 E2].
  destruct (foldl remint_row _ mv) as [[us un1] out1]. destruct (foldl ref_remint _ mv) as [[seen un2] out2].
  cbn [fst snd] in E1, E2. by subst.
Qed.

(** the merge of the uidlist through its three hash tables is the merge of two
    lists keyed by base name, the disk's rows first, with the uids re-minted from a list
    of those seen: the sizing of the tables is enough for every input. *)
Theorem uidlist_merge_refines (file : option bytes) (tombs : list bytes) (uv un : Z) (v : list UidEnt) :
  uidlist_merge file tombs uv un v = ref_merge file tombs uv un v.
Proof. apply merge_refines. Qed.

(** ** What the merge keeps *)

Lemma ref_row_bases mv r b : b ∈ map ue_base (ref_row mv r) <-> b = ue_base r \/ b ∈ map ue_base mv.
Proof.
  unfold ref_row. destruct (has_base (ue_base r) mv) eqn:E.
  - rewrite map_map. assert (map (fun x => ue_base (if beq (ue_base x) (ue_base r) && (ue_modseq x <? ue_modseq r) then r else x)) mv = map ue_base mv) as ->.
    { apply map_ext. intros x. destruct (beq (ue_base x) (ue_base r)) eqn:Eb; cbn [andb]; [|done]. apply beq_spec in Eb. by destruct (_ <? _). }
    split; [auto|]. intros [->|?]; [|done]. apply has_base_spec in E as (i & x & Hi & <-).
    apply list_elem_of_In, in_map, list_elem_of_In, list_elem_of_lookup. by exists i.
  - rewrite map_app, elem_of_app. cbn [map]. rewrite list_elem_of_singleton. naive_solver.
Qed.

Lemma ref_row_nodup mv r : NoDup (map ue_base mv) -> NoDup (map ue_base (ref_row mv r)).
Proof.
  intros Hn. unfold ref_row. destruct (has_base (ue_base r) mv) eqn:E.
  - rewrite map_map. erewrite map_ext; [exact Hn|]. intros x.
    destruct (beq (ue_base x) (ue_base r)) eqn:Eb; cbn [andb]; [|done]. apply beq_spec in Eb. by destruct (_ <? _).
  - rewrite map_app. apply NoDup_app. split; [done|]. cbn [map]. split; [|apply NoDup_singleton].
    intros b Hb ->%list_elem_of_singleton. apply list_elem_of_In, in_map_iff in Hb as (x & Hx & Hin).
    apply list_elem_of_In, list_elem_of_lookup in Hin as [i Hi].
    assert (has_base (ue_base r) mv = true); [|congruence]. apply has_base_spec. by exists i, x.
Qed.

(** Each row that takes part is covered by one of its base with at least its counter. *)
Definition covers (mv : list UidEnt) (r : UidEnt) : Prop := exists x, x ∈ mv /\ ue_base x = ue_base r /\ ue_modseq r <= ue_modseq x.

Lemma ref_row_covers mv r x : covers mv x \/ x = r -> covers (ref_row mv r) x.
Proof.
  unfold covers, ref_row. destruct (has_base (ue_base r) mv) eqn:E.
  - set (f := fun r0 => if beq (ue_base r0) (ue_base r) && (ue_modseq r0 <? ue_modseq r) then r else r0).
    assert (Hf : forall y, ue_base (f y) = ue_base y /\ ue_modseq y <= ue_modseq (f y) /\ (ue_base y = ue_base r -> ue_modseq r <= ue_modseq (f y))).
    { intros y. unfold f. destruct (beq (ue_base y) (ue_base r)) eqn:Eb; cbn [andb].
      - apply beq_spec in Eb. destruct (Z.ltb_spec (ue_modseq y) (ue_modseq r)); repeat split; try done; lia.
      - repeat split; [lia|]. intros H. by rewrite H, beq_refl in Eb. }
    intros [ (y & Hy & Hb & Hm) | -> ].
    + exists (f y). destruct (Hf y) as (H1 & H2 & _). split; [apply list_elem_of_In, in_map; by apply list_elem_of_In|]. split; [congruence|lia].
    + apply has_base_spec in E as (i & y & Hi & Hb). exists (f y). destruct (Hf y) as (H1 & _ & H3).
      split; [apply list_elem_of_In, in_map, list_elem_of_In, list_elem_of_lookup; by exists i|]. split; [congruence|auto].
  - intros [(y & Hy & Hb & Hm) | -> ]; [exists y|exists r]; rewrite elem_of_app, list_elem_of_singleton; auto with lia.
Qed.

Lemma ref_rows_spec rows mv : NoDup (map ue_base mv) ->
  NoDup (map ue_base (foldl ref_row mv rows)) /\
  (forall b, b ∈ map ue_base (foldl ref_row mv rows) <-> b ∈ map ue_base mv \/ b ∈ map ue_base rows) /\
  (forall x, covers mv x \/ x ∈ rows -> covers (foldl ref_row mv rows) x).
Proof.
  revert mv. induction rows as [|r rows IH]; intros mv Hn; cbn [foldl map].
  - split; [done|]. split; [intros b; rewrite elem_of_nil; naive_solver|]. intros x [?|H]; [done|by apply not_elem_of_nil in H].
  - destruct (IH (ref_row mv r) (ref_row_nodup mv r Hn)) as (H1 & H2 & H3). split; [done|]. split.
    + intros b. rewrite H2, ref_row_bases, elem_of_cons. naive_solver.
    + intros x Hx. apply H3. rewrite elem_of_cons in Hx. destruct Hx as [Hx|[->|Hx]]; [left|left|by right]; apply ref_row_covers; auto.
Qed.

Lemma past_uids_spec mv un B : 0 <= un <= B -> B <= UINT32_MAX -> Forall (fun r => 0 <= ue_uid r < B) mv ->
  un <= past_uids un mv <= B /\ Forall (fun r => ue_uid r < past_uids un mv) mv.
Proof.
  intros Hun HB Hf. revert un Hun. induction Hf as [|r mv Hr Hf IH]; intros un Hun; cbn [past_uids foldl]; [split; [lia|constructor]|].
  fold (past_uids (if ue_uid r >=? un then u32 (ue_uid r + 1) else un) mv).
  destruct (Z.geb_spec (ue_uid r) un).
  - rewrite u32_small by lia. destruct (IH (ue_uid r + 1) ltac:(lia)) as [H1 H2]. split; [lia|]. constructor; [lia|done].
  - destruct (IH un ltac:(lia)) as [H1 H2]. split; [lia|]. constructor; [lia|done].
Qed.

(** A row of the output is one of the input or has a number above all of them. *)
Definition kept_or_minted (un0 : Z) (rows : list UidEnt) (x : UidEnt) : Prop := x ∈ rows \/ un0 <= ue_uid x.

Lemma remint_spec rows seen un un0 out : (forall u, u ∈ seen <-> u ∈ map ue_uid out) -> NoDup (map ue_uid out) ->
  Forall (fun x => 0 < ue_uid x < un) out -> Forall (fun r => 0 < ue_uid r < un0) rows -> un0 <= un ->
  0 < un0 -> un + len rows <= UINT32_MAX ->
  let '(_, un', out') := foldl ref_remint (seen, un, out) rows in
  NoDup (map ue_uid out') /\ Forall (fun x => 0 < ue_uid x < un') out' /\ un <= un' /\
  map ue_base out' = map ue_base out ++ map ue_base rows /\
  (forall i x, out' !! (length out + i)%nat = Some x -> exists r, rows !! i = Some r /\ ue_base x = ue_base r /\ (x = r \/ un0 <= ue_uid x)) /\
  take (length out) out' = out.
Proof.
  revert seen un out. induction rows as [|r rows IH]; intros seen un out Hseen Hn Ho Hr Hun H0 Hlen; cbn [foldl length] in *.
  { rewrite app_nil_r. do 4 (split; [done || lia|]). split; [|by rewrite take_ge].
    intros i x Hx. apply lookup_lt_Some in Hx. lia. }
  apply Forall_cons in Hr as [Hr Hrs]. unfold ref_remint at 2.
  (* one row [x] with its number is put behind [out] *)
  assert (Hstep : forall x un1, ue_base x = ue_base r -> (x = r \/ un0 <= ue_uid x) -> ue_uid x ∉ map ue_uid out ->
            0 < ue_uid x < un1 -> un <= un1 <= un + 1 ->
            let '(_, un', out') := foldl ref_remint (ue_uid x :: seen, un1, out ++ [x]) rows in
            NoDup (map ue_uid out') /\ Forall (fun y => 0 < ue_uid y < un') out' /\ un <= un' /\
            map ue_base out' = map ue_base out ++ map ue_base (r :: rows) /\
            (forall i y, out' !! (length out + i)%nat = Some y -> exists s, (r :: rows) !! i = Some s /\ ue_base y = ue_base s /\ (y = s \/ un0 <= ue_uid y)) /\
            take (length out) out' = out).
  { intros x un1 Hb Hx Hnew Hu1 Hun1. specialize (IH (ue_uid x :: seen) un1 (out ++ [x])).
    destruct (foldl ref_remint (ue_uid x :: seen, un1, out ++ [x]) rows) as [[seen' un'] out'].
    destruct IH as (I1 & I2 & I3 & I4 & I5 & I6).
    - intros u. rewrite elem_of_cons, map_app, elem_of_app, Hseen. cbn [map]. rewrite list_elem_of_singleton. naive_solver.
    - rewrite map_app. apply NoDup_app. split; [done|]. cbn [map]. split; [|apply NoDup_singleton]. by intros y Hy ->%list_elem_of_singleton.
    - apply Forall_app. split; [eapply Forall_impl; [exact Ho|]; cbn; lia|]. by apply Forall_singleton.
    - done.
    - lia.
    - done.
    - lia.
    - rewrite length_app in I5, I6. cbn [length] in I5, I6. split; [done|]. split; [done|]. split; [lia|].
      split; [rewrite I4, map_app, <- app_assoc; cbn [map app]; by rewrite Hb|]. split.
      + intros [|i] y Hy.
        * exists r. split; [done|]. assert (y = x) as ->; [|done].
          apply (f_equal (fun l => l !! (length out)%nat)) in I6. rewrite lookup_take_lt, list_lookup_middle in I6 by (done || lia).
          rewrite Nat.add_0_r in Hy. congruence.
        * apply I5. by replace (length out + 1 + i)%nat with (length out + S i)%nat by lia.
      + apply (f_equal (take (length out))) in I6. rewrite take_take, take_app_length in I6. by rewrite Nat.min_l in I6 by lia. }
  destruct (existsb (Z.eqb (ue_uid r)) seen) eqn:Ex.
  - rewrite u32_small by (unfold UINT32_MAX in *; lia). destruct (Z.eqb_spec un 0); [lia|].
    apply (Hstep {| ue_base := ue_base r; ue_mid := ue_mid r; ue_uid := un; ue_modseq := un + 1 |} (un + 1)); cbn [ue_base ue_uid]; [done|by right| |lia|lia].
    intros Hin. apply list_elem_of_In, in_map_iff in Hin as (y & Hy & Hin). apply list_elem_of_In in Hin.
    rewrite Forall_forall in Ho. apply Ho in Hin. lia.
  - apply (Hstep r un); [done|by left| |lia|lia]. rewrite <- Hseen. intros Hin.
    assert (existsb (Z.eqb (ue_uid r)) seen = true); [|congruence]. apply existsb_exists.
    exists (ue_uid r). split; [by apply list_elem_of_In|apply Z.eqb_refl].
Qed.

(** The rows of the generation that survives, the disk's first, and the disk's
    uidnext. *)
Definition survivors (file : option bytes) (uv : Z) (v : list UidEnt) : list UidEnt :=
  let '(duv, _, dv) := uidlist_load file 0 1 in
  let '(_, dv, v) := generations duv uv dv v in dv ++ v.

Definition disk_next (file : option bytes) : Z := let '(_, dun, _) := uidlist_load file 0 1 in if dun =? 0 then 1 else dun.

Lemma ref_merge_eq file tombs uv un v :
  exists uv', ref_merge file tombs uv un v =
    let mv := ref_rows tombs (survivors file uv v) in
    let '(_, un', out) := foldl ref_remint ([], past_uids (Z.max un (disk_next file)) mv, []) mv in (uv', un', out).
Proof.
  unfold ref_merge, survivors, disk_next. destruct (uidlist_load file 0 1) as [[duv dun] dv].
  destruct (generations duv uv dv v) as [[uv' dv'] v']. by exists uv'.
Qed.

Lemma wanted_in tombs rows r : r ∈ List.filter (wanted tombs) rows <-> r ∈ rows /\ wanted tombs r = true.
Proof. rewrite !list_elem_of_In. apply List.filter_In. Qed.

(** C28: the merge of a session's rows with the file on disk. While the numbers stay
    within 32 bits, no two merged rows share a uid or a base name, every uid is below
    the new uidnext, which rewinds below neither side's; the merged names are exactly
    those of the surviving generation that were not deleted by the session; each of its
    rows is covered by one with at least its change counter or with a new number; and a
    row that is not one of either side carries a number neither side had given out. *)
Theorem uidlist_merge_safe (file : option bytes) (tombs : list bytes) (uv un B : Z) (v : list UidEnt)
    (Hnext : 0 < un <= B /\ disk_next file <= B) (Huids : Forall (fun r => 0 <= ue_uid r < B) (survivors file uv v))
    (Hroom : B + len (survivors file uv v) <= UINT32_MAX) :
  let '(_, un', out) := uidlist_merge file tombs uv un v in
  NoDup (map ue_uid out) /\ NoDup (map ue_base out) /\ Forall (fun x => 0 < ue_uid x < un') out /\
  Z.max un (disk_next file) <= un' /\
  (forall b, b ∈ map ue_base out <-> exists r, r ∈ survivors file uv v /\ wanted tombs r = true /\ ue_base r = b) /\
  (forall r, r ∈ survivors file uv v -> wanted tombs r = true ->
     exists x, x ∈ out /\ ue_base x = ue_base r /\ (ue_modseq r <= ue_modseq x \/ Z.max un (disk_next file) <= ue_uid x)) /\
  (forall x, x ∈ out -> x ∈ survivors file uv v \/ Z.max un (disk_next file) <= ue_uid x).
Proof.
  destruct Hnext as [Hun Hdn]. rewrite merge_refines. destruct (ref_merge_eq file tombs uv un v) as [uv' ->].
  set (rows := survivors file uv v) in *. set (mv := ref_rows tombs rows). set (n0 := Z.max un (disk_next file)).
  assert (Hin : forall r, r ∈ mv -> r ∈ rows /\ wanted tombs r = true) by (intros r; apply wanted_from).
  assert (Hmv : Forall (fun r => 0 <= ue_uid r < B) mv).
  { apply Forall_forall. intros r Hr. rewrite Forall_forall in Huids. apply Huids, (Hin r Hr). }
  assert (Hlen : (length mv <= length rows)%nat).
  { unfold mv, ref_rows. etransitivity; [apply ref_rows_length|]. apply List.filter_length_le. }
  destruct (past_uids_spec mv n0 B) as [Hp Hlt]; [unfold n0; lia|lia|done|].
  destruct (ref_rows_spec (List.filter (wanted tombs) rows) []) as (Hnd & Hbases & Hcov); [constructor|].
  change (foldl ref_row [] (List.filter (wanted tombs) rows)) with mv in Hnd, Hbases, Hcov.
  cbv zeta. fold mv. pose proof (remint_spec mv [] (past_uids n0 mv) (past_uids n0 mv) []) as R. fold n0.
  destruct (foldl ref_remint ([], past_uids n0 mv, []) mv) as [[seen un'] out].
  destruct R as (R1 & R2 & R3 & R4 & R5 & _); [done|constructor|constructor| |lia|unfold n0 in *; lia|lia|].
  { apply Forall_forall. intros r Hr. destruct (Hin r Hr) as [_ Hw]. rewrite Forall_forall in Hlt, Hmv.
    unfold wanted in Hw. apply andb_true_iff in Hw as [Hw _]. apply negb_true_iff, orb_false_iff in Hw as [_ Hw%Z.eqb_neq].
    specialize (Hmv r Hr). specialize (Hlt r Hr). cbn in *. lia. }
  cbn [map app length] in R4, R5. assert (Hb : map ue_base out = map ue_base mv) by done.
  assert (Hrow : forall i r, mv !! i = Some r -> exists x, out !! i = Some x /\ ue_base x = ue_base r /\ (x = r \/ n0 <= ue_uid x)).
  { intros i r Hr. assert (is_Some (out !! i)) as [x Hx].
    { apply lookup_lt_is_Some. rewrite <- (length_map ue_base), Hb, length_map. by eapply lookup_lt_Some. }
    destruct (R5 i x Hx) as (r' & Hr' & Hbx & Hor). exists x. assert (r' = r) as -> by congruence. split; [done|]. split; [done|]. destruct Hor; [by left|right; lia]. }
  split; [done|]. split; [by rewrite Hb|]. split; [done|]. split; [lia|]. split; [|split].
  - intros b. rewrite Hb, Hbases. cbn [map]. rewrite elem_of_nil. split.
    + intros [[]|Hbin]. apply list_elem_of_In, in_map_iff in Hbin as (r & <- & Hr). apply list_elem_of_In, wanted_in in Hr as [? ?]. by exists r.
    + intros (r & Hr & Hw & <-). right. apply list_elem_of_In, in_map, list_elem_of_In, wanted_in. by split.
  - intros r Hr Hw. destruct (Hcov r) as (y & Hy & Hyb & Hym); [right; apply wanted_in; by split|].
    apply list_elem_of_lookup in Hy as [i Hi]. destruct (Hrow i y Hi) as (x & Hx & Hxb & Hor).
    exists x. split; [apply list_elem_of_lookup; by exists i|]. split; [congruence|]. destruct Hor as [->|?]; [by left|by right].
  - intros x Hx. apply list_elem_of_lookup in Hx as [i Hi]. destruct (R5 i x Hi) as (r & Hr & _ & [->|?]); [left|right; lia].
    apply Hin, list_elem_of_lookup. by exists i.
Qed.

Definition merge_w_file : option bytes := Some (bs "7 3" ++ [LF] ++ bs "1 a 5" ++ [LF] ++ bs "2 b 1" ++ [LF]).
Definition merge_w_rows : list UidEnt := [{| ue_base := bs "c"; ue_mid := []; ue_uid := 1; ue_modseq := 2 |}].

Lemma uidlist_merge_safe_witness :
  let '(_, un', out) := uidlist_merge merge_w_file [] 7 2 merge_w_rows in NoDup (map ue_uid out) /\ un' = 4.
Proof.
  assert (H : let '(_, un', out) := uidlist_merge merge_w_file [] 7 2 merge_w_rows in NoDup (map ue_uid out)).
  { pose proof (uidlist_merge_safe merge_w_file [] 7 2 3 merge_w_rows) as H.
    assert (survivors merge_w_file 7 merge_w_rows = [{| ue_base := bs "a"; ue_mid := []; ue_uid := 1; ue_modseq := 5 |};
      {| ue_base := bs "b"; ue_mid := []; ue_uid := 2; ue_modseq := 1 |}; {| ue_base := bs "c"; ue_mid := []; ue_uid := 1; ue_modseq := 2 |}]) as E
      by (vm_compute; reflexivity).
    assert (disk_next merge_w_file = 3) as E' by (vm_compute; reflexivity). rewrite E, E' in H.
    specialize (H ltac:(lia)). specialize (H ltac:(repeat constructor; cbn; lia)). specialize (H ltac:(unfold UINT32_MAX; cbn; lia)).
    destruct (uidlist_merge merge_w_file [] 7 2 merge_w_rows) as [[a b] c]. exact (proj1 H). }
  assert (E : (uidlist_merge merge_w_file [] 7 2 merge_w_rows).1.2 = 4) by (vm_compute; reflexivity).
  destruct (uidlist_merge merge_w_file [] 7 2 merge_w_rows) as [[a b] c]. split; [exact H|exact E].
Defined.

(** ** The file is read back *)

(** A row a file can hold: a name without a space, and fields without a newline. *)
Definition row_ok (e : UidEnt) : Prop :=
  ue_base e <> [] /\ " "%chr ∉ ue_base e /\ LF ∉ ue_base e /\ 0 ∉ ue_base e /\ LF ∉ ue_mid e /\ 0 ∉ ue_mid e /\
  0 < ue_uid e <= UINT32_MAX /\ 0 <= ue_modseq e <= UINT64_MAX.

Lemma digits_not_space c : is_digit c = true -> is_space c = false /\ (c =? "-"%chr) = false /\ (c =? "+"%chr) = false /\ (c =? LF) = false /\ (c =? " "%chr) = false.
Proof. unfold is_digit, is_space. lia. Qed.

(** A printed number followed by a byte that is no digit is scanned. *)
Lemma scan_digits ds v r : digits ds -> ds <> [] -> dec_value 0 ds = v -> 0 <= v <= UINT64_MAX ->
  (forall c, head r = Some c -> is_digit c = false) ->
  scan_llu (ds ++ r) = Some v /\ drop_while is_digit (ds ++ r) = r.
Proof.
  intros Hd Hne Hv Hr Hh. destruct ds as [|d ds]; [done|]. pose proof (Forall_inv Hd) as Hdig. cbv beta in Hdig.
  destruct (digits_not_space d Hdig) as (H1 & H2 & H3 & _). unfold digits in Hd.
  assert (Htw : take_while is_digit ((d :: ds) ++ r) = d :: ds /\ drop_while is_digit ((d :: ds) ++ r) = r).
  { rewrite take_while_app_all, drop_while_app_all by done. destruct r as [|c r]; [by rewrite app_nil_r|].
    rewrite take_while_stop, drop_while_stop by (by apply Hh). by rewrite app_nil_r. }
  destruct Htw as [Ht Hdw]. split; [|done]. unfold scan_llu. rewrite <- app_comm_cons, drop_while_stop by done.
  rewrite H2, H3. rewrite app_comm_cons, Ht, Hv. destruct (Z.gtb_spec v UINT64_MAX); [lia|done].
Qed.

Lemma print_digits n v : 0 <= v < 10 ^ Z.of_nat n -> (0 < n)%nat ->
  exists ds, dec_digits n v [] = ds /\ digits ds /\ ds <> [] /\ dec_value 0 ds = v.
Proof.
  intros Hv Hn. destruct (dec_digits_spec n v [] Hv Hn) as (ds & E & Hd & Hne & _ & Hval).
  exists ds. rewrite E, app_nil_r. repeat split; [done..|]. rewrite Hval. lia.
Qed.

Lemma to_nl_lf l r : LF ∉ l -> to_nl (l ++ LF :: r) = l /\ from_nl (l ++ LF :: r) = LF :: r.
Proof.
  intros H. assert (Forall (fun c => negb (c =? LF) = true) l).
  { apply Forall_forall. intros x Hx. apply negb_true_iff, Z.eqb_neq. congruence. }
  unfold to_nl, from_nl. rewrite take_while_app_all, drop_while_app_all by done.
  by rewrite take_while_stop, drop_while_stop, app_nil_r by reflexivity.
Qed.

Lemma digits_no_lf ds : digits ds -> LF ∉ ds /\ " "%chr ∉ ds /\ 0 ∉ ds.
Proof.
  intros Hd. unfold digits in Hd. rewrite Forall_forall in Hd.
  repeat split; intros Hin; apply Hd in Hin; discriminate Hin.
Qed.

(** The tail of a printed row. *)
Lemma row_tail_print modseq mid r : 0 <= modseq <= UINT64_MAX -> LF ∉ mid ->
  row_tail (Some (print_u64 modseq ++ (if is_nil mid then [] else " "%chr :: mid) ++ LF :: r)) = (modseq, mid).
Proof.
  intros Hm Hmid. destruct (print_digits 20 modseq) as (ds & E & Hd & Hne & Hv); [unfold UINT64_MAX in Hm; lia|lia|].
  unfold print_u64. rewrite E. clear E. unfold row_tail. destruct mid as [|c mid]; cbn [is_nil app].
  - destruct (scan_digits ds modseq (LF :: r)) as [-> ->]; [done..|by intros c [= <-]|]. done.
  - destruct (scan_digits ds modseq (" "%chr :: c :: mid ++ LF :: r)) as [-> ->]; [done..|by intros x [= <-]|].
    destruct (to_nl_lf (c :: mid) r Hmid) as [T _]. cbn [app] in T. by rewrite T.
Qed.

Lemma load_row_print e r : row_ok e -> load_row (print_row e ++ r) = Some (e, LF :: r).
Proof.
  intros (Hne & Hsp & Hlf & H0 & Hmlf & _ & Hu & Hm). unfold load_row, print_row.
  destruct (print_digits 10 (ue_uid e)) as (ds & E & Hd & Hdn & Hv); [unfold UINT32_MAX in Hu; lia|lia|].
  unfold print_u32. rewrite E. clear E.
  set (tl := if is_nil (ue_mid e) then [] else " "%chr :: ue_mid e).
  do 2 (rewrite <- !app_assoc; cbn [app]). rewrite <- !app_assoc. cbn [app].
  set (q := ue_base e ++ " "%chr :: print_u64 (ue_modseq e) ++ tl ++ LF :: r).
  destruct (scan_digits ds (ue_uid e) (" "%chr :: q)) as [-> ->]; [done|done|done|unfold UINT32_MAX, UINT64_MAX in *; lia|by intros c [= <-]|].
  rewrite Z.eqb_refl. cbn [negb].
  assert (Htl : LF ∉ tl) by (unfold tl; destruct (ue_mid e); [apply not_elem_of_nil|cbn [is_nil]; rewrite not_elem_of_cons; by split]).
  destruct (print_digits 20 (ue_modseq e)) as (dm & Em & Hdm & _); [unfold UINT64_MAX in Hm; lia|lia|].
  assert (Hq : q = (ue_base e ++ " "%chr :: print_u64 (ue_modseq e) ++ tl) ++ LF :: r).
  { unfold q. rewrite <- app_assoc, <- app_comm_cons, <- app_assoc. done. }
  assert (Hnl : to_nl q = ue_base e ++ " "%chr :: print_u64 (ue_modseq e) ++ tl /\ from_nl q = LF :: r).
  { rewrite Hq. apply to_nl_lf. unfold print_u64. rewrite Em, !not_elem_of_app, not_elem_of_cons, not_elem_of_app.
    repeat split; try done. by apply digits_no_lf. }
  destruct Hnl as [Hn1 Hn2]. rewrite Hn1, Hn2.
  assert (Htw : take_while (fun c => negb (c =? " "%chr)) (ue_base e ++ " "%chr :: print_u64 (ue_modseq e) ++ tl) = ue_base e).
  { rewrite take_while_app_all, take_while_stop, app_nil_r; [done|done|]. apply Forall_forall. intros x Hx. apply negb_true_iff, Z.eqb_neq. congruence. }
  rewrite Htw. destruct (is_nil (ue_base e)) eqn:En; [by destruct (ue_base e)|].
  rewrite length_app. cbn [length]. rewrite (proj2 (Nat.ltb_lt _ _)) by lia.
  assert (drop (S (length (ue_base e))) q = print_u64 (ue_modseq e) ++ tl ++ LF :: r) as ->.
  { unfold q. rewrite <- Nat.add_1_r, <- drop_drop, drop_app_length. done. }
  unfold tl. rewrite row_tail_print by done.
  destruct (Z.eqb_spec (ue_uid e) 0); [lia|]. destruct (Z.gtb_spec (ue_uid e) UINT32_MAX); [lia|]. by destruct e.
Qed.

Lemma load_rows_print rows fuel : Forall row_ok rows -> (length (concat (map print_row rows)) <= fuel)%nat ->
  load_rows fuel (concat (map print_row rows)) = rows.
Proof.
  intros Hr. revert fuel. induction Hr as [|e rows He Hr IH]; intros fuel Hf; [by destruct fuel|]. cbn [map concat] in *.
  pose proof (load_row_print e (concat (map print_row rows)) He) as E.
  destruct fuel as [|fuel].
  { rewrite length_app in Hf. unfold print_row in Hf. rewrite length_app in Hf. cbn [length] in Hf. lia. }
  destruct (print_row e ++ concat (map print_row rows)) as [|c t] eqn:Es; [by apply app_eq_nil in Es as [Es _]; unfold print_row in Es; apply app_eq_nil in Es as [_ ?]|].
  cbn [load_rows]. rewrite E. f_equal. apply IH. rewrite <- Es, length_app in Hf.
  assert (length (print_row e) <> 0)%nat by (unfold print_row; rewrite length_app; cbn [length]; lia). lia.
Qed.

(** a uidlist that is written is read back as it was: the validity, the next uid and
    every row with its name, number, change counter and Message-ID, whatever the values
    the caller had before. *)
Theorem uidlist_round_trip (uv un uv0 un0 : Z) (rows : list UidEnt)
    (Huv : 0 <= uv <= UINT32_MAX) (Hun : 0 <= un <= UINT32_MAX) (Hrows : Forall row_ok rows) :
  uidlist_load (Some (print_uidlist uv un rows)) uv0 un0 = (uv, un, rows).
Proof.
  unfold UINT32_MAX in Huv, Hun. unfold uidlist_load, print_uidlist.
  destruct (print_digits 10 uv) as (da & Ea & Hda & Hna & Hva); [lia|lia|].
  destruct (print_digits 10 un) as (db & Eb & Hdb & Hnb & Hvb); [lia|lia|].
  set (body := concat (map print_row rows)). cbv zeta. unfold print_u32. rewrite Ea, Eb. clear Ea Eb.
  assert (H0 : 0 ∉ body).
  { unfold body. induction Hrows as [|e rows He Hr IH]; [apply not_elem_of_nil|]. cbn [map concat]. rewrite not_elem_of_app. split; [|done].
    destruct He as (_ & _ & _ & Hb0 & _ & Hm0 & Hu & Hm). unfold print_row, print_u32, print_u64.
    destruct (print_digits 10 (ue_uid e)) as (d1 & -> & Hd1 & _); [unfold UINT32_MAX in Hu; lia|lia|].
    destruct (print_digits 20 (ue_modseq e)) as (d2 & -> & Hd2 & _); [unfold UINT64_MAX in Hm; lia|lia|].
    apply digits_no_lf in Hd1 as (_ & _ & Hd1), Hd2 as (_ & _ & Hd2).
    rewrite !not_elem_of_app, not_elem_of_cons, !not_elem_of_app, not_elem_of_cons, !not_elem_of_app.
    repeat split; try done; [|by intros ?%list_elem_of_singleton]. destruct (is_nil (ue_mid e)); [apply not_elem_of_nil|].
    rewrite not_elem_of_cons. by split. }
  destruct (digits_no_lf da Hda) as (La & _ & Za), (digits_no_lf db Hdb) as (Lb & _ & Zb).
  rewrite c_str_clean by (rewrite !not_elem_of_app, not_elem_of_cons, not_elem_of_app, not_elem_of_cons; by repeat split).
  unfold scan_two. destruct (scan_digits da uv (" "%chr :: db ++ LF :: body)) as [-> Hdw]; [done|done|done|unfold UINT64_MAX; lia|by intros c [= <-]|].
  assert (Hskip : drop_while is_space (da ++ " "%chr :: db ++ LF :: body) = da ++ " "%chr :: db ++ LF :: body /\
    match da ++ " "%chr :: db ++ LF :: body with c :: t => if (c =? "-"%chr) || (c =? "+"%chr) then t else da ++ " "%chr :: db ++ LF :: body | [] => [] end
      = da ++ " "%chr :: db ++ LF :: body).
  { destruct da as [|d da]; [done|]. destruct (digits_not_space d (Forall_inv Hda)) as (H1 & H2 & H3 & _). cbn [app].
    rewrite drop_while_stop by done. by rewrite H2, H3. }
  destruct Hskip as [-> Hsk]. destruct (da ++ " "%chr :: db ++ LF :: body) as [|c0 t0] eqn:Es; [by destruct da|]. rewrite Hsk, Hdw.
  assert (scan_llu (" "%chr :: db ++ LF :: body) = scan_llu (db ++ LF :: body)) as ->.
  { unfold scan_llu. by cbn [drop_while]. }
  destruct (scan_digits db un (LF :: body)) as [-> _]; [done|done|done|unfold UINT64_MAX; lia|by intros c [= <-]|].
  unfold UINT32_MAX. destruct (Z.gtb_spec uv 4294967295); [lia|]. destruct (Z.gtb_spec un 4294967295); [lia|].
  assert (from_nl (c0 :: t0) = LF :: body) as ->.
  { rewrite <- Es. change (da ++ " "%chr :: db ++ LF :: body) with (da ++ (" "%chr :: db) ++ LF :: body). rewrite app_assoc.
    apply to_nl_lf. rewrite not_elem_of_app, not_elem_of_cons. by repeat split. }
  unfold body. by rewrite load_rows_print.
Qed.

Lemma uidlist_round_trip_witness :
  uidlist_load (Some (print_uidlist 7 3 [{| ue_base := bs "a.b"; ue_mid := bs "<x y>"; ue_uid := 2; ue_modseq := 9 |}])) 0 1
  = (7, 3, [{| ue_base := bs "a.b"; ue_mid := bs "<x y>"; ue_uid := 2; ue_modseq := 9 |}]).
Proof.
  apply (uidlist_round_trip 7 3 0 1); [unfold UINT32_MAX; lia|unfold UINT32_MAX; lia|]. constructor; [|constructor].
  unfold row_ok. cbn [ue_base ue_mid ue_uid ue_modseq]. unfold UINT32_MAX, UINT64_MAX.
  repeat split; try lia; try discriminate; apply has_false; reflexivity.
Defined.
