(* ===== verification/MailHdrs.v ===== *)
(** * The header cache of a mailbox (src/src/imap_maildir.c)

    The bounded header read, the six cached fields of a message, and the sidecar
    ["imapd-hdrs"] as it is written and read. The packed block of a message is the list
    of its six values; contents of a file are an argument. Allocations succeed. *)

From S2P Require Import Prelude Json MailHeader OutboxSubmit MailStore MailUid.

(** ** The header block *)

Definition IMAPD_HDR_CAP : nat := Z.to_nat 262144.

(** The two loops of [mail_hdr_end], from index [i] on. *)
Fixpoint hdr_end_crlf (s : bytes) (i : nat) : option nat :=
  match s with
  | a :: (b :: c :: d :: _) as t =>
      if (a =? CR) && (b =? LF) && (c =? CR) && (d =? LF) then Some (i + 4)%nat else hdr_end_crlf t (S i)
  | _ => None
  end.

Fixpoint hdr_end_lf (s : bytes) (i : nat) : option nat :=
  match s with
  | a :: (b :: _) as t => if (a =? LF) && (b =? LF) then Some (i + 2)%nat else hdr_end_lf t (S i)
  | _ => None
  end.

Definition mail_hdr_end (msg : bytes) : nat :=
  match hdr_end_crlf msg 0 with
  | Some n => n
  | None => match hdr_end_lf msg 0 with Some n => n | None => length msg end
  end.

(** The reading loop: [got] is what was read, [rest] what the file still holds. *)
Fixpoint read_hdr_loop (fuel : nat) (got rest : bytes) : bytes :=
  match fuel with
  | O => got
  | S fuel' =>
      if (length got <? IMAPD_HDR_CAP)%nat then
        let need := Nat.min 8192 (IMAPD_HDR_CAP - length got) in
        match take need rest with
        | [] => got
        | chunk =>
            let got := got ++ chunk in
            if (mail_hdr_end got <? length got)%nat then got else read_hdr_loop fuel' got (drop need rest)
        end
      else got
  end.

(** [imapd_read_hdr] on the contents of the file. *)
Definition imapd_read_hdr (file : bytes) : bytes :=
  let got := read_hdr_loop 33 [] file in take (mail_hdr_end got) got.

(** ** The cached fields *)

Definition IH_NFIELDS : nat := 6.
Definition MAIL_HDR_FIELDS : list bytes := [bs "From"; bs "To"; bs "Cc"; bs "Bcc"; bs "Subject"; bs "Date"].

(** [mail_hdr_build]: the six values, empty when absent. *)
Definition mail_hdr_build (hdrblk : bytes) : list bytes :=
  map (fun name => default [] (mail_header_get hdrblk name (IMAPD_MAX_LINE + 1))) MAIL_HDR_FIELDS.

Fixpoint hdr_fld_loop (fields : list bytes) (name : bytes) (i : Z) : Z :=
  match fields with [] => -1 | f :: t => if ieq name f then i else hdr_fld_loop t name (i + 1) end.

Definition imapd_mail_hdr_fld (name : bytes) : Z := hdr_fld_loop MAIL_HDR_FIELDS name 0.

(** [imapd_msgid_of_buf]: the empty list for a null pointer. *)
Definition imapd_msgid_of_buf (msg : bytes) : bytes :=
  if is_nil msg then [] else default [] (mail_header_get msg (bs "Message-ID") 1024).

(** ** The sidecar *)

Definition hdrs_escape_char (c : Z) : bytes :=
  if c =? TAB then bs "\t" else if c =? LF then bs "\n" else if c =? CR then bs "\r" else if c =? "\"%chr then bs "\\" else [c].

Definition hdrs_escape (s : bytes) : bytes := concat (map hdrs_escape_char s).

Fixpoint hdrs_unescape (s : bytes) : bytes :=
  match s with
  | [] => []
  | c :: t =>
      if c =? "\"%chr then
        match t with
        | [] => [c]
        | d :: t' =>
            (if d =? "t"%chr then TAB else if d =? "n"%chr then LF else if d =? "r"%chr then CR else d) :: hdrs_unescape t'
        end
      else c :: hdrs_unescape t
  end.

(** One cached row: the uid, the values and the guard taken when they were extracted. *)
Record HdrRow := { hr_f : list bytes; hr_uid : Z; hr_fsize : Z; hr_mtime : Z; hr_ctime : Z }.

(** [mail_hdrs_row], with the newline its caller writes behind it. *)
Definition mail_hdrs_row (r : HdrRow) : bytes :=
  print_u32 (hr_uid r) ++ concat (map (fun v => TAB :: hdrs_escape v) (hr_f r))
  ++ TAB :: print_z (hr_fsize r) ++ TAB :: print_z (hr_mtime r) ++ TAB :: print_z (hr_ctime r).

(** The number at the head of a row: digits only, a uint32_t, the value 0 for a number
    that does not fit. *)
Fixpoint row_uid (s : bytes) (uid : Z) : option Z :=
  match s with
  | [] => Some uid
  | c :: t =>
      if is_digit c then
        if uid >? (UINT32_MAX - (c - "0"%chr)) / 10 then None else row_uid t (uid * 10 + (c - "0"%chr))
      else None
  end.

(** The split at every TAB. *)
Fixpoint split_tab (s : bytes) : list bytes :=
  match s with
  | [] => [[]]
  | c :: t =>
      if c =? TAB then [] :: split_tab t
      else match split_tab t with [] => [[c]] | f :: fs => (c :: f) :: fs end
  end.

(** [sscanf(s, "%lld", &v)]: as for ["%llu"], with the range of an int64_t. *)
Definition scan_lld (s : bytes) : option Z :=
  let s := drop_while is_space s in
  let '(neg, s) := match s with
                   | c :: t => if c =? "-"%chr then (true, t) else if c =? "+"%chr then (false, t) else (false, s)
                   | [] => (false, s)
                   end in
  match take_while is_digit s with
  | [] => None
  | ds => let v := dec_value 0 ds in Some (if neg : bool then Z.max (- v) (- 2 ^ 63) else Z.min v (2 ^ 63 - 1))
  end.

(** One line of the sidecar. *)
Definition hdrs_line (line : bytes) : option HdrRow :=
  match split_tab line with
  | uidf :: cols =>
      if is_nil uidf then None
      else match row_uid uidf 0 with
           | None => None
           | Some uid =>
               if uid =? 0 then None
               else if negb (length cols =? IH_NFIELDS + 3)%nat then None
               else match scan_llu (nth 6 cols []), scan_lld (nth 7 cols []), scan_lld (nth 8 cols []) with
                    | Some sz, Some mt, Some ct =>
                        Some {| hr_f := map hdrs_unescape (take IH_NFIELDS cols); hr_uid := uid; hr_fsize := sz; hr_mtime := mt; hr_ctime := ct |}
                    | _, _, _ => None
                    end
           end
  | [] => None
  end.

(** The loop over the lines: an empty one is skipped, a malformed one ends it. *)
Fixpoint hdrs_rows (fuel : nat) (p : bytes) : list HdrRow :=
  match fuel, p with
  | O, _ | _, [] => []
  | S fuel', _ =>
      let line := line_of p in
      match after_line p with
      | [] => if is_nil line then [] else match hdrs_line line with None => [] | Some r => [r] end
      | _ :: p' =>
          if is_nil line then hdrs_rows fuel' p'
          else match hdrs_line line with None => [] | Some r => r :: hdrs_rows fuel' p' end
      end
  end.

(** [mail_hdrs_load] on the contents of the sidecar: the validity and the rows. *)
Definition mail_hdrs_load (file : option bytes) : Z * list HdrRow :=
  match file with
  | None => (0, [])
  | Some buf =>
      let p := c_str buf in
      match after_line p with
      | [] => (0, [])
      | _ :: rows =>
          (match scan_llu p with Some a => if a <=? UINT32_MAX then a else 0 | None => 0 end, hdrs_rows (length rows) rows)
      end
  end.

(** What [mail_hdrs_save] writes for the loaded rows. *)
Definition print_hdrs (uidvalidity : Z) (rows : list HdrRow) : bytes :=
  print_u32 uidvalidity ++ LF :: concat (map (fun r => mail_hdrs_row r ++ [LF]) rows).

Example esc1 : hdrs_unescape (hdrs_escape (bs "a\b" ++ [TAB; LF; CR])) = bs "a\b" ++ [TAB; LF; CR]. Proof. vm_compute. reflexivity. Qed.
Example hdr1 : imapd_read_hdr (bs "A: b" ++ [CR; LF; CR; LF] ++ bs "body") = bs "A: b" ++ [CR; LF; CR; LF]. Proof. vm_compute. reflexivity. Qed.
