(* ===== verification/MailHdrsSpec.v ===== *)
(** * What the header cache of a mailbox promises

    A cached row is read back as it was written, whatever bytes its values hold; the
    bounded header read stops exactly at the end of the header block. *)

From S2P Require Import Prelude Json OutboxSubmit MailStore MailUid MailUidSpec MailStoreSpec MailHdrs.

(** ** The escapes *)

Lemma unescape_escape s r : hdrs_unescape (hdrs_escape s ++ r) = s ++ hdrs_unescape r.
Proof.
  induction s as [|c s IH]; [done|]. unfold hdrs_escape in *. cbn [map concat]. rewrite <- app_assoc.
  set (tl := concat (map hdrs_escape_char s) ++ r) in *. clearbody tl. unfold hdrs_escape_char.
  destruct (Z.eqb_spec c TAB) as [->|]; [change (TAB :: hdrs_unescape tl = TAB :: s ++ hdrs_unescape r); by rewrite IH|].
  destruct (Z.eqb_spec c LF) as [->|]; [change (LF :: hdrs_unescape tl = LF :: s ++ hdrs_unescape r); by rewrite IH|].
  destruct (Z.eqb_spec c CR) as [->|]; [change (CR :: hdrs_unescape tl = CR :: s ++ hdrs_unescape r); by rewrite IH|].
  destruct (Z.eqb_spec c "\"%chr) as [->|Hc]; [change ("\"%chr :: hdrs_unescape tl = "\"%chr :: s ++ hdrs_unescape r); by rewrite IH|].
  cbn [app hdrs_unescape]. rewrite (proj2 (Z.eqb_neq _ _)) by done. by rewrite IH.
Qed.

Lemma escape_clean s : TAB ∉ hdrs_escape s /\ LF ∉ hdrs_escape s /\ (0 ∉ s -> 0 ∉ hdrs_escape s).
Proof.
  induction s as [|c s (I1 & I2 & I3)]; [repeat split; intros; apply not_elem_of_nil|]. unfold hdrs_escape in *. cbn [map concat].
  assert (Hc : TAB ∉ hdrs_escape_char c /\ LF ∉ hdrs_escape_char c /\ (c <> 0 -> 0 ∉ hdrs_escape_char c)).
  { unfold hdrs_escape_char.
    destruct (Z.eqb_spec c TAB); [repeat split; intros; apply has_false; reflexivity|].
    destruct (Z.eqb_spec c LF); [repeat split; intros; apply has_false; reflexivity|].
    destruct (Z.eqb_spec c CR); [repeat split; intros; apply has_false; reflexivity|].
    destruct (Z.eqb_spec c "\"%chr); [repeat split; intros; apply has_false; reflexivity|].
    repeat split; intros; rewrite list_elem_of_singleton; congruence. }
  destruct Hc as (C1 & C2 & C3). rewrite !not_elem_of_app, not_elem_of_cons. split; [done|]. split; [done|].
  intros [H1 H2]. split; [apply C3; congruence|auto].
Qed.

(** ** A row *)

Lemma split_tab_field f r : TAB ∉ f -> split_tab (f ++ TAB :: r) = f :: split_tab r.
Proof.
  induction f as [|c f IH]; intros Hf; [done|]. apply not_elem_of_cons in Hf as [Hc Hf].
  cbn [app split_tab]. rewrite (proj2 (Z.eqb_neq c TAB)) by congruence. by rewrite IH.
Qed.

Lemma split_tab_last f : TAB ∉ f -> split_tab f = [f].
Proof.
  induction f as [|c f IH]; intros Hf; [done|]. apply not_elem_of_cons in Hf as [Hc Hf].
  cbn [split_tab]. rewrite (proj2 (Z.eqb_neq c TAB)) by congruence. by rewrite IH.
Qed.

(** What a row can hold: six values without NUL, and numbers of their widths. *)
Definition hrow_ok (r : HdrRow) : Prop :=
  length (hr_f r) = IH_NFIELDS /\ Forall (fun v => 0 ∉ v) (hr_f r) /\ 0 < hr_uid r <= UINT32_MAX /\
  0 <= hr_fsize r <= UINT64_MAX /\ - 2 ^ 63 < hr_mtime r < 2 ^ 63 /\ - 2 ^ 63 < hr_ctime r < 2 ^ 63.

Lemma row_uid_spec ds v : digits ds -> 0 <= v -> dec_value v ds <= UINT32_MAX -> row_uid ds v = Some (dec_value v ds).
Proof.
  intros Hd. revert v. induction Hd as [|c ds Hc Hd IH]; intros v Hv Hm; [done|]. cbn [row_uid]. rewrite Hc.
  change (dec_value v (c :: ds)) with (dec_value (v * 10 + (c - "0"%chr)) ds) in *.
  assert (Hge : forall x, 0 <= x -> x <= dec_value x ds).
  { clear - Hd. induction Hd as [|d ds Hc Hd IH]; intros x Hx; [cbn; lia|].
    change (dec_value x (d :: ds)) with (dec_value (x * 10 + (d - "0"%chr)) ds). unfold is_digit in Hc.
    etransitivity; [|apply IH; lia]. lia. }
  unfold is_digit in Hc. specialize (Hge (v * 10 + (c - "0"%chr)) ltac:(lia)).
  destruct (Z.gtb_spec v ((UINT32_MAX - (c - "0"%chr)) / 10)) as [Hgt|_]; [|apply IH; [lia|done]].
  assert (UINT32_MAX - (c - "0"%chr) < v * 10); [|lia].
  pose proof (Z.div_mod (UINT32_MAX - (c - "0"%chr)) 10 ltac:(lia)). pose proof (Z.mod_pos_bound (UINT32_MAX - (c - "0"%chr)) 10 ltac:(lia)). lia.
Qed.

Lemma print_z_digits z : 0 <= z <= UINT64_MAX -> exists ds, print_z z = ds /\ digits ds /\ ds <> [] /\ dec_value 0 ds = z.
Proof.
  intros Hz. unfold print_z. destruct (Z.ltb_spec z 0); [lia|]. apply print_digits; [unfold UINT64_MAX in Hz; lia|lia].
Qed.

Lemma scan_llu_print z : 0 <= z <= UINT64_MAX -> scan_llu (print_z z) = Some z.
Proof.
  intros Hz. destruct (print_z_digits z Hz) as (ds & -> & Hd & Hn & Hv). rewrite <- (app_nil_r ds).
  by apply (scan_digits ds z []).
Qed.

Lemma scan_lld_print z : - 2 ^ 63 < z < 2 ^ 63 -> scan_lld (print_z z) = Some z.
Proof.
  intros Hz. destruct (print_z_digits (Z.abs z)) as (ds & Hp & Hd & Hn & Hv); [unfold UINT64_MAX; lia|].
  assert (Htw : take_while is_digit ds = ds) by (by apply take_while_id).
  destruct ds as [|d ds]; [done|]. destruct (digits_not_space d (Forall_inv Hd)) as (H1 & H2 & H3 & _).
  unfold print_z in *. destruct (Z.ltb_spec (Z.abs z) 0); [lia|]. unfold scan_lld. destruct (Z.ltb_spec z 0).
  - rewrite Z.abs_neq in Hp, Hv by lia. rewrite Hp. rewrite drop_while_stop by done. rewrite Z.eqb_refl, Htw, Hv. f_equal. lia.
  - rewrite Z.abs_eq in Hp, Hv by lia. rewrite Hp. rewrite drop_while_stop by done. rewrite H2, H3, Htw, Hv. f_equal. lia.
Qed.

Lemma print_z_clean z : - 2 ^ 63 < z <= UINT64_MAX -> TAB ∉ print_z z /\ LF ∉ print_z z /\ 0 ∉ print_z z.
Proof.
  intros Hz. destruct (print_z_digits (Z.abs z)) as (ds & Hp & Hd & _); [unfold UINT64_MAX in *; lia|].
  assert (Hno : forall x, is_digit x = false -> x ∉ ds).
  { intros x Hx Hin. unfold digits in Hd. rewrite Forall_forall in Hd. apply Hd in Hin. congruence. }
  unfold print_z in *. destruct (Z.ltb_spec (Z.abs z) 0); [lia|]. destruct (Z.ltb_spec z 0).
  - rewrite Z.abs_neq in Hp by lia. rewrite Hp, !not_elem_of_cons. repeat split; try discriminate; by apply Hno.
  - rewrite Z.abs_eq in Hp by lia. rewrite Hp. repeat split; by apply Hno.
Qed.

Lemma print_u32_z v : 0 <= v <= UINT32_MAX -> exists ds, print_u32 v = ds /\ digits ds /\ ds <> [] /\ dec_value 0 ds = v.
Proof. intros Hv. apply print_digits; [unfold UINT32_MAX in Hv; lia|lia]. Qed.

(** The columns of a printed row. *)
Lemma split_tab_row fs u a b c : TAB ∉ u -> TAB ∉ a -> TAB ∉ b -> TAB ∉ c ->
  split_tab (u ++ concat (map (fun v => TAB :: hdrs_escape v) fs) ++ TAB :: a ++ TAB :: b ++ TAB :: c)
  = u :: map hdrs_escape fs ++ [a; b; c].
Proof.
  intros Hu Ha Hb Hc. revert u Hu. induction fs as [|f fs IH]; intros u Hu; cbn [map concat app].
  - by rewrite !split_tab_field, split_tab_last by done.
  - rewrite <- app_assoc. rewrite split_tab_field by done. f_equal. apply IH, escape_clean.
Qed.

Lemma hdrs_line_row r : hrow_ok r -> hdrs_line (mail_hdrs_row r) = Some r.
Proof.
  intros (Hl & Hnul & Hu & Hs & Hm & Hc). unfold hdrs_line, mail_hdrs_row.
  destruct (print_u32_z (hr_uid r) ltac:(lia)) as (ds & -> & Hd & Hne & Hv).
  rewrite split_tab_row; [|intros Hin; unfold digits in Hd; rewrite Forall_forall in Hd; apply Hd in Hin; discriminate Hin
    |apply print_z_clean; unfold UINT64_MAX in *; lia..].
  assert (is_nil ds = false) as -> by (by destruct ds). rewrite row_uid_spec by (done || lia || rewrite Hv; lia). rewrite Hv.
  destruct (Z.eqb_spec (hr_uid r) 0); [lia|]. rewrite length_app, length_map, Hl. cbn [length IH_NFIELDS Nat.add Nat.eqb negb].
  unfold IH_NFIELDS in *. rewrite !app_nth2 by (rewrite length_map, Hl; lia). rewrite length_map, Hl. cbn [Nat.sub nth].
  rewrite scan_llu_print, !scan_lld_print by lia.
  assert (take 6 (map hdrs_escape (hr_f r) ++ [print_z (hr_fsize r); print_z (hr_mtime r); print_z (hr_ctime r)]) = map hdrs_escape (hr_f r)) as ->.
  { rewrite <- Hl, <- (length_map hdrs_escape). apply take_app_length. }
  rewrite map_map. assert (map (fun x => hdrs_unescape (hdrs_escape x)) (hr_f r) = hr_f r) as ->.
  { rewrite <- (map_id (hr_f r)) at 2. apply map_ext. intros v. rewrite <- (app_nil_r (hdrs_escape v)), unescape_escape. apply app_nil_r. }
  by destruct r.
Qed.

Lemma hdrs_row_clean r : hrow_ok r -> LF ∉ mail_hdrs_row r /\ 0 ∉ mail_hdrs_row r /\ mail_hdrs_row r <> [].
Proof.
  intros (Hl & Hnul & Hu & Hs & Hm & Hc). unfold mail_hdrs_row.
  destruct (print_u32_z (hr_uid r) ltac:(lia)) as (ds & -> & Hd & Hne & _). destruct (digits_no_lf ds Hd) as (D1 & _ & D2).
  destruct (print_z_clean (hr_fsize r)) as (_ & A1 & A2); [unfold UINT64_MAX in *; lia|].
  destruct (print_z_clean (hr_mtime r)) as (_ & B1 & B2); [unfold UINT64_MAX in *; lia|].
  destruct (print_z_clean (hr_ctime r)) as (_ & C1 & C2); [unfold UINT64_MAX in *; lia|].
  assert (Hf : LF ∉ concat (map (fun v => TAB :: hdrs_escape v) (hr_f r)) /\ 0 ∉ concat (map (fun v => TAB :: hdrs_escape v) (hr_f r))).
  { clear - Hnul. induction Hnul as [|v fs Hv _ [I1 I2]]; [split; apply not_elem_of_nil|]. cbn [map concat].
    destruct (escape_clean v) as (_ & E1 & E2). rewrite <- app_comm_cons, !not_elem_of_cons, !not_elem_of_app. repeat split; try done. by apply E2. }
  revert A1 A2 B1 B2 C1 C2 Hf. generalize (print_z (hr_fsize r)) (print_z (hr_mtime r)) (print_z (hr_ctime r))
    (concat (map (fun v => TAB :: hdrs_escape v) (hr_f r))). intros a b c f A1 A2 B1 B2 C1 C2 [F1 F2].
  rewrite !not_elem_of_app, !not_elem_of_cons, !not_elem_of_app, !not_elem_of_cons, !not_elem_of_app, !not_elem_of_cons.
  split; [by repeat split|]. split; [by repeat split|]. by destruct ds.
Qed.

Lemma hdrs_rows_print rows fuel : Forall hrow_ok rows -> (length (concat (map (fun r => mail_hdrs_row r ++ [LF]) rows)) <= fuel)%nat ->
  hdrs_rows fuel (concat (map (fun r => mail_hdrs_row r ++ [LF]) rows)) = rows.
Proof.
  intros Hr. revert fuel. induction Hr as [|r rows Hr _ IH]; intros fuel Hf; [by destruct fuel|]. cbn [map concat] in *.
  destruct (hdrs_row_clean r Hr) as (H1 & _ & H3). rewrite <- app_assoc in *. cbn [app] in *.
  set (tl := concat (map (fun r => mail_hdrs_row r ++ [LF]) rows)) in *.
  destruct (line_of_lf (mail_hdrs_row r) tl H1) as [El Ee].
  assert (Ea : after_line (mail_hdrs_row r ++ LF :: tl) = LF :: tl).
  { unfold eat in Ee. destruct (after_line _) as [|c t]; [done|]. destruct (Z.eqb_spec c LF) as [->|]; congruence. }
  rewrite length_app in Hf. cbn [length] in Hf.
  destruct fuel as [|fuel]; [lia|]. destruct (mail_hdrs_row r ++ LF :: tl) as [|c t] eqn:Es; [by destruct (mail_hdrs_row r)|].
  cbn [hdrs_rows]. rewrite El, Ea. destruct (is_nil (mail_hdrs_row r)) eqn:En; [by destruct (mail_hdrs_row r)|].
  rewrite hdrs_line_row by done. f_equal. apply IH. lia.
Qed.

(** the header sidecar that is written is read back as it was: the validity and
    every row with its six values, whatever tabs, newlines and backslashes they hold,
    and its guard. *)
Theorem hdrs_round_trip (uv : Z) (rows : list HdrRow) (Huv : 0 <= uv <= UINT32_MAX) (Hrows : Forall hrow_ok rows) :
  mail_hdrs_load (Some (print_hdrs uv rows)) = (uv, rows).
Proof.
  unfold mail_hdrs_load, print_hdrs. set (body := concat (map (fun r => mail_hdrs_row r ++ [LF]) rows)).
  destruct (print_u32_z uv Huv) as (ds & -> & Hd & Hne & Hv). destruct (digits_no_lf ds Hd) as (D1 & _ & D2).
  assert (H0 : 0 ∉ body).
  { unfold body. clear - Hrows. induction Hrows as [|r rows Hr _ IH]; [apply not_elem_of_nil|]. cbn [map concat].
    rewrite !not_elem_of_app. destruct (hdrs_row_clean r Hr) as (_ & ? & _). repeat split; [done|by intros ?%list_elem_of_singleton|done]. }
  rewrite c_str_clean by (rewrite not_elem_of_app, not_elem_of_cons; by repeat split). cbv zeta.
  destruct (line_of_lf ds body D1) as [_ Ee].
  assert (after_line (ds ++ LF :: body) = LF :: body) as ->.
  { unfold eat in Ee. destruct (after_line _) as [|c t]; [done|]. destruct (Z.eqb_spec c LF) as [->|]; congruence. }
  destruct (scan_digits ds uv (LF :: body)) as [-> _]; [done..|unfold UINT32_MAX, UINT64_MAX in *; lia|by intros c [= <-]|].
  rewrite (proj2 (Z.leb_le uv UINT32_MAX)) by lia. unfold body. by rewrite hdrs_rows_print.
Qed.

Lemma hdrs_round_trip_witness :
  mail_hdrs_load (Some (print_hdrs 7 [{| hr_f := [bs "a\b"; [TAB]; []; []; [LF]; bs "d"]; hr_uid := 3; hr_fsize := 10; hr_mtime := 5; hr_ctime := 5 |}]))
  = (7, [{| hr_f := [bs "a\b"; [TAB]; []; []; [LF]; bs "d"]; hr_uid := 3; hr_fsize := 10; hr_mtime := 5; hr_ctime := 5 |}]).
Proof.
  apply hdrs_round_trip; [unfold UINT32_MAX; lia|]. constructor; [|constructor]. unfold hrow_ok, UINT32_MAX, UINT64_MAX.
  cbn [hr_f hr_uid hr_fsize hr_mtime hr_ctime]. split; [reflexivity|]. split; [|lia].
  repeat (apply Forall_cons; split; [apply has_false; reflexivity|]). constructor.
Defined.

(** ** The bounded read *)

Lemma hdr_end_crlf_app s r i n : hdr_end_crlf s i = Some n -> hdr_end_crlf (s ++ r) i = Some n.
Proof.
  revert i. induction s as [|a s IH]; intros i H; [done|]. destruct s as [|b [|c [|d t]]]; try done. cbn [hdr_end_crlf app] in *.
  destruct ((a =? CR) && (b =? LF) && (c =? CR) && (d =? LF)); [done|]. by apply IH.
Qed.

Lemma hdr_end_lf_app s r i n : hdr_end_lf s i = Some n -> hdr_end_lf (s ++ r) i = Some n.
Proof.
  revert i. induction s as [|a s IH]; intros i H; [done|]. destruct s as [|b t]; [done|]. cbn [hdr_end_lf app] in *.
  destruct ((a =? LF) && (b =? LF)); [done|]. by apply IH.
Qed.

Lemma hdr_end_crlf_none s r i : hdr_end_crlf (s ++ r) i = None -> hdr_end_crlf s i = None.
Proof. intros H. destruct (hdr_end_crlf s i) as [n|] eqn:E; [|done]. apply (hdr_end_crlf_app _ r) in E. congruence. Qed.

Lemma hdr_end_lf_none s r i : hdr_end_lf (s ++ r) i = None -> hdr_end_lf s i = None.
Proof. intros H. destruct (hdr_end_lf s i) as [n|] eqn:E; [|done]. apply (hdr_end_lf_app _ r) in E. congruence. Qed.

(** A header block as the protocol writes it: it ends at its only blank line. *)
Definition hdr_block (h : bytes) : Prop :=
  hdr_end_crlf h 0 = Some (length h) /\ hdr_end_crlf (removelast h) 0 = None /\ hdr_end_lf h 0 = None.

(** Where the header ends in what was read so far. *)
Lemma mail_hdr_end_prefix h r n : hdr_block h -> mail_hdr_end (take n (h ++ r)) = Nat.min (length h) (length (take n (h ++ r))).
Proof.
  intros (H1 & H2 & H3). destruct (decide (length h <= n)%nat) as [Hge|Hlt].
  - rewrite take_app_ge by done. unfold mail_hdr_end. rewrite (hdr_end_crlf_app _ _ _ _ H1), length_app. lia.
  - rewrite take_app_le by lia. unfold mail_hdr_end.
    assert (Hne : h <> []) by (intros ->; cbn in Hlt; lia).
    assert (E : removelast h = take n h ++ drop n (removelast h)).
    { rewrite <- (take_drop n (removelast h)) at 1. f_equal.
      rewrite (app_removelast_last 0 Hne) at 2. rewrite take_app_le; [done|].
      rewrite (app_removelast_last 0 Hne) in Hlt. rewrite length_app in Hlt. cbn [length] in Hlt. lia. }
    rewrite E in H2. rewrite (hdr_end_crlf_none _ _ _ H2). rewrite <- (take_drop n h) in H3. rewrite (hdr_end_lf_none _ _ _ H3).
    rewrite length_take. lia.
Qed.

Lemma read_hdr_loop_prefix h r fuel n : hdr_block h -> (length h <= IMAPD_HDR_CAP)%nat -> (n <= length (h ++ r))%nat -> (n <= IMAPD_HDR_CAP)%nat ->
  (IMAPD_HDR_CAP <= n + 8192 * fuel)%nat ->
  exists m, read_hdr_loop fuel (take n (h ++ r)) (drop n (h ++ r)) = take m (h ++ r) /\ (length h <= m)%nat.
Proof.
  intros Hb Hcap. revert n. induction fuel as [|fuel IH]; intros n Hn Hnc Hf; [exists n; split; [done|lia]|]. cbn [read_hdr_loop].
  rewrite length_take, Nat.min_l by done. destruct (Nat.ltb_spec n IMAPD_HDR_CAP) as [Hlt|Hge].
  2: { exists n. split; [done|]. lia. }
  set (need := Nat.min 8192 (IMAPD_HDR_CAP - n)). set (s := h ++ r) in *. assert (Hneed : (0 < need)%nat) by lia.
  destruct (take need (drop n s)) as [|c chunk] eqn:Ec.
  { exists n. split; [done|]. apply (f_equal length) in Ec. rewrite length_take, length_drop in Ec. cbn [length] in Ec.
    assert (length h <= length s)%nat by (unfold s; rewrite length_app; lia). lia. }
  rewrite <- Ec. assert (Eg : take n s ++ take need (drop n s) = take (n + need) s) by apply take_take_drop.
  rewrite Eg. unfold s. rewrite mail_hdr_end_prefix by done. fold s.
  destruct (Nat.ltb_spec (Nat.min (length h) (length (take (n + need) s))) (length (take (n + need) s))) as [Hl|Hl].
  - exists (n + need)%nat. split; [done|]. rewrite length_take in Hl. lia.
  - rewrite drop_drop. destruct (decide (n + need <= length s)%nat) as [Hle|Hgt].
    + apply IH; [done|lia|]. unfold need. lia.
    + rewrite take_ge by lia. rewrite drop_ge by lia. exists (length s). rewrite take_ge by lia.
      split; [|unfold s; rewrite length_app; lia]. destruct fuel as [|fuel]; [done|]. cbn [read_hdr_loop].
      destruct (length s <? IMAPD_HDR_CAP)%nat; [|done]. by rewrite take_nil.
Qed.

(** the bounded read of a message yields its header block up to and with the blank
    line, whatever body follows, for every block of at most 256 KiB, however the reads
    fall. *)
Theorem read_hdr_exact (h body : bytes) (Hblock : hdr_block h) (Hcap : (length h <= IMAPD_HDR_CAP)%nat) :
  imapd_read_hdr (h ++ body) = h.
Proof.
  unfold imapd_read_hdr. assert (HC : (IMAPD_HDR_CAP <= 0 + 8192 * 33)%nat).
  { unfold IMAPD_HDR_CAP. apply Nat2Z.inj_le. rewrite Nat2Z.inj_add, Nat2Z.inj_mul, Z2Nat.id by lia.
    change (Z.of_nat 0) with 0. change (Z.of_nat 33) with 33. replace (Z.of_nat 8192) with 8192 by (vm_compute; reflexivity). lia. }
  destruct (read_hdr_loop_prefix h body 33 0 Hblock Hcap ltac:(lia) ltac:(lia) HC) as (m & E & Hm).
  change (take 0 (h ++ body)) with (@nil Z) in E. change (drop 0 (h ++ body)) with (h ++ body) in E. rewrite E. cbv zeta. rewrite mail_hdr_end_prefix by done.
  rewrite length_take, length_app. replace (Nat.min (length h) (Nat.min m (length h + length body))) with (length h) by lia.
  rewrite take_take, Nat.min_l by done. apply take_app_length.
Qed.

Lemma read_hdr_exact_witness : imapd_read_hdr ((bs "A: b" ++ [CR; LF; CR; LF]) ++ bs "body") = bs "A: b" ++ [CR; LF; CR; LF].
Proof.
  apply read_hdr_exact; [repeat split; vm_compute; reflexivity|]. apply Nat.leb_le. vm_compute. reflexivity.
Defined.
