(* ===== verification/MailBox.v ===== *)
(** * Mailboxes on the maildir (src/src/imap_maildir.c)

    The scan of a mailbox into a view, the operations on the view, the delivery of a
    message and its registration. The file system is a class of operations on paths,
    whose laws are in [MailFsLaws]; the clock, the unique part of a new file name and of
    a temporary file, and what a field that is never set holds are arguments. *)

From S2P Require Import Prelude MailLines Json MailStore MailUid MailHdrs.

(** ** The file system *)

Record FStat := { st_size : Z; st_mtime : Z; st_ctime : Z }.

(** The outcome of writing a file: it could not be opened, a write failed, or all of it
    was written. *)
Inductive WOut := WOpen | WFail | WDone.

Class MailFs := {
  fs : Type;
  fs_read : fs -> bytes -> option bytes;          (* the contents of a file *)
  fs_stat : fs -> bytes -> option FStat;          (* of a regular file *)
  fs_isdir : fs -> bytes -> bool;
  fs_list : fs -> bytes -> option (list bytes);   (* a directory in the order of readdir *)
  fs_mkdir_p : fs -> bytes -> fs * bool;
  fs_rename : fs -> bytes -> bytes -> fs * bool;
  fs_unlink : fs -> bytes -> fs;
  fs_write : fs -> bytes -> bytes -> fs * WOut;   (* create or truncate, and write *)
  fs_lock : fs -> bytes -> fs * bool              (* open and flock the lock file *)
}.

(** What the code relies on: a call that fails leaves the files as they were, one that
    succeeds changes the paths it names; a rename keeps contents, size and mtime. *)
Class MailFsLaws `{MailFs} := {
  rename_read f a b f' ok p : fs_rename f a b = (f', ok) ->
    fs_read f' p = if ok then if decide (p = b) then fs_read f a else if decide (p = a) then None else fs_read f p else fs_read f p;
  rename_ok f a b f' : fs_rename f a b = (f', true) -> is_Some (fs_read f a);
  unlink_read f a p : fs_read (fs_unlink f a) p = fs_read f p \/ (p = a /\ fs_read (fs_unlink f a) p = None);
  write_read f a s f' out p : fs_write f a s = (f', out) -> p <> a \/ out = WOpen -> fs_read f' p = fs_read f p;
  write_done f a s f' : fs_write f a s = (f', WDone) -> fs_read f' a = Some s;
  mkdir_read f a f' ok p : fs_mkdir_p f a = (f', ok) -> fs_read f' p = fs_read f p;
  lock_read f a f' ok p : fs_lock f a = (f', ok) -> p <> a -> fs_read f' p = fs_read f p
}.

(** ** The view *)

Record Imail := {
  im_uid : Z; im_flags : Z; im_unk : bytes; im_recent : bool; im_date : Z; im_size : Z; im_modseq : Z;
  im_base : bytes; im_path : bytes; im_mid : bytes;
  im_hdr : option (list bytes); im_hdr_fsize : Z; im_hdr_mtime : Z; im_hdr_ctime : Z;
  im_hdr_loaded : bool; im_hdr_valid : bool
}.

Record Mbox := {
  mb_dir : bytes; mb_uidvalidity : Z; mb_uidnext : Z; mb_highestmodseq : Z;
  mb_msgs : list Imail; mb_uidmap : list UidEnt; mb_uidlist_dirty : bool; mb_tomb : list bytes; mb_hdrs_dirty : bool
}.

Definition IMAPD_UIDLIST_FILE : bytes := bs "imapd-uidlist".
Definition IMAPD_HDRS_FILE : bytes := bs "imapd-hdrs".

Definition uidlist_path (dir : bytes) : bytes := dir ++ bs "/" ++ IMAPD_UIDLIST_FILE.
Definition hdrs_path (dir : bytes) : bytes := dir ++ bs "/" ++ IMAPD_HDRS_FILE.

(** [imapd_mail_hdr_field]. *)
Definition imapd_mail_hdr_field (m : Imail) (fld : nat) : option bytes :=
  match im_hdr m with None => None | Some fs => fs !! fld end.

(** The view entry with other flags and another place. *)
Definition set_path (m : Imail) (path : bytes) : Imail :=
  {| im_uid := im_uid m; im_flags := im_flags m; im_unk := im_unk m; im_recent := im_recent m; im_date := im_date m;
     im_size := im_size m; im_modseq := im_modseq m; im_base := im_base m; im_path := path; im_mid := im_mid m;
     im_hdr := im_hdr m; im_hdr_fsize := im_hdr_fsize m; im_hdr_mtime := im_hdr_mtime m; im_hdr_ctime := im_hdr_ctime m;
     im_hdr_loaded := im_hdr_loaded m; im_hdr_valid := im_hdr_valid m |}.

Definition set_flags (m : Imail) (flags modseq : Z) : Imail :=
  {| im_uid := im_uid m; im_flags := flags; im_unk := im_unk m; im_recent := im_recent m; im_date := im_date m;
     im_size := im_size m; im_modseq := modseq; im_base := im_base m; im_path := im_path m; im_mid := im_mid m;
     im_hdr := im_hdr m; im_hdr_fsize := im_hdr_fsize m; im_hdr_mtime := im_hdr_mtime m; im_hdr_ctime := im_hdr_ctime m;
     im_hdr_loaded := im_hdr_loaded m; im_hdr_valid := im_hdr_valid m |}.

(** The header cache of an entry: the values, the guard and whether it is valid. *)
Definition set_hdr (m : Imail) (hdr : list bytes) (fsize mtime ctime : Z) (valid : bool) : Imail :=
  {| im_uid := im_uid m; im_flags := im_flags m; im_unk := im_unk m; im_recent := im_recent m; im_date := im_date m;
     im_size := im_size m; im_modseq := im_modseq m; im_base := im_base m; im_path := im_path m; im_mid := im_mid m;
     im_hdr := Some hdr; im_hdr_fsize := fsize; im_hdr_mtime := mtime; im_hdr_ctime := ctime;
     im_hdr_loaded := true; im_hdr_valid := valid |}.

Definition set_valid (m : Imail) : Imail :=
  {| im_uid := im_uid m; im_flags := im_flags m; im_unk := im_unk m; im_recent := im_recent m; im_date := im_date m;
     im_size := im_size m; im_modseq := im_modseq m; im_base := im_base m; im_path := im_path m; im_mid := im_mid m;
     im_hdr := im_hdr m; im_hdr_fsize := im_hdr_fsize m; im_hdr_mtime := im_hdr_mtime m; im_hdr_ctime := im_hdr_ctime m;
     im_hdr_loaded := im_hdr_loaded m; im_hdr_valid := true |}.

Section Mailbox.
Context `{HF : MailFs}.
(** The pid and thread of a temporary name, and what [scan_add] leaves in [hdr_ctime]. *)
Context (tmp_suffix : bytes) (uninit : Z).

(** ** Writing the sidecars *)

(** [fopen], the writes, the flush and the rename over [path]: whether all of it
    succeeded; the temporary file does not stay. *)
Definition publish (f : fs) (tmp path contents : bytes) : fs * bool :=
  match fs_write f tmp contents with
  | (f, WOpen) => (f, false)
  | (f, WFail) => (fs_unlink f tmp, false)
  | (f, WDone) =>
      let '(f, ok) := fs_rename f tmp path in
      if negb ok then (fs_unlink f tmp, false) else (f, true)
  end.

(** [imapd_uidlist_save]: the files, the uid that is saved for [probe], whether it
    returns 0. *)
Definition imapd_uidlist_save (f : fs) (dir : bytes) (tombs : list bytes) (uv un : Z) (v : list UidEnt) (probe : bytes)
    : fs * Z * bool :=
  let path := uidlist_path dir in
  let '(f, locked) := fs_lock f (path ++ bs ".lock") in
  let '(wuv, wun, wv) := if locked then uidlist_merge (fs_read f path) tombs uv un v else (uv, un, v) in
  let '(f, ok) := publish f (path ++ bs ".tmp." ++ tmp_suffix) path (print_uidlist wuv wun wv) in
  (f, if ok then probe_uid wv probe else 0, ok).

(** The rows [mail_hdrs_save] writes: the loaded ones. *)
Definition hdr_rows (msgs : list Imail) : list HdrRow :=
  omap (fun m => if im_hdr_loaded m then
                   match im_hdr m with
                   | Some fields => Some {| hr_f := fields; hr_uid := im_uid m; hr_fsize := im_hdr_fsize m;
                                            hr_mtime := im_hdr_mtime m; hr_ctime := im_hdr_ctime m |}
                   | None => None
                   end
                 else None) msgs.

Definition mail_hdrs_save (f : fs) (mb : Mbox) : fs * bool :=
  let path := hdrs_path (mb_dir mb) in
  publish f (path ++ bs ".tmp") path (print_hdrs (mb_uidvalidity mb) (hdr_rows (mb_msgs mb))).

(** [imapd_mbox_close]: the files after the dirty sidecars were written. *)
Definition imapd_mbox_close (f : fs) (mb : Mbox) : fs :=
  let f := if mb_hdrs_dirty mb then (mail_hdrs_save f mb).1 else f in
  if mb_uidlist_dirty mb
  then (imapd_uidlist_save f (mb_dir mb) (mb_tomb mb) (mb_uidvalidity mb) (mb_uidnext mb) (mb_uidmap mb) []).1.1
  else f.

(** ** The header cache *)

Definition MAIL_HDR_MSGCOST : Z := 512.

(** [imapd_mail_ensure_hdrs]: the result, the entry, the budget and whether the cache
    became dirty. *)
Definition imapd_mail_ensure_hdrs (f : fs) (m : Imail) (budget : option Z) : Z * Imail * option Z * bool :=
  if im_hdr_valid m then (1, m, budget, false)
  else match fs_stat f (im_path m) with
       | None => (-1, m, budget, false)
       | Some st =>
           let short := match budget with Some b => b <? MAIL_HDR_MSGCOST | None => false end in
           if im_hdr_loaded m && (im_hdr_fsize m =? st_size st) && (im_hdr_mtime m =? st_mtime st) && (im_hdr_ctime m =? st_ctime st)
           then if short then (0, m, budget, false)
                else (1, set_valid m, (fun b => b - MAIL_HDR_MSGCOST) <$> budget, false)
           else if short then (0, m, budget, false)
           else match fs_read f (im_path m) with
                | None => (-1, m, budget, false)
                | Some file =>
                    let hdrblk := imapd_read_hdr file in
                    let cost := MAIL_HDR_MSGCOST + len hdrblk in
                    (1, set_hdr m (mail_hdr_build hdrblk) (st_size st) (st_mtime st) (st_ctime st) true,
                     (fun b => if b <? cost then 0 else b - cost) <$> budget, true)
                end
       end.

(** ** The scan *)

Definition imapd_mbox_create (f : fs) (dir : bytes) : fs * bool :=
  let '(f, ok) := fs_mkdir_p f (dir ++ bs "/tmp") in
  if negb ok then (f, false)
  else let '(f, ok) := fs_mkdir_p f (dir ++ bs "/new") in
       if negb ok then (f, false)
       else fs_mkdir_p f (dir ++ bs "/cur").

Record ScanSt := {
  sc_msgs : list Imail; sc_map : list UidEnt; sc_next : Z; sc_changed : bool; sc_hdrs : bool; sc_high : Z
}.

(** The Message-ID of a new file, from its header block; a block that reached the cap
    without one is read again in full. *)
Definition scan_mid (file hdrblk : bytes) : bytes :=
  let mid := imapd_msgid_of_buf hdrblk in
  if is_nil mid && (IMAPD_HDR_CAP <=? length hdrblk)%nat then imapd_msgid_of_buf file else mid.

(** [scan_add], with the cache of a new file installed behind it. *)
Definition scan_entry_add (st : ScanSt) (uid flags : Z) (unk : bytes) (is_new : bool) (fst_ : FStat) (modseq : Z)
    (base path mid : bytes) (hdrblk : option bytes) : ScanSt :=
  let m := {| im_uid := uid; im_flags := flags; im_unk := take (IMAPD_MAX_UNK - 1) unk; im_recent := is_new;
              im_date := st_mtime fst_; im_size := st_size fst_; im_modseq := modseq; im_base := base; im_path := path;
              im_mid := mid; im_hdr := None; im_hdr_fsize := 0; im_hdr_mtime := 0; im_hdr_ctime := uninit;
              im_hdr_loaded := false; im_hdr_valid := false |} in
  let m := match hdrblk with
           | Some h => set_hdr m (mail_hdr_build h) (st_size fst_) (st_mtime fst_) uninit true
           | None => m
           end in
  {| sc_msgs := sc_msgs st ++ [m]; sc_map := sc_map st; sc_next := sc_next st; sc_changed := sc_changed st;
     sc_hdrs := sc_hdrs st; sc_high := if modseq >? sc_high st then modseq else sc_high st |}.

(** What a directory entry names: the base and the flags, [None] for a name that is
    skipped. *)
Definition entry_name (name : bytes) : option (bytes * Z * bytes) :=
  match name with
  | [] => None
  | c :: _ =>
      if c =? "."%chr then None
      else match cut ":"%chr name with
           | Some (base, inf) =>
               match imapd_flags_parse inf 32 with None => None | Some (flags, unk) => Some (base, flags, unk) end
           | None => Some (name, 0, [])
           end
  end.

(** One entry of the directory; [old] looks a base up in the uidlist that was read. *)
Definition scan_entry (f : fs) (sub_dir : bytes) (is_new : bool) (old : bytes -> option UidEnt) (st : ScanSt) (name : bytes) : ScanSt :=
  match entry_name name with
  | None => st
  | Some (base, flags, unk) =>
      let path := sub_dir ++ bs "/" ++ name in
      if 4160 <=? len path then st
      else match fs_stat f path with
           | None => st
           | Some fst_ =>
               match old base with
               | Some e => scan_entry_add st (ue_uid e) flags unk is_new fst_ (ue_modseq e) base path (ue_mid e) None
               | None =>
                   let uid := sc_next st in
                   let next := u32 (uid + 1) in
                   let hdrblk := imapd_read_hdr <$> fs_read f path in
                   let mid := match fs_read f path with Some file => scan_mid file (imapd_read_hdr file) | None => [] end in
                   let st := {| sc_msgs := sc_msgs st; sc_next := next; sc_changed := true; sc_hdrs := true; sc_high := sc_high st;
                                sc_map := sc_map st ++ [{| ue_base := base; ue_mid := mid; ue_uid := uid; ue_modseq := next |}] |} in
                   scan_entry_add st uid flags unk is_new fst_ next base path mid hdrblk
               end
           end
  end.

(** [scan_subdir]: [None] when it returns -1. *)
Definition scan_subdir (f : fs) (dir sub : bytes) (is_new : bool) (old : bytes -> option UidEnt) (st : ScanSt) : option ScanSt :=
  let sub_dir := dir ++ bs "/" ++ sub in
  match fs_list f sub_dir with
  | None => None
  | Some names => Some (foldl (scan_entry f sub_dir is_new old) st names)
  end.

(** [qsort] by [imail_uid_cmp]. *)
Fixpoint sort_insert (m : Imail) (l : list Imail) : list Imail :=
  match l with [] => [m] | x :: t => if im_uid x <=? im_uid m then x :: sort_insert m t else m :: x :: t end.

Definition sort_msgs (l : list Imail) : list Imail := foldl (fun acc m => sort_insert m acc) [] l.

(** The two rows walked together. *)
Fixpoint hydrate (fuel : nat) (msgs : list Imail) (rows : list HdrRow) : list Imail :=
  match fuel with
  | O => msgs
  | S fuel' =>
      match msgs, rows with
      | m :: ms, r :: rs =>
          if im_hdr_loaded m then m :: hydrate fuel' ms rows
          else if hr_uid r <? im_uid m then hydrate fuel' msgs rs
          else if hr_uid r >? im_uid m then m :: hydrate fuel' ms rows
          else set_hdr m (hr_f r) (hr_fsize r) (hr_mtime r) (hr_ctime r) (im_hdr_valid m) :: hydrate fuel' ms rs
      | _, _ => msgs
      end
  end.

(** The loop that drops the rows without a file: the last row takes the place of a
    dropped one. *)
Fixpoint prune (fuel : nat) (keep : UidEnt -> bool) (i : nat) (map_ : list UidEnt) (tombs : list bytes) (changed : bool)
    : list UidEnt * list bytes * bool :=
  match fuel with
  | O => (map_, tombs, changed)
  | S fuel' =>
      match map_ !! i with
      | None => (map_, tombs, changed)
      | Some e =>
          if keep e then prune fuel' keep (S i) map_ tombs changed
          else
            let last_ := default e (last map_) in
            let map' := take (length map_ - 1) (<[i := last_]> map_) in
            prune fuel' keep i map' (tomb_add tombs (ue_base e)) true
      end
  end.

(** Files of new/ move to cur/. *)
Fixpoint move_loop (f : fs) (dir : bytes) (msgs : list Imail) : fs * list Imail :=
  match msgs with
  | [] => (f, [])
  | m :: ms =>
      let '(f, m) :=
        if im_recent m then
          match imapd_flags_encode (im_flags m) (im_unk m) 32 with
          | None => (f, m)
          | Some info =>
              match msg_path dir (bs "cur") (im_base m) info 4160 with
              | None => (f, m)
              | Some dst => let '(f, ok) := fs_rename f (im_path m) dst in (f, if ok : bool then set_path m dst else m)
              end
          end
        else (f, m) in
      let '(f, ms) := move_loop f dir ms in (f, m :: ms)
  end.

Definition base_index (v : list UidEnt) : bytes -> option UidEnt :=
  let h := foldl (fun h p => bh_put h p.2 (Z.of_nat p.1)) (bh_init (length v)) (imap (fun i e => (i, ue_base e)) v) in
  fun base => match bh_get h base with Some i => v !! Z.to_nat i | None => None end.

Definition seen_index (msgs : list Imail) : bytes -> option Z :=
  let h := foldl (fun h m => bh_put h (im_base m) (im_uid m)) (bh_init (length msgs)) msgs in bh_get h.

(** [mbox_scan]: the files and the view, [None] when it returns -1. *)
Definition mbox_scan (f : fs) (root user name : bytes) (move_new : bool) (now : Z) : fs * option Mbox :=
  match imapd_mbox_dir root user name 4096 with
  | None => (f, None)
  | Some dir =>
      let '(f, ok) := imapd_mbox_create f dir in
      if negb ok then (f, None)
      else
        let '(uv, un, map0) := uidlist_load (fs_read f (uidlist_path dir)) (u32 now) 1 in
        let un := if un =? 0 then 1 else un in
        let old := base_index map0 in
        let st0 := {| sc_msgs := []; sc_map := map0; sc_next := un; sc_changed := false; sc_hdrs := false; sc_high := 0 |} in
        match st ← scan_subdir f dir (bs "new") true old st0; scan_subdir f dir (bs "cur") false old st with
        | None => (f, None)
        | Some st =>
            let msgs := sort_msgs (sc_msgs st) in
            let '(huv, hrows) := mail_hdrs_load (fs_read f (hdrs_path dir)) in
            let msgs := if negb (huv =? 0) && (huv =? uv) then hydrate (length msgs + length hrows) msgs hrows else msgs in
            let seen := seen_index msgs in
            let keep e := match seen (ue_base e) with Some sv => sv =? ue_uid e | None => false end in
            let '(map_, tombs, changed) := prune (length (sc_map st)) keep 0 (sc_map st) [] (sc_changed st) in
            let '(f, msgs) := if move_new then move_loop f dir msgs else (f, msgs) in
            let mb := {| mb_dir := dir; mb_uidvalidity := uv; mb_uidnext := sc_next st; mb_highestmodseq := sc_high st;
                         mb_msgs := msgs; mb_uidmap := map_; mb_uidlist_dirty := false; mb_tomb := tombs; mb_hdrs_dirty := sc_hdrs st |} in
            if changed then
              let '(f, _, ok) := imapd_uidlist_save f dir tombs uv (sc_next st) map_ [] in
              if ok then (f, Some mb) else (imapd_mbox_close f mb, None)
            else (f, Some mb)
        end
  end.

Definition imapd_mbox_open (f : fs) (root user name : bytes) (now : Z) : fs * option Mbox := mbox_scan f root user name true now.
Definition imapd_mbox_peek (f : fs) (root user name : bytes) (now : Z) : fs * option Mbox := mbox_scan f root user name false now.

(** [imapd_mbox_has_new]. *)
Definition imapd_mbox_has_new (f : fs) (root user name : bytes) : bool :=
  match imapd_mbox_dir root user name 4104 with
  | None => false
  | Some dir =>
      if 4104 <=? len dir + 4 then false
      else match fs_list f (dir ++ bs "/new") with
           | None => false
           | Some names => existsb (fun n => match n with c :: _ => negb (c =? "."%chr) | [] => true end) names
           end
  end.

(** ** Operations on the view *)

(** [imapd_mbox_find]: the position. *)
Fixpoint find_from (msgs : list Imail) (uid : Z) (i : nat) : option nat :=
  match msgs with [] => None | m :: ms => if im_uid m =? uid then Some i else find_from ms uid (S i) end.

Definition imapd_mbox_find (mb : Mbox) (uid : Z) : option nat := find_from (mb_msgs mb) uid 0.

Definition with_msgs (mb : Mbox) (msgs : list Imail) : Mbox :=
  {| mb_dir := mb_dir mb; mb_uidvalidity := mb_uidvalidity mb; mb_uidnext := mb_uidnext mb; mb_highestmodseq := mb_highestmodseq mb;
     mb_msgs := msgs; mb_uidmap := mb_uidmap mb; mb_uidlist_dirty := mb_uidlist_dirty mb; mb_tomb := mb_tomb mb; mb_hdrs_dirty := mb_hdrs_dirty mb |}.

(** The row of a uid takes the change counter; without one a row is appended. *)
Fixpoint map_bump (v : list UidEnt) (uid modseq : Z) : option (list UidEnt) :=
  match v with
  | [] => None
  | e :: t =>
      if ue_uid e =? uid then Some ({| ue_base := ue_base e; ue_mid := ue_mid e; ue_uid := ue_uid e; ue_modseq := modseq |} :: t)
      else (fun t => e :: t) <$> map_bump t uid modseq
  end.

(** [imapd_mbox_store]: the files, the view and whether it returns 0. *)
Definition imapd_mbox_store (f : fs) (mb : Mbox) (uid flags : Z) : fs * Mbox * bool :=
  match imapd_mbox_find mb uid with
  | None => (f, mb, false)
  | Some i =>
      match mb_msgs mb !! i with
      | None => (f, mb, false)
      | Some m =>
          match imapd_flags_encode flags (im_unk m) 32 with
          | None => (f, mb, false)
          | Some info =>
              match msg_path (mb_dir mb) (bs "cur") (im_base m) info 4160 with
              | None => (f, mb, false)
              | Some dst =>
                  let '(f, ok) := fs_rename f (im_path m) dst in
                  if negb ok then (f, mb, false)
                  else
                    let high := u64 (mb_highestmodseq mb + 1) in
                    let high := if high =? 0 then 1 else high in
                    let m' := set_flags (set_path m dst) flags high in
                    let map_ := match map_bump (mb_uidmap mb) uid high with
                                | Some v => v
                                | None => mb_uidmap mb ++ [{| ue_base := im_base m; ue_mid := im_mid m; ue_uid := uid; ue_modseq := high |}]
                                end in
                    (f, {| mb_dir := mb_dir mb; mb_uidvalidity := mb_uidvalidity mb; mb_uidnext := mb_uidnext mb; mb_highestmodseq := high;
                           mb_msgs := <[i := m']> (mb_msgs mb); mb_uidmap := map_; mb_uidlist_dirty := true; mb_tomb := mb_tomb mb;
                           mb_hdrs_dirty := mb_hdrs_dirty mb |}, true)
              end
          end
      end
  end.

(** The first row of the uid is dropped, the last one taking its place. *)
Fixpoint map_index (v : list UidEnt) (uid : Z) (i : nat) : option nat :=
  match v with [] => None | e :: t => if ue_uid e =? uid then Some i else map_index t uid (S i) end.

Definition uidmap_remove (mb : Mbox) (uid : Z) : Mbox :=
  match map_index (mb_uidmap mb) uid 0 with
  | None => mb
  | Some i =>
      match mb_uidmap mb !! i with
      | None => mb
      | Some e =>
          {| mb_dir := mb_dir mb; mb_uidvalidity := mb_uidvalidity mb; mb_uidnext := mb_uidnext mb; mb_highestmodseq := mb_highestmodseq mb;
             mb_msgs := mb_msgs mb;
             mb_uidmap := take (length (mb_uidmap mb) - 1) (<[i := default e (last (mb_uidmap mb))]> (mb_uidmap mb));
             mb_uidlist_dirty := true; mb_tomb := tomb_add (mb_tomb mb) (ue_base e); mb_hdrs_dirty := mb_hdrs_dirty mb |}
      end
  end.

(** [imapd_mbox_expunge]. *)
Definition imapd_mbox_expunge (f : fs) (mb : Mbox) (uid : Z) : fs * Mbox * bool :=
  match imapd_mbox_find mb uid with
  | None => (f, mb, false)
  | Some i =>
      match mb_msgs mb !! i with
      | None => (f, mb, false)
      | Some m => (fs_unlink f (im_path m), uidmap_remove (with_msgs mb (delete i (mb_msgs mb))) uid, true)
      end
  end.

(** ** Delivery *)

(** [deliver_file] with the unique name it mints: the base name when it returns 0. *)
Definition deliver_file (f : fs) (dir uniq msg : bytes) (flags : Z) (unk : bytes) : fs * option bytes :=
  if mail_data_has_ctl msg then (f, None)
  else
    let '(f, ok) := imapd_mbox_create f dir in
    if negb ok then (f, None)
    else match msg_path dir (bs "tmp") uniq [] 4104 with
         | None => (f, None)
         | Some tmp =>
             match fs_write f tmp msg with
             | (f, WOpen) | (f, WFail) => (f, None)
             | (f, WDone) =>
                 let dst := if negb (flags =? 0) || negb (is_nil unk)
                            then info ← imapd_flags_encode flags unk 32; msg_path dir (bs "cur") uniq info 4160
                            else msg_path dir (bs "new") uniq [] 4160 in
                 match dst with
                 | None => (fs_unlink f tmp, None)
                 | Some dst =>
                     let '(f, ok) := fs_rename f tmp dst in
                     if negb ok then (fs_unlink f tmp, None) else (f, Some uniq)
                 end
             end
         end.

Definition imapd_mbox_deliver (f : fs) (dir uniq msg : bytes) (flags : Z) (unk : bytes) : fs * bool :=
  let '(f, r) := deliver_file f dir uniq msg flags unk in (f, match r with Some _ => true | None => false end).

Fixpoint find_base (v : list UidEnt) (base : bytes) : option UidEnt :=
  match v with [] => None | e :: t => if beq (ue_base e) base then Some e else find_base t base end.

(** [mbox_register]: the validity and the uid of the destination when it returns 0. *)
Definition mbox_register (f : fs) (root user dest base mid : bytes) (now : Z) : fs * option (Z * Z) :=
  match imapd_mbox_dir root user dest 4096 with
  | None => (f, None)
  | Some dir =>
      let '(f, ok) := imapd_mbox_create f dir in
      if negb ok then (f, None)
      else
        let '(uv, un, v) := uidlist_load (fs_read f (uidlist_path dir)) (u32 now) 1 in
        let un := if un =? 0 then 1 else un in
        match find_base v base with
        | Some e => (f, Some (uv, ue_uid e))
        | None =>
            let uid := if un =? 0 then 1 else un in
            let un := u32 (un + 1) in
            let '(f, saved, ok) := imapd_uidlist_save f dir [] uv un (v ++ [{| ue_base := base; ue_mid := mid; ue_uid := uid; ue_modseq := un |}]) base in
            (f, if ok then Some (uv, saved) else None)
        end
  end.

(** [imapd_mbox_deliver_uid]: the validity and the uid when it returns 0. *)
Definition imapd_mbox_deliver_uid (f : fs) (root user name uniq msg : bytes) (flags : Z) (unk : bytes) (now : Z) : fs * option (Z * Z) :=
  match imapd_mbox_dir root user name 4096 with
  | None => (f, None)
  | Some dir =>
      let '(f, r) := deliver_file f dir uniq msg flags unk in
      match r with
      | None => (f, None)
      | Some base =>
          let '(f, r) := mbox_register f root user name base (imapd_msgid_of_buf msg) now in (f, Some (default (0, 0) r))
      end
  end.

(** [imapd_mbox_file]: a message moves or is copied into another mailbox. *)
Definition imapd_mbox_file (f : fs) (root user : bytes) (mb : Mbox) (uid : Z) (dest : bytes) (move : bool) (now : Z) : fs * Mbox * option (Z * Z) :=
  match m ← (i ← imapd_mbox_find mb uid; mb_msgs mb !! i); dir ← imapd_mbox_dir root user dest 4096; Some (m, dir) with
  | None => (f, mb, None)
  | Some (m, dir) =>
      let '(f, ok) := imapd_mbox_create f dir in
      if negb ok then (f, mb, None)
      else match info ← imapd_flags_encode (im_flags m) (im_unk m) 32; msg_path dir (bs "cur") (im_base m) info 4160 with
           | None => (f, mb, None)
           | Some dst =>
               let '(f, ok) :=
                 if move then fs_rename f (im_path m) dst
                 else match fs_read f (im_path m) with
                      | None => (f, false)
                      | Some s => (* the destination is truncated before the source is read *)
                                  match fs_write f dst (if beq (im_path m) dst then [] else s) with
                                  | (f, WDone) => (f, true)
                                  | (f, WFail) => (fs_unlink f dst, false)
                                  | (f, WOpen) => (f, false)
                                  end
                      end in
               if negb ok then (f, mb, None)
               else
                 let '(f, r) := mbox_register f root user dest (im_base m) (im_mid m) now in
                 match r with
                 | None => (f, mb, None)
                 | Some _ =>
                     if move then
                       let mb := uidmap_remove mb uid in
                       (f, with_msgs mb (match imapd_mbox_find mb uid with Some i => delete i (mb_msgs mb) | None => mb_msgs mb end), r)
                     else (f, mb, r)
                 end
           end
  end.

(** [imapd_mbox_list]: the folder names that match. *)
Definition imapd_mbox_list (f : fs) (root user pattern : bytes) : option (list bytes) :=
  if negb (imapd_user_ok user) then None
  else
    let userdir := root ++ bs "/" ++ user in
    if 4224 <=? len userdir then None
    else match fs_list f userdir with
         | None => Some []
         | Some names =>
             Some (omap (fun n =>
               match n with
               | c :: name =>
                   if negb (c =? "."%chr) || is_nil name then None
                   else if negb (imapd_mbox_name_ok name) then None
                   else if 4608 <=? len (userdir ++ bs "/" ++ n) then None
                   else if negb (fs_isdir f (userdir ++ bs "/" ++ n)) then None
                   else if imapd_wildmat pattern name then Some name else None
               | [] => None
               end) names)
         end.
End Mailbox.
