(* ===== verification/MemMail.v ===== *)
(** * A file system in memory

    A concrete instance of [MailFs]: the files are a list of paths with their contents,
    every directory can be made and every call on an existing file succeeds. It shows
    that the laws can hold and runs the witnesses. *)

From S2P Require Import Prelude MailBox.

Definition MemFiles : Type := list (bytes * bytes).

Fixpoint mem_get (f : MemFiles) (p : bytes) : option bytes :=
  match f with [] => None | (q, s) :: t => if beq q p then Some s else mem_get t p end.

Definition mem_del (f : MemFiles) (p : bytes) : MemFiles := List.filter (fun e => negb (beq e.1 p)) f.

Definition mem_put (f : MemFiles) (p s : bytes) : MemFiles := mem_del f p ++ [(p, s)].

(** The names right below a directory, in the order of the list. *)
Definition mem_list (f : MemFiles) (dir : bytes) : list bytes :=
  omap (fun e => match strip_prefix (dir ++ bs "/") e.1 with
                 | Some n => if has "/"%chr n || is_nil n then None else Some n
                 | None => None
                 end) f.

Definition mem_rename (f : MemFiles) (a b : bytes) : MemFiles * bool :=
  match mem_get f a with None => (f, false) | Some s => (mem_put (mem_del f a) b s, true) end.

#[export] Instance MemMailFs : MailFs := {|
  fs := MemFiles;
  fs_read := mem_get;
  fs_stat f p := (fun s => {| st_size := len s; st_mtime := 0; st_ctime := 0 |}) <$> mem_get f p;
  fs_isdir f d := existsb (fun e => match strip_prefix (d ++ bs "/") e.1 with Some _ => true | None => false end) f;
  fs_list f d := Some (mem_list f d);
  fs_mkdir_p f d := (f, true);
  fs_rename := mem_rename;
  fs_unlink := mem_del;
  fs_write f p s := (mem_put f p s, WDone);
  fs_lock f p := (f, true)
|}.

Lemma mem_get_del f p q : mem_get (mem_del f p) q = if decide (q = p) then None else mem_get f q.
Proof.
  induction f as [|[x s] f IH]; cbn [mem_del List.filter mem_get fst]; [by destruct (decide _)|].
  unfold mem_del in IH. destruct (beq x p) eqn:E; cbn [negb mem_get].
  - apply beq_spec in E as ->. rewrite IH. destruct (decide (q = p)) as [|Hn]; [done|].
    destruct (beq p q) eqn:E'; [apply beq_spec in E'; congruence|done].
  - rewrite IH. destruct (beq x q) eqn:E'; [|done]. apply beq_spec in E' as ->.
    destruct (decide (q = p)) as [->|]; [by rewrite beq_refl in E|done].
Qed.

Lemma mem_get_app f g q : mem_get (f ++ g) q = match mem_get f q with Some s => Some s | None => mem_get g q end.
Proof. induction f as [|[x s] f IH]; cbn; [done|]. by destruct (beq x q). Qed.

Lemma mem_get_put f p s q : mem_get (mem_put f p s) q = if decide (q = p) then Some s else mem_get f q.
Proof.
  unfold mem_put. rewrite mem_get_app, mem_get_del. cbn [mem_get]. destruct (decide (q = p)) as [->|Hn]; [by rewrite beq_refl|].
  destruct (mem_get f q); [done|]. destruct (beq p q) eqn:E; [apply beq_spec in E; congruence|done].
Qed.

#[export] Instance MemMailFsLaws : MailFsLaws.
Proof.
  split; cbn.
  - intros f a b f' ok p H. unfold mem_rename in H. destruct (mem_get f a) as [s|] eqn:E; injection H as <- <-; [|done].
    rewrite mem_get_put, mem_get_del. by destruct (decide (p = b)).
  - intros f a b f' H. unfold mem_rename in H. destruct (mem_get f a); [by eexists|done].
  - intros f a p. rewrite mem_get_del. destruct (decide (p = a)); auto.
  - intros f a s f' out p [= <- <-] [Hp|?]; [|done]. rewrite mem_get_put. by rewrite decide_False.
  - intros f a s f' [= <-]. rewrite mem_get_put. by rewrite decide_True.
  - by intros f a f' ok p [= <- <-].
  - by intros f a f' ok p [= <- <-].
Qed.
