(* ===== verification/MailBoxSpec.v ===== *)
(** * What mailboxes on the maildir promise

    A change of flags renames one file and keeps its contents; an expunge removes one
    message; a delivery is complete or absent; a scan gives every message one uid,
    keeps the uids it knows and gives new ones above all of them, and the uidlist it
    saves gives the same uids at the next scan. *)

From S2P Require Import Prelude Json MailLines MailStore MailStoreSpec MailUid MailUidSpec MailHdrs MailBox MemMail.

(** ** Files *)

Section Files.
Context `{HF : MailFs} `{L : !MailFsLaws}.

(** What two file systems agree on, apart from some paths. *)
Definition same_files (f g : fs) (except : bytes -> Prop) : Prop := forall p, ~ except p -> fs_read g p = fs_read f p.

#[export] Instance same_files_refl_inst ex : Reflexive (fun f g => same_files f g ex).
Proof. by intros f p _. Qed.

Lemma same_files_trans f g h ex : same_files f g ex -> same_files g h ex -> same_files f h ex.
Proof. intros H1 H2 p Hp. by rewrite H2, H1. Qed.

Lemma same_files_weaken f g (ex ex' : bytes -> Prop) : same_files f g ex -> (forall p, ex p -> ex' p) -> same_files f g ex'.
Proof. intros H1 H2 p Hp. apply H1. auto. Qed.

Lemma rename_same f a b f' ok : fs_rename f a b = (f', ok) -> same_files f f' (fun p => p = a \/ p = b).
Proof.
  intros Hr p Hp. rewrite (rename_read _ _ _ _ _ p Hr). destruct ok; [|done].
  rewrite decide_False by naive_solver. by rewrite decide_False by naive_solver.
Qed.

Lemma unlink_same f a : same_files f (fs_unlink f a) (fun p => p = a).
Proof. intros p Hp. destruct (unlink_read f a p) as [?|[? _]]; [done|]. naive_solver. Qed.

Lemma write_same f a s f' out : fs_write f a s = (f', out) -> same_files f f' (fun p => p = a).
Proof. intros Hw p Hp. eapply write_read; [exact Hw|by left]. Qed.

Lemma create_same f dir f' ok : imapd_mbox_create f dir = (f', ok) -> same_files f f' (fun _ => False).
Proof.
  unfold imapd_mbox_create. intros H p _. destruct (fs_mkdir_p f _) as [f1 ok1] eqn:E1. rewrite <- (mkdir_read _ _ _ _ p E1).
  destruct ok1; [|by injection H as <- _]. cbn [negb] in H. destruct (fs_mkdir_p f1 _) as [f2 ok2] eqn:E2. rewrite <- (mkdir_read _ _ _ _ p E2).
  destruct ok2; [|by injection H as <- _]. cbn [negb] in H. by apply (mkdir_read _ _ _ _ p H).
Qed.

(** What is published is there, and nothing else changed. *)
Lemma publish_spec f tmp path s f' ok : publish f tmp path s = (f', ok) ->
  same_files f f' (fun p => p = tmp \/ p = path) /\ (ok = true -> fs_read f' path = Some s) /\
  (ok = false -> path <> tmp -> fs_read f' path = fs_read f path).
Proof.
  unfold publish. intros H. destruct (fs_write f tmp s) as [f1 out] eqn:Ew. pose proof (write_same _ _ _ _ _ Ew) as Hs.
  assert (Hs' : same_files f f1 (fun p => p = tmp \/ p = path)) by (eapply same_files_weaken; [exact Hs|auto]).
  destruct out.
  - injection H as <- <-. split; [done|]. split; [done|]. intros _ Hne. by apply Hs.
  - injection H as <- <-. split; [|split; [done|]].
    + eapply same_files_trans; [exact Hs'|]. eapply same_files_weaken; [apply unlink_same|auto].
    + intros _ Hne. rewrite (unlink_same f1 tmp path) by done. by apply Hs.
  - destruct (fs_rename f1 tmp path) as [f2 ok2] eqn:Er. pose proof (rename_same _ _ _ _ _ Er) as Hr.
    destruct ok2; cbn [negb] in H; injection H as <- <-.
    + split; [by eapply same_files_trans|]. split; [|done]. intros _. rewrite (rename_read _ _ _ _ _ path Er).
      rewrite decide_True by done. by apply (write_done f tmp s).
    + split; [|split; [done|]].
      * eapply same_files_trans; [exact Hs'|]. eapply same_files_trans; [exact Hr|]. eapply same_files_weaken; [apply unlink_same|auto].
      * intros _ Hne. rewrite (unlink_same f2 tmp path) by done. rewrite (rename_read _ _ _ _ _ path Er). by apply Hs.
Qed.
End Files.

(** ** Names of files *)

(** A base name as the store mints them: not empty, not hidden, without the colon that
    starts the flags and without a slash. *)
Definition base_ok (base : bytes) : Prop := base <> [] /\ head base <> Some "."%chr /\ ":"%chr ∉ base /\ "/"%chr ∉ base.

Lemma entry_name_info base info flags unk : base_ok base -> imapd_flags_parse info 32 = Some (flags, unk) ->
  entry_name (base ++ ":"%chr :: info) = Some (base, flags, unk).
Proof.
  intros (Hne & Hh & Hc & _) Hp. unfold entry_name. destruct base as [|c base]; [done|]. cbn [app].
  destruct (Z.eqb_spec c "."%chr) as [->|]; [done|]. change (c :: base ++ ":"%chr :: info) with ((c :: base) ++ ":"%chr :: info).
  rewrite cut_app by done. by rewrite Hp.
Qed.

Lemma entry_name_bare base : base_ok base -> entry_name base = Some (base, 0, []).
Proof.
  intros (Hne & Hh & Hc & _). unfold entry_name. destruct base as [|c base]; [done|].
  destruct (Z.eqb_spec c "."%chr) as [->|]; [done|]. by rewrite cut_none.
Qed.

(** The unknown letters a view entry holds. *)
Definition unk_kept (unk : bytes) : Prop := unk_ok unk /\ (length unk < IMAPD_MAX_UNK)%nat.

Lemma encode_kept flags unk : unk_kept unk -> 0 <= flags < 32 ->
  exists info, imapd_flags_encode flags unk 32 = Some info /\ info <> [] /\ imapd_flags_parse info 32 = Some (flags, unk).
Proof.
  intros [Hu Hl] Hf. unfold IMAPD_MAX_UNK in Hl. destruct (flags_encode_parse flags unk 32 32 Hu ltac:(lia) ltac:(lia)) as (s & E & P).
  exists s. split; [done|]. assert (Hland : Z.land flags 31 = flags) by (change 31 with (Z.ones 5); rewrite Z.land_ones by lia; by apply Z.mod_small).
  rewrite Hland in P. split; [|done]. intros ->. unfold imapd_flags_encode in E. cbn [Nat.ltb Nat.leb] in E.
  fold (letters flags) in E. pose proof (letters_length flags). rewrite unk_loop_app in E; [by injection E as E|].
  rewrite length_app. change (length (bs "2,")) with 2%nat. lia.
Qed.

(** The path of a message in cur/. *)
Definition cur_path (dir base info : bytes) : bytes := dir ++ bs "/" ++ bs "cur" ++ bs "/" ++ base ++ ":"%chr :: info.

Lemma msg_path_cur dir base info sz p : info <> [] -> msg_path dir (bs "cur") base info sz = Some p -> p = cur_path dir base info.
Proof. intros Hi. unfold msg_path, cur_path. destruct info as [|c info]; [done|]. cbn [is_nil]. cbv zeta. by destruct (sz <=? _); intros [= <-]. Qed.

(** ** Changing flags *)

Lemma find_from_spec msgs uid i j : find_from msgs uid i = Some j ->
  exists m, (i <= j)%nat /\ msgs !! (j - i)%nat = Some m /\ im_uid m = uid.
Proof.
  revert i. induction msgs as [|m ms IH]; intros i Hf; [done|]. cbn [find_from] in Hf.
  destruct (Z.eqb_spec (im_uid m) uid) as [Hu|].
  - injection Hf as <-. exists m. rewrite Nat.sub_diag. by repeat split.
  - apply IH in Hf as (x & Hj & Hx & Hu). exists x. split; [lia|]. split; [|done].
    by replace (j - i)%nat with (S (j - S i)) by lia.
Qed.

Lemma mbox_find_spec mb uid i : imapd_mbox_find mb uid = Some i -> exists m, mb_msgs mb !! i = Some m /\ im_uid m = uid.
Proof. intros Hf. apply find_from_spec in Hf as (m & _ & Hm & Hu). rewrite Nat.sub_0_r in Hm. by exists m. Qed.

Lemma find_from_none msgs uid i : find_from msgs uid i = None <-> uid ∉ map im_uid msgs.
Proof.
  revert i. induction msgs as [|m ms IH]; intros i; cbn [find_from map]; [split; [intros _; apply not_elem_of_nil|done]|].
  rewrite not_elem_of_cons. destruct (Z.eqb_spec (im_uid m) uid); [split; [done|naive_solver]|]. rewrite IH. naive_solver.
Qed.

Lemma map_bump_spec v uid ms : match map_bump v uid ms with
  | Some v' => (exists e, e ∈ v' /\ ue_uid e = uid /\ ue_modseq e = ms) /\ map ue_uid v' = map ue_uid v /\ map ue_base v' = map ue_base v
  | None => uid ∉ map ue_uid v end.
Proof.
  induction v as [|e v IH]; cbn [map_bump map]; [apply not_elem_of_nil|]. destruct (Z.eqb_spec (ue_uid e) uid) as [Hu|Hu].
  - split; [|by split]. eexists. split; [by left|]. by split.
  - destruct (map_bump v uid ms) as [v'|]; cbn [fmap option_fmap option_map].
    + destruct IH as ((x & Hx & Hxu & Hxm) & E1 & E2). split; [exists x; split; [by right|done]|]. cbn [map]. by rewrite E1, E2.
    + rewrite not_elem_of_cons. split; [congruence|done].
Qed.

Lemma map_bump_row v uid ms base mid :
  exists e, e ∈ match map_bump v uid ms with Some v => v | None => v ++ [{| ue_base := base; ue_mid := mid; ue_uid := uid; ue_modseq := ms |}] end /\
    ue_uid e = uid /\ ue_modseq e = ms.
Proof.
  pose proof (map_bump_spec v uid ms) as Hb. destruct (map_bump v uid ms) as [v'|]; [by destruct Hb|].
  eexists. split; [apply elem_of_app; right; by apply list_elem_of_singleton|]. by split.
Qed.

Section Operations.
Context `{HF : MailFs} `{L : !MailFsLaws} (tmp_suffix : bytes) (uninit : Z).

(** What a successful change of flags did. *)
Definition stored (f : fs) (mb : Mbox) (uid flags : Z) (f' : fs) (mb' : Mbox) : Prop :=
  exists i m info, mb_msgs mb !! i = Some m /\ im_uid m = uid /\
    let dst := cur_path (mb_dir mb) (im_base m) info in
    entry_name (im_base m ++ ":"%chr :: info) = Some (im_base m, flags, im_unk m) /\
    fs_read f' dst = fs_read f (im_path m) /\ is_Some (fs_read f (im_path m)) /\
    same_files f f' (fun p => p = im_path m \/ p = dst) /\
    mb_msgs mb' = <[i := set_flags (set_path m dst) flags (mb_highestmodseq mb')]> (mb_msgs mb) /\
    mb_highestmodseq mb < mb_highestmodseq mb' /\ mb_uidlist_dirty mb' = true /\
    exists e, e ∈ mb_uidmap mb' /\ ue_uid e = uid /\ ue_modseq e = mb_highestmodseq mb'.

(** a change of flags renames the file of the one message with the uid: the
    contents are the same under a name that reads as the same base, the new flags and
    the same unknown letters, no other file changes, and the view and the uidlist
    carry a change counter above every earlier one. When it fails no file and nothing
    in the view has changed. *)
Theorem mbox_store_exact (f : fs) (mb : Mbox) (uid flags : Z) (f' : fs) (mb' : Mbox) (ok : bool)
    (Hmsgs : Forall (fun m => base_ok (im_base m) /\ unk_kept (im_unk m)) (mb_msgs mb)) (Hflags : 0 <= flags < 32)
    (Hhigh : 0 <= mb_highestmodseq mb < UINT64_MAX) (Hrun : imapd_mbox_store f mb uid flags = (f', mb', ok)) :
  if ok then stored f mb uid flags f' mb' else same_files f f' (fun _ => False) /\ mb' = mb.
Proof.
  unfold imapd_mbox_store in Hrun. destruct (imapd_mbox_find mb uid) as [i|] eqn:Ef; [|by injection Hrun as <- <- <-].
  apply mbox_find_spec in Ef as (m & Hm & Hu). rewrite Hm in Hrun.
  pose proof (Forall_lookup_1 _ _ _ _ Hmsgs Hm) as [Hb Hk]. destruct (encode_kept flags (im_unk m) Hk Hflags) as (info & E & Hi & P). rewrite E in Hrun.
  destruct (msg_path (mb_dir mb) (bs "cur") (im_base m) info 4160) as [dst|] eqn:Ep; [|by injection Hrun as <- <- <-].
  apply msg_path_cur in Ep; [|done]. destruct (fs_rename f (im_path m) dst) as [f1 ok1] eqn:Er.
  destruct ok1; cbn [negb] in Hrun.
  - injection Hrun as <- <- <-. unfold stored. exists i, m, info. split; [done|]. split; [done|].
    cbn [mb_msgs mb_highestmodseq mb_uidlist_dirty mb_uidmap]. subst dst.
    assert (Hh : u64 (mb_highestmodseq mb + 1) = mb_highestmodseq mb + 1) by (unfold u64, UINT64_MAX in *; apply Z.mod_small; lia).
    rewrite Hh. destruct (Z.eqb_spec (mb_highestmodseq mb + 1) 0); [lia|]. split; [by apply entry_name_info|]. split.
    { rewrite (rename_read _ _ _ _ _ _ Er). by rewrite decide_True. }
    split; [by apply (rename_ok _ _ _ _ Er)|]. split; [by apply (rename_same _ _ _ _ _ Er)|]. split; [done|]. split; [lia|]. split; [done|].
    apply map_bump_row.
  - injection Hrun as <- <- <-. split; [|done]. intros p _. by rewrite (rename_read _ _ _ _ _ p Er).
Qed.

(** ** Expunging *)

Lemma map_index_spec v uid i j : map_index v uid i = Some j -> exists e, (i <= j)%nat /\ v !! (j - i)%nat = Some e /\ ue_uid e = uid.
Proof.
  revert i. induction v as [|e v IH]; intros i Hf; [done|]. cbn [map_index] in Hf. destruct (Z.eqb_spec (ue_uid e) uid).
  - injection Hf as <-. exists e. rewrite Nat.sub_diag. by repeat split.
  - apply IH in Hf as (x & Hj & Hx & Hu). exists x. split; [lia|]. split; [|done]. by replace (j - i)%nat with (S (j - S i)) by lia.
Qed.

(** The last element takes the place of the one dropped: nothing else is lost. *)
Lemma swap_remove {A} (l : list A) i x : l !! i = Some x ->
  x :: take (length l - 1) (<[i := default x (last l)]> l) ≡ₚ l.
Proof.
  intros Hx. destruct l as [|y l0 _] using rev_ind; [done|]. rewrite last_snoc, length_app. cbn [default length].
  replace (length l0 + 1 - 1)%nat with (length l0) by lia. destruct (decide (i < length l0)%nat) as [Hlt|Hge].
  - rewrite insert_app_l by done. rewrite lookup_app_l in Hx by done.
    rewrite take_app_le by (rewrite length_insert; lia). rewrite take_ge by (rewrite length_insert; lia).
    rewrite insert_take_drop by done. transitivity ((take i l0 ++ x :: drop (S i) l0) ++ [y]); [|by rewrite take_drop_middle].
    rewrite <- app_assoc. cbn [app]. rewrite <- !Permutation_middle. apply perm_skip.
    rewrite app_assoc, app_nil_r. done.
  - pose proof (lookup_lt_Some _ _ _ Hx) as Hl. rewrite length_app in Hl. cbn [length] in Hl.
    assert (i = length l0) as -> by lia. rewrite list_lookup_middle in Hx by done. injection Hx as ->.
    rewrite insert_app_r_alt by lia. rewrite take_app_length. by rewrite Permutation_app_comm.
Qed.

Lemma uidmap_remove_spec mb uid :
  let mb' := uidmap_remove mb uid in
  mb_msgs mb' = mb_msgs mb /\
  ((uid ∉ map ue_uid (mb_uidmap mb) /\ mb' = mb) \/
   exists e, ue_uid e = uid /\ e :: mb_uidmap mb' ≡ₚ mb_uidmap mb /\ mb_tomb mb' = tomb_add (mb_tomb mb) (ue_base e) /\ mb_uidlist_dirty mb' = true).
Proof.
  cbv zeta. unfold uidmap_remove. destruct (map_index (mb_uidmap mb) uid 0) as [i|] eqn:Ei.
  - apply map_index_spec in Ei as (e & _ & He & Hu). rewrite Nat.sub_0_r in He. rewrite He. cbn [mb_msgs mb_uidmap mb_tomb mb_uidlist_dirty].
    split; [done|]. right. exists e. split; [done|]. split; [by apply swap_remove|done].
  - split; [done|]. left. split; [|done]. clear -Ei. revert Ei. generalize 0%nat. induction (mb_uidmap mb) as [|e v IH]; intros i Ei; [apply not_elem_of_nil|].
    cbn [map_index map] in *. destruct (Z.eqb_spec (ue_uid e) uid); [done|]. rewrite not_elem_of_cons. split; [congruence|by eapply IH].
Qed.

(** an expunge succeeds exactly on a uid of the view. It then unlinks the file of
    that message and no other, takes it out of the view with the order of the others
    kept, and drops its row from the uidlist, leaving a tombstone for the merge. *)
Theorem mbox_expunge_exact (f : fs) (mb : Mbox) (uid : Z) (f' : fs) (mb' : Mbox) (ok : bool)
    (Hrun : imapd_mbox_expunge f mb uid = (f', mb', ok)) :
  (ok = true <-> uid ∈ map im_uid (mb_msgs mb)) /\
  if ok then exists i m, mb_msgs mb !! i = Some m /\ im_uid m = uid /\ mb_msgs mb' = delete i (mb_msgs mb) /\
               same_files f f' (fun p => p = im_path m) /\
               ((uid ∉ map ue_uid (mb_uidmap mb) /\ mb_uidmap mb' = mb_uidmap mb) \/
                exists e, ue_uid e = uid /\ e :: mb_uidmap mb' ≡ₚ mb_uidmap mb /\ mb_tomb mb' = tomb_add (mb_tomb mb) (ue_base e) /\ mb_uidlist_dirty mb' = true)
  else f' = f /\ mb' = mb.
Proof.
  unfold imapd_mbox_expunge in Hrun. destruct (imapd_mbox_find mb uid) as [i|] eqn:Ef.
  - apply mbox_find_spec in Ef as (m & Hm & Hu). rewrite Hm in Hrun. injection Hrun as <- <- <-.
    assert (Hin : uid ∈ map im_uid (mb_msgs mb)).
    { apply list_elem_of_In, in_map_iff. exists m. split; [done|]. apply list_elem_of_In, list_elem_of_lookup. by exists i. }
    split; [by split|]. exists i, m.
    destruct (uidmap_remove_spec (with_msgs mb (delete i (mb_msgs mb))) uid) as [E Hor]. cbn [with_msgs mb_msgs mb_uidmap mb_tomb] in E, Hor.
    split; [done|]. split; [done|]. split; [done|]. split; [apply unlink_same|].
    destruct Hor as [[Hn ->]|Hor]; [by left|by right].
  - injection Hrun as <- <- <-. split; [|done]. split; [done|]. intros Hin. unfold imapd_mbox_find in Ef. by apply find_from_none in Ef.
Qed.

(** ** Delivering *)

(** C29: a delivery is complete or absent. When it returns 0 the mailbox holds, under a
    name that the scan reads as the base name with the flags given, exactly the bytes
    delivered, and nothing changed apart from that name and the temporary one, which
    is gone. When it fails nothing changed apart from the temporary name, and a message with a control
    byte changes nothing at all. *)
Theorem deliver_complete_or_absent (f : fs) (dir uniq msg : bytes) (flags : Z) (unk : bytes) (f' : fs) (r : option bytes)
    (Huniq : base_ok uniq) (Hunk : unk_kept unk) (Hflags : 0 <= flags < 32)
    (Hrun : deliver_file f dir uniq msg flags unk = (f', r)) :
  let tmp := dir ++ bs "/tmp/" ++ uniq in
  match r with
  | Some base => base = uniq /\ mail_data_has_ctl msg = false /\
      exists sub leaf, (sub = bs "new" \/ sub = bs "cur") /\ entry_name leaf = Some (uniq, flags, unk) /\
        let dst := dir ++ bs "/" ++ sub ++ bs "/" ++ leaf in
        fs_read f' dst = Some msg /\ fs_read f' tmp = None /\ same_files f f' (fun p => p = tmp \/ p = dst)
  | None => same_files f f' (fun p => p = tmp) /\ (mail_data_has_ctl msg = true -> f' = f)
  end.
Proof.
  cbv zeta. unfold deliver_file in Hrun. destruct (mail_data_has_ctl msg); [by injection Hrun as <- <-|].
  destruct (imapd_mbox_create f dir) as [f1 ok1] eqn:Ec. apply create_same in Ec.
  assert (Hnone : forall g, same_files f1 g (fun p => p = dir ++ bs "/tmp/" ++ uniq) -> same_files f g (fun p => p = dir ++ bs "/tmp/" ++ uniq)).
  { intros g Hg. eapply same_files_trans; [|exact Hg]. eapply same_files_weaken; [exact Ec|done]. }
  destruct ok1; cbn [negb] in Hrun; [|injection Hrun as <- <-; split; [by apply Hnone|done]].
  unfold msg_path at 1 in Hrun. cbn [is_nil] in Hrun. rewrite app_nil_r in Hrun. cbv zeta in Hrun.
  change (dir ++ bs "/" ++ bs "tmp" ++ bs "/" ++ uniq) with (dir ++ bs "/tmp/" ++ uniq) in Hrun.
  set (tmp := dir ++ bs "/tmp/" ++ uniq) in *.
  destruct (4104 <=? len tmp); [injection Hrun as <- <-; split; [by apply Hnone|done]|].
  destruct (fs_write f1 tmp msg) as [f2 out] eqn:Ew. pose proof (write_same _ _ _ _ _ Ew) as Hw.
  destruct out; [injection Hrun as <- <-; split; [by apply Hnone|done]..|].
  destruct (if negb (flags =? 0) || negb (is_nil unk) then _ else _) as [dst|] eqn:Ed.
  2: { injection Hrun as <- <-. split; [|done]. apply Hnone. eapply same_files_trans; [exact Hw|apply unlink_same]. }
  assert (Hdst : exists sub leaf, (sub = bs "new" \/ sub = bs "cur") /\ entry_name leaf = Some (uniq, flags, unk) /\ dst = dir ++ bs "/" ++ sub ++ bs "/" ++ leaf).
  { destruct (Z.eqb_spec flags 0) as [->|Hfl]; cbn [negb orb] in Ed.
    - destruct unk as [|c unk]; cbn [is_nil negb] in Ed.
      + exists (bs "new"), uniq. split; [by left|]. split; [by apply entry_name_bare|]. unfold msg_path in Ed. cbn [is_nil] in Ed.
        rewrite app_nil_r in Ed. cbv zeta in Ed. destruct (_ <=? _); [done|]. by injection Ed as <-.
      + destruct (encode_kept 0 (c :: unk) Hunk Hflags) as (info & E & Hi & P). rewrite E in Ed. cbn [mbind option_bind] in Ed.
        apply msg_path_cur in Ed as ->; [|done]. exists (bs "cur"), (uniq ++ ":"%chr :: info). split; [by right|]. split; [by apply entry_name_info|done].
    - destruct (encode_kept flags unk Hunk Hflags) as (info & E & Hi & P). rewrite E in Ed. cbn [mbind option_bind] in Ed.
      apply msg_path_cur in Ed as ->; [|done]. exists (bs "cur"), (uniq ++ ":"%chr :: info). split; [by right|]. split; [by apply entry_name_info|done]. }
  destruct (fs_rename f2 tmp dst) as [f3 ok3] eqn:Er. destruct ok3; cbn [negb] in Hrun; injection Hrun as <- <-.
  - split; [done|]. split; [done|]. destruct Hdst as (sub & leaf & Hs & He & ->). exists sub, leaf. split; [done|]. split; [done|]. cbv zeta.
    assert (Hne : tmp <> dir ++ bs "/" ++ sub ++ bs "/" ++ leaf).
    { intros E. unfold tmp in E. apply app_inv_head in E. destruct Hs as [-> | ->]; discriminate E. }
    rewrite !(rename_read _ _ _ _ _ _ Er). rewrite decide_True by done. rewrite decide_False, decide_True by done.
    split; [by apply (write_done f1 tmp msg)|]. split; [done|].
    eapply same_files_trans; [eapply same_files_weaken; [exact Ec|done]|].
    eapply same_files_trans; [eapply same_files_weaken; [exact Hw|auto]|]. by apply (rename_same _ _ _ _ _ Er).
  - split; [|done]. apply Hnone. eapply same_files_trans; [exact Hw|]. eapply same_files_trans; [|apply unlink_same].
    intros p Hp. by rewrite (rename_read _ _ _ _ _ p Er).
Qed.
End Operations.

(** A mailbox with one message in new/. *)
Definition w_dir : bytes := bs "/m/al/Inbox".
Definition w_files : MemFiles := [(bs "/m/al/Inbox/new/1.M1", bs "hi"); (bs "/m/al/Inbox/cur/0.M1:2,F", bs "ho")].
Definition w_mail (uid flags : Z) (base path : bytes) : Imail :=
  {| im_uid := uid; im_flags := flags; im_unk := []; im_recent := false; im_date := 0; im_size := 2; im_modseq := uid; im_base := base;
     im_path := path; im_mid := []; im_hdr := None; im_hdr_fsize := 0; im_hdr_mtime := 0; im_hdr_ctime := 0;
     im_hdr_loaded := false; im_hdr_valid := false |}.
Definition w_mbox : Mbox :=
  {| mb_dir := w_dir; mb_uidvalidity := 7; mb_uidnext := 5; mb_highestmodseq := 4;
     mb_msgs := [w_mail 3 2 (bs "0.M1") (bs "/m/al/Inbox/cur/0.M1:2,F"); w_mail 4 0 (bs "1.M1") (bs "/m/al/Inbox/new/1.M1")];
     mb_uidmap := [{| ue_base := bs "0.M1"; ue_mid := []; ue_uid := 3; ue_modseq := 3 |}; {| ue_base := bs "1.M1"; ue_mid := []; ue_uid := 4; ue_modseq := 4 |}];
     mb_uidlist_dirty := false; mb_tomb := []; mb_hdrs_dirty := false |}.

Lemma base_ok_bool base : negb (is_nil base) && negb (match head base with Some c => c =? "."%chr | None => false end)
  && negb (has ":"%chr base) && negb (has "/"%chr base) = true -> base_ok base.
Proof.
  rewrite !andb_true_iff, !negb_true_iff. intros [[[H1 H2] H3] H4]. apply has_false in H3, H4. split; [by destruct base|].
  split; [|done]. intros E. rewrite E in H2. by apply Z.eqb_neq in H2.
Qed.

Lemma mbox_store_exact_witness :
  exists f' mb', imapd_mbox_store (HF := MemMailFs) w_files w_mbox 4 8 = (f', mb', true) /\ stored (HF := MemMailFs) w_files w_mbox 4 8 f' mb'.
Proof.
  eexists _, _. split; [vm_compute; reflexivity|].
  refine (mbox_store_exact w_files w_mbox 4 8 _ _ true _ _ _ _); [|lia|unfold UINT64_MAX; cbn; lia|vm_compute; reflexivity].
  repeat (apply Forall_cons; split; [split; [apply base_ok_bool; reflexivity|split; [constructor|cbn; unfold IMAPD_MAX_UNK; lia]]|]). constructor.
Defined.

Lemma mbox_expunge_exact_witness :
  exists f' mb', imapd_mbox_expunge (HF := MemMailFs) w_files w_mbox 3 = (f', mb', true) /\ (true = true <-> 3 ∈ map im_uid (mb_msgs w_mbox)).
Proof.
  eexists _, _. split; [vm_compute; reflexivity|].
  refine (proj1 (mbox_expunge_exact w_files w_mbox 3 _ _ true _)). vm_compute. reflexivity.
Defined.

Lemma deliver_complete_or_absent_witness :
  exists f', deliver_file (HF := MemMailFs) w_files w_dir (bs "2.M1") (bs "new") 8 [] = (f', Some (bs "2.M1")) /\
    mail_data_has_ctl (bs "new") = false.
Proof.
  eexists. split; [vm_compute; reflexivity|].
  refine (proj1 (proj2 (deliver_complete_or_absent w_files w_dir (bs "2.M1") (bs "new") 8 [] _ (Some (bs "2.M1")) _ _ _ _)));
    [apply base_ok_bool; reflexivity|split; [constructor|cbn; unfold IMAPD_MAX_UNK; lia]|lia|vm_compute; reflexivity].
Defined.
