(* ===== verification/MailScanSpec.v ===== *)
(** * What the scan of a mailbox promises

    Every file of the mailbox gets one view entry and one uid; a base name of the uidlist
    keeps its uid; a new one gets a number above all of them; and the rows the scan saves
    give the same uids at the next scan. *)

From Stdlib Require Import Sorting.Sorted.
From S2P Require Import Prelude Json MailStore MailStoreSpec MailUid MailUidSpec MailHdrs MailBox MemMail MailBoxSpec.

(** ** Sorting *)

Lemma sort_insert_perm m l : sort_insert m l ≡ₚ m :: l.
Proof.
  induction l as [|x l IH]; cbn [sort_insert]; [done|]. destruct (im_uid x <=? im_uid m); [|done].
  rewrite IH. apply Permutation_swap.
Qed.

Lemma sort_insert_sorted m l : StronglySorted Z.le (map im_uid l) -> StronglySorted Z.le (map im_uid (sort_insert m l)).
Proof.
  induction l as [|x l IH]; intros Hs; cbn [sort_insert map]; [repeat constructor|]. apply StronglySorted_inv in Hs as [Hs Hf].
  destruct (Z.leb_spec (im_uid x) (im_uid m)); cbn [map].
  - constructor; [by apply IH|]. rewrite Forall_forall in *. intros y Hy. apply list_elem_of_In, in_map_iff in Hy as (z & <- & Hz).
    apply list_elem_of_In in Hz. rewrite sort_insert_perm in Hz. apply elem_of_cons in Hz as [->|Hz]; [done|].
    apply Hf, list_elem_of_In, in_map. by apply list_elem_of_In.
  - constructor; [by constructor|]. constructor; [lia|]. eapply Forall_impl; [exact Hf|]. cbn. lia.
Qed.

Lemma sort_msgs_spec l : sort_msgs l ≡ₚ l /\ StronglySorted Z.le (map im_uid (sort_msgs l)).
Proof.
  unfold sort_msgs. assert (Hg : forall acc, StronglySorted Z.le (map im_uid acc) ->
    foldl (fun acc m => sort_insert m acc) acc l ≡ₚ l ++ acc /\ StronglySorted Z.le (map im_uid (foldl (fun acc m => sort_insert m acc) acc l))).
  { induction l as [|m l IH]; intros acc Ha; cbn [foldl]; [done|]. destruct (IH (sort_insert m acc) (sort_insert_sorted m acc Ha)) as [E S].
    split; [|done]. rewrite E, sort_insert_perm. by rewrite <- Permutation_middle. }
  destruct (Hg [] ltac:(constructor)) as [E S]. rewrite app_nil_r in E. by split.
Qed.

Lemma sorted_strict l : NoDup (map im_uid l) -> StronglySorted Z.le (map im_uid l) -> StronglySorted Z.lt (map im_uid l).
Proof.
  generalize (map im_uid l). intros us Hn Hs. induction Hs as [|u us Hs IH Hf]; [constructor|]. apply NoDup_cons in Hn as [Hu Hn].
  constructor; [auto|]. rewrite Forall_forall in *. intros x Hx. specialize (Hf x Hx). assert (u <> x) by congruence. lia.
Qed.

(** ** What later steps keep of an entry *)

(** The name of a message in the mailbox: its uid, its base, its flags and its counter. *)
Definition ident (m : Imail) : Z * bytes * Z * bytes * Z := (im_uid m, im_base m, im_flags m, im_unk m, im_modseq m).

Lemma hydrate_ident fuel msgs rows : map ident (hydrate fuel msgs rows) = map ident msgs.
Proof.
  revert msgs rows. induction fuel as [|fuel IH]; intros msgs rows; [done|]. cbn [hydrate]. destruct msgs as [|m ms], rows as [|r rs]; [done..|].
  destruct (im_hdr_loaded m); [cbn [map]; by rewrite IH|]. destruct (_ <? _); [by rewrite IH|]. destruct (_ >? _); cbn [map]; by rewrite IH.
Qed.

Lemma ident_maps a b : map ident a = map ident b -> map im_uid a = map im_uid b /\ map im_base a = map im_base b.
Proof.
  intros E. assert (Hu : forall l, map im_uid l = map (fun i => i.1.1.1.1) (map ident l)) by (intros l; by rewrite map_map).
  assert (Hb : forall l, map im_base l = map (fun i => i.1.1.1.2) (map ident l)) by (intros l; by rewrite map_map).
  by rewrite !Hu, !Hb, E.
Qed.

(** ** Dropping rows *)

Lemma prune_spec fuel keep i v tombs changed v' tombs' changed' :
  prune fuel keep i v tombs changed = (v', tombs', changed') -> (length v <= fuel + i)%nat -> (i <= length v)%nat ->
  Forall (fun e => keep e = true) (take i v) ->
  v' ≡ₚ List.filter keep v /\ (forall b, b ∈ tombs' -> b ∈ tombs \/ exists e, e ∈ v /\ keep e = false /\ ue_base e = b /\ b <> []) /\
  (forall e, e ∈ v -> keep e = false -> ue_base e <> [] -> ue_base e ∈ tombs') /\ (forall b, b ∈ tombs -> b ∈ tombs') /\
  (changed' = true <-> changed = true \/ exists e, e ∈ v /\ keep e = false) /\
  (changed' = false -> v' = v).
Proof.
  assert (Hall : forall l, Forall (fun e => keep e = true) l -> List.filter keep l = l).
  { intros l Hl. induction Hl as [|e l He _ IH]; [done|]. cbn. by rewrite He, IH. }
  assert (Hdone : forall (v : list UidEnt) (tombs : list bytes) (changed : bool), Forall (fun e => keep e = true) v ->
    v ≡ₚ List.filter keep v /\ (forall b, b ∈ tombs -> b ∈ tombs \/ exists e, e ∈ v /\ keep e = false /\ ue_base e = b /\ b <> []) /\
    (forall e, e ∈ v -> keep e = false -> ue_base e <> [] -> ue_base e ∈ tombs) /\ (forall b, b ∈ tombs -> b ∈ tombs) /\
    (changed = true <-> changed = true \/ exists e, e ∈ v /\ keep e = false) /\ (changed = false -> v = v)).
  { intros l ts ch Hl. rewrite Hall by done. rewrite Forall_forall in Hl. split; [done|]. split; [auto|].
    split; [intros e He Hk; apply Hl in He; congruence|]. split; [done|]. split; [|done]. split; [auto|]. intros [?|(e & He & Hk)]; [done|].
    apply Hl in He. congruence. }
  revert i v tombs changed. induction fuel as [|fuel IH]; intros i v tombs changed Hp Hf Hi Hk; cbn [prune] in Hp.
  - injection Hp as <- <- <-. apply Hdone. rewrite take_ge in Hk by lia. done.
  - destruct (v !! i) as [e|] eqn:Ee.
    2: { injection Hp as <- <- <-. apply lookup_ge_None in Ee. apply Hdone. rewrite take_ge in Hk by lia. done. }
    pose proof (lookup_lt_Some _ _ _ Ee) as Hlt. destruct (keep e) eqn:Eke.
    + apply IH in Hp; [done|lia|lia|]. rewrite (take_S_r _ _ _ Ee). apply Forall_app. split; [done|]. by repeat constructor.
    + pose proof (swap_remove v i e Ee) as Hsw. set (w := take (length v - 1) (<[i:=default e (last v)]> v)) in *.
      assert (Hw : length w = (length v - 1)%nat) by (unfold w; rewrite length_take, length_insert; lia).
      apply IH in Hp; [|lia|lia|].
      2: { unfold w. rewrite take_take, Nat.min_l by lia. rewrite take_insert_ge by lia. done. }
      destruct Hp as (P1 & P2 & P3 & P4 & P5 & P6).
      assert (Hin : forall x, x ∈ v <-> x = e \/ x ∈ w) by (intros x; rewrite <- Hsw, elem_of_cons; done).
      assert (Htadd : forall b, b ∈ tomb_add tombs (ue_base e) -> b ∈ tombs \/ b = ue_base e /\ b <> []).
      { intros b. unfold tomb_add. destruct (ue_base e); cbn [is_nil]; [auto|]. rewrite elem_of_app, list_elem_of_singleton. naive_solver. }
      assert (Htin : forall b, b ∈ tombs \/ (b = ue_base e /\ b <> []) -> b ∈ tomb_add tombs (ue_base e)).
      { intros b Hb. unfold tomb_add. destruct (ue_base e) as [|c t]; cbn [is_nil]; [naive_solver|]. rewrite elem_of_app, list_elem_of_singleton. naive_solver. }
      split.
      { rewrite P1. assert (Hsw' : List.filter keep (e :: w) ≡ₚ List.filter keep v).
        { clear -Hsw. induction Hsw; cbn; [done| | |by etransitivity]; repeat case_match; rewrite ?IHHsw; try done. by rewrite Permutation_swap. }
        cbn in Hsw'. by rewrite Eke in Hsw'. }
      split.
      { intros b Hb. apply P2 in Hb as [Hb|(x & Hx & Hkx & <- & Hne)].
        - apply Htadd in Hb as [?|[-> Hne]]; [auto|]. right. exists e. split; [apply Hin; auto|done].
        - right. exists x. split; [apply Hin; auto|done]. }
      split.
      { intros x Hx Hkx Hne. apply Hin in Hx as [->|Hx]; [apply P4, Htin; auto|by apply P3]. }
      split; [intros b Hb; apply P4, Htin; auto|]. split.
      * rewrite P5. split; [|auto]. intros [?|(x & Hx & Hkx)]; right; [exists e|exists x]; (split; [apply Hin; auto|done]).
      * intros ->. assert (false = true) as E0; [apply P5; auto|done].
Qed.

(** ** The indices of the scan *)

Lemma map_puts_last (ps : list (bytes * Z)) m b : NoDup (map fst ps) -> 
  (forall v, (b, v) ∈ ps -> map_puts m ps !! b = Some v) /\ (b ∉ map fst ps -> map_puts m ps !! b = m !! b).
Proof.
  revert m. induction ps as [|p ps IH]; intros m Hn; cbn [map_puts foldl map] in *; [split; [intros v Hv; by apply not_elem_of_nil in Hv|done]|].
  apply NoDup_cons in Hn as [Hp Hn]. destruct (IH (<[p.1 := p.2]> m) Hn) as [I1 I2]. fold (map_puts (<[p.1 := p.2]> m) ps). split.
  - intros v Hv. apply elem_of_cons in Hv as [<-|Hv]; [|by apply I1]. cbn [fst] in *. rewrite I2 by done. by rewrite lookup_insert_eq.
  - intros Hb. apply not_elem_of_cons in Hb as [Hb1 Hb2]. rewrite I2 by done. by rewrite lookup_insert_ne.
Qed.

Lemma base_index_spec v b : NoDup (map ue_base v) -> forall e, base_index v b = Some e <-> e ∈ v /\ ue_base e = b.
Proof.
  intros Hn. unfold base_index. set (ps := imap (fun i e => (ue_base e, Z.of_nat i)) v).
  assert (E : foldl (fun h p => bh_put h p.2 (Z.of_nat p.1)) (bh_init (length v)) (imap (fun i e => (i, ue_base e)) v) = bh_puts (bh_init (length v)) ps).
  { unfold bh_puts, ps. generalize (bh_init (length v)). clear. 
    assert (G : forall (g : nat -> nat) v h, foldl (fun h p => bh_put h p.2 (Z.of_nat p.1)) h (imap (fun i e => (g i, ue_base e)) v)
              = foldl (fun h p => bh_put h p.1 p.2) h (imap (fun i e => (ue_base e, Z.of_nat (g i))) v)).
    { intros g w. revert g. induction w as [|e w IH]; intros g h; [done|]. cbn. apply (IH (g ∘ S)). }
    intros h. apply (G (fun i => i)). }
  assert (Hfst : map fst ps = map ue_base v).
  { unfold ps. clear. assert (G : forall (g : nat -> Z) v, map fst (imap (fun i e => (ue_base e, g i)) v) = map ue_base v).
    { intros g w. revert g. induction w as [|e w IH]; intros g; [done|]. cbn. f_equal. apply (IH (g ∘ S)). }
    apply G. }
  rewrite E, bh_puts_get by (unfold ps; by rewrite length_imap). rewrite <- Hfst in Hn. destruct (map_puts_last ps ∅ b Hn) as [L1 L2].
  assert (Hps : forall e i, v !! i = Some e -> (ue_base e, Z.of_nat i) ∈ ps).
  { intros e i Hi. apply list_elem_of_lookup. exists i. unfold ps. rewrite list_lookup_imap, Hi. done. }
  intros e. split.
  - destruct (decide (b ∈ map fst ps)) as [Hb|Hb].
    + rewrite Hfst in Hb. apply list_elem_of_In, in_map_iff in Hb as (x & <- & Hx). apply list_elem_of_In, list_elem_of_lookup in Hx as [i Hi].
      rewrite (L1 _ (Hps x i Hi)), Nat2Z.id, Hi. intros [= <-]. split; [|done]. apply list_elem_of_lookup. by exists i.
    + rewrite L2, lookup_empty by done. done.
  - intros [He <-]. apply list_elem_of_lookup in He as [i Hi]. by rewrite (L1 _ (Hps e i Hi)), Nat2Z.id.
Qed.

Lemma seen_index_spec msgs b : NoDup (map im_base msgs) -> forall u, seen_index msgs b = Some u <-> exists m, m ∈ msgs /\ im_base m = b /\ im_uid m = u.
Proof.
  intros Hn. unfold seen_index. set (ps := map (fun m => (im_base m, im_uid m)) msgs).
  assert (E : foldl (fun h m => bh_put h (im_base m) (im_uid m)) (bh_init (length msgs)) msgs = bh_puts (bh_init (length msgs)) ps).
  { unfold bh_puts, ps. generalize (bh_init (length msgs)). clear. induction msgs as [|m ms IH]; intros h; [done|]. cbn. apply IH. }
  assert (Hfst : map fst ps = map im_base msgs) by (unfold ps; by rewrite map_map).
  rewrite E, bh_puts_get by (unfold ps; by rewrite length_map). rewrite <- Hfst in Hn. destruct (map_puts_last ps ∅ b Hn) as [L1 L2].
  assert (Hps : forall m, m ∈ msgs -> (im_base m, im_uid m) ∈ ps).
  { intros m Hm. apply list_elem_of_In. unfold ps. apply (in_map (fun m => (im_base m, im_uid m))). by apply list_elem_of_In. }
  intros u. split.
  - destruct (decide (b ∈ map fst ps)) as [Hb|Hb]; [|rewrite L2, lookup_empty by done; done].
    rewrite Hfst in Hb. apply list_elem_of_In, in_map_iff in Hb as (m & <- & Hm). apply list_elem_of_In in Hm.
    rewrite (L1 _ (Hps m Hm)). intros [= <-]. by exists m.
  - intros (m & Hm & <- & <-). apply L1. by apply Hps.
Qed.

(** ** The scan of the directories *)

Section Scan.
Context `{HF : MailFs} (uninit : Z).

(** The base names the scan finds in a directory. *)
Definition scan_base (f : fs) (sub_dir name : bytes) : option bytes :=
  match entry_name name with
  | None => None
  | Some (base, _, _) =>
      let path := sub_dir ++ bs "/" ++ name in
      if 4160 <=? len path then None else match fs_stat f path with Some _ => Some base | None => None end
  end.

Definition scan_bases (f : fs) (dir sub : bytes) : list bytes :=
  match fs_list f (dir ++ bs "/" ++ sub) with
  | None => []
  | Some names => omap (scan_base f (dir ++ bs "/" ++ sub)) names
  end.

(** What holds along the scan: the rows read before it stay, new ones follow them with
    increasing numbers, and each entry found so far has its row. *)
Record scan_inv (map0 : list UidEnt) (un0 : Z) (bases : list bytes) (st : ScanSt) : Prop := {
  si_bases : map im_base (sc_msgs st) = bases;
  si_next : un0 <= sc_next st;
  si_map : exists fresh, sc_map st = map0 ++ fresh /\ Forall (fun e => un0 <= ue_uid e < sc_next st) fresh /\
    NoDup (map ue_uid fresh) /\ NoDup (map ue_base fresh) /\
    (forall e, e ∈ fresh -> ue_base e ∉ map ue_base map0 /\ ue_base e ∈ bases) /\ (sc_changed st = false -> fresh = []);
  si_rows : forall m, m ∈ sc_msgs st -> exists e, e ∈ sc_map st /\ ue_base e = im_base m /\ ue_uid e = im_uid m
}.

Lemma scan_entry_none f sub_dir is_new old st name : scan_base f sub_dir name = None -> scan_entry uninit f sub_dir is_new old st name = st.
Proof.
  unfold scan_base, scan_entry. destruct (entry_name name) as [[[b fl] u]|]; [|done]. cbv zeta. destruct (_ <=? _); [done|].
  destruct (fs_stat f _); done.
Qed.

(** An entry is added with the uid of its row. *)
Lemma scan_entry_some f sub_dir is_new old st name base : scan_base f sub_dir name = Some base ->
  exists m row, scan_entry uninit f sub_dir is_new old st name =
    match old base with
    | Some e => {| sc_msgs := sc_msgs st ++ [m]; sc_map := sc_map st; sc_next := sc_next st; sc_changed := sc_changed st;
                   sc_hdrs := sc_hdrs st; sc_high := sc_high (scan_entry uninit f sub_dir is_new old st name) |}
    | None => {| sc_msgs := sc_msgs st ++ [m]; sc_map := sc_map st ++ [row]; sc_next := u32 (sc_next st + 1); sc_changed := true;
                 sc_hdrs := true; sc_high := sc_high (scan_entry uninit f sub_dir is_new old st name) |}
    end /\ im_base m = base /\ ue_base row = base /\ ue_uid row = sc_next st /\
    im_uid m = match old base with Some e => ue_uid e | None => sc_next st end.
Proof.
  unfold scan_base, scan_entry. destruct (entry_name name) as [[[b fl] u]|]; [|done]. cbv zeta. destruct (_ <=? _); [done|].
  destruct (fs_stat f _) as [s|]; [|done]. intros [= ->]. destruct (old base) as [e|].
  - eexists _, {| ue_base := base; ue_mid := []; ue_uid := sc_next st; ue_modseq := 0 |}. by repeat split.
  - eexists _, _. split; [unfold scan_entry_add; cbn; reflexivity|]. destruct (fs_read f _); by repeat split.
Qed.

Lemma scan_step map0 un0 bases f sub_dir is_new st name base :
  scan_inv map0 un0 bases st -> scan_base f sub_dir name = Some base -> base ∉ bases ->
  NoDup (map ue_base map0) -> 0 <= sc_next st < UINT32_MAX ->
  scan_inv map0 un0 (bases ++ [base]) (scan_entry uninit f sub_dir is_new (base_index map0) st name) /\
  sc_next (scan_entry uninit f sub_dir is_new (base_index map0) st name) <= sc_next st + 1.
Proof.
  intros [I1 I2 (fresh & E & I3 & I4 & I5 & I6 & I7) I8] Hb Hnew Hn Hnx.
  destruct (scan_entry_some f sub_dir is_new (base_index map0) st name base Hb) as (m & row & Eq & Hm & Hr & Hru & Hu).
  rewrite Eq. clear Eq. destruct (base_index map0 base) as [e|] eqn:Eo.
  - apply base_index_spec in Eo as [He Heb]; [|done]. split; [|cbn; lia]. split; cbn [sc_msgs sc_map sc_next sc_changed].
    + by rewrite map_app, I1, <- Hm.
    + done.
    + exists fresh. split; [done|]. do 3 (split; [done|]). split; [|done]. intros x Hx. destruct (I6 x Hx). split; [done|]. apply elem_of_app. by left.
    + intros x Hx. apply elem_of_app in Hx as [Hx|Hx%list_elem_of_singleton]; [by apply I8|subst x]. exists e. rewrite E, elem_of_app. split; [by left|]. split; congruence.
  - assert (Hno : base ∉ map ue_base map0).
    { intros Hin. apply list_elem_of_In, in_map_iff in Hin as (x & Hx & Hin). apply list_elem_of_In in Hin.
      assert (base_index map0 base = Some x); [by apply base_index_spec|congruence]. }
    rewrite u32_small by (unfold UINT32_MAX in *; lia). split; [|cbn; lia]. split; cbn [sc_msgs sc_map sc_next sc_changed].
    + by rewrite map_app, I1, <- Hm.
    + lia.
    + exists (fresh ++ [row]). rewrite E, <- app_assoc. split; [done|]. split; [|split; [|split; [|split; [|done]]]].
      * apply Forall_app. split; [eapply Forall_impl; [exact I3|]; cbn; lia|]. apply Forall_singleton. lia.
      * rewrite map_app. apply NoDup_app. split; [done|]. split; [|apply NoDup_singleton]. intros u Hu1 Hu2.
        apply list_elem_of_singleton in Hu2 as ->. apply list_elem_of_In, in_map_iff in Hu1 as (x & Hx & Hin). apply list_elem_of_In in Hin.
        rewrite Forall_forall in I3. apply I3 in Hin. lia.
      * rewrite map_app. apply NoDup_app. split; [done|]. split; [|apply NoDup_singleton]. intros b Hb1 Hb2.
        apply list_elem_of_singleton in Hb2 as ->. apply list_elem_of_In, in_map_iff in Hb1 as (x & Hx & Hin). apply list_elem_of_In in Hin.
        apply I6 in Hin as [_ Hin]. congruence.
      * intros x Hx. apply elem_of_app in Hx as [Hx|Hx%list_elem_of_singleton]; [|subst x].
        -- destruct (I6 x Hx). split; [done|]. apply elem_of_app. by left.
        -- rewrite Hr. split; [done|]. apply elem_of_app. right. by apply list_elem_of_singleton.
    + intros x Hx. apply elem_of_app in Hx as [Hx|Hx%list_elem_of_singleton]; [|subst x].
      * destruct (I8 x Hx) as (e & He & ?). exists e. split; [apply elem_of_app; by left|done].
      * exists row. split; [apply elem_of_app; right; by apply list_elem_of_singleton|]. split; congruence.
Qed.

Lemma scan_names map0 un0 bases f sub_dir is_new names st :
  scan_inv map0 un0 bases st -> NoDup (bases ++ omap (scan_base f sub_dir) names) -> NoDup (map ue_base map0) ->
  0 <= sc_next st -> sc_next st + len names <= UINT32_MAX ->
  let st' := foldl (scan_entry uninit f sub_dir is_new (base_index map0)) st names in
  scan_inv map0 un0 (bases ++ omap (scan_base f sub_dir) names) st' /\ sc_next st' <= sc_next st + len names.
Proof.
  revert bases st. induction names as [|name names IH]; intros bases st Hi Hd Hn H0 Hb; [cbn; rewrite app_nil_r; split; [done|lia]|].
  cbn [foldl length] in *. change (omap (scan_base f sub_dir) (name :: names)) with
    (match scan_base f sub_dir name with Some b => b :: omap (scan_base f sub_dir) names | None => omap (scan_base f sub_dir) names end) in *.
  destruct (scan_base f sub_dir name) as [b|] eqn:E.
  - assert (Hd' : NoDup ((bases ++ [b]) ++ omap (scan_base f sub_dir) names)) by (by rewrite <- app_assoc).
    assert (Hnb : b ∉ bases).
    { apply NoDup_app in Hd as (_ & Hd & _). intros Hin. apply (Hd b Hin). by left. }
    destruct (scan_step map0 un0 bases f sub_dir is_new st name b Hi E Hnb Hn ltac:(lia)) as [Hi' Hn'].
    pose proof (si_next _ _ _ _ Hi'). pose proof (si_next _ _ _ _ Hi).
    destruct (IH (bases ++ [b]) _ Hi' Hd' Hn) as [J1 J2]; [|lia|].
    { destruct (scan_entry_some f sub_dir is_new (base_index map0) st name b E) as (m & row & -> & _).
      destruct (base_index map0 b); cbn [sc_next]; [done|]. unfold u32. apply Z.mod_pos_bound. lia. }
    rewrite <- app_assoc in J1. split; [exact J1|lia].
  - rewrite (scan_entry_none _ _ _ _ _ _ E). destruct (IH bases st Hi Hd Hn H0 ltac:(lia)) as [J1 J2]. split; [done|lia].
Qed.

Lemma scan_both map0 un f dir st : NoDup (map ue_base map0) -> NoDup (scan_bases f dir (bs "new") ++ scan_bases f dir (bs "cur")) ->
  0 < un -> un + len (default [] (fs_list f (dir ++ bs "/" ++ bs "new"))) + len (default [] (fs_list f (dir ++ bs "/" ++ bs "cur"))) <= UINT32_MAX ->
  (st ← scan_subdir uninit f dir (bs "new") true (base_index map0)
          {| sc_msgs := []; sc_map := map0; sc_next := un; sc_changed := false; sc_hdrs := false; sc_high := 0 |};
   scan_subdir uninit f dir (bs "cur") false (base_index map0) st) = Some st ->
  scan_inv map0 un (scan_bases f dir (bs "new") ++ scan_bases f dir (bs "cur")) st.
Proof.
  intros Hn Hd Hun Hroom. unfold scan_subdir, scan_bases in *.
  destruct (fs_list f (dir ++ bs "/" ++ bs "new")) as [n1|]; [|done]. destruct (fs_list f (dir ++ bs "/" ++ bs "cur")) as [n2|]; [|done].
  cbn [default from_option mbind option_bind] in *. unfold id in Hroom. intros [= <-].
  assert (H0 : scan_inv map0 un [] {| sc_msgs := []; sc_map := map0; sc_next := un; sc_changed := false; sc_hdrs := false; sc_high := 0 |}).
  { split; cbn [sc_msgs sc_map sc_next sc_changed]; [done|lia| |intros m Hm; by apply not_elem_of_nil in Hm].
    exists []. rewrite app_nil_r. split; [done|]. split; [constructor|]. split; [constructor|]. split; [constructor|]. split; [|done].
    intros e He. by apply not_elem_of_nil in He. }
  destruct (scan_names map0 un [] f (dir ++ bs "/" ++ bs "new") true n1 _ H0) as [H1 L1]; [cbn [app]; by apply NoDup_app in Hd as [? _]|done|cbn [sc_next]; lia|cbn [sc_next]; lia|].
  cbn [app] in H1. pose proof (si_next _ _ _ _ H1) as Hge. cbn [sc_next] in L1.
  refine (proj1 (scan_names map0 un _ f (dir ++ bs "/" ++ bs "cur") false n2 _ H1 Hd Hn _ _)); lia.
Qed.
End Scan.

(** ** The view of a scan *)

Lemma NoDup_map_sep {A B C} (g : A -> B) (h : A -> C) l : NoDup (map g l) ->
  (forall x y, x ∈ l -> y ∈ l -> h x = h y -> g x = g y) -> NoDup (map h l).
Proof.
  induction l as [|x l IH]; intros Hn Hs; [constructor|]. cbn [map] in *. apply NoDup_cons in Hn as [Hx Hn]. apply NoDup_cons. split.
  - intros Hin. apply list_elem_of_In, in_map_iff in Hin as (y & Hy & Hin). apply list_elem_of_In in Hin. apply Hx.
    rewrite (Hs x y); [by apply list_elem_of_In, in_map, list_elem_of_In|by left|by right|done].
  - apply IH; [done|]. intros y z Hy Hz. apply Hs; by right.
Qed.

Lemma NoDup_map_inj {A B} (g : A -> B) l x y : NoDup (map g l) -> x ∈ l -> y ∈ l -> g x = g y -> x = y.
Proof.
  intros Hn Hx Hy E. apply list_elem_of_lookup in Hx as [i Hi], Hy as [j Hj].
  assert (i = j) as ->; [|congruence]. apply (NoDup_lookup _ i j (g x) Hn); rewrite list_lookup_fmap, ?Hi, ?Hj; cbn; congruence.
Qed.

Lemma elem_of_map {A B} (g : A -> B) l y : y ∈ map g l <-> exists x, x ∈ l /\ g x = y.
Proof. rewrite list_elem_of_In, in_map_iff. setoid_rewrite list_elem_of_In. naive_solver. Qed.

Lemma move_loop_ident `{HF : MailFs} f dir msgs : map ident (move_loop f dir msgs).2 = map ident msgs.
Proof.
  revert f. induction msgs as [|m ms IH]; intros f; cbn [move_loop]; [done|].
  match goal with |- context [let '(_, _) := ?p in _] => set (r := p) end.
  assert (Hr : ident r.2 = ident m).
  { unfold r. destruct (im_recent m); [|done]. destruct (imapd_flags_encode _ _ _); [|done]. destruct (msg_path _ _ _ _ _); [|done].
    destruct (fs_rename _ _ _) as [f' []]; done. }
  destruct r as [f' m']. cbn [snd] in Hr. specialize (IH f'). destruct (move_loop f' dir ms) as [f'' ms']. cbn [snd map] in *. congruence.
Qed.

(** The pair of names of a row and of a message. *)
Definition row_name (e : UidEnt) : bytes * Z := (ue_base e, ue_uid e).
Definition msg_name (m : Imail) : bytes * Z := (im_base m, im_uid m).


Section View.
Context `{HF : MailFs} (tmp_suffix : bytes) (uninit : Z).

(** What the uidlist in [dir] says, the validity being [u32 now] without one. *)
Definition scan_rows (f : fs) (dir : bytes) (now : Z) : Z * Z * list UidEnt :=
  let '(uv, un, rows) := uidlist_load (fs_read f (uidlist_path dir)) (u32 now) 1 in (uv, (if un =? 0 then 1 else un), rows).

Record view_ok (map0 : list UidEnt) (un : Z) (bases : list bytes) (mb : Mbox) : Prop := {
  vo_sorted : StronglySorted Z.lt (map im_uid (mb_msgs mb));
  vo_bases : map im_base (mb_msgs mb) ≡ₚ bases;
  vo_known : forall m e, m ∈ mb_msgs mb -> e ∈ map0 -> ue_base e = im_base m -> im_uid m = ue_uid e;
  vo_fresh : forall m, m ∈ mb_msgs mb -> im_base m ∉ map ue_base map0 -> un <= im_uid m;
  vo_next : un <= mb_uidnext mb /\ forall m, m ∈ mb_msgs mb -> im_uid m < mb_uidnext mb;
  vo_rows : map row_name (mb_uidmap mb) ≡ₚ map msg_name (mb_msgs mb);
  vo_tomb : forall b, b ∈ mb_tomb mb <-> b <> [] /\ b ∈ map ue_base map0 /\ b ∉ bases
}.

Lemma inv_rows_distinct map0 un bases st : scan_inv map0 un bases st -> NoDup (map ue_base map0) -> NoDup (map ue_uid map0) ->
  Forall (fun e => ue_uid e < un) map0 -> NoDup (map ue_uid (sc_map st)) /\ NoDup (map ue_base (sc_map st)).
Proof.
  intros [I1 I2 (fresh & -> & I3 & I4 & I5 & I6 & _) I8] Hn Hnu Hlt. rewrite !map_app, !NoDup_app. split.
  - split; [done|]. split; [|done]. intros u Hu1 Hu2. apply elem_of_map in Hu1 as (x & Hx & <-), Hu2 as (y & Hy & Hxy).
    rewrite Forall_forall in Hlt, I3. specialize (Hlt x Hx). specialize (I3 y Hy). cbn in *. lia.
  - split; [done|]. split; [|done]. intros b Hb1 Hb2. apply elem_of_map in Hb2 as (y & Hy & <-). by apply (I6 y Hy).
Qed.

(** Every message of a view with the entries of the scan has its row. *)
Lemma inv_view map0 un bases st msgs : scan_inv map0 un bases st -> NoDup bases -> NoDup (map ue_uid (sc_map st)) ->
  map ident msgs ≡ₚ map ident (sc_msgs st) ->
  map im_base msgs ≡ₚ bases /\ NoDup (map im_uid msgs) /\ (forall m, m ∈ msgs -> exists e, e ∈ sc_map st /\ ue_base e = im_base m /\ ue_uid e = im_uid m).
Proof.
  intros [I1 _ _ I8] Hb Hnm Hiu.
  assert (Hbase : map im_base msgs ≡ₚ bases).
  { rewrite <- I1. replace (map im_base msgs) with (map (fun i : Z * bytes * Z * bytes * Z => i.1.1.1.2) (map ident msgs)) by (by rewrite map_map).
    rewrite Hiu, map_map. done. }
  assert (Hrow : forall m, m ∈ msgs -> exists e, e ∈ sc_map st /\ ue_base e = im_base m /\ ue_uid e = im_uid m).
  { intros m Hm. assert (ident m ∈ map ident (sc_msgs st)) as Hin by (rewrite <- Hiu; apply elem_of_map; by exists m).
    apply elem_of_map in Hin as (x & Hx & Hxm). destruct (I8 x Hx) as (e & He & ? & ?). exists e. unfold ident in Hxm. split; [done|]. split; congruence. }
  split; [done|]. split; [|done]. apply (NoDup_map_sep im_base); [by rewrite Hbase|]. intros x y Hx Hy Hxy.
  destruct (Hrow x Hx) as (e & He & <- & Hu), (Hrow y Hy) as (e' & He' & <- & Hu').
  assert (e = e') as ->; [|done]. apply (NoDup_map_inj ue_uid (sc_map st)); [done..|congruence].
Qed.

Definition kept (msgs : list Imail) (e : UidEnt) : bool := match seen_index msgs (ue_base e) with Some sv => sv =? ue_uid e | None => false end.

Lemma kept_spec msgs msgs' e : NoDup (map im_base msgs) -> map ident msgs' = map ident msgs ->
  kept msgs e = true <-> exists m, m ∈ msgs' /\ msg_name m = row_name e.
Proof.
  intros Hbm Hid. assert (Hmn : forall l, map msg_name l = map (fun i : Z * bytes * Z * bytes * Z => (i.1.1.1.2, i.1.1.1.1)) (map ident l))
    by (intros l; by rewrite map_map).
  assert (Hsw : (exists m, m ∈ msgs' /\ msg_name m = row_name e) <-> seen_index msgs (ue_base e) = Some (ue_uid e)).
  { rewrite <- elem_of_map, Hmn, Hid, <- Hmn, elem_of_map, (seen_index_spec msgs _ Hbm). unfold msg_name, row_name.
    split; [intros (m & Hm & [= ? ?])|intros (m & Hm & ? & ?)]; exists m; (split; [done|]); [done|congruence]. }
  rewrite Hsw. unfold kept. destruct (seen_index msgs (ue_base e)); [|done]. rewrite Z.eqb_eq. split; congruence.
Qed.

Lemma NoDup_map_filter {A B} (g : A -> B) k l : NoDup (map g l) -> NoDup (map g (List.filter k l)).
Proof.
  induction l as [|e l IH]; intros Hn; [done|]. cbn [map List.filter] in *. apply NoDup_cons in Hn as [He Hn]. destruct (k e); [|auto]. cbn [map].
  apply NoDup_cons. split; [|auto]. intros Hin. apply He. apply elem_of_map in Hin as (x & Hx & <-). apply list_elem_of_In, filter_In in Hx as [Hx _].
  apply elem_of_map. exists x. split; [by apply list_elem_of_In|done].
Qed.

(** The rows that are kept are those of the messages. *)
Lemma view_of_inv map0 un bases st msgs map_ tombs changed ch0 dir uv hd :
  scan_inv map0 un bases st -> NoDup bases -> NoDup (map ue_base map0) -> NoDup (map ue_uid map0) ->
  Forall (fun e => ue_uid e < un) map0 -> map ident msgs = map ident (sort_msgs (sc_msgs st)) ->
  prune (length (sc_map st)) (kept msgs) 0 (sc_map st) [] ch0 = (map_, tombs, changed) ->
  forall msgs', map ident msgs' = map ident msgs ->
  view_ok map0 un bases {| mb_dir := dir; mb_uidvalidity := uv; mb_uidnext := sc_next st; mb_highestmodseq := sc_high st; mb_msgs := msgs';
     mb_uidmap := map_; mb_uidlist_dirty := false; mb_tomb := tombs; mb_hdrs_dirty := hd |}.
Proof.
  intros Hi Hb Hn Hnu Hlt Hid Hp msgs' Hid'. destruct (inv_rows_distinct _ _ _ _ Hi Hn Hnu Hlt) as [Hnm Hnb].
  destruct (sort_msgs_spec (sc_msgs st)) as [Hperm Hsort].
  assert (Hiu : map ident msgs' ≡ₚ map ident (sc_msgs st)) by (rewrite Hid', Hid; by apply Permutation_map).
  destruct (inv_view _ _ _ _ msgs' Hi Hb Hnm Hiu) as (Hbase & Hsep & Hrow). destruct Hi as [_ I2 (fresh & E & I3 & _ & _ & I6 & _) _].
  destruct (ident_maps _ _ Hid') as [Huid Hbs]. destruct (ident_maps _ _ Hid) as [Hus _].
  destruct (prune_spec _ _ _ _ _ _ _ _ _ Hp) as (P1 & P2 & P3 & _); [lia|lia|constructor|].
  assert (Hbm : NoDup (map im_base msgs)) by (by rewrite <- Hbs, Hbase).
  pose proof (fun e => kept_spec msgs msgs' e Hbm Hid') as Hkeep.
  assert (Hmap : forall e, e ∈ map_ <-> e ∈ sc_map st /\ kept msgs e = true) by (intros e; rewrite P1, !list_elem_of_In; apply List.filter_In).
  split; cbn [mb_msgs mb_uidnext mb_uidmap mb_tomb].
  - apply sorted_strict; [done|]. by rewrite Huid, Hus.
  - done.
  - intros m e Hm He Heb. destruct (Hrow m Hm) as (x & Hx & Hxb & <-). assert (x = e) as ->; [|done].
    apply (NoDup_map_inj ue_base (sc_map st)); [done..|rewrite E, elem_of_app; by left|congruence].
  - intros m Hm Hno. destruct (Hrow m Hm) as (x & Hx & Hxb & <-). rewrite E, elem_of_app in Hx. destruct Hx as [Hx|Hx].
    + exfalso. apply Hno, elem_of_map. by exists x.
    + rewrite Forall_forall in I3. apply (I3 x Hx).
  - split; [done|]. intros m Hm. destruct (Hrow m Hm) as (x & Hx & Hxb & <-). rewrite E, elem_of_app in Hx.
    rewrite Forall_forall in Hlt, I3. destruct Hx as [Hx|Hx]; [specialize (Hlt x Hx)|specialize (I3 x Hx)]; cbn in *; lia.
  - apply NoDup_Permutation.
    + apply (NoDup_fmap_1 snd). unfold fmap. rewrite map_map. cbn. rewrite P1. by apply NoDup_map_filter.
    + apply (NoDup_fmap_1 snd). unfold fmap. rewrite map_map. done.
    + intros x. rewrite !elem_of_map. split; [intros (e & He & <-); apply Hmap in He as [_ He%Hkeep]; done|].
      intros (m & Hm & <-). destruct (Hrow m Hm) as (e & He & Heb & Heu).
      assert (Hrn : row_name e = msg_name m) by (unfold row_name, msg_name; congruence). exists e. split; [|done].
      apply Hmap. split; [done|]. apply Hkeep. by exists m.
  - intros b. split.
    + intros Hbt. apply P2 in Hbt as [Hbt|(e & He & Hk & <- & Hne)]; [by apply not_elem_of_nil in Hbt|].
      assert (Hnb' : ue_base e ∉ bases).
      { rewrite <- Hbase, elem_of_map. intros (m & Hm & Hmb). destruct (Hrow m Hm) as (x & Hx & Hxb & Hxu).
        assert (x = e) as ->; [apply (NoDup_map_inj ue_base (sc_map st)); [done..|congruence]|].
        assert (kept msgs e = true); [|congruence]. apply Hkeep. exists m. split; [done|]. unfold msg_name, row_name. congruence. }
      split; [done|]. split; [|done]. rewrite E, elem_of_app in He. destruct He as [He|He]; [apply elem_of_map; by exists e|]. exfalso. apply Hnb'. by apply (I6 e He).
    + intros (Hne & Hin & Hout). apply elem_of_map in Hin as (e & He & <-). apply P3; [rewrite E, elem_of_app; by left| |done].
      apply not_true_iff_false. intros (m & Hm & Hmn)%Hkeep. apply Hout. rewrite <- Hbase, elem_of_map. exists m. split; [done|].
      unfold msg_name, row_name in Hmn. congruence.
Qed.

Lemma scan_view f root user name dir move now f' mb :
  imapd_mbox_dir root user name 4096 = Some dir ->
  let f1 := (imapd_mbox_create f dir).1 in
  let '(uv, un, map0) := scan_rows f1 dir now in
  NoDup (map ue_base map0) -> NoDup (map ue_uid map0) -> Forall (fun e => ue_uid e < un) map0 -> 0 < un ->
  NoDup (scan_bases f1 dir (bs "new") ++ scan_bases f1 dir (bs "cur")) ->
  un + len (default [] (fs_list f1 (dir ++ bs "/" ++ bs "new"))) + len (default [] (fs_list f1 (dir ++ bs "/" ++ bs "cur"))) <= UINT32_MAX ->
  mbox_scan tmp_suffix uninit f root user name move now = (f', Some mb) ->
  mb_uidvalidity mb = uv /\ view_ok map0 un (scan_bases f1 dir (bs "new") ++ scan_bases f1 dir (bs "cur")) mb.
Proof.
  intros Hdir. cbv zeta. unfold scan_rows, mbox_scan. rewrite Hdir. destruct (imapd_mbox_create f dir) as [f1 [|]]; cbn [fst negb].
  2: { destruct (uidlist_load _ _ _) as [[uv un] map0]. done. }
  destruct (uidlist_load (fs_read f1 (uidlist_path dir)) (u32 now) 1) as [[uv un0] map0]. set (un := if un0 =? 0 then 1 else un0).
  intros Hn Hnu Hlt Hun Hd Hroom.
  match goal with |- context [match ?scan with Some _ => _ | None => _ end] => destruct scan as [st|] eqn:Es end; [|done].
  pose proof (scan_both uninit map0 un f1 dir st Hn Hd Hun Hroom Es) as Hi.
  destruct (mail_hdrs_load _) as [huv hrows].
  set (msgs := if _ && _ then hydrate _ _ _ else _).
  assert (Hid : map ident msgs = map ident (sort_msgs (sc_msgs st))) by (unfold msgs; destruct (_ && _); [apply hydrate_ident|done]).
  fold (kept msgs). destruct (prune _ _ 0 (sc_map st) [] _) as [[map_ tombs] changed] eqn:Ep.
  destruct (if move then move_loop f1 dir msgs else (f1, msgs)) as [f2 msgs'] eqn:Em.
  assert (Hm : map ident msgs' = map ident msgs).
  { destruct move; [|congruence]. rewrite <- (move_loop_ident f1 dir msgs), Em. done. }
  pose proof (view_of_inv map0 un _ st msgs map_ tombs changed _ dir uv (sc_hdrs st) Hi Hd Hn Hnu Hlt Hid Ep msgs' Hm) as Hv.
  destruct changed; [destruct (imapd_uidlist_save _ _ _ _ _ _ _ _) as [[f3 p] [|]]|]; intros Hr; try done;
    apply (f_equal snd) in Hr; cbn [snd] in Hr; injection Hr as <-; by split.
Qed.
End View.

(** C27: Uids survive a scan. A scan of a mailbox whose uidlist has distinct names and
    numbers below its next one, and whose files have distinct base names, while the
    numbers stay within 32 bits, gives a view in strictly increasing
    order of uids with one entry for each file found; a base of the uidlist keeps its
    uid, every other file gets one at or above the next uid; the rows it keeps are those
    of its entries, and the bases it buries are exactly those of the uidlist without a
    file, the empty one apart. *)
Theorem mbox_scan_uids `{HF : MailFs} (tmp_suffix : bytes) (uninit : Z) f root user name dir move now f' mb uv un map0
    (Hdir : imapd_mbox_dir root user name 4096 = Some dir) :
  let f1 := (imapd_mbox_create f dir).1 in
  forall (Hload : scan_rows f1 dir now = (uv, un, map0))
    (Hlist : NoDup (map ue_base map0) /\ NoDup (map ue_uid map0) /\ Forall (fun e => ue_uid e < un) map0 /\ 0 < un)
    (Hfiles : NoDup (scan_bases f1 dir (bs "new") ++ scan_bases f1 dir (bs "cur")))
    (Hroom : un + len (default [] (fs_list f1 (dir ++ bs "/" ++ bs "new"))) + len (default [] (fs_list f1 (dir ++ bs "/" ++ bs "cur"))) <= UINT32_MAX)
    (Hscan : mbox_scan tmp_suffix uninit f root user name move now = (f', Some mb)),
  mb_uidvalidity mb = uv /\
  StronglySorted Z.lt (map im_uid (mb_msgs mb)) /\
  map im_base (mb_msgs mb) ≡ₚ scan_bases f1 dir (bs "new") ++ scan_bases f1 dir (bs "cur") /\
  (forall m e, m ∈ mb_msgs mb -> e ∈ map0 -> ue_base e = im_base m -> im_uid m = ue_uid e) /\
  (forall m, m ∈ mb_msgs mb -> im_base m ∉ map ue_base map0 -> un <= im_uid m) /\
  un <= mb_uidnext mb /\ (forall m, m ∈ mb_msgs mb -> im_uid m < mb_uidnext mb) /\
  map row_name (mb_uidmap mb) ≡ₚ map msg_name (mb_msgs mb) /\
  (forall b, b ∈ mb_tomb mb <-> b <> [] /\ b ∈ map ue_base map0 /\ b ∉ map im_base (mb_msgs mb)).
Proof.
  cbv zeta. intros Hload (Hn & Hnu & Hlt & Hun) Hfiles Hroom Hscan.
  pose proof (scan_view tmp_suffix uninit f root user name dir move now f' mb Hdir) as Hv. cbv zeta in Hv. rewrite Hload in Hv.
  destruct (Hv Hn Hnu Hlt Hun Hfiles Hroom Hscan) as [Huv [V1 V2 V3 V4 [V5 V6] V7 V8]].
  split; [done|]. do 7 (split; [done|]). intros b. rewrite V2. apply V8.
Qed.

(** A mailbox with a new file and one in cur/ that the uidlist knows as 5. *)
Definition scan_w_dir : bytes := default [] (imapd_mbox_dir (bs "/r") (bs "u") (bs "INBOX") 4096).
Definition scan_w_files : MemFiles :=
  [(uidlist_path scan_w_dir, print_uidlist 7 9 [{| ue_base := bs "a"; ue_mid := []; ue_uid := 5; ue_modseq := 2 |};
                                                {| ue_base := bs "gone"; ue_mid := []; ue_uid := 6; ue_modseq := 1 |}]);
   (scan_w_dir ++ bs "/new/b", bs "Subject: hi" ++ CRLF ++ CRLF); (scan_w_dir ++ bs "/cur/a:2,S", bs "x")].
Definition scan_w_box : option Mbox := (mbox_scan (HF := MemMailFs) (bs "1") 0 scan_w_files (bs "/r") (bs "u") (bs "INBOX") true 100).2.

Example scan_w_view : (fun mb => (map msg_name (mb_msgs mb), mb_uidnext mb, mb_tomb mb)) <$> scan_w_box = Some ([(bs "a", 5); (bs "b", 9)], 10, [bs "gone"]).
Proof. vm_compute. reflexivity. Qed.

Lemma mbox_scan_uids_witness :
  exists f' mb, mbox_scan (HF := MemMailFs) (bs "1") 0 scan_w_files (bs "/r") (bs "u") (bs "INBOX") true 100 = (f', Some mb) /\
    StronglySorted Z.lt (map im_uid (mb_msgs mb)).
Proof.
  assert (Hdec : forall l : list bytes, bool_decide (NoDup l) = true -> NoDup l) by (intros l Hl; by apply bool_decide_eq_true in Hl).
  assert (Hdecz : forall l : list Z, bool_decide (NoDup l) = true -> NoDup l) by (intros l Hl; by apply bool_decide_eq_true in Hl).
  eexists _, _. split; [vm_compute; reflexivity|].
  refine (proj1 (proj2 (mbox_scan_uids (HF := MemMailFs) (bs "1") 0 scan_w_files (bs "/r") (bs "u") (bs "INBOX") scan_w_dir true 100 _ _ _ _ _ _ _ _ _ _ _)));
    [vm_compute; reflexivity|vm_compute; reflexivity| | | |vm_compute; reflexivity].
  - split; [apply Hdec; vm_compute; reflexivity|]. split; [apply Hdecz; vm_compute; reflexivity|]. split; [repeat constructor|lia].
  - apply Hdec. vm_compute. reflexivity.
  - vm_compute. discriminate.
Defined.
