(* ===== verification/ImapdNet.v ===== *)
(** * The connections of imapd (src/src/imapd_tls.c and the helpers its protocols share)

    The part of [Conn] every protocol has, the state of STARTTLS, and the queue and
    flush of replies, which imapd.c, pop3d.c and imapd_ingest.c each have a copy of. The
    network and the vendored mbedtls are the class [ImapdNet]; the mail files are
    [MailFs]. Setting up the process-wide TLS configuration is not modelled: whether it
    succeeded is [is_tls_ready]. *)

From S2P Require Import Prelude MailLines Json Prog SmtpWorld MailStore MailAuth MailUid MailHdrs MailBox.

(** ** The machine *)

(** What mbedtls returns for a read: bytes, or a code. *)
Inductive ssl_in := SslData (d : bytes) | SslCode (code : Z).

Class ImapdNet := {
  net : Type;
  n_time : net -> net * Z;
  n_clock : net -> net * (Z * Z);                       (* seconds and nanoseconds *)
  n_recv : net -> Z -> net * recv_result;
  n_send : net -> Z -> bytes -> net * list send_result; (* the calls of a flush, in order *)
  n_close : net -> Z -> net;
  ssl_setup : net -> Z -> net * option Z;               (* a context over the socket *)
  ssl_handshake : net -> Z -> net * Z;
  ssl_read : net -> Z -> net * ssl_in;
  ssl_write : net -> Z -> bytes -> net * list Z;        (* the codes of a flush, in order *)
  ssl_close_notify : net -> Z -> net
}.

Definition MBEDTLS_ERR_SSL_WANT_READ : Z := -26880.
Definition MBEDTLS_ERR_SSL_WANT_WRITE : Z := -26752.

(** ** The configuration and the server *)

Record ImapdConfig := {
  ic_root : bytes; ic_ingest_addr : bytes; ic_ingest_port : Z; ic_imap_addr : bytes; ic_imap_port : Z;
  ic_pop3_addr : bytes; ic_pop3_port : Z; ic_hostname : bytes; ic_max_msg : Z; ic_cmd_tmo : Z; ic_data_tmo : Z;
  ic_cert : option bytes; ic_key : option bytes
}.

(** The fields of [ImapdServer] that do not change while it runs. *)
Record ImapdServer := {
  is_cfg : ImapdConfig; is_creds : list ImapdCred; is_tls_ready : bool; is_imap_loopback : bool; is_pop3_loopback : bool
}.

Definition IMAPD_MAX_OUT : Z := 262144.

Section Net.
Context {N : ImapdNet} {HF : MailFs}.

(** What the handlers share: the network, the mail files, the lockout table and the
    counter of [unique_name]. *)
Record Mail := MkMail { ml_net : net; ml_fs : fs; ml_fails : list ImapdFail; ml_count : Z }.

Definition on_net {A} (f : net -> net * A) : prog Mail A := fun w =>
  let '(n, a) := f (ml_net w) in (MkMail n (ml_fs w) (ml_fails w) (ml_count w), Some a).
Definition on_fs {A} (f : fs -> fs * A) : prog Mail A := fun w =>
  let '(s, a) := f (ml_fs w) in (MkMail (ml_net w) s (ml_fails w) (ml_count w), Some a).
Definition on_ips {A} (f : list ImapdFail -> list ImapdFail * A) : prog Mail A := fun w =>
  let '(l, a) := f (ml_fails w) in (MkMail (ml_net w) (ml_fs w) l (ml_count w), Some a).

(** ** STARTTLS *)

Inductive tls_phase := TLS_PENDING | TLS_HANDSHAKE | TLS_ESTABLISHED.

Record ImapdTls := { it_ssl : Z; it_state : tls_phase; it_want_write : bool }.

(** The part of [Conn] that is common to the protocols. *)
Record Io := MkIo {
  io_fd : Z;
  io_closed : bool;  (** close once the output drains *)
  io_in : bytes;
  io_out : bytes;
  io_off : nat;
  io_act : Z;  (** [last_act] *)
  io_ip : bytes;  (** 4 or 16 bytes, empty when unknown *)
  io_tls : option ImapdTls;
  io_said : bytes  (** ghost: everything ever appended to the output *)
}.

Definition io_close (c : Io) : Io :=
  MkIo (io_fd c) true (io_in c) (io_out c) (io_off c) (io_act c) (io_ip c) (io_tls c) (io_said c).
Definition io_set_in (i : bytes) (c : Io) : Io :=
  MkIo (io_fd c) (io_closed c) i (io_out c) (io_off c) (io_act c) (io_ip c) (io_tls c) (io_said c).
Definition io_set_out (o : bytes) (n : nat) (c : Io) : Io :=
  MkIo (io_fd c) (io_closed c) (io_in c) o n (io_act c) (io_ip c) (io_tls c) (io_said c).
Definition io_set_act (t : Z) (c : Io) : Io :=
  MkIo (io_fd c) (io_closed c) (io_in c) (io_out c) (io_off c) t (io_ip c) (io_tls c) (io_said c).
Definition io_set_tls (t : option ImapdTls) (c : Io) : Io :=
  MkIo (io_fd c) (io_closed c) (io_in c) (io_out c) (io_off c) (io_act c) (io_ip c) t (io_said c).
(** [buf_append] to the output. *)
Definition io_append (t : bytes) (c : Io) : Io :=
  MkIo (io_fd c) (io_closed c) (io_in c) (io_out c ++ t) (io_off c) (io_act c) (io_ip c) (io_tls c) (io_said c ++ t).

Definition imapd_tls_available (srv : ImapdServer) : bool := is_tls_ready srv.

Definition imapd_tls_pending (c : Io) : bool :=
  match io_tls c with Some t => match it_state t with TLS_PENDING => true | _ => false end | None => false end.
Definition imapd_tls_handshaking (c : Io) : bool :=
  match io_tls c with Some t => match it_state t with TLS_ESTABLISHED => false | _ => true end | None => false end.
Definition imapd_tls_established (c : Io) : bool :=
  match io_tls c with Some t => match it_state t with TLS_ESTABLISHED => true | _ => false end | None => false end.
Definition imapd_tls_wants_write (c : Io) : bool := match io_tls c with Some t => it_want_write t | None => false end.

(** [imapd_tls_start]: the connection and whether it returns 0. *)
Definition imapd_tls_start (c : Io) : prog Mail (Io * bool) :=
  r ← on_net (fun n => ssl_setup n (io_fd c));
  match r with
  | None => mret (c, false)
  | Some h => mret (io_set_tls (Some {| it_ssl := h; it_state := TLS_PENDING; it_want_write := false |}) c, true)
  end.

Definition imapd_tls_handshake_step (c : Io) (now : Z) : prog Mail (Io * Z) :=
  match io_tls c with
  | None => mret (c, -1)
  | Some t =>
      match it_state t with
      | TLS_ESTABLISHED => mret (c, 1)
      | _ =>
          let to s w := io_set_tls (Some {| it_ssl := it_ssl t; it_state := s; it_want_write := w |}) (io_set_act now c) in
          r ← on_net (fun n => ssl_handshake n (it_ssl t));
          mret (if r =? 0 then (to TLS_ESTABLISHED (it_want_write t), 1)
                else if r =? MBEDTLS_ERR_SSL_WANT_READ then (to TLS_HANDSHAKE false, 0)
                else if r =? MBEDTLS_ERR_SSL_WANT_WRITE then (to TLS_HANDSHAKE true, 0)
                else (to TLS_HANDSHAKE (it_want_write t), -1))
      end
  end.

(** [imapd_tls_recv]: data, nothing yet (0), or the end (-1). *)
Definition imapd_tls_recv (c : Io) : prog Mail recv_result :=
  if negb (imapd_tls_established c) then mret RvError
  else match io_tls c with
       | None => mret RvError
       | Some t =>
           r ← on_net (fun n => ssl_read n (it_ssl t));
           mret (match r with
                 | SslData (x :: d) => RvData (x :: d)
                 | SslData [] => RvError
                 | SslCode r => if (r =? MBEDTLS_ERR_SSL_WANT_READ) || (r =? MBEDTLS_ERR_SSL_WANT_WRITE) then RvAgain else RvError
                 end)
       end.

(** What [imapd_tls_send] makes of a code of [mbedtls_ssl_write]. *)
Definition imapd_tls_send (r : Z) : send_result :=
  if r >? 0 then SdOk (Z.to_nat r) else if r =? MBEDTLS_ERR_SSL_WANT_WRITE then SdAgain else SdError.

Definition imapd_tls_conn_free (c : Io) : prog Mail Io :=
  match io_tls c with
  | None => mret c
  | Some t =>
      _ ← match it_state t with TLS_ESTABLISHED => on_net (fun n => (ssl_close_notify n (it_ssl t), tt)) | _ => mret tt end;
      mret (io_set_tls None c)
  end.

(** ** Output *)

(** How a flush ends, with the new offset: output is left, the peer is dead, all sent. *)
Inductive out_end := OutKeep (off : nat) | OutDead (off : nat) | OutDone.

Fixpoint out_loop (rs : list send_result) (out_len off : nat) : out_end :=
  if (out_len <=? off)%nat then OutDone
  else match rs with
       | [] => OutKeep off
       | SdIntr :: rs' => out_loop rs' out_len off
       | SdAgain :: _ => OutKeep off
       | SdError :: _ => OutDead off
       | SdOk O :: _ => OutDead off
       | SdOk (S n) :: rs' => out_loop rs' out_len (off + Nat.min (S n) (out_len - off))
       end.

(** [imapd_conn_flush]; [drop_dead]: whether the plaintext branch drops the output of a dead
    peer, as imapd.c and pop3d.c do and imapd_ingest.c does not. *)
Definition imapd_conn_flush (drop_dead : bool) (c : Io) : prog Mail Io :=
  if (length (io_out c) <=? io_off c)%nat then mret (io_set_out [] 0 c)
  else
    let rest := drop (io_off c) (io_out c) in
    let over_tls := match io_tls c with Some t => if imapd_tls_pending c then None else Some t | None => None end in
    rs ← match over_tls with
         | Some t => on_net (fun n => let '(n, rs) := ssl_write n (it_ssl t) rest in (n, map imapd_tls_send rs))
         | None => on_net (fun n => n_send n (io_fd c) rest)
         end;
    mret (match out_loop rs (length (io_out c)) (io_off c) with
          | OutKeep off => io_set_out (io_out c) off c
          | OutDead off => if drop_dead || (match over_tls with Some _ => true | None => false end)
                           then io_close (io_set_out [] 0 c) else io_close (io_set_out (io_out c) off c)
          | OutDone => io_set_out [] 0 c
          end).

Definition imapd_conn_reply (drop_dead : bool) (c : Io) (text : bytes) : prog Mail Io :=
  if len (io_out c) >? IMAPD_MAX_OUT then mret (io_close c)
  else imapd_conn_flush drop_dead (io_append text c).

(** ** Names of new messages *)

(** [unique_name] of imap_maildir.c; [pid] is the process. *)
Definition unique_name (pid : Z) : prog Mail bytes :=
  _ ← modify (fun w => MkMail (ml_net w) (ml_fs w) (ml_fails w) (u64 (ml_count w + 1)));
  t ← on_net n_clock;
  k ← gets ml_count;
  let dec z := if z <? 0 then "-"%chr :: dec_digits 20 (- z) [] else dec_digits 20 z [] in
  mret (dec t.1 ++ bs ".M" ++ dec (Z.quot t.2 1000) ++ bs "P" ++ dec (u64 pid) ++ bs "R" ++ dec k ++ bs ".imapd").

End Net.
