(* ===== verification/Pop3.v ===== *)
(** * POP3 sessions (src/src/pop3d.c)

    The state of a POP3 connection, the streaming of a message, and every command. The
    view of the mailbox is that of [MailBox]; the file of a message being sent is the
    contents it had when it was opened. Logging is left out and allocation succeeds, so
    the branches for a failed [malloc] are not there. *)

From S2P Require Import Prelude MailLines Json Prog SmtpWorld SmtpParse SmtpSession MailStore MailAuth MailUid MailHdrs MailBox ImapdNet.

Inductive pop_state := PO_AUTH | PO_TRANS.
Inductive pg_phase_t := PG_HDR | PG_BODY | PG_END | PG_DONE.

(** [Pop3Gen]; [pg_file] is what its descriptor reads. *)
Record Pop3Gen := MkGen { pg_file : bytes; pg_size : nat; pg_pos : nat; pg_phase : pg_phase_t; pg_bol : bool }.

(** The POP3 part of [Conn]. *)
Record Pop := MkPop {
  pp_io : Io;
  pp_pst : pop_state;
  pp_pend : option bytes;  (** USER, before PASS *)
  pp_user : option bytes;
  pp_mb : option Mbox;  (** [mb] when [mb_open] *)
  pp_del : list bool;
  pp_ndel : Z;
  pp_gen : option Pop3Gen
}.

Definition pp_set_io (i : Io) (c : Pop) : Pop := MkPop i (pp_pst c) (pp_pend c) (pp_user c) (pp_mb c) (pp_del c) (pp_ndel c) (pp_gen c).
Definition pp_set_pst (s : pop_state) (c : Pop) : Pop := MkPop (pp_io c) s (pp_pend c) (pp_user c) (pp_mb c) (pp_del c) (pp_ndel c) (pp_gen c).
Definition pp_set_pend (u : option bytes) (c : Pop) : Pop := MkPop (pp_io c) (pp_pst c) u (pp_user c) (pp_mb c) (pp_del c) (pp_ndel c) (pp_gen c).
Definition pp_set_user (u : option bytes) (c : Pop) : Pop := MkPop (pp_io c) (pp_pst c) (pp_pend c) u (pp_mb c) (pp_del c) (pp_ndel c) (pp_gen c).
Definition pp_set_mb (m : option Mbox) (c : Pop) : Pop := MkPop (pp_io c) (pp_pst c) (pp_pend c) (pp_user c) m (pp_del c) (pp_ndel c) (pp_gen c).
Definition pp_set_del (d : list bool) (n : Z) (c : Pop) : Pop := MkPop (pp_io c) (pp_pst c) (pp_pend c) (pp_user c) (pp_mb c) d n (pp_gen c).
Definition pp_set_gen (g : option Pop3Gen) (c : Pop) : Pop := MkPop (pp_io c) (pp_pst c) (pp_pend c) (pp_user c) (pp_mb c) (pp_del c) (pp_ndel c) g.
Definition pp_close (c : Pop) : Pop := pp_set_io (io_close (pp_io c)) c.

(** ** Helpers *)

Definition word_eq (a b : bytes) : bool := ieq a b.

Fixpoint ulong_digits (s : bytes) (v : Z) : option (Z * bytes) :=
  match s with
  | c :: t =>
      if is_digit c then let v := v * 10 + (c - "0"%chr) in if v >? 2147483647 then None else ulong_digits t v
      else Some (v, s)
  | [] => Some (v, [])
  end.

(** [parse_ulong]: the number when it returns 0. *)
Definition parse_ulong (s : bytes) : option Z :=
  match skip_sp s with
  | c :: t =>
      if negb (is_digit c) then None
      else '(v, r) ← ulong_digits (c :: t) 0;
           match r with [] => Some v | x :: _ => if x =? SP then Some v else None end
  | [] => None
  end.

(** [hdr_end_of] from position [i] on. *)
Fixpoint hdr_end_loop (buf : bytes) (i : nat) : nat :=
  match buf with
  | c :: (d :: t) as r =>
      if c =? LF then
        if d =? LF then (i + 2)%nat
        else if (d =? CR) && (match t with e :: _ => e =? LF | [] => false end) then (i + 3)%nat
        else hdr_end_loop r (S i)
      else hdr_end_loop r (S i)
  | _ => (i + length buf)%nat
  end.

Definition hdr_end_of (buf : bytes) : nat := hdr_end_loop buf 0.

(** Non-deleted octets: [size_t] arithmetic over messages and marks. *)
Fixpoint octets (msgs : list Imail) (del : list bool) : Z :=
  match msgs, del with
  | m :: ms, d :: ds => (if d then 0 else im_size m) + octets ms ds
  | _, _ => 0
  end.

Definition mb_messages (c : Pop) : list Imail := match pp_mb c with Some mb => mb_msgs mb | None => [] end.
Definition nmsgs (c : Pop) : Z := len (mb_messages c).

Definition mbox_octets (c : Pop) : Z := u64 (octets (mb_messages c) (pp_del c)).

(** [msg_index]: the 0-based position. *)
Definition msg_index (c : Pop) (n : Z) : option nat :=
  if (n <? 1) || (n >? nmsgs c) then None
  else if nth (Z.to_nat (n - 1)) (pp_del c) false then None
  else Some (Z.to_nat (n - 1)).

(** [%zu]. *)
Definition print_zu (z : Z) : bytes := dec_digits 20 z [].

Section Pop3.
Context {N : ImapdNet} {HF : MailFs} (srv : ImapdServer) (tmp_suffix : bytes) (uninit : Z).

(** [conn_reply] and [conn_replyf], whose buffer has 1024 bytes. *)
Definition pop_reply (c : Pop) (text : bytes) : prog Mail Pop :=
  io ← imapd_conn_reply true (pp_io c) text; mret (pp_set_io io c).

Definition pop_replyf (c : Pop) (text : bytes) : prog Mail Pop :=
  if 1024 <=? len text then
    c ← pop_reply c (bs "-ERR reply too long" ++ CRLF); mret (pp_close c)
  else pop_reply c text.

Definition pop3_err (c : Pop) (msg : bytes) : prog Mail Pop := pop_replyf c (bs "-ERR " ++ msg ++ CRLF).

(** ** Streaming *)

(** One chunk of [top_cut]: the offset behind the [n]-th line, or the lines seen so far. *)
Fixpoint top_chunk (buf : bytes) (off : nat) (seen n : Z) : nat + Z :=
  match buf with
  | [] => inr seen
  | c :: t =>
      if c =? LF then if seen + 1 =? n then inl (S off) else top_chunk t (S off) (seen + 1) n
      else top_chunk t (S off) seen n
  end.

Definition PG_CHUNK : nat := Z.to_nat 8192.

Fixpoint top_loop (fuel : nat) (file : bytes) (off fsize : nat) (seen n : Z) : nat :=
  match fuel with
  | O => fsize
  | S fuel' =>
      if (fsize <=? off)%nat then fsize
      else
        match take (Nat.min (fsize - off) PG_CHUNK) (drop off file) with
        | [] => fsize
        | buf => match top_chunk buf off seen n with
                 | inl cut => cut
                 | inr seen => top_loop fuel' file (off + length buf) fsize seen n
                 end
        end
  end.

Definition top_cut (file : bytes) (hdr_end fsize : nat) (n : Z) : nat :=
  if n =? 0 then hdr_end else top_loop (S fsize) file hdr_end fsize 0 n.

(** [start_retr]; [top] is the number of lines of TOP. [None] when it returns -1. *)
Definition start_retr (f : fs) (c : Pop) (m : Imail) (top : option Z) : option Pop :=
  match fs_read f (im_path m) with
  | None => None
  | Some file =>
      let fsize := Z.to_nat (im_size m) in
      let send_end := match top with
                      | None => fsize
                      | Some n => top_cut file (hdr_end_of (take (Nat.min fsize IMAPD_HDR_CAP) file)) fsize n
                      end in
      Some (pp_set_gen (Some (MkGen file send_end 0 PG_HDR true)) c)
  end.

(** [stuff]: the stuffed bytes and the line state behind them. *)
Fixpoint stuff (raw : bytes) (bol : bool) : bytes * bool :=
  match raw with
  | [] => ([], bol)
  | ch :: t => let '(o, b) := stuff t (ch =? LF) in ((if bol && (ch =? "."%chr) then [ch] else []) ++ ch :: o, b)
  end.

Definition pg_to (g : Pop3Gen) (p : pg_phase_t) : Pop3Gen := MkGen (pg_file g) (pg_size g) (pg_pos g) p (pg_bol g).

(** The loop of [imapd_pop3_pump]. *)
Fixpoint pump_loop (fuel : nat) (c : Pop) (g : Pop3Gen) : prog Mail Pop :=
  match fuel with
  | O => running
  | S fuel' =>
      let keep c g := mret (pp_set_gen (Some g) c) in
      if io_closed (pp_io c) then keep c g
      else if len (io_out (pp_io c)) - Z.of_nat (io_off (pp_io c)) >=? IMAPD_MAX_OUT / 2 then
        io ← imapd_conn_flush true (pp_io c); keep (pp_set_io io c) g
      else match pg_phase g with
           | PG_DONE => keep c g
           | PG_HDR => c ← pop_reply c (bs "+OK message follows" ++ CRLF); pump_loop fuel' c (pg_to g PG_BODY)
           | PG_END =>
               c ← (if negb (pg_bol g) then pop_reply c CRLF else mret c);
               c ← pop_reply c (bs "." ++ CRLF);
               keep c (pg_to g PG_DONE)
           | PG_BODY =>
               let want := (pg_size g - pg_pos g)%nat in
               if (want =? 0)%nat then pump_loop fuel' c (pg_to g PG_END)
               else match take (Nat.min want PG_CHUNK) (drop (pg_pos g) (pg_file g)) with
                    | [] => pump_loop fuel' c (pg_to g PG_END)
                    | raw =>
                        let '(o, bol) := stuff raw (pg_bol g) in
                        pump_loop fuel' (pp_set_io (io_append o (pp_io c)) c)
                          (MkGen (pg_file g) (pg_size g) (pg_pos g + length raw) PG_BODY bol)
                    end
           end
  end.

Definition imapd_pop3_pump (c : Pop) : prog Mail Pop :=
  match pp_gen c with
  | None => mret c
  | Some g =>
      c ← pump_loop (length (pg_file g) + 5) c g;
      match pp_gen c with
      | Some (MkGen _ _ _ PG_DONE _) =>
          if io_closed (pp_io c) then mret c
          else io ← imapd_conn_flush true (pp_io c); mret (pp_set_gen None (pp_set_io io c))
      | _ => mret c
      end
  end.

(** ** Commands *)

Definition cleartext_ok (c : Pop) : bool := negb (is_tls_ready srv) || imapd_tls_established (pp_io c) || is_pop3_loopback srv.

Definition pop3_reset_deleted (c : Pop) : Pop := pp_set_del (map (fun _ => false) (pp_del c)) 0 c.

Definition open_inbox (c : Pop) (user : bytes) : prog Mail (option Pop) :=
  now ← on_net n_time;
  r ← on_fs (fun f => imapd_mbox_peek tmp_suffix uninit f (ic_root (is_cfg srv)) user (bs "INBOX") now);
  mret (mb ← r; Some (pp_set_del (replicate (length (mb_msgs mb)) false) (pp_ndel c) (pp_set_mb (Some mb) c))).

Definition cmd_capa (c : Pop) : prog Mail Pop :=
  c ← pop_replyf c (bs "+OK Capability list follows" ++ CRLF);
  c ← pop_reply c (bs "USER" ++ CRLF ++ bs "UIDL" ++ CRLF ++ bs "TOP" ++ CRLF ++ bs "RESP-CODES" ++ CRLF ++ bs "PIPELINING" ++ CRLF);
  c ← (if imapd_tls_available srv && negb (imapd_tls_established (pp_io c)) then pop_reply c (bs "STLS" ++ CRLF) else mret c);
  c ← pop_replyf c (bs "IMPLEMENTATION visage-pop3d" ++ CRLF);
  pop_reply c (bs "." ++ CRLF).

Definition cmd_stls (c : Pop) : prog Mail Pop :=
  match pp_pst c with
  | PO_TRANS => pop3_err c (bs "STLS not valid in transaction state")
  | PO_AUTH =>
      if imapd_tls_established (pp_io c) then pop3_err c (bs "TLS already active")
      else if negb (is_nil (io_in (pp_io c))) then pop3_err c (bs "Pipelined data before STLS")
      else if negb (imapd_tls_available srv) then pop3_err c (bs "STLS not supported")
      else
        r ← imapd_tls_start (pp_io c);
        let c := pp_set_io r.1 c in
        if negb r.2 then pop3_err c (bs "Could not start TLS")
        else pop_reply c (bs "+OK Begin TLS negotiation" ++ CRLF)
  end.

Definition cmd_user (c : Pop) (arg : bytes) : prog Mail Pop :=
  match pp_pst c with
  | PO_TRANS => pop3_err c (bs "USER not valid in transaction state")
  | PO_AUTH =>
      if negb (cleartext_ok c) then pop3_err c (bs "Cleartext login disabled; use STLS first")
      else if is_nil arg || negb (imapd_user_ok arg) then pop3_err c (bs "Invalid user")
      else pop_reply (pp_set_pend (Some arg) c) (bs "+OK" ++ CRLF)
  end.

(** The branches of [cmd_pass] that drop the pending user after their reply. *)
Definition pass_refused (c : Pop) (msg : bytes) : prog Mail Pop := c ← pop3_err c msg; mret (pp_set_pend None c).

Definition cmd_pass (c : Pop) (arg : bytes) : prog Mail Pop :=
  match pp_pst c with
  | PO_TRANS => pop3_err c (bs "PASS not valid in transaction state")
  | PO_AUTH =>
      if negb (cleartext_ok c) then pass_refused c (bs "Cleartext login disabled; use STLS first")
      else match pp_pend c with
           | None => pass_refused c (bs "Invalid PASS")
           | Some pend =>
               if is_nil arg then pass_refused c (bs "Invalid PASS")
               else
                 now ← on_net n_time;
                 blocked ← on_ips (fun l => imapd_auth_blocked l (io_ip (pp_io c)) now);
                 if (blocked : bool) then pass_refused c (bs "Too many failed attempts; try again later")
                 else if negb (imapd_auth_check (is_creds srv) pend arg) then
                   now ← on_net n_time;
                   _ ← on_ips (fun l => (imapd_auth_fail l (io_ip (pp_io c)) now, tt));
                   pass_refused c (bs "Invalid credentials")
                 else
                   _ ← on_ips (fun l => (imapd_auth_clear l (io_ip (pp_io c)), tt));
                   let c := pp_set_pend None (pp_set_user (Some pend) c) in
                   r ← open_inbox c pend;
                   match r with
                   | None => pop3_err (pp_set_user None c) (bs "Cannot open mailbox")
                   | Some c => pop_reply (pp_set_pst PO_TRANS c) (bs "+OK mailbox locked and ready" ++ CRLF)
                   end
           end
  end.

Definition live_count (c : Pop) : Z := u64 (nmsgs c - pp_ndel c).

Definition cmd_stat (c : Pop) : prog Mail Pop :=
  pop_replyf c (bs "+OK " ++ print_zu (live_count c) ++ bs " " ++ print_zu (mbox_octets c) ++ CRLF).

(** The listing loop of LIST and UIDL: one line for each message that is not deleted. *)
Fixpoint listing (c : Pop) (i : Z) (text : Imail -> bytes) (msgs : list Imail) (del : list bool) : prog Mail Pop :=
  match msgs with
  | [] => mret c
  | m :: ms =>
      c ← (if hd false del then mret c else pop_replyf c (print_zu i ++ bs " " ++ text m ++ CRLF));
      listing c (i + 1) text ms (tl del)
  end.

(** LIST and UIDL differ in what they say of a message and in the heading. *)
Definition cmd_listing (c : Pop) (arg : bytes) (text : Imail -> bytes) (heading : bytes) : prog Mail Pop :=
  if negb (is_nil arg) then
    match parse_ulong arg with
    | None => pop3_err c (bs "Invalid message number")
    | Some n =>
        match (i ← msg_index c n; mb_messages c !! i) with
        | None => pop3_err c (bs "No such message")
        | Some m => pop_replyf c (bs "+OK " ++ print_zu n ++ bs " " ++ text m ++ CRLF)
        end
    end
  else
    c ← pop_replyf c heading;
    c ← listing c 1 text (mb_messages c) (pp_del c);
    pop_reply c (bs "." ++ CRLF).

Definition cmd_list (c : Pop) (arg : bytes) : prog Mail Pop :=
  cmd_listing c arg (fun m => print_zu (im_size m))
    (bs "+OK " ++ print_zu (live_count c) ++ bs " messages (" ++ print_zu (mbox_octets c) ++ bs " octets)" ++ CRLF).

Definition cmd_uidl (c : Pop) (arg : bytes) : prog Mail Pop :=
  cmd_listing c arg im_base (bs "+OK " ++ print_zu (live_count c) ++ bs " messages" ++ CRLF).

(** Downloading counts as read. *)
Definition mark_seen (c : Pop) (i : nat) : prog Mail Pop :=
  match (mb ← pp_mb c; m ← mb_msgs mb !! i; Some (mb, m)) with
  | None => mret c
  | Some (mb, m) =>
      if Z.land (im_flags m) IMAIL_SEEN =? 0 then
        let flags := Z.lor (im_flags m) IMAIL_SEEN in
        let mb := with_msgs mb (<[i := set_flags m flags (im_modseq m)]> (mb_msgs mb)) in
        mb ← on_fs (fun f => let '(f, mb, _) := imapd_mbox_store f mb (im_uid m) flags in (f, mb));
        mret (pp_set_mb (Some mb) c)
      else mret c
  end.

Definition cmd_retr (c : Pop) (arg : bytes) : prog Mail Pop :=
  if is_nil arg then pop3_err c (bs "Missing message number")
  else match parse_ulong arg with
       | None => pop3_err c (bs "Invalid message number")
       | Some n =>
           match (i ← msg_index c n; m ← mb_messages c !! i; Some (i, m)) with
           | None => pop3_err c (bs "No such message")
           | Some (i, m) =>
               f ← gets ml_fs;
               match start_retr f c m None with
               | None => pop3_err c (bs "Message unavailable")
               | Some c => c ← mark_seen c i; imapd_pop3_pump c
               end
           end
       end.

Definition cmd_dele (c : Pop) (arg : bytes) : prog Mail Pop :=
  if is_nil arg then pop3_err c (bs "Missing message number")
  else match parse_ulong arg with
       | None => pop3_err c (bs "Invalid message number")
       | Some n =>
           if (n <? 1) || (n >? nmsgs c) then pop3_err c (bs "No such message")
           else if nth (Z.to_nat (n - 1)) (pp_del c) false then pop3_err c (bs "Message already deleted")
           else pop_reply (pp_set_del (<[Z.to_nat (n - 1) := true]> (pp_del c)) (pp_ndel c + 1) c) (bs "+OK message deleted" ++ CRLF)
       end.

Definition cmd_top (c : Pop) (arg : bytes) : prog Mail Pop :=
  if is_nil arg then pop3_err c (bs "Missing arguments")
  else
    let rest := skip_sp arg in
    let nums := take_while (fun x => negb (x =? SP)) rest in
    match parse_ulong nums with
    | None => pop3_err c (bs "Invalid message number")
    | Some n =>
        match (i ← msg_index c n; mb_messages c !! i) with
        | None => pop3_err c (bs "No such message")
        | Some m =>
            match parse_ulong (skip_sp (drop (length nums) rest)) with
            | None => pop3_err c (bs "Invalid line count")
            | Some lines =>
                f ← gets ml_fs;
                match start_retr f c m (Some lines) with
                | None => pop3_err c (bs "Message unavailable")
                | Some c => imapd_pop3_pump c
                end
            end
        end
    end.

(** The loop of [pop3_quit], from the last message down. *)
Fixpoint quit_loop (i : nat) (f : fs) (mb : Mbox) (del : list bool) : fs * Mbox :=
  match i with
  | O => (f, mb)
  | S i' =>
      let '(f, mb) :=
        match mb_msgs mb !! i' with
        | Some m => if nth i' del false then let '(f, mb, _) := imapd_mbox_expunge f mb (im_uid m) in (f, mb) else (f, mb)
        | None => (f, mb)
        end in
      quit_loop i' f mb del
  end.

Definition pop3_quit (c : Pop) : prog Mail Pop :=
  c ← match pp_mb c with
      | None => mret c
      | Some mb =>
          _ ← on_fs (fun f => let '(f, mb) := quit_loop (length (mb_msgs mb)) f mb (pp_del c) in (imapd_mbox_close tmp_suffix f mb, tt));
          mret (pp_set_mb None c)
      end;
  c ← pop_reply (pp_set_del [] 0 c) (bs "+OK bye" ++ CRLF);
  mret (pp_close c).

Definition pop3_command (c : Pop) (line : bytes) : prog Mail Pop :=
  let p := skip_sp line in
  let word := take_while (fun x => negb (x =? SP)) p in
  let arg := skip_sp (drop_while (fun x => negb (x =? SP)) p) in
  if is_nil word || (8 <=? length word)%nat then pop3_err c (bs "Command not recognized")
  else if word_eq word (bs "QUIT") then pop3_quit c
  else if word_eq word (bs "NOOP") then pop_reply c (bs "+OK" ++ CRLF)
  else if word_eq word (bs "RSET") then pop_reply (pop3_reset_deleted c) (bs "+OK" ++ CRLF)
  else if word_eq word (bs "CAPA") then cmd_capa c
  else if word_eq word (bs "STLS") then cmd_stls c
  else if word_eq word (bs "USER") then cmd_user c arg
  else if word_eq word (bs "PASS") then cmd_pass c arg
  else match pp_pst c with
       | PO_AUTH => pop3_err c (bs "Authorization required")
       | PO_TRANS =>
           if word_eq word (bs "STAT") then cmd_stat c
           else if word_eq word (bs "LIST") then cmd_list c arg
           else if word_eq word (bs "UIDL") then cmd_uidl c arg
           else if word_eq word (bs "RETR") then cmd_retr c arg
           else if word_eq word (bs "DELE") then cmd_dele c arg
           else if word_eq word (bs "TOP") then cmd_top c arg
           else pop3_err c (bs "Command not recognized")
       end.

Definition pop_reply_close (c : Pop) (text : bytes) : prog Mail Pop := c ← pop_reply c text; mret (pp_close c).

(** The loop of [pop3_commands]; each round consumes a line. *)
Fixpoint pop3_commands_loop (n : nat) (c : Pop) : prog Mail Pop :=
  match n with
  | O => running
  | S n' =>
      if io_closed (pp_io c) then mret c
      else if match pp_gen c with Some _ => true | None => false end then mret c
      else if match io_tls (pp_io c) with Some _ => negb (imapd_tls_established (pp_io c)) | None => false end then mret c
      else match cut LF (io_in (pp_io c)) with
           | None =>
               if len (io_in (pp_io c)) >? Z.of_nat IMAPD_MAX_LINE then pop_reply_close c (bs "-ERR line too long" ++ CRLF)
               else mret c
           | Some (line, rest) =>
               if len line >? Z.of_nat IMAPD_MAX_LINE then pop_reply_close c (bs "-ERR line too long" ++ CRLF)
               else
                 c ← pop3_command (pp_set_io (io_set_in rest (pp_io c)) c) (c_str (strip_cr line));
                 if io_closed (pp_io c) then mret c
                 else match pp_gen c with Some _ => mret c | None => pop3_commands_loop n' c end
           end
  end.

Definition pop3_commands (c : Pop) : prog Mail Pop := pop3_commands_loop (S (length (io_in (pp_io c)))) c.

(** ** Entry points *)

Definition imapd_pop3_greeting (c : Pop) : prog Mail Pop :=
  let g := bs "+OK " ++ ic_hostname (is_cfg srv) ++ bs " POP3 server ready" ++ CRLF in
  if 512 <=? len g then pop_reply c (bs "+OK POP3 server ready" ++ CRLF) else pop_reply c g.

Definition imapd_pop3_tls_reset (c : Pop) : Pop := pp_set_pst PO_AUTH (pp_set_del [] 0 (pp_set_pend None (pp_set_gen None c))).

(** Bytes that arrived. *)
Definition pop3_take (c : Pop) (d : bytes) (now : Z) : prog Mail Pop :=
  let io := io_set_act now (pp_io c) in pop3_commands (pp_set_io (io_set_in (io_in io ++ d) io) c).

(** The drain loop over TLS, at most [n] reads. *)
Fixpoint pop3_drain (n : nat) (c : Pop) (now : Z) : prog Mail Pop :=
  match n with
  | O => running
  | S n' =>
      r ← imapd_tls_recv (pp_io c);
      match r with
      | RvData d =>
          c ← pop3_take c d now;
          if io_closed (pp_io c) then mret c
          else match pp_gen c with Some _ => mret c | None => pop3_drain n' c now end
      | RvAgain => mret c
      | _ => mret (pp_close c)
      end
  end.

Definition imapd_pop3_readable (n : nat) (c : Pop) (now : Z) : prog Mail Pop :=
  match io_tls (pp_io c) with
  | Some _ => if negb (imapd_tls_established (pp_io c)) then mret c else pop3_drain n c now
  | None =>
      r ← on_net (fun w => n_recv w (io_fd (pp_io c)));
      match r with
      | RvAgain => mret c
      | RvData (x :: d) => pop3_take c (x :: d) now
      | _ => mret (pp_close c)
      end
  end.

End Pop3.
