(* ===== verification/MemNet.v ===== *)
(** * A network in memory

    A concrete instance of [ImapdNet]: reads come from a script, every write is accepted
    whole, the handshake succeeds at once and the clock stands still. It runs the
    witnesses. *)

From S2P Require Import Prelude SmtpWorld ImapdNet.

Record Script := { sc_in : list recv_result; sc_sent : bytes; sc_now : Z }.

#[export] Instance MemImapdNet : ImapdNet := {|
  net := Script;
  n_time s := (s, sc_now s);
  n_clock s := (s, (sc_now s, 0));
  n_recv s fd :=
    match sc_in s with
    | [] => (s, RvAgain)
    | r :: t => ({| sc_in := t; sc_sent := sc_sent s; sc_now := sc_now s |}, r)
    end;
  n_send s fd b := ({| sc_in := sc_in s; sc_sent := sc_sent s ++ b; sc_now := sc_now s |}, [SdOk (length b)]);
  n_close s fd := s;
  ssl_setup s fd := (s, Some fd);
  ssl_handshake s h := (s, 0);
  ssl_read s h :=
    match sc_in s with
    | RvData d :: t => ({| sc_in := t; sc_sent := sc_sent s; sc_now := sc_now s |}, SslData d)
    | _ => (s, SslCode MBEDTLS_ERR_SSL_WANT_READ)
    end;
  ssl_write s h b := ({| sc_in := sc_in s; sc_sent := sc_sent s ++ b; sc_now := sc_now s |}, [len b]);
  ssl_close_notify s h := s
|}.

Definition quiet_net : Script := {| sc_in := []; sc_sent := []; sc_now := 1000 |}.
