(* ===== verification/Pop3Spec.v ===== *)
(** * What POP3 sessions promise

    Nothing but QUIT removes mail, and QUIT removes exactly the messages marked by DELE;
    a session gets to a mailbox only through a credential check over a permitted channel;
    what RETR sends decodes to the message. *)

From S2P Require Import Prelude MailLines Json Prog SmtpWorld SmtpParse SmtpSession MailStore MailAuth MailUid MailHdrs MailBox MailStoreSpec MemMail MailBoxSpec ImapdNet Pop3 MemNet.

(** ** Steps that only talk *)

Section Talk.
Context {N : ImapdNet} {HF : MailFs}.

(** The connection after some replies: the buffers, and possibly closed. *)
Definition spoken (a b : Io) : Prop :=
  io_fd b = io_fd a /\ io_in b = io_in a /\ io_tls b = io_tls a /\ io_ip b = io_ip a /\ io_act b = io_act a /\
  (io_closed a = true -> io_closed b = true).

#[export] Instance spoken_refl : Reflexive spoken.
Proof. by intros a. Qed.
#[export] Instance spoken_trans : Transitive spoken.
Proof. intros a b c (A1 & A2 & A3 & A4 & A5 & A6) (B1 & B2 & B3 & B4 & B5 & B6). repeat split; [congruence..|auto]. Qed.

Lemma spoken_out a o n : spoken a (io_set_out o n a).
Proof. by repeat split. Qed.
Lemma spoken_append a t : spoken a (io_append t a).
Proof. by repeat split. Qed.
Lemma spoken_close a : spoken a (io_close a).
Proof. by repeat split. Qed.

(** Only the network moved. *)
Definition net_only (w w' : Mail) : Prop := ml_fs w' = ml_fs w /\ ml_fails w' = ml_fails w /\ ml_count w' = ml_count w.

#[export] Instance net_only_refl : Reflexive net_only.
Proof. by intros w. Qed.
#[export] Instance net_only_trans : Transitive net_only.
Proof. intros a b c (A1 & A2 & A3) (B1 & B2 & B3). repeat split; congruence. Qed.

Lemma flush_spoken drop_dead c w : exists w' c', imapd_conn_flush drop_dead c w = (w', Some c') /\ net_only w w' /\ spoken c c' /\ io_said c' = io_said c.
Proof.
  unfold imapd_conn_flush. destruct (_ <=? _)%nat; [eexists _, _; repeat split; done|]. unfold mbind, prog_bind.
  set (o := match io_tls c with Some t => if imapd_tls_pending c then None else Some t | None => None end). destruct o as [t|].
  - unfold on_net. destruct (ssl_write _ _ _) as [n rs]. eexists _, _. split; [reflexivity|]. split; [by repeat split|].
    destruct (out_loop _ _ _); cbn [orb]; [by repeat split| |by repeat split]. rewrite orb_true_r. by repeat split.
  - unfold on_net. destruct (n_send _ _ _) as [n rs]. eexists _, _. split; [reflexivity|]. split; [by repeat split|].
    destruct (out_loop _ _ _); [by repeat split| |by repeat split]. destruct drop_dead; by repeat split.
Qed.

Lemma reply_spoken drop_dead c text w : exists w' c', imapd_conn_reply drop_dead c text w = (w', Some c') /\ net_only w w' /\ spoken c c' /\
  (io_closed c' = true \/ io_said c' = io_said c ++ text).
Proof.
  unfold imapd_conn_reply. destruct (_ >? _); [eexists _, _; split; [reflexivity|]; split; [done|]; split; [apply spoken_close|by left]|].
  destruct (flush_spoken drop_dead (io_append text c) w) as (w' & c' & E & Hw & Hs & Hsaid). exists w', c'. split; [done|]. split; [done|].
  split; [etransitivity; [apply spoken_append|done]|]. right. by rewrite Hsaid.
Qed.

(** The session after some replies. *)
Definition quiet (c c' : Pop) : Prop := exists io, c' = pp_set_io io c /\ spoken (pp_io c) io.

#[export] Instance quiet_refl : Reflexive quiet.
Proof. intros c. exists (pp_io c). split; [by destruct c|done]. Qed.
#[export] Instance quiet_trans : Transitive quiet.
Proof. intros a b c (i & -> & H1) (j & -> & H2). exists j. split; [done|]. by etransitivity. Qed.

Lemma quiet_close c : quiet c (pp_close c).
Proof. exists (io_close (pp_io c)). split; [done|apply spoken_close]. Qed.

(** [m] always returns, having done nothing but talk. *)
Definition talks (c : Pop) (m : prog Mail Pop) : Prop := forall w, exists w' c', m w = (w', Some c') /\ net_only w w' /\ quiet c c'.

Lemma talks_ret c c' : quiet c c' -> talks c (mret c').
Proof. intros Hq w. by exists w, c'. Qed.

Lemma talks_bind c (m : prog Mail Pop) k : talks c m -> (forall c', quiet c c' -> talks c' (k c')) -> talks c (m ≫= k).
Proof.
  intros Hm Hk w. destruct (Hm w) as (w1 & c1 & E1 & Hw1 & Hq1). destruct (Hk c1 Hq1 w1) as (w2 & c2 & E2 & Hw2 & Hq2).
  exists w2, c2. unfold mbind, prog_bind. rewrite E1. split; [done|]. split; by etransitivity.
Qed.

Lemma talks_reply c text : talks c (pop_reply c text).
Proof.
  intros w. destruct (reply_spoken true (pp_io c) text w) as (w' & io & E & Hw & Hs & _). exists w', (pp_set_io io c).
  unfold pop_reply, mbind, prog_bind. rewrite E. split; [done|]. split; [done|]. by exists io.
Qed.

Lemma talks_replyf c text : talks c (pop_replyf c text).
Proof.
  unfold pop_replyf. destruct (_ <=? _); [|apply talks_reply]. apply talks_bind; [apply talks_reply|]. intros c' _. apply talks_ret, quiet_close.
Qed.

Lemma talks_err c msg : talks c (pop3_err c msg).
Proof. apply talks_replyf. Qed.

Lemma talks_listing c i text msgs del : talks c (listing c i text msgs del).
Proof.
  revert c i del. induction msgs as [|m ms IH]; intros c i del; cbn [listing]; [by apply talks_ret|].
  apply talks_bind; [destruct (hd false del); [by apply talks_ret|apply talks_replyf]|]. intros c' _. apply IH.
Qed.

Lemma talks_cmd_listing c arg text heading : talks c (cmd_listing c arg text heading).
Proof.
  unfold cmd_listing. destruct (negb _).
  - destruct (parse_ulong arg); [|apply talks_err]. destruct (mbind _ _); [apply talks_replyf|apply talks_err].
  - apply talks_bind; [apply talks_replyf|]. intros c1 _. apply talks_bind; [apply talks_listing|]. intros c2 _. apply talks_reply.
Qed.

Lemma talks_capa srv c : talks c (cmd_capa srv c).
Proof.
  unfold cmd_capa. apply talks_bind; [apply talks_replyf|]. intros c1 _. apply talks_bind; [apply talks_reply|]. intros c2 _.
  apply talks_bind; [destruct (_ && _); [apply talks_reply|by apply talks_ret]|]. intros c3 _.
  apply talks_bind; [apply talks_replyf|]. intros c4 _. apply talks_reply.
Qed.

(** A talking step in front of a claim about what follows. *)
Lemma wp_talks c (m : prog Mail Pop) k (Q : Mail -> option Pop -> Prop) w : talks c m ->
  (forall w' c', net_only w w' -> quiet c c' -> wp (k c') Q w') -> wp (m ≫= k) Q w.
Proof. intros Hm Hk. destruct (Hm w) as (w1 & c1 & E1 & Hw & Hq). unfold wp, mbind, prog_bind. rewrite E1. by apply Hk. Qed.

Lemma wp_talks_end c (m : prog Mail Pop) (Q : Mail -> option Pop -> Prop) w : talks c m ->
  (forall w' c', net_only w w' -> quiet c c' -> Q w' (Some c')) -> wp m Q w.
Proof. intros Hm Hk. destruct (Hm w) as (w1 & c1 & E1 & Hw & Hq). unfold wp. rewrite E1. by apply Hk. Qed.
End Talk.

(** ** Streaming a message *)

Lemma stuff_app a b bol : stuff (a ++ b) bol = ((stuff a bol).1 ++ (stuff b (stuff a bol).2).1, (stuff b (stuff a bol).2).2).
Proof.
  revert bol. induction a as [|c a IH]; intros bol; cbn [app stuff fst snd]; [by destruct (stuff b bol)|].
  rewrite IH. destruct (stuff a (c =? LF)) as [o1 b1]. cbn [fst snd]. f_equal. rewrite <- app_assoc. reflexivity.
Qed.

Definition pop_hello : bytes := bs "+OK message follows" ++ CRLF.
Definition pop_end (bol : bool) : bytes := (if bol then [] else CRLF) ++ bs "." ++ CRLF.

(** What the generator has queued by now, after [said0]; the part of the file it sends
    is [part]. *)
Definition gen_part (g : Pop3Gen) : bytes := take (pg_size g) (pg_file g).

Definition gen_said (g : Pop3Gen) : bytes :=
  match pg_phase g with
  | PG_HDR => []
  | PG_BODY | PG_END => pop_hello ++ (stuff (take (pg_pos g) (gen_part g)) true).1
  | PG_DONE => pop_hello ++ (stuff (gen_part g) true).1 ++ pop_end (stuff (gen_part g) true).2
  end.

Record gen_ok (said0 : bytes) (c : Pop) (g : Pop3Gen) : Prop := {
  go_said : io_said (pp_io c) = said0 ++ gen_said g;
  go_pos : (pg_pos g <= length (gen_part g))%nat;
  go_bol : pg_phase g <> PG_DONE -> pg_bol g = (stuff (take (pg_pos g) (gen_part g)) true).2;
  go_hdr : pg_phase g = PG_HDR -> pg_pos g = 0%nat;
  go_end : pg_phase g = PG_END -> pg_pos g = length (gen_part g)
}.

Definition pump_need (g : Pop3Gen) : nat :=
  match pg_phase g with
  | PG_HDR => length (gen_part g) - pg_pos g + 4
  | PG_BODY => length (gen_part g) - pg_pos g + 3
  | _ => 1
  end%nat.

Lemma take_add_drop {A} (l : list A) n k : take (n + k) l = take n l ++ take k (drop n l).
Proof. revert n. induction l as [|x l IH]; intros [|n]; cbn; [by rewrite ?take_nil|by rewrite ?take_nil|done|by rewrite IH]. Qed.

(** The next chunk of the body. *)
Lemma body_chunk g : (pg_pos g <= length (gen_part g))%nat ->
  let raw := take (Nat.min (pg_size g - pg_pos g) PG_CHUNK) (drop (pg_pos g) (pg_file g)) in
  take (pg_pos g + length raw) (gen_part g) = take (pg_pos g) (gen_part g) ++ raw /\
  (pg_pos g + length raw <= length (gen_part g))%nat /\
  ((pg_size g - pg_pos g = 0)%nat \/ raw = [] -> pg_pos g = length (gen_part g)).
Proof.
  intros Hp. cbv zeta. unfold gen_part in *. pose proof (length_take (pg_file g) (pg_size g)) as Hg. rewrite Hg in *. clear Hg.
  assert (Hc : (0 < PG_CHUNK)%nat) by (unfold PG_CHUNK; lia). revert Hc. generalize PG_CHUNK as ch. intros ch Hc.
  set (raw := take (Nat.min _ ch) _). assert (Hraw : length raw = Nat.min (Nat.min (pg_size g - pg_pos g) ch) (length (pg_file g) - pg_pos g))
    by (unfold raw; by rewrite length_take, length_drop).
  split; [|split].
  - rewrite !take_take. replace (Nat.min (pg_pos g) (pg_size g)) with (pg_pos g) by lia.
    replace (Nat.min (pg_pos g + length raw) (pg_size g)) with (pg_pos g + length raw)%nat by lia.
    rewrite take_add_drop. f_equal. rewrite Hraw. unfold raw. rewrite <- (length_drop (pg_file g) (pg_pos g)).
    generalize (drop (pg_pos g) (pg_file g)) as l. intros l. destruct (decide (Nat.min (pg_size g - pg_pos g) ch <= length l)%nat).
    + by rewrite Nat.min_l by lia.
    + rewrite Nat.min_r by lia. by rewrite !take_ge by lia.
  - lia.
  - intros [H|H]; [lia|]. rewrite H in Hraw. cbn [length] in Hraw. lia.
Qed.

Section Pump.
Context {N : ImapdNet} {HF : MailFs}.

(** What a reply does to a session: it is quiet, and queues its text unless it closes. *)
Lemma pop_reply_said c text w : exists w' c', pop_reply c text w = (w', Some c') /\ net_only w w' /\ quiet c c' /\ pp_gen c' = pp_gen c /\
  (io_closed (pp_io c') = true \/ io_said (pp_io c') = io_said (pp_io c) ++ text).
Proof.
  destruct (reply_spoken true (pp_io c) text w) as (w' & io & E & Hw & Hs & Hsaid). exists w', (pp_set_io io c).
  unfold pop_reply, mbind, prog_bind. rewrite E. split; [done|]. split; [done|]. split; [by exists io|]. by split.
Qed.

(** The outcome of a pump: the stream went on, or the connection is closed. *)
Definition pumped_to (said0 : bytes) (c c' : Pop) (g' : Pop3Gen) : Prop :=
  quiet (pp_set_gen (Some g') c) c' /\ (io_closed (pp_io c') = true \/ gen_ok said0 c' g').

Lemma quiet_gen g c c' : quiet c c' -> quiet (pp_set_gen g c) (pp_set_gen g c').
Proof. intros (io & -> & Hs). exists io. by split. Qed.

Lemma gen_ok_io said0 c c' g : gen_ok said0 c g -> io_said (pp_io c') = io_said (pp_io c) -> gen_ok said0 c' g.
Proof. intros [G1 G2 G3 G4 G5] E. split; [by rewrite E|done..]. Qed.

(** Continuing after a step that was quiet. *)
Lemma pumped_after said0 c c1 c' g' : quiet c c1 -> pumped_to said0 c1 c' g' -> pumped_to said0 c c' g'.
Proof. intros Hq [H1 H2]. split; [|done]. etransitivity; [apply quiet_gen; exact Hq|done]. Qed.

Lemma gen_ok_body said0 c g : gen_ok said0 c g -> pg_phase g = PG_BODY ->
  let raw := take (Nat.min (pg_size g - pg_pos g) PG_CHUNK) (drop (pg_pos g) (pg_file g)) in
  gen_ok said0 (pp_set_io (io_append (stuff raw (pg_bol g)).1 (pp_io c)) c)
    (MkGen (pg_file g) (pg_size g) (pg_pos g + length raw) PG_BODY (stuff raw (pg_bol g)).2).
Proof.
  intros [G1 G2 G3 G4 G5] Hph. cbv zeta. destruct (body_chunk g G2) as (B1 & B2 & _). set (raw := take (Nat.min _ PG_CHUNK) _) in *.
  rewrite G3 by congruence. unfold gen_said in G1. rewrite Hph in G1.
  split; cbn [pg_pos pg_size pg_file pg_phase pg_bol pp_io pp_set_io io_append io_said].
  - unfold gen_said. cbn [pg_phase pg_pos]. unfold gen_part in *. cbn [pg_size pg_file]. rewrite B1, stuff_app. cbn [fst].
    by rewrite G1, <- !app_assoc.
  - done.
  - intros _. unfold gen_part in *. cbn [pg_size pg_file]. rewrite B1, stuff_app. done.
  - done.
  - done.
Qed.

Lemma gen_ok_end said0 c g : gen_ok said0 c g -> pg_phase g = PG_BODY ->
  (pg_size g - pg_pos g = 0)%nat \/ take (Nat.min (pg_size g - pg_pos g) PG_CHUNK) (drop (pg_pos g) (pg_file g)) = [] ->
  gen_ok said0 c (pg_to g PG_END).
Proof.
  intros [G1 G2 G3 G4 G5] Hph Hend. destruct (body_chunk g G2) as (_ & _ & B3). specialize (B3 Hend).
  unfold gen_said in G1. rewrite Hph in G1. split; cbn [pg_to pg_pos pg_size pg_file pg_phase pg_bol]; [done|done|intros _; apply G3; congruence|done|done].
Qed.

(** The last bytes of the stream. *)
Lemma pump_end said0 c g w : gen_ok said0 c g -> pg_phase g = PG_END ->
  exists w' c', (c ← (if negb (pg_bol g) then pop_reply c CRLF else mret c); c ← pop_reply c (bs "." ++ CRLF);
    mret (pp_set_gen (Some (pg_to g PG_DONE)) c)) w = (w', Some c') /\ net_only w w' /\ pumped_to said0 c c' (pg_to g PG_DONE).
Proof.
  intros [G1 G2 G3 G4 G5] Hph. unfold gen_said in G1. rewrite Hph in G1. rewrite G3 in * by congruence. rewrite G5 in * by done.
  rewrite take_ge in * by done. set (b := (stuff (gen_part g) true).2) in *.
  assert (Hfirst : exists w1 c1, (if negb b then pop_reply c CRLF else mret c) w = (w1, Some c1) /\ net_only w w1 /\ quiet c c1 /\
            (io_closed (pp_io c1) = true \/ io_said (pp_io c1) = io_said (pp_io c) ++ (if b then [] else CRLF))).
  { destruct b; cbn [negb].
    - exists w, c. split; [done|]. split; [done|]. split; [done|]. right. by rewrite app_nil_r.
    - destruct (pop_reply_said c CRLF w) as (w1 & c1 & E & Hw & Hq & _ & Hs). by exists w1, c1. }
  destruct Hfirst as (w1 & c1 & E1 & Hw1 & Hq1 & Hs1). destruct (pop_reply_said c1 (bs "." ++ CRLF) w1) as (w2 & c2 & E2 & Hw2 & Hq2 & _ & Hs2).
  exists w2, (pp_set_gen (Some (pg_to g PG_DONE)) c2). unfold mbind, prog_bind. rewrite E1, E2. split; [done|]. split; [by etransitivity|].
  assert (Hq : quiet c c2) by (by etransitivity). split; [by apply quiet_gen|].
  destruct Hs1 as [Hc1|Hs1]; [left; destruct Hq2 as (io & -> & (_ & _ & _ & _ & _ & Hc)); by apply Hc|]. destruct Hs2 as [Hc2|Hs2]; [by left|]. right.
  split; cbn [pg_to pg_pos pg_size pg_file pg_phase pg_bol pp_io pp_set_gen]; try done.
  - unfold gen_said. cbn [pg_phase pg_to]. change (gen_part (pg_to g PG_DONE)) with (gen_part g). rewrite Hs2, Hs1, G1. fold b. unfold pop_end.
    by rewrite <- !app_assoc.
  - change (gen_part (pg_to g PG_DONE)) with (gen_part g). by rewrite G5.
Qed.

Lemma pump_loop_spec fuel : forall said0 c g w, gen_ok said0 c g -> (pump_need g <= fuel)%nat ->
  exists w' c' g', pump_loop fuel c g w = (w', Some c') /\ net_only w w' /\ gen_part g' = gen_part g /\ pumped_to said0 c c' g'.
Proof.
  induction fuel as [|fuel IH]; intros said0 c g w Hg Hf; [exfalso; unfold pump_need in Hf; destruct (pg_phase g); lia|].
  cbn [pump_loop]. set (keep := fun c g => mret (pp_set_gen (Some g) c) : prog Mail Pop).
  destruct (io_closed (pp_io c)) eqn:Ecl; [exists w, (pp_set_gen (Some g) c), g; split; [done|]; split; [done|]; split; [done|]; split; [done|]; by left|].
  destruct (_ >=? _).
  { destruct (flush_spoken true (pp_io c) w) as (w1 & io & E & Hw & Hs & Hsaid). exists w1, (pp_set_gen (Some g) (pp_set_io io c)), g.
    unfold mbind, prog_bind. rewrite E. split; [done|]. split; [done|]. split; [done|]. split; [exists io; by split|]. right.
    by eapply gen_ok_io. }
  destruct (pg_phase g) eqn:Eph.
  - destruct (pop_reply_said c (bs "+OK message follows" ++ CRLF) w) as (w1 & c1 & E & Hw & Hq & _ & Hs). unfold mbind, prog_bind. rewrite E.
    destruct Hs as [Hcl|Hs].
    + destruct fuel as [|fuel]; [unfold pump_need in Hf; rewrite Eph in Hf; lia|]. cbn [pump_loop]. rewrite Hcl. eexists w1, _, (pg_to g PG_BODY).
      split; [reflexivity|]. split; [done|]. split; [done|]. split; [by apply quiet_gen|by left].
    + destruct (IH said0 c1 (pg_to g PG_BODY) w1) as (w2 & c2 & g2 & E2 & Hw2 & Hp2 & Hto).
      * destruct Hg as [G1 G2 G3 G4 G5]. unfold gen_said in G1. rewrite Eph, app_nil_r in G1. specialize (G4 Eph).
        split; cbn [pg_to pg_pos pg_size pg_file pg_phase pg_bol]; try done.
        -- unfold gen_said. cbn [pg_to pg_phase pg_pos]. rewrite Hs, G1, G4, take_0. cbn [stuff fst]. by rewrite app_nil_r.
        -- intros _. apply G3. congruence.
      * unfold pump_need in *. rewrite Eph in Hf. cbn [pg_to pg_phase pg_pos]. change (gen_part (pg_to g PG_BODY)) with (gen_part g). lia.
      * exists w2, c2, g2. rewrite E2. split; [done|]. split; [by etransitivity|]. split; [done|]. by eapply pumped_after.
  - assert (Hend : (pg_size g - pg_pos g = 0)%nat \/ take (Nat.min (pg_size g - pg_pos g) PG_CHUNK) (drop (pg_pos g) (pg_file g)) = [] ->
        exists w' c' g', pump_loop fuel c (pg_to g PG_END) w = (w', Some c') /\ net_only w w' /\ gen_part g' = gen_part g /\ pumped_to said0 c c' g').
    { intros He. destruct (IH said0 c (pg_to g PG_END) w (gen_ok_end said0 c g Hg Eph He)) as (w2 & c2 & g2 & E2 & Hw2 & Hp2 & Hto).
      - unfold pump_need in *. rewrite Eph in Hf. cbn [pg_to pg_phase]. lia.
      - by exists w2, c2, g2. }
    cbv zeta. destruct (Nat.eqb_spec (pg_size g - pg_pos g) 0) as [He|Hne]; [apply Hend; by left|].
    pose proof (gen_ok_body said0 c g Hg Eph) as Hb. cbv zeta in Hb. destruct (body_chunk g (go_pos _ _ _ Hg)) as (_ & B2 & _).
    destruct (take (Nat.min (pg_size g - pg_pos g) PG_CHUNK) (drop (pg_pos g) (pg_file g))) as [|x raw]; [apply Hend; by right|].
    destruct (stuff (x :: raw) (pg_bol g)) as [o b]. cbn [fst snd] in Hb.
    destruct (IH said0 _ _ w Hb) as (w2 & c2 & g2 & E2 & Hw2 & Hp2 & Hto).
    + unfold pump_need in *. rewrite Eph in Hf. cbn [pg_phase pg_pos]. unfold gen_part in *. cbn [pg_size pg_file length] in *. lia.
    + exists w2, c2, g2. split; [done|]. split; [done|]. split; [done|]. eapply pumped_after; [|exact Hto].
      exists (io_append o (pp_io c)). split; [done|apply spoken_append].
  - destruct (pump_end said0 c g w Hg Eph) as (w' & c' & E & Hw & Hto). exists w', c', (pg_to g PG_DONE). by split.
  - exists w, (pp_set_gen (Some g) c), g. split; [done|]. split; [done|]. split; [done|]. split; [done|]. right. by eapply gen_ok_io.
Qed.
End Pump.

(** ** What the client reads *)

(** A multi-line response, read as RFC 1939 says: a line with a dot alone ends it, any
    other line loses a dot it starts with. [bol]: at the start of a line. *)
Fixpoint pop3_decode (s : bytes) (bol : bool) : option (bytes * bytes) :=
  match s with
  | [] => None
  | c :: t =>
      if bol && (c =? "."%chr) then
        match t with
        | [] => None
        | d :: u =>
            if (d =? CR) && (match u with e :: _ => e =? LF | [] => false end) then Some ([], drop 1 u)
            else '(b, r) ← pop3_decode u (d =? LF); Some (d :: b, r)
        end
      else '(b, r) ← pop3_decode t (c =? LF); Some (c :: b, r)
  end.

Lemma decode_stuff s : forall bol tail,
  pop3_decode ((stuff s bol).1 ++ tail) bol = '(b, r) ← pop3_decode tail (stuff s bol).2; Some (s ++ b, r).
Proof.
  induction s as [|c s IH]; intros bol tail; cbn [stuff fst snd app].
  { destruct (pop3_decode tail bol) as [[b r]|]; done. }
  specialize (IH (c =? LF) tail). destruct (stuff s (c =? LF)) as [o b1]. cbn [fst snd] in *.
  destruct bol; cbn [andb].
  - destruct (c =? "."%chr) eqn:Ec; cbn [app].
    + apply Z.eqb_eq in Ec as ->. cbn [pop3_decode andb]. rewrite IH. destruct (pop3_decode tail b1) as [[b r]|]; done.
    + cbn [pop3_decode andb]. rewrite Ec. rewrite IH. destruct (pop3_decode tail b1) as [[b r]|]; done.
  - cbn [app pop3_decode andb]. rewrite IH. destruct (pop3_decode tail b1) as [[b r]|]; done.
Qed.

(** The line end the server adds behind a message without one. *)
Definition missing_eol (part : bytes) : bytes := if (stuff part true).2 then [] else CRLF.

Lemma decode_message part rest : pop3_decode ((stuff part true).1 ++ pop_end (stuff part true).2 ++ rest) true = Some (part ++ missing_eol part, rest).
Proof.
  rewrite decode_stuff. unfold pop_end, missing_eol. by destruct (stuff part true).2.
Qed.

Lemma stuff_bol s : forall bol, (stuff s bol).2 = match last s with Some c => c =? LF | None => bol end.
Proof.
  induction s as [|c s IH]; intros bol; [done|]. cbn [stuff]. specialize (IH (c =? LF)). destruct (stuff s (c =? LF)) as [o b]. cbn [snd] in *.
  rewrite IH. rewrite last_cons. by destruct (last s).
Qed.

Section Retrieve.
Context {N : ImapdNet} {HF : MailFs}.

Lemma gen_part_len g : (length (gen_part g) <= length (pg_file g))%nat.
Proof. unfold gen_part. rewrite length_take. lia. Qed.

(** One pump: it returns, and the stream is where it should be, finished, or the
    connection closed. *)
Lemma pump_spec said0 c g w : pp_gen c = Some g -> gen_ok said0 c g ->
  exists w' c', imapd_pop3_pump c w = (w', Some c') /\ net_only w w' /\
    exists g', gen_part g' = gen_part g /\ quiet (pp_set_gen (pp_gen c') c) c' /\
      match pp_gen c' with
      | Some g'' => g'' = g' /\ (io_closed (pp_io c') = true \/ gen_ok said0 c' g')
      | None => io_said (pp_io c') = said0 ++ pop_hello ++ (stuff (gen_part g) true).1 ++ pop_end (stuff (gen_part g) true).2
      end.
Proof.
  intros Hgen Hg. unfold imapd_pop3_pump. rewrite Hgen.
  destruct (pump_loop_spec (length (pg_file g) + 5) said0 c g w Hg) as (w1 & c1 & g1 & E & Hw & Hp & Hto & Hor).
  { pose proof (gen_part_len g). unfold pump_need. destruct (pg_phase g); lia. }
  unfold mbind, prog_bind. rewrite E. assert (Hgen1 : pp_gen c1 = Some g1) by (by destruct Hto as (io & -> & _)). rewrite Hgen1.
  assert (Hsame : exists w' c', @mret (prog Mail) _ _ c1 w1 = (w', Some c') /\ net_only w w' /\
    exists g', gen_part g' = gen_part g /\ quiet (pp_set_gen (pp_gen c') c) c' /\
      match pp_gen c' with
      | Some g'' => g'' = g' /\ (io_closed (pp_io c') = true \/ gen_ok said0 c' g')
      | None => io_said (pp_io c') = said0 ++ pop_hello ++ (stuff (gen_part g) true).1 ++ pop_end (stuff (gen_part g) true).2
      end).
  { exists w1, c1. split; [done|]. split; [done|]. exists g1. split; [done|]. rewrite Hgen1. by repeat split. }
  destruct g1 as [file size pos ph bol]. destruct ph; try exact Hsame.
  destruct (io_closed (pp_io c1)) eqn:Ecl; [exact Hsame|]. clear Hsame.
  destruct (flush_spoken true (pp_io c1) w1) as (w2 & io & E2 & Hw2 & Hs2 & Hsaid). rewrite E2. exists w2, (pp_set_gen None (pp_set_io io c1)).
  split; [done|]. split; [by etransitivity|]. eexists (MkGen file size pos PG_DONE bol). split; [done|]. cbn [pp_gen pp_set_gen pp_set_io pp_io].
  split.
  - destruct Hto as (io1 & -> & Hs1). exists io. split; [done|]. etransitivity; [exact Hs1|exact Hs2].
  - destruct Hor as [?|[G1 _ _ _ _]]; [congruence|]. rewrite Hsaid, G1. unfold gen_said. cbn [pg_phase]. by rewrite Hp.
Qed.

Lemma pump_closed c g w : pp_gen c = Some g -> io_closed (pp_io c) = true -> imapd_pop3_pump c w = (w, Some (pp_set_gen (Some g) c)).
Proof.
  intros Hgen Hcl. unfold imapd_pop3_pump. rewrite Hgen. unfold mbind, prog_bind.
  replace (length (pg_file g) + 5)%nat with (S (length (pg_file g) + 4)) by lia. cbn [pump_loop]. rewrite Hcl.
  destruct g as [? ? ? [] ?]; cbn; by rewrite ?Hcl.
Qed.

(** Rounds of the event loop while a message is being sent. *)
Inductive pumps : Pop -> Pop -> Prop :=
  | pumps_here c : pumps c c
  | pumps_more c w w' c1 c2 : imapd_pop3_pump c w = (w', Some c1) -> pumps c1 c2 -> pumps c c2.

Lemma pumps_said c c' : pumps c c' -> forall said0 g, pp_gen c = Some g -> io_closed (pp_io c) = true \/ gen_ok said0 c g ->
  match pp_gen c' with
  | Some g' => gen_part g' = gen_part g /\ (io_closed (pp_io c') = true \/ gen_ok said0 c' g')
  | None => io_said (pp_io c') = said0 ++ pop_hello ++ (stuff (gen_part g) true).1 ++ pop_end (stuff (gen_part g) true).2
  end.
Proof.
  intros Hp. induction Hp as [c|c w w' c1 c2 E Hp IH]; intros said0 g Hgen Hor; [rewrite Hgen; by split|].
  assert (Hstop : pp_gen c1 = None -> c2 = c1).
  { clear -Hp. intros Hn. induction Hp as [|c w w' c1 c2 E Hp IH]; [done|]. unfold imapd_pop3_pump in E. rewrite Hn in E.
    injection E as _ <-. by apply IH. }
  destruct Hor as [Hcl|Hg].
  - rewrite (pump_closed c g w Hgen Hcl) in E. injection E as _ <-.
    apply (IH said0 g); [done|]. by left.
  - destruct (pump_spec said0 c g w Hgen Hg) as (w1 & c1' & E1 & _ & g1 & Hpart & _ & Hm). rewrite E1 in E. injection E as _ ->.
    destruct (pp_gen c1) as [g1'|] eqn:Eg.
    + destruct Hm as [-> Hor]. specialize (IH said0 g1 eq_refl Hor). by rewrite Hpart in IH.
    + specialize (Hstop eq_refl) as ->. by rewrite Eg.
Qed.
End Retrieve.

(** ** TOP *)

(** The first [n] lines. *)
Fixpoint first_lines (s : bytes) (n : Z) : bytes :=
  match s with
  | [] => []
  | c :: t => if n =? 0 then [] else c :: first_lines t (if c =? LF then n - 1 else n)
  end.

Lemma first_lines_app a b n : 0 <= n -> first_lines (a ++ b) n =
  match top_chunk a 0 0 n with
  | inl k => if n =? 0 then [] else take k a
  | inr seen => if n =? 0 then [] else a ++ first_lines b (n - seen)
  end.
Proof.
  assert (G : forall a off seen, 0 <= seen -> seen < n ->
    match top_chunk a off seen n with
    | inl k => (off < k)%nat /\ (k <= off + length a)%nat /\ forall b, first_lines (a ++ b) (n - seen) = take (k - off) a
    | inr s => seen <= s < n /\ forall b, first_lines (a ++ b) (n - seen) = a ++ first_lines b (n - s)
    end).
  { clear a b. induction a as [|c a IH]; intros off seen H0 Hlt; cbn [top_chunk app]; [split; [lia|done]|].
    assert (Hnz : (n - seen =? 0) = false) by lia. destruct (c =? LF) eqn:Ec.
    - destruct (Z.eqb_spec (seen + 1) n) as [He|Hne].
      + split; [lia|]. split; [cbn; lia|]. intros b. cbn [first_lines]. rewrite Hnz, Ec. replace (S off - off)%nat with 1%nat by lia.
        replace (n - seen - 1) with 0 by lia. cbn [take]. f_equal. destruct (a ++ b); done.
      + specialize (IH (S off) (seen + 1) ltac:(lia) ltac:(lia)). destruct (top_chunk a (S off) (seen + 1) n) as [k|s].
        * destruct IH as (I1 & I2 & I3). split; [lia|]. split; [cbn; lia|]. intros b. cbn [first_lines]. rewrite Hnz, Ec.
          replace (n - seen - 1) with (n - (seen + 1)) by lia. rewrite I3. replace (k - off)%nat with (S (k - S off)) by lia. done.
        * destruct IH as [I1 I2]. split; [lia|]. intros b. cbn [first_lines]. rewrite Hnz, Ec.
          replace (n - seen - 1) with (n - (seen + 1)) by lia. by rewrite I2.
    - specialize (IH (S off) seen H0 Hlt). destruct (top_chunk a (S off) seen n) as [k|s].
      + destruct IH as (I1 & I2 & I3). split; [lia|]. split; [cbn; lia|]. intros b. cbn [first_lines]. rewrite Hnz, Ec, I3.
        replace (k - off)%nat with (S (k - S off)) by lia. done.
      + destruct IH as [I1 I2]. split; [lia|]. intros b. cbn [first_lines]. by rewrite Hnz, Ec, I2. }
  intros Hn. destruct (Z.eqb_spec n 0) as [->|Hnz]; [destruct (top_chunk a 0 0 0), a; cbn; destruct b; done|].
  specialize (G a 0%nat 0 ltac:(lia) ltac:(lia)). rewrite Z.sub_0_r in G. destruct (top_chunk a 0 0 n) as [k|s].
  - destruct G as (_ & _ & G). by rewrite G, Nat.sub_0_r.
  - by destruct G as [_ G].
Qed.

Lemma top_chunk_shift a off seen n : top_chunk a off seen n =
  match top_chunk a 0 0 (n - seen) with inl k => inl (off + k)%nat | inr s => inr (seen + s) end.
Proof.
  assert (G : forall a off o seen s0, top_chunk a (off + o) (seen + s0) n = match top_chunk a o s0 (n - seen) with inl k => inl (off + k)%nat | inr s => inr (seen + s) end).
  { clear. induction a as [|c a IH]; intros off o seen s0; cbn [top_chunk]; [done|].
    rewrite <- Nat.add_succ_r, <- Z.add_assoc. destruct (c =? LF); [|apply IH].
    replace (s0 + 1 =? n - seen) with (seen + (s0 + 1) =? n) by (destruct (Z.eqb_spec (seen + (s0 + 1)) n), (Z.eqb_spec (s0 + 1) (n - seen)); lia). destruct (_ =? n); [done|apply IH]. }
  rewrite <- (G a off 0%nat seen 0), Nat.add_0_r, Z.add_0_r. done.
Qed.

Lemma top_chunk_bound a o s m k : top_chunk a o s m = inl k -> (k <= o + length a)%nat.
Proof.
  revert o s. induction a as [|c a IH]; intros o s; cbn [top_chunk length]; [done|]. destruct (c =? LF).
  - destruct (_ =? m); [intros [= <-]; lia|]. intros Hk%IH. lia.
  - intros Hk%IH. lia.
Qed.

Lemma top_chunk_seen a o s0 m s : 0 <= s0 < m -> top_chunk a o s0 m = inr s -> s0 <= s < m.
Proof.
  revert o s0. induction a as [|c a IH]; intros o s0 Hm; cbn [top_chunk]; [intros [= <-]; lia|]. destruct (c =? LF).
  - destruct (Z.eqb_spec (s0 + 1) m); [done|]. intros Hk%IH; lia.
  - intros Hk%IH; lia.
Qed.

Lemma top_loop_spec fuel : forall file off fsize seen n, (fsize - off < fuel)%nat -> 0 <= seen < n -> (off <= fsize)%nat ->
  take (top_loop fuel file off fsize seen n) file = take off file ++ first_lines (drop off (take fsize file)) (n - seen).
Proof.
  assert (Hch : (0 < PG_CHUNK)%nat) by (unfold PG_CHUNK; lia). revert Hch.
  induction fuel as [|fuel IH]; intros Hch file off fsize seen n Hf Hs Ho; [lia|]. cbn [top_loop].
  destruct (Nat.leb_spec fsize off) as [Hle|Hlt].
  { assert (fsize = off) as -> by lia. rewrite drop_ge by (rewrite length_take; lia). cbn [first_lines]. by rewrite app_nil_r. }
  assert (Hbuf : take (Nat.min (fsize - off) PG_CHUNK) (drop off file) = take (Nat.min (fsize - off) PG_CHUNK) (drop off (take fsize file))).
  { rewrite skipn_firstn_comm, take_take. f_equal. lia. }
  rewrite Hbuf. set (rest := drop off (take fsize file)).
  assert (Hsplit : take fsize file = take off file ++ rest).
  { unfold rest. rewrite <- (take_drop off (take fsize file)) at 1. f_equal. rewrite take_take. f_equal. lia. }
  assert (Hrl : (length rest <= fsize - off)%nat) by (unfold rest; rewrite length_drop, length_take; lia).
  destruct (take (Nat.min (fsize - off) PG_CHUNK) rest) as [|x buf] eqn:Eb.
  { assert (rest = []) as Hr by (apply (f_equal length) in Eb; rewrite length_take in Eb; cbn in Eb; destruct rest; [done|cbn in *; lia]).
    rewrite Hsplit, Hr. cbn [first_lines]. done. }
  set (buf' := x :: buf) in *. assert (Hbl : length buf' = Nat.min (Nat.min (fsize - off) PG_CHUNK) (length rest)) by (rewrite <- Eb, length_take; done).
  assert (Hrest : rest = buf' ++ drop (length buf') rest).
  { rewrite <- (take_drop (length buf') rest) at 1. f_equal. rewrite <- Eb at 2. rewrite Hbl.
    destruct (decide (Nat.min (fsize - off) PG_CHUNK <= length rest)%nat); [by rewrite Nat.min_l by lia|]. rewrite Nat.min_r by lia. by rewrite !take_ge by lia. }
  rewrite top_chunk_shift. pose proof (first_lines_app buf' (drop (length buf') rest) (n - seen) ltac:(lia)) as Hfl. rewrite <- Hrest in Hfl.
  assert (Hnz : (n - seen =? 0) = false) by lia. rewrite Hnz in Hfl.
  assert (Hfile : forall k, (off + k <= fsize)%nat -> take (off + k) file = take off file ++ take k rest).
  { intros k Hk. assert (take (off + k) file = take (off + k) (take fsize file)) as -> by (rewrite take_take; f_equal; lia). rewrite Hsplit.
    destruct (decide (off <= length file)%nat).
    - rewrite take_app_add' by (rewrite length_take; lia). done.
    - assert (rest = []) as -> by (unfold rest; apply drop_ge; rewrite length_take; lia). rewrite app_nil_r, take_nil, app_nil_r, take_take. f_equal. lia. }
  destruct (top_chunk buf' 0 0 (n - seen)) as [k|s] eqn:Et.
  - rewrite Hfl. pose proof (top_chunk_bound _ _ _ _ _ Et) as Hlk. rewrite Hfile by lia. f_equal. rewrite Hrest. by rewrite take_app_le.
  - pose proof (top_chunk_seen buf' 0%nat 0 (n - seen) s ltac:(lia) Et) as Hsn.
    rewrite IH; [|done|unfold buf' in *; cbn [length] in *; lia|lia|lia]. rewrite Hfl, Hfile by lia.
    rewrite Z.sub_add_distr, <- app_assoc. f_equal. f_equal; [rewrite Hrest at 1; by rewrite take_app_length|]. f_equal. unfold rest. by rewrite drop_drop.
Qed.

Lemma hdr_end_bound buf : (hdr_end_of buf <= length buf)%nat.
Proof.
  unfold hdr_end_of. assert (G : forall b i, (hdr_end_loop b i <= i + length b)%nat); [|specialize (G buf 0%nat); lia].
  induction b as [|c b IH]; intros i; [cbn; lia|]. destruct b as [|d t]; [cbn; lia|]. specialize (IH (S i)).
  change (hdr_end_loop (c :: d :: t) i) with (if c =? LF then if d =? LF then (i + 2)%nat
    else if (d =? CR) && (match t with e :: _ => e =? LF | [] => false end) then (i + 3)%nat else hdr_end_loop (d :: t) (S i)
    else hdr_end_loop (d :: t) (S i)).
  cbn [length] in *. destruct (c =? LF); [|lia]. destruct (d =? LF); [lia|]. destruct (_ && _) eqn:E; [|lia].
  destruct t; [by rewrite andb_false_r in E|cbn; lia].
Qed.

Lemma top_cut_spec file h fsize n : (h <= fsize)%nat -> 0 <= n ->
  take (top_cut file h fsize n) file = take h file ++ first_lines (drop h (take fsize file)) n.
Proof.
  intros Hh Hn. unfold top_cut. destruct (Z.eqb_spec n 0) as [->|].
  - replace (first_lines _ 0) with (@nil Z) by (by destruct (drop h (take fsize file))). by rewrite app_nil_r.
  - rewrite top_loop_spec by lia. by rewrite Z.sub_0_r.
Qed.

(** ** What RETR and TOP send *)

(** The part of the file: all of it up to the size of the scan, or the header block and
    the first lines behind it. *)
Definition sent_part (file : bytes) (size : nat) (top : option Z) : bytes :=
  match top with
  | None => take size file
  | Some n => let h := hdr_end_of (take (Nat.min size IMAPD_HDR_CAP) file) in take h file ++ first_lines (drop h (take size file)) n
  end.

Section RoundTrip.
Context {N : ImapdNet} {HF : MailFs}.

Lemma start_retr_ok f c m top c0 : start_retr f c m top = Some c0 -> (forall n, top = Some n -> 0 <= n) ->
  exists file g, fs_read f (im_path m) = Some file /\ pp_gen c0 = Some g /\ gen_part g = sent_part file (Z.to_nat (im_size m)) top /\
    pp_io c0 = pp_io c /\ gen_ok (io_said (pp_io c)) c0 g.
Proof.
  unfold start_retr. intros H Htop. destruct (fs_read f (im_path m)) as [file|]; [|done]. injection H as <-.
  exists file. eexists. split; [done|]. split; [done|]. split; [|split; [done|]].
  - unfold gen_part, sent_part. cbn [pg_size pg_file]. destruct top as [n|]; [|done]. apply top_cut_spec; [|by apply Htop].
    pose proof (hdr_end_bound (take (Nat.min (Z.to_nat (im_size m)) IMAPD_HDR_CAP) file)) as Hb. rewrite length_take in Hb. lia.
  - split; cbn [pg_phase pg_pos pp_io pp_set_gen]; try done; [unfold gen_said; by rewrite app_nil_r|lia].
Qed.

(** C21: RETR and TOP deliver the message. Once the stream has started, every round of
    the event loop returns, whatever the socket accepts, and when the stream is over
    the session has queued, behind what it had said before, the opening line and bytes
    that a client decodes to the part asked for (the file up to the size the scan saw,
    or its header block and that many lines), completed with a line end if it has
    none; the client then stands exactly behind the response. *)
Theorem pop3_retr_round_trip (f : fs) (c : Pop) (m : Imail) (top : option Z) (c0 c' : Pop) (rest : bytes)
    (Hstart : start_retr f c m top = Some c0) (Htop : forall n, top = Some n -> 0 <= n) (Hrun : pumps c0 c') :
  (forall w, exists w' c'', imapd_pop3_pump c' w = (w', Some c'') /\ net_only w w') /\
  (pp_gen c' = None -> exists file sent, fs_read f (im_path m) = Some file /\
    io_said (pp_io c') = io_said (pp_io c) ++ pop_hello ++ sent /\
    let part := sent_part file (Z.to_nat (im_size m)) top in
    pop3_decode (sent ++ rest) true = Some (part ++ missing_eol part, rest)).
Proof.
  destruct (start_retr_ok _ _ _ _ _ Hstart Htop) as (file & g & Hfile & Hg & Hpart & Hio & Hok).
  pose proof (pumps_said _ _ Hrun _ g Hg (or_intror Hok)) as Hp. split.
  - intros w. destruct (pp_gen c') as [g'|] eqn:Eg.
    + destruct Hp as [_ [Hcl|Hok']]; [eexists w, _; split; [by apply pump_closed|done]|].
      destruct (pump_spec _ _ _ w Eg Hok') as (w' & c'' & E & Hw & _). by exists w', c''.
    + exists w, c'. unfold imapd_pop3_pump. by rewrite Eg.
  - intros Hn. rewrite Hn in Hp. exists file, ((stuff (gen_part g) true).1 ++ pop_end (stuff (gen_part g) true).2).
    split; [done|]. split; [done|]. rewrite <- Hpart, <- app_assoc. apply decode_message.
Qed.
(** A reply is refused, and the connection closed, when the output buffer holds more
    than its limit, sent bytes included: the pump only looks at the bytes not sent yet,
    and the buffer is emptied only when all of it is sent. A client that reads a large
    message steadily but never catches up is cut off in front of the final dot. *)
Lemma slow_reader_cut c g w : pp_gen c = Some g -> pg_phase g = PG_END -> pg_bol g = true -> io_closed (pp_io c) = false ->
  IMAPD_MAX_OUT < len (io_out (pp_io c)) -> len (io_out (pp_io c)) - Z.of_nat (io_off (pp_io c)) < IMAPD_MAX_OUT / 2 ->
  exists c', imapd_pop3_pump c w = (w, Some c') /\ io_closed (pp_io c') = true /\ io_said (pp_io c') = io_said (pp_io c).
Proof.
  intros Hgen Hph Hbol Hcl Hlong Hpend. eexists. split; [|shelve]. unfold imapd_pop3_pump. rewrite Hgen. unfold mbind, prog_bind.
  replace (length (pg_file g) + 5)%nat with (S (length (pg_file g) + 4)) by lia. cbn [pump_loop]. rewrite Hcl, Hph, Hbol.
  rewrite Z.geb_leb. destruct (Z.leb_spec (IMAPD_MAX_OUT / 2) (len (io_out (pp_io c)) - Z.of_nat (io_off (pp_io c)))); [lia|]. cbn [negb].
  assert (E : pop_reply c (bs "." ++ CRLF) w = (w, Some (pp_close c))).
  { unfold pop_reply, imapd_conn_reply, mbind, prog_bind. rewrite Z.gtb_ltb. by destruct (Z.ltb_spec IMAPD_MAX_OUT (len (io_out (pp_io c)))); [|lia]. }
  unfold mbind, prog_bind, mret, prog_ret. rewrite E. cbn. reflexivity.
  Unshelve. done.
Qed.
End RoundTrip.

(** A plaintext session in the transaction state with a message that starts with a dot. *)
Definition pop_w_io : Io := MkIo 7 false [] [] 0 0 [127; 0; 0; 1] None [].
Definition pop_w_files : MemFiles := [(bs "/m/al/Inbox/new/1.M1", bs "A: b" ++ CRLF ++ CRLF ++ bs ".x" ++ CRLF ++ bs "y")].
Definition pop_w_msg : Imail :=
  {| im_uid := 4; im_flags := 0; im_unk := []; im_recent := false; im_date := 0; im_size := 13; im_modseq := 4; im_base := bs "1.M1";
     im_path := bs "/m/al/Inbox/new/1.M1"; im_mid := []; im_hdr := None; im_hdr_fsize := 0; im_hdr_mtime := 0; im_hdr_ctime := 0;
     im_hdr_loaded := false; im_hdr_valid := false |}.
Definition pop_w_box : Mbox :=
  {| mb_dir := bs "/m/al/Inbox"; mb_uidvalidity := 7; mb_uidnext := 5; mb_highestmodseq := 4; mb_msgs := [pop_w_msg];
     mb_uidmap := [{| ue_base := bs "1.M1"; ue_mid := []; ue_uid := 4; ue_modseq := 4 |}]; mb_uidlist_dirty := false; mb_tomb := []; mb_hdrs_dirty := false |}.
Definition pop_w_conn : Pop := MkPop pop_w_io PO_TRANS None (Some (bs "al")) (Some pop_w_box) [false] 0 None.

Definition pop_w_mail : Mail := MkMail quiet_net (pop_w_files : fs) [] 0.

Definition pop_w_start : Pop := default pop_w_conn (start_retr (HF := MemMailFs) pop_w_files pop_w_conn pop_w_msg (Some 1)).
Definition pop_w_sent : Pop := default pop_w_conn (imapd_pop3_pump pop_w_start pop_w_mail).2.

Lemma pop_w_pumps : pumps pop_w_start pop_w_sent.
Proof. apply (pumps_more _ pop_w_mail (imapd_pop3_pump pop_w_start pop_w_mail).1 pop_w_sent); [vm_compute; reflexivity|apply pumps_here]. Qed.

Lemma pop3_retr_round_trip_witness :
  pumps pop_w_start pop_w_sent /\ pp_gen pop_w_sent = None /\
  exists file sent, fs_read (pop_w_files : fs) (im_path pop_w_msg) = Some file /\
    io_said (pp_io pop_w_sent) = [] ++ pop_hello ++ sent /\
    let part := sent_part file 13 (Some 1) in pop3_decode (sent ++ bs "next") true = Some (part ++ missing_eol part, bs "next").
Proof.
  split; [apply pop_w_pumps|]. split; [vm_compute; reflexivity|].
  refine (proj2 (pop3_retr_round_trip (pop_w_files : fs) pop_w_conn pop_w_msg (Some 1) pop_w_start pop_w_sent (bs "next") _ _ pop_w_pumps) _);
    [vm_compute; reflexivity|intros n [= <-]; lia|vm_compute; reflexivity].
Defined.
