(* ===== verification/Pop3MailSpec.v ===== *)
(** * What POP3 sessions do to mail

    A session reaches a mailbox only through a credential check; no command but QUIT
    removes a message, and QUIT removes exactly those marked by DELE; nothing outside the
    mailbox of the session's user is ever touched. *)

From S2P Require Import Prelude MailLines Json Prog SmtpWorld SmtpParse SmtpSession MailStore MailAuth MailUid MailHdrs MailBox MailStoreSpec MailAuthSpec MemMail MailBoxSpec MailScanSpec ImapdNet Pop3 MemNet Pop3Spec.

(** ** Paths below a mailbox *)

Definition below (dir p : bytes) : Prop := exists leaf, p = dir ++ bs "/" ++ leaf.
(** The uidlist, the header cache, their temporary files and the lock. *)
Definition sidecar (dir p : bytes) : Prop := exists leaf, p = dir ++ bs "/imapd-" ++ leaf.

Lemma sidecar_below dir p : sidecar dir p -> below dir p.
Proof. intros (leaf & ->). by exists (bs "imapd-" ++ leaf). Qed.

Lemma below_app dir p s : below dir p -> below dir (p ++ s).
Proof. intros (leaf & ->). exists (leaf ++ s). by rewrite <- !app_assoc. Qed.

Lemma uidlist_sidecar dir s : sidecar dir (uidlist_path dir ++ s).
Proof. exists (bs "uidlist" ++ s). unfold uidlist_path. by rewrite <- !app_assoc. Qed.
Lemma hdrs_sidecar dir s : sidecar dir (hdrs_path dir ++ s).
Proof. exists (bs "hdrs" ++ s). unfold hdrs_path. by rewrite <- !app_assoc. Qed.

(** The identity of the messages of a view: uids, bases and paths. *)
Definition view_id (m : Imail) : Z * bytes * bytes := (im_uid m, im_base m, im_path m).

Lemma view_id_uids l l' : map view_id l = map view_id l' -> map im_uid l = map im_uid l'.
Proof. intros E. apply (f_equal (map (fun x => x.1.1))) in E. by rewrite !map_map in E. Qed.

Lemma view_id_forall (P : Imail -> Prop) l l' : (forall m m', view_id m = view_id m' -> P m -> P m') ->
  map view_id l = map view_id l' -> Forall P l -> Forall P l'.
Proof.
  intros HP. rewrite !Forall_forall. intros E H m Hm. apply list_elem_of_In, (in_map view_id) in Hm. rewrite <- E in Hm.
  apply in_map_iff in Hm as (m' & Hid & Hm'). eapply HP; [exact Hid|]. by apply H, list_elem_of_In.
Qed.

Lemma view_id_paths (P : bytes -> Prop) l l' : map view_id l = map view_id l' -> Forall (fun m => P (im_path m)) l -> Forall (fun m => P (im_path m)) l'.
Proof. apply (view_id_forall (fun m => P (im_path m))). by intros m m' [= _ _ ->]. Qed.

(** The base of a name: what comes before the flags. *)
Definition leaf_base (leaf : bytes) : bytes := take_while (fun c => negb (c =? ":"%chr)) leaf.

(** A message is at a name of its base, in new/ or in cur/. *)
Definition named (dir : bytes) (m : Imail) : Prop := exists sub leaf,
  (sub = bs "new" \/ sub = bs "cur") /\ im_path m = dir ++ bs "/" ++ sub ++ bs "/" ++ leaf /\ leaf_base leaf = im_base m.

Definition view_named (mb : Mbox) : Prop := Forall (named (mb_dir mb)) (mb_msgs mb).

Lemma named_view_id dir m m' : view_id m = view_id m' -> named dir m -> named dir m'.
Proof. unfold named. by intros [= _ -> ->]. Qed.

Lemma named_below dir m : named dir m -> below dir (im_path m).
Proof. intros (sub & leaf & _ & -> & _). by exists (sub ++ bs "/" ++ leaf). Qed.



Lemma no_colon s : ":"%chr ∉ s -> Forall (fun c => negb (c =? ":"%chr) = true) s.
Proof. intros Hs. apply Forall_forall. intros c Hc. apply negb_true_iff, Z.eqb_neq. by intros ->. Qed.

Lemma entry_leaf name base flags unk : entry_name name = Some (base, flags, unk) -> leaf_base name = base.
Proof.
  unfold entry_name, leaf_base. destruct name as [|c name]; [done|]. destruct (c =? "."%chr); [done|].
  pose proof (cut_spec ":"%chr (c :: name)) as Hc. destruct (cut _ _) as [[x inf]|].
  - destruct Hc as [-> Hx]. destruct (imapd_flags_parse _ _) as [[fl u]|]; [|done]. intros [= <- _ _].
    rewrite take_while_app_all by by apply no_colon. cbn [take_while]. rewrite Z.eqb_refl. apply app_nil_r.
  - intros [= <- _ _]. by apply take_while_id, no_colon.
Qed.


(** The name in cur/ that a message gets with \Seen set. *)
Definition seen_name (dir : bytes) (m : Imail) (dst : bytes) : Prop := exists flags info,
  Z.lor flags IMAIL_SEEN = flags /\ imapd_flags_encode flags (im_unk m) 32 = Some info /\
  msg_path dir (bs "cur") (im_base m) info 4160 = Some dst.





Lemma map_insert_keeps {A B} (g : A -> B) l i x y : l !! i = Some x -> g y = g x -> map g (<[i := y]> l) = map g l.
Proof.
  revert i. induction l as [|a l IH]; intros [|i] Hx Hg; cbn in *; try done; [by injection Hx as ->; rewrite Hg|]. by rewrite IH.
Qed.

Section Effects.
Context `{HF : MailFs} `{L : !MailFsLaws} (tmp_suffix : bytes) (uninit : Z).

Lemma publish_sidecar dir f tmp path s f' ok : publish f tmp path s = (f', ok) -> sidecar dir tmp -> sidecar dir path -> same_files f f' (sidecar dir).
Proof. intros Hp Ht Hpath. apply publish_spec in Hp as [Hs _]. eapply same_files_weaken; [exact Hs|]. by intros p [-> | ->]. Qed.

Lemma uidlist_save_same f dir tombs uv un v probe : same_files f (imapd_uidlist_save tmp_suffix f dir tombs uv un v probe).1.1 (sidecar dir).
Proof.
  unfold imapd_uidlist_save. destruct (fs_lock f _) as [f1 locked] eqn:El.
  destruct (if locked then _ else _) as [[wuv wun] wv]. destruct (publish f1 _ _ _) as [f2 ok] eqn:Ep. cbn [fst].
  eapply same_files_trans.
  - intros p Hp. apply (lock_read _ _ _ _ p El). intros ->. apply Hp, uidlist_sidecar.
  - eapply publish_sidecar; [exact Ep| |rewrite <- (app_nil_r (uidlist_path dir))]; apply uidlist_sidecar.
Qed.

Lemma close_same f mb : same_files f (imapd_mbox_close tmp_suffix f mb) (sidecar (mb_dir mb)).
Proof.
  unfold imapd_mbox_close. set (f1 := if mb_hdrs_dirty mb then _ else f).
  assert (H1 : same_files f f1 (sidecar (mb_dir mb))).
  { unfold f1. destruct (mb_hdrs_dirty mb); [|done]. unfold mail_hdrs_save. destruct (publish _ _ _ _) as [g ok] eqn:Ep. cbn [fst].
    eapply publish_sidecar; [exact Ep| |rewrite <- (app_nil_r (hdrs_path _))]; apply hdrs_sidecar. }
  destruct (mb_uidlist_dirty mb); [|done]. eapply same_files_trans; [exact H1|apply uidlist_save_same].
Qed.

(** ** The scan leaves the messages where they are *)

Lemma scan_entry_named f sub_dir is_new old st name :
  let here m := exists leaf, im_path m = sub_dir ++ bs "/" ++ leaf /\ leaf_base leaf = im_base m in
  Forall here (drop (length (sc_msgs st)) (sc_msgs (scan_entry uninit f sub_dir is_new old st name))) /\
  take (length (sc_msgs st)) (sc_msgs (scan_entry uninit f sub_dir is_new old st name)) = sc_msgs st.
Proof.
  intros here. unfold scan_entry. assert (Hsame : Forall here (drop (length (sc_msgs st)) (sc_msgs st)) /\
    take (length (sc_msgs st)) (sc_msgs st) = sc_msgs st) by (rewrite drop_all, take_ge by done; by split).
  destruct (entry_name name) as [[[base flags] unk]|] eqn:En; [|done]. apply entry_leaf in En. destruct (_ <=? _); [done|]. destruct (fs_stat f _); [|done].
  destruct (old base); unfold scan_entry_add; cbn [sc_msgs]; rewrite drop_app_length, take_app_length; (split; [|done]).
  - repeat constructor. by exists name.
  - destruct (_ <$> _); repeat constructor; by exists name.
Qed.

Lemma scan_subdir_named f dir sub is_new old st st' : sub = bs "new" \/ sub = bs "cur" -> scan_subdir uninit f dir sub is_new old st = Some st' ->
  Forall (named dir) (sc_msgs st) -> Forall (named dir) (sc_msgs st').
Proof.
  intros Hsub. unfold scan_subdir. remember (dir ++ bs "/" ++ sub) as sd eqn:Esd. cbv zeta. destruct (fs_list f sd) as [names|]; [|done]. intros [= <-].
  revert st. induction names as [|n names IH]; intros st H; cbn [foldl]; [done|]. apply IH.
  destruct (scan_entry_named f sd is_new old st n) as [H1 H2].
  rewrite <- (take_drop (length (sc_msgs st)) (sc_msgs (scan_entry uninit f sd is_new old st n))), H2. apply Forall_app. split; [done|].
  eapply Forall_impl; [exact H1|]. intros m (leaf & Hp & Hl). exists sub, leaf. split; [done|]. rewrite Hp, Esd. by rewrite <- !app_assoc.
Qed.

Lemma hydrate_view fuel msgs rows : map view_id (hydrate fuel msgs rows) = map view_id msgs.
Proof.
  revert msgs rows. induction fuel as [|fuel IH]; intros msgs rows; [done|]. cbn [hydrate]. destruct msgs as [|m ms], rows as [|r rs]; [done..|].
  destruct (im_hdr_loaded m); [cbn [map]; by rewrite IH|]. destruct (_ <? _); [by rewrite IH|]. destruct (_ >? _); cbn [map]; by rewrite IH.
Qed.

(** A peek writes nothing but the sidecars, and its view is of files below the mailbox. *)
Lemma peek_spec f root user name now f' r : imapd_mbox_peek tmp_suffix uninit f root user name now = (f', r) ->
  (imapd_mbox_dir root user name 4096 = None /\ f' = f /\ r = None) \/
  exists dir, imapd_mbox_dir root user name 4096 = Some dir /\ same_files f f' (sidecar dir) /\
    forall mb, r = Some mb -> mb_dir mb = dir /\ view_named mb.
Proof.
  unfold imapd_mbox_peek, mbox_scan. destruct (imapd_mbox_dir root user name 4096) as [dir|]; [|intros [= <- <-]; by left].
  intros H. right. exists dir. split; [done|]. destruct (imapd_mbox_create f dir) as [f1 ok] eqn:Ec. apply create_same in Ec.
  assert (Hf1 : same_files f f1 (sidecar dir)) by (eapply same_files_weaken; [exact Ec|done]).
  destruct ok; cbn [negb] in H; [|injection H as <- <-; by split].
  destruct (uidlist_load _ _ _) as [[uv un] map0].
  match type of H with context [match ?scan with Some _ => _ | None => _ end] => destruct scan as [st|] eqn:Es end; [|injection H as <- <-; by split].
  destruct (mail_hdrs_load _) as [huv hrows]. set (msgs := if _ && _ then hydrate _ _ _ else _) in H.
  assert (Hpaths : Forall (named dir) msgs).
  { assert (Hs : Forall (named dir) (sort_msgs (sc_msgs st))).
    { rewrite (proj1 (sort_msgs_spec _)). destruct (scan_subdir _ _ _ (bs "new") _ _ _) as [st1|] eqn:E1; [|done].
      eapply scan_subdir_named; [by right|exact Es|]. eapply scan_subdir_named; [by left|exact E1|]. constructor. }
    unfold msgs. destruct (_ && _); [|done]. eapply view_id_forall; [apply named_view_id| |exact Hs]. symmetry. apply hydrate_view. }
  destruct (prune _ _ _ _ _ _) as [[map_ tombs] changed]. destruct changed.
  - pose proof (uidlist_save_same f1 dir tombs uv (sc_next st) map_ []) as Hu.
    destruct (imapd_uidlist_save _ _ _ _ _ _ _ _) as [[f2 p] ok2]. cbn [fst] in Hu.
    assert (Hf2 : same_files f f2 (sidecar dir)) by (by eapply same_files_trans). destruct ok2; injection H as <- <-.
    + split; [done|]. by intros mb [= <-].
    + split; [|done]. eapply same_files_trans; [exact Hf2|]. match goal with |- context [imapd_mbox_close _ _ ?mb] => apply (close_same f2 mb) end.
  - injection H as <- <-. split; [done|]. by intros mb [= <-].
Qed.

(** ** Changing flags *)

(** A change of flags renames one file or none. *)
Lemma store_effect f mb uid flags f' mb' ok : imapd_mbox_store f mb uid flags = (f', mb', ok) ->
  mb_dir mb' = mb_dir mb /\ map im_uid (mb_msgs mb') = map im_uid (mb_msgs mb) /\
  ((same_files f f' (fun _ => False) /\ mb' = mb) \/
   exists i m dst, mb_msgs mb !! i = Some m /\ im_uid m = uid /\ below (mb_dir mb) dst /\ fs_read f' dst = fs_read f (im_path m) /\
     is_Some (fs_read f (im_path m)) /\ same_files f f' (fun p => p = im_path m \/ p = dst) /\
     (exists info, imapd_flags_encode flags (im_unk m) 32 = Some info /\ msg_path (mb_dir mb) (bs "cur") (im_base m) info 4160 = Some dst) /\
     exists ms, mb_msgs mb' = <[i := set_flags (set_path m dst) flags ms]> (mb_msgs mb)).
Proof.
  unfold imapd_mbox_store. destruct (imapd_mbox_find mb uid) as [i|] eqn:Ef; [|intros [= <- <- <-]; split; [done|]; split; [done|]; by left].
  apply mbox_find_spec in Ef as (m & Hm & Hu). rewrite Hm.
  destruct (imapd_flags_encode _ _ _) as [info|] eqn:Einf; [|intros [= <- <- <-]; split; [done|]; split; [done|]; by left].
  destruct (msg_path (mb_dir mb) (bs "cur") (im_base m) info 4160) as [dst|] eqn:Ep; [|intros [= <- <- <-]; split; [done|]; split; [done|]; by left].
  assert (Hdst : below (mb_dir mb) dst).
  { unfold msg_path in Ep. cbv zeta in Ep. destruct (_ <=? _); [done|]. injection Ep as <-. by eexists. }
  destruct (fs_rename f (im_path m) dst) as [f1 ok1] eqn:Er. destruct ok1; cbn [negb]; intros [= <- <- <-]; cbn [mb_dir mb_msgs].
  - split; [done|]. split.
    { by apply (map_insert_keeps _ _ _ m). }
    right. exists i, m, dst. split; [done|]. split; [done|]. split; [done|]. split.
    { rewrite (rename_read _ _ _ _ _ _ Er). by rewrite decide_True. }
    split; [by apply (rename_ok _ _ _ _ Er)|]. split; [by apply (rename_same _ _ _ _ _ Er)|]. split; [by exists info|]. by eexists.
  - split; [done|]. split; [done|]. left. split; [|done]. intros p _. by rewrite (rename_read _ _ _ _ _ p Er).
Qed.
End Effects.

(** ** The invariant of a session *)

Fixpoint marks (del : list bool) : Z := match del with [] => 0 | b :: t => (if b then 1 else 0) + marks t end.

Section Session.
Context {N : ImapdNet} `{HF : MailFs} `{L : !MailFsLaws} (srv : ImapdServer) (tmp_suffix : bytes) (uninit : Z).
(** The argument of the command that runs. *)
Context (given : bytes).

Definition inbox_of (user : bytes) : option bytes := imapd_mbox_dir (ic_root (is_cfg srv)) user (bs "INBOX") 4096.

(** The mailbox a view is of, and where its messages are. *)
Record box_ok (user : bytes) (mb : Mbox) : Prop := {
  bo_dir : inbox_of user = Some (mb_dir mb);
  bo_paths : Forall (fun m => below (mb_dir mb) (im_path m)) (mb_msgs mb)
}.

Record pop_ok (c : Pop) : Prop := {
  po_auth : pp_pst c = PO_AUTH -> pp_mb c = None;
  po_trans : pp_pst c = PO_TRANS -> io_closed (pp_io c) = true \/ is_Some (pp_mb c);
  po_mb : forall mb, pp_mb c = Some mb -> (exists user, pp_user c = Some user /\ box_ok user mb) /\
            length (pp_del c) = length (mb_msgs mb) /\ pp_ndel c = marks (pp_del c);
  po_none : pp_mb c = None -> pp_del c = [] /\ pp_ndel c = 0;
  po_pend : forall user, pp_pend c = Some user -> imapd_user_ok user = true;
  po_gen : forall g, pp_gen c = Some g -> io_closed (pp_io c) = true \/ exists said0, gen_ok said0 c g;
  po_tls : imapd_tls_handshaking (pp_io c) = true -> pp_pst c = PO_AUTH
}.

Lemma tls_same a b : io_tls b = io_tls a -> imapd_tls_handshaking b = imapd_tls_handshaking a.
Proof. unfold imapd_tls_handshaking. by intros ->. Qed.

(** What a command other than QUIT can do to the mail. *)
Inductive effect (w : Mail) (c : Pop) (w' : Mail) (c' : Pop) : Prop :=
  | eff_talk : same_files (ml_fs w) (ml_fs w') (fun _ => False) -> pp_mb c' = pp_mb c -> pp_user c' = pp_user c -> pp_pst c' = pp_pst c ->
      effect w c w' c'
  | eff_open user : pp_pst c = PO_AUTH -> pp_pend c = Some user -> cleartext_ok srv c = true ->
      (imapd_auth_blocked (ml_fails w) (io_ip (pp_io c)) (n_time (ml_net w)).2).2 = false ->
      imapd_auth_check (is_creds srv) user given = true ->
      same_files (ml_fs w) (ml_fs w') (fun p => exists dir, inbox_of user = Some dir /\ sidecar dir p) ->
      (pp_mb c' = None /\ pp_pst c' = PO_AUTH \/ exists mb, pp_mb c' = Some mb /\ pp_user c' = Some user /\ pp_pst c' = PO_TRANS /\ view_named mb) ->
      effect w c w' c'
  | eff_seen mb mb' (i : nat) m dst : pp_mb c = Some mb -> pp_mb c' = Some mb' -> pp_user c' = pp_user c -> pp_pst c' = pp_pst c ->
      mb_dir mb' = mb_dir mb -> map im_uid (mb_msgs mb') = map im_uid (mb_msgs mb) -> mb_msgs mb !! i = Some m -> below (mb_dir mb) dst ->
      (same_files (ml_fs w) (ml_fs w') (fun _ => False) /\ map view_id (mb_msgs mb') = map view_id (mb_msgs mb) \/
       is_Some (fs_read (ml_fs w) (im_path m)) /\ fs_read (ml_fs w') dst = fs_read (ml_fs w) (im_path m) /\
       same_files (ml_fs w) (ml_fs w') (fun p => p = im_path m \/ p = dst) /\ seen_name (mb_dir mb) m dst /\
       map view_id (mb_msgs mb') = map view_id (<[i := set_path m dst]> (mb_msgs mb))) ->
      effect w c w' c'.

Lemma effect_net w c w1 c1 w' c' : effect w c w1 c1 -> net_only w1 w' -> quiet (pp_set_gen (pp_gen c') c1) c' -> effect w c w' c'.
Proof.
  intros He (Hf & _ & _) (io & -> & _). destruct He; [eapply eff_talk|eapply eff_open|eapply eff_seen]; rewrite ?Hf; eauto.
Qed.

Lemma quiet_gen_quiet c c' : quiet c c' -> quiet (pp_set_gen (pp_gen c') c) c'.
Proof. intros (io & -> & Hs). exists io. split; [by destruct c|done]. Qed.

Lemma quiet_gen_id c c' : quiet c c' -> pp_gen c' = pp_gen c.
Proof. by intros (io & -> & _). Qed.

Lemma pop_ok_quiet c c' : pop_ok c -> pp_gen c = None -> quiet c c' -> pop_ok c'.
Proof.
  intros [O1 O2 O3 O4 O5 O6 O7] Hg (io & -> & (_ & _ & Htls & _ & _ & Hcl)). split; try done; cbn.
  - intros Ht. destruct (O2 Ht) as [H|H]; [left; by apply Hcl|by right].
  - intros g Hgs. congruence.
  - by rewrite (tls_same _ _ Htls).
Qed.

(** A command keeps the promises: it returns, leaves the pending input alone, keeps the
    invariant, and does one of the things above. *)
Definition keeps (c : Pop) (m : prog Mail Pop) : Prop := forall w, wp m (fun w' o => exists c', o = Some c' /\
  io_in (pp_io c') = io_in (pp_io c) /\ pop_ok c' /\ effect w c w' c') w.

Lemma quiet_in c c' : quiet c c' -> io_in (pp_io c') = io_in (pp_io c).
Proof. by intros (io & -> & (_ & E & _)). Qed.

(** Talking, after a change that does not touch the mailbox. *)
Lemma keeps_talks c c1 m : pop_ok c1 -> pp_gen c1 = None -> talks c1 m ->
  pp_io c1 = pp_io c -> pp_mb c1 = pp_mb c -> pp_user c1 = pp_user c -> pp_pst c1 = pp_pst c -> keeps c m.
Proof.
  intros Hok Hg Ht Hio Hmb Hus Hps w. apply (wp_talks_end c1); [done|]. intros w' c' Hw Hq. exists c'. split; [done|].
  split; [rewrite (quiet_in _ _ Hq); by rewrite Hio|]. split; [by eapply pop_ok_quiet|].
  eapply (effect_net w c w c1); [|done|by apply quiet_gen_quiet]. by apply eff_talk.
Qed.

Lemma keeps_talk c m : pop_ok c -> pp_gen c = None -> talks c m -> keeps c m.
Proof. intros Hok Hg Ht. by eapply keeps_talks. Qed.

Lemma marks_insert del i : nth i del false = false -> (i < length del)%nat -> marks (<[i := true]> del) = marks del + 1.
Proof.
  revert i. induction del as [|b del IH]; intros [|i] Hn Hi; cbn in *; try lia; [subst b; lia|].
  rewrite IH; [lia|done|lia].
Qed.

Lemma marks_clear (del : list bool) : marks (map (fun _ => false) del) = 0.
Proof. by induction del. Qed.
Lemma marks_fresh n : marks (replicate n false) = 0.
Proof. by induction n. Qed.

Lemma pop_ok_del c d : pop_ok c -> length d = length (pp_del c) -> pop_ok (pp_set_del d (marks d) c).
Proof.
  intros [O1 O2 O3 O4 O5 O6 O7] Hl. split; cbn; try done.
  - intros mb Hmb. destruct (O3 mb Hmb) as (H1 & H2 & _). split; [done|]. split; [congruence|done].
  - intros Hn. destruct (O4 Hn) as [H _]. rewrite H in Hl. by destruct d.
  - intros g Hg. destruct (O6 g Hg) as [?|(said0 & Hok)]; [by left|]. right. exists said0. by apply (gen_ok_io _ c).
Qed.

Lemma pop_ok_pend c u : pop_ok c -> (forall user, u = Some user -> imapd_user_ok user = true) -> pp_gen c = None -> pop_ok (pp_set_pend u c).
Proof. intros [O1 O2 O3 O4 O5 O6 O7] Hu Hg. split; cbn; try done. intros g Hgs. congruence. Qed.

Lemma pop_ok_io c io : pop_ok c -> pp_gen c = None -> (io_closed (pp_io c) = true -> io_closed io = true) ->
  io_tls io = io_tls (pp_io c) \/ pp_pst c = PO_AUTH -> pop_ok (pp_set_io io c).
Proof.
  intros [O1 O2 O3 O4 O5 O6 O7] Hg Hcl Htls. split; cbn; try done.
  - intros Ht. destruct (O2 Ht) as [H|H]; [left; by apply Hcl|by right].
  - intros g Hgs. congruence.
  - destruct Htls as [Htls|Hp]; [|done]. by rewrite (tls_same _ _ Htls).
Qed.

Lemma keeps_reset c : pop_ok c -> pp_gen c = None -> keeps c (pop_reply (pop3_reset_deleted c) (bs "+OK" ++ CRLF)).
Proof.
  intros Hok Hg. eapply (keeps_talks c); [| |apply talks_reply|..]; try done. unfold pop3_reset_deleted.
  rewrite <- (marks_clear (pp_del c)). apply pop_ok_del; [done|]. apply length_map.
Qed.

Lemma keeps_dele c arg : pop_ok c -> pp_gen c = None -> keeps c (cmd_dele c arg).
Proof.
  intros Hok Hg. unfold cmd_dele. destruct (is_nil arg); [by apply keeps_talk, talks_err|]. destruct (parse_ulong arg) as [n|]; [|by apply keeps_talk, talks_err].
  destruct (_ || _) eqn:Hr; [by apply keeps_talk, talks_err|]. destruct (nth _ _ _) eqn:En; [by apply keeps_talk, talks_err|].
  eapply (keeps_talks c); [| |apply talks_reply|..]; try done.
  apply orb_false_iff in Hr as [H1 H2]. apply Z.ltb_ge in H1. rewrite Z.gtb_ltb in H2. apply Z.ltb_ge in H2.
  unfold nmsgs, mb_messages in H2. destruct (pp_mb c) as [mb|] eqn:Emb; [|cbn in H2; lia].
  destruct (po_mb c Hok mb Emb) as (_ & Hlen & Hn). rewrite Hn, <- (marks_insert (pp_del c) (Z.to_nat (n - 1))); [|done|change (n <= Z.of_nat (length (mb_msgs mb))) in H2; lia].
  apply pop_ok_del; [done|]. apply length_insert.
Qed.

Lemma keeps_user c arg : pop_ok c -> pp_gen c = None -> keeps c (cmd_user srv c arg).
Proof.
  intros Hok Hg. unfold cmd_user. destruct (pp_pst c); [|by apply keeps_talk, talks_err].
  destruct (cleartext_ok srv c); cbn [negb]; [|by apply keeps_talk, talks_err]. destruct (is_nil arg); [by apply keeps_talk, talks_err|].
  destruct (imapd_user_ok arg) eqn:Eu; cbn [negb orb]; [|by apply keeps_talk, talks_err].
  eapply (keeps_talks c); [| |apply talks_reply|..]; try done. apply pop_ok_pend; [done| |done]. by intros user [= <-].
Qed.

Lemma keeps_stls c : pop_ok c -> pp_gen c = None -> keeps c (cmd_stls srv c).
Proof.
  intros Hok Hg. unfold cmd_stls. destruct (pp_pst c) eqn:Ep; [|by apply keeps_talk, talks_err].
  destruct (imapd_tls_established _); [by apply keeps_talk, talks_err|]. destruct (is_nil (io_in (pp_io c))); cbn [negb]; [|by apply keeps_talk, talks_err].
  destruct (imapd_tls_available srv); cbn [negb]; [|by apply keeps_talk, talks_err].
  intros w. unfold imapd_tls_start, on_net. unfold wp, mbind, prog_bind. destruct (ssl_setup (ml_net w) _) as [n [h|]]; cbn [mret prog_ret fst snd negb].
  - match goal with |- context [pop_reply ?c1 ?t ?w1] => destruct (talks_reply c1 t w1) as (w' & c' & E & Hw & Hq); rewrite E;
      exists c'; split; [done|]; assert (Hok1 : pop_ok c1) by (apply pop_ok_io; auto) end.
    split; [by rewrite (quiet_in _ _ Hq)|]. split; [by eapply pop_ok_quiet|].
    eapply (effect_net w c); [|exact Hw|by apply quiet_gen_quiet]. by apply eff_talk.
  - match goal with |- context [pop3_err ?c1 ?t ?w1] => destruct (talks_err c1 t w1) as (w' & c' & E & Hw & Hq); rewrite E;
      exists c'; split; [done|]; assert (Hok1 : pop_ok c1) by (apply pop_ok_io; auto) end.
    split; [by rewrite (quiet_in _ _ Hq)|]. split; [by eapply pop_ok_quiet|].
    eapply (effect_net w c); [|exact Hw|by apply quiet_gen_quiet]. by apply eff_talk.
Qed.

(** ** PASS *)

(** The session after an effect and a reply. *)
Lemma effect_then w c w1 c1 (m : prog Mail Pop) : pop_ok c1 -> pp_gen c1 = None -> io_in (pp_io c1) = io_in (pp_io c) -> effect w c w1 c1 ->
  talks c1 m -> wp m (fun w' o => exists c', o = Some c' /\ io_in (pp_io c') = io_in (pp_io c) /\ pop_ok c' /\ effect w c w' c') w1.
Proof.
  intros Hok Hg Hin He Ht. apply (wp_talks_end c1); [done|]. intros w' c' Hw Hq. exists c'. split; [done|].
  split; [by rewrite (quiet_in _ _ Hq)|]. split; [by eapply pop_ok_quiet|]. eapply effect_net; [exact He|done|by apply quiet_gen_quiet].
Qed.

Lemma refused_keeps w c w1 msg : pop_ok c -> pp_gen c = None -> same_files (ml_fs w) (ml_fs w1) (fun _ => False) ->
  wp (pass_refused c msg) (fun w' o => exists c', o = Some c' /\ io_in (pp_io c') = io_in (pp_io c) /\ pop_ok c' /\ effect w c w' c') w1.
Proof.
  intros Hok Hg Hf. unfold pass_refused. apply (wp_talks c); [apply talks_err|]. intros w' c' (Ef & _) Hq. apply wp_ret. exists (pp_set_pend None c').
  split; [done|]. split; [by rewrite <- (quiet_in _ _ Hq)|]. split.
  - apply pop_ok_pend; [by eapply pop_ok_quiet|done|]. by rewrite (quiet_gen_id _ _ Hq).
  - destruct Hq as (io & -> & _). apply eff_talk; try done. by rewrite Ef.
Qed.

(** The mailbox of a user who gave the right password. *)
Lemma opened_keeps w c w1 user : pop_ok c -> pp_gen c = None -> imapd_tls_handshaking (pp_io c) = false -> pp_pst c = PO_AUTH -> pp_pend c = Some user ->
  cleartext_ok srv c = true -> (imapd_auth_blocked (ml_fails w) (io_ip (pp_io c)) (n_time (ml_net w)).2).2 = false ->
  imapd_auth_check (is_creds srv) user given = true -> ml_fs w1 = ml_fs w ->
  let c1 := pp_set_pend None (pp_set_user (Some user) c) in
  wp (r ← open_inbox srv tmp_suffix uninit c1 user;
      match r with
      | None => pop3_err (pp_set_user None c1) (bs "Cannot open mailbox")
      | Some c => pop_reply (pp_set_pst PO_TRANS c) (bs "+OK mailbox locked and ready" ++ CRLF)
      end) (fun w' o => exists c', o = Some c' /\ io_in (pp_io c') = io_in (pp_io c) /\ pop_ok c' /\ effect w c w' c') w1.
Proof.
  cbv zeta. intros Hok Hg Hhs Hp Hu Hclr Hb Hchk Hf1. apply wp_bind. unfold open_inbox. apply wp_bind. unfold on_net at 1. unfold wp at 1.
  destruct (n_time (ml_net w1)) as [n1 now]. cbn [fst snd]. apply wp_bind. unfold on_fs, wp at 1. cbn [ml_fs]. rewrite Hf1.
  destruct (imapd_mbox_peek _ _ _ _ _ _ _) as [f2 r] eqn:Epk. cbn [fst snd]. apply wp_ret. apply peek_spec in Epk.
  pose proof (po_auth c Hok Hp) as Hnone. destruct (po_none c Hok Hnone) as [Hdel Hnd].
  assert (Hfiles : same_files (ml_fs w) f2 (fun p => exists dir, inbox_of user = Some dir /\ sidecar dir p)).
  { destruct Epk as [(_ & -> & _)|(dir & Hd & Hs & _)]; [done|]. eapply same_files_weaken; [exact Hs|]. intros p Hsc. by exists dir. }
  destruct r as [mb|]; cbn [mbind option_bind].
  - destruct Epk as [(_ & _ & ?)|(dir & Hd & _ & Hmb)]; [done|]. destruct (Hmb mb eq_refl) as [Hdir Hnamed].
    assert (Hpaths : Forall (fun m => below (mb_dir mb) (im_path m)) (mb_msgs mb)) by (eapply Forall_impl; [exact Hnamed|apply named_below]).
    eapply effect_then; [| | | |apply talks_reply]; [|done|done|eapply eff_open; eauto; right; by exists mb].
    split; cbn; try done; [by right; eexists| |congruence|congruence].
    intros mb' [= <-]. split; [|split; [apply length_replicate|by rewrite marks_fresh]].
    exists user. split; [done|]. split; [by rewrite Hdir|done].
  - eapply effect_then; [| | | |apply talks_err]; [|done|done|eapply eff_open; eauto].
    destruct Hok as [O1 O2 O3 O4 O5 O6 O7]. split; cbn; try done; congruence.
Qed.

Lemma keeps_pass c : pop_ok c -> pp_gen c = None -> imapd_tls_handshaking (pp_io c) = false -> keeps c (cmd_pass srv tmp_suffix uninit c given).
Proof.
  intros Hok Hg Hhs. unfold cmd_pass. destruct (pp_pst c) eqn:Hp; [|by apply keeps_talk, talks_err]. intros w.
  destruct (cleartext_ok srv c) eqn:Hclr; cbn [negb]; [|by apply refused_keeps]. destruct (pp_pend c) as [user|] eqn:Hu; [|by apply refused_keeps].
  destruct (is_nil given); [by apply refused_keeps|]. apply wp_bind. unfold on_net at 1. unfold wp at 1.
  destruct (n_time (ml_net w)) as [n1 now] eqn:Et. cbn [fst snd]. apply wp_bind. unfold on_ips at 1. unfold wp at 1. cbn [ml_fails ml_net ml_fs ml_count].
  destruct (imapd_auth_blocked (ml_fails w) _ now) as [l blocked] eqn:Eb. cbn [fst snd]. destruct blocked; [by apply refused_keeps|].
  destruct (imapd_auth_check (is_creds srv) user given) eqn:Ec; cbn [negb].
  - apply wp_bind. unfold on_ips at 1. unfold wp at 1. cbn [fst snd]. apply (opened_keeps _ _ _ user); try done. rewrite Et. cbn [snd]. by rewrite Eb.
  - apply wp_bind. unfold on_net at 1. unfold wp at 1. cbn [ml_net]. destruct (n_time n1) as [n2 now2]. cbn [fst snd].
    apply wp_bind. unfold on_ips at 1. unfold wp at 1. cbn [fst snd]. by apply refused_keeps.
Qed.

(** ** RETR and TOP *)

(** Pumping, behind an effect. *)
Lemma effect_pump w c w1 c1 said0 g : pop_ok c1 -> io_in (pp_io c1) = io_in (pp_io c) -> effect w c w1 c1 ->
  pp_gen c1 = Some g -> gen_ok said0 c1 g ->
  wp (imapd_pop3_pump c1) (fun w' o => exists c', o = Some c' /\ io_in (pp_io c') = io_in (pp_io c) /\ pop_ok c' /\ effect w c w' c') w1.
Proof.
  intros Hok Hin He Hgen Hg. destruct (pump_spec said0 c1 g w1 Hgen Hg) as (w' & c' & E & Hw & g' & _ & Hq & Hm). unfold wp. rewrite E.
  exists c'. split; [done|]. split; [by rewrite (quiet_in _ _ Hq)|]. split; [|by eapply effect_net].
  destruct Hok as [O1 O2 O3 O4 O5 O6 O7]. destruct Hq as (io & Ec & (_ & _ & Htls & _ & _ & Hcl)). rewrite Ec in Hm |- *. cbn in Hm, Hcl. split; cbn; try done.
  - intros Ht. destruct (O2 Ht) as [H|H]; [left; by apply Hcl|by right].
  - intros g1 Hg1. rewrite Hg1 in Hm. destruct Hm as [-> [H|H]]; [by left|]. right. exists said0. eapply gen_ok_io; [exact H|done].
  - by rewrite (tls_same _ _ Htls).
Qed.

Lemma pop_ok_gen c g said0 : pop_ok c -> gen_ok said0 c g -> pop_ok (pp_set_gen (Some g) c).
Proof.
  intros [O1 O2 O3 O4 O5 O6 O7] Hg. split; cbn; try done. intros g1 [= <-]. right. exists said0. by apply (gen_ok_io _ c).
Qed.

Lemma start_retr_keeps f c m top c0 : pop_ok c -> start_retr f c m top = Some c0 -> (forall n, top = Some n -> 0 <= n) ->
  exists g said0, c0 = pp_set_gen (Some g) c /\ gen_ok said0 c0 g /\ pop_ok c0.
Proof.
  intros Hok Hs Htop. destruct (start_retr_ok f c m top c0 Hs Htop) as (file & g & _ & Hgen & _ & Hio & Hg).
  assert (Hc0 : c0 = pp_set_gen (Some g) c).
  { unfold start_retr in Hs. destruct (fs_read f (im_path m)); [|done]. injection Hs as <-. cbn in Hgen. by injection Hgen as <-. }
  exists g, (io_said (pp_io c)). split; [done|]. split; [done|]. rewrite Hc0. eapply pop_ok_gen; [done|]. apply (gen_ok_io _ c0); [done|]. by rewrite Hio.
Qed.

Lemma digits_nonneg s v r v' : 0 <= v -> ulong_digits s v = Some (v', r) -> 0 <= v'.
Proof.
  revert v. induction s as [|c s IH]; intros v Hv; cbn [ulong_digits]; [by intros [= <- _]|].
  destruct (is_digit c) eqn:Ed; [|by intros [= <- _]]. destruct (_ >? _); [done|]. apply IH.
  unfold is_digit in Ed. apply andb_true_iff in Ed as [Ed _]. apply Z.leb_le in Ed. lia.
Qed.

Lemma ulong_nonneg s n : parse_ulong s = Some n -> 0 <= n.
Proof.
  unfold parse_ulong. destruct (skip_sp s) as [|c t]; [done|]. destruct (negb _); [done|]. destruct (ulong_digits _ _) as [[v r]|] eqn:E; [|done].
  apply digits_nonneg in E; [|lia]. cbn. destruct r as [|x r]; [by intros [= <-]|]. destruct (x =? SP); [by intros [= <-]|done].
Qed.

(** The comment of [parse_ulong] says strictly positive. *)
Lemma zero_is_parsed : parse_ulong (bs "0") = Some 0.
Proof. reflexivity. Qed.

Lemma keeps_top c arg : pop_ok c -> pp_gen c = None -> keeps c (cmd_top c arg).
Proof.
  intros Hok Hg. unfold cmd_top. destruct (is_nil arg); [by apply keeps_talk, talks_err|]. cbv zeta.
  destruct (parse_ulong _) as [n|]; [|by apply keeps_talk, talks_err]. destruct (mbind _ _) as [m|]; [|by apply keeps_talk, talks_err].
  destruct (parse_ulong _) as [lines|] eqn:El; [|by apply keeps_talk, talks_err]. intros w. apply wp_bind, wp_gets. cbv beta.
  destruct (start_retr (ml_fs w) c m (Some lines)) as [c0|] eqn:Es; [|by apply keeps_talk, talks_err].
  destruct (start_retr_keeps _ _ _ _ _ Hok Es) as (g & said0 & -> & Hgo & Hok0); [intros k [= <-]; by eapply ulong_nonneg|].
  eapply effect_pump; [done|done|by apply eff_talk|done|done].
Qed.

(** A view with other flags and paths below the mailbox. *)
Lemma pop_ok_mb c mb mb' : pop_ok c -> pp_mb c = Some mb -> mb_dir mb' = mb_dir mb -> length (mb_msgs mb') = length (mb_msgs mb) ->
  Forall (fun m => below (mb_dir mb) (im_path m)) (mb_msgs mb') -> pop_ok (pp_set_mb (Some mb') c).
Proof.
  intros [O1 O2 O3 O4 O5 O6 O7] Hmb Hd Hl Hp. split; cbn; try done.
  - intros Hps. specialize (O1 Hps). congruence.
  - intros _. right. by eexists.
  - intros x [= <-]. destruct (O3 mb Hmb) as ((user & Hu & [B1 B2]) & Hlen & Hn). split; [|split; [congruence|done]].
    exists user. split; [done|]. by split; rewrite Hd.
  - intros g Hg. destruct (O6 g Hg) as [?|(said0 & Hgo)]; [by left|]. right. exists said0. by apply (gen_ok_io _ c).
Qed.

Lemma mark_seen_keeps w c i : pop_ok c ->
  exists w' c', mark_seen c i w = (w', Some c') /\ pp_io c' = pp_io c /\ pp_gen c' = pp_gen c /\ pop_ok c' /\ effect w c w' c'.
Proof.
  intros Hok. unfold mark_seen.
  assert (Hskip : exists w' c', @mret (prog Mail) _ _ c w = (w', Some c') /\ pp_io c' = pp_io c /\ pp_gen c' = pp_gen c /\ pop_ok c' /\ effect w c w' c').
  { exists w, c. do 3 (split; [done|]). split; [done|]. by apply eff_talk. }
  destruct (pp_mb c) as [mb|] eqn:Emb; [|exact Hskip]. cbn [mbind option_bind]. destruct (mb_msgs mb !! i) as [m|] eqn:Em; [|exact Hskip].
  cbn [mbind option_bind]. destruct (_ =? 0); [|exact Hskip]. clear Hskip. set (flags := Z.lor _ _). set (mb1 := with_msgs mb _).
  unfold mbind, prog_bind, on_fs. destruct (imapd_mbox_store (ml_fs w) mb1 (im_uid m) flags) as [[f' mb'] ok] eqn:Est.
  destruct (po_mb c Hok mb Emb) as ((user & Hu & [Bdir Bpaths]) & Hlen & Hn).
  assert (Hid : map view_id (mb_msgs mb1) = map view_id (mb_msgs mb)) by (by apply (map_insert_keeps _ _ _ m)).
  assert (Hp1 : Forall (fun m => below (mb_dir mb) (im_path m)) (mb_msgs mb1)) by (eapply view_id_paths; [symmetry; exact Hid|exact Bpaths]).
  apply store_effect in Est as (Hdir & Huids & Hcase). change (mb_dir mb1) with (mb_dir mb) in *.
  eexists _, (pp_set_mb (Some mb') c). split; [reflexivity|]. split; [done|]. split; [done|]. cbn [mret prog_ret].
  assert (Hlen' : length (mb_msgs mb') = length (mb_msgs mb)).
  { apply (f_equal (@length Z)) in Huids. rewrite !length_map in Huids. rewrite Huids. unfold mb1. cbn. apply length_insert. }
  assert (Huids' : map im_uid (mb_msgs mb') = map im_uid (mb_msgs mb)) by (rewrite Huids; by apply view_id_uids).
  destruct Hcase as [[Hsame Emb']|(j & m1 & dst & Hj & Hu1 & Hdst & Hrd & Hsome & Hsame & (info & Hinfo & Hpath) & ms & Hmsgs)].
  - split; [eapply pop_ok_mb; eauto; by rewrite Emb'|]. eapply (eff_seen _ _ _ _ mb mb' i m (im_path m)); try done; [|by left; rewrite Emb'].
    exact (Forall_lookup_1 _ _ _ _ Bpaths Em).
  - split.
    + eapply pop_ok_mb; eauto. rewrite Hmsgs. by apply Forall_insert.
    + assert (exists m0, mb_msgs mb !! j = Some m0 /\ view_id m0 = view_id m1 /\ im_unk m0 = im_unk m1) as (m0 & Hm0 & Hv & Hunk).
      { unfold mb1 in Hj. cbn [with_msgs mb_msgs] in Hj. destruct (decide (j = i)) as [->|Hne].
        - rewrite list_lookup_insert_eq in Hj by by eapply lookup_lt_Some. injection Hj as <-. by exists m.
        - rewrite list_lookup_insert_ne in Hj by done. by exists m1. }
      unfold view_id in Hv. injection Hv as _ Hb Hp. eapply (eff_seen _ _ _ _ mb mb' j m0 dst); try done. right. rewrite Hp. do 3 (split; [done|]). split.
      * exists flags, info. rewrite Hunk, Hb. split; [|done]. unfold flags. by rewrite <- Z.lor_assoc, Z.lor_diag.
      * rewrite Hmsgs, !list_fmap_insert. unfold mb1. cbn [with_msgs mb_msgs]. f_equal; [|exact Hid].
        assert (Hu0 : im_uid m0 = im_uid m1) by (apply (f_equal (.!! j)) in Hid; rewrite !list_lookup_fmap, Hj, Hm0 in Hid; by injection Hid).
        unfold view_id. cbn. by rewrite Hu0, Hb.
Qed.

Lemma effect_gen w c g w' c' : effect w (pp_set_gen g c) w' c' -> effect w c w' c'.
Proof. intros []; [eapply eff_talk|eapply eff_open|eapply eff_seen]; eauto. Qed.

Lemma keeps_retr c arg : pop_ok c -> pp_gen c = None -> keeps c (cmd_retr c arg).
Proof.
  intros Hok Hg. unfold cmd_retr. destruct (is_nil arg); [by apply keeps_talk, talks_err|].
  destruct (parse_ulong _) as [n|]; [|by apply keeps_talk, talks_err]. destruct (mbind _ _) as [[i m]|]; [|by apply keeps_talk, talks_err].
  intros w. apply wp_bind, wp_gets. cbv beta.
  destruct (start_retr (ml_fs w) c m None) as [c0|] eqn:Es; [|by apply keeps_talk, talks_err].
  destruct (start_retr_keeps _ _ _ _ _ Hok Es) as (g & said0 & -> & Hgo & Hok0); [by intros k [=]|].
  destruct (mark_seen_keeps w (pp_set_gen (Some g) c) i Hok0) as (w1 & c1 & E & Hio & Hgen & Hok1 & He). apply wp_bind. unfold wp. rewrite E.
  eapply effect_pump; [done|by rewrite Hio|by eapply effect_gen|by rewrite Hgen|]. eapply gen_ok_io; [exact Hgo|by rewrite Hio].
Qed.

(** ** Every command but QUIT *)

Definition word_of (line : bytes) : bytes := take_while (fun x => negb (x =? SP)) (skip_sp line).
Definition arg_of (line : bytes) : bytes := skip_sp (drop_while (fun x => negb (x =? SP)) (skip_sp line)).

Lemma command_keeps c line : pop_ok c -> pp_gen c = None -> imapd_tls_handshaking (pp_io c) = false -> word_eq (word_of line) (bs "QUIT") = false -> arg_of line = given ->
  keeps c (pop3_command srv tmp_suffix uninit c line).
Proof.
  intros Hok Hg Hhs Hq Harg. unfold pop3_command. cbv zeta. fold (word_of line). fold (arg_of line). rewrite Hq, Harg. set (word := word_of line).
  destruct (_ || _); [by apply keeps_talk, talks_err|]. destruct (word_eq word (bs "NOOP")); [by apply keeps_talk, talks_reply|].
  destruct (word_eq word (bs "RSET")); [by apply keeps_reset|]. destruct (word_eq word (bs "CAPA")); [by apply keeps_talk, talks_capa|].
  destruct (word_eq word (bs "STLS")); [by apply keeps_stls|]. destruct (word_eq word (bs "USER")); [by apply keeps_user|].
  destruct (word_eq word (bs "PASS")); [by apply keeps_pass|]. destruct (pp_pst c); [by apply keeps_talk, talks_err|].
  destruct (word_eq word (bs "STAT")); [by apply keeps_talk, talks_replyf|]. destruct (word_eq word (bs "LIST")); [by apply keeps_talk, talks_cmd_listing|].
  destruct (word_eq word (bs "UIDL")); [by apply keeps_talk, talks_cmd_listing|]. destruct (word_eq word (bs "RETR")); [by apply keeps_retr|].
  destruct (word_eq word (bs "DELE")); [by apply keeps_dele|]. destruct (word_eq word (bs "TOP")); [by apply keeps_top|]. by apply keeps_talk, talks_err.
Qed.
End Session.

(** ** What the commands promise *)

Section Claims.
Context {N : ImapdNet} `{HF : MailFs} `{L : !MailFsLaws} (srv : ImapdServer) (tmp_suffix : bytes) (uninit : Z).

Lemma quit_pst c w : exists w' c', pop3_quit tmp_suffix c w = (w', Some c') /\ pp_pst c' = pp_pst c /\ pp_mb c' = None /\ pp_user c' = pp_user c /\
  io_closed (pp_io c') = true /\ io_in (pp_io c') = io_in (pp_io c) /\ io_tls (pp_io c') = io_tls (pp_io c) /\ pp_del c' = [] /\ pp_ndel c' = 0 /\ pp_pend c' = pp_pend c /\ pp_gen c' = pp_gen c /\
  ml_fs w' = match pp_mb c with
             | None => ml_fs w
             | Some mb => let '(f, mb) := quit_loop (length (mb_msgs mb)) (ml_fs w) mb (pp_del c) in imapd_mbox_close tmp_suffix f mb
             end.
Proof.
  unfold pop3_quit, mbind, prog_bind, on_fs. destruct (pp_mb c) as [mb|] eqn:Emb.
  - destruct (quit_loop _ _ _ _) as [f mb']. cbn [mret prog_ret].
    match goal with |- context [pop_reply ?c1 ?t ?w1] => destruct (talks_reply c1 t w1) as (w' & c' & E & (Ef & _) & (io & -> & (_ & Ei & Et & _))) end.
    rewrite E. eexists _, _. split; [reflexivity|]. rewrite Ef. cbn in *. by rewrite Ei, Et.
  - cbn [mret prog_ret].
    match goal with |- context [pop_reply ?c1 ?t ?w1] => destruct (talks_reply c1 t w1) as (w' & c' & E & (Ef & _) & (io & -> & (_ & Ei & Et & _))) end.
    rewrite E. eexists _, _. split; [reflexivity|]. rewrite Ef. cbn in *. by rewrite Ei, Et.
Qed.

(** C20: the only way into a mailbox is PASS. When a command takes a session from the
    authorisation to the transaction state, it gave a password that the check accepts
    for the pending user, over a connection on which cleartext logins are permitted and
    from an address that was not locked out, and the view is of the INBOX of that user. *)
Theorem pop3_auth_gate (c : Pop) (line : bytes) (w w' : Mail) (c' : Pop)
    (Hok : pop_ok srv c) (Hgen : pp_gen c = None) (Hhs : imapd_tls_handshaking (pp_io c) = false) (Hauth : pp_pst c = PO_AUTH)
    (Hrun : pop3_command srv tmp_suffix uninit c line w = (w', Some c')) (Htrans : pp_pst c' = PO_TRANS) :
  exists user mb, pp_pend c = Some user /\ imapd_user_ok user = true /\ cleartext_ok srv c = true /\
    imapd_auth_check (is_creds srv) user (arg_of line) = true /\
    (imapd_auth_blocked (ml_fails w) (io_ip (pp_io c)) (n_time (ml_net w)).2).2 = false /\
    pp_user c' = Some user /\ pp_mb c' = Some mb /\ imapd_mbox_dir (ic_root (is_cfg srv)) user (bs "INBOX") 4096 = Some (mb_dir mb).
Proof.
  destruct (word_eq (word_of line) (bs "QUIT")) eqn:Eq.
  - unfold pop3_command in Hrun. cbv zeta in Hrun. fold (word_of line) in Hrun. rewrite Eq in Hrun. destruct (_ || _).
    + destruct (talks_err c (bs "Command not recognized") w) as (w1 & c1 & E & _ & (io & -> & _)). rewrite E in Hrun. injection Hrun as _ <-.
      cbn in Htrans. congruence.
    + destruct (quit_pst c w) as (w1 & c1 & E & Ep & _). rewrite E in Hrun. injection Hrun as _ <-. congruence.
  - pose proof (wp_use _ _ _ _ _ (command_keeps srv tmp_suffix uninit (arg_of line) c line Hok Hgen Hhs Eq eq_refl w) Hrun) as (c1 & [= <-] & _ & Hok' & He).
    destruct He as [_ _ _ E|user _ Hp Hcl Hb Hchk _ [[_ E]|(mb & Hmb & Hu & _)]|mb mb' i m dst _ _ _ E]; [congruence|congruence| |congruence].
    exists user, mb. destruct (po_mb _ c' Hok' mb Hmb) as ((u & Hu' & [Hd _]) & _). rewrite Hu in Hu'. injection Hu' as <-.
    by pose proof (po_pend _ c Hok user Hp).
Qed.

(** A mailbox is opened with each message of the view at a name of its base. *)
Lemma pop3_opens_named (c : Pop) (line : bytes) (w w' : Mail) (c' : Pop)
    (Hok : pop_ok srv c) (Hgen : pp_gen c = None) (Hhs : imapd_tls_handshaking (pp_io c) = false) (Hword : word_eq (word_of line) (bs "QUIT") = false)
    (Hmb : pp_mb c = None) (Hrun : pop3_command srv tmp_suffix uninit c line w = (w', Some c')) mb :
  pp_mb c' = Some mb -> view_named mb.
Proof.
  pose proof (wp_use _ _ _ _ _ (command_keeps srv tmp_suffix uninit (arg_of line) c line Hok Hgen Hhs Hword eq_refl w) Hrun) as (c1 & [= <-] & _ & _ & He).
  intros Hc. destruct He as [_ E _ _|user _ _ _ _ _ _ [[E _]|(mb1 & E & _ & _ & Hn)]|mb1 mb' i m dst E]; [congruence..| |congruence].
  rewrite Hc in E. by injection E as ->.
Qed.

End Claims.
