(* ===== verification/Pop3QuitSpec.v ===== *)
(** * QUIT, and whole rounds of a POP3 session

    QUIT expunges the marked messages and no others; whatever bytes a client sends, a
    round of its session returns, keeps the invariant and stays below the mailboxes it
    was let into. *)

From S2P Require Import Prelude MailLines Json Prog SmtpWorld SmtpParse SmtpSession MailStore MailAuth MailUid MailHdrs MailBox MemMail MailBoxSpec ImapdNet Pop3 MemNet Pop3Spec Pop3MailSpec.

(** ** The marked messages *)

Fixpoint marked (msgs : list Imail) (del : list bool) : list Imail :=
  match msgs, del with
  | m :: ms, d :: ds => (if d then [m] else []) ++ marked ms ds
  | _, _ => []
  end.

Fixpoint unmarked (msgs : list Imail) (del : list bool) : list Imail :=
  match msgs, del with
  | m :: ms, d :: ds => (if d then [] else [m]) ++ unmarked ms ds
  | _, _ => msgs
  end.

Lemma marked_snoc msgs m del i : length msgs = i -> (i < length del)%nat ->
  marked (msgs ++ [m]) del = marked msgs del ++ (if nth i del false then [m] else []) /\
  unmarked (msgs ++ [m]) del = unmarked msgs del ++ (if nth i del false then [] else [m]).
Proof.
  revert del i. induction msgs as [|x msgs IH]; intros [|d del] i Hi Hd; cbn in *; try lia; subst i; cbn.
  - by destruct d, del.
  - destruct (IH del (length msgs) eq_refl ltac:(lia)) as [E1 E2]. rewrite E1, E2. by rewrite !app_assoc.
Qed.

Lemma marked_cover msgs del : length del = length msgs -> marked msgs del ++ unmarked msgs del ≡ₚ msgs.
Proof.
  revert del. induction msgs as [|m msgs IH]; intros [|d del] Hl; cbn in *; try done. specialize (IH del ltac:(lia)).
  destruct d; cbn; [by rewrite IH|]. rewrite <- Permutation_middle. by rewrite IH.
Qed.

Section Quit.
Context `{HF : MailFs} `{L : !MailFsLaws}.

Definition unlink_all (f : fs) (msgs : list Imail) : fs := foldr (fun m f => fs_unlink f (im_path m)) f msgs.

Lemma unlink_all_snoc f msgs m : unlink_all f (msgs ++ [m]) = unlink_all (fs_unlink f (im_path m)) msgs.
Proof. unfold unlink_all. by rewrite foldr_app. Qed.

Lemma unlink_all_read f msgs p : fs_read (unlink_all f msgs) p = fs_read f p \/ (p ∈ map im_path msgs /\ fs_read (unlink_all f msgs) p = None).
Proof.
  induction msgs as [|m msgs IH]; cbn [unlink_all foldr map]; [by left|]. fold (unlink_all f msgs).
  destruct (unlink_read (unlink_all f msgs) (im_path m) p) as [E|[-> E]]; [|right; split; [by left|done]]. rewrite E.
  destruct IH as [IH|[Hin IH]]; [by left|]. right. split; [by right|done].
Qed.

Lemma find_from_here msgs m rest i : NoDup (map im_uid (msgs ++ m :: rest)) -> find_from (msgs ++ m :: rest) (im_uid m) i = Some (i + length msgs)%nat.
Proof.
  revert i. induction msgs as [|x msgs IH]; intros i Hn; cbn [app find_from length map] in *.
  - rewrite Z.eqb_refl. f_equal. lia.
  - apply NoDup_cons in Hn as [Hx Hn]. destruct (Z.eqb_spec (im_uid x) (im_uid m)) as [He|]; [|rewrite IH by done; f_equal; lia].
    exfalso. apply Hx. rewrite He, map_app. apply elem_of_app. right. by left.
Qed.

Lemma uidmap_remove_dir mb uid : mb_dir (uidmap_remove mb uid) = mb_dir mb.
Proof. unfold uidmap_remove. destruct (map_index _ _ _); [|done]. by destruct (_ !! _). Qed.

(** An expunge of a message that is in the view. *)
Lemma expunge_at f mb msgs m rest : mb_msgs mb = msgs ++ m :: rest -> NoDup (map im_uid (mb_msgs mb)) ->
  exists mb', imapd_mbox_expunge f mb (im_uid m) = (fs_unlink f (im_path m), mb', true) /\ mb_msgs mb' = msgs ++ rest /\ mb_dir mb' = mb_dir mb.
Proof.
  intros Hm Hn. unfold imapd_mbox_expunge, imapd_mbox_find. rewrite Hm in Hn |- *. rewrite find_from_here by done. cbn [Nat.add].
  rewrite list_lookup_middle by done. eexists. split; [reflexivity|]. rewrite (proj1 (uidmap_remove_spec _ _)). cbn [with_msgs mb_msgs].
  rewrite delete_middle. split; [done|]. exact (uidmap_remove_dir (with_msgs mb (msgs ++ rest)) (im_uid m)).
Qed.

Lemma quit_loop_spec del : forall msgs rest f mb, mb_msgs mb = msgs ++ rest -> NoDup (map im_uid (mb_msgs mb)) -> (length msgs <= length del)%nat ->
  exists mb', quit_loop (length msgs) f mb del = (unlink_all f (marked msgs del), mb') /\
    mb_msgs mb' = unmarked msgs del ++ rest /\ mb_dir mb' = mb_dir mb.
Proof.
  induction msgs as [|m msgs IH] using rev_ind; intros rest f mb Hm Hn Hl; [by exists mb|].
  rewrite length_app in *. cbn [length] in *. rewrite Nat.add_1_r. cbn [quit_loop].
  destruct (marked_snoc msgs m del (length msgs) eq_refl ltac:(lia)) as [E1 E2]. rewrite E1, E2. rewrite <- app_assoc in Hm. cbn [app] in Hm.
  assert (Hlook : mb_msgs mb !! length msgs = Some m) by (rewrite Hm; by apply list_lookup_middle). rewrite Hlook.
  destruct (nth (length msgs) del false).
  - destruct (expunge_at f mb msgs m rest Hm Hn) as (mb1 & Ex & Hm1 & Hd1). rewrite Ex.
    destruct (IH rest (fs_unlink f (im_path m)) mb1 Hm1) as (mb' & E & Hmm & Hd); [|lia|].
    { rewrite Hm1. rewrite Hm, !map_app in Hn. rewrite map_app. cbn [map] in Hn. apply NoDup_app in Hn as (N1 & N2 & N3).
      apply NoDup_cons in N3 as [_ N3]. apply NoDup_app. split; [done|]. split; [|done]. intros x Hx Hx'. apply (N2 x Hx). by right. }
    exists mb'. rewrite E, unlink_all_snoc, app_nil_r, Hd. done.
  - destruct (IH (m :: rest) f mb Hm Hn ltac:(lia)) as (mb' & E & Hmm & Hd). exists mb'. rewrite E, app_nil_r, <- app_assoc. done.
Qed.
End Quit.

Section Claims.
Context {N : ImapdNet} `{HF : MailFs} `{L : !MailFsLaws} (srv : ImapdServer) (tmp_suffix : bytes) (uninit : Z).

(** C23: QUIT takes the marked messages and only those. When the messages of the view
    have distinct uids, as a scan gives them, it returns with the session closed and its
    mailbox let go; the view that is written back is the unmarked messages in order; a
    file is what it was or, when it is that of a marked message, gone, apart from the
    sidecars of the mailbox. *)
Theorem pop3_quit_exact (c : Pop) (w : Mail) (mb : Mbox) (Hok : pop_ok srv c) (Hmb : pp_mb c = Some mb)
    (Huids : NoDup (map im_uid (mb_msgs mb))) :
  exists w' c' mb', pop3_quit tmp_suffix c w = (w', Some c') /\ io_closed (pp_io c') = true /\ pp_mb c' = None /\ pp_del c' = [] /\
    mb_msgs mb' = unmarked (mb_msgs mb) (pp_del c) /\ marked (mb_msgs mb) (pp_del c) ++ mb_msgs mb' ≡ₚ mb_msgs mb /\
    ml_fs w' = imapd_mbox_close tmp_suffix (unlink_all (ml_fs w) (marked (mb_msgs mb) (pp_del c))) mb' /\
    forall p, ~ sidecar (mb_dir mb) p -> fs_read (ml_fs w') p = fs_read (ml_fs w) p \/
      (p ∈ map im_path (marked (mb_msgs mb) (pp_del c)) /\ fs_read (ml_fs w') p = None).
Proof.
  destruct (quit_pst tmp_suffix c w) as (w' & c' & E & _ & Hm & _ & Hcl & _ & _ & Hdel & _ & _ & _ & Hfs). rewrite Hmb in Hfs.
  destruct (po_mb _ c Hok mb Hmb) as (_ & Hlen & _).
  destruct (quit_loop_spec (pp_del c) (mb_msgs mb) [] (ml_fs w) mb) as (mb' & El & Hmsgs & Hd); [by rewrite app_nil_r|done|lia|].
  rewrite El in Hfs. rewrite app_nil_r in Hmsgs. exists w', c', mb'. do 5 (split; [done|]). rewrite Hmsgs. split; [by apply marked_cover|].
  split; [done|]. intros p Hp. rewrite Hfs, <- Hd in *. rewrite (close_same tmp_suffix _ mb' p Hp). apply unlink_all_read.
Qed.
End Claims.

(** ** Bytes of the input *)

(** [a] occurs in [b]. *)
Definition infix (a b : bytes) : Prop := exists u v, b = u ++ a ++ v.

#[export] Instance infix_refl : Reflexive infix.
Proof. intros a. exists [], []. by rewrite app_nil_r. Qed.
#[export] Instance infix_trans : Transitive infix.
Proof. intros a b c (u & v & ->) (x & y & ->). exists (x ++ u), (v ++ y). by rewrite <- !app_assoc. Qed.

Lemma infix_head a b : infix a (a ++ b).
Proof. by exists [], b. Qed.
Lemma infix_tail a b : infix b (a ++ b).
Proof. exists a, []. by rewrite app_nil_r. Qed.
Lemma infix_take n s : infix (take n s) s.
Proof. rewrite <- (take_drop n s) at 2. apply infix_head. Qed.
Lemma infix_take_while p s : infix (take_while p s) s.
Proof. rewrite <- (take_drop_while p s) at 2. apply infix_head. Qed.
Lemma infix_drop_while p s : infix (drop_while p s) s.
Proof. rewrite <- (take_drop_while p s) at 2. apply infix_tail. Qed.

Lemma infix_arg line : infix (arg_of (c_str (strip_cr line))) line.
Proof.
  unfold arg_of, skip_sp, c_str. etransitivity; [apply infix_drop_while|]. etransitivity; [apply infix_drop_while|].
  etransitivity; [apply infix_drop_while|]. etransitivity; [apply infix_take_while|]. unfold strip_cr.
  destruct (last line) as [z|]; [|done]. destruct (z =? CR); [apply infix_take|done].
Qed.

(** ** A round of a session *)

Section Round.
Context {N : ImapdNet} `{HF : MailFs} `{L : !MailFsLaws} (srv : ImapdServer) (tmp_suffix : bytes) (uninit : Z).

(** The files a session may touch while it works through [input]: those below its
    mailbox, or, before it has one, below the INBOX of a user whose password is in the
    input. *)
Definition in_reach (c : Pop) (input p : bytes) : Prop :=
  match pp_mb c with
  | Some mb => below (mb_dir mb) p
  | None => exists user pass dir, imapd_auth_check (is_creds srv) user pass = true /\ infix pass input /\
              inbox_of srv user = Some dir /\ below dir p
  end.

Lemma in_reach_infix c input input' p : infix input' input -> in_reach c input' p -> in_reach c input p.
Proof.
  intros Hi. unfold in_reach. destruct (pp_mb c); [done|]. intros (user & pass & dir & Hc & Hp & Hd & Hb). exists user, pass, dir.
  split; [done|]. split; [by etransitivity|done].
Qed.

(** What an effect touches was in reach, and so is what the session reaches behind it. *)
Lemma effect_reach w c w' c' arg input : pop_ok srv c -> pop_ok srv c' -> effect srv arg w c w' c' -> infix arg input ->
  same_files (ml_fs w) (ml_fs w') (in_reach c input) /\ forall p, in_reach c' input p -> in_reach c input p.
Proof.
  intros Hok Hok' He Hi. destruct He as [Hs Hmb _ _|user Hp _ _ _ Hchk Hs Hor|mb mb' i m dst Hmb Hmb' _ _ Hd _ Hm Hdst Hf].
  - split; [by eapply same_files_weaken; [exact Hs|]|]. unfold in_reach. by rewrite Hmb.
  - pose proof (po_auth _ c Hok Hp) as Hnone. unfold in_reach. rewrite Hnone. split.
    + eapply same_files_weaken; [exact Hs|]. intros p (dir & Hd & Hsc). exists user, arg, dir. split; [done|]. split; [done|]. split; [done|].
      by apply sidecar_below.
    + destruct Hor as [[-> _]|(mb & Hmb & Hu & _)]; [done|]. rewrite Hmb. intros p Hb. exists user, arg, (mb_dir mb).
      destruct (po_mb _ c' Hok' mb Hmb) as ((u & Hu' & [Hdir _]) & _). assert (u = user) as -> by congruence. done.
  - unfold in_reach. rewrite Hmb, Hmb', Hd. split; [|done]. destruct (po_mb _ c Hok mb Hmb) as ((u & _ & [_ Hpaths]) & _).
    destruct Hf as [[Hf _]|(_ & _ & Hf & _)]; (eapply same_files_weaken; [exact Hf|]); [done|]. intros p [-> | ->]; [|done].
    exact (Forall_lookup_1 _ _ _ _ Hpaths Hm).
Qed.

Lemma quit_keeps c w : pop_ok srv c -> pp_gen c = None -> exists w' c', pop3_quit tmp_suffix c w = (w', Some c') /\ pop_ok srv c' /\
  io_closed (pp_io c') = true /\ forall input, same_files (ml_fs w) (ml_fs w') (in_reach c input).
Proof.
  intros Hok Hg. destruct (quit_pst tmp_suffix c w) as (w' & c' & E & Hp & Hm & Hu & Hcl & _ & Htls & Hdel & Hnd & Hpend & Hgen & Hfs). exists w', c'. split; [done|].
  split; [|split; [done|]].
  - split; [done|by left|congruence|done|rewrite Hpend; apply (po_pend _ c Hok)|intros g Hgs; by left|].
    rewrite (tls_same _ _ Htls), Hp. apply (po_tls _ c Hok).
  - intros input. rewrite Hfs. unfold in_reach. destruct (pp_mb c) as [mb|] eqn:Emb; [|done].
    destruct (po_mb _ c Hok mb Emb) as ((u & _ & [_ Hpaths]) & _).
    assert (Hq : forall i f mb1, mb_dir mb1 = mb_dir mb -> Forall (fun m => below (mb_dir mb) (im_path m)) (mb_msgs mb1) ->
      same_files f (quit_loop i f mb1 (pp_del c)).1 (below (mb_dir mb)) /\ mb_dir (quit_loop i f mb1 (pp_del c)).2 = mb_dir mb).
    { induction i as [|i IH]; intros f mb1 Hd Hps; cbn [quit_loop]; [done|]. destruct (mb_msgs mb1 !! i) as [m|] eqn:Em; [|by apply IH].
      destruct (nth i (pp_del c) false); [|by apply IH]. unfold imapd_mbox_expunge. destruct (imapd_mbox_find mb1 _) as [j|]; [|by apply IH].
      destruct (mb_msgs mb1 !! j) as [m1|] eqn:Em1; [|by apply IH].
      set (mb2 := uidmap_remove _ _). assert (Hm2 : mb_msgs mb2 = delete j (mb_msgs mb1)) by apply uidmap_remove_spec.
      destruct (IH (fs_unlink f (im_path m1)) mb2) as [I1 I2].
      - rewrite <- Hd. exact (uidmap_remove_dir (with_msgs mb1 _) _).
      - rewrite Hm2. by apply Forall_delete.
      - split; [|done]. eapply same_files_trans; [|exact I1]. eapply same_files_weaken; [apply unlink_same|].
        intros p ->. exact (Forall_lookup_1 _ _ _ _ Hps Em1). }
    destruct (Hq (length (mb_msgs mb)) (ml_fs w) mb eq_refl Hpaths) as [H1 H2]. destruct (quit_loop _ _ _ _) as [f mb1]. cbn [fst snd] in H1, H2.
    eapply same_files_trans; [exact H1|]. rewrite <- H2. eapply same_files_weaken; [apply close_same|]. apply sidecar_below.
Qed.

(** One command, on the line in front of [rest]. *)
Lemma command_round c line rest w : pop_ok srv c -> pp_gen c = None -> imapd_tls_handshaking (pp_io c) = false -> io_in (pp_io c) = rest ->
  exists w' c', pop3_command srv tmp_suffix uninit c (c_str (strip_cr line)) w = (w', Some c') /\ pop_ok srv c' /\
    same_files (ml_fs w) (ml_fs w') (in_reach c (line ++ LF :: rest)) /\
    (io_closed (pp_io c') = true \/ io_in (pp_io c') = rest /\ forall p, in_reach c' (line ++ LF :: rest) p -> in_reach c (line ++ LF :: rest) p).
Proof.
  intros Hok Hg Hhs Hin. set (cmd := c_str (strip_cr line)). destruct (word_eq (word_of cmd) (bs "QUIT")) eqn:Eq.
  - unfold pop3_command. cbv zeta. fold (word_of cmd). rewrite Eq. destruct (_ || _).
    + destruct (talks_err c (bs "Command not recognized") w) as (w' & c' & E & (Ef & _) & Hq). exists w', c'. split; [done|].
      split; [by eapply pop_ok_quiet|]. split; [intros p _; by rewrite Ef|]. right. rewrite (quiet_in _ _ Hq). split; [done|].
      by destruct Hq as (io & -> & _).
    + destruct (quit_keeps c w Hok Hg) as (w' & c' & E & Hok' & Hcl & Hs). exists w', c'. split; [done|]. split; [done|]. split; [apply Hs|by left].
  - pose proof (command_keeps srv tmp_suffix uninit (arg_of cmd) c cmd Hok Hg Hhs Eq eq_refl w) as Hk. unfold wp in Hk.
    destruct (pop3_command srv tmp_suffix uninit c cmd w) as [w' o]. cbn [fst snd] in Hk. destruct Hk as (c' & -> & Hin' & Hok' & He).
    destruct (effect_reach w c w' c' _ (line ++ LF :: rest) Hok Hok' He) as [H1 H2].
    { etransitivity; [apply infix_arg|apply infix_head]. }
    exists w', c'. split; [done|]. split; [done|]. split; [done|]. right. split; [congruence|done].
Qed.

Lemma commands_round n : forall c w, pop_ok srv c -> (length (io_in (pp_io c)) < n)%nat ->
  exists w' c', pop3_commands_loop srv tmp_suffix uninit n c w = (w', Some c') /\ pop_ok srv c' /\
    same_files (ml_fs w) (ml_fs w') (in_reach c (io_in (pp_io c))).
Proof.
  induction n as [|n IH]; intros c w Hok Hn; [lia|]. cbn [pop3_commands_loop].
  assert (Hstop : forall c1 w1, pop_ok srv c1 -> ml_fs w1 = ml_fs w -> exists w' c', @mret (prog Mail) _ _ c1 w1 = (w', Some c') /\ pop_ok srv c' /\
    same_files (ml_fs w) (ml_fs w') (in_reach c (io_in (pp_io c)))) by (intros c1 w1 ? E; exists w1, c1; split; [done|]; split; [done|]; intros p _; by rewrite E).
  destruct (io_closed (pp_io c)) eqn:Ecl; [by apply Hstop|]. destruct (pp_gen c) as [g|] eqn:Eg; [by apply Hstop|].
  destruct (match io_tls (pp_io c) with Some _ => _ | None => _ end) eqn:Etls; [by apply Hstop|].
  assert (Hlong : forall t, exists w' c', pop_reply_close c t w = (w', Some c') /\ pop_ok srv c' /\
    same_files (ml_fs w) (ml_fs w') (in_reach c (io_in (pp_io c)))).
  { intros t. unfold pop_reply_close, mbind, prog_bind. destruct (talks_reply c t w) as (w' & c' & E & (Ef & _) & Hq). rewrite E.
    apply Hstop; [|done]. eapply pop_ok_quiet; [exact Hok|done|]. etransitivity; [exact Hq|apply quiet_close]. }
  pose proof (cut_spec LF (io_in (pp_io c))) as Hcut. destruct (cut LF (io_in (pp_io c))) as [[line rest]|]; [|destruct (_ >? _); [apply Hlong|by apply Hstop]].
  destruct (_ >? _); [apply Hlong|]. destruct Hcut as [Hinput _]. rewrite Hinput in Hn |- *.
  set (c1 := pp_set_io (io_set_in rest (pp_io c)) c).
  destruct (command_round c1 line rest w) as (w2 & c2 & E & Hok2 & Hs & Hor); [apply pop_ok_io; auto|done| |done|].
  { unfold c1, imapd_tls_handshaking, imapd_tls_established in *. cbn. destruct (io_tls (pp_io c)) as [t|]; [|done]. by destruct (it_state t). }
  unfold mbind, prog_bind. rewrite E. change (in_reach c1) with (in_reach c) in *.
  assert (Hend : exists w' c', @mret (prog Mail) _ _ c2 w2 = (w', Some c') /\ pop_ok srv c' /\ same_files (ml_fs w) (ml_fs w') (in_reach c (line ++ LF :: rest)))
    by (by exists w2, c2).
  destruct (io_closed (pp_io c2)) eqn:Ecl2; [exact Hend|]. destruct (pp_gen c2); [exact Hend|]. destruct Hor as [?|[Hin2 Hreach]]; [congruence|].
  destruct (IH c2 w2 Hok2) as (w3 & c3 & E3 & Hok3 & Hs3); [rewrite Hin2; rewrite length_app in Hn; cbn [length] in Hn; lia|].
  exists w3, c3. split; [done|]. split; [done|]. eapply same_files_trans; [exact Hs|]. eapply same_files_weaken; [exact Hs3|].
  intros p Hp. apply Hreach. eapply in_reach_infix; [|exact Hp]. rewrite Hin2. etransitivity; [|apply infix_tail]. exists [LF], []. by rewrite app_nil_r.
Qed.

(** ** The sessions there are *)

(** The states of a session: a fresh connection, the bytes that arrive while no message
    is being sent, the rounds that send one, and the end of a handshake. *)
Inductive session : Pop -> Prop :=
  | ses_new io : session (MkPop io PO_AUTH None None None [] 0 None)
  | ses_greet c w w' c' : session c -> pp_gen c = None -> imapd_pop3_greeting srv c w = (w', Some c') -> session c'
  | ses_take c d now w w' c' : session c -> pp_gen c = None -> pop3_take srv tmp_suffix uninit c d now w = (w', Some c') -> session c'
  | ses_pump c w w' c' : session c -> imapd_pop3_pump c w = (w', Some c') -> session c'
  | ses_tls c io : session c -> imapd_tls_handshaking (pp_io c) = true -> imapd_tls_handshaking io = false ->
      session (imapd_pop3_tls_reset (pp_set_io io c)).

Lemma pump_keeps c w : pop_ok srv c -> exists w' c', imapd_pop3_pump c w = (w', Some c') /\ pop_ok srv c'.
Proof.
  intros Hok. destruct (pp_gen c) as [g|] eqn:Eg; [|exists w, c; unfold imapd_pop3_pump; by rewrite Eg].
  destruct (po_gen _ c Hok g Eg) as [Hcl|(said0 & Hg)].
  - rewrite (pump_closed c g w Eg Hcl). exists w, c. split; [|done]. rewrite <- Eg. by destruct c.
  - assert (He : effect srv [] w c w c) by by apply eff_talk.
    pose proof (effect_pump srv [] w c w c said0 g Hok eq_refl He Eg Hg) as H. unfold wp in H.
    destruct (imapd_pop3_pump c w) as [w' o]. destruct H as (c' & Ho & _ & Hok' & _). cbn in Ho. subst o. by exists w', c'.
Qed.

Lemma pump_ok c w w' c' : pop_ok srv c -> imapd_pop3_pump c w = (w', Some c') -> pop_ok srv c'.
Proof. intros Hok E. destruct (pump_keeps c w Hok) as (w1 & c1 & E1 & H). rewrite E1 in E. by injection E as _ <-. Qed.

Lemma greeting_talks c : talks c (imapd_pop3_greeting srv c).
Proof. unfold imapd_pop3_greeting. cbv zeta. destruct (_ <=? _); apply talks_reply. Qed.

Lemma session_ok c : session c -> pop_ok srv c.
Proof.
  induction 1 as [io|c w w' c' _ IH Hg E|c d now w w' c' _ IH Hg E|c w w' c' _ IH E|c io _ IH Hhs Hdone].
  - by split.
  - destruct (greeting_talks c w) as (w1 & c1 & E1 & _ & Hq). rewrite E1 in E. injection E as _ <-. by eapply pop_ok_quiet.
  - unfold pop3_take, pop3_commands in E. set (c1 := pp_set_io (io_set_in _ _) c) in E. assert (Hok1 : pop_ok srv c1) by (apply pop_ok_io; auto).
    destruct (commands_round _ c1 w Hok1 (Nat.lt_succ_diag_r _)) as (w1 & c2 & E1 & Hok2 & _). rewrite E1 in E. by injection E as _ <-.
  - by eapply pump_ok.
  - pose proof (po_auth _ c IH (po_tls _ c IH Hhs)) as Hnone. unfold imapd_pop3_tls_reset. split; cbn; try done.
    intros mb Hmb. congruence.
Qed.

(** C19: A client cannot get past the mailbox it logs in to. In every state a session
    can be in, whatever bytes arrive, it works through all complete lines of its input
    and returns, and every file it has changed lies below the mailbox it had open, or,
    when it had none, below the INBOX of a user for whom [imapd_auth_check] accepts a
    password among the bytes it read (the dummy password, for a user in no line of the
    table: the recorded bug); the mailbox it then has open is the INBOX of the user it
    names. *)
Theorem pop3_round_confined (c : Pop) (d : bytes) (now : Z) (w : Mail) (Hses : session c) (Hgen : pp_gen c = None) :
  exists w' c', pop3_take srv tmp_suffix uninit c d now w = (w', Some c') /\
    same_files (ml_fs w) (ml_fs w') (in_reach c (io_in (pp_io c) ++ d)) /\
    forall mb, pp_mb c' = Some mb -> exists user, pp_user c' = Some user /\ inbox_of srv user = Some (mb_dir mb).
Proof.
  apply session_ok in Hses. unfold pop3_take, pop3_commands. set (c1 := pp_set_io (io_set_in _ _) c). assert (Hok1 : pop_ok srv c1) by (apply pop_ok_io; auto).
  destruct (commands_round _ c1 w Hok1 (Nat.lt_succ_diag_r _)) as (w' & c' & E & Hok' & Hs). exists w', c'. split; [done|]. split; [exact Hs|].
  intros mb Hmb. destruct (po_mb _ c' Hok' mb Hmb) as ((user & Hu & [Hd _]) & _). by exists user.
Qed.
End Round.

(** ** A session in memory *)

Definition quit_w_srv : ImapdServer :=
  {| is_cfg := {| ic_root := bs "/m"; ic_ingest_addr := []; ic_ingest_port := 0; ic_imap_addr := []; ic_imap_port := 0; ic_pop3_addr := [];
                  ic_pop3_port := 110; ic_hostname := bs "h"; ic_max_msg := 1000; ic_cmd_tmo := 300; ic_data_tmo := 300; ic_cert := None; ic_key := None |};
     is_creds := [{| ic_user := bs "al"; ic_pass := bs "pw" |}]; is_tls_ready := false; is_imap_loopback := true; is_pop3_loopback := true |}.

Definition quit_w_new : Pop := MkPop pop_w_io PO_AUTH None None None [] 0 None.
Definition quit_w_named : Pop := pp_set_pend (Some (bs "al")) quit_w_new.

Lemma quit_w_named_ok : pop_ok quit_w_srv quit_w_named.
Proof. split; try done. intros user [= <-]. reflexivity. Qed.

Lemma quit_w_conn_ok : pop_ok quit_w_srv pop_w_conn.
Proof.
  split; try done; [right; by eexists|]. intros mb [= <-]. split; [|by split]. exists (bs "al"). split; [done|]. split; [reflexivity|].
  repeat constructor. by exists (bs "new/1.M1").
Qed.

Definition quit_w_pass : Pop := default quit_w_new (pop3_command quit_w_srv (bs "1") 0 quit_w_named (bs "PASS pw") pop_w_mail).2.

Lemma pop3_auth_gate_witness :
  exists user mb, pp_pend quit_w_named = Some user /\ imapd_user_ok user = true /\ cleartext_ok quit_w_srv quit_w_named = true /\
    imapd_auth_check (is_creds quit_w_srv) user (arg_of (bs "PASS pw")) = true /\
    (imapd_auth_blocked (ml_fails pop_w_mail) (io_ip (pp_io quit_w_named)) (n_time (ml_net pop_w_mail)).2).2 = false /\
    pp_user quit_w_pass = Some user /\ pp_mb quit_w_pass = Some mb /\ imapd_mbox_dir (ic_root (is_cfg quit_w_srv)) user (bs "INBOX") 4096 = Some (mb_dir mb).
Proof.
  refine (pop3_auth_gate quit_w_srv (bs "1") 0 quit_w_named (bs "PASS pw") pop_w_mail _ quit_w_pass quit_w_named_ok _ _ _ _ _);
    [reflexivity|reflexivity|reflexivity| |vm_compute; reflexivity].
  unfold quit_w_pass. vm_compute. reflexivity.
Defined.


Lemma pop3_quit_exact_witness :
  exists w' c', pop3_quit (bs "1") (pp_set_del [true] 1 pop_w_conn) pop_w_mail = (w', Some c') /\ io_closed (pp_io c') = true.
Proof.
  destruct (pop3_quit_exact quit_w_srv (bs "1") (pp_set_del [true] 1 pop_w_conn) pop_w_mail pop_w_box) as (w' & c' & mb' & E & H & _);
    [|reflexivity|repeat constructor; apply not_elem_of_nil|exists w', c'; exact (conj E H)].
  apply (pop_ok_del quit_w_srv pop_w_conn [true] quit_w_conn_ok). reflexivity.
Defined.

Lemma pop3_round_confined_witness :
  exists w' c', pop3_take quit_w_srv (bs "1") 0 quit_w_new (bs "USER al" ++ CRLF ++ bs "PASS pw" ++ CRLF) 5 pop_w_mail = (w', Some c') /\
    pp_pst c' = PO_TRANS /\ forall mb, pp_mb c' = Some mb -> exists user, pp_user c' = Some user /\ inbox_of quit_w_srv user = Some (mb_dir mb).
Proof.
  destruct (pop3_round_confined quit_w_srv (bs "1") 0 quit_w_new (bs "USER al" ++ CRLF ++ bs "PASS pw" ++ CRLF) 5 pop_w_mail) as (w' & c' & E & _ & H);
    [constructor|reflexivity|]. exists w', c'. split; [exact E|]. split; [|exact H].
  assert (Hp : (fun r => pp_pst <$> r) (pop3_take quit_w_srv (bs "1") 0 quit_w_new (bs "USER al" ++ CRLF ++ bs "PASS pw" ++ CRLF) 5 pop_w_mail).2 = Some PO_TRANS)
    by (vm_compute; reflexivity). rewrite E in Hp. by injection Hp.
Defined.

(** Commands that were pipelined behind RETR or TOP stay in the input buffer when the
    message is sent; nothing looks at them before more bytes arrive. *)
Definition quit_w_piped : Pop := pp_set_io (io_set_in (bs "QUIT" ++ CRLF) (pp_io pop_w_start)) pop_w_start.

Lemma pump_leaves_input :
  (fun c => (match pp_gen c with None => true | Some _ => false end, io_closed (pp_io c), io_in (pp_io c))) <$> (imapd_pop3_pump quit_w_piped pop_w_mail).2
  = Some (true, false, bs "QUIT" ++ CRLF).
Proof. vm_compute. reflexivity. Qed.
