(* ===== verification/Ingest.v ===== *)
(** * The ingest listener of imapd (src/src/imapd_ingest.c)

    The relay-receiving SMTP server: commands, DATA and the delivery into maildirs. Its
    copies of the command syntax and of the DATA scanner of smtp_in.c are those of
    [SmtpParse], [SmtpSession] and [SmtpData]. Allocation succeeds and logging is left
    out. *)

From S2P Require Import Prelude MailLines MailAddr MailHeader Json Prog SmtpData SmtpWorld SmtpParse SmtpSession MailStore MailAuth MailUid MailHdrs MailBox ImapdNet.

Inductive ing_state := IG_INIT | IG_HELO | IG_MAIL | IG_DATA.

(** The ingest part of [Conn]. *)
Record Ing := MkIng {
  ig_io : Io;
  ig_st : ing_state;
  ig_from : option bytes;
  ig_rcpts : list bytes;
  ig_data : bytes;
  ig_scan : nat  (** [data_scan_pos] *)
}.

Definition ig_set_io (i : Io) (c : Ing) : Ing := MkIng i (ig_st c) (ig_from c) (ig_rcpts c) (ig_data c) (ig_scan c).
Definition ig_set_st (s : ing_state) (c : Ing) : Ing := MkIng (ig_io c) s (ig_from c) (ig_rcpts c) (ig_data c) (ig_scan c).
Definition ig_set_from (f : option bytes) (c : Ing) : Ing := MkIng (ig_io c) (ig_st c) f (ig_rcpts c) (ig_data c) (ig_scan c).
Definition ig_set_rcpts (r : list bytes) (c : Ing) : Ing := MkIng (ig_io c) (ig_st c) (ig_from c) r (ig_data c) (ig_scan c).
Definition ig_set_data (d : bytes) (n : nat) (c : Ing) : Ing := MkIng (ig_io c) (ig_st c) (ig_from c) (ig_rcpts c) d n.
Definition ig_close (c : Ing) : Ing := ig_set_io (io_close (ig_io c)) c.

(** [conn_reset]. *)
Definition ing_reset (c : Ing) (st : ing_state) : Ing := MkIng (ig_io c) st None [] [] 0.

Definition INGEST_MAX_LINE : Z := 1000.

(** What [imapd_delivery_target] leaves in [user], filled with the empty string before,
    when it fails. *)
Definition target_user (local : bytes) (usersz : nat) : bytes :=
  let user := take_while (fun c => negb (c =? "+"%chr)) local in
  if is_nil local || is_nil user || (usersz <=? length user)%nat then [] else user.

(** Where a recipient is delivered: the user and the folder, [None] when it fails. *)
Definition rcpt_target (rcpt : bytes) : option (bytes * bytes) :=
  '(local, _) ← mail_addr_parse rcpt;
  match imapd_delivery_target local (S IMAPD_MAX_USER) (S IMAPD_MAX_MBOX) with
  | Some t => Some t
  | None => let user := target_user local (S IMAPD_MAX_USER) in
            if negb (imapd_user_ok user) then None else Some (user, bs "INBOX")
  end.

(** The test of RCPT on the user half of the local part. *)
Definition rcpt_user_ok (path : bytes) : bool :=
  match mail_addr_parse path with
  | None => false
  | Some (local, _) =>
      let user := take_while (fun c => negb (c =? "+"%chr)) local in
      negb (is_nil user) && (length user <=? IMAPD_MAX_USER)%nat && imapd_user_ok user
  end.

(** The value of the Return-Path field, as much of it as fits [rp]. *)
Definition return_path (from : option bytes) : bytes :=
  take (Z.to_nat (INGEST_MAX_LINE + 3)) ("<"%chr :: default [] from ++ [">"%chr]).

Section Ingest.
Context {N : ImapdNet} {HF : MailFs} (srv : ImapdServer) (pid : Z).

(** [conn_reply]. *)
Definition ing_reply (c : Ing) (text : bytes) : prog Mail Ing :=
  io ← imapd_conn_reply false (ig_io c) text; mret (ig_set_io io c).

Definition ing_fail (c : Ing) (text : bytes) : prog Mail Ing := c ← ing_reply c text; mret (ig_close c).

(** ** Delivery *)

(** One recipient: whether it was stored. *)
Definition ingest_one (msg rcpt : bytes) : prog Mail bool :=
  match rcpt_target rcpt with
  | None => mret false
  | Some (user, folder) =>
      match imapd_mbox_dir (ic_root (is_cfg srv)) user folder 4096 with
      | None => mret false
      | Some dir => uniq ← unique_name pid; on_fs (fun f => imapd_mbox_deliver f dir uniq msg 0 [])
      end
  end.

(** The loop over the recipients; [failed] so far. *)
Fixpoint ingest_rcpts (msg : bytes) (rcpts : list bytes) (failed : bool) : prog Mail bool :=
  match rcpts with
  | [] => mret failed
  | r :: rs => ok ← ingest_one msg r; ingest_rcpts msg rs (failed || negb ok)
  end.

(** [ingest_deliver]. When the normalised length does not fit an [int], -1 is taken for
    a length and the run is undefined: it has no result here. *)
Definition ingest_deliver (c : Ing) : prog Mail Ing :=
  let msg := mail_unstuff_dots (ig_data c) in
  if mail_data_has_ctl msg then ing_fail c (bs "554 5.6.0 Message contains NUL or control bytes" ++ CRLF)
  else if len msg >? ic_max_msg (is_cfg srv) then ing_fail c (bs "552 5.3.4 Message exceeds fixed limit" ++ CRLF)
  else
    match mail_normalize_crlf (msg ++ replicate (length msg + 2) 0) (length msg) with
    | None => running
    | Some (n, buf) =>
        if n <? 0 then running
        else
          match mail_header_set (take (Z.to_nat n) buf) (bs "Return-Path") (return_path (ig_from c)) with
          | None => ing_reply c (bs "451 4.3.0 Temporary processing error" ++ CRLF)
          | Some msg =>
              failed ← ingest_rcpts msg (ig_rcpts c) false;
              ing_reply (ing_reset c IG_HELO)
                (if (failed : bool) then bs "451 4.3.0 Temporary delivery failure" ++ CRLF else bs "250 2.0.0 OK: stored" ++ CRLF)
          end
    end.

(** ** Commands *)

Definition ing_ehlo (c : Ing) (rest : bytes) : prog Mail Ing :=
  if is_nil rest then ing_reply c (bs "501 5.5.4 EHLO requires a domain" ++ CRLF)
  else
    let c := ing_reset c IG_HELO in
    ing_reply c (bs "250-" ++ ic_hostname (is_cfg srv) ++ CRLF ++ bs "250-8BITMIME" ++ CRLF ++ bs "250-SIZE " ++ print_u32 (ic_max_msg (is_cfg srv)) ++
      (if (match io_tls (ig_io c) with None => true | Some _ => false end) && imapd_tls_available srv then CRLF ++ bs "250-STARTTLS" else []) ++
      CRLF ++ bs "250 OK" ++ CRLF).

Definition ing_helo (c : Ing) (rest : bytes) : prog Mail Ing :=
  if is_nil rest then ing_reply c (bs "501 5.5.4 HELO requires a domain" ++ CRLF)
  else ing_reply (ing_reset c IG_HELO) (bs "250 " ++ ic_hostname (is_cfg srv) ++ CRLF).

Definition ing_mail (c : Ing) (rest : bytes) : prog Mail Ing :=
  match ig_st c with
  | IG_HELO =>
      match parse_addr_arg rest (bs "FROM") (Z.to_nat INGEST_MAX_LINE) with
      | None => ing_reply c (bs "501 5.5.4 Syntax: MAIL FROM:<address>" ++ CRLF)
      | Some (path, _) =>
          if negb (path_clean path) then ing_reply c (bs "501 5.5.4 Invalid reverse-path" ++ CRLF)
          else ing_reply (ig_set_st IG_MAIL (ig_set_from (Some path) c)) (bs "250 2.1.0 OK" ++ CRLF)
      end
  | _ => ing_reply c (bs "503 5.5.1 Error: send HELO/EHLO first" ++ CRLF)
  end.

Definition IMAPD_MAX_RCPTS : nat := 32.

Definition ing_rcpt (c : Ing) (rest : bytes) : prog Mail Ing :=
  match ig_st c with
  | IG_MAIL =>
      if (IMAPD_MAX_RCPTS <=? length (ig_rcpts c))%nat then ing_reply c (bs "452 4.5.3 Too many recipients" ++ CRLF)
      else match parse_addr_arg rest (bs "TO") (Z.to_nat INGEST_MAX_LINE) with
           | None => ing_reply c (bs "501 5.5.4 Syntax: RCPT TO:<address>" ++ CRLF)
           | Some (path, _) =>
               if negb (path_clean path) || is_nil path then ing_reply c (bs "501 5.5.4 Invalid recipient address" ++ CRLF)
               else match mail_addr_parse path with
                    | None => ing_reply c (bs "501 5.5.4 Invalid recipient address" ++ CRLF)
                    | Some _ =>
                        if negb (rcpt_user_ok path) then ing_reply c (bs "550 5.1.1 User unknown" ++ CRLF)
                        else ing_reply (ig_set_rcpts (ig_rcpts c ++ [path]) c) (bs "250 2.1.5 OK" ++ CRLF)
                    end
           end
  | _ => ing_reply c (bs "503 5.5.1 Error: need MAIL first" ++ CRLF)
  end.

Definition ing_data_cmd (c : Ing) : prog Mail Ing :=
  match ig_st c with
  | IG_MAIL =>
      if (length (ig_rcpts c) =? 0)%nat then ing_reply c (bs "503 5.5.1 Error: no valid recipients" ++ CRLF)
      else c ← ing_reply c (bs "354 End data with <CR><LF>.<CR><LF>" ++ CRLF); mret (ig_set_st IG_DATA (ig_set_data [] 0 c))
  | _ => ing_reply c (bs "503 5.5.1 Error: need RCPT first" ++ CRLF)
  end.

Definition ing_starttls (c : Ing) (rest : bytes) : prog Mail Ing :=
  if (match io_tls (ig_io c) with Some _ => true | None => false end) || negb (match ig_st c with IG_HELO => true | _ => false end)
  then ing_reply c (bs "503 5.5.1 Error: TLS already active or no EHLO" ++ CRLF)
  else if negb (is_nil rest) then ing_reply c (bs "501 5.5.4 Syntax: STARTTLS" ++ CRLF)
  else if negb (is_nil (io_in (ig_io c))) then ing_reply c (bs "500 5.5.2 Pipelined data before STARTTLS" ++ CRLF)
  else if negb (imapd_tls_available srv) then ing_reply c (bs "502 5.5.1 Command not implemented" ++ CRLF)
  else
    r ← imapd_tls_start (ig_io c);
    let c := ig_set_io r.1 c in
    if negb r.2 then ing_reply c (bs "451 4.3.0 Storage allocation failure" ++ CRLF)
    else ing_reply c (bs "220 2.0.0 Ready to start TLS" ++ CRLF).

Definition ingest_command (c : Ing) (line : bytes) : prog Mail Ing :=
  let p := skip_sp line in
  let v := take_while (fun x => negb (x =? SP)) p in
  let rest := skip_sp (drop_while (fun x => negb (x =? SP)) p) in
  if verb_is v (bs "EHLO") then ing_ehlo c rest
  else if verb_is v (bs "HELO") then ing_helo c rest
  else if verb_is v (bs "MAIL") then ing_mail c rest
  else if verb_is v (bs "RCPT") then ing_rcpt c rest
  else if verb_is v (bs "DATA") then ing_data_cmd c
  else if verb_is v (bs "RSET") then
    ing_reply (ing_reset c (match ig_st c with IG_INIT => IG_INIT | _ => IG_HELO end)) (bs "250 2.0.0 OK" ++ CRLF)
  else if verb_is v (bs "NOOP") then ing_reply c (bs "250 2.0.0 OK" ++ CRLF)
  else if verb_is v (bs "QUIT") then ing_fail c (bs "221 2.0.0 Bye" ++ CRLF)
  else if verb_is v (bs "VRFY") then ing_reply c (bs "252 2.5.2 Cannot VRFY user" ++ CRLF)
  else if verb_is v (bs "STARTTLS") then ing_starttls c rest
  else if verb_is v (bs "AUTH") then ing_reply c (bs "502 5.5.1 Command not implemented" ++ CRLF)
  else ing_reply c (bs "500 5.5.2 Command not recognized" ++ CRLF).

(** ** Input *)

(** [raw_cap]. *)
Definition raw_cap : Z := ic_max_msg (is_cfg srv) * 2 + 16.

(** Bytes for the message buffer: a test of the cap in front of the append. *)
Definition ing_append (c : Ing) (d : bytes) : prog Mail Ing + Ing :=
  if len (ig_data c) + len d >? raw_cap then inl (ing_fail c (bs "552 5.3.4 Message exceeds fixed limit" ++ CRLF))
  else inr (ig_set_data (ig_data c ++ d) (ig_scan c) c).

(** The loop of [ingest_commands]; each round consumes a line. *)
Fixpoint ingest_commands_loop (n : nat) (c : Ing) : prog Mail Ing :=
  match n with
  | O => running
  | S n' =>
      if io_closed (ig_io c) then mret c
      else if match io_tls (ig_io c) with Some _ => negb (imapd_tls_established (ig_io c)) | None => false end then mret c
      else match cut LF (io_in (ig_io c)) with
           | None => if len (io_in (ig_io c)) >? INGEST_MAX_LINE then ing_fail c (bs "500 5.5.2 Line too long" ++ CRLF) else mret c
           | Some (line, rest) =>
               if len line >? INGEST_MAX_LINE then ing_fail c (bs "500 5.5.2 Line too long" ++ CRLF)
               else
                 c ← ingest_command (ig_set_io (io_set_in rest (ig_io c)) c) (c_str (strip_cr line));
                 if (match ig_st c with IG_DATA => true | _ => false end) && negb (io_closed (ig_io c)) then
                   if is_nil (io_in (ig_io c)) then mret c
                   else match ing_append c (io_in (ig_io c)) with
                        | inl m => m
                        | inr c => mret (ig_set_io (io_set_in [] (ig_io c)) c)
                        end
                 else ingest_commands_loop n' c
           end
  end.

Definition ingest_commands (c : Ing) : prog Mail Ing := ingest_commands_loop (S (length (io_in (ig_io c)))) c.

Definition ingest_data (c : Ing) : prog Mail Ing :=
  match data_scan (ig_data c) INGEST_MAX_LINE raw_cap (ig_scan c) with
  | ScanLimit => ing_fail c (bs "552 5.3.4 Message exceeds fixed limits" ++ CRLF)
  | ScanMore pos => mret (ig_set_data (ig_data c) pos c)
  | ScanFound msg_end term_len =>
      let leftover := drop (msg_end + term_len) (ig_data c) in
      let c := ig_set_io (io_set_in (io_in (ig_io c) ++ leftover) (ig_io c)) c in
      c ← ingest_deliver (ig_set_data (take msg_end (ig_data c)) (ig_scan c) c);
      if negb (io_closed (ig_io c)) && negb (is_nil (io_in (ig_io c))) then ingest_commands c else mret c
  end.

(** ** Entry points *)

Definition imapd_ingest_greeting (c : Ing) : prog Mail Ing :=
  let g := bs "220 " ++ ic_hostname (is_cfg srv) ++ bs " ESMTP imapd" ++ CRLF in
  ing_reply c (if 512 <=? len g then bs "220 localhost ESMTP imapd" ++ CRLF else g).

Definition imapd_ingest_tls_reset (c : Ing) : Ing := ing_reset c IG_INIT.

(** Bytes that arrived. *)
Definition ingest_take (c : Ing) (d : bytes) (now : Z) : prog Mail Ing :=
  let c := ig_set_io (io_set_act now (ig_io c)) c in
  match ig_st c with
  | IG_DATA => match ing_append c d with inl m => m | inr c => ingest_data c end
  | _ => ingest_commands (ig_set_io (io_set_in (io_in (ig_io c) ++ d) (ig_io c)) c)
  end.

(** The drain loop over TLS, at most [n] reads. *)
Fixpoint ingest_drain (n : nat) (c : Ing) (now : Z) : prog Mail Ing :=
  match n with
  | O => running
  | S n' =>
      r ← imapd_tls_recv (ig_io c);
      match r with
      | RvData d =>
          c ← ingest_take c d now;
          if io_closed (ig_io c) then mret c
          else match ig_st c with IG_DATA => mret c | _ => ingest_drain n' c now end
      | RvAgain => mret c
      | _ => mret (ig_close c)
      end
  end.

Definition imapd_ingest_readable (n : nat) (c : Ing) (now : Z) : prog Mail Ing :=
  match io_tls (ig_io c) with
  | Some _ => if negb (imapd_tls_established (ig_io c)) then mret c else ingest_drain n c now
  | None =>
      r ← on_net (fun w => n_recv w (io_fd (ig_io c)));
      match r with
      | RvAgain => mret c
      | RvData (x :: d) => ingest_take c (x :: d) now
      | _ => mret (ig_close c)
      end
  end.

End Ingest.
