(* ===== verification/IngestSpec.v ===== *)
(** * What the ingest listener promises

    A message is acknowledged only when every recipient has its copy, and the session
    keeps its invariant on any input. *)

From S2P Require Import Prelude MailLines MailAddr MailHeader Json Prog SmtpData SmtpWorld SmtpParse SmtpSession MailStore MailAuth MailUid MailHdrs MailBox MailStoreSpec MemMail MailBoxSpec ImapdNet Ingest MemNet Pop3Spec.

(** ** Minted names *)

Lemma dec_digits_inj v v' : 0 <= v < 2 ^ 64 -> 0 <= v' < 2 ^ 64 -> dec_digits 20 v [] = dec_digits 20 v' [] -> v = v'.
Proof.
  intros H H' E. assert (2 ^ 64 < 10 ^ 20) by lia.
  destruct (dec_digits_spec 20 v []) as (ds & E1 & _ & _ & _ & V1); [lia..|].
  destruct (dec_digits_spec 20 v' []) as (ds' & E2 & _ & _ & _ & V2); [lia..|].
  rewrite E1, E2, !app_nil_r in E. subst ds'. specialize (V1 0). specialize (V2 0). lia.
Qed.

(** The part behind the last [c] is determined. *)
Lemma last_part_inj (c : Z) x y a b : c ∉ a -> c ∉ b -> x ++ c :: a = y ++ c :: b -> a = b.
Proof.
  intros Ha Hb E. apply (f_equal reverse) in E. rewrite !reverse_app, !reverse_cons, <- !app_assoc in E. cbn [app] in E.
  apply (f_equal (cut c)) in E. rewrite !cut_app in E by (by rewrite elem_of_reverse). injection E as E _.
  apply (f_equal reverse) in E. by rewrite !reverse_involutive in E.
Qed.

Definition name_tail (k : Z) : bytes := dec_digits 20 k [] ++ bs ".imapd".

(** A name minted when the counter is [k]. *)
Definition minted (k : Z) (u : bytes) : Prop := exists x, u = x ++ "R"%chr :: name_tail k.

Lemma digits_no (c : Z) ds : Prelude.is_digit c = false -> digits ds -> c ∉ ds.
Proof. intros Hc Hd Hin. unfold digits in Hd. rewrite Forall_forall in Hd. specialize (Hd c Hin). congruence. Qed.

Lemma name_tail_no_R k : "R"%chr ∉ name_tail k.
Proof.
  unfold name_tail. rewrite elem_of_app. intros [H|H]; [revert H; apply digits_no; [done|apply dec_digits_digits; constructor]|].
  apply list_elem_of_In in H. vm_compute in H. naive_solver.
Qed.

Lemma minted_inj k k' u : 0 <= k < 2 ^ 64 -> 0 <= k' < 2 ^ 64 -> minted k u -> minted k' u -> k = k'.
Proof.
  intros Hk Hk' (x & ->) (y & E). apply last_part_inj in E; [|apply name_tail_no_R..]. apply app_inv_tail in E. by apply dec_digits_inj.
Qed.

Definition leaf_byte (c : Z) : Prop := c <> ":"%chr /\ c <> "/"%chr.

Lemma digits_name ds : digits ds -> Forall leaf_byte ds.
Proof.
  intros Hd. eapply Forall_impl; [exact Hd|]. intros c Hc. unfold Prelude.is_digit in Hc. apply andb_true_iff in Hc as [H1 H2]. apply Z.leb_le in H1, H2.
  split; lia.
Qed.

Section Names.
Context {N : ImapdNet} {HF : MailFs}.

Lemma unique_name_spec pid w : exists w' u, unique_name pid w = (w', Some u) /\ ml_fs w' = ml_fs w /\ ml_count w' = u64 (ml_count w + 1) /\
  minted (u64 (ml_count w + 1)) u /\ base_ok u.
Proof.
  unfold unique_name, mbind, prog_bind, modify, on_net, gets. cbn [ml_net]. destruct (n_clock (ml_net w)) as [n [s ns]]. cbn [mret prog_ret].
  assert (Hk : u64 (ml_count w + 1) <? 0 = false) by (apply Z.ltb_ge; unfold u64; apply Z.mod_pos_bound; lia).
  set (k := u64 (ml_count w + 1)) in *. cbn [ml_count fst snd]. rewrite Hk.
  eexists _, _. split; [reflexivity|]. split; [done|]. split; [done|].
  assert (Hsgn : forall z, let d := if z <? 0 then "-"%chr :: dec_digits 20 (- z) [] else dec_digits 20 z [] in
    Forall leaf_byte d /\ d <> [] /\ head d <> Some "."%chr).
  { intros z. cbv zeta. destruct (z <? 0).
    - split; [|done]. constructor; [done|]. apply digits_name, dec_digits_digits. constructor.
    - pose proof (dec_digits_digits 20 z [] (Forall_nil_2 _)) as Hd. split; [by apply digits_name|].
      assert (Hne : dec_digits 20 z [] <> []).
      { assert (G : forall f v a, a <> [] \/ f <> O -> dec_digits f v a <> []).
        { induction f as [|f IH]; intros v a Hor; cbn [dec_digits]; [by destruct Hor|]. destruct (v <? 10); [done|]. apply IH. by left. }
        apply G. by right. }
      split; [done|]. destruct (dec_digits 20 z []) as [|c t]; [done|]. apply Forall_cons in Hd as [Hd _]. intros [= ->]. discriminate Hd. }
  split.
  - unfold minted, name_tail. generalize (dec_digits 20 k [] ++ bs ".imapd") as t. intros t.
    match goal with |- exists x, ?a ++ bs ".M" ++ ?b ++ bs "P" ++ ?c ++ bs "R" ++ t = _ => exists (a ++ bs ".M" ++ b ++ bs "P" ++ c) end.
    by rewrite <- !app_assoc.
  - destruct (Hsgn s) as (H1 & H2 & H3).
    match goal with |- base_ok ?u => assert (Hall : Forall leaf_byte u) end.
    { repeat (apply Forall_app; split); try done; try (apply digits_name, dec_digits_digits; constructor);
        try (apply Hsgn); try (repeat constructor; done). }
    split; [|split; [|split]].
    + intros E. by apply app_eq_nil in E as [E _].
    + match goal with |- head (?d ++ ?r) <> _ => change (d <> []) in H2; generalize r; revert H2 H3; generalize d end.
      intros [|c d] H2 H3 r; [done|exact H3].
    + intros Hin. rewrite Forall_forall in Hall. by destruct (Hall _ Hin).
    + intros Hin. rewrite Forall_forall in Hall. by destruct (Hall _ Hin).
Qed.
End Names.

(** ** Storing one copy *)

(** A path whose last component was minted when the counter was [k]. *)
Definition minted_path (k : Z) (p : bytes) : Prop := exists d u, p = d ++ "/"%chr :: u /\ "/"%chr ∉ u /\ minted k u.

Lemma minted_path_inj k k' p : 0 <= k < 2 ^ 64 -> 0 <= k' < 2 ^ 64 -> minted_path k p -> minted_path k' p -> k = k'.
Proof.
  intros Hk Hk' (d & u & -> & Hu & Hm) (d' & u' & E & Hu' & Hm'). apply last_part_inj in E as ->; [|done..]. by eapply minted_inj.
Qed.

Section Store.
Context {N : ImapdNet} `{HF : MailFs} `{L : !MailFsLaws} (srv : ImapdServer) (pid : Z).

Lemma deliver_new f dir uniq msg f' ok : imapd_mbox_deliver f dir uniq msg 0 [] = (f', ok) ->
  same_files f f' (fun p => p = dir ++ bs "/tmp/" ++ uniq \/ p = dir ++ bs "/new/" ++ uniq) /\
  (ok = true -> fs_read f' (dir ++ bs "/new/" ++ uniq) = Some msg).
Proof.
  unfold imapd_mbox_deliver, deliver_file. set (tmp := dir ++ bs "/tmp/" ++ uniq). set (new := dir ++ bs "/new/" ++ uniq).
  destruct (mail_data_has_ctl msg); [by intros [= <- <-]|]. destruct (imapd_mbox_create f dir) as [f1 ok1] eqn:Ec. apply create_same in Ec.
  assert (H1 : same_files f f1 (fun p => p = tmp \/ p = new)) by (by eapply same_files_weaken; [exact Ec|]).
  destruct ok1; cbn [negb]; [|by intros [= <- <-]]. unfold msg_path. cbn [is_nil]. rewrite !app_nil_r. cbv zeta.
  change (dir ++ bs "/" ++ bs "tmp" ++ bs "/" ++ uniq) with tmp. change (dir ++ bs "/" ++ bs "new" ++ bs "/" ++ uniq) with new.
  destruct (4104 <=? len tmp); [by intros [= <- <-]|]. destruct (fs_write f1 tmp msg) as [f2 out] eqn:Ew.
  assert (H2 : same_files f f2 (fun p => p = tmp \/ p = new)).
  { eapply same_files_trans; [exact H1|]. eapply same_files_weaken; [by eapply write_same|auto]. }
  assert (Hun : forall g, same_files f g (fun p => p = tmp \/ p = new) -> same_files f (fs_unlink g tmp) (fun p => p = tmp \/ p = new)).
  { intros g Hg. eapply same_files_trans; [exact Hg|]. eapply same_files_weaken; [apply unlink_same|auto]. }
  destruct out; [by intros [= <- <-]..|]. cbn [negb orb Z.eqb]. destruct (4160 <=? len new); [intros [= <- <-]; split; [by apply Hun|done]|].
  destruct (fs_rename f2 tmp new) as [f3 ok3] eqn:Er. pose proof (rename_same _ _ _ _ _ Er) as Hr.
  assert (H3 : same_files f f3 (fun p => p = tmp \/ p = new)) by (by eapply same_files_trans).
  destruct ok3; cbn [negb]; intros [= <- <-]; [|split; [by apply Hun|done]]. split; [done|]. intros _.
  rewrite (rename_read _ _ _ _ _ _ Er). rewrite decide_True by done. by apply (write_done f1 tmp msg).
Qed.

(** A copy of [msg] for [rcpt]: a file in new/ of its mailbox that a scan reads as a
    message without flags. *)
Definition has_copy (f : fs) (msg rcpt : bytes) (k : Z) : Prop :=
  exists user folder dir u, rcpt_target rcpt = Some (user, folder) /\ imapd_mbox_dir (ic_root (is_cfg srv)) user folder 4096 = Some dir /\
    entry_name u = Some (u, 0, []) /\ base_ok u /\ minted k u /\ fs_read f (dir ++ bs "/new/" ++ u) = Some msg.

Lemma minted_below (dir sub : bytes) u k : minted k u -> base_ok u -> minted_path k (dir ++ (sub ++ bs "/") ++ u).
Proof. intros Hm (_ & _ & _ & Hs). exists (dir ++ sub), u. split; [by rewrite <- !app_assoc|done]. Qed.

Lemma ingest_one_spec msg rcpt w : 0 <= ml_count w < UINT64_MAX ->
  exists w' ok, ingest_one srv pid msg rcpt w = (w', Some ok) /\ ml_count w <= ml_count w' <= ml_count w + 1 /\
    same_files (ml_fs w) (ml_fs w') (fun p => minted_path (ml_count w + 1) p /\ ml_count w' = ml_count w + 1) /\
    (ok = true -> ml_count w' = ml_count w + 1 /\ has_copy (ml_fs w') msg rcpt (ml_count w + 1)).
Proof.
  intros Hc. unfold ingest_one. destruct (rcpt_target rcpt) as [[user folder]|] eqn:Et; [|exists w, false; split; [done|]; split; [lia|]; by split].
  destruct (imapd_mbox_dir _ user folder 4096) as [dir|] eqn:Ed; [|exists w, false; split; [done|]; split; [lia|]; by split].
  destruct (unique_name_spec pid w) as (w1 & u & E & Hf & Hcnt & Hm & Hb). unfold mbind, prog_bind. rewrite E. unfold on_fs.
  assert (Hu64 : u64 (ml_count w + 1) = ml_count w + 1) by (unfold u64, UINT64_MAX in *; apply Z.mod_small; lia). rewrite Hu64 in Hm, Hcnt.
  destruct (imapd_mbox_deliver (ml_fs w1) dir u msg 0 []) as [f' ok] eqn:El. apply deliver_new in El as [Hs Hok]. rewrite Hf in Hs.
  eexists _, ok. split; [reflexivity|]. cbn [ml_count ml_fs]. rewrite Hcnt. split; [lia|]. split.
  - eapply same_files_weaken; [exact Hs|]. intros p Hp. split; [|done].
    destruct Hp as [-> | ->]; [exact (minted_below dir (bs "/tmp") u _ Hm Hb)|exact (minted_below dir (bs "/new") u _ Hm Hb)].
  - intros ->. split; [done|]. exists user, folder, dir, u. do 2 (split; [done|]). split; [by apply entry_name_bare|]. split; [done|]. split; [done|]. by apply Hok.
Qed.

(** A copy outlives the later deliveries. *)
Lemma has_copy_kept f f' msg rcpt k (ex : bytes -> Prop) : same_files f f' ex -> (forall p, minted_path k p -> ~ ex p) ->
  has_copy f msg rcpt k -> has_copy f' msg rcpt k.
Proof.
  intros Hs Hex (user & folder & dir & u & H1 & H2 & H3 & H4 & H5 & H6). exists user, folder, dir, u. do 5 (split; [done|]). rewrite <- H6.
  apply Hs, Hex. exact (minted_below dir (bs "/new") u k H5 H4).
Qed.

Definition minted_since (a b : Z) (p : bytes) : Prop := exists k, a < k <= b /\ minted_path k p.

Lemma ingest_rcpts_spec msg rs : forall failed w, 0 <= ml_count w -> ml_count w + len rs < 2 ^ 64 ->
  exists w' failed', ingest_rcpts srv pid msg rs failed w = (w', Some failed') /\ ml_count w <= ml_count w' <= ml_count w + len rs /\
    same_files (ml_fs w) (ml_fs w') (minted_since (ml_count w) (ml_count w')) /\
    (failed' = false -> failed = false /\ forall r, r ∈ rs -> exists k, has_copy (ml_fs w') msg r k).
Proof.
  assert (G : forall rs failed w, 0 <= ml_count w -> ml_count w + len rs < 2 ^ 64 ->
    exists w' failed', ingest_rcpts srv pid msg rs failed w = (w', Some failed') /\ ml_count w <= ml_count w' <= ml_count w + len rs /\
      same_files (ml_fs w) (ml_fs w') (minted_since (ml_count w) (ml_count w')) /\
      (failed' = false -> failed = false /\ forall r, r ∈ rs -> exists k, ml_count w < k <= ml_count w' /\ has_copy (ml_fs w') msg r k)).
  2: { intros failed w H0 Hc. destruct (G rs failed w H0 Hc) as (w' & b & E & H1 & H2 & H3). exists w', b. do 3 (split; [done|]).
       intros Hb. destruct (H3 Hb) as [? Hr]. split; [done|]. intros r Hin. destruct (Hr r Hin) as (k & _ & Hk). by exists k. }
  clear rs. induction rs as [|r rs IH]; intros failed w H0 Hc.
  { exists w, failed. split; [done|]. split; [cbn; lia|]. split; [done|]. intros ->. split; [done|]. intros r Hr. by apply not_elem_of_nil in Hr. }
  assert (Hl : len (r :: rs) = len rs + 1) by (change (Z.of_nat (S (length rs)) = Z.of_nat (length rs) + 1); lia). rewrite Hl in Hc |- *. cbn [ingest_rcpts].
  assert (H64 : ml_count w < UINT64_MAX) by (pose proof (Nat2Z.is_nonneg (length rs)); change (ml_count w + (Z.of_nat (length rs) + 1) < 2 ^ 64) in Hc; unfold UINT64_MAX; lia).
  destruct (ingest_one_spec msg r w (conj H0 H64)) as (w1 & ok & E1 & Hc1 & Hs1 & Hok). unfold mbind, prog_bind. rewrite E1.
  destruct (IH (failed || negb ok) w1 ltac:(lia) ltac:(lia)) as (w2 & b & E2 & Hc2 & Hs2 & Hb). exists w2, b. split; [done|]. split; [lia|]. split.
  - eapply same_files_trans.
    + eapply same_files_weaken; [exact Hs1|]. intros p [Hp Heq]. exists (ml_count w + 1). split; [lia|done].
    + eapply same_files_weaken; [exact Hs2|]. intros p (k & Hk & Hp). exists k. split; [lia|done].
  - intros ->. destruct (Hb eq_refl) as [Hor Hrs]. apply orb_false_iff in Hor as [-> Hnok]. apply negb_false_iff in Hnok as ->.
    split; [done|]. destruct (Hok eq_refl) as [Heq Hcopy]. intros x Hx. apply elem_of_cons in Hx as [->|Hx].
    + exists (ml_count w + 1). split; [lia|]. eapply has_copy_kept; [exact Hs2| |exact Hcopy].
      intros p Hp (k & Hk & Hp'). pose proof (minted_path_inj (ml_count w + 1) k p ltac:(lia) ltac:(lia) Hp Hp'). lia.
    + destruct (Hrs x Hx) as (k & Hk & Hcp). exists k. split; [lia|done].
Qed.
End Store.

(** RCPT accepts exactly the addresses that have a mailbox to go to. *)
Lemma rcpt_ok_target r : rcpt_user_ok r = true <-> is_Some (rcpt_target r).
Proof.
  unfold rcpt_user_ok, rcpt_target. destruct (mail_addr_parse r) as [[local d]|]; cbn [mbind option_bind]; [|split; [done|intros [? ?]; done]].
  unfold target_user, imapd_delivery_target. set (user := take_while _ local).
  assert (Hnil : is_nil local = true -> user = []) by (unfold user; by destruct local).
  destruct (is_nil local) eqn:El; cbn [orb].
  { rewrite Hnil by done. cbn. split; [done|intros [? ?]; done]. }
  destruct (is_nil user) eqn:Eu; cbn [orb negb andb]; [cbn; split; [done|intros [? ?]; done]|].
  destruct (Nat.leb_spec (S IMAPD_MAX_USER) (length user)) as [Hge|Hlt].
  { rewrite (proj2 (Nat.leb_gt _ _)) by lia. cbn. split; [done|intros [? ?]; done]. }
  rewrite (proj2 (Nat.leb_le _ _)) by lia. cbn [andb]. destruct (imapd_user_ok user) eqn:Eo; cbn [negb].
  - split; [intros _|done]. destruct (S IMAPD_MAX_MBOX <=? _)%nat; [by eexists|]. destruct (cut _ _) as [[a b]|]; [|by eexists].
    destruct (imapd_mbox_name_ok _); by eexists.
  - split; [done|]. intros [? ?]. done.
Qed.

(** ** Replies *)

Section Talk.
Context {N : ImapdNet} {HF : MailFs} (srv : ImapdServer) (pid : Z).

(** The session after replies: the buffers, and possibly closed. *)
Definition ing_quiet (c c' : Ing) : Prop := exists io, c' = ig_set_io io c /\ spoken (ig_io c) io.

#[export] Instance ing_quiet_refl : Reflexive ing_quiet.
Proof. intros c. exists (ig_io c). split; [by destruct c|done]. Qed.
#[export] Instance ing_quiet_trans : Transitive ing_quiet.
Proof. intros a b c (i & -> & H1) (j & -> & H2). exists j. split; [done|]. by etransitivity. Qed.

Lemma ing_reply_spec c text w : exists w' c', ing_reply c text w = (w', Some c') /\ net_only w w' /\ ing_quiet c c' /\
  (io_closed (ig_io c') = true \/ io_said (ig_io c') = io_said (ig_io c) ++ text).
Proof.
  destruct (reply_spoken false (ig_io c) text w) as (w' & io & E & Hw & Hs & Hsaid). exists w', (ig_set_io io c).
  unfold ing_reply, mbind, prog_bind. rewrite E. split; [done|]. split; [done|]. split; [by exists io|done].
Qed.

Lemma ing_fail_spec c text w : exists w' c', ing_fail c text w = (w', Some c') /\ net_only w w' /\ ing_quiet c c' /\ io_closed (ig_io c') = true.
Proof.
  destruct (ing_reply_spec c text w) as (w' & c' & E & Hw & (io & -> & Hs) & _). unfold ing_fail, mbind, prog_bind. rewrite E.
  eexists _, _. split; [reflexivity|]. split; [done|]. split; [|done]. exists (io_close io). split; [done|]. etransitivity; [exact Hs|apply spoken_close].
Qed.

(** ** The end of a message *)

Definition clean_from (from : option bytes) : Prop := forall f, from = Some f -> path_clean f = true.

Lemma return_path_ok from : clean_from from -> value_ok (return_path from).
Proof.
  intros Hc. unfold return_path.
  assert (Hall : Forall (fun c => c <> CR /\ c <> LF) ("<"%chr :: default [] from ++ [">"%chr])).
  { constructor; [done|]. apply Forall_app. split; [|by repeat constructor]. destruct from as [f|]; cbn [default]; [|constructor].
    specialize (Hc f eq_refl). apply path_clean_forall in Hc. eapply Forall_impl; [exact Hc|]. intros x Hx. unfold path_byte in Hx.
    destruct (Z.ltb_spec x 0x21); [done|]. lia. }
  apply (Forall_take _ (Z.to_nat (INGEST_MAX_LINE + 3))) in Hall. rewrite Forall_forall in Hall.
  split; apply has_false; intros Hin; by destruct (Hall _ Hin).
Qed.
End Talk.

Section Message.
Context {N : ImapdNet} `{HF : MailFs} `{L : !MailFsLaws} (srv : ImapdServer) (pid : Z).

Definition OK_stored : bytes := bs "250 2.0.0 OK: stored" ++ CRLF.

(** What is stored: the unstuffed bytes with CRLF line ends and the sender in the
    Return-Path field, first or in place of the one the message had. *)
Definition stored_text (c : Ing) (text : bytes) : Prop :=
  let norm := crlf_norm (mail_unstuff_dots (ig_data c)) in
  parse_fields text = (set_first (bs "Return-Path") (return_path (ig_from c)) (fields norm), body norm).

Lemma ing_deliver_spec c w : clean_from (ig_from c) -> 2 * ic_max_msg (is_cfg srv) <= INT_MAX ->
  0 <= ml_count w -> ml_count w + len (ig_rcpts c) < 2 ^ 64 ->
  exists w' c', ingest_deliver srv pid c w = (w', Some c') /\ ml_count w <= ml_count w' <= ml_count w + len (ig_rcpts c) /\
    same_files (ml_fs w) (ml_fs w') (minted_since (ml_count w) (ml_count w')) /\ io_in (ig_io c') = io_in (ig_io c) /\
    (ing_quiet c c' /\ io_closed (ig_io c') = true \/ ing_quiet (ing_reset c IG_HELO) c') /\
    (io_closed (ig_io c') = true \/ exists reply text, io_said (ig_io c') = io_said (ig_io c) ++ reply /\ stored_text c text /\
      (reply = OK_stored -> forall r, r ∈ ig_rcpts c -> exists k, has_copy srv (ml_fs w') text r k)).
Proof.
  intros Hfrom Hfit H0 Hcnt. unfold ingest_deliver. set (msg := mail_unstuff_dots (ig_data c)) in *.
  assert (Hfail : forall t, exists w' c', ing_fail c t w = (w', Some c') /\ ml_count w <= ml_count w' <= ml_count w + len (ig_rcpts c) /\
    same_files (ml_fs w) (ml_fs w') (minted_since (ml_count w) (ml_count w')) /\ io_in (ig_io c') = io_in (ig_io c) /\
    (ing_quiet c c' /\ io_closed (ig_io c') = true \/ ing_quiet (ing_reset c IG_HELO) c') /\
    (io_closed (ig_io c') = true \/ exists reply text, io_said (ig_io c') = io_said (ig_io c) ++ reply /\ stored_text c text /\
      (reply = OK_stored -> forall r, r ∈ ig_rcpts c -> exists k, has_copy srv (ml_fs w') text r k))).
  { intros t. destruct (ing_fail_spec c t w) as (w' & c' & E & (Ef & _ & Ec) & Hq & Hcl). exists w', c'. split; [done|]. rewrite Ec, Ef. split; [lia|].
    split; [done|]. split; [|split; [by left|by left]]. by destruct Hq as (io & -> & (_ & Hi & _)). }
  destruct (mail_data_has_ctl msg); [apply Hfail|]. destruct (len msg >? _) eqn:Hmax; [apply Hfail|]. clear Hfail.
  rewrite Z.gtb_ltb in Hmax. apply Z.ltb_ge in Hmax. pose proof (crlf_norm_length msg) as Hnl.
  destruct (mail_normalize_crlf_correct msg (replicate (length msg + 2) 0)) as (Hn & Hcr & _); [rewrite length_replicate; lia|].
  rewrite Hn. rewrite Z.gtb_ltb. destruct (Z.ltb_spec INT_MAX (len (crlf_norm msg))); [lia|]. destruct (Z.ltb_spec (len (crlf_norm msg)) 0); [lia|].
  rewrite Nat2Z.id, take_app_length.
  destruct (mail_header_set_get (crlf_norm msg) (bs "Return-Path") (return_path (ig_from c)) (S (length (return_path (ig_from c)))) Hcr) as (text & Hset & Hparse & _);
    [name_ok|by apply return_path_ok|lia|]. rewrite Hset.
  destruct (ingest_rcpts_spec srv pid text (ig_rcpts c) false w H0 Hcnt) as (w1 & failed & E & Hc1 & Hs1 & Hst). unfold mbind, prog_bind. rewrite E.
  match goal with |- context [ing_reply _ ?t w1] => destruct (ing_reply_spec (ing_reset c IG_HELO) t w1) as (w2 & c2 & E2 & (Ef & _ & Ec) & Hq & Hsaid); rewrite E2 end.
  exists w2, c2. split; [done|]. rewrite Ec, Ef. split; [done|]. split; [done|]. split; [by destruct Hq as (io & -> & (_ & Hi & _))|]. split; [by right|].
  destruct Hsaid as [Hcl|Hsaid]; [by left|]. right. eexists _, text. split; [exact Hsaid|]. split; [done|].
  destruct failed; [intros Heq; discriminate Heq|]. intros _. by apply Hst.
Qed.

(** C24: A message is acknowledged only when every recipient has it. While twice the size
    limit fits an int and the delivery counter stays within 64 bits, and with a clean
    sender (as every session has it), the listener returns at the end of
    DATA; when it then says the 250, each recipient has a file in new/
    of the mailbox its address names, under a name a scan takes as a message without
    flags, whose contents are the message with CRLF line ends, its body unchanged, and
    the sender in Return-Path. Whatever it says, no file has changed but those whose
    names it minted meanwhile. *)
Theorem ingest_acknowledged_means_stored (c : Ing) (w : Mail) (Hfrom : clean_from (ig_from c))
    (Hfit : 2 * ic_max_msg (is_cfg srv) <= INT_MAX) (H0 : 0 <= ml_count w) (Hcnt : ml_count w + len (ig_rcpts c) < 2 ^ 64) :
  exists w' c', ingest_deliver srv pid c w = (w', Some c') /\ same_files (ml_fs w) (ml_fs w') (minted_since (ml_count w) (ml_count w')) /\
    (io_closed (ig_io c') = true \/ exists reply text, io_said (ig_io c') = io_said (ig_io c) ++ reply /\ stored_text c text /\
      (reply = OK_stored -> forall r, r ∈ ig_rcpts c -> exists k, has_copy srv (ml_fs w') text r k)).
Proof.
  destruct (ing_deliver_spec c w Hfrom Hfit H0 Hcnt) as (w' & c' & E & _ & Hs & _ & _ & Hsaid). by exists w', c'.
Qed.
End Message.

(** ** The session *)

Section Session.
Context {N : ImapdNet} `{HF : MailFs} `{L : !MailFsLaws} (srv : ImapdServer) (pid : Z).

Record ing_ok (c : Ing) : Prop := {
  ik_from : clean_from (ig_from c);
  ik_rcpts : (length (ig_rcpts c) <= IMAPD_MAX_RCPTS)%nat /\ Forall (fun r => rcpt_user_ok r = true) (ig_rcpts c);
  ik_state : match ig_st c with
             | IG_INIT | IG_HELO => ig_from c = None /\ ig_rcpts c = []
             | IG_MAIL => is_Some (ig_from c)
             | IG_DATA => is_Some (ig_from c) /\ ig_rcpts c <> []
             end;
  ik_data : len (ig_data c) <= Z.max 0 (raw_cap srv)
}.

Lemma ing_ok_reset c st : st = IG_INIT \/ st = IG_HELO -> ing_ok (ing_reset c st).
Proof. intros Hst. split; cbn; [by intros f|split; [unfold IMAPD_MAX_RCPTS; lia|constructor]|by destruct Hst as [-> | ->]|lia]. Qed.

Lemma ing_ok_quiet c c' : ing_ok c -> ing_quiet c c' -> ing_ok c'.
Proof. intros [O1 O2 O3 O4] (io & -> & _). by split. Qed.

Lemma ing_ok_io c io : ing_ok c -> ing_ok (ig_set_io io c).
Proof. intros [O1 O2 O3 O4]. by split. Qed.

(** A command returns, talks at most, keeps the invariant and the pending input. *)
Definition ing_keeps (c : Ing) (m : prog Mail Ing) : Prop := forall w, exists w' c', m w = (w', Some c') /\ net_only w w' /\ ing_ok c' /\
  io_in (ig_io c') = io_in (ig_io c).

Lemma keeps_reply c c1 text : ing_ok c1 -> io_in (ig_io c1) = io_in (ig_io c) -> ing_keeps c (ing_reply c1 text).
Proof.
  intros Hok Hin w. destruct (ing_reply_spec c1 text w) as (w' & c' & E & Hw & Hq & _). exists w', c'. split; [done|]. split; [done|].
  split; [by eapply ing_ok_quiet|]. destruct Hq as (io & -> & (_ & Hi & _)). cbn. congruence.
Qed.

Lemma keeps_fail c text : ing_ok c -> ing_keeps c (ing_fail c text).
Proof.
  intros Hok w. destruct (ing_fail_spec c text w) as (w' & c' & E & Hw & Hq & _). exists w', c'. split; [done|]. split; [done|].
  split; [by eapply ing_ok_quiet|]. by destruct Hq as (io & -> & (_ & Hi & _)).
Qed.

Lemma keeps_mail_cmd c rest : ing_ok c -> ing_keeps c (ing_mail c rest).
Proof.
  intros Hok. unfold ing_mail. destruct (ig_st c) eqn:Est; try (by apply keeps_reply). destruct (parse_addr_arg _ _ _) as [[path ps]|]; [|by apply keeps_reply].
  destruct (path_clean path) eqn:Ep; cbn [negb]; [|by apply keeps_reply]. apply keeps_reply; [|done]. destruct Hok as [O1 O2 O3 O4]. rewrite Est in O3.
  split; cbn; [by intros f [= <-]|done|by eexists|done].
Qed.

Lemma keeps_rcpt_cmd c rest : ing_ok c -> ing_keeps c (ing_rcpt c rest).
Proof.
  intros Hok. unfold ing_rcpt. destruct (ig_st c) eqn:Est; try (by apply keeps_reply).
  destruct (Nat.leb_spec IMAPD_MAX_RCPTS (length (ig_rcpts c))); [by apply keeps_reply|]. destruct (parse_addr_arg _ _ _) as [[path ps]|]; [|by apply keeps_reply].
  destruct (_ || _); [by apply keeps_reply|]. destruct (mail_addr_parse path); [|by apply keeps_reply].
  destruct (rcpt_user_ok path) eqn:Er; cbn [negb]; [|by apply keeps_reply]. apply keeps_reply; [|done]. destruct Hok as [O1 [O2 O2'] O3 O4]. rewrite Est in O3.
  split; cbn; [done| |by rewrite Est|done]. rewrite length_app. cbn. split; [lia|]. apply Forall_app. split; [done|]. by constructor.
Qed.

Lemma keeps_data_cmd c : ing_ok c -> ing_keeps c (ing_data_cmd c).
Proof.
  intros Hok. unfold ing_data_cmd. destruct (ig_st c) eqn:Est; try (by apply keeps_reply).
  destruct (Nat.eqb_spec (length (ig_rcpts c)) 0); [by apply keeps_reply|]. intros w. unfold mbind, prog_bind.
  destruct (ing_reply_spec c (bs "354 End data with <CR><LF>.<CR><LF>" ++ CRLF) w) as (w' & c' & E & Hw & (io & -> & (_ & Hi & _)) & _). rewrite E.
  eexists _, _. split; [reflexivity|]. split; [done|]. split; [|done]. destruct Hok as [O1 O2 O3 O4]. rewrite Est in O3.
  split; cbn; [done|done| |lia]. split; [done|]. by intros E'; rewrite E' in n.
Qed.

Lemma keeps_starttls_cmd c rest : ing_ok c -> ing_keeps c (ing_starttls srv c rest).
Proof.
  intros Hok. unfold ing_starttls. repeat (match goal with |- ing_keeps _ (if ?b then _ else _) => destruct b; [by apply keeps_reply|] end).
  intros w. unfold imapd_tls_start, on_net, mbind, prog_bind. destruct (ssl_setup (ml_net w) _) as [n [h|]]; cbn [mret prog_ret fst snd negb];
    match goal with |- context [ing_reply ?c1 ?t ?w1] => destruct (keeps_reply c c1 t (ing_ok_io _ _ Hok) eq_refl w1) as (w' & c' & E & Hw & H) end;
    rewrite E; exists w', c'; (split; [done|]); (split; [|done]); destruct Hw as (H1 & H2 & H3); by repeat split.
Qed.

Lemma command_keeps_ing c line : ing_ok c -> ing_keeps c (ingest_command srv c line).
Proof.
  intros Hok. unfold ingest_command. cbv zeta.
  repeat (match goal with |- ing_keeps _ (if verb_is _ ?n then _ else _) => destruct (verb_is _ n) end).
  - unfold ing_ehlo. destruct (is_nil _); [by apply keeps_reply|]. apply keeps_reply; [|done]. apply ing_ok_reset. by right.
  - unfold ing_helo. destruct (is_nil _); [by apply keeps_reply|]. apply keeps_reply; [|done]. apply ing_ok_reset. by right.
  - by apply keeps_mail_cmd.
  - by apply keeps_rcpt_cmd.
  - by apply keeps_data_cmd.
  - apply keeps_reply; [|done]. apply ing_ok_reset. destruct (ig_st c); auto.
  - by apply keeps_reply.
  - by apply keeps_fail.
  - by apply keeps_reply.
  - by apply keeps_starttls_cmd.
  - by apply keeps_reply.
  - by apply keeps_reply.
Qed.

Lemma commands_keep n : forall c w, ing_ok c -> (length (io_in (ig_io c)) < n)%nat ->
  exists w' c', ingest_commands_loop srv n c w = (w', Some c') /\ net_only w w' /\ ing_ok c'.
Proof.
  induction n as [|n IH]; intros c w Hok Hn; [lia|]. cbn [ingest_commands_loop].
  assert (Hstop : forall c1 w1, ing_ok c1 -> net_only w w1 -> exists w' c', @mret (prog Mail) _ _ c1 w1 = (w', Some c') /\ net_only w w' /\ ing_ok c')
    by (intros c1 w1 ? ?; by exists w1, c1).
  destruct (io_closed (ig_io c)); [by apply Hstop|]. destruct (match io_tls (ig_io c) with Some _ => _ | None => _ end); [by apply Hstop|].
  assert (Hlong : exists w' c', ing_fail c (bs "500 5.5.2 Line too long" ++ CRLF) w = (w', Some c') /\ net_only w w' /\ ing_ok c')
    by (destruct (keeps_fail c (bs "500 5.5.2 Line too long" ++ CRLF) Hok w) as (w' & c' & E & Hw & H & _); by exists w', c').
  pose proof (cut_spec LF (io_in (ig_io c))) as Hcut. destruct (cut LF (io_in (ig_io c))) as [[line rest]|]; [|destruct (_ >? _); [exact Hlong|by apply Hstop]].
  destruct (_ >? _); [exact Hlong|]. clear Hlong. destruct Hcut as [Hin _]. rewrite Hin, length_app in Hn. cbn [length] in Hn.
  destruct (command_keeps_ing (ig_set_io (io_set_in rest (ig_io c)) c) (c_str (strip_cr line)) (ing_ok_io _ _ Hok) w) as (w1 & c1 & E & Hw1 & Hok1 & Hin1).
  unfold mbind, prog_bind. rewrite E. cbn in Hin1. destruct (_ && _) eqn:Hd.
  - destruct (is_nil _); [by apply Hstop|]. unfold ing_append. destruct (_ >? _) eqn:Hcap.
    + destruct (keeps_fail c1 (bs "552 5.3.4 Message exceeds fixed limit" ++ CRLF) Hok1 w1) as (w2 & c2 & E2 & Hw2 & H & _). exists w2, c2.
      split; [done|]. split; [by etransitivity|done].
    + apply Hstop; [|done]. destruct Hok1 as [O1 O2 O3 O4]. split; cbn; try done. rewrite length_app, Nat2Z.inj_add.
      rewrite Z.gtb_ltb in Hcap. apply Z.ltb_ge in Hcap. lia.
  - destruct (IH c1 w1 Hok1) as (w2 & c2 & E2 & Hw2 & Hok2); [rewrite Hin1; lia|]. exists w2, c2. split; [done|]. split; [by etransitivity|done].
Qed.

Lemma append_cap c d : ing_ok c -> match ing_append srv c d with
  | inl m => ing_keeps c m
  | inr c' => ing_ok c' /\ ig_st c' = ig_st c /\ ig_rcpts c' = ig_rcpts c
  end.
Proof.
  intros Hok. unfold ing_append. destruct (_ >? _) eqn:Hcap; [by apply keeps_fail|]. split; [|done]. destruct Hok as [O1 O2 O3 O4].
  split; cbn; try done. rewrite length_app, Nat2Z.inj_add. rewrite Z.gtb_ltb in Hcap. apply Z.ltb_ge in Hcap. lia.
Qed.

Lemma ing_ok_data c d n : ing_ok c -> len d <= len (ig_data c) -> ing_ok (ig_set_data d n c).
Proof. intros [O1 O2 O3 O4] Hd. split; cbn; try done. lia. Qed.

(** The counter has room for the recipients of a message. *)
Definition room (w : Mail) : Prop := 0 <= ml_count w /\ ml_count w + Z.of_nat IMAPD_MAX_RCPTS < 2 ^ 64.

Lemma data_keeps c w : ing_ok c -> room w -> 2 * ic_max_msg (is_cfg srv) <= INT_MAX ->
  exists w' c', ingest_data srv pid c w = (w', Some c') /\ ing_ok c' /\ ml_count w <= ml_count w' <= ml_count w + Z.of_nat IMAPD_MAX_RCPTS /\
    same_files (ml_fs w) (ml_fs w') (minted_since (ml_count w) (ml_count w')).
Proof.
  intros Hok [H0 Hroom] Hfit. unfold ingest_data.
  assert (Htalk : forall w1 c1, net_only w w1 -> ing_ok c1 -> ing_ok c1 /\ ml_count w <= ml_count w1 <= ml_count w + Z.of_nat IMAPD_MAX_RCPTS /\
    same_files (ml_fs w) (ml_fs w1) (minted_since (ml_count w) (ml_count w1))) by (intros w1 c1 (Ef & _ & Ec) ?; rewrite Ef, Ec; split; [done|]; split; [lia|done]).
  destruct (data_scan _ _ _ _) as [msg_end term_len|pos|].
  - set (c1 := ig_set_data _ _ _). assert (Hok1 : ing_ok c1).
    { apply ing_ok_data; [by apply ing_ok_io|]. cbn. rewrite length_take. lia. }
    assert (Hrc : len (ig_rcpts c1) <= Z.of_nat IMAPD_MAX_RCPTS) by (destruct (ik_rcpts c1 Hok1); lia).
    destruct (ing_deliver_spec srv pid c1 w (ik_from c1 Hok1) Hfit H0 ltac:(lia)) as (w1 & c2 & E & Hc1 & Hs1 & _ & Hq & _).
    assert (Hok2 : ing_ok c2).
    { destruct Hq as [[Hq _]|Hq]; (eapply ing_ok_quiet; [|exact Hq]); [done|]. apply ing_ok_reset. by right. }
    unfold mbind, prog_bind. rewrite E.
    assert (Hend : forall w2 c3, net_only w1 w2 -> ing_ok c3 -> ing_ok c3 /\ ml_count w <= ml_count w2 <= ml_count w + Z.of_nat IMAPD_MAX_RCPTS /\
      same_files (ml_fs w) (ml_fs w2) (minted_since (ml_count w) (ml_count w2))) by (intros w2 c3 (Ef & _ & Ec) ?; rewrite Ef, Ec; split; [done|]; split; [lia|done]).
    destruct (_ && _).
    + unfold ingest_commands. destruct (commands_keep (S (length (io_in (ig_io c2)))) c2 w1 Hok2 (Nat.lt_succ_diag_r _)) as (w2 & c3 & E3 & Hw & Hok3).
      exists w2, c3. split; [done|]. by apply Hend.
    + exists w1, c2. split; [done|]. by apply Hend.
  - exists w, (ig_set_data (ig_data c) pos c). split; [done|]. apply Htalk; [done|]. by apply ing_ok_data.
  - destruct (keeps_fail c (bs "552 5.3.4 Message exceeds fixed limits" ++ CRLF) Hok w) as (w' & c' & E & Hw & H & _). exists w', c'. split; [done|]. by apply Htalk.
Qed.

Lemma take_keeps c d now w : ing_ok c -> room w -> 2 * ic_max_msg (is_cfg srv) <= INT_MAX ->
  exists w' c', ingest_take srv pid c d now w = (w', Some c') /\ ing_ok c' /\ ml_count w <= ml_count w' <= ml_count w + Z.of_nat IMAPD_MAX_RCPTS /\
    same_files (ml_fs w) (ml_fs w') (minted_since (ml_count w) (ml_count w')).
Proof.
  intros Hok Hroom Hfit. unfold ingest_take. set (c0 := ig_set_io _ c). assert (Hok0 : ing_ok c0) by (by apply ing_ok_io).
  assert (Htalk : forall w1 c1, net_only w w1 -> ing_ok c1 -> ing_ok c1 /\ ml_count w <= ml_count w1 <= ml_count w + Z.of_nat IMAPD_MAX_RCPTS /\
    same_files (ml_fs w) (ml_fs w1) (minted_since (ml_count w) (ml_count w1))) by (intros w1 c1 (Ef & _ & Ec) ?; rewrite Ef, Ec; split; [done|]; split; [lia|done]).
  assert (Hcmd : exists w' c', ingest_commands srv (ig_set_io (io_set_in (io_in (ig_io c0) ++ d) (ig_io c0)) c0) w = (w', Some c') /\ ing_ok c' /\
    ml_count w <= ml_count w' <= ml_count w + Z.of_nat IMAPD_MAX_RCPTS /\ same_files (ml_fs w) (ml_fs w') (minted_since (ml_count w) (ml_count w'))).
  { unfold ingest_commands. set (c1 := ig_set_io (io_set_in _ _) c0).
    destruct (commands_keep (S (length (io_in (ig_io c1)))) c1 w (ing_ok_io _ _ Hok0) (Nat.lt_succ_diag_r _)) as (w1 & c2 & E & Hw & Hok2).
    exists w1, c2. split; [done|]. by apply Htalk. }
  destruct (ig_st c0); try exact Hcmd. pose proof (append_cap c0 d Hok0) as Ha. destruct (ing_append srv c0 d) as [m|c1].
  - destruct (Ha w) as (w1 & c1 & E & Hw & Hok1 & _). exists w1, c1. split; [done|]. by apply Htalk.
  - destruct Ha as [Ha _]. by apply data_keeps.
Qed.

(** The states of a session. *)
Inductive ing_session : Ing -> Prop :=
  | ings_new io : ing_session (MkIng io IG_INIT None [] [] 0)
  | ings_greet c w w' c' : ing_session c -> imapd_ingest_greeting srv c w = (w', Some c') -> ing_session c'
  | ings_take c d now w w' c' : ing_session c -> room w -> ingest_take srv pid c d now w = (w', Some c') -> ing_session c'
  | ings_tls c io : ing_session c -> ing_session (imapd_ingest_tls_reset (ig_set_io io c)).

(** C25: the ingest session keeps its invariant and always returns. In every state it
    can be in, the sender is clean, there are at most 32 recipients, each of them an
    address that has a mailbox to go to, a message only starts with a sender and a
    recipient, and the buffer stays below its cap; whatever bytes arrive then, it
    works through them and returns, and no file has changed but those whose names it
    minted. *)
Theorem ingest_session_invariant (c : Ing) (d : bytes) (now : Z) (w : Mail)
    (Hses : ing_session c) (Hroom : room w) (Hfit : 2 * ic_max_msg (is_cfg srv) <= INT_MAX) :
  ing_ok c /\ (forall r, r ∈ ig_rcpts c -> is_Some (rcpt_target r)) /\
  exists w' c', ingest_take srv pid c d now w = (w', Some c') /\ same_files (ml_fs w) (ml_fs w') (minted_since (ml_count w) (ml_count w')).
Proof.
  assert (Hok : ing_ok c).
  { induction Hses as [io|c w0 w1 c' _ IH E|c d0 now0 w0 w1 c' _ IH Hr E|c io _ IH].
    - split; cbn; [by intros f|split; [unfold IMAPD_MAX_RCPTS; lia|constructor]|done|lia].
    - unfold imapd_ingest_greeting in E. cbv zeta in E.
      match type of E with ing_reply _ ?t _ = _ => destruct (keeps_reply c c t IH eq_refl w0) as (w2 & c2 & E2 & _ & H & _) end.
      rewrite E2 in E. by injection E as _ <-.
    - destruct (take_keeps c d0 now0 w0 IH Hr Hfit) as (w2 & c2 & E2 & H & _). rewrite E2 in E. by injection E as _ <-.
    - apply ing_ok_reset. by left. }
  split; [done|]. split.
  - intros r Hin. destruct (ik_rcpts c Hok) as [_ Hall]. rewrite Forall_forall in Hall. by apply rcpt_ok_target, Hall.
  - destruct (take_keeps c d now w Hok Hroom Hfit) as (w' & c' & E & _ & _ & Hs). by exists w', c'.
Qed.
End Session.

(** ** A listener in memory *)

Definition ing_w_srv : ImapdServer :=
  {| is_cfg := {| ic_root := bs "/m"; ic_ingest_addr := []; ic_ingest_port := 0; ic_imap_addr := []; ic_imap_port := 0; ic_pop3_addr := [];
                  ic_pop3_port := 110; ic_hostname := bs "h"; ic_max_msg := 1000; ic_cmd_tmo := 300; ic_data_tmo := 300; ic_cert := None; ic_key := None |};
     is_creds := []; is_tls_ready := false; is_imap_loopback := true; is_pop3_loopback := true |}.
Definition ing_w_conn : Ing := MkIng pop_w_io IG_DATA (Some (bs "a@b")) [bs "al+Lists@x.org"; bs "bo@x.org"] (bs "S: t" ++ CRLF ++ CRLF ++ bs "..x" ++ CRLF) 0.
Definition ing_w_mail : Mail := MkMail quiet_net ([] : MemFiles) [] 0.

Example ing_w_delivers :
  (fun r => (r.2 ≫= fun c => Some (io_said (ig_io c)), map fst (ml_fs r.1))) (ingest_deliver (HF := MemMailFs) ing_w_srv 7 ing_w_conn ing_w_mail)
  = (Some OK_stored, [bs "/m/al/.Lists/new/1000.M0P7R1.imapd"; bs "/m/bo/Inbox/new/1000.M0P7R2.imapd"]).
Proof. vm_compute. reflexivity. Qed.

Lemma ingest_acknowledged_means_stored_witness :
  exists w' c', ingest_deliver (HF := MemMailFs) ing_w_srv 7 ing_w_conn ing_w_mail = (w', Some c') /\
    (io_closed (ig_io c') = true \/ exists reply text, io_said (ig_io c') = io_said (ig_io ing_w_conn) ++ reply /\ stored_text ing_w_conn text /\
      (reply = OK_stored -> forall r, r ∈ ig_rcpts ing_w_conn -> exists k, has_copy (HF := MemMailFs) ing_w_srv (ml_fs w') text r k)).
Proof.
  destruct (ingest_acknowledged_means_stored (HF := MemMailFs) ing_w_srv 7 ing_w_conn ing_w_mail) as (w' & c' & E & _ & H).
  - intros f [= <-]. vm_compute. reflexivity.
  - vm_compute. discriminate.
  - vm_compute. discriminate.
  - vm_compute. reflexivity.
  - exists w', c'. exact (conj E H).
Defined.

Lemma ingest_session_invariant_witness :
  exists w' c', ingest_take (HF := MemMailFs) ing_w_srv 7 (MkIng pop_w_io IG_INIT None [] [] 0) (bs "EHLO x" ++ CRLF) 5 ing_w_mail = (w', Some c').
Proof.
  destruct (ingest_session_invariant (HF := MemMailFs) ing_w_srv 7 (MkIng pop_w_io IG_INIT None [] [] 0) (bs "EHLO x" ++ CRLF) 5 ing_w_mail) as (_ & _ & w' & c' & E & _);
    [constructor|split; vm_compute; [discriminate|reflexivity]|vm_compute; discriminate|]. exists w', c'. exact E.
Defined.

(** As in smtp_in.c, a body sent together with DATA is moved to the message buffer but
    not scanned, so a client that sent the whole message at once waits for a reply
    until it sends another byte or times out. *)
Definition ing_w_piped : bytes :=
  bs "EHLO x" ++ CRLF ++ bs "MAIL FROM:<a@b>" ++ CRLF ++ bs "RCPT TO:<al@x.org>" ++ CRLF ++ bs "DATA" ++ CRLF ++ bs "hi" ++ CRLF ++ bs "." ++ CRLF.

Lemma ingest_pipelined_body_waits :
  (fun r => (fun c => (ig_st c, ig_data c, io_in (ig_io c))) <$> r.2)
    (ingest_take (HF := MemMailFs) ing_w_srv 7 (MkIng pop_w_io IG_INIT None [] [] 0) ing_w_piped 5 ing_w_mail)
  = Some (IG_DATA, bs "hi" ++ CRLF ++ bs "." ++ CRLF, []).
Proof. vm_compute. reflexivity. Qed.
