(* ===== verification/ImapdPeer.v ===== *)
(** * The peer of a connection of imapd

    No handler changes the address a connection came from, which is what the limit per
    address counts, nor does TLS appear on a connection of a server without it. *)

From S2P Require Import Prelude MailLines MailAddr MailHeader Json Prog SmtpData SmtpWorld SmtpParse SmtpSession MailStore MailAuth MailUid MailHdrs MailBox ImapdNet Pop3 Ingest.

(** ** Where a run ends *)

(** If [m] ends, it ends in [Q]. *)
Definition yields {S A} (m : prog S A) (Q : A -> Prop) : Prop := forall s, match (m s).2 with Some a => Q a | None => True end.

(** [m] ends in [Q], except that it may still be running when [b] holds. *)
Definition completes {S A} (b : Prop) (m : prog S A) (Q : A -> Prop) : Prop := forall s, match (m s).2 with Some a => Q a | None => b end.

Section Rules.
Context {S : Type}.

Lemma yields_ret {A} (a : A) (Q : A -> Prop) : Q a -> yields (@mret (prog S) _ _ a) Q.
Proof. by intros H s. Qed.

Lemma yields_running {A} (Q : A -> Prop) : yields (@running S A) Q.
Proof. done. Qed.

Lemma yields_bind {A B} (P : A -> Prop) (m : prog S A) (k : A -> prog S B) Q : yields m P -> (forall a, P a -> yields (k a) Q) -> yields (m ≫= k) Q.
Proof.
  intros Hm Hk s. specialize (Hm s). unfold mbind, prog_bind. destruct (m s) as [s' [a|]]; cbn in *; [by apply Hk|done].
Qed.

Lemma yields_any {A} (m : prog S A) : yields m (fun _ => True).
Proof. intros s. by destruct (m s).2. Qed.

Lemma yields_mono {A} (m : prog S A) (P Q : A -> Prop) : yields m P -> (forall a, P a -> Q a) -> yields m Q.
Proof. intros H Hi s. specialize (H s). destruct (m s).2; auto. Qed.

Lemma completes_ret {A} b (a : A) (Q : A -> Prop) : Q a -> completes b (@mret (prog S) _ _ a) Q.
Proof. by intros H s. Qed.

Lemma completes_bind {A B} b (P : A -> Prop) (m : prog S A) (k : A -> prog S B) Q : completes b m P -> (forall a, P a -> completes b (k a) Q) -> completes b (m ≫= k) Q.
Proof.
  intros Hm Hk s. specialize (Hm s). unfold mbind, prog_bind. destruct (m s) as [s' [a|]]; cbn in *; [by apply Hk|done].
Qed.

Lemma completes_and {A} b (m : prog S A) (P Q : A -> Prop) : completes b m P -> yields m Q -> completes b m (fun a => P a /\ Q a).
Proof. intros H1 H2 s. specialize (H1 s). specialize (H2 s). by destruct (m s).2. Qed.

Lemma completes_mono {A} b (m : prog S A) (P Q : A -> Prop) : completes b m P -> (forall a, P a -> Q a) -> completes b m Q.
Proof. intros H Hi s. specialize (H s). destruct (m s).2; auto. Qed.

Lemma completes_always {A} b (m : prog S A) (Q : A -> Prop) : (forall s, exists s' a, m s = (s', Some a) /\ Q a) -> completes b m Q.
Proof. intros H s. destruct (H s) as (s' & a & E & HQ). by rewrite E. Qed.
End Rules.

Section Peer.
Context {N : ImapdNet} {HF : MailFs} (srv : ImapdServer).

(** The same peer, and no TLS where there is none to be had. *)
Definition peer (a b : Io) : Prop := io_ip b = io_ip a /\ (is_tls_ready srv = false -> io_tls a = None -> io_tls b = None).

#[export] Instance peer_refl : Reflexive peer.
Proof. by intros a. Qed.
#[export] Instance peer_trans : Transitive peer.
Proof. intros a b c [A1 A2] [B1 B2]. split; [congruence|auto]. Qed.

Lemma flush_peer a drop_dead c : peer a c -> yields (imapd_conn_flush drop_dead c) (peer a).
Proof.
  intros Ha. unfold imapd_conn_flush. cbv zeta. destruct (_ <=? _)%nat; [by apply yields_ret|].
  eapply yields_bind; [apply yields_any|]. intros rs _. apply yields_ret. destruct (out_loop _ _ _); [done| |done]. by destruct (_ || _).
Qed.

Lemma reply_peer a drop_dead c text : peer a c -> yields (imapd_conn_reply drop_dead c text) (peer a).
Proof. intros Ha. unfold imapd_conn_reply. destruct (_ >? _); [by apply yields_ret|]. by apply flush_peer. Qed.

Lemma step_peer a c now : peer a c -> yields (imapd_tls_handshake_step c now) (fun r => peer a r.1).
Proof.
  intros Ha. unfold imapd_tls_handshake_step. destruct (io_tls c) as [t|] eqn:Et; [|by apply yields_ret].
  assert (Hset : forall x n, peer a (io_set_tls (Some x) (io_set_act n c))).
  { intros x n. destruct Ha as [H1 H2]. split; [done|]. intros Hr Hn. rewrite (H2 Hr Hn) in Et. done. }
  assert (Hgo : yields (r ← on_net (fun n => ssl_handshake n (it_ssl t));
     mret (if r =? 0 then (io_set_tls (Some {| it_ssl := it_ssl t; it_state := TLS_ESTABLISHED; it_want_write := it_want_write t |}) (io_set_act now c), 1)
           else if r =? MBEDTLS_ERR_SSL_WANT_READ then (io_set_tls (Some {| it_ssl := it_ssl t; it_state := TLS_HANDSHAKE; it_want_write := false |}) (io_set_act now c), 0)
           else if r =? MBEDTLS_ERR_SSL_WANT_WRITE then (io_set_tls (Some {| it_ssl := it_ssl t; it_state := TLS_HANDSHAKE; it_want_write := true |}) (io_set_act now c), 0)
           else (io_set_tls (Some {| it_ssl := it_ssl t; it_state := TLS_HANDSHAKE; it_want_write := it_want_write t |}) (io_set_act now c), -1))) (fun r => peer a r.1)).
  { eapply yields_bind; [apply yields_any|]. intros r _. apply yields_ret. repeat (destruct (_ =? _); [apply Hset|]). apply Hset. }
  by destruct (it_state t); [| |apply yields_ret].
Qed.

Lemma start_peer a c : is_tls_ready srv = true -> peer a c -> yields (imapd_tls_start c) (fun r => peer a r.1).
Proof.
  intros Hr Ha. unfold imapd_tls_start. eapply yields_bind; [apply yields_any|]. intros [h|] _; apply yields_ret; [|done]. destruct Ha as [H1 _].
  split; [done|]. cbn. congruence.
Qed.

(** ** POP3 *)

Definition pop_at (a : Io) (c : Pop) : Prop := peer a (pp_io c).

Lemma pop_reply_at a c t : pop_at a c -> yields (pop_reply c t) (pop_at a).
Proof. intros H. unfold pop_reply. eapply yields_bind; [by apply reply_peer|]. intros io Hio. by apply yields_ret. Qed.

Lemma pop_replyf_at a c t : pop_at a c -> yields (pop_replyf c t) (pop_at a).
Proof.
  intros H. unfold pop_replyf. destruct (_ <=? _); [|by apply pop_reply_at]. eapply yields_bind; [by apply pop_reply_at|]. intros c' Hc. by apply yields_ret.
Qed.

Lemma pop3_err_at a c t : pop_at a c -> yields (pop3_err c t) (pop_at a).
Proof. apply pop_replyf_at. Qed.

Lemma pop_flush_at {B} a c (k : Io -> prog Mail B) Q : pop_at a c -> (forall io, peer a io -> yields (k io) Q) -> yields (imapd_conn_flush true (pp_io c) ≫= k) Q.
Proof. intros H Hk. eapply yields_bind; [by apply flush_peer|]. exact Hk. Qed.

Lemma pop_then {B} a (m : prog Mail Pop) (k : Pop -> prog Mail B) Q : yields m (pop_at a) -> (forall c, pop_at a c -> yields (k c) Q) -> yields (m ≫= k) Q.
Proof. apply yields_bind. Qed.

Lemma any_then {A B} (m : prog Mail A) (k : A -> prog Mail B) Q : (forall x, yields (k x) Q) -> yields (m ≫= k) Q.
Proof. intros Hk. eapply yields_bind; [apply yields_any|]. by intros x _. Qed.

(** The handlers one after the other: replies, branches, and steps that do not return
    a connection. *)
Ltac at_step :=
  match goal with
  | |- yields (mret _) _ => apply yields_ret; assumption
  | |- yields running _ => apply yields_running
  | |- yields (pop_reply _ _) _ => apply pop_reply_at; assumption
  | |- yields (pop_replyf _ _) _ => apply pop_replyf_at; assumption
  | |- yields (pop3_err _ _) _ => apply pop3_err_at; assumption
  | |- yields (imapd_conn_flush true _ ≫= _) (pop_at ?a) => apply (pop_flush_at a); [assumption|intros ? ?]
  | |- yields (?m ≫= _) (pop_at ?a) => first [ apply (pop_then a m); [|intros ? ?] | apply any_then; intros ? ]
  | |- yields (if ?b then _ else _) _ => destruct b
  | |- yields (match ?x with _ => _ end) _ => destruct x
  end.

Lemma pump_at fuel a : forall c g, pop_at a c -> yields (pump_loop fuel c g) (pop_at a).
Proof.
  induction fuel as [|fuel IH]; intros c g H; cbn [pump_loop]; [apply yields_running|]. cbv zeta.
  destruct (io_closed _); [by apply yields_ret|]. destruct (_ >=? _); [at_step; by apply yields_ret|]. destruct (pg_phase g).
  - apply (pop_then a); [by apply pop_reply_at|]. intros c1 H1. by apply IH.
  - destruct (_ =? _)%nat; [by apply IH|]. destruct (take _ _); [by apply IH|]. destruct (stuff _ _). by apply IH.
  - apply (pop_then a); [destruct (negb _); [by apply pop_reply_at|by apply yields_ret]|]. intros c1 H1.
    apply (pop_then a); [by apply pop_reply_at|]. intros c2 H2. by apply yields_ret.
  - by apply yields_ret.
Qed.

Lemma pop3_pump_at a c : pop_at a c -> yields (imapd_pop3_pump c) (pop_at a).
Proof.
  intros H. unfold imapd_pop3_pump. destruct (pp_gen c); [|by apply yields_ret]. apply (pop_then a); [by apply pump_at|]. intros c1 H1.
  repeat first [progress at_step|by apply yields_ret].
Qed.

(** A handler keeps the peer of every connection it is given. *)
Definition pop_keeps (m : Pop -> prog Mail Pop) : Prop := forall a c, pop_at a c -> yields (m c) (pop_at a).

Ltac at_steps := repeat at_step.

Lemma capa_at : pop_keeps (cmd_capa srv).
Proof. intros a c H. unfold cmd_capa. at_steps. Qed.

Lemma stls_at : pop_keeps (cmd_stls srv).
Proof.
  intros a c H. unfold cmd_stls. destruct (pp_pst c); [|at_steps]. destruct (imapd_tls_established _); [at_steps|]. destruct (negb _); [at_steps|].
  unfold imapd_tls_available. destruct (is_tls_ready srv) eqn:Er; cbn [negb]; [|at_steps].
  eapply yields_bind; [by apply (start_peer a)|]. intros r Hr. cbn beta. assert (H' : pop_at a (pp_set_io r.1 c)) by exact Hr.
  destruct (negb r.2); at_steps.
Qed.

Lemma user_at arg : pop_keeps (fun c => cmd_user srv c arg).
Proof.
  intros a c H. unfold cmd_user. destruct (pp_pst c); [|at_steps]. destruct (negb _); [at_steps|]. destruct (_ || _); [at_steps|].
  assert (H' : pop_at a (pp_set_pend (Some arg) c)) by exact H. at_steps.
Qed.

Lemma refused_at msg : pop_keeps (fun c => pass_refused c msg).
Proof. intros a c H. unfold pass_refused. apply (pop_then a); [by apply pop3_err_at|]. intros c' H'. by apply yields_ret. Qed.

Lemma pass_at tmp_suffix uninit arg : pop_keeps (fun c => cmd_pass srv tmp_suffix uninit c arg).
Proof.
  intros a c H. unfold cmd_pass. destruct (pp_pst c); [|at_steps]. destruct (negb _); [by apply refused_at|]. destruct (pp_pend c) as [pend|]; [|by apply refused_at].
  destruct (is_nil arg); [by apply refused_at|]. apply any_then. intros now. apply any_then. intros blocked. destruct blocked; [by apply refused_at|].
  destruct (negb _); [apply any_then; intros now'; apply any_then; intros _; by apply refused_at|]. apply any_then. intros _. cbv zeta.
  eapply (yields_bind (fun r => match r with Some c' => pop_at a c' | None => True end)).
  - unfold open_inbox. apply any_then. intros now'. apply any_then. intros r. apply yields_ret. by destruct r.
  - intros [c'|] H'; [by apply pop_reply_at|by apply pop3_err_at].
Qed.

Lemma listing_at a text msgs : forall c i del, pop_at a c -> yields (listing c i text msgs del) (pop_at a).
Proof.
  induction msgs as [|m ms IH]; intros c i del H; cbn [listing]; [by apply yields_ret|]. apply (pop_then a); [at_steps|]. intros c' H'. by apply IH.
Qed.

Lemma cmd_listing_at arg text heading : pop_keeps (fun c => cmd_listing c arg text heading).
Proof.
  intros a c H. unfold cmd_listing. destruct (negb _); [at_steps|]. apply (pop_then a); [by apply pop_replyf_at|]. intros c1 H1.
  apply (pop_then a); [by apply listing_at|]. intros c2 H2. at_steps.
Qed.

Lemma start_retr_at a f c m top c' : pop_at a c -> start_retr f c m top = Some c' -> pop_at a c'.
Proof. unfold start_retr. destruct (fs_read f _); [|done]. by intros H [= <-]. Qed.

Lemma seen_at i : pop_keeps (fun c => mark_seen c i).
Proof.
  intros a c H. unfold mark_seen. destruct (mbind _ _) as [[mb m]|]; [|by apply yields_ret]. destruct (_ =? 0); [|by apply yields_ret]. cbv zeta.
  apply any_then. intros mb'. by apply yields_ret.
Qed.

Lemma retr_at arg : pop_keeps (fun c => cmd_retr c arg).
Proof.
  intros a c H. unfold cmd_retr. destruct (is_nil arg); [at_steps|]. destruct (parse_ulong arg); [|at_steps]. destruct (mbind _ _) as [[i m]|]; [|at_steps].
  apply any_then. intros f. destruct (start_retr f c m None) as [c1|] eqn:Es; [|at_steps]. apply (start_retr_at a) in Es; [|done].
  apply (pop_then a); [by apply seen_at|]. intros c2 H2. by apply pop3_pump_at.
Qed.

Lemma top_at arg : pop_keeps (fun c => cmd_top c arg).
Proof.
  intros a c H. unfold cmd_top. cbv zeta. destruct (is_nil arg); [at_steps|]. destruct (parse_ulong _); [|at_steps]. destruct (mbind _ _) as [m|]; [|at_steps].
  destruct (parse_ulong _) as [lines|]; [|at_steps]. apply any_then. intros f. destruct (start_retr f c m (Some lines)) as [c1|] eqn:Es; [|at_steps].
  apply (start_retr_at a) in Es; [|done]. by apply pop3_pump_at.
Qed.

Lemma dele_at arg : pop_keeps (fun c => cmd_dele c arg).
Proof.
  intros a c H. unfold cmd_dele. destruct (is_nil arg); [at_steps|]. destruct (parse_ulong arg) as [n|]; [|at_steps]. destruct (_ || _); [at_steps|].
  destruct (nth _ _ _); [at_steps|]. by apply pop_reply_at.
Qed.

Lemma quit_at tmp_suffix : pop_keeps (pop3_quit tmp_suffix).
Proof.
  intros a c H. unfold pop3_quit. apply (pop_then a); [destruct (pp_mb c); [apply any_then; intros _|]; by apply yields_ret|]. intros c1 H1.
  apply (pop_then a); [by apply pop_reply_at|]. intros c2 H2. by apply yields_ret.
Qed.

Lemma pop3_command_at tmp_suffix uninit line : pop_keeps (fun c => pop3_command srv tmp_suffix uninit c line).
Proof.
  intros a c H. unfold pop3_command. cbv zeta. set (word := take_while _ _). generalize (skip_sp (drop_while (fun x => negb (x =? SP)) (skip_sp line))). intros arg.
  destruct (_ || _); [at_steps|]. destruct (word_eq word (bs "QUIT")); [by apply quit_at|]. destruct (word_eq word (bs "NOOP")); [at_steps|].
  destruct (word_eq word (bs "RSET")); [by apply pop_reply_at|]. destruct (word_eq word (bs "CAPA")); [by apply capa_at|].
  destruct (word_eq word (bs "STLS")); [by apply stls_at|]. destruct (word_eq word (bs "USER")); [by apply user_at|].
  destruct (word_eq word (bs "PASS")); [by apply pass_at|]. destruct (pp_pst c); [at_steps|].
  destruct (word_eq word (bs "STAT")); [by apply pop_replyf_at|]. destruct (word_eq word (bs "LIST")); [by apply cmd_listing_at|].
  destruct (word_eq word (bs "UIDL")); [by apply cmd_listing_at|]. destruct (word_eq word (bs "RETR")); [by apply retr_at|].
  destruct (word_eq word (bs "DELE")); [by apply dele_at|]. destruct (word_eq word (bs "TOP")); [by apply top_at|]. at_steps.
Qed.

Lemma pop3_loop_at tmp_suffix uninit n : pop_keeps (pop3_commands_loop srv tmp_suffix uninit n).
Proof.
  induction n as [|n IH]; intros a c H; cbn [pop3_commands_loop]; [apply yields_running|].
  assert (Hlong : forall t, yields (pop_reply_close c t) (pop_at a)).
  { intros t. unfold pop_reply_close. apply (pop_then a); [by apply pop_reply_at|]. intros c' H'. by apply yields_ret. }
  destruct (io_closed _); [at_steps|]. destruct (match pp_gen c with Some _ => _ | None => _ end); [at_steps|].
  destruct (match io_tls _ with Some _ => _ | None => _ end); [at_steps|]. destruct (cut _ _) as [[line rest]|]; [|destruct (_ >? _); [apply Hlong|at_steps]].
  destruct (_ >? _); [apply Hlong|]. apply (pop_then a); [by apply pop3_command_at|]. intros c1 H1. destruct (io_closed _); [at_steps|].
  destruct (pp_gen c1); [at_steps|]. by apply IH.
Qed.

Lemma pop3_take_at tmp_suffix uninit d now : pop_keeps (fun c => pop3_take srv tmp_suffix uninit c d now).
Proof. intros a c H. unfold pop3_take, pop3_commands. by apply pop3_loop_at. Qed.

Lemma pop3_greeting_at : pop_keeps (imapd_pop3_greeting srv).
Proof. intros a c H. unfold imapd_pop3_greeting. cbv zeta. at_steps. Qed.

(** ** Ingest *)

Definition ing_at (a : Io) (c : Ing) : Prop := peer a (ig_io c).
Definition ingest_keeps (m : Ing -> prog Mail Ing) : Prop := forall a c, ing_at a c -> yields (m c) (ing_at a).

Lemma ing_reply_at t : ingest_keeps (fun c => ing_reply c t).
Proof. intros a c H. unfold ing_reply. eapply yields_bind; [by apply reply_peer|]. intros io Hio. by apply yields_ret. Qed.

Lemma ing_fail_at t : ingest_keeps (fun c => ing_fail c t).
Proof. intros a c H. unfold ing_fail. eapply yields_bind; [by apply ing_reply_at|]. intros c' H'. by apply yields_ret. Qed.

Lemma deliver_at pid : ingest_keeps (ingest_deliver srv pid).
Proof.
  intros a c H. unfold ingest_deliver. cbv zeta. destruct (mail_data_has_ctl _); [by apply ing_fail_at|]. destruct (_ >? _); [by apply ing_fail_at|].
  destruct (mail_normalize_crlf _ _) as [[n buf]|]; [|apply yields_running]. destruct (n <? 0); [apply yields_running|].
  destruct (mail_header_set _ _ _); [|by apply ing_reply_at]. apply any_then. intros failed. by apply ing_reply_at.
Qed.

Lemma starttls_at rest : ingest_keeps (fun c => ing_starttls srv c rest).
Proof.
  intros a c H. unfold ing_starttls. destruct (_ || _); [by apply ing_reply_at|]. destruct (negb _); [by apply ing_reply_at|]. destruct (negb _); [by apply ing_reply_at|].
  unfold imapd_tls_available. destruct (is_tls_ready srv) eqn:Er; cbn [negb]; [|by apply ing_reply_at].
  eapply yields_bind; [by apply (start_peer a)|]. intros r Hr. cbn beta. destruct (negb r.2); by apply ing_reply_at.
Qed.

Lemma ingest_command_at line : ingest_keeps (fun c => ingest_command srv c line).
Proof.
  intros a c H. unfold ingest_command. cbv zeta. set (v := take_while _ _). generalize (skip_sp (drop_while (fun x => negb (x =? SP)) (skip_sp line))). intros rest.
  destruct (verb_is v (bs "EHLO")). { unfold ing_ehlo. destruct (is_nil rest); by apply ing_reply_at. }
  destruct (verb_is v (bs "HELO")). { unfold ing_helo. destruct (is_nil rest); by apply ing_reply_at. }
  destruct (verb_is v (bs "MAIL")).
  { unfold ing_mail. destruct (ig_st c); try by apply ing_reply_at. destruct (parse_addr_arg _ _ _) as [[p ?]|]; [|by apply ing_reply_at].
    destruct (negb _); by apply ing_reply_at. }
  destruct (verb_is v (bs "RCPT")).
  { unfold ing_rcpt. destruct (ig_st c); try by apply ing_reply_at. destruct (_ <=? _)%nat; [by apply ing_reply_at|].
    destruct (parse_addr_arg _ _ _) as [[p ?]|]; [|by apply ing_reply_at]. destruct (_ || _); [by apply ing_reply_at|].
    destruct (mail_addr_parse p); [|by apply ing_reply_at]. destruct (negb _); by apply ing_reply_at. }
  destruct (verb_is v (bs "DATA")).
  { unfold ing_data_cmd. destruct (ig_st c); try by apply ing_reply_at. destruct (_ =? _)%nat; [by apply ing_reply_at|].
    eapply yields_bind; [by apply ing_reply_at|]. intros c' H'. by apply yields_ret. }
  destruct (verb_is v (bs "RSET")); [exact (ing_reply_at _ a (ing_reset c _) H)|].
  repeat first [by apply ing_reply_at|by apply ing_fail_at|by apply starttls_at|match goal with |- yields (if ?b then _ else _) _ => destruct b end].
Qed.

Lemma ing_append_at a c d : ing_at a c -> match ing_append srv c d with inl m => yields m (ing_at a) | inr c' => ing_at a c' end.
Proof. intros H. unfold ing_append. destruct (_ >? _); [by apply ing_fail_at|done]. Qed.

Lemma ingest_loop_at n : ingest_keeps (ingest_commands_loop srv n).
Proof.
  induction n as [|n IH]; intros a c H; cbn [ingest_commands_loop]; [apply yields_running|]. destruct (io_closed _); [by apply yields_ret|].
  destruct (match io_tls _ with Some _ => _ | None => _ end); [by apply yields_ret|]. destruct (cut _ _) as [[line rest]|]; [|destruct (_ >? _); [by apply ing_fail_at|by apply yields_ret]].
  destruct (_ >? _); [by apply ing_fail_at|]. eapply yields_bind; [by apply ingest_command_at|]. intros c1 H1. destruct (_ && _); [|by apply IH].
  destruct (is_nil _); [by apply yields_ret|]. pose proof (ing_append_at a c1 (io_in (ig_io c1)) H1) as Ha.
  destruct (ing_append _ _ _); [done|by apply yields_ret].
Qed.

Lemma ingest_data_at pid : ingest_keeps (ingest_data srv pid).
Proof.
  intros a c H. unfold ingest_data. destruct (data_scan _ _ _ _); [|by apply yields_ret|by apply ing_fail_at]. cbv zeta.
  eapply yields_bind; [by apply deliver_at|]. intros c1 H1. destruct (_ && _); [by apply ingest_loop_at|by apply yields_ret].
Qed.

Lemma ingest_take_at pid d now : ingest_keeps (fun c => ingest_take srv pid c d now).
Proof.
  intros a c H. unfold ingest_take. cbv zeta. set (c0 := ig_set_io _ c). assert (H0 : ing_at a c0) by exact H. destruct (ig_st c0); try by apply ingest_loop_at.
  pose proof (ing_append_at a c0 d H0) as Ha. destruct (ing_append _ _ _); [done|by apply ingest_data_at].
Qed.

Lemma ingest_greeting_at : ingest_keeps (imapd_ingest_greeting srv).
Proof. intros a c H. unfold imapd_ingest_greeting. cbv zeta. by apply ing_reply_at. Qed.
End Peer.
