(* ===== verification/Imapd.v ===== *)
(** * The daemon imapd (src/src/imapd.c)

    Configuration and the event loop around the sessions of [Ingest], [Pop3] and IMAP.
    IMAP sessions (imapd_imap.c) are not modelled: the loop works with any, through the
    class [ImapSessions] of the calls it makes on them. [poll] and [accept] are the
    class [ImapdMux]. Opening the listeners and loading the certificate are left out. *)

From S2P Require Import Prelude Config MailLines MailAddr Json Prog DlEngine SmtpWorld SmtpParse SmtpSession SmtpServer SmtpLoop OutboxMain MailStore MailAuth MailUid MailHdrs MailBox ImapdNet Pop3 Ingest.

(** ** Configuration *)

Definition opt_or (v dflt : option bytes) : option bytes := match v with Some _ => v | None => dflt end.

(** [config_defaults]; [env] is the environment. *)
Definition imapd_config_defaults (env : string -> option bytes) : ImapdConfig :=
  {| ic_root := env_or (env "IMAPD_ROOT") (bs "./var/mail");
     ic_ingest_addr := env_or (env "IMAPD_INGEST_ADDR") (bs "127.0.0.1"); ic_ingest_port := env_num (env "IMAPD_INGEST_PORT") 2526 mod 65536;
     ic_imap_addr := env_or (env "IMAPD_IMAP_ADDR") (bs "127.0.0.1"); ic_imap_port := env_num (env "IMAPD_IMAP_PORT") 143 mod 65536;
     ic_pop3_addr := env_or (env "IMAPD_POP3_ADDR") (bs "127.0.0.1"); ic_pop3_port := env_num (env "IMAPD_POP3_PORT") 110 mod 65536;
     ic_hostname := env_or (env "IMAPD_HOSTNAME") (bs "localhost"); ic_max_msg := u32 (env_num (env "IMAPD_MAX_MSG") 33554432);
     ic_cmd_tmo := 300; ic_data_tmo := 600;
     ic_cert := nonempty (env "IMAPD_CERT"); ic_key := nonempty (env "IMAPD_KEY") |}.

Definition parse_u16 (s : bytes) : option Z :=
  if is_nil s then None
  else let '(n, e) := strtoul s in if negb (is_nil e) || (n =? 0) || (n >? 65535) then None else Some n.

(** The value of --max-msg. *)
Definition parse_max_msg (s : bytes) : option Z :=
  let '(n, e) := strtoul s in if negb (is_nil e) || (n =? 0) then None else Some (u32 n).

(** [config_from_args] on [argv[1..]]: the configuration when it returns 0. *)
Definition imapd_config_from_args (cfg : ImapdConfig) (args : list bytes) : option ImapdConfig :=
  let arg name := find_arg args (bs name) in
  let text name dflt := default dflt (arg name) in
  ingest ← arg_num parse_u16 (arg "--ingest-port") (ic_ingest_port cfg);
  imap ← arg_num parse_u16 (arg "--imap-port") (ic_imap_port cfg);
  pop3 ← arg_num parse_u16 (arg "--pop3-port") (ic_pop3_port cfg);
  max ← arg_num parse_max_msg (arg "--max-msg") (ic_max_msg cfg);
  Some {| ic_root := text "--root" (ic_root cfg);
          ic_ingest_addr := text "--ingest-addr" (ic_ingest_addr cfg); ic_ingest_port := ingest;
          ic_imap_addr := text "--imap-addr" (ic_imap_addr cfg); ic_imap_port := imap;
          ic_pop3_addr := text "--pop3-addr" (ic_pop3_addr cfg); ic_pop3_port := pop3;
          ic_hostname := text "--hostname" (ic_hostname cfg); ic_max_msg := max; ic_cmd_tmo := ic_cmd_tmo cfg; ic_data_tmo := ic_data_tmo cfg;
          ic_cert := opt_or (arg "--cert") (ic_cert cfg); ic_key := opt_or (arg "--key") (ic_key cfg) |}.

(** The arguments behind the first ["passwd"] that is not the last one. *)
Fixpoint passwd_args (args : list bytes) : option (list bytes) :=
  match args with
  | a :: (_ :: _) as t => if beq a (bs "passwd") then Some t else passwd_args t
  | _ => None
  end.

Definition starts_dash (s : bytes) : bool := match s with c :: _ => c =? "-"%chr | [] => false end.

(** [cmd_passwd]: the exit code and what it writes to the credential file. *)
Definition cmd_passwd (cfg : ImapdConfig) (args : list bytes) (file : bytes -> option bytes) : Z * option bytes :=
  match passwd_args args with
  | Some (user :: pass :: _) =>
      if starts_dash user || starts_dash pass then (2, None)
      else match imapd_config_from_args cfg args with
           | None => (2, None)
           | Some cfg =>
               match imapd_auth_set (ic_root cfg) (file (ic_root cfg)) user pass with
               | None => (1, None)
               | Some s => (0, Some s)
               end
           end
  | _ => (2, None)
  end.

(** [imapd_addr_loopback]. *)
Definition imapd_addr_loopback (addr : bytes) : bool :=
  if is_nil addr then false
  else beq addr (bs "localhost") || beq addr (bs "::1") || (match strip_prefix (bs "127.") addr with Some _ => true | None => false end).

(** ** Connections *)

(** The calls of the loop on an IMAP session. *)
Class ImapSessions {N : ImapdNet} {HF : MailFs} := {
  imap : Type;
  im_new : Io -> imap;
  im_io : imap -> Io;
  im_set_io : Io -> imap -> imap;
  im_idle : imap -> bool;
  im_fetching : imap -> bool;
  im_searching : imap -> bool;
  imapd_imap_greeting : imap -> prog Mail imap;
  imapd_imap_readable : imap -> Z -> prog Mail imap;
  imapd_imap_tls_reset : imap -> imap;
  imapd_fetch_pump : imap -> prog Mail imap;
  imapd_search_pump : imap -> prog Mail imap;
  imapd_imap_idle_refresh : imap -> prog Mail imap;
  im_mbox : imap -> option Mbox
}.

Class ImapdMux {N : ImapdNet} := {
  mx_poll : net -> list (Z * Z) -> Z -> net * poll_result;
  mx_accept : net -> Z -> net * list (Z * sockaddr)
}.

Section Daemon.
Context {N : ImapdNet} {HF : MailFs} {IM : ImapSessions} {X : ImapdMux} (srv : ImapdServer) (pid : Z) (tmp_suffix : bytes) (uninit : Z).

Inductive MailConn := CIngest (c : Ing) | CImap (c : imap) | CPop (c : Pop).

Definition mc_io (c : MailConn) : Io := match c with CIngest c => ig_io c | CImap c => im_io c | CPop c => pp_io c end.
Definition mc_set_io (io : Io) (c : MailConn) : MailConn :=
  match c with CIngest c => CIngest (ig_set_io io c) | CImap c => CImap (im_set_io io c) | CPop c => CPop (pp_set_io io c) end.

(** Closed with its output dropped. *)
Definition mc_drop (c : MailConn) : MailConn := mc_set_io (io_close (io_set_out [] 0 (mc_io c))) c.

Definition mc_flush (c : MailConn) : prog Mail MailConn := io ← imapd_conn_flush true (mc_io c); mret (mc_set_io io c).

Definition imapd_count_peer (conns : list MailConn) (ip : bytes) : Z :=
  if is_nil ip then 0 else len (List.filter (fun c => beq (io_ip (mc_io c)) ip) conns).

(** [conn_destroy]: the effects outside the connection. *)
Definition mc_destroy (c : MailConn) : prog Mail unit :=
  _ ← imapd_tls_conn_free (mc_io c);
  _ ← on_net (fun n => (n_close n (io_fd (mc_io c)), tt));
  match (match c with CIngest _ => None | CImap c => im_mbox c | CPop c => pp_mb c end) with
  | None => mret tt
  | Some mb => on_fs (fun f => (imapd_mbox_close tmp_suffix f mb, tt))
  end.

(** ** Timeouts *)

Definition IMAPD_IDLE_TMO : Z := 1800.
Definition IMAPD_IDLE_SCAN_MS : Z := 5000.

Definition mc_idle (c : MailConn) : bool := match c with CImap c => im_idle c | _ => false end.

Definition mc_timeout (c : MailConn) : Z :=
  match c with
  | CIngest c => match ig_st c with IG_DATA => ic_data_tmo (is_cfg srv) | _ => ic_cmd_tmo (is_cfg srv) end
  | CImap c => if im_idle c then IMAPD_IDLE_TMO else ic_cmd_tmo (is_cfg srv)
  | CPop _ => ic_cmd_tmo (is_cfg srv)
  end.

(** The first loop of [poll_timeout_ms]; [None] when a deadline has passed. *)
Fixpoint mc_deadlines (conns : list MailConn) (now ms : Z) : option Z :=
  match conns with
  | [] => Some ms
  | c :: conns' =>
      let tmo := mc_timeout c in
      if tmo =? 0 then mc_deadlines conns' now ms
      else match deadline_ms tmo (io_act (mc_io c)) now with
           | None => None
           | Some rms => mc_deadlines conns' now (sooner ms rms)
           end
  end.

Definition imapd_poll_timeout (conns : list MailConn) (now : Z) : Z :=
  match mc_deadlines conns now (-1) with
  | None => 0
  | Some ms => if ((ms <? 0) || (IMAPD_IDLE_SCAN_MS <? ms)) && existsb mc_idle conns then IMAPD_IDLE_SCAN_MS else ms
  end.

(** One connection of the idle sweep. *)
Definition mc_idle_check (c : MailConn) (now : Z) : prog Mail MailConn :=
  let tmo := mc_timeout c in
  let act := io_act (mc_io c) in
  if negb (tmo =? 0) && (now >? act) && (now - act >=? tmo) then
    if imapd_tls_handshaking (mc_io c) then mret (mc_drop c)
    else match c with
         | CPop _ => mret (mc_set_io (io_close (mc_io c)) c)
         | _ =>
             let bye := match c with CIngest _ => bs "421 4.4.2 Timeout - closing connection" ++ CRLF | _ => bs "* BYE timeout" ++ CRLF end in
             c ← mc_flush (mc_set_io (io_append bye (mc_io c)) c);
             mret (mc_set_io (io_close (mc_io c)) c)
         end
  else mret c.

Fixpoint mc_idle_sweep (conns : list MailConn) (now : Z) : prog Mail (list MailConn) :=
  match conns with
  | [] => mret []
  | c :: cs => c ← mc_idle_check c now; cs ← mc_idle_sweep cs now; mret (c :: cs)
  end.

(** ** Events *)

Definition mc_streaming (c : MailConn) : bool :=
  match c with
  | CPop c => match pp_gen c with Some _ => true | None => false end
  | CImap c => im_fetching c || im_searching c
  | CIngest _ => false
  end.

(** The events a connection polls for. *)
Definition mc_events (c : MailConn) : Z :=
  let io := mc_io c in
  let pending := (io_off io <? length (io_out io))%nat in
  if negb (io_closed io) && imapd_tls_handshaking io then
    if imapd_tls_pending io || imapd_tls_wants_write io then POLLOUT else POLLIN
  else if io_closed io then if pending then POLLOUT else 0
  else if mc_streaming c then POLLOUT
  else Z.lor (if len (io_out io) <? IMAPD_MAX_OUT / 2 then POLLIN else 0) (if pending then POLLOUT else 0).

(** [tls_advance]; [n] bounds the reads of a drain. *)
Definition mc_readable (n : nat) (c : MailConn) (now : Z) : prog Mail MailConn :=
  match c with
  | CIngest c => c ← imapd_ingest_readable srv pid n c now; mret (CIngest c)
  | CImap c => c ← imapd_imap_readable c now; mret (CImap c)
  | CPop c => c ← imapd_pop3_readable srv tmp_suffix uninit n c now; mret (CPop c)
  end.

Definition mc_tls_reset (c : MailConn) : MailConn :=
  match c with
  | CIngest c => CIngest (imapd_ingest_tls_reset c)
  | CImap c => CImap (imapd_imap_tls_reset c)
  | CPop c => CPop (imapd_pop3_tls_reset c)
  end.

Definition mc_tls_advance (n : nat) (c : MailConn) (now : Z) : prog Mail MailConn :=
  r ← imapd_tls_handshake_step (mc_io c) now;
  let c := mc_set_io r.1 c in
  if r.2 <? 0 then mret (mc_drop c)
  else if r.2 >? 0 then mc_readable n (mc_tls_reset c) now
  else mret c.

(** Dispatch of a connection on its [revents]. *)
Definition mc_dispatch (n : nat) (now : Z) (c : MailConn) (rev : Z) : prog Mail MailConn :=
  let io := mc_io c in
  if io_closed io then if has rev POLLOUT then mc_flush c else mret c
  else if mc_streaming c then
    if has rev POLLOUT then
      match c with
      | CPop p => p ← imapd_pop3_pump p; mret (CPop p)
      | CImap i =>
          if im_fetching i then i ← imapd_fetch_pump i; mc_flush (CImap i)
          else i ← imapd_search_pump i; c ← mc_flush (CImap i); mret (mc_set_io (io_set_act now (mc_io c)) c)
      | CIngest _ => mret c
      end
    else mret c
  else if imapd_tls_pending io then
    if has rev POLLOUT then
      c ← mc_flush c;
      if negb (io_closed (mc_io c)) && (length (io_out (mc_io c)) <=? io_off (mc_io c))%nat then mc_tls_advance n c now else mret c
    else mret c
  else if imapd_tls_handshaking io then
    if has rev (Z.lor POLLANY POLLOUT) then mc_tls_advance n c now else mret c
  else
    c ← (if has rev POLLANY then mc_readable n c now else mret c);
    c ← match c with
        | CImap i => if im_idle i && negb (io_closed (im_io i)) && negb (im_fetching i) then i ← imapd_imap_idle_refresh i; mret (CImap i) else mret c
        | _ => mret c
        end;
    if negb (io_closed (mc_io c)) && has rev POLLOUT then mc_flush c else mret c.

(** The connections of before the accepts, each with its events. *)
Fixpoint mc_dispatch_all (n : nat) (now : Z) (conns : list MailConn) (revs : list Z) : prog Mail (list MailConn) :=
  match conns, revs with
  | c :: cs, rev :: revs' => c ← mc_dispatch n now c rev; cs ← mc_dispatch_all n now cs revs'; mret (c :: cs)
  | _, _ => mret conns
  end.

(** The reaping loop from index [i] on: the last connection takes the place of a
    destroyed one. *)
Fixpoint mc_reap (fuel i : nat) (conns : list MailConn) : prog Mail (list MailConn) :=
  match fuel with
  | O => mret conns
  | S fuel' =>
      match conns !! i with
      | None => mret conns
      | Some c =>
          if io_closed (mc_io c) && (length (io_out (mc_io c)) <=? io_off (mc_io c))%nat then
            _ ← mc_destroy c;
            mc_reap fuel' i (take (length conns - 1) (<[i := default c (last conns)]> conns))
          else mc_reap fuel' (S i) conns
      end
  end.

(** ** Accepting *)

Inductive mc_kind := KIngest | KImap | KPop.

Definition IMAPD_MAX_CONNS : Z := 512.
Definition IMAPD_MAX_CONNS_PER_IP : Z := 16.

Definition busy_reply (k : mc_kind) : bytes :=
  match k with KIngest => bs "421 4.7.0 Too many connections" ++ CRLF | _ => bs "* BYE too many connections" ++ CRLF end.

(** A socket that is over a limit: POP3 gets no message. *)
Definition refuse (k : mc_kind) (fd : Z) : prog Mail unit :=
  _ ← match k with KPop => mret [] | _ => on_net (fun n => n_send n fd (busy_reply k)) end;
  on_net (fun n => (n_close n fd, tt)).

(** The greeting of a new connection. *)
Definition mc_greet (k : mc_kind) (io : Io) : prog Mail MailConn :=
  match k with
  | KIngest => c ← imapd_ingest_greeting srv (MkIng io IG_INIT None [] [] 0); mret (CIngest c)
  | KPop => c ← imapd_pop3_greeting srv (MkPop io PO_AUTH None None None [] 0 None); mret (CPop c)
  | KImap => c ← imapd_imap_greeting (im_new io); mret (CImap c)
  end.

(** One accepted socket of [server_accept]. *)
Definition mc_accept_one (k : mc_kind) (now : Z) (conns : list MailConn) (fd : Z) (sa : sockaddr) : prog Mail (list MailConn) :=
  if len conns >=? IMAPD_MAX_CONNS then _ ← refuse k fd; mret conns
  else
    let ip := peer_ip_of sa in
    if negb (is_nil ip) && (imapd_count_peer conns ip >=? IMAPD_MAX_CONNS_PER_IP) then _ ← refuse k fd; mret conns
    else c ← mc_greet k (MkIo fd false [] [] 0 now ip None []); mret (conns ++ [c]).

Fixpoint mc_accept_all (k : mc_kind) (now : Z) (conns : list MailConn) (accepted : list (Z * sockaddr)) : prog Mail (list MailConn) :=
  match accepted with
  | [] => mret conns
  | (fd, sa) :: rest => conns ← mc_accept_one k now conns fd sa; mc_accept_all k now conns rest
  end.

Definition mc_accept_on (k : mc_kind) (now rev lfd : Z) (conns : list MailConn) : prog Mail (list MailConn) :=
  if has rev POLLIN then accepted ← on_net (fun n => mx_accept n lfd); mc_accept_all k now conns accepted else mret conns.

(** ** One turn *)

Record Listeners := { ls_ingest : Z; ls_imap : Z; ls_pop3 : Z }.

Definition mc_pollfds (l : Listeners) (conns : list MailConn) : list (Z * Z) :=
  [(ls_ingest l, POLLIN); (ls_imap l, POLLIN); (ls_pop3 l, POLLIN)] ++ map (fun c => (io_fd (mc_io c), mc_events c)) conns.

(** What follows [poll]: accepts, dispatch, reaping. *)
Definition imapd_dispatch (n : nat) (now : Z) (l : Listeners) (conns : list MailConn) (revs : list Z) : prog Mail (list MailConn) :=
  let crevs := take (length conns) (drop 3 revs) in
  conns ← mc_accept_on KIngest now (nth 0 revs 0) (ls_ingest l) conns;
  conns ← mc_accept_on KImap now (nth 1 revs 0) (ls_imap l) conns;
  conns ← mc_accept_on KPop now (nth 2 revs 0) (ls_pop3 l) conns;
  conns ← mc_dispatch_all n now conns crevs;
  mc_reap (S (length conns)) 0 conns.

(** One turn of [server_poll]; [None] when the loop ends. *)
Definition imapd_turn (n : nat) (l : Listeners) (conns : list MailConn) : prog Mail (option (list MailConn)) :=
  now ← on_net n_time;
  conns ← mc_idle_sweep conns now;
  r ← on_net (fun w => mx_poll w (mc_pollfds l conns) (imapd_poll_timeout conns now));
  match r with
  | PollIntr => mret (Some conns)
  | PollFail => mret None
  | PollReady revs => conns ← imapd_dispatch n now l conns revs; mret (Some conns)
  end.

End Daemon.
