(* ===== verification/ImapdSpec.v ===== *)
(** * What the daemon imapd promises

    The limits on connections and the invariants of the sessions hold after every turn
    of the loop, whatever the network does. *)

From S2P Require Import Prelude Config MailLines MailAddr MailHeader Json Prog SmtpData SmtpWorld SmtpParse SmtpSession SmtpServer SmtpLoop OutboxMain MailStore MailAuth MailUid MailHdrs MailBox MailStoreSpec MemMail MailBoxSpec ImapdNet Pop3 MemNet Pop3Spec Pop3MailSpec Pop3QuitSpec Ingest IngestSpec ImapdPeer Imapd.

(** ** The sessions of the loop *)

Section Sessions.
Context {N : ImapdNet} `{HF : MailFs} `{L : !MailFsLaws} (srv : ImapdServer) (pid : Z) (tmp_suffix : bytes) (uninit : Z).

(** The server has a certificate. *)
Definition tls_on : Prop := is_tls_ready srv = true.

(** TLS state only where there is TLS. *)
Definition tls_fits (a : Io) : Prop := is_tls_ready srv = false -> io_tls a = None.

Lemma tls_fits_on a t : tls_fits a -> io_tls a = Some t -> tls_on.
Proof. unfold tls_fits, tls_on. destruct (is_tls_ready srv); [done|]. intros H Ht. by rewrite H in Ht. Qed.

Lemma peer_fits a b : peer srv a b -> tls_fits a -> tls_fits b.
Proof. intros [_ H] Ha Hr. by apply H, Ha. Qed.

(** A session behind a handler: the invariant, and the peer of before. *)
Definition pop_after (c c' : Pop) : Prop := pop_ok srv c' /\ peer srv (pp_io c) (pp_io c').
Definition ing_after (c c' : Ing) : Prop := ing_ok srv c' /\ peer srv (ig_io c) (ig_io c').

Lemma pop_after_trans a b c : pop_after a b -> pop_after b c -> pop_after a c.
Proof. intros [_ H] [H1 H2]. split; [done|]. by etransitivity. Qed.
Lemma ing_after_trans a b c : ing_after a b -> ing_after b c -> ing_after a c.
Proof. intros [_ H] [H1 H2]. split; [done|]. by etransitivity. Qed.

(** *** POP3 *)

Lemma pop3_take_runs c d now : pop_ok srv c -> pp_gen c = None -> completes tls_on (pop3_take srv tmp_suffix uninit c d now) (pop_after c).
Proof.
  intros Hok Hg. apply completes_and; [|by apply pop3_take_at]. apply completes_always. intros w. unfold pop3_take, pop3_commands. set (c1 := pp_set_io _ c).
  assert (Hok1 : pop_ok srv c1) by (apply pop_ok_io; auto).
  destruct (commands_round srv tmp_suffix uninit _ c1 w Hok1 (Nat.lt_succ_diag_r _)) as (w' & c' & E & H & _). by exists w', c'.
Qed.

Lemma pop_after_refl c : pop_ok srv c -> pop_after c c.
Proof. by split. Qed.

Lemma pop_after_close c : pop_ok srv c -> pp_gen c = None -> pop_after c (pp_close c).
Proof. intros Hok Hg. split; [|done]. eapply pop_ok_quiet; [exact Hok|done|apply quiet_close]. Qed.

Lemma pop3_drain_runs n now : tls_on -> forall c, pop_ok srv c -> pp_gen c = None -> completes tls_on (pop3_drain srv tmp_suffix uninit n c now) (pop_after c).
Proof.
  intros Hon. induction n as [|n IH]; intros c Hok Hg; cbn [pop3_drain]; [by intros w|].
  eapply (completes_bind _ (fun _ => True)). { intros w. by destruct (imapd_tls_recv (pp_io c) w) as [? [?|]]. }
  intros r _. destruct r as [d| | |]; try (by apply completes_ret, pop_after_refl); try (by apply completes_ret, pop_after_close).
  eapply completes_bind; [by apply pop3_take_runs|]. intros c1 H1. destruct (io_closed _); [by apply completes_ret|]. destruct (pp_gen c1) eqn:Eg; [by apply completes_ret|].
  eapply completes_mono; [apply IH; [apply H1|done]|]. intros c2 H2. by eapply pop_after_trans.
Qed.

Lemma pop3_readable_runs n c now : pop_ok srv c -> pp_gen c = None -> tls_fits (pp_io c) -> completes tls_on (imapd_pop3_readable srv tmp_suffix uninit n c now) (pop_after c).
Proof.
  intros Hok Hg Hfit. unfold imapd_pop3_readable. destruct (io_tls (pp_io c)) as [t|] eqn:Et.
  - destruct (negb _); [by apply completes_ret, pop_after_refl|]. apply pop3_drain_runs; [by eapply tls_fits_on|done..].
  - eapply (completes_bind _ (fun _ => True)). { intros w. unfold on_net. by destruct (n_recv _ _). }
    intros r _. destruct r as [[|x d]| | |]; try (by apply completes_ret, pop_after_refl); try (by apply completes_ret, pop_after_close). by apply pop3_take_runs.
Qed.

Lemma pop3_pump_runs c : pop_ok srv c -> completes tls_on (imapd_pop3_pump c) (pop_after c).
Proof. intros Hok. apply completes_and; [|by apply pop3_pump_at]. apply completes_always. intros w. by apply pump_keeps. Qed.

Lemma pop3_greeting_runs c : pop_ok srv c -> pp_gen c = None -> completes tls_on (imapd_pop3_greeting srv c) (pop_after c).
Proof.
  intros Hok Hg. apply completes_and; [|by apply pop3_greeting_at]. apply completes_always. intros w.
  destruct (greeting_talks srv c w) as (w' & c' & E & _ & Hq). exists w', c'. split; [done|]. by eapply pop_ok_quiet.
Qed.

(** *** Ingest *)

Lemma ingest_rcpts_returns msg rs : forall failed w, exists w' b, ingest_rcpts srv pid msg rs failed w = (w', Some b).
Proof.
  induction rs as [|r rs IH]; intros failed w; cbn [ingest_rcpts]; [by exists w, failed|].
  assert (H1 : exists w' b, ingest_one srv pid msg r w = (w', Some b)).
  { unfold ingest_one. destruct (rcpt_target r) as [[user folder]|]; [|by eexists _, _]. destruct (imapd_mbox_dir _ _ _ _) as [dir|]; [|by eexists _, _].
    destruct (unique_name_spec pid w) as (w1 & u & E & _). unfold mbind, prog_bind. rewrite E. unfold on_fs.
    destruct (imapd_mbox_deliver _ _ _ _ _ _). by eexists _, _. }
  destruct H1 as (w1 & b & E). unfold mbind, prog_bind. rewrite E. apply IH.
Qed.

Lemma ing_fail_ok c t : ing_ok srv c -> forall w, exists w' c', ing_fail c t w = (w', Some c') /\ ing_ok srv c'.
Proof. intros Hok w. destruct (keeps_fail srv c t Hok w) as (w' & c' & E & _ & H & _). by exists w', c'. Qed.

Lemma ing_reply_ok c t : ing_ok srv c -> forall w, exists w' c', ing_reply c t w = (w', Some c') /\ ing_ok srv c'.
Proof. intros Hok w. destruct (keeps_reply srv c c t Hok eq_refl w) as (w' & c' & E & _ & H & _). by exists w', c'. Qed.

Lemma ing_deliver_ok c : ing_ok srv c -> 2 * ic_max_msg (is_cfg srv) <= INT_MAX -> forall w, exists w' c', ingest_deliver srv pid c w = (w', Some c') /\ ing_ok srv c'.
Proof.
  intros Hok Hfit w. unfold ingest_deliver. set (msg := mail_unstuff_dots _). destruct (mail_data_has_ctl msg); [by apply ing_fail_ok|].
  destruct (len msg >? _) eqn:Hmax; [by apply ing_fail_ok|]. rewrite Z.gtb_ltb in Hmax. apply Z.ltb_ge in Hmax. pose proof (crlf_norm_length msg) as Hnl.
  destruct (mail_normalize_crlf_correct msg (replicate (length msg + 2) 0)) as (Hn & _); [rewrite length_replicate; lia|].
  rewrite Hn. rewrite Z.gtb_ltb. destruct (Z.ltb_spec INT_MAX (len (crlf_norm msg))); [lia|]. destruct (Z.ltb_spec (len (crlf_norm msg)) 0); [lia|].
  destruct (mail_header_set _ _ _) as [text|]; [|by apply ing_reply_ok].
  destruct (ingest_rcpts_returns text (ig_rcpts c) false w) as (w1 & b & E). unfold mbind, prog_bind. rewrite E. apply ing_reply_ok, ing_ok_reset. by right.
Qed.

Lemma ingest_commands_ok c : ing_ok srv c -> forall w, exists w' c', ingest_commands srv c w = (w', Some c') /\ ing_ok srv c'.
Proof. intros Hok w. destruct (commands_keep srv _ c w Hok (Nat.lt_succ_diag_r _)) as (w' & c' & E & _ & H). by exists w', c'. Qed.

Lemma ingest_take_runs c d now : ing_ok srv c -> 2 * ic_max_msg (is_cfg srv) <= INT_MAX -> completes tls_on (ingest_take srv pid c d now) (ing_after c).
Proof.
  intros Hok Hfit. apply completes_and; [|by apply ingest_take_at]. apply completes_always. intros w. unfold ingest_take. set (c0 := ig_set_io _ c).
  assert (Hok0 : ing_ok srv c0) by (by apply ing_ok_io). destruct (ig_st c0); try (apply ingest_commands_ok; by apply ing_ok_io).
  pose proof (append_cap srv c0 d Hok0) as Ha. destruct (ing_append srv c0 d) as [m|c1].
  - destruct (Ha w) as (w1 & c1 & E & _ & H & _). by exists w1, c1.
  - destruct Ha as [Hok1 _]. unfold ingest_data. destruct (data_scan _ _ _ _) as [msg_end term_len|pos|].
    + set (c2 := ig_set_data _ _ _). assert (Hok2 : ing_ok srv c2).
      { apply ing_ok_data; [by apply ing_ok_io|]. cbn. rewrite length_take. lia. }
      destruct (ing_deliver_ok c2 Hok2 Hfit w) as (w1 & c3 & E & Hok3). unfold mbind, prog_bind. rewrite E.
      destruct (_ && _); [by apply ingest_commands_ok|by exists w1, c3].
    + eexists w, _. split; [reflexivity|]. by apply ing_ok_data.
    + by apply ing_fail_ok.
Qed.

Lemma ing_after_refl c : ing_ok srv c -> ing_after c c.
Proof. by split. Qed.
Lemma ing_after_close c : ing_ok srv c -> ing_after c (ig_close c).
Proof. intros Hok. split; [by apply ing_ok_io|done]. Qed.

Lemma ingest_drain_runs n now : tls_on -> 2 * ic_max_msg (is_cfg srv) <= INT_MAX -> forall c, ing_ok srv c -> completes tls_on (ingest_drain srv pid n c now) (ing_after c).
Proof.
  intros Hon Hfit. induction n as [|n IH]; intros c Hok; cbn [ingest_drain]; [by intros w|].
  eapply (completes_bind _ (fun _ => True)). { intros w. by destruct (imapd_tls_recv (ig_io c) w) as [? [?|]]. }
  intros r _. destruct r as [d| | |]; try (by apply completes_ret, ing_after_refl); try (by apply completes_ret, ing_after_close).
  eapply completes_bind; [by apply ingest_take_runs|]. intros c1 H1. destruct (io_closed _); [by apply completes_ret|].
  destruct (ig_st c1); try (by apply completes_ret); (eapply completes_mono; [apply IH, H1|]; intros c2 H2; by eapply ing_after_trans).
Qed.

Lemma ingest_readable_runs n c now : ing_ok srv c -> tls_fits (ig_io c) -> 2 * ic_max_msg (is_cfg srv) <= INT_MAX ->
  completes tls_on (imapd_ingest_readable srv pid n c now) (ing_after c).
Proof.
  intros Hok Hfit Hmax. unfold imapd_ingest_readable. destruct (io_tls (ig_io c)) as [t|] eqn:Et.
  - destruct (negb _); [by apply completes_ret, ing_after_refl|]. apply ingest_drain_runs; [by eapply tls_fits_on|done..].
  - eapply (completes_bind _ (fun _ => True)). { intros w. unfold on_net. by destruct (n_recv _ _). }
    intros r _. destruct r as [[|x d]| | |]; try (by apply completes_ret, ing_after_refl); try (by apply completes_ret, ing_after_close). by apply ingest_take_runs.
Qed.

Lemma ingest_greeting_runs c : ing_ok srv c -> completes tls_on (imapd_ingest_greeting srv c) (ing_after c).
Proof.
  intros Hok. apply completes_and; [|by apply ingest_greeting_at]. apply completes_always. intros w. unfold imapd_ingest_greeting. cbv zeta. by apply ing_reply_ok.
Qed.
End Sessions.

(** ** The sessions of imapd_imap.c *)

(** What the loop relies on from the IMAP sessions: the shared part of [Conn] is read and
    written in place, and the handlers return and leave the peer alone. *)
Section ImapLaws.
Context {N : ImapdNet} {HF : MailFs} {IM : ImapSessions} (srv : ImapdServer).

Definition imap_after (c c' : imap) : Prop := peer srv (im_io c) (im_io c').
Definition imap_returns (m : imap -> prog Mail imap) : Prop := forall c, tls_fits srv (im_io c) -> completes (tls_on srv) (m c) (imap_after c).

Class ImapSessionsLaws := {
  im_new_io io : im_io (im_new io) = io;
  im_io_set io c : im_io (im_set_io io c) = io;
  im_reset_io c : im_io (imapd_imap_tls_reset c) = im_io c;
  im_greeting : imap_returns imapd_imap_greeting;
  im_readable now : imap_returns (fun c => imapd_imap_readable c now);
  im_fetch : imap_returns imapd_fetch_pump;
  im_search : imap_returns imapd_search_pump;
  im_refresh : imap_returns imapd_imap_idle_refresh
}.
End ImapLaws.

(** ** The invariant of the loop *)

(** The addresses the connections come from. *)
Definition at_ip (ip : bytes) (ips : list bytes) : Z := len (List.filter (fun x => beq x ip) ips).

(** At most 512 connections, of which at most 16 from one address. *)
Definition ip_limits (ips : list bytes) : Prop :=
  len ips <= IMAPD_MAX_CONNS /\ forall ip, ip <> [] -> at_ip ip ips <= IMAPD_MAX_CONNS_PER_IP.

Lemma at_ip_submseteq ip l l' : l ⊆+ l' -> at_ip ip l <= at_ip ip l'.
Proof.
  unfold at_ip. induction 1 as [|x l l' H IH|x y l|x l l' H IH|l l' l'' H1 IH1 H2 IH2]; cbn [List.filter]; try lia.
  - destruct (beq x ip); cbn [length]; lia.
  - by destruct (beq x ip), (beq y ip).
  - destruct (beq x ip); cbn [length]; lia.
Qed.

Lemma ip_limits_submseteq l l' : l ⊆+ l' -> ip_limits l' -> ip_limits l.
Proof.
  intros Hs [H1 H2]. split.
  - apply submseteq_length in Hs. lia.
  - intros ip Hip. pose proof (at_ip_submseteq ip l l' Hs). specialize (H2 ip Hip). lia.
Qed.

Section Loop.
Context {N : ImapdNet} `{HF : MailFs} `{L : !MailFsLaws} {IM : ImapSessions} {X : ImapdMux} (srv : ImapdServer) (pid : Z) (tmp_suffix : bytes) (uninit : Z).
Context `{IL : !ImapSessionsLaws srv} (Hmax : 2 * ic_max_msg (is_cfg srv) <= INT_MAX).

Definition mc_peers (conns : list MailConn) : list bytes := map (fun c => io_ip (mc_io c)) conns.

Definition session_fine (c : MailConn) : Prop :=
  match c with CIngest c => ing_ok srv c | CPop c => pop_ok srv c | CImap _ => True end.
Definition mc_fine (c : MailConn) : Prop := session_fine c /\ tls_fits srv (mc_io c).

Record loop_ok (conns : list MailConn) : Prop := {
  lo_sessions : Forall mc_fine conns;
  lo_limits : ip_limits (mc_peers conns)
}.

(** A connection behind a step of the loop. *)
Definition mc_after (c c' : MailConn) : Prop := session_fine c' /\ peer srv (mc_io c) (mc_io c').

Lemma after_fine c c' : mc_fine c -> mc_after c c' -> mc_fine c'.
Proof. intros [_ H] [H1 H2]. split; [done|]. by eapply peer_fits. Qed.
Lemma mc_after_trans a b c : mc_after a b -> mc_after b c -> mc_after a c.
Proof. intros [_ H] [H1 H2]. split; [done|]. by etransitivity. Qed.
Lemma after_refl c : mc_fine c -> mc_after c c.
Proof. by intros [H _]. Qed.

Lemma mc_io_set io c : mc_io (mc_set_io io c) = io.
Proof. destruct c; [done| |done]. apply (im_io_set srv). Qed.

Lemma pop_ok_closed c io : pop_ok srv c -> io_closed io = true -> io_tls io = io_tls (pp_io c) -> pop_ok srv (pp_set_io io c).
Proof.
  intros [O1 O2 O3 O4 O5 O6 O7] Hcl Htls. split; try done; cbn; [by left|by left|]. by rewrite (tls_same _ _ Htls).
Qed.

(** A session is fine behind the changes the loop makes to its buffers. *)
Lemma set_io_closed c io : mc_fine c -> io_closed io = true -> io_tls io = io_tls (mc_io c) -> io_ip io = io_ip (mc_io c) -> mc_after c (mc_set_io io c).
Proof.
  intros [Hf Hfit] Hcl Htls Hip. split.
  - destruct c; cbn in *; [by apply ing_ok_io|done|by apply pop_ok_closed].
  - rewrite mc_io_set. split; [done|]. intros _ Hn. by rewrite Htls.
Qed.

Lemma drop_after c : mc_fine c -> mc_after c (mc_drop c).
Proof. intros H. by apply set_io_closed. Qed.

Lemma close_after c : mc_fine c -> mc_after c (mc_set_io (io_close (mc_io c)) c).
Proof. intros H. by apply set_io_closed. Qed.

(** No POP3 message is being sent. *)
Definition still (c : MailConn) : Prop := match c with CPop c => pp_gen c = None | _ => True end.

Lemma streaming_still c : mc_streaming c = false -> still c.
Proof. destruct c as [c|c|c]; [done..|]. cbn. by destruct (pp_gen c). Qed.

Lemma pop_ok_flush c io : pop_ok srv c -> spoken (pp_io c) io -> io_said io = io_said (pp_io c) -> pop_ok srv (pp_set_io io c).
Proof.
  intros [O1 O2 O3 O4 O5 O6 O7] (_ & _ & Htls & _ & _ & Hcl) Hsaid. split; try done; cbn.
  - intros Ht. destruct (O2 Ht) as [H|H]; [left; by apply Hcl|by right].
  - intros g Hg. destruct (O6 g Hg) as [H|(said0 & H)]; [left; by apply Hcl|]. right. exists said0. by eapply gen_ok_io.
  - by rewrite (tls_same _ _ Htls).
Qed.

(** A flush keeps the kind of a session, what it sends and its TLS state. *)
Definition flushed (c c' : MailConn) : Prop := mc_after c c' /\ (still c -> still c') /\ io_tls (mc_io c') = io_tls (mc_io c) /\
  match c with CImap _ => exists i, c' = CImap i | _ => True end.

Lemma flush_full c : mc_fine c -> completes (tls_on srv) (mc_flush c) (flushed c).
Proof.
  intros [Hf Hfit]. unfold mc_flush. apply completes_always. intros w. unfold mbind, prog_bind.
  destruct (flush_spoken true (mc_io c) w) as (w' & io & E & _ & Hsp & Hsaid). rewrite E. eexists w', _. split; [reflexivity|].
  pose proof Hsp as (_ & _ & Htls & Hip & _ & Hcl). split; [split|rewrite mc_io_set; split; [by destruct c|]; split; [done|]].
  - destruct c as [c|c|c]; cbn in *; [by apply ing_ok_io|done|by apply pop_ok_flush].
  - rewrite mc_io_set. split; [done|]. intros _ Hn. by rewrite Htls.
  - destruct c; [done|by eexists|done].
Qed.

Lemma flush_after c : mc_fine c -> completes (tls_on srv) (mc_flush c) (mc_after c).
Proof. intros Hc. eapply completes_mono; [by apply flush_full|]. by intros c' [H _]. Qed.

(** A handler of a protocol, as a step of the loop. *)
Lemma lift_completes {A} (wrap : A -> MailConn) c (m : prog Mail A) (P : A -> Prop) :
  completes (tls_on srv) m P -> (forall a, P a -> mc_after c (wrap a)) -> completes (tls_on srv) (a ← m; mret (wrap a)) (mc_after c).
Proof. intros Hm Hi. eapply completes_bind; [exact Hm|]. intros a Ha. by apply completes_ret, Hi. Qed.

Lemma readable_after n c now : mc_fine c -> still c -> completes (tls_on srv) (mc_readable srv pid tmp_suffix uninit n c now) (mc_after c).
Proof.
  intros [Hf Hfit] Hs. destruct c as [c|c|c]; cbn [mc_readable session_fine mc_io] in *.
  - eapply lift_completes; [by apply ingest_readable_runs|done].
  - eapply lift_completes; [by apply im_readable|done].
  - eapply lift_completes; [by apply pop3_readable_runs|done].
Qed.

Lemma completes_after c c1 (m : prog Mail MailConn) : mc_after c c1 -> completes (tls_on srv) m (mc_after c1) -> completes (tls_on srv) m (mc_after c).
Proof. intros H Hm. eapply completes_mono; [exact Hm|]. intros c2 H2. by eapply mc_after_trans. Qed.

(** *** The idle sweep *)

Lemma idle_after c now : mc_fine c -> completes (tls_on srv) (mc_idle_check srv c now) (mc_after c).
Proof.
  intros Hc. unfold mc_idle_check. destruct (_ && _); [|by apply completes_ret, after_refl].
  destruct (imapd_tls_handshaking (mc_io c)); [by apply completes_ret, drop_after|].
  assert (Hbye : forall t, match c with CPop _ => False | _ => True end ->
    completes (tls_on srv) (c1 ← mc_flush (mc_set_io (io_append t (mc_io c)) c); mret (mc_set_io (io_close (mc_io c1)) c1)) (mc_after c)).
  { intros t Hk. assert (H1 : mc_after c (mc_set_io (io_append t (mc_io c)) c)).
    { destruct Hc as [Hf Hfit]. split; [destruct c; cbn in *; [by apply ing_ok_io|done|done]|]. by rewrite mc_io_set. }
    eapply completes_bind; [eapply completes_after; [exact H1|apply flush_after; by eapply after_fine]|].
    intros c1 Hc1. apply completes_ret. eapply mc_after_trans; [exact Hc1|]. apply close_after. by eapply after_fine. }
  destruct c as [c|c|c]; [by apply Hbye|by apply Hbye|]. by apply completes_ret, close_after.
Qed.

Lemma sweep_after now conns : Forall mc_fine conns -> completes (tls_on srv) (mc_idle_sweep srv conns now) (Forall2 mc_after conns).
Proof.
  induction 1 as [|c cs Hc Hcs IH]; cbn [mc_idle_sweep]; [by apply completes_ret|].
  eapply completes_bind; [by apply idle_after|]. intros c' H'. eapply completes_bind; [exact IH|]. intros cs' Hcs'. apply completes_ret. by constructor.
Qed.

Lemma after_peers conns conns' : Forall2 mc_after conns conns' -> mc_peers conns' = mc_peers conns.
Proof. induction 1 as [|c c' cs cs' [_ [H _]] _ IH]; cbn [mc_peers map] in *; [done|]. unfold mc_peers in IH. by rewrite IH, H. Qed.

Lemma after_ok conns conns' : loop_ok conns -> Forall2 mc_after conns conns' -> loop_ok conns'.
Proof.
  intros [H1 H2] Hf. split; [|by rewrite (after_peers _ _ Hf)]. clear H2. induction Hf as [|c c' cs cs' Hc _ IH]; [done|].
  apply Forall_cons in H1 as [H H1]. constructor; [by eapply after_fine|by apply IH].
Qed.

(** *** Dispatch *)

Lemma step_tls a c now : forall w, match (imapd_tls_handshake_step c now w).2 with
  | Some r => (r.2 > 0 -> imapd_tls_handshaking r.1 = false) /\ io_said r.1 = io_said c /\ io_in r.1 = io_in c /\ (io_closed r.1 = io_closed c)
  | None => a
  end.
Proof.
  intros w. unfold imapd_tls_handshake_step, imapd_tls_handshaking. destruct (io_tls c) as [t|] eqn:Et; [|by cbn].
  destruct (it_state t) eqn:Es; [| |by cbn; rewrite Et, Es]; cbv zeta; unfold mbind, prog_bind, on_net;
    destruct (ssl_handshake _ _) as [n r]; cbn [mret prog_ret fst snd]; repeat (destruct (r =? _); [by cbn|]); by cbn.
Qed.

Lemma tls_reset_after c io : mc_fine c -> imapd_tls_handshaking (mc_io c) = true -> imapd_tls_handshaking io = false -> peer srv (mc_io c) io ->
  mc_after c (mc_tls_reset (mc_set_io io c)) /\ still (mc_tls_reset (mc_set_io io c)).
Proof.
  intros [Hf Hfit] Hhs Hdone Hp. destruct c as [c|c|c]; cbn in *.
  - split; [|done]. split; [apply ing_ok_reset; by left|done].
  - split; [|done]. split; [done|]. cbn. by rewrite (im_reset_io srv), (im_io_set srv).
  - split; [|done]. split; [|done]. cbn. pose proof (po_auth _ c Hf (po_tls _ c Hf Hhs)) as Hnone.
    unfold imapd_pop3_tls_reset. split; cbn; try done. intros mb Hmb. congruence.
Qed.

Lemma handshake_after c io : mc_fine c -> still c -> imapd_tls_handshaking (mc_io c) = true -> peer srv (mc_io c) io -> mc_after c (mc_set_io io c).
Proof.
  intros [Hf Hfit] Hs Hhs Hp. split; [|by rewrite mc_io_set]. destruct c as [c|c|c]; cbn in *; [by apply ing_ok_io|done|].
  pose proof (po_tls _ c Hf Hhs) as Ha. destruct Hf as [O1 O2 O3 O4 O5 O6 O7].
  split; try done; cbn; [by rewrite Ha|by rewrite Hs].
Qed.

Lemma advance_after n c now : mc_fine c -> still c -> imapd_tls_handshaking (mc_io c) = true ->
  completes (tls_on srv) (mc_tls_advance srv pid tmp_suffix uninit n c now) (mc_after c).
Proof.
  intros Hc Hs Hhs. unfold mc_tls_advance.
  eapply (completes_bind _ (fun r => (r.2 > 0 -> imapd_tls_handshaking r.1 = false) /\ peer srv (mc_io c) r.1)).
  { eapply completes_mono; [apply completes_and; [intros w; exact (step_tls (tls_on srv) (mc_io c) now w)|by apply step_peer]|]. intros r [(H1 & _) H2]. done. }
  intros [io r] [Hdone Hp]. cbn [fst snd] in *. pose proof (handshake_after c io Hc Hs Hhs Hp) as H1. cbv zeta.
  destruct (r <? 0); [apply completes_ret; eapply mc_after_trans; [exact H1|apply drop_after; by eapply after_fine]|].
  destruct (r >? 0) eqn:Er; [|by apply completes_ret]. rewrite Z.gtb_lt in Er.
  destruct (tls_reset_after c io Hc Hhs (Hdone ltac:(lia)) Hp) as [H2 H3].
  eapply completes_after; [exact H2|]. apply readable_after; [by eapply after_fine|done].
Qed.

Lemma pump_after c : mc_fine c -> completes (tls_on srv) (match c with CPop p => p ← imapd_pop3_pump p; mret (CPop p) | _ => mret c end) (mc_after c).
Proof.
  intros Hc. destruct c as [c|c|c]; [by apply completes_ret, after_refl..|]. destruct Hc as [Hf _]. eapply lift_completes; [by apply pop3_pump_runs|done].
Qed.

(** The pumps of an IMAP session, and the flush behind them. *)
Lemma imap_pump_after i (m : prog Mail imap) : mc_fine (CImap i) -> completes (tls_on srv) m (imap_after srv i) ->
  completes (tls_on srv) (i ← m; mc_flush (CImap i)) (mc_after (CImap i)).
Proof.
  intros Hc Hm. eapply completes_bind; [exact Hm|]. intros i1 H1. assert (H2 : mc_after (CImap i) (CImap i1)) by done.
  eapply completes_after; [exact H2|]. apply flush_after. by eapply after_fine.
Qed.

Lemma mc_set_after c c' f : mc_after c c' -> (forall a, io_ip (f a) = io_ip a /\ io_tls (f a) = io_tls a) -> (exists i, c' = CImap i) -> mc_after c (mc_set_io (f (mc_io c')) c').
Proof.
  intros [_ H] Hfx (i & ->). split; [done|]. cbn. rewrite (im_io_set srv). etransitivity; [exact H|]. destruct (Hfx (im_io i)) as [E1 E2]. split; [done|].
  intros _ Hn. cbn in Hn. congruence.
Qed.

Lemma pending_handshaking (a : Io) : imapd_tls_pending a = true -> imapd_tls_handshaking a = true.
Proof. unfold imapd_tls_pending, imapd_tls_handshaking. destruct (io_tls a) as [t|]; [|done]. by destruct (it_state t). Qed.

Lemma dispatch_after n now c rev : mc_fine c -> completes (tls_on srv) (mc_dispatch srv pid tmp_suffix uninit n now c rev) (mc_after c).
Proof.
  intros Hc. assert (Hret : completes (tls_on srv) (@mret (prog Mail) _ _ c) (mc_after c)) by (by apply completes_ret, after_refl).
  unfold mc_dispatch. cbv zeta. destruct (io_closed (mc_io c)) eqn:Ecl.
  { destruct (SmtpLoop.has rev POLLOUT); [|done]. by apply flush_after. }
  destruct (mc_streaming c) eqn:Es.
  { destruct (SmtpLoop.has rev POLLOUT); [|done]. destruct c as [c|i|p]; [done| |exact (pump_after (CPop p) Hc)]. destruct Hc as [Hf Hfit].
    destruct (im_fetching i); [by apply imap_pump_after, (im_fetch srv)|].
    eapply (completes_bind _ (fun i1 => mc_after (CImap i) (CImap i1))); [eapply completes_mono; [by apply (im_search srv)|done]|]. intros i1 H1.
    eapply completes_bind; [apply (flush_full (CImap i1)); by eapply after_fine|]. intros c' (H2 & _ & _ & Hk). apply completes_ret.
    apply (mc_set_after _ _ (io_set_act now)); [by eapply mc_after_trans|done|exact Hk]. }
  apply streaming_still in Es. destruct (imapd_tls_pending (mc_io c)) eqn:Ep.
  { destruct (SmtpLoop.has rev POLLOUT); [|done]. eapply completes_bind; [by apply flush_full|]. intros c1 (H1 & Hs1 & Ht1 & _). destruct (_ && _); [|by apply completes_ret].
    eapply completes_after; [exact H1|]. apply advance_after; [by eapply after_fine|by apply Hs1|]. rewrite (tls_same _ _ Ht1). by apply pending_handshaking. }
  destruct (imapd_tls_handshaking (mc_io c)) eqn:Eh.
  { destruct (SmtpLoop.has rev _); [|done]. by apply advance_after. }
  eapply (completes_bind _ (mc_after c)); [destruct (SmtpLoop.has rev POLLANY); [by apply readable_after|done]|]. intros c1 H1.
  eapply (completes_bind _ (mc_after c)).
  { destruct c1 as [c1|i|c1]; [by apply completes_ret| |by apply completes_ret]. destruct (_ && _); [|by apply completes_ret]. eapply completes_after; [exact H1|].
    pose proof (after_fine _ _ Hc H1) as [_ Hfit]. eapply lift_completes; [by apply (im_refresh srv)|done]. }
  intros c2 H2. destruct (_ && _) eqn:Hw; [|by apply completes_ret]. eapply completes_after; [exact H2|]. apply flush_after. by eapply after_fine.
Qed.

Lemma dispatch_all_after n now revs : forall conns, Forall mc_fine conns ->
  completes (tls_on srv) (mc_dispatch_all srv pid tmp_suffix uninit n now conns revs) (Forall2 mc_after conns).
Proof.
  assert (Hrefl : forall conns, Forall mc_fine conns -> Forall2 mc_after conns conns) by (induction 1; constructor; [by apply after_refl|done]).
  induction revs as [|rev revs IH]; intros conns Hok; destruct conns as [|c cs]; cbn [mc_dispatch_all]; try (by apply completes_ret, Hrefl).
  apply Forall_cons in Hok as [Hc Hcs]. eapply completes_bind; [by apply dispatch_after|]. intros c' H'.
  eapply completes_bind; [by apply IH|]. intros cs' Hcs'. apply completes_ret. by constructor.
Qed.

(** *** Reaping *)

Lemma net_runs {A} (f : net -> net * A) b : completes b (on_net f) (fun _ => True).
Proof. intros w. unfold on_net. by destruct (f _). Qed.
Lemma fs_runs {A} (f : fs -> fs * A) b : completes b (on_fs f) (fun _ => True).
Proof. intros w. unfold on_fs. by destruct (f _). Qed.

Lemma destroy_runs c b : completes b (mc_destroy tmp_suffix c) (fun _ => True).
Proof.
  unfold mc_destroy. eapply (completes_bind _ (fun _ => True)).
  { unfold imapd_tls_conn_free. destruct (io_tls _) as [t|]; [|by apply completes_ret]. eapply (completes_bind _ (fun _ => True)); [|intros ? _; by apply completes_ret].
    destruct (it_state t); [by apply completes_ret..|apply net_runs]. }
  intros _ _. eapply (completes_bind _ (fun _ => True)); [apply net_runs|]. intros _ _. destruct (match c with CIngest _ => _ | CImap _ => _ | CPop _ => _ end); [apply fs_runs|by apply completes_ret].
Qed.

(** Closed, and nothing left to send. *)
Definition mc_done (c : MailConn) : bool := io_closed (mc_io c) && (length (io_out (mc_io c)) <=? io_off (mc_io c))%nat.

(** Moving the last entry over entry [i] removes that. *)
Lemma swap_remove_perm {A} (l : list A) i x : l !! i = Some x -> x :: take (length l - 1) (<[i := default x (last l)]> l) ≡ₚ l.
Proof.
  destruct l as [|y l0 _] using rev_ind; [done|]. intros Hi. rewrite last_snoc, length_app. cbn [length default]. replace (length l0 + 1 - 1)%nat with (length l0) by lia.
  destruct (decide (i < length l0)%nat) as [Hlt|Hge].
  - rewrite insert_app_l by done. rewrite take_app_length' by (by rewrite length_insert).
    rewrite lookup_app_l in Hi by done. rewrite insert_take_drop by done. rewrite <- (take_drop_middle l0 i x Hi) at 3. solve_Permutation.
  - pose proof (lookup_lt_Some _ _ _ Hi) as Hlen. rewrite length_app in Hlen. cbn [length] in Hlen. assert (i = length l0) as -> by lia.
    rewrite lookup_app_r, Nat.sub_diag in Hi by lia. injection Hi as ->. rewrite insert_app_r_alt, take_app_length by lia. solve_Permutation.
Qed.

(** Reaping destroys exactly the connections that are done. *)
Lemma reap_exact b fuel : forall i conns, (length conns - i < fuel)%nat -> Forall (fun c => mc_done c = false) (take i conns) ->
  completes b (mc_reap tmp_suffix fuel i conns) (fun conns' => conns' ⊆+ conns /\ Forall (fun c => mc_done c = false) conns' /\
    exists gone, conns' ++ gone ≡ₚ conns /\ Forall (fun c => mc_done c = true) gone).
Proof.
  induction fuel as [|fuel IH]; intros i conns Hf Hlive; [lia|]. cbn [mc_reap]. destruct (conns !! i) as [c|] eqn:Ei.
  - pose proof (lookup_lt_Some _ _ _ Ei) as Hlt. fold (mc_done c). destruct (mc_done c) eqn:Ed.
    + eapply completes_bind; [apply destroy_runs|]. intros _ _. set (rest := take _ _). pose proof (swap_remove_perm conns i c Ei) as Hp. fold rest in Hp.
      eapply completes_mono; [apply IH|].
      * apply Permutation_length in Hp. cbn [length] in Hp. lia.
      * unfold rest. rewrite take_take. apply (Forall_take _ (length conns - 1)) in Hlive. rewrite take_take in Hlive.
        replace (Nat.min i (length conns - 1)) with (Nat.min (length conns - 1) i) by lia.
        rewrite <- take_take, take_insert_ge by lia. rewrite take_take. done.
      * intros conns' (H1 & H2 & gone & H3 & H4). split; [|split; [done|]].
        -- etransitivity; [exact H1|]. rewrite <- Hp. by apply submseteq_cons.
        -- exists (c :: gone). split; [|by constructor]. rewrite <- Hp, <- H3. by rewrite Permutation_middle.
    + apply IH; [lia|]. rewrite (take_S_r _ _ _ Ei). apply Forall_app. split; [done|by constructor].
  - apply completes_ret. apply lookup_ge_None in Ei. rewrite take_ge in Hlive by done. split; [done|]. split; [done|]. exists []. by rewrite app_nil_r.
Qed.

Lemma mc_peers_submseteq conns conns' : conns' ⊆+ conns -> mc_peers conns' ⊆+ mc_peers conns.
Proof. intros H. unfold mc_peers. induction H; cbn [map]; [done|by apply submseteq_skip|apply submseteq_swap|by apply submseteq_cons|by etransitivity]. Qed.

Lemma submseteq_ok conns conns' : conns' ⊆+ conns -> loop_ok conns -> loop_ok conns'.
Proof.
  intros Hs [H1 H2]. split; [|by eapply ip_limits_submseteq; [apply mc_peers_submseteq|]].
  rewrite Forall_forall in *. intros c Hc. apply H1. by eapply elem_of_submseteq.
Qed.

(** *** Accepting *)

Lemma greet_ok k io : tls_fits srv io -> completes (tls_on srv) (mc_greet srv k io) (fun c => mc_fine c /\ io_ip (mc_io c) = io_ip io).
Proof.
  intros Hfit. destruct k; cbn [mc_greet].
  - eapply completes_bind; [apply ingest_greeting_runs; split; cbn; [by intros f|split; [unfold IMAPD_MAX_RCPTS; lia|constructor]|done|lia]|].
    intros c [H1 H2]. apply completes_ret. split; [|by destruct H2]. split; [done|]. by eapply peer_fits.
  - eapply completes_bind; [apply (im_greeting srv); by rewrite (im_new_io srv)|]. intros c H. unfold imap_after in H. rewrite (im_new_io srv) in H. apply completes_ret.
    split; [|by destruct H]. split; [done|]. by eapply peer_fits.
  - eapply completes_bind; [apply pop3_greeting_runs; [by split|done]|].
    intros c [H1 H2]. apply completes_ret. split; [|by destruct H2]. split; [done|]. by eapply peer_fits.
Qed.

Lemma count_at_ip conns ip : ip <> [] -> imapd_count_peer conns ip = at_ip ip (mc_peers conns).
Proof.
  intros Hip. unfold imapd_count_peer, at_ip, mc_peers. destruct ip as [|x ip]; [done|]. cbn [is_nil]. f_equal.
  induction conns as [|c cs IH]; [done|]. cbn [List.filter map]. destruct (beq _ _); cbn [length]; by rewrite IH.
Qed.

Lemma refuse_runs k fd b : completes b (refuse k fd) (fun _ => True).
Proof. unfold refuse. eapply (completes_bind _ (fun _ => True)); [destruct k; [apply net_runs..|by apply completes_ret]|]. intros _ _. apply net_runs. Qed.

Lemma mc_accept_one_ok k now conns fd sa : loop_ok conns -> completes (tls_on srv) (mc_accept_one srv k now conns fd sa) loop_ok.
Proof.
  intros [H1 [H2 H3]]. assert (Hno : completes (tls_on srv) (_ ← refuse k fd; mret conns) loop_ok).
  { eapply completes_bind; [apply refuse_runs|]. intros _ _. apply completes_ret. by repeat split. }
  unfold mc_accept_one. rewrite Z.geb_leb. destruct (Z.leb_spec IMAPD_MAX_CONNS (len conns)); [exact Hno|]. cbv zeta. set (ip := peer_ip_of sa).
  destruct (negb (is_nil ip) && _) eqn:Hip; [exact Hno|].
  eapply completes_bind; [by apply greet_ok|]. intros c [Hc Heq]. cbn in Heq. apply completes_ret. split; [apply Forall_app; split; [done|by constructor]|].
  unfold mc_peers. rewrite map_app. cbn [map]. rewrite Heq. split.
  - rewrite length_app, length_map. cbn [length]. lia.
  - intros ip' Hne. unfold at_ip. rewrite List.filter_app, length_app. cbn [List.filter]. destruct (beq ip ip') eqn:Eb; cbn [length].
    + apply beq_spec in Eb as <-. assert (Hnil : is_nil ip = false) by (by destruct ip). rewrite Hnil in Hip. cbn [negb andb] in Hip.
      rewrite Z.geb_leb in Hip. apply Z.leb_gt in Hip. rewrite count_at_ip in Hip by done. unfold at_ip, mc_peers in Hip. lia.
    + specialize (H3 ip' Hne). unfold at_ip, mc_peers in H3. lia.
Qed.

Lemma accept_all_ok k now accepted : forall conns, loop_ok conns -> completes (tls_on srv) (mc_accept_all srv k now conns accepted) loop_ok.
Proof.
  induction accepted as [|[fd sa] rest IH]; intros conns Hok; cbn [mc_accept_all]; [by apply completes_ret|].
  eapply completes_bind; [by apply mc_accept_one_ok|]. intros conns' H. by apply IH.
Qed.

Lemma mc_accept_on_ok k now rev lfd conns : loop_ok conns -> completes (tls_on srv) (mc_accept_on srv k now rev lfd conns) loop_ok.
Proof.
  intros Hok. unfold mc_accept_on. destruct (SmtpLoop.has rev POLLIN); [|by apply completes_ret]. eapply (completes_bind _ (fun _ => True)); [apply net_runs|].
  intros accepted _. by apply accept_all_ok.
Qed.

(** *** One turn *)

Lemma imapd_dispatch_ok n now l conns revs : loop_ok conns -> completes (tls_on srv) (imapd_dispatch srv pid tmp_suffix uninit n now l conns revs)
  (fun conns' => loop_ok conns' /\ Forall (fun c => mc_done c = false) conns').
Proof.
  intros Hok. unfold imapd_dispatch. cbv zeta. eapply completes_bind; [by apply mc_accept_on_ok|]. intros c1 H1. eapply completes_bind; [by apply mc_accept_on_ok|]. intros c2 H2.
  eapply completes_bind; [by apply mc_accept_on_ok|]. intros c3 H3. eapply completes_bind; [apply dispatch_all_after, (lo_sessions _ H3)|]. intros c4 H4.
  pose proof (after_ok _ _ H3 H4) as Hok4. eapply completes_mono; [apply reap_exact; [lia|constructor]|]. intros c5 (H5 & H6 & _). split; [by eapply submseteq_ok|done].
Qed.

(** What a turn leaves behind; [None] when [poll] failed. *)
Definition turn_ok (r : option (list MailConn)) : Prop := match r with Some conns => loop_ok conns | None => True end.

Lemma turn_runs n l conns : loop_ok conns -> completes (tls_on srv) (imapd_turn srv pid tmp_suffix uninit n l conns) turn_ok.
Proof.
  intros Hok. unfold imapd_turn. eapply (completes_bind _ (fun _ => True)); [apply net_runs|]. intros now _.
  eapply completes_bind; [apply sweep_after, (lo_sessions _ Hok)|]. intros c1 H1. pose proof (after_ok _ _ Hok H1) as Hok1.
  eapply (completes_bind _ (fun _ => True)); [apply net_runs|]. intros r _. destruct r as [| |revs]; [by apply completes_ret..|].
  eapply completes_bind; [by apply imapd_dispatch_ok|]. intros c2 [H2 _]. by apply completes_ret.
Qed.

(** The connections the loop can have. *)
Inductive imapd_reaches : list MailConn -> Prop :=
  | reach_start : imapd_reaches []
  | reach_turn n l conns w w' conns' : imapd_reaches conns -> imapd_turn srv pid tmp_suffix uninit n l conns w = (w', Some (Some conns')) -> imapd_reaches conns'.

Lemma reaches_ok conns : imapd_reaches conns -> loop_ok conns.
Proof.
  induction 1 as [|n l conns w w' conns' _ IH E]; [split; [constructor|by split]|].
  pose proof (turn_runs n l conns IH w) as H. by rewrite E in H.
Qed.

(** C26: the limits of imapd hold whatever its clients do. At any time there are at most
    512 connections, at most 16 of them from one address; an ingest session has its
    invariant, and a POP3 session has open the INBOX of the user that logged in and no
    other. The next turn returns, unless TLS is on and a client has sent for all of the
    [n] reads of a drain, and when [poll] returned it leaves no connection that is closed
    and has nothing left to send. *)
Theorem imapd_loop_invariant (conns : list MailConn) (Hr : imapd_reaches conns) :
  len conns <= IMAPD_MAX_CONNS /\ (forall ip, imapd_count_peer conns ip <= IMAPD_MAX_CONNS_PER_IP) /\
  (forall c, CIngest c ∈ conns -> ing_ok srv c) /\
  (forall c mb, CPop c ∈ conns -> pp_mb c = Some mb -> exists user, pp_user c = Some user /\ inbox_of srv user = Some (mb_dir mb)) /\
  (forall n l w, is_tls_ready srv = false -> (imapd_turn srv pid tmp_suffix uninit n l conns w).2 <> None) /\
  (forall n now l revs w w' conns', imapd_dispatch srv pid tmp_suffix uninit n now l conns revs w = (w', Some conns') -> forall c, c ∈ conns' -> mc_done c = false).
Proof.
  apply reaches_ok in Hr as Hok. destruct Hok as [Hs [Hl Hi]]. unfold mc_peers in Hl. rewrite length_map in Hl. rewrite Forall_forall in Hs.
  split; [done|]. split; [|split; [|split; [|split]]].
  - intros ip. destruct ip as [|x ip]; [by vm_compute|]. rewrite count_at_ip by done. by apply Hi.
  - intros c Hc. apply (Hs _ Hc).
  - intros c mb Hc Hmb. destruct (Hs _ Hc) as [Hp _]. destruct (po_mb _ c Hp mb Hmb) as ((user & Hu & [Hd _]) & _). by exists user.
  - intros n l w Hoff E. pose proof (turn_runs n l conns (reaches_ok _ Hr) w) as H. rewrite E in H. unfold tls_on in H. congruence.
  - intros n now l revs w w' conns' E c Hc. pose proof (imapd_dispatch_ok n now l conns revs (reaches_ok _ Hr) w) as H. rewrite E in H. destruct H as [_ H].
    rewrite Forall_forall in H. by apply H.
Qed.
End Loop.

(** ** A daemon in memory *)

(** IMAP sessions that say nothing, every descriptor readable, and one peer at each
    listener. *)
#[export] Instance SilentImap : ImapSessions (HF := MemMailFs) := {|
  imap := Io; im_new io := io; im_io c := c; im_set_io io _ := io; im_idle _ := false; im_fetching _ := false; im_searching _ := false;
  imapd_imap_greeting c := mret c; imapd_imap_readable c _ := mret c; imapd_imap_tls_reset c := c; imapd_fetch_pump c := mret c;
  imapd_search_pump c := mret c; imapd_imap_idle_refresh c := mret c; im_mbox _ := None
|}.

#[export] Instance BusyMux : ImapdMux := {|
  mx_poll s fds _ := (s, PollReady (map (fun _ => POLLIN) fds));
  mx_accept s lfd := (s, [(lfd + 10, AF_INET [127; 0; 0; 1])])
|}.

Lemma silent_imap_laws : ImapSessionsLaws (HF := MemMailFs) ing_w_srv.
Proof. split; [done..| | | | |]; unfold imap_returns; intros; by apply completes_ret. Qed.

Definition imapd_w_ls : Listeners := {| ls_ingest := 3; ls_imap := 4; ls_pop3 := 5 |}.
Definition imapd_w_turn (conns : list MailConn) (w : Mail) :=
  imapd_turn (HF := MemMailFs) (IM := SilentImap) ing_w_srv 7 (bs "1") 0 5 imapd_w_ls conns w.
Definition imapd_w_conns : list MailConn := match (imapd_w_turn [] ing_w_mail).2 with Some (Some conns) => conns | _ => [] end.

Example imapd_w_accepts : map (fun c => (io_fd (mc_io c), io_said (mc_io c))) imapd_w_conns
  = [(13, bs "220 h ESMTP imapd" ++ CRLF); (14, []); (15, bs "+OK h POP3 server ready" ++ CRLF)].
Proof. vm_compute. reflexivity. Qed.

Lemma imapd_w_reached : imapd_reaches (HF := MemMailFs) (IM := SilentImap) ing_w_srv 7 (bs "1") 0 imapd_w_conns.
Proof.
  apply (reach_turn (HF := MemMailFs) (IM := SilentImap) ing_w_srv 7 (bs "1") 0 5 imapd_w_ls [] ing_w_mail (imapd_w_turn [] ing_w_mail).1); [constructor|].
  vm_compute. reflexivity.
Qed.

Lemma imapd_loop_invariant_witness :
  len imapd_w_conns <= IMAPD_MAX_CONNS /\ (imapd_w_turn imapd_w_conns ing_w_mail).2 <> None.
Proof.
  destruct (imapd_loop_invariant (HF := MemMailFs) (IM := SilentImap) (IL := silent_imap_laws) ing_w_srv 7 (bs "1") 0 ltac:(vm_compute; discriminate) imapd_w_conns imapd_w_reached)
    as (H1 & _ & _ & _ & H2 & _).
  exact (conj H1 (H2 5%nat imapd_w_ls ing_w_mail eq_refl)).
Defined.

(** The idle sweep does not ask whether a connection is closed already. When the peer of
    a closed one takes no more output, every turn appends the farewell to it again, and
    [poll] is given no time to wait. *)
Section Stalled.
Context {N : ImapdNet} {HF : MailFs} {IM : ImapSessions} (srv : ImapdServer).

Definition farewell : bytes := bs "421 4.4.2 Timeout - closing connection" ++ CRLF.

Lemma imapd_stalled_peer_spins (c : Ing) (now : Z) (w : Mail) :
  (forall n fd b, n_send n fd b = (n, [SdAgain])) -> ig_st c <> IG_DATA -> 0 < ic_cmd_tmo (is_cfg srv) -> io_act (ig_io c) + ic_cmd_tmo (is_cfg srv) <= now ->
  io_closed (ig_io c) = true -> io_tls (ig_io c) = None -> (io_off (ig_io c) < length (io_out (ig_io c)))%nat ->
  exists c', mc_idle_check srv (CIngest c) now w = (w, Some (CIngest c')) /\ ig_io c' = io_append farewell (ig_io c) /\ ig_st c' = ig_st c /\
    imapd_poll_timeout srv [CIngest c'] now = 0 /\ mc_done (CIngest c') = false.
Proof.
  intros Hsend Hst Htmo Hact Hcl Htls Hoff. set (io := io_append farewell (ig_io c)). exists (ig_set_io io c).
  assert (Ht : forall d, ig_st d = ig_st c -> mc_timeout srv (CIngest d) = ic_cmd_tmo (is_cfg srv)) by (intros d E; cbn; rewrite E; by destruct (ig_st c)).
  assert (Hlen : (io_off io < length (io_out io))%nat) by (cbn; rewrite length_app; lia).
  split; [|split; [done|]; split; [done|]; split].
  - unfold mc_idle_check. rewrite Ht by done. cbn [mc_io]. rewrite (proj2 (Z.eqb_neq _ _)) by lia. rewrite (proj2 (Z.gtb_lt _ _)), (proj2 (Z.geb_le _ _)) by lia.
    cbn [negb andb]. unfold imapd_tls_handshaking. rewrite Htls. cbn [mc_set_io]. fold farewell. fold io. unfold mc_flush, imapd_conn_flush, mbind, prog_bind. cbn [mc_io ig_io ig_set_io].
    rewrite (proj2 (Nat.leb_gt _ _)) by exact Hlen. change (io_tls io) with (io_tls (ig_io c)). rewrite Htls. unfold on_net. rewrite Hsend.
    cbn [mret prog_ret]. assert (Hloop : out_loop [SdAgain] (length (io_out io)) (io_off io) = OutKeep (io_off io)) by (cbn [out_loop]; by rewrite (proj2 (Nat.leb_gt _ _))).
    rewrite Hloop. destruct w as [n f fl k], c as [a st fr rc d sc]. unfold io, io_append, io_set_out, io_close in *. cbn in *. rewrite Hcl. done.
  - unfold imapd_poll_timeout. cbn [mc_deadlines]. rewrite Ht by done. rewrite (proj2 (Z.eqb_neq _ _)) by lia. unfold deadline_ms. cbn [mc_io ig_io ig_set_io].
    change (io_act io) with (io_act (ig_io c)). rewrite (proj2 (Z.gtb_lt _ _)), (proj2 (Z.geb_le _ _)) by lia. done.
  - unfold mc_done. cbn [mc_io ig_io ig_set_io]. rewrite (proj2 (Nat.leb_gt _ _)) by exact Hlen. apply andb_false_r.
Qed.
End Stalled.

(** The size limit is tested as an [unsigned long] and stored in 32 bits. *)
Lemma max_msg_wraps : parse_max_msg (bs "0") = None /\ parse_max_msg (bs "4294967296") = Some 0 /\ parse_max_msg (bs "4294967297") = Some 1.
Proof. vm_compute. done. Qed.
