(* ===== verification/Mime.v ===== *)
(** * MIME structure (the end of src/src/imap_maildir.c)

    BODYSTRUCTURE, the resolution of a part number, and the walk over the parts of a
    message that jmapd uses. A message is its bytes, positions are offsets into it, and a
    C string held in a local buffer is its bytes up to the NUL. Allocation succeeds. *)

From S2P Require Import Prelude MailLines MailHeader Json.

(** ** Parameters of a header value *)

(** [bs_hdr]. *)
Definition bs_hdr (hdr name : bytes) (outsz : nat) : option bytes := c_str <$> mail_header_get hdr name outsz.

(** The value behind a [=]: a quoted string, or up to the next semicolon or blank. *)
Definition param_value (v : bytes) : bytes :=
  let vs := drop_while is_wsp v in
  match vs with
  | c :: t => if c =? DQUOTE then take_while (fun x => negb (x =? DQUOTE)) t
              else take_while (fun x => negb ((x =? ";"%chr) || is_wsp x)) vs
  | [] => []
  end.

(** One round of the parameter loops from [p]: the name without trailing blanks, what is
    behind the [=], and where the next round starts, which is the [=] itself. *)
Definition next_param (p : bytes) : option (bytes * bytes * bytes) :=
  '(_, q) ← cut ";"%chr p;
  let q := drop_while is_wsp q in
  if is_nil q then None
  else '(nm, v) ← cut "="%chr q; Some (trim_end is_wsp nm, v, "="%chr :: v).

(** The copy the parsers of Content-Type work on. *)
Definition ct_copy (val : bytes) : bytes := take 1023 val.

(** The boundary loop of [bs_ct_parse]. *)
Fixpoint boundary_loop (fuel : nat) (p : bytes) (bsz : nat) (boundary : bytes) : bytes :=
  match fuel with
  | O => boundary
  | S fuel' =>
      match next_param p with
      | None => boundary
      | Some (nm, v, p') =>
          if is_nil nm then boundary
          else
            let value := param_value v in
            boundary_loop fuel' p' bsz
              (if ieq (take 63 nm) (bs "boundary") && (length value <? bsz)%nat then value else boundary)
      end
  end.

(** [bs_ct_parse]: type, subtype and boundary. When the first semicolon is in front of
    the first slash the length of the subtype is negative as a [size_t], and the copy
    goes on to the capacity. *)
Definition bs_ct_parse (val : bytes) (tsz ssz bsz : nat) : bytes * bytes * bytes :=
  let p := ct_copy val in
  let to_slash := take_while (fun c => negb (c =? "/"%chr)) p in
  let to_semi := take_while (fun c => negb (c =? ";"%chr)) p in
  let type := take (tsz - 1) (if has "/"%chr p then to_slash else to_semi) in
  let sub := match cut "/"%chr p with
             | None => []
             | Some (a, s) => take (ssz - 1) (if has ";"%chr a then s else take_while (fun c => negb (c =? ";"%chr)) s)
             end in
  (type, sub, boundary_loop (S (length p)) p bsz []).

(** [bs_nstr]. *)
Definition quote_byte (c : Z) : bytes := if (c =? DQUOTE) || (c =? "\"%chr) then ["\"%chr; c] else [c].
Definition bs_nstr (s : bytes) : bytes := if is_nil s then bs "NIL" else DQUOTE :: concat (map quote_byte s) ++ [DQUOTE].

(** The loop of [bs_ct_params]; [started] is whether the list is open. *)
Fixpoint params_loop (fuel : nat) (p : bytes) (skip_b started : bool) : bytes * bool :=
  match fuel with
  | O => ([], started)
  | S fuel' =>
      match next_param p with
      | None => ([], started)
      | Some (nm, v, p') =>
          if is_nil nm then ([], started)
          else
            let name := take 63 nm in
            let value := take 511 (param_value v) in
            if skip_b && ieq name (bs "boundary") then params_loop fuel' p' skip_b started
            else
              let '(out, b) := params_loop fuel' p' skip_b true in
              ((if started then [SP] else ["("%chr]) ++ bs_nstr name ++ [SP] ++ bs_nstr value ++ out, b)
      end
  end.

Definition bs_ct_params (val : bytes) (skip_b : bool) : bytes :=
  let p := ct_copy val in
  let '(out, started) := params_loop (S (length p)) p skip_b false in
  if started then out ++ [")"%chr] else bs "NIL".

Definition bs_disposition (hdr : bytes) : bytes :=
  match bs_hdr hdr (bs "Content-Disposition") 256 with
  | None => bs "NIL"
  | Some v =>
      let head := match cut ";"%chr v with Some (a, _) => a | None => v end in
      let disp := take 63 (trim_end is_wsp head) in
      bs "(" ++ [DQUOTE] ++ disp ++ DQUOTE :: bs " " ++
      (match cut ";"%chr v with
       | Some (_, t) => bs_ct_params (take 511 (";"%chr :: t)) false
       | None => bs "NIL"
       end) ++ bs ")"
  end.

Definition bs_encoding (hdr : bytes) : bytes :=
  let v := default (bs "7BIT") (bs_hdr hdr (bs "Content-Transfer-Encoding") 64) in
  bs_nstr (take_while (fun c => negb (c =? SP)) v).

(** ** Parts *)

Definition byte_at (msg : bytes) (i : nat) : Z := nth i msg 0.

(** The search loops: the first position from [pos] at which [pat] lies in front of [be],
    [be] when there is none. *)
Fixpoint find_loop (fuel : nat) (msg pat : bytes) (be i : nat) : nat :=
  match fuel with
  | O => be
  | S fuel' =>
      if (be <? i + length pat)%nat then be
      else match strip_prefix pat (drop i msg) with
           | Some _ => i
           | None => find_loop fuel' msg pat be (S i)
           end
  end.

Definition find_at (msg pat : bytes) (be pos : nat) : nat := find_loop (S (be - pos)) msg pat be pos.

(** [while (e > pos && (msg[e-1] is CR or LF)) e--;] *)
Fixpoint trim_eol (n : nat) (msg : bytes) (pos : nat) : nat :=
  match n with
  | O => pos
  | S n' => if is_eol (byte_at msg (pos + n')) then trim_eol n' msg pos else (pos + n)%nat
  end.

Definition delim_of (boundary : bytes) : bytes := bs "--" ++ boundary.

(** The rule for delimiters that the three loops over parts share: the next part behind
    [pos] in a body that ends at [be], or [None] when the loop ends. *)
Definition next_part (msg delim : bytes) (be pos : nat) : option (nat * nat) :=
  let dlen := length delim in
  if (be <? pos + dlen)%nat then None
  else
    let d := find_at msg delim be pos in
    if (d =? be)%nat then None
    else if (d + dlen + 2 <=? be)%nat && (byte_at msg (d + dlen) =? "-"%chr) && (byte_at msg (d + dlen + 1) =? "-"%chr) then None
    else
      let p := (d + dlen)%nat in
      let p := if (p + 1 <? be)%nat && (byte_at msg p =? CR) && (byte_at msg (p + 1) =? LF) then (p + 2)%nat
               else if (p <? be)%nat && is_eol (byte_at msg p) then (p + 1)%nat else p in
      Some (p, trim_eol (find_at msg delim be p - p) msg p).

Definition slice (msg : bytes) (a b : nat) : bytes := take (b - a) (drop a msg).

(** [mime_hdr_end] on the bytes from [start] to [e], as an offset into the message. *)
Definition mime_hdr_end (msg : bytes) (start e : nat) : nat :=
  let i := find_at msg (CRLF ++ CRLF) e start in
  if negb (i =? e)%nat then (i + 4)%nat
  else let j := find_at msg [LF; LF] e start in
       if negb (j =? e)%nat then (j + 2)%nat else e.

(** The same search in [bs_part], which takes a header that ends the part for none. *)
Definition bs_hdr_end (msg : bytes) (start e : nat) : nat :=
  let i := find_at msg (CRLF ++ CRLF) e start in
  let h := if negb (i =? e)%nat then (i + 4)%nat else e in
  if (h =? e)%nat then
    let j := find_at msg [LF; LF] e start in if negb (j =? e)%nat then (j + 2)%nat else e
  else h.

(** ** BODYSTRUCTURE *)

(** The loop of [bs_multipart]; [part] renders a part, [npart] counts them. *)
Fixpoint multipart_loop (part : nat -> nat -> option bytes) (fuel : nat) (msg delim : bytes) (be pos npart : nat) : option bytes :=
  match fuel with
  | O => None
  | S fuel' =>
      match next_part msg delim be pos with
      | None => Some []
      | Some (p, e) =>
          if (p <? e)%nat then
            out ← part p e;
            rest ← multipart_loop part fuel' msg delim be e (S npart);
            Some ((if (npart =? 0)%nat then [] else [SP]) ++ out ++ rest)
          else multipart_loop part fuel' msg delim be e npart
      end
  end.

Definition bs_multipart (part : nat -> nat -> option bytes) (msg : bytes) (b e : nat) (boundary subtype ctval : bytes) : option bytes :=
  parts ← multipart_loop part (S (e - b)) msg (delim_of boundary) e b 0;
  Some (bs "(" ++ parts ++ bs " " ++ DQUOTE :: subtype ++ DQUOTE :: bs " " ++ bs_ct_params ctval true ++ bs " NIL NIL NIL)").

(** [bs_part]; [fuel] bounds the nesting, which the code does not. *)
Fixpoint bs_part (fuel : nat) (msg : bytes) (start e : nat) : option bytes :=
  match fuel with
  | O => None
  | S fuel' =>
      let hdr_end := bs_hdr_end msg start e in
      let hdr := slice msg start hdr_end in
      let ct := default (bs "text/plain") (bs_hdr hdr (bs "Content-Type") 1024) in
      let '(type, sub, boundary) := bs_ct_parse ct 64 64 512 in
      if ieq type (bs "multipart") then bs_multipart (bs_part fuel' msg) msg hdr_end e boundary sub ct
      else Some (DQUOTE :: type ++ [DQUOTE; SP; DQUOTE] ++ sub ++ DQUOTE :: bs " " ++ bs_ct_params ct false ++ bs " NIL NIL " ++ bs_encoding hdr ++ bs " " ++
                 dec_digits 20 (Z.of_nat (e - hdr_end)) [] ++ bs " NIL " ++ bs_disposition hdr ++ bs " NIL NIL")
  end.

Definition imapd_bodystructure (msg : bytes) : option bytes := bs_part (S (length msg)) msg 0 (length msg).

(** ** Part numbers *)

(** The loop of [mime_kth_part]; [idx] parts have been seen. *)
Fixpoint kth_loop (fuel : nat) (msg delim : bytes) (be pos : nat) (idx k : Z) : option (nat * nat) :=
  match fuel with
  | O => None
  | S fuel' =>
      match next_part msg delim be pos with
      | None => None
      | Some (p, e) => if idx + 1 =? k then Some (p, e) else kth_loop fuel' msg delim be e (idx + 1) k
      end
  end.

Definition mime_kth_part (msg : bytes) (b e : nat) (boundary : bytes) (k : Z) : option (nat * nat) :=
  kth_loop (S (e - b)) msg (delim_of boundary) e b 0 k.

(** The loop of [imapd_mime_part] from the part [cs, ce) with header end [he]. *)
Fixpoint mime_part_loop (msg : bytes) (path : list Z) (cs ce he : nat) : option (nat * nat * nat) :=
  match path with
  | [] => Some (cs, ce, he)
  | k :: path' =>
      ct ← bs_hdr (slice msg cs he) (bs "Content-Type") 1024;
      let '(type, _, boundary) := bs_ct_parse ct 64 64 512 in
      if negb (ieq type (bs "multipart")) || is_nil boundary then None
      else '(cs, ce) ← mime_kth_part msg he ce boundary k;
           mime_part_loop msg path' cs ce (mime_hdr_end msg cs ce)
  end.

Definition imapd_mime_part (msg : bytes) (path : list Z) : option (nat * nat * nat) :=
  mime_part_loop msg path 0 (length msg) (mime_hdr_end msg 0 (length msg)).

(** ** The walk *)

(** [mime_lower]. *)
Definition mime_lower (dstsz : nat) (src : bytes) : bytes := take (dstsz - 1) (lower src).

Definition mime_hex (c : Z) : option Z :=
  if ("0"%chr <=? c) && (c <=? "9"%chr) then Some (c - "0"%chr)
  else if ("a"%chr <=? c) && (c <=? "f"%chr) then Some (c - "a"%chr + 10)
  else if ("A"%chr <=? c) && (c <=? "F"%chr) then Some (c - "A"%chr + 10)
  else None.

(** [mime_pct_copy]; [room] is what is left of [outsz - 1]. *)
Fixpoint pct_loop (room : nat) (s : bytes) : bytes :=
  match room with
  | O => []
  | S room' =>
      match s with
      | [] => []
      | c :: t =>
          let one := c :: pct_loop room' t in
          match t with
          | a :: b :: t' =>
              if c =? "%"%chr then
                match mime_hex a, mime_hex b with
                | Some hi, Some lo => Z.lor (Z.shiftl hi 4) lo :: pct_loop room' t'
                | _, _ => one
                end
              else one
          | _ => one
          end
      end
  end.

Definition mime_pct_copy (s : bytes) (outsz : nat) : bytes := pct_loop (outsz - 1) s.

(** Behind the last apostrophe. *)
Fixpoint after_quote (s : bytes) : bytes :=
  match s with
  | [] => []
  | c :: t => if has "'"%chr t then after_quote t else if c =? "'"%chr then t else s
  end.

(** The loop of [mime_param_get]; [ext] is the value of the extended form, if seen. *)
Fixpoint param_get_loop (fuel : nat) (p want : bytes) (outsz : nat) (ext : option bytes) : option bytes :=
  match fuel with
  | O => take (outsz - 1) <$> ext
  | S fuel' =>
      match next_param p with
      | None => take (outsz - 1) <$> ext
      | Some (nm, v, p') =>
          if is_nil nm || (64 <=? length nm)%nat then param_get_loop fuel' p' want outsz ext
          else
            let is_ext := match last nm with Some c => c =? "*"%chr | None => false end in
            let name := if is_ext then take (length nm - 1) nm else nm in
            if ieq name want then
              if is_ext then param_get_loop fuel' p' want outsz (Some (c_str (mime_pct_copy (after_quote (param_value v)) 128)))
              else Some (take (outsz - 1) (param_value v))
            else param_get_loop fuel' p' want outsz ext
      end
  end.

Definition mime_param_get (val want : bytes) (outsz : nat) : option bytes := param_get_loop (S (length val)) val want outsz None.

Record ImailPart := {
  ip_id : bytes; ip_type : bytes; ip_subtype : bytes; ip_charset : bytes; ip_cte : bytes; ip_disp : bytes; ip_filename : bytes;
  ip_start : nat; ip_end : nat; ip_hdr_end : nat; ip_depth : nat; ip_multipart : bool
}.

(** The id: the numbers of the path, as many as fit 64 bytes. *)
Fixpoint part_id (path : list nat) (id : bytes) : bytes :=
  match path with
  | [] => id
  | k :: path' =>
      let id' := id ++ (if is_nil id then [] else bs ".") ++ dec_digits 20 (Z.of_nat k) [] in
      if (64 <=? length id')%nat then id else part_id path' id'
  end.

Definition not_in (cs : bytes) (c : Z) : bool := negb (has c cs).

(** What [mime_walk] reports of the part at [start, e), and the boundary it goes on with. *)
Definition describe_part (msg : bytes) (start e depth : nat) (path : list nat) : ImailPart * bytes :=
  let hdr_end := mime_hdr_end msg start e in
  let hdr := slice msg start hdr_end in
  let ct := default (bs "text/plain") (bs_hdr hdr (bs "Content-Type") 1024) in
  let '(type, sub, boundary) := bs_ct_parse ct 64 64 512 in
  let ptype := mime_lower 48 (if is_nil type then bs "text" else type) in
  let disposition := bs_hdr hdr (bs "Content-Disposition") 512 in
  let filename := match disposition with Some v => default [] (mime_param_get v (bs "filename") 128) | None => [] end in
  ({| ip_id := part_id path [];
      ip_type := ptype;
      ip_subtype := mime_lower 48 (if is_nil sub then bs "plain" else sub);
      ip_charset := match mime_param_get ct (bs "charset") 512 with Some v => take 47 v | None => [] end;
      ip_cte := match bs_hdr hdr (bs "Content-Transfer-Encoding") 512 with
                | Some v => mime_lower 32 (take_while (not_in (bs " ;" ++ [TAB])) (drop_while is_wsp v))
                | None => bs "7bit"
                end;
      ip_disp := match disposition with Some v => mime_lower 32 (take 63 (take_while (not_in (bs "; " ++ [TAB])) v)) | None => [] end;
      ip_filename := if is_nil filename then default [] (mime_param_get ct (bs "name") 128) else filename;
      ip_start := start; ip_end := e; ip_hdr_end := hdr_end; ip_depth := depth; ip_multipart := beq ptype (bs "multipart") |}, boundary).

Definition IMAPD_MAX_PART_DEPTH : nat := 16.

Section Walk.
(** The callback: the new context and whether it returned 0. *)
Context {C : Type} (fn : C -> ImailPart -> C * bool) (msg : bytes).

(** The loop over the children; [walk] is the recursive call, [k] children were walked.
    The second component of the state is [stop]. *)
Fixpoint children_loop (walk : C * bool -> nat -> nat -> list nat -> C * bool) (fuel : nat) (delim : bytes) (e pos k : nat) (path : list nat)
  (st : C * bool) : C * bool :=
  match fuel with
  | O => st
  | S fuel' =>
      if st.2 then st
      else match next_part msg delim e pos with
           | None => st
           | Some (p, e') =>
               if (p <? e')%nat then children_loop walk fuel' delim e e' (S k) path (walk st p e' (path ++ [S k]))
               else children_loop walk fuel' delim e e' k path st
           end
  end.

(** [mime_walk]; [levels] is how many levels of nesting are left. *)
Fixpoint mime_walk (levels : nat) (st : C * bool) (start e : nat) (path : list nat) : C * bool :=
  match levels with
  | O => st
  | S levels' =>
      if st.2 || (e <? start)%nat || (length msg <? e)%nat then st
      else
        let '(p, boundary) := describe_part msg start e (length path) path in
        let '(ctx, ok) := fn st.1 p in
        if negb ok then (ctx, true)
        else if negb (ip_multipart p) || (IMAPD_MAX_PART_DEPTH <=? length path + 1)%nat then (ctx, false)
        else if is_nil boundary then (ctx, false)
        else if (IMAPD_MAX_PART_DEPTH <=? length path)%nat then (ctx, false)
        else children_loop (mime_walk levels') (S (e - ip_hdr_end p)) (delim_of boundary) e (ip_hdr_end p) 0 path (ctx, false)
  end.

Definition imapd_mime_iterate (ctx : C) : C := (mime_walk IMAPD_MAX_PART_DEPTH (ctx, false) 0 (length msg) []).1.

End Walk.

(** ** Wrappers *)

Definition imapd_mime_ct_parse (val : bytes) (tsz ssz bsz : nat) : bytes * bytes * bytes := bs_ct_parse val tsz ssz bsz.
Definition imapd_mime_param (val name : bytes) (outsz : nat) : option bytes :=
  if (outsz =? 0)%nat then None else mime_param_get val name outsz.
