(* ===== verification/MimeSpec.v ===== *)
(** * What the MIME walkers promise

    The walk over the parts, the part numbers, BODYSTRUCTURE, and at the end the lemmas
    that record where the code departs from RFC 3501 and from its comments. *)

From Stdlib Require Import Sorting.Sorted.
From S2P Require Import Prelude MailLines MailHeader Json Mime.

(** Text with a quote for every apostrophe. *)
Definition qt (s : bytes) : bytes := map (fun c => if c =? "'"%chr then DQUOTE else c) s.

Definition mime_single : bytes :=
  bs "Content-Type: text/plain; charset=utf-8" ++ CRLF ++ bs "Content-Transfer-Encoding: 7bit" ++ CRLF ++ CRLF ++ bs "hello".

Definition mime_two : bytes :=
  bs "Content-Type: multipart/mixed; boundary=Z" ++ CRLF ++ CRLF ++ bs "--Z" ++ CRLF ++ bs "Content-Type: text/plain" ++ CRLF ++ CRLF ++ bs "body" ++ CRLF ++
  bs "--Z" ++ CRLF ++ bs "Content-Type: application/pdf; name='d.pdf'" ++ CRLF ++ CRLF ++ bs "%PDF" ++ CRLF ++ bs "--Z--" ++ CRLF.

Definition collect_parts (msg : bytes) : list ImailPart := imapd_mime_iterate (fun ctx p => (ctx ++ [p], true)) msg [].

(** ** Positions *)

Lemma find_loop_spec fuel msg pat be : forall i, (0 < length pat)%nat -> (i <= be)%nat -> let d := find_loop fuel msg pat be i in
  (i <= d <= be)%nat /\ (d <> be -> (d + length pat <= be)%nat).
Proof.
  induction fuel as [|fuel IH]; intros i Hp Hi; cbn [find_loop]; [lia|]. destruct (Nat.ltb_spec be (i + length pat)); [lia|].
  destruct (strip_prefix pat (drop i msg)); [lia|]. specialize (IH (S i) Hp ltac:(lia)). cbv zeta in IH. lia.
Qed.

Lemma find_at_spec msg pat be pos : (0 < length pat)%nat -> (pos <= be)%nat -> let d := find_at msg pat be pos in
  (pos <= d <= be)%nat /\ (d <> be -> (d + length pat <= be)%nat).
Proof. apply find_loop_spec. Qed.

Lemma trim_eol_spec n msg pos : (pos <= trim_eol n msg pos <= pos + n)%nat.
Proof. induction n as [|n IH]; cbn [trim_eol]; [lia|]. destruct (is_eol _); lia. Qed.

Lemma next_part_spec msg delim be pos p e : (2 <= length delim)%nat -> next_part msg delim be pos = Some (p, e) -> (pos + 2 <= p /\ p <= e <= be)%nat.
Proof.
  intros Hd. unfold next_part. cbv zeta. destruct (Nat.ltb_spec be (pos + length delim)); [done|].
  pose proof (find_at_spec msg delim be pos ltac:(lia) ltac:(lia)) as [H1 H2]. cbv zeta in H1, H2. set (d := find_at msg delim be pos) in *.
  destruct (Nat.eqb_spec d be) as [|Hne]; [done|]. destruct (_ && _); [done|]. specialize (H2 Hne).
  set (q := if _ && _ && _ then _ else _). assert (Hq : (d + length delim <= q <= be)%nat).
  { unfold q. destruct (_ && _ && _) eqn:E1; [apply andb_true_iff in E1 as [E1 _]; apply andb_true_iff in E1 as [E1 _]; apply Nat.ltb_lt in E1; lia|]. clear E1.
    destruct ((d + length delim <? be)%nat && is_eol _) eqn:E2; [apply andb_true_iff in E2 as [E2 _]; apply Nat.ltb_lt in E2; lia|lia]. }
  clearbody q. intros [= <- <-]. pose proof (find_at_spec msg delim be q ltac:(lia) ltac:(lia)) as [H3 _]. cbv zeta in H3.
  pose proof (trim_eol_spec (find_at msg delim be q - q) msg q). lia.
Qed.

Lemma mime_hdr_end_spec msg start e : (start <= e)%nat -> (start <= mime_hdr_end msg start e <= e)%nat.
Proof.
  intros H. unfold mime_hdr_end. cbv zeta. pose proof (find_at_spec msg (CRLF ++ CRLF) e start ltac:(cbn; lia) H) as [H1 H2].
  pose proof (find_at_spec msg [LF; LF] e start ltac:(cbn; lia) H) as [H3 H4]. cbv zeta in *.
  set (i := find_at msg (CRLF ++ CRLF) e start) in *. set (j := find_at msg [LF; LF] e start) in *. change (length (CRLF ++ CRLF)) with 4%nat in H2. cbn [length] in H4.
  destruct (Nat.eqb_spec i e) as [|Hi]; cbn [negb]; [|specialize (H2 Hi); lia].
  destruct (Nat.eqb_spec j e) as [|Hj]; cbn [negb]; [lia|specialize (H4 Hj); lia].
Qed.

Lemma bs_hdr_end_spec msg start e : (start <= e)%nat -> (start <= bs_hdr_end msg start e <= e)%nat.
Proof.
  intros H. unfold bs_hdr_end. cbv zeta. pose proof (find_at_spec msg (CRLF ++ CRLF) e start ltac:(cbn; lia) H) as [H1 H2].
  pose proof (find_at_spec msg [LF; LF] e start ltac:(cbn; lia) H) as [H3 H4]. cbv zeta in *.
  set (i := find_at msg (CRLF ++ CRLF) e start) in *. set (j := find_at msg [LF; LF] e start) in *. change (length (CRLF ++ CRLF)) with 4%nat in H2. cbn [length] in H4.
  destruct (Nat.eqb_spec i e) as [|Hi]; cbn [negb].
  - rewrite Nat.eqb_refl. destruct (Nat.eqb_spec j e) as [|Hj]; cbn [negb]; [lia|specialize (H4 Hj); lia].
  - specialize (H2 Hi). destruct (Nat.eqb_spec (i + 4) e); [|lia]. destruct (Nat.eqb_spec j e) as [|Hj]; cbn [negb]; [lia|specialize (H4 Hj); lia].
Qed.

Lemma delim_length b : (2 <= length (delim_of b))%nat.
Proof. unfold delim_of. rewrite length_app. cbn. lia. Qed.

(** ** The tree of parts *)

(** All parts of a multipart body, the empty ones too. *)
Fixpoint part_spans (fuel : nat) (msg delim : bytes) (be pos : nat) : list (nat * nat) :=
  match fuel with
  | O => []
  | S fuel' => match next_part msg delim be pos with
               | None => []
               | Some (p, e) => (p, e) :: part_spans fuel' msg delim be e
               end
  end.

Definition nonempty_span (s : nat * nat) : bool := (s.1 <? s.2)%nat.

(** The parts below a body, each with its number. *)
Definition numbered {A} (f : nat -> nat * nat -> list A) (k : nat) (l : list (nat * nat)) : list A := concat (imap (fun (i : nat) (s : nat * nat) => f (k + S i)%nat s) l).

(** The walk as a list: a part with its path, then its children. *)
Fixpoint walk_list (msg : bytes) (levels : nat) (start e : nat) (path : list nat) : list (list nat * ImailPart) :=
  match levels with
  | O => []
  | S levels' =>
      let '(p, boundary) := describe_part msg start e (length path) path in
      (path, p) ::
      (if ip_multipart p && (length path + 1 <? IMAPD_MAX_PART_DEPTH)%nat && negb (is_nil boundary)
       then numbered (fun k s => walk_list msg levels' s.1 s.2 (path ++ [k])) 0
              (List.filter nonempty_span (part_spans (S (e - ip_hdr_end p)) msg (delim_of boundary) e (ip_hdr_end p)))
       else [])
  end.

Definition mime_tree (msg : bytes) : list (list nat * ImailPart) := walk_list msg IMAPD_MAX_PART_DEPTH 0 (length msg) [].

(** What a callback makes of a list of parts, up to where it stops. *)
Definition visit {C} (fn : C -> ImailPart -> C * bool) (st : C * bool) (l : list ImailPart) : C * bool :=
  foldl (fun (st : C * bool) p => if st.2 then st else let '(ctx, ok) := fn st.1 p in (ctx, negb ok)) st l.

Lemma visit_app {C} (fn : C -> ImailPart -> C * bool) st a b : visit fn st (a ++ b) = visit fn (visit fn st a) b.
Proof. apply foldl_app. Qed.

Lemma visit_cons {C} (fn : C -> ImailPart -> C * bool) c p l : visit fn (c, false) (p :: l) = visit fn (let '(ctx, ok) := fn c p in (ctx, negb ok)) l.
Proof. done. Qed.

Lemma visit_stopped {C} (fn : C -> ImailPart -> C * bool) st l : st.2 = true -> visit fn st l = st.
Proof. intros H. unfold visit. induction l as [|p l IH]; cbn [foldl]; [done|]. by rewrite H. Qed.

Lemma numbered_cons {A} (f : nat -> nat * nat -> list A) k s l : numbered f k (s :: l) = f (S k) s ++ numbered f (S k) l.
Proof.
  unfold numbered. rewrite imap_cons. cbn [concat]. rewrite Nat.add_1_r. f_equal. f_equal. apply imap_ext. intros i x _. cbn. f_equal. lia.
Qed.

Lemma span_bounds fuel msg delim be : forall pos, (2 <= length delim)%nat -> Forall (fun s => pos + 2 <= s.1 /\ s.1 <= s.2 <= be)%nat (part_spans fuel msg delim be pos).
Proof.
  induction fuel as [|fuel IH]; intros pos Hd; cbn [part_spans]; [constructor|]. destruct (next_part msg delim be pos) as [[p e]|] eqn:En; [|constructor].
  apply next_part_spec in En; [|done]. constructor; [done|]. eapply Forall_impl; [by apply IH|]. intros s Hs. cbn beta in *. lia.
Qed.

(** The fuel of the walkers is enough: a body holds no more parts than bytes, and behind
    the last one the rule finds none. *)
Lemma spans_complete msg delim be fuel : forall pos, (2 <= length delim)%nat -> (be - pos < fuel)%nat ->
  next_part msg delim be (default pos (snd <$> last (part_spans fuel msg delim be pos))) = None.
Proof.
  induction fuel as [|fuel IH]; intros pos Hd Hf; [lia|]. cbn [part_spans]. destruct (next_part msg delim be pos) as [[p e]|] eqn:En; [|exact En].
  apply next_part_spec in En; [|done]. specialize (IH e Hd ltac:(lia)). rewrite last_cons. by destruct (last (part_spans fuel msg delim be e)) as [[? ?]|].
Qed.

Lemma describe_hdr msg start e d path : ip_hdr_end (describe_part msg start e d path).1 = mime_hdr_end msg start e.
Proof. unfold describe_part. by destruct (bs_ct_parse _ _ _ _) as [[? ?] ?]. Qed.

Lemma describe_where msg start e d path : let p := (describe_part msg start e d path).1 in
  ip_start p = start /\ ip_end p = e /\ ip_depth p = d /\ ip_id p = part_id path [].
Proof. unfold describe_part. by destruct (bs_ct_parse _ _ _ _) as [[? ?] ?]. Qed.

Section Visits.
Context {C : Type} (fn : C -> ImailPart -> C * bool) (msg : bytes).

Lemma children_visits walk (f : nat -> nat * nat -> list (list nat * ImailPart)) delim e path fuel :
  (2 <= length delim)%nat -> (e <= length msg)%nat ->
  (forall st p e' k, (p <= e' <= e)%nat -> walk st p e' (path ++ [k]) = visit fn st (map snd (f k (p, e')))) ->
  forall pos k st, children_loop msg walk fuel delim e pos k path st
    = visit fn st (map snd (numbered f k (List.filter nonempty_span (part_spans fuel msg delim e pos)))).
Proof.
  intros Hd He Hw. induction fuel as [|fuel IH]; intros pos k st; cbn [children_loop part_spans]; [done|].
  destruct st.2 eqn:Es; [by rewrite visit_stopped|]. destruct (next_part msg delim e pos) as [[p e']|] eqn:En; [|done].
  apply next_part_spec in En; [|done]. cbn [List.filter]. unfold nonempty_span at 1. cbn [fst snd]. destruct (p <? e')%nat; [|apply IH].
  rewrite IH, numbered_cons, map_app, visit_app. by rewrite Hw by lia.
Qed.

Lemma walk_visits levels : forall st start e path, (start <= e <= length msg)%nat ->
  mime_walk fn msg levels st start e path = visit fn st (map snd (walk_list msg levels start e path)).
Proof.
  induction levels as [|levels IH]; intros st start e path Hb; cbn [mime_walk walk_list]; [done|].
  rewrite (proj2 (Nat.ltb_ge e start)), (proj2 (Nat.ltb_ge (length msg) e)), !orb_false_r by lia.
  destruct st as [c stop]. cbn [snd]. destruct stop; [by rewrite visit_stopped|].
  pose proof (describe_hdr msg start e (length path) path) as Hh. destruct (describe_part _ _ _ _ _) as [p boundary]. cbn [fst] in Hh.
  cbn [map snd fst]. rewrite visit_cons. destruct (fn c p) as [ctx ok]. destruct ok; cbn [negb]; [|by rewrite visit_stopped].
  destruct (ip_multipart p); cbn [negb orb andb]; [|done].
  destruct (Nat.leb_spec IMAPD_MAX_PART_DEPTH (length path + 1)).
  { by rewrite (proj2 (Nat.ltb_ge _ _)) by lia. }
  rewrite (proj2 (Nat.ltb_lt _ _)), (proj2 (Nat.leb_gt IMAPD_MAX_PART_DEPTH (length path))) by lia. cbn [andb].
  destruct (is_nil boundary); [done|]. cbn [negb]. pose proof (mime_hdr_end_spec msg start e ltac:(lia)).
  rewrite (children_visits _ (fun k s => walk_list msg levels s.1 s.2 (path ++ [k]))); [done|apply delim_length|lia|].
  intros st' p' e' k Hp. cbn [fst snd]. apply IH. lia.
Qed.
End Visits.

(** ** What the tree looks like *)

Lemma numbered_in {A} (f : nat -> nat * nat -> list A) l (x : A) : forall k, x ∈ numbered f k l <-> exists i s, l !! i = Some s /\ x ∈ f (k + S i)%nat s.
Proof.
  induction l as [|s l IH]; intros k; [split; [intros H; by apply not_elem_of_nil in H|by intros (i & ? & ? & _)]|].
  rewrite numbered_cons, elem_of_app, IH. split.
  - intros [H|(i & t & Ht & Hx)]; [exists 0%nat, s; split; [done|]; by rewrite Nat.add_1_r|]. exists (S i), t. split; [done|]. by replace (k + S (S i))%nat with (S k + S i)%nat by lia.
  - intros ([|i] & t & Ht & Hx); [left; injection Ht as ->; by rewrite Nat.add_1_r in Hx|]. right. exists i, t. split; [done|]. by replace (S k + S i)%nat with (k + S (S i))%nat by lia.
Qed.

Lemma spans_sorted fuel msg delim be : forall pos, (2 <= length delim)%nat -> StronglySorted (fun s t => s.2 <= t.1)%nat (part_spans fuel msg delim be pos).
Proof.
  induction fuel as [|fuel IH]; intros pos Hd; cbn [part_spans]; [constructor|]. destruct (next_part msg delim be pos) as [[p e]|]; [|constructor].
  constructor; [by apply IH|]. eapply Forall_impl; [by apply span_bounds|]. intros s Hs. cbn beta iota in *. cbn [fst snd]. lia.
Qed.

Lemma sorted_filter {A} (R : A -> A -> Prop) (f : A -> bool) l : StronglySorted R l -> StronglySorted R (List.filter f l).
Proof.
  induction 1 as [|x l Hl IH Hx]; cbn [List.filter]; [constructor|]. destruct (f x); [|done]. constructor; [done|].
  rewrite Forall_forall in *. intros y Hy. apply Hx. apply list_elem_of_In, filter_In in Hy as [Hy _]. by apply list_elem_of_In.
Qed.

Lemma sorted_lookup {A} (R : A -> A -> Prop) l : StronglySorted R l -> forall i j x y, l !! i = Some x -> l !! j = Some y -> (i < j)%nat -> R x y.
Proof.
  induction 1 as [|z l Hl IH Hz]; intros i j x y Hi Hj Hlt; [done|]. destruct j as [|j]; [lia|]. destruct i as [|i]; cbn in Hi, Hj; [|by eapply (IH i j); [..|lia]].
  injection Hi as <-. rewrite Forall_forall in Hz. apply Hz. by eapply list_elem_of_lookup_2.
Qed.

Section Tree.
Context (msg : bytes).

(** The children of a part: its non-empty spans. *)
Definition child_spans (start e : nat) (path : list nat) : list (nat * nat) :=
  let '(p, boundary) := describe_part msg start e (length path) path in
  if ip_multipart p && (length path + 1 <? IMAPD_MAX_PART_DEPTH)%nat && negb (is_nil boundary)
  then List.filter nonempty_span (part_spans (S (e - ip_hdr_end p)) msg (delim_of boundary) e (ip_hdr_end p))
  else [].

Lemma walk_list_eq levels start e path : walk_list msg (S levels) start e path =
  (path, (describe_part msg start e (length path) path).1) :: numbered (fun k s => walk_list msg levels s.1 s.2 (path ++ [k])) 0 (child_spans start e path).
Proof. cbn [walk_list]. unfold child_spans. destruct (describe_part _ _ _ _ _) as [p b]. cbn [fst]. by destruct (_ && _ && _). Qed.

Lemma child_spans_spec start e path : (start <= e)%nat ->
  StronglySorted (fun s t => s.2 <= t.1)%nat (child_spans start e path) /\
  forall s, s ∈ child_spans start e path -> let p := (describe_part msg start e (length path) path).1 in
    ip_multipart p = true /\ (length path + 1 < IMAPD_MAX_PART_DEPTH)%nat /\ (ip_hdr_end p <= s.1 /\ s.1 < s.2 <= e)%nat.
Proof.
  intros He. unfold child_spans. destruct (describe_part _ _ _ _ _) as [p b]. cbn [fst]. destruct (_ && _ && _) eqn:Eg; [|split; [constructor|]; intros s H; by apply not_elem_of_nil in H].
  apply andb_true_iff in Eg as [Eg _]. apply andb_true_iff in Eg as [Em Ed]. apply Nat.ltb_lt in Ed. split; [apply sorted_filter, spans_sorted, delim_length|].
  intros s Hs. apply list_elem_of_In, filter_In in Hs as [Hs Hne]. apply list_elem_of_In in Hs. apply Nat.ltb_lt in Hne.
  pose proof (span_bounds (S (e - ip_hdr_end p)) msg (delim_of b) e (ip_hdr_end p) (delim_length b)) as Hb. rewrite Forall_forall in Hb. specialize (Hb s Hs). cbn beta in Hb.
  cbv zeta. split; [done|]. split; [done|]. lia.
Qed.

(** What the walk says of the part with path [path] at [start, e), and of those below. *)
Record part_ok (start e : nat) (path : list nat) (x : list nat * ImailPart) : Prop := {
  pk_prefix : path `prefix_of` x.1;
  pk_range : (ip_start x.2 <= ip_hdr_end x.2 <= ip_end x.2 /\ start <= ip_start x.2 /\ ip_end x.2 <= e)%nat;
  pk_depth : ip_depth x.2 = length x.1 /\ (length x.1 < IMAPD_MAX_PART_DEPTH)%nat /\ ip_id x.2 = part_id x.1 []
}.

Lemma walk_list_ok levels : forall start e path, (start <= e)%nat -> (length path + levels = IMAPD_MAX_PART_DEPTH)%nat ->
  forall x, x ∈ walk_list msg levels start e path -> part_ok start e path x.
Proof.
  induction levels as [|levels IH]; intros start e path He Hl x Hx; [by apply not_elem_of_nil in Hx|].
  rewrite walk_list_eq in Hx. apply elem_of_cons in Hx as [->|Hx].
  - destruct (describe_where msg start e (length path) path) as (E1 & E2 & E3 & E4). pose proof (mime_hdr_end_spec msg start e He).
    split; cbn [fst snd]; [done|rewrite E1, E2, describe_hdr; lia|]. rewrite E3, E4. split; [done|]. split; [lia|done].
  - apply numbered_in in Hx as (i & s & Hs & Hx). apply list_elem_of_lookup_2 in Hs. destruct (child_spans_spec start e path He) as [_ Hc].
    specialize (Hc s Hs) as (_ & Hd & Hb). rewrite describe_hdr in Hb. pose proof (mime_hdr_end_spec msg start e He).
    specialize (IH s.1 s.2 (path ++ [(0 + S i)%nat]) ltac:(lia) ltac:(rewrite length_app; cbn; lia) x Hx). destruct IH as [I1 I2 I3].
    split; [|lia|done]. etransitivity; [|exact I1]. by apply prefix_app_r.
Qed.

(** The child a path below [path] goes through. *)
Lemma walk_list_below levels start e path x : (start <= e)%nat -> (length path + S levels = IMAPD_MAX_PART_DEPTH)%nat ->
  x ∈ walk_list msg (S levels) start e path -> x.1 <> path ->
  exists i s, child_spans start e path !! i = Some s /\ x ∈ walk_list msg levels s.1 s.2 (path ++ [S i]) /\ (path ++ [S i]) `prefix_of` x.1.
Proof.
  intros He Hl Hx Hne. rewrite walk_list_eq in Hx. apply elem_of_cons in Hx as [->|Hx]; [done|]. apply numbered_in in Hx as (i & s & Hs & Hx). exists i, s.
  split; [done|]. split; [done|]. destruct (child_spans_spec start e path He) as [_ Hc]. specialize (Hc s (list_elem_of_lookup_2 _ _ _ Hs)) as (_ & Hd & Hb).
  by apply (walk_list_ok levels s.1 s.2 (path ++ [S i])) in Hx as [? _ _]; [|lia|rewrite length_app; cbn; lia].
Qed.

Lemma prefix_same_child (path : list nat) i j l : (path ++ [i]) `prefix_of` l -> (path ++ [j]) `prefix_of` l -> i = j.
Proof. intros [a ->] [b E]. rewrite <- !app_assoc in E. apply app_inv_head in E. by injection E. Qed.

Lemma prefix_longer (path : list nat) i l : (path ++ [i]) `prefix_of` l -> l <> path.
Proof. intros [a ->] E. apply (f_equal length) in E. rewrite !length_app in E. cbn in E. lia. Qed.

Lemma walk_list_paths levels : forall start e path, (start <= e)%nat -> (length path + levels = IMAPD_MAX_PART_DEPTH)%nat -> NoDup (map fst (walk_list msg levels start e path)).
Proof.
  induction levels as [|levels IH]; intros start e path He Hl; [constructor|]. rewrite walk_list_eq. cbn [map fst].
  destruct (child_spans_spec start e path He) as [_ Hc].
  assert (Hin : forall k s x, s ∈ child_spans start e path -> x ∈ map fst (walk_list msg levels s.1 s.2 (path ++ [k])) -> (path ++ [k]) `prefix_of` x).
  { intros k s x Hs Hx. destruct (Hc s Hs) as (_ & Hd & Hb). apply list_elem_of_fmap in Hx as (y & -> & Hy).
    by apply (walk_list_ok levels s.1 s.2 (path ++ [k])) in Hy as [? _ _]; [|lia|rewrite length_app; cbn; lia]. }
  constructor.
  - intros Hx. apply list_elem_of_fmap in Hx as (y & Ey & Hy). apply numbered_in in Hy as (i & s & Hs & Hy).
    apply list_elem_of_lookup_2 in Hs. apply (prefix_longer path (0 + S i) path); [|done]. apply (Hin _ s); [done|]. apply list_elem_of_fmap. by exists y.
  - assert (G : forall l k, (forall s, s ∈ l -> s ∈ child_spans start e path) -> NoDup (map fst (numbered (fun k s => walk_list msg levels s.1 s.2 (path ++ [k])) k l))).
    { induction l as [|s l IHl]; intros k Hsub; [constructor|]. rewrite numbered_cons, map_app. apply NoDup_app.
      assert (Hs : s ∈ child_spans start e path) by (apply Hsub; left). destruct (Hc s Hs) as (_ & Hd & Hb).
      split; [apply IH; [lia|rewrite length_app; cbn; lia]|]. split; [|apply IHl; intros t Ht; apply Hsub; by right].
      intros x Hx Hy. apply (Hin (S k) s x Hs) in Hx. apply list_elem_of_fmap in Hy as (y & -> & Hy). apply numbered_in in Hy as (i & t & Ht & Hy).
      apply list_elem_of_lookup_2 in Ht. assert (Hy' : (path ++ [(S k + S i)%nat]) `prefix_of` y.1).
      { apply (Hin _ t); [apply Hsub; by right|]. apply list_elem_of_fmap. by exists y. }
      pose proof (prefix_same_child path _ _ _ Hx Hy'). lia. }
    by apply G.
Qed.

(** Every part but the root lies in the body of its parent. *)
Lemma walk_list_parent levels : forall start e path, (start <= e)%nat -> (length path + levels = IMAPD_MAX_PART_DEPTH)%nat ->
  forall x, x ∈ walk_list msg levels start e path -> x.1 = path \/
  exists up k q, x.1 = up ++ [k] /\ (up, q) ∈ walk_list msg levels start e path /\ ip_multipart q = true /\
    (ip_hdr_end q <= ip_start x.2 /\ ip_start x.2 < ip_end x.2 <= ip_end q)%nat.
Proof.
  induction levels as [|levels IH]; intros start e path He Hl x Hx; [by apply not_elem_of_nil in Hx|].
  destruct (decide (x.1 = path)) as [|Hne]; [by left|]. right. destruct (walk_list_below levels start e path x He Hl Hx Hne) as (i & s & Hs & Hx' & _).
  pose proof (list_elem_of_lookup_2 _ _ _ Hs) as Hs'. destruct (child_spans_spec start e path He) as [_ Hc]. destruct (Hc s Hs') as (Hm & Hd & Hb).
  destruct (IH s.1 s.2 (path ++ [S i]) ltac:(lia) ltac:(rewrite length_app; cbn; lia) x Hx') as [Heq|(up & k & q & H1 & H2 & H3 & H4)].
  - exists path, (S i), (describe_part msg start e (length path) path).1. split; [done|]. rewrite walk_list_eq. split; [left|]. split; [done|].
    assert (Hx2 : ip_start x.2 = s.1 /\ ip_end x.2 = s.2).
    { destruct levels as [|levels']; [by apply not_elem_of_nil in Hx'|]. rewrite walk_list_eq in Hx'. apply elem_of_cons in Hx' as [->|Hx'].
      - cbn [snd]. by destruct (describe_where msg s.1 s.2 (length (path ++ [S i])) (path ++ [S i])) as (-> & -> & _).
      - exfalso. apply numbered_in in Hx' as (j & t & Ht & Hx'). destruct (child_spans_spec s.1 s.2 (path ++ [S i]) ltac:(lia)) as [_ Hc'].
        specialize (Hc' t (list_elem_of_lookup_2 _ _ _ Ht)) as (_ & Hd' & Hb'). rewrite length_app in Hd'. cbn in Hd'.
        apply (walk_list_ok levels' t.1 t.2) in Hx' as [Hp _ _]; [|lia|rewrite !length_app; cbn; lia].
        apply prefix_longer in Hp. congruence. }
    destruct Hx2 as [-> ->]. destruct (describe_where msg start e (length path) path) as (_ & -> & _). lia.
  - exists up, k, q. split; [done|]. split; [|done]. rewrite walk_list_eq. right. apply numbered_in. by exists i, s.
Qed.

(** Siblings do not overlap and are in the order of their numbers. *)
Lemma walk_list_siblings levels : forall start e path, (start <= e)%nat -> (length path + levels = IMAPD_MAX_PART_DEPTH)%nat ->
  forall up j k x y, x ∈ walk_list msg levels start e path -> y ∈ walk_list msg levels start e path -> x.1 = up ++ [j] -> y.1 = up ++ [k] -> (j < k)%nat ->
  (ip_end x.2 <= ip_start y.2)%nat.
Proof.
  induction levels as [|levels IH]; intros start e path He Hl up j k x y Hx Hy Ex Ey Hlt; [by apply not_elem_of_nil in Hx|].
  pose proof (walk_list_ok (S levels) start e path He Hl x Hx) as [[a Ha] _ _]. pose proof (walk_list_ok (S levels) start e path He Hl y Hy) as [[b Hb] _ _].
  assert (Hlen : length x.1 = length y.1) by (rewrite Ex, Ey, !length_app; done).
  assert (Hnx : x.1 <> path).
  { intros E. rewrite E in Hlen, Ex. rewrite Ex in Hb. rewrite Ey, <- app_assoc in Hb. apply app_inv_head in Hb. injection Hb as Hb _. lia. }
  assert (Hny : y.1 <> path).
  { intros E. rewrite E in Ey. rewrite Ey in Ha. rewrite Ex, <- app_assoc in Ha. apply app_inv_head in Ha. injection Ha as Ha _. lia. }
  destruct (walk_list_below levels start e path x He Hl Hx Hnx) as (i & s & Hs & Hx' & [c Hc]).
  destruct (walk_list_below levels start e path y He Hl Hy Hny) as (i' & t & Ht & Hy' & [d Hd]).
  destruct (child_spans_spec start e path He) as [Hsort Hspec].
  pose proof (Hspec s (list_elem_of_lookup_2 _ _ _ Hs)) as (_ & Hdep & Hbs). pose proof (Hspec t (list_elem_of_lookup_2 _ _ _ Ht)) as (_ & _ & Hbt).
  assert (Hlv : (length (path ++ [S i]) + levels = IMAPD_MAX_PART_DEPTH)%nat) by (rewrite length_app; cbn; lia).
  destruct (decide (i = i')) as [<-|Hne].
  - rewrite Hs in Ht. injection Ht as <-. by apply (IH s.1 s.2 (path ++ [S i]) ltac:(lia) Hlv up j k).
  - rewrite Ex in Hc. rewrite Ey in Hd. destruct (decide (c = [])) as [->|Hcn].
    + rewrite app_nil_r in Hc. apply app_inj_tail in Hc as [-> ->]. rewrite <- app_assoc in Hd. apply app_inv_head in Hd. injection Hd as -> _.
      pose proof (sorted_lookup _ _ Hsort i i' s t Hs Ht ltac:(lia)) as Hst. cbn beta in Hst.
      pose proof (walk_list_ok levels s.1 s.2 (path ++ [S i]) ltac:(lia) Hlv x Hx') as [_ Hrx _].
      pose proof (walk_list_ok levels t.1 t.2 (path ++ [S i']) ltac:(lia) ltac:(rewrite length_app; cbn; lia) y Hy') as [_ Hry _]. lia.
    + exfalso. apply Hne. destruct (exists_last Hcn) as (c0 & z & ->). rewrite app_assoc in Hc. apply app_inj_tail in Hc as [Hup _].
      assert (Hd' : up ++ [k] = path ++ [S i'] ++ d) by (by rewrite Hd, <- app_assoc). rewrite Hup, <- !app_assoc in Hd'.
      apply app_inv_head in Hd'. by injection Hd'.
Qed.
End Tree.

(** C39: the walk is the tree of the parts. The callback gets the parts in the order of the
    tree until it stops the walk. The paths are distinct and at most 15 numbers long,
    and a part reports its path, cut to its buffer, as its id. Every part lies in the
    message with its header in front, every part but the root in the body of the
    multipart its path names above it, and siblings follow each other without
    overlapping. *)
Theorem mime_iterate_tree {C} (fn : C -> ImailPart -> C * bool) (msg : bytes) (ctx : C) :
  imapd_mime_iterate fn msg ctx = (visit fn (ctx, false) (map snd (mime_tree msg))).1 /\
  NoDup (map fst (mime_tree msg)) /\
  (forall path p, (path, p) ∈ mime_tree msg ->
    (ip_start p <= ip_hdr_end p <= ip_end p /\ ip_end p <= length msg)%nat /\ ip_depth p = length path /\ (length path < IMAPD_MAX_PART_DEPTH)%nat /\ ip_id p = part_id path [] /\
    (path = [] \/ exists up k q, path = up ++ [k] /\ (up, q) ∈ mime_tree msg /\ ip_multipart q = true /\
      (ip_hdr_end q <= ip_start p /\ ip_start p < ip_end p <= ip_end q)%nat)) /\
  (forall up j k p q, (up ++ [j], p) ∈ mime_tree msg -> (up ++ [k], q) ∈ mime_tree msg -> (j < k)%nat -> (ip_end p <= ip_start q)%nat).
Proof.
  assert (H0 : (0 <= length msg)%nat) by lia. unfold mime_tree. split; [|split; [|split]].
  - unfold imapd_mime_iterate. by rewrite walk_visits.
  - by apply walk_list_paths.
  - intros path p Hp. destruct (walk_list_ok msg _ _ _ [] H0 eq_refl _ Hp) as [_ H1 (H2 & H3 & H4)]. cbn [fst snd] in *.
    split; [lia|]. split; [done|]. split; [done|]. split; [done|]. destruct (walk_list_parent msg _ _ _ [] H0 eq_refl _ Hp) as [?|(up & k & q & H5)]; [by left|].
    right. by exists up, k, q.
  - intros up j k p q Hp Hq Hlt. by apply (walk_list_siblings msg _ _ _ [] H0 eq_refl up j k _ _ Hp Hq).
Qed.

(** ** Part numbers *)

Section Numbers.
Context (msg : bytes).

(** All spans between the delimiters of a container; [kth_loop] counts these. *)
Definition all_spans (start e : nat) (path : list nat) : list (nat * nat) :=
  let '(p, boundary) := describe_part msg start e (length path) path in
  if ip_multipart p && negb (is_nil boundary) then part_spans (S (e - ip_hdr_end p)) msg (delim_of boundary) e (ip_hdr_end p) else [].

Definition no_empty_span (start e : nat) (path : list nat) : Prop := Forall (fun s => nonempty_span s = true) (all_spans start e path).

(** No multipart of the message has an empty part. *)
Definition no_empty_part : Prop := forall path p, (path, p) ∈ mime_tree msg -> no_empty_span (ip_start p) (ip_end p) path.

Lemma filter_forall_id {A} (f : A -> bool) l : Forall (fun x => f x = true) l -> List.filter f l = l.
Proof. induction 1 as [|x l Hx Hl IH]; cbn [List.filter]; [done|]. by rewrite Hx, IH. Qed.

Lemma child_all start e path : (length path + 1 < IMAPD_MAX_PART_DEPTH)%nat -> no_empty_span start e path -> child_spans msg start e path = all_spans start e path.
Proof.
  intros Hd. unfold no_empty_span, child_spans, all_spans. destruct (describe_part _ _ _ _ _) as [p b]. rewrite (proj2 (Nat.ltb_lt _ _) Hd), andb_true_r.
  destruct (_ && _); [apply filter_forall_id|done].
Qed.

Lemma kth_spec fuel delim be k : forall pos idx, 0 <= idx ->
  kth_loop fuel msg delim be pos idx k = if idx <? k then part_spans fuel msg delim be pos !! Z.to_nat (k - idx - 1) else None.
Proof.
  induction fuel as [|fuel IH]; intros pos idx Hi; cbn [kth_loop part_spans]; [by destruct (idx <? k)|].
  destruct (next_part msg delim be pos) as [[p e]|]; [|by destruct (idx <? k)]. rewrite IH by lia.
  destruct (Z.ltb_spec idx k), (Z.eqb_spec (idx + 1) k), (Z.ltb_spec (idx + 1) k); try lia; [| |done].
  - subst k. by replace (Z.to_nat (idx + 1 - idx - 1)) with 0%nat by lia.
  - by replace (Z.to_nat (k - idx - 1)) with (S (Z.to_nat (k - (idx + 1) - 1))) by lia.
Qed.

Lemma multipart_lower type : beq (mime_lower 48 (if is_nil type then bs "text" else type)) (bs "multipart") = ieq type (bs "multipart").
Proof.
  apply eq_iff_eq_true. rewrite beq_spec, ieq_spec. unfold mime_lower. split.
  - intros H. destruct type as [|c t]; [done|]. cbn [is_nil] in H. pose proof (f_equal length H) as Hl. rewrite length_take in Hl. change (length (bs "multipart")) with 9%nat in Hl.
    rewrite take_ge in H by lia. rewrite H. by vm_compute.
  - intros H. destruct type as [|c t]; [done|]. cbn [is_nil]. rewrite H. by vm_compute.
Qed.

(** One number of a path goes down one level. *)
Lemma resolve_step start e path k zs : mime_part_loop msg (Z.of_nat k :: zs) start e (mime_hdr_end msg start e)
  = '(a, b) ← (if (k =? 0)%nat then None else all_spans start e path !! pred k); mime_part_loop msg zs a b (mime_hdr_end msg a b).
Proof.
  cbn [mime_part_loop]. unfold all_spans, describe_part, mime_kth_part.
  set (hdr := slice msg start (mime_hdr_end msg start e)). destruct (bs_hdr hdr (bs "Content-Type") 1024) as [ct|] eqn:Ec; cbn [default mbind option_bind id].
  - destruct (bs_ct_parse ct 64 64 512) as [[type sub] boundary]. cbn [ip_multipart ip_hdr_end]. rewrite multipart_lower.
    destruct (ieq type (bs "multipart")), (is_nil boundary); cbn [negb orb andb]; try by destruct (k =? 0)%nat.
    rewrite kth_spec by lia. destruct (Nat.eqb_spec k 0) as [->|Hk]; [done|]. rewrite (proj2 (Z.ltb_lt 0 (Z.of_nat k))) by lia. do 2 f_equal. lia.
  - assert (E : bs_ct_parse (bs "text/plain") 64 64 512 = (bs "text", bs "plain", [])) by reflexivity.
    rewrite E. cbn [ip_multipart is_nil]. change (beq (mime_lower 48 (bs "text")) (bs "multipart")) with false. by destruct (k =? 0)%nat.
Qed.

Lemma walk_head levels start e path p : (start <= e)%nat -> (length path + S levels = IMAPD_MAX_PART_DEPTH)%nat ->
  (path, p) ∈ walk_list msg (S levels) start e path <-> p = (describe_part msg start e (length path) path).1.
Proof.
  intros He Hl. rewrite walk_list_eq. split; [|intros ->; left]. intros [H|H]%elem_of_cons; [by injection H|]. exfalso.
  apply numbered_in in H as (i & s & Hs & Hx). destruct (child_spans_spec msg start e path He) as [_ Hc]. apply list_elem_of_lookup_2 in Hs.
  destruct (Hc s Hs) as (_ & Hd & Hb). apply (walk_list_ok msg levels s.1 s.2) in Hx as [Hp _ _]; [|lia|rewrite length_app; cbn; lia].
  by apply prefix_longer in Hp.
Qed.

Lemma resolve_walk levels : forall start e path pi, (start <= e)%nat -> (length path + levels = IMAPD_MAX_PART_DEPTH)%nat -> (length pi < levels)%nat ->
  (forall q p, (q, p) ∈ walk_list msg levels start e path -> no_empty_span (ip_start p) (ip_end p) q) ->
  forall a b h, mime_part_loop msg (map Z.of_nat pi) start e (mime_hdr_end msg start e) = Some (a, b, h) <->
    exists p, (path ++ pi, p) ∈ walk_list msg levels start e path /\ (ip_start p, ip_end p, ip_hdr_end p) = (a, b, h).
Proof.
  induction levels as [|levels IH]; intros start e path pi He Hl Hpi Hne a b h; [lia|]. pose proof (describe_where msg start e (length path) path) as (D1 & D2 & _ & _).
  destruct pi as [|k pi]; cbn [map].
  - rewrite app_nil_r. cbn [mime_part_loop]. split.
    + intros [= <- <- <-]. eexists. split; [by apply walk_head|]. by rewrite D1, D2, describe_hdr.
    + intros (p & Hp & E). apply walk_head in Hp; [|done..]. subst p. by rewrite D1, D2, describe_hdr in E; injection E as -> -> ->.
  - cbn [length] in Hpi. rewrite (resolve_step start e path). assert (Hself : no_empty_span start e path).
    { rewrite <- D1 at 1. rewrite <- D2 at 1. apply Hne. by apply walk_head. }
    rewrite <- (child_all start e path) by (done || lia). destruct (child_spans_spec msg start e path He) as [_ Hc]. split.
    + destruct (Nat.eqb_spec k 0) as [|Hk]; [done|]. destruct (child_spans msg start e path !! pred k) as [[x y]|] eqn:Es; [|done]. cbn [mbind option_bind].
      destruct (Hc _ (list_elem_of_lookup_2 _ _ _ Es)) as (_ & Hd & Hb). cbn [fst snd] in Hb. rewrite (IH x y (path ++ [k])); [|lia|rewrite length_app; cbn; lia|lia|].
      * intros (p & Hp & E). exists p. split; [|done]. rewrite <- app_assoc in Hp. rewrite walk_list_eq. right. apply numbered_in. exists (pred k), (x, y). split; [done|].
        by replace (0 + S (pred k))%nat with k by lia.
      * intros q p Hq. apply Hne. rewrite walk_list_eq. right. apply numbered_in. exists (pred k), (x, y). split; [done|]. by replace (0 + S (pred k))%nat with k by lia.
    + intros (p & Hp & E). destruct (walk_list_below msg levels start e path _ He Hl Hp) as (i & s & Hs & Hx & Hpre).
      { cbn. intros E'. rewrite <- (app_nil_r path) in E' at 2. by apply app_inv_head in E'. }
      cbn [fst] in Hpre. destruct Hpre as [z Hz]. rewrite <- app_assoc in Hz. apply app_inv_head in Hz. injection Hz as -> ->.
      cbn [Nat.eqb pred]. rewrite Hs. cbn [mbind option_bind]. destruct s as [x y]. destruct (Hc _ (list_elem_of_lookup_2 _ _ _ Hs)) as (_ & Hd & Hb). cbn [fst snd] in *.
      rewrite (IH x y (path ++ [S i])); [|lia|rewrite length_app; cbn; lia|lia|].
      * exists p. by rewrite <- app_assoc.
      * intros q p' Hq. apply Hne. rewrite walk_list_eq. right. apply numbered_in. exists i, (x, y). done.
Qed.
End Numbers.

(** C30: The numbers of the walk are those of BODY[section]. In a message none of whose
    multiparts has an empty part, resolving a path of fewer than 16 part numbers (a
    section has at most 8) gives the bytes of the part with that path in the walk, and
    nothing when the walk has no such part. *)
Theorem mime_ids_resolve (msg : bytes) (pi : list nat) : no_empty_part msg -> (length pi < IMAPD_MAX_PART_DEPTH)%nat ->
  forall a b h, imapd_mime_part msg (map Z.of_nat pi) = Some (a, b, h) <->
    exists p, (pi, p) ∈ mime_tree msg /\ (ip_start p, ip_end p, ip_hdr_end p) = (a, b, h).
Proof. intros Hne Hpi. exact (resolve_walk msg IMAPD_MAX_PART_DEPTH 0 (length msg) [] pi (Nat.le_0_l _) eq_refl Hpi Hne). Qed.

(** The executable form of the condition. *)
Definition full_parts (msg : bytes) : bool :=
  forallb (fun x => forallb nonempty_span (all_spans msg (ip_start x.2) (ip_end x.2) x.1)) (mime_tree msg).

Lemma full_parts_ok msg : full_parts msg = true -> no_empty_part msg.
Proof.
  unfold full_parts. intros H path p Hp. rewrite forallb_forall in H. apply list_elem_of_In in Hp. specialize (H _ Hp). cbn [fst snd] in H.
  unfold no_empty_span. rewrite Forall_forall. intros s Hs. rewrite forallb_forall in H. apply H. by apply list_elem_of_In.
Qed.

Lemma mime_ids_resolve_witness : (exists p, ([2%nat], p) ∈ mime_tree (qt mime_two) /\ slice (qt mime_two) (ip_hdr_end p) (ip_end p) = bs "%PDF") /\
  imapd_mime_part (qt mime_two) [3] = None.
Proof.
  assert (F : no_empty_part (qt mime_two)) by (apply full_parts_ok; vm_compute; reflexivity). split.
  - destruct (imapd_mime_part (qt mime_two) [2]) as [[[a b] h]|] eqn:E; [|vm_compute in E; discriminate E].
    destruct (proj1 (mime_ids_resolve (qt mime_two) [2%nat] F ltac:(apply Nat.ltb_lt; reflexivity) a b h) E) as (p & Hp & Ep). exists p. split; [exact Hp|].
    vm_compute in E. injection E as <- <- <-. injection Ep as _ -> ->. vm_compute. reflexivity.
  - vm_compute. reflexivity.
Defined.

(** * What BODYSTRUCTURE promises

    The rendering always ends, whatever the bytes of the message and the nesting of its
    parts, and stays on one line. *)

(** ** Small messages, as in imap_check.c *)

Example bodystructure_single :
  imapd_bodystructure mime_single = Some (qt (bs "'text' 'plain' ('charset' 'utf-8') NIL NIL '7bit' 5 NIL NIL NIL NIL")).
Proof. vm_compute. reflexivity. Qed.

Example walk_two : map (fun p => (ip_id p, ip_filename p, slice (qt mime_two) (ip_hdr_end p) (ip_end p))) (tl (collect_parts (qt mime_two)))
  = [(bs "1", [], bs "body"); (bs "2", bs "d.pdf", bs "%PDF")].
Proof. vm_compute. reflexivity. Qed.

Example part_two : (fun r => slice (qt mime_two) r.2 r.1.2) <$> imapd_mime_part (qt mime_two) [2] = Some (bs "%PDF").
Proof. vm_compute. reflexivity. Qed.

(** ** On one line *)

(** A header value as the parsers get it: no line break and no NUL. *)
Definition flat (s : bytes) : Prop := clean s /\ 0 ∉ s.

Lemma flat_Forall s : flat s <-> Forall (fun c => not_eol c && negb (c =? 0) = true) s.
Proof.
  unfold flat, clean. rewrite !Forall_forall. split.
  - intros [H1 H2] c Hc. rewrite (H1 c Hc). cbn. destruct (Z.eqb_spec c 0) as [->|]; [done|done].
  - intros H. split; [intros c Hc; by apply H, andb_true_iff in Hc as [? _]|]. intros Hz. by apply H in Hz.
Qed.

Lemma flat_sub s t : t ⊆ s -> flat s -> flat t.
Proof. rewrite !flat_Forall, !Forall_forall. intros Hst Hs c Hc. by apply Hs, Hst. Qed.

Lemma flat_app a b : flat a -> flat b -> flat (a ++ b).
Proof. rewrite !flat_Forall. by apply Forall_app_2. Qed.

Lemma flat_cons c s : not_eol c = true -> c <> 0 -> flat s -> flat (c :: s).
Proof. rewrite !flat_Forall. intros H1 H2 H. constructor; [|done]. rewrite H1. by destruct (Z.eqb_spec c 0). Qed.

Lemma flat_const s : forallb (fun c => not_eol c && negb (c =? 0)) s = true -> flat s.
Proof. rewrite flat_Forall. by intros H%forallb_Forall. Qed.

Lemma flat_nil : flat [].
Proof. by apply flat_const. Qed.

Lemma flat_take n s : flat s -> flat (take n s).
Proof. apply flat_sub. intros c. apply elem_of_take_inv || (intros H; rewrite <- (take_drop n s); apply elem_of_app; by left). Qed.

Lemma flat_while p s : flat s -> flat (take_while p s) /\ flat (drop_while p s).
Proof. rewrite !flat_Forall. intros H. apply Forall_app. by rewrite take_drop_while. Qed.

Lemma flat_trim p s : flat s -> flat (trim_end p s).
Proof.
  rewrite !flat_Forall. intros H. unfold trim_end. rewrite Forall_reverse. apply (Forall_app _ (take_while p (reverse s))).
  rewrite take_drop_while. by rewrite Forall_reverse.
Qed.

Lemma flat_cut c s a b : cut c s = Some (a, b) -> flat s -> flat a /\ flat b.
Proof.
  revert a b; induction s as [|x s IH]; intros a b; cbn [cut]; [done|]. rewrite !flat_Forall. destruct (x =? c); [intros [= <- <-] H; inversion H; split; [constructor|done]|].
  destruct (cut c s) as [[a' b']|]; [|done]. intros [= <- <-] H. inversion_clear H as [|? ? Hx Hs]. destruct (IH a' b' eq_refl) as [Ha Hb]; [by apply flat_Forall|].
  apply flat_Forall in Ha, Hb. split; [by constructor|done].
Qed.

Lemma flat_hdr hdr name sz v : bs_hdr hdr name sz = Some v -> flat v.
Proof.
  unfold bs_hdr. destruct (mail_header_get hdr name sz) as [x|] eqn:E; [|done]. intros [= <-]. apply header_get_clean in E. split.
  - apply clean_sub, E.
  - intros Hz. unfold c_str in Hz. pose proof (take_while_all (fun c => negb (c =? 0)) x) as Hf. rewrite Forall_forall in Hf. by apply Hf in Hz.
Qed.

Lemma flat_nstr s : flat s -> flat (bs_nstr s).
Proof.
  intros H. unfold bs_nstr. destruct (is_nil s); [by apply flat_const|]. apply flat_cons; [done|done|]. apply flat_app; [|by apply flat_const].
  apply flat_Forall in H. induction H as [|c s Hc Hs IH]; cbn [map concat]; [apply flat_nil|]. apply flat_app; [|exact IH]. apply andb_true_iff in Hc as [H1 H2].
  apply negb_true_iff, Z.eqb_neq in H2. unfold quote_byte. destruct (_ || _); repeat (apply flat_cons; [done|done|]); apply flat_nil.
Qed.

Lemma flat_param p nm v q : next_param p = Some (nm, v, q) -> flat p -> flat nm /\ flat v /\ flat q.
Proof.
  unfold next_param. destruct (cut ";"%chr p) as [[a r]|] eqn:E; [|done]. cbn [mbind option_bind]. intros H Hp. destruct (flat_cut _ _ _ _ E Hp) as [_ Hr].
  destruct (flat_while is_wsp r Hr) as [_ Hq]. destruct (is_nil _); [done|]. destruct (cut "="%chr _) as [[nm' v']|] eqn:E2; [|done]. destruct (flat_cut _ _ _ _ E2 Hq) as [Hn Hv].
  injection H as <- <- <-. split; [by apply flat_trim|]. split; [done|]. by apply flat_cons.
Qed.

Lemma flat_value v : flat v -> flat (param_value v).
Proof.
  intros H. unfold param_value. destruct (flat_while is_wsp v H) as [_ Hd]. destruct (drop_while is_wsp v) as [|c t]; [apply flat_nil|].
  destruct (c =? DQUOTE); apply flat_while; [|done]. apply (flat_sub (c :: t)); [set_solver|done].
Qed.

Lemma flat_params fuel skip_b : forall p started, flat p -> flat (params_loop fuel p skip_b started).1.
Proof.
  induction fuel as [|fuel IH]; intros p started Hp; cbn [params_loop]; [apply flat_nil|]. destruct (next_param p) as [[[nm v] q]|] eqn:E; [|apply flat_nil].
  destruct (flat_param _ _ _ _ E Hp) as (Hn & Hv & Hq). destruct (is_nil nm); [apply flat_nil|]. cbv zeta. destruct (_ && _); [by apply IH|].
  specialize (IH q true Hq). destruct (params_loop fuel q skip_b true) as [out b]. cbn [fst] in *. apply flat_app; [destruct started; by apply flat_const|].
  apply flat_app; [by apply flat_nstr, flat_take|]. apply flat_cons; [done|done|]. apply flat_app; [|done]. by apply flat_nstr, flat_take, flat_value.
Qed.

Lemma flat_ct_params v skip_b : flat v -> flat (bs_ct_params v skip_b).
Proof.
  intros H. unfold bs_ct_params. pose proof (flat_params (S (length (ct_copy v))) skip_b (ct_copy v) false (flat_take _ _ H)) as Hp.
  destruct (params_loop _ _ _ _) as [out started]. cbn [fst] in Hp. destruct started; [|by apply flat_const]. apply flat_app; [done|by apply flat_const].
Qed.

Lemma flat_ct v tsz ssz bsz : flat v -> flat (bs_ct_parse v tsz ssz bsz).1.1 /\ flat (bs_ct_parse v tsz ssz bsz).1.2.
Proof.
  intros H. unfold bs_ct_parse. cbn [fst snd]. assert (Hp : flat (ct_copy v)) by by apply flat_take. split.
  - apply flat_take. destruct (has _ _); by apply flat_while.
  - destruct (cut "/"%chr (ct_copy v)) as [[a s]|] eqn:E; [|apply flat_nil]. apply flat_take. destruct (flat_cut _ _ _ _ E Hp) as [_ Hs]. destruct (has _ a); [done|by apply flat_while].
Qed.

Lemma flat_disposition hdr : flat (bs_disposition hdr).
Proof.
  unfold bs_disposition. destruct (bs_hdr _ _ _) as [v|] eqn:E; [|by apply flat_const]. apply flat_hdr in E. cbv zeta.
  assert (Hc : flat (match cut ";"%chr v with Some (a, _) => a | None => v end)).
  { destruct (cut ";"%chr v) as [[a b]|] eqn:Ec; [by apply (flat_cut _ _ _ _ Ec)|done]. }
  repeat (apply flat_app; [by apply flat_const|]). apply flat_app; [by apply flat_take, flat_trim|]. apply flat_cons; [done|done|]. apply flat_app; [by apply flat_const|].
  apply flat_app; [|by apply flat_const]. destruct (cut ";"%chr v) as [[a b]|] eqn:Ec; [|by apply flat_const]. apply flat_ct_params, flat_take, flat_cons; [done|done|].
  by apply (flat_cut _ _ _ _ Ec).
Qed.

Lemma flat_encoding hdr : flat (bs_encoding hdr).
Proof.
  unfold bs_encoding. apply flat_nstr, flat_while. destruct (bs_hdr _ _ _) as [v|] eqn:E; [by apply flat_hdr in E|by apply flat_const].
Qed.

Lemma flat_dec fuel v : flat (dec_digits fuel v []).
Proof.
  apply flat_Forall. eapply Forall_impl; [apply (dec_digits_digits fuel v []); constructor|]. intros c Hc. unfold is_digit in Hc.
  apply andb_true_iff in Hc as [H1 H2]. apply Z.leb_le in H1, H2. change ("0"%chr) with 48 in H1. unfold not_eol, is_eol.
  destruct (Z.eqb_spec c 13), (Z.eqb_spec c 10), (Z.eqb_spec c 0); lia || done.
Qed.

(** ** It always ends *)

(** A rendering that exists and stays on one line. *)
Definition rendered (r : option bytes) : Prop := exists out, r = Some out /\ flat out.

Lemma multipart_rendered msg part delim be fuel : (2 <= length delim)%nat ->
  forall pos npart, (forall p e, (pos + 2 <= p)%nat -> (p <= e <= be)%nat -> rendered (part p e)) -> (be - pos < fuel)%nat ->
  rendered (multipart_loop part fuel msg delim be pos npart).
Proof.
  intros Hd. induction fuel as [|fuel IH]; intros pos npart Hp Hf; [lia|]. cbn [multipart_loop].
  destruct (next_part msg delim be pos) as [[p e]|] eqn:En; [|exists []; split; [done|apply flat_nil]]. apply next_part_spec in En; [|done].
  assert (Hrec : forall n, rendered (multipart_loop part fuel msg delim be e n)).
  { intros n. apply IH; [|lia]. intros p' e' H1 H2. apply Hp; lia. }
  destruct (p <? e)%nat; [|apply Hrec]. destruct (Hp p e) as (out & -> & Ho); [lia..|]. destruct (Hrec (S npart)) as (rest & -> & Hr). cbn [mbind option_bind].
  eexists. split; [done|]. apply flat_app; [destruct (npart =? 0)%nat; by apply flat_const|]. by apply flat_app.
Qed.

Lemma part_rendered msg fuel : forall start e, (start <= e)%nat -> (e - start < fuel)%nat -> rendered (bs_part fuel msg start e).
Proof.
  induction fuel as [|fuel IH]; intros start e He Hf; [lia|]. cbn [bs_part]. cbv zeta.
  set (hdr := slice msg start (bs_hdr_end msg start e)). set (ct := default (bs "text/plain") _).
  assert (Hct : flat ct). { unfold ct. destruct (bs_hdr hdr _ _) as [v|] eqn:E; [by apply flat_hdr in E|by apply flat_const]. }
  pose proof (flat_ct ct 64 64 512 Hct) as [H1 H2]. destruct (bs_ct_parse ct 64 64 512) as [[type sub] boundary]. cbn [fst snd] in H1, H2.
  pose proof (bs_hdr_end_spec msg start e He) as Hh. destruct (ieq type (bs "multipart")).
  - unfold bs_multipart. destruct (multipart_rendered msg (bs_part fuel msg) (delim_of boundary) e (S (e - bs_hdr_end msg start e)) (delim_length boundary) (bs_hdr_end msg start e) 0)
      as (parts & -> & Hp); [intros p e' H3 H4; apply IH; lia|lia|]. cbn [mbind option_bind]. eexists. split; [done|].
    apply flat_app; [by apply flat_const|]. apply flat_app; [done|]. apply flat_app; [by apply flat_const|]. apply flat_cons; [done|done|]. apply flat_app; [done|].
    apply flat_cons; [done|done|]. apply flat_app; [by apply flat_const|]. apply flat_app; [by apply flat_ct_params|by apply flat_const].
  - eexists. split; [done|]. apply flat_cons; [done|done|]. apply flat_app; [done|]. apply flat_app; [by apply flat_const|]. apply flat_app; [done|].
    apply flat_cons; [done|done|]. apply flat_app; [by apply flat_const|]. apply flat_app; [by apply flat_ct_params|]. apply flat_app; [by apply flat_const|].
    apply flat_app; [apply flat_encoding|]. apply flat_app; [by apply flat_const|]. apply flat_app; [apply flat_dec|]. apply flat_app; [by apply flat_const|].
    apply flat_app; [apply flat_disposition|by apply flat_const].
Qed.

(** BODYSTRUCTURE ends, on one line. For any bytes the rendering is produced, so the
    recursion over the parts and the loops over the delimiters all end, and it holds no
    CR, LF or NUL: no header of a message can start a line of the server's response. *)
Theorem bodystructure_one_line (msg : bytes) : exists out, imapd_bodystructure msg = Some out /\ Forall (fun c => c <> CR /\ c <> LF /\ c <> 0) out.
Proof.
  destruct (part_rendered msg (S (length msg)) 0 (length msg)) as (out & E & H); [lia..|]. exists out. split; [exact E|].
  apply flat_Forall in H. eapply Forall_impl; [exact H|]. intros c Hc. apply andb_true_iff in Hc as [H1 H2]. unfold not_eol, is_eol in H1.
  destruct (Z.eqb_spec c CR), (Z.eqb_spec c LF), (Z.eqb_spec c 0); done.
Qed.

(** ** Departures *)

(** The first of two parts is empty: the walk numbers the second 1, BODY[1] is the empty
    part and BODY[2] the bytes of the walk's 1. *)
Definition mime_empty : bytes :=
  bs "Content-Type: multipart/mixed; boundary=Z" ++ CRLF ++ CRLF ++ bs "--Z" ++ CRLF ++ bs "--Z" ++ CRLF ++ CRLF ++ bs "two" ++ CRLF ++ bs "--Z--" ++ CRLF.

Lemma empty_part_renumbered :
  map (fun p => (ip_id p, slice mime_empty (ip_start p) (ip_end p))) (tl (collect_parts mime_empty)) = [(bs "1", CRLF ++ bs "two")] /\
  (fun r => slice mime_empty r.1.1 r.1.2) <$> imapd_mime_part mime_empty [1] = Some [] /\
  (fun r => slice mime_empty r.1.1 r.1.2) <$> imapd_mime_part mime_empty [2] = Some (CRLF ++ bs "two").
Proof. repeat split; vm_compute; reflexivity. Qed.

(** A message that is no multipart has no part 1. *)
Lemma single_has_no_part_1 : imapd_mime_part mime_single [1] = None.
Proof. vm_compute. reflexivity. Qed.

(** A part goes out without parentheses: two parts of a multipart run into each other. *)
Lemma bodystructure_unparenthesised : imapd_bodystructure (qt mime_two)
  = Some (qt (bs "('text' 'plain' NIL NIL NIL '7BIT' 4 NIL NIL NIL NIL 'application' 'pdf' ('name' 'd.pdf') NIL NIL '7BIT' 4 NIL NIL NIL NIL 'mixed' NIL NIL NIL NIL)")).
Proof. vm_compute. reflexivity. Qed.

(** Type, subtype and disposition go out between quotes as they are. *)
Lemma type_not_escaped : imapd_bodystructure (qt (bs "Content-Type: te'xt/pl'ain") ++ CRLF ++ bs "Content-Disposition: a\" ++ CRLF ++ CRLF)
  = Some (qt (bs "'te'xt' 'pl'ain' NIL NIL NIL '7BIT' 0 NIL ('a\' NIL) NIL NIL")).
Proof. vm_compute. reflexivity. Qed.

(** A delimiter counts in the middle of a line and in front of more text: the text of
    this only part is split in two. *)
Definition mime_inline : bytes :=
  bs "Content-Type: multipart/mixed; boundary=Z" ++ CRLF ++ CRLF ++ bs "--Z" ++ CRLF ++ CRLF ++ bs "see --Zurich" ++ CRLF ++ bs "--Z--" ++ CRLF.

Lemma delimiter_inside_a_line : map (fun p => (ip_id p, slice mime_inline (ip_start p) (ip_end p))) (tl (collect_parts mime_inline))
  = [(bs "1", CRLF ++ bs "see "); (bs "2", bs "urich")].
Proof. vm_compute. reflexivity. Qed.

(** A semicolon inside a quoted value starts a parameter. *)
Lemma semicolon_inside_quotes : bs_ct_params (qt (bs "text/plain; name='a; charset=x.txt'")) false
  = qt (bs "('name' 'a; charset=x.txt' 'charset' 'x.txt\'')").
Proof. vm_compute. reflexivity. Qed.

(** With a slash behind the first semicolon the type runs up to the slash, and a
    boundary with a slash can hide the multipart. *)
Lemma slash_behind_semicolon : bs_ct_parse (bs "multipart; boundary=a/b") 64 64 512 = (bs "multipart; boundary=a", bs "b", bs "a/b").
Proof. vm_compute. reflexivity. Qed.

(** [n] multiparts inside each other, each in one part of the one above. *)
Fixpoint nested (n : nat) (b : Z) : bytes :=
  match n with
  | O => CRLF ++ bs "x"
  | S n' => bs "Content-Type: multipart/a; boundary=" ++ [b] ++ [LF; LF] ++ bs "--" ++ [b; LF] ++ nested n' (b + 1)
  end.

(** The rendering recurses once for every multipart, where the walk stops at 16 levels. *)
Lemma bodystructure_recursion_unbounded :
  bs_part 18 (nested 18 65) 0 (length (nested 18 65)) = None /\ bs_part 19 (nested 18 65) 0 (length (nested 18 65)) <> None /\
  length (mime_tree (nested 18 65)) = IMAPD_MAX_PART_DEPTH.
Proof. vm_compute. done. Qed.
