(* ===== verification/MailRemove.v ===== *)
(** * Removing a folder (rmrf and imapd_mbox_delete in src/src/imap_maildir.c)

    A directory is the list of its entries in the order of readdir, without [.] and
    [..], which start with a dot as every entry the code skips. What the calls answer
    for a path are parameters; a call that fails leaves its entry as it was, and rmdir
    fails on a directory with entries. *)

From S2P Require Import Prelude.

Inductive Node :=
| Reg
| Other
| SubDir (d : Dir)
with Dir :=
| DNil
| DCons (name : bytes) (n : Node) (d : Dir).

Section Remove.
Context (opendir_ok lstat_ok unlink_ok rmdir_ok : bytes -> bool).

(** [rmdir]: the directory that is left and whether the call succeeded. *)
Definition fs_rmdir (path : bytes) (d : Dir) : option Dir * bool :=
  match d with
  | DNil => if rmdir_ok path then (None, true) else (Some DNil, false)
  | _ => (Some d, false)
  end.

Definition sub_path (path name : bytes) : bytes := path ++ bs "/" ++ name.

Definition starts_dot (name : bytes) : bool := match name with c :: _ => c =? "."%chr | [] => false end.

(** The directory with the entry that is left of one, if any. *)
Definition keep (name : bytes) (n : option Node) (d : Dir) : Dir := match n with Some n => DCons name n d | None => d end.

(** The loop over the entries: what is left of them and whether all went well. *)
Fixpoint rmrf_entries (path : bytes) (d : Dir) : Dir * bool :=
  match d with
  | DNil => (DNil, true)
  | DCons name n rest =>
      let sub := sub_path path name in
      let '(n', ok) :=
        if starts_dot name then (Some n, true)
        else if 4096 <=? len sub then (Some n, false)
        else if negb (lstat_ok sub) then (Some n, false)
        else match n with
             | SubDir d' =>
                 if negb (opendir_ok sub) then (Some n, false)
                 else let '(rem, ok) := rmrf_entries sub d' in
                      let '(rem, gone) := fs_rmdir sub rem in
                      (SubDir <$> rem, ok && gone)
             | Reg => if unlink_ok sub then (None, true) else (Some n, false)
             | Other => (Some n, false)
             end in
      let '(rest', ok') := rmrf_entries path rest in
      (keep name n' rest', ok && ok')
  end.

Definition rmrf (path : bytes) (d : Dir) : option Dir * bool :=
  if negb (opendir_ok path) then (Some d, false)
  else let '(rem, ok) := rmrf_entries path d in
       let '(rem, gone) := fs_rmdir path rem in
       (rem, ok && gone).

Definition imapd_mbox_delete (dir : bytes) (d : Dir) : option Dir * bool := rmrf dir d.

(** ** What a caller may rely on *)

(** Only regular files and directories, no name with a dot in front, every path short
    enough, and every call succeeds. *)
Fixpoint removable (path : bytes) (d : Dir) : bool :=
  match d with
  | DNil => true
  | DCons name n rest =>
      let sub := sub_path path name in
      negb (starts_dot name) && (len sub <? 4096) && lstat_ok sub &&
      match n with SubDir d' => opendir_ok sub && removable sub d' && rmdir_ok sub | Reg => unlink_ok sub | Other => false end &&
      removable path rest
  end.

Lemma rmdir_spec path d : fs_rmdir path d = (None, true) \/ ((fs_rmdir path d).2 = false /\ (fs_rmdir path d).1 = Some d).
Proof. destruct d; cbn; [destruct (rmdir_ok path); auto|auto]. Qed.
End Remove.

Scheme dir_mut := Induction for Dir Sort Prop
  with node_mut := Induction for Node Sort Prop.

Section Removed.
Context (opendir_ok lstat_ok unlink_ok rmdir_ok : bytes -> bool).
Let entries := rmrf_entries opendir_ok lstat_ok unlink_ok rmdir_ok.

(** The entries are all gone exactly when the directory is removable, and then the loop
    reports no error; it reports none either for what only hides behind a dot. *)
Lemma entries_gone d : forall path, entries path d = (DNil, true) <-> removable opendir_ok lstat_ok unlink_ok rmdir_ok path d = true.
Proof.
  apply (dir_mut (fun d => forall path, entries path d = (DNil, true) <-> removable opendir_ok lstat_ok unlink_ok rmdir_ok path d = true)
    (fun n => match n with SubDir d => forall path, entries path d = (DNil, true) <-> removable opendir_ok lstat_ok unlink_ok rmdir_ok path d = true | _ => True end));
    [done| |done|done|done].
  intros name n Hn rest IH path. unfold entries in *. cbn [rmrf_entries removable]. rewrite !andb_true_iff, <- (IH path).
  destruct (rmrf_entries _ _ _ _ path rest) as [rest' ok']. set (sub := sub_path path name).
  destruct (starts_dot name); cbn [negb]; [split; [by intros [=]|by intros [[[[? _] _] _] _]]|].
  rewrite Z.ltb_antisym. destruct (4096 <=? len sub); cbn [negb]; [split; [by intros [=]|by intros [[[[_ ?] _] _] _]]|].
  destruct (lstat_ok sub); cbn [negb]; [|split; [by intros [=]|by intros [[[_ ?] _] _]]].
  destruct n as [| |d'].
  - destruct (unlink_ok sub); cbn [keep andb]; [split; [by intros [= -> ->]|by intros [_ [= -> ->]]]|split; [by intros [=]|by intros [[_ ?] _]]].
  - cbn [keep andb]. split; [by intros [=]|by intros [[_ ?] _]].
  - destruct (opendir_ok sub); cbn [negb andb]; [|split; [by intros [=]|by intros [[_ ?] _]]].
    rewrite andb_true_iff, <- (Hn sub). destruct (rmrf_entries _ _ _ _ sub d') as [rem ok]. destruct rem as [|m k l]; cbn [fs_rmdir].
    + destruct (rmdir_ok sub); cbn [option_map fmap option_fmap keep]; [|split; [by intros [=]|by intros [[_ [_ ?]] _]]].
      rewrite andb_true_r. destruct ok; cbn [andb]; [|split; [by intros [=]|by intros [[_ [[=] _]] _]]]. split; [by intros [= -> ->]|by intros [_ [= -> ->]]].
    + cbn. split; [by intros [=]|by intros [[_ [[=] _]] _]].
Qed.

(** [imapd_mbox_delete] reports success exactly when the folder is gone. *)
Lemma delete_reports dir d : (imapd_mbox_delete opendir_ok lstat_ok unlink_ok rmdir_ok dir d).2 = true ->
  (imapd_mbox_delete opendir_ok lstat_ok unlink_ok rmdir_ok dir d).1 = None.
Proof.
  unfold imapd_mbox_delete, rmrf. destruct (opendir_ok dir); cbn [negb]; [|done]. destruct (rmrf_entries _ _ _ _ dir d) as [rem ok].
  destruct (rmdir_spec rmdir_ok dir rem) as [->|[H1 H2]]; [done|]. destruct (fs_rmdir rmdir_ok dir rem) as [l g]. cbn [fst snd] in *. subst g. by rewrite andb_false_r.
Qed.

Lemma delete_removable dir d : opendir_ok dir = true -> rmdir_ok dir = true -> removable opendir_ok lstat_ok unlink_ok rmdir_ok dir d = true ->
  imapd_mbox_delete opendir_ok lstat_ok unlink_ok rmdir_ok dir d = (None, true).
Proof. unfold imapd_mbox_delete, rmrf. intros Ho Hr Hd%entries_gone. unfold entries in Hd. rewrite Ho, Hd. cbn. by rewrite Hr. Qed.
End Removed.

(** A file with a dot in front keeps the folder, and the removal fails, but only after
    every message is gone. *)
Lemma dot_file_loses_messages : let yes := fun _ : bytes => true in
  imapd_mbox_delete yes yes yes yes (bs "/m/u/.Work") (DCons (bs "cur") (SubDir (DCons (bs "1.imapd:2,S") Reg DNil)) (DCons (bs ".keep") Reg DNil))
  = (Some (DCons (bs ".keep") Reg DNil), false).
Proof. vm_compute. reflexivity. Qed.
