(* ===== verification/ImapSearch.v ===== *)
(** * The SEARCH language (src/src/imapd_imap.c)

    The tokenizer, the parser of search keys, the questions the scan asks of a program and
    the match of one message. A string is its bytes without the NUL behind it; a null
    [SearchKey] is [SkNull]. Allocation succeeds. *)

From S2P Require Import Prelude SmtpParse MailHeader Json MailStore MailUid MailHdrs MailBox.

(** ** Substrings *)

Definition byte_nth (s : bytes) (i : nat) : Z := nth i s 0.

(** The loop that both halves of [ci_strstr] share: from a match of [q] bytes of the needle
    to the one after [c]. It goes through the failure function while the next byte of the
    needle differs. *)
Fixpoint kmp_step (fuel : nat) (needle : bytes) (fail : list nat) (c : Z) (q : nat) : nat :=
  if tolower c =? tolower (byte_nth needle q) then S q
  else match fuel, q with
       | S fuel', S q' => kmp_step fuel' needle fail c (nth q' fail 0%nat)
       | _, _ => q
       end.

(** The failure function from its first [length fail] values. *)
Fixpoint fail_loop (n : nat) (needle : bytes) (fail : list nat) : list nat :=
  match n with
  | O => fail
  | S n' =>
      let i := length fail in
      fail_loop n' needle (fail ++ [kmp_step i needle fail (byte_nth needle i) (nth (i - 1) fail 0%nat)])
  end.

Definition fail_table (needle : bytes) : list nat := fail_loop (length needle - 1) needle [0%nat].

(** The search: [i] bytes of the text are read, [q] bytes of the needle match at their end. *)
Fixpoint ci_loop (needle : bytes) (fail : list nat) (hay : bytes) (i q : nat) : option nat :=
  match hay with
  | [] => None
  | c :: hay' =>
      let q := kmp_step q needle fail c q in
      if (q =? length needle)%nat then Some (i + 1 - length needle)%nat
      else ci_loop needle fail hay' (S i) q
  end.

(** [ci_strstr]: where the needle starts, [None] for a null pointer. *)
Definition ci_strstr (hay needle : bytes) : option nat :=
  if is_nil needle then Some 0%nat
  else if (length hay <? length needle)%nat then None
  else ci_loop needle (fail_table needle) hay 0 0.

Definition ci_has (hay needle : bytes) : bool := match ci_strstr hay needle with Some _ => true | None => false end.

(** ** The tokenizer *)

(** [imapd_lit_marker]: the length of a literal the line ends with, 0 for none, -1 for a
    marker that is not valid, -2 for a literal that needs no continuation. *)
Definition imapd_lit_marker (line : bytes) : Z :=
  match reverse line with
  | [] => 0
  | c :: r =>
      if negb (c =? "}"%chr) then 0
      else if match r with d :: _ => d =? "+"%chr | [] => false end then -2
      else
        let ds := take_while is_digit r in
        match drop_while is_digit r with
        | d :: _ =>
            if negb (d =? "{"%chr) then -1
            else if is_nil ds then -1
            else let v := dec_value 0 (reverse ds) in
                 if (v >? 2 ^ 31 - 1) || (v =? 0) then -1 else v
        | [] => -1
        end
  end.

Definition skip_blank (s : bytes) : bytes := drop_while (fun c => c =? SP) s.

(** The loop over a quoted string. *)
Fixpoint quoted_loop (s : bytes) : option (bytes * bytes) :=
  match s with
  | [] => None
  | c :: t =>
      if c =? "\"%chr then
        match t with
        | [] => None
        | d :: t' => '(out, r) ← quoted_loop t'; Some (d :: out, r)
        end
      else if c =? DQUOTE then Some ([], t)
      else '(out, r) ← quoted_loop t; Some (c :: out, r)
  end.

(** A byte of an atom; a [char] is signed, so bytes from 128 on are below 127. *)
Definition atom_char (c : Z) : bool :=
  (32 <? c) && ((c <? 127) || (128 <=? c)) && negb ((c =? "("%chr) || (c =? ")"%chr) || (c =? DQUOTE) || (c =? "{"%chr)).

(** [imapd_next_astring]: [Some (Some v, rest)] for 1, [Some (None, rest)] for 0. *)
Definition imapd_next_astring (p : bytes) : option (option bytes * bytes) :=
  let s := skip_blank p in
  match s with
  | [] => Some (None, [])
  | c :: t =>
      if c =? DQUOTE then '(out, r) ← quoted_loop t; Some (Some out, r)
      else let a := take_while atom_char s in
           if is_nil a then None else Some (Some a, drop_while atom_char s)
  end.

(** One that must be there. *)
Definition need_astring (p : bytes) : option (bytes * bytes) :=
  '(v, r) ← imapd_next_astring p; match v with Some v => Some (v, r) | None => None end.

(** The loop of [imapd_parse_plain_list] behind the parenthesis. *)
Fixpoint plain_loop (fuel : nat) (s : bytes) : option (list bytes * bytes) :=
  match fuel with
  | O => None
  | S fuel' =>
      match skip_blank s with
      | [] => None
      | c :: t =>
          if c =? ")"%chr then Some ([], t)
          else
            let part := fun x => negb ((x =? SP) || (x =? ")"%chr)) in
            '(l, r) ← plain_loop fuel' (drop_while part (c :: t)); Some (take_while part (c :: t) :: l, r)
      end
  end.

Definition imapd_parse_plain_list (p : bytes) : option (list bytes * bytes) :=
  match skip_blank p with
  | c :: t => if c =? "("%chr then plain_loop (S (length t)) t else None
  | [] => None
  end.

(** ** Search keys *)

Inductive SearchKind :=
| SK_ALL | SK_ANSWERED | SK_DELETED | SK_DRAFT | SK_FLAGGED | SK_NEW | SK_OLD
| SK_RECENT | SK_SEEN | SK_UNSEEN | SK_SEQ | SK_UID | SK_FROM | SK_TO | SK_SUBJECT
| SK_CC | SK_BCC | SK_HEADER | SK_BODY | SK_TEXT | SK_NOT | SK_OR | SK_AND
| SK_LARGER | SK_SMALLER | SK_KEYWORD | SK_UNKEYWORD | SK_MODSEQ
| SK_SINCE | SK_BEFORE | SK_ON | SK_SENTSINCE | SK_SENTBEFORE | SK_SENTON.

Inductive SearchKey :=
| SkNull
| Sk (kind : SearchKind) (set hdr str : bytes) (num date : Z) (a b : SearchKey).

Definition sk_new (kind : SearchKind) : SearchKey := Sk kind [] [] [] 0 0 SkNull SkNull.
Definition sk_set (kind : SearchKind) (set : bytes) : SearchKey := Sk kind set [] [] 0 0 SkNull SkNull.
Definition sk_str (kind : SearchKind) (hdr str : bytes) : SearchKey := Sk kind [] hdr str 0 0 SkNull SkNull.
Definition sk_num (kind : SearchKind) (num : Z) : SearchKey := Sk kind [] [] [] num 0 SkNull SkNull.
Definition sk_date (kind : SearchKind) (date : Z) : SearchKey := Sk kind [] [] [] 0 date SkNull SkNull.
Definition sk_sub (kind : SearchKind) (a b : SearchKey) : SearchKey := Sk kind [] [] [] 0 0 a b.

Definition IMAPD_MAX_SEARCH_DEPTH : nat := 64.

(** The names of the keys, in the order of the tests. *)
Definition search_names : list (bytes * SearchKind) :=
  [(bs "ALL", SK_ALL); (bs "ANSWERED", SK_ANSWERED); (bs "DELETED", SK_DELETED); (bs "DRAFT", SK_DRAFT);
   (bs "FLAGGED", SK_FLAGGED); (bs "NEW", SK_NEW); (bs "OLD", SK_OLD); (bs "RECENT", SK_RECENT); (bs "SEEN", SK_SEEN);
   (bs "UNSEEN", SK_UNSEEN); (bs "UID", SK_UID); (bs "SEQSET", SK_SEQ); (bs "FROM", SK_FROM); (bs "TO", SK_TO);
   (bs "CC", SK_CC); (bs "BCC", SK_BCC); (bs "SUBJECT", SK_SUBJECT); (bs "BODY", SK_BODY); (bs "TEXT", SK_TEXT);
   (bs "HEADER", SK_HEADER); (bs "LARGER", SK_LARGER); (bs "SMALLER", SK_SMALLER); (bs "KEYWORD", SK_KEYWORD);
   (bs "UNKEYWORD", SK_UNKEYWORD); (bs "MODSEQ", SK_MODSEQ); (bs "SINCE", SK_SINCE); (bs "BEFORE", SK_BEFORE);
   (bs "ON", SK_ON); (bs "SENTSINCE", SK_SENTSINCE); (bs "SENTBEFORE", SK_SENTBEFORE); (bs "SENTON", SK_SENTON);
   (bs "NOT", SK_NOT); (bs "OR", SK_OR)].

Fixpoint kind_of (names : list (bytes * SearchKind)) (tok : bytes) : option SearchKind :=
  match names with
  | [] => None
  | (n, k) :: t => if ieq tok n then Some k else kind_of t tok
  end.

(** [strtoull] of a whole non-empty string without an error. *)
Definition whole_ull (s : bytes) : option Z :=
  let s := drop_while is_space s in
  let '(neg, s) := match s with
                   | c :: t => if c =? "-"%chr then (true, t) else if c =? "+"%chr then (false, t) else (false, s)
                   | [] => (false, s)
                   end in
  let ds := take_while is_digit s in
  let v := dec_value 0 ds in
  if is_nil ds || negb (is_nil (drop_while is_digit s)) || (v >? UINT64_MAX) then None
  else Some (if neg : bool then u64 (- v) else v).

(** [sscanf] with ["%2d"] and ["%4d"]: at most [w] bytes, a sign among them. *)
Definition scan_dw (w : nat) (s : bytes) : option (Z * bytes) :=
  let s := drop_while is_space s in
  let '(neg, w, s) := match s with
                      | c :: t => if c =? "-"%chr then (true, (w - 1)%nat, t) else if c =? "+"%chr then (false, (w - 1)%nat, t) else (false, w, s)
                      | [] => (false, w, s)
                      end in
  let ds := take w (take_while is_digit s) in
  if is_nil ds then None else Some (if neg : bool then - dec_value 0 ds else dec_value 0 ds, drop (length ds) s).

Definition scan_dash (s : bytes) : option bytes := match s with c :: t => if c =? "-"%chr then Some t else None | [] => None end.

(** [sscanf(ds, "%2d-%3s-%4d", ...) == 3]. *)
Definition scan_date (s : bytes) : option (Z * bytes * Z) :=
  '(dd, s) ← scan_dw 2 s;
  s ← scan_dash s;
  let s := drop_while is_space s in
  let mon := take 3 (take_while (fun c => negb (is_space c)) s) in
  if is_nil mon then None
  else s ← scan_dash (drop (length mon) s);
       '(yy, _) ← scan_dw 4 s;
       Some (dd, mon, yy).

Definition MONS : list bytes :=
  [bs "Jan"; bs "Feb"; bs "Mar"; bs "Apr"; bs "May"; bs "Jun"; bs "Jul"; bs "Aug"; bs "Sep"; bs "Oct"; bs "Nov"; bs "Dec"].
Definition MDAYS : list Z := [31; 28; 31; 30; 31; 30; 31; 31; 30; 31; 30; 31].

Fixpoint month_index (mons : list bytes) (mon : bytes) (i : nat) : option nat :=
  match mons with [] => None | m :: t => if ieq mon m then Some i else month_index t mon (S i) end.

Definition leap_year (yy : Z) : bool := (yy mod 4 =? 0) && negb (yy mod 100 =? 0) || (yy mod 400 =? 0).

(** The days from the epoch the code counts up to January 1 of [yy], from 1970 on. *)
Definition epoch_days (yy : Z) : Z :=
  let y := yy - 1900 in
  365 * (y - 70) + (y - 69 + (if yy mod 4 =? 0 then 1 else 0)) / 4
  - (if yy mod 100 =? 0 then (yy - 70 + 99) / 100 else 0) + (if yy mod 400 =? 0 then (yy - 70 + 399) / 400 else 0).

Definition month_days (yy : Z) (mi : nat) : Z := foldr Z.add 0 (take mi MDAYS) + (if leap_year yy && (1 <? mi)%nat then 1 else 0).

(** The date of a key. *)
Definition search_date (ds : bytes) : option Z :=
  '(dd, mon, yy) ← scan_date ds;
  mi ← month_index MONS mon 0;
  if (dd <? 1) || (dd >? 31) || (yy <? 1970) then None
  else Some ((epoch_days yy + month_days yy mi + (dd - 1)) * 86400).

(** The keys of a group as a chain: the last one has no second operand. *)
Fixpoint group_chain (keys : list SearchKey) : SearchKey :=
  match keys with [] => SkNull | k :: t => sk_sub SK_AND k (group_chain t) end.

(** The loop over the keys of a group; [parse] is the recursive call. *)
Fixpoint group_loop (parse : bytes -> option (option SearchKey * bytes)) (fuel : nat) (s : bytes) : option (list SearchKey * bytes) :=
  match fuel with
  | O => None
  | S fuel' =>
      match skip_blank s with
      | [] => None
      | c :: t =>
          if c =? ")"%chr then Some ([], t)
          else '(sub, s) ← parse (c :: t);
               match sub with
               | None => None
               | Some sub => '(l, r) ← group_loop parse fuel' s; Some (sub :: l, r)
               end
      end
  end.

Definition key_char (c : Z) : bool := negb ((c =? SP) || (c =? "("%chr) || (c =? ")"%chr)).

(** A sub-key that must be there. *)
Definition need_key (parse : bytes -> option (option SearchKey * bytes)) (p : bytes) : option (SearchKey * bytes) :=
  '(k, r) ← parse p; match k with Some k => Some (k, r) | None => None end.

(** The arguments of a key; [parse] is [imapd_search_parse]. *)
Definition search_args (parse : bytes -> option (option SearchKey * bytes)) (kind : SearchKind) (p : bytes) : option (SearchKey * bytes) :=
  match kind with
  | SK_UID | SK_SEQ =>
      '(set, r) ← need_astring p; if imapd_seqset_valid set then Some (sk_set kind set, r) else None
  | SK_FROM | SK_TO | SK_CC | SK_BCC | SK_SUBJECT | SK_BODY | SK_TEXT | SK_KEYWORD | SK_UNKEYWORD =>
      '(str, r) ← need_astring p; Some (sk_str kind [] str, r)
  | SK_LARGER | SK_SMALLER | SK_MODSEQ =>
      '(ns, r) ← need_astring p; n ← whole_ull ns; Some (sk_num kind n, r)
  | SK_HEADER =>
      '(hdr, r) ← need_astring p; '(str, r) ← need_astring r; Some (sk_str kind hdr str, r)
  | SK_SINCE | SK_BEFORE | SK_ON | SK_SENTSINCE | SK_SENTBEFORE | SK_SENTON =>
      '(ds, r) ← need_astring p; d ← search_date ds; Some (sk_date kind d, r)
  | SK_NOT => '(a, r) ← need_key parse p; Some (sk_sub SK_NOT a SkNull, r)
  | SK_OR => '(a, r) ← need_key parse p; '(b, r) ← need_key parse r; Some (sk_sub SK_OR a b, r)
  | _ => Some (sk_new kind, p)
  end.

(** [imapd_search_parse_depth]: [Some (Some k, rest)] for 1, [Some (None, rest)] for 0. The
    operands of NOT and OR go through [imapd_search_parse], which starts at depth 0. *)
Fixpoint search_parse_depth (fuel : nat) (p : bytes) (depth : nat) : option (option SearchKey * bytes) :=
  match fuel with
  | O => None
  | S fuel' =>
      if (IMAPD_MAX_SEARCH_DEPTH <? depth)%nat then None
      else
        match skip_blank p with
        | [] => Some (None, [])
        | c :: t =>
            if c =? "("%chr then
              match group_loop (fun s => search_parse_depth fuel' s (S depth)) (S (length t)) t with
              | Some (k :: keys, r) => Some (Some (group_chain (k :: keys)), r)
              | _ => None
              end
            else
              let tok := take_while key_char (c :: t) in
              let r := drop_while key_char (c :: t) in
              if is_digit c || (c =? "*"%chr) then
                if imapd_seqset_valid tok then Some (Some (sk_set SK_SEQ tok), r) else None
              else
                kind ← kind_of search_names tok;
                '(k, r) ← search_args (fun s => search_parse_depth fuel' s 0) kind r;
                Some (Some k, r)
        end
  end.

Definition imapd_search_parse (p : bytes) : option (option SearchKey * bytes) := search_parse_depth (S (length p)) p 0.

(** The keys of a program as a chain: one key alone, else the last two end it. *)
Fixpoint program_chain (k : SearchKey) (keys : list SearchKey) : SearchKey :=
  match keys with [] => k | k' :: t => sk_sub SK_AND k (program_chain k' t) end.

(** The loop of [imapd_search_parse_program]. *)
Fixpoint program_loop (fuel : nat) (p : bytes) : option (list SearchKey) :=
  match fuel with
  | O => None
  | S fuel' =>
      '(sub, p) ← imapd_search_parse p;
      match sub with
      | None => Some []
      | Some k => l ← program_loop fuel' p; Some (k :: l)
      end
  end.

(** [imapd_search_parse_program]: [Some SkNull] for 0. *)
Definition imapd_search_parse_program (p : bytes) : option SearchKey :=
  l ← program_loop (S (length p)) p;
  Some (match l with [] => SkNull | k :: t => program_chain k t end).

(** ** What a program needs *)

Fixpoint imapd_search_needs_body (k : SearchKey) : bool :=
  match k with
  | SkNull => false
  | Sk kind _ _ _ _ _ a b =>
      match kind with
      | SK_BODY | SK_TEXT => true
      | SK_NOT => imapd_search_needs_body a
      | SK_OR | SK_AND => imapd_search_needs_body a || imapd_search_needs_body b
      | _ => false
      end
  end.

Fixpoint imapd_search_needs_hdr (k : SearchKey) : bool :=
  match k with
  | SkNull => false
  | Sk kind _ _ _ _ _ a b =>
      match kind with
      | SK_FROM | SK_TO | SK_CC | SK_BCC | SK_SUBJECT | SK_HEADER | SK_BODY | SK_TEXT => true
      | SK_NOT => imapd_search_needs_hdr a
      | SK_OR | SK_AND => imapd_search_needs_hdr a || imapd_search_needs_hdr b
      | _ => false
      end
  end.

Fixpoint imapd_search_hdr_cacheable (k : SearchKey) : bool :=
  match k with
  | SkNull => true
  | Sk kind _ hdr _ _ _ a b =>
      match kind with
      | SK_HEADER => ieq hdr (bs "Message-ID") || ieq hdr (bs "Date")
      | SK_BODY | SK_TEXT => false
      | SK_NOT => imapd_search_hdr_cacheable a
      | SK_OR | SK_AND => imapd_search_hdr_cacheable a && imapd_search_hdr_cacheable b
      | _ => true
      end
  end.

Fixpoint imapd_search_only_msgid (k : SearchKey) : bool :=
  match k with
  | SkNull => true
  | Sk kind _ hdr _ _ _ a b =>
      match kind with
      | SK_HEADER => ieq hdr (bs "Message-ID")
      | SK_FROM | SK_TO | SK_CC | SK_BCC | SK_SUBJECT | SK_BODY | SK_TEXT => false
      | SK_NOT => imapd_search_only_msgid a
      | SK_OR | SK_AND => imapd_search_only_msgid a && imapd_search_only_msgid b
      | _ => true
      end
  end.

(** ** The match of one message *)

(** One message as SEARCH sees it; [dc_msg] is [None] for a null pointer. *)
Record ImailDoc := { dc_m : Imail; dc_seq : Z; dc_msg : option bytes }.

Definition search_hdr_name (kind : SearchKind) (hdr : bytes) : bytes :=
  match kind with
  | SK_FROM => bs "From"
  | SK_TO => bs "To"
  | SK_CC => bs "Cc"
  | SK_BCC => bs "Bcc"
  | SK_SUBJECT => bs "Subject"
  | _ => hdr
  end.

Definition has_flag (m : Imail) (bit : Z) : bool := negb (Z.land (im_flags m) bit =? 0).

Definition keyword_tab : list (bytes * Z) :=
  [(bs "Answered", IMAIL_ANSWERED); (bs "Flagged", IMAIL_FLAGGED); (bs "Deleted", IMAIL_TRASHED); (bs "Seen", IMAIL_SEEN); (bs "Draft", IMAIL_DRAFT)].

Fixpoint keyword_loop (tab : list (bytes * Z)) (m : Imail) (kw : bytes) : bool :=
  match tab with
  | [] => match kw with [c] => has c (im_unk m) | _ => false end
  | (n, bit) :: t => if ieq kw n then has_flag m bit else keyword_loop t m kw
  end.

Definition search_keyword_match (m : Imail) (kw : bytes) : bool :=
  match kw with
  | [] => false
  | c :: t => keyword_loop keyword_tab m (if c =? "\"%chr then t else kw)
  end.

(** The branch for headers: the Message-ID of the uidlist, the header cache, the message. *)
Definition search_header_match (kind : SearchKind) (hdr str : bytes) (d : ImailDoc) : bool :=
  let m := dc_m d in
  let name := search_hdr_name kind hdr in
  let fld := imapd_mail_hdr_fld name in
  if ieq hdr (bs "Message-ID") && negb (is_nil (im_mid m)) then ci_has (im_mid m) str
  else match (if im_hdr_valid m && (0 <=? fld) then imapd_mail_hdr_field m (Z.to_nat fld) else None) with
       | Some hv => ci_has hv str
       | None =>
           match dc_msg d with
           | None => false
           | Some msg => match mail_header_get msg name 4096 with None => false | Some v => ci_has (c_str v) str end
           end
       end.

Fixpoint imapd_search_match (k : SearchKey) (d : ImailDoc) (uidnext nmsgs : Z) : bool :=
  match k with
  | SkNull => false
  | Sk kind set hdr str num date a b =>
      let m := dc_m d in
      match kind with
      | SK_ALL => true
      | SK_ANSWERED => has_flag m IMAIL_ANSWERED
      | SK_DELETED => has_flag m IMAIL_TRASHED
      | SK_DRAFT => has_flag m IMAIL_DRAFT
      | SK_FLAGGED => has_flag m IMAIL_FLAGGED
      | SK_SEEN => has_flag m IMAIL_SEEN
      | SK_UNSEEN => negb (has_flag m IMAIL_SEEN)
      | SK_RECENT => im_recent m
      | SK_NEW => im_recent m && negb (has_flag m IMAIL_SEEN)
      | SK_OLD => negb (im_recent m)
      | SK_SEQ => imapd_seqset_has set (u32 (dc_seq d)) (u32 nmsgs)
      | SK_UID => imapd_seqset_has set (im_uid m) uidnext
      | SK_LARGER => im_size m >? num
      | SK_SMALLER => im_size m <? num
      | SK_KEYWORD => search_keyword_match m str
      | SK_UNKEYWORD => negb (search_keyword_match m str)
      | SK_MODSEQ => im_modseq m >=? num
      | SK_FROM | SK_TO | SK_CC | SK_BCC | SK_SUBJECT | SK_HEADER => search_header_match kind hdr str d
      | SK_BODY => match dc_msg d with None => false | Some msg => ci_has (drop (mail_hdr_end msg) msg) str end
      | SK_TEXT => match dc_msg d with None => false | Some msg => ci_has msg str end
      | SK_SINCE | SK_SENTSINCE => im_date m >=? date
      | SK_ON | SK_SENTON => (im_date m >=? date) && (im_date m <? date + 86400)
      | SK_BEFORE | SK_SENTBEFORE => im_date m <? date
      | SK_NOT => negb (imapd_search_match a d uidnext nmsgs)
      | SK_OR => imapd_search_match a d uidnext nmsgs || imapd_search_match b d uidnext nmsgs
      | SK_AND => imapd_search_match a d uidnext nmsgs && imapd_search_match b d uidnext nmsgs
      end
  end.
