(* ===== verification/ImapSearchSpec.v ===== *)
(** * What SEARCH promises

    The substring search against its definition; programs as text, what each query
    means for a message, and that the parser and the match give it that meaning; and
    what the shortcuts of the scan may leave unread. *)

From S2P Require Import Prelude SmtpParse MailHeader Json MailStore MailStoreSpec MailUid MailHdrs MailBox ImapSearch.

(** ** The substring search *)

Section Kmp.
Context (needle : bytes).
Local Notation nl := (length needle).
Local Notation P := (lower needle).

(** [q] bytes of the needle match at the end of [u]. *)
Definition ends (u : bytes) (q : nat) : Prop := (q <= nl)%nat /\ exists v, u = v ++ take q P.

(** The longest such match. *)
Definition longest (u : bytes) (q : nat) : Prop := ends u q /\ forall r, ends u r -> (r <= q)%nat.

Lemma lower_length (s : bytes) : length (lower s) = length s.
Proof. apply length_map. Qed.

Lemma ends_zero u : ends u 0.
Proof. split; [lia|]. exists u. by rewrite app_nil_r. Qed.

Lemma ends_length u q : ends u q -> (q <= length u)%nat.
Proof. intros [Hq [v ->]]. rewrite length_app, length_take, !lower_length. lia. Qed.

Lemma take_S_nth (s : bytes) q : (q < length s)%nat -> take (S q) s = take q s ++ [nth q s 0].
Proof.
  revert q; induction s as [|c s IH]; intros q Hq; cbn in Hq; [lia|]. destruct q as [|q]; [done|]. cbn [take nth app]. f_equal. apply IH. lia.
Qed.

Lemma lower_nth q : (q < nl)%nat -> nth q P 0 = tolower (byte_nth needle q).
Proof. intros H. unfold lower, byte_nth. rewrite (nth_indep _ 0 (tolower 0)) by (by rewrite length_map). apply map_nth. Qed.

Lemma ends_snoc u c q : ends (u ++ [c]) (S q) <-> ends u q /\ (q < nl)%nat /\ c = tolower (byte_nth needle q).
Proof.
  split.
  - intros [Hq [v Hv]]. rewrite take_S_nth in Hv by (rewrite !lower_length; lia). rewrite app_assoc in Hv. apply app_inj_tail in Hv as [-> ->].
    split; [split; [lia|by exists v]|]. split; [lia|]. apply lower_nth. lia.
  - intros ([_ [v ->]] & Hq & ->). split; [lia|]. exists v. rewrite take_S_nth by (rewrite !lower_length; lia). rewrite lower_nth by done. by rewrite app_assoc.
Qed.

(** Two matches at the end of a text: the shorter is one at the end of the longer. *)
Lemma ends_nested u q r : ends u q -> ends u r -> (r <= q)%nat -> ends (take q P) r.
Proof.
  intros [Hq [v Hv]] [Hr [w Hw]] Hle. split; [done|]. rewrite Hv in Hw. clear Hv u.
  assert (L : (length v + q = length w + r)%nat).
  { apply (f_equal length) in Hw. rewrite !length_app, !length_take, !lower_length in Hw. lia. }
  assert (Hp : take (length v) w = v).
  { apply (f_equal (take (length v))) in Hw. rewrite take_app_length in Hw. rewrite take_app_le in Hw by lia. done. }
  exists (drop (length v) w). apply (f_equal (drop (length v))) in Hw. rewrite drop_app_length in Hw. rewrite drop_app_le in Hw by lia. done.
Qed.

Lemma ends_trans u q r : ends u q -> ends (take q P) r -> ends u r.
Proof. intros [Hq [v ->]] [Hr [w E]]. split; [done|]. exists (v ++ w). by rewrite E, app_assoc. Qed.

(** The text whose longest match is the failure function of [i + 1]: the needle up to
    there without its first byte. *)
Definition border_text (i : nat) : bytes := drop 1 (take (S i) P).

Lemma border_ends q r : (q < nl)%nat -> ends (take (S q) P) r -> (r <= q)%nat -> ends (border_text q) r.
Proof.
  intros Hq [Hr [v E]] Hle. split; [done|]. unfold border_text. destruct v as [|c v].
  - apply (f_equal length) in E. cbn [app] in E. rewrite !length_take, !lower_length in E. lia.
  - exists v. by rewrite E.
Qed.

Lemma ends_border q r : (q < nl)%nat -> ends (border_text q) r -> ends (take (S q) P) r /\ (r <= q)%nat.
Proof.
  intros Hq He. pose proof (ends_length _ _ He) as Hl. unfold border_text in Hl. rewrite length_drop, length_take, !lower_length in Hl. split; [|lia].
  destruct He as [Hr [v E]]. split; [done|]. destruct (take (S q) P) as [|c s] eqn:Et.
  - apply (f_equal length) in Et. rewrite length_take, !lower_length in Et. cbn [length] in Et. lia.
  - unfold border_text in E. rewrite Et in E. cbn [drop] in E. rewrite ?drop_0 in E. exists (c :: v). cbn [app]. by rewrite <- E.
Qed.

(** The first values of the failure function. *)
Definition table_ok (fail : list nat) : Prop := forall i, (i < length fail)%nat -> (i < nl)%nat -> longest (border_text i) (nth i fail 0%nat).

(** One step keeps the longest match, from any match that no longer one extends past. *)
Lemma step_longest fail c u : table_ok fail -> forall fuel q, (q <= fuel)%nat -> (q < nl)%nat -> (q <= length fail)%nat -> ends u q ->
  (forall r, ends (u ++ [tolower c]) (S r) -> (r <= q)%nat) -> longest (u ++ [tolower c]) (kmp_step fuel needle fail c q).
Proof.
  intros Ht. induction fuel as [|fuel IH]; intros q Hf Hq Hl He Hmax; cbn [kmp_step].
  all: destruct (Z.eqb_spec (tolower c) (tolower (byte_nth needle q))) as [E|E];
    [split; [by apply ends_snoc|]; intros [|r] Hr; [lia|]; specialize (Hmax r Hr); lia|].
  - assert (q = 0%nat) as -> by lia. split; [apply ends_zero|]. intros [|r] Hr; [lia|]. exfalso. pose proof (Hmax r Hr). assert (r = 0%nat) as -> by lia.
    apply ends_snoc in Hr as (_ & _ & ?). congruence.
  - destruct q as [|q].
    { split; [apply ends_zero|]. intros [|r] Hr; [lia|]. exfalso. pose proof (Hmax r Hr). assert (r = 0%nat) as -> by lia.
      apply ends_snoc in Hr as (_ & _ & ?). congruence. }
    destruct (Ht q ltac:(lia) ltac:(lia)) as [Hb Hbm]. apply ends_border in Hb as [Hb Hbq]; [|lia].
    apply IH; [lia|lia|lia|by apply (ends_trans _ (S q))|]. intros r Hr. pose proof (Hmax r Hr). pose proof Hr as Hr'. apply ends_snoc in Hr' as (Hru & Hrn & Ec).
    destruct (decide (r = S q)) as [->|Hne]; [by rewrite Ec in E|]. apply Hbm. apply border_ends; [lia| |lia]. by apply (ends_nested u).
Qed.
Lemma border_next i : (0 < i)%nat -> (i < nl)%nat -> border_text i = border_text (i - 1) ++ [tolower (byte_nth needle i)].
Proof.
  intros H0 Hi. unfold border_text. replace (S (i - 1)) with i by lia. rewrite (take_S_nth P i), lower_nth by (rewrite ?lower_length; lia).
  apply drop_app_le. rewrite length_take, lower_length. lia.
Qed.

Lemma fail_loop_ok n : forall fail, table_ok fail -> (0 < length fail)%nat -> (length fail + n = nl)%nat ->
  table_ok (fail_loop n needle fail) /\ length (fail_loop n needle fail) = nl.
Proof.
  induction n as [|n IH]; intros fail Ht H0 Hl; cbn [fail_loop]; [split; [done|lia]|]. set (i := length fail) in *.
  apply IH; [|rewrite length_app; cbn; lia|rewrite length_app; cbn; lia]. intros j Hj Hjn. rewrite length_app in Hj. cbn in Hj.
  destruct (decide (j < i)%nat) as [Hlt|Hge]; [rewrite app_nth1 by done; by apply Ht|]. assert (j = i) as -> by lia. rewrite app_nth2, Nat.sub_diag by lia. cbn [nth].
  destruct (Ht (i - 1)%nat ltac:(lia) ltac:(lia)) as [Hb Hbm]. pose proof (ends_border (i - 1) _ ltac:(lia) Hb) as [_ Hbq].
  rewrite border_next by lia. apply step_longest; [done|lia|lia|lia|done|]. intros r Hr. apply Hbm. by apply ends_snoc in Hr as [? _].
Qed.

Lemma fail_table_ok : (0 < nl)%nat -> table_ok (fail_table needle) /\ length (fail_table needle) = nl.
Proof.
  intros H. apply fail_loop_ok; [|cbn; lia|cbn; lia]. intros i Hi _. cbn in Hi. assert (i = 0%nat) as -> by lia. cbn [nth].
  split; [apply ends_zero|]. intros r Hr. apply ends_length in Hr. unfold border_text in Hr. rewrite length_drop, length_take in Hr. lia.
Qed.

(** The needle lies at [o], whatever the case of the letters. *)
Definition occurs (hay : bytes) (o : nat) : Prop := (o + nl <= length hay)%nat /\ ieq (take nl (drop o hay)) needle = true.

Lemma occurs_ends hay o : (o + nl <= length hay)%nat -> occurs hay o <-> ends (lower (take (o + nl) hay)) nl.
Proof.
  intros Hl. assert (E : lower (take (o + nl) hay) = lower (take o hay) ++ lower (take nl (drop o hay))).
  { unfold lower. rewrite <- map_app. f_equal. rewrite take_drop_commute. rewrite <- (take_drop o (take (o + nl) hay)) at 1. by rewrite take_take, Nat.min_l by lia. }
  unfold occurs. rewrite ieq_spec. unfold ends. rewrite (take_ge P) by (rewrite lower_length; lia). split.
  - intros [_ H]. split; [done|]. exists (lower (take o hay)). by rewrite E, H.
  - intros [_ [v Hv]]. split; [done|]. rewrite E in Hv. apply app_inj_2 in Hv; [by destruct Hv|]. rewrite !lower_length, length_take, length_drop. lia.
Qed.

Lemma ci_loop_spec fail : (0 < nl)%nat -> table_ok fail -> length fail = nl -> forall hay pre q, longest (lower pre) q -> (q < nl)%nat ->
  (forall o, (o + nl <= length pre)%nat -> ~ occurs (pre ++ hay) o) ->
  match ci_loop needle fail hay (length pre) q with
  | Some o => occurs (pre ++ hay) o /\ forall o', (o' < o)%nat -> ~ occurs (pre ++ hay) o'
  | None => forall o, ~ occurs (pre ++ hay) o
  end.
Proof.
  intros H0 Ht Hlen. induction hay as [|c hay IH]; intros pre q [Hq Hmax] Hlt Hno; cbn [ci_loop].
  - intros o [Ho Hi]. rewrite app_nil_r in Ho. apply (Hno o Ho). rewrite app_nil_r in *. by split.
  - assert (Hstep : longest (lower (pre ++ [c])) (kmp_step q needle fail c q)).
    { unfold lower. rewrite map_app. cbn [map]. apply step_longest; [done|lia|done|lia|done|]. intros r Hr. apply Hmax. by apply ends_snoc in Hr as [? _]. }
    cbv zeta. set (q' := kmp_step q needle fail c q) in *. assert (E : pre ++ c :: hay = (pre ++ [c]) ++ hay) by by rewrite <- app_assoc.
    assert (Hlp : length (pre ++ [c]) = S (length pre)) by (rewrite length_app; cbn; lia).
    assert (Hat : forall o, (o + nl = S (length pre))%nat -> occurs (pre ++ c :: hay) o <-> ends (lower (pre ++ [c])) nl).
    { intros o Ho. rewrite occurs_ends by (rewrite E, length_app; lia). by rewrite E, Ho, <- Hlp, take_app_length. }
    destruct (Nat.eqb_spec q' nl) as [Eq|Ne].
    + destruct Hstep as [Hs _]. rewrite Eq in Hs. pose proof (ends_length _ _ Hs) as Hle. rewrite lower_length, Hlp in Hle. split; [apply Hat; [lia|done]|].
      intros o' Ho'. apply Hno. lia.
    + specialize (IH (pre ++ [c]) q' Hstep). rewrite <- E, Hlp in IH. apply IH.
      * destruct Hstep as [[Hs _] _]. lia.
      * intros o Ho. destruct (decide (o + nl = S (length pre))%nat) as [Ho'|Hne]; [|apply Hno; lia]. intros Hocc. apply Hat in Hocc; [|done].
        destruct Hstep as [[Hs _] Hsm]. specialize (Hsm _ Hocc). lia.
Qed.
End Kmp.

Lemma ci_strstr_spec (hay needle : bytes) :
  match ci_strstr hay needle with
  | Some o => occurs needle hay o /\ forall o', (o' < o)%nat -> ~ occurs needle hay o'
  | None => forall o, ~ occurs needle hay o
  end.
Proof.
  unfold ci_strstr. destruct needle as [|c n]; cbn [is_nil]; [split; [|lia]; split; [cbn; lia|done]|]. set (needle := c :: n).
  destruct (Nat.ltb_spec (length hay) (length needle)); [intros o [Ho _]; lia|]. assert (H0 : (0 < length needle)%nat) by (cbn; lia).
  destruct (fail_table_ok needle H0) as [Ht Hl]. apply (ci_loop_spec needle _ H0 Ht Hl hay [] 0); [|done|intros o Ho; cbn in Ho; lia].
  split; [apply ends_zero|]. intros r Hr. apply ends_length in Hr. done.
Qed.

(** C40: the substring search of SEARCH is exact. It finds the first place at which the
    needle lies in the text without regard to case, and none only when there is none. *)
Theorem ci_strstr_exact (hay needle : bytes) :
  match ci_strstr hay needle with
  | Some o => occurs needle hay o /\ forall o', (o' < o)%nat -> ~ occurs needle hay o'
  | None => forall o, ~ occurs needle hay o
  end.
Proof. apply ci_strstr_spec. Qed.

(** ** The parser ends *)

(** A parser that takes something off the string when it returns a key. *)
Definition shrinks (parse : bytes -> option (option SearchKey * bytes)) : Prop := forall s k r, parse s = Some (Some k, r) -> (length r < length s)%nat.

Lemma skip_sp_length s : (length (skip_blank s) <= length s)%nat.
Proof. apply drop_while_length. Qed.

Lemma quoted_length s : forall out r, quoted_loop s = Some (out, r) -> (length r < length s)%nat.
Proof.
  remember (length s) as n eqn:Hn. revert s Hn. induction n as [n IH] using lt_wf_ind. intros [|c t] -> out r; cbn [quoted_loop]; [done|].
  destruct (c =? "\"%chr).
  - destruct t as [|d t]; [done|]. destruct (quoted_loop t) as [[o r']|] eqn:E; [|done]. intros [= <- <-]. apply (IH (length t)) in E; cbn [length]; lia.
  - destruct (c =? DQUOTE); [intros [= <- <-]; cbn; lia|]. destruct (quoted_loop t) as [[o r']|] eqn:E; [|done]. intros [= <- <-]. apply (IH (length t)) in E; cbn [length]; lia.
Qed.

Lemma astring_length p v r : need_astring p = Some (v, r) -> (length r < length p)%nat.
Proof.
  unfold need_astring, imapd_next_astring. pose proof (skip_sp_length p). destruct (skip_blank p) as [|c t]; [done|]. cbn [length] in *.
  destruct (c =? DQUOTE).
  - destruct (quoted_loop t) as [[o r']|] eqn:E; [|done]. intros [= <- <-]. apply quoted_length in E. lia.
  - cbn [take_while drop_while]. destruct (atom_char c); [|done]. cbn [is_nil]. intros [= <- <-]. pose proof (drop_while_length atom_char t). lia.
Qed.

Lemma need_key_length parse p k r : shrinks parse -> need_key parse p = Some (k, r) -> (length r < length p)%nat.
Proof. intros Hs. unfold need_key. destruct (parse p) as [[[k'|] r']|] eqn:E; [|done|done]. intros [= <- <-]. by apply Hs in E. Qed.

Lemma args_length parse kind p k r : shrinks parse -> search_args parse kind p = Some (k, r) -> (length r <= length p)%nat.
Proof.
  intros Hs. assert (A : forall q v s, need_astring q = Some (v, s) -> (length s < length q)%nat) by apply astring_length.
  destruct kind; cbn [search_args]; try (by intros [= <- <-]).
  all: try (destruct (need_astring p) as [[v s]|] eqn:E; [|done]; apply A in E; cbn [mbind option_bind]).
  all: try (intros [= <- <-]; lia).
  all: try (destruct (imapd_seqset_valid v); [|done]; intros [= <- <-]; lia).
  all: try (destruct (whole_ull v); [|done]; intros [= <- <-]; lia).
  all: try (destruct (search_date v); [|done]; intros [= <- <-]; lia).
  - destruct (need_astring s) as [[w s']|] eqn:E'; [|done]. apply A in E'. intros [= <- <-]. lia.
  - destruct (need_key parse p) as [[a s]|] eqn:E; [|done]. apply need_key_length in E; [|done]. intros [= <- <-]. lia.
  - destruct (need_key parse p) as [[a s]|] eqn:E; [|done]. apply need_key_length in E; [|done]. cbn [mbind option_bind].
    destruct (need_key parse s) as [[b s']|] eqn:E'; [|done]. apply need_key_length in E'; [|done]. intros [= <- <-]. lia.
Qed.

Lemma group_length parse fuel : forall s l r, shrinks parse -> group_loop parse fuel s = Some (l, r) -> (length r < length s)%nat.
Proof.
  induction fuel as [|fuel IH]; intros s l r Hs; cbn [group_loop]; [done|]. pose proof (skip_sp_length s). destruct (skip_blank s) as [|c t]; [done|]. cbn [length] in *.
  destruct (c =? ")"%chr); [intros [= <- <-]; lia|]. destruct (parse (c :: t)) as [[[k|] s']|] eqn:E; [|done|done]. apply Hs in E. cbn [mbind option_bind length] in *.
  destruct (group_loop parse fuel s') as [[l' r']|] eqn:E'; [|done]. apply IH in E'; [|done]. intros [= <- <-]. lia.
Qed.

Lemma parse_shrinks fuel : forall depth, shrinks (fun s => search_parse_depth fuel s depth).
Proof.
  induction fuel as [|fuel IH]; intros depth s k r; cbn [search_parse_depth]; [done|]. destruct (IMAPD_MAX_SEARCH_DEPTH <? depth)%nat; [done|].
  pose proof (skip_sp_length s). destruct (skip_blank s) as [|c t]; [done|]. cbn [length] in *. destruct (Z.eqb_spec c "("%chr) as [_|Hc1].
  - destruct (group_loop _ _ t) as [[[|k' l] r']|] eqn:E; [done| |done]. apply group_length in E; [|apply IH]. intros [= <- <-]. lia.
  - assert (Hd : forall q, (length (drop_while key_char q) <= length q)%nat) by (intros; apply drop_while_length). destruct (is_digit c || (c =? "*"%chr)) eqn:Ed.
    + destruct (imapd_seqset_valid _); [|done]. intros [= <- <-]. cbn [drop_while]. assert (Hk : key_char c = true).
      { unfold key_char. apply negb_true_iff. unfold is_digit in Ed. apply orb_true_iff in Ed as [Ed|Ed]; [|apply Z.eqb_eq in Ed as ->; done]. lia. }
      rewrite Hk. specialize (Hd t). lia.
    + destruct (kind_of search_names _) as [kind|] eqn:Ek; [|done]. cbn [mbind option_bind]. destruct (search_args _ kind _) as [[k' r']|] eqn:E; [|done]. intros [= <- <-].
      apply args_length in E; [|apply IH]. cbn [take_while] in Ek. cbn [drop_while] in E. destruct (key_char c); [specialize (Hd t); lia|done].
Qed.

Lemma args_ext p1 p2 kind p : (forall s, (length s <= length p)%nat -> p1 s = p2 s) -> shrinks p1 -> search_args p1 kind p = search_args p2 kind p.
Proof.
  intros He Hs. destruct kind; cbn [search_args]; try done.
  - unfold need_key. by rewrite He.
  - destruct (need_key p1 p) as [[a s]|] eqn:E; pose proof E as E'; unfold need_key in E'; rewrite He in E' by done; fold (need_key p2 p) in E'; rewrite E'; [|done].
    apply need_key_length in E; [|done]. cbn [mbind option_bind]. unfold need_key. by rewrite He by lia.
Qed.

Lemma group_ext p1 p2 : shrinks p1 -> forall f1 f2 s, (length s < f1)%nat -> (length s < f2)%nat -> (forall q, (length q <= length s)%nat -> p1 q = p2 q) ->
  group_loop p1 f1 s = group_loop p2 f2 s.
Proof.
  intros Hs. induction f1 as [|f1 IH]; intros [|f2] s H1 H2 He; try lia. cbn [group_loop]. pose proof (skip_sp_length s). destruct (skip_blank s) as [|c t]; [done|].
  destruct (c =? ")"%chr); [done|]. rewrite <- He by done. destruct (p1 (c :: t)) as [[[k|] s']|] eqn:E; [|done|done]. apply Hs in E. cbn [mbind option_bind length] in *.
  rewrite (IH f2 s'); [done|lia|lia|]. intros q Hq. apply He. lia.
Qed.

(** More fuel than bytes is enough, at any depth. *)
Lemma parse_fuel f1 : forall f2 p depth, (length p < f1)%nat -> (length p < f2)%nat -> search_parse_depth f1 p depth = search_parse_depth f2 p depth.
Proof.
  induction f1 as [|f1 IH]; intros [|f2] p depth H1 H2; try lia. cbn [search_parse_depth]. destruct (IMAPD_MAX_SEARCH_DEPTH <? depth)%nat; [done|].
  pose proof (skip_sp_length p). destruct (skip_blank p) as [|c t]; [done|]. cbn [length] in *. destruct (Z.eqb_spec c "("%chr) as [_|_].
  - rewrite (group_ext _ (fun s => search_parse_depth f2 s (S depth)) (parse_shrinks f1 (S depth)) (S (length t)) (S (length t))); [done|lia|lia|]. intros q Hq. apply IH; lia.
  - destruct (is_digit c || (c =? "*"%chr)) eqn:Ed; [done|]. cbv zeta. destruct (kind_of search_names _) as [kind|] eqn:Ek; [|done]. cbn [mbind option_bind].
    rewrite (args_ext _ (fun s => search_parse_depth f2 s 0)); [done| |apply parse_shrinks]. intros q Hq. cbn [take_while drop_while] in *.
    destruct (key_char c); [|done]. pose proof (drop_while_length key_char t). apply IH; lia.
Qed.

(** ** Programs as text *)

(** A search program as a client writes it. Groups in parentheses are left out: as
    [group_matches_nothing] shows, the code does not give them their meaning. *)
Inductive Query :=
| QFlag (kind : SearchKind)
| QSet (set : bytes)
| QUid (set : bytes)
| QStr (kind : SearchKind) (str : bytes)
| QHeader (hdr str : bytes)
| QNum (kind : SearchKind) (n : Z)
| QDate (kind : SearchKind) (dd : Z) (mi : nat) (yy : Z)
| QNot (q : Query)
| QOr (q1 q2 : Query).

Definition flag_kinds : list SearchKind := [SK_ALL; SK_ANSWERED; SK_DELETED; SK_DRAFT; SK_FLAGGED; SK_NEW; SK_OLD; SK_RECENT; SK_SEEN; SK_UNSEEN].
Definition str_kinds : list SearchKind := [SK_FROM; SK_TO; SK_CC; SK_BCC; SK_SUBJECT; SK_BODY; SK_TEXT; SK_KEYWORD; SK_UNKEYWORD].
Definition num_kinds : list SearchKind := [SK_LARGER; SK_SMALLER; SK_MODSEQ].
Definition date_kinds : list SearchKind := [SK_SINCE; SK_BEFORE; SK_ON; SK_SENTSINCE; SK_SENTBEFORE; SK_SENTON].

(** The days from 1970-01-01 to January 1 of [yy]. *)
Definition civil_days (yy : Z) : Z :=
  let leaps n := n / 4 - n / 100 + n / 400 in 365 * (yy - 1970) + (leaps (yy - 1) - leaps 1969).

Definition month_lengths : list Z := [31; 28; 31; 30; 31; 30; 31; 31; 30; 31; 30; 31].

(** The days from 1970-01-01 to a date of a year that is no leap year, month [mi]
    counted from 0. *)
Definition day_number (dd : Z) (mi : nat) (yy : Z) : Z := civil_days yy + foldr Z.add 0 (take mi month_lengths) + (dd - 1).

(** A date of the years 1970 to 2099, without the leap years, of which the code has
    the days wrong ([epoch_days_exact]). *)
Definition date_ok (dd : Z) (mi : nat) (yy : Z) : Prop :=
  (mi < 12)%nat /\ 1 <= dd <= nth mi month_lengths 0 /\ 1970 <= yy < 2100 /\ leap_year yy = false.

(** Sets are those of RFC 3501, a set of uids without the star (which the code takes
    for UIDNEXT). *)
Fixpoint query_ok (q : Query) : Prop :=
  match q with
  | QFlag kind => kind ∈ flag_kinds
  | QSet set => exists rs, writes_set set rs
  | QUid set => (exists rs, writes_set set rs) /\ "*"%chr ∉ set
  | QStr kind _ => kind ∈ str_kinds
  | QHeader _ _ => True
  | QNum kind n => kind ∈ num_kinds /\ 0 <= n <= UINT64_MAX
  | QDate kind dd mi yy => kind ∈ date_kinds /\ date_ok dd mi yy
  | QNot q => query_ok q
  | QOr q1 q2 => query_ok q1 /\ query_ok q2
  end.

(** The levels of NOT and OR. *)
Fixpoint query_depth (q : Query) : nat :=
  match q with QNot q => S (query_depth q) | QOr q1 q2 => S (Nat.max (query_depth q1) (query_depth q2)) | _ => 0%nat end.

(** A program: at least one query, none nested deeper than the limit of the code. *)
Definition program_ok (qs : list Query) : Prop :=
  qs <> [] /\ Forall (fun q => query_ok q /\ (query_depth q <= IMAPD_MAX_SEARCH_DEPTH)%nat) qs.

(** *** What a query means for a message *)

Definition contains (hay needle : bytes) : Prop := exists o, occurs needle hay o.
Definition marked (m : Imail) (bit : Z) : Prop := Z.land (im_flags m) bit <> 0.

Definition flag_holds (kind : SearchKind) (m : Imail) : Prop :=
  match kind with
  | SK_ALL => True
  | SK_ANSWERED => marked m IMAIL_ANSWERED
  | SK_DELETED => marked m IMAIL_TRASHED
  | SK_DRAFT => marked m IMAIL_DRAFT
  | SK_FLAGGED => marked m IMAIL_FLAGGED
  | SK_SEEN => marked m IMAIL_SEEN
  | SK_UNSEEN => ~ marked m IMAIL_SEEN
  | SK_RECENT => im_recent m = true
  | SK_NEW => im_recent m = true /\ ~ marked m IMAIL_SEEN
  | SK_OLD => im_recent m = false
  | _ => False
  end.

(** A field of this name (the first) has the text in its value. *)
Definition header_holds (file name str : bytes) : Prop :=
  exists v, mail_header_get file name 4096 = Some v /\ contains (c_str v) str.

(** A system flag by its name, with or without the backslash, or a letter kept from
    the file name. *)
Definition keyword_holds (m : Imail) (kw : bytes) : Prop :=
  let name := match kw with c :: t => if c =? "\"%chr then t else kw | [] => kw end in
  match List.find (fun p => ieq name p.1) [(bs "Answered", IMAIL_ANSWERED); (bs "Flagged", IMAIL_FLAGGED); (bs "Deleted", IMAIL_TRASHED);
                                          (bs "Seen", IMAIL_SEEN); (bs "Draft", IMAIL_DRAFT)] with
  | Some (_, bit) => marked m bit
  | None => exists c, name = [c] /\ c ∈ im_unk m
  end.

Definition text_holds (kind : SearchKind) (str : bytes) (m : Imail) (file : bytes) : Prop :=
  match kind with
  | SK_FROM => header_holds file (bs "From") str
  | SK_TO => header_holds file (bs "To") str
  | SK_CC => header_holds file (bs "Cc") str
  | SK_BCC => header_holds file (bs "Bcc") str
  | SK_SUBJECT => header_holds file (bs "Subject") str
  | SK_BODY => contains (drop (mail_hdr_end file) file) str
  | SK_TEXT => contains file str
  | SK_KEYWORD => keyword_holds m str
  | SK_UNKEYWORD => ~ keyword_holds m str
  | _ => False
  end.

Definition num_holds (kind : SearchKind) (n : Z) (m : Imail) : Prop :=
  match kind with SK_LARGER => n < im_size m | SK_SMALLER => im_size m < n | SK_MODSEQ => n <= im_modseq m | _ => False end.

(** Every date key compares the internal date. *)
Definition date_holds (kind : SearchKind) (day : Z) (m : Imail) : Prop :=
  let midnight := day * 86400 in
  match kind with
  | SK_SINCE | SK_SENTSINCE => midnight <= im_date m
  | SK_BEFORE | SK_SENTBEFORE => im_date m < midnight
  | SK_ON | SK_SENTON => midnight <= im_date m < midnight + 86400
  | _ => False
  end.

(** The message [m] with the bytes [file] is number [seq] of [nmsgs] in its mailbox; its
    Message-ID is the one the uidlist has, when it has one. *)
Fixpoint query_holds (q : Query) (m : Imail) (file : bytes) (seq nmsgs uidnext : Z) : Prop :=
  match q with
  | QFlag kind => flag_holds kind m
  | QSet set => exists rs, writes_set set rs /\ Exists (in_range seq nmsgs) rs
  | QUid set => exists rs, writes_set set rs /\ Exists (in_range (im_uid m) uidnext) rs
  | QStr kind str => text_holds kind str m file
  | QHeader hdr str =>
      if ieq hdr (bs "Message-ID") && negb (is_nil (im_mid m)) then contains (im_mid m) str else header_holds file hdr str
  | QNum kind n => num_holds kind n m
  | QDate kind dd mi yy => date_holds kind (day_number dd mi yy) m
  | QNot q => ~ query_holds q m file seq nmsgs uidnext
  | QOr q1 q2 => query_holds q1 m file seq nmsgs uidnext \/ query_holds q2 m file seq nmsgs uidnext
  end.

(** The key a query stands for. *)
Fixpoint query_key (q : Query) : SearchKey :=
  match q with
  | QFlag kind => sk_new kind
  | QSet set => sk_set SK_SEQ set
  | QUid set => sk_set SK_UID set
  | QStr kind str => sk_str kind [] str
  | QHeader hdr str => sk_str SK_HEADER hdr str
  | QNum kind n => sk_num kind n
  | QDate kind dd mi yy => sk_date kind (day_number dd mi yy * 86400)
  | QNot q => sk_sub SK_NOT (query_key q) SkNull
  | QOr q1 q2 => sk_sub SK_OR (query_key q1) (query_key q2)
  end.

(** *** How a query is written *)

Definition quoted (s : bytes) : bytes := DQUOTE :: concat (map (fun c => if (c =? DQUOTE) || (c =? "\"%chr) then ["\"%chr; c] else [c]) s) ++ [DQUOTE].

Definition kind_eq (a b : SearchKind) : {a = b} + {a <> b}.
Proof. decide equality. Defined.

Definition kind_name (kind : SearchKind) : bytes :=
  match List.find (fun p => if kind_eq p.2 kind then true else false) search_names with Some (n, _) => n | None => [] end.

(** [dd-Mon-yyyy] *)
Definition date_text (dd : Z) (mi : nat) (yy : Z) : bytes :=
  dec_digits 20 dd [] ++ "-"%chr :: nth mi MONS [] ++ "-"%chr :: dec_digits 20 yy [].

Fixpoint query_text (q : Query) : bytes :=
  match q with
  | QFlag kind => kind_name kind
  | QSet set => set
  | QUid set => bs "UID " ++ quoted set
  | QStr kind str => kind_name kind ++ SP :: quoted str
  | QHeader hdr str => bs "HEADER " ++ quoted hdr ++ SP :: quoted str
  | QNum kind n => kind_name kind ++ SP :: dec_digits 20 n []
  | QDate kind dd mi yy => kind_name kind ++ SP :: date_text dd mi yy
  | QNot q => bs "NOT " ++ query_text q
  | QOr q1 q2 => bs "OR " ++ query_text q1 ++ SP :: query_text q2
  end.

(** What follows a token: nothing, or a blank. *)
Definition stops (r : bytes) : Prop := r = [] \/ exists t, r = SP :: t.

Lemma quoted_parse s rest : need_astring (SP :: quoted s ++ rest) = Some (s, rest).
Proof.
  unfold need_astring, imapd_next_astring, quoted. cbn [app skip_blank drop_while]. rewrite Z.eqb_refl. cbn [drop_while]. change (DQUOTE =? SP) with false. cbn iota. rewrite Z.eqb_refl.
  assert (E : quoted_loop ((concat (map (fun c => if (c =? DQUOTE) || (c =? "\"%chr) then ["\"%chr; c] else [c]) s) ++ [DQUOTE]) ++ rest) = Some (s, rest)).
  { induction s as [|c s IH]; cbn [map concat app quoted_loop]; [done|]. destruct ((c =? DQUOTE) || (c =? "\"%chr)) eqn:Ec; cbn [app quoted_loop].
    - rewrite Z.eqb_refl, IH. done.
    - apply orb_false_iff in Ec as [-> ->]. by rewrite IH. }
  by rewrite E.
Qed.

Lemma atom_parse tok rest : tok <> [] -> Forall (fun c => atom_char c = true) tok -> stops rest -> need_astring (SP :: tok ++ rest) = Some (tok, rest).
Proof.
  intros Hne Ha Hr. destruct tok as [|c tok]; [done|]. pose proof (Forall_inv Ha) as Hc. cbn in Hc.
  assert (Hsp : c =? SP = false) by (unfold atom_char in Hc; lia). assert (Hq : c =? DQUOTE = false).
  { destruct (Z.eqb_spec c DQUOTE) as [->|]; [by vm_compute in Hc|done]. }
  unfold need_astring, imapd_next_astring. cbn [skip_blank drop_while]. rewrite Z.eqb_refl. cbn [app drop_while]. rewrite Hsp, Hq, app_comm_cons.
  assert (Hst : take_while atom_char ((c :: tok) ++ rest) = c :: tok /\ drop_while atom_char ((c :: tok) ++ rest) = rest).
  { rewrite take_while_app_all, drop_while_app_all by done. destruct Hr as [->|[t ->]]; [by rewrite app_nil_r|]. cbn. by rewrite app_nil_r. }
  destruct Hst as [-> ->]. done.
Qed.

Lemma digits_parse n rest : 0 <= n <= UINT64_MAX -> stops rest -> need_astring (SP :: dec_digits 20 n [] ++ rest) = Some (dec_digits 20 n [], rest) /\ whole_ull (dec_digits 20 n []) = Some n.
Proof.
  intros Hn Hr. destruct (dec_digits_spec 20 n []) as (ds & E & Hd & Hne & Hl & Hv); [split; [lia|]; eapply Z.le_lt_trans; [apply Hn|done]|lia|].
  rewrite app_nil_r in E. rewrite E. specialize (Hv 0). rewrite Z.mul_0_l in Hv. split.
  - apply atom_parse; [done| |done]. eapply Forall_impl; [exact Hd|]. intros c Hc. unfold is_digit in Hc. unfold atom_char. lia.
  - destruct ds as [|d ds]; [done|]. pose proof (Forall_inv Hd) as Hd0. unfold whole_ull.
    assert (Hs : is_space d = false) by (unfold is_digit in Hd0; unfold is_space; lia). cbn [drop_while]. rewrite Hs.
    assert (H1 : d =? "-"%chr = false /\ d =? "+"%chr = false) by (unfold is_digit in Hd0; lia). destruct H1 as [-> ->].
    assert (Hw : take_while is_digit (d :: ds) = d :: ds /\ drop_while is_digit (d :: ds) = []) by (split; [by apply take_while_id|by apply drop_while_nil]).
    destruct Hw as [-> ->]. cbn [is_nil negb orb]. rewrite Hv, Z.add_0_l. destruct (Z.gtb_spec n UINT64_MAX); [lia|done].
Qed.

(** Every date of the range is read as the day it is. *)
Lemma date_parse dd mi yy rest : date_ok dd mi yy -> stops rest ->
  need_astring (SP :: date_text dd mi yy ++ rest) = Some (date_text dd mi yy, rest) /\ search_date (date_text dd mi yy) = Some (day_number dd mi yy * 86400).
Proof.
  intros (Hm & Hd & Hy & Hl) Hr.
  assert (A : forallb (fun y => forallb (fun m => forallb (fun d =>
      let yy := 1970 + Z.of_nat y in let dd := 1 + Z.of_nat d in let s := date_text dd m yy in
      leap_year yy || negb (is_nil s) && forallb atom_char s && match search_date s with Some v => v =? day_number dd m yy * 86400 | None => false end)
    (seq 0 31)) (seq 0 12)) (seq 0 130) = true) by (vm_compute; reflexivity).
  rewrite forallb_forall in A. specialize (A (Z.to_nat (yy - 1970)) ltac:(apply in_seq; lia)). cbv beta in A.
  rewrite forallb_forall in A. specialize (A mi ltac:(apply in_seq; lia)). cbv beta in A.
  assert (Hd31 : dd <= 31) by (do 12 (destruct mi as [|mi]; [cbn in Hd; lia|]); lia).
  rewrite forallb_forall in A. specialize (A (Z.to_nat (dd - 1)) ltac:(apply in_seq; lia)). cbv zeta beta in A.
  rewrite !Z2Nat.id in A by lia. replace (1970 + (yy - 1970)) with yy in A by lia. replace (1 + (dd - 1)) with dd in A by lia.
  rewrite Hl in A. cbn [orb] in A. apply andb_true_iff in A as [[A1 A2]%andb_true_iff A3]. split.
  - apply atom_parse; [by destruct (date_text dd mi yy)| |done]. by apply forallb_Forall.
  - destruct (search_date _) as [v|]; [|done]. apply Z.eqb_eq in A3. by rewrite A3.
Qed.

(** A sequence set is one token that starts with a digit or a star. *)
Lemma set_chars s rs : writes_set s rs -> Forall (fun c => key_char c = true) s /\ exists c t, s = c :: t /\ is_digit c || (c =? "*"%chr) = true.
Proof.
  assert (He : forall s e, writes_end s e -> Forall (fun c => key_char c = true) s /\ exists c t, s = c :: t /\ is_digit c || (c =? "*"%chr) = true).
  { intros w e [|c ds Hc Hds _]; [split; [by repeat constructor|by eexists _, _]|]. split; [|exists c, ds; split; [done|unfold is_digit; lia]].
    constructor; [unfold key_char; lia|]. eapply Forall_impl; [exact Hds|]. intros d Hd. unfold is_digit in Hd. unfold key_char. lia. }
  assert (Hr : forall s r, writes_range s r -> Forall (fun c => key_char c = true) s /\ exists c t, s = c :: t /\ is_digit c || (c =? "*"%chr) = true).
  { intros w r [w1 e H1|w1 e w2 e' H1 H2]; [by eapply He|]. destruct (He _ _ H1) as [F1 (c & t & -> & Hc)], (He _ _ H2) as [F2 _]. split; [|by eexists _, _].
    apply Forall_app. split; [done|by constructor]. }
  induction 1 as [s r H|s r t rs H _ [IH _]]; [by eapply Hr|]. destruct (Hr _ _ H) as [F1 (c & u & -> & Hc)]. split; [|by eexists _, _].
  apply Forall_app. split; [done|by constructor].
Qed.

Lemma set_valid s rs : writes_set s rs -> imapd_seqset_valid s = true.
Proof. intros H. destruct (seqset_exact s 1 1 ltac:(lia)) as [Hv _]. apply Hv. by exists rs. Qed.

Definition arg_kinds : list SearchKind := flag_kinds ++ str_kinds ++ num_kinds ++ date_kinds ++ [SK_UID; SK_HEADER; SK_NOT; SK_OR].

Lemma arg_kinds_in kind : kind ∈ flag_kinds \/ kind ∈ str_kinds \/ kind ∈ num_kinds \/ kind ∈ date_kinds \/ kind ∈ [SK_UID; SK_HEADER; SK_NOT; SK_OR] -> kind ∈ arg_kinds.
Proof. unfold arg_kinds. rewrite !elem_of_app. tauto. Qed.

Ltac arg_kind := apply arg_kinds_in; first [tauto | do 4 right; rewrite !elem_of_cons; tauto].

(** A name in front of a blank or at the end is read as its kind. *)
Lemma name_parse kind : kind ∈ arg_kinds -> exists c t, kind_name kind = c :: t /\ (c =? SP) = false /\ (c =? "("%chr) = false /\ is_digit c || (c =? "*"%chr) = false /\
  Forall (fun x => key_char x = true) (kind_name kind) /\ kind_of search_names (kind_name kind) = Some kind.
Proof.
  assert (H : forallb (fun k => match kind_name k with
      | c :: t => negb (c =? SP) && negb (c =? "("%chr) && negb (is_digit c || (c =? "*"%chr)) && forallb key_char (c :: t) &&
                  match kind_of search_names (c :: t) with Some k' => if kind_eq k' k then true else false | None => false end
      | [] => false end) arg_kinds = true) by (vm_compute; reflexivity).
  rewrite forallb_forall in H. intros Hk%list_elem_of_In. specialize (H _ Hk). destruct (kind_name kind) as [|c t]; [done|].
  rewrite !andb_true_iff, !negb_true_iff in H. destruct H as [[[[H1 H2] H3] H4] H5]. exists c, t. split; [done|]. split; [done|]. split; [done|]. split; [done|].
  split; [by apply Forall_forall; intros x Hx; rewrite forallb_forall in H4; apply H4, list_elem_of_In|]. destruct (kind_of search_names (c :: t)) as [k'|]; [|done].
  by destruct (kind_eq k' kind) as [->|].
Qed.

Lemma token_split tok rest : Forall (fun x => key_char x = true) tok -> stops rest -> take_while key_char (tok ++ rest) = tok /\ drop_while key_char (tok ++ rest) = rest.
Proof.
  intros Ht Hr. rewrite take_while_app_all, drop_while_app_all by done. destruct Hr as [->|[t ->]]; cbn; by rewrite ?app_nil_r.
Qed.

Lemma skip_one c s : (c =? SP) = false -> skip_blank (SP :: c :: s) = c :: s /\ skip_blank (c :: s) = c :: s.
Proof. intros H. unfold skip_blank. cbn [drop_while]. by rewrite Z.eqb_refl, H. Qed.

(** A keyword with its arguments, in front of which a blank may stand. *)
Lemma keyword_parse f depth kind args k rest : (depth <= IMAPD_MAX_SEARCH_DEPTH)%nat -> kind ∈ arg_kinds -> stops args ->
  search_args (fun s => search_parse_depth f s 0) kind args = Some (k, rest) ->
  search_parse_depth (S f) (kind_name kind ++ args) depth = Some (Some k, rest) /\ search_parse_depth (S f) (SP :: kind_name kind ++ args) depth = Some (Some k, rest).
Proof.
  intros Hd Hk Hs Ha. destruct (name_parse kind Hk) as (c & t & E & H1 & H2 & H3 & H4 & H5). rewrite E in *. cbn [app].
  destruct (skip_one c (t ++ args) H1) as [S1 S2]. cbn [search_parse_depth]. rewrite S1, S2, (proj2 (Nat.ltb_ge _ _)), H2, H3 by done. cbv zeta.
  destruct (token_split (c :: t) args H4 Hs) as [T1 T2]. cbn [app] in T1, T2. rewrite T1, T2, H5. cbn [mbind option_bind]. by rewrite Ha.
Qed.

Lemma needs_one r : stops (SP :: r).
Proof. right. by exists r. Qed.
#[local] Hint Resolve needs_one : core.

Lemma name_len kind : kind ∈ arg_kinds -> (0 < length (kind_name kind))%nat.
Proof. intros H. destruct (name_parse kind H) as (c & t & -> & _). cbn. lia. Qed.

Lemma text_nonempty q : query_ok q -> (0 < length (query_text q))%nat.
Proof.
  destruct q; cbn [query_ok query_text]; intros H.
  1: apply name_len; arg_kind.
  1: destruct H as [rs H]; destruct (set_chars _ _ H) as (_ & c & t & -> & _); cbn; lia.
  all: rewrite length_app; first [apply Nat.lt_lt_add_r; vm_compute; lia | cbn [length]; lia].
Qed.

Lemma query_parse q : query_ok q -> forall f depth rest, (depth <= IMAPD_MAX_SEARCH_DEPTH)%nat -> stops rest -> (length (query_text q ++ rest) < f)%nat ->
  search_parse_depth f (query_text q ++ rest) depth = Some (Some (query_key q), rest) /\
  search_parse_depth f (SP :: query_text q ++ rest) depth = Some (Some (query_key q), rest).
Proof.
  induction q as [kind|set|set|kind str|hdr str|kind n|kind dd mi yy|q IH|q1 IH1 q2 IH2]; intros Hok f depth rest Hd Hr Hf; (destruct f as [|f]; [lia|]); cbn [query_text query_key query_ok] in *.
  - apply keyword_parse; [done|arg_kind|done|]. unfold flag_kinds in Hok. rewrite !elem_of_cons, elem_of_nil in Hok. by destruct_or! Hok; try done; subst kind.
  - destruct Hok as [rs Hw]. pose proof (set_valid _ _ Hw) as Hv. destruct (set_chars _ _ Hw) as (Hk & c & t & -> & Hc). cbn [app]. assert (H1 : (c =? SP) = false) by (unfold is_digit in Hc; lia). assert (H2 : (c =? "("%chr) = false) by (unfold is_digit in Hc; lia).
    destruct (skip_one c (t ++ rest) H1) as [S1 S2]. cbn [search_parse_depth]. rewrite S1, S2, (proj2 (Nat.ltb_ge _ _)), H2, Hc by done. cbv zeta.
    destruct (token_split (c :: t) rest Hk Hr) as [T1 T2]. cbn [app] in T1, T2. by rewrite T1, T2, Hv.
  - change (bs "UID ") with (kind_name SK_UID ++ [SP]). rewrite <- !app_assoc. apply keyword_parse; [done|arg_kind|apply needs_one|].
    cbn [search_args app]. rewrite quoted_parse. cbn [mbind option_bind]. destruct Hok as [[rs Hw] _]. by rewrite (set_valid _ _ Hw).
  - rewrite <- app_assoc. apply keyword_parse; [done|arg_kind|apply needs_one|]. unfold str_kinds in Hok. rewrite !elem_of_cons, elem_of_nil in Hok.
    destruct_or! Hok; try done; subst kind; cbn [search_args app]; by rewrite quoted_parse.
  - change (bs "HEADER ") with (kind_name SK_HEADER ++ [SP]). rewrite <- !app_assoc. apply keyword_parse; [done|arg_kind|apply needs_one|].
    cbn [search_args app]. rewrite quoted_parse. cbn [mbind option_bind]. by rewrite quoted_parse.
  - destruct Hok as [Hk Hn]. rewrite <- app_assoc. apply keyword_parse; [done|arg_kind|apply needs_one|]. cbn [app]. destruct (digits_parse n rest Hn Hr) as [D1 D2].
    unfold num_kinds in Hk. rewrite !elem_of_cons, elem_of_nil in Hk. destruct_or! Hk; try done; subst kind; cbn [search_args]; rewrite D1; cbn [mbind option_bind]; by rewrite D2.
  - destruct Hok as [Hk Hn]. rewrite <- app_assoc. apply keyword_parse; [done|arg_kind|apply needs_one|]. cbn [app]. destruct (date_parse dd mi yy rest Hn Hr) as [D1 D2].
    unfold date_kinds in Hk. rewrite !elem_of_cons, elem_of_nil in Hk. destruct_or! Hk; try done; subst kind; cbn [search_args]; rewrite D1; cbn [mbind option_bind]; by rewrite D2.
  - change (bs "NOT ") with (kind_name SK_NOT ++ [SP]) in *. rewrite <- !app_assoc in *. apply keyword_parse; [done|arg_kind|apply needs_one|].
    cbn [search_args app]. unfold need_key. rewrite length_app in Hf. cbn [app length] in Hf. change (length (kind_name SK_NOT)) with 3%nat in Hf.
    destruct (IH Hok f 0%nat rest ltac:(lia) Hr ltac:(lia)) as [_ ->]. done.
  - destruct Hok as [Hok1 Hok2]. change (bs "OR ") with (kind_name SK_OR ++ [SP]) in *. rewrite <- !app_assoc in *. apply keyword_parse; [done|arg_kind|apply needs_one|].
    cbn [search_args app]. unfold need_key. repeat (rewrite ?length_app in Hf; cbn [app length] in Hf). change (length (kind_name SK_OR)) with 2%nat in Hf.
    destruct (IH1 Hok1 f 0%nat (SP :: query_text q2 ++ rest) ltac:(lia) (needs_one _)) as [_ ->]; [repeat (rewrite ?length_app; cbn [app length]); lia|]. cbn [mbind option_bind].
    destruct (IH2 Hok2 f 0%nat rest ltac:(lia) Hr) as [_ ->]; [rewrite length_app; lia|]. done.
Qed.

(** A program: its queries, one blank apart. *)
Fixpoint program_text (qs : list Query) : bytes :=
  match qs with
  | [] => []
  | [q] => query_text q
  | q :: qs => query_text q ++ SP :: program_text qs
  end.

Lemma program_head q qs : exists rest, program_text (q :: qs) = query_text q ++ rest /\ stops rest /\
  (match qs with [] => rest = [] | _ => rest = SP :: program_text qs end).
Proof.
  destruct qs as [|q' qs]; [exists []; rewrite app_nil_r; repeat split; by left|]. exists (SP :: program_text (q' :: qs)). split; [done|]. split; [apply needs_one|done].
Qed.

Lemma program_loop_text qs : Forall query_ok qs -> forall fuel, (length (program_text qs) < fuel)%nat ->
  program_loop fuel (program_text qs) = Some (map query_key qs) /\ (qs <> [] -> program_loop fuel (SP :: program_text qs) = Some (map query_key qs)).
Proof.
  induction 1 as [|q qs Hq Hqs IH]; intros fuel Hf; (destruct fuel as [|fuel]; [lia|]); [by split|].
  destruct (program_head q qs) as (rest & E & Hst & Hrest). pose proof (text_nonempty q Hq) as Hne. rewrite E in *. rewrite length_app in Hf. cbn [program_loop map]. unfold imapd_search_parse.
  assert (Hend : program_loop fuel rest = Some (map query_key qs)).
  { destruct qs as [|q' qs]; [subst rest; destruct fuel as [|fuel]; [lia|done]|]. subst rest. cbn [length] in Hf. apply IH; [lia|done]. }
  split; [|intros _].
  - destruct (query_parse q Hq (S (length (query_text q ++ rest))) 0%nat rest ltac:(lia) Hst ltac:(lia)) as [-> _]. cbn [mbind option_bind]. by rewrite Hend.
  - cbn [length]. destruct (query_parse q Hq (S (S (length (query_text q ++ rest)))) 0%nat rest ltac:(lia) Hst ltac:(lia)) as [_ ->]. cbn [mbind option_bind]. by rewrite Hend.
Qed.

Lemma chain_match d uidnext nmsgs keys : forall k, imapd_search_match (program_chain k keys) d uidnext nmsgs = forallb (fun k => imapd_search_match k d uidnext nmsgs) (k :: keys).
Proof. induction keys as [|k' keys IH]; intros k; cbn [program_chain forallb imapd_search_match sk_sub]; [by rewrite andb_true_r|]. by rewrite IH. Qed.

Lemma forallb_of_map {A B} (f : A -> B) (p : B -> bool) l : forallb p (map f l) = forallb (fun x => p (f x)) l.
Proof. induction l as [|x l IH]; cbn; [done|]. by rewrite IH. Qed.

(** *** The match is the meaning *)

Lemma ci_has_spec hay needle : ci_has hay needle = true <-> contains hay needle.
Proof.
  unfold ci_has, contains. pose proof (ci_strstr_spec hay needle) as H. destruct (ci_strstr hay needle) as [o|].
  - destruct H as [H _]. split; [by exists o|done].
  - split; [done|]. intros [o Ho]. by destruct (H o).
Qed.

Lemma has_flag_spec m bit : has_flag m bit = true <-> marked m bit.
Proof. unfold has_flag, marked. by rewrite negb_true_iff, Z.eqb_neq. Qed.

Lemma has_flag_no m bit : negb (has_flag m bit) = true <-> ~ marked m bit.
Proof. rewrite <- has_flag_spec. by destruct (has_flag m bit). Qed.

Lemma header_match_spec kind hdr str d file : im_hdr_valid (dc_m d) = false -> dc_msg d = Some file ->
  ieq hdr (bs "Message-ID") && negb (is_nil (im_mid (dc_m d))) = false ->
  search_header_match kind hdr str d = true <-> header_holds file (search_hdr_name kind hdr) str.
Proof.
  intros Hv Hm Hi. unfold search_header_match, header_holds. cbv zeta. rewrite Hi, Hv, Hm. cbn [andb].
  destruct (mail_header_get file _ 4096) as [v|]; [|split; [done|by intros (? & ? & _)]].
  rewrite ci_has_spec. split; [by exists v|]. by intros (? & [= <-] & H).
Qed.

Lemma keyword_match_spec m kw : search_keyword_match m kw = true <-> keyword_holds m kw.
Proof.
  unfold search_keyword_match, keyword_holds. destruct kw as [|c t].
  - cbn. split; [done|]. by intros (? & ? & _).
  - cbv zeta. generalize (if c =? "\"%chr then t else c :: t). intros name. cbn [keyword_loop keyword_tab List.find fst].
    repeat match goal with |- context [ieq name ?x] => destruct (ieq name x); [apply has_flag_spec|] end.
    destruct name as [|x [|y name]]; [split; [done|by intros (? & ? & _)]| |split; [done|by intros (? & ? & _)]].
    rewrite has_spec. split; [by exists x|]. by intros (? & [= <-] & H).
Qed.

Lemma key_holds q m file seq nmsgs uidnext : query_ok q -> im_hdr_valid m = false -> 1 <= seq <= nmsgs -> nmsgs <= UINT32_MAX -> uidnext <> 0 ->
  imapd_search_match (query_key q) {| dc_m := m; dc_seq := seq; dc_msg := Some file |} uidnext nmsgs = true <-> query_holds q m file seq nmsgs uidnext.
Proof.
  intros Hok Hv Hs Hn Hu. induction q as [kind|set|set|kind str|hdr str|kind n|kind dd mi yy|q IH|q1 IH1 q2 IH2]; cbn [query_ok query_key query_holds] in *.
  - unfold flag_kinds in Hok. rewrite !elem_of_cons, elem_of_nil in Hok.
    destruct_or! Hok; try done; subst kind; cbn [sk_new imapd_search_match flag_holds dc_m];
      rewrite ?andb_true_iff, ?has_flag_no, ?has_flag_spec, ?negb_true_iff; done.
  - destruct Hok as [rs Hw]. cbn [sk_set imapd_search_match dc_seq]. rewrite !u32_small by (unfold UINT32_MAX in *; lia).
    destruct (seqset_exact set seq nmsgs ltac:(lia)) as [_ Hx]. split; [intros H; exists rs; split; [done|by apply Hx]|].
    intros (rs' & Hw' & H). by apply (Hx rs').
  - destruct Hok as [[rs Hw] _]. cbn [sk_set imapd_search_match dc_m].
    destruct (seqset_exact set (im_uid m) uidnext Hu) as [_ Hx]. split; [intros H; exists rs; split; [done|by apply Hx]|].
    intros (rs' & Hw' & H). by apply (Hx rs').
  - unfold str_kinds in Hok. rewrite !elem_of_cons, elem_of_nil in Hok.
    destruct_or! Hok; try done; subst kind; cbn [sk_str imapd_search_match text_holds dc_m dc_msg];
      first [ by apply header_match_spec | apply ci_has_spec | apply keyword_match_spec
            | rewrite <- keyword_match_spec; by destruct (search_keyword_match m str) ].
  - cbn [sk_str imapd_search_match]. destruct (ieq hdr (bs "Message-ID") && negb (is_nil (im_mid m))) eqn:Hi.
    + unfold search_header_match. cbv zeta. cbn [dc_m]. rewrite Hi. apply ci_has_spec.
    + by apply (header_match_spec SK_HEADER hdr str).
  - destruct Hok as [Hk _]. unfold num_kinds in Hk. rewrite !elem_of_cons, elem_of_nil in Hk.
    destruct_or! Hk; try done; subst kind; cbn [sk_num imapd_search_match num_holds dc_m]; lia.
  - destruct Hok as [Hk _]. unfold date_kinds in Hk. rewrite !elem_of_cons, elem_of_nil in Hk.
    destruct_or! Hk; try done; subst kind; cbn [sk_date imapd_search_match date_holds dc_m]; cbv zeta; generalize (day_number dd mi yy * 86400); intros z; lia.
  - cbn [sk_sub imapd_search_match]. rewrite <- (IH Hok). by destruct (imapd_search_match _ _ _ _).
  - destruct Hok as [H1 H2]. cbn [sk_sub imapd_search_match]. by rewrite orb_true_iff, (IH1 H1), (IH2 H2).
Qed.

(** C31: A search program finds what it says. The text of a program -- queries over
    flags, sequence sets, strings, sizes, dates (in years that are no leap years), NOT
    and OR, nested to at most the 64 levels of the code, without parentheses and
    without a star among uids, whose handling is recorded as bugs -- parses, and the
    program it gives matches a message, read from its file, exactly when each query
    holds of it. *)
Theorem search_program_exact (qs : list Query) : program_ok qs ->
  exists k, imapd_search_parse_program (program_text qs) = Some k /\
    forall m file seq nmsgs uidnext, im_hdr_valid m = false -> 1 <= seq <= nmsgs -> nmsgs <= UINT32_MAX -> uidnext <> 0 ->
      imapd_search_match k {| dc_m := m; dc_seq := seq; dc_msg := Some file |} uidnext nmsgs = true <->
      Forall (fun q => query_holds q m file seq nmsgs uidnext) qs.
Proof.
  intros [Hne Hall]. assert (Hok : Forall query_ok qs) by (eapply Forall_impl; [exact Hall|]; by intros q [H _]).
  unfold imapd_search_parse_program. destruct (program_loop_text qs Hok (S (length (program_text qs))) ltac:(lia)) as [-> _].
  destruct qs as [|q qs]; [done|]. cbn [mbind option_bind map]. eexists. split; [done|]. intros m file seq nmsgs uidnext Hv Hs Hn Hu.
  rewrite chain_match. change (query_key q :: map query_key qs) with (map query_key (q :: qs)). rewrite forallb_of_map.
  clear Hne Hall. induction Hok as [|x l Hx _ IH]; cbn [forallb]; [split; [constructor|done]|].
  rewrite andb_true_iff, Forall_cons, IH. by rewrite (key_holds x m file seq nmsgs uidnext).
Qed.

Definition doc_one : ImailDoc :=
  {| dc_m := {| im_uid := 1; im_flags := IMAIL_SEEN; im_unk := []; im_recent := false; im_date := 0; im_size := 10; im_modseq := 1; im_base := bs "b"; im_path := bs "p"; im_mid := [];
                im_hdr := None; im_hdr_fsize := 0; im_hdr_mtime := 0; im_hdr_ctime := 0; im_hdr_loaded := false; im_hdr_valid := false |};
     dc_seq := 1; dc_msg := Some (bs "From: Bob <bob@x>" ++ CRLF ++ CRLF ++ bs "a needle") |}.

Definition program_one : list Query :=
  [QFlag SK_SEEN; QOr (QNot (QNum SK_LARGER 5)) (QStr SK_FROM (bs "bOB")); QStr SK_BODY (bs "needle"); QSet (bs "*"); QDate SK_BEFORE 3 9 2023].

Lemma program_one_ok : program_ok program_one.
Proof.
  split; [done|]. apply Forall_forall. intros q Hq. unfold program_one in Hq. rewrite !elem_of_cons, elem_of_nil in Hq.
  destruct_or! Hq; try done; subst q; (split; [|apply Nat.leb_le; vm_compute; reflexivity]); cbn [query_ok].
  - by apply list_elem_of_In; vm_compute; tauto.
  - repeat split; try done; apply list_elem_of_In; vm_compute; tauto.
  - by apply list_elem_of_In; vm_compute; tauto.
  - exists [(SeqStar, SeqStar)]. constructor. apply wr_one, we_star.
  - split; [apply list_elem_of_In; vm_compute; tauto|]. split; [lia|]. split; [vm_compute; split; discriminate|]. split; [lia|reflexivity].
Qed.

Lemma search_program_exact_witness :
  program_text program_one = bs "SEEN OR NOT LARGER 5 FROM " ++ quoted (bs "bOB") ++ bs " BODY " ++ quoted (bs "needle") ++ bs " * BEFORE 3-Oct-2023" /\
  Forall (fun q => query_holds q (dc_m doc_one) (default [] (dc_msg doc_one)) 1 1 2) program_one.
Proof.
  split; [vm_compute; reflexivity|]. destruct (search_program_exact program_one program_one_ok) as (k & E & H).
  apply H; [reflexivity|lia|unfold UINT32_MAX; lia|lia|]. assert (Hk : imapd_search_parse_program (program_text program_one) = Some k) by exact E.
  vm_compute in Hk. injection Hk as <-. vm_compute. reflexivity.
Defined.

(** ** What a scan may leave unread *)

(** The metadata of a message without its header cache. *)
Definition uncached (m : Imail) : Imail :=
  {| im_uid := im_uid m; im_flags := im_flags m; im_unk := im_unk m; im_recent := im_recent m; im_date := im_date m;
     im_size := im_size m; im_modseq := im_modseq m; im_base := im_base m; im_path := im_path m; im_mid := im_mid m;
     im_hdr := None; im_hdr_fsize := 0; im_hdr_mtime := 0; im_hdr_ctime := 0; im_hdr_loaded := false; im_hdr_valid := false |}.

(** The value of a field in a file as SEARCH reads it, empty when there is none. *)
Definition file_field (file name : bytes) : bytes := default [] (c_str <$> mail_header_get file name 4096).

(** The cache and the Message-ID of a view entry hold what the file holds. *)
Record cache_of (m : Imail) (file : bytes) : Prop := {
  co_valid : im_hdr_valid m = true;
  co_fields : im_hdr m = Some (map (file_field file) MAIL_HDR_FIELDS);
  co_mid : im_mid m = [] -> file_field file (bs "Message-ID") = []
}.

(** Every header key asks for some text. *)
Fixpoint needles (k : SearchKey) : bool :=
  match k with
  | SkNull => true
  | Sk kind _ _ str _ _ a b =>
      match kind with
      | SK_FROM | SK_TO | SK_CC | SK_BCC | SK_SUBJECT | SK_HEADER => negb (is_nil str)
      | SK_NOT => needles a
      | SK_OR | SK_AND => needles a && needles b
      | _ => true
      end
  end.

Lemma header_get_loop_ieq a b sz : ieq a b = true -> forall fuel s, header_get_loop fuel s a sz = header_get_loop fuel s b sz.
Proof.
  intros H. pose proof (ieq_length _ _ H) as Hl. apply ieq_spec in H. induction fuel as [|fuel IH]; intros s; cbn [header_get_loop]; [done|]. destruct s as [|c s]; [done|].
  destruct (starts_eol (c :: s)); [done|]. destruct (scan_header (c :: s)) as [[n h] rest]. unfold is_named, header_value. rewrite Hl, IH. destruct n as [x|]; [|done].
  assert (E : ieq x a = ieq x b) by (apply eq_iff_eq_true; by rewrite !ieq_spec, H). by rewrite E.
Qed.

Lemma header_get_ieq a b msg sz : ieq a b = true -> mail_header_get msg a sz = mail_header_get msg b sz.
Proof. intros H. unfold mail_header_get. by rewrite (header_get_loop_ieq a b), (ieq_length _ _ H). Qed.

Lemma fld_loop_spec fields name : forall i, 0 <= i -> let f := hdr_fld_loop fields name i in
  f = -1 \/ exists j x, f = i + Z.of_nat j /\ fields !! j = Some x /\ ieq name x = true.
Proof.
  induction fields as [|x fields IH]; intros i Hi; cbn [hdr_fld_loop]; [by left|]. destruct (ieq name x) eqn:E.
  - right. exists 0%nat, x. repeat split; [lia|done].
  - destruct (IH (i + 1) ltac:(lia)) as [->|(j & y & -> & Hj & Hy)]; [by left|]. right. exists (S j), y. repeat split; [lia|done|done].
Qed.

Lemma ci_has_nil needle : needle <> [] -> ci_has [] needle = false.
Proof. unfold ci_has, ci_strstr. by destruct needle. Qed.

Lemma header_match_cached kind hdr str m seq file : cache_of m file -> str <> [] ->
  imapd_mail_hdr_fld (search_hdr_name kind hdr) <> -1 \/ ieq (search_hdr_name kind hdr) (bs "Message-ID") = true ->
  search_header_match kind hdr str {| dc_m := m; dc_seq := seq; dc_msg := None |}
  = search_header_match kind hdr str {| dc_m := uncached m; dc_seq := seq; dc_msg := Some file |}.
Proof.
  intros [Hv Hf Hmid] Hs Hname. unfold search_header_match. cbn [dc_m dc_msg uncached im_mid im_hdr_valid im_hdr andb]. set (name := search_hdr_name kind hdr) in *. cbv zeta.
  destruct (ieq hdr (bs "Message-ID") && negb (is_nil (im_mid m))) eqn:Em; [done|]. rewrite Hv. cbn [andb].
  assert (Hfile : match mail_header_get file name 4096 with None => false | Some v => ci_has (c_str v) str end = ci_has (file_field file name) str).
  { unfold file_field. destruct (mail_header_get file name 4096) as [v|]; [done|]. symmetry. by apply ci_has_nil. }
  rewrite Hfile. destruct (fld_loop_spec MAIL_HDR_FIELDS name 0 ltac:(lia)) as [E|(j & x & E & Hj & Hx)]; fold (imapd_mail_hdr_fld name) in E.
  - rewrite E. destruct Hname as [|Hname]; [done|]. cbn [Z.leb]. change (0 <=? -1) with false. cbn iota. unfold file_field. rewrite (header_get_ieq _ _ file 4096 Hname). fold (file_field file (bs "Message-ID")).
    rewrite Hmid; [by rewrite ci_has_nil|]. destruct (is_nil (im_mid m)) eqn:En; [by destruct (im_mid m)|]. exfalso. rewrite andb_true_r in Em.
    unfold name, search_hdr_name in Hname. destruct kind; try (by vm_compute in Hname); by rewrite Hname in Em.
  - rewrite E. rewrite (proj2 (Z.leb_le 0 _)) by lia. unfold imapd_mail_hdr_field. rewrite Hf, Z.add_0_l, Nat2Z.id.
    rewrite list_lookup_fmap, Hj. cbn [fmap option_fmap option_map]. unfold file_field. by rewrite (header_get_ieq _ _ file 4096 Hx).
Qed.

Lemma header_cacheable kind hdr : match kind with SK_FROM | SK_TO | SK_CC | SK_BCC | SK_SUBJECT => true | SK_HEADER => ieq hdr (bs "Message-ID") || ieq hdr (bs "Date") | _ => false end = true ->
  imapd_mail_hdr_fld (search_hdr_name kind hdr) <> -1 \/ ieq (search_hdr_name kind hdr) (bs "Message-ID") = true.
Proof.
  destruct kind; try done; try (left; by vm_compute). intros [H|H]%orb_true_iff; [by right|]. left. cbn [search_hdr_name]. unfold imapd_mail_hdr_fld, MAIL_HDR_FIELDS. cbn [hdr_fld_loop].
  rewrite H. by repeat destruct (ieq hdr _).
Qed.

(** searching the header cache finds what reading the files would. For a program the
    cache can serve, with a text in every header key, a message whose cached fields are
    those of its file matches without the file exactly when it matches with it. *)
Theorem search_cache_exact (k : SearchKey) (m : Imail) (file : bytes) (seq uidnext nmsgs : Z) :
  imapd_search_hdr_cacheable k = true -> needles k = true -> cache_of m file ->
  imapd_search_match k {| dc_m := m; dc_seq := seq; dc_msg := None |} uidnext nmsgs
  = imapd_search_match k {| dc_m := uncached m; dc_seq := seq; dc_msg := Some file |} uidnext nmsgs.
Proof.
  intros Hc Hn Hm. induction k as [|kind set hdr str num date a IHa b IHb]; [done|].
  assert (H : forall kd, kd = kind -> match kd with SK_FROM | SK_TO | SK_CC | SK_BCC | SK_SUBJECT | SK_HEADER => True | _ => False end ->
    search_header_match kd hdr str {| dc_m := m; dc_seq := seq; dc_msg := None |} = search_header_match kd hdr str {| dc_m := uncached m; dc_seq := seq; dc_msg := Some file |}).
  { intros kd -> Hk. apply header_match_cached; [done| |apply header_cacheable]; destruct kind; try done; cbn in Hn; by destruct str. }
  destruct kind; cbn [imapd_search_match imapd_search_hdr_cacheable needles] in *; try done; try (by apply H).
  - by rewrite IHa.
  - apply andb_true_iff in Hc as [? ?], Hn as [? ?]. by rewrite IHa, IHb.
  - apply andb_true_iff in Hc as [? ?], Hn as [? ?]. by rewrite IHa, IHb.
Qed.

Definition mail_file : bytes := bs "From: Bob" ++ CRLF ++ bs "Subject: hi" ++ CRLF ++ CRLF ++ bs "x".

Definition cached_mail : Imail :=
  {| im_uid := 1; im_flags := 0; im_unk := []; im_recent := false; im_date := 0; im_size := 10; im_modseq := 1; im_base := bs "b"; im_path := bs "p"; im_mid := [];
     im_hdr := Some [bs "Bob"; []; []; []; bs "hi"; []]; im_hdr_fsize := 0; im_hdr_mtime := 0; im_hdr_ctime := 0; im_hdr_loaded := true; im_hdr_valid := true |}.

Definition bob_key : SearchKey := sk_sub SK_AND (sk_str SK_FROM [] (bs "bo")) (sk_sub SK_NOT (sk_str SK_SUBJECT [] (bs "ho")) SkNull).

Lemma search_cache_exact_witness : imapd_search_match bob_key {| dc_m := uncached cached_mail; dc_seq := 1; dc_msg := Some mail_file |} 2 1 = true.
Proof.
  rewrite <- (search_cache_exact bob_key cached_mail mail_file 1 2 1); [vm_compute; reflexivity|reflexivity|reflexivity|].
  split; [reflexivity|vm_compute; reflexivity|intros _; vm_compute; reflexivity].
Defined.

(** A program without a content key is answered from the metadata alone. *)
Lemma search_metadata_only k m seq msg uidnext nmsgs : imapd_search_needs_hdr k = false ->
  imapd_search_match k {| dc_m := m; dc_seq := seq; dc_msg := msg |} uidnext nmsgs = imapd_search_match k {| dc_m := m; dc_seq := seq; dc_msg := None |} uidnext nmsgs.
Proof.
  induction k as [|kind set hdr str num date a IHa b IHb]; [done|]. intros Hn. destruct kind; cbn [imapd_search_match imapd_search_needs_hdr] in *; try done.
  - by rewrite IHa.
  - apply orb_false_iff in Hn as [? ?]. by rewrite IHa, IHb.
  - apply orb_false_iff in Hn as [? ?]. by rewrite IHa, IHb.
Qed.

(** ** Departures *)

(** A group matches no message, since its last AND has a null operand, which matches
    nothing. *)
Lemma group_matches_nothing keys d uidnext nmsgs : imapd_search_match (group_chain keys) d uidnext nmsgs = false.
Proof. induction keys as [|k keys IH]; cbn [group_chain imapd_search_match sk_sub]; [done|]. by rewrite IH, andb_false_r. Qed.

Lemma group_key_lost : imapd_search_parse_program (bs "(SEEN)") = Some (group_chain [sk_new SK_SEEN]) /\
  imapd_search_match (sk_new SK_SEEN) doc_one 2 1 = true /\ imapd_search_match (group_chain [sk_new SK_SEEN]) doc_one 2 1 = false.
Proof. repeat split; vm_compute; reflexivity. Qed.

(** The operands of NOT start again at depth 0: 100 levels of NOT and parentheses pass,
    65 parentheses alone do not. *)
Fixpoint deep (n : nat) (pre post : bytes) : bytes := match n with O => bs "ALL" | S n' => pre ++ deep n' pre post ++ post end.

Lemma not_resets_depth : (exists k, imapd_search_parse_program (deep 100 (bs "(NOT ") (bs ")")) = Some k) /\ imapd_search_parse_program (deep 65 (bs "(") (bs ")")) = None.
Proof. split; [eexists|]; vm_compute; reflexivity. Qed.

(** The count is right in the years that are no leap years up to 2099, a day late in leap
    years, and 14 days early in 2000. *)
Lemma epoch_days_exact yy : 1970 <= yy < 2100 -> epoch_days yy = civil_days yy + (if yy =? 2000 then -14 else if leap_year yy then 1 else 0).
Proof.
  intros H. assert (A : forallb (fun n => let y := 1970 + Z.of_nat n in epoch_days y =? civil_days y + (if y =? 2000 then -14 else if leap_year y then 1 else 0)) (seq 0 130) = true)
    by (vm_compute; reflexivity).
  rewrite forallb_forall in A. specialize (A (Z.to_nat (yy - 1970)) ltac:(apply in_seq; lia)). cbv zeta in A. rewrite Z2Nat.id in A by lia.
  replace (1970 + (yy - 1970)) with yy in A by lia. by apply Z.eqb_eq.
Qed.

Lemma leap_year_dates_late : search_date (bs "1-Jan-2024") = Some (86400 * (civil_days 2024 + 1)) /\ search_date (bs "1-Jan-2023") = Some (86400 * civil_days 2023).
Proof. split; vm_compute; reflexivity. Qed.

(** A number with a minus sign is read modulo 2^64, so LARGER -1 matches nothing and
    SMALLER -1 everything. *)
Lemma negative_size_wraps : whole_ull (bs "-1") = Some (2 ^ 64 - 1).
Proof. vm_compute. reflexivity. Qed.
